(* ===== verification/_CoqProject ===== *)
-Q . S2P
Prelude.v
Framing.v
Wire.v
Delivery.v
Relay.v
RelayProtocol.v
Directory.v
DirectoryProtocol.v
RateLimit.v
Inventory.v
Accounts.v
AccountsState.v
AccountsSessions.v
AccountsCodec.v
InventoryTx.v
Persist.v
OperationStore.v
GroupCodec.v
Invitation.v
GroupPayload.v
RosterView.v
GroupReceive.v
GroupSend.v
GroupTranscript.v
GroupCompaction.v
GroupControl.v
DeferredRosters.v
GroupRecords.v
GroupInbound.v
GroupClient.v
GroupDrive.v
GroupRecovery.v
GroupTransition.v
GroupLanding.v
GroupCoordinator.v
GroupSession.v
GroupDrain.v
GroupPrepare.v
Provider.v
DurableOpen.v
DirServer.v
Transport.v
Connection.v
Provisioning.v
Server.v
ServerRestart.v
Mailbox.v
Seal.v
ClientState.v
PairwiseClient.v
ClientRestore.v
Issuer.v
Url.v
Tenant.v
Http.v
Gateway.v
