(* ===== verification/Prelude.v ===== *)
(** * Tacenta: a verification library of the messaging system's core

    Tacenta is an end-to-end encrypted messenger.  A node ([crates/tacenta-server])
    runs a directory of device keys, a relay of sealed envelopes and an account
    service over one state; a client ([crates/tacenta-client]) keeps a pairwise
    ratchet with every peer and, on top of it, small groups whose rosters,
    messages and invitations go through one durable snapshot; a gateway
    ([crates/tacenta-gateway]) signs tenants up over HTTP.  This library
    translates the code that decides what these parts do, one definition per
    function, and proves what they promise.  Paths below are under [src/crates/].

    ** How the parts fit, and which file models which

    - Shared: [Prelude] (the [result] monad, checked and saturating integers,
      lists, the [lens] rewrites), [Framing] (the length-prefixed fields of every
      protocol, with the class [Frames]).
    - Envelopes and delivery: [Wire] ([tacenta-wire]), [Delivery]
      ([tacenta-state], the cursor machines, class [Delivers]).
    - Relay: [Relay] (queues and byte budgets, [tacenta-relay/src/lib.rs]),
      [RelayProtocol] (messages, [handle], snapshots).
    - Directory: [Directory] ([tacenta-directory-core], [tacenta-directory]),
      [DirectoryProtocol] (messages and snapshots), [DirServer] (the connection:
      challenges, possession proofs, throttles;
      [tacenta-transport/src/directory.rs]), [RateLimit] (the three throttles).
    - Accounts: [Accounts] (the store, class [Environment] for hashes and random
      draws), [AccountsState] and [AccountsSessions] (what its runs maintain),
      [AccountsCodec] (messages and snapshots), [Inventory] (the device
      lifecycle), [InventoryTx] (its database transaction, interleaved),
      [Issuer] (the key that signs inventories, starters interleaved).
    - Carriage: [Transport] (frames), [Connection] (requests paired with
      responses), [Provisioning], [Server] (the relay service, the account
      service, the provisioner and the node over them), [ServerRestart]
      (snapshots on disk and restarts), [Mailbox] (a device waiting for mail).
    - Pairwise client: [Provider] and [DurableOpen] (the party, in memory and on
      disk; [tacenta-core/src/crypto]), [Seal] and [ClientState] (sealed state
      blobs), [PairwiseClient] and [ClientRestore] (every call of
      [tacenta-client/src/lib.rs], and what a restored client resumes).
    - Files: [Persist] (atomic replacement and lock files over a directory of
      names and inodes; [tacenta-core/src/persist.rs]).
    - Groups, values ([tacenta-group]): [GroupCodec], [GroupPayload],
      [Invitation], [RosterView], [GroupReceive], [GroupSend].
    - Groups, client: [OperationStore] (the snapshot, the store trait as a class,
      the latching handle, the file store, and the class [FencedStore] of what a
      store promises), [GroupControl] and [DeferredRosters] (the two outboxes
      beside the sends), [GroupTranscript] and [GroupCompaction] (the outbox
      recovered from its records), [GroupRecords], [GroupInbound] (the commits of
      [group_operations.rs]), [GroupClient] and [GroupDrive] (the receiving and
      the sending calls of [group_client.rs]), [GroupRecovery],
      [GroupTransition], [GroupLanding], [GroupCoordinator], [GroupSession]
      (every call keeps the snapshot such that a restart rebuilds the state),
      [GroupDrain], [GroupPrepare].
    - Discovery and the gateway: [Url], [Tenant] (the service document and the
      handle), [Http] (the fetch), [Gateway].

    State and operations keep the source's names.  A struct is a record of its
    fields; a handler is one function of the state and its arguments, with the
    guards in the source's order; a mutable borrow is the new value, returned.  A
    panic is [None], an error a value of [result]; a 64-bit addition is
    [checked_add64] or [saturating_add64] as in the source.  Maps are [gmap],
    byte strings lists of bytes.  What an asynchronous call awaits is an argument
    or an oracle of what was done before; tasks that run at once are step
    relations, one step per lock or system call.

    ** What the theorems show

    - Messages arrive once and in order: the relay and its budgets
      ([Relay.relay_budgets_hold], [Relay.relay_operations_exact],
      [RelayProtocol.relay_handle_isolates], [Server.relay_serves_the_bound]),
      frames and responses ([Transport.frames_survive_cancellation],
      [Connection.responses_are_paired]), no lost wake-up
      ([Mailbox.mail_wakes_the_receiver]) and group receive
      ([GroupReceive.receive_exactly_once], [GroupReceive.receiver_bounded]).
    - Keys decide: [Directory.directory_runs_exact] (every answer is that of the
      history), [DirServer.directory_needs_the_keys],
      [Server.account_names_are_earned], [Gateway.gateway_keys_are_earned],
      [AccountsSessions.sessions_are_exact], [Issuer.issuer_key_is_one],
      [Tenant.documents_stay_on_origin].
    - Nothing is sent that is not recorded, and no ratchet moves back:
      [PairwiseClient.sends_commit_before_wire],
      [GroupSession.only_committed_is_sent],
      [ClientRestore.sealed_states_never_roll_back],
      [Provider.provider_outcomes_exact], [ClientState.sealed_state_exact],
      [GroupPrepare.refusals_precede_encryption], [GroupSend.send_moves_forward],
      [GroupControl.control_handoffs_exact].
    - A crash or a restart loses nothing: [GroupSession.restart_rebuilds],
      [GroupTranscript.outbox_recovers_exactly],
      [GroupCompaction.compaction_never_strands],
      [GroupDrain.drain_applies_what_follows], [OperationStore.no_lost_update],
      [OperationStore.durable_handle_fails_closed],
      [DurableOpen.durable_party_survives_crash],
      [Persist.write_replaces_atomically], [ServerRestart.server_restarts],
      [AccountsCodec.account_snapshot_restores].
    - Interleavings have sequential meaning:
      [InventoryTx.transactions_serialize], [Issuer.issuer_key_is_one],
      [Mailbox.mail_wakes_the_receiver].
    - Admission and lifecycle: [Invitation.invitation_admission_justified],
      [RosterView.roster_chain], [Inventory.inventory_lifecycle],
      [AccountsState.accounts_stay_well_typed],
      [RateLimit.throttle_exact_and_bounded].
    - Parsing: [Http.fetch_ignores_fragmentation], and the exact codecs of every
      message and snapshot as lemmas ([Wire.wire_codec_exact],
      [RelayProtocol.relay_request_exact] and their like).

    ** The group coordinator in more detail

    [GroupTransition] shows what each commit of a group operation leaves to be
    recovered when it succeeds, on any store.  [GroupLanding] lifts this to
    stores whose commits have unknown outcomes: [kept d snap group] says the
    coordinator runs what an attach to [snap] gives and that what is durable is
    [snap] or, once the handle is latched, a snapshot of the same group one
    commit ahead ([adoptable]); every commit keeps it, whatever the store
    answers.  [GroupCoordinator] and [GroupSession] carry it through the calls;
    [recover] and [restart] read the store and adopt what they find.  A poisoned
    coordinator that attaches is the one call outside it:
    [GroupSession.frozen_attach_overwrites] runs the harm it can do.

    ** Fuel and bounds

    Loops that are not structural take fuel from their input and are shown not to
    run out: the length of the buffer ([decode_stream_loop], [feed_loop],
    [split_lines], [trim_of]), of the list that shrinks at each turn
    ([drain_loop], [reclaim_loop], [evict_loop], [compact_loop]) or of what the
    stream can still deliver ([next_loop]); symbolic links are followed at most
    as often as the system does ([Persist]).  A starter of the issuer returns
    within 51 of its own calls.  Counters are 64 bits: where one can reach its
    end the theorem says how much room it assumes.

    ** Parameters

    Code that is not in the repository is a parameter: the protocol engine
    ([Engine], with [EngineLaws]), the inventory statements ([InventoryCore]), a
    signature check ([Possession]), the MAC of sealed blobs ([Mac]), the two
    commitments of a group ([rc], [pc]), password hashing and random draws
    ([Environment]), the platform's secure store ([SecureStore]), name
    resolution, certificates and JSON ([Tenant]), the HTTP library ([Gateway])
    and the visibility and locking of single SQL statements ([InventoryTx]).  The
    answers of the operating system are lists in the state of the file stores
    ([IoAnswers]); the network is a function of everything done before
    ([Network], and [encrypt], [dispatch], [prepare], [export] of the
    coordinator).  Every theorem over such a parameter is applied, in the lemma
    named after it with [_witness], to a concrete one.

    ** What is not modelled

    Sockets, TLS and WebSocket framing, accept loops and deadlines; the programs
    around the libraries (the server's and gateway's [main.rs], [tacenta-cli],
    the demo and the echo bot) and the bindings ([tacenta-ffi], [tacenta-wasm]);
    the database arms of the account store other than the inventory transaction;
    [create_dir_all_private], the Windows branches and the loss of unsynced data
    in [Persist]; the text of error messages; [durable.rs], which is a test.
    Futures are dropped between steps in [Transport] and [Connection] only: a
    call of the coordinator or of the pairwise client runs to its end. *)

From Stdlib Require Export ZArith Lia.
From stdpp Require Export base tactics option list gmap sets strings countable sorting.
From Stdlib Require Export Init.Byte.
From Stdlib Require Strings.Byte Strings.String.

#[global] Open Scope Z_scope.
#[global] Set Default Goal Selector "!".
#[global] Set Warnings "-clear-no-such-hyp".

(** ** Results

    Rust's [Result<A, E>].  [result E] is given stdpp's monad operations, so
    that [x ← m; k] reads as the [?] operator does in the source. *)
Inductive result (E A : Type) : Type :=
| Ok (a : A)
| Err (e : E).
Arguments Ok {E A} a.
Arguments Err {E A} e.

#[global] Instance result_ret E : MRet (result E) := fun A a => Ok a.
#[global] Instance result_bind E : MBind (result E) := fun A B k m =>
  match m with Ok a => k a | Err e => Err e end.

#[global] Instance result_eq_dec {E A} `{EqDecision E, EqDecision A} :
  EqDecision (result E A).
Proof. solve_decision. Defined.

(** [Option::ok_or]. *)
Definition ok_or {E A} (e : E) (o : option A) : result E A :=
  match o with Some a => Ok a | None => Err e end.

(** [Result::map_err] with a constant closure. *)
Definition map_err {E F A} (f : F) (r : result E A) : result F A :=
  match r with Ok a => Ok a | Err _ => Err f end.

(** A guard: [if c { return Err(e) }] in front of the rest of a body. *)
Definition guard_err {E} (e : E) (c : bool) : result E unit :=
  if c then Err e else Ok tt.

(** ** Machine integers

    An unsigned integer of the source is a [Z] in its range.  Plain [+] and
    [-] panic on overflow, so their models are partial; [None] is the panic. *)
Definition u8_max : Z := 255.
Definition u16_max : Z := 65535.
Definition u32_max : Z := 4294967295.
Definition u64_max : Z := 18446744073709551615.

Definition saturating_add64 (a b : Z) : Z := Z.min (a + b) u64_max.
Definition saturating_sub (a b : Z) : Z := Z.max 0 (a - b).
Definition checked_add64 (a b : Z) : option Z :=
  if a + b <=? u64_max then Some (a + b) else None.
Definition checked_sub (a b : Z) : option Z :=
  if b <=? a then Some (a - b) else None.

(** A slice or [Vec] length, as a [usize]. *)
Definition len {A} (l : list A) : Z := Z.of_nat (length l).

(** [u32::try_from(n).ok()], [u16::try_from(n).ok()] and [u8::try_from(n).ok()]
    of a [usize]. *)
Definition u32_try_from (n : Z) : option Z := if n <=? u32_max then Some n else None.
Definition u16_try_from (n : Z) : option Z := if n <=? u16_max then Some n else None.
Definition u8_try_from (n : Z) : option Z := if n <=? u8_max then Some n else None.

Arguments u8_max : simpl never.
Arguments u16_max : simpl never.
Arguments u32_max : simpl never.
Arguments u64_max : simpl never.
Arguments len : simpl never.

(** ** Bytes *)
Abbreviation bytes := (list byte).

#[global] Instance byte_eq_dec : EqDecision byte := Strings.Byte.byte_eq_dec.

(** A [u8] as the integer it is, and the truncation of an integer to a [u8]. *)
Definition byte_val (b : byte) : Z := Z.of_N (Strings.Byte.to_N b).
Definition byte_of (z : Z) : byte :=
  default x00 (Strings.Byte.of_N (Z.to_N (z mod 256))).

(** The bytes of a Rust byte-string literal. *)
Definition bstr (s : String.string) : bytes := String.list_byte_of_string s.
Arguments bstr s%_string.

(** [to_be_bytes] of an integer of [n] bytes, and [from_be_bytes]. *)
Fixpoint be_bytes (n : nat) (z : Z) : bytes :=
  match n with
  | O => []
  | S n => be_bytes n (z / 256) ++ [byte_of z]
  end.

Definition be_value (bs : bytes) : Z :=
  fold_left (fun acc b => acc * 256 + byte_val b) bs 0.

Arguments be_bytes : simpl never.

Abbreviation be16 := (be_bytes 2).
Abbreviation be32 := (be_bytes 4).
Abbreviation be64 := (be_bytes 8).

(** [slice::split_at_checked]. *)
Definition split_at_checked {A} (n : Z) (l : list A) : option (list A * list A) :=
  if n <=? len l then Some (take (Z.to_nat n) l, drop (Z.to_nat n) l) else None.

(** [slice::get(a..b)], [slice::get(..n)] and [slice::get(n..)]. *)
Definition get_range {A} (a b : Z) (l : list A) : option (list A) :=
  if (a <=? b) && (b <=? len l) then Some (take (Z.to_nat (b - a)) (drop (Z.to_nat a) l))
  else None.
Definition get_to {A} (n : Z) (l : list A) : option (list A) := fst <$> split_at_checked n l.
Definition get_from {A} (n : Z) (l : list A) : option (list A) := snd <$> split_at_checked n l.

(** [<[u8; N]>::try_from(slice).ok()]. *)
Definition to_array {A} (n : Z) (l : list A) : option (list A) :=
  if len l =? n then Some l else None.

(** [slice::starts_with]. *)
Fixpoint starts_with (p bs : bytes) : bool :=
  match p, bs with
  | [], _ => true
  | x :: p, y :: bs => bool_decide (x = y) && starts_with p bs
  | _ :: _, [] => false
  end.

(** [strip_prefix] and [ends_with], of slices and of strings. *)
Definition strip_prefix (p bs : bytes) : option bytes :=
  if starts_with p bs then Some (drop (length p) bs) else None.

Definition ends_with (suffix bs : bytes) : bool := starts_with (rev suffix) (rev bs).

(** The order of [&[u8]] and of [String] in the standard library:
    lexicographic on the byte values, a proper prefix first. *)
Fixpoint bytes_cmp (a b : bytes) : comparison :=
  match a, b with
  | [], [] => Eq
  | [], _ => Lt
  | _, [] => Gt
  | x :: a, y :: b =>
      match byte_val x ?= byte_val y with Eq => bytes_cmp a b | c => c end
  end.

(** [Ordering::then]. *)
Definition then_cmp (c d : comparison) : comparison :=
  match c with Eq => d | _ => c end.

(** [slice::sort_by], which is stable: an element is inserted in front of the
    first element that does not come before it. *)
Section SortBy.
Context {A : Type} (cmp : A -> A -> comparison).

Fixpoint insert_by (x : A) (l : list A) : list A :=
  match l with
  | [] => [x]
  | y :: l' => match cmp x y with Gt => y :: insert_by x l' | _ => x :: l end
  end.

Definition sort_by (l : list A) : list A := foldr insert_by [] l.
End SortBy.

(** [core::str::from_utf8] as a test: the well-formed byte sequences of the
    Unicode standard (no overlong form, no surrogate, nothing past U+10FFFF). *)
Definition in_byte (lo hi : Z) (b : byte) : bool :=
  (lo <=? byte_val b) && (byte_val b <=? hi).

Fixpoint utf8_valid (bs : bytes) : bool :=
  match bs with
  | [] => true
  | b0 :: r =>
      if in_byte 0 127 b0 then utf8_valid r
      else match r with
      | [] => false
      | b1 :: r1 =>
          if in_byte 194 223 b0 then in_byte 128 191 b1 && utf8_valid r1
          else match r1 with
          | [] => false
          | b2 :: r2 =>
              if in_byte 224 224 b0 then
                in_byte 160 191 b1 && in_byte 128 191 b2 && utf8_valid r2
              else if in_byte 237 237 b0 then
                in_byte 128 159 b1 && in_byte 128 191 b2 && utf8_valid r2
              else if in_byte 225 239 b0 then
                in_byte 128 191 b1 && in_byte 128 191 b2 && utf8_valid r2
              else match r2 with
              | [] => false
              | b3 :: r3 =>
                  let tail := in_byte 128 191 b2 && in_byte 128 191 b3 && utf8_valid r3 in
                  if in_byte 240 240 b0 then in_byte 144 191 b1 && tail
                  else if in_byte 241 243 b0 then in_byte 128 191 b1 && tail
                  else if in_byte 244 244 b0 then in_byte 128 143 b1 && tail
                  else false
              end
          end
      end
  end.

(** [iter().max()]. *)
Fixpoint max_of (l : list Z) : option Z :=
  match l with
  | [] => None
  | x :: l => Some (from_option (Z.max x) x (max_of l))
  end.

(** ** Automation *)

Lemma Ok_inj {E A} (a b : A) : Ok (E := E) a = Ok b -> a = b.
Proof. congruence. Qed.

(** Opens the [?]-chains of a hypothesis [m = Ok _] or [m = Some _]: every bind
    gives the equation of its first computation, every test its truth value. *)
Ltac inv_bind1 :=
  match goal with
  | H : mbind _ ?m = Ok _ |- _ =>
      let E := fresh "E" in destruct m eqn:E; cbn [mbind result_bind] in H; [|discriminate H]
  | H : mbind _ ?m = Some _ |- _ =>
      let E := fresh "E" in destruct m eqn:E; cbn [mbind option_bind] in H; [|discriminate H]
  | H : guard_err _ ?c = Ok _ |- _ =>
      let E := fresh "G" in unfold guard_err in H; destruct c eqn:E; [discriminate H|]; clear H
  | H : ok_or _ ?o = Ok _ |- _ =>
      let E := fresh "E" in destruct o eqn:E; cbn [ok_or] in H; [|discriminate H]
  | H : map_err _ ?o = Ok _ |- _ =>
      let E := fresh "E" in destruct o eqn:E; cbn [map_err] in H; [|discriminate H]
  | H : (if ?c then Err _ else _) = Ok _ |- _ =>
      let E := fresh "G" in destruct c eqn:E; [discriminate H|]
  | H : (if ?c then _ else Err _) = Ok _ |- _ =>
      let E := fresh "G" in destruct c eqn:E; [|discriminate H]
  | H : (if ?c then None else _) = Some _ |- _ =>
      let E := fresh "G" in destruct c eqn:E; [discriminate H|]
  | H : (if ?c then _ else None) = Some _ |- _ =>
      let E := fresh "G" in destruct c eqn:E; [|discriminate H]
  | H : Ok _ = Ok _ |- _ => apply Ok_inj in H; try subst
  | H : Some _ = Some _ |- _ => apply (inj Some) in H; try subst
  | H : mret ?a = Ok ?b |- _ => change (Ok a = Ok b) in H
  | H : mret ?a = Some ?b |- _ => change (Some a = Some b) in H
  | p : (_ * _)%type |- _ => destruct p
  | H : (_, _) = (_, _) |- _ =>
      let H' := fresh H in apply pair_equal_spec in H as [H H']; try subst
  end.
Ltac inv_bind := repeat inv_bind1.

(** Turns boolean tests into the propositions they decide. *)
Ltac bool_prop :=
  repeat match goal with
  | H : _ && _ = true |- _ => apply andb_prop in H as [? ?]
  | H : _ || _ = false |- _ => apply orb_false_elim in H as [? ?]
  | H : negb _ = true |- _ => apply negb_true_iff in H
  | H : negb _ = false |- _ => apply negb_false_iff in H
  | H : (_ <=? _) = true |- _ => apply Z.leb_le in H
  | H : (_ <=? _) = false |- _ => apply Z.leb_gt in H
  | H : (_ <? _) = true |- _ => apply Z.ltb_lt in H
  | H : (_ <? _) = false |- _ => apply Z.ltb_ge in H
  | H : (_ >=? _) = true |- _ => rewrite Z.geb_leb in H; apply Z.leb_le in H
  | H : (_ >=? _) = false |- _ => rewrite Z.geb_leb in H; apply Z.leb_gt in H
  | H : (_ >? _) = true |- _ => rewrite Z.gtb_ltb in H; apply Z.ltb_lt in H
  | H : (_ >? _) = false |- _ => rewrite Z.gtb_ltb in H; apply Z.ltb_ge in H
  | H : (_ =? _) = true |- _ => apply Z.eqb_eq in H
  | H : (_ =? _) = false |- _ => apply Z.eqb_neq in H
  | H : bool_decide _ = true |- _ => apply bool_decide_eq_true_1 in H
  | H : bool_decide _ = false |- _ => apply bool_decide_eq_false_1 in H
  end.

(** Cases on the first test of the goal. *)
Ltac case_test :=
  match goal with
  | |- context [if ?c then _ else _] =>
      lazymatch c with
      | context [if _ then _ else _] => fail
      | _ => let E := fresh "G" in destruct c eqn:E
      end
  end.

(** ** Lemmas *)

Section Lengths.
Context {A : Type}.
Implicit Types l : list A.

Lemma len_nonneg l : 0 <= len l.
Proof. unfold len. lia. Qed.
Lemma len_nil : len (@nil A) = 0.
Proof. reflexivity. Qed.
Lemma len_cons x l : len (x :: l) = 1 + len l.
Proof. unfold len. cbn [length]. lia. Qed.
Lemma len_app l1 l2 : len (l1 ++ l2) = len l1 + len l2.
Proof. unfold len. rewrite length_app. lia. Qed.
Lemma len_drop n l : 0 <= n <= len l -> len (drop (Z.to_nat n) l) = len l - n.
Proof. unfold len. rewrite length_drop. lia. Qed.
Lemma len_take n l : 0 <= n <= len l -> len (take (Z.to_nat n) l) = n.
Proof. unfold len. rewrite length_take. lia. Qed.
Lemma len_zero_nil l : len l = 0 -> l = [].
Proof. destruct l; [done|]. rewrite len_cons. pose proof (len_nonneg l). lia. Qed.
Lemma len_fmap {B} (f : A -> B) l : len (f <$> l) = len l.
Proof. unfold len. by rewrite length_fmap. Qed.
Lemma len_perm l1 l2 : l1 ≡ₚ l2 -> len l1 = len l2.
Proof. unfold len. by intros ->. Qed.
End Lengths.

Create HintDb lens.
Create Rewrite HintDb lens.
#[export] Hint Rewrite @len_nil @len_cons @len_app @len_fmap : lens.
#[export] Hint Resolve len_nonneg : lens.

(** Arithmetic over lengths: rewrites them and adds their non-negativity. *)
Ltac len_facts :=
  repeat match goal with
  | |- context [len ?l] =>
      lazymatch goal with _ : 0 <= len l |- _ => fail | _ => idtac end;
      pose proof (len_nonneg l)
  | H : context [len ?l] |- _ =>
      lazymatch goal with _ : 0 <= len l |- _ => fail | _ => idtac end;
      pose proof (len_nonneg l)
  end.
Ltac len_lia := autorewrite with lens in *; len_facts; lia.

Lemma to_nat_len {A} (l : list A) : Z.to_nat (len l) = length l.
Proof. unfold len. apply Nat2Z.id. Qed.

(** *** Slices *)
Section Slices.
Context {A : Type}.
Implicit Types l a b : list A.

Lemma split_at_checked_app n a b :
  n = len a -> split_at_checked n (a ++ b) = Some (a, b).
Proof.
  intros ->. unfold split_at_checked. rewrite len_app.
  replace (len a <=? len a + len b) with true by (symmetry; apply Z.leb_le; len_lia).
  unfold len. rewrite Nat2Z.id, take_app_length, drop_app_length. done.
Qed.

Lemma split_at_checked_Some n l a b :
  0 <= n -> split_at_checked n l = Some (a, b) -> l = a ++ b /\ len a = n.
Proof.
  unfold split_at_checked. intros Hn H. case_match eqn:E; [|done]. simplify_eq.
  bool_prop. split; [by rewrite take_drop|]. apply len_take. lia.
Qed.

Lemma split_at_checked_None n l : split_at_checked n l = None <-> len l < n.
Proof. unfold split_at_checked. case_match; bool_prop; split; intros; try done; lia. Qed.

Lemma to_array_len n l : len l = n -> to_array n l = Some l.
Proof. unfold to_array. intros ->. by rewrite Z.eqb_refl. Qed.

Lemma to_array_Some n l l' : to_array n l = Some l' -> l' = l /\ len l = n.
Proof. unfold to_array. case_match eqn:E; [|done]. intros [= <-]. bool_prop. done. Qed.

Lemma get_from_app n a b : n = len a -> get_from n (a ++ b) = Some b.
Proof. intros. unfold get_from. by rewrite split_at_checked_app. Qed.

Lemma get_from_is_Some n l : 0 <= n <= len l -> get_from n l = Some (drop (Z.to_nat n) l).
Proof.
  intros. unfold get_from, split_at_checked.
  by replace (n <=? len l) with true by (symmetry; apply Z.leb_le; lia).
Qed.

Lemma get_from_Some n l b :
  0 <= n -> get_from n l = Some b -> exists a, l = a ++ b /\ len a = n.
Proof.
  unfold get_from. intros Hn H. apply fmap_Some in H as ([a b'] & H & ->).
  apply split_at_checked_Some in H as [-> <-]; eauto.
Qed.

Lemma get_to_app n a b : n = len a -> get_to n (a ++ b) = Some a.
Proof. intros. unfold get_to. by rewrite split_at_checked_app. Qed.

Lemma get_range_app x y a m b :
  x = len a -> y = len a + len m -> get_range x y (a ++ m ++ b) = Some m.
Proof.
  intros -> ->. unfold get_range. rewrite !len_app.
  replace (len a <=? len a + len m) with true by (symmetry; apply Z.leb_le; len_lia).
  replace (len a + len m <=? len a + (len m + len b)) with true
    by (symmetry; apply Z.leb_le; len_lia).
  cbn [andb]. unfold len.
  replace (Z.to_nat (Z.of_nat (length a) + Z.of_nat (length m) - Z.of_nat (length a)))
    with (length m) by lia.
  by rewrite Nat2Z.id, drop_app_length, take_app_length.
Qed.

Lemma get_range_Some x y l m :
  0 <= x -> get_range x y l = Some m ->
  exists a b, l = a ++ m ++ b /\ len a = x /\ len m = y - x.
Proof.
  unfold get_range. intros Hx H. case_match eqn:E; [|done]. simplify_eq. bool_prop.
  exists (take (Z.to_nat x) l), (drop (Z.to_nat (y - x)) (drop (Z.to_nat x) l)).
  rewrite take_drop, take_drop. split; [done|]. split; [apply len_take; lia|].
  apply len_take. rewrite len_drop; lia.
Qed.
End Slices.

Lemma starts_with_app p bs : starts_with p (p ++ bs) = true.
Proof. induction p as [|x p IH]; cbn; [done|]. by rewrite bool_decide_eq_true_2. Qed.

Lemma starts_with_true p bs : starts_with p bs = true -> exists rest, bs = p ++ rest.
Proof.
  revert bs. induction p as [|x p IH]; intros bs H; [by exists bs|].
  destruct bs as [|y bs]; cbn in H; [done|]. bool_prop. subst.
  destruct (IH bs) as [rest ->]; [done|]. by exists rest.
Qed.

Lemma strip_prefix_exact p bs rest : strip_prefix p bs = Some rest <-> bs = p ++ rest.
Proof.
  unfold strip_prefix. split.
  - destruct (starts_with p bs) eqn:E1; [|done]. intros [= <-]. apply starts_with_true in E1 as [t ->]. by rewrite drop_app_length.
  - intros ->. by rewrite starts_with_app, drop_app_length.
Qed.

(** *** Integers as bytes *)
Lemma byte_val_range b : 0 <= byte_val b < 256.
Proof. unfold byte_val. pose proof (Strings.Byte.to_N_bounded b). lia. Qed.

Lemma byte_val_of z : byte_val (byte_of z) = z mod 256.
Proof.
  unfold byte_of, byte_val.
  pose proof (Z.mod_pos_bound z 256 ltac:(lia)) as Hz.
  destruct (Strings.Byte.of_N (Z.to_N (z mod 256))) as [b|] eqn:E; cbn.
  - apply Strings.Byte.to_of_N in E. rewrite E. lia.
  - apply Strings.Byte.of_N_None_iff in E. lia.
Qed.

Lemma byte_val_inj a b : byte_val a = byte_val b -> a = b.
Proof.
  unfold byte_val. intros H. apply N2Z.inj in H.
  apply (inj Some). rewrite <- !Strings.Byte.of_to_N. by f_equal.
Qed.

Lemma byte_of_val b : byte_of (byte_val b) = b.
Proof.
  apply byte_val_inj. rewrite byte_val_of. apply Z.mod_small, byte_val_range.
Qed.

#[global] Instance byte_countable : Countable byte.
Proof.
  refine (inj_countable' byte_val byte_of byte_of_val).
Defined.

Lemma be_bytes_S n z : be_bytes (S n) z = be_bytes n (z / 256) ++ [byte_of z].
Proof. reflexivity. Qed.

Lemma length_be_bytes n z : length (be_bytes n z) = n.
Proof. revert z. induction n; intros z; [done|]. rewrite be_bytes_S, length_app, IHn. cbn. lia. Qed.

Lemma len_be_bytes n z : len (be_bytes n z) = Z.of_nat n.
Proof. unfold len. by rewrite length_be_bytes. Qed.

Lemma be_value_snoc bs b : be_value (bs ++ [b]) = be_value bs * 256 + byte_val b.
Proof. unfold be_value. by rewrite fold_left_app. Qed.

Lemma be_value_be_bytes n z : 0 <= z < 256 ^ Z.of_nat n -> be_value (be_bytes n z) = z.
Proof.
  revert z. induction n as [|n IH]; intros z Hz; [|rewrite be_bytes_S].
  - unfold be_bytes. cbn. change (256 ^ Z.of_nat 0) with 1 in Hz. lia.
  - rewrite be_value_snoc, byte_val_of, IH.
    + pose proof (Z.div_mod z 256). lia.
    + replace (Z.of_nat (S n)) with (Z.succ (Z.of_nat n)) in Hz by lia.
      rewrite Z.pow_succ_r in Hz by lia. split; [apply Z.div_pos; lia|].
      apply Z.div_lt_upper_bound; lia.
Qed.

Lemma be_value_range bs : 0 <= be_value bs < 256 ^ len bs.
Proof.
  induction bs as [|b bs IH] using rev_ind; [done|].
  rewrite be_value_snoc, len_app.
  pose proof (byte_val_range b). change (len [b]) with 1. rewrite Z.add_1_r.
  rewrite Z.pow_succ_r by apply len_nonneg. lia.
Qed.

Lemma be_bytes_be_value n bs : length bs = n -> be_bytes n (be_value bs) = bs.
Proof.
  revert bs. induction n as [|n IH]; intros bs Hn; [by destruct bs|].
  induction bs as [|b bs _] using rev_ind; [done|].
  rewrite length_app in Hn. cbn in Hn. rewrite be_value_snoc, be_bytes_S.
  pose proof (byte_val_range b). f_equal.
  - rewrite Z.div_add_l by lia. rewrite (Z.div_small (byte_val b)) by lia.
    rewrite Z.add_0_r. apply IH. lia.
  - f_equal. apply byte_val_inj. rewrite byte_val_of.
    rewrite Z.add_comm, Z.mod_add by lia. apply Z.mod_small. lia.
Qed.

#[export] Hint Rewrite len_be_bytes : lens.

(** *** Orders *)
Lemma bytes_cmp_eq a b : bytes_cmp a b = Eq <-> a = b.
Proof.
  revert b. induction a as [|x a IH]; intros [|y b]; cbn; try (by split).
  destruct (byte_val x ?= byte_val y) eqn:E.
  - apply Z.compare_eq, byte_val_inj in E as ->. rewrite IH. split; congruence.
  - split; [done|]. intros [= -> ->]. by rewrite Z.compare_refl in E.
  - split; [done|]. intros [= -> ->]. by rewrite Z.compare_refl in E.
Qed.

Lemma bytes_cmp_refl a : bytes_cmp a a = Eq.
Proof. by apply bytes_cmp_eq. Qed.

Lemma bytes_cmp_antisym a b : bytes_cmp b a = CompOpp (bytes_cmp a b).
Proof.
  revert b. induction a as [|x a IH]; intros [|y b]; cbn; try done.
  rewrite (Z.compare_antisym (byte_val x) (byte_val y)).
  by destruct (byte_val x ?= byte_val y); cbn.
Qed.

Lemma bytes_cmp_trans a b c : bytes_cmp a b = Lt -> bytes_cmp b c = Lt -> bytes_cmp a c = Lt.
Proof.
  revert b c. induction a as [|x a IH]; intros [|y b] [|z c]; cbn; try done.
  destruct (Z.compare_spec (byte_val x) (byte_val y)) as [Hxy|Hxy|Hxy]; try done;
    destruct (Z.compare_spec (byte_val y) (byte_val z)) as [Hyz|Hyz|Hyz]; try done;
    intros; destruct (Z.compare_spec (byte_val x) (byte_val z)); try lia; try done; eauto.
Qed.

Section SortByLemmas.
Context {A : Type} (cmp : A -> A -> comparison).

Lemma insert_by_perm x l : insert_by cmp x l ≡ₚ x :: l.
Proof.
  induction l as [|y l IH]; cbn; [done|].
  destruct (cmp x y); [done|done|]. rewrite IH. apply Permutation_swap.
Qed.

Lemma sort_by_perm l : sort_by cmp l ≡ₚ l.
Proof. induction l as [|x l IH]; cbn; [done|]. by rewrite insert_by_perm, IH. Qed.

(** A list already in strictly ascending order is left as it is. *)
Lemma sort_by_sorted l :
  StronglySorted (fun x y => cmp x y = Lt) l -> sort_by cmp l = l.
Proof.
  induction 1 as [|x l Hl IH Hx]; cbn; [done|]. change (foldr _ _ l) with (sort_by cmp l).
  rewrite IH. destruct Hx as [|y l Hxy _]; cbn; [done|]. by rewrite Hxy.
Qed.

Context (cmp_antisym : forall x y, cmp y x = CompOpp (cmp x y)).
Context (cmp_trans : forall x y z, cmp x y = Lt -> cmp y z = Lt -> cmp x z = Lt).

Lemma insert_by_sorted x l :
  Forall (fun y => cmp x y <> Eq) l ->
  StronglySorted (fun x y => cmp x y = Lt) l ->
  StronglySorted (fun x y => cmp x y = Lt) (insert_by cmp x l).
Proof.
  intros Hne Hl. induction Hl as [|y l Hl IH Hy]; cbn; [by repeat constructor|].
  apply Forall_cons in Hne as [Hxy Hne].
  destruct (cmp x y) eqn:E; [done| |].
  - constructor; [by constructor|]. constructor; [done|].
    eapply Forall_impl; [exact Hy|]. cbn. eauto.
  - constructor; [by apply IH|].
    rewrite insert_by_perm. constructor; [|done]. rewrite cmp_antisym, E. done.
Qed.

(** Sorting items of distinct keys gives a strictly ascending list. *)
Lemma sort_by_keys {K} (key : A -> K) l :
  (forall x y, cmp x y = Eq -> key x = key y) -> NoDup (key <$> l) ->
  StronglySorted (fun x y => cmp x y = Lt) (sort_by cmp l).
Proof.
  intros Heq. induction l as [|x l IH]; cbn; [constructor|]. intros [Hx Hl]%NoDup_cons.
  apply insert_by_sorted; [|by apply IH]. change (foldr _ _ l) with (sort_by cmp l).
  rewrite sort_by_perm. apply Forall_forall. intros y Hy Hc. apply Hx. rewrite (Heq _ _ Hc).
  by apply list_elem_of_fmap_2.
Qed.

Lemma sort_by_strict l :
  (forall x y, cmp x y = Eq -> x = y) -> NoDup l ->
  StronglySorted (fun x y => cmp x y = Lt) (sort_by cmp l).
Proof. intros Heq Hl. apply (sort_by_keys id); [done|by rewrite list_fmap_id]. Qed.
End SortByLemmas.

(** *** Maxima, searches and distinct items *)
Lemma max_of_Some l m : max_of l = Some m -> m ∈ l /\ forall x, x ∈ l -> x <= m.
Proof.
  revert m. induction l as [|y l IH]; intros m H; [done|]. cbn in H.
  destruct (max_of l) as [n|] eqn:E; cbn in H; inv_bind.
  - destruct (IH n eq_refl) as [Hn Hle]. split.
    + destruct (Z.max_spec y n) as [[_ ->]|[_ ->]]; [by right|by left].
    + intros x [->|Hx]%elem_of_cons; [lia|]. apply Hle in Hx. lia.
  - destruct l as [|z l]; [|cbn in E; destruct (max_of l); done]. split; [by left|].
    intros x Hx%list_elem_of_singleton. lia.
Qed.

Lemma max_of_None l : max_of l = None -> l = [].
Proof. destruct l as [|y l]; cbn; [done|]. by destruct (max_of l). Qed.

Lemma list_find_absent {A B} `{EqDecision B} (f : A -> B) (k : B) (l : list A) :
  list_find (fun x => f x = k) l = None -> k ∉ (f <$> l).
Proof.
  intros H%list_find_None (x & -> & Hx)%list_elem_of_fmap.
  rewrite Forall_forall in H. by apply (H x Hx).
Qed.

Lemma list_find_none {A B} `{EqDecision B} (f : A -> B) (k : B) (l : list A) :
  ~ (k ∈ (f <$> l)) -> list_find (fun x => f x = k) l = None.
Proof.
  intros H. apply list_find_None, Forall_forall. intros x Hx <-. apply H. by apply list_elem_of_fmap_2.
Qed.

(** A search for [b'] after the item found for [b] is replaced by one with the
    same key. *)
Lemma list_find_update {A B} `{EqDecision B} (f : A -> B) (b b' : B) (l : list A) k x x' :
  list_find (fun y => f y = b) l = Some (k, x) -> f x' = b ->
  list_find (fun y => f y = b') (<[k := x']> l) =
    if decide (b' = b) then Some (k, x') else list_find (fun y => f y = b') l.
Proof.
  intros H Hx'. revert k H. induction l as [|y l IH]; intros k H; [done|]. cbn [list_find] in H.
  case_decide as Hy.
  - simplify_eq. cbn [list_insert insert list_find].
    destruct (decide (b' = f x)) as [->|Hne].
    + by rewrite !decide_True by congruence.
    + by rewrite !decide_False by congruence.
  - destruct (list_find (fun y => f y = b) l) as [[k' z]|] eqn:E; cbn in H; [|done]. simplify_eq.
    change (<[S k' := x']> (y :: l)) with (y :: <[k' := x']> l). cbn [list_find].
    rewrite (IH k' eq_refl). repeat case_decide; (done || congruence).
Qed.

Lemma NoDup_snoc {A} (l : list A) x : ~ (x ∈ l) -> NoDup l -> NoDup (l ++ [x]).
Proof.
  intros Hx Hl. apply NoDup_app. split_and!; [done| |apply NoDup_singleton].
  by intros y Hy ->%list_elem_of_singleton.
Qed.

Lemma NoDup_fmap_filter {A B} (f : A -> B) (Q : A -> Prop) `{!forall x, Decision (Q x)} (l : list A) :
  NoDup (f <$> l) -> NoDup (f <$> filter Q l).
Proof. intros Hn. eapply sublist_NoDup; [exact Hn|]. apply fmap_sublist, sublist_filter. Qed.

(** A monadic map over options, item by item. *)
(** Sublists keep an order. *)
Lemma StronglySorted_sublist {A} (R : A -> A -> Prop) l k :
  l `sublist_of` k -> StronglySorted R k -> StronglySorted R l.
Proof.
  induction 1 as [|x l k Hs IH|x l k Hs IH]; [done| |].
  - intros [Hx Hk]%StronglySorted_cons. apply StronglySorted_cons. split; [|by apply IH].
    rewrite Forall_forall in *. intros y Hy. apply Hx. by eapply elem_of_sublist.
  - intros [_ Hk]%StronglySorted_cons. by apply IH.
Qed.

Lemma StronglySorted_impl {A} (R Q : A -> A -> Prop) l :
  (forall x y, R x y -> Q x y) -> StronglySorted R l -> StronglySorted Q l.
Proof. intros H. induction 1 as [|x l _ IH Hx]; constructor; [done|]. eapply Forall_impl; eauto. Qed.

Lemma StronglySorted_keys {A B} (R : B -> B -> Prop) (f : A -> B) l :
  StronglySorted R (f <$> l) <-> StronglySorted (fun x y => R (f x) (f y)) l.
Proof.
  induction l as [|x l IH]; cbn; [split; constructor|]. by rewrite !StronglySorted_cons, IH, Forall_fmap.
Qed.

Lemma filter_none {A} (P : A -> Prop) `{!forall x, Decision (P x)} (l : list A) :
  Forall (fun x => ~ P x) l -> filter P l = [].
Proof. induction 1; [done|]. by rewrite filter_cons, decide_False. Qed.

Lemma filter_all {A} (P : A -> Prop) `{!forall x, Decision (P x)} (l : list A) :
  Forall P l -> filter P l = l.
Proof. induction 1 as [|x l Hx _ IH]; [done|]. by rewrite filter_cons, decide_True, IH. Qed.

(** Replacing an item by one of the same key. *)
Lemma keys_insert {A B} (f : A -> B) (l : list A) i x y : l !! i = Some x -> f y = f x -> (f <$> <[i := y]> l) = (f <$> l).
Proof.
  intros Hi Hf. rewrite list_fmap_insert, list_insert_id; [done|]. by rewrite list_lookup_fmap, Hi, Hf.
Qed.

Lemma mapM_Some_length {A B} (f : A -> option B) l k :
  mapM f l = Some k -> length k = length l.
Proof. intros H. apply mapM_Some in H. by apply Forall2_length in H. Qed.

(** *** Sums over a finite map *)
Section MapSum.
Context {K V : Type} `{Countable K}.
Implicit Types m : gmap K V.

Definition msum (f : K -> V -> Z) (m : gmap K V) : Z := map_fold (fun k v acc => f k v + acc) 0 m.

Lemma msum_empty f : msum f ∅ = 0.
Proof. apply map_fold_empty. Qed.

Lemma msum_insert_None f m k v : m !! k = None -> msum f (<[k := v]> m) = f k v + msum f m.
Proof.
  intros Hk. unfold msum.
  by rewrite (map_fold_insert_L (fun k v acc => f k v + acc)) by (intros; lia || done).
Qed.

Lemma msum_insert_Some f m k v v0 :
  m !! k = Some v0 -> msum f (<[k := v]> m) = msum f m - f k v0 + f k v.
Proof.
  intros Hk. rewrite <- insert_delete_eq, msum_insert_None by apply lookup_delete_eq.
  rewrite <- (insert_delete_id m k v0) at 2 by done.
  rewrite msum_insert_None by apply lookup_delete_eq. lia.
Qed.

(** An update, whatever the key held before. *)
Lemma msum_insert f m k v :
  msum f (<[k := v]> m) = msum f m - from_option (f k) 0 (m !! k) + f k v.
Proof.
  destruct (m !! k) eqn:E; cbn.
  - by rewrite (msum_insert_Some _ _ _ _ _ E).
  - rewrite msum_insert_None by done. lia.
Qed.

Lemma msum_nonneg f m : (forall k v, m !! k = Some v -> 0 <= f k v) -> 0 <= msum f m.
Proof.
  induction m as [|k v m Hk IH] using map_ind; intros Hf; [by rewrite msum_empty|].
  rewrite msum_insert_None by done.
  assert (0 <= f k v) by (apply Hf, lookup_insert_eq).
  assert (0 <= msum f m); [|lia]. apply IH. intros k' v' Hk'. apply Hf.
  rewrite lookup_insert_ne; [done|]. intros ->. congruence.
Qed.

(** One non-negative term is at most the sum. *)
Lemma msum_le f m k v :
  (forall k v, m !! k = Some v -> 0 <= f k v) -> m !! k = Some v -> f k v <= msum f m.
Proof.
  intros Hf Hk. rewrite <- (insert_delete_id m k v) by done.
  rewrite msum_insert_None by apply lookup_delete_eq.
  assert (0 <= msum f (delete k m)); [|lia]. apply msum_nonneg.
  intros k' v' [_ Hk']%lookup_delete_Some. eauto.
Qed.

Lemma msum_zero f m : (forall k v, m !! k = Some v -> f k v = 0) -> msum f m = 0.
Proof.
  induction m as [|k v m Hk IH] using map_ind; intros Hf; [by rewrite msum_empty|].
  rewrite msum_insert_None, (Hf k v) by (done || apply lookup_insert_eq).
  rewrite IH; [done|]. intros k' v' Hk'. apply Hf. rewrite lookup_insert_ne; [done|]. intros ->. congruence.
Qed.
End MapSum.

(** Two maps agree when they agree up to a default and have the same domain. *)
Lemma map_eq_default {K V} `{Countable K} (d : V) (m1 m2 : gmap K V) :
  dom m1 = dom m2 -> (forall k, default d (m1 !! k) = default d (m2 !! k)) -> m1 = m2.
Proof.
  intros Hd Hv. apply map_eq. intros k. specialize (Hv k).
  destruct (m1 !! k) as [x|] eqn:E1, (m2 !! k) as [y|] eqn:E2; cbn in Hv; subst; try done.
  - apply elem_of_dom_2 in E1. rewrite Hd in E1. by apply not_elem_of_dom in E2.
  - apply elem_of_dom_2 in E2. rewrite <- Hd in E2. by apply not_elem_of_dom in E1.
Qed.
