(* ===== verification/Framing.v ===== *)
(** * Framing: the length-prefixed field codecs of the request protocols

    The relay ([tacenta-relay/src/protocol.rs]) and the directory
    ([tacenta-directory/src/protocol.rs]) write every request, response and
    snapshot from the same small fields: big-endian integers, length-prefixed
    blocks, device addresses and counted sequences.  Each field has a [put] and
    a [take].  [Frames] states what the two promise each other; the message
    codecs of both crates are proved against it.

    A [put] is partial where the source calls [expect]: [None] is that panic. *)

From S2P Require Import Prelude.

(** ** Device addresses ([tacenta-relay/src/lib.rs]) *)
Record DeviceAddr := mkAddr { user : bytes; device : Z }.

#[global] Instance DeviceAddr_eq_dec : EqDecision DeviceAddr.
Proof. solve_decision. Defined.

#[global] Instance DeviceAddr_countable : Countable DeviceAddr.
Proof.
  refine (inj_countable' (fun a => (user a, device a)) (fun p => mkAddr p.1 p.2) _).
  by intros [].
Defined.

(** The range of the Rust types: [user] is a [String], [device] a [u32]. *)
Definition addr_wf (a : DeviceAddr) : Prop :=
  utf8_valid (user a) = true /\ 0 <= device a <= u32_max.

(** [a.user.cmp(&b.user).then(a.device.cmp(&b.device))], the order in which the
    snapshots emit devices. *)
Definition addr_cmp (a b : DeviceAddr) : comparison :=
  then_cmp (bytes_cmp (user a) (user b)) (device a ?= device b).

(** ** Fields *)
Definition put_u32 (n : Z) : bytes := be32 n.

Definition take_u32 (bs : bytes) : option (Z * bytes) :=
  '(head, rest) ← split_at_checked 4 bs; Some (be_value head, rest).

Definition take_u64 (bs : bytes) : option (Z * bytes) :=
  '(head, rest) ← split_at_checked 8 bs; Some (be_value head, rest).

Definition put_bytes (bs : bytes) : option bytes :=
  n ← u32_try_from (len bs); Some (put_u32 n ++ bs).

Definition take_bytes (bs : bytes) : option (bytes * bytes) :=
  '(n, rest) ← take_u32 bs; split_at_checked n rest.

Definition put_addr (a : DeviceAddr) : option bytes :=
  u ← put_bytes (user a); Some (u ++ put_u32 (device a)).

Definition take_addr (bs : bytes) : option (DeviceAddr * bytes) :=
  '(user_bytes, rest) ← take_bytes bs;
  if utf8_valid user_bytes then
    '(dev, rest) ← take_u32 rest;
    Some (mkAddr user_bytes dev, rest)
  else None.

(** [for _ in 0..count { let (x, r) = take(rest)?; out.push(x); rest = r }]. *)
Section Many.
Context {A : Type} (put_item : A -> option bytes) (take_item : bytes -> option (A * bytes)).

Fixpoint take_many (count : nat) (bs : bytes) : option (list A * bytes) :=
  match count with
  | O => Some ([], bs)
  | S count =>
      '(x, rest) ← take_item bs;
      '(xs, rest) ← take_many count rest;
      Some (x :: xs, rest)
  end.

Definition put_many (l : list A) : option bytes := @List.concat byte <$> mapM put_item l.

(** A [u32] count, then the items. *)
Definition put_counted (l : list A) : option bytes :=
  n ← u32_try_from (len l); body ← put_many l; Some (put_u32 n ++ body).

Definition take_counted (bs : bytes) : option (list A * bytes) :=
  '(count, rest) ← take_u32 bs; take_many (Z.to_nat count) rest.
End Many.

(** [rest.is_empty().then_some(x)]. *)
Definition then_some {A} (rest : bytes) (x : A) : option A :=
  match rest with [] => Some x | _ => None end.

(** ** The interface of a field codec

    [frames_take_put]: what was put is taken back, and nothing of what follows
    it.  [frames_put_take]: what can be taken is well formed and is exactly
    what [put] writes, so a field has one encoding. *)
Class Frames {A : Type} (wf : A -> Prop) (put : A -> option bytes)
    (take : bytes -> option (A * bytes)) : Prop := {
  frames_take_put a bs rest :
    wf a -> put a = Some bs -> take (bs ++ rest) = Some (a, rest);
  frames_put_take input a rest :
    take input = Some (a, rest) ->
    wf a /\ exists bs, put a = Some bs /\ input = bs ++ rest
}.

Definition u32_wf (n : Z) : Prop := 0 <= n <= u32_max.
Definition u64_wf (n : Z) : Prop := 0 <= n <= u64_max.

Lemma take_be n (take_field : bytes -> option (Z * bytes)) :
  take_field = (fun bs => '(head, rest) ← split_at_checked (Z.of_nat n) bs;
                          Some (be_value head, rest)) ->
  Frames (fun z => 0 <= z < 256 ^ Z.of_nat n) (fun z => Some (be_bytes n z)) take_field.
Proof.
  intros ->. split.
  - intros z bs rest Hz [= <-].
    rewrite split_at_checked_app by (by rewrite len_be_bytes). cbn.
    by rewrite be_value_be_bytes.
  - intros input z rest H. inv_bind.
    apply split_at_checked_Some in E as [-> Hlen]; [|lia].
    pose proof (be_value_range l) as Hr. rewrite Hlen in Hr. split; [done|].
    eexists; split; [done|]. f_equal. symmetry. apply be_bytes_be_value. unfold len in Hlen. lia.
Qed.

(** Weakening of the well-formedness predicate to an equivalent one. *)
Lemma frames_wf {A} (P Q : A -> Prop) put take :
  (forall a, P a <-> Q a) -> Frames P put take -> Frames Q put take.
Proof.
  intros HPQ [H1 H2]. split.
  - intros. apply H1; [by apply HPQ|done].
  - intros input a rest H. destruct (H2 _ _ _ H) as [Ha Hb]. split; [by apply HPQ|done].
Qed.

#[global] Instance frames_u32 : Frames u32_wf (fun n => Some (put_u32 n)) take_u32.
Proof.
  eapply frames_wf; [|apply (take_be 4); reflexivity].
  intros a. unfold u32_wf, u32_max. change (256 ^ Z.of_nat 4) with 4294967296. lia.
Qed.

#[global] Instance frames_u64 : Frames u64_wf (fun n => Some (be64 n)) take_u64.
Proof.
  eapply frames_wf; [|apply (take_be 8); reflexivity].
  intros a. unfold u64_wf, u64_max. change (256 ^ Z.of_nat 8) with 18446744073709551616. lia.
Qed.

(** Rewriting with a field's law, and opening a successful [take]. *)
Lemma take_u32_app n rest : u32_wf n -> take_u32 (put_u32 n ++ rest) = Some (n, rest).
Proof. intros. by apply (frames_take_put (put := fun n => Some (put_u32 n))). Qed.

Lemma take_u64_app n rest : u64_wf n -> take_u64 (be64 n ++ rest) = Some (n, rest).
Proof. intros. by apply (frames_take_put (put := fun n => Some (be64 n))). Qed.

Lemma take_u32_inv bs n rest :
  take_u32 bs = Some (n, rest) -> u32_wf n /\ bs = put_u32 n ++ rest.
Proof. intros H. apply frames_put_take in H as (? & ? & [= <-] & ->). done. Qed.

Lemma take_u64_inv bs n rest :
  take_u64 bs = Some (n, rest) -> u64_wf n /\ bs = be64 n ++ rest.
Proof. intros H. apply frames_put_take in H as (? & ? & [= <-] & ->). done. Qed.

Lemma u32_try_from_Some n m : 0 <= n -> u32_try_from n = Some m -> m = n /\ u32_wf n.
Proof. unfold u32_try_from, u32_wf. intros. case_match; simplify_eq. bool_prop. lia. Qed.

Lemma u32_try_from_wf n : n <= u32_max -> u32_try_from n = Some n.
Proof.
  unfold u32_try_from. intros.
  by replace (n <=? u32_max) with true by (symmetry; apply Z.leb_le; lia).
Qed.

#[global] Instance frames_bytes : Frames (fun _ => True) put_bytes take_bytes.
Proof.
  split.
  - intros a bs rest _ H. unfold put_bytes in H. inv_bind.
    apply u32_try_from_Some in E as [-> ?]; [|apply len_nonneg].
    unfold take_bytes. rewrite <- app_assoc, take_u32_app by done. cbn.
    by apply split_at_checked_app.
  - intros input a rest H. unfold take_bytes in H. inv_bind.
    apply take_u32_inv in E as [[? ?] ->].
    apply split_at_checked_Some in H as [-> <-]; [|done]. split; [done|].
    exists (put_u32 (len a) ++ a). split; [|by rewrite <- app_assoc].
    unfold put_bytes. by rewrite u32_try_from_wf.
Qed.

#[global] Instance frames_addr : Frames addr_wf put_addr take_addr.
Proof.
  split.
  - intros [u d] bs rest [Hu Hd] H. unfold put_addr in H. inv_bind. cbn in *.
    unfold take_addr. rewrite <- app_assoc.
    rewrite (frames_take_put (take := take_bytes) _ _ _ I E). cbn. rewrite Hu.
    by rewrite take_u32_app.
  - intros input a rest H. unfold take_addr in H. inv_bind.
    apply frames_put_take in E as (_ & bs & Hp & ->).
    apply take_u32_inv in E0 as [? ->]. split; [done|].
    exists (bs ++ put_u32 z). unfold put_addr. cbn. rewrite Hp. cbn.
    by rewrite <- app_assoc.
Qed.

Section ManyLaws.
Context {A : Type} {wf : A -> Prop}.
Context {put_item : A -> option bytes} {take_item : bytes -> option (A * bytes)}.
Context {HF : Frames wf put_item take_item}.

Lemma put_many_cons x l bs :
  put_many put_item (x :: l) = Some bs <->
  exists b1 b2, put_item x = Some b1 /\ put_many put_item l = Some b2 /\ bs = b1 ++ b2.
Proof.
  unfold put_many. cbn. split.
  - intros H. apply fmap_Some in H as (k & H & ->). inv_bind.
    eexists _, _. by split_and!.
  - intros (b1 & b2 & -> & H & ->). apply fmap_Some in H as (k & -> & ->). done.
Qed.

Lemma take_many_put l bs rest :
  Forall wf l -> put_many put_item l = Some bs ->
  take_many take_item (length l) (bs ++ rest) = Some (l, rest).
Proof.
  revert bs. induction l as [|x l IH]; intros bs Hl H; cbn [length take_many].
  - unfold put_many in H. cbn in H. by simplify_eq.
  - apply Forall_cons in Hl as [Hx Hl].
    apply put_many_cons in H as (b1 & b2 & H1 & H2 & ->).
    rewrite <- app_assoc, (frames_take_put _ _ _ Hx H1). cbn. by rewrite IH.
Qed.

Lemma put_many_take n input l rest :
  take_many take_item n input = Some (l, rest) ->
  length l = n /\ Forall wf l /\ exists bs, put_many put_item l = Some bs /\ input = bs ++ rest.
Proof.
  revert input l. induction n as [|n IH]; intros input l H; cbn in H.
  - simplify_eq. split_and!; [done|constructor|]. exists []. done.
  - inv_bind. apply frames_put_take in E as (Hx & b1 & H1 & ->).
    apply IH in E0 as (<- & Hl & b2 & H2 & ->).
    split_and!; [done|by constructor|]. exists (b1 ++ b2).
    rewrite put_many_cons, <- app_assoc. split; [eauto|done].
Qed.

#[global] Instance frames_counted :
  Frames (Forall wf) (put_counted put_item) (take_counted take_item).
Proof.
  split.
  - intros l bs rest Hl H. unfold put_counted in H. inv_bind.
    apply u32_try_from_Some in E as [-> ?]; [|apply len_nonneg].
    unfold take_counted. rewrite <- app_assoc, take_u32_app by done. cbn.
    unfold len. rewrite Nat2Z.id. by apply take_many_put.
  - intros input l rest H. unfold take_counted in H. inv_bind.
    apply take_u32_inv in E as [[? ?] ->].
    apply put_many_take in H as (Hlen & Hl & bs & Hbs & ->). split; [done|].
    exists (put_u32 z ++ bs). unfold put_counted.
    assert (len l = z) as -> by (unfold len; lia).
    rewrite u32_try_from_wf by done. cbn. rewrite Hbs. cbn. by rewrite <- app_assoc.
Qed.
End ManyLaws.

(** Opens every successful [take] of a field in the context. *)
Ltac frames_inv :=
  repeat match goal with
  | H : take_u32 _ = Some _ |- _ => apply take_u32_inv in H as [? ->]
  | H : take_u64 _ = Some _ |- _ => apply take_u64_inv in H as [? ->]
  | H : take_bytes _ = Some _ |- _ => apply frames_put_take in H as (_ & ? & ? & ->)
  | H : take_addr _ = Some _ |- _ => apply frames_put_take in H as (? & ? & ? & ->)
  | H : take_counted _ _ = Some _ |- _ => apply frames_put_take in H as (? & ? & ? & ->)
  end.

(** Replays a decoder on the concatenation of what its encoder put. *)
Ltac frames_fwd :=
  repeat (rewrite <- ?app_assoc; cbn [mbind option_bind app];
    first [ rewrite take_u32_app by done
          | rewrite take_u64_app by done
          | erewrite (frames_take_put (take := take_bytes)) by eauto
          | erewrite (frames_take_put (take := take_addr)) by eauto
          | erewrite (frames_take_put (take := take_counted _)) by eauto ]);
  cbn [mbind option_bind app].

(** Replays an encoder on the fields a decoder took: the [put] of each is in
    the context. *)
Ltac put_fwd :=
  repeat (match goal with H : ?l = Some _ |- context [?l] => rewrite H end;
          cbn [mbind option_bind app]).

Lemma then_some_Some {A} rest (x y : A) : then_some rest x = Some y <-> rest = [] /\ x = y.
Proof. destruct rest; cbn; split; intros; destruct_and?; simplify_eq; done. Qed.

(** Cases on the tag byte of a decoder: only the tags it knows survive. *)
Ltac tag_cases H tag := destruct tag; cbn beta iota in H; try discriminate H.

(** What follows the last field is empty. *)
Ltac end_inv :=
  repeat match goal with
  | H : then_some ?r _ = Some _ |- _ => apply then_some_Some in H as [-> <-]
  | H : match ?r with [] => _ | _ :: _ => _ end = Some _ |- _ =>
      destruct r; [|discriminate H]; inv_bind
  end.

(** ** Encodings that fit

    [put] succeeds on fields whose lengths fit their prefix. *)

(** Sums of encodings: what [put_many] writes when every item can be put. *)
Lemma put_many_total {A} (put_item : A -> option bytes) (size : A -> Z) l :
  Forall (fun x => exists bs, put_item x = Some bs /\ len bs = size x) l ->
  exists bs, put_many put_item l = Some bs /\ len bs = foldr (fun x acc => size x + acc) 0 l.
Proof.
  induction 1 as [|x l (b1 & H1 & L1) _ (b2 & H2 & L2)]; [by exists []|].
  exists (b1 ++ b2). rewrite put_many_cons, len_app. cbn. split; [eauto|lia].
Qed.

Definition addr_ok (a : DeviceAddr) : Prop := addr_wf a /\ len (user a) <= u32_max.

Lemma put_bytes_total bs : len bs <= u32_max -> exists out, put_bytes bs = Some out /\ len out = 4 + len bs.
Proof.
  intros. unfold put_bytes. rewrite u32_try_from_wf by done. cbn. eexists; split; [done|].
  unfold put_u32. by rewrite len_app, len_be_bytes.
Qed.

Lemma put_addr_total a : len (user a) <= u32_max ->
  exists out, put_addr a = Some out /\ len out = 8 + len (user a).
Proof.
  intros H. destruct (put_bytes_total _ H) as (u & Hu & Lu). unfold put_addr. rewrite Hu. cbn.
  eexists; split; [done|]. unfold put_u32. len_lia.
Qed.

(** ** The order of addresses *)
Lemma addr_cmp_antisym a b : addr_cmp b a = CompOpp (addr_cmp a b).
Proof.
  unfold addr_cmp. rewrite (bytes_cmp_antisym (user a)), (Z.compare_antisym (device a)).
  by destruct (bytes_cmp (user a) (user b)).
Qed.

Lemma addr_cmp_eq a b : addr_cmp a b = Eq -> a = b.
Proof.
  unfold addr_cmp, then_cmp. destruct a as [u d], b as [u' d']; cbn.
  destruct (bytes_cmp u u') eqn:E; try done. apply bytes_cmp_eq in E as ->.
  intros H%Z.compare_eq. by subst.
Qed.

Lemma addr_cmp_trans a b c : addr_cmp a b = Lt -> addr_cmp b c = Lt -> addr_cmp a c = Lt.
Proof.
  unfold addr_cmp, then_cmp. destruct a as [u d], b as [v e], c as [w f]; cbn.
  destruct (bytes_cmp u v) eqn:E1; try done; intros H1;
    destruct (bytes_cmp v w) eqn:E2; try done; intros H2.
  - apply bytes_cmp_eq in E1 as ->, E2 as ->. rewrite bytes_cmp_refl.
    rewrite Z.compare_lt_iff in *. lia.
  - apply bytes_cmp_eq in E1 as ->. by rewrite E2.
  - apply bytes_cmp_eq in E2 as ->. by rewrite E1.
  - by rewrite (bytes_cmp_trans _ _ _ E1 E2).
Qed.

(** ** Sections of a snapshot

    A map from devices, written as its keys in the order of [addr_cmp]: a
    count, then one item per key. *)
Definition put_section {A} (put_item : DeviceAddr * A -> option bytes) (m : gmap DeviceAddr A)
    : option bytes :=
  let keys := sort_by addr_cmp (map_to_list m).*1 in
  n ← u32_try_from (len keys);
  body ← mapM (fun d => x ← m !! d; put_item (d, x)) keys;
  Some (put_u32 n ++ concat body).

(** The items in the order they are written. *)
Definition sorted_items {A} (m : gmap DeviceAddr A) : list (DeviceAddr * A) :=
  omap (fun d => pair d <$> m !! d) (sort_by addr_cmp (map_to_list m).*1).

Section SectionLaws.
Context {A : Type}.
Implicit Types m : gmap DeviceAddr A.

Lemma sorted_items_perm m : sorted_items m ≡ₚ map_to_list m.
Proof.
  unfold sorted_items. rewrite sort_by_perm.
  assert (Forall (fun p => m !! p.1 = Some p.2) (map_to_list m)) as H.
  { apply Forall_forall. intros [d x] Hp. by apply elem_of_map_to_list in Hp. }
  induction H as [|[d x] l Hp _ IH]; cbn in *; [done|]. rewrite Hp. cbn. by rewrite IH.
Qed.

Lemma sorted_items_elem m p : p ∈ sorted_items m <-> m !! p.1 = Some p.2.
Proof. rewrite sorted_items_perm. destruct p. apply elem_of_map_to_list. Qed.

Lemma sorted_items_nodup m : NoDup (sorted_items m).*1.
Proof. rewrite sorted_items_perm. apply NoDup_fst_map_to_list. Qed.

(** Inserting the items again gives the map back. *)
Lemma fold_sorted_items m : fold_left (fun m p => <[p.1 := p.2]> m) (sorted_items m) ∅ = m.
Proof.
  rewrite <- (fold_left_rev_right (fun p m => <[p.1 := p.2]> m)).
  change (list_to_map (M := gmap DeviceAddr A) (rev (sorted_items m)) = m).
  rewrite <- (list_to_map_to_list m) at 2. apply list_to_map_proper.
  - rewrite <- Permutation_rev. apply sorted_items_nodup.
  - rewrite <- Permutation_rev. apply sorted_items_perm.
Qed.

Context {wf : DeviceAddr * A -> Prop} {put_item : DeviceAddr * A -> option bytes}.
Context {take_item : bytes -> option ((DeviceAddr * A) * bytes)}.
Context {HF : Frames wf put_item take_item}.

(** A section whose items all fit can be written, and reads back as its items
    in order, leaving what follows it. *)
Lemma put_section_take m :
  Z.of_nat (size m) <= u32_max ->
  (forall d x, m !! d = Some x -> wf (d, x) /\ is_Some (put_item (d, x))) ->
  exists bs, put_section put_item m = Some bs /\
    forall rest, take_counted take_item (bs ++ rest) = Some (sorted_items m, rest).
Proof.
  intros Hsz Hm. unfold put_section.
  set (keys := sort_by addr_cmp (map_to_list m).*1).
  assert (mapM (fun d => x ← m !! d; put_item (d, x)) keys = mapM put_item (sorted_items m)) as ->.
  { unfold sorted_items. fold keys.
    assert (Forall (fun d => is_Some (m !! d)) keys) as Hk.
    { apply Forall_forall. intros d. unfold keys. rewrite sort_by_perm, list_elem_of_fmap.
      intros ([d' x] & -> & Hx). apply elem_of_map_to_list in Hx. by exists x. }
    clear Hsz Hm. induction Hk as [|d l [x Hx] _ IH]; cbn; [done|]. rewrite Hx. cbn. by rewrite IH. }
  assert (len keys = len (sorted_items m)) as Hl.
  { unfold keys. by rewrite (len_perm _ _ (sort_by_perm _ _)), len_fmap, (len_perm _ _ (sorted_items_perm m)). }
  assert (len (sorted_items m) <= u32_max) as Hfit.
  { rewrite (len_perm _ _ (sorted_items_perm m)). unfold len. by rewrite length_map_to_list. }
  assert (Forall (fun p => wf p /\ is_Some (put_item p)) (sorted_items m)) as Hall.
  { apply Forall_forall. intros [d x] Hp%sorted_items_elem. by apply Hm. }
  assert (is_Some (mapM put_item (sorted_items m))) as [body Hb].
  { apply mapM_is_Some. eapply Forall_impl; [exact Hall|]. by intros p [_ ?]. }
  rewrite Hl, u32_try_from_wf by done. cbn. rewrite Hb. cbn. eexists; split; [done|].
  intros rest. apply (frames_take_put (take := take_counted take_item)).
  - eapply Forall_impl; [exact Hall|]. by intros p [? _].
  - unfold put_counted, put_many. rewrite u32_try_from_wf by done. cbn. by rewrite Hb.
Qed.
End SectionLaws.
