(* ===== verification/Wire.v ===== *)
(** * Wire: the v1 envelope codec ([tacenta-wire/src/lib.rs])

    [encode] and [decode] of one envelope, [decode_one] of an envelope at the
    front of a buffer, and the stream functions built on them.  The two
    codecs are shown to be inverse on exactly the byte strings they produce. *)

From S2P Require Import Prelude.

Definition WIRE_VERSION : Z := 1.
Definition HEADER_LEN : Z := 7.

Inductive Kind := Dm | Group | Receipt.

#[global] Instance Kind_eq_dec : EqDecision Kind.
Proof. solve_decision. Defined.

Definition kind_to_byte (k : Kind) : byte :=
  match k with Dm => x01 | Group => x02 | Receipt => x03 end.

Definition kind_from_byte (b : byte) : option Kind :=
  match b with
  | x01 => Some Dm
  | x02 => Some Group
  | x03 => Some Receipt
  | _ => None
  end.

Record Envelope := mkEnvelope { kind : Kind; payload : bytes }.

#[global] Instance Envelope_eq_dec : EqDecision Envelope.
Proof. solve_decision. Defined.

Definition encode (e : Envelope) : option bytes :=
  n ← u32_try_from (len (payload e));
  Some (be16 WIRE_VERSION ++ [kind_to_byte (kind e)] ++ be32 n ++ payload e).

Definition decode (bs : bytes) : option Envelope :=
  version_slice ← get_range 0 2 bs;
  version ← to_array 2 version_slice;
  if negb (be_value version =? WIRE_VERSION) then None else
  kind_byte ← bs !! 2%nat;
  k ← kind_from_byte kind_byte;
  len_slice ← get_range 3 HEADER_LEN bs;
  len_field ← to_array 4 len_slice;
  p ← get_from HEADER_LEN bs;
  if negb (len p =? be_value len_field) then None else
  Some (mkEnvelope k p).

Definition decode_one (bs : bytes) : option (Envelope * bytes) :=
  version_slice ← get_range 0 2 bs;
  version ← to_array 2 version_slice;
  if negb (be_value version =? WIRE_VERSION) then None else
  kind_byte ← bs !! 2%nat;
  k ← kind_from_byte kind_byte;
  len_slice ← get_range 3 HEADER_LEN bs;
  len_field ← to_array 4 len_slice;
  let n := be_value len_field in
  after_header ← get_from HEADER_LEN bs;
  p ← get_to n after_header;
  rest ← get_from n after_header;
  Some (mkEnvelope k p, rest).

(** The [while i < envelopes.len()] loop, on the envelopes still to encode. *)
Fixpoint encode_stream_loop (out : bytes) (envelopes : list Envelope) : option bytes :=
  match envelopes with
  | [] => Some out
  | e :: es => b ← encode e; encode_stream_loop (out ++ b) es
  end.

Definition encode_stream (envelopes : list Envelope) : option bytes :=
  encode_stream_loop [] envelopes.

(** The [while !buf.is_empty()] loop.  Every turn consumes at least the seven
    header bytes, so one unit of fuel per byte is enough ([decode_loop_fuel]);
    running out of fuel is [None] and never happens. *)
Fixpoint decode_stream_loop (fuel : nat) (out : list Envelope) (buf : bytes)
    : option (list Envelope) :=
  match buf with
  | [] => Some out
  | _ =>
      match fuel with
      | O => None
      | S fuel =>
          '(e, rest) ← decode_one buf;
          decode_stream_loop fuel (out ++ [e]) rest
      end
  end.

Definition decode_stream (bs : bytes) : option (list Envelope) :=
  decode_stream_loop (length bs) [] bs.

(** ** Lemmas *)
Lemma kind_from_to k : kind_from_byte (kind_to_byte k) = Some k.
Proof. by destruct k. Qed.

Lemma kind_to_from b k : kind_from_byte b = Some k -> b = kind_to_byte k.
Proof. by destruct b; intros [= <-]. Qed.

(** The header of a buffer whose first seven bytes are given. *)
Section Header.
Context (b0 b1 b2 b3 b4 b5 b6 : byte) (rest : bytes).
Let buf := b0 :: b1 :: b2 :: b3 :: b4 :: b5 :: b6 :: rest.

Lemma header_version : get_range 0 2 buf = Some [b0; b1].
Proof. by apply (get_range_app 0 2 [] [b0; b1] (b2 :: b3 :: b4 :: b5 :: b6 :: rest)). Qed.
Lemma header_len : get_range 3 HEADER_LEN buf = Some [b3; b4; b5; b6].
Proof. by apply (get_range_app 3 7 [b0; b1; b2] [b3; b4; b5; b6] rest). Qed.
Lemma header_rest : get_from HEADER_LEN buf = Some rest.
Proof. by apply (get_from_app 7 [b0; b1; b2; b3; b4; b5; b6] rest). Qed.
End Header.

(** The seven header bytes of an envelope. *)
Definition header (k : Kind) (n : Z) : bytes := be16 WIRE_VERSION ++ [kind_to_byte k] ++ be32 n.

Lemma be32_explicit n : exists b3 b4 b5 b6, be32 n = [b3; b4; b5; b6].
Proof.
  pose proof (length_be_bytes 4 n) as H.
  destruct (be32 n) as [|? [|? [|? [|? [|]]]]]; try done. eauto.
Qed.

Lemma decode_one_header k n rest :
  0 <= n <= u32_max ->
  decode_one (header k n ++ rest) =
    (p ← get_to n rest; r ← get_from n rest; Some (mkEnvelope k p, r)).
Proof.
  intros Hn. unfold header.
  destruct (be32_explicit n) as (b3 & b4 & b5 & b6 & E).
  assert (be_value [b3; b4; b5; b6] = n) as Hv.
  { rewrite <- E. apply be_value_be_bytes.
    unfold u32_max in Hn. change (256 ^ Z.of_nat 4) with 4294967296. lia. }
  rewrite E. change (be16 WIRE_VERSION) with [x00; x01]. cbn [app]. unfold decode_one.
  rewrite header_version. cbn [mbind option_bind].
  change (to_array 2 [x00; x01]) with (Some [x00; x01]). cbn [mbind option_bind].
  change (negb (be_value [x00; x01] =? WIRE_VERSION)) with false. cbn [lookup list_lookup mbind option_bind].
  rewrite kind_from_to, header_len. cbn [mbind option_bind].
  rewrite to_array_len by done. cbn [mbind option_bind]. by rewrite header_rest, Hv.
Qed.

Lemma decode_one_inv bs e rest :
  decode_one bs = Some (e, rest) ->
  len (payload e) <= u32_max /\
  bs = header (kind e) (len (payload e)) ++ payload e ++ rest.
Proof.
  unfold decode_one. intros H. inv_bind. bool_prop.
  assert (0 <= HEADER_LEN) as H0 by (unfold HEADER_LEN; lia).
  apply (get_from_Some _ _ _ H0) in E5 as ([|b0 [|b1 [|b2 [|b3 [|b4 [|b5 [|b6 [|]]]]]]]] & -> & Hl);
    try (exfalso; unfold HEADER_LEN in Hl; len_lia).
  cbn [app] in *. rewrite header_version in E. rewrite header_len in E3. inv_bind.
  apply to_array_Some in E0 as [-> _]. apply to_array_Some in E4 as [-> _].
  cbn in E1. inv_bind.
  apply kind_to_from in E2 as ->. unfold get_to in E6. apply fmap_Some in E6 as ([p r'] & E6 & ->).
  pose proof (be_value_range [b3; b4; b5; b6]) as Hr.
  apply split_at_checked_Some in E6 as [-> Hlen]; [|lia].
  rewrite get_from_app in E7 by done. inv_bind. cbn [payload kind fst].
  change (256 ^ len [b3; b4; b5; b6]) with 4294967296 in Hr. unfold u32_max.
  split; [lia|]. unfold header. rewrite Hlen, be_bytes_be_value by done.
  assert ([b0; b1] = be16 WIRE_VERSION) as Hv.
  { rewrite <- G. symmetry. by apply be_bytes_be_value. }
  by rewrite <- Hv.
Qed.

Lemma encode_Some e bs :
  encode e = Some bs <->
  len (payload e) <= u32_max /\ bs = header (kind e) (len (payload e)) ++ payload e.
Proof.
  unfold encode, u32_try_from, header. case_test; bool_prop; cbn.
  - rewrite <- !app_assoc. split; [intros [= <-]; done|intros [_ ->]; done].
  - split; [done|]. lia.
Qed.

Lemma decode_one_encode e bs rest :
  encode e = Some bs -> decode_one (bs ++ rest) = Some (e, rest).
Proof.
  intros [? ->]%encode_Some. rewrite <- app_assoc, decode_one_header by len_lia.
  rewrite get_to_app, get_from_app by done. cbn. by destruct e.
Qed.

Lemma encode_decode_one bs e rest :
  decode_one bs = Some (e, rest) -> exists b, encode e = Some b /\ bs = b ++ rest.
Proof.
  intros [? ->]%decode_one_inv. eexists. rewrite encode_Some, <- app_assoc. eauto.
Qed.

(** [decode] and [decode_one] read the same header; [decode] also insists on
    the payload filling the buffer. *)
Lemma decode_decode_one bs :
  decode bs = match decode_one bs with Some (e, []) => Some e | _ => None end.
Proof.
  unfold decode, decode_one.
  destruct (get_range 0 2 bs) as [v|]; cbn [mbind option_bind]; [|done].
  destruct (to_array 2 v) as [v'|]; cbn [mbind option_bind]; [|done].
  destruct (negb _); [done|].
  destruct (bs !! 2%nat) as [kb|]; cbn [mbind option_bind]; [|done].
  destruct (kind_from_byte kb) as [k|]; cbn [mbind option_bind]; [|done].
  destruct (get_range 3 HEADER_LEN bs) as [l|]; cbn [mbind option_bind]; [|done].
  destruct (to_array 4 l) as [l'|] eqn:El; cbn [mbind option_bind]; [|done].
  destruct (get_from HEADER_LEN bs) as [after|]; cbn [mbind option_bind]; [|done].
  pose proof (be_value_range l') as [Hn _]. set (n := be_value l') in *.
  unfold get_to, get_from, split_at_checked.
  destruct (Z.eqb_spec (len after) n) as [He|He]; cbn [negb].
  - replace (n <=? len after) with true by (symmetry; apply Z.leb_le; lia).
    cbn. rewrite <- He. unfold len. rewrite Nat2Z.id, drop_all, firstn_all. done.
  - case_test; cbn; [|done]. bool_prop.
    destruct (drop (Z.to_nat n) after) eqn:Ed; [|done].
    apply (f_equal len) in Ed. rewrite len_drop, len_nil in Ed; lia.
Qed.

Lemma encode_nonempty e bs : encode e = Some bs -> bs <> [].
Proof. intros [_ ->]%encode_Some H. apply (f_equal len) in H. unfold header in H. len_lia. Qed.

(** *** Streams *)
Lemma encode_stream_loop_app out es :
  encode_stream_loop out es = (fun b => out ++ b) <$> encode_stream_loop [] es.
Proof.
  revert out. induction es as [|e es IH]; intros out; cbn; [by rewrite app_nil_r|].
  destruct (encode e) as [b|]; cbn; [|done]. rewrite IH, (IH b).
  destruct (encode_stream_loop [] es); cbn; [|done]. by rewrite app_assoc.
Qed.

Lemma encode_stream_cons e es bs :
  encode_stream (e :: es) = Some bs <->
  exists b1 b2, encode e = Some b1 /\ encode_stream es = Some b2 /\ bs = b1 ++ b2.
Proof.
  unfold encode_stream. cbn. split.
  - intros H. inv_bind. rewrite encode_stream_loop_app in H.
    apply fmap_Some in H as (b2 & ? & ->). eauto.
  - intros (b1 & b2 & -> & H & ->). cbn. rewrite encode_stream_loop_app, H. done.
Qed.

Lemma decode_loop_app fuel out buf :
  decode_stream_loop fuel out buf = (fun es => out ++ es) <$> decode_stream_loop fuel [] buf.
Proof.
  revert out buf. induction fuel as [|fuel IH]; intros out [|b buf]; cbn [decode_stream_loop];
    try (cbn; by rewrite ?app_nil_r).
  destruct (decode_one _) as [[e rest]|]; cbn [mbind option_bind]; [|done].
  rewrite IH, (IH ([] ++ [e])).
  destruct (decode_stream_loop fuel [] rest); cbn; [|done]. by rewrite <- app_assoc.
Qed.

Lemma decode_one_shorter bs e rest :
  decode_one bs = Some (e, rest) -> (length rest < length bs)%nat.
Proof.
  intros (b & Hb%encode_nonempty & ->)%encode_decode_one.
  rewrite length_app. destruct b; [done|]. cbn. lia.
Qed.

(** Any two amounts of fuel of at least the buffer's length give one result. *)
Lemma decode_loop_fuel f1 f2 out buf :
  (length buf <= f1)%nat -> (length buf <= f2)%nat ->
  decode_stream_loop f1 out buf = decode_stream_loop f2 out buf.
Proof.
  revert f2 out buf. induction f1 as [|f1 IH]; intros f2 out [|b buf] H1 H2;
    destruct f2; cbn in H1, H2; try lia; try done.
  cbn [decode_stream_loop].
  destruct (decode_one (b :: buf)) as [[e rest]|] eqn:E; cbn [mbind option_bind]; [|done].
  apply decode_one_shorter in E. cbn in E. apply IH; lia.
Qed.

(** The loop's own equation, free of fuel. *)
Lemma decode_stream_step buf :
  buf <> [] ->
  decode_stream buf = ('(e, rest) ← decode_one buf; cons e <$> decode_stream rest).
Proof.
  intros Hb. unfold decode_stream. destruct buf as [|b buf]; [done|].
  cbn [length decode_stream_loop].
  destruct (decode_one (b :: buf)) as [[e rest]|] eqn:E; cbn [mbind option_bind]; [|done].
  apply decode_one_shorter in E. cbn in E.
  rewrite decode_loop_app, (decode_loop_fuel _ (length rest)) by lia. done.
Qed.

(** ** Properties *)

Lemma envelope_codec_exact (e : Envelope) (bs : bytes) :
  (decode bs = Some e <-> encode e = Some bs) /\
  (encode e = None <-> u32_max < len (payload e)).
Proof.
  split.
  - rewrite decode_decode_one. split.
    + destruct (decode_one bs) as [[e' [|]]|] eqn:E; [|done|done]. intros [= ->].
      apply encode_decode_one in E as (b & Hb & ->). by rewrite app_nil_r.
    + intros H. apply (decode_one_encode _ _ []) in H. rewrite app_nil_r in H. by rewrite H.
  - unfold encode, u32_try_from. case_test; bool_prop; cbn; split; intros; try done; lia.
Qed.

Lemma stream_codec_exact (es : list Envelope) (bs : bytes) :
  decode_stream bs = Some es <-> encode_stream es = Some bs.
Proof.
  revert bs. induction es as [|e es IH]; intros bs.
  - destruct bs as [|b bs]; [done|]. rewrite decode_stream_step by done.
    split; [|done]. intros H. inv_bind. by apply fmap_Some in H as (? & _ & ?).
  - rewrite encode_stream_cons. split.
    + intros H. destruct bs as [|b bs]; [done|]. rewrite decode_stream_step in H by done. inv_bind.
      apply fmap_Some in H as (es' & H & [= -> <-]).
      apply encode_decode_one in E as (b1 & Hb1 & Heq). apply IH in H. eauto.
    + intros (b1 & b2 & H1 & H2 & ->).
      rewrite decode_stream_step.
      2: { intros H. apply app_eq_nil in H as [-> _]. by apply encode_nonempty in H1. }
      rewrite (decode_one_encode _ _ _ H1). cbn. apply IH in H2. by rewrite H2.
Qed.

(** The v1 envelope codec is exact: [decode] accepts precisely the byte
    strings [encode] writes and gives back the envelope they came from, so no
    envelope has two encodings and nothing else decodes (a wrong version, an
    unknown kind, a length that disagrees, a trailing byte); [encode] refuses
    exactly the payloads whose length does not fit the 32-bit field; and
    [decode_stream] terminates on every buffer and accepts precisely the
    concatenations [encode_stream] writes, with the same envelopes in order. *)
Lemma wire_codec_exact (e : Envelope) (es : list Envelope) (bs : bytes) :
  (decode bs = Some e <-> encode e = Some bs) /\
  (encode e = None <-> u32_max < len (payload e)) /\
  (decode_stream bs = Some es <-> encode_stream es = Some bs).
Proof.
  destruct (envelope_codec_exact e bs). split; [done|]. split; [done|]. apply stream_codec_exact.
Qed.
