(* ===== verification/Delivery.v ===== *)
(** * Delivery: the per-device and per-user delivery machines ([tacenta-state])

    [Session] ([src/session.rs]) is an append-only log with one cursor; [User]
    ([src/user.rs]) is one log shared by several devices, each with its cursor.
    Slice indexing panics out of range, so the functions that index are
    partial; the validity invariants make them total.

    [Delivers] is the contract a client of a delivery machine relies on: the
    machine behaves as a [Session] it is related to.  [Session] itself, every
    linked device of a [User] and the relay's compacting queue implement it,
    and the trace theorem at the end of this file is proved against it once. *)

From S2P Require Import Prelude.

(** ** Session *)
Section SessionMachine.
Context {T : Type}.

Record Session := mkSession { log : list T; cursor : Z }.

Definition session_new : Session := mkSession [] 0.

(** [&self.log[self.cursor..]]: [None] is the slice panic. *)
Definition session_pending (s : Session) : option (list T) := get_from (cursor s) (log s).

Definition session_retained (s : Session) : Z := len (log s).

Definition session_append (s : Session) (e : T) : Session :=
  mkSession (log s ++ [e]) (cursor s).

Definition session_ack (s : Session) (n : Z) : Session * bool :=
  if (cursor s <? n) && (n <=? len (log s)) then (mkSession (log s) n, true)
  else (s, false).

Definition session_valid (s : Session) : Prop := 0 <= cursor s <= len (log s).
End SessionMachine.
Arguments Session : clear implicits.

(** ** User *)
Section UserMachine.
Context {T : Type}.

Record User := mkUser { user_log : list T; cursors : list Z }.

Definition user_new : User := mkUser [] [].

(** [self.cursors[d]] for [d < self.cursors.len()]; the lookup is [None] out of
    range, where the source would panic and never indexes. *)
Definition user_cursor_at (u : User) (d : Z) : option Z := cursors u !! Z.to_nat d.

Definition user_device_pending (u : User) (d : Z) : option (list T) :=
  c ← (if d <? len (cursors u) then user_cursor_at u d else Some (len (user_log u)));
  get_from c (user_log u).

(** The [while i < self.cursors.len()] loop, on the cursors still to read. *)
Fixpoint user_delivered_loop (m : Z) (cs : list Z) : Z :=
  match cs with
  | [] => m
  | c :: cs => user_delivered_loop (if c <? m then c else m) cs
  end.

Definition user_delivered (u : User) : Z :=
  user_delivered_loop (len (user_log u)) (cursors u).

Definition user_append (u : User) (e : T) : User :=
  mkUser (user_log u ++ [e]) (cursors u).

Definition user_link_device (u : User) : User * Z :=
  let cs := cursors u ++ [len (user_log u)] in
  (mkUser (user_log u) cs, len cs - 1).

Definition user_ack (u : User) (d n : Z) : User * bool :=
  match user_cursor_at u d with
  | Some c =>
      if (d <? len (cursors u)) && (c <? n) && (n <=? len (user_log u)) then
        (mkUser (user_log u) (<[Z.to_nat d := n]> (cursors u)), true)
      else (u, false)
  | None => (u, false)
  end.

Definition user_valid (u : User) : Prop :=
  Forall (fun c => 0 <= c <= len (user_log u)) (cursors u).
End UserMachine.
Arguments User : clear implicits.

(** ** The contract of a delivery machine

    [repr s a] relates a machine state to the [Session] it stands for.  An
    append may be refused (the relay has budgets); an accepted one, a pending
    read and an acknowledgment agree with the [Session]. *)
Class Delivers {S T : Type} (repr : S -> Session T -> Prop)
    (append : S -> T -> option (S * bool)) (pending : S -> option (list T))
    (ack : S -> Z -> option (S * bool)) : Prop := {
  delivers_valid s a : repr s a -> session_valid a;
  delivers_pending s a : repr s a -> pending s = session_pending a;
  delivers_append s a m :
    repr s a -> len (log a) < u64_max ->
    exists s' b, append s m = Some (s', b) /\
      repr s' (if b : bool then session_append a m else a);
  delivers_ack s a n :
    repr s a -> 0 <= n <= u64_max ->
    exists s', ack s n = Some (s', snd (session_ack a n)) /\ repr s' (fst (session_ack a n))
}.

(** A client's script against a machine, and the history it builds: the
    messages the machine accepted, in order. *)
Inductive Op (T : Type) := OpAppend (m : T) | OpAck (n : Z).
Arguments OpAppend {T} m.
Arguments OpAck {T} n.

Section Script.
Context {S T : Type}.
Context (append : S -> T -> option (S * bool)) (ack : S -> Z -> option (S * bool)).

Fixpoint run (s : S) (ops : list (Op T)) : option (S * list T) :=
  match ops with
  | [] => Some (s, [])
  | OpAppend m :: ops =>
      '(s', b) ← append s m;
      '(s'', ms) ← run s' ops;
      Some (s'', if b : bool then m :: ms else ms)
  | OpAck n :: ops =>
      '(s', _) ← ack s n;
      run s' ops
  end.
End Script.

Definition op_wf {T} (o : Op T) : Prop :=
  match o with OpAppend _ => True | OpAck n => 0 <= n <= u64_max end.

(** ** Lemmas on Session *)
Section SessionLemmas.
Context {T : Type}.
Implicit Types s : Session T.

Lemma session_new_valid : session_valid (@session_new T).
Proof. unfold session_valid. cbn. split; [lia|apply len_nonneg]. Qed.

Lemma session_append_valid s e : session_valid s -> session_valid (session_append s e).
Proof. unfold session_valid. cbn. len_lia. Qed.

Lemma session_ack_valid s n : session_valid s -> session_valid (session_ack s n).1.
Proof. unfold session_valid, session_ack. case_test; cbn; bool_prop; lia. Qed.

Lemma session_pending_valid s :
  session_valid s -> session_pending s = Some (drop (Z.to_nat (cursor s)) (log s)).
Proof. intros. by apply get_from_is_Some. Qed.

Lemma session_ack_log s n : log (session_ack s n).1 = log s.
Proof. unfold session_ack. by case_test. Qed.

Lemma session_ack_cursor s n : cursor s <= cursor (session_ack s n).1.
Proof. unfold session_ack. case_test; cbn; bool_prop; lia. Qed.
End SessionLemmas.

Create HintDb delivery.
#[export] Hint Resolve session_new_valid session_append_valid session_ack_valid : delivery.

#[global] Instance session_delivers T :
  Delivers (T := T) (fun s a => s = a /\ session_valid a)
    (fun s m => Some (session_append s m, true)) session_pending
    (fun s n => Some (session_ack s n)).
Proof.
  split.
  - by intros s a [-> ?].
  - by intros s a [-> _].
  - intros s a m [-> ?] _. eexists _, true. eauto with delivery.
  - intros s a n [-> ?] _. destruct (session_ack a n) as [s' b] eqn:E. exists s'. cbn.
    split_and!; [done|done|]. change s' with ((s', b).1). rewrite <- E. eauto with delivery.
Qed.

(** ** Lemmas on User *)
Section UserLemmas.
Context {T : Type}.
Implicit Types u : User T.

Lemma user_delivered_loop_spec m cs d :
  d <= user_delivered_loop m cs <-> d <= m /\ Forall (fun c => d <= c) cs.
Proof.
  revert m. induction cs as [|c cs IH]; intros m; cbn [user_delivered_loop].
  - rewrite Forall_nil. tauto.
  - rewrite IH, Forall_cons. case_test; bool_prop; split; intros; split_and!; try tauto; lia.
Qed.

Lemma user_link_valid u : user_valid u -> user_valid (user_link_device u).1.
Proof.
  unfold user_valid. cbn. rewrite Forall_app, Forall_singleton. pose proof (len_nonneg (user_log u)).
  intuition lia.
Qed.

Lemma user_append_valid u e : user_valid u -> user_valid (user_append u e).
Proof.
  unfold user_valid. cbn. intros H. eapply Forall_impl; [exact H|]. cbn. intros. len_lia.
Qed.

Lemma user_ack_valid u d n : user_valid u -> user_valid (user_ack u d n).1.
Proof.
  unfold user_valid, user_ack. intros H. case_match eqn:E; [|done]. case_test; cbn; [|done].
  bool_prop. apply Forall_insert; [done|].
  apply (Forall_lookup_1 _ _ _ _ H) in E. lia.
Qed.
End UserLemmas.
#[export] Hint Resolve user_link_valid user_append_valid user_ack_valid : delivery.

(** Device [d] of a user, as a session over the shared log. *)
Definition user_device_repr {T} (d : Z) (u : User T) (a : Session T) : Prop :=
  user_valid u /\ 0 <= d /\ user_log u = log a /\ user_cursor_at u d = Some (cursor a).

#[global] Instance user_device_delivers T d :
  Delivers (T := T) (user_device_repr d)
    (fun u m => Some (user_append u m, true)) (fun u => user_device_pending u d)
    (fun u n => Some (user_ack u d n)).
Proof.
  unfold user_device_repr. split.
  - intros u a (Hu & Hd & Hl & Hc). unfold session_valid. rewrite <- Hl.
    by apply (Forall_lookup_1 _ _ _ _ Hu) in Hc.
  - intros u a (Hu & Hd & Hl & Hc). unfold user_device_pending.
    pose proof (lookup_lt_Some _ _ _ Hc).
    replace (d <? len (cursors u)) with true by (symmetry; apply Z.ltb_lt; unfold len; lia).
    rewrite Hc. cbn. by rewrite Hl.
  - intros u a m (Hu & Hd & Hl & Hc) _. eexists _, true. split; [done|].
    split_and!; [by apply user_append_valid|done|by cbn; rewrite Hl|done].
  - intros u a n (Hu & Hd & Hl & Hc) _.
    pose proof (lookup_lt_Some _ _ _ Hc) as Hlt. pose proof (user_ack_valid u d n Hu) as Hv.
    revert Hv. unfold user_ack, session_ack. rewrite Hc, Hl.
    replace (d <? len (cursors u)) with true by (symmetry; apply Z.ltb_lt; unfold len; lia).
    cbn [andb]. case_test; cbn [fst snd]; intros Hv; eexists; split; try done.
    split_and!; try done. unfold user_cursor_at. cbn. by apply list_lookup_insert_eq.
Qed.

(** ** Traces against the contract *)
Section Traces.
Context {S T : Type} {repr : S -> Session T -> Prop}.
Context {append : S -> T -> option (S * bool)} {pending : S -> option (list T)}.
Context {ack : S -> Z -> option (S * bool)}.
Context {D : Delivers repr append pending ack}.

(** No script panics, and after it the machine stands for a session whose log
    is the old one extended by exactly the accepted messages. *)
Lemma run_repr s a ops :
  repr s a -> Forall op_wf ops -> len (log a) + len ops <= u64_max ->
  exists s' ms a', run append ack s ops = Some (s', ms) /\ repr s' a' /\
    log a' = log a ++ ms /\ cursor a <= cursor a'.
Proof.
  revert s a. induction ops as [|[m|n] ops IH]; intros s a Hs Hops Hb; cbn [run].
  - exists s, [], a. rewrite app_nil_r. split_and!; try done; lia.
  - apply Forall_cons in Hops as [_ Hops]. rewrite len_cons in Hb.
    destruct (delivers_append s a m Hs) as (s1 & b & -> & Hs1); [len_lia|]. cbn [mbind option_bind].
    destruct (IH s1 _ Hs1 Hops) as (s' & ms & a' & -> & Hr & Hl & Hc); [destruct b; cbn; len_lia|].
    cbn [mbind option_bind]. destruct b; cbn [session_append log cursor] in *.
    + exists s', (m :: ms), a'. rewrite Hl, <- app_assoc. split_and!; done.
    + exists s', ms, a'. split_and!; done.
  - apply Forall_cons in Hops as [Hn Hops]. rewrite len_cons in Hb.
    destruct (delivers_ack s a n Hs Hn) as (s1 & -> & Hs1). cbn [mbind option_bind].
    destruct (IH s1 _ Hs1 Hops) as (s' & ms & a' & -> & Hr & Hl & Hc).
    { rewrite session_ack_log. lia. }
    pose proof (session_ack_cursor a n). rewrite session_ack_log in Hl.
    exists s', ms, a'. split_and!; try done; lia.
Qed.

(** What is pending after a script is a suffix of what was accepted, and what
    is missing from it was acknowledged: nothing is lost, repeated or reordered. *)
Lemma run_delivery s a ops :
  repr s a -> Forall op_wf ops -> len (log a) + len ops <= u64_max ->
  exists s' ms c, run append ack s ops = Some (s', ms) /\
    cursor a <= c <= len (log a ++ ms) /\
    pending s' = Some (drop (Z.to_nat c) (log a ++ ms)).
Proof.
  intros Hs Hops Hb. destruct (run_repr s a ops Hs Hops Hb) as (s' & ms & a' & Hr & Hs' & Hl & Hc).
  pose proof (delivers_valid _ _ Hs') as Hv.
  exists s', ms, (cursor a'). split_and!; [done|done|rewrite <- Hl; apply Hv|].
  rewrite (delivers_pending _ _ Hs'), session_pending_valid, Hl by done. done.
Qed.
End Traces.

(** ** Properties *)

(** The [Session] machine delivers exactly once and in order: from the
    empty session, no script of appends and acknowledgments panics, and
    afterwards the pending messages are precisely the appended ones past the
    cursor, oldest first; the cursor never passes the log. *)
Lemma session_exactly_once {T} (ops : list (Op T)) :
  Forall op_wf ops -> len ops <= u64_max ->
  exists s ms, run (fun s m => Some (session_append s m, true)) (fun s n => Some (session_ack s n))
      session_new ops = Some (s, ms) /\
    ms = omap (fun o => match o with OpAppend m => Some m | OpAck _ => None end) ops /\
    log s = ms /\ 0 <= cursor s <= len ms /\
    session_pending s = Some (drop (Z.to_nat (cursor s)) ms).
Proof.
  intros Hops Hlen.
  destruct (run_repr (D := session_delivers T) session_new session_new ops)
    as (s & ms & a & Hr & [-> Hv] & Hl & _); [split; eauto with delivery|done|cbn; len_lia|].
  exists a, ms. cbn in Hl. rewrite Hr. split_and!; try done.
  - clear -Hr. revert Hr. generalize (@session_new T). revert ms.
    induction ops as [|[m|n] ops IH]; intros ms s Hr; cbn in Hr |- *; inv_bind;
      [done|f_equal; eauto|destruct (session_ack s n); eauto].
  - apply Hv.
  - rewrite <- Hl. apply Hv.
  - rewrite <- Hl. by apply session_pending_valid.
Qed.

(** [delivered] is the user-level watermark: a position is at most
    [delivered] exactly when it is inside the log and every linked device has
    acknowledged it; a newly linked device starts at the tail (no backfill),
    so it has nothing pending and does not lower the watermark. *)
Lemma user_delivered_watermark {T} (u : User T) (d : Z) :
  user_valid u ->
  (d <= user_delivered u <-> d <= len (user_log u) /\ Forall (fun c => d <= c) (cursors u)) /\
  user_delivered (user_link_device u).1 = user_delivered u /\
  user_device_pending (user_link_device u).1 (user_link_device u).2 = Some [].
Proof.
  intros Hu. split_and!.
  - apply user_delivered_loop_spec.
  - unfold user_delivered. cbn.
    assert (forall m cs, m <= len (user_log u) ->
      user_delivered_loop m (cs ++ [len (user_log u)]) = user_delivered_loop m cs) as Hx.
    { intros m cs. revert m. induction cs as [|c cs IH]; intros m Hm; cbn [app user_delivered_loop].
      - case_test; bool_prop; lia.
      - apply IH. case_test; bool_prop; lia. }
    apply Hx. lia.
  - unfold user_device_pending, user_link_device, user_cursor_at. cbn [fst snd cursors user_log].
    replace (_ <? _) with true by (symmetry; apply Z.ltb_lt; lia).
    rewrite len_app. change (len [len (user_log u)]) with 1.
    replace (Z.to_nat _) with (length (cursors u)) by (unfold len; lia).
    rewrite list_lookup_middle by done. cbn.
    rewrite get_from_is_Some by len_lia. unfold len. by rewrite Nat2Z.id, drop_all.
Qed.

(** Delivery is exactly once and in order.  The [Session] machine: from the
    empty session, no script of appends and acknowledgments panics, and
    afterwards the pending messages are precisely the appended ones past the
    cursor, oldest first; the cursor never passes the log.  The [User] machine:
    a position is at most [delivered] exactly when it is inside the log and
    every linked device has acknowledged it; a newly linked device starts at
    the tail (no backfill), so it has nothing pending and does not lower the
    watermark. *)
Lemma delivery_exact (ops : list (Op Z)) (u : User Z) (d : Z) :
  Forall op_wf ops -> len ops <= u64_max -> user_valid u ->
  (exists s ms, run (fun s m => Some (session_append s m, true)) (fun s n => Some (session_ack s n))
      session_new ops = Some (s, ms) /\
    ms = omap (fun o => match o with OpAppend m => Some m | OpAck _ => None end) ops /\
    log s = ms /\ 0 <= cursor s <= len ms /\
    session_pending s = Some (drop (Z.to_nat (cursor s)) ms)) /\
  (d <= user_delivered u <-> d <= len (user_log u) /\ Forall (fun c => d <= c) (cursors u)) /\
  user_delivered (user_link_device u).1 = user_delivered u /\
  user_device_pending (user_link_device u).1 (user_link_device u).2 = Some [].
Proof. intros Ho Hl Hu. split; [by apply session_exactly_once|by apply user_delivered_watermark]. Qed.

