(* ===== verification/Relay.v ===== *)
(** * Relay: the message router and its budgets ([tacenta-relay/src/lib.rs])

    One compacting queue per device over the [Session] machine, and the byte
    budgets per envelope, queue, user and node.  [None] is a panic (a slice out
    of range, an integer overflow); the invariant shows none is reachable.  The
    queue is shown to implement the [Delivers] contract: acknowledged messages
    are dropped and the base offset moves, and no client can tell. *)

From S2P Require Import Prelude Framing Wire Delivery.

(** ** Messages and limits *)
Record StoredMessage := mkStored { msg_from : DeviceAddr; msg_envelope : Envelope }.

#[global] Instance StoredMessage_eq_dec : EqDecision StoredMessage.
Proof. solve_decision. Defined.

Definition byte_len (m : StoredMessage) : Z :=
  len (payload (msg_envelope m)) + len (user (msg_from m)).

Definition MAX_PENDING : Z := Z.shiftl 1 16.
Definition MAX_ENVELOPE_BYTES : Z := Z.shiftl 1 20.
Definition MAX_QUEUE_BYTES : Z := Z.shiftl 64 20.
Definition MAX_USER_BYTES : Z := Z.shiftl 128 20.
Definition MAX_TOTAL_BYTES : Z := Z.shiftl 4 30.

Inductive Enqueued := EnqOk | QueueFull | TooLarge.

#[global] Instance Enqueued_eq_dec : EqDecision Enqueued.
Proof. solve_decision. Defined.

(** [iter().map(StoredMessage::byte_len).sum()].  The lengths summed are those
    of live heap blocks, whose total fits a [usize]. *)
Definition sum_bytes (l : list StoredMessage) : Z := foldr (fun m acc => byte_len m + acc) 0 l.

(** ** Queue *)
Record Queue := mkQueue { base : Z; inner : Session StoredMessage; pending_bytes : Z }.

Definition queue_default : Queue := mkQueue 0 session_new 0.

Definition queue_enqueue (q : Queue) (message : StoredMessage) : option (Queue * Enqueued) :=
  let size := byte_len message in
  if size >? MAX_ENVELOPE_BYTES then Some (q, TooLarge) else
  pend ← session_pending (inner q);
  if (len pend >=? MAX_PENDING) || (saturating_add64 (pending_bytes q) size >? MAX_QUEUE_BYTES)
  then Some (q, QueueFull) else
  bytes' ← checked_add64 (pending_bytes q) size;
  Some (mkQueue (base q) (session_append (inner q) message) bytes', EnqOk).

Definition queue_pending (q : Queue) : option (list StoredMessage) := session_pending (inner q).

Definition queue_cursor (q : Queue) : option Z := checked_add64 (base q) (cursor (inner q)).

Definition queue_compact (q : Queue) : option Queue :=
  let acked := cursor (inner q) in
  if acked =? 0 then Some q else
  pend ← session_pending (inner q);
  let rebuilt := fold_left session_append pend session_new in
  base' ← checked_add64 (base q) acked;
  Some (mkQueue base' rebuilt (pending_bytes q)).

Definition queue_ack (q : Queue) (up_to : Z) : option (Queue * bool) :=
  match checked_sub up_to (base q) with
  | None => Some (q, false)
  | Some inner_n =>
      let '(inner', accepted) := session_ack (inner q) inner_n in
      let q1 := mkQueue (base q) inner' (pending_bytes q) in
      if accepted : bool then
        q2 ← queue_compact q1;
        pend ← session_pending (inner q2);
        Some (mkQueue (base q2) (inner q2) (sum_bytes pend), true)
      else Some (q1, false)
  end.

Definition queue_resident (q : Queue) : list StoredMessage := log (inner q).
Definition queue_inner_cursor (q : Queue) : Z := cursor (inner q).

(** [Queue::from_parts]: [None] is its own refusal.  Its slice cannot panic,
    because the cursor was bounds-checked by the acknowledgment. *)
Definition queue_from_parts (b : Z) (resident : list StoredMessage) (inner_cursor : Z)
    : option Queue :=
  if inner_cursor >? len resident then None else
  let inner0 := fold_left session_append resident session_new in
  let '(inner1, accepted) :=
    if inner_cursor >? 0 then session_ack inner0 inner_cursor else (inner0, true) in
  if negb accepted then None else
  pend ← session_pending inner1;
  Some (mkQueue b inner1 (sum_bytes pend)).

(** ** Relay *)
Record Relay := mkRelay {
  queues : gmap DeviceAddr Queue;
  user_bytes : gmap bytes Z;
  total_bytes : Z;
  max_total_bytes : Z
}.

Definition relay_new : Relay := mkRelay ∅ ∅ 0 MAX_TOTAL_BYTES.

(** The [assert!] panics below the floor. *)
Definition relay_with_max_total_bytes (r : Relay) (limit : Z) : option Relay :=
  if limit >=? MAX_USER_BYTES then
    Some (mkRelay (queues r) (user_bytes r) (total_bytes r) limit)
  else None.

Definition relay_enqueue (r : Relay) (to from : DeviceAddr) (envelope : Envelope)
    : option (Relay * Enqueued) :=
  let message := mkStored from envelope in
  let size := byte_len message in
  if size >? MAX_ENVELOPE_BYTES then Some (r, TooLarge) else
  if saturating_add64 (total_bytes r) size >? max_total_bytes r then Some (r, QueueFull) else
  let user_total := default 0 (user_bytes r !! user to) in
  if saturating_add64 user_total size >? MAX_USER_BYTES then Some (r, QueueFull) else
  '(q, res) ← queue_enqueue (default queue_default (queues r !! to)) message;
  let queues' := <[to := q]> (queues r) in
  match res with
  | EnqOk =>
      user' ← checked_add64 (default 0 (user_bytes r !! user to)) size;
      total' ← checked_add64 (total_bytes r) size;
      Some (mkRelay queues' (<[user to := user']> (user_bytes r)) total' (max_total_bytes r), EnqOk)
  | _ => Some (mkRelay queues' (user_bytes r) (total_bytes r) (max_total_bytes r), res)
  end.

Definition relay_pending (r : Relay) (d : DeviceAddr) : option (list StoredMessage) :=
  match queues r !! d with Some q => queue_pending q | None => Some [] end.

Definition relay_cursor (r : Relay) (d : DeviceAddr) : option Z :=
  match queues r !! d with Some q => queue_cursor q | None => Some 0 end.

Definition relay_ack (r : Relay) (d : DeviceAddr) (up_to : Z) : option (Relay * bool) :=
  match queues r !! d with
  | None => Some (r, false)
  | Some q =>
      let before := pending_bytes q in
      '(q', accepted) ← queue_ack q up_to;
      let queues' := <[d := q']> (queues r) in
      if negb accepted then
        Some (mkRelay queues' (user_bytes r) (total_bytes r) (max_total_bytes r), false)
      else
        freed ← checked_sub before (pending_bytes q');
        let user_bytes' :=
          match user_bytes r !! user d with
          | Some u => <[user d := saturating_sub u freed]> (user_bytes r)
          | None => user_bytes r
          end in
        Some (mkRelay queues' user_bytes' (saturating_sub (total_bytes r) freed)
                (max_total_bytes r), true)
  end.

(** [rebuild_user_bytes]: one pass over the queues, in whatever order. *)
Definition relay_rebuild_user_bytes (r : Relay) : Relay :=
  let totals := foldr (fun '(addr, q) totals =>
      <[user addr := default 0 (totals !! user addr) + pending_bytes q]> totals)
    (∅ : gmap bytes Z) (map_to_list (queues r)) in
  let grand_total := foldr (fun '(_, q) acc => pending_bytes q + acc) 0 (map_to_list (queues r)) in
  mkRelay (queues r) totals grand_total (max_total_bytes r).

(** ** Invariants *)

(** What the source says of a queue's derived field and its limits. *)
Definition queue_ok (q : Queue) : Prop :=
  session_valid (inner q) /\ 0 <= base q /\
  exists pend, session_pending (inner q) = Some pend /\
    pending_bytes q = sum_bytes pend /\ len pend <= MAX_PENDING /\
    sum_bytes pend <= MAX_QUEUE_BYTES /\ Forall (fun m => byte_len m <= MAX_ENVELOPE_BYTES) pend.

(** The messages a queue has ever held. *)
Definition lifetime (q : Queue) : Z := base q + len (log (inner q)).

Definition of_user (u : bytes) (a : DeviceAddr) (q : Queue) : Z :=
  if decide (user a = u) then pending_bytes q else 0.

Definition user_sum (r : Relay) (u : bytes) : Z := msum (of_user u) (queues r).
Definition total_sum (r : Relay) : Z := msum (fun _ q => pending_bytes q) (queues r).

Record relay_inv (r : Relay) : Prop := {
  inv_queues d q : queues r !! d = Some q -> queue_ok q;
  inv_user_sum u : default 0 (user_bytes r !! u) = user_sum r u;
  inv_user_dom : dom (user_bytes r) = set_map (D := gset bytes) user (dom (queues r));
  inv_user_cap u : user_sum r u <= MAX_USER_BYTES;
  inv_total : total_bytes r = total_sum r;
  inv_total_cap : total_sum r <= max_total_bytes r;
  inv_limit : max_total_bytes r < u64_max
}.

(** [relay_reach limit n r]: [r] is reached from the empty relay with ceiling
    [limit] by [n] operations. *)
Inductive relay_reach (limit : Z) : Z -> Relay -> Prop :=
| reach_new r :
    relay_with_max_total_bytes relay_new limit = Some r -> relay_reach limit 0 r
| reach_enqueue n r to from e r' res :
    relay_reach limit n r -> relay_enqueue r to from e = Some (r', res) ->
    relay_reach limit (n + 1) r'
| reach_ack n r d up_to r' b :
    relay_reach limit n r -> 0 <= up_to <= u64_max -> relay_ack r d up_to = Some (r', b) ->
    relay_reach limit (n + 1) r'.

(** ** Lemmas on the queue *)

(** The limits as numerals, for [lia]. *)
Ltac limits :=
  change MAX_PENDING with 65536 in *; change MAX_ENVELOPE_BYTES with 1048576 in *;
  change MAX_QUEUE_BYTES with 67108864 in *; change MAX_USER_BYTES with 134217728 in *;
  change MAX_TOTAL_BYTES with 4294967296 in *; change u64_max with 18446744073709551615 in *;
  change u32_max with 4294967295 in *.

Lemma byte_len_nonneg m : 0 <= byte_len m.
Proof. unfold byte_len. len_lia. Qed.

Lemma sum_bytes_app l1 l2 : sum_bytes (l1 ++ l2) = sum_bytes l1 + sum_bytes l2.
Proof. induction l1 as [|m l1 IH]; cbn; [done|]. fold (sum_bytes (l1 ++ l2)) (sum_bytes l1). lia. Qed.

Lemma sum_bytes_nonneg l : 0 <= sum_bytes l.
Proof.
  induction l as [|m l IH]; cbn; [done|]. fold (sum_bytes l). pose proof (byte_len_nonneg m). lia.
Qed.

Lemma sum_bytes_snoc l m : sum_bytes (l ++ [m]) = sum_bytes l + byte_len m.
Proof. rewrite sum_bytes_app. cbn. lia. Qed.

Lemma sum_bytes_drop n l : sum_bytes (drop n l) <= sum_bytes l.
Proof.
  rewrite <- (take_drop n l) at 2. rewrite sum_bytes_app.
  pose proof (sum_bytes_nonneg (take n l)). lia.
Qed.

Lemma rebuild_session (l : list StoredMessage) s :
  fold_left session_append l s = mkSession (log s ++ l) (cursor s).
Proof.
  revert s. induction l as [|m l IH]; intros s; cbn [fold_left].
  - rewrite app_nil_r. by destruct s.
  - rewrite IH. cbn. by rewrite <- app_assoc.
Qed.

Lemma checked_add64_Some a b : a + b <= u64_max -> checked_add64 a b = Some (a + b).
Proof.
  intros. unfold checked_add64.
  by replace (a + b <=? u64_max) with true by (symmetry; apply Z.leb_le; lia).
Qed.

Lemma checked_sub_Some a b : b <= a -> checked_sub a b = Some (a - b).
Proof.
  intros. unfold checked_sub.
  by replace (b <=? a) with true by (symmetry; apply Z.leb_le; lia).
Qed.

(** A saturating sum exceeds a limit below the maximum exactly when the sum does. *)
Lemma saturating_gt a b limit :
  limit < u64_max -> (saturating_add64 a b >? limit) = (a + b >? limit).
Proof. intros. unfold saturating_add64. rewrite !Z.gtb_ltb. lia. Qed.

Lemma queue_default_ok : queue_ok queue_default.
Proof. split_and!; [apply session_new_valid|done|]. exists []. done. Qed.

Lemma queue_ok_bytes q : queue_ok q -> 0 <= pending_bytes q <= MAX_QUEUE_BYTES.
Proof.
  intros (_ & _ & pend & _ & -> & _ & ? & _). pose proof (sum_bytes_nonneg pend). lia.
Qed.

(** Every branch of [Queue::enqueue]. *)
Lemma queue_enqueue_spec q m pend :
  queue_ok q -> session_pending (inner q) = Some pend ->
  queue_enqueue q m = Some (
    if byte_len m >? MAX_ENVELOPE_BYTES then (q, TooLarge)
    else if (len pend >=? MAX_PENDING) || (pending_bytes q + byte_len m >? MAX_QUEUE_BYTES)
    then (q, QueueFull)
    else (mkQueue (base q) (session_append (inner q) m) (pending_bytes q + byte_len m), EnqOk)).
Proof.
  intros Hq Hp. pose proof (queue_ok_bytes q Hq) as Hb. unfold queue_enqueue.
  case_test; [done|]. rewrite Hp. cbn [mbind option_bind].
  rewrite saturating_gt by (limits; lia). case_test; [done|]. bool_prop.
  rewrite checked_add64_Some; [done|]. limits. lia.
Qed.

Lemma session_pending_append (s : Session StoredMessage) pend m :
  session_valid s -> session_pending s = Some pend ->
  session_pending (session_append s m) = Some (pend ++ [m]).
Proof.
  intros Hv Hp. rewrite session_pending_valid in Hp by done. inv_bind.
  rewrite session_pending_valid by (by apply session_append_valid). cbn.
  rewrite drop_app_le; [done|]. unfold session_valid, len in Hv. lia.
Qed.

Lemma queue_enqueue_ok q m q' res :
  queue_ok q -> queue_enqueue q m = Some (q', res) -> queue_ok q'.
Proof.
  intros Hq H. pose proof Hq as (Hv & Hb & pend & Hp & Hpb & Hc & Hs & Hf).
  rewrite (queue_enqueue_spec q m pend Hq Hp) in H. inv_bind.
  repeat case_match; inv_bind; try done. bool_prop.
  split_and!; cbn; [by apply session_append_valid|done|].
  exists (pend ++ [m]). rewrite sum_bytes_snoc, len_app, (session_pending_append _ _ _ Hv Hp).
  change (len [m]) with 1. split_and!; [done|lia|lia|lia|].
  rewrite Forall_app, Forall_singleton. split; [done|lia].
Qed.

(** Every branch of [Queue::ack], on a queue whose lifetime fits a [u64]. *)
Lemma queue_ack_spec q up_to :
  session_valid (inner q) -> 0 <= base q -> lifetime q <= u64_max ->
  queue_ack q up_to = Some (
    if (base q + cursor (inner q) <? up_to) && (up_to <=? lifetime q) then
      let rest := drop (Z.to_nat (up_to - base q)) (log (inner q)) in
      (mkQueue up_to (mkSession rest 0) (sum_bytes rest), true)
    else (q, false)).
Proof.
  unfold lifetime, queue_ack. intros [Hv1 Hv2] Hb Hl.
  destruct (Z.leb_spec (base q) up_to) as [Hle|Hlt].
  2: { unfold checked_sub. replace (base q <=? up_to) with false by (symmetry; apply Z.leb_gt; lia).
       replace (_ <? up_to) with false by (symmetry; apply Z.ltb_ge; lia). done. }
  rewrite checked_sub_Some by done. unfold session_ack.
  replace (cursor (inner q) <? up_to - base q) with (base q + cursor (inner q) <? up_to) by lia.
  replace (up_to - base q <=? len (log (inner q)))
    with (up_to <=? base q + len (log (inner q))) by lia.
  case_test; [|by destruct q]. bool_prop. unfold queue_compact. cbn [cursor inner log base].
  replace (up_to - base q =? 0) with false by (symmetry; apply Z.eqb_neq; lia).
  rewrite session_pending_valid by (unfold session_valid; cbn; lia). cbn [mbind option_bind cursor log].
  rewrite checked_add64_Some by lia. rewrite rebuild_session. cbn [mbind option_bind inner log app session_new cursor].
  rewrite session_pending_valid by (unfold session_valid; cbn; len_lia). cbn. do 3 f_equal. lia.
Qed.

Lemma queue_ack_ok q up_to q' b :
  queue_ok q -> lifetime q <= u64_max -> queue_ack q up_to = Some (q', b) ->
  queue_ok q' /\ lifetime q' = lifetime q /\ pending_bytes q' <= pending_bytes q.
Proof.
  intros Hq Hl H. pose proof Hq as (Hv & Hb & pend & Hp & Hpb & Hc & Hs & Hf).
  rewrite queue_ack_spec in H by done. cbv zeta in H. inv_bind.
  case_match eqn:E; inv_bind; [|split_and!; done || lia].
  bool_prop. unfold session_valid in Hv. rewrite session_pending_valid in Hp by done.
  apply (inj Some) in Hp. unfold lifetime in *.
  set (rest := drop (Z.to_nat (up_to - base q)) (log (inner q))) in *.
  assert (exists n, rest = drop n pend) as [n Hn].
  { exists (Z.to_nat (up_to - base q - cursor (inner q))). subst rest pend.
    rewrite drop_drop. f_equal. lia. }
  split; [|split].
  - split; [unfold session_valid; cbn; len_lia|]. split; [cbn; lia|].
    exists rest. cbn. rewrite session_pending_valid by (unfold session_valid; cbn; len_lia).
    rewrite Hn. split_and!; [done|done| | |by apply Forall_drop].
    + unfold len in *. rewrite length_drop. lia.
    + pose proof (sum_bytes_drop n pend). lia.
  - cbn. subst rest. rewrite len_drop by lia. lia.
  - cbn. rewrite Hn, Hpb. apply sum_bytes_drop.
Qed.

(** ** The queue is a delivery machine

    [queue_repr q a]: the session [a] never forgot anything; the queue holds
    its tail from [base] on. *)
Definition queue_repr (q : Queue) (a : Session StoredMessage) : Prop :=
  queue_ok q /\ len (log a) <= u64_max /\
  exists dropped, log a = dropped ++ log (inner q) /\ len dropped = base q /\
    cursor a = base q + cursor (inner q).

(** [Queue::enqueue] with its outcome read as accepted or refused. *)
Definition queue_offer (q : Queue) (m : StoredMessage) : option (Queue * bool) :=
  '(q', res) ← queue_enqueue q m; Some (q', bool_decide (res = EnqOk)).

Lemma queue_repr_lifetime q a : queue_repr q a -> lifetime q = len (log a) /\ lifetime q <= u64_max.
Proof.
  intros (_ & Hl & dropped & Ha & Hd & _). unfold lifetime. rewrite Ha, len_app in *. lia.
Qed.

Lemma queue_repr_ack q a n :
  queue_repr q a ->
  exists q', queue_ack q n = Some (q', snd (session_ack a n)) /\ queue_repr q' (fst (session_ack a n)).
Proof.
  intros Hr. pose proof (queue_repr_lifetime q a Hr) as [Hl1 Hl2].
  pose proof Hr as (Hq & Hl & dropped & Ha & Hd & Hc).
  pose proof Hq as (Hv & Hb & _). pose proof Hv as [Hv1 Hv2].
  destruct (queue_ack q n) as [[q' b]|] eqn:E; [|by rewrite queue_ack_spec in E].
  destruct (queue_ack_ok q n q' b Hq Hl2 E) as (Hq' & Hl' & _).
  rewrite queue_ack_spec in E by done. cbv zeta in E.
  unfold session_ack. rewrite <- Hl1, Hc. case_test; inv_bind; cbn [fst snd];
    (eexists; split; [done|]); [|done]. bool_prop. split_and!; [done|cbn; lia|].
  unfold lifetime in *. exists (dropped ++ take (Z.to_nat (n - base q)) (log (inner q))).
  cbn. rewrite <- app_assoc, take_drop, len_app, len_take by lia.
  split_and!; [done|lia|lia].
Qed.

#[global] Instance queue_delivers : Delivers queue_repr queue_offer queue_pending queue_ack.
Proof.
  split.
  - intros q a (((Hv1 & Hv2) & Hb & _) & Hl & dropped & Ha & Hd & Hc).
    unfold session_valid. rewrite Ha, len_app, Hc in *. len_lia.
  - intros q a (((Hv1 & Hv2) & Hb & _) & Hl & dropped & Ha & Hd & Hc).
    unfold queue_pending. rewrite !session_pending_valid; unfold session_valid;
      [|rewrite Ha, len_app in *; len_lia|lia].
    f_equal. rewrite Ha, Hc, drop_app_ge; unfold len in *; [f_equal; lia|lia].
  - intros q a m (Hq & Hl & dropped & Ha & Hd & Hc) Hlt.
    pose proof Hq as (Hv & Hb & pend & Hp & _). unfold queue_offer.
    destruct (queue_enqueue q m) as [[q' res]|] eqn:E; [|by rewrite (queue_enqueue_spec _ _ _ Hq Hp) in E].
    pose proof (queue_enqueue_ok _ _ _ _ Hq E) as Hq'. cbn [mbind option_bind].
    eexists _, _. split; [done|].
    rewrite (queue_enqueue_spec _ _ _ Hq Hp) in E.
    assert (queue_repr q a) by (split_and!; eauto).
    destruct (byte_len m >? _); [inv_bind; by rewrite bool_decide_eq_false_2|].
    destruct (_ || _); inv_bind; [by rewrite bool_decide_eq_false_2|].
    rewrite bool_decide_eq_true_2 by done. split_and!; [done|cbn; len_lia|]. exists dropped. cbn.
    rewrite Ha, <- app_assoc. split_and!; done.
  - intros q a n Hr _. by apply queue_repr_ack.
Qed.

Lemma queue_default_repr : queue_repr queue_default session_new.
Proof. split_and!; [apply queue_default_ok|done|]. by exists []. Qed.

(** ** Lemmas on the relay *)

(** [self.queues.entry(to).or_default()], read only. *)
Definition queue_of (r : Relay) (d : DeviceAddr) : Queue := default queue_default (queues r !! d).

Lemma queue_of_ok r d : relay_inv r -> queue_ok (queue_of r d).
Proof.
  intros Hr. unfold queue_of. destruct (queues r !! d) eqn:E; cbn; [|apply queue_default_ok].
  by eapply inv_queues.
Qed.

Lemma msum_set_queue f r d q :
  f d queue_default = 0 ->
  msum f (<[d := q]> (queues r)) = msum f (queues r) - f d (queue_of r d) + f d q.
Proof.
  intros H0. rewrite msum_insert. unfold queue_of. destruct (queues r !! d); cbn; lia.
Qed.

Lemma inv_bytes_nonneg r : relay_inv r ->
  (forall d q, queues r !! d = Some q -> 0 <= pending_bytes q) /\
  (forall u, 0 <= user_sum r u) /\ 0 <= total_sum r.
Proof.
  intros Hr.
  assert (forall d q, queues r !! d = Some q -> 0 <= pending_bytes q) as Hq
    by (intros d q H; apply (inv_queues r Hr), queue_ok_bytes in H; lia).
  split_and!; [done| |].
  - intros u. apply msum_nonneg. intros d q H. unfold of_user. case_decide; [eauto|done].
  - apply msum_nonneg. eauto.
Qed.

Lemma pending_le_user_sum r d q :
  relay_inv r -> queues r !! d = Some q -> pending_bytes q <= user_sum r (user d).
Proof.
  intros Hr Hq. pose proof (inv_bytes_nonneg r Hr) as (H0 & _ & _).
  replace (pending_bytes q) with (of_user (user d) d q) by (unfold of_user; by rewrite decide_True).
  apply msum_le; [|done]. intros k v Hk. unfold of_user. case_decide; eauto. lia.
Qed.

Lemma pending_le_total_sum r d q :
  relay_inv r -> queues r !! d = Some q -> pending_bytes q <= total_sum r.
Proof.
  intros Hr Hq. pose proof (inv_bytes_nonneg r Hr) as (H0 & _ & _).
  apply (msum_le (fun _ q => pending_bytes q) (queues r) d q); [|done]. eauto.
Qed.

(** Replacing one queue by another good one, with the sums moved by the
    difference of their pending bytes, keeps the invariant. *)
Lemma relay_set_queue_inv r d q ub tb :
  relay_inv r -> queue_ok q ->
  let delta := pending_bytes q - pending_bytes (queue_of r d) in
  ub = <[user d := user_sum r (user d) + delta]> (user_bytes r) ->
  tb = total_sum r + delta ->
  user_sum r (user d) + delta <= MAX_USER_BYTES -> tb <= max_total_bytes r ->
  relay_inv (mkRelay (<[d := q]> (queues r)) ub tb (max_total_bytes r)).
Proof.
  cbv zeta. intros Hr Hq -> -> Hu Ht.
  assert (forall u, user_sum (mkRelay (<[d := q]> (queues r))
            (<[user d := user_sum r (user d) + (pending_bytes q - pending_bytes (queue_of r d))]>
               (user_bytes r)) (total_sum r + (pending_bytes q - pending_bytes (queue_of r d)))
            (max_total_bytes r)) u
          = if decide (u = user d) then user_sum r (user d) + (pending_bytes q - pending_bytes (queue_of r d))
            else user_sum r u) as Hsum.
  { intros u. unfold user_sum. cbn [queues]. rewrite msum_set_queue.
    - unfold of_user. destruct (decide (u = user d)) as [->|].
      + rewrite !decide_True by done. lia.
      + rewrite !decide_False by done. lia.
    - unfold of_user. by case_decide. }
  split; cbn [queues user_bytes total_bytes max_total_bytes].
  - intros d' q'. rewrite lookup_insert. case_decide; [by intros [= <-]|]. by apply inv_queues.
  - intros u. rewrite Hsum, lookup_insert. case_decide as H1; case_decide as H2; subst; try done.
    by apply inv_user_sum.
  - by rewrite !dom_insert_L, (inv_user_dom r Hr), set_map_union_L, set_map_singleton_L.
  - intros u. rewrite Hsum. case_decide; [lia|]. by apply inv_user_cap.
  - unfold total_sum. cbn [queues]. rewrite msum_set_queue by done. lia.
  - unfold total_sum in *. cbn [queues]. rewrite msum_set_queue by done. lia.
  - by apply inv_limit.
Qed.

(** A send fits when it fits every budget. *)
Definition fits (r : Relay) (to : DeviceAddr) (pend : list StoredMessage) (size : Z) : Prop :=
  size <= MAX_ENVELOPE_BYTES /\ total_bytes r + size <= max_total_bytes r /\
  user_sum r (user to) + size <= MAX_USER_BYTES /\ len pend < MAX_PENDING /\
  sum_bytes pend + size <= MAX_QUEUE_BYTES.

Lemma relay_pending_queue_of r d : relay_pending r d = queue_pending (queue_of r d).
Proof. unfold relay_pending, queue_of. by destruct (queues r !! d). Qed.

(** Every branch of [Relay::enqueue]. *)
Lemma relay_enqueue_spec r to from e pend :
  relay_inv r -> relay_pending r to = Some pend ->
  let m := mkStored from e in
  (fits r to pend (byte_len m) /\
    exists r', relay_enqueue r to from e = Some (r', EnqOk) /\ relay_inv r' /\
      queues r' = <[to := mkQueue (base (queue_of r to)) (session_append (inner (queue_of r to)) m)
                            (pending_bytes (queue_of r to) + byte_len m)]> (queues r)) \/
  (~ fits r to pend (byte_len m) /\
    relay_enqueue r to from e =
      Some (r, if byte_len m >? MAX_ENVELOPE_BYTES then TooLarge else QueueFull)).
Proof.
  cbv zeta. set (m := mkStored from e). intros Hr Hp. rewrite relay_pending_queue_of in Hp.
  pose proof (queue_of_ok r to Hr) as Hq.
  pose proof (inv_bytes_nonneg r Hr) as (_ & Hu0 & Ht0).
  pose proof (inv_user_cap r Hr (user to)) as Hu1. pose proof (inv_total_cap r Hr) as Ht1.
  pose proof (inv_limit r Hr) as Hlim. pose proof (inv_total r Hr) as Ht.
  pose proof (byte_len_nonneg m) as Hm. specialize (Hu0 (user to)).
  assert (pending_bytes (queue_of r to) = sum_bytes pend) as Hpb.
  { destruct Hq as (_ & _ & pend' & Hp' & -> & _). unfold queue_pending in Hp. congruence. }
  unfold relay_enqueue, fits. fold m. fold (queue_of r to). rewrite (inv_user_sum r Hr), Ht.
  destruct (byte_len m >? MAX_ENVELOPE_BYTES) eqn:G1; bool_prop; [right; split; [lia|done]|].
  rewrite !saturating_gt by (limits; lia).
  destruct (total_sum r + byte_len m >? max_total_bytes r) eqn:G2; bool_prop;
    [right; split; [lia|done]|].
  destruct (user_sum r (user to) + byte_len m >? MAX_USER_BYTES) eqn:G3; bool_prop;
    [right; split; [lia|done]|].
  rewrite (queue_enqueue_spec _ _ _ Hq Hp). cbn [mbind option_bind].
  replace (byte_len m >? MAX_ENVELOPE_BYTES) with false
    by (symmetry; rewrite Z.gtb_ltb; apply Z.ltb_ge; lia).
  destruct ((len pend >=? MAX_PENDING) || _) eqn:G4.
  - right. split.
    { intros (_ & _ & _ & Hc1 & Hc2). apply orb_prop in G4 as [G4|G4]; bool_prop; lia. }
    cbn. f_equal. f_equal. destruct (queues r !! to) as [q|] eqn:E.
    + unfold queue_of. rewrite E. cbn. rewrite insert_id, <- Ht by done. by destruct r.
    + exfalso. unfold queue_of in Hp, G4. rewrite E in Hp, G4. cbn in Hp.
      injection Hp as <-. apply orb_prop in G4 as [G4|G4]; bool_prop;
        [unfold len in G4; cbn [length] in G4|change (MAX_QUEUE_BYTES < 0 + byte_len m) in G4];
        limits; lia.
  - pose proof (queue_enqueue_spec _ m _ Hq Hp) as Hspec. rewrite G4 in Hspec.
    replace (byte_len m >? MAX_ENVELOPE_BYTES) with false in Hspec
      by (symmetry; rewrite Z.gtb_ltb; apply Z.ltb_ge; lia).
    apply queue_enqueue_ok in Hspec; [|done].
    left. bool_prop. split; [split_and!; lia|].
    rewrite !checked_add64_Some by (limits; lia). cbn.
    eexists. split; [done|]. split; [|done].
    apply relay_set_queue_inv; try done; cbn [pending_bytes].
    + f_equal. lia.
    + lia.
    + lia.
Qed.

(** [Relay::ack], on queues whose lifetime fits a [u64]. *)
Lemma relay_ack_inv r d up_to :
  relay_inv r -> lifetime (queue_of r d) <= u64_max ->
  exists r' b, relay_ack r d up_to = Some (r', b) /\ relay_inv r' /\
    queues r' = (match queues r !! d, queue_ack (queue_of r d) up_to with
                 | Some _, Some (q', _) => <[d := q']> (queues r)
                 | _, _ => queues r end) /\
    (b = false -> r' = r).
Proof.
  intros Hr Hl. unfold relay_ack. destruct (queues r !! d) as [q|] eqn:E; [|by exists r, false].
  assert (queue_of r d = q) as Hqq by (unfold queue_of; by rewrite E). rewrite Hqq in *.
  pose proof (inv_queues r Hr d q E) as Hq. pose proof Hq as (Hv & Hb & _).
  destruct (queue_ack q up_to) as [[q' b]|] eqn:Ea; [|by rewrite queue_ack_spec in Ea].
  destruct (queue_ack_ok q up_to q' b Hq Hl Ea) as (Hq' & _ & Hle). cbn [mbind option_bind].
  destruct b; cbn [negb].
  - rewrite checked_sub_Some by done. cbn [mbind option_bind].
    pose proof (queue_ok_bytes q' Hq') as [Hnn _].
    pose proof (pending_le_user_sum r d q Hr E). pose proof (pending_le_total_sum r d q Hr E).
    pose proof (inv_user_sum r Hr (user d)) as Hus.
    assert (user d ∈ dom (user_bytes r)) as [u Hu]%elem_of_dom.
    { rewrite (inv_user_dom r Hr). apply elem_of_map. exists d. split; [done|]. by apply elem_of_dom. }
    rewrite Hu in Hus |- *. cbn in Hus. subst u.
    eexists _, true. split; [done|]. split; [|done].
    pose proof (inv_user_cap r Hr (user d)). pose proof (inv_total_cap r Hr).
    apply relay_set_queue_inv; try done; rewrite ?Hqq; unfold saturating_sub.
    + f_equal. lia.
    + rewrite (inv_total r Hr). lia.
    + lia.
    + rewrite (inv_total r Hr). lia.
  - rewrite queue_ack_spec in Ea by done. cbv zeta in Ea. inv_bind.
    case_match; inv_bind; [done|]. eexists _, false. rewrite insert_id by done. destruct r; done.
Qed.

Lemma relay_new_inv limit r :
  relay_with_max_total_bytes relay_new limit = Some r -> limit < u64_max -> relay_inv r.
Proof.
  unfold relay_with_max_total_bytes. intros H Hl. inv_bind. bool_prop.
  split; cbn [queues user_bytes total_bytes max_total_bytes relay_new];
    unfold user_sum, total_sum; cbn [queues relay_new].
  - intros d q. by rewrite lookup_empty.
  - intros u. by rewrite lookup_empty, msum_empty.
  - by rewrite !dom_empty_L, set_map_empty.
  - intros u. rewrite msum_empty. limits. lia.
  - by rewrite msum_empty.
  - rewrite msum_empty. limits. lia.
  - done.
Qed.

Lemma lifetime_set_queue r r' d q n :
  queues r' = <[d := q]> (queues r) -> lifetime q <= n ->
  (forall d, lifetime (queue_of r d) <= n) -> forall d, lifetime (queue_of r' d) <= n.
Proof.
  intros Hq Hn Hr d'. unfold queue_of. rewrite Hq, lookup_insert. case_decide; [done|]. apply Hr.
Qed.

Lemma queue_pending_of r d : relay_inv r -> exists pend, relay_pending r d = Some pend.
Proof.
  intros Hr. rewrite relay_pending_queue_of.
  pose proof (queue_of_ok r d Hr) as (_ & _ & pend & Hp & _). eauto.
Qed.

(** The invariant along any run of at most [2^64 - 1] operations. *)
Lemma relay_reach_inv limit n r :
  relay_reach limit n r -> limit < u64_max -> n <= u64_max ->
  0 <= n /\ relay_inv r /\ forall d, lifetime (queue_of r d) <= n.
Proof.
  intros H Hlim. induction H as [r H|n r to from e r' res _ IH H|n r d up_to r' b _ IH Hup H]; intros Hn.
  - split_and!; [done|by eapply relay_new_inv|]. intros d. unfold queue_of.
    unfold relay_with_max_total_bytes in H. inv_bind. cbn. by rewrite lookup_empty.
  - destruct IH as (Hn0 & Hr & Hl); [lia|]. split; [lia|].
    destruct (queue_pending_of r to Hr) as [pend Hp].
    destruct (relay_enqueue_spec r to from e pend Hr Hp) as [(_ & r1 & H1 & Hr1 & Hq)|(_ & H1)];
      rewrite H1 in H; inv_bind.
    + split; [done|]. eapply lifetime_set_queue; [exact Hq| |].
      * specialize (Hl to). unfold lifetime in *. cbn. len_lia.
      * intros d. specialize (Hl d). lia.
    + split; [done|]. intros d. specialize (Hl d). lia.
  - destruct IH as (Hn0 & Hr & Hl); [lia|]. split; [lia|].
    pose proof (Hl d) as Hld.
    destruct (relay_ack_inv r d up_to Hr) as (r1 & b1 & H1 & Hr1 & Hq & _); [lia|].
    rewrite H1 in H. inv_bind. split; [done|].
    destruct (queues r !! d) eqn:E.
    + destruct (queue_ack (queue_of r d) up_to) as [[q' b']|] eqn:Ea.
      * destruct (queue_ack_ok _ _ _ _ (queue_of_ok r d Hr) ltac:(lia) Ea) as (_ & Hl' & _).
        eapply lifetime_set_queue; [exact Hq|lia|]. intros d'. specialize (Hl d'). lia.
      * intros d'. unfold queue_of. rewrite Hq. specialize (Hl d'). unfold queue_of in Hl. lia.
    + intros d'. unfold queue_of. rewrite Hq. specialize (Hl d'). unfold queue_of in Hl. lia.
Qed.

(** An address and relay for the witnesses: one message queued for bob. *)
Definition alice1 : DeviceAddr := mkAddr (bstr "+alice") 1.
Definition bob1 : DeviceAddr := mkAddr (bstr "+bob") 1.
Definition hello : Envelope := mkEnvelope Dm (bstr "hello").
Definition bob_relay : Relay :=
  match relay_enqueue relay_new bob1 alice1 hello with Some (r, _) => r | None => relay_new end.

Lemma relay_new_reach : relay_reach MAX_TOTAL_BYTES 0 relay_new.
Proof. by apply reach_new. Qed.

Lemma bob_relay_reach : relay_reach MAX_TOTAL_BYTES 1 bob_relay.
Proof.
  apply (reach_enqueue _ 0 relay_new bob1 alice1 hello _ EnqOk); [apply relay_new_reach|].
  by vm_compute.
Qed.

(** ** Properties *)

(** Compaction is invisible: any script of sends and acknowledgments
    against one relay queue runs without a panic; afterwards the device's
    absolute cursor counts exactly the messages it acknowledged over the
    queue's whole life, and what it can poll is exactly the accepted messages
    past that cursor, in order.  So dropping acknowledged messages and moving
    [base] loses, repeats and reorders nothing. *)
Lemma queue_compaction_transparent (ops : list (Op StoredMessage)) :
  Forall op_wf ops -> len ops <= u64_max ->
  exists q ms c, run queue_offer queue_ack queue_default ops = Some (q, ms) /\
    0 <= c <= len ms /\ queue_cursor q = Some c /\
    queue_pending q = Some (drop (Z.to_nat c) ms).
Proof.
  intros Hops Hlen.
  destruct (run_repr (D := queue_delivers) queue_default session_new ops queue_default_repr Hops)
    as (q & ms & a & Hrun & Hq & Hlog & _); [cbn; len_lia|]. cbn in Hlog.
  pose proof (delivers_valid (Delivers := queue_delivers) q a Hq) as [Hc1 Hc2].
  exists q, ms, (cursor a). split; [done|]. rewrite <- Hlog. split_and!; try done.
  - unfold queue_cursor. destruct Hq as (_ & Hl & _ & _ & _ & Hc).
    rewrite checked_add64_Some by lia. f_equal. lia.
  - rewrite (delivers_pending (Delivers := queue_delivers) q a Hq).
    by apply session_pending_valid.
Qed.

(** The derived byte counts never drift and every budget holds: in any
    relay reached from the empty one, a queue's [pending_bytes] is the true sum
    over its pending messages, within the queue's byte and count limits;
    a user's index entry is the true sum over the user's queues, within
    [MAX_USER_BYTES]; and [total_bytes] is the true sum over all queues, within
    the node's ceiling. *)
Lemma relay_budgets limit n r :
  relay_reach limit n r -> limit < u64_max -> n <= u64_max ->
  (forall d q, queues r !! d = Some q -> exists pend, relay_pending r d = Some pend /\
     pending_bytes q = sum_bytes pend /\ sum_bytes pend <= MAX_QUEUE_BYTES /\
     len pend <= MAX_PENDING) /\
  (forall u, default 0 (user_bytes r !! u) = msum (of_user u) (queues r) /\
     default 0 (user_bytes r !! u) <= MAX_USER_BYTES) /\
  total_bytes r = msum (fun _ q => pending_bytes q) (queues r) /\
  total_bytes r <= max_total_bytes r.
Proof.
  intros H Hl Hn. destruct (relay_reach_inv limit n r H Hl Hn) as (_ & Hr & _). split_and!.
  - intros d q Hd. destruct (inv_queues r Hr d q Hd) as (_ & _ & pend & Hp & ? & ? & ? & _).
    exists pend. unfold relay_pending. rewrite Hd. done.
  - intros u. rewrite (inv_user_sum r Hr). split; [done|]. apply (inv_user_cap r Hr).
  - apply (inv_total r Hr).
  - rewrite (inv_total r Hr). apply (inv_total_cap r Hr).
Qed.

(** No relay operation panics: in any relay reached by fewer than [2^64 - 1]
    operations, enqueueing, polling, reading a cursor and acknowledging any
    position all return; no slice is out of range and no addition or
    subtraction of the byte counters or of the base offset overflows. *)
Lemma relay_never_panics limit n r to from e d up_to :
  relay_reach limit n r -> limit < u64_max -> n < u64_max ->
  (exists r' res, relay_enqueue r to from e = Some (r', res)) /\
  (exists pend, relay_pending r d = Some pend) /\
  (exists c, relay_cursor r d = Some c) /\
  (exists r' b, relay_ack r d up_to = Some (r', b)).
Proof.
  intros H Hl Hn. destruct (relay_reach_inv limit n r H Hl) as (Hn0 & Hr & Hlife); [lia|].
  destruct (queue_pending_of r to Hr) as [pend Hp]. split_and!.
  - destruct (relay_enqueue_spec r to from e pend Hr Hp) as [(_ & r' & ? & _)|(_ & ?)]; eauto.
  - by apply queue_pending_of.
  - unfold relay_cursor. specialize (Hlife d). pose proof (queue_of_ok r d Hr) as ([? ?] & _).
    unfold queue_of in *. destruct (queues r !! d) as [q|]; [|eauto]. cbn in *.
    unfold queue_cursor. rewrite checked_add64_Some; [eauto|]. unfold lifetime in Hlife. lia.
  - destruct (relay_ack_inv r d up_to Hr) as (r' & b & ? & _); [specialize (Hlife d); lia|]. eauto.
Qed.

(** What a send does, on every branch: it is accepted exactly when it fits
    the envelope, node, user, count and queue limits; an accepted send appends
    that message, stamped with its sender, to the recipient's pending list and
    touches no other device's queue; a refused one changes nothing, and is
    [TooLarge] (permanent) exactly when the message alone exceeds the envelope
    limit, [QueueFull] (backpressure) otherwise. *)
Lemma relay_enqueue_exact limit n r to from e pend :
  relay_reach limit n r -> limit < u64_max -> n < u64_max -> relay_pending r to = Some pend ->
  exists r' res, relay_enqueue r to from e = Some (r', res) /\
    (res = EnqOk <-> fits r to pend (byte_len (mkStored from e))) /\
    (res = TooLarge <-> MAX_ENVELOPE_BYTES < byte_len (mkStored from e)) /\
    (res <> EnqOk -> r' = r) /\
    (res = EnqOk -> relay_pending r' to = Some (pend ++ [mkStored from e]) /\
       forall d, d <> to -> queues r' !! d = queues r !! d).
Proof.
  intros H Hl Hn Hp. destruct (relay_reach_inv limit n r H Hl) as (_ & Hr & _); [lia|].
  destruct (relay_enqueue_spec r to from e pend Hr Hp) as [(Hf & r' & -> & Hr' & Hq)|(Hf & ->)];
    eexists _, _; (split; [done|]).
  - split_and!; try done.
    + split; [done|]. destruct Hf as [? _]. lia.
    + intros _. split; [|intros d Hd; by rewrite Hq, lookup_insert_ne].
      rewrite relay_pending_queue_of in *. unfold queue_of, queue_pending in *.
      rewrite Hq, lookup_insert_eq. cbn. apply session_pending_append; [|done].
      by apply queue_of_ok.
  - split_and!; try done.
    + split; [|done]. by case_match.
    + case_match; bool_prop; split; try done; lia.
    + by case_match.
Qed.

(** An acknowledgment moves one device only: it is accepted exactly when
    the position is past the device's cursor and not past what is queued; then
    the cursor becomes that position, exactly the acknowledged prefix leaves
    the pending list and is freed, and every other device's queue is as it was.
    A stale, repeated or overlong acknowledgment changes nothing. *)
Lemma relay_ack_exact limit n r d up_to pend c :
  relay_reach limit n r -> limit < u64_max -> n < u64_max ->
  relay_pending r d = Some pend -> relay_cursor r d = Some c ->
  exists r' b, relay_ack r d up_to = Some (r', b) /\
    (b = true <-> c < up_to <= c + len pend) /\ (b = false -> r' = r) /\
    (b = true -> relay_cursor r' d = Some up_to /\
       relay_pending r' d = Some (drop (Z.to_nat (up_to - c)) pend) /\
       relay_pending r' d = queue_resident <$> queues r' !! d /\
       forall d', d' <> d -> queues r' !! d' = queues r !! d').
Proof.
  intros H Hl Hn Hp Hc. destruct (relay_reach_inv limit n r H Hl) as (Hn0 & Hr & Hlife); [lia|].
  specialize (Hlife d).
  destruct (relay_ack_inv r d up_to Hr) as (r' & b & Ha & Hr' & Hq & Hf); [lia|].
  exists r', b. split; [done|]. unfold relay_pending, relay_cursor, relay_ack in *.
  pose proof (queue_of_ok r d Hr) as Hqo. unfold queue_of in *.
  destruct (queues r !! d) as [q|] eqn:E.
  2: { inv_bind. split_and!; try done. split; [done|]. unfold len. cbn. lia. }
  cbn [default from_option id] in *. pose proof Hqo as (Hv & Hb & _).
  pose proof Hv as [Hv1 Hv2].
  rewrite queue_ack_spec in Hq, Ha by (done || lia). cbv zeta in Hq, Ha.
  unfold queue_pending, queue_cursor in Hp, Hc. rewrite session_pending_valid in Hp by done.
  unfold lifetime in *. rewrite checked_add64_Some in Hc by lia. inv_bind.
  rewrite len_drop by done.
  destruct ((base q + cursor (inner q) <? up_to) && (up_to <=? base q + len (log (inner q)))) eqn:Eb;
    cbn [mbind option_bind negb] in Ha.
  - bool_prop. inv_bind. split_and!; try done; [split; intros; [lia|done]|]. intros _.
    cbn [queues] in *. rewrite lookup_insert_eq.
    unfold queue_pending, queue_cursor, queue_resident. cbn [inner base cursor log].
    rewrite session_pending_valid by (unfold session_valid; cbn; len_lia).
    rewrite checked_add64_Some by lia. cbn. split_and!.
    + f_equal. lia.
    + rewrite !drop_drop. do 2 f_equal. lia.
    + done.
    + intros d' Hd'. by rewrite lookup_insert_ne.
  - inv_bind. split_and!; try done. split; [done|]. intros Hx.
    apply andb_false_iff in Eb as [Eb|Eb]; bool_prop; lia.
Qed.

(** C29. The derived byte counts never drift, every budget holds and nothing
    panics: in any relay reached from the empty one by fewer than [2^64 - 1]
    operations, a queue's [pending_bytes] is the true sum over its pending
    messages, within the queue's byte and count limits; a user's index entry is
    the true sum over the user's queues, within [MAX_USER_BYTES];
    [total_bytes] is the true sum over all queues, within the node's ceiling;
    and enqueueing, polling, reading a cursor and acknowledging any position
    all return, so no slice is out of range and no addition or subtraction of
    the byte counters or of the base offset overflows. *)
Theorem relay_budgets_hold limit n r to from e d up_to :
  relay_reach limit n r -> limit < u64_max -> n < u64_max ->
  ((forall d q, queues r !! d = Some q -> exists pend, relay_pending r d = Some pend /\
     pending_bytes q = sum_bytes pend /\ sum_bytes pend <= MAX_QUEUE_BYTES /\
     len pend <= MAX_PENDING) /\
  (forall u, default 0 (user_bytes r !! u) = msum (of_user u) (queues r) /\
     default 0 (user_bytes r !! u) <= MAX_USER_BYTES) /\
  total_bytes r = msum (fun _ q => pending_bytes q) (queues r) /\
  total_bytes r <= max_total_bytes r) /\
  (exists r' res, relay_enqueue r to from e = Some (r', res)) /\
  (exists pend, relay_pending r d = Some pend) /\
  (exists c, relay_cursor r d = Some c) /\
  (exists r' b, relay_ack r d up_to = Some (r', b)).
Proof.
  intros H Hl Hn. split; [apply (relay_budgets limit n r H Hl); lia|by apply (relay_never_panics limit n)].
Qed.

Lemma relay_budgets_hold_witness :
  ((forall d q, queues bob_relay !! d = Some q -> exists pend, relay_pending bob_relay d = Some pend /\
     pending_bytes q = sum_bytes pend /\ sum_bytes pend <= MAX_QUEUE_BYTES /\
     len pend <= MAX_PENDING) /\
  (forall u, default 0 (user_bytes bob_relay !! u) = msum (of_user u) (queues bob_relay) /\
     default 0 (user_bytes bob_relay !! u) <= MAX_USER_BYTES) /\
  total_bytes bob_relay = msum (fun _ q => pending_bytes q) (queues bob_relay) /\
  total_bytes bob_relay <= max_total_bytes bob_relay) /\
  (exists r' res, relay_enqueue bob_relay alice1 bob1 hello = Some (r', res)) /\
  (exists pend, relay_pending bob_relay bob1 = Some pend) /\
  (exists c, relay_cursor bob_relay bob1 = Some c) /\
  (exists r' b, relay_ack bob_relay bob1 u64_max = Some (r', b)).
Proof.
  apply (relay_budgets_hold MAX_TOTAL_BYTES 1 bob_relay);
    [apply bob_relay_reach|done|done].
Defined.

(** C30. What a send and an acknowledgment do, on every branch.  A send is
    accepted exactly when it fits the envelope, node, user, count and queue
    limits; an accepted one appends that message, stamped with its sender, to
    the recipient's pending list and touches no other device's queue; a refused
    one changes nothing, and is [TooLarge] (permanent) exactly when the message
    alone exceeds the envelope limit, [QueueFull] (backpressure) otherwise.
    An acknowledgment is accepted exactly when the position is past the
    device's cursor and not past what is queued; then the cursor becomes that
    position, exactly the acknowledged prefix leaves the pending list and is
    freed, and every other device's queue is as it was; a stale, repeated or
    overlong acknowledgment changes nothing. *)
Theorem relay_operations_exact limit n r to from e up_to pend c :
  relay_reach limit n r -> limit < u64_max -> n < u64_max ->
  relay_pending r to = Some pend -> relay_cursor r to = Some c ->
  (exists r' res, relay_enqueue r to from e = Some (r', res) /\
    (res = EnqOk <-> fits r to pend (byte_len (mkStored from e))) /\
    (res = TooLarge <-> MAX_ENVELOPE_BYTES < byte_len (mkStored from e)) /\
    (res <> EnqOk -> r' = r) /\
    (res = EnqOk -> relay_pending r' to = Some (pend ++ [mkStored from e]) /\
       forall d, d <> to -> queues r' !! d = queues r !! d)) /\
  (exists r' b, relay_ack r to up_to = Some (r', b) /\
    (b = true <-> c < up_to <= c + len pend) /\ (b = false -> r' = r) /\
    (b = true -> relay_cursor r' to = Some up_to /\
       relay_pending r' to = Some (drop (Z.to_nat (up_to - c)) pend) /\
       relay_pending r' to = queue_resident <$> queues r' !! to /\
       forall d', d' <> to -> queues r' !! d' = queues r !! d')).
Proof.
  intros H Hl Hn Hp Hc. split; [by apply (relay_enqueue_exact limit n)|by apply (relay_ack_exact limit n)].
Qed.

Lemma relay_operations_exact_witness :
  (exists r' res, relay_enqueue bob_relay bob1 alice1 hello = Some (r', res) /\
    (res = EnqOk <-> fits bob_relay bob1 [mkStored alice1 hello] (byte_len (mkStored alice1 hello))) /\
    (res = TooLarge <-> MAX_ENVELOPE_BYTES < byte_len (mkStored alice1 hello)) /\
    (res <> EnqOk -> r' = bob_relay) /\
    (res = EnqOk -> relay_pending r' bob1 = Some ([mkStored alice1 hello] ++ [mkStored alice1 hello]) /\
       forall d, d <> bob1 -> queues r' !! d = queues bob_relay !! d)) /\
  (exists r' b, relay_ack bob_relay bob1 1 = Some (r', b) /\
    (b = true <-> 0 < 1 <= 0 + len [mkStored alice1 hello]) /\ (b = false -> r' = bob_relay) /\
    (b = true -> relay_cursor r' bob1 = Some 1 /\
       relay_pending r' bob1 = Some (drop (Z.to_nat (1 - 0)) [mkStored alice1 hello]) /\
       relay_pending r' bob1 = queue_resident <$> queues r' !! bob1 /\
       forall d', d' <> bob1 -> queues r' !! d' = queues bob_relay !! d')).
Proof.
  apply (relay_operations_exact MAX_TOTAL_BYTES 1 bob_relay bob1 alice1 hello 1 [mkStored alice1 hello] 0);
    [apply bob_relay_reach|done|done|by vm_compute|by vm_compute].
Defined.
