(* ===== verification/RelayProtocol.v ===== *)
(** * RelayProtocol: requests, responses and snapshots of the relay
    ([tacenta-relay/src/protocol.rs])

    The request and response codecs over the fields of [Framing], the
    authorized dispatch [handle], and the snapshot format with its restore.
    An [encode] is partial where the source calls [expect]. *)

From S2P Require Import Prelude Framing Wire Delivery Relay.

Inductive Request :=
| Send (to : DeviceAddr) (envelope : Envelope)
| Poll (d : DeviceAddr)
| Ack (d : DeviceAddr) (up_to : Z)
| ReqDelivered (devices : list DeviceAddr).

Inductive Response :=
| RespOk
| RespDelivered (from : Z) (messages : list StoredMessage)
| Acked (accepted : bool)
| DeliveredCount (count : Z)
| Unauthorized
| UnknownRecipient
| RespQueueFull
| RespTooLarge.

(** ** Dispatch *)

(** [iter().min()]. *)
Fixpoint min_of (l : list Z) : option Z :=
  match l with
  | [] => None
  | x :: l => Some (from_option (Z.min x) x (min_of l))
  end.

Definition handle (r : Relay) (authorized : DeviceAddr) (request : Request)
    : option (Relay * Response) :=
  match request with
  | Send to envelope =>
      '(r', res) ← relay_enqueue r to authorized envelope;
      Some (r', match res with
                | EnqOk => RespOk
                | QueueFull => RespQueueFull
                | TooLarge => RespTooLarge
                end)
  | Poll d =>
      if bool_decide (d = authorized) then
        from ← relay_cursor r d;
        messages ← relay_pending r d;
        Some (r, RespDelivered from messages)
      else Some (r, Unauthorized)
  | Ack d up_to =>
      if bool_decide (d = authorized) then
        '(r', accepted) ← relay_ack r d up_to;
        Some (r', Acked accepted)
      else Some (r, Unauthorized)
  | ReqDelivered devices =>
      if forallb (fun d => bool_decide (user d = user authorized)) devices then
        cs ← mapM (relay_cursor r) devices;
        Some (r, DeliveredCount (default 0 (min_of cs)))
      else Some (r, Unauthorized)
  end.

(** ** Messages *)
Definition put_message (m : StoredMessage) : option bytes :=
  a ← put_addr (msg_from m);
  env ← encode (msg_envelope m);
  e ← put_bytes env;
  Some (a ++ e).

Definition take_message (bs : bytes) : option (StoredMessage * bytes) :=
  '(from, rest) ← take_addr bs;
  '(env_bytes, rest) ← take_bytes rest;
  envelope ← decode env_bytes;
  Some (mkStored from envelope, rest).

Definition put_messages (ms : list StoredMessage) : option bytes := put_counted put_message ms.
Definition take_messages (bs : bytes) : option (list StoredMessage * bytes) :=
  take_counted take_message bs.

(** ** Codecs *)
Definition encode_request (request : Request) : option bytes :=
  match request with
  | Send to envelope =>
      a ← put_addr to;
      env ← encode envelope;
      e ← put_bytes env;
      Some ([x01] ++ a ++ e)
  | Poll d => a ← put_addr d; Some ([x02] ++ a)
  | Ack d up_to => a ← put_addr d; Some ([x03] ++ a ++ be64 up_to)
  | ReqDelivered devices => ds ← put_counted put_addr devices; Some ([x04] ++ ds)
  end.

Definition decode_request (bs : bytes) : option Request :=
  match bs with
  | [] => None
  | tag :: rest =>
      match tag with
      | x01 =>
          '(to, rest) ← take_addr rest;
          '(env_bytes, rest) ← take_bytes rest;
          match rest with
          | [] => envelope ← decode env_bytes; Some (Send to envelope)
          | _ => None
          end
      | x02 => '(d, rest) ← take_addr rest; then_some rest (Poll d)
      | x03 =>
          '(d, rest) ← take_addr rest;
          '(up_to, rest) ← take_u64 rest;
          match rest with [] => Some (Ack d up_to) | _ => None end
      | x04 =>
          '(devices, rest) ← take_counted take_addr rest;
          then_some rest (ReqDelivered devices)
      | _ => None
      end
  end.

Definition encode_response (response : Response) : option bytes :=
  match response with
  | RespOk => Some [x01]
  | RespDelivered from messages => ms ← put_messages messages; Some ([x02] ++ be64 from ++ ms)
  | Acked accepted => Some [x03; if accepted then x01 else x00]
  | Unauthorized => Some [x04]
  | DeliveredCount count => Some ([x05] ++ be64 count)
  | UnknownRecipient => Some [x06]
  | RespQueueFull => Some [x07]
  | RespTooLarge => Some [x08]
  end.

Definition decode_response (bs : bytes) : option Response :=
  match bs with
  | [] => None
  | tag :: rest =>
      match tag with
      | x01 => then_some rest RespOk
      | x02 =>
          '(from, rest) ← take_u64 rest;
          '(messages, rest) ← take_messages rest;
          then_some rest (RespDelivered from messages)
      | x03 =>
          match rest with
          | [x00] => Some (Acked false)
          | [x01] => Some (Acked true)
          | _ => None
          end
      | x04 => then_some rest Unauthorized
      | x06 => then_some rest UnknownRecipient
      | x07 => then_some rest RespQueueFull
      | x08 => then_some rest RespTooLarge
      | x05 =>
          '(count, rest) ← take_u64 rest;
          then_some rest (DeliveredCount count)
      | _ => None
      end
  end.

Definition encode_auth (d : DeviceAddr) (signature : bytes) : option bytes :=
  a ← put_addr d; s ← put_bytes signature; Some (a ++ s).

Definition decode_auth (bs : bytes) : option (DeviceAddr * bytes) :=
  '(d, rest) ← take_addr bs;
  '(sig, rest) ← take_bytes rest;
  then_some rest (d, sig).

(** [handle_bytes]: the outer option is a panic, the inner one the refusal of
    malformed bytes. *)
Definition handle_bytes (r : Relay) (authorized : DeviceAddr) (request : bytes)
    : option (Relay * option bytes) :=
  match decode_request request with
  | None => Some (r, None)
  | Some req =>
      '(r', resp) ← handle r authorized req;
      out ← encode_response resp;
      Some (r', Some out)
  end.

(** ** Snapshots *)
Definition SNAPSHOT_MARKER : byte := x5a.
Definition SNAPSHOT_VERSION_2 : byte := x02.

(** One queue of a snapshot: [[addr][u64 base][u64 inner_cursor][lp resident]]. *)
Definition put_queue (p : DeviceAddr * Queue) : option bytes :=
  a ← put_addr p.1;
  log_bytes ← put_messages (queue_resident p.2);
  l ← put_bytes log_bytes;
  Some (a ++ be64 (base p.2) ++ be64 (queue_inner_cursor p.2) ++ l).

Definition relay_snapshot (r : Relay) : option bytes :=
  body ← put_section put_queue (queues r);
  Some ([SNAPSHOT_MARKER; SNAPSHOT_VERSION_2] ++ body).

(** The body of the [restore_v2] loop. *)
Definition take_queue_v2 (bs : bytes) : option ((DeviceAddr * Queue) * bytes) :=
  '(d, r) ← take_addr bs;
  '(b, r) ← take_u64 r;
  '(inner_cursor, r) ← take_u64 r;
  '(log_bytes, r) ← take_bytes r;
  '(resident, log_rest) ← take_messages log_bytes;
  match log_rest with
  | [] => q ← queue_from_parts b resident inner_cursor; Some ((d, q), r)
  | _ => None
  end.

(** The body of the [restore_legacy] loop: an absolute cursor and a whole log. *)
Definition take_queue_legacy (bs : bytes) : option ((DeviceAddr * Queue) * bytes) :=
  '(d, r) ← take_addr bs;
  '(c, r) ← take_u64 r;
  '(log_bytes, r) ← take_bytes r;
  '(whole, log_rest) ← take_messages log_bytes;
  match log_rest with
  | [] => q ← queue_from_parts 0 whole c; Some ((d, q), r)
  | _ => None
  end.

(** The loop and what follows it: queues inserted in order, the byte indexes
    rebuilt, and no byte left over. *)
Definition restore_with (take_queue : bytes -> option ((DeviceAddr * Queue) * bytes)) (bs : bytes)
    : option Relay :=
  '(records, rest) ← take_counted take_queue bs;
  let qs := fold_left (fun m p => <[p.1 := p.2]> m) records (∅ : gmap DeviceAddr Queue) in
  let r := relay_rebuild_user_bytes
             (mkRelay qs (user_bytes relay_new) (total_bytes relay_new) (max_total_bytes relay_new)) in
  then_some rest r.

Definition restore_v2 (bs : bytes) : option Relay := restore_with take_queue_v2 bs.
Definition restore_legacy (bs : bytes) : option Relay := restore_with take_queue_legacy bs.

Definition relay_restore (bs : bytes) : option Relay :=
  match bs with
  | marker :: rest =>
      if bool_decide (marker = SNAPSHOT_MARKER) then
        match rest with
        | [] => None
        | version :: rest =>
            if bool_decide (version = SNAPSHOT_VERSION_2) then restore_v2 rest else None
        end
      else restore_legacy bs
  | [] => restore_legacy bs
  end.

(** ** Ranges of the Rust types *)
Definition message_wf (m : StoredMessage) : Prop := addr_wf (msg_from m).

Definition request_wf (req : Request) : Prop :=
  match req with
  | Send to _ => addr_wf to
  | Poll d => addr_wf d
  | Ack d up_to => addr_wf d /\ u64_wf up_to
  | ReqDelivered devices => Forall addr_wf devices
  end.

Definition response_wf (resp : Response) : Prop :=
  match resp with
  | RespDelivered from messages => u64_wf from /\ Forall message_wf messages
  | DeliveredCount count => u64_wf count
  | _ => True
  end.

(** ** Lemmas *)
Lemma encode_decode e bs : encode e = Some bs -> decode bs = Some e.
Proof.
  intros H. rewrite decode_decode_one.
  apply (decode_one_encode _ _ []) in H. rewrite app_nil_r in H. by rewrite H.
Qed.

Lemma decode_encode e bs : decode bs = Some e -> encode e = Some bs.
Proof.
  rewrite decode_decode_one. destruct (decode_one bs) as [[e' [|]]|] eqn:E; [|done|done].
  intros [= ->]. apply encode_decode_one in E as (b & Hb & ->). by rewrite app_nil_r.
Qed.

#[global] Instance frames_message : Frames message_wf put_message take_message.
Proof.
  split.
  - intros m bs rest Hm H. unfold put_message in H. inv_bind. unfold take_message. frames_fwd.
    rewrite (encode_decode _ _ E0). cbn. by destruct m.
  - intros input m rest H. unfold take_message in H. inv_bind. frames_inv. split; [done|].
    unfold put_message. apply decode_encode in E1. cbn [msg_from msg_envelope]. put_fwd.
    eexists. split; [done|]. by rewrite <- app_assoc.
Qed.

Ltac close_codec :=
  inv_bind; end_inv; frames_inv; split; [by split_and? || done|];
  cbn [encode_request encode_response]; put_fwd; rewrite ?app_nil_r; done.

(** ** Properties *)

Lemma relay_request_exact bs req :
  decode_request bs = Some req <-> request_wf req /\ encode_request req = Some bs.
Proof.
  split.
  - destruct bs as [|tag rest]; [done|]. cbn [decode_request]. intros H. tag_cases H tag.
    + inv_bind. end_inv. apply decode_encode in E1. frames_inv. split; [done|].
      cbn [encode_request]. put_fwd. by rewrite app_nil_r.
    + close_codec.
    + close_codec.
    + close_codec.
  - intros [Hwf H]. destruct req; cbn [encode_request request_wf] in *; destruct_and?; inv_bind;
      cbn [decode_request app]; rewrite <- (app_nil_r (_ : bytes)); frames_fwd; try done.
    by rewrite (encode_decode _ _ E0).
Qed.

Lemma relay_response_exact bs resp :
  decode_response bs = Some resp <-> response_wf resp /\ encode_response resp = Some bs.
Proof.
  split.
  - destruct bs as [|tag rest]; [done|]. cbn [decode_response]. intros H.
    unfold take_messages in H. tag_cases H tag; try close_codec.
    + inv_bind. end_inv. frames_inv. split; [done|]. cbn [encode_response].
      unfold put_messages. put_fwd. by rewrite app_nil_r.
    + destruct rest as [|b [|]]; try discriminate H; tag_cases H b; by simplify_eq.
  - intros [Hwf H]. destruct resp; cbn [encode_response response_wf] in *; destruct_and?;
      unfold put_messages in H; inv_bind; cbn [decode_response app]; try done.
    + unfold take_messages. rewrite <- (app_nil_r (_ : bytes)). by frames_fwd.
    + by destruct accepted.
    + rewrite <- (app_nil_r (be64 count)). by frames_fwd.
Qed.

(** The relay's message codecs are exact: a byte string decodes to a
    request exactly when it is that request's encoding (with every address in
    its Rust type), and to a response exactly when it is that response's.  No
    message has two encodings, nothing is lost, and every malformed, truncated
    or over-long input is refused. *)
Lemma relay_messages_exact bs req resp :
  (decode_request bs = Some req <-> request_wf req /\ encode_request req = Some bs) /\
  (decode_response bs = Some resp <-> response_wf resp /\ encode_response resp = Some bs).
Proof. split; [apply relay_request_exact|apply relay_response_exact]. Qed.

(** ** Isolation of devices *)
Definition is_send (req : Request) : bool := match req with Send _ _ => true | _ => false end.

Lemma relay_cursor_total limit n r d :
  relay_reach limit n r -> limit < u64_max -> n <= u64_max -> exists c, relay_cursor r d = Some c.
Proof.
  intros H Hl Hn. destruct (relay_reach_inv limit n r H Hl Hn) as (_ & Hr & Hlife).
  specialize (Hlife d). pose proof (queue_of_ok r d Hr) as ([? ?] & _).
  unfold relay_cursor, queue_of in *. destruct (queues r !! d) as [q|]; [|eauto]. cbn in *.
  unfold queue_cursor. rewrite checked_add64_Some; [eauto|]. unfold lifetime in Hlife. lia.
Qed.

(** Requests that read or acknowledge see the queues of their user only. *)
Lemma handle_local r r2 auth req r' resp :
  is_send req = false -> (forall d, user d = user auth -> queues r2 !! d = queues r !! d) ->
  handle r auth req = Some (r', resp) -> exists r2', handle r2 auth req = Some (r2', resp).
Proof.
  intros Hs Hq H. destruct req as [|d|d up_to|ds]; [done| | |]; cbn [handle] in *.
  - case_bool_decide; [subst d|inv_bind; eauto]. unfold relay_cursor, relay_pending in *.
    rewrite Hq by done. inv_bind. eauto.
  - case_bool_decide; [subst d|inv_bind; eauto]. unfold relay_ack in *. rewrite Hq by done.
    destruct (queues r !! auth) as [q|]; [|inv_bind; eauto].
    destruct (queue_ack q up_to) as [[q' acc]|]; [|done]. revert H.
    destruct acc; cbn; intros H.
    + destruct (checked_sub _ _); [|done]. cbn in *. inv_bind. eauto.
    + inv_bind. eauto.
  - destruct (forallb _ ds) eqn:Eb; [|inv_bind; eauto].
    assert (mapM (relay_cursor r2) ds = mapM (relay_cursor r) ds) as ->;
      [|inv_bind; cbn; eauto].
    apply Is_true_eq_left, forallb_True in Eb. clear -Eb Hq.
    induction Eb as [|d ds Hd _ IH]; [done|]. cbn. rewrite IH.
    assert (relay_cursor r2 d = relay_cursor r d) as ->; [|done].
    unfold relay_cursor. rewrite Hq; [done|]. by apply bool_decide_unpack in Hd.
Qed.

(** C31. Isolation: whatever a device asks, in any reachable relay, it is
    answered; no other device's cursor moves, and another device's pending list
    either stays as it was or gains one message at its end, stamped with the
    authenticated sender.  And the answer to a poll, an acknowledgment or a
    delivered-count depends on the queues of the asker's own user only: two
    relays that agree on those give the same answer. *)
Theorem relay_handle_isolates limit n r auth req :
  relay_reach limit n r -> limit < u64_max -> n < u64_max ->
  exists r' resp, handle r auth req = Some (r', resp) /\
    (forall d, d <> auth -> relay_cursor r' d = relay_cursor r d) /\
    (forall d pend, d <> auth -> relay_pending r d = Some pend ->
       relay_pending r' d = Some pend \/
       exists e, relay_pending r' d = Some (pend ++ [mkStored auth e]) /\ req = Send d e) /\
    (is_send req = false ->
       forall r2, (forall d, user d = user auth -> queues r2 !! d = queues r !! d) ->
       exists r2', handle r2 auth req = Some (r2', resp)).
Proof.
  intros H Hl Hn. destruct (relay_reach_inv limit n r H Hl) as (_ & Hr & Hlife); [lia|].
  assert (exists r' resp, handle r auth req = Some (r', resp) /\
    (forall d, d <> auth -> relay_cursor r' d = relay_cursor r d) /\
    (forall d pend, d <> auth -> relay_pending r d = Some pend ->
       relay_pending r' d = Some pend \/
       exists e, relay_pending r' d = Some (pend ++ [mkStored auth e]) /\ req = Send d e))
    as (r' & resp & Hh & Hc & Hp); [|exists r', resp; eauto using handle_local].
  destruct req as [to e|d|d up_to|ds]; cbn [handle].
  - destruct (queue_pending_of r to Hr) as [pend Hp].
    destruct (relay_enqueue_spec r to auth e pend Hr Hp) as [(_ & r' & -> & _ & Hq)|(_ & ->)];
      cbn [mbind option_bind]; eexists _, _; (split; [done|]); [|eauto].
    split.
    + intros d _. unfold relay_cursor. rewrite Hq, lookup_insert. case_decide; [subst|done].
      unfold queue_of. destruct (queues r !! d); done.
    + intros d pd _ Hd. destruct (decide (to = d)) as [->|].
      * right. exists e. split; [|done]. rewrite relay_pending_queue_of in *.
        unfold queue_of at 1. rewrite Hq, lookup_insert_eq. cbn.
        apply session_pending_append; [|done]. by apply queue_of_ok.
      * left. unfold relay_pending. rewrite Hq, lookup_insert_ne by done. exact Hd.
  - case_bool_decide; [subst|eauto 10].
    destruct (relay_cursor_total limit n r auth H Hl) as [c ->]; [lia|]. cbn.
    destruct (queue_pending_of r auth Hr) as [p ->]. cbn. eauto 10.
  - case_bool_decide; [subst|eauto 10].
    destruct (relay_ack_inv r auth up_to Hr) as (r' & b & -> & _ & Hq & _); [specialize (Hlife auth); lia|].
    cbn. eexists _, _. split; [done|].
    assert (forall d, d <> auth -> queues r' !! d = queues r !! d) as Hne.
    { intros d Hd. rewrite Hq. repeat case_match; try done. by rewrite lookup_insert_ne. }
    split; [intros d Hd; unfold relay_cursor; by rewrite Hne|].
    intros d pd Hd. unfold relay_pending. rewrite Hne by done. eauto.
  - destruct (forallb _ ds); [|eauto 10].
    assert (is_Some (mapM (relay_cursor r) ds)) as [cs ->]; [|cbn; eauto 10].
    apply mapM_is_Some, Forall_forall. intros d _.
    destruct (relay_cursor_total limit n r d H Hl) as [c Hc]; [lia|by exists c].
Qed.

Lemma relay_handle_isolates_witness :
  exists r' resp, handle bob_relay alice1 (Send bob1 hello) = Some (r', resp) /\
    (forall d, d <> alice1 -> relay_cursor r' d = relay_cursor bob_relay d) /\
    (forall d pend, d <> alice1 -> relay_pending bob_relay d = Some pend ->
       relay_pending r' d = Some pend \/
       exists e, relay_pending r' d = Some (pend ++ [mkStored alice1 e]) /\ Send bob1 hello = Send d e) /\
    (is_send (Send bob1 hello) = false ->
       forall r2, (forall d, user d = user alice1 -> queues r2 !! d = queues bob_relay !! d) ->
       exists r2', handle r2 alice1 (Send bob1 hello) = Some (r2', resp)).
Proof.
  apply (relay_handle_isolates MAX_TOTAL_BYTES 1); [apply bob_relay_reach|done|done].
Defined.

(** ** Snapshots restore *)

(** A queue record of a snapshot, as [restore_v2] accepts it. *)
Definition queue_record_wf (p : DeviceAddr * Queue) : Prop :=
  addr_wf p.1 /\ u64_wf (base p.2) /\ u64_wf (cursor (inner p.2)) /\
  Forall message_wf (log (inner p.2)) /\
  queue_from_parts (base p.2) (log (inner p.2)) (cursor (inner p.2)) = Some p.2.

Lemma queue_from_parts_Some b l c q :
  0 <= c -> queue_from_parts b l c = Some q ->
  base q = b /\ log (inner q) = l /\ cursor (inner q) = c.
Proof.
  unfold queue_from_parts. intros Hc H. inv_bind. rewrite rebuild_session in *. cbn in *.
  destruct (c >? 0) eqn:E1; [|inv_bind; bool_prop; cbn; split_and!; done || lia].
  unfold session_ack in H. cbn [log cursor] in H. destruct (_ && _); cbn [negb] in H; [|done].
  by inv_bind.
Qed.

#[global] Instance frames_queue : Frames queue_record_wf put_queue take_queue_v2.
Proof.
  split.
  - intros [d q] bs rest (Hd & Hb & Hc & Hm & Hq) H. unfold put_queue, put_messages in H. cbn [fst snd] in *.
    inv_bind. unfold take_queue_v2, take_messages, queue_resident, queue_inner_cursor in *. frames_fwd.
    rewrite <- (app_nil_r l0). frames_fwd. by rewrite Hq.
  - intros input [d q] rest H. unfold take_queue_v2, take_messages in H. inv_bind.
    frames_inv.
    match goal with H : queue_from_parts _ _ _ = _ |- _ => pose proof H as Hf;
      apply queue_from_parts_Some in H as (? & ? & ?); [|unfold u64_wf in *; lia] end. subst.
    split; [done|]. unfold put_queue, put_messages, queue_resident, queue_inner_cursor.
    rewrite app_nil_r in *. cbn [fst snd]. put_fwd. eexists. split; [done|]. by rewrite <- !app_assoc.
Qed.

Lemma put_message_total m : byte_len m <= MAX_ENVELOPE_BYTES ->
  exists out, put_message m = Some out /\ len out = 19 + byte_len m.
Proof.
  unfold byte_len. intros H. limits. unfold put_message.
  destruct (put_addr_total (msg_from m)) as (a & Ha & La); [limits; len_lia|].
  assert (exists env, encode (msg_envelope m) = Some env /\
            len env = 7 + len (payload (msg_envelope m))) as (env & He & Le).
  { unfold encode. rewrite u32_try_from_wf by (limits; len_lia). cbn. eexists; split; [done|].
    autorewrite with lens. lia. }
  destruct (put_bytes_total env) as (e & Hb & Lb); [limits; len_lia|].
  put_fwd. eexists; split; [done|]. rewrite len_app. lia.
Qed.

Lemma put_messages_len ms :
  len ms <= MAX_PENDING -> Forall (fun m => byte_len m <= MAX_ENVELOPE_BYTES) ms ->
  exists out, put_messages ms = Some out /\ len out = 4 + 19 * len ms + sum_bytes ms.
Proof.
  intros Hl Hm. destruct (put_many_total put_message (fun m => 19 + byte_len m) ms)
    as (body & Hb & Lb).
  { eapply Forall_impl; [exact Hm|]. intros m. apply put_message_total. }
  unfold put_messages, put_counted. rewrite u32_try_from_wf by (limits; lia). cbn. rewrite Hb. cbn.
  eexists; split; [done|]. unfold put_u32. rewrite len_app, len_be_bytes, Lb.
  assert (foldr (fun x acc => 19 + byte_len x + acc) 0 ms = 19 * len ms + sum_bytes ms) as ->; [|lia].
  clear. induction ms as [|m ms IH]; [done|]. cbn [foldr sum_bytes]. fold (sum_bytes ms).
  rewrite len_cons. lia.
Qed.

Lemma put_messages_total ms :
  len ms <= MAX_PENDING -> sum_bytes ms <= MAX_QUEUE_BYTES ->
  Forall (fun m => byte_len m <= MAX_ENVELOPE_BYTES) ms ->
  exists out, put_messages ms = Some out /\ len out <= u32_max.
Proof.
  intros Hl Hs Hm. destruct (put_messages_len ms Hl Hm) as (out & Ho & Lo). exists out. split; [done|]. limits. lia.
Qed.

(** What the operations do to the queues. *)
Lemma enqueue_queue r to from e r' res : relay_inv r -> relay_enqueue r to from e = Some (r', res) ->
  relay_inv r' /\ max_total_bytes r' = max_total_bytes r /\
  (r' = r \/ exists size, queues r' = <[to := mkQueue (base (queue_of r to)) (session_append (inner (queue_of r to)) (mkStored from e)) size]> (queues r)).
Proof.
  intros Hi H. destruct (queue_pending_of r to Hi) as [pend Hp]. split; [|split].
  - destruct (relay_enqueue_spec r to from e pend Hi Hp) as [(_ & r1 & H1 & Hr1 & _)|(_ & H1)]; rewrite H1 in H; by inv_bind.
  - unfold relay_enqueue in H. repeat case_match; inv_bind; simplify_eq; try done; repeat case_match; inv_bind; by simplify_eq.
  - destruct (relay_enqueue_spec r to from e pend Hi Hp) as [(_ & r1 & H1 & _ & Hq)|(_ & H1)]; rewrite H1 in H; inv_bind; [right; by eexists|by left].
Qed.

Lemma ack_queue r d up_to r' b : relay_inv r -> lifetime (queue_of r d) <= u64_max -> relay_ack r d up_to = Some (r', b) ->
  relay_inv r' /\ max_total_bytes r' = max_total_bytes r /\
  (queues r' = queues r \/ exists k size, is_Some (queues r !! d) /\
     lifetime (mkQueue up_to (mkSession (drop k (log (inner (queue_of r d)))) 0) size) <= lifetime (queue_of r d) /\
     queues r' = <[d := mkQueue up_to (mkSession (drop k (log (inner (queue_of r d)))) 0) size]> (queues r)).
Proof.
  intros Hi Hl H. destruct (relay_ack_inv r d up_to Hi Hl) as (r1 & b1 & H1 & Hr1 & Hq & _). rewrite H1 in H. injection H as <- <-. split; [done|]. split.
  - clear Hq. unfold relay_ack in H1. destruct (queues r !! d); [|by injection H1 as <- <-]. inv_bind. case_match; by inv_bind.
  - rewrite Hq. destruct (queues r !! d) as [q|] eqn:E; [|by left]. assert (queue_of r d = q) as Hqq by (unfold queue_of; by rewrite E).
    pose proof (queue_of_ok r d Hi) as Hok. pose proof Hok as (Hv & Hb & _). destruct (queue_ack _ up_to) as [[q' b']|] eqn:Ea; [|by left].
    pose proof (queue_ack_ok _ _ _ _ Hok Hl Ea) as (_ & Hle & _).
    rewrite queue_ack_spec in Ea by done. cbv zeta in Ea. rewrite Hqq in *. destruct (_ && _); injection Ea as <- <-.
    + right. eexists _, _. split; [by eexists|]. split; [|reflexivity]. rewrite Hle. reflexivity.
    + left. by apply insert_id.
Qed.

(** What a relay keeps whatever it is asked, restarts included: its ceiling, at
    most [n] messages ever in a queue, and no queue with acknowledged messages in
    its log.  [relay_texts]: what it stores came off the wire. *)
Record relay_sound (limit n : Z) (r : Relay) : Prop := {
  so_count : 0 <= n;
  so_inv : relay_inv r;
  so_limit : max_total_bytes r = limit;
  so_life d : lifetime (queue_of r d) <= n;
  so_compact d q : queues r !! d = Some q -> cursor (inner q) = 0
}.

Definition relay_texts (r : Relay) : Prop :=
  forall d q, queues r !! d = Some q -> addr_ok d /\ Forall message_wf (log (inner q)).

Lemma sound_new limit r : relay_with_max_total_bytes relay_new limit = Some r -> limit < u64_max -> relay_sound limit 0 r /\ relay_texts r.
Proof.
  intros H Hl. pose proof (relay_new_inv _ _ H Hl) as Hi. unfold relay_with_max_total_bytes in H. inv_bind. split; [split; try done|];
    cbn; try (intros d q; by rewrite lookup_empty). intros d. unfold queue_of. cbn. by rewrite lookup_empty.
Qed.

Lemma sound_enqueue limit n r to from e r' res : relay_sound limit n r -> relay_enqueue r to from e = Some (r', res) ->
  relay_sound limit (n + 1) r'.
Proof.
  intros [H0 Hi Hm Hl Hc] H. destruct (enqueue_queue _ _ _ _ _ _ Hi H) as (Hi' & Hm' & Hq).
  destruct Hq as [->|[size Hq]]; [split; try done; [lia|intros d; specialize (Hl d); lia]|]. split; [lia|done|congruence| |].
  - eapply lifetime_set_queue; [exact Hq| |].
    + specialize (Hl to). unfold lifetime in *. cbn. len_lia.
    + intros d. specialize (Hl d). lia.
  - intros d q. rewrite Hq, lookup_insert. case_decide; [|apply Hc]. intros [= <-]. cbn. unfold queue_of.
    destruct (queues r !! to) eqn:E; [by eapply Hc|done].
Qed.

Lemma sound_ack limit n r d up_to r' b : relay_sound limit n r -> n <= u64_max -> relay_ack r d up_to = Some (r', b) ->
  relay_sound limit (n + 1) r'.
Proof.
  intros [H0 Hi Hm Hl Hc] Hn H. assert (lifetime (queue_of r d) <= u64_max) as Hld by (specialize (Hl d); lia).
  destruct (ack_queue _ _ _ _ _ Hi Hld H) as (Hi' & Hm' & Hq).
  split; [lia|done|congruence| |]; destruct Hq as [Hq|(k & size & _ & Hle & Hq)].
  - intros d'. unfold queue_of. rewrite Hq. specialize (Hl d'). unfold queue_of in Hl. lia.
  - eapply lifetime_set_queue; [exact Hq|specialize (Hl d); lia|]. intros d'. specialize (Hl d'). lia.
  - by rewrite Hq.
  - intros d' q. rewrite Hq, lookup_insert. case_decide; [|apply Hc]. by intros [= <-].
Qed.

Lemma texts_enqueue r to from e r' res : relay_inv r -> relay_texts r -> addr_ok to -> addr_wf from ->
  relay_enqueue r to from e = Some (r', res) -> relay_texts r'.
Proof.
  intros Hi Ht Hto Hf H. destruct (enqueue_queue _ _ _ _ _ _ Hi H) as (_ & _ & [->|[size Hq]]); [done|]. intros d q.
  rewrite Hq, lookup_insert. case_decide; [|apply Ht]. intros [= <-]. subst d. split; [done|]. cbn. apply Forall_app. split; [|by constructor].
  unfold queue_of. destruct (queues r !! to) eqn:E; [by eapply Ht|constructor].
Qed.

Lemma texts_ack r d up_to r' b : relay_inv r -> lifetime (queue_of r d) <= u64_max -> relay_texts r ->
  relay_ack r d up_to = Some (r', b) -> relay_texts r'.
Proof.
  intros Hi Hl Ht H. destruct (ack_queue _ _ _ _ _ Hi Hl H) as (_ & _ & [Hq|(k & size & [q Hd] & _ & Hq)]); intros d' q'.
  - rewrite Hq. apply Ht.
  - rewrite Hq, lookup_insert. case_decide; [|apply Ht]. intros [= <-]. subst d'. destruct (Ht _ _ Hd) as [Ha Hw]. split; [done|]. cbn.
    unfold queue_of. rewrite Hd. by apply Forall_drop.
Qed.

Lemma sound_weaken limit n m r : relay_sound limit n r -> n <= m -> relay_sound limit m r.
Proof. intros [H0 Hi Hm Hl Hc] Hn. split; try done; [lia|]. intros d. specialize (Hl d). lia. Qed.

Lemma sound_handle limit n r d req r' resp : relay_sound limit n r -> n <= u64_max -> handle r d req = Some (r', resp) ->
  relay_sound limit (n + 1) r'.
Proof.
  intros Hs Hn H. assert (relay_sound limit (n + 1) r) as Hw by (eapply sound_weaken; [done|lia]).
  destruct req as [to e|d1|d1 k|ds]; cbn [handle] in H.
  - inv_bind. by eapply sound_enqueue.
  - case_bool_decide; [|by injection H as <- <-]. by inv_bind.
  - case_bool_decide; [|by injection H as <- <-]. inv_bind. by eapply sound_ack.
  - destruct (forallb _ ds); [|by injection H as <- <-]. by inv_bind.
Qed.

Lemma texts_handle limit n r d req r' resp : relay_sound limit n r -> n <= u64_max -> relay_texts r -> addr_wf d ->
  (forall to e, req = Send to e -> addr_ok to) -> handle r d req = Some (r', resp) -> relay_texts r'.
Proof.
  intros Hs Hn Ht Hd Hto H. destruct req as [to e|d1|d1 k|ds]; cbn [handle] in H.
  - inv_bind. eapply texts_enqueue; eauto. apply Hs.
  - case_bool_decide; [|by injection H as <- <-]. by inv_bind.
  - case_bool_decide; [|by injection H as <- <-]. inv_bind. eapply texts_ack; [apply Hs| |done|done].
    pose proof (so_life _ _ _ Hs d). lia.
  - destruct (forallb _ ds); [|by injection H as <- <-]. by inv_bind.
Qed.

(** Addresses off the wire. *)
Lemma put_addr_len d bs : put_addr d = Some bs -> len (user d) <= u32_max.
Proof. unfold put_addr, put_bytes. intros H. inv_bind. unfold u32_try_from in *. by case_match; bool_prop. Qed.

Lemma decode_send_ok bs to e : decode_request bs = Some (Send to e) -> addr_ok to.
Proof.
  intros [Hw H]%relay_request_exact. cbn [request_wf encode_request] in *. inv_bind. split; [done|]. by eapply put_addr_len.
Qed.

Lemma decode_auth_wf bs d sig : decode_auth bs = Some (d, sig) -> addr_wf d.
Proof. unfold decode_auth. intros H. inv_bind. frames_inv. destruct l1; [|done]. by injection H as -> ->. Qed.

Lemma relay_reach_sound limit n r : relay_reach limit n r -> limit < u64_max -> n <= u64_max -> relay_sound limit n r.
Proof.
  intros H Hl. induction H as [r H|n r to from e r' res Hr IH H|n r d up_to r' b Hr IH Hup H]; intros Hn.
  - by apply (sound_new _ _ H).
  - eapply sound_enqueue; [apply IH; lia|done].
  - eapply sound_ack; [apply IH; lia|lia|done].
Qed.

(** [rebuild_user_bytes] computes the sums the invariant speaks of. *)
Lemma rebuild_correct r :
  relay_inv r ->
  relay_rebuild_user_bytes (mkRelay (queues r) ∅ 0 MAX_TOTAL_BYTES) =
  mkRelay (queues r) (user_bytes r) (total_bytes r) MAX_TOTAL_BYTES.
Proof.
  intros Hr. unfold relay_rebuild_user_bytes. cbn [queues max_total_bytes]. f_equal.
  - set (step := fun '(addr, q) (totals : gmap bytes Z) => _).
    assert (forall l, dom (foldr step ∅ l) = list_to_set (user ∘ fst <$> l) /\
      forall u, default 0 (foldr step ∅ l !! u) = foldr (fun p acc => of_user u p.1 p.2 + acc) 0 l) as Hl.
    { induction l as [|[a q] l [IH1 IH2]]; cbn [foldr fmap list_fmap list_to_set].
      - split; [by rewrite dom_empty_L|]. intros u. by rewrite lookup_empty.
      - split; [unfold step at 1; by rewrite dom_insert_L, IH1|]. intros u. unfold step at 1.
        rewrite lookup_insert. unfold of_user at 1. cbn [fst snd].
        case_decide; subst; cbn; rewrite IH2; lia. }
    specialize (Hl (map_to_list (queues r))) as [Hd Hv].
    apply (map_eq_default 0).
    + rewrite Hd, (inv_user_dom r Hr), list_fmap_compose. apply set_eq. intros u.
      rewrite elem_of_list_to_set, elem_of_map, list_elem_of_fmap. split.
      * intros (a & -> & Ha). exists a. split; [done|]. apply list_elem_of_fmap in Ha as ([a' q] & -> & Ha).
        apply elem_of_map_to_list in Ha. by eapply elem_of_dom_2.
      * intros (a & -> & [q Ha]%elem_of_dom). exists a. split; [done|].
        apply list_elem_of_fmap. exists (a, q). split; [done|]. by apply elem_of_map_to_list.
    + intros u. rewrite Hv, (inv_user_sum r Hr). unfold user_sum, msum.
      rewrite map_fold_foldr. clear. by induction (map_to_list _) as [|[] ? IH]; cbn; [|rewrite IH].
  - rewrite (inv_total r Hr). unfold total_sum, msum. by rewrite map_fold_foldr.
Qed.

Lemma queue_record_put limit n r d q :
  relay_sound limit n r -> n <= u64_max ->
  queues r !! d = Some q -> addr_ok d -> Forall (fun m => message_wf m) (log (inner q)) ->
  queue_record_wf (d, q) /\ exists bs, put_queue (d, q) = Some bs.
Proof.
  intros [_ Hi _ Hlife Hcomp] Hn Hq [Hd Hu] Hm. pose proof (Hcomp d q Hq) as Hc.
  specialize (Hlife d). unfold queue_of in Hlife. rewrite Hq in Hlife. cbn in Hlife.
  destruct (inv_queues r Hi d q Hq) as (Hv & Hb & pend & Hp & Hpb & Hcnt & Hs & Hf).
  rewrite session_pending_valid in Hp by done. rewrite Hc in Hp. change (drop (Z.to_nat 0) ?l) with l in Hp.
  inv_bind. unfold lifetime in Hlife.
  assert (inner q = mkSession (log (inner q)) 0) as Hin by (destruct (inner q); cbn in *; by subst).
  split.
  - unfold queue_record_wf. cbn [fst snd].
    split; [done|]. split; [unfold u64_wf; len_lia|]. split; [by rewrite Hc|]. split; [done|].
    rewrite Hc. unfold queue_from_parts.
    replace (0 >? len (log (inner q))) with false by (symmetry; rewrite Z.gtb_ltb; apply Z.ltb_ge; len_lia).
    cbn. rewrite rebuild_session. cbn. rewrite <- Hin, session_pending_valid by done.
    rewrite Hc. change (drop (Z.to_nat 0) ?l) with l. cbn. rewrite <- Hpb. by destruct q.
  - unfold put_queue, queue_resident. cbn [fst snd].
    destruct (put_addr_total d Hu) as (a & Ha & _).
    destruct (put_messages_total (log (inner q)) Hcnt Hs Hf) as (o & Ho & Lo).
    destruct (put_bytes_total o Lo) as (b & Hbb & _). put_fwd. eauto.
Qed.

(** A snapshot restores exactly: it never hits an [expect], and restoring it
    gives back every queue (base, cursor, messages and byte count) and the same
    per-user and total byte indexes, with the default node ceiling. *)
Lemma sound_snapshot_restore limit n r : relay_sound limit n r -> n <= u64_max -> Z.of_nat (size (queues r)) <= u32_max -> relay_texts r ->
  exists bs, relay_snapshot r = Some bs /\
    relay_restore bs = Some (mkRelay (queues r) (user_bytes r) (total_bytes r) MAX_TOTAL_BYTES).
Proof.
  intros H Hn Hsz Hwf.
  destruct (put_section_take (put_item := put_queue) (queues r)) as (body & Hb & Ht); [done| |].
  { intros d q Hq. destruct (Hwf d q Hq). by eapply queue_record_put. }
  unfold relay_snapshot. rewrite Hb. eexists; split; [done|]. cbn [relay_restore app].
  rewrite !bool_decide_eq_true_2 by done. unfold restore_v2, restore_with.
  rewrite <- (app_nil_r body), Ht. cbn [mbind option_bind then_some].
  rewrite fold_sorted_items. f_equal. by apply rebuild_correct, (so_inv _ _ _ H).
Qed.

(** A snapshot restores exactly: the snapshot of any reachable relay whose
    device addresses are in range never hits an [expect], and restoring it
    gives back every queue (base, cursor, messages and byte count) and the same
    per-user and total byte indexes, with the default node ceiling. *)
Lemma relay_snapshot_restore limit n r :
  relay_reach limit n r -> limit < u64_max -> n <= u64_max ->
  Z.of_nat (size (queues r)) <= u32_max ->
  (forall d q, queues r !! d = Some q -> addr_ok d /\ Forall message_wf (log (inner q))) ->
  exists bs, relay_snapshot r = Some bs /\
    relay_restore bs = Some (mkRelay (queues r) (user_bytes r) (total_bytes r) MAX_TOTAL_BYTES).
Proof. intros H Hl Hn Hsz Hwf. exact (sound_snapshot_restore limit n r (relay_reach_sound _ _ _ H Hl Hn) Hn Hsz Hwf). Qed.

