(* ===== verification/Directory.v ===== *)
(** * Directory: the device directory and its trust rules
    ([tacenta-directory-core/src/lib.rs], [tacenta-directory/src/lib.rs])

    The pure trust-on-first-use decisions, and the store around them: bindings,
    the per-user device index, recovery keys, the anti-rollback generations and
    the pools of one-time bundles.  A run of operations is compared with
    per-device histories that mention none of the store's maps. *)

From S2P Require Import Prelude Framing.

(** ** The trust core *)
Inductive Registration := Registered | Refreshed | RegRejected.
Inductive Rotation := Rotated | RotUnregistered.

#[global] Instance Registration_eq_dec : EqDecision Registration.
Proof. solve_decision. Defined.
#[global] Instance Rotation_eq_dec : EqDecision Rotation.
Proof. solve_decision. Defined.

Definition register_core (current : option bytes) (presented : bytes) : Registration * bytes :=
  match current with
  | None => (Registered, presented)
  | Some existing =>
      if bool_decide (existing = presented) then (Refreshed, presented)
      else (RegRejected, existing)
  end.

Definition rotate_core (current : option bytes) (new_identity : bytes) : Rotation * option bytes :=
  match current with
  | None => (RotUnregistered, None)
  | Some _ => (Rotated, Some new_identity)
  end.

(** ** The store *)
Inductive Deposit := Deposited (depth : Z) | DepRejected | DepUnregistered.
Inductive RecoverySet := RecSet | RecUnregistered.
Inductive Witness := Fresh | RolledBack | WitUnregistered.

#[global] Instance Deposit_eq_dec : EqDecision Deposit.
Proof. solve_decision. Defined.
#[global] Instance RecoverySet_eq_dec : EqDecision RecoverySet.
Proof. solve_decision. Defined.
#[global] Instance Witness_eq_dec : EqDecision Witness.
Proof. solve_decision. Defined.

Record Entry := mkEntry { entry_identity : bytes; entry_bundle : bytes; entry_pool : list bytes }.

Record Directory := mkDir {
  entries : gmap DeviceAddr Entry;
  devices : gmap bytes (list Z);
  recovery : gmap DeviceAddr bytes;
  generations : gmap DeviceAddr Z
}.

Definition directory_new : Directory := mkDir ∅ ∅ ∅ ∅.

Definition set_entry (dir : Directory) (d : DeviceAddr) (e : Entry) : Directory :=
  mkDir (<[d := e]> (entries dir)) (devices dir) (recovery dir) (generations dir).

Definition dir_identity (dir : Directory) (d : DeviceAddr) : option bytes :=
  entry_identity <$> entries dir !! d.

Definition contains_device (dir : Directory) (d : DeviceAddr) : bool :=
  bool_decide (is_Some (entries dir !! d)).

(** [list.push(d); list.sort_unstable()], unless [d] is there already.  On
    integers an unstable sort is the stable one. *)
Definition index_device (l : list Z) (d : Z) : list Z :=
  if bool_decide (d ∈ l) then l else sort_by Z.compare (l ++ [d]).

Definition dir_register (dir : Directory) (d : DeviceAddr) (identity bundle : bytes)
    : Directory * Registration :=
  let current := dir_identity dir d in
  let '(outcome, binding) := register_core current identity in
  match outcome with
  | RegRejected => (dir, RegRejected)
  | Refreshed => (set_entry dir d (mkEntry binding bundle []), Refreshed)
  | Registered =>
      let list := index_device (default [] (devices dir !! user d)) (device d) in
      let dir' := mkDir (entries dir) (<[user d := list]> (devices dir)) (recovery dir) (generations dir) in
      (set_entry dir' d (mkEntry binding bundle []), Registered)
  end.

Definition dir_rotate (dir : Directory) (d : DeviceAddr) (new_identity new_bundle : bytes)
    : Directory * Rotation :=
  let current := dir_identity dir d in
  match rotate_core current new_identity with
  | (Rotated, Some identity) =>
      let dir' := set_entry dir d (mkEntry identity new_bundle []) in
      (mkDir (entries dir') (devices dir') (recovery dir') (delete d (generations dir')), Rotated)
  | _ => (dir, RotUnregistered)
  end.

Definition set_recovery (dir : Directory) (d : DeviceAddr) (key : bytes) : Directory * RecoverySet :=
  if negb (contains_device dir d) then (dir, RecUnregistered)
  else (mkDir (entries dir) (devices dir) (<[d := key]> (recovery dir)) (generations dir), RecSet).

Definition recovery_key (dir : Directory) (d : DeviceAddr) : option bytes := recovery dir !! d.

Definition witness_core (stored : option Z) (offered : Z) : Witness * Z :=
  match stored with
  | None => (Fresh, offered)
  | Some highest => if offered >=? highest then (Fresh, offered) else (RolledBack, highest)
  end.

Definition dir_witness (dir : Directory) (d : DeviceAddr) (generation : Z) : Directory * Witness :=
  if negb (contains_device dir d) then (dir, WitUnregistered)
  else
    let '(verdict, highest) := witness_core (generations dir !! d) generation in
    (mkDir (entries dir) (devices dir) (recovery dir) (<[d := highest]> (generations dir)), verdict).

Definition restore_generation (dir : Directory) (d : DeviceAddr) (generation : Z) : Directory :=
  mkDir (entries dir) (devices dir) (recovery dir) (<[d := generation]> (generations dir)).

Definition deposit_prekeys (dir : Directory) (d : DeviceAddr) (identity : bytes) (bundles : list bytes)
    : Directory * Deposit :=
  match entries dir !! d with
  | None => (dir, DepUnregistered)
  | Some e =>
      if negb (bool_decide (entry_identity e = identity)) then (dir, DepRejected)
      else
        let pool := entry_pool e ++ bundles in
        (set_entry dir d (mkEntry (entry_identity e) (entry_bundle e) pool), Deposited (len pool))
  end.

Definition pool_depth (dir : Directory) (d : DeviceAddr) : Z :=
  match entries dir !! d with Some e => len (entry_pool e) | None => 0 end.

Definition take_bundle (dir : Directory) (d : DeviceAddr) : Directory * option bytes :=
  match entries dir !! d with
  | None => (dir, None)
  | Some e =>
      match entry_pool e with
      | one_time :: pool =>
          (set_entry dir d (mkEntry (entry_identity e) (entry_bundle e) pool), Some one_time)
      | [] => (dir, Some (entry_bundle e))
      end
  end.

Definition dir_bundle (dir : Directory) (d : DeviceAddr) : option bytes :=
  entry_bundle <$> entries dir !! d.

Definition devices_of (dir : Directory) (u : bytes) : list Z := default [] (devices dir !! u).

(** ** Runs of operations *)
Inductive DirOp :=
| OpRegister (d : DeviceAddr) (identity bundle : bytes)
| OpRotate (d : DeviceAddr) (identity bundle : bytes)
| OpSetRecovery (d : DeviceAddr) (key : bytes)
| OpWitness (d : DeviceAddr) (generation : Z)
| OpDeposit (d : DeviceAddr) (identity : bytes) (bundles : list bytes)
| OpTake (d : DeviceAddr).

Definition dir_step (dir : Directory) (op : DirOp) : Directory :=
  match op with
  | OpRegister d i b => (dir_register dir d i b).1
  | OpRotate d i b => (dir_rotate dir d i b).1
  | OpSetRecovery d k => (set_recovery dir d k).1
  | OpWitness d g => (dir_witness dir d g).1
  | OpDeposit d i bs => (deposit_prekeys dir d i bs).1
  | OpTake d => (take_bundle dir d).1
  end.

Definition dir_run (dir : Directory) (ops : list DirOp) : Directory := fold_left dir_step ops dir.

(** ** Histories

    [binding d ops]: the key a device must be bound to after [ops]: the first
    one registered, until an authorized rotation replaces it. *)
Fixpoint rotated (d : DeviceAddr) (k : bytes) (ops : list DirOp) : bytes :=
  match ops with
  | [] => k
  | OpRotate d' i _ :: ops => rotated d (if bool_decide (d' = d) then i else k) ops
  | _ :: ops => rotated d k ops
  end.

Fixpoint binding (d : DeviceAddr) (ops : list DirOp) : option bytes :=
  match ops with
  | [] => None
  | OpRegister d' i _ :: ops => if bool_decide (d' = d) then Some (rotated d i ops) else binding d ops
  | _ :: ops => binding d ops
  end.

(** [epoch d ops]: the generations presented for [d] in its current trust
    epoch, that is since its registration or its last rotation; [None] before
    the registration. *)
Definition epoch_step (d : DeviceAddr) (h : option (list Z)) (op : DirOp) : option (list Z) :=
  match op, h with
  | OpRegister d' _ _, None => if bool_decide (d' = d) then Some [] else None
  | OpRotate d' _ _, Some gs => if bool_decide (d' = d) then Some [] else Some gs
  | OpWitness d' g, Some gs => if bool_decide (d' = d) then Some (g :: gs) else Some gs
  | _, _ => h
  end.

Definition epoch (d : DeviceAddr) (ops : list DirOp) : option (list Z) := fold_left (epoch_step d) ops None.

(** [follow f ops]: what [f] makes of a history, told of each operation the
    history before it. *)
Fixpoint follow_from {A} (f : list DirOp -> A -> DirOp -> A) (before : list DirOp) (a : A)
    (ops : list DirOp) : A :=
  match ops with
  | [] => a
  | op :: ops => follow_from f (before ++ [op]) (f before a op) ops
  end.

Definition follow {A} (f : list DirOp -> A -> DirOp -> A) (a : A) (ops : list DirOp) : A :=
  follow_from f [] a ops.

(** [accepts d before i]: may the holder of the key [i] speak for [d]? *)
Definition accepts (d : DeviceAddr) (before : list DirOp) (i : bytes) : bool :=
  bool_decide (binding d before = Some i).

(** [stock d ops]: the one-time bundles [d] has left: those deposited under its
    bound key, less those handed out since, since the last publication of a
    bundle under that key and the last rotation. *)
Definition stock_step (d : DeviceAddr) (before : list DirOp) (l : list bytes) (op : DirOp) : list bytes :=
  match op with
  | OpRegister d' i _ => if bool_decide (d' = d) && accepts d before i then [] else l
  | OpRotate d' _ _ => if bool_decide (d' = d) then [] else l
  | OpDeposit d' i bs => if bool_decide (d' = d) && accepts d before i then l ++ bs else l
  | OpTake d' => if bool_decide (d' = d) then tail l else l
  | _ => l
  end.

Definition stock (d : DeviceAddr) (ops : list DirOp) : list bytes := follow (stock_step d) [] ops.

(** [shown d ops]: the last bundle published under the key [d] was then bound
    to, which is also the one that bound it. *)
Definition shown_step (d : DeviceAddr) (before : list DirOp) (o : option bytes) (op : DirOp) : option bytes :=
  match op with
  | OpRegister d' i b =>
      if bool_decide (d' = d) && (accepts d before i || bool_decide (binding d before = None))
      then Some b else o
  | OpRotate d' _ b => if bool_decide (d' = d) && bool_decide (is_Some (binding d before)) then Some b else o
  | _ => o
  end.

Definition shown (d : DeviceAddr) (ops : list DirOp) : option bytes := follow (shown_step d) None ops.

(** [recovers d ops]: the last recovery key set for [d] while it was bound; a
    rotation keeps it. *)
Definition recovers_step (d : DeviceAddr) (before : list DirOp) (o : option bytes) (op : DirOp) : option bytes :=
  match op with
  | OpSetRecovery d' k =>
      if bool_decide (d' = d) && bool_decide (is_Some (binding d before)) then Some k else o
  | _ => o
  end.

Definition recovers (d : DeviceAddr) (ops : list DirOp) : option bytes := follow (recovers_step d) None ops.

(** The bundles deposited for [d] under its bound key, and those handed out
    from its stock. *)
Definition accepted_step (d : DeviceAddr) (before : list DirOp) (l : list bytes) (op : DirOp) : list bytes :=
  match op with
  | OpDeposit d' i bs => if bool_decide (d' = d) && accepts d before i then l ++ bs else l
  | _ => l
  end.

Definition accepted (d : DeviceAddr) (ops : list DirOp) : list bytes := follow (accepted_step d) [] ops.

Definition served_step (d : DeviceAddr) (before : list DirOp) (l : list bytes) (op : DirOp) : list bytes :=
  match op with
  | OpTake d' => if bool_decide (d' = d) then l ++ take 1 (stock d before) else l
  | _ => l
  end.

Definition served (d : DeviceAddr) (ops : list DirOp) : list bytes := follow (served_step d) [] ops.

(** ** Lemmas *)

(** The branches of an operation on one device: its entry, then the tests. *)
Ltac dir_cases dir d :=
  unfold dir_register, dir_rotate, set_recovery, dir_witness, deposit_prekeys, take_bundle,
    dir_identity, contains_device, pool_depth;
  destruct (entries dir !! d) as [[]|] eqn:?; cbn -[lookup insert delete bool_decide];
  repeat case_bool_decide; try done; cbn -[lookup insert delete bool_decide];
  repeat case_match; cbn -[lookup insert delete bool_decide]; simplify_eq.

Lemma step_identity dir op d :
  dir_identity (dir_step dir op) d =
  match op, dir_identity dir d with
  | OpRegister d' i _, None => if bool_decide (d' = d) then Some i else None
  | OpRotate d' i _, Some k => if bool_decide (d' = d) then Some i else Some k
  | _, k => k
  end.
Proof.
  destruct op as [d' i b|d' i b|d' k|d' g|d' i bs|d']; cbn [dir_step];
    dir_cases dir d'; rewrite ?lookup_insert; repeat case_decide; simplify_eq; try done;
    simplify_option_eq; done.
Qed.

Lemma run_identity dir ops d :
  dir_identity (dir_run dir ops) d =
  match dir_identity dir d with Some k => Some (rotated d k ops) | None => binding d ops end.
Proof.
  revert dir. induction ops as [|op ops IH]; intros dir; cbn [dir_run fold_left];
    [by destruct (dir_identity dir d)|].
  fold (dir_run (dir_step dir op) ops). rewrite IH, step_identity.
  destruct op, (dir_identity dir d); cbn; repeat case_bool_decide; done.
Qed.

(** The generations map, step by step. *)
Lemma step_generations dir op d :
  generations (dir_step dir op) !! d =
  match op, entries dir !! d with
  | OpRotate d' _ _, Some _ => if bool_decide (d' = d) then None else generations dir !! d
  | OpWitness d' g, Some _ =>
      if bool_decide (d' = d) then Some (witness_core (generations dir !! d) g).2
      else generations dir !! d
  | _, _ => generations dir !! d
  end.
Proof.
  destruct op as [d' i b|d' i b|d' k|d' g|d' i bs|d']; cbn [dir_step];
    dir_cases dir d'; rewrite ?lookup_insert, ?lookup_delete; repeat case_decide; simplify_eq; try done;
    rewrite ?bool_decide_eq_false_2, ?bool_decide_eq_true_2 by done; simplify_option_eq; try done.
  - by match goal with H : witness_core _ _ = _ |- _ => rewrite H end.
  - exfalso. eauto.
Qed.

(** The stored generation is the greatest of the epoch. *)
Definition anchored (dir : Directory) (d : DeviceAddr) (h : option (list Z)) : Prop :=
  match h with
  | None => entries dir !! d = None /\ generations dir !! d = None
  | Some gs => is_Some (entries dir !! d) /\
      match generations dir !! d with
      | None => gs = []
      | Some m => m ∈ gs /\ Forall (fun g => g <= m) gs
      end
  end.

Lemma step_entries_some dir op d :
  is_Some (entries (dir_step dir op) !! d) <->
  is_Some (entries dir !! d) \/ exists i b, op = OpRegister d i b.
Proof.
  pose proof (step_identity dir op d) as H. unfold dir_identity in H.
  rewrite <- !fmap_is_Some with (f := entry_identity), H.
  destruct (entry_identity <$> entries dir !! d) as [k|]; cbn.
  - split; [by left|]. intros _. destruct op; repeat case_bool_decide; eauto.
  - destruct op; try case_bool_decide; subst; rewrite ?is_Some_alt; cbn; naive_solver.
Qed.

Lemma anchored_step dir op d h :
  anchored dir d h -> anchored (dir_step dir op) d (epoch_step d h op).
Proof.
  intros H. pose proof (step_entries_some dir op d) as He.
  pose proof (step_generations dir op d) as Hg. destruct h as [gs|]; cbn in H.
  - destruct H as [[e E] H]. rewrite E in Hg, He.
    assert (is_Some (entries (dir_step dir op) !! d)) as Hs by (apply He; eauto).
    destruct op; cbn [epoch_step] in *; repeat case_bool_decide; cbn [anchored]; (split; [done|]);
      rewrite Hg; try done.
    unfold witness_core. destruct (generations dir !! d) as [m|]; [|subst gs; cbn].
    + destruct H as [Hm Hle]. case_test; bool_prop; cbn.
      * split; [left|]. constructor; [lia|]. eapply Forall_impl; [done|]. cbn. lia.
      * split; [by right|]. constructor; [lia|done].
    + split; [left|]. by repeat constructor.
  - destruct H as [E H]. rewrite E in Hg, He.
    destruct op; cbn [epoch_step]; try case_bool_decide; subst; cbn [anchored];
      rewrite Hg, ?H; (split; [|done]); rewrite ?He; try (right; by eauto);
      apply eq_None_not_Some; rewrite He; naive_solver.
Qed.

Lemma anchored_run ops d : anchored (dir_run directory_new ops) d (epoch d ops).
Proof.
  assert (forall dir h, anchored dir d h -> anchored (dir_run dir ops) d (fold_left (epoch_step d) ops h)) as H.
  { induction ops as [|op ops IH]; intros dir h Hd; [done|]. cbn. apply IH, anchored_step, Hd. }
  by apply H.
Qed.

(** *** Histories, an operation at a time *)
Lemma follow_from_snoc {A} (f : list DirOp -> A -> DirOp -> A) before a ops op :
  follow_from f before a (ops ++ [op]) = f (before ++ ops) (follow_from f before a ops) op.
Proof.
  revert before a. induction ops as [|o ops IH]; intros before a; cbn [follow_from app];
    [by rewrite app_nil_r|]. by rewrite IH, <- app_assoc.
Qed.

Lemma follow_snoc {A} (f : list DirOp -> A -> DirOp -> A) a ops op :
  follow f a (ops ++ [op]) = f ops (follow f a ops) op.
Proof. apply follow_from_snoc. Qed.

Lemma dir_run_snoc dir ops op : dir_run dir (ops ++ [op]) = dir_step (dir_run dir ops) op.
Proof. apply fold_left_app. Qed.

Lemma new_identity_binding ops d : dir_identity (dir_run directory_new ops) d = binding d ops.
Proof. by rewrite run_identity. Qed.

(** *** What a device has published and has left *)
Definition pool_of (dir : Directory) (d : DeviceAddr) : list bytes :=
  default [] (entry_pool <$> entries dir !! d).

Lemma unbound_pool dir d : dir_identity dir d = None -> pool_of dir d = [].
Proof. unfold dir_identity, pool_of. by destruct (entries dir !! d). Qed.

Ltac history_cases ops d op :=
  rewrite ?follow_snoc, ?dir_run_snoc;
  pose proof (new_identity_binding ops d) as Hb;
  set (dir := dir_run directory_new ops) in *; clearbody dir;
  unfold accepts; rewrite <- ?Hb;
  destruct op as [d' i b|d' i b|d' k|d' g|d' i bs|d']; cbn [dir_step];
  (destruct (decide (d' = d)) as [->|Hd];
    [rewrite ?(bool_decide_eq_true_2 (d = d)) by done|rewrite ?(bool_decide_eq_false_2 (d' = d)) by done]);
  cbn [andb].

Lemma pool_is_stock ops d : pool_of (dir_run directory_new ops) d = stock d ops.
Proof.
  induction ops as [|op ops IH] using rev_ind; [done|]. unfold stock in *.
  rewrite follow_snoc, <- IH. unfold stock_step, pool_of. history_cases ops d op.
  all: first [dir_cases dir d' | dir_cases dir d].
  all: rewrite ?lookup_insert_eq, ?lookup_insert_ne by done; simplify_option_eq; try done; exfalso; eauto.
Qed.

Lemma bundle_is_shown ops d : dir_bundle (dir_run directory_new ops) d = shown d ops.
Proof.
  induction ops as [|op ops IH] using rev_ind; [done|]. unfold shown in *.
  rewrite follow_snoc, <- IH. unfold shown_step, dir_bundle. history_cases ops d op.
  all: first [dir_cases dir d' | dir_cases dir d].
  all: rewrite ?lookup_insert_eq, ?lookup_insert_ne by done; simplify_option_eq; try done; exfalso; eauto.
Qed.

Lemma recovery_is_recovers ops d : recovery_key (dir_run directory_new ops) d = recovers d ops.
Proof.
  induction ops as [|op ops IH] using rev_ind; [done|]. unfold recovers in *.
  rewrite follow_snoc, <- IH. unfold recovers_step, recovery_key. history_cases ops d op.
  all: first [dir_cases dir d' | dir_cases dir d].
  all: rewrite ?lookup_insert_eq, ?lookup_insert_ne by done; simplify_option_eq; try done; exfalso; eauto.
Qed.

Lemma served_once ops d : sublist (served d ops ++ stock d ops) (accepted d ops).
Proof.
  induction ops as [|op ops IH] using rev_ind; [done|]. unfold served, stock, accepted in *.
  rewrite !follow_snoc. fold (stock d ops) in *. revert IH.
  unfold served_step at 2, stock_step, accepted_step at 2.
  generalize (follow (served_step d) [] ops) as v, (stock d ops) as l, (follow (accepted_step d) [] ops) as t.
  intros v l t IH.
  assert (sublist v t) as Hv by (etrans; [|exact IH]; by apply sublist_inserts_r).
  destruct op as [d' i b|d' i b|d' k|d' g|d' i bs|d']; try case_match; rewrite ?app_nil_r; try done.
  - rewrite app_assoc. by apply sublist_app.
  - rewrite <- app_assoc. by destruct l.
Qed.

(** What a deposit and a lookup answer. *)
Lemma deposit_exact dir d i bs :
  (deposit_prekeys dir d i bs).2 =
  match dir_identity dir d with
  | None => DepUnregistered
  | Some k => if decide (k = i) then Deposited (len (pool_of dir d ++ bs)) else DepRejected
  end.
Proof.
  unfold deposit_prekeys, dir_identity, pool_of. destruct (entries dir !! d) as [e|]; [|done]. cbn.
  case_bool_decide; case_decide; done.
Qed.

Lemma deposit_refused dir d i bs : dir_identity dir d <> Some i -> (deposit_prekeys dir d i bs).1 = dir.
Proof.
  unfold deposit_prekeys, dir_identity. destruct (entries dir !! d) as [e|]; [|done]. cbn. intros H.
  case_bool_decide; [|done]. by subst.
Qed.

Lemma take_exact dir d :
  (take_bundle dir d).2 =
  match pool_of dir d with one_time :: _ => Some one_time | [] => dir_bundle dir d end.
Proof.
  unfold take_bundle, pool_of, dir_bundle. destruct (entries dir !! d) as [e|]; [|done]. cbn.
  by destruct (entry_pool e).
Qed.

(** *** The index *)
Record dir_inv (dir : Directory) : Prop := {
  inv_index d : device d ∈ devices_of dir (user d) <-> is_Some (entries dir !! d);
  inv_users u : is_Some (devices dir !! u) -> exists d, user d = u /\ is_Some (entries dir !! d);
  inv_sorted u : StronglySorted (fun a b => (a ?= b) = Lt) (devices_of dir u);
  inv_recovery d : is_Some (recovery dir !! d) -> is_Some (entries dir !! d);
  inv_generations d : is_Some (generations dir !! d) -> is_Some (entries dir !! d)
}.

Lemma sorted_nodup l : StronglySorted (fun a b => (a ?= b) = Lt) l -> NoDup l.
Proof.
  induction 1 as [|x l Hl IH Hx]; constructor; [|done]. intros Hin.
  rewrite Forall_forall in Hx. apply Hx in Hin. rewrite Z.compare_refl in Hin. done.
Qed.

Lemma index_device_spec l x :
  StronglySorted (fun a b => (a ?= b) = Lt) l ->
  StronglySorted (fun a b => (a ?= b) = Lt) (index_device l x) /\
  forall y, y ∈ index_device l x <-> y ∈ l \/ y = x.
Proof.
  intros Hl. unfold index_device. case_bool_decide as Hx.
  - split; [done|]. intros y. naive_solver.
  - split.
    + apply sort_by_strict.
      * intros. apply Z.compare_antisym.
      * intros a b c. rewrite !Z.compare_lt_iff. lia.
      * intros a b. apply Z.compare_eq.
      * apply NoDup_app. split_and!; [by apply sorted_nodup| |apply NoDup_singleton].
        intros y Hy ->%list_elem_of_singleton. done.
    + intros y. rewrite sort_by_perm, elem_of_app, list_elem_of_singleton. done.
Qed.

Lemma step_recovery dir op d :
  is_Some (recovery (dir_step dir op) !! d) ->
  is_Some (recovery dir !! d) \/ is_Some (entries dir !! d).
Proof.
  destruct op as [d' i b|d' i b|d' k|d' g|d' i bs|d']; cbn [dir_step];
    dir_cases dir d'; try by left.
  all: rewrite lookup_insert; case_decide; subst; eauto.
Qed.

Lemma devices_step dir op u :
  devices_of (dir_step dir op) u =
  match op with
  | OpRegister d _ _ =>
      if bool_decide (user d = u) && negb (contains_device dir d)
      then index_device (devices_of dir u) (device d) else devices_of dir u
  | _ => devices_of dir u
  end.
Proof.
  destruct op as [d' i b|d' i b|d' k|d' g|d' i bs|d']; cbn [dir_step];
    unfold devices_of; dir_cases dir d'; try done.
  all: rewrite ?lookup_insert; simplify_option_eq; try done; exfalso; eauto.
Qed.

Lemma users_step dir op u :
  is_Some (devices (dir_step dir op) !! u) ->
  is_Some (devices dir !! u) \/ exists d i b, op = OpRegister d i b /\ user d = u.
Proof.
  destruct op as [d' i b|d' i b|d' k|d' g|d' i bs|d']; cbn [dir_step]; dir_cases dir d'; try by left.
  rewrite lookup_insert. case_decide; [|by left]. intros _. right. eauto.
Qed.

Lemma dir_inv_step dir op : dir_inv dir -> dir_inv (dir_step dir op).
Proof.
  intros [H1 H0 H2 H3 H4]. split.
  - intros d. rewrite step_entries_some, devices_step, <- H1. unfold contains_device.
    destruct op as [d' i b| | | | |]; try (split; [by left|by intros [?|(? & ? & [=])]]).
    case_bool_decide as Hu; cbn [andb];
      [|split; [by left|intros [?|(? & ? & [= -> -> ->])]; done]].
    case_bool_decide as He; cbn [negb].
    + split; [by left|]. intros [?|(i' & b' & [= -> -> ->])]; [done|]. by apply H1.
    + rewrite (proj2 (index_device_spec _ (device d') (H2 (user d)))). split.
      * intros [?|Hd]; [by left|]. right. exists i, b. by destruct d, d'; cbn in *; subst.
      * intros [?|(i' & b' & [= <- <- <-])]; [by left|by right].
  - intros u [(d & <- & Hd)%H0|(d & i & b & -> & <-)]%users_step; exists d; (split; [done|]);
      apply step_entries_some; eauto.
  - intros u. rewrite devices_step. destruct op; try done. case_match; [|done].
    by apply index_device_spec.
  - intros d [?|?]%step_recovery; apply step_entries_some; eauto.
  - intros d. rewrite step_generations, step_entries_some.
    destruct op, (entries dir !! d) eqn:E; try (left; done); try (rewrite <- E; eauto); eauto.
Qed.

(** The invariant determines the index from the entries. *)
Lemma sorted_ext l1 l2 :
  StronglySorted (fun a b => (a ?= b) = Lt) l1 -> StronglySorted (fun a b => (a ?= b) = Lt) l2 ->
  (forall x, x ∈ l1 <-> x ∈ l2) -> l1 = l2.
Proof.
  intros H1 H2 H. apply (StronglySorted_unique_strong (fun a b => (a ?= b) = Lt)); [|done|done|].
  - intros x y _ _. rewrite !Z.compare_lt_iff. lia.
  - apply NoDup_Permutation; [by apply sorted_nodup|by apply sorted_nodup|done].
Qed.

Lemma devices_determined dir1 dir2 :
  dir_inv dir1 -> dir_inv dir2 -> entries dir1 = entries dir2 -> devices dir1 = devices dir2.
Proof.
  intros H1 H2 He.
  assert (forall u, devices_of dir1 u = devices_of dir2 u) as Hl.
  { intros u. apply sorted_ext; [by apply inv_sorted|by apply inv_sorted|]. intros x.
    pose proof (inv_index dir1 H1 (mkAddr u x)) as I1. pose proof (inv_index dir2 H2 (mkAddr u x)) as I2.
    cbn in *. by rewrite I1, I2, He. }
  apply (map_eq_default []); [|exact Hl]. apply set_eq. intros u. rewrite !elem_of_dom.
  split; intros Hu.
  - destruct (inv_users dir1 H1 u Hu) as (d & <- & Hd). rewrite He in Hd. apply (inv_index dir2 H2) in Hd.
    unfold devices_of in Hd. destruct (devices dir2 !! user d); [done|]. by apply elem_of_nil in Hd.
  - destruct (inv_users dir2 H2 u Hu) as (d & <- & Hd). rewrite <- He in Hd. apply (inv_index dir1 H1) in Hd.
    unfold devices_of in Hd. destruct (devices dir1 !! user d); [done|]. by apply elem_of_nil in Hd.
Qed.

Lemma dir_inv_run ops : dir_inv (dir_run directory_new ops).
Proof.
  assert (forall dir, dir_inv dir -> dir_inv (dir_run dir ops)) as H.
  { induction ops as [|op ops IH]; intros dir Hd; [done|]. cbn. apply IH, dir_inv_step, Hd. }
  apply H. split.
  - intros d. cbn. rewrite lookup_empty. split; [by intros ?%elem_of_nil|by intros [? ?]].
  - intros u. cbn. by rewrite lookup_empty.
  - intros u. constructor.
  - intros d. cbn. by rewrite lookup_empty.
  - intros d. cbn. by rewrite lookup_empty.
Qed.

(** ** Properties *)

(** Trust on first use, over any history: after any sequence of directory
    operations a device is bound to the key of its first registration, replaced
    only by the rotations that followed it.  A registration answers
    [Registered] for an unbound device, [Refreshed] for the bound key and
    [Rejected] for any other key, and a rejected one leaves the whole directory
    as it was: no registration ever reassigns an address. *)
Lemma directory_trust_on_first_use ops d i b :
  let dir := dir_run directory_new ops in
  dir_identity dir d = binding d ops /\
  (dir_register dir d i b).2 =
    match binding d ops with
    | None => Registered
    | Some k => if decide (k = i) then Refreshed else RegRejected
    end /\
  ((dir_register dir d i b).2 = RegRejected -> (dir_register dir d i b).1 = dir).
Proof.
  cbv zeta. set (dir := dir_run directory_new ops).
  assert (dir_identity dir d = binding d ops) as Hb by (unfold dir; by rewrite run_identity).
  split; [done|]. unfold dir_register. rewrite Hb. unfold register_core.
  destruct (binding d ops) as [k|]; cbn; [|done].
  case_bool_decide; case_decide; done.
Qed.

(** Rollback detection is exact: after any sequence of operations, a
    presented generation is judged [Fresh] exactly when it is at least every
    generation presented for that device in its current trust epoch, and
    [RolledBack] otherwise; refreshing a registration does not reset the
    anchor, a rotation does, and an unbound device is [Unregistered]. *)
Lemma directory_rollback_detected ops d g :
  (dir_witness (dir_run directory_new ops) d g).2 =
  match epoch d ops with
  | None => WitUnregistered
  | Some gs => if forallb (fun h => h <=? g) gs then Fresh else RolledBack
  end.
Proof.
  pose proof (anchored_run ops d) as H. unfold dir_witness, contains_device.
  destruct (epoch d ops) as [gs|]; cbn [anchored] in H; destruct H as [He Hg].
  - rewrite bool_decide_eq_true_2 by done. cbn [negb].
    destruct (generations _ !! d) as [m|]; cbn; [|by subst]. destruct Hg as [Hm Hle].
    rewrite Z.geb_leb. destruct (Z.leb_spec m g).
    + replace (forallb _ gs) with true; [done|]. symmetry. apply forallb_forall. intros h Hh.
      rewrite Forall_forall in Hle. apply Z.leb_le. etrans; [apply Hle|done]. by apply list_elem_of_In.
    + replace (forallb _ gs) with false; [done|]. symmetry. apply not_true_iff_false.
      rewrite forallb_forall. intros Hall. apply list_elem_of_In, Hall, Z.leb_le in Hm. lia.
  - rewrite He, bool_decide_eq_false_2; [done|]. by intros [? ?].
Qed.

(** The device index is exact: after any sequence of operations the list
    a user's lookup returns is strictly ascending and names a device exactly
    when that device has a binding, and recovery keys and rollback anchors
    exist for bound devices only. *)
Lemma directory_index_exact ops :
  let dir := dir_run directory_new ops in
  (forall d, device d ∈ devices_of dir (user d) <-> contains_device dir d = true) /\
  (forall u, StronglySorted (fun a b => (a ?= b) = Lt) (devices_of dir u)) /\
  (forall d, is_Some (recovery_key dir d) \/ is_Some (generations dir !! d) ->
     contains_device dir d = true).
Proof.
  cbv zeta. pose proof (dir_inv_run ops) as [H1 _ H2 H3 H4]. unfold contains_device.
  split_and!; [|done|].
  - intros d. by rewrite bool_decide_eq_true, H1.
  - intros d. rewrite bool_decide_eq_true. intros [H|H]; eauto.
Qed.

Lemma contains_bound ops d :
  contains_device (dir_run directory_new ops) d = true <-> is_Some (binding d ops).
Proof.
  rewrite <- new_identity_binding. unfold contains_device, dir_identity.
  by rewrite bool_decide_eq_true, fmap_is_Some.
Qed.

(** C38. The directory does what its history says, after any sequence of
    operations on it.  A device is bound to the key of its first registration,
    replaced only by the rotations that followed; a registration answers
    [Registered] for an unbound device, [Refreshed] for the bound key and
    [Rejected] for any other, and a rejected one leaves the whole directory as
    it was.  A deposit is taken exactly when the key presented is the one the
    device is then bound to, and answers the depth of the pool with the new
    bundles in it; any other key is [Rejected], an unbound device
    [Unregistered], and the directory is left as it was.  A lookup hands out the
    oldest of the one-time bundles left (those deposited under the bound key
    since the last publication and the last rotation, less those handed out),
    the last published bundle when none is left, and nothing for an unbound
    device; so every bundle handed out of a pool was deposited under the key
    then bound, in order and at most once.  A presented generation is [Fresh]
    exactly when it is at least every generation presented in the device's
    current trust epoch and [RolledBack] otherwise (a refresh does not reset the
    anchor, a rotation does).  The recovery key is the last one set while the
    device was bound.  A user's device list is strictly ascending and names
    exactly the bound devices. *)
Theorem directory_runs_exact ops d i bs b g :
  let dir := dir_run directory_new ops in
  dir_identity dir d = binding d ops /\
  (dir_register dir d i b).2 =
    match binding d ops with
    | None => Registered
    | Some k => if decide (k = i) then Refreshed else RegRejected
    end /\
  ((dir_register dir d i b).2 = RegRejected -> (dir_register dir d i b).1 = dir) /\
  (deposit_prekeys dir d i bs).2 =
    match binding d ops with
    | None => DepUnregistered
    | Some k => if decide (k = i) then Deposited (len (stock d ops ++ bs)) else DepRejected
    end /\
  (binding d ops <> Some i -> (deposit_prekeys dir d i bs).1 = dir) /\
  (take_bundle dir d).2 =
    match stock d ops with
    | one_time :: _ => Some one_time
    | [] => shown d ops
    end /\
  pool_of dir d = stock d ops /\ dir_bundle dir d = shown d ops /\
  sublist (served d ops ++ stock d ops) (accepted d ops) /\
  (dir_witness dir d g).2 =
    match epoch d ops with
    | None => WitUnregistered
    | Some gs => if forallb (fun h => h <=? g) gs then Fresh else RolledBack
    end /\
  recovery_key dir d = recovers d ops /\
  (device d ∈ devices_of dir (user d) <-> is_Some (binding d ops)) /\
  (forall u, StronglySorted (fun a b => (a ?= b) = Lt) (devices_of dir u)) /\
  (is_Some (recovery_key dir d) \/ is_Some (generations dir !! d) -> is_Some (binding d ops)).
Proof.
  cbv zeta. pose proof (directory_index_exact ops) as (H1 & H2 & H3).
  destruct (directory_trust_on_first_use ops d i b) as (T1 & T2 & T3).
  pose proof (pool_is_stock ops d) as Hp. pose proof (bundle_is_shown ops d) as Hs.
  rewrite <- !contains_bound. split_and!; try done; try apply directory_rollback_detected.
  - by rewrite deposit_exact, T1, Hp.
  - rewrite <- T1. apply deposit_refused.
  - by rewrite take_exact, Hp, Hs.
  - apply served_once.
  - apply recovery_is_recovers.
  - apply H3.
Qed.
