(* ===== verification/DirectoryProtocol.v ===== *)
(** * DirectoryProtocol: requests, responses and snapshots of the directory
    ([tacenta-directory/src/protocol.rs], [tacenta-directory/src/persist.rs])

    The fields are those of [Framing]: the directory's own [put_u32],
    [take_u32], [put_bytes], [take_bytes], [put_addr] and [take_addr] are the
    relay's line for line. *)

From S2P Require Import Prelude Framing Directory.

Inductive DirRequest :=
| DirRegister (d : DeviceAddr) (identity bundle signature : bytes)
| DirLookup (d : DeviceAddr)
| DirDepositPrekeys (d : DeviceAddr) (identity : bytes) (bundles : list bytes) (signature : bytes)
| DirRotate (d : DeviceAddr) (new_identity new_bundle possession_sig rotation_sig : bytes)
| DirSetRecovery (d : DeviceAddr) (recovery_ signature : bytes)
| DirRecover (d : DeviceAddr) (new_identity new_bundle possession_sig recovery_sig : bytes)
| DirWitness (d : DeviceAddr) (generation : Z) (signature : bytes).

Inductive DirResponse :=
| RRegistered | RRefreshed | RRejected | RPossessionFailed
| RFound (identity bundle : bytes)
| RDeposited (depth : Z)
| RDepositRejected | RNotFound | RRotated | RUnauthorized | RUnregistered
| RRecoverySet | RNoRecovery | RReservedHandle | RFresh | RRolledBack
| RRateLimited | RRegistrationClosed.

(** ** Outcomes as responses *)
Definition from_registration (o : Registration) : DirResponse :=
  match o with Registered => RRegistered | Refreshed => RRefreshed | RegRejected => RRejected end.

Definition from_rotation (o : Rotation) : DirResponse :=
  match o with Rotated => RRotated | RotUnregistered => RUnregistered end.

Definition from_deposit (o : Deposit) : DirResponse :=
  match o with
  | Deposited depth => RDeposited (default u32_max (u32_try_from depth))
  | DepRejected => RDepositRejected
  | DepUnregistered => RUnregistered
  end.

Definition from_recovery_set (o : RecoverySet) : DirResponse :=
  match o with RecSet => RRecoverySet | RecUnregistered => RUnregistered end.

Definition from_witness (o : Witness) : DirResponse :=
  match o with Fresh => RFresh | RolledBack => RRolledBack | WitUnregistered => RUnregistered end.

Definition dir_lookup (dir : Directory) (d : DeviceAddr) : Directory * option (bytes * bytes) :=
  match dir_identity dir d with
  | None => (dir, None)
  | Some identity =>
      let '(dir', bundle) := take_bundle dir d in
      (dir', b ← bundle; Some (identity, b))
  end.

(** ** Codecs *)
Definition encode_dir_request (request : DirRequest) : option bytes :=
  match request with
  | DirRegister d identity bundle signature =>
      a ← put_addr d; i ← put_bytes identity; b ← put_bytes bundle; s ← put_bytes signature;
      Some ([x01] ++ a ++ i ++ b ++ s)
  | DirLookup d => a ← put_addr d; Some ([x02] ++ a)
  | DirRotate d new_identity new_bundle possession_sig rotation_sig =>
      a ← put_addr d; i ← put_bytes new_identity; b ← put_bytes new_bundle;
      p ← put_bytes possession_sig; r ← put_bytes rotation_sig;
      Some ([x03] ++ a ++ i ++ b ++ p ++ r)
  | DirSetRecovery d recovery_ signature =>
      a ← put_addr d; r ← put_bytes recovery_; s ← put_bytes signature;
      Some ([x04] ++ a ++ r ++ s)
  | DirRecover d new_identity new_bundle possession_sig recovery_sig =>
      a ← put_addr d; i ← put_bytes new_identity; b ← put_bytes new_bundle;
      p ← put_bytes possession_sig; r ← put_bytes recovery_sig;
      Some ([x05] ++ a ++ i ++ b ++ p ++ r)
  | DirDepositPrekeys d identity bundles signature =>
      a ← put_addr d; i ← put_bytes identity; bs ← put_counted put_bytes bundles;
      s ← put_bytes signature;
      Some ([x06] ++ a ++ i ++ bs ++ s)
  | DirWitness d generation signature =>
      a ← put_addr d; s ← put_bytes signature;
      Some ([x07] ++ a ++ be64 generation ++ s)
  end.

Definition decode_dir_request (bs : bytes) : option DirRequest :=
  match bs with
  | [] => None
  | tag :: rest =>
      match tag with
      | x01 =>
          '(d, rest) ← take_addr rest;
          '(identity, rest) ← take_bytes rest;
          '(bundle, rest) ← take_bytes rest;
          '(signature, rest) ← take_bytes rest;
          then_some rest (DirRegister d identity bundle signature)
      | x02 => '(d, rest) ← take_addr rest; then_some rest (DirLookup d)
      | x03 =>
          '(d, rest) ← take_addr rest;
          '(new_identity, rest) ← take_bytes rest;
          '(new_bundle, rest) ← take_bytes rest;
          '(possession_sig, rest) ← take_bytes rest;
          '(rotation_sig, rest) ← take_bytes rest;
          then_some rest (DirRotate d new_identity new_bundle possession_sig rotation_sig)
      | x04 =>
          '(d, rest) ← take_addr rest;
          '(recovery_, rest) ← take_bytes rest;
          '(signature, rest) ← take_bytes rest;
          then_some rest (DirSetRecovery d recovery_ signature)
      | x05 =>
          '(d, rest) ← take_addr rest;
          '(new_identity, rest) ← take_bytes rest;
          '(new_bundle, rest) ← take_bytes rest;
          '(possession_sig, rest) ← take_bytes rest;
          '(recovery_sig, rest) ← take_bytes rest;
          then_some rest (DirRecover d new_identity new_bundle possession_sig recovery_sig)
      | x06 =>
          '(d, rest) ← take_addr rest;
          '(identity, rest) ← take_bytes rest;
          '(bundles, rest) ← take_counted take_bytes rest;
          '(signature, rest) ← take_bytes rest;
          then_some rest (DirDepositPrekeys d identity bundles signature)
      | x07 =>
          '(d, rest) ← take_addr rest;
          '(generation, rest) ← take_u64 rest;
          '(signature, rest) ← take_bytes rest;
          then_some rest (DirWitness d generation signature)
      | _ => None
      end
  end.

Definition encode_dir_response (response : DirResponse) : option bytes :=
  match response with
  | RRegistered => Some [x01]
  | RRefreshed => Some [x02]
  | RRejected => Some [x03]
  | RPossessionFailed => Some [x04]
  | RFound identity bundle =>
      i ← put_bytes identity; b ← put_bytes bundle; Some ([x05] ++ i ++ b)
  | RNotFound => Some [x06]
  | RRotated => Some [x07]
  | RUnauthorized => Some [x08]
  | RUnregistered => Some [x09]
  | RRecoverySet => Some [x0a]
  | RNoRecovery => Some [x0b]
  | RDeposited depth => Some ([x0c] ++ put_u32 depth)
  | RDepositRejected => Some [x0d]
  | RReservedHandle => Some [x0e]
  | RFresh => Some [x0f]
  | RRolledBack => Some [x10]
  | RRateLimited => Some [x11]
  | RRegistrationClosed => Some [x12]
  end.

Definition decode_dir_response (bs : bytes) : option DirResponse :=
  match bs with
  | [] => None
  | tag :: rest =>
      match tag with
      | x01 => then_some rest RRegistered
      | x02 => then_some rest RRefreshed
      | x03 => then_some rest RRejected
      | x04 => then_some rest RPossessionFailed
      | x05 =>
          '(identity, rest) ← take_bytes rest;
          '(bundle, rest) ← take_bytes rest;
          then_some rest (RFound identity bundle)
      | x06 => then_some rest RNotFound
      | x07 => then_some rest RRotated
      | x08 => then_some rest RUnauthorized
      | x09 => then_some rest RUnregistered
      | x0a => then_some rest RRecoverySet
      | x0b => then_some rest RNoRecovery
      | x0c => '(depth, rest) ← take_u32 rest; then_some rest (RDeposited depth)
      | x0d => then_some rest RDepositRejected
      | x0e => then_some rest RReservedHandle
      | x0f => then_some rest RFresh
      | x10 => then_some rest RRolledBack
      | x11 => then_some rest RRateLimited
      | x12 => then_some rest RRegistrationClosed
      | _ => None
      end
  end.

(** ** Snapshots *)
Definition DIR_SNAPSHOT_VERSION : byte := x03.
Definition DIR_SNAPSHOT_VERSION_V2 : byte := x02.

Definition put_entry (p : DeviceAddr * Entry) : option bytes :=
  a ← put_addr p.1;
  i ← put_bytes (entry_identity p.2);
  b ← put_bytes (entry_bundle p.2);
  pool ← put_counted put_bytes (entry_pool p.2);
  Some (a ++ i ++ b ++ pool).

Definition put_recovery (p : DeviceAddr * bytes) : option bytes :=
  a ← put_addr p.1; k ← put_bytes p.2; Some (a ++ k).

Definition put_generation (p : DeviceAddr * Z) : option bytes :=
  a ← put_addr p.1; Some (a ++ be64 p.2).

Definition dir_snapshot (dir : Directory) : option bytes :=
  e ← put_section put_entry (entries dir);
  r ← put_section put_recovery (recovery dir);
  g ← put_section put_generation (generations dir);
  Some ([DIR_SNAPSHOT_VERSION] ++ e ++ r ++ g).

(** [for _ in 0..count] over the directory and the bytes still to read. *)
Fixpoint dir_loop (body : Directory * bytes -> option (Directory * bytes)) (count : nat)
    (st : Directory * bytes) : option (Directory * bytes) :=
  match count with
  | O => Some st
  | S count => st' ← body st; dir_loop body count st'
  end.

Definition restore_entry (st : Directory * bytes) : option (Directory * bytes) :=
  let '(dir, rest) := st in
  '(d, r) ← take_addr rest;
  '(identity, r) ← take_bytes r;
  '(bundle, r) ← take_bytes r;
  '(pool_len, r) ← take_u32 r;
  let dir := (dir_register dir d identity bundle).1 in
  '(pool, r) ← take_many take_bytes (Z.to_nat pool_len) r;
  let dir := match pool with [] => dir | _ => (deposit_prekeys dir d identity pool).1 end in
  Some (dir, r).

Definition restore_recovery (st : Directory * bytes) : option (Directory * bytes) :=
  let '(dir, rest) := st in
  '(d, r) ← take_addr rest;
  '(key, r) ← take_bytes r;
  Some ((set_recovery dir d key).1, r).

Definition restore_gen (st : Directory * bytes) : option (Directory * bytes) :=
  let '(dir, rest) := st in
  '(d, r) ← take_addr rest;
  '(generation, r) ← take_u64 r;
  Some (restore_generation dir d generation, r).

Definition dir_restore (bs : bytes) : option Directory :=
  match bs with
  | [] => None
  | version :: rest =>
      if negb (bool_decide (version = DIR_SNAPSHOT_VERSION))
         && negb (bool_decide (version = DIR_SNAPSHOT_VERSION_V2)) then None
      else
        let has_generations := bool_decide (version = DIR_SNAPSHOT_VERSION) in
        '(count, rest) ← take_u32 rest;
        '(dir, rest) ← dir_loop restore_entry (Z.to_nat count) (directory_new, rest);
        '(rec_count, rest) ← take_u32 rest;
        '(dir, rest) ← dir_loop restore_recovery (Z.to_nat rec_count) (dir, rest);
        '(dir, rest) ←
          (if has_generations then
             '(gen_count, r) ← take_u32 rest;
             dir_loop restore_gen (Z.to_nat gen_count) (dir, r)
           else Some (dir, rest));
        then_some rest dir
  end.

(** ** Ranges of the Rust types *)
Definition dir_request_wf (req : DirRequest) : Prop :=
  match req with
  | DirRegister d _ _ _ | DirLookup d | DirDepositPrekeys d _ _ _ | DirRotate d _ _ _ _
  | DirSetRecovery d _ _ | DirRecover d _ _ _ _ => addr_wf d
  | DirWitness d generation _ => addr_wf d /\ u64_wf generation
  end.

Definition dir_response_wf (resp : DirResponse) : Prop :=
  match resp with RDeposited depth => u32_wf depth | _ => True end.

(** ** Properties of the codecs *)

Ltac close_dir_codec :=
  inv_bind; end_inv; frames_inv; split; [by split_and? || done|];
  cbn [encode_dir_request encode_dir_response]; put_fwd; rewrite ?app_nil_r; done.

Lemma forall_true {A} (l : list A) : Forall (fun _ => True) l.
Proof. by apply Forall_true. Qed.
#[local] Hint Resolve forall_true : core.

Lemma directory_request_exact bs req :
  decode_dir_request bs = Some req <-> dir_request_wf req /\ encode_dir_request req = Some bs.
Proof.
  split.
  - destruct bs as [|tag rest]; [done|]. cbn [decode_dir_request]. intros H.
    tag_cases H tag; close_dir_codec.
  - intros [Hwf H]. destruct req; cbn [encode_dir_request dir_request_wf] in *; destruct_and?; inv_bind;
      cbn [decode_dir_request app]; rewrite <- (app_nil_r (_ : bytes)); frames_fwd; done.
Qed.

Lemma directory_response_exact bs resp :
  decode_dir_response bs = Some resp <-> dir_response_wf resp /\ encode_dir_response resp = Some bs.
Proof.
  split.
  - destruct bs as [|tag rest]; [done|]. cbn [decode_dir_response]. intros H.
    tag_cases H tag; close_dir_codec.
  - intros [Hwf H]. destruct resp; cbn [encode_dir_response dir_response_wf] in *; inv_bind;
      cbn [decode_dir_response app]; try done; rewrite <- (app_nil_r (_ : bytes)); by frames_fwd.
Qed.

(** The directory's message codecs are exact: a byte string decodes to one
    of the seven requests exactly when it is that request's encoding, and to one
    of the eighteen responses exactly when it is that response's. *)
Lemma directory_messages_exact bs req resp :
  (decode_dir_request bs = Some req <-> dir_request_wf req /\ encode_dir_request req = Some bs) /\
  (decode_dir_response bs = Some resp <-> dir_response_wf resp /\ encode_dir_response resp = Some bs).
Proof. split; [apply directory_request_exact|apply directory_response_exact]. Qed.

(** ** Snapshots restore *)

(** The records of the three sections, read without touching a directory. *)
Definition take_entry (bs : bytes) : option ((DeviceAddr * Entry) * bytes) :=
  '(d, r) ← take_addr bs;
  '(identity, r) ← take_bytes r;
  '(bundle, r) ← take_bytes r;
  '(pool, r) ← take_counted take_bytes r;
  Some ((d, mkEntry identity bundle pool), r).

Definition take_recovery (bs : bytes) : option ((DeviceAddr * bytes) * bytes) :=
  '(d, r) ← take_addr bs; '(key, r) ← take_bytes r; Some ((d, key), r).

Definition take_generation (bs : bytes) : option ((DeviceAddr * Z) * bytes) :=
  '(d, r) ← take_addr bs; '(generation, r) ← take_u64 r; Some ((d, generation), r).

#[global] Instance frames_entry : Frames (fun p => addr_wf p.1) put_entry take_entry.
Proof.
  split.
  - intros [d [i b pool]] bs rest Hd H. unfold put_entry in H. cbn [fst snd] in *. inv_bind.
    unfold take_entry. cbn in *. by frames_fwd.
  - intros input p rest H. unfold take_entry in H. inv_bind. frames_inv. split; [done|].
    unfold put_entry. cbn [fst snd entry_identity entry_bundle entry_pool]. put_fwd.
    eexists; split; [done|]. by rewrite <- !app_assoc.
Qed.

#[global] Instance frames_recovery : Frames (fun p => addr_wf p.1) put_recovery take_recovery.
Proof.
  split.
  - intros [d k] bs rest Hd H. unfold put_recovery in H. cbn [fst snd] in *. inv_bind.
    unfold take_recovery. by frames_fwd.
  - intros input p rest H. unfold take_recovery in H. inv_bind. frames_inv. split; [done|].
    unfold put_recovery. cbn [fst snd]. put_fwd. eexists; split; [done|]. by rewrite <- !app_assoc.
Qed.

#[global] Instance frames_generation :
  Frames (fun p => addr_wf p.1 /\ u64_wf p.2) put_generation take_generation.
Proof.
  split.
  - intros [d g] bs rest [Hd Hg] H. unfold put_generation in H. cbn [fst snd] in *. inv_bind.
    unfold take_generation. by frames_fwd.
  - intros input p rest H. unfold take_generation in H. inv_bind. frames_inv. split; [done|].
    unfold put_generation. cbn [fst snd]. put_fwd. eexists; split; [done|]. by rewrite <- !app_assoc.
Qed.

(** What a record does to the directory. *)
Definition apply_entry (dir : Directory) (p : DeviceAddr * Entry) : Directory :=
  let dir' := (dir_register dir p.1 (entry_identity p.2) (entry_bundle p.2)).1 in
  match entry_pool p.2 with
  | [] => dir'
  | pool => (deposit_prekeys dir' p.1 (entry_identity p.2) pool).1
  end.

Lemma dir_loop_fold {A} (body : Directory * bytes -> option (Directory * bytes))
    (take_item : bytes -> option (A * bytes)) (apply : Directory -> A -> Directory) :
  (forall dir rest, body (dir, rest) = '(x, r) ← take_item rest; Some (apply dir x, r)) ->
  forall n dir rest, dir_loop body n (dir, rest) =
    '(xs, r) ← take_many take_item n rest; Some (fold_left apply xs dir, r).
Proof.
  intros Hb. induction n as [|n IH]; intros dir rest; cbn [dir_loop take_many]; [done|].
  rewrite Hb. destruct (take_item rest) as [[x r]|]; [|done]. cbn [mbind option_bind]. rewrite IH.
  by destruct (take_many take_item n r) as [[xs r']|].
Qed.

Lemma restore_entry_apply dir rest :
  restore_entry (dir, rest) = '(p, r) ← take_entry rest; Some (apply_entry dir p, r).
Proof.
  unfold restore_entry, take_entry, take_counted.
  destruct (take_addr rest) as [[d r]|]; [|done]. cbn [mbind option_bind].
  destruct (take_bytes r) as [[i r1]|]; [|done]. cbn [mbind option_bind].
  destruct (take_bytes r1) as [[b r2]|]; [|done]. cbn [mbind option_bind].
  destruct (take_u32 r2) as [[n r3]|]; [|done]. cbn [mbind option_bind].
  destruct (take_many take_bytes (Z.to_nat n) r3) as [[pool r4]|]; [|done]. cbn. by destruct pool.
Qed.

Lemma apply_entry_new dir d e :
  entries dir !! d = None ->
  entries (apply_entry dir (d, e)) = <[d := e]> (entries dir) /\
  recovery (apply_entry dir (d, e)) = recovery dir /\
  generations (apply_entry dir (d, e)) = generations dir /\
  (dir_inv dir -> dir_inv (apply_entry dir (d, e))).
Proof.
  intros Hd. destruct e as [i b pool].
  assert (exists ops, apply_entry dir (d, mkEntry i b pool) = dir_run dir ops) as [ops Hops].
  { unfold apply_entry. cbn. destruct pool as [|p0 pool].
    - by exists [OpRegister d i b].
    - by exists [OpRegister d i b; OpDeposit d i (p0 :: pool)]. }
  assert (dir_inv dir -> dir_inv (apply_entry dir (d, mkEntry i b pool))) as Hinv.
  { rewrite Hops. clear. revert dir. induction ops as [|op ops IH]; intros dir H; [done|].
    cbn. apply IH, dir_inv_step, H. }
  split_and!; [| | |done]; clear Hops Hinv; unfold apply_entry, dir_register, dir_identity; cbn;
    rewrite Hd; cbn; destruct pool; try done; unfold deposit_prekeys; cbn;
    rewrite lookup_insert_eq; cbn; rewrite bool_decide_eq_true_2 by done; cbn; try done.
  by rewrite insert_insert_eq.
Qed.

Lemma apply_entries ps : forall dir,
  NoDup ps.*1 -> (forall p, p ∈ ps -> entries dir !! p.1 = None) -> dir_inv dir ->
  let dir' := fold_left apply_entry ps dir in
  entries dir' = fold_left (fun m p => <[p.1 := p.2]> m) ps (entries dir) /\
  recovery dir' = recovery dir /\ generations dir' = generations dir /\ dir_inv dir'.
Proof.
  induction ps as [|[d e] ps IH]; intros dir Hnd Hnew Hi; cbn [fold_left]; [done|].
  rewrite fmap_cons in Hnd. apply NoDup_cons in Hnd as [Hd Hnd].
  destruct (apply_entry_new dir d e) as (He & Hr & Hg & Hi'); [by apply (Hnew (d, e)); left|].
  destruct (IH (apply_entry dir (d, e))) as (-> & -> & -> & ?); [done| |by apply Hi'|by rewrite He, Hr, Hg].
  intros p Hp. rewrite He, lookup_insert_ne; [apply Hnew; by right|].
  intros ->. apply Hd, list_elem_of_fmap. by exists p.
Qed.

Lemma apply_recoveries ps : forall dir,
  (forall p, p ∈ ps -> is_Some (entries dir !! p.1)) ->
  fold_left (fun dir p => (set_recovery dir p.1 p.2).1) ps dir =
  mkDir (entries dir) (devices dir) (fold_left (fun m p => <[p.1 := p.2]> m) ps (recovery dir))
    (generations dir).
Proof.
  induction ps as [|[d k] ps IH]; intros dir Hps; cbn [fold_left]; [by destruct dir|].
  unfold set_recovery at 2, contains_device. cbn [fst snd].
  rewrite bool_decide_eq_true_2 by (apply (Hps (d, k)); left). cbn [negb fst].
  rewrite IH; [done|]. intros p Hp. cbn. apply Hps. by right.
Qed.

Lemma apply_generations ps : forall dir,
  fold_left (fun dir p => restore_generation dir p.1 p.2) ps dir =
  mkDir (entries dir) (devices dir) (recovery dir)
    (fold_left (fun m p => <[p.1 := p.2]> m) ps (generations dir)).
Proof. induction ps as [|[d g] ps IH]; intros dir; cbn [fold_left]; [by destruct dir|]. by rewrite IH. Qed.

(** What must fit a [u32] prefix for no [expect] to fire. *)
Definition fits32 {A} (l : list A) : Prop := len l <= u32_max.
Definition dir_fits (dir : Directory) : Prop :=
  Z.of_nat (size (entries dir)) <= u32_max /\
  (forall d e, entries dir !! d = Some e -> addr_ok d /\ fits32 (entry_identity e) /\
     fits32 (entry_bundle e) /\ fits32 (entry_pool e) /\ Forall fits32 (entry_pool e)) /\
  (forall d k, recovery dir !! d = Some k -> fits32 k) /\
  (forall d g, generations dir !! d = Some g -> u64_wf g).

Lemma put_counted_total {A} (put_item : A -> option bytes) l :
  fits32 l -> Forall (fun x => is_Some (put_item x)) l -> is_Some (put_counted put_item l).
Proof.
  intros Hl Hp. unfold put_counted, put_many. rewrite u32_try_from_wf by done. cbn.
  apply mapM_is_Some in Hp as [k ->]. cbn. eauto.
Qed.

Lemma put_bytes_is_Some bs : fits32 bs -> is_Some (put_bytes bs).
Proof. intros H. destruct (put_bytes_total bs H) as (? & -> & _). eauto. Qed.

Lemma put_addr_is_Some d : addr_ok d -> is_Some (put_addr d).
Proof. intros [_ H]. destruct (put_addr_total d H) as (? & -> & _). eauto. Qed.

Lemma size_le_dom {A B} (m1 : gmap DeviceAddr A) (m2 : gmap DeviceAddr B) :
  (forall d, is_Some (m1 !! d) -> is_Some (m2 !! d)) -> (size m1 <= size m2)%nat.
Proof.
  intros H. rewrite <- !size_dom. apply subseteq_size. intros d. rewrite !elem_of_dom. apply H.
Qed.

Lemma bind_is_Some {A B} (m : option A) (f : A -> option B) :
  is_Some m -> (forall a, m = Some a -> is_Some (f a)) -> is_Some (m ≫= f).
Proof. intros [a ->] H. cbn. by apply H. Qed.

Lemma put_pool_is_Some pool : fits32 pool -> Forall fits32 pool -> is_Some (put_counted put_bytes pool).
Proof.
  intros Hl Hp. apply put_counted_total; [done|]. eapply Forall_impl; [exact Hp|]. apply put_bytes_is_Some.
Qed.

Ltac fits_put :=
  repeat (apply bind_is_Some;
    [solve [eauto using put_addr_is_Some, put_bytes_is_Some, put_pool_is_Some]|intros ? _]); eauto.

Lemma inv_snapshot_restore dir : dir_inv dir -> dir_fits dir ->
  exists bs, dir_snapshot dir = Some bs /\ dir_restore bs = Some dir.
Proof.
  intros Hi (Hsz & He & Hr & Hg).
  assert (Z.of_nat (size (recovery dir)) <= u32_max /\ Z.of_nat (size (generations dir)) <= u32_max)
    as [Hsr Hsg].
  { pose proof (size_le_dom _ _ (inv_recovery dir Hi)). pose proof (size_le_dom _ _ (inv_generations dir Hi)).
    lia. }
  assert (forall d, is_Some (entries dir !! d) -> addr_ok d) as Ha by (intros d [e Hd]; by apply He in Hd as [? _]).
  destruct (put_section_take (put_item := put_entry) (entries dir) Hsz) as (be & Hbe & Hte).
  { intros d e Hd. apply He in Hd as (Hd & Hid & Hbd & Hpl & Hpb). split; [apply Hd|].
    unfold put_entry. fits_put. }
  destruct (put_section_take (put_item := put_recovery) (recovery dir) Hsr) as (br & Hbr & Htr).
  { intros d k Hd. assert (addr_ok d) by (apply Ha, (inv_recovery dir Hi); eauto). split; [by destruct H|].
    unfold put_recovery. fits_put. }
  destruct (put_section_take (put_item := put_generation) (generations dir) Hsg) as (bg & Hbg & Htg).
  { intros d g Hd. assert (addr_ok d) by (apply Ha, (inv_generations dir Hi); eauto). split; [split; [by destruct H|eauto]|].
    unfold put_generation. fits_put. }
  unfold dir_snapshot. rewrite Hbe, Hbr, Hbg. eexists; split; [done|]. cbn [dir_restore app].
  specialize (Hte (br ++ bg)). specialize (Htr bg). specialize (Htg []). rewrite app_nil_r in Htg.
  unfold take_counted in Hte, Htr, Htg. rewrite bool_decide_eq_true_2 by done. cbn [negb andb].
  destruct (take_u32 (be ++ br ++ bg)) as [[n1 r1]|]; [|done]. cbn [mbind option_bind] in Hte |- *.
  rewrite (dir_loop_fold _ _ _ restore_entry_apply), Hte. cbn [mbind option_bind].
  destruct (take_u32 (br ++ bg)) as [[n2 r2]|]; [|done]. cbn [mbind option_bind] in Htr |- *.
  rewrite (dir_loop_fold restore_recovery take_recovery (fun dir p => (set_recovery dir p.1 p.2).1)), Htr.
  2: { intros dir' rest. unfold restore_recovery, take_recovery.
       destruct (take_addr rest) as [[? r]|]; [|done]. cbn. by destruct (take_bytes r) as [[? ?]|]. }
  cbn [mbind option_bind].
  destruct (take_u32 bg) as [[n3 r3]|]; [|done]. cbn [mbind option_bind] in Htg |- *.
  rewrite (dir_loop_fold restore_gen take_generation (fun dir p => restore_generation dir p.1 p.2)), Htg.
  2: { intros dir' rest. unfold restore_gen, take_generation.
       destruct (take_addr rest) as [[? r]|]; [|done]. cbn. by destruct (take_u64 r) as [[? ?]|]. }
  cbn [mbind option_bind then_some]. f_equal.
  destruct (apply_entries (sorted_items (entries dir)) directory_new) as (E1 & E2 & E3 & E4);
    [apply sorted_items_nodup|by intros ? _; apply lookup_empty|apply (dir_inv_run [])|].
  cbn [entries recovery generations directory_new] in E1, E2, E3. rewrite fold_sorted_items in E1.
  rewrite apply_generations, apply_recoveries. 2: {
    intros [d k] Hp%sorted_items_elem. rewrite E1. apply (inv_recovery dir Hi). cbn in Hp. eauto. }
  cbn. rewrite E1, E2, E3, !fold_sorted_items, (devices_determined _ dir E4 Hi E1). by destruct dir.
Qed.

(** A directory snapshot restores exactly: for any directory reached by a
    run of operations whose sizes fit the format's prefixes, the snapshot hits
    no [expect], and restoring it replays to the very same directory: the same
    bindings, undispensed one-time bundles, device index, recovery keys and
    rollback anchors. *)
Lemma directory_snapshot_restore ops :
  let dir := dir_run directory_new ops in
  dir_fits dir ->
  exists bs, dir_snapshot dir = Some bs /\ dir_restore bs = Some dir.
Proof. intros dir Hf. by apply inv_snapshot_restore; [apply dir_inv_run|]. Qed.

