(* ===== verification/RateLimit.v ===== *)
(** * RateLimit: the sliding-window throttles
    ([tacenta-directory/src/registration_limit.rs],
    [tacenta-gateway/src/ratelimit.rs], [tacenta-accounts/src/ratelimit.rs])

    Three limiters over the same window and the same map-growth defence.  Each
    forgets what it can: timestamps that fell out of the window, keys with no
    timestamp left, and, past a cap, the keys seen longest ago.  The reference
    forgets nothing; below the cap the two give the same verdicts. *)

From S2P Require Import Prelude.

(** ** The window *)

(** [t.saturating_add(window) >= now]. *)
Definition within (window now t : Z) : bool := saturating_add64 t window >=? now.

(** [Vec::retain] on one key's timestamps. *)
Definition retain_within (window now : Z) (ts : list Z) : list Z :=
  filter (fun t => within window now t = true) ts.

(** [iter().copied().max().unwrap_or(0)]: the timestamps are unsigned. *)
Definition max_or_zero (ts : list Z) : Z := foldr Z.max 0 ts.

(** The order of [(u64, String)]. *)
Definition newest_cmp (a b : Z * bytes) : comparison :=
  then_cmp (a.1 ?= b.1) (bytes_cmp a.2 b.2).

Definition MAX_KEYS : Z := 64 * 1024.

(** [shed], the same body in the three crates. *)
Definition shed_seen (seen : gmap bytes (list Z)) (window now : Z) : gmap bytes (list Z) :=
  let seen := filter (fun kv => existsb (within window now) kv.2 = true) seen in
  if Z.of_nat (size seen) <=? MAX_KEYS then seen else
  let newest := sort_by newest_cmp ((fun kv => (max_or_zero kv.2, kv.1)) <$> map_to_list seen) in
  let excess := (size seen - Z.to_nat MAX_KEYS)%nat in
  foldr (fun p m => delete p.2 m) seen (take excess newest).

(** ** Attempts that are admitted or refused *)
Record Limiter := mkLimiter { seen : gmap bytes (list Z); max_seen : Z; window : Z }.

(** [over_limit_at] and [check_and_record_at]: [true] is a refusal.  The entry
    of the key is created and pruned before the test. *)
Definition limiter_check (l : Limiter) (key : bytes) (now : Z) : Limiter * bool :=
  let entry := retain_within (window l) now (default [] (seen l !! key)) in
  if len entry >=? max_seen l then
    (mkLimiter (<[key := entry]> (seen l)) (max_seen l) (window l), true)
  else
    let seen' := <[key := entry ++ [now]]> (seen l) in
    (mkLimiter (shed_seen seen' (window l) now) (max_seen l) (window l), false).

(** *** New registrations per source ([RegistrationLimiter]) *)
Definition DEFAULT_MAX_PER_WINDOW : Z := 20.
Definition WINDOW_SECS : Z := 60 * 60.
Definition reg_with_max (m : Z) : Limiter := mkLimiter ∅ (Z.max m 1) WINDOW_SECS.
Definition reg_default : Limiter := reg_with_max DEFAULT_MAX_PER_WINDOW.
Definition over_limit_at (l : Limiter) (source : bytes) (now : Z) : Limiter * bool :=
  limiter_check l source now.
Definition reg_shed := shed_seen.

(** *** Signups per address ([IpRateLimiter]) *)
Definition MAX_PER_WINDOW : Z := 5.
Definition ip_default : Limiter := mkLimiter ∅ MAX_PER_WINDOW WINDOW_SECS.
Definition ip_with_limit (m : Z) : Limiter := mkLimiter (seen ip_default) m (window ip_default).
Definition check_and_record_at (l : Limiter) (ip : bytes) (now : Z) : Limiter * bool :=
  limiter_check l ip now.

(** ** Failed sign-ins per account ([RateLimiter]) *)
Definition MAX_FAILURES : Z := 5.
Definition AUTH_WINDOW_SECS : Z := 60.
Definition TENANT_FLOOD_CEILING : Z := 200.

Record AuthLimiter := mkAuth { failures : gmap bytes (list Z); max_failures : Z; window_secs : Z }.

Definition auth_default : AuthLimiter := mkAuth ∅ MAX_FAILURES AUTH_WINDOW_SECS.

Definition within_window (l : AuthLimiter) (t now : Z) : bool := within (window_secs l) now t.

Definition recent_failures (l : AuthLimiter) (key : bytes) (now : Z) : Z :=
  match failures l !! key with
  | Some ts => len (filter (fun t => within_window l t now = true) ts)
  | None => 0
  end.

Definition is_blocked (l : AuthLimiter) (key : bytes) (now : Z) : bool :=
  recent_failures l key now >=? max_failures l.

Definition auth_shed (l : AuthLimiter) (now : Z) : AuthLimiter :=
  mkAuth (shed_seen (failures l) (window_secs l) now) (max_failures l) (window_secs l).

Definition record_failure (l : AuthLimiter) (key : bytes) (now : Z) : AuthLimiter :=
  let entry := retain_within (window_secs l) now (default [] (failures l !! key)) in
  auth_shed (mkAuth (<[key := entry ++ [now]]> (failures l)) (max_failures l) (window_secs l)) now.

Definition tenant_is_flooded (l : AuthLimiter) (tenant_prefix : bytes) (now : Z) : bool :=
  let count := msum (fun k ts =>
    if starts_with tenant_prefix k then len (filter (fun t => within_window l t now = true) ts) else 0)
    (failures l) in
  count >=? TENANT_FLOOD_CEILING.

Definition record_success (l : AuthLimiter) (key : bytes) : AuthLimiter :=
  mkAuth (delete key (failures l)) (max_failures l) (window_secs l).

(** ** References that forget nothing

    A history is the list of recorded events, latest first. *)
Definition recent_of (w : Z) (h : list (bytes * Z)) (key : bytes) (now : Z) : Z :=
  len (filter (fun p => p.1 = key /\ within w now p.2 = true) h).

(** The verdicts of a run of attempts: an attempt is refused when the window
    that ends at it already holds [m] admitted attempts of its key. *)
Fixpoint reference_verdicts (m w : Z) (h : list (bytes * Z)) (attempts : list (bytes * Z)) : list bool :=
  match attempts with
  | [] => []
  | (key, now) :: attempts =>
      if recent_of w h key now >=? m then true :: reference_verdicts m w h attempts
      else false :: reference_verdicts m w ((key, now) :: h) attempts
  end.

Fixpoint limiter_run (l : Limiter) (attempts : list (bytes * Z)) : Limiter * list bool :=
  match attempts with
  | [] => (l, [])
  | (key, now) :: attempts =>
      let '(l, refused) := limiter_check l key now in
      let '(l, verdicts) := limiter_run l attempts in
      (l, refused :: verdicts)
  end.

(** The clock does not go backwards over a run that starts at [last]. *)
Fixpoint clock_from (last : Z) (times : list Z) : Prop :=
  match times with
  | [] => True
  | t :: times => last <= t /\ clock_from t times
  end.

Fixpoint clock_end (last : Z) (times : list Z) : Z :=
  match times with [] => last | t :: times => clock_end t times end.

(** Failures and successes of the sign-in path. *)
Inductive AuthEvent := Failed (key : bytes) (now : Z) | Succeeded (key : bytes) (now : Z).

Definition auth_step (l : AuthLimiter) (e : AuthEvent) : AuthLimiter :=
  match e with
  | Failed key now => record_failure l key now
  | Succeeded key _ => record_success l key
  end.

Definition event_key (e : AuthEvent) : bytes := match e with Failed k _ | Succeeded k _ => k end.
Definition event_time (e : AuthEvent) : Z := match e with Failed _ t | Succeeded _ t => t end.

(** The failures recorded since the key's last success. *)
Definition failure_history (h : list (bytes * Z)) (e : AuthEvent) : list (bytes * Z) :=
  match e with
  | Failed key now => (key, now) :: h
  | Succeeded key _ => filter (fun p => p.1 <> key) h
  end.

(** ** Lemmas *)
Lemma within_mono w now now' t : now <= now' -> within w now' t = true -> within w now t = true.
Proof. unfold within. intros ? H. bool_prop. rewrite Z.geb_leb. apply Z.leb_le. lia. Qed.

Lemma retain_retain w now now' ts :
  now <= now' -> retain_within w now' (retain_within w now ts) = retain_within w now' ts.
Proof.
  intros Hn. unfold retain_within. induction ts as [|t ts IH]; [done|].
  rewrite !filter_cons. destruct (decide (within w now t = true)) as [H|H].
  - rewrite filter_cons, IH. done.
  - destruct (decide (within w now' t = true)) as [H'|]; [|done].
    exfalso. eauto using within_mono.
Qed.

Lemma retain_none w now now' ts :
  now <= now' -> existsb (within w now) ts = false -> retain_within w now' ts = [].
Proof.
  intros Hn. unfold retain_within. induction ts as [|t ts IH]; cbn [existsb]; [done|]. intros H.
  apply orb_false_elim in H as [H1 H2]. rewrite filter_cons, decide_False, IH; [done|done|].
  intros ?%(within_mono w now now'); [congruence|done].
Qed.

Lemma delete_all_size {V} (m : gmap bytes V) (ps : list (Z * bytes)) :
  NoDup ps.*2 -> (forall p, p ∈ ps -> is_Some (m !! p.2)) ->
  (size (foldr (fun p m => delete p.2 m) m ps) + length ps = size m)%nat /\
  forall k, k ∉ ps.*2 -> foldr (fun p m => delete p.2 m) m ps !! k = m !! k.
Proof.
  induction ps as [|[t k] ps IH]; intros Hnd Hin; cbn [foldr length]; [split; [lia|done]|].
  rewrite fmap_cons in *. cbn [snd] in *. apply NoDup_cons in Hnd as [Hk Hnd].
  destruct IH as [IH1 IH2]; [done|intros p Hp; apply Hin; by right|].
  assert (is_Some (m !! k)) as [v Hv] by (apply (Hin (t, k)); left).
  split.
  - erewrite map_size_delete_Some by (rewrite IH2; done).
    assert (size (foldr (fun p m => delete p.2 m) m ps) <> 0%nat); [|lia].
    intros Hz. apply map_size_empty_iff in Hz. rewrite <- (IH2 k Hk), Hz, lookup_empty in Hv. done.
  - intros k' Hk'. apply not_elem_of_cons in Hk' as [? ?]. rewrite lookup_delete_ne, IH2; done.
Qed.

Lemma shed_size s w now : Z.of_nat (size (shed_seen s w now)) <= MAX_KEYS.
Proof.
  unfold shed_seen. case_test; bool_prop; [done|].
  set (m := filter _ s) in *. set (items := _ <$> map_to_list m).
  set (n := (size m - Z.to_nat MAX_KEYS)%nat).
  assert ((sort_by newest_cmp items).*2 ≡ₚ (map_to_list m).*1) as Hperm.
  { rewrite sort_by_perm. unfold items. rewrite <- list_fmap_compose. done. }
  assert (NoDup (take n (sort_by newest_cmp items)).*2) as Hnd.
  { rewrite fmap_take. eapply sublist_NoDup; [|apply sublist_take].
    rewrite Hperm. apply NoDup_fst_map_to_list. }
  destruct (delete_all_size m (take n (sort_by newest_cmp items)) Hnd) as [Hs _].
  - intros p (i & Hp & _)%elem_of_take. apply list_elem_of_lookup_2 in Hp.
    assert (p.2 ∈ (map_to_list m).*1) as Hk by (rewrite <- Hperm; apply list_elem_of_fmap; eauto).
    apply list_elem_of_fmap in Hk as ([k v] & -> & Hk). apply elem_of_map_to_list in Hk. eauto.
  - rewrite length_take in Hs.
    assert (length (sort_by newest_cmp items) = size m) as Hl.
    { rewrite sort_by_perm. unfold items. by rewrite length_fmap, length_map_to_list. }
    assert (0 <= MAX_KEYS) by done. lia.
Qed.

Lemma shed_below s w now :
  Z.of_nat (size s) <= MAX_KEYS ->
  shed_seen s w now = filter (fun kv => existsb (within w now) kv.2 = true) s.
Proof.
  intros Hs. unfold shed_seen.
  pose proof (map_size_filter (fun kv => existsb (within w now) kv.2 = true) s).
  case_test; bool_prop; [done|]. lia.
Qed.

(** *** Agreement with the reference *)
Definition agree (w : Z) (s : gmap bytes (list Z)) (h : list (bytes * Z)) (last : Z) : Prop :=
  forall key now, last <= now -> len (retain_within w now (default [] (s !! key))) = recent_of w h key now.

Lemma recent_of_cons w h k t key now :
  recent_of w ((k, t) :: h) key now =
  (if decide (k = key /\ within w now t = true) then 1 else 0) + recent_of w h key now.
Proof. unfold recent_of. rewrite filter_cons. cbn [fst snd]. case_decide; [by rewrite len_cons|lia]. Qed.

Lemma agree_prune w s h last key now :
  agree w s h last -> last <= now ->
  agree w (<[key := retain_within w now (default [] (s !! key))]> s) h now.
Proof.
  intros Ha Hn k n Hk. rewrite lookup_insert. case_decide; subst; cbn [default from_option id].
  - rewrite retain_retain by done. apply Ha. lia.
  - apply Ha. lia.
Qed.

Lemma agree_record w s h last key now :
  agree w s h last -> last <= now ->
  agree w (<[key := retain_within w now (default [] (s !! key)) ++ [now]]> s) ((key, now) :: h) now.
Proof.
  intros Ha Hn k n Hk. rewrite lookup_insert, recent_of_cons.
  case_decide as Hkey; subst; cbn [default from_option id].
  - unfold retain_within at 1. rewrite filter_app. fold (retain_within w n).
    rewrite len_app. unfold retain_within at 1. fold (retain_within w now (default [] (s !! k))).
    change (len (retain_within w n (retain_within w now (default [] (s !! k)))) + len (retain_within w n [now])
      = (if decide (k = k /\ within w n now = true) then 1 else 0) + recent_of w h k n).
    rewrite retain_retain, Ha by lia. unfold retain_within. rewrite filter_cons, filter_nil.
    case_decide; case_decide; unfold len; cbn; destruct_and?; try lia; naive_solver.
  - rewrite decide_False by (by intros [? _]). rewrite Ha by lia. done.
Qed.

Lemma agree_shed w s h now :
  agree w s h now -> Z.of_nat (size s) <= MAX_KEYS -> agree w (shed_seen s w now) h now.
Proof.
  intros Ha Hs k n Hk. rewrite shed_below, <- Ha by done. rewrite map_lookup_filter.
  destruct (s !! k) as [ts|] eqn:E; cbn [mbind option_bind]; [|done].
  destruct (existsb (within w now) ts) eqn:Ex.
  - by rewrite option_guard_True.
  - rewrite option_guard_False by (cbn; congruence). cbn [default from_option id mbind option_bind].
    by rewrite (retain_none w now n ts).
Qed.

(** One attempt, seen by both. *)
Lemma check_agrees (l : Limiter) (h : list (bytes * Z)) (last : Z) (key : bytes) (now : Z) (K : gset bytes) :
  agree (window l) (seen l) h last -> last <= now ->
  dom (seen l) ⊆ K -> key ∈ K -> Z.of_nat (size K) <= MAX_KEYS ->
  let refused := recent_of (window l) h key now >=? max_seen l in
  exists l', limiter_check l key now = (l', refused) /\
    agree (window l) (seen l') (if refused then h else (key, now) :: h) now /\
    dom (seen l') ⊆ K /\ max_seen l' = max_seen l /\ window l' = window l.
Proof.
  cbv zeta. intros Ha Hn Hd Hk Hs. unfold limiter_check. rewrite (Ha key now Hn).
  destruct (recent_of (window l) h key now >=? max_seen l); eexists; (split; [done|]);
    cbn [seen max_seen window].
  - split_and!; [by eapply agree_prune|set_solver|done|done].
  - assert (dom (<[key := retain_within (window l) now (default [] (seen l !! key)) ++ [now]]> (seen l)) ⊆ K)
      as Hd' by set_solver.
    assert (Z.of_nat (size (<[key := retain_within (window l) now (default [] (seen l !! key)) ++ [now]]> (seen l)))
      <= MAX_KEYS) as Hs'.
    { rewrite <- size_dom. apply subseteq_size in Hd'. lia. }
    split_and!; [|..].
    + apply agree_shed; [|done]. by eapply agree_record.
    + rewrite shed_below by done. etrans; [apply dom_filter_subseteq|done].
    + done.
    + done.
Qed.

Lemma limiter_run_agrees attempts : forall l h last (K : gset bytes),
  agree (window l) (seen l) h last -> clock_from last attempts.*2 ->
  dom (seen l) ⊆ K -> list_to_set attempts.*1 ⊆ K -> Z.of_nat (size K) <= MAX_KEYS ->
  (limiter_run l attempts).2 = reference_verdicts (max_seen l) (window l) h attempts.
Proof.
  induction attempts as [|[key now] attempts IH]; intros l h last K Ha Hc Hd HK Hs;
    cbn [limiter_run reference_verdicts]; [done|].
  destruct Hc as [Hn Hc]. rewrite fmap_cons in HK. cbn [list_to_set fst] in HK.
  destruct (check_agrees l h last key now K Ha Hn Hd ltac:(set_solver) Hs)
    as (l' & -> & Ha' & Hd' & Hm & Hw).
  specialize (IH l' (if recent_of (window l) h key now >=? max_seen l then h else (key, now) :: h) now K).
  rewrite Hw, Hm in IH. specialize (IH Ha' Hc Hd' ltac:(set_solver) Hs).
  destruct (limiter_run l' attempts) as [l'' vs] eqn:E. cbn in IH. subst vs. cbn.
  by case_test.
Qed.

(** The sign-in limiter. *)
Lemma agree_success w s h last key :
  agree w s h last -> agree w (delete key s) (filter (fun p => p.1 <> key) h) last.
Proof.
  intros Ha k now Hn. unfold recent_of. rewrite list_filter_filter. rewrite lookup_delete.
  case_decide as Hk; subst; cbn [default from_option id].
  - unfold retain_within. rewrite filter_nil. symmetry. unfold len.
    assert (filter (fun p => (p.1 = k /\ within w now p.2 = true) /\ p.1 <> k) h = []) as ->; [|done].
    clear Ha. induction h as [|p h IH]; [done|]. rewrite filter_cons, decide_False; [done|naive_solver].
  - rewrite Ha by done. unfold recent_of. f_equal. apply list_filter_iff. naive_solver.
Qed.

Lemma auth_run_agrees events : forall (l : AuthLimiter) h last (K : gset bytes),
  agree (window_secs l) (failures l) h last -> clock_from last (event_time <$> events) ->
  dom (failures l) ⊆ K -> list_to_set (event_key <$> events) ⊆ K -> Z.of_nat (size K) <= MAX_KEYS ->
  let l' := fold_left auth_step events l in
  agree (window_secs l) (failures l') (fold_left failure_history events h)
    (clock_end last (event_time <$> events)) /\
  window_secs l' = window_secs l /\ max_failures l' = max_failures l.
Proof.
  induction events as [|e events IH]; intros l h last K Ha Hc Hd HK Hs; [done|].
  rewrite fmap_cons in *. cbn [list_to_set clock_from fold_left] in *. destruct Hc as [Hn Hc]. cbv zeta.
  assert (agree (window_secs l) (failures (auth_step l e)) (failure_history h e) (event_time e) /\
    dom (failures (auth_step l e)) ⊆ K) as [Ha' Hd'].
  { destruct e as [key now|key now]; cbn [auth_step record_failure record_success auth_shed failures
      failure_history event_time event_key window_secs] in *.
    - set (s := <[key := _]> (failures l)).
      assert (dom s ⊆ K) as Hd' by (unfold s; set_solver).
      assert (Z.of_nat (size s) <= MAX_KEYS) as Hs'.
      { rewrite <- size_dom. apply subseteq_size in Hd'. lia. }
      split; [apply agree_shed; [|done]; by eapply agree_record|].
      rewrite shed_below by done. etrans; [apply dom_filter_subseteq|done].
    - split; [|set_solver]. intros k n Hk. eapply agree_success; [exact Ha|lia]. }
  assert (window_secs (auth_step l e) = window_secs l /\ max_failures (auth_step l e) = max_failures l)
    as [Hw Hm] by (by destruct e).
  destruct (IH (auth_step l e) (failure_history h e) (event_time e) K) as (Hr & Hw' & Hm');
    rewrite ?Hw; try done; [set_solver|]. rewrite Hw', Hm', Hw, Hm in *. done.
Qed.

(** *** Memory *)
Definition limiter_bounded (l : Limiter) : Prop :=
  1 <= max_seen l /\ Z.of_nat (size (seen l)) <= MAX_KEYS /\
  forall key ts, seen l !! key = Some ts -> len ts <= max_seen l.

Lemma shed_lookup s w now key ts : shed_seen s w now !! key = Some ts -> s !! key = Some ts.
Proof.
  unfold shed_seen. set (m := filter _ s). assert (m ⊆ s) as Hm by apply map_filter_subseteq.
  intros H. eapply lookup_weaken; [|exact Hm]. revert H. case_test; [done|].
  induction (take _ _) as [|p ps IH]; cbn; [done|].
  rewrite lookup_delete_Some. intros [_ H]. by apply IH.
Qed.

Lemma limiter_check_bounded (l : Limiter) (key : bytes) (now : Z) :
  limiter_bounded l -> limiter_bounded (limiter_check l key now).1.
Proof.
  intros (Hm & Hs & Hl). unfold limiter_check.
  assert (len (retain_within (window l) now (default [] (seen l !! key))) <= max_seen l) as He.
  { unfold retain_within. destruct (seen l !! key) as [ts|] eqn:E; cbn [default from_option id].
    - apply Hl in E. pose proof (length_filter (fun t => within (window l) now t = true) ts).
      unfold len in *. lia.
    - rewrite filter_nil. unfold len. cbn. lia. }
  case_test; bool_prop; cbn [fst].
  - assert (is_Some (seen l !! key)) as [ts0 E].
    { destruct (seen l !! key); [eauto|]. cbn [default from_option id] in G.
      unfold retain_within in G. rewrite filter_nil in G.
      unfold len in G. cbn in G. lia. }
    split; [done|]. cbn [seen max_seen]. split; [by rewrite map_size_insert_Some by eauto|].
    intros k ts. rewrite lookup_insert. case_decide; [by intros [= <-]|apply Hl].
  - split; [done|]. cbn [seen max_seen]. split; [apply shed_size|].
    intros k ts H%shed_lookup. rewrite lookup_insert in H. case_decide; simplify_eq; [|by eapply Hl].
    rewrite len_app. change (len [now]) with 1. lia.
Qed.

(** ** Properties *)

(** The throttle forgets without forgiving: on any run of attempts whose
    clock does not go backwards and that names at most [MAX_KEYS] sources, the
    registration limiter refuses exactly the attempts the reference refuses,
    which remembers every admitted attempt: those whose source already had the
    ceiling of admitted attempts within the window.  So pruning, dropping idle
    sources and not recording refusals never change a verdict, and no window
    ever admits more than the ceiling. *)
Lemma registration_limit_exact m attempts :
  clock_from 0 attempts.*2 ->
  Z.of_nat (size (list_to_set attempts.*1 : gset bytes)) <= MAX_KEYS ->
  (limiter_run (reg_with_max m) attempts).2 =
  reference_verdicts (Z.max m 1) WINDOW_SECS [] attempts.
Proof.
  intros Hc Hs. apply (limiter_run_agrees attempts (reg_with_max m) [] 0 (list_to_set attempts.*1)); done.
Qed.

(** The throttle's memory is bounded whatever an attacker sends: after any
    run of attempts, at any times and under any keys, a limiter with a ceiling
    of at least one holds at most [MAX_KEYS] sources with at most the ceiling
    of timestamps each. *)
Lemma limiter_memory_bounded (m w : Z) (attempts : list (bytes * Z)) :
  1 <= m -> let l := (limiter_run (mkLimiter ∅ m w) attempts).1 in
  Z.of_nat (size (seen l)) <= MAX_KEYS /\
  forall key ts, seen l !! key = Some ts -> len ts <= m.
Proof.
  intros Hm. cbv zeta.
  assert (forall l, limiter_bounded l -> max_seen l = m ->
    limiter_bounded (limiter_run l attempts).1 /\ max_seen (limiter_run l attempts).1 = m) as H.
  { induction attempts as [|[key now] attempts IH]; intros l Hl Hml; cbn [limiter_run]; [done|].
    pose proof (limiter_check_bounded l key now Hl) as Hb.
    assert (max_seen (limiter_check l key now).1 = m) as Hm' by (unfold limiter_check; by case_test).
    destruct (limiter_check l key now) as [l' refused]. cbn in Hb, Hm'.
    specialize (IH l' Hb Hm'). by destruct (limiter_run l' attempts). }
  destruct (H (mkLimiter ∅ m w)) as [(_ & Hs & Hl) Hmm].
  - split; [done|]. split; [by vm_compute|]. cbn. intros key ts. by rewrite lookup_empty.
  - done.
  - rewrite Hmm in Hl. done.
Qed.

(** C39. The throttle forgets without forgiving, in bounded memory.  On any run
    of attempts whose clock does not go backwards and that names at most
    [MAX_KEYS] sources, the registration limiter refuses exactly the attempts
    the reference refuses, which remembers every admitted attempt: those whose
    source already had the ceiling of admitted attempts within the window.  So
    pruning, dropping idle sources and not recording refusals never change a
    verdict.  And whatever an attacker sends, at any times and under any keys,
    a limiter with a ceiling of at least one holds at most [MAX_KEYS] sources
    with at most the ceiling of timestamps each. *)
Theorem throttle_exact_and_bounded (m w : Z) (attempts flood : list (bytes * Z)) :
  clock_from 0 attempts.*2 ->
  Z.of_nat (size (list_to_set attempts.*1 : gset bytes)) <= MAX_KEYS ->
  1 <= m ->
  (limiter_run (reg_with_max m) attempts).2 = reference_verdicts (Z.max m 1) WINDOW_SECS [] attempts /\
  let l := (limiter_run (mkLimiter ∅ m w) flood).1 in
  Z.of_nat (size (seen l)) <= MAX_KEYS /\
  forall key ts, seen l !! key = Some ts -> len ts <= m.
Proof. intros Hc Hs Hm. split; [by apply registration_limit_exact|by apply limiter_memory_bounded]. Qed.

Lemma throttle_exact_and_bounded_witness :
  let attempts := [(bstr "a", 10); (bstr "a", 11); (bstr "b", 11); (bstr "a", 3612)] in
  (limiter_run (reg_with_max 1) attempts).2 = reference_verdicts (Z.max 1 1) WINDOW_SECS [] attempts /\
  let l := (limiter_run (mkLimiter ∅ 1 60) attempts).1 in
  Z.of_nat (size (seen l)) <= MAX_KEYS /\
  forall key ts, seen l !! key = Some ts -> len ts <= 1.
Proof. apply throttle_exact_and_bounded; [cbn; lia|by vm_compute|lia]. Defined.

(** Sign-in blocking is exact: after any history of failed and successful
    sign-ins on a clock that does not go backwards, over at most [MAX_KEYS]
    accounts, a key is blocked exactly when at least [MAX_FAILURES] of its
    failures since its last success lie within the window.  No account's
    failures ever block another, and a success clears the key. *)
Lemma sign_in_block_exact (events : list AuthEvent) (key : bytes) (now : Z) :
  clock_from 0 (event_time <$> events) ->
  Z.of_nat (size (list_to_set (event_key <$> events) : gset bytes)) <= MAX_KEYS ->
  clock_end 0 (event_time <$> events) <= now ->
  is_blocked (fold_left auth_step events auth_default) key now =
  (recent_of AUTH_WINDOW_SECS (fold_left failure_history events []) key now >=? MAX_FAILURES).
Proof.
  intros Hc Hs Hn.
  destruct (auth_run_agrees events auth_default [] 0 (list_to_set (event_key <$> events))) as (Ha & Hw & Hm);
    try done.
  unfold is_blocked, recent_failures, within_window. rewrite Hw, Hm. f_equal.
  change AUTH_WINDOW_SECS with (window_secs auth_default). rewrite <- (Ha key now Hn). unfold retain_within. cbn [window_secs auth_default].
  by destruct (failures _ !! key).
Qed.

