(* ===== verification/Inventory.v ===== *)
(** * Inventory: the lifecycle of an account's devices
    ([tacenta-accounts/src/inventory.rs])

    The pure rules both account stores share: linking a device, retiring one,
    replacing one by its committed successor, and the bounded memory of what
    was retired.  What the rules take from the standalone core (which keys are
    admitted, the commitment of a binding, the canonical encoding and the order
    of its lists) is the interface [InventoryCore]. *)

From S2P Require Import Prelude Framing.

(** ** Data *)
(** The core's [DeviceBinding] and [Revocation], by the fields the source
    reads and writes. *)
Record DeviceBinding := mkBinding {
  device_id : Z; identity_public_key : bytes; capabilities : Z; replacement_predecessor : option bytes
}.
Record Revocation := mkRevocation { rv_binding : DeviceBinding; terminal_generation : Z }.

Record DeviceInventory := mkInventory {
  inv_generation : Z; active : list DeviceBinding; revocation_floor_generation : Z; revoked : list Revocation
}.

(** [#[derive(Default)]]. *)
Definition inventory_default : DeviceInventory := mkInventory 0 [] 0 [].

#[global] Instance DeviceBinding_eq_dec : EqDecision DeviceBinding.
Proof. solve_decision. Defined.
#[global] Instance Revocation_eq_dec : EqDecision Revocation.
Proof. solve_decision. Defined.
#[global] Instance DeviceInventory_eq_dec : EqDecision DeviceInventory.
Proof. solve_decision. Defined.

Inductive InventoryError {CoreError : Type} :=
| UnknownUser | PredecessorMismatch | GenerationExhausted | DuplicateBinding | DeviceIdInUse | BindingRevoked
| DeviceIdRetired | IdentityKeyInUse | BindingNotActive | ReplacementPredecessorMismatch
| UnexpectedReplacementPredecessor | IdentityKey (e : CoreError) | IdempotencyConflict | Invalid.
Arguments InventoryError CoreError : clear implicits.

Record InventoryMutation := mkMutation {
  mu_predecessor : Z; mu_binding : DeviceBinding; mu_result : DeviceInventory
}.

Inductive LifecycleRequest :=
| Replace (predecessor_generation : Z) (retired replacement : DeviceBinding)
| Revoke (predecessor_generation : Z) (retired : DeviceBinding).

Record LifecycleMutation := mkLifecycle { lm_request : LifecycleRequest; lm_result : DeviceInventory }.

#[global] Instance LifecycleRequest_eq_dec : EqDecision LifecycleRequest.
Proof. solve_decision. Defined.

(** ** What the rules ask of the core *)
Class InventoryCore (CoreError : Type) := {
  validate_identity_key : bytes -> result CoreError unit;
  binding_commitment : DeviceBinding -> result CoreError bytes;
  encode_unsigned : bytes -> DeviceInventory -> result CoreError bytes;
  binding_cmp : DeviceBinding -> DeviceBinding -> comparison;
  revocation_cmp : Revocation -> Revocation -> comparison;
  MAX_ACTIVE_BINDINGS : Z;
  MAX_RECENT_REVOCATIONS : Z
}.

(** ** The rules *)
Section Rules.
Context {E : Type} `{!InventoryCore E}.

Definition with_inv_generation (i : DeviceInventory) (g : Z) : DeviceInventory :=
  mkInventory g (active i) (revocation_floor_generation i) (revoked i).
Definition with_active (i : DeviceInventory) (l : list DeviceBinding) : DeviceInventory :=
  mkInventory (inv_generation i) l (revocation_floor_generation i) (revoked i).
Definition with_revoked (i : DeviceInventory) (floor : Z) (l : list Revocation) : DeviceInventory :=
  mkInventory (inv_generation i) (active i) floor l.

(** The statement is the inventory of the handle under a fixed issuer key id. *)
Definition validate_inventory (account_handle : bytes) (inventory : DeviceInventory) : result (InventoryError E) unit :=
  map_err Invalid (_ ← encode_unsigned account_handle inventory; Ok tt).

Definition check_supplied_binding (b : DeviceBinding) : result (InventoryError E) unit :=
  match validate_identity_key (identity_public_key b) with Ok u => Ok u | Err e => Err (IdentityKey e) end.

Definition binding_is_new (current : DeviceInventory) (b : DeviceBinding) : result (InventoryError E) unit :=
  if existsb (fun x => bool_decide (x = b)) (active current) then Err DuplicateBinding else
  if existsb (fun x => device_id x =? device_id b) (active current) then Err DeviceIdInUse else
  if existsb (fun x => bool_decide (identity_public_key x = identity_public_key b)) (active current)
  then Err IdentityKeyInUse else
  if existsb (fun x => bool_decide (rv_binding x = b)) (revoked current) then Err BindingRevoked else
  if existsb (fun x => device_id (rv_binding x) =? device_id b) (revoked current) then Err DeviceIdRetired else
  if existsb (fun x => bool_decide (identity_public_key (rv_binding x) = identity_public_key b)) (revoked current)
  then Err IdentityKeyInUse else
  Ok tt.

(** [min_by_key(terminal_generation)]: the first of the least. *)
Fixpoint oldest (l : list Revocation) : option (nat * Revocation) :=
  match l with
  | [] => None
  | x :: l =>
      match oldest l with
      | Some (k, y) => if terminal_generation y <? terminal_generation x then Some (S k, y) else Some (O, x)
      | None => Some (O, x)
      end
  end.

(** The [while] of [compact_revocations]; a list that shrinks by one each time
    round needs no more rounds than it has entries. *)
Fixpoint compact_loop (fuel : nat) (i : DeviceInventory) : DeviceInventory :=
  if len (revoked i) >? MAX_RECENT_REVOCATIONS then
    match fuel, oldest (revoked i) with
    | S fuel, Some (k, retired) =>
        compact_loop fuel
          (with_revoked i (Z.max (revocation_floor_generation i) (terminal_generation retired)) (delete k (revoked i)))
    | _, _ => i
    end
  else i.

Definition compact_revocations (i : DeviceInventory) : DeviceInventory :=
  let i := compact_loop (length (revoked i)) i in
  with_revoked i (revocation_floor_generation i) (sort_by revocation_cmp (revoked i)).

Definition link_inventory (account_handle : bytes) (current : DeviceInventory) (predecessor_generation : Z)
    (b : DeviceBinding) : result (InventoryError E) DeviceInventory :=
  _ ← check_supplied_binding b;
  if match replacement_predecessor b with Some _ => true | None => false end then Err UnexpectedReplacementPredecessor else
  if negb (inv_generation current =? predecessor_generation) then Err PredecessorMismatch else
  if existsb (fun x => bool_decide (x = b)) (active current) then Err DuplicateBinding else
  _ ← binding_is_new current b;
  g ← ok_or GenerationExhausted (checked_add64 (inv_generation current) 1);
  let next := with_active (with_inv_generation current g) (sort_by binding_cmp (active current ++ [b])) in
  _ ← validate_inventory account_handle next;
  Ok next.

Definition revoke_inventory (account_handle : bytes) (current : DeviceInventory) (predecessor_generation : Z)
    (retired : DeviceBinding) : result (InventoryError E) DeviceInventory :=
  _ ← check_supplied_binding retired;
  if negb (inv_generation current =? predecessor_generation) then Err PredecessorMismatch else
  '(index, _) ← ok_or BindingNotActive (list_find (fun x => x = retired) (active current));
  g ← ok_or GenerationExhausted (checked_add64 (inv_generation current) 1);
  let next := with_active (with_inv_generation current g) (delete index (active current)) in
  let next := with_revoked next (revocation_floor_generation next) (revoked next ++ [mkRevocation retired g]) in
  let next := compact_revocations next in
  _ ← validate_inventory account_handle next;
  Ok next.

Definition replace_inventory (account_handle : bytes) (current : DeviceInventory) (predecessor_generation : Z)
    (retired replacement : DeviceBinding) : result (InventoryError E) DeviceInventory :=
  _ ← check_supplied_binding retired;
  _ ← check_supplied_binding replacement;
  commitment ← map_err Invalid (binding_commitment retired);
  if negb (bool_decide (replacement_predecessor replacement = Some commitment)) then Err ReplacementPredecessorMismatch else
  revoked_ ← revoke_inventory account_handle current predecessor_generation retired;
  _ ← binding_is_new revoked_ replacement;
  let next := with_active revoked_ (sort_by binding_cmp (active revoked_ ++ [replacement])) in
  _ ← validate_inventory account_handle next;
  Ok next.
End Rules.

(** ** Encodings *)
Definition put_binding (b : DeviceBinding) : bytes :=
  put_u32 (device_id b) ++ identity_public_key b ++ be64 (capabilities b) ++
  match replacement_predecessor b with Some p => x01 :: p | None => [x00] end.

Definition put_revocation (r : Revocation) : bytes := put_binding (rv_binding r) ++ be64 (terminal_generation r).

Definition encode_inventory (i : DeviceInventory) : bytes :=
  be64 (inv_generation i) ++ put_u32 (len (active i)) ++ mjoin (put_binding <$> active i) ++
  be64 (revocation_floor_generation i) ++ put_u32 (len (revoked i)) ++ mjoin (put_revocation <$> revoked i).

Definition take_hash (bs : bytes) : option (bytes * bytes) := split_at_checked 32 bs.

Definition take_binding (bs : bytes) : option (DeviceBinding * bytes) :=
  '(d, rest) ← take_u32 bs;
  '(k, rest) ← take_hash rest;
  '(c, rest) ← take_u64 rest;
  match rest with
  | [] => None
  | present :: rest =>
      '(p, rest) ← (if byte_val present =? 0 then Some (None, rest)
                    else if byte_val present =? 1 then '(p, rest) ← take_hash rest; Some (Some p, rest)
                    else None);
      Some (mkBinding d k c p, rest)
  end.

Definition take_revocation (bs : bytes) : option (Revocation * bytes) :=
  '(b, rest) ← take_binding bs; '(g, rest) ← take_u64 rest; Some (mkRevocation b g, rest).

Section Codec.
Context {E : Type} `{!InventoryCore E}.

Definition take_inventory (bs : bytes) : option (DeviceInventory * bytes) :=
  '(g, rest) ← take_u64 bs;
  '(n, rest) ← take_u32 rest;
  if n >? MAX_ACTIVE_BINDINGS then None else
  '(a, rest) ← take_many take_binding (Z.to_nat n) rest;
  '(floor, rest) ← take_u64 rest;
  '(m, rest) ← take_u32 rest;
  if m >? MAX_RECENT_REVOCATIONS then None else
  '(r, rest) ← take_many take_revocation (Z.to_nat m) rest;
  Some (mkInventory g a floor r, rest).

Definition decode_inventory (bs : bytes) : option DeviceInventory :=
  '(i, rest) ← take_inventory bs; then_some rest i.
End Codec.

Definition encode_link_request (predecessor_generation : Z) (b : DeviceBinding) : bytes :=
  be64 predecessor_generation ++ put_binding b.
Definition encode_revoke_request (predecessor_generation : Z) (retired : DeviceBinding) : bytes :=
  bstr "TCIL" ++ [x01; x02] ++ be64 predecessor_generation ++ put_binding retired.
Definition encode_replace_request (predecessor_generation : Z) (retired replacement : DeviceBinding) : bytes :=
  bstr "TCIL" ++ [x01; x01] ++ be64 predecessor_generation ++ put_binding retired ++ put_binding replacement.

(** ** What the rules maintain *)
(** The core's documented promises: the canonical encoding admits at most the
    maxima of its lists, and a commitment is a digest. *)
Class InventoryCoreLaws (E : Type) `{!InventoryCore E} : Prop := {
  core_active h i bs : encode_unsigned h i = Ok bs -> len (active i) <= MAX_ACTIVE_BINDINGS;
  core_revoked h i bs : encode_unsigned h i = Ok bs -> len (revoked i) <= MAX_RECENT_REVOCATIONS;
  core_commitment b c : binding_commitment b = Ok c -> len c = 32;
  core_maxima : 0 < MAX_ACTIVE_BINDINGS <= u32_max /\ 0 < MAX_RECENT_REVOCATIONS <= u32_max
}.

Definition admitted {E} `{!InventoryCore E} (b : DeviceBinding) : Prop := validate_identity_key (identity_public_key b) = Ok tt.

(** Every binding of an inventory, retired ones included. *)
Definition bindings (i : DeviceInventory) : list DeviceBinding := active i ++ (rv_binding <$> revoked i).

Record inventory_ok {E} `{!InventoryCore E} (i : DeviceInventory) : Prop := {
  io_floor : 0 <= revocation_floor_generation i <= inv_generation i;
  io_range : inv_generation i <= u64_max;
  io_devices : NoDup (device_id <$> bindings i);
  io_keys : NoDup (identity_public_key <$> bindings i);
  io_admitted : Forall admitted (bindings i);
  io_terminal : NoDup (terminal_generation <$> revoked i);
  io_recent : Forall (fun r => revocation_floor_generation i < terminal_generation r <= inv_generation i) (revoked i);
  io_remembered : len (revoked i) <= MAX_RECENT_REVOCATIONS
}.

Section Invariant.
Context {E : Type} `{!InventoryCore E, !InventoryCoreLaws E}.

(** One accepted mutation of an account. *)
Inductive inventory_step (h : bytes) (i i' : DeviceInventory) : Prop :=
| step_link pg b : link_inventory h i pg b = Ok i' -> inventory_step h i i'
| step_revoke pg r : revoke_inventory h i pg r = Ok i' -> inventory_step h i i'
| step_replace pg r b : replace_inventory h i pg r b = Ok i' -> inventory_step h i i'.

Lemma oldest_spec l k r :
  oldest l = Some (k, r) -> l !! k = Some r /\ Forall (fun x => terminal_generation r <= terminal_generation x) l.
Proof.
  revert k r. induction l as [|x l IH]; intros k r; cbn; [done|].
  destruct (oldest l) as [[j y]|] eqn:E1.
  - destruct (IH j y eq_refl) as [Hl Hf]. destruct (_ <? _) eqn:E2; bool_prop; intros [= <- <-]; split; try done.
    + constructor; [lia|done].
    + constructor; [done|]. eapply Forall_impl; [exact Hf|]. cbn. lia.
  - intros [= <- <-]. split; [done|]. destruct l as [|z l]; [by repeat constructor|]. cbn in E1.
    destruct (oldest l) as [[? ?]|]; [by destruct (_ <? _)|done].
Qed.

Lemma oldest_is_Some l : l <> [] -> is_Some (oldest l).
Proof. destruct l as [|x l]; [done|]. intros _. cbn. destruct (oldest l) as [[? ?]|]; [|done]. by destruct (_ <? _). Qed.

(** What compaction forgets: the oldest entries, and the floor tells up to
    which generation. *)
Record compacted_to (i j : DeviceInventory) (dropped : list Revocation) : Prop := {
  ct_active : active j = active i;
  ct_generation : inv_generation j = inv_generation i;
  ct_split : revoked i ≡ₚ dropped ++ revoked j;
  ct_bound : len (revoked j) <= MAX_RECENT_REVOCATIONS;
  ct_full : dropped <> [] -> MAX_RECENT_REVOCATIONS <= len (revoked j);
  ct_floor : revocation_floor_generation i <= revocation_floor_generation j;
  ct_floor_of : revocation_floor_generation j = revocation_floor_generation i \/
    revocation_floor_generation j ∈ (terminal_generation <$> dropped);
  ct_order : Forall (fun r => Forall (fun x => terminal_generation r <= terminal_generation x) (revoked j)) dropped
}.

Lemma compact_loop_spec fuel : forall i, (length (revoked i) <= fuel)%nat -> exists dropped, compacted_to i (compact_loop fuel i) dropped.
Proof.
  destruct (core_maxima (E := E)) as [_ Hmax].
  induction fuel as [|fuel IH]; intros i Hf; cbn [compact_loop]; destruct (_ >? _) eqn:Eg; bool_prop.
  - unfold len in Eg. lia.
  - exists []. by split; auto.
  - destruct (oldest_is_Some (revoked i)) as [[k r] Ho]; [intros Hn; rewrite Hn, len_nil in Eg; lia|].
    rewrite Ho. destruct (oldest_spec _ _ _ Ho) as [Hk Hmin]. pose proof (delete_Permutation _ _ _ Hk) as Hp.
    assert (len (revoked i) = 1 + len (delete k (revoked i))) as Hlen by (rewrite (len_perm _ _ Hp); apply len_cons).
    match goal with |- context [compact_loop fuel ?j] => destruct (IH j) as [d Hd] end.
    { cbn. unfold len in Hlen. lia. }
    cbn in Hd. exists (r :: d). destruct Hd as [H1 H2 H3 H4 H5 H6 H7 H8]. cbn in *. split; try done.
    + etrans; [exact Hp|]. cbn. by constructor.
    + intros _. destruct (decide (d = [])) as [->|Hne]; [|by apply H5]. apply len_perm in H3. cbn in H3. lia.
    + lia.
    + destruct H7 as [H7|H7]; [|by right; right]. rewrite H7.
      destruct (Z.max_spec (revocation_floor_generation i) (terminal_generation r)) as [[_ ->]|[_ ->]]; [right; left|by left].
    + constructor; [|done]. rewrite Hp, H3 in Hmin. apply Forall_cons in Hmin as [_ Hmin]. by apply Forall_app in Hmin as [_ ?].
  - exists []. by split; auto.
Qed.

Lemma compact_spec i : exists dropped, compacted_to i (compact_revocations i) dropped.
Proof.
  destruct (compact_loop_spec (length (revoked i)) i) as [d [H1 H2 H3 H4 H5 H6 H7 H8]]; [lia|]. exists d.
  unfold compact_revocations.
  assert (sort_by revocation_cmp (revoked (compact_loop (length (revoked i)) i)) ≡ₚ revoked (compact_loop (length (revoked i)) i)) as Hs
    by apply sort_by_perm.
  split; cbn; try done.
  - by rewrite Hs.
  - by rewrite (len_perm _ _ Hs).
  - intros Hd. rewrite (len_perm _ _ Hs). by apply H5.
  - eapply Forall_impl; [exact H8|]. cbn. intros r. by rewrite Hs.
Qed.

(** Adding a binding, and retiring one at the next generation. *)
Record adds (b : DeviceBinding) (i i' : DeviceInventory) : Prop := {
  ad_device : device_id b ∉ device_id <$> bindings i;
  ad_key : identity_public_key b ∉ identity_public_key <$> bindings i;
  ad_admitted : admitted b;
  ad_active : active i' ≡ₚ b :: active i;
  ad_revoked : revoked i' = revoked i;
  ad_floor : revocation_floor_generation i' = revocation_floor_generation i
}.

Record retires (r : DeviceBinding) (i i' : DeviceInventory) : Prop := {
  rt_active : active i ≡ₚ r :: active i';
  rt_generation : inv_generation i' = inv_generation i + 1;
  rt_range : inv_generation i' <= u64_max;
  rt_dropped : exists dropped, compacted_to
    (mkInventory (inv_generation i') (active i') (revocation_floor_generation i)
       (revoked i ++ [mkRevocation r (inv_generation i')])) i' dropped
}.

Lemma existsb_false {A} (f : A -> bool) l x : existsb f l = false -> x ∈ l -> f x = false.
Proof.
  intros H Hx. destruct (f x) eqn:E1; [|done]. rewrite <- H. symmetry. apply existsb_exists. exists x.
  by rewrite <- list_elem_of_In.
Qed.

Lemma binding_is_new_spec i b u :
  binding_is_new (E := E) i b = Ok u ->
  (device_id b ∉ device_id <$> bindings i) /\ (identity_public_key b ∉ identity_public_key <$> bindings i).
Proof.
  unfold binding_is_new. intros H.
  repeat match type of H with (if ?c then _ else _) = _ => let G := fresh "G" in destruct c eqn:G; [done|] end.
  unfold bindings. rewrite !fmap_app, !not_elem_of_app. split_and!; intros Hin.
  - apply list_elem_of_fmap in Hin as (x & Hx & Hin). apply (existsb_false _ _ _ G0) in Hin. bool_prop. done.
  - apply list_elem_of_fmap in Hin as (y & Hx & Hin). apply list_elem_of_fmap in Hin as (x & -> & Hin).
    apply (existsb_false _ _ _ G3) in Hin. bool_prop. done.
  - apply list_elem_of_fmap in Hin as (x & Hx & Hin). apply (existsb_false _ _ _ G1) in Hin. bool_prop. done.
  - apply list_elem_of_fmap in Hin as (y & Hx & Hin). apply list_elem_of_fmap in Hin as (x & -> & Hin).
    apply (existsb_false _ _ _ G4) in Hin. bool_prop. done.
Qed.

Lemma check_admitted b u : check_supplied_binding (E := E) b = Ok u -> admitted b.
Proof. unfold check_supplied_binding, admitted. by destruct (validate_identity_key _) as [[]|]. Qed.

Lemma checked_add64_inv a b c : checked_add64 a b = Some c -> c = a + b /\ c <= u64_max.
Proof. unfold checked_add64. destruct (_ <=? _) eqn:H; [|done]. bool_prop. by intros [= <-]. Qed.

Lemma link_spec h i pg b i' :
  link_inventory h i pg b = Ok i' ->
  inv_generation i = pg /\ inv_generation i' = inv_generation i + 1 /\ inv_generation i' <= u64_max /\
  adds b i i' /\ exists bs, encode_unsigned h i' = Ok bs.
Proof.
  unfold link_inventory, validate_inventory. intros H. inv_bind. bool_prop.
  match goal with H : check_supplied_binding _ = _ |- _ => apply check_admitted in H end.
  match goal with H : binding_is_new _ _ = _ |- _ => apply binding_is_new_spec in H as [? ?] end.
  match goal with H : checked_add64 _ _ = _ |- _ => apply checked_add64_inv in H as [? ?] end.
  cbn. split_and!; try done; [|by eexists]. split; try done. cbn. by rewrite sort_by_perm, Permutation_app_comm.
Qed.

Lemma revoke_spec h i pg r i' :
  revoke_inventory h i pg r = Ok i' -> inv_generation i = pg /\ retires r i i' /\ exists bs, encode_unsigned h i' = Ok bs.
Proof.
  unfold revoke_inventory, validate_inventory. intros H. inv_bind. bool_prop.
  match goal with H : list_find _ _ = _ |- _ => apply list_find_Some in H as (Hl & -> & _) end.
  match goal with H : checked_add64 _ _ = _ |- _ => apply checked_add64_inv in H as [? ?] end. subst.
  match goal with |- context [compact_revocations ?j] => destruct (compact_spec j) as [d Hd];
    set (m := compact_revocations j) in *; clearbody m end.
  pose proof (ct_active _ _ _ Hd) as Ha. pose proof (ct_generation _ _ _ Hd) as Hg. cbn in Ha, Hg.
  split_and!; try done; [|by eexists]. split.
  - rewrite Ha. by apply delete_Permutation.
  - done.
  - lia.
  - exists d. rewrite Ha, Hg. exact Hd.
Qed.

Lemma replace_spec h i pg r b i' :
  replace_inventory h i pg r b = Ok i' ->
  inv_generation i = pg /\ (exists c, binding_commitment r = Ok c /\ replacement_predecessor b = Some c) /\
  (exists m, retires r i m /\ adds b m i' /\ inv_generation i' = inv_generation m) /\ exists bs, encode_unsigned h i' = Ok bs.
Proof.
  unfold replace_inventory, validate_inventory. intros H. inv_bind. bool_prop.
  match goal with H : revoke_inventory _ _ _ _ = _ |- _ => apply revoke_spec in H as (? & ? & _) end.
  repeat match goal with H : check_supplied_binding _ = _ |- _ => apply check_admitted in H end.
  match goal with H : binding_is_new _ _ = _ |- _ => apply binding_is_new_spec in H as [? ?] end.
  split_and!; try done; [by eexists| |by eexists]. eexists. split_and!; [done| |done].
  split; try done. cbn. by rewrite sort_by_perm, Permutation_app_comm.
Qed.

(** *** The invariant *)
Lemma adds_bindings b i i' : adds b i i' -> bindings i' ≡ₚ b :: bindings i.
Proof. intros H. unfold bindings. by rewrite (ad_active _ _ _ H), (ad_revoked _ _ _ H). Qed.

Lemma adds_ok b i i' :
  inventory_ok i -> adds b i i' -> inv_generation i <= inv_generation i' <= u64_max -> inventory_ok i'.
Proof.
  intros [H1 H2 H3 H4 H5 H6 H7 H8] Ha Hg. pose proof (adds_bindings _ _ _ Ha) as Hb.
  destruct Ha as [A1 A2 A3 A4 A5 A6]. split; rewrite ?A5, ?A6; try done; try lia.
  - rewrite Hb. by constructor.
  - rewrite Hb. by constructor.
  - rewrite Hb. by constructor.
  - eapply Forall_impl; [exact H7|]. cbn. lia.
Qed.

(** Every entry of the memory before compaction. *)
Lemma retires_entries r i i' dropped :
  compacted_to (mkInventory (inv_generation i') (active i') (revocation_floor_generation i)
    (revoked i ++ [mkRevocation r (inv_generation i')])) i' dropped ->
  revoked i ++ [mkRevocation r (inv_generation i')] ≡ₚ dropped ++ revoked i'.
Proof. intros H. apply (ct_split _ _ _ H). Qed.

Lemma retires_terminal r i i' : inventory_ok i -> retires r i i' ->
  NoDup (terminal_generation <$> (revoked i ++ [mkRevocation r (inv_generation i')])) /\
  Forall (fun x => revocation_floor_generation i < terminal_generation x <= inv_generation i')
    (revoked i ++ [mkRevocation r (inv_generation i')]).
Proof.
  intros [H1 H2 H3 H4 H5 H6 H7 H8] [R1 R2 R3 _]. split.
  - rewrite fmap_app. apply NoDup_snoc; [|done]. intros (x & Hx & Hin)%list_elem_of_fmap. cbn in Hx.
    rewrite Forall_forall in H7. specialize (H7 x Hin). lia.
  - apply Forall_app. split; [|constructor; [cbn; lia|done]]. eapply Forall_impl; [exact H7|]. cbn. lia.
Qed.

Lemma retires_bindings r i i' dropped :
  retires r i i' -> revoked i ++ [mkRevocation r (inv_generation i')] ≡ₚ dropped ++ revoked i' ->
  bindings i ≡ₚ (rv_binding <$> dropped) ++ bindings i'.
Proof.
  intros Hr Hp. unfold bindings. rewrite (rt_active _ _ _ Hr).
  apply (fmap_Permutation rv_binding) in Hp. rewrite !fmap_app in Hp. cbn in Hp.
  transitivity (active i' ++ ((rv_binding <$> revoked i) ++ [r])); [|rewrite Hp; solve_Permutation].
  rewrite (Permutation_app_comm (rv_binding <$> revoked i) [r]). cbn. by rewrite Permutation_middle.
Qed.

Lemma retires_ok r i i' : inventory_ok i -> retires r i i' -> inventory_ok i'.
Proof.
  intros Hi Hr. destruct (retires_terminal r i i' Hi Hr) as [Hnd Hrange]. pose proof Hi as [H1 H2 H3 H4 H5 H6 H7 H8].
  pose proof Hr as [R1 R2 R3 (d & Hd)]. pose proof (retires_entries _ _ _ _ Hd) as Hp.
  pose proof (retires_bindings _ _ _ _ Hr Hp) as Hb. rewrite Hp in Hnd, Hrange. rewrite fmap_app in Hnd.
  apply NoDup_app in Hnd as (Hnd1 & Hdis & Hnd2). apply Forall_app in Hrange as [Hr1 Hr2].
  destruct Hd as [D1 D2 D3 D4 D5 D6 D7 D8]. cbn in *.
  assert (revocation_floor_generation i' <= inv_generation i') as Hfl.
  { destruct D7 as [->|(x & -> & Hx)%list_elem_of_fmap]; [lia|]. rewrite Forall_forall in Hr1. specialize (Hr1 x Hx). lia. }
  split; try done; try lia.
  - rewrite Hb, fmap_app in H3. by apply NoDup_app in H3 as (_ & _ & ?).
  - rewrite Hb, fmap_app in H4. by apply NoDup_app in H4 as (_ & _ & ?).
  - rewrite Hb in H5. by apply Forall_app in H5 as [_ ?].
  - apply Forall_forall. intros x Hx. rewrite Forall_forall in Hr2. specialize (Hr2 x Hx). split; [|lia].
    destruct D7 as [->|(y & -> & Hy)%list_elem_of_fmap]; [lia|].
    rewrite Forall_forall in D8. specialize (D8 y Hy). rewrite Forall_forall in D8. specialize (D8 x Hx).
    assert (terminal_generation y <> terminal_generation x); [|lia]. intros Heq.
    apply (Hdis (terminal_generation y)); [by apply list_elem_of_fmap_2|]. rewrite Heq. by apply list_elem_of_fmap_2.
Qed.

Lemma inventory_default_ok : inventory_ok inventory_default.
Proof.
  destruct (core_maxima (E := E)) as [_ Hm]. split; cbn; try constructor; try done. rewrite len_nil. lia.
Qed.

Lemma step_ok h i i' : inventory_ok i -> inventory_step h i i' -> inventory_ok i' /\ inv_generation i' = inv_generation i + 1.
Proof.
  intros Hi [pg b H|pg r H|pg r b H].
  - apply link_spec in H as (_ & Hg & Hm & Ha & _). split; [|done]. eapply adds_ok; [exact Hi|exact Ha|lia].
  - apply revoke_spec in H as (_ & Hr & _). split; [by eapply retires_ok|by apply (rt_generation _ _ _ Hr)].
  - apply replace_spec in H as (_ & _ & (m & Hr & Ha & Hg) & _). pose proof (rt_generation _ _ _ Hr). pose proof (rt_range _ _ _ Hr).
    split; [|lia]. eapply adds_ok; [by eapply retires_ok|exact Ha|lia].
Qed.

(** *** How long a retired device is remembered *)
Lemma below_count (l : list Z) a b : NoDup l -> Forall (fun x => a < x <= b) l -> a <= b -> Z.of_nat (length l) <= b - a.
Proof.
  intros Hnd Hf Hab. assert (length l <= length (seqZ (a + 1) (b - a)))%nat as Hle.
  { apply submseteq_length, NoDup_submseteq; [done|]. intros x Hx. rewrite Forall_forall in Hf. specialize (Hf x Hx).
    apply elem_of_seqZ. lia. }
  rewrite length_seqZ in Hle. lia.
Qed.

Lemma retires_remembers r x i i' :
  inventory_ok i -> retires r i i' -> x ∈ revoked i ++ [mkRevocation r (inv_generation i')] ->
  inv_generation i' < terminal_generation x + MAX_RECENT_REVOCATIONS -> x ∈ revoked i'.
Proof.
  intros Hi Hr Hx Hg. destruct (retires_terminal r i i' Hi Hr) as [Hnd Hrange].
  pose proof Hr as [R1 R2 R3 (d & Hd)]. pose proof (retires_entries _ _ _ _ Hd) as Hp.
  rewrite Hp in Hx, Hnd, Hrange. apply elem_of_app in Hx as [Hx|Hx]; [|done].
  destruct Hd as [D1 D2 D3 D4 D5 D6 D7 D8]. exfalso.
  rewrite fmap_app in Hnd. apply NoDup_app in Hnd as (_ & Hdis & Hnd). apply Forall_app in Hrange as [Hr1 Hr2].
  rewrite Forall_forall in Hr1. specialize (Hr1 x Hx).
  assert (Z.of_nat (length (terminal_generation <$> revoked i')) <= inv_generation i' - terminal_generation x) as Hc.
  { apply below_count; [done| |lia]. apply Forall_fmap, Forall_forall. intros y Hy. cbn.
    rewrite Forall_forall in Hr2. specialize (Hr2 y Hy). split; [|lia].
    rewrite Forall_forall in D8. specialize (D8 x Hx). rewrite Forall_forall in D8. specialize (D8 y Hy).
    assert (terminal_generation x <> terminal_generation y); [|lia]. intros Heq.
    apply (Hdis (terminal_generation x)); [by apply list_elem_of_fmap_2|]. rewrite Heq. by apply list_elem_of_fmap_2. }
  rewrite length_fmap in Hc. assert (d <> []) as Hne by (intros ->; by apply elem_of_nil in Hx). specialize (D5 Hne).
  unfold len in D5. lia.
Qed.

Lemma step_remembers h i i' x :
  inventory_ok i -> inventory_step h i i' -> x ∈ revoked i ->
  inv_generation i' < terminal_generation x + MAX_RECENT_REVOCATIONS -> x ∈ revoked i'.
Proof.
  intros Hi [pg b H|pg r H|pg r b H] Hx Hg.
  - apply link_spec in H as (_ & _ & _ & Ha & _). by rewrite (ad_revoked _ _ _ Ha).
  - apply revoke_spec in H as (_ & Hr & _). eapply retires_remembers; [done..| |done]. apply elem_of_app. by left.
  - apply replace_spec in H as (_ & _ & (m & Hr & Ha & Hm) & _). rewrite (ad_revoked _ _ _ Ha).
    eapply retires_remembers; [done..| |lia]. apply elem_of_app. by left.
Qed.

Lemma lifecycle_run_ok h i i' n : inventory_ok i -> nsteps (inventory_step h) n i i' ->
  inventory_ok i' /\ inv_generation i' = inv_generation i + Z.of_nat n.
Proof.
  intros Hi Hn. induction Hn as [i|n i m i' Hs Hn IH]; [split; [done|lia]|].
  destruct (step_ok h i m Hi Hs) as [Hm Hg]. destruct (IH Hm) as [? ?]. split; [done|lia].
Qed.

Lemma run_remembers h i i' n x :
  inventory_ok i -> nsteps (inventory_step h) n i i' -> x ∈ revoked i ->
  inv_generation i' < terminal_generation x + MAX_RECENT_REVOCATIONS -> x ∈ revoked i'.
Proof.
  intros Hi Hn. induction Hn as [i|n i m i' Hs Hn IH]; intros Hx Hg; [done|].
  destruct (step_ok h i m Hi Hs) as [Hm _]. destruct (lifecycle_run_ok h m i' n Hm Hn) as [_ Hg2].
  apply IH; [done| |done]. apply (step_remembers h i m x Hi Hs Hx). lia.
Qed.

Lemma remembered_refused h i x pg b r :
  x ∈ revoked i -> device_id b = device_id (rv_binding x) \/ identity_public_key b = identity_public_key (rv_binding x) ->
  (forall i', link_inventory h i pg b <> Ok i') /\
  (inventory_ok i -> inv_generation i + 1 < terminal_generation x + MAX_RECENT_REVOCATIONS ->
   forall i', replace_inventory h i pg r b <> Ok i').
Proof.
  intros Hx Hb.
  assert (forall j k, x ∈ revoked j -> adds b j k -> False) as Hno.
  { intros j k Hj [A1 A2 _ _ _ _]. unfold bindings in A1, A2.
    destruct Hb as [Hb|Hb]; [apply A1|apply A2]; rewrite Hb; apply list_elem_of_fmap_2, elem_of_app; right;
      by apply list_elem_of_fmap_2. }
  split.
  - intros i' H. apply link_spec in H as (_ & _ & _ & Ha & _). by eapply Hno.
  - intros Hi Hg i' H. apply replace_spec in H as (_ & _ & (m & Hr & Ha & Hm) & _). pose proof (rt_generation _ _ _ Hr).
    eapply Hno; [|exact Ha]. eapply retires_remembers; [done..| |lia]. apply elem_of_app. by left.
Qed.
End Invariant.

(** ** The encodings are exact *)
Definition binding_wf (b : DeviceBinding) : Prop :=
  u32_wf (device_id b) /\ len (identity_public_key b) = 32 /\ u64_wf (capabilities b) /\
  match replacement_predecessor b with Some p => len p = 32 | None => True end.

Definition revocation_wf (r : Revocation) : Prop := binding_wf (rv_binding r) /\ u64_wf (terminal_generation r).

Lemma take_hash_app h rest : len h = 32 -> take_hash (h ++ rest) = Some (h, rest).
Proof. intros. by apply split_at_checked_app. Qed.

Lemma take_hash_inv bs h rest : take_hash bs = Some (h, rest) -> len h = 32 /\ bs = h ++ rest.
Proof. intros H. apply split_at_checked_Some in H as [-> ->]; [done|lia]. Qed.

#[global] Instance frames_binding : Frames binding_wf (fun b => Some (put_binding b)) take_binding.
Proof.
  split.
  - intros [d k c p] bs rest (Hd & Hk & Hc & Hp) [= <-]. cbn [replacement_predecessor] in Hp.
    unfold put_binding, take_binding. cbn [device_id identity_public_key capabilities replacement_predecessor] in *.
    rewrite <- !app_assoc, take_u32_app by done. cbn [mbind option_bind]. rewrite take_hash_app by done. cbn [mbind option_bind].
    rewrite take_u64_app by done. cbn [mbind option_bind]. destruct p as [p|]; cbn; [|done]. by rewrite take_hash_app.
  - intros input b rest H. unfold take_binding in H. inv_bind.
    repeat match goal with H : take_hash _ = Some _ |- _ => apply take_hash_inv in H as [? ->] end. frames_inv.
    destruct l2 as [|present l]; [done|].
    destruct (byte_val present =? 0) eqn:E0; [|destruct (byte_val present =? 1) eqn:E1]; inv_bind; bool_prop.
    + assert (present = x00) as -> by (by apply byte_val_inj). split; [done|]. eexists. split; [done|].
      unfold put_binding. cbn. by rewrite <- !app_assoc.
    + repeat match goal with H : take_hash _ = Some _ |- _ => apply take_hash_inv in H as [? ->] end.
      assert (present = x01) as -> by (by apply byte_val_inj). split; [done|]. eexists. split; [done|].
      unfold put_binding. cbn. by rewrite <- !app_assoc.
    + done.
Qed.

#[global] Instance frames_revocation : Frames revocation_wf (fun r => Some (put_revocation r)) take_revocation.
Proof.
  split.
  - intros [b g] bs rest [Hb Hg] [= <-]. unfold put_revocation, take_revocation. cbn [rv_binding terminal_generation].
    rewrite <- app_assoc. erewrite (frames_take_put (take := take_binding)) by done. cbn [mbind option_bind].
    by rewrite take_u64_app.
  - intros input r rest H. unfold take_revocation in H. inv_bind. frames_inv.
    match goal with H : take_binding _ = Some _ |- _ => apply frames_put_take in H as (? & ? & [= <-] & ->) end.
    split; [done|]. eexists. split; [done|]. unfold put_revocation. cbn. by rewrite <- app_assoc.
Qed.

Definition inventory_wf {E} `{!InventoryCore E} (i : DeviceInventory) : Prop :=
  u64_wf (inv_generation i) /\ u64_wf (revocation_floor_generation i) /\
  Forall binding_wf (active i) /\ len (active i) <= MAX_ACTIVE_BINDINGS /\
  Forall revocation_wf (revoked i) /\ len (revoked i) <= MAX_RECENT_REVOCATIONS.

Lemma put_many_total_put {A} (put : A -> bytes) l : put_many (fun x => Some (put x)) l = Some (mjoin (put <$> l)).
Proof. unfold put_many. induction l as [|x l IH]; cbn; [done|]. apply fmap_Some in IH as (k & -> & Hk). cbn. by rewrite <- Hk. Qed.

#[global] Instance frames_inventory {E} `{!InventoryCore E, !InventoryCoreLaws E} :
  Frames inventory_wf (fun i => Some (encode_inventory i)) take_inventory.
Proof.
  destruct (core_maxima (E := E)) as [Ha Hr]. split.
  - intros [g a f r] bs rest (Hg & Hf & Hab & Hal & Hrb & Hrl) [= <-]. unfold encode_inventory, take_inventory. cbn in *.
    assert (u32_wf (len a)) as Hla by (unfold u32_wf; len_lia). assert (u32_wf (len r)) as Hlr by (unfold u32_wf; len_lia).
    rewrite <- !app_assoc, take_u64_app by done. cbn [mbind option_bind]. rewrite take_u32_app by done. cbn [mbind option_bind].
    destruct (_ >? _) eqn:E1; bool_prop; [lia|]. rewrite to_nat_len.
    rewrite (take_many_put (wf := binding_wf) a _ _ Hab (put_many_total_put put_binding a)). cbn [mbind option_bind].
    rewrite take_u64_app by done. cbn [mbind option_bind]. rewrite take_u32_app by done. cbn [mbind option_bind].
    destruct (len r >? _) eqn:E2; bool_prop; [lia|]. rewrite to_nat_len.
    by rewrite (take_many_put (wf := revocation_wf) r _ _ Hrb (put_many_total_put put_revocation r)).
  - intros input i rest H. unfold take_inventory in H. inv_bind. frames_inv. bool_prop.
    repeat match goal with H : take_many _ _ _ = Some _ |- _ => apply put_many_take in H as (? & ? & ? & ? & ->) end.
    repeat match goal with H : put_many _ _ = Some _ |- _ => rewrite put_many_total_put in H; injection H as <- end.
    assert (len l1 = z0) as Hl by (unfold len, u32_wf in *; lia). assert (len l5 = z2) as Hl0 by (unfold len, u32_wf in *; lia).
    split; [|eexists; split; [done|]].
    + unfold inventory_wf. cbn. split_and!; try done; lia.
    + unfold encode_inventory. cbn. by rewrite Hl, Hl0, <- !app_assoc.
Qed.

Lemma decode_encode_inventory {E} `{!InventoryCore E, !InventoryCoreLaws E} i :
  inventory_wf i -> decode_inventory (encode_inventory i) = Some i.
Proof.
  intros Hi. unfold decode_inventory. pose proof (frames_take_put (take := take_inventory) i _ [] Hi eq_refl) as H.
  rewrite app_nil_r in H. by rewrite H.
Qed.

Lemma decode_inventory_inv {E} `{!InventoryCore E, !InventoryCoreLaws E} bs i :
  decode_inventory bs = Some i -> bs = encode_inventory i /\ inventory_wf i.
Proof.
  unfold decode_inventory. intros H. inv_bind. apply then_some_Some in H as [-> ->].
  apply frames_put_take in E0 as (? & ? & [= <-] & ->). by rewrite app_nil_r.
Qed.

(** *** Requests *)
Lemma binding_prefix b c x y :
  binding_wf b -> binding_wf c -> put_binding b ++ x = put_binding c ++ y -> b = c /\ x = y.
Proof.
  intros Hb Hc H. pose proof (frames_take_put (take := take_binding) b _ x Hb eq_refl) as H1.
  rewrite H, (frames_take_put (take := take_binding) c _ y Hc eq_refl) in H1. by simplify_eq.
Qed.

Lemma len_put_binding b : binding_wf b -> len (put_binding b) = 45 \/ len (put_binding b) = 77.
Proof.
  intros (_ & Hk & _ & Hp). unfold put_binding, put_u32. rewrite !len_app, !len_be_bytes, Hk.
  destruct (replacement_predecessor b) as [p|]; rewrite ?len_cons, ?len_nil, ?Hp; lia.
Qed.

Lemma be64_prefix a b x y : u64_wf a -> u64_wf b -> be64 a ++ x = be64 b ++ y -> a = b /\ x = y.
Proof.
  intros Ha Hb H. pose proof (take_u64_app a x Ha) as H1. rewrite H, (take_u64_app b y Hb) in H1. by simplify_eq.
Qed.

(** What a stored inventory satisfies: the invariant, the ranges of its types,
    and the core's acceptance under the account's handle. *)
Record stored_inventory {E} `{!InventoryCore E} (h : bytes) (i : DeviceInventory) : Prop := {
  si_ok : inventory_ok i;
  si_wf : inventory_wf i;
  si_valid : exists bs, encode_unsigned h i = Ok bs
}.

Definition request_wf (r : LifecycleRequest) : Prop :=
  match r with
  | Replace pg retired replacement => u64_wf pg /\ binding_wf retired /\ binding_wf replacement
  | Revoke pg retired => u64_wf pg /\ binding_wf retired
  end.

Definition request_predecessor (r : LifecycleRequest) : Z := match r with Replace pg _ _ | Revoke pg _ => pg end.

Section Stored.
Context {E : Type} `{!InventoryCore E, !InventoryCoreLaws E}.

Lemma wf_of_parts h i bs :
  inventory_ok i -> encode_unsigned h i = Ok bs -> Forall binding_wf (bindings i) -> stored_inventory h i.
Proof.
  intros Hi He Hb. unfold bindings in Hb. apply Forall_app in Hb as [Ha Hr]. pose proof Hi as [H1 H2 _ _ _ _ H7 H8].
  split; [done| |by exists bs]. unfold inventory_wf, u64_wf. split_and!; try done; try lia.
  - by eapply core_active.
  - rewrite Forall_fmap in Hr. apply Forall_forall. intros r Hin. rewrite Forall_forall in H7. specialize (H7 r Hin).
    split; [by apply (proj1 (Forall_forall _ _) Hr)|]. unfold u64_wf. lia.
Qed.

Lemma wf_bindings i : inventory_wf i -> Forall binding_wf (bindings i).
Proof.
  intros (_ & _ & Ha & _ & Hr & _). apply Forall_app. split; [done|]. apply Forall_fmap.
  eapply Forall_impl; [exact Hr|]. by intros r [? _].
Qed.

Lemma retires_wf r i i' : retires r i i' -> Forall binding_wf (bindings i) -> Forall binding_wf (bindings i').
Proof.
  intros Hr Hb. pose proof Hr as [_ _ _ (d & Hd)]. rewrite (retires_bindings _ _ _ _ Hr (retires_entries _ _ _ _ Hd)) in Hb.
  by apply Forall_app in Hb as [_ ?].
Qed.

Lemma link_stored h i pg b i' :
  inventory_ok i -> inventory_wf i -> binding_wf b -> link_inventory h i pg b = Ok i' ->
  stored_inventory h i' /\ inv_generation i' = pg + 1.
Proof.
  intros Hi Hw Hb H. destruct (step_ok h i i' Hi (step_link _ _ _ _ _ H)) as [Hi' _].
  apply link_spec in H as (<- & Hg & _ & Ha & bs & He). split; [|done]. eapply wf_of_parts; [done..|].
  rewrite (adds_bindings _ _ _ Ha). constructor; [done|by apply wf_bindings].
Qed.

Lemma revoke_stored h i pg r i' :
  inventory_ok i -> inventory_wf i -> revoke_inventory h i pg r = Ok i' ->
  stored_inventory h i' /\ inv_generation i' = pg + 1.
Proof.
  intros Hi Hw H. destruct (step_ok h i i' Hi (step_revoke _ _ _ _ _ H)) as [Hi' Hg].
  apply revoke_spec in H as (<- & Hr & bs & He). split; [|done]. eapply wf_of_parts; [done..|].
  eapply retires_wf; [done|by apply wf_bindings].
Qed.

Lemma replace_stored h i pg r b i' :
  inventory_ok i -> inventory_wf i -> binding_wf b -> replace_inventory h i pg r b = Ok i' ->
  stored_inventory h i' /\ inv_generation i' = pg + 1.
Proof.
  intros Hi Hw Hb H. destruct (step_ok h i i' Hi (step_replace _ _ _ _ _ _ H)) as [Hi' Hg].
  apply replace_spec in H as (<- & _ & (m & Hr & Ha & _) & bs & He). split; [|done]. eapply wf_of_parts; [done..|].
  rewrite (adds_bindings _ _ _ Ha). constructor; [done|]. eapply retires_wf; [done|by apply wf_bindings].
Qed.

Lemma inventory_default_wf : inventory_wf inventory_default.
Proof.
  destruct (core_maxima (E := E)) as [Ha Hr]. unfold inventory_wf, u64_wf, len. cbn.
  split_and!; try lia; try apply Forall_nil_2; by vm_compute.
Qed.
End Stored.

(** C28. The device lifecycle.  Over any run of accepted links, retirements and
    replacements of an account, each step moves the generation by exactly one,
    no two bindings of the inventory, retired ones included, share a device id
    or an identity key, at most the maximum of retirements is remembered, all
    of them above the floor, and a device that was retired is still remembered,
    and neither its id nor its key can be linked or swapped in again, until
    that many generations have passed. *)
Theorem inventory_lifecycle {E} `{!InventoryCore E, !InventoryCoreLaws E} h n i :
  nsteps (inventory_step h) n inventory_default i ->
  inventory_ok i /\ inv_generation i = Z.of_nat n /\
  forall m i' x, nsteps (inventory_step h) m i i' -> x ∈ revoked i ->
    inv_generation i' + 1 < terminal_generation x + MAX_RECENT_REVOCATIONS ->
    x ∈ revoked i' /\
    forall b pg r next, device_id b = device_id (rv_binding x) \/ identity_public_key b = identity_public_key (rv_binding x) ->
      link_inventory h i' pg b <> Ok next /\ replace_inventory h i' pg r b <> Ok next.
Proof.
  intros Hn. destruct (lifecycle_run_ok h _ i n inventory_default_ok Hn) as [Hi Hg]. split_and!; [done|by rewrite Hg|].
  intros m i' x Hm Hx Hlt. destruct (lifecycle_run_ok h i i' m Hi Hm) as [Hi' _].
  assert (x ∈ revoked i') as Hx' by (eapply run_remembers; [exact Hi|exact Hm|done|lia]). split; [done|].
  intros b pg r next Hb. destruct (remembered_refused h i' x pg b r Hx' Hb) as [Hl Hr]. split; [apply Hl|by apply Hr].
Qed.

(** A core for the witnesses. *)
#[global] Instance sample_core : InventoryCore unit := {|
  validate_identity_key := fun k => if len k =? 32 then Ok tt else Err tt;
  binding_commitment := fun b => Ok (be_bytes 32 (device_id b));
  encode_unsigned := fun _ i => if (len (active i) <=? 8) && (len (revoked i) <=? 8) then Ok [] else Err tt;
  binding_cmp := fun b c => device_id b ?= device_id c;
  revocation_cmp := fun r s => terminal_generation r ?= terminal_generation s;
  MAX_ACTIVE_BINDINGS := 8;
  MAX_RECENT_REVOCATIONS := 8
|}.

#[global] Instance sample_core_laws : InventoryCoreLaws unit.
Proof.
  split; cbn.
  - intros h i bs H. inv_bind. bool_prop. done.
  - intros h i bs H. inv_bind. bool_prop. done.
  - intros b c [= <-]. by rewrite len_be_bytes.
  - unfold u32_max. lia.
Qed.

Definition sample_device (n : Z) (p : option bytes) : DeviceBinding := mkBinding n (be_bytes 32 n) 1 p.

Lemma inventory_lifecycle_witness :
  exists i, nsteps (inventory_step []) 3 inventory_default i /\ inventory_ok i /\ inv_generation i = 3 /\
    (device_id <$> active i) = [2] /\ link_inventory [] i 3 (sample_device 1 None) <> Ok i.
Proof.
  set (r1 := link_inventory [] inventory_default 0 (sample_device 1 None)).
  set (i1 := match r1 with Ok i => i | Err _ => inventory_default end).
  set (r2 := link_inventory [] i1 1 (sample_device 2 None)).
  set (i2 := match r2 with Ok i => i | Err _ => inventory_default end).
  set (r3 := revoke_inventory [] i2 2 (sample_device 1 None)).
  set (i3 := match r3 with Ok i => i | Err _ => inventory_default end).
  assert (nsteps (inventory_step []) 3 inventory_default i3) as H3.
  { eapply nsteps_l; [apply (step_link [] _ i1 0 (sample_device 1 None)); by vm_compute|].
    eapply nsteps_l; [apply (step_link [] _ i2 1 (sample_device 2 None)); by vm_compute|].
    eapply nsteps_l; [apply (step_revoke [] _ i3 2 (sample_device 1 None)); by vm_compute|]. apply nsteps_O. }
  destruct (inventory_lifecycle [] 3 i3 H3) as (Hi & Hg & Hr). exists i3. split_and!; [exact H3|exact Hi|exact Hg|by vm_compute|].
  apply (Hr 0%nat i3 (mkRevocation (sample_device 1 None) 3) (nsteps_O _ _)) with (r := sample_device 1 None).
  - vm_compute. left.
  - by vm_compute.
  - by left.
Defined.
