(* ===== verification/Accounts.v ===== *)
(** * Accounts: tenants, users, keys, sessions and their devices
    ([tacenta-accounts/src/lib.rs], [tacenta-accounts/src/id.rs])

    The in-memory account store.  What it takes from outside is an argument of
    the operation (the clock, random bytes) or a parameter of the section: the
    password hash, SHA-256, the Unicode tables behind [trim] and [to_lowercase]
    (used on text that is not ASCII only), the order a [HashMap] iterates in and
    the core's inventory rules. *)

From S2P Require Import Prelude Framing RateLimit Inventory.

(** ** Identifiers *)
Definition CROCKFORD : bytes := bstr "0123456789ABCDEFGHJKMNPQRSTVWXYZ".

(** [for slot in out.iter_mut().rev() { *slot = CROCKFORD[value & 0x1F]; value >>= 5 }]. *)
Fixpoint base32 (slots : nat) (value : Z) : bytes :=
  match slots with
  | O => []
  | S slots => base32 slots (Z.shiftr value 5) ++ [nth (Z.to_nat (Z.land value 31)) CROCKFORD x00]
  end.

(** The low six bytes of [ms], then the ten random bytes, as one number. *)
Definition ulid (ms : Z) (random : bytes) : bytes :=
  let bs := be_bytes 6 (Z.land ms 281474976710655) ++ random in
  base32 26 (be_value bs).

Definition prefixed (prefix : bytes) (ms : Z) (random : bytes) : bytes := prefix ++ bstr "_" ++ ulid ms random.

(** [hex]: two lowercase digits a byte. *)
Definition hex_digit (n : Z) : byte := nth (Z.to_nat n) (bstr "0123456789abcdef") x00.
Definition hex (bs : bytes) : bytes := mjoin ((fun b => [hex_digit (byte_val b / 16); hex_digit (byte_val b mod 16)]) <$> bs).

Definition random_token (prefix random : bytes) : bytes := prefix ++ bstr "_" ++ hex random.

Definition KEY_PREFIX_LEN : nat := 12.
(** [chars().take(KEY_PREFIX_LEN)] of a key, which is ASCII. *)
Definition key_prefix (key : bytes) : bytes := take KEY_PREFIX_LEN key.

(** ** Text *)
Definition is_ascii (bs : bytes) : bool := forallb (in_byte 0 127) bs.
Definition ascii_whitespace (b : byte) : bool := in_byte 9 13 b || in_byte 32 32 b.
Definition ascii_lowercase (b : byte) : byte := if in_byte 65 90 b then byte_of (byte_val b + 32) else b.

Fixpoint trim_start (bs : bytes) : bytes :=
  match bs with [] => [] | b :: bs' => if ascii_whitespace b then trim_start bs' else bs end.
Definition ascii_trim (bs : bytes) : bytes := rev (trim_start (rev (trim_start bs))).

(** [chars().count()]: the bytes that do not continue a character. *)
Definition char_count (bs : bytes) : Z := len (filter (fun b => in_byte 128 191 b = false) bs).

Definition username_byte (b : byte) : bool :=
  in_byte 48 57 b || in_byte 65 90 b || in_byte 97 122 b || in_byte 46 46 b || in_byte 95 95 b || in_byte 45 45 b.

(** [split('@')]. *)
Fixpoint split_on (sep : byte) (bs : bytes) : list bytes :=
  match bs with
  | [] => [[]]
  | b :: bs =>
      if bool_decide (b = sep) then [] :: split_on sep bs
      else match split_on sep bs with [] => [[b]] | p :: ps => (b :: p) :: ps end
  end.

(** ** State *)
Record TenantRecord := mkTenant { tr_id : bytes; tr_username : bytes; tr_email : bytes; tr_password_hash : bytes }.
Record UserRecord := mkUser { ur_tenant : bytes; ur_username : bytes; ur_password_hash : bytes }.
Record ApiKeyRecord := mkApiKey { ak_tenant : bytes; ak_prefix : bytes; ak_label : option bytes; ak_created_at : Z }.
Record ApiKeyInfo := mkKeyInfo { ki_prefix : bytes; ki_label : option bytes; ki_created_at : Z }.

Record Accounts := mkAccounts {
  tenants : gmap bytes TenantRecord;
  tenant_by_username : gmap bytes bytes;
  tenant_by_email : gmap bytes bytes;
  api_keys : gmap bytes ApiKeyRecord;
  users : gmap (bytes * bytes) UserRecord;
  device_inventories : gmap (bytes * bytes) DeviceInventory;
  inventory_mutations : gmap (bytes * bytes * bytes) InventoryMutation;
  inventory_lifecycle_mutations : gmap (bytes * bytes * bytes) LifecycleMutation;
  sessions : gmap bytes (bytes * bytes * Z);
  limiter : AuthLimiter
}.

Definition accounts_new : Accounts := mkAccounts ∅ ∅ ∅ ∅ ∅ ∅ ∅ ∅ ∅ auth_default.

Definition with_tenants (a : Accounts) t u e k : Accounts :=
  mkAccounts t u e k (users a) (device_inventories a) (inventory_mutations a) (inventory_lifecycle_mutations a)
    (sessions a) (limiter a).
Definition with_api_keys (a : Accounts) k : Accounts := with_tenants a (tenants a) (tenant_by_username a) (tenant_by_email a) k.
Definition with_users (a : Accounts) u : Accounts :=
  mkAccounts (tenants a) (tenant_by_username a) (tenant_by_email a) (api_keys a) u (device_inventories a)
    (inventory_mutations a) (inventory_lifecycle_mutations a) (sessions a) (limiter a).
Definition with_inventory (a : Accounts) i m l : Accounts :=
  mkAccounts (tenants a) (tenant_by_username a) (tenant_by_email a) (api_keys a) (users a) i m l (sessions a) (limiter a).
Definition with_sessions (a : Accounts) s : Accounts :=
  mkAccounts (tenants a) (tenant_by_username a) (tenant_by_email a) (api_keys a) (users a) (device_inventories a)
    (inventory_mutations a) (inventory_lifecycle_mutations a) s (limiter a).
Definition with_limiter (a : Accounts) l : Accounts :=
  mkAccounts (tenants a) (tenant_by_username a) (tenant_by_email a) (api_keys a) (users a) (device_inventories a)
    (inventory_mutations a) (inventory_lifecycle_mutations a) (sessions a) l.

Inductive SignupError := UsernameTaken | EmailTaken | InvalidUsername | InvalidEmail | WeakPassword | UnknownTenant.
Inductive AuthError := InvalidCredentials | AuthUnknownTenant | RateLimited.

#[global] Instance SignupError_eq_dec : EqDecision SignupError.
Proof. solve_decision. Defined.
#[global] Instance AuthError_eq_dec : EqDecision AuthError.
Proof. solve_decision. Defined.

Definition SESSION_TTL_SECS : Z := 24 * 60 * 60.

(** ** What the store takes from its environment *)
Class Environment := {
  unicode_normalize : bytes -> bytes;
  argon2_hash : bytes -> bytes -> bytes;
  argon2_verify : bytes -> bytes -> bool;
  sha256 : bytes -> bytes;
  hash_iter {K} `{Countable K} {A} : gmap K A -> list (K * A);
  hash_iter_perm {K} `{Countable K} {A} (m : gmap K A) : hash_iter m ≡ₚ map_to_list m
}.

Section Operations.
Context {env : Environment}.

(** [trim().to_lowercase()]. *)
Definition normalize (s : bytes) : bytes :=
  if is_ascii s then ascii_lowercase <$> ascii_trim s else unicode_normalize s.

Definition normalize_username (s : bytes) : result SignupError bytes :=
  let u := normalize s in
  if (3 <=? char_count u) && (char_count u <=? 32) && forallb username_byte u then Ok u else Err InvalidUsername.

Definition normalize_email (s : bytes) : result SignupError bytes :=
  let e := normalize s in
  let parts := split_on x40 e in
  if (len e <=? 254) && (len parts =? 2) &&
     match parts !! 0%nat with Some local => negb (len local =? 0) | None => false end &&
     match parts !! 1%nat with
     | Some domain =>
         existsb (fun b => bool_decide (b = x2e)) domain && negb (starts_with [x2e] domain) &&
         negb (starts_with [x2e] (rev domain))
     | None => false
     end
  then Ok e else Err InvalidEmail.

Definition validate_password (password : bytes) : result SignupError unit :=
  if (8 <=? len password) && (len password <=? 1024) then Ok tt else Err WeakPassword.

Definition generate_api_key (random : bytes) : bytes * bytes :=
  let key := bstr "tct_" ++ hex random in (key, sha256 key).

Definition ratelimit_key (tenant identifier : bytes) : bytes := tenant ++ [x00] ++ normalize identifier.
Definition tenant_prefix (tenant : bytes) : bytes := tenant ++ [x00].

(** *** Tenants and keys *)
(** The random bytes of a tenant sign-up: the identifier's clock and tail, the
    key and the salt. *)
Record SignupRandom := mkSignupRandom { sr_ms : Z; sr_tail : bytes; sr_key : bytes; sr_salt : bytes }.

Definition sign_up_tenant (a : Accounts) (now : Z) (rnd : SignupRandom) (username email password : bytes)
    : Accounts * result SignupError (bytes * bytes * bytes * bytes) :=
  match (username ← normalize_username username; email ← normalize_email email; _ ← validate_password password;
         Ok (username, email)) with
  | Err e => (a, Err e)
  | Ok (username, email) =>
      if bool_decide (is_Some (tenant_by_username a !! username)) then (a, Err UsernameTaken) else
      if bool_decide (is_Some (tenant_by_email a !! email)) then (a, Err EmailTaken) else
      let id := prefixed (bstr "ten") (sr_ms rnd) (sr_tail rnd) in
      let '(api_key, api_key_hash) := generate_api_key (sr_key rnd) in
      (with_tenants a
         (<[id := mkTenant id username email (argon2_hash password (sr_salt rnd))]> (tenants a))
         (<[username := id]> (tenant_by_username a))
         (<[email := id]> (tenant_by_email a))
         (<[api_key_hash := mkApiKey id (key_prefix api_key) None now]> (api_keys a)),
       Ok (id, username, email, api_key))
  end.

(** [self.tenants[id]] panics when the index names a tenant that is not there:
    [None]. *)
Definition authenticate_tenant (a : Accounts) (identifier password : bytes) : option (result AuthError bytes) :=
  let key := normalize identifier in
  match tenant_by_username a !! key ∪ tenant_by_email a !! key with
  | Some id =>
      t ← tenants a !! id;
      Some (if argon2_verify password (tr_password_hash t) then Ok id else Err InvalidCredentials)
  | None => Some (Err InvalidCredentials)
  end.

Definition tenant_by_api_key (a : Accounts) (api_key : bytes) : option bytes := ak_tenant <$> api_keys a !! sha256 api_key.

Definition create_api_key (a : Accounts) (now : Z) (random tenant : bytes) (label : option bytes)
    : Accounts * result AuthError bytes :=
  if negb (bool_decide (is_Some (tenants a !! tenant))) then (a, Err AuthUnknownTenant) else
  let '(api_key, api_key_hash) := generate_api_key random in
  (with_api_keys a (<[api_key_hash := mkApiKey tenant (key_prefix api_key) label now]> (api_keys a)), Ok api_key).

Definition key_info_cmp (a b : ApiKeyInfo) : comparison :=
  then_cmp (ki_created_at b ?= ki_created_at a) (bytes_cmp (ki_prefix a) (ki_prefix b)).

Definition list_api_keys (a : Accounts) (tenant : bytes) : list ApiKeyInfo :=
  sort_by key_info_cmp
    ((fun r => mkKeyInfo (ak_prefix r) (ak_label r) (ak_created_at r)) <$>
       filter (fun r => ak_tenant r = tenant) (hash_iter (api_keys a)).*2).

Definition revoke_api_key (a : Accounts) (tenant prefix : bytes) : Accounts * bool :=
  let kept := filter (fun p => ~ (ak_tenant p.2 = tenant /\ ak_prefix p.2 = prefix)) (api_keys a) in
  (with_api_keys a kept, negb (Nat.eqb (size (api_keys a)) (size kept))).

Definition tenant (a : Accounts) (id : bytes) : option (bytes * bytes * bytes) :=
  t ← tenants a !! id; Some (tr_id t, tr_username t, tr_email t).

(** *** Users *)
Definition sign_up_user (a : Accounts) (salt tenant username password : bytes)
    : Accounts * result SignupError (bytes * bytes) :=
  if negb (bool_decide (is_Some (tenants a !! tenant))) then (a, Err UnknownTenant) else
  match (username ← normalize_username username; _ ← validate_password password; Ok username) with
  | Err e => (a, Err e)
  | Ok username =>
      if bool_decide (is_Some (users a !! (tenant, username))) then (a, Err UsernameTaken) else
      (with_users a (<[(tenant, username) := mkUser tenant username (argon2_hash password salt)]> (users a)),
       Ok (tenant, username))
  end.

Definition authenticate_user (a : Accounts) (tenant username password : bytes) : result AuthError (bytes * bytes) :=
  if negb (bool_decide (is_Some (tenants a !! tenant))) then Err AuthUnknownTenant else
  let username := normalize username in
  match users a !! (tenant, username) with
  | Some u => if argon2_verify password (ur_password_hash u) then Ok (ur_tenant u, ur_username u) else Err InvalidCredentials
  | None => Err InvalidCredentials
  end.

(** *** Sessions *)
Definition sign_in_at (a : Accounts) (now : Z) (random tenant identifier password : bytes)
    : Accounts * result AuthError (bytes * bytes * bytes) :=
  let key := ratelimit_key tenant identifier in
  if is_blocked (limiter a) key now then (a, Err RateLimited) else
  if tenant_is_flooded (limiter a) (tenant_prefix tenant) now
  then (with_limiter a (record_failure (limiter a) key now), Err RateLimited) else
  match authenticate_user a tenant identifier password with
  | Ok (t, u) =>
      let a := with_limiter a (record_success (limiter a) key) in
      let token := random_token (bstr "ses") random in
      (with_sessions a (<[sha256 token := (t, u, saturating_add64 now SESSION_TTL_SECS)]> (sessions a)),
       Ok (t, u, token))
  | Err e => (with_limiter a (record_failure (limiter a) key now), Err e)
  end.

Definition validate_session_at (a : Accounts) (now : Z) (token : bytes) : option (bytes * bytes) :=
  '(t, u, expires_at) ← sessions a !! sha256 token;
  if now <? expires_at then Some (t, u) else None.

Definition revoke_session (a : Accounts) (token : bytes) : Accounts * bool :=
  (with_sessions a (delete (sha256 token) (sessions a)), bool_decide (is_Some (sessions a !! sha256 token))).

Definition revoke_user_sessions (a : Accounts) (tenant username : bytes) : Accounts * Z :=
  let username := normalize username in
  let kept := filter (fun p => ~ (p.2.1.1 = tenant /\ p.2.1.2 = username)) (sessions a) in
  (with_sessions a kept, Z.of_nat (size (sessions a)) - Z.of_nat (size kept)).

Definition sweep_expired_sessions_at (a : Accounts) (now : Z) : Accounts * Z :=
  let kept := filter (fun p => now < p.2.2) (sessions a) in
  (with_sessions a kept, Z.of_nat (size (sessions a)) - Z.of_nat (size kept)).

Definition handle (a : Accounts) (tenant username : bytes) : option bytes :=
  t ← tenants a !! tenant; Some (tr_username t ++ bstr "/" ++ normalize username).
End Operations.

(** *** Devices *)
Section Devices.
Context {env : Environment} {E : Type} {core : InventoryCore E}.

Definition device_inventory (a : Accounts) (tenant username : bytes) : option DeviceInventory :=
  let username := normalize username in
  if bool_decide (is_Some (users a !! (tenant, username)))
  then Some (default inventory_default (device_inventories a !! (tenant, username))) else None.

Definition link_device_binding (a : Accounts) (tenant username : bytes) (predecessor_generation : Z)
    (idempotency_key : bytes) (b : DeviceBinding) : Accounts * result (InventoryError E) DeviceInventory :=
  let username := normalize username in
  let key := (tenant, username) in
  if negb (bool_decide (is_Some (users a !! key))) then (a, Err UnknownUser) else
  let mutation_key := (tenant, username, idempotency_key) in
  if bool_decide (is_Some (inventory_lifecycle_mutations a !! mutation_key)) then (a, Err IdempotencyConflict) else
  match inventory_mutations a !! mutation_key with
  | Some prior =>
      (a, if (mu_predecessor prior =? predecessor_generation) && bool_decide (mu_binding prior = b)
          then Ok (mu_result prior) else Err IdempotencyConflict)
  | None =>
      let current := default inventory_default (device_inventories a !! key) in
      match (h ← ok_or UnknownUser (handle a tenant username); link_inventory h current predecessor_generation b) with
      | Err e => (a, Err e)
      | Ok next =>
          (with_inventory a (<[key := next]> (device_inventories a))
             (<[mutation_key := mkMutation predecessor_generation b next]> (inventory_mutations a))
             (inventory_lifecycle_mutations a), Ok next)
      end
  end.

Definition apply_lifecycle_mutation (a : Accounts) (tenant username idempotency_key : bytes) (request : LifecycleRequest)
    : Accounts * result (InventoryError E) DeviceInventory :=
  let username := normalize username in
  let key := (tenant, username) in
  if negb (bool_decide (is_Some (users a !! key))) then (a, Err UnknownUser) else
  let mutation_key := (tenant, username, idempotency_key) in
  if bool_decide (is_Some (inventory_mutations a !! mutation_key)) then (a, Err IdempotencyConflict) else
  match inventory_lifecycle_mutations a !! mutation_key with
  | Some prior => (a, if bool_decide (lm_request prior = request) then Ok (lm_result prior) else Err IdempotencyConflict)
  | None =>
      let current := default inventory_default (device_inventories a !! key) in
      match (h ← ok_or UnknownUser (handle a tenant username);
             match request with
             | Revoke pg retired => revoke_inventory h current pg retired
             | Replace pg retired replacement => replace_inventory h current pg retired replacement
             end) with
      | Err e => (a, Err e)
      | Ok next =>
          (with_inventory a (<[key := next]> (device_inventories a)) (inventory_mutations a)
             (<[mutation_key := mkLifecycle request next]> (inventory_lifecycle_mutations a)), Ok next)
      end
  end.

Definition revoke_device_binding (a : Accounts) (tenant username : bytes) (predecessor_generation : Z)
    (idempotency_key : bytes) (retired : DeviceBinding) : Accounts * result (InventoryError E) DeviceInventory :=
  apply_lifecycle_mutation a tenant username idempotency_key (Revoke predecessor_generation retired).

Definition replace_device_binding (a : Accounts) (tenant username : bytes) (predecessor_generation : Z)
    (idempotency_key : bytes) (retired replacement : DeviceBinding) : Accounts * result (InventoryError E) DeviceInventory :=
  apply_lifecycle_mutation a tenant username idempotency_key (Replace predecessor_generation retired replacement).
End Devices.

(** ** Text in normal form *)
Class EnvironmentLaws {env : Environment} : Prop := {
  unicode_lower s : Forall (fun b => in_byte 65 90 b = false) (unicode_normalize s);
  unicode_utf8 s : utf8_valid s = true -> utf8_valid (unicode_normalize s) = true;
  argon2_verify_hash p salt : argon2_verify p (argon2_hash p salt) = true;
  argon2_text p salt : utf8_valid (argon2_hash p salt) = true /\ len (argon2_hash p salt) <= u32_max;
  sha256_len s : len (sha256 s) = 32
}.

(** A stored username: 3 to 32 of the allowed bytes, none of them upper case. *)
Definition username_ok (u : bytes) : Prop :=
  3 <= len u <= 32 /\ forallb username_byte u = true /\ Forall (fun b => in_byte 65 90 b = false) u.

Lemma username_byte_plain b :
  username_byte b = true -> in_byte 0 127 b = true /\ ascii_whitespace b = false /\ in_byte 128 191 b = false.
Proof. by destruct b. Qed.

Lemma ascii_lowercase_lower b : in_byte 65 90 (ascii_lowercase b) = false.
Proof. by destruct b. Qed.

Lemma ascii_lowercase_ascii b : in_byte 0 127 b = true -> in_byte 0 127 (ascii_lowercase b) = true.
Proof. by destruct b. Qed.

Lemma trim_start_none bs : Forall (fun b => ascii_whitespace b = false) bs -> trim_start bs = bs.
Proof. destruct 1 as [|b bs Hb _]; cbn; [done|]. by rewrite Hb. Qed.

Lemma lowercase_none bs : Forall (fun b => in_byte 65 90 b = false) bs -> ascii_lowercase <$> bs = bs.
Proof. induction 1 as [|b bs Hb _ IH]; [done|]. rewrite fmap_cons, IH. unfold ascii_lowercase. by rewrite Hb. Qed.

Lemma username_bytes u : forallb username_byte u = true ->
  is_ascii u = true /\ Forall (fun b => ascii_whitespace b = false) u /\ char_count u = len u /\ utf8_valid u = true.
Proof.
  induction u as [|b u IH]; cbn [forallb]; [done|]. intros [Hb Hu]%andb_prop. apply username_byte_plain in Hb as (H1 & H2 & H3).
  destruct (IH Hu) as (I1 & I2 & I3 & I4). split_and!.
  - unfold is_ascii. cbn. by rewrite H1.
  - by constructor.
  - unfold char_count in *. rewrite filter_cons_True by done. rewrite !len_cons. lia.
  - cbn. by rewrite H1.
Qed.

Section Normal.
Context {env : Environment} {laws : EnvironmentLaws}.

Lemma normalize_lower s : Forall (fun b => in_byte 65 90 b = false) (normalize s).
Proof.
  unfold normalize. destruct (is_ascii s); [|apply unicode_lower]. apply Forall_fmap, Forall_forall. intros b _. cbn.
  apply ascii_lowercase_lower.
Qed.

Lemma normalize_username_ok s u : normalize_username s = Ok u -> u = normalize s /\ username_ok u.
Proof.
  unfold normalize_username. intros H. inv_bind. bool_prop. split; [done|].
  destruct (username_bytes (normalize s)) as (_ & _ & Hc & _); [done|]. rewrite Hc in *. split_and!; try done. apply normalize_lower.
Qed.

Lemma normalize_stable u : username_ok u -> normalize u = u.
Proof.
  intros (_ & Hb & Hl). destruct (username_bytes u Hb) as (Ha & Hw & _). unfold normalize, ascii_trim. rewrite Ha.
  rewrite (trim_start_none u Hw), trim_start_none by (by apply Forall_rev). rewrite rev_involutive. by apply lowercase_none.
Qed.
End Normal.

Arguments prefixed : simpl never.
Arguments ulid : simpl never.
Arguments hex : simpl never.
Arguments random_token : simpl never.
Arguments normalize {env} s : simpl never.
Arguments generate_api_key : simpl never.
Arguments ratelimit_key : simpl never.
