(* ===== verification/AccountsState.v ===== *)
(** * AccountsState: what every run of the account store maintains
    ([tacenta-accounts/src/lib.rs])

    The calls that change the store as one data type, the type invariant every
    one of them preserves, and the sessions: a token authorises exactly the user
    whose sign-in issued it, until it expires or is revoked. *)

From S2P Require Import Prelude Framing RateLimit Inventory Accounts.

(** ** Calls *)
Inductive AccountOp :=
| OSignUpTenant (now : Z) (rnd : SignupRandom) (username email password : bytes)
| OCreateKey (now : Z) (random tenant : bytes) (label : option bytes)
| ORevokeKey (tenant prefix : bytes)
| OSignUpUser (salt tenant username password : bytes)
| OSignIn (now : Z) (random tenant identifier password : bytes)
| ORevokeSession (token : bytes)
| ORevokeUser (tenant username : bytes)
| OSweep (now : Z)
| OLink (tenant username : bytes) (pg : Z) (key : bytes) (b : DeviceBinding)
| OLifecycle (tenant username key : bytes) (request : LifecycleRequest).

(** A string of the source whose length its length prefix holds. *)
Definition str_ok (s : bytes) : Prop := utf8_valid s = true /\ len s <= u32_max.

Section Runs.
Context {env : Environment} {E : Type} {core : InventoryCore E}.

Definition apply_op (a : Accounts) (op : AccountOp) : Accounts :=
  match op with
  | OSignUpTenant now rnd u e p => (sign_up_tenant a now rnd u e p).1
  | OCreateKey now random t label => (create_api_key a now random t label).1
  | ORevokeKey t p => (revoke_api_key a t p).1
  | OSignUpUser salt t u p => (sign_up_user a salt t u p).1
  | OSignIn now random t i p => (sign_in_at a now random t i p).1
  | ORevokeSession token => (revoke_session a token).1
  | ORevokeUser t u => (revoke_user_sessions a t u).1
  | OSweep now => (sweep_expired_sessions_at a now).1
  | OLink t u pg k b => (link_device_binding a t u pg k b).1
  | OLifecycle t u k r => (apply_lifecycle_mutation a t u k r).1
  end.

Definition run_ops (a : Accounts) (ops : list AccountOp) : Accounts := fold_left apply_op ops a.

(** What a call may be given: the ranges of its types, a label that is not
    empty (the gateway sends none that is), and a tenant identifier that was
    not drawn before. *)
Definition op_ok (a : Accounts) (op : AccountOp) : Prop :=
  match op with
  | OSignUpTenant now rnd u e p =>
      tenants a !! prefixed (bstr "ten") (sr_ms rnd) (sr_tail rnd) = None /\ u64_wf now /\
      utf8_valid u = true /\ utf8_valid e = true /\ len (sr_key rnd) = 32 /\ len (sr_tail rnd) = 10
  | OCreateKey now random _ label =>
      u64_wf now /\ len random = 32 /\ match label with Some l => l <> [] /\ str_ok l | None => True end
  | OSignIn now _ _ _ _ => u64_wf now
  | OLink _ _ pg k b => u64_wf pg /\ len k = 32 /\ binding_wf b
  | OLifecycle _ _ k r => len k = 32 /\ request_wf r
  | _ => True
  end.

Fixpoint ops_ok (a : Accounts) (ops : list AccountOp) : Prop :=
  match ops with [] => True | op :: ops => op_ok a op /\ ops_ok (apply_op a op) ops end.

(** ** The type invariant *)
Definition stored_at (a : Accounts) (t u : bytes) (i : DeviceInventory) : Prop :=
  exists h, handle a t u = Some h /\ stored_inventory h i.

Record tenants_ok (a : Accounts) : Prop := {
  to_record id t : tenants a !! id = Some t ->
    tr_id t = id /\ username_ok (tr_username t) /\ str_ok id /\ str_ok (tr_email t) /\ str_ok (tr_password_hash t) /\
    tenant_by_username a !! tr_username t = Some id /\ tenant_by_email a !! tr_email t = Some id;
  to_username u id : tenant_by_username a !! u = Some id -> exists t, tenants a !! id = Some t /\ tr_username t = u;
  to_email e id : tenant_by_email a !! e = Some id -> exists t, tenants a !! id = Some t /\ tr_email t = e;
  to_key h k : api_keys a !! h = Some k ->
    len h = 32 /\ is_Some (tenants a !! ak_tenant k) /\ str_ok (ak_prefix k) /\ u64_wf (ak_created_at k) /\
    match ak_label k with Some l => l <> [] /\ str_ok l | None => True end
}.

Record users_ok (a : Accounts) : Prop := {
  uo_record t u r : users a !! (t, u) = Some r ->
    ur_tenant r = t /\ ur_username r = u /\ username_ok u /\ str_ok (ur_password_hash r) /\ is_Some (tenants a !! t);
  uo_session h t u x : sessions a !! h = Some (t, u, x) -> len h = 32 /\ is_Some (users a !! (t, u)) /\ u64_wf x
}.

Record devices_ok (a : Accounts) : Prop := {
  do_inventory t u i : device_inventories a !! (t, u) = Some i -> is_Some (users a !! (t, u)) /\ stored_at a t u i;
  do_link t u k m : inventory_mutations a !! (t, u, k) = Some m ->
    is_Some (users a !! (t, u)) /\ len k = 32 /\ stored_at a t u (mu_result m) /\ binding_wf (mu_binding m) /\
    u64_wf (mu_predecessor m) /\ inv_generation (mu_result m) = mu_predecessor m + 1;
  do_lifecycle t u k m : inventory_lifecycle_mutations a !! (t, u, k) = Some m ->
    is_Some (users a !! (t, u)) /\ len k = 32 /\ stored_at a t u (lm_result m) /\ request_wf (lm_request m) /\
    inv_generation (lm_result m) = request_predecessor (lm_request m) + 1;
  do_apart k : is_Some (inventory_mutations a !! k) -> inventory_lifecycle_mutations a !! k = None
}.

Record accounts_ok (a : Accounts) : Prop := {
  ao_tenants : tenants_ok a;
  ao_users : users_ok a;
  ao_devices : devices_ok a
}.
End Runs.

(** ** Generated strings *)
Lemma forall_ascii_utf8 bs : Forall (fun b => in_byte 0 127 b = true) bs -> utf8_valid bs = true.
Proof. induction 1 as [|b bs Hb _ IH]; [done|]. cbn. by rewrite Hb. Qed.

Lemma hex_digit_ascii n : in_byte 0 127 (hex_digit n) = true.
Proof.
  unfold hex_digit. destruct (nth_in_or_default (Z.to_nat n) (bstr "0123456789abcdef") x00) as [H| ->]; [|done].
  assert (Forall (fun b => in_byte 0 127 b = true) (bstr "0123456789abcdef")) as Hf by (by repeat constructor).
  rewrite Forall_forall in Hf. by apply Hf, list_elem_of_In.
Qed.

Lemma hex_ascii bs : Forall (fun b => in_byte 0 127 b = true) (hex bs).
Proof. unfold hex. induction bs as [|b bs IH]; cbn; [constructor|]. repeat (constructor; [apply hex_digit_ascii|]). done. Qed.

Lemma len_hex bs : len (hex bs) = 2 * len bs.
Proof.
  induction bs as [|b bs IH]; [done|].
  change (hex (b :: bs)) with ([hex_digit (byte_val b / 16); hex_digit (byte_val b mod 16)] ++ hex bs).
  rewrite len_app, IH, !len_cons, len_nil. lia.
Qed.

Lemma base32_ascii n : forall v, Forall (fun b => in_byte 0 127 b = true) (base32 n v).
Proof.
  induction n as [|n IH]; intros v; cbn [base32]; [constructor|]. apply Forall_app. split; [apply IH|]. constructor; [|constructor].
  destruct (nth_in_or_default (Z.to_nat (Z.land v 31)) CROCKFORD x00) as [H| ->]; [|done].
  assert (Forall (fun b => in_byte 0 127 b = true) CROCKFORD) as Hf by (by repeat constructor).
  rewrite Forall_forall in Hf. by apply Hf, list_elem_of_In.
Qed.

Lemma len_base32 n v : len (base32 n v) = Z.of_nat n.
Proof. revert v. induction n as [|n IH]; intros v; cbn [base32]; [done|]. rewrite len_app, IH, len_cons, len_nil. lia. Qed.

Lemma prefixed_str ms tail : str_ok (prefixed (bstr "ten") ms tail).
Proof.
  split.
  - apply forall_ascii_utf8. unfold prefixed, ulid.
    apply Forall_app; split; [by repeat constructor|]. apply Forall_app; split; [by repeat constructor|apply base32_ascii].
  - unfold prefixed, ulid. rewrite !len_app, len_base32. by vm_compute.
Qed.

Lemma key_prefix_str random : str_ok (key_prefix (bstr "tct_" ++ hex random)).
Proof.
  split.
  - apply forall_ascii_utf8, Forall_take, Forall_app. split; [by repeat constructor|apply hex_ascii].
  - unfold key_prefix, len, KEY_PREFIX_LEN. rewrite length_take. unfold u32_max. lia.
Qed.

Lemma username_str u : username_ok u -> str_ok u.
Proof. intros (Hl & Hb & _). destruct (username_bytes u Hb) as (_ & _ & _ & Hu). split; [done|]. unfold u32_max. lia. Qed.

(** ** Every call preserves the invariant *)
Section Preserved.
Context {env : Environment} {laws : EnvironmentLaws} {E : Type} {core : InventoryCore E} {core_laws : InventoryCoreLaws E}.

(** Tenants and users are never removed, and a tenant's record never changes. *)
Record extends (a a' : Accounts) : Prop := {
  ex_tenants id t : tenants a !! id = Some t -> tenants a' !! id = Some t;
  ex_users k : is_Some (users a !! k) -> is_Some (users a' !! k)
}.

Lemma extends_handle a a' t u h : extends a a' -> handle a t u = Some h -> handle a' t u = Some h.
Proof. intros [H _]. unfold handle. intros Hh. inv_bind. by erewrite H. Qed.

Lemma extends_stored a a' t u i : extends a a' -> stored_at a t u i -> stored_at a' t u i.
Proof. intros H (h & Hh & Hi). exists h. split; [by eapply extends_handle|done]. Qed.

Lemma devices_frame a a' :
  extends a a' -> device_inventories a' = device_inventories a -> inventory_mutations a' = inventory_mutations a ->
  inventory_lifecycle_mutations a' = inventory_lifecycle_mutations a -> devices_ok a -> devices_ok a'.
Proof.
  intros Hx Hd Hm Hl [D1 D2 D3 D4]. split; rewrite ?Hd, ?Hm, ?Hl; [| | |done].
  - intros t u i H. destruct (D1 t u i H) as [? ?]. split; [by eapply ex_users|by eapply extends_stored].
  - intros t u k m H. destruct (D2 t u k m H) as (? & ? & ? & ? & ? & ?).
    split_and!; try done; [by eapply ex_users|by eapply extends_stored].
  - intros t u k m H. destruct (D3 t u k m H) as (? & ? & ? & ? & ?).
    split_and!; try done; [by eapply ex_users|by eapply extends_stored].
Qed.

Lemma users_frame a a' :
  extends a a' -> users a' = users a -> sessions a' = sessions a -> users_ok a -> users_ok a'.
Proof.
  intros Hx Hu Hs [U1 U2]. split; rewrite ?Hu, ?Hs; [|done]. intros t u r H. destruct (U1 t u r H) as (? & ? & ? & ? & (x & Hx')).
  split_and!; try done. by erewrite (ex_tenants _ _ Hx).
Qed.

Lemma extends_refl_of a a' : tenants a' = tenants a -> users a' = users a -> extends a a'.
Proof. intros Ht Hu. split; rewrite ?Ht, ?Hu; done. Qed.

Lemma email_str e e' : utf8_valid e = true -> normalize_email e = Ok e' -> e' = normalize e /\ len e' <= 254.
Proof. unfold normalize_email. intros Hu H. inv_bind. bool_prop. done. Qed.

Lemma trim_start_ascii bs : forallb (in_byte 0 127) bs = true -> forallb (in_byte 0 127) (trim_start bs) = true.
Proof. induction bs as [|b bs IH]; cbn; [done|]. intros [Hb H]%andb_prop. destruct (ascii_whitespace b); [by apply IH|]. cbn. by rewrite Hb. Qed.

Lemma forallb_rev {A} (f : A -> bool) l : forallb f l = true -> forallb f (rev l) = true.
Proof. rewrite !forallb_forall. intros H x Hx. apply H. by apply in_rev. Qed.

Lemma normalize_utf8 s : utf8_valid s = true -> utf8_valid (normalize s) = true.
Proof.
  intros Hs. unfold normalize. destruct (is_ascii s) eqn:Ha; [|by apply unicode_utf8]. apply forall_ascii_utf8.
  assert (forallb (in_byte 0 127) (ascii_trim s) = true) as Ht.
  { unfold ascii_trim. by apply forallb_rev, trim_start_ascii, forallb_rev, trim_start_ascii. }
  apply Forall_fmap, Forall_forall. intros b Hb. cbn. apply ascii_lowercase_ascii.
  rewrite forallb_forall in Ht. by apply Ht, list_elem_of_In.
Qed.

Lemma sign_up_tenant_ok a now rnd u e p :
  op_ok a (OSignUpTenant now rnd u e p) -> accounts_ok a -> accounts_ok (sign_up_tenant a now rnd u e p).1.
Proof.
  intros (Hfresh & Hnow & Hu8 & He8 & _) Ha. unfold sign_up_tenant.
  destruct (normalize_username u) as [u'|] eqn:Eu; [|done]. cbn [mbind result_bind].
  destruct (normalize_email e) as [e'|] eqn:Ee; [|done]. cbn [mbind result_bind].
  destruct (validate_password p) as [[]|]; [|done]. cbn [mbind result_bind].
  destruct (bool_decide (is_Some (tenant_by_username a !! u'))) eqn:Bu; [done|].
  destruct (bool_decide (is_Some (tenant_by_email a !! e'))) eqn:Be; [done|]. bool_prop.
  apply normalize_username_ok in Eu as [_ Huok]. apply email_str in Ee as [-> Hel]; [|done].
  destruct Ha as [[T1 T2 T3 T4] Hus Hdv]. assert (str_ok (prefixed (bstr "ten") (sr_ms rnd) (sr_tail rnd))) as Hid by apply prefixed_str.
  set (id := prefixed (bstr "ten") (sr_ms rnd) (sr_tail rnd)) in *. clearbody id.
  cbv zeta. unfold generate_api_key.
  assert (forall r u e k, extends a (with_tenants a (<[id := r]> (tenants a)) u e k)) as Hx.
  { intros r ? ? ?. split; [|done]. intros i t Hi. cbn. rewrite lookup_insert_ne; [done|]. intros <-. congruence. }
  split.
  - split; cbn.
    + intros i t. rewrite lookup_insert. case_decide as Hi; [|].
      * subst i. intros [= <-]. cbn. rewrite !lookup_insert_eq. split_and!; try done; try apply Huok; try apply Hid; [|apply argon2_text..].
        split; [by apply normalize_utf8|unfold u32_max; lia].
      * intros Ht. destruct (T1 i t Ht) as (? & ? & ? & ? & ? & Hun & Hem). split_and!; try done.
        -- rewrite lookup_insert_ne; [done|]. intros Heq. apply Bu. rewrite Heq. by eexists.
        -- rewrite lookup_insert_ne; [done|]. intros Heq. apply Be. rewrite Heq. by eexists.
    + intros x i. rewrite lookup_insert. case_decide as Hxu; [intros [= <-]; eexists; rewrite lookup_insert_eq; split; [done|by subst]|].
      intros Hi. destruct (T2 x i Hi) as (t & Ht & Htu). exists t. split; [|done]. rewrite lookup_insert_ne; [done|]. intros <-. congruence.
    + intros x i. rewrite lookup_insert. case_decide as Hxe; [intros [= <-]; eexists; rewrite lookup_insert_eq; split; [done|by subst]|].
      intros Hi. destruct (T3 x i Hi) as (t & Ht & Hte). exists t. split; [|done]. rewrite lookup_insert_ne; [done|]. intros <-. congruence.
    + intros h k. rewrite lookup_insert. case_decide as Hh.
      * subst h. intros [= <-]. cbn. rewrite lookup_insert_eq. split_and!; try done; try apply key_prefix_str; [apply sha256_len|apply Hnow..].
      * intros Hk. destruct (T4 h k Hk) as (? & [t Ht] & ? & ? & ?). split_and!; try done.
        exists t. rewrite lookup_insert_ne; [done|]. intros Heq. congruence.
  - eapply users_frame; [apply Hx|done..].
  - eapply devices_frame; [apply Hx|done..].
Qed.

Lemma with_keys_ok a k : accounts_ok a -> tenants_ok (with_api_keys a k) -> accounts_ok (with_api_keys a k).
Proof.
  intros [Ht Hu Hd] Hk. split; [done| |].
  - by apply (users_frame a); [by apply extends_refl_of|..].
  - by apply (devices_frame a); [by apply extends_refl_of|..].
Qed.

Lemma create_api_key_ok a now random t label :
  op_ok a (OCreateKey now random t label) -> accounts_ok a -> accounts_ok (create_api_key a now random t label).1.
Proof.
  intros (Hnow & _ & Hl) Ha. unfold create_api_key. destruct (bool_decide (is_Some (tenants a !! t))) eqn:B; cbn [negb]; [|done]. bool_prop.
  unfold generate_api_key. cbv zeta. cbn [fst]. apply with_keys_ok; [done|]. destruct Ha as [[T1 T2 T3 T4] _ _]. split; cbn; [done..|].
  intros h k. rewrite lookup_insert. case_decide as Hh; [|by apply T4]. subst h. intros [= <-]. cbn.
  split_and!; try done; try apply key_prefix_str; try apply Hnow. apply sha256_len.
Qed.

Lemma revoke_api_key_ok a t p : accounts_ok a -> accounts_ok (revoke_api_key a t p).1.
Proof.
  intros Ha. unfold revoke_api_key. cbn [fst]. apply with_keys_ok; [done|]. destruct Ha as [[T1 T2 T3 T4] _ _]. split; cbn; [done..|].
  intros h k [Hk _]%map_lookup_filter_Some. by apply T4.
Qed.

Lemma sign_up_user_ok a salt t u p : accounts_ok a -> accounts_ok (sign_up_user a salt t u p).1.
Proof.
  intros Ha. unfold sign_up_user. destruct (bool_decide (is_Some (tenants a !! t))) eqn:B; cbn [negb]; [|done]. bool_prop.
  destruct (normalize_username u) as [u'|] eqn:Eu; [|done]. cbn [mbind result_bind].
  destruct (validate_password p) as [[]|]; [|done]. cbn [mbind result_bind].
  destruct (bool_decide (is_Some (users a !! (t, u')))) eqn:Bu; [done|]. bool_prop. apply normalize_username_ok in Eu as [_ Hok]. cbn [fst].
  destruct Ha as [Ht [U1 U2] Hd]. set (r := mkUser t u' (argon2_hash p salt)).
  assert (extends a (with_users a (<[(t, u') := r]> (users a)))) as Hx.
  { split; [done|]. intros k Hk. cbn. rewrite lookup_insert. by case_decide. }
  split; [by destruct Ht| |by apply (devices_frame a)]. split; cbn.
  - intros t0 u0 r0. rewrite lookup_insert. case_decide as Hk; [|by apply U1]. intros [= <-]. injection Hk as -> ->. cbn.
    split_and!; try done; try apply Hok; apply argon2_text.
  - intros h t0 u0 x H. destruct (U2 h t0 u0 x H) as (? & ? & ?). split_and!; try done. by apply (ex_users _ _ Hx).
Qed.

Lemma authenticate_user_Ok a t i p t' u' :
  users_ok a -> authenticate_user a t i p = Ok (t', u') -> t' = t /\ u' = normalize i /\ is_Some (users a !! (t', u')).
Proof.
  intros [U1 _] H. unfold authenticate_user in H. destruct (negb _); [done|].
  destruct (users a !! (t, normalize i)) as [r|] eqn:Er; [|done]. destruct (argon2_verify _ _); [|done].
  injection H as <- <-. destruct (U1 _ _ _ Er) as (-> & -> & _). rewrite Er. done.
Qed.

Lemma with_limiter_ok a l : accounts_ok a -> accounts_ok (with_limiter a l).
Proof.
  intros [Ht Hu Hd]. split; [by destruct Ht|by destruct Hu|]. by apply (devices_frame a); [by apply extends_refl_of|..].
Qed.

Lemma with_sessions_ok a s :
  accounts_ok a -> (forall h t u x, s !! h = Some (t, u, x) -> len h = 32 /\ is_Some (users a !! (t, u)) /\ u64_wf x) ->
  accounts_ok (with_sessions a s).
Proof.
  intros [Ht Hu Hd] Hs. split; [by destruct Ht|destruct Hu; by split|]. by apply (devices_frame a); [by apply extends_refl_of|..].
Qed.

Lemma sessions_subset_ok a s : accounts_ok a -> s ⊆ sessions a -> accounts_ok (with_sessions a s).
Proof.
  intros Ha Hs. apply with_sessions_ok; [done|]. intros h t u x Hx. apply (uo_session _ (ao_users _ Ha)).
  by eapply lookup_weaken.
Qed.

Lemma sign_in_ok a now random t i p : u64_wf now -> accounts_ok a -> accounts_ok (sign_in_at a now random t i p).1.
Proof.
  intros Hnow Ha. unfold sign_in_at. cbv zeta. destruct (is_blocked _ _ _); [done|].
  destruct (tenant_is_flooded _ _ _); [by apply with_limiter_ok|].
  destruct (authenticate_user a t i p) as [[t' u']|] eqn:Eu; [|by apply with_limiter_ok]. cbn [fst].
  apply authenticate_user_Ok in Eu as (-> & -> & Hu); [|apply Ha]. apply with_sessions_ok; [by apply with_limiter_ok|]. cbn.
  intros h t0 u0 x. rewrite lookup_insert. case_decide as Hh.
  - subst h. intros [= <- <- <-]. split_and!; [apply sha256_len|done|..]; unfold saturating_add64, u64_wf, SESSION_TTL_SECS in *; lia.
  - apply (uo_session _ (ao_users _ Ha)).
Qed.

Lemma with_inventory_ok a t u k i m l :
  accounts_ok a -> is_Some (users a !! (t, u)) -> len k = 32 -> stored_at a t u i ->
  (forall m', m !! (t, u, k) = Some m' -> mu_result m' = i /\ binding_wf (mu_binding m') /\ u64_wf (mu_predecessor m') /\
     inv_generation i = mu_predecessor m' + 1) ->
  (forall l', l !! (t, u, k) = Some l' -> lm_result l' = i /\ request_wf (lm_request l') /\
     inv_generation i = request_predecessor (lm_request l') + 1) ->
  (forall k', k' <> (t, u, k) -> m !! k' = inventory_mutations a !! k' /\ l !! k' = inventory_lifecycle_mutations a !! k') ->
  (is_Some (m !! (t, u, k)) -> l !! (t, u, k) = None) ->
  accounts_ok (with_inventory a (<[(t, u) := i]> (device_inventories a)) m l).
Proof.
  intros [Ht Hu [D1 D2 D3 D4]] Hin Hk Hst Hm Hl Hne Hap. split; [by destruct Ht|by destruct Hu|]. split; cbn.
  - intros t0 u0 i0. rewrite lookup_insert. case_decide as Hx; [|by apply D1]. injection Hx as -> ->. by intros [= <-].
  - intros t0 u0 k0 m0 H0. destruct (decide ((t0, u0, k0) = (t, u, k))) as [[= -> -> ->]|Hx].
    + destruct (Hm m0 H0) as (Hr & ? & ? & ?). rewrite Hr. done.
    + rewrite (proj1 (Hne _ Hx)) in H0. by apply D2.
  - intros t0 u0 k0 m0 H0. destruct (decide ((t0, u0, k0) = (t, u, k))) as [[= -> -> ->]|Hx].
    + destruct (Hl m0 H0) as (Hr & ? & ?). rewrite Hr. done.
    + rewrite (proj2 (Hne _ Hx)) in H0. by apply D3.
  - intros k0 H0. destruct (decide (k0 = (t, u, k))) as [->|Hx]; [by apply Hap|].
    destruct (Hne _ Hx) as [E1 E2]. rewrite E1 in H0. rewrite E2. by apply D4.
Qed.

(** The inventory a mutation starts from. *)
Lemma current_ok a t u h :
  devices_ok a -> handle a t u = Some h ->
  inventory_ok (default inventory_default (device_inventories a !! (t, u))) /\
  inventory_wf (default inventory_default (device_inventories a !! (t, u))).
Proof.
  intros [D1 _ _ _] Hh. destruct (device_inventories a !! (t, u)) as [i|] eqn:Ei; cbn.
  - destruct (D1 t u i Ei) as [_ (h' & _ & Hs)]. split; apply Hs.
  - split; [apply inventory_default_ok|apply inventory_default_wf].
Qed.

Lemma stable_username a t u : accounts_ok a -> is_Some (users a !! (t, normalize u)) -> normalize (normalize u) = normalize u.
Proof. intros Ha [r Hr]. apply normalize_stable. by apply (uo_record _ (ao_users _ Ha) _ _ _ Hr). Qed.

Lemma link_ok a t u pg k b : op_ok a (OLink t u pg k b) -> accounts_ok a -> accounts_ok (link_device_binding a t u pg k b).1.
Proof.
  intros (Hpg & Hk & Hb) Ha. unfold link_device_binding. cbv zeta.
  destruct (bool_decide (is_Some (users a !! (t, normalize u)))) eqn:Bu; cbn [negb]; [|done]. bool_prop.
  destruct (bool_decide (is_Some (inventory_lifecycle_mutations a !! _))) eqn:Bl; [done|]. bool_prop.
  destruct (inventory_mutations a !! _) as [prior|] eqn:Em; [done|].
  destruct (handle a t (normalize u)) as [h|] eqn:Eh; [|done]. cbn [ok_or mbind result_bind].
  destruct (current_ok a t (normalize u) h (ao_devices _ Ha) Eh) as [Hc Hw].
  destruct (link_inventory h _ pg b) as [next|] eqn:El; [|done]. cbn [fst].
  destruct (link_stored h _ pg b next Hc Hw Hb El) as [Hst Hg].
  apply with_inventory_ok with (k := k); try done.
  - by exists h.
  - intros m'. rewrite lookup_insert_eq. by intros [= <-].
  - intros l' Hl'. exfalso. apply Bl. by eexists.
  - intros k' Hk'. by rewrite lookup_insert_ne.
  - intros _. by apply eq_None_not_Some.
Qed.

Lemma lifecycle_ok a t u k r : op_ok a (OLifecycle t u k r) -> accounts_ok a -> accounts_ok (apply_lifecycle_mutation a t u k r).1.
Proof.
  intros (Hk & Hr) Ha. unfold apply_lifecycle_mutation. cbv zeta.
  destruct (bool_decide (is_Some (users a !! (t, normalize u)))) eqn:Bu; cbn [negb]; [|done]. bool_prop.
  destruct (bool_decide (is_Some (inventory_mutations a !! _))) eqn:Bl; [done|]. bool_prop.
  destruct (inventory_lifecycle_mutations a !! _) as [prior|] eqn:Em; [done|].
  destruct (handle a t (normalize u)) as [h|] eqn:Eh; [|done]. cbn [ok_or mbind result_bind].
  destruct (current_ok a t (normalize u) h (ao_devices _ Ha) Eh) as [Hc Hw].
  match goal with |- context [match ?x with Ok _ => _ | Err _ => _ end] => destruct x as [next|] eqn:El; [|done] end. cbn [fst].
  assert (stored_inventory h next /\ inv_generation next = request_predecessor r + 1) as [Hst Hg].
  { destruct r as [pg old new|pg old]; cbn in Hr.
    - destruct Hr as (_ & _ & Hn). by eapply replace_stored.
    - by eapply revoke_stored. }
  apply with_inventory_ok with (k := k); try done.
  - by exists h.
  - intros m' Hm'. exfalso. apply Bl. by eexists.
  - intros l'. rewrite lookup_insert_eq. by intros [= <-].
  - intros k' Hk'. by rewrite lookup_insert_ne.
Qed.

Lemma op_preserves a op : op_ok a op -> accounts_ok a -> accounts_ok (apply_op a op).
Proof.
  intros Hop Ha. destruct op; cbn [apply_op].
  - by apply sign_up_tenant_ok.
  - by apply create_api_key_ok.
  - by apply revoke_api_key_ok.
  - by apply sign_up_user_ok.
  - by apply sign_in_ok.
  - apply sessions_subset_ok; [done|]. apply delete_subseteq.
  - apply sessions_subset_ok; [done|]. apply map_filter_subseteq.
  - apply sessions_subset_ok; [done|]. apply map_filter_subseteq.
  - by apply link_ok.
  - by apply lifecycle_ok.
Qed.

Lemma accounts_new_ok : accounts_ok accounts_new.
Proof. split; split; cbn; intros *; rewrite ?lookup_empty; done. Qed.

Lemma run_preserves ops : forall a, ops_ok a ops -> accounts_ok a -> accounts_ok (run_ops a ops).
Proof.
  induction ops as [|op ops IH]; intros a; [done|]. intros [Ho Hops] Ha. apply IH; [done|]. by apply op_preserves.
Qed.
End Preserved.

Lemma slash_split u v x y :
  forallb username_byte u = true -> forallb username_byte v = true -> u ++ bstr "/" ++ x = v ++ bstr "/" ++ y -> u = v /\ x = y.
Proof.
  revert v. induction u as [|b u IH]; intros [|c v]; cbn [app forallb]; intros Hu Hv H.
  - by injection H.
  - injection H as Hb _. subst c. by cbn in Hv.
  - injection H as Hb _. subst b. by cbn in Hu.
  - injection H as -> H. apply andb_prop in Hu as [_ Hu]. apply andb_prop in Hv as [_ Hv].
    destruct (IH v Hu Hv H) as [-> ->]. done.
Qed.

(** C32. The account store's type invariant: after any run of sign-ups, key
    changes, sign-ins, revocations, sweeps and device mutations from the empty
    store, the username and email indexes name exactly the tenants of those
    names, every key, user, session, inventory and retry record belongs to an
    existing owner, every stored inventory satisfies the lifecycle invariant
    and is one the core would sign under its owner's handle, and no retry key
    serves both a link and a lifecycle change.  So authenticating a tenant
    never reaches the panic of a dangling index, and no two accounts share a
    directory handle. *)
Theorem accounts_stay_well_typed {env : Environment} {laws : EnvironmentLaws} {E} {core : InventoryCore E}
    {core_laws : InventoryCoreLaws E} ops :
  ops_ok accounts_new ops ->
  let a := run_ops accounts_new ops in
  accounts_ok a /\
  (forall identifier password, is_Some (authenticate_tenant a identifier password)) /\
  (forall t u t' u' h, is_Some (users a !! (t, u)) -> is_Some (users a !! (t', u')) ->
     handle a t u = Some h -> handle a t' u' = Some h -> (t, u) = (t', u')).
Proof.
  intros Hops a. assert (accounts_ok a) as Ha by (apply run_preserves; [done|apply accounts_new_ok]). clearbody a. clear Hops ops.
  split; [done|]. pose proof Ha as [[T1 T2 T3 T4] [U1 U2] Hd]. split.
  - intros identifier password. unfold authenticate_tenant.
    destruct (_ ∪ _) as [id|] eqn:Ei; [|by eexists].
    assert (exists t, tenants a !! id = Some t) as [t ->]; [|by eexists].
    apply union_Some in Ei as [Hi|[_ Hi]]; [destruct (T2 _ _ Hi) as (t & ? & _)|destruct (T3 _ _ Hi) as (t & ? & _)]; by exists t.
  - intros t u t' u' h [r Hr] [r' Hr'] H1 H2. destruct (U1 t u r Hr) as (_ & _ & Hu & _). destruct (U1 t' u' r' Hr') as (_ & _ & Hu' & _).
    unfold handle in H1, H2. inv_bind. rewrite (normalize_stable u Hu), (normalize_stable u' Hu') in *.
    destruct (T1 _ _ E1) as (_ & (_ & Hb & _) & _ & _ & _ & Hx & _). destruct (T1 _ _ E0) as (_ & (_ & Hb' & _) & _ & _ & _ & Hy & _).
    destruct (slash_split _ _ _ _ Hb Hb' H1) as [Heq ->]. rewrite Heq in Hx. congruence.
Qed.

(** ** A run for the witnesses *)
#[global] Instance sample_env : Environment := {|
  unicode_normalize := fun _ => [];
  argon2_hash := fun p _ => take 64 (hex p);
  argon2_verify := fun p h => bool_decide (take 64 (hex p) = h);
  sha256 := fun s => take 32 (drop 4 s ++ replicate 32 x00);
  hash_iter := fun _ _ _ _ m => map_to_list m;
  hash_iter_perm := fun _ _ _ _ m => Permutation_refl _
|}.

#[global] Instance sample_env_laws : EnvironmentLaws.
Proof.
  split.
  - intros s0. constructor.
  - done.
  - intros p s. by apply bool_decide_eq_true_2.
  - intros p s. cbn [argon2_hash sample_env]. split; [apply forall_ascii_utf8, Forall_take, hex_ascii|]. unfold len. rewrite length_take. unfold u32_max. lia.
  - intros s. cbn [sha256 sample_env]. unfold len. rewrite length_take, length_app, length_replicate. lia.
Qed.

Definition sample_tenant : bytes := prefixed (bstr "ten") 5 (replicate 10 x01).
Definition sample_ops : list AccountOp := [
  OSignUpTenant 100 (mkSignupRandom 5 (replicate 10 x01) (replicate 32 x02) (replicate 16 x03)) (bstr "Acme") (bstr "a@acme.example")
    (bstr "correct horse");
  OSignUpUser (replicate 16 x04) sample_tenant (bstr " Alice ") (bstr "hunter2!!");
  OSignIn 200 (replicate 16 x05) sample_tenant (bstr "alice") (bstr "hunter2!!");
  OLink sample_tenant (bstr "ALICE") 0 (replicate 32 x06) (sample_device 1 None);
  OLifecycle sample_tenant (bstr "alice") (replicate 32 x07)
    (Replace 1 (sample_device 1 None) (sample_device 2 (Some (be_bytes 32 1))));
  OCreateKey 300 (replicate 32 x08) sample_tenant (Some (bstr "ci"))].
Definition sample_accounts : Accounts := run_ops accounts_new sample_ops.

Lemma sample_ops_ok : ops_ok accounts_new sample_ops.
Proof. repeat (split; [try (by vm_compute); split_and!; by vm_compute|]). done. Qed.

Lemma accounts_stay_well_typed_witness :
  accounts_ok sample_accounts /\ size (users sample_accounts) = 1%nat /\
  handle sample_accounts sample_tenant (bstr "Alice") = Some (bstr "acme/alice").
Proof.
  split; [|by vm_compute]. exact (proj1 (accounts_stay_well_typed sample_ops sample_ops_ok)).
Defined.
