(* ===== verification/AccountsSessions.v ===== *)
(** * AccountsSessions: what a session token authorises
    ([tacenta-accounts/src/lib.rs])

    The sessions of the account store against their history: a token validates
    exactly when some sign-in issued it and nothing since has ended it. *)

From S2P Require Import Prelude Framing RateLimit Inventory Accounts AccountsState.

Section Sessions.
Context {env : Environment} {E : Type} {core : InventoryCore E}.

(** The hash under which a sign-in that draws [random] stores its session. *)
Definition drawn (random : bytes) : bytes := sha256 (random_token (bstr "ses") random).

Definition draws (ops : list AccountOp) : list bytes :=
  omap (fun op => match op with OSignIn _ random _ _ _ => Some (drawn random) | _ => None end) ops.

(** The calls that end a session of [t]'s user [u] that expires at [x]. *)
Definition ends_session (h t u : bytes) (x : Z) (op : AccountOp) : bool :=
  match op with
  | ORevokeSession token => bool_decide (sha256 token = h)
  | ORevokeUser t' u' => bool_decide (t' = t) && bool_decide (normalize u' = u)
  | OSweep now => x <=? now
  | _ => false
  end.

Definition issues (a : Accounts) (op : AccountOp) (h t u : bytes) (x : Z) : Prop :=
  match op with
  | OSignIn now random t0 i p =>
      drawn random = h /\ x = saturating_add64 now SESSION_TTL_SECS /\
      exists token, (sign_in_at a now random t0 i p).2 = Ok (t, u, token)
  | _ => False
  end.

Lemma sign_in_sessions a now random t i p h :
  sessions (sign_in_at a now random t i p).1 !! h =
  match (sign_in_at a now random t i p).2 with
  | Ok (t', u', _) => if decide (drawn random = h) then Some (t', u', saturating_add64 now SESSION_TTL_SECS) else sessions a !! h
  | Err _ => sessions a !! h
  end.
Proof.
  unfold sign_in_at. cbv zeta. destruct (is_blocked _ _ _); [done|]. destruct (tenant_is_flooded _ _ _); [done|].
  destruct (authenticate_user a t i p) as [[t' u']|]; [|done]. cbn. by rewrite lookup_insert.
Qed.

Lemma mutation_sessions a op : match op with OLink _ _ _ _ _ | OLifecycle _ _ _ _ => sessions (apply_op a op) = sessions a | _ => True end.
Proof.
  destruct op; cbn [apply_op]; try done.
  - unfold link_device_binding. cbv zeta. destruct (negb _); [done|]. destruct (bool_decide _); [done|].
    destruct (inventory_mutations a !! _); [done|]. by destruct (_ ≫= _).
  - unfold apply_lifecycle_mutation. cbv zeta. destruct (negb _); [done|]. destruct (bool_decide _); [done|].
    destruct (inventory_lifecycle_mutations a !! _); [done|]. by destruct (_ ≫= _).
Qed.

(** One call, seen from one hash: what it issues, what it ends. *)
Lemma session_step a op h t u x :
  sessions (apply_op a op) !! h = Some (t, u, x) <->
  issues a op h t u x \/
  (sessions a !! h = Some (t, u, x) /\ ends_session h t u x op = false /\ forall t' u' x', ~ issues a op h t' u' x').
Proof.
  destruct op as [now rnd un em pw|now random tn label|tn pf|salt tn un pw|now random tn i p|token|tn un|now|tn un pg k b|tn un k r];
    cbn [issues ends_session].
  - assert (sessions (apply_op a (OSignUpTenant now rnd un em pw)) = sessions a) as ->; [|naive_solver].
    cbn [apply_op]. unfold sign_up_tenant. destruct (_ ≫= _) as [[u' e']|]; [|done]. by repeat case_bool_decide.
  - assert (sessions (apply_op a (OCreateKey now random tn label)) = sessions a) as ->; [|naive_solver].
    cbn [apply_op]. unfold create_api_key. by destruct (negb _).
  - naive_solver.
  - assert (sessions (apply_op a (OSignUpUser salt tn un pw)) = sessions a) as ->; [|naive_solver].
    cbn [apply_op]. unfold sign_up_user. destruct (negb _); [done|]. destruct (_ ≫= _) as [u'|]; [|done]. by case_bool_decide.
  - cbn [apply_op]. rewrite sign_in_sessions. destruct (sign_in_at a now random tn i p) as [a' [[[t1 u1] tok]|e]]; cbn [snd].
    + case_decide as Hd; split; [intros [= -> -> <-]; left; eauto| | |].
      * intros [(_ & -> & tk & [= -> -> _])|(_ & _ & Hno)]; [done|]. destruct (Hno t1 u1 (saturating_add64 now SESSION_TTL_SECS)); eauto.
      * intros Hs. right. split_and!; [done|done|]. by intros t' u' x' (? & _).
      * intros [(? & _)|(? & _)]; done.
    + split; [intros Hs; right; split_and!; [done|done|]; by intros t' u' x' (_ & _ & ? & ?)|].
      intros [(_ & _ & ? & ?)|(? & _)]; done.
  - cbn. rewrite lookup_delete. case_decide; case_bool_decide; naive_solver.
  - cbn [apply_op revoke_user_sessions fst sessions with_sessions]. rewrite map_lookup_filter_Some. cbn.
    split; [intros [Hs Hn]; right|intros [[]|(Hs & He & _)]]; split_and!; try done; try (by intros ? ? ? []).
    + apply not_true_is_false. intros He. bool_prop. by apply Hn.
    + intros [-> ->]. by rewrite !bool_decide_eq_true_2 in He.
  - cbn [apply_op sweep_expired_sessions_at fst sessions with_sessions]. rewrite map_lookup_filter_Some. cbn.
    split; [intros [Hs Hn]; right|intros [[]|(Hs & He & _)]]; split_and!; try done; try (by intros ? ? ? []).
    + apply Z.leb_gt. lia.
    + bool_prop. lia.
  - rewrite (mutation_sessions a (OLink tn un pg k b)). naive_solver.
  - rewrite (mutation_sessions a (OLifecycle tn un k r)). naive_solver.
Qed.

Lemma run_snoc a ops op : run_ops a (ops ++ [op]) = apply_op (run_ops a ops) op.
Proof. unfold run_ops. by rewrite fold_left_app. Qed.

Lemma draws_app ops ops' : draws (ops ++ ops') = draws ops ++ draws ops'.
Proof. apply omap_app. Qed.

(** The history of a stored session. *)
Definition held (ops : list AccountOp) (h t u : bytes) (x : Z) : Prop :=
  exists pre op post, ops = pre ++ op :: post /\ issues (run_ops accounts_new pre) op h t u x /\
    Forall (fun op => ends_session h t u x op = false) post.

Lemma issues_draws a op h t u x : issues a op h t u x -> draws [op] = [h].
Proof. destruct op; try done. cbn. by intros (-> & _). Qed.

Lemma sessions_held ops h t u x :
  NoDup (draws ops) -> sessions (run_ops accounts_new ops) !! h = Some (t, u, x) <-> held ops h t u x.
Proof.
  induction ops as [|op ops IH] using rev_ind; intros Hnd.
  - split; [done|]. intros (pre & op & post & Heq & _). by destruct pre.
  - rewrite run_snoc, session_step. rewrite draws_app in Hnd. pose proof Hnd as (Hnd0 & Hdis & _)%NoDup_app. rewrite (IH Hnd0). split.
    + intros [Hi|((pre & op0 & post & -> & Hi & Hp) & He & _)].
      * exists ops, op, []. split_and!; [done|done|constructor].
      * exists pre, op0, (post ++ [op]). rewrite <- app_assoc. cbn. split_and!; [done|done|]. apply Forall_app. split; [done|by constructor].
    + intros (pre & op0 & post & Heq & Hi & Hp). destruct post as [|last post _] using rev_ind.
      * apply app_inj_tail in Heq as [-> ->]. by left.
      * rewrite app_comm_cons, app_assoc in Heq. apply app_inj_tail in Heq as [-> ->]. apply Forall_app in Hp as [Hp Hl].
        right. split_and!; [by exists pre, op0, post|by inversion Hl|]. intros t' u' x' Hi'.
        apply (Hdis h); [|rewrite (issues_draws _ _ _ _ _ _ Hi'); by left].
        rewrite draws_app. apply elem_of_app. right. change (op0 :: post) with ([op0] ++ post). rewrite draws_app.
        apply elem_of_app. left. rewrite (issues_draws _ _ _ _ _ _ Hi). by left.
Qed.

End Sessions.

Section Exact.
Context {env : Environment} {laws : EnvironmentLaws} {E : Type} {core : InventoryCore E} {core_laws : InventoryCoreLaws E}.

Lemma ops_ok_app ops : forall a ops', ops_ok a (ops ++ ops') -> ops_ok a ops /\ ops_ok (run_ops a ops) ops'.
Proof.
  induction ops as [|op ops IH]; intros a ops'; [done|]. intros [Ho H]. destruct (IH _ _ H) as [? ?]. done.
Qed.

Lemma sign_in_Ok a now random t0 i p t u tok :
  accounts_ok a -> (sign_in_at a now random t0 i p).2 = Ok (t, u, tok) ->
  t = t0 /\ u = normalize i /\ authenticate_user a t0 i p = Ok (t, u) /\ tok = random_token (bstr "ses") random.
Proof.
  intros Ha. unfold sign_in_at. cbv zeta. destruct (is_blocked _ _ _); [done|]. destruct (tenant_is_flooded _ _ _); [done|].
  destruct (authenticate_user a t0 i p) as [[t' u']|] eqn:Eu; [|done]. cbn. intros [= <- <- <-].
  destruct (authenticate_user_Ok _ _ _ _ _ _ (ao_users _ Ha) Eu) as (-> & -> & _). done.
Qed.

(** C16. Sessions are exact.  Over any run of the store in which no two
    sign-ins draw tokens of the same hash, a token validates at an instant, as
    a user of a tenant, exactly when an earlier sign-in to that tenant, under a
    spelling of that username and with credentials that were then correct,
    issued a token of its hash, the instant is before that sign-in's expiry, and
    none of the calls since revoked the token, signed that user out everywhere
    or swept it as expired.  A refused or throttled sign-in issues nothing. *)
Theorem sessions_are_exact (ops : list AccountOp) now token t u :
  ops_ok accounts_new ops -> NoDup (draws ops) ->
  validate_session_at (run_ops accounts_new ops) now token = Some (t, u) <->
  exists pre now0 random i p post,
    ops = pre ++ OSignIn now0 random t i p :: post /\ sha256 (random_token (bstr "ses") random) = sha256 token /\
    (sign_in_at (run_ops accounts_new pre) now0 random t i p).2 = Ok (t, u, random_token (bstr "ses") random) /\
    authenticate_user (run_ops accounts_new pre) t i p = Ok (t, u) /\ u = normalize i /\
    now < saturating_add64 now0 SESSION_TTL_SECS /\
    Forall (fun op => ends_session (sha256 token) t u (saturating_add64 now0 SESSION_TTL_SECS) op = false) post.
Proof.
  intros Hops Hnd.
  assert (validate_session_at (run_ops accounts_new ops) now token = Some (t, u) <->
    exists x, held ops (sha256 token) t u x /\ now < x) as ->.
  { unfold validate_session_at. setoid_rewrite <- sessions_held; [|done].
    destruct (sessions (run_ops accounts_new ops) !! sha256 token) as [[[t' u'] x]|]; cbn; [|naive_solver].
    destruct (now <? x) eqn:Ex; bool_prop; split.
    - intros [= -> ->]. by exists x.
    - by intros (? & [= -> -> ->] & _).
    - done.
    - intros (? & [= -> -> ->] & ?). lia. }
  split.
  - intros (x & (pre & op & post & -> & Hi & Hp) & Hx). destruct op; try done. destruct Hi as (Hd & -> & tok & Htok).
    destruct (ops_ok_app _ _ _ Hops) as [Hpre _].
    destruct (sign_in_Ok _ _ _ _ _ _ _ _ _ (run_preserves _ _ Hpre accounts_new_ok) Htok) as (-> & -> & Ha & ->).
    by exists pre, now0, random, identifier, password, post.
  - intros (pre & now0 & random & i & p & post & -> & Hd & Hs & _ & _ & Hx & Hp). eexists. split; [|exact Hx].
    exists pre, (OSignIn now0 random t i p), post. split_and!; [done| |done]. cbn. split_and!; [done|done|]. by eexists.
Qed.
End Exact.

Lemma sessions_are_exact_witness :
  NoDup (draws sample_ops) /\
  validate_session_at sample_accounts 201 (random_token (bstr "ses") (replicate 16 x05)) = Some (sample_tenant, bstr "alice").
Proof.
  assert (NoDup (draws sample_ops)) as Hnd by (apply NoDup_singleton). split; [exact Hnd|].
  apply (sessions_are_exact sample_ops 201 (random_token (bstr "ses") (replicate 16 x05)) sample_tenant (bstr "alice") sample_ops_ok Hnd).
  exists (take 2 sample_ops), 200, (replicate 16 x05), (bstr "alice"), (bstr "hunter2!!"), (drop 3 sample_ops).
  split_and!; try reflexivity; [vm_compute; reflexivity..|]. repeat constructor.
Defined.
