(* ===== verification/AccountsCodec.v ===== *)
(** * AccountsCodec: messages and snapshots of the account service
    ([tacenta-accounts/src/protocol.rs], [tacenta-accounts/src/persist.rs])

    The request and response codecs, and the whole-state snapshot with the two
    shapes it is read from.  An [expect] that fires is [None]. *)

From S2P Require Import Prelude Framing RateLimit Inventory Accounts AccountsState.

(** ** Fields *)
Definition put_str (s : bytes) : option bytes := put_bytes s.
Definition take_str (bs : bytes) : option (bytes * bytes) :=
  '(s, rest) ← take_bytes bs; if utf8_valid s then Some (s, rest) else None.

(** ** Messages *)
Inductive AccountRequest :=
| SignUpTenant (username email password : bytes)
| SignUpUser (api_key username password : bytes)
| SignIn (api_key identifier password : bytes).

Inductive SignupReason := ReUsernameTaken | ReEmailTaken | ReInvalidUsername | ReInvalidEmail | ReWeakPassword.

Inductive AccountResponse :=
| TenantCreated (tenant_id api_key : bytes)
| UserCreated (username : bytes)
| SignedIn (username token : bytes)
| SignupRefused (reason : SignupReason)
| SignInRefused | ReUnknownTenant | ServerError | ReRateLimited.

(** [SignupError::reason]. *)
Definition signup_reason (e : SignupError) : option SignupReason :=
  match e with
  | UsernameTaken => Some ReUsernameTaken
  | EmailTaken => Some ReEmailTaken
  | InvalidUsername => Some ReInvalidUsername
  | InvalidEmail => Some ReInvalidEmail
  | WeakPassword => Some ReWeakPassword
  | UnknownTenant => None
  end.

Definition reason_tag (r : SignupReason) : byte :=
  match r with
  | ReUsernameTaken => x01 | ReEmailTaken => x02 | ReInvalidUsername => x03 | ReInvalidEmail => x04 | ReWeakPassword => x05
  end.

Definition tag_reason (tag : byte) : option SignupReason :=
  match tag with
  | x01 => Some ReUsernameTaken | x02 => Some ReEmailTaken | x03 => Some ReInvalidUsername | x04 => Some ReInvalidEmail
  | x05 => Some ReWeakPassword | _ => None
  end.

Definition encode_account_request (r : AccountRequest) : option bytes :=
  match r with
  | SignUpTenant a b c => x ← put_str a; y ← put_str b; z ← put_str c; Some (x01 :: x ++ y ++ z)
  | SignUpUser a b c => x ← put_str a; y ← put_str b; z ← put_str c; Some (x02 :: x ++ y ++ z)
  | SignIn a b c => x ← put_str a; y ← put_str b; z ← put_str c; Some (x03 :: x ++ y ++ z)
  end.

Definition decode_account_request (bs : bytes) : option AccountRequest :=
  match bs with
  | [] => None
  | tag :: rest =>
      let three (f : bytes -> bytes -> bytes -> AccountRequest) :=
        '(a, rest) ← take_str rest; '(b, rest) ← take_str rest; '(c, rest) ← take_str rest; then_some rest (f a b c) in
      match tag with x01 => three SignUpTenant | x02 => three SignUpUser | x03 => three SignIn | _ => None end
  end.

Definition encode_account_response (r : AccountResponse) : option bytes :=
  match r with
  | TenantCreated a b => x ← put_str a; y ← put_str b; Some (x01 :: x ++ y)
  | UserCreated a => x ← put_str a; Some (x02 :: x)
  | SignedIn a b => x ← put_str a; y ← put_str b; Some (x03 :: x ++ y)
  | SignupRefused reason => Some [x04; reason_tag reason]
  | SignInRefused => Some [x05]
  | ReUnknownTenant => Some [x06]
  | ServerError => Some [x07]
  | ReRateLimited => Some [x08]
  end.

Definition decode_account_response (bs : bytes) : option AccountResponse :=
  match bs with
  | [] => None
  | tag :: rest =>
      match tag with
      | x01 => '(a, rest) ← take_str rest; '(b, rest) ← take_str rest; then_some rest (TenantCreated a b)
      | x02 => '(a, rest) ← take_str rest; then_some rest (UserCreated a)
      | x03 => '(a, rest) ← take_str rest; '(b, rest) ← take_str rest; then_some rest (SignedIn a b)
      | x04 => match rest with
               | [] => None
               | code :: rest => r ← mjoin (then_some rest (tag_reason code)); Some (SignupRefused r)
               end
      | x05 => then_some rest SignInRefused
      | x06 => then_some rest ReUnknownTenant
      | x07 => then_some rest ServerError
      | x08 => then_some rest ReRateLimited
      | _ => None
      end
  end.

(** ** Snapshots *)
Definition SNAPSHOT_HEADER : bytes := [xff; xff; xff; xff] ++ bstr "TCA2".

Inductive SnapshotSection := SHeader | STenants | SApiKeys | SUsers | SSessions | SInventories | SLinkRecords | SLifecycleRecords.

Inductive RestoreError := Malformed | Truncated (after : SnapshotSection) | Orphan (section : SnapshotSection)
| Inconsistent (section : SnapshotSection).

Definition put_lifecycle_request (r : LifecycleRequest) : bytes :=
  match r with
  | Replace pg retired replacement => x01 :: be64 pg ++ put_binding retired ++ put_binding replacement
  | Revoke pg retired => x02 :: be64 pg ++ put_binding retired
  end.

Definition take_lifecycle_request (bs : bytes) : option (LifecycleRequest * bytes) :=
  match bs with
  | [] => None
  | tag :: rest =>
      '(pg, rest) ← take_u64 rest;
      match tag with
      | x01 => '(retired, rest) ← take_binding rest; '(replacement, rest) ← take_binding rest;
               Some (Replace pg retired replacement, rest)
      | x02 => '(retired, rest) ← take_binding rest; Some (Revoke pg retired, rest)
      | _ => None
      end
  end.

(** *** One record of each section *)
Definition put_tenant (t : TenantRecord) : option bytes :=
  i ← put_str (tr_id t); u ← put_str (tr_username t); e ← put_str (tr_email t); p ← put_str (tr_password_hash t);
  Some (i ++ u ++ e ++ p).
Definition take_tenant (bs : bytes) : option (TenantRecord * bytes) :=
  '(i, r) ← take_str bs; '(u, r) ← take_str r; '(e, r) ← take_str r; '(p, r) ← take_str r; Some (mkTenant i u e p, r).

Definition put_api_key (p : bytes * ApiKeyRecord) : option bytes :=
  t ← put_str (ak_tenant p.2); x ← put_str (ak_prefix p.2); l ← put_str (default [] (ak_label p.2));
  Some (p.1 ++ t ++ x ++ l ++ be64 (ak_created_at p.2)).
Definition take_api_key (bs : bytes) : option ((bytes * ApiKeyRecord) * bytes) :=
  '(h, r) ← take_hash bs; '(t, r) ← take_str r; '(x, r) ← take_str r; '(l, r) ← take_str r; '(c, r) ← take_u64 r;
  Some ((h, mkApiKey t x (if len l =? 0 then None else Some l) c), r).

Definition put_user (u : UserRecord) : option bytes :=
  t ← put_str (ur_tenant u); n ← put_str (ur_username u); p ← put_str (ur_password_hash u); Some (t ++ n ++ p).
Definition take_user (bs : bytes) : option (UserRecord * bytes) :=
  '(t, r) ← take_str bs; '(n, r) ← take_str r; '(p, r) ← take_str r; Some (mkUser t n p, r).

Definition put_session (p : bytes * (bytes * bytes * Z)) : option bytes :=
  t ← put_str p.2.1.1; u ← put_str p.2.1.2; Some (p.1 ++ t ++ u ++ be64 p.2.2).
Definition take_session (bs : bytes) : option ((bytes * (bytes * bytes * Z)) * bytes) :=
  '(h, r) ← take_hash bs; '(t, r) ← take_str r; '(u, r) ← take_str r; '(x, r) ← take_u64 r; Some ((h, (t, u, x)), r).

Definition put_account_inventory (p : bytes * bytes * DeviceInventory) : option bytes :=
  t ← put_str p.1.1; u ← put_str p.1.2; Some (t ++ u ++ encode_inventory p.2).

Definition put_link (p : bytes * bytes * bytes * InventoryMutation) : option bytes :=
  t ← put_str p.1.1.1; u ← put_str p.1.1.2;
  Some (t ++ u ++ p.1.2 ++ be64 (mu_predecessor p.2) ++ put_binding (mu_binding p.2) ++ encode_inventory (mu_result p.2)).

Definition put_lifecycle (p : bytes * bytes * bytes * LifecycleMutation) : option bytes :=
  t ← put_str p.1.1.1; u ← put_str p.1.1.2;
  Some (t ++ u ++ p.1.2 ++ put_lifecycle_request (lm_request p.2) ++ encode_inventory (lm_result p.2)).

Section Records.
Context {E : Type} {core : InventoryCore E}.

Definition take_account_inventory (bs : bytes) : option ((bytes * bytes * DeviceInventory) * bytes) :=
  '(t, r) ← take_str bs; '(u, r) ← take_str r; '(i, r) ← take_inventory r; Some ((t, u, i), r).

Definition take_link (bs : bytes) : option ((bytes * bytes * bytes * InventoryMutation) * bytes) :=
  '(t, r) ← take_str bs; '(u, r) ← take_str r; '(k, r) ← take_hash r; '(pg, r) ← take_u64 r; '(b, r) ← take_binding r;
  '(i, r) ← take_inventory r; Some ((t, u, k, mkMutation pg b i), r).

Definition take_lifecycle (bs : bytes) : option ((bytes * bytes * bytes * LifecycleMutation) * bytes) :=
  '(t, r) ← take_str bs; '(u, r) ← take_str r; '(k, r) ← take_hash r; '(q, r) ← take_lifecycle_request r;
  '(i, r) ← take_inventory r; Some ((t, u, k, mkLifecycle q i), r).
End Records.

(** A count, cast to a [u32], and the records in the map's order. *)
Definition put_entries {X} (put_item : X -> option bytes) (l : list X) : option bytes :=
  body ← put_many put_item l; Some (put_u32 (len l) ++ body).

Section Snapshot.
Context {env : Environment} {E : Type} {core : InventoryCore E}.

Definition snapshot (a : Accounts) : option bytes :=
  t ← put_entries put_tenant (hash_iter (tenants a)).*2;
  k ← put_entries put_api_key (hash_iter (api_keys a));
  u ← put_entries put_user (hash_iter (users a)).*2;
  s ← put_entries put_session (hash_iter (sessions a));
  d ← put_entries put_account_inventory (hash_iter (device_inventories a));
  m ← put_entries put_link (hash_iter (inventory_mutations a));
  l ← put_entries put_lifecycle (hash_iter (inventory_lifecycle_mutations a));
  Some (SNAPSHOT_HEADER ++ t ++ k ++ u ++ s ++ d ++ m ++ l).

(** *** Restoring one record *)
Definition restore_tenant (a : Accounts) (t : TenantRecord) : result RestoreError Accounts :=
  Ok (with_tenants a (<[tr_id t := t]> (tenants a)) (<[tr_username t := tr_id t]> (tenant_by_username a))
        (<[tr_email t := tr_id t]> (tenant_by_email a)) (api_keys a)).

Definition restore_api_key (a : Accounts) (p : bytes * ApiKeyRecord) : result RestoreError Accounts :=
  if negb (bool_decide (is_Some (tenants a !! ak_tenant p.2))) then Err (Orphan SApiKeys)
  else Ok (with_api_keys a (<[p.1 := p.2]> (api_keys a))).

Definition restore_user (a : Accounts) (u : UserRecord) : result RestoreError Accounts :=
  if negb (bool_decide (is_Some (tenants a !! ur_tenant u))) then Err (Orphan SUsers)
  else Ok (with_users a (<[(ur_tenant u, ur_username u) := u]> (users a))).

Definition restore_session (a : Accounts) (p : bytes * (bytes * bytes * Z)) : result RestoreError Accounts :=
  if negb (bool_decide (is_Some (users a !! p.2.1))) then Err (Orphan SSessions)
  else Ok (with_sessions a (<[p.1 := p.2]> (sessions a))).

(** The checks the three device sections share. *)
Definition owned_inventory (section : SnapshotSection) (a : Accounts) (t u : bytes) (i : DeviceInventory)
    : result RestoreError unit :=
  if negb (bool_decide (is_Some (users a !! (t, u)))) then Err (Orphan section) else
  h ← ok_or (Orphan section) (handle a t u);
  map_err (Inconsistent section) (validate_inventory h i).

Definition restore_inventory (a : Accounts) (p : bytes * bytes * DeviceInventory) : result RestoreError Accounts :=
  _ ← owned_inventory SInventories a p.1.1 p.1.2 p.2;
  if bool_decide (is_Some (device_inventories a !! p.1)) then Err (Inconsistent SInventories)
  else Ok (with_inventory a (<[p.1 := p.2]> (device_inventories a)) (inventory_mutations a) (inventory_lifecycle_mutations a)).

Definition restore_link (a : Accounts) (p : bytes * bytes * bytes * InventoryMutation) : result RestoreError Accounts :=
  _ ← owned_inventory SLinkRecords a p.1.1.1 p.1.1.2 (mu_result p.2);
  if inv_generation (mu_result p.2) <=? mu_predecessor p.2 then Err (Inconsistent SLinkRecords) else
  if bool_decide (is_Some (inventory_mutations a !! p.1)) then Err (Inconsistent SLinkRecords)
  else Ok (with_inventory a (device_inventories a) (<[p.1 := p.2]> (inventory_mutations a)) (inventory_lifecycle_mutations a)).

Definition restore_lifecycle (a : Accounts) (p : bytes * bytes * bytes * LifecycleMutation) : result RestoreError Accounts :=
  _ ← owned_inventory SLifecycleRecords a p.1.1.1 p.1.1.2 (lm_result p.2);
  if inv_generation (lm_result p.2) <=? request_predecessor (lm_request p.2) then Err (Inconsistent SLifecycleRecords) else
  if bool_decide (is_Some (inventory_mutations a !! p.1)) then Err (Inconsistent SLifecycleRecords) else
  if bool_decide (is_Some (inventory_lifecycle_mutations a !! p.1)) then Err (Inconsistent SLifecycleRecords)
  else Ok (with_inventory a (device_inventories a) (inventory_mutations a) (<[p.1 := p.2]> (inventory_lifecycle_mutations a))).

(** *** Sections *)
Definition need {X} (o : option X) : result RestoreError X := ok_or Malformed o.

(** [for _ in 0..count]: take one record, check it, insert it. *)
Fixpoint restore_loop {X} (take_item : bytes -> option (X * bytes)) (put_in : Accounts -> X -> result RestoreError Accounts)
    (count : nat) (a : Accounts) (rest : bytes) : result RestoreError (Accounts * bytes) :=
  match count with
  | O => Ok (a, rest)
  | S count =>
      '(x, rest) ← need (take_item rest);
      a ← put_in a x;
      restore_loop take_item put_in count a rest
  end.

Definition restore_section {X} (take_item : bytes -> option (X * bytes)) (put_in : Accounts -> X -> result RestoreError Accounts)
    (a : Accounts) (rest : bytes) : result RestoreError (Accounts * bytes) :=
  '(count, rest) ← need (take_u32 rest);
  restore_loop take_item put_in (Z.to_nat count) a rest.

(** The start of a section that must exist. *)
Definition present (rest : bytes) (after : SnapshotSection) : result RestoreError unit :=
  match rest with [] => Err (Truncated after) | _ => Ok tt end.

Definition try_restore (bs : bytes) : result RestoreError Accounts :=
  let '(headed, rest) := match strip_prefix SNAPSHOT_HEADER bs with Some rest => (true, rest) | None => (false, bs) end in
  _ ← (if headed : bool then present rest SHeader else Ok tt);
  '(a, rest) ← restore_section take_tenant restore_tenant accounts_new rest;
  _ ← present rest STenants;
  '(a, rest) ← restore_section take_api_key restore_api_key a rest;
  _ ← present rest SApiKeys;
  '(a, rest) ← restore_section take_user restore_user a rest;
  _ ← present rest SUsers;
  '(a, rest) ← restore_section take_session restore_session a rest;
  if negb headed then match rest with [] => Ok a | _ => Err Malformed end else
  _ ← present rest SSessions;
  '(a, rest) ← restore_section take_account_inventory restore_inventory a rest;
  _ ← present rest SInventories;
  '(a, rest) ← restore_section take_link restore_link a rest;
  _ ← present rest SLinkRecords;
  '(a, rest) ← restore_section take_lifecycle restore_lifecycle a rest;
  match rest with [] => Ok a | _ => Err Malformed end.

Definition restore (bs : bytes) : option Accounts := match try_restore bs with Ok a => Some a | Err _ => None end.
End Snapshot.

(** ** The messages are exact *)
#[global] Instance frames_str : Frames (fun s => utf8_valid s = true) put_str take_str.
Proof.
  split.
  - intros s bs rest Hs H. unfold take_str. rewrite (frames_take_put (take := take_bytes) _ _ _ I H). cbn. by rewrite Hs.
  - intros input s rest H. unfold take_str in H. inv_bind.
    match goal with H : take_bytes _ = Some _ |- _ => apply frames_put_take in H as (_ & bs & Hp & ->) end. eauto.
Qed.

Lemma take_str_app s b rest : put_str s = Some b -> utf8_valid s = true -> take_str (b ++ rest) = Some (s, rest).
Proof. intros Hb Hs. revert Hs Hb. exact (frames_take_put (wf := fun s => utf8_valid s = true) (put := put_str) (take := take_str) s b rest). Qed.

Lemma take_binding_app b rest : binding_wf b -> take_binding (put_binding b ++ rest) = Some (b, rest).
Proof. intros Hb. by apply (frames_take_put (take := take_binding)). Qed.

(** Opens and replays string fields. *)
Ltac str_inv := repeat match goal with
  | H : take_str _ = Some _ |- _ => apply frames_put_take in H as (? & ? & ? & ->)
  | H : take_hash _ = Some _ |- _ => apply take_hash_inv in H as [? ->]
  | H : take_binding _ = Some _ |- _ => apply frames_put_take in H as (? & ? & [= <-] & ->)
  end; frames_inv.
Ltac str_fwd := repeat (rewrite <- ?app_assoc; cbn [mbind option_bind app];
  first [ erewrite take_str_app by eassumption
        | rewrite take_hash_app by done
        | rewrite take_u64_app by done
        | rewrite take_binding_app by done ]); cbn [mbind option_bind app].

Definition request_text (r : AccountRequest) : Prop :=
  match r with
  | SignUpTenant a b c | SignUpUser a b c | SignIn a b c => utf8_valid a = true /\ utf8_valid b = true /\ utf8_valid c = true
  end.

Definition response_text (r : AccountResponse) : Prop :=
  match r with
  | TenantCreated a b | SignedIn a b => utf8_valid a = true /\ utf8_valid b = true
  | UserCreated a => utf8_valid a = true
  | _ => True
  end.

Lemma decode_encode_request r bs : request_text r -> encode_account_request r = Some bs -> decode_account_request bs = Some r.
Proof.
  intros Hr H. destruct r; destruct Hr as (? & ? & ?); cbn in H; inv_bind; cbn [decode_account_request]; cbv zeta;
    rewrite <- (app_nil_r (_ ++ _)); by str_fwd.
Qed.

Lemma encode_decode_request bs r : decode_account_request bs = Some r -> request_text r /\ encode_account_request r = Some bs.
Proof.
  unfold decode_account_request. destruct bs as [|tag rest]; [done|]. cbv zeta. intros H. tag_cases H tag; inv_bind; str_inv; end_inv; cbn;
    (split; [done|]); put_fwd; by rewrite ?app_nil_r.
Qed.

Lemma decode_encode_response r bs : response_text r -> encode_account_response r = Some bs -> decode_account_response bs = Some r.
Proof.
  intros Hr H. destruct r as [a b|a|a b|[]| | | |]; cbn in Hr, H; destruct_and?; inv_bind; try done; cbn [decode_account_response];
    rewrite <- (app_nil_r (_ ++ _)) || rewrite <- (app_nil_r l); by str_fwd.
Qed.

Lemma encode_decode_response bs r : decode_account_response bs = Some r -> response_text r /\ encode_account_response r = Some bs.
Proof.
  unfold decode_account_response. destruct bs as [|tag rest]; [done|]. intros H. tag_cases H tag.
  4: { destruct rest as [|code rest]; [done|]. destruct rest; [|done]. by destruct code; cbn in H; inv_bind. }
  all: inv_bind; str_inv; end_inv; cbn; (split; [done|]); put_fwd; by rewrite ?app_nil_r.
Qed.

(** ** Records *)
Lemma frames_extend {X} {wf : X -> Prop} {put take} {HF : Frames wf put take} bs x r s :
  take bs = Some (x, r) -> take (bs ++ s) = Some (x, r ++ s).
Proof. intros Ht. apply frames_put_take in Ht as (Hx & b & Hb & ->). rewrite <- app_assoc. by apply frames_take_put. Qed.

Definition tenant_text (t : TenantRecord) : Prop :=
  utf8_valid (tr_id t) = true /\ utf8_valid (tr_username t) = true /\ utf8_valid (tr_email t) = true /\
  utf8_valid (tr_password_hash t) = true.

#[global] Instance frames_tenant : Frames tenant_text put_tenant take_tenant.
Proof.
  split.
  - intros [i u e p] bs rest (H1 & H2 & H3 & H4) H. unfold put_tenant in H. cbn in *. inv_bind. unfold take_tenant. by str_fwd.
  - intros input t rest H. unfold take_tenant in H. inv_bind. str_inv. split; [done|]. eexists. split; [unfold put_tenant; cbn; by put_fwd|].
    by rewrite <- !app_assoc.
Qed.

Definition key_text (p : bytes * ApiKeyRecord) : Prop :=
  len p.1 = 32 /\ utf8_valid (ak_tenant p.2) = true /\ utf8_valid (ak_prefix p.2) = true /\ u64_wf (ak_created_at p.2) /\
  match ak_label p.2 with Some l => l <> [] /\ utf8_valid l = true | None => True end.

#[global] Instance frames_api_key : Frames key_text put_api_key take_api_key.
Proof.
  split.
  - intros [h [t x l c]] bs rest (H1 & H2 & H3 & H4 & Hl) H. unfold put_api_key in H. cbn in *. inv_bind. unfold take_api_key.
    assert (utf8_valid (default [] l) = true) by (destruct l; naive_solver). str_fwd.
    destruct l as [l|]; cbn; [|done]. destruct Hl as [Hl _]. destruct (len l =? 0) eqn:El; [|done]. bool_prop. by apply len_zero_nil in El.
  - intros input [h k] rest H. unfold take_api_key in H. inv_bind. str_inv. split.
    + unfold key_text. cbn. split_and!; try done. destruct (len _ =? 0) eqn:El; [done|]. bool_prop. split; [|done]. by intros ->.
    + eexists. split; [unfold put_api_key; cbn; put_fwd|].
      * match goal with |- context [default [] (if ?c then None else Some ?l)] =>
          assert (default [] (if c then None else Some l) = l) as ->; [|put_fwd; done] end.
        destruct (len _ =? 0) eqn:El; [|done]. bool_prop. by apply len_zero_nil in El.
      * by rewrite <- !app_assoc.
Qed.

Definition user_text (u : UserRecord) : Prop :=
  utf8_valid (ur_tenant u) = true /\ utf8_valid (ur_username u) = true /\ utf8_valid (ur_password_hash u) = true.

#[global] Instance frames_user : Frames user_text put_user take_user.
Proof.
  split.
  - intros [t n p] bs rest (H1 & H2 & H3) H. unfold put_user in H. cbn in *. inv_bind. unfold take_user. by str_fwd.
  - intros input u rest H. unfold take_user in H. inv_bind. str_inv. split; [done|]. eexists. split; [unfold put_user; cbn; by put_fwd|].
    by rewrite <- !app_assoc.
Qed.

Definition session_text (p : bytes * (bytes * bytes * Z)) : Prop :=
  len p.1 = 32 /\ utf8_valid p.2.1.1 = true /\ utf8_valid p.2.1.2 = true /\ u64_wf p.2.2.

#[global] Instance frames_session : Frames session_text put_session take_session.
Proof.
  split.
  - intros [h [[t u] x]] bs rest (H1 & H2 & H3 & H4) H. unfold put_session in H. cbn in *. inv_bind. unfold take_session. by str_fwd.
  - intros input [h [[t u] x]] rest H. unfold take_session in H. inv_bind. str_inv. split; [done|].
    eexists. split; [unfold put_session; cbn; by put_fwd|]. by rewrite <- !app_assoc.
Qed.

#[global] Instance frames_lifecycle_request : Frames request_wf (fun r => Some (put_lifecycle_request r)) take_lifecycle_request.
Proof.
  split.
  - intros [pg r n|pg r] bs rest Hr Hb; apply (inj Some) in Hb as <-; cbn [request_wf] in Hr; destruct_and?; cbn [put_lifecycle_request take_lifecycle_request app]; by str_fwd.
  - intros input r rest H. unfold take_lifecycle_request in H. destruct input as [|tag input]; [done|]. inv_bind.
    match goal with H : match tag with _ => _ end = _ |- _ => tag_cases H tag end; inv_bind; str_inv; (split; [done|]); eexists;
      (split; [done|]); cbn; by rewrite <- !app_assoc.
Qed.

Section DeviceRecords.
Context {E : Type} {core : InventoryCore E} {core_laws : InventoryCoreLaws E}.

Lemma take_inventory_app i rest : inventory_wf i -> take_inventory (encode_inventory i ++ rest) = Some (i, rest).
Proof. intros Hi. by apply (frames_take_put (take := take_inventory)). Qed.

Definition inventory_text (p : bytes * bytes * DeviceInventory) : Prop :=
  utf8_valid p.1.1 = true /\ utf8_valid p.1.2 = true /\ inventory_wf p.2.

Ltac inventory_inv := str_inv; repeat match goal with
  | H : take_inventory _ = Some _ |- _ => apply frames_put_take in H as (? & ? & [= <-] & ->)
  | H : take_lifecycle_request _ = Some _ |- _ => apply frames_put_take in H as (? & ? & [= <-] & ->)
  end.

#[global] Instance frames_account_inventory : Frames inventory_text put_account_inventory take_account_inventory.
Proof.
  split.
  - intros [[t u] i] bs rest (H1 & H2 & H3) H. unfold put_account_inventory in H. cbn in *. inv_bind. unfold take_account_inventory.
    str_fwd. by rewrite take_inventory_app.
  - intros input [[t u] i] rest H. unfold take_account_inventory in H. inv_bind. inventory_inv. split; [done|].
    eexists. split; [unfold put_account_inventory; cbn; by put_fwd|]. by rewrite <- !app_assoc.
Qed.

Definition link_text (p : bytes * bytes * bytes * InventoryMutation) : Prop :=
  utf8_valid p.1.1.1 = true /\ utf8_valid p.1.1.2 = true /\ len p.1.2 = 32 /\ u64_wf (mu_predecessor p.2) /\
  binding_wf (mu_binding p.2) /\ inventory_wf (mu_result p.2).

#[global] Instance frames_link : Frames link_text put_link take_link.
Proof.
  split.
  - intros [[[t u] k] [pg b i]] bs rest (H1 & H2 & H3 & H4 & H5 & H6) H. unfold put_link in H. cbn in *. inv_bind. unfold take_link.
    str_fwd. by rewrite take_inventory_app.
  - intros input [[[t u] k] m] rest H. unfold take_link in H. inv_bind. inventory_inv. split; [done|].
    eexists. split; [unfold put_link; cbn; by put_fwd|]. by rewrite <- !app_assoc.
Qed.

Definition lifecycle_text (p : bytes * bytes * bytes * LifecycleMutation) : Prop :=
  utf8_valid p.1.1.1 = true /\ utf8_valid p.1.1.2 = true /\ len p.1.2 = 32 /\ request_wf (lm_request p.2) /\
  inventory_wf (lm_result p.2).

#[global] Instance frames_lifecycle : Frames lifecycle_text put_lifecycle take_lifecycle.
Proof.
  split.
  - intros [[[t u] k] [q i]] bs rest (H1 & H2 & H3 & H4 & H5) H. unfold put_lifecycle in H. cbn in *. inv_bind. unfold take_lifecycle.
    str_fwd. rewrite (frames_take_put (put := fun r => Some (put_lifecycle_request r)) (take := take_lifecycle_request) q _ _ H4 eq_refl).
    cbn [mbind option_bind]. by rewrite take_inventory_app.
  - intros input [[[t u] k] m] rest H. unfold take_lifecycle in H. inv_bind. inventory_inv. split; [done|].
    eexists. split; [unfold put_lifecycle; cbn; by put_fwd|]. by rewrite <- !app_assoc.
Qed.
End DeviceRecords.

(** ** A cut snapshot restores as nothing *)
Section Cut.
Context {env : Environment} {E : Type} {core : InventoryCore E} {core_laws : InventoryCoreLaws E}.

Definition reads {A} (s : bytes) (f : bytes -> result RestoreError (A * bytes)) : Prop :=
  forall bs a r, f bs = Ok (a, r) -> f (bs ++ s) = Ok (a, r ++ s).

Lemma restore_loop_reads {X} {wf : X -> Prop} {put take} put_in {HF : Frames wf put take} s n : forall a,
  reads s (restore_loop take put_in n a).
Proof.
  induction n as [|n IH]; intros a bs a' r Hr; cbn [restore_loop] in *; [by injection Hr as <- <-|]. unfold need in *.
  destruct (take bs) as [[x rest]|] eqn:Et; [|done]. rewrite (frames_extend bs x rest s Et). cbn [ok_or mbind result_bind] in *.
  destruct (put_in a x) as [a1|]; [|done]. cbn [mbind result_bind] in *. by apply IH.
Qed.

Lemma restore_section_reads {X} {wf : X -> Prop} {put take} put_in {HF : Frames wf put take} s a :
  reads s (restore_section take put_in a).
Proof.
  intros bs a' r Hr. unfold restore_section, need in *. destruct (take_u32 bs) as [[n rest]|] eqn:Et; [|done].
  rewrite (frames_extend (take := take_u32) bs n rest s Et). cbn [ok_or mbind result_bind] in *.
  by apply (restore_loop_reads put_in s _ a).
Qed.

Lemma restore_loop_shrinks {X} {wf : X -> Prop} {put take} put_in {HF : Frames wf put take} n : forall a bs a' r,
  restore_loop take put_in n a bs = Ok (a', r) -> len r <= len bs.
Proof.
  induction n as [|n IH]; intros a bs a' r Hr; cbn [restore_loop] in Hr; [by injection Hr as <- <-|]. unfold need in Hr.
  destruct (take bs) as [[x rest]|] eqn:Et; [|done]. cbn [ok_or mbind result_bind] in Hr.
  destruct (put_in a x) as [a1|]; [|done]. apply IH in Hr. apply frames_put_take in Et as (_ & b & _ & ->). len_lia.
Qed.

Lemma restore_section_shrinks {X} {wf : X -> Prop} {put take} put_in {HF : Frames wf put take} a bs a' r :
  restore_section take put_in a bs = Ok (a', r) -> 4 + len r <= len bs.
Proof.
  unfold restore_section, need. destruct (take_u32 bs) as [[n rest]|] eqn:Et; [|done]. cbn [ok_or mbind result_bind]. intros Hr.
  pose proof (restore_loop_shrinks (put := put) _ _ _ _ _ _ Hr). apply take_u32_inv in Et as [_ ->]. unfold put_u32. len_lia.
Qed.

Lemma present_extend rest s after u : present rest after = Ok u -> present (rest ++ s) after = Ok u.
Proof. by destruct rest. Qed.

Lemma starts_with_extend p bs s : starts_with p bs = true -> starts_with p (bs ++ s) = true.
Proof. intros [r ->]%starts_with_true. rewrite <- app_assoc. apply starts_with_app. Qed.

Lemma starts_with_shorten p bs s : (length p <= length bs)%nat -> starts_with p (bs ++ s) = true -> starts_with p bs = true.
Proof.
  revert bs. induction p as [|x p IH]; intros [|y bs] Hl H; cbn in *; try done; try lia.
  apply andb_prop in H as [Hx H]. rewrite Hx. apply IH; [lia|done].
Qed.

(** One section read of a snapshot and of its extension. *)
Ltac section_extend H :=
  match type of H with
  | context [restore_section ?t ?p ?a ?r] =>
      let Es := fresh "Es" in let Ee := fresh "Ee" in
      destruct (restore_section t p a r) as [[? ?]|] eqn:Es; cbn [mbind result_bind] in H; [|discriminate H];
      match goal with |- context [restore_section t p a (r ++ ?s)] =>
        pose proof (restore_section_reads (take := t) p s a _ _ _ Es) as Ee; rewrite Ee; cbn [mbind result_bind] end
  | context [present ?r ?x] =>
      let Ep := fresh "Ep" in
      destruct (present r x) eqn:Ep; cbn [mbind result_bind] in H; [|discriminate H];
      rewrite (present_extend _ _ _ _ Ep); cbn [mbind result_bind]
  end.

Lemma restore_extended p s a : try_restore p = Ok a -> s <> [] -> try_restore (p ++ s) = Err Malformed.
Proof.
  intros H Hs. unfold try_restore, strip_prefix in *.
  destruct (starts_with SNAPSHOT_HEADER p) eqn:Eh.
  - rewrite (starts_with_extend _ p s Eh). assert (length SNAPSHOT_HEADER <= length p)%nat as Hl.
    { apply starts_with_true in Eh as [r ->]. rewrite length_app. lia. }
    rewrite drop_app_le by done. cbn [negb] in *. repeat section_extend H.
    match type of H with match ?l with _ => _ end = _ => destruct l; [|done] end. cbn. by destruct s.
  - cbn [negb mbind result_bind] in H.
    assert (8 <= length p)%nat as Hl.
    { destruct (restore_section take_tenant restore_tenant accounts_new p) as [[a1 r1]|] eqn:E1; [|done]. cbn [mbind result_bind] in H.
      destruct (present r1 STenants); [|done]. cbn [mbind result_bind] in H.
      destruct (restore_section take_api_key restore_api_key a1 r1) as [[a2 r2]|] eqn:E2; [|done].
      pose proof (restore_section_shrinks (put := put_tenant) _ _ _ _ _ E1). pose proof (restore_section_shrinks (put := put_api_key) _ _ _ _ _ E2). unfold len in *. lia. }
    destruct (starts_with SNAPSHOT_HEADER (p ++ s)) eqn:Eh'; [by rewrite (starts_with_shorten SNAPSHOT_HEADER p s Hl Eh') in Eh|].
    cbn [negb mbind result_bind]. repeat section_extend H.
    match type of H with match ?l with _ => _ end = _ => destruct l; [|done] end. cbn. by destruct s.
Qed.
End Cut.

(** ** A snapshot restores the store *)
Fixpoint restore_all {X} (put_in : Accounts -> X -> result RestoreError Accounts) (a : Accounts) (l : list X)
    : result RestoreError Accounts :=
  match l with [] => Ok a | x :: l => a ← put_in a x; restore_all put_in a l end.

Section Restored.
Context {env : Environment} {laws : EnvironmentLaws} {E : Type} {core : InventoryCore E} {core_laws : InventoryCoreLaws E}.

Lemma restore_loop_all {X} {wf : X -> Prop} {put take} put_in {HF : Frames wf put take} l : forall a bs rest,
  Forall wf l -> put_many put l = Some bs ->
  restore_loop take put_in (length l) a (bs ++ rest) = a' ← restore_all put_in a l; Ok (a', rest).
Proof.
  induction l as [|x l IH]; intros a bs rest Hl Hb; cbn [length restore_loop restore_all].
  - unfold put_many in Hb. cbn in Hb. by injection Hb as <-.
  - apply Forall_cons in Hl as [Hx Hl]. apply put_many_cons in Hb as (b1 & b2 & H1 & H2 & ->).
    rewrite <- app_assoc, (frames_take_put _ _ _ Hx H1). cbn [need ok_or mbind result_bind].
    destruct (put_in a x) as [a1|]; [|done]. cbn [mbind result_bind]. by apply IH.
Qed.

Lemma section_restores {X} {wf : X -> Prop} {put take} put_in {HF : Frames wf put take} l a a' bs rest :
  Forall wf l -> len l <= u32_max -> put_entries put l = Some bs -> restore_all put_in a l = Ok a' ->
  restore_section take put_in a (bs ++ rest) = Ok (a', rest).
Proof.
  intros Hl Hn Hb Ha. unfold put_entries in Hb. inv_bind. unfold restore_section.
  rewrite <- app_assoc, take_u32_app by (unfold u32_wf; len_lia). cbn [need ok_or mbind result_bind].
  rewrite to_nat_len, (restore_loop_all put_in l a _ rest Hl E0), Ha. done.
Qed.

(** A section that fills one map, one fresh key a record. *)
Lemma restore_all_map {X K A} `{Countable K} (upd : gmap K A -> Accounts) (key : X -> K) (val : X -> A) put_in (good : X -> Prop) l :
  (forall m x, good x -> m !! key x = None -> put_in (upd m) x = Ok (upd (<[key x := val x]> m))) ->
  forall m, Forall good l -> NoDup (key <$> l) -> Forall (fun x => m !! key x = None) l ->
  restore_all put_in (upd m) l = Ok (upd (fold_left (fun m x => <[key x := val x]> m) l m)).
Proof.
  intros Hs. induction l as [|x l IH]; intros m Hg Hnd Hm; cbn [restore_all fold_left]; [done|].
  apply Forall_cons in Hg as [Hx Hg]. apply Forall_cons in Hm as [Hmx Hm]. apply NoDup_cons in Hnd as [Hnx Hnd].
  rewrite Hs by done. cbn [mbind result_bind]. apply IH; [done|done|]. apply Forall_forall. intros y Hy.
  rewrite lookup_insert_ne; [by apply (proj1 (Forall_forall _ _) Hm)|]. intros Heq. apply Hnx. rewrite Heq. by apply list_elem_of_fmap_2.
Qed.

Lemma fold_insert_lookup {X K A} `{Countable K} (key : X -> K) (val : X -> A) l k v : forall m : gmap K A,
  NoDup (key <$> l) ->
  fold_left (fun m x => <[key x := val x]> m) l m !! k = Some v <->
  (exists x, x ∈ l /\ key x = k /\ val x = v) \/ (m !! k = Some v /\ ~ (k ∈ key <$> l)).
Proof.
  induction l as [|y l IH]; intros m Hnd; cbn [fold_left].
  - split; [intros Hm; right; split; [done|apply not_elem_of_nil]|]. intros [(x & Hx & _)|[? _]]; [by apply elem_of_nil in Hx|done].
  - apply NoDup_cons in Hnd as [Hy Hnd]. rewrite IH by done. rewrite lookup_insert, fmap_cons, not_elem_of_cons. split.
    + intros [(x & ? & ? & ?)|[Hm Hk]]; [left; exists x; split_and!; [by right|done..]|]. case_decide as Hyk.
      * injection Hm as <-. left. exists y. split_and!; [by left|done..].
      * right. done.
    + intros [(x & Hx & <- & <-)|[Hm [Hne Hk]]].
      * apply elem_of_cons in Hx as [->|Hx]; [|left; by exists x]. right. by rewrite decide_True.
      * right. by rewrite decide_False.
Qed.

Lemma fold_insert_map {X K A} `{Countable K} (key : X -> K) (val : X -> A) l (m : gmap K A) :
  NoDup (key <$> l) -> (forall k v, m !! k = Some v <-> exists x, x ∈ l /\ key x = k /\ val x = v) ->
  fold_left (fun m x => <[key x := val x]> m) l ∅ = m.
Proof.
  intros Hnd Hm. apply map_eq. intros k. apply option_eq. intros v. rewrite fold_insert_lookup, Hm by done.
  rewrite lookup_empty. naive_solver.
Qed.

(** What iterating a map visits. *)
Lemma hash_iter_elem {K A} `{Countable K} (m : gmap K A) p : p ∈ hash_iter m <-> m !! p.1 = Some p.2.
Proof. rewrite (hash_iter_perm m). destruct p. apply elem_of_map_to_list. Qed.

Lemma hash_iter_keys {K A} `{Countable K} (m : gmap K A) : NoDup (hash_iter m).*1.
Proof. rewrite (hash_iter_perm m). apply NoDup_fst_map_to_list. Qed.

Lemma hash_iter_len {K A} `{Countable K} (m : gmap K A) : len (hash_iter m) = Z.of_nat (size m).
Proof. rewrite (len_perm _ _ (hash_iter_perm m)). unfold len. by rewrite length_map_to_list. Qed.

Lemma hash_iter_map {K A} `{Countable K} (m : gmap K A) :
  fold_left (fun m x => <[x.1 := x.2]> m) (hash_iter m) ∅ = m.
Proof.
  apply (fold_insert_map fst snd); [apply hash_iter_keys|]. intros k v. split.
  - intros Hk. exists (k, v). split_and!; [by apply hash_iter_elem|done..].
  - intros ([k' v'] & Hx & <- & <-). by apply hash_iter_elem in Hx.
Qed.

Lemma put_str_ok s : str_ok s -> is_Some (put_str s).
Proof. intros [_ Hl]. destruct (put_bytes_total s Hl) as (b & Hb & _). by exists b. Qed.

Lemma put_entries_total {X} (put_item : X -> option bytes) l :
  Forall (fun x => is_Some (put_item x)) l -> is_Some (put_entries put_item l).
Proof.
  intros Hl. unfold put_entries, put_many. apply mapM_is_Some in Hl as [k Hk]. rewrite Hk. by eexists.
Qed.

(** The store as each section leaves it. *)
Definition stage_tenants (a : Accounts) : Accounts := with_tenants accounts_new (tenants a) (tenant_by_username a) (tenant_by_email a) ∅.
Definition stage_keys (a : Accounts) : Accounts := with_api_keys (stage_tenants a) (api_keys a).
Definition stage_users (a : Accounts) : Accounts := with_users (stage_keys a) (users a).
Definition stage_sessions (a : Accounts) : Accounts := with_sessions (stage_users a) (sessions a).
Definition stage_devices (a : Accounts) d m l : Accounts := with_inventory (stage_sessions a) d m l.

Lemma records_nodup {K A B} `{Countable K} (m : gmap K A) (f : A -> B) :
  (forall k k' x y, m !! k = Some x -> m !! k' = Some y -> f x = f y -> k = k') -> NoDup (f <$> (hash_iter m).*2).
Proof.
  intros Hf. rewrite <- list_fmap_compose. apply NoDup_fmap_2_strong.
  - intros [k x] [k' y] Hx Hy Heq. apply hash_iter_elem in Hx, Hy. cbn in *. assert (k = k') as <- by eauto. congruence.
  - rewrite (hash_iter_perm m). apply NoDup_map_to_list.
Qed.

Lemma records_elem {K A} `{Countable K} (m : gmap K A) x : x ∈ (hash_iter m).*2 <-> exists k, m !! k = Some x.
Proof.
  rewrite list_elem_of_fmap. split.
  - intros ([k y] & -> & Hy). apply hash_iter_elem in Hy. by exists k.
  - intros [k Hk]. exists (k, x). split; [done|by apply hash_iter_elem].
Qed.

Lemma restore_tenants_fold l : forall t u e,
  restore_all restore_tenant (with_tenants accounts_new t u e ∅) l =
  Ok (with_tenants accounts_new (fold_left (fun m x => <[tr_id x := x]> m) l t)
        (fold_left (fun m x => <[tr_username x := tr_id x]> m) l u) (fold_left (fun m x => <[tr_email x := tr_id x]> m) l e) ∅).
Proof. induction l as [|x l IH]; intros t u e; [done|]. cbn [restore_all fold_left]. apply IH. Qed.

Lemma restore_all_tenants a : tenants_ok a -> restore_all restore_tenant accounts_new (hash_iter (tenants a)).*2 = Ok (stage_tenants a).
Proof.
  intros [T1 T2 T3 _]. change accounts_new with (with_tenants accounts_new ∅ ∅ ∅ ∅) at 1. rewrite restore_tenants_fold.
  unfold stage_tenants. f_equal. f_equal; apply fold_insert_map.
  - apply records_nodup. intros k k' x y Hx Hy Heq. destruct (T1 k x Hx) as [<- _]. by destruct (T1 k' y Hy) as [<- _].
  - intros k v. setoid_rewrite records_elem. split.
    + intros Hk. exists v. destruct (T1 k v Hk) as [<- _]. by split_and!; [exists (tr_id v)|..].
    + intros (x & [k' Hk] & <- & <-). by destruct (T1 k' x Hk) as [-> _].
  - apply records_nodup. intros k k' x y Hx Hy Heq. destruct (T1 k x Hx) as (_ & _ & _ & _ & _ & H1 & _).
    destruct (T1 k' y Hy) as (_ & _ & _ & _ & _ & H2 & _). rewrite Heq in H1. congruence.
  - intros k v. setoid_rewrite records_elem. split.
    + intros Hk. destruct (T2 k v Hk) as (t & Ht & Hu). exists t. destruct (T1 v t Ht) as [Hi _]. by split_and!; [exists v|..].
    + intros (x & [k' Hk] & <- & <-). by destruct (T1 k' x Hk) as (-> & _ & _ & _ & _ & ? & _).
  - apply records_nodup. intros k k' x y Hx Hy Heq. destruct (T1 k x Hx) as (_ & _ & _ & _ & _ & _ & H1).
    destruct (T1 k' y Hy) as (_ & _ & _ & _ & _ & _ & H2). rewrite Heq in H1. congruence.
  - intros k v. setoid_rewrite records_elem. split.
    + intros Hk. destruct (T3 k v Hk) as (t & Ht & Hu). exists t. destruct (T1 v t Ht) as [Hi _]. by split_and!; [exists v|..].
    + intros (x & [k' Hk] & <- & <-). by destruct (T1 k' x Hk) as (-> & _ & _ & _ & _ & _ & ?).
Qed.

(** A section of key-value pairs. *)
Lemma restore_all_pairs {K A} `{Countable K} (upd : gmap K A -> Accounts) put_in (m : gmap K A) :
  (forall m' k x, m !! k = Some x -> m' !! k = None -> put_in (upd m') (k, x) = Ok (upd (<[k := x]> m'))) ->
  restore_all put_in (upd ∅) (hash_iter m) = Ok (upd m).
Proof.
  intros Hs. rewrite <- (hash_iter_map m) at 2.
  apply (restore_all_map upd fst snd put_in (fun p => m !! p.1 = Some p.2)).
  - intros m' [k x] Hx Hk. by apply Hs.
  - apply Forall_forall. intros p Hp. by apply hash_iter_elem in Hp.
  - apply hash_iter_keys.
  - apply Forall_forall. intros p _. apply lookup_empty.
Qed.

Lemma restore_all_keys a : accounts_ok a -> restore_all restore_api_key (stage_tenants a) (hash_iter (api_keys a)) = Ok (stage_keys a).
Proof.
  intros Ha. apply (restore_all_pairs (with_api_keys (stage_tenants a))). intros m' h k Hk _. unfold restore_api_key.
  destruct (to_key _ (ao_tenants _ Ha) h k Hk) as (_ & Ht & _). rewrite bool_decide_eq_true_2; [done|exact Ht].
Qed.

Lemma restore_all_users a : accounts_ok a -> restore_all restore_user (stage_keys a) (hash_iter (users a)).*2 = Ok (stage_users a).
Proof.
  intros Ha.
  assert (fold_left (fun m x => <[(ur_tenant x, ur_username x) := x]> m) (hash_iter (users a)).*2 ∅ = users a) as Hf.
  { apply (fold_insert_map (fun x => (ur_tenant x, ur_username x)) id).
    - apply (records_nodup (users a) (fun x => (ur_tenant x, ur_username x))). intros [t u] [t' u'] x y Hx Hy Heq.
      destruct (uo_record _ (ao_users _ Ha) _ _ _ Hx) as (<- & <- & _). by destruct (uo_record _ (ao_users _ Ha) _ _ _ Hy) as (<- & <- & _).
    - intros [t u] v. setoid_rewrite records_elem. split.
      + intros Hk. exists v. destruct (uo_record _ (ao_users _ Ha) _ _ _ Hk) as (Ht & Hu & _). split_and!; [by eexists|by rewrite Ht, Hu|done].
      + intros (x & [[t' u'] Hk] & [= <- <-] & <-). by destruct (uo_record _ (ao_users _ Ha) _ _ _ Hk) as (-> & -> & _). }
  unfold stage_users. rewrite <- Hf at 2. change (stage_keys a) with (with_users (stage_keys a) ∅) at 1.
  apply (restore_all_map (with_users (stage_keys a)) (fun x => (ur_tenant x, ur_username x)) id restore_user
    (fun x => is_Some (tenants a !! ur_tenant x))).
  - intros m x Hx _. unfold restore_user. by rewrite bool_decide_eq_true_2.
  - apply Forall_forall. intros x [[t u] Hx]%records_elem. destruct (uo_record _ (ao_users _ Ha) _ _ _ Hx) as (-> & _ & _ & _ & Ht). done.
  - apply (records_nodup (users a) (fun x => (ur_tenant x, ur_username x))). intros [t u] [t' u'] x y Hx Hy Heq.
    destruct (uo_record _ (ao_users _ Ha) _ _ _ Hx) as (<- & <- & _). by destruct (uo_record _ (ao_users _ Ha) _ _ _ Hy) as (<- & <- & _).
  - apply Forall_forall. intros p _. apply lookup_empty.
Qed.

Lemma restore_all_sessions a : accounts_ok a -> restore_all restore_session (stage_users a) (hash_iter (sessions a)) = Ok (stage_sessions a).
Proof.
  intros Ha. apply (restore_all_pairs (with_sessions (stage_users a))). intros m' h [[t u] x] Hk _. unfold restore_session.
  destruct (uo_session _ (ao_users _ Ha) h t u x Hk) as (_ & Hu & _). rewrite bool_decide_eq_true_2; [done|exact Hu].
Qed.

Lemma owned_ok section a b t u i :
  tenants b = tenants a -> users b = users a -> is_Some (users a !! (t, u)) -> stored_at a t u i ->
  owned_inventory section b t u i = Ok tt.
Proof.
  intros Ht Hu Hin (h & Hh & [_ _ (bs & He)]). unfold owned_inventory. rewrite Hu, bool_decide_eq_true_2 by done. cbn [negb].
  assert (handle b t u = Some h) as -> by (unfold handle in *; by rewrite Ht). cbn. unfold validate_inventory. by rewrite He.
Qed.

Lemma restore_all_inventories a : accounts_ok a ->
  restore_all restore_inventory (stage_sessions a) (hash_iter (device_inventories a)) = Ok (stage_devices a (device_inventories a) ∅ ∅).
Proof.
  intros Ha. apply (restore_all_pairs (fun d => stage_devices a d ∅ ∅)). intros m' [t u] i Hk Hn. unfold restore_inventory. cbn [fst snd].
  destruct (do_inventory _ (ao_devices _ Ha) t u i Hk) as [Hu Hs]. rewrite (owned_ok _ a _ t u i) by done. cbn [mbind result_bind].
  rewrite bool_decide_eq_false_2; [done|]. cbn. rewrite Hn. by apply is_Some_None.
Qed.

Lemma restore_all_links a : accounts_ok a ->
  restore_all restore_link (stage_devices a (device_inventories a) ∅ ∅) (hash_iter (inventory_mutations a)) =
  Ok (stage_devices a (device_inventories a) (inventory_mutations a) ∅).
Proof.
  intros Ha. apply (restore_all_pairs (fun m => stage_devices a (device_inventories a) m ∅)). intros m' [[t u] k] x Hk Hn.
  unfold restore_link. cbn [fst snd]. destruct (do_link _ (ao_devices _ Ha) t u k x Hk) as (Hu & _ & Hs & _ & _ & Hg).
  rewrite (owned_ok _ a _ t u (mu_result x)) by done. cbn [mbind result_bind]. rewrite Hg, (proj2 (Z.leb_gt _ _)) by lia.
  rewrite bool_decide_eq_false_2; [done|]. cbn. rewrite Hn. by apply is_Some_None.
Qed.

Lemma restore_all_lifecycles a : accounts_ok a ->
  restore_all restore_lifecycle (stage_devices a (device_inventories a) (inventory_mutations a) ∅)
    (hash_iter (inventory_lifecycle_mutations a)) =
  Ok (stage_devices a (device_inventories a) (inventory_mutations a) (inventory_lifecycle_mutations a)).
Proof.
  intros Ha. apply (restore_all_pairs (fun l => stage_devices a (device_inventories a) (inventory_mutations a) l)).
  intros m' [[t u] k] x Hk Hn. unfold restore_lifecycle. cbn [fst snd].
  destruct (do_lifecycle _ (ao_devices _ Ha) t u k x Hk) as (Hu & _ & Hs & _ & Hg).
  rewrite (owned_ok _ a _ t u (lm_result x)) by done. cbn [mbind result_bind]. rewrite Hg, (proj2 (Z.leb_gt _ _)) by lia.
  rewrite bool_decide_eq_false_2.
  - rewrite bool_decide_eq_false_2; [done|]. cbn. rewrite Hn. by apply is_Some_None.
  - cbn. intros Hm. apply (do_apart _ (ao_devices _ Ha)) in Hm. congruence.
Qed.

(** *** Everything stored can be written *)
Ltac put_total := repeat match goal with
  | H : str_ok ?s |- context [put_str ?s] => destruct (put_str_ok s H) as [? ->]; cbn [mbind option_bind]
  end; by eexists.

Lemma tenant_writes a id t : tenants_ok a -> tenants a !! id = Some t -> tenant_text t /\ is_Some (put_tenant t) /\ str_ok id.
Proof.
  intros Ha Ht. destruct (to_record _ Ha id t Ht) as (Hid & Hu & Hi & He & Hp & _). apply username_str in Hu. subst id.
  split_and!; [split_and!; [apply Hi|apply Hu|apply He|apply Hp]| |done]. unfold put_tenant. put_total.
Qed.

Lemma key_writes a h k : tenants_ok a -> api_keys a !! h = Some k -> key_text (h, k) /\ is_Some (put_api_key (h, k)).
Proof.
  intros Ha Hk. destruct (to_key _ Ha h k Hk) as (Hh & [t Ht] & Hp & Hc & Hl). destruct (tenant_writes a _ t Ha Ht) as (_ & _ & Hi).
  assert (str_ok (default [] (ak_label k))) as Hlab by (destruct (ak_label k) as [l|]; [apply Hl|by split; vm_compute]).
  split.
  - unfold key_text. cbn. split_and!; [done|apply Hi|apply Hp|apply Hc..|]. destruct (ak_label k); [|done]. destruct Hl as [? [? _]]. done.
  - unfold put_api_key. cbn [fst snd]. put_total.
Qed.

Lemma user_writes a t u r : accounts_ok a -> users a !! (t, u) = Some r ->
  user_text r /\ is_Some (put_user r) /\ str_ok t /\ str_ok u.
Proof.
  intros Ha Hr. destruct (uo_record _ (ao_users _ Ha) t u r Hr) as (Ht & Hu & Hok & Hp & [x Hx]). apply username_str in Hok.
  destruct (tenant_writes a t x (ao_tenants _ Ha) Hx) as (_ & _ & Hi). subst t u.
  split_and!; try done; [split_and!; [apply Hi|apply Hok|apply Hp]|]. unfold put_user. put_total.
Qed.

Lemma session_writes a h t u x : accounts_ok a -> sessions a !! h = Some (t, u, x) ->
  session_text (h, (t, u, x)) /\ is_Some (put_session (h, (t, u, x))).
Proof.
  intros Ha Hs. destruct (uo_session _ (ao_users _ Ha) h t u x Hs) as (Hh & [r Hr] & Hx).
  destruct (user_writes a t u r Ha Hr) as (_ & _ & Ht & Hu). split; [split_and!; try done; [apply Ht|apply Hu]|].
  unfold put_session. cbn [fst snd]. put_total.
Qed.

Lemma inventory_writes a t u i : accounts_ok a -> device_inventories a !! (t, u) = Some i ->
  inventory_text (t, u, i) /\ is_Some (put_account_inventory (t, u, i)).
Proof.
  intros Ha Hi. destruct (do_inventory _ (ao_devices _ Ha) t u i Hi) as ([r Hr] & (h & _ & Hs)).
  destruct (user_writes a t u r Ha Hr) as (_ & _ & Ht & Hu). split; [split_and!; [apply Ht|apply Hu|apply Hs]|].
  unfold put_account_inventory. cbn [fst snd]. put_total.
Qed.

Lemma link_writes a t u k m : accounts_ok a -> inventory_mutations a !! (t, u, k) = Some m ->
  link_text (t, u, k, m) /\ is_Some (put_link (t, u, k, m)).
Proof.
  intros Ha Hi. destruct (do_link _ (ao_devices _ Ha) t u k m Hi) as ([r Hr] & Hk & (h & _ & Hs) & Hb & Hp & _).
  destruct (user_writes a t u r Ha Hr) as (_ & _ & Ht & Hu). split; [split_and!; try done; [apply Ht|apply Hu|apply Hs]|].
  unfold put_link. cbn [fst snd]. put_total.
Qed.

Lemma lifecycle_writes a t u k m : accounts_ok a -> inventory_lifecycle_mutations a !! (t, u, k) = Some m ->
  lifecycle_text (t, u, k, m) /\ is_Some (put_lifecycle (t, u, k, m)).
Proof.
  intros Ha Hi. destruct (do_lifecycle _ (ao_devices _ Ha) t u k m Hi) as ([r Hr] & Hk & (h & _ & Hs) & Hb & _).
  destruct (user_writes a t u r Ha Hr) as (_ & _ & Ht & Hu). split; [split_and!; try done; [apply Ht|apply Hu|apply Hs]|].
  unfold put_lifecycle. cbn [fst snd]. put_total.
Qed.

(** A section over the entries of a map, and over its values. *)
Lemma pairs_section {K A} `{Countable K} {wf put take} put_in {HF : Frames wf put take} (m : gmap K A) b b' :
  (forall k x, m !! k = Some x -> wf (k, x) /\ is_Some (put (k, x))) -> Z.of_nat (size m) <= u32_max ->
  restore_all put_in b (hash_iter m) = Ok b' ->
  exists bs, put_entries put (hash_iter m) = Some bs /\ bs <> [] /\ forall rest, restore_section take put_in b (bs ++ rest) = Ok (b', rest).
Proof.
  intros Hm Hn Hb. assert (Forall (fun p => wf p /\ is_Some (put p)) (hash_iter m)) as Hf.
  { apply Forall_forall. intros [k x] Hp%hash_iter_elem. by apply Hm. }
  destruct (put_entries_total put (hash_iter m)) as [bs Hbs]; [eapply Forall_impl; [exact Hf|]; by intros p [_ ?]|].
  exists bs. split_and!; [done| |].
  - unfold put_entries in Hbs. inv_bind. unfold put_u32. intros Hnil. apply (f_equal len) in Hnil. rewrite len_app, len_be_bytes in Hnil.
    len_facts. unfold len in *. cbn in Hnil. lia.
  - intros rest. apply (section_restores (put := put) put_in (hash_iter m)); [|by rewrite hash_iter_len|done|done]. eapply Forall_impl; [exact Hf|]. by intros p [? _].
Qed.

Lemma values_section {K A} `{Countable K} {wf put take} put_in {HF : Frames wf put take} (m : gmap K A) b b' :
  (forall k x, m !! k = Some x -> wf x /\ is_Some (put x)) -> Z.of_nat (size m) <= u32_max ->
  restore_all put_in b (hash_iter m).*2 = Ok b' ->
  exists bs, put_entries put (hash_iter m).*2 = Some bs /\ bs <> [] /\ forall rest, restore_section take put_in b (bs ++ rest) = Ok (b', rest).
Proof.
  intros Hm Hn Hb. assert (Forall (fun p => wf p /\ is_Some (put p)) (hash_iter m).*2) as Hf.
  { apply Forall_forall. intros x [k Hk]%records_elem. by eapply Hm. }
  destruct (put_entries_total put (hash_iter m).*2) as [bs Hbs]; [eapply Forall_impl; [exact Hf|]; by intros p [_ ?]|].
  exists bs. split_and!; [done| |].
  - unfold put_entries in Hbs. inv_bind. unfold put_u32. intros Hnil. apply (f_equal len) in Hnil. rewrite len_app, len_be_bytes in Hnil.
    len_facts. unfold len in *. cbn in Hnil. lia.
  - intros rest. apply (section_restores (put := put) put_in (hash_iter m).*2); [|by rewrite len_fmap, hash_iter_len|done|done]. eapply Forall_impl; [exact Hf|]. by intros p [? _].
Qed.

(** The collections a [u32] count can hold. *)
Definition countable_sizes (a : Accounts) : Prop :=
  Z.of_nat (size (tenants a)) <= u32_max /\ Z.of_nat (size (api_keys a)) <= u32_max /\ Z.of_nat (size (users a)) <= u32_max /\
  Z.of_nat (size (sessions a)) <= u32_max /\ Z.of_nat (size (device_inventories a)) <= u32_max /\
  Z.of_nat (size (inventory_mutations a)) <= u32_max /\ Z.of_nat (size (inventory_lifecycle_mutations a)) <= u32_max.

Lemma present_app bs rest after : bs <> [] -> present (bs ++ rest) after = Ok tt.
Proof. by destruct bs. Qed.

Lemma snapshot_restores a : accounts_ok a -> countable_sizes a ->
  exists bs, snapshot a = Some bs /\ try_restore bs = Ok (with_limiter a auth_default) /\ starts_with SNAPSHOT_HEADER bs = true.
Proof.
  intros Ha (N1 & N2 & N3 & N4 & N5 & N6 & N7).
  destruct (values_section (put := put_tenant) (take := take_tenant) restore_tenant (tenants a) accounts_new (stage_tenants a)) as (b1 & P1 & X1 & R1);
    [intros k x Hk; by destruct (tenant_writes a k x (ao_tenants _ Ha) Hk) as (? & ? & _)|done|apply restore_all_tenants, Ha|].
  destruct (pairs_section (put := put_api_key) (take := take_api_key) restore_api_key (api_keys a) (stage_tenants a) (stage_keys a)) as (b2 & P2 & X2 & R2);
    [intros k x; apply key_writes, Ha|done|by apply restore_all_keys|].
  destruct (values_section (put := put_user) (take := take_user) restore_user (users a) (stage_keys a) (stage_users a)) as (b3 & P3 & X3 & R3);
    [intros [t u] x Hk; by destruct (user_writes a t u x Ha Hk) as (? & ? & _)|done|by apply restore_all_users|].
  destruct (pairs_section (put := put_session) (take := take_session) restore_session (sessions a) (stage_users a) (stage_sessions a)) as (b4 & P4 & X4 & R4);
    [intros k [[t u] x]; by apply session_writes|done|by apply restore_all_sessions|].
  destruct (pairs_section (put := put_account_inventory) (take := take_account_inventory) restore_inventory (device_inventories a)
    (stage_sessions a) (stage_devices a (device_inventories a) ∅ ∅)) as (b5 & P5 & X5 & R5); [intros [t u] x; by apply inventory_writes|done|by apply restore_all_inventories|].
  destruct (pairs_section (put := put_link) (take := take_link) restore_link (inventory_mutations a)
    (stage_devices a (device_inventories a) ∅ ∅) (stage_devices a (device_inventories a) (inventory_mutations a) ∅)) as (b6 & P6 & X6 & R6);
    [intros [[t u] k] x; by apply link_writes|done|by apply restore_all_links|].
  destruct (pairs_section (put := put_lifecycle) (take := take_lifecycle) restore_lifecycle (inventory_lifecycle_mutations a)
    (stage_devices a (device_inventories a) (inventory_mutations a) ∅)
    (stage_devices a (device_inventories a) (inventory_mutations a) (inventory_lifecycle_mutations a))) as (b7 & P7 & X7 & R7);
    [intros [[t u] k] x; by apply lifecycle_writes|done|by apply restore_all_lifecycles|].
  eexists. split_and!; [unfold snapshot; rewrite P1, P2, P3, P4, P5, P6, P7; reflexivity| |apply starts_with_app].
  unfold try_restore, strip_prefix. rewrite starts_with_app, drop_app_length. cbv iota. cbn [negb].
  rewrite present_app by done. cbn [mbind result_bind]. rewrite R1. cbn [mbind result_bind].
  rewrite present_app by done. cbn [mbind result_bind]. rewrite R2. cbn [mbind result_bind].
  rewrite present_app by done. cbn [mbind result_bind]. rewrite R3. cbn [mbind result_bind].
  rewrite present_app by done. cbn [mbind result_bind]. rewrite R4. cbn [mbind result_bind].
  rewrite present_app by done. cbn [mbind result_bind]. rewrite R5. cbn [mbind result_bind].
  rewrite present_app by done. cbn [mbind result_bind]. rewrite R6. cbn [mbind result_bind].
  rewrite <- (app_nil_r b7), present_app by done. cbn [mbind result_bind]. rewrite R7. done.
Qed.
End Restored.

(** ** Whatever is restored has its owners *)
Section Owned.
Context {env : Environment} {E : Type} {core : InventoryCore E}.

Record owned (a : Accounts) : Prop := {
  ow_record id t : tenants a !! id = Some t -> tr_id t = id;
  ow_username u id : tenant_by_username a !! u = Some id -> is_Some (tenants a !! id);
  ow_email e id : tenant_by_email a !! e = Some id -> is_Some (tenants a !! id);
  ow_key h k : api_keys a !! h = Some k -> is_Some (tenants a !! ak_tenant k);
  ow_user t u r : users a !! (t, u) = Some r -> is_Some (tenants a !! t);
  ow_session h s : sessions a !! h = Some s -> is_Some (users a !! s.1);
  ow_inventory k i : device_inventories a !! k = Some i -> is_Some (users a !! k);
  ow_link k m : inventory_mutations a !! k = Some m -> is_Some (users a !! k.1) /\ mu_predecessor m < inv_generation (mu_result m);
  ow_lifecycle k m : inventory_lifecycle_mutations a !! k = Some m ->
    is_Some (users a !! k.1) /\ request_predecessor (lm_request m) < inv_generation (lm_result m) /\ inventory_mutations a !! k = None
}.

Lemma restore_section_inv {X} (P : Accounts -> Prop) take_item (put_in : Accounts -> X -> result RestoreError Accounts) a bs a' r :
  restore_section take_item put_in a bs = Ok (a', r) -> P a -> (forall a x a', P a -> put_in a x = Ok a' -> P a') -> P a'.
Proof.
  intros Hr Ha Hp. unfold restore_section in Hr. destruct (need (take_u32 bs)) as [[count rest]|]; [|done]. cbn in Hr.
  revert a Ha rest Hr. induction (Z.to_nat count) as [|n IH]; cbn [restore_loop]; intros a Ha rest Hr; [by injection Hr as <- <-|].
  destruct (need (take_item rest)) as [[x rest']|]; [|done]. cbn in Hr. destruct (put_in a x) as [a1|] eqn:E1; [|done]. cbn in Hr.
  eapply IH; [|done]. by eapply Hp.
Qed.

Lemma is_Some_insert {K A} `{Countable K} (m : gmap K A) k k' x : is_Some (m !! k) -> is_Some (<[k' := x]> m !! k).
Proof. rewrite lookup_insert. by case_decide. Qed.

Lemma owned_users section a t u i v : owned_inventory section a t u i = Ok v -> is_Some (users a !! (t, u)).
Proof. unfold owned_inventory. intros H. inv_bind. by bool_prop. Qed.

(** The store before the last section. *)
Definition before_lifecycle (a : Accounts) : Prop := owned a /\ inventory_lifecycle_mutations a = ∅.

(** Opens a put-in step: its checks, and the entry it inserts. *)
Ltac owned_step Ha H :=
  destruct Ha as [[O1 O2 O3 O4 O5 O6 O7 O8 O9] He]; inv_bind; bool_prop; subst; split; [split; cbn; try done|done].

Lemma restore_tenant_owned a t a' : before_lifecycle a -> restore_tenant a t = Ok a' -> before_lifecycle a'.
Proof.
  intros Ha H. unfold restore_tenant in H. owned_step Ha H.
  - intros id x. rewrite lookup_insert. case_decide; [by intros [= <-]|]. by apply O1.
  - intros u id. rewrite lookup_insert. case_decide; [intros [= <-]; rewrite lookup_insert_eq; by eexists|]. intros Hi. by eapply is_Some_insert, O2.
  - intros u id. rewrite lookup_insert. case_decide; [intros [= <-]; rewrite lookup_insert_eq; by eexists|]. intros Hi. by eapply is_Some_insert, O3.
  - intros h k Hk. by eapply is_Some_insert, O4.
  - intros x u r Hu. by eapply is_Some_insert, O5.
Qed.

Lemma restore_api_key_owned a p a' : before_lifecycle a -> restore_api_key a p = Ok a' -> before_lifecycle a'.
Proof.
  intros Ha H. unfold restore_api_key in H. owned_step Ha H. intros h k. rewrite lookup_insert. case_decide; [by intros [= <-]|]. by apply O4.
Qed.

Lemma restore_user_owned a u a' : before_lifecycle a -> restore_user a u = Ok a' -> before_lifecycle a'.
Proof.
  intros Ha H. unfold restore_user in H. owned_step Ha H.
  - intros t x r. rewrite lookup_insert. case_decide as Hx; [injection Hx as <- <-; by intros [= <-]|]. by apply O5.
  - intros h s Hs. by eapply is_Some_insert, O6.
  - intros k i Hk. by eapply is_Some_insert, O7.
  - intros k m Hk. destruct (O8 k m Hk). split; [by apply is_Some_insert|done].
  - intros k m Hk. destruct (O9 k m Hk). split; [by apply is_Some_insert|done].
Qed.

Lemma restore_session_owned a p a' : before_lifecycle a -> restore_session a p = Ok a' -> before_lifecycle a'.
Proof.
  intros Ha H. unfold restore_session in H. owned_step Ha H. intros h s. rewrite lookup_insert. case_decide; [by intros [= <-]|]. by apply O6.
Qed.

Lemma restore_inventory_owned a p a' : before_lifecycle a -> restore_inventory a p = Ok a' -> before_lifecycle a'.
Proof.
  intros Ha H. destruct p as [[t u] i]. unfold restore_inventory in H. cbn in H. owned_step Ha H.
  intros k x. rewrite lookup_insert. case_decide; [subst; intros [= <-]; by eapply owned_users|]. by apply O7.
Qed.

Lemma restore_link_owned a p a' : before_lifecycle a -> restore_link a p = Ok a' -> before_lifecycle a'.
Proof.
  intros Ha H. destruct p as [[[t u] k] m]. unfold restore_link in H. cbn in H. owned_step Ha H.
  - intros k' x. rewrite lookup_insert. case_decide; [subst; intros [= <-]; split; [by eapply owned_users|lia]|]. by apply O8.
  - intros k' x. by rewrite He, lookup_empty.
Qed.

Lemma restore_lifecycle_owned a p a' : owned a -> restore_lifecycle a p = Ok a' -> owned a'.
Proof.
  intros [O1 O2 O3 O4 O5 O6 O7 O8 O9] H. destruct p as [[[t u] k] m]. unfold restore_lifecycle in H. cbn in H. inv_bind. bool_prop. split; cbn; try done.
  intros k' x. rewrite lookup_insert. case_decide; [subst; intros [= <-]; split_and!; [by eapply owned_users|lia|by apply eq_None_not_Some]|]. by apply O9.
Qed.

(** One section read. *)
Ltac section_owned H H0 lemma :=
  try (destruct (present _ _); [cbn [mbind result_bind] in H|done]);
  match type of H with context [restore_section ?t ?p ?a ?r] =>
    let Es := fresh "Es" in
    destruct (restore_section t p a r) as [[? ?]|] eqn:Es; [cbn [mbind result_bind] in H|done];
    apply restore_section_inv with (2 := H0) (3 := lemma) in Es; clear H0; rename Es into H0 end.

Lemma try_restore_owned bs b : try_restore bs = Ok b -> owned b.
Proof.
  assert (before_lifecycle accounts_new) as H0 by (split; [split; cbn; intros *; by rewrite lookup_empty|done]).
  intros H. unfold try_restore in H.
  destruct (match strip_prefix SNAPSHOT_HEADER bs with Some _ => _ | None => _ end) as [headed rest].
  destruct (if headed then _ else _) as [[]|]; [|done]. cbn [mbind result_bind] in H.
  section_owned H H0 restore_tenant_owned. section_owned H H0 restore_api_key_owned. section_owned H H0 restore_user_owned.
  section_owned H H0 restore_session_owned.
  destruct headed; cbn [negb] in H; [|match type of H with match ?l with _ => _ end = _ => destruct l; [|done] end; injection H as <-; apply H0].
  section_owned H H0 restore_inventory_owned. section_owned H H0 restore_link_owned.
  apply proj1 in H0. section_owned H H0 restore_lifecycle_owned.
  match type of H with match ?l with _ => _ end = _ => destruct l; [|done] end. by injection H as <-.
Qed.

Lemma owned_authenticates a identifier password : owned a -> is_Some (authenticate_tenant a identifier password).
Proof.
  intros Ha. unfold authenticate_tenant. destruct (_ ∪ _) as [id|] eqn:Ei; [|by eexists].
  assert (is_Some (tenants a !! id)) as [t ->]; [|by eexists].
  apply union_Some in Ei as [Hi|[_ Hi]]; [by apply (ow_username _ Ha) in Hi|by apply (ow_email _ Ha) in Hi].
Qed.
End Owned.

(** A repeated tenant record is not refused: the later one replaces the record
    and leaves the earlier one's name in the index. *)
Definition repeated_tenant : bytes :=
  let s x := default [] (put_str x) in
  be_bytes 4 2 ++ s (bstr "ten_1") ++ s (bstr "acme") ++ s (bstr "a@acme.example") ++ s (bstr "h1") ++
  s (bstr "ten_1") ++ s (bstr "acme2") ++ s (bstr "b@acme.example") ++ s (bstr "h2") ++ be_bytes 4 0 ++ be_bytes 4 0 ++ be_bytes 4 0.

Lemma repeated_tenant_drifts :
  match try_restore (core := sample_core) repeated_tenant with
  | Ok b =>
      tenant_by_username b !! bstr "acme" = Some (bstr "ten_1") /\ (tr_username <$> tenants b !! bstr "ten_1") = Some (bstr "acme2")
  | Err _ => False
  end.
Proof. vm_compute. split; reflexivity. Qed.

(** C25. Account snapshots restore exactly, and a cut one never.  The snapshot
    of a well-typed store with fewer than 2^32 entries in each of its maps,
    whatever order they iterate in, can be written
    and restores to that store with an empty sign-in throttle; it restores to
    nothing when it is cut at any byte, a boundary between two sections and the
    header included, and to nothing when anything follows it.  So a copy that
    lost its tail is never read as the shape of older servers, with every
    device inventory reset and every revocation undone.  And whatever bytes are
    restored, no key, user, session, inventory or retry record is left without
    its owner, no index names a tenant that is not there, every retry record's
    result is later than what it replaced, and authenticating a tenant never
    panics. *)
Theorem account_snapshot_restores {env : Environment} {laws : EnvironmentLaws} {E} {core : InventoryCore E}
    {core_laws : InventoryCoreLaws E} (a : Accounts) :
  accounts_ok a -> countable_sizes a ->
  exists bs, snapshot a = Some bs /\ try_restore bs = Ok (with_limiter a auth_default) /\
    (forall n, 0 <= n < len bs -> exists e, try_restore (take (Z.to_nat n) bs) = Err e) /\
    (forall more, more <> [] -> try_restore (bs ++ more) = Err Malformed) /\
    (forall other b, try_restore other = Ok b ->
       owned b /\ forall identifier password, is_Some (authenticate_tenant b identifier password)).
Proof.
  intros Ha Hn. destruct (snapshot_restores a Ha Hn) as (bs & Hs & Hr & _). exists bs. split_and!; [done|done| | |].
  - intros n Hlt. destruct (try_restore (take (Z.to_nat n) bs)) as [b|e] eqn:Ec; [|by exists e]. exfalso.
    apply (restore_extended _ (drop (Z.to_nat n) bs)) in Ec.
    + rewrite take_drop in Ec. congruence.
    + intros Hd. apply (f_equal len) in Hd. rewrite len_drop in Hd by lia. unfold len in Hd. cbn in Hd. unfold len in Hlt. lia.
  - intros more Hm. by apply (restore_extended _ _ (with_limiter a auth_default)).
  - intros other b Hb. apply try_restore_owned in Hb. split; [done|]. intros identifier password. by apply owned_authenticates.
Qed.

Lemma account_snapshot_restores_witness :
  accounts_ok sample_accounts /\ countable_sizes sample_accounts /\
  exists bs, snapshot sample_accounts = Some bs /\ try_restore bs = Ok (with_limiter sample_accounts auth_default) /\
    (exists e, try_restore (take (Z.to_nat 8) bs) = Err e) /\ try_restore (bs ++ [x00]) = Err Malformed.
Proof.
  assert (accounts_ok sample_accounts) as Ha by (apply run_preserves; [apply sample_ops_ok|apply accounts_new_ok]).
  assert (countable_sizes sample_accounts) as Hn by (split_and!; by vm_compute).
  split; [exact Ha|]. split; [exact Hn|]. destruct (account_snapshot_restores sample_accounts Ha Hn) as (bs & H1 & H2 & H3 & H4 & _).
  exists bs. split; [exact H1|]. split; [exact H2|]. split; [|by apply H4]. apply H3.
  assert (8 < default 0 (len <$> snapshot sample_accounts)) as Hl by (by vm_compute). rewrite H1 in Hl. cbn in Hl. lia.
Defined.
