(* ===== verification/InventoryTx.v ===== *)
(** * InventoryTx: one device mutation as a database transaction
    ([tacenta-accounts/src/inventory_tx.rs], [tacenta-accounts/src/pg.rs])

    The transaction body shared by link, replace and revoke, as a program over
    the statements of [InventoryTx]; the Postgres statements over committed
    tables, uncommitted writes and row locks, each seeing what is committed when
    it begins; and any number of such transactions interleaved statement by
    statement.  Whatever the interleaving, the committed tables are those of the
    in-memory store that ran the committed mutations one after another. *)

From S2P Require Import Prelude Framing RateLimit Inventory Accounts AccountsState.

(** ** The transaction body *)
Record PriorMutation := mkPrior { pm_request : bytes; pm_result : bytes }.

#[global] Instance PriorMutation_eq_dec : EqDecision PriorMutation.
Proof. solve_decision. Defined.

Abbreviation Account := (bytes * bytes)%type.

Inductive MutationError {E D : Type} := Refused (e : InventoryError E) | Backend (d : D).
Arguments MutationError E D : clear implicits.

(** A program over the statements of one open transaction; every statement
    may fail with the backend's error. *)
Inductive Prog {D A : Type} :=
| Ret (a : A)
| LockAccount (account : Account) (k : result D (option bytes) -> Prog)
| PriorMutationOf (account : Account) (key : bytes) (k : result D (option PriorMutation) -> Prog)
| StoredState (account : Account) (k : result D (option bytes) -> Prog)
| CompareAndSet (account : Account) (expected : option bytes) (next : bytes) (k : result D bool -> Prog)
| RecordMutation (account : Account) (key request res : bytes) (k : result D unit -> Prog).
Arguments Prog D A : clear implicits.

Section Body.
Context {E D : Type} {core : InventoryCore E}.

Abbreviation Outcome := (result (MutationError E D) DeviceInventory).

(** [map_err(Backend)?] around a statement. *)
Definition backend {X} (k : X -> Prog D Outcome) (r : result D X) : Prog D Outcome :=
  match r with Ok x => k x | Err d => Ret (Err (Backend d)) end.

Definition refused {X} (r : result (InventoryError E) X) : result (MutationError E D) X :=
  match r with Ok x => Ok x | Err e => Err (Refused e) end.

(** A retry: the recorded request must be this one, byte for byte. *)
Definition replay (account_handle request : bytes) (prior : PriorMutation) : Outcome :=
  if negb (bool_decide (pm_request prior = request)) then Err (Refused IdempotencyConflict) else
  res ← ok_or (Refused Invalid) (decode_inventory (pm_result prior));
  _ ← refused (validate_inventory account_handle res);
  Ok res.

(** The state the mutation starts from, and the one it proposes. *)
Definition propose (account_handle : bytes) (stored : option bytes)
    (transition : bytes -> DeviceInventory -> result (InventoryError E) DeviceInventory) : Outcome :=
  current ← match stored with Some bs => ok_or (Refused Invalid) (decode_inventory bs) | None => Ok inventory_default end;
  _ ← refused (validate_inventory account_handle current);
  refused (transition account_handle current).

Definition recorded (account : Account) (key request : bytes) (next : DeviceInventory) : Prog D Outcome :=
  RecordMutation account key request (encode_inventory next) (backend (fun _ => Ret (Ok next))).

Definition after_stored (account : Account) (key request account_handle : bytes)
    (transition : bytes -> DeviceInventory -> result (InventoryError E) DeviceInventory) (stored : option bytes) : Prog D Outcome :=
  match propose account_handle stored transition with
  | Err e => Ret (Err e)
  | Ok next =>
      CompareAndSet account stored (encode_inventory next)
        (backend (fun replaced : bool =>
           if replaced then recorded account key request next else Ret (Err (Refused PredecessorMismatch))))
  end.

Definition after_prior (account : Account) (key request account_handle : bytes)
    (transition : bytes -> DeviceInventory -> result (InventoryError E) DeviceInventory) (prior : option PriorMutation)
    : Prog D Outcome :=
  match prior with
  | Some prior => Ret (replay account_handle request prior)
  | None => StoredState account (backend (after_stored account key request account_handle transition))
  end.

Definition after_lock (account : Account) (key request : bytes)
    (transition : bytes -> DeviceInventory -> result (InventoryError E) DeviceInventory) (found : option bytes) : Prog D Outcome :=
  match found with
  | None => Ret (Err (Refused UnknownUser))
  | Some account_handle => PriorMutationOf account key (backend (after_prior account key request account_handle transition))
  end.

Definition apply_mutation (account : Account) (key request : bytes)
    (transition : bytes -> DeviceInventory -> result (InventoryError E) DeviceInventory) : Prog D Outcome :=
  LockAccount account (backend (after_lock account key request transition)).
End Body.

(** ** The three calls *)
Inductive MutationRequest := MLink (pg : Z) (b : DeviceBinding) | MLifecycle (r : LifecycleRequest).

Definition encode_mutation (r : MutationRequest) : bytes :=
  match r with
  | MLink pg b => encode_link_request pg b
  | MLifecycle (Revoke pg retired) => encode_revoke_request pg retired
  | MLifecycle (Replace pg retired replacement) => encode_replace_request pg retired replacement
  end.

Definition mutation_rule {E} {core : InventoryCore E} (r : MutationRequest) (h : bytes) (current : DeviceInventory)
    : result (InventoryError E) DeviceInventory :=
  match r with
  | MLink pg b => link_inventory h current pg b
  | MLifecycle (Revoke pg retired) => revoke_inventory h current pg retired
  | MLifecycle (Replace pg retired replacement) => replace_inventory h current pg retired replacement
  end.

(** ** The database *)
Section Database.
Context {env : Environment} {E D : Type} {core : InventoryCore E}.
Abbreviation Outcome := (result (MutationError E D) DeviceInventory).

(** [users] joined with [tenants]: the accounts and their handles. *)
Context (handles : gmap Account bytes).
(** Whether [lock_account] locks, and whether the write compares.  The module
    relies on either. *)
Context (locking comparing : bool).

(** An open transaction: what is left of its body, its uncommitted writes, and
    the call it serves. *)
Record Tx := mkTx {
  tx_prog : Prog D Outcome;
  tx_states : gmap Account bytes;
  tx_mutations : gmap (Account * bytes) PriorMutation;
  tx_account : Account; tx_key : bytes; tx_request : MutationRequest
}.

Definition with_prog (t : Tx) (p : Prog D Outcome) : Tx :=
  mkTx p (tx_states t) (tx_mutations t) (tx_account t) (tx_key t) (tx_request t).
Definition with_staged_state (t : Tx) (account : Account) (bs : bytes) : Tx :=
  mkTx (tx_prog t) (<[account := bs]> (tx_states t)) (tx_mutations t) (tx_account t) (tx_key t) (tx_request t).
Definition with_staged_mutation (t : Tx) (k : Account * bytes) (m : PriorMutation) : Tx :=
  mkTx (tx_prog t) (tx_states t) (<[k := m]> (tx_mutations t)) (tx_account t) (tx_key t) (tx_request t).

(** The committed tables, the locks, the open transactions, and the committed
    calls in the order of their commits. *)
Record Db := mkDb {
  db_states : gmap Account bytes;
  db_mutations : gmap (Account * bytes) PriorMutation;
  db_account_locks : gmap Account nat;
  db_row_locks : gmap Account nat;
  db_open : gmap nat Tx;
  db_history : list (Account * bytes * MutationRequest * DeviceInventory)
}.

Definition with_account_lock (db : Db) (account : Account) (i : nat) : Db :=
  mkDb (db_states db) (db_mutations db) (<[account := i]> (db_account_locks db)) (db_row_locks db) (db_open db) (db_history db).
Definition with_row_lock (db : Db) (account : Account) (i : nat) : Db :=
  mkDb (db_states db) (db_mutations db) (db_account_locks db) (<[account := i]> (db_row_locks db)) (db_open db) (db_history db).
Definition with_open (db : Db) (o : gmap nat Tx) : Db :=
  mkDb (db_states db) (db_mutations db) (db_account_locks db) (db_row_locks db) o (db_history db).

Definition held_by_other (i : nat) (lock : option nat) : bool :=
  match lock with Some j => negb (bool_decide (j = i)) | None => false end.

(** The statements.  [None]: the statement waits for a lock. *)
Definition lock_account (db : Db) (i : nat) (account : Account) : option (result D (option bytes) * Db) :=
  match handles !! account with
  | None => Some (Ok None, db)
  | Some h =>
      if locking then
        if held_by_other i (db_account_locks db !! account) then None
        else Some (Ok (Some h), with_account_lock db account i)
      else Some (Ok (Some h), db)
  end.

Definition prior_mutation (db : Db) (t : Tx) (account : Account) (key : bytes) : result D (option PriorMutation) :=
  Ok (tx_mutations t !! (account, key) ∪ db_mutations db !! (account, key)).

Definition stored_state (db : Db) (t : Tx) (account : Account) : result D (option bytes) :=
  Ok (tx_states t !! account ∪ db_states db !! account).

(** The write waits for the row; then it matches the row it finds. *)
Definition compare_and_set_state (db : Db) (i : nat) (t : Tx) (account : Account) (expected : option bytes) (next : bytes)
    : option (result D bool * Tx * Db) :=
  if held_by_other i (db_row_locks db !! account) then None else
  if comparing && negb (bool_decide (tx_states t !! account ∪ db_states db !! account = expected))
  then Some (Ok false, t, db)
  else Some (Ok true, with_staged_state t account next, with_row_lock db account i).

(** The primary key refuses a second record: such a statement can only fail. *)
Definition record_mutation (db : Db) (t : Tx) (account : Account) (key request res : bytes) : option Tx :=
  if bool_decide (is_Some (tx_mutations t !! (account, key) ∪ db_mutations db !! (account, key))) then None
  else Some (with_staged_mutation t (account, key) (mkPrior request res)).

(** One statement of transaction [i]. *)
Definition execute (db : Db) (i : nat) (t : Tx) : option (Tx * Db) :=
  match tx_prog t with
  | Ret _ => None
  | LockAccount account k => '(r, db) ← lock_account db i account; Some (with_prog t (k r), db)
  | PriorMutationOf account key k => Some (with_prog t (k (prior_mutation db t account key)), db)
  | StoredState account k => Some (with_prog t (k (stored_state db t account)), db)
  | CompareAndSet account expected next k =>
      '(r, t, db) ← compare_and_set_state db i t account expected next; Some (with_prog t (k r), db)
  | RecordMutation account key request res k =>
      t ← record_mutation db t account key request res; Some (with_prog t (k (Ok tt)), db)
  end.

(** A statement that fails, for whatever reason. *)
Definition fail_statement (t : Tx) (d : D) : option Tx :=
  match tx_prog t with
  | Ret _ => None
  | LockAccount _ k => Some (with_prog t (k (Err d)))
  | PriorMutationOf _ _ k => Some (with_prog t (k (Err d)))
  | StoredState _ k => Some (with_prog t (k (Err d)))
  | CompareAndSet _ _ _ k => Some (with_prog t (k (Err d)))
  | RecordMutation _ _ _ _ k => Some (with_prog t (k (Err d)))
  end.

Definition release (i : nat) (locks : gmap Account nat) : gmap Account nat := filter (fun p => p.2 <> i) locks.

(** [tx.commit()], and the transaction dropped without it. *)
Definition commit (db : Db) (i : nat) (t : Tx) (v : DeviceInventory) : Db :=
  mkDb (tx_states t ∪ db_states db) (tx_mutations t ∪ db_mutations db) (release i (db_account_locks db))
    (release i (db_row_locks db)) (delete i (db_open db))
    (db_history db ++ [(tx_account t, tx_key t, tx_request t, v)]).
Definition rollback (db : Db) (i : nat) : Db :=
  mkDb (db_states db) (db_mutations db) (release i (db_account_locks db)) (release i (db_row_locks db))
    (delete i (db_open db)) (db_history db).

(** [mutate_inventory]'s transaction, as it opens. *)
Definition mutate_inventory (tenant username key : bytes) (r : MutationRequest) : Tx :=
  let account := (tenant, normalize username) in
  mkTx (apply_mutation account key (encode_mutation r) (mutation_rule r)) ∅ ∅ account key r.

Definition mutation_wf (r : MutationRequest) : Prop :=
  match r with MLink pg b => u64_wf pg /\ binding_wf b | MLifecycle r => request_wf r end.

Inductive db_step (db : Db) : Db -> Prop :=
| db_begin i tenant username key r :
    db_open db !! i = None -> len key = 32 -> mutation_wf r ->
    db_step db (with_open db (<[i := mutate_inventory tenant username key r]> (db_open db)))
| db_execute i t t' db' :
    db_open db !! i = Some t -> execute db i t = Some (t', db') -> db_step db (with_open db' (<[i := t']> (db_open db')))
| db_fail i t t' d :
    db_open db !! i = Some t -> fail_statement t d = Some t' -> db_step db (with_open db (<[i := t']> (db_open db)))
| db_commit i t v :
    db_open db !! i = Some t -> tx_prog t = Ret (Ok v) -> db_step db (commit db i t v)
| db_rollback i t :
    db_open db !! i = Some t -> db_step db (rollback db i).
End Database.
Arguments Tx E D : clear implicits.
Arguments Db E D : clear implicits.

(** ** The in-memory store on the same calls *)
Section Reference.
Context {env : Environment} {E : Type} {core : InventoryCore E}.

Definition memory_mutate (a : Accounts) (account : Account) (key : bytes) (r : MutationRequest)
    : Accounts * result (InventoryError E) DeviceInventory :=
  match r with
  | MLink pg b => link_device_binding a account.1 account.2 pg key b
  | MLifecycle r => apply_lifecycle_mutation a account.1 account.2 key r
  end.

(** The calls one after another; [None] where a result is not the one given. *)
Fixpoint memory_run (a : Accounts) (history : list (Account * bytes * MutationRequest * DeviceInventory)) : option Accounts :=
  match history with
  | [] => Some a
  | (account, key, r, v) :: history =>
      match memory_mutate a account key r with
      | (a, Ok v') => if bool_decide (v' = v) then memory_run a history else None
      | (_, Err _) => None
      end
  end.

(** The rows of the store. *)
Definition link_row (m : InventoryMutation) : PriorMutation :=
  mkPrior (encode_link_request (mu_predecessor m) (mu_binding m)) (encode_inventory (mu_result m)).
Definition lifecycle_row (m : LifecycleMutation) : PriorMutation :=
  mkPrior (encode_mutation (MLifecycle (lm_request m))) (encode_inventory (lm_result m)).

Definition mutation_row (a : Accounts) (account : Account) (key : bytes) : option PriorMutation :=
  (link_row <$> inventory_mutations a !! (account, key)) ∪ (lifecycle_row <$> inventory_lifecycle_mutations a !! (account, key)).

Definition represents (states : gmap Account bytes) (mutations : gmap (Account * bytes) PriorMutation) (a : Accounts) : Prop :=
  (forall account, states !! account = encode_inventory <$> device_inventories a !! account) /\
  (forall account key, mutations !! (account, key) = mutation_row a account key).

(** The accounts of the database are those of the store. *)
Definition same_users (handles : gmap Account bytes) (a : Accounts) : Prop :=
  forall t u, handles !! (t, u) = (if bool_decide (is_Some (users a !! (t, u))) then handle a t u else None).
End Reference.

(** *** Requests are told apart by their encodings *)
Lemma len_encode_mutation r : mutation_wf r ->
  match r with
  | MLink _ _ => len (encode_mutation r) = 53 \/ len (encode_mutation r) = 85
  | MLifecycle (Revoke _ _) => len (encode_mutation r) = 59 \/ len (encode_mutation r) = 91
  | MLifecycle (Replace _ _ _) => len (encode_mutation r) >= 104
  end.
Proof.
  assert (len (bstr "TCIL") = 4) as Ht by done.
  destruct r as [pg b|[pg b n|pg b]]; cbn [encode_mutation mutation_wf request_wf]; intros Hr; destruct_and?;
    unfold encode_link_request, encode_revoke_request, encode_replace_request; rewrite !len_app, ?Ht, !len_be_bytes, ?len_cons, ?len_nil;
    repeat match goal with Hb : binding_wf ?b |- _ => apply len_put_binding in Hb end; lia.
Qed.

Lemma binding_eq b c : binding_wf b -> binding_wf c -> put_binding b = put_binding c -> b = c.
Proof. intros Hb Hc H. by destruct (binding_prefix b c [] [] Hb Hc ltac:(by rewrite H)) as [? _]. Qed.

Lemma encode_mutation_inj r r' : mutation_wf r -> mutation_wf r' -> encode_mutation r = encode_mutation r' -> r = r'.
Proof.
  intros Hr Hr' H. pose proof (len_encode_mutation r Hr) as L. pose proof (len_encode_mutation r' Hr') as L'. rewrite H in L.
  destruct r as [pg b|[pg b n|pg b]], r' as [pg' b'|[pg' b' n'|pg' b']]; try (exfalso; lia); clear L L';
    cbn [encode_mutation mutation_wf request_wf] in *; destruct_and?;
    unfold encode_link_request, encode_revoke_request, encode_replace_request in H;
    repeat (apply app_inv_head in H); (apply be64_prefix in H as [-> H]; [|done..]).
  - by rewrite (binding_eq b b').
  - apply binding_prefix in H as [-> H]; [|done..]. by rewrite (binding_eq n n').
  - by rewrite (binding_eq b b').
Qed.

(** *** A commit is a call of the in-memory store *)
Section Reflected.
Context {env : Environment} {laws : EnvironmentLaws} {E D : Type} {core : InventoryCore E} {core_laws : InventoryCoreLaws E}.
Context (handles : gmap Account bytes).

Lemma refused_Ok {X} (r : result (InventoryError E) X) x : refused (D := D) r = Ok x -> r = Ok x.
Proof. by destruct r; cbn; [intros [= ->]|]. Qed.

Lemma same_users_Some a account h : accounts_ok a -> same_users handles a -> handles !! account = Some h ->
  is_Some (users a !! account) /\ handle a account.1 account.2 = Some h /\ normalize account.2 = account.2.
Proof.
  intros Ha Hs Hh. destruct account as [t u]. rewrite Hs in Hh. destruct (bool_decide _) eqn:B; [|done]. bool_prop. split_and!; try done.
  destruct B as [r Hr]. apply normalize_stable. by apply (uo_record _ (ao_users _ Ha) _ _ _ Hr).
Qed.

Lemma stored_decodes a t u i : stored_at (core := core) a t u i -> decode_inventory (encode_inventory i) = Some i.
Proof. intros (h & _ & Hs). apply decode_encode_inventory, Hs. Qed.

Lemma represented_current a states mutations t u :
  accounts_ok a -> represents states mutations a ->
  match states !! (t, u) with Some bs => decode_inventory bs | None => Some inventory_default end =
  Some (default inventory_default (device_inventories a !! (t, u))).
Proof.
  intros Ha [Hst _]. rewrite Hst. destruct (device_inventories a !! (t, u)) as [i|] eqn:Ei; [|done]. cbn.
  eapply stored_decodes. by apply (do_inventory _ (ao_devices _ Ha) _ _ _ Ei).
Qed.

Lemma propose_Ok a states mutations t u h r next :
  accounts_ok a -> represents states mutations a -> propose (D := D) h (states !! (t, u)) (mutation_rule r) = Ok next ->
  mutation_rule r h (default inventory_default (device_inventories a !! (t, u))) = Ok next.
Proof.
  intros Ha Hrep Hp. pose proof (represented_current a states mutations t u Ha Hrep) as Hc. unfold propose in Hp. inv_bind.
  apply refused_Ok in Hp. destruct (states !! (t, u)) as [bs|].
  - rewrite Hc in E0. by injection E0 as ->.
  - injection Hc as <-. by injection E0 as ->.
Qed.

Lemma memory_op a account key r :
  mutation_wf r -> len key = 32 -> exists op, op_ok a op /\ (memory_mutate a account key r).1 = apply_op a op.
Proof.
  intros Hr Hk. destruct r as [pg b|r]; cbn in Hr.
  - exists (OLink account.1 account.2 pg key b). cbn. tauto.
  - exists (OLifecycle account.1 account.2 key r). cbn. tauto.
Qed.

Lemma memory_ok a account key r : mutation_wf r -> len key = 32 -> accounts_ok a -> accounts_ok (memory_mutate a account key r).1.
Proof. intros Hr Hk Ha. destruct (memory_op a account key r Hr Hk) as (op & Hop & ->). by apply op_preserves. Qed.

Lemma memory_users a account key r :
  users (memory_mutate a account key r).1 = users a /\ tenants (memory_mutate a account key r).1 = tenants a.
Proof.
  destruct r as [pg b|r]; cbn [memory_mutate]; unfold link_device_binding, apply_lifecycle_mutation; cbv zeta;
    repeat (match goal with |- context [if ?b then _ else _] => destruct b | |- context [match ?x with _ => _ end] => destruct x end; try done).
Qed.

Lemma same_users_mutate a account key r : same_users handles a -> same_users handles (memory_mutate a account key r).1.
Proof.
  intros Hs t u. destruct (memory_users a account key r) as [Hu Ht]. rewrite Hu, Hs. unfold handle. by rewrite Ht.
Qed.

Lemma mutation_row_None a account key :
  mutation_row a account key = None ->
  inventory_mutations a !! (account, key) = None /\ inventory_lifecycle_mutations a !! (account, key) = None.
Proof. unfold mutation_row. intros [H1 H2]%union_None. by rewrite !fmap_None in *. Qed.

(** A first commit under its key. *)
Lemma recorded_reflected a states mutations account key r h next :
  accounts_ok a -> same_users handles a -> represents states mutations a -> handles !! account = Some h ->
  mutations !! (account, key) = None -> propose (D := D) h (states !! account) (mutation_rule r) = Ok next ->
  (memory_mutate a account key r).2 = Ok next /\
  represents (<[account := encode_inventory next]> states)
    (<[(account, key) := mkPrior (encode_mutation r) (encode_inventory next)]> mutations) (memory_mutate a account key r).1.
Proof.
  intros Ha Hs Hrep Hh Hn Hp. destruct (same_users_Some a account h Ha Hs Hh) as (Hu & Hha & Hnorm).
  destruct account as [t u]. cbn [fst snd] in *. apply (propose_Ok a states mutations t u h r next Ha Hrep) in Hp.
  destruct Hrep as [R1 R2]. rewrite R2 in Hn. apply mutation_row_None in Hn as [N1 N2].
  destruct r as [pg b|r]; cbn [memory_mutate fst snd]; unfold link_device_binding, apply_lifecycle_mutation; cbv zeta;
    rewrite Hnorm, bool_decide_eq_true_2 by done; cbn [negb]; rewrite N1, N2; cbn; rewrite Hha; cbn [ok_or mbind result_bind].
  - cbn in Hp. rewrite Hp. cbn. split; [done|]. split; cbn.
    + intros ac. rewrite !lookup_insert. case_decide; [done|]. by rewrite R1.
    + intros ac k. unfold mutation_row. cbn. rewrite !lookup_insert. case_decide as Hx; [injection Hx as <- <-; by rewrite N2|]. by rewrite R2.
  - cbn in Hp. destruct r as [pg b n|pg b]; cbn in Hp |- *; rewrite Hp; cbn; (split; [done|]); (split; cbn;
      [intros ac; rewrite !lookup_insert; case_decide; [done|]; by rewrite R1|]);
      intros ac k; unfold mutation_row; cbn; rewrite !lookup_insert; (case_decide as Hx; [|by rewrite R2]);
      injection Hx as <- <-; by rewrite N1.
Qed.

(** A commit that repeats a completed request. *)
Lemma replayed_reflected a states mutations account key r h prior v :
  accounts_ok a -> same_users handles a -> represents states mutations a -> handles !! account = Some h -> mutation_wf r ->
  mutations !! (account, key) = Some prior -> replay (D := D) h (encode_mutation r) prior = Ok v ->
  memory_mutate a account key r = (a, Ok v).
Proof.
  intros Ha Hs Hrep Hh Hr Hm Hp. destruct (same_users_Some a account h Ha Hs Hh) as (Hu & Hha & Hnorm).
  destruct account as [t u]. cbn [fst snd] in *. destruct Hrep as [_ R2]. rewrite R2 in Hm. unfold mutation_row in Hm.
  pose proof (ao_devices _ Ha) as Hd. unfold replay in Hp. inv_bind. bool_prop.
  apply union_Some in Hm as [Hm|[Hnone Hm]]; apply fmap_Some in Hm as (m & Hm & ->).
  - destruct (do_link _ Hd _ _ _ _ Hm) as (_ & _ & Hsto & Hbw & Hpw & _). pose proof (stored_decodes _ _ _ _ Hsto) as Hdec.
    assert (r = MLink (mu_predecessor m) (mu_binding m)) as -> by (apply encode_mutation_inj; done).
    cbn [memory_mutate fst snd]. unfold link_device_binding. cbv zeta. rewrite Hnorm, bool_decide_eq_true_2 by done. cbn [negb].
    rewrite (do_apart _ Hd) by (by eexists). rewrite bool_decide_eq_false_2 by (by intros [? ?]). cbn. rewrite Hm, Z.eqb_refl, bool_decide_eq_true_2 by done.
    cbn in *. congruence.
  - apply fmap_None in Hnone. destruct (do_lifecycle _ Hd _ _ _ _ Hm) as (_ & _ & Hsto & Hrw & _). pose proof (stored_decodes _ _ _ _ Hsto) as Hdec.
    assert (r = MLifecycle (lm_request m)) as -> by (apply encode_mutation_inj; done).
    cbn [memory_mutate fst snd]. unfold apply_lifecycle_mutation. cbv zeta. rewrite Hnorm, bool_decide_eq_true_2 by done. cbn [negb].
    rewrite Hnone. rewrite bool_decide_eq_false_2 by (by intros [? ?]). cbn. rewrite Hm, bool_decide_eq_true_2 by done.
    cbn in *. congruence.
Qed.

Lemma memory_run_snoc history : forall (a a' a'' : Accounts) account key r v,
  memory_run (core := core) a history = Some a' -> memory_mutate a' account key r = (a'', Ok v) ->
  memory_run a (history ++ [(account, key, r, v)]) = Some a''.
Proof.
  induction history as [|[[[ac k] r'] v'] history IH]; intros a a' a'' account key r v H Hm; cbn [memory_run app] in *.
  - injection H as ->. rewrite Hm. by rewrite bool_decide_eq_true_2.
  - destruct (memory_mutate a ac k r') as [b [x|]]; [|done]. destruct (bool_decide _); [|done]. by eapply IH.
Qed.
End Reflected.

(** ** Every interleaving is a sequence of commits *)
Section Serialised.
Context {env : Environment} {laws : EnvironmentLaws} {E D : Type} {core : InventoryCore E} {core_laws : InventoryCoreLaws E}.
Context (handles : gmap Account bytes) (locking comparing : bool).

Abbreviation Tx := (Tx E D).
Abbreviation Db := (Db E D).
Abbreviation db_step := (db_step handles locking comparing).
Abbreviation execute := (execute handles locking comparing).

Definition account_locked (db : Db) (i : nat) (account : Account) : Prop :=
  locking = true -> db_account_locks db !! account = Some i.

(** What a transaction has established at each point of its body. *)
Inductive tx_ok (db : Db) (i : nat) (t : Tx) : Prop :=
| ok_start :
    tx_prog t = apply_mutation (tx_account t) (tx_key t) (encode_mutation (tx_request t)) (mutation_rule (tx_request t)) ->
    tx_states t = ∅ -> tx_mutations t = ∅ -> tx_ok db i t
| ok_locked h :
    tx_prog t = after_lock (tx_account t) (tx_key t) (encode_mutation (tx_request t)) (mutation_rule (tx_request t)) (Some h) ->
    tx_states t = ∅ -> tx_mutations t = ∅ -> handles !! tx_account t = Some h -> account_locked db i (tx_account t) -> tx_ok db i t
| ok_unrecorded h :
    tx_prog t = after_prior (tx_account t) (tx_key t) (encode_mutation (tx_request t)) h (mutation_rule (tx_request t)) None ->
    tx_states t = ∅ -> tx_mutations t = ∅ -> handles !! tx_account t = Some h -> account_locked db i (tx_account t) -> tx_ok db i t
| ok_proposed h stored next :
    tx_prog t = after_stored (tx_account t) (tx_key t) (encode_mutation (tx_request t)) h (mutation_rule (tx_request t)) stored ->
    tx_states t = ∅ -> tx_mutations t = ∅ -> handles !! tx_account t = Some h -> account_locked db i (tx_account t) ->
    propose (D := D) h stored (mutation_rule (tx_request t)) = Ok next ->
    (locking = true -> db_states db !! tx_account t = stored) -> tx_ok db i t
| ok_replaced h stored next :
    tx_prog t = recorded (tx_account t) (tx_key t) (encode_mutation (tx_request t)) next ->
    tx_states t = {[tx_account t := encode_inventory next]} -> tx_mutations t = ∅ ->
    handles !! tx_account t = Some h -> account_locked db i (tx_account t) ->
    propose (D := D) h stored (mutation_rule (tx_request t)) = Ok next ->
    db_states db !! tx_account t = stored -> db_row_locks db !! tx_account t = Some i -> tx_ok db i t
| ok_recorded h stored next :
    tx_prog t = Ret (Ok next) ->
    tx_states t = {[tx_account t := encode_inventory next]} ->
    tx_mutations t = {[(tx_account t, tx_key t) := mkPrior (encode_mutation (tx_request t)) (encode_inventory next)]} ->
    handles !! tx_account t = Some h -> account_locked db i (tx_account t) ->
    propose (D := D) h stored (mutation_rule (tx_request t)) = Ok next ->
    db_states db !! tx_account t = stored -> db_row_locks db !! tx_account t = Some i ->
    db_mutations db !! (tx_account t, tx_key t) = None -> tx_ok db i t
| ok_replayed h prior v :
    tx_prog t = Ret (Ok v) -> tx_states t = ∅ -> tx_mutations t = ∅ -> handles !! tx_account t = Some h ->
    db_mutations db !! (tx_account t, tx_key t) = Some prior ->
    replay (D := D) h (encode_mutation (tx_request t)) prior = Ok v -> tx_ok db i t
| ok_refused e : tx_prog t = Ret (Err e) -> tx_ok db i t.

(** What the steps of others leave to transaction [i]. *)
Record undisturbed (i : nat) (db db' : Db) : Prop := {
  un_account (account : Account) : db_account_locks db !! account = Some i -> db_account_locks db' !! account = Some i;
  un_row (account : Account) : db_row_locks db !! account = Some i -> db_row_locks db' !! account = Some i;
  un_state (account : Account) : db_row_locks db !! account = Some i \/ (locking = true /\ db_account_locks db !! account = Some i) ->
    db_states db' !! account = db_states db !! account;
  un_recorded k m : db_mutations db !! k = Some m -> db_mutations db' !! k = Some m;
  un_free (account : Account) key : db_row_locks db !! account = Some i -> db_mutations db !! (account, key) = None ->
    db_mutations db' !! (account, key) = None
}.

Lemma tx_ok_undisturbed i db db' t : undisturbed i db db' -> tx_ok db i t -> tx_ok db' i t.
Proof.
  intros [U1 U2 U3 U4 U5] Ht. unfold account_locked in *.
  destruct Ht as [P S M|h P S M Hh L|h P S M Hh L|h st nx P S M Hh L R C|h st nx P S M Hh L R C W|h st nx P S M Hh L R C W N|h pr v P S M Hh C R|e P].
  - by apply ok_start.
  - apply (ok_locked _ _ _ h); try done. intros Hl. by apply U1, L.
  - apply (ok_unrecorded _ _ _ h); try done. intros Hl. by apply U1, L.
  - apply (ok_proposed _ _ _ h st nx); try done; intros Hl; [by apply U1, L|]. rewrite U3 by (right; split; [done|by apply L]). by apply C.
  - apply (ok_replaced _ _ _ h st nx); try done; [intros Hl; by apply U1, L|by rewrite U3 by (by left)|by apply U2].
  - apply (ok_recorded _ _ _ h st nx); try done; [intros Hl; by apply U1, L|by rewrite U3 by (by left)|by apply U2|by apply U5].
  - apply (ok_replayed _ _ _ h pr v); try done. by apply U4.
  - by apply (ok_refused _ _ _ e).
Qed.

Lemma undisturbed_open i db o : undisturbed i db (with_open db o).
Proof. by split. Qed.

Lemma held_by_other_false i l : held_by_other i l = false -> l = None \/ l = Some i.
Proof. unfold held_by_other. destruct l as [j|]; [|by left]. intros H. bool_prop. subst. by right. Qed.

Lemma lock_insert (i j : nat) (m : gmap Account nat) (account account' : Account) :
  i <> j -> held_by_other j (m !! account) = false -> m !! account' = Some i -> <[account := j]> m !! account' = Some i.
Proof.
  intros Hij Hh Hm. rewrite lookup_insert_ne; [done|]. intros ->. apply held_by_other_false in Hh as [Hh|Hh]; congruence.
Qed.

(** A statement of [j] leaves [i] alone. *)
Lemma execute_undisturbed (i j : nat) (db : Db) t t' db' :
  i <> j -> execute db j t = Some (t', db') -> undisturbed i db db' /\ db_open db' = db_open db /\
    db_states db' = db_states db /\ db_mutations db' = db_mutations db /\ db_history db' = db_history db.
Proof.
  intros Hij He. unfold execute in He. destruct (tx_prog t) as [v|ac k|ac key k|ac k|ac ex nx k|ac key rq rs k]; [done|..]; inv_bind.
  - unfold lock_account in E0. destruct (handles !! _); [|injection E0 as <- <-; by split].
    destruct locking; [|injection E0 as <- <-; by split].
    destruct (held_by_other j _) eqn:Eh; [done|]. injection E0 as <- <-. split; [|done]. split; try done. cbn. intros account. by apply lock_insert.
  - by split.
  - by split.
  - unfold compare_and_set_state in E0. destruct (held_by_other j _) eqn:Eh; [done|].
    destruct (_ && _); injection E0 as <- <- <-; [by split|]. split; [|done]. split; try done. cbn. intros account. by apply lock_insert.
  - by split.
Qed.

(** A statement of [i] carries its own transaction to the next point. *)
Lemma execute_ok (i : nat) (db : Db) t t' db' o :
  (locking || comparing) = true -> tx_ok db i t -> execute db i t = Some (t', db') ->
  tx_ok (with_open db' o) i t' /\ tx_account t' = tx_account t /\ tx_key t' = tx_key t /\ tx_request t' = tx_request t.
Proof.
  intros Hguard Ht He. unfold execute in He.
  destruct Ht as [P S M|h P S M Hh L|h P S M Hh L|h st nx P S M Hh L R C|h st nx P S M Hh L R C W|h st nx P S M Hh L R C W N|h pr v P S M Hh C R|e P];
    rewrite P in He; try done.
  - cbn in He. inv_bind. split; [|done]. unfold lock_account in E0. destruct (handles !! tx_account t) as [h|] eqn:Eh.
    + assert (account_locked db' i (tx_account t) /\ r = Ok (Some h)) as [Hl ->].
      { unfold account_locked. destruct locking; [|by injection E0 as <- <-].
        destruct (held_by_other i _); [done|]. injection E0 as <- <-. split; [|done]. intros _. cbn. by rewrite lookup_insert_eq. }
      by apply (ok_locked _ _ _ h).
    + injection E0 as <- <-. by eapply ok_refused.
  - cbn in He. injection He as <- <-. split; [|done]. unfold prior_mutation. rewrite M, lookup_empty, (left_id_L None (∪)). cbn.
    destruct (db_mutations db !! (tx_account t, tx_key t)) as [pr|] eqn:Ep; [|by apply (ok_unrecorded _ _ _ h)].
    destruct (replay (D := D) h (encode_mutation (tx_request t)) pr) as [v|e] eqn:Er; [|by eapply ok_refused; cbn; rewrite Er].
    apply (ok_replayed _ _ _ h pr v); try done. cbn. by rewrite Er.
  - cbn in He. injection He as <- <-. split; [|done]. unfold stored_state. rewrite S, lookup_empty, (left_id_L None (∪)). cbn.
    destruct (propose (D := D) h (db_states db !! tx_account t) (mutation_rule (tx_request t))) as [nx|e] eqn:Er.
    + by apply (ok_proposed _ _ _ h (db_states db !! tx_account t) nx).
    + apply (ok_refused _ _ _ e). cbn. unfold after_stored. by rewrite Er.
  - unfold after_stored in He. rewrite R in He. cbn in He. inv_bind. unfold compare_and_set_state in E0.
    destruct (held_by_other i _) eqn:Ew; [done|]. rewrite S, lookup_empty, (left_id_L None (∪)) in E0.
    destruct (comparing && negb (bool_decide (db_states db !! tx_account t = st))) eqn:Ec; injection E0 as <- <- <-; (split; [|done]).
    + by eapply ok_refused.
    + apply (ok_replaced _ _ _ h st nx); try done.
      * cbn. by rewrite S, insert_empty.
      * cbn. destruct locking; [by apply C|]. cbn in Hguard. subst comparing. cbn in Ec. by bool_prop.
      * cbn. by rewrite lookup_insert_eq.
  - cbn in He. inv_bind. unfold record_mutation in E0. destruct (bool_decide _) eqn:Eb; [done|]. injection E0 as <-. bool_prop. split; [|done].
    rewrite M, lookup_empty, (left_id_L None (∪)) in Eb. eapply (ok_recorded _ _ _ h); try done.
    + cbn. by rewrite M, insert_empty.
    + cbn. by apply eq_None_not_Some.
Qed.

Lemma fail_ok (i : nat) (db : Db) t t' d o :
  tx_ok db i t -> fail_statement t d = Some t' ->
  tx_ok (with_open db o) i t' /\ tx_account t' = tx_account t /\ tx_key t' = tx_key t /\ tx_request t' = tx_request t.
Proof.
  intros Ht He. unfold fail_statement in He.
  destruct Ht as [P S M|h P S M Hh L|h P S M Hh L|h st nx P S M Hh L R C|h st nx P S M Hh L R C W|h st nx P S M Hh L R C W N|h pr v P S M Hh C R|e P];
    rewrite P in He; try done; [..|unfold after_stored in He; rewrite R in He|]; cbn in He; injection He as <-; (split; [|done]); by apply (ok_refused _ _ _ (Backend d)).
Qed.

(** The end of a transaction leaves the others alone. *)
Lemma release_other (i j : nat) (locks : gmap Account nat) account : i <> j -> locks !! account = Some i -> release j locks !! account = Some i.
Proof. intros Hij Hl. unfold release. apply map_lookup_filter_Some. by split. Qed.

Lemma rollback_undisturbed (i j : nat) (db : Db) : i <> j -> undisturbed i db (rollback db j).
Proof. intros Hij. split; cbn; try done; intros account; by apply release_other. Qed.

(** Writes of [j] that nobody else's locks protect. *)
Definition staged_ok (db : Db) (j : nat) (t : Tx) : Prop :=
  (tx_states t = ∅ /\ tx_mutations t = ∅) \/
  (exists bs m, tx_states t = {[tx_account t := bs]} /\ tx_mutations t = {[(tx_account t, tx_key t) := m]} /\
     db_row_locks db !! tx_account t = Some j /\ account_locked db j (tx_account t) /\
     db_mutations db !! (tx_account t, tx_key t) = None).

Lemma commit_undisturbed (i j : nat) (db : Db) t v : i <> j -> staged_ok db j t -> undisturbed i db (commit db j t v).
Proof.
  intros Hij Hs. split; cbn; try (intros account; by apply release_other).
  - intros account Ha. destruct Hs as [[-> _]|(bs & m & -> & _ & Hr & Hl & _)]; [by rewrite (left_id_L ∅ (∪))|].
    rewrite lookup_union_r; [done|]. apply lookup_singleton_ne. intros Heq. subst account. destruct Ha as [Ha|[Hlk Ha]]; [congruence|].
    specialize (Hl Hlk). congruence.
  - intros k m Hk. destruct Hs as [[_ ->]|(bs & m' & _ & -> & _ & _ & Hn)]; [by rewrite (left_id_L ∅ (∪))|].
    rewrite lookup_union_r; [done|]. apply lookup_singleton_ne. intros <-. congruence.
  - intros account key Ha Hk. destruct Hs as [[_ ->]|(bs & m' & _ & -> & Hr & _ & _)]; [by rewrite (left_id_L ∅ (∪))|].
    rewrite lookup_union_r; [done|]. apply lookup_singleton_ne. intros [= <- _]. congruence.
Qed.

Lemma tx_ok_staged (i : nat) (db : Db) t v : tx_ok db i t -> tx_prog t = Ret (Ok v) -> staged_ok db i t.
Proof.
  intros Ht HP.
  destruct Ht as [P S M|h P S M Hh L|h P S M Hh L|h st nx P S M Hh L R C|h st nx P S M Hh L R C W|h st nx P S M Hh L R C W N|h pr v' P S M Hh C R|e P];
    rewrite P in HP; try done.
  - unfold after_stored in HP. by rewrite R in HP.
  - right. by eexists _, _.
  - by left.
Qed.

(** ** The invariant of the database *)
Record db_ok (a0 : Accounts) (db : Db) : Prop := {
  dk_store : exists a, memory_run a0 (db_history db) = Some a /\ accounts_ok a /\ same_users handles a /\
    represents (db_states db) (db_mutations db) a;
  dk_open (i : nat) t : db_open db !! i = Some t -> mutation_wf (tx_request t) /\ len (tx_key t) = 32 /\ tx_ok db i t
}.

Lemma open_ok a0 (db db' : Db) (i : nat) t' :
  db_ok a0 db -> db_states db' = db_states db -> db_mutations db' = db_mutations db -> db_history db' = db_history db ->
  (forall j : nat, i <> j -> undisturbed j db db') ->
  mutation_wf (tx_request t') -> len (tx_key t') = 32 -> tx_ok (with_open db' (<[i := t']> (db_open db))) i t' ->
  db_ok a0 (with_open db' (<[i := t']> (db_open db))).
Proof.
  intros [Hst Hop] Es Em Eh Hu Hr Hk Ht. split; [cbn; by rewrite Es, Em, Eh|]. cbn. intros j t.
  rewrite lookup_insert. case_decide as Hij; [subst; by intros [= <-]|]. intros Hj. destruct (Hop j t Hj) as (? & ? & Hok).
  split_and!; [done..|]. apply (tx_ok_undisturbed _ db'); [apply undisturbed_open|]. by apply (tx_ok_undisturbed _ db); [apply Hu|].
Qed.

Lemma closed_ok (db db' : Db) (i : nat) :
  (forall (j : nat) t, db_open db !! j = Some t -> mutation_wf (tx_request t) /\ len (tx_key t) = 32 /\ tx_ok db j t) ->
  db_open db' = delete i (db_open db) -> (forall j : nat, j <> i -> undisturbed j db db') ->
  forall (j : nat) t, db_open db' !! j = Some t -> mutation_wf (tx_request t) /\ len (tx_key t) = 32 /\ tx_ok db' j t.
Proof.
  intros Hop Ho Hu j t. rewrite Ho. intros [Hij Hj]%lookup_delete_Some. destruct (Hop j t Hj) as (? & ? & Hok).
  split_and!; [done..|]. eapply tx_ok_undisturbed; [by apply Hu|done].
Qed.

(** The one step that changes the tables. *)
Lemma commit_reflected (db : Db) (i : nat) t v a :
  accounts_ok a -> same_users handles a -> represents (db_states db) (db_mutations db) a -> mutation_wf (tx_request t) ->
  tx_ok db i t -> tx_prog t = Ret (Ok v) ->
  exists a', memory_mutate a (tx_account t) (tx_key t) (tx_request t) = (a', Ok v) /\
    represents (db_states (commit db i t v)) (db_mutations (commit db i t v)) a'.
Proof.
  intros Ha Hs Hrep Hr Ht HP.
  destruct Ht as [P S M|h P S M Hh L|h P S M Hh L|h st nx P S M Hh L R C|h st nx P S M Hh L R C W|h st nx P S M Hh L R C W N|h pr v' P S M Hh C R|e P];
    rewrite P in HP; try done.
  - unfold after_stored in HP. by rewrite R in HP.
  - injection HP as <-. subst st.
    destruct (recorded_reflected (D := D) handles a _ _ _ _ _ h nx Ha Hs Hrep Hh N R) as [Hv Hrep'].
    exists (memory_mutate a (tx_account t) (tx_key t) (tx_request t)).1. split; [rewrite <- Hv; by destruct (memory_mutate _ _ _ _)|].
    cbn. by rewrite S, M, <- !insert_union_singleton_l.
  - injection HP as <-. exists a. split; [by eapply (replayed_reflected (D := D))|]. cbn. by rewrite S, M, !(left_id_L ∅ (∪)).
Qed.

Lemma step_db_ok a0 db db' : (locking || comparing) = true -> db_ok a0 db -> db_step db db' -> db_ok a0 db'.
Proof.
  intros Hg Hdb Hstep. destruct Hstep as [i tenant username key r Hfresh Hk Hr|i t t' db' Hi He|i t t' d Hi He|i t v Hi HP|i t Hi].
  - apply (open_ok a0 db); try done; by apply ok_start.
  - destruct (dk_open _ _ Hdb i t Hi) as (Hr & Hk & Hok).
    assert (forall j : nat, i <> j -> undisturbed j db db') as Hu by (intros j Hj; by apply (execute_undisturbed j i db t t' db')).
    destruct (execute_undisturbed (S i) i db t t' db') as (_ & Eo & Es & Em & Eh); [lia|done|].
    destruct (execute_ok i db t t' db' (<[i := t']> (db_open db')) Hg Hok He) as (Hok' & Ea & Ek & Er).
    rewrite Eo in *. apply (open_ok a0 db); try done; by rewrite ?Er, ?Ek.
  - destruct (dk_open _ _ Hdb i t Hi) as (Hr & Hk & Hok).
    destruct (fail_ok i db t t' d (<[i := t']> (db_open db)) Hok He) as (Hok' & Ea & Ek & Er).
    apply (open_ok a0 db); try done; by rewrite ?Er, ?Ek.
  - destruct Hdb as [(a & Hrun & Ha & Hs & Hrep) Hop]. destruct (Hop i t Hi) as (Hr & Hk & Hok).
    destruct (commit_reflected db i t v a Ha Hs Hrep Hr Hok HP) as (a' & Hm & Hrep').
    pose proof (memory_ok a (tx_account t) (tx_key t) (tx_request t) Hr Hk Ha) as Ha'.
    pose proof (same_users_mutate handles a (tx_account t) (tx_key t) (tx_request t) Hs) as Hs'. rewrite Hm in Ha', Hs'.
    split; [exists a'; split_and!; try done; by eapply memory_run_snoc|].
    apply (closed_ok db _ i); [done..|]. intros j Hj. apply commit_undisturbed; [done|]. by eapply tx_ok_staged.
  - destruct Hdb as [Hst Hop]. split; [done|]. apply (closed_ok db _ i); [done..|]. intros j Hj. by apply rollback_undisturbed.
Qed.
End Serialised.

(** C7. Concurrent device mutations serialize.  Start the database from the
    rows of an account store, with nothing open, and let any number of links,
    revocations and replacements run as transactions, their statements
    interleaved in any order, any statement failing, any transaction dropped:
    as long as either the account lock is taken or the write compares the state
    it replaces, the calls that committed, in the order of their commits, give
    on the in-memory store exactly the results they returned, and the committed
    tables are exactly that store's rows.  So no update is lost, no refused or
    dropped call leaves a trace, a retried call returns its first result, and a
    retry key is never spent on two requests. *)
Theorem transactions_serialize {env : Environment} {laws : EnvironmentLaws} {E D} {core : InventoryCore E}
    {core_laws : InventoryCoreLaws E} handles locking comparing a0 (db0 db : Db E D) :
  (locking || comparing) = true ->
  accounts_ok a0 -> same_users handles a0 -> represents (db_states db0) (db_mutations db0) a0 ->
  db_open db0 = ∅ -> db_history db0 = [] ->
  rtc (db_step handles locking comparing) db0 db ->
  exists a, memory_run a0 (db_history db) = Some a /\ accounts_ok a /\ represents (db_states db) (db_mutations db) a.
Proof.
  intros Hg Ha Hs Hrep Ho Hh Hrun. assert (db_ok handles locking a0 db0) as H0.
  { split; [exists a0; by rewrite Hh|]. intros i t. by rewrite Ho, lookup_empty. }
  assert (db_ok handles locking a0 db) as [(a & ? & ? & _ & ?) _]; [|by exists a].
  clear Ha Hs Hrep Ho Hh. revert H0. induction Hrun as [|db0 db1 db2 Hst _ IH]; [done|]. intros H0. apply IH. by eapply step_db_ok.
Qed.

(** ** Schedules, for the witness *)
Inductive Action := ABegin (i : nat) (tenant username key : bytes) (r : MutationRequest) | AExecute (i : nat) | ACommit (i : nat) | ARollback (i : nat).

Definition action_wf (a : Action) : Prop :=
  match a with ABegin _ _ _ key r => len key = 32 /\ mutation_wf r | _ => True end.

Section Schedules.
Context {env : Environment} {E D : Type} {core : InventoryCore E}.
Context (handles : gmap Account bytes) (locking comparing : bool).

Definition act (db : Db E D) (a : Action) : option (Db E D) :=
  match a with
  | ABegin i tenant username key r =>
      match db_open db !! i with
      | None => Some (with_open db (<[i := mutate_inventory tenant username key r]> (db_open db)))
      | Some _ => None
      end
  | AExecute i =>
      t ← db_open db !! i; '(t', db') ← execute handles locking comparing db i t;
      Some (with_open db' (<[i := t']> (db_open db')))
  | ACommit i => t ← db_open db !! i; match tx_prog t with Ret (Ok v) => Some (commit db i t v) | _ => None end
  | ARollback i => t ← db_open db !! i; Some (rollback db i)
  end.

Fixpoint acts (db : Db E D) (l : list Action) : option (Db E D) :=
  match l with [] => Some db | a :: l => db ← act db a; acts db l end.

Lemma acts_steps l : forall db db', Forall action_wf l -> acts db l = Some db' -> rtc (db_step handles locking comparing) db db'.
Proof.
  induction l as [|a l IH]; cbn [acts]; intros db db' Hwf H; [by injection H as <-|]. apply Forall_cons in Hwf as [Ha Hl].
  destruct (act db a) as [db1|] eqn:Ea; [|done]. cbn in H. apply rtc_l with db1; [|by apply IH]. clear H IH.
  destruct a as [i tn un key r|i|i|i]; cbn [act] in Ea.
  - destruct (db_open db !! i) eqn:Eo; [done|]. injection Ea as <-. destruct Ha. by apply db_begin.
  - inv_bind. by eapply db_execute.
  - inv_bind. destruct (tx_prog _) as [[v|]|?|?|?|?|?] eqn:Ep; try done. injection Ea as <-. by apply db_commit.
  - inv_bind. by eapply db_rollback.
Qed.

(** The rows of a store. *)
Definition store_handles (a : Accounts) : gmap Account bytes := map_imap (fun k _ => handle a k.1 k.2) (users a).
Definition store_db (a : Accounts) : Db E D :=
  mkDb (encode_inventory <$> device_inventories a)
    ((link_row <$> inventory_mutations a) ∪ (lifecycle_row <$> inventory_lifecycle_mutations a)) ∅ ∅ ∅ [].

Lemma store_represents a : represents (db_states (store_db a)) (db_mutations (store_db a)) a.
Proof.
  split; [intros account; apply lookup_fmap|]. intros account key. cbn [db_mutations store_db].
  by rewrite lookup_union, !lookup_fmap.
Qed.

Lemma store_same_users a : same_users (store_handles a) a.
Proof.
  intros t u. unfold store_handles. rewrite map_lookup_imap. by destruct (users a !! (t, u)).
Qed.
End Schedules.

(** Two links race for generation 2; the loser is refused.  The winner's retry
    returns what it returned. *)
Definition race : list Action := [
  ABegin 0 sample_tenant (bstr "Alice") (replicate 32 x41) (MLink 2 (sample_device 3 None));
  ABegin 1 sample_tenant (bstr "alice") (replicate 32 x42) (MLink 2 (sample_device 4 None));
  AExecute 0; AExecute 1; AExecute 1; AExecute 0; AExecute 0; AExecute 1; AExecute 0; AExecute 0; ACommit 0; AExecute 1; ARollback 1;
  ABegin 2 sample_tenant (bstr "alice") (replicate 32 x41) (MLink 2 (sample_device 3 None)); AExecute 2; AExecute 2; ACommit 2].

Lemma race_wf : Forall action_wf race.
Proof. repeat (constructor; [by vm_compute|]). constructor. Qed.

Definition race_result (a0 : Accounts) : option (nat * option (list Z)) :=
  db ← acts (D := unit) (store_handles a0) false true (store_db a0) race;
  a ← memory_run a0 (db_history db);
  Some (length (db_history db), fmap device_id ∘ active <$> device_inventory a sample_tenant (bstr "alice")).

Lemma transactions_serialize_witness :
  exists db : Db unit unit,
    acts (store_handles sample_accounts) false true (store_db sample_accounts) race = Some db /\
    exists a, memory_run sample_accounts (db_history db) = Some a /\
      (length (db_history db), fmap device_id ∘ active <$> device_inventory a sample_tenant (bstr "alice")) = (2%nat, Some [2; 3]).
Proof.
  assert (race_result sample_accounts = Some (2%nat, Some [2; 3])) as Hres by (vm_compute; reflexivity).
  unfold race_result in Hres.
  destruct (acts (D := unit) (store_handles sample_accounts) false true (store_db sample_accounts) race) as [db|] eqn:Ho; [|discriminate Hres].
  cbn [mbind option_bind] in Hres.
  exists db. split; [reflexivity|].
  destruct (transactions_serialize (store_handles sample_accounts) false true sample_accounts (store_db sample_accounts) db eq_refl)
    as (a & Hrun & _ & _).
  - exact (run_preserves sample_ops accounts_new sample_ops_ok accounts_new_ok).
  - apply store_same_users.
  - apply store_represents.
  - reflexivity.
  - reflexivity.
  - apply (acts_steps (store_handles sample_accounts) false true race); [apply race_wf|exact Ho].
  - exists a. split; [exact Hrun|]. rewrite Hrun in Hres. apply (inj Some). exact Hres.
Defined.
