(* ===== verification/Persist.v ===== *)
(** * Persist: replacing a file so that a crash cannot tear it
    ([write_atomically] and [open_lock_file] of [tacenta-core/src/persist.rs])

    The directory is a map from names to what they name, and the operating
    system's answers to the calls that can fail are an argument.  A write is
    the list of the states it goes through, so that "a crash at any point" is
    "any state of the list".  Not modelled: other processes acting between two
    calls, the loss of unsynced data, and Windows. *)

From S2P Require Import Prelude.

Abbreviation path := string.

(** What a name leads to.  A file is known by its inode. *)
Inductive Node := NFile (ino : nat) | NLink (target : path) | NDir.

#[global] Instance Node_eq_dec : EqDecision Node.
Proof. solve_decision. Defined.

Record File := mkFile { contents : bytes; mode : Z }.

Record Fs := mkFs { names : gmap path Node; files : gmap nat File }.

Inductive IoError := AlreadyExists | NotFound | InvalidInput | OtherIo.

#[global] Instance IoError_eq_dec : EqDecision IoError.
Proof. solve_decision. Defined.

Definition ATTEMPTS : nat := 8.

(** The answers of the operating system to one write or one lock. *)
Record IoAnswers := mkIo {
  io_create : nat -> bool;   (** the creation at this attempt fails otherwise *)
  io_written : option nat;   (** the write fails after this many bytes *)
  io_sync : bool;
  io_rename : bool;
  io_cleanup : bool;
  io_dir_sync : bool;
  io_chmod : bool
}.

Definition io_fine : IoAnswers := mkIo (fun _ => true) None true true true true true.

Definition fresh_ino (fs : Fs) : nat := fresh (dom (files fs) : gset nat).

Definition set_file (fs : Fs) (ino : nat) (f : File) : Fs := mkFs (names fs) (<[ino := f]> (files fs)).

(** [create_new] with mode 0600: nothing may be at the name, not even a link. *)
Definition create_new_private (fs : Fs) (p : path) (ok : bool) : result IoError (Fs * nat) :=
  match names fs !! p with
  | Some _ => Err AlreadyExists
  | None =>
      if ok then
        let ino := fresh_ino fs in
        Ok (mkFs (<[p := NFile ino]> (names fs)) (<[ino := mkFile [] 384]> (files fs)), ino)
      else Err OtherIo
  end.

(** The loop of [create_temp] from one attempt on; [n] is what is left. *)
Fixpoint create_temp (fs : Fs) (io : IoAnswers) (name_temp : nat -> path) (attempt n : nat)
    : result IoError (Fs * path * nat) :=
  match n with
  | O => Err AlreadyExists
  | S n =>
      match create_new_private fs (name_temp attempt) (io_create io attempt) with
      | Ok (fs, ino) => Ok (fs, name_temp attempt, ino)
      | Err AlreadyExists => create_temp fs io name_temp (S attempt) n
      | Err e => Err e
      end
  end.

(** [write_all]: the states as the bytes arrive, and whether all did. *)
Definition write_all (fs : Fs) (ino : nat) (bs : bytes) (io : IoAnswers) : list Fs * bool :=
  let upto := match io_written io with Some n => Nat.min n (length bs) | None => length bs end in
  (map (fun n => set_file fs ino (mkFile (take n bs) 384)) (seq 0 (S upto)),
   match io_written io with Some _ => false | None => true end).

(** [rename]: the name now leads where the temporary one did.  A directory at
    the target refuses. *)
Definition rename (fs : Fs) (tmp p : path) (ok : bool) : result IoError Fs :=
  match names fs !! tmp, names fs !! p with
  | None, _ => Err NotFound
  | _, Some NDir => Err OtherIo
  | Some node, _ => if ok then Ok (mkFs (<[p := node]> (delete tmp (names fs))) (files fs)) else Err OtherIo
  end.

Definition remove_file (fs : Fs) (p : path) (ok : bool) : Fs :=
  if ok then mkFs (delete p (names fs)) (files fs) else fs.

Definition fsync_parent_dir (io : IoAnswers) : result IoError unit :=
  if io_dir_sync io then Ok tt else Err OtherIo.

(** The states a write goes through after the first, and its answer. *)
Definition write_via_temp (fs : Fs) (p : path) (bs : bytes) (name_temp : nat -> path) (io : IoAnswers)
    : list Fs * result IoError unit :=
  match create_temp fs io name_temp 1 ATTEMPTS with
  | Err e => ([], Err e)
  | Ok (fs1, tmp, ino) =>
      let '(writing, written) := write_all fs1 ino bs io in
      let fs2 := default fs1 (last writing) in
      match (if written && io_sync io then rename fs2 tmp p (io_rename io) else Err OtherIo) with
      | Err e => (fs1 :: writing ++ [remove_file fs2 tmp (io_cleanup io)], Err e)
      | Ok fs3 => (fs1 :: writing ++ [fs3], fsync_parent_dir io)
      end
  end.

(** [<path>.<16 hex digits>.tmp] for the random numbers drawn. *)
Definition hex_digit (z : Z) : Ascii.ascii := Ascii.ascii_of_N (Z.to_N (if z <? 10 then 48 + z else 87 + z)).

Fixpoint hex (n : nat) (z : Z) : string :=
  match n with
  | O => String.EmptyString
  | S n => String.append (hex n (z / 16)) (String.String (hex_digit (z mod 16)) String.EmptyString)
  end.

Definition temp_path_beside (p : path) (random : Z) : path :=
  String.append p (String.append "." (String.append (hex 16 random) ".tmp")).

Definition write_atomically (fs : Fs) (p : path) (bs : bytes) (random : nat -> Z) (io : IoAnswers)
    : list Fs * result IoError unit :=
  write_via_temp fs p bs (fun k => temp_path_beside p (random k)) io.

(** ** Reading a name: links are followed, at most forty of them. *)
Fixpoint resolve (fs : Fs) (fuel : nat) (p : path) : result IoError nat :=
  match fuel with
  | O => Err OtherIo
  | S fuel =>
      match names fs !! p with
      | None => Err NotFound
      | Some (NFile ino) => Ok ino
      | Some (NLink t) => resolve fs fuel t
      | Some NDir => Err OtherIo
      end
  end.

Definition MAX_LINKS : nat := 40.

Definition read_file (fs : Fs) (p : path) : result IoError bytes :=
  ino ← resolve fs MAX_LINKS p; f ← ok_or OtherIo (files fs !! ino); Ok (contents f).

(** ** The lock file *)

(** The name is, right now, the regular file [ino]. *)
Definition require_regular_file_at (fs : Fs) (ino : nat) (p : path) : result IoError unit :=
  match names fs !! p with
  | None => Err NotFound
  | Some (NFile on_disk) => if bool_decide (on_disk = ino) then Ok tt else Err InvalidInput
  | Some _ => Err InvalidInput
  end.

Definition owner_only (m : Z) : bool := Z.land m 63 =? 0.

Fixpoint open_lock_file_loop (fs : Fs) (p : path) (io : IoAnswers) (attempt n : nat)
    : result IoError (Fs * nat) :=
  match n with
  | O => Err AlreadyExists
  | S n =>
      match create_new_private fs p (io_create io attempt) with
      | Ok (fs, ino) => Ok (fs, ino)
      | Err AlreadyExists =>
          match resolve fs MAX_LINKS p with
          | Err NotFound => open_lock_file_loop fs p io (S attempt) n
          | Err e => Err e
          | Ok ino =>
              _ ← require_regular_file_at fs ino p;
              f ← ok_or OtherIo (files fs !! ino);
              if owner_only (mode f) then Ok (fs, ino) else
              if io_chmod io then Ok (set_file fs ino (mkFile (contents f) 384), ino) else Err OtherIo
          end
      | Err e => Err e
      end
  end.

Definition open_lock_file (fs : Fs) (p : path) (io : IoAnswers) : result IoError (Fs * nat) :=
  open_lock_file_loop fs p io 1 ATTEMPTS.

(** ** Lemmas *)

(** Every file a name leads to exists. *)
Definition fs_wf (fs : Fs) : Prop := forall p ino, names fs !! p = Some (NFile ino) -> is_Some (files fs !! ino).

(** Everything named before is still there, with the same contents, but for
    the names [except]. *)
Definition preserved (fs fs' : Fs) (except : list path) : Prop :=
  (forall p n, ~ (p ∈ except) -> names fs !! p = Some n -> names fs' !! p = Some n) /\
  (forall ino f, files fs !! ino = Some f -> files fs' !! ino = Some f).

Lemma create_new_private_Ok fs p ok fs' ino :
  create_new_private fs p ok = Ok (fs', ino) ->
  names fs !! p = None /\ ino = fresh_ino fs /\
  fs' = mkFs (<[p := NFile ino]> (names fs)) (<[ino := mkFile [] 384]> (files fs)).
Proof. unfold create_new_private. destruct (names fs !! p); [done|]. destruct ok; [|done]. by intros [= <- <-]. Qed.

Lemma create_temp_Ok fs io nt k n fs' tmp ino :
  create_temp fs io nt k n = Ok (fs', tmp, ino) ->
  exists j, tmp = nt j /\ (k <= j < k + n)%nat /\ create_new_private fs tmp (io_create io j) = Ok (fs', ino).
Proof.
  revert k. induction n as [|n IH]; intros k H; [done|]. cbn [create_temp] in H.
  destruct (create_new_private fs (nt k) _) as [[fs1 ino1]|e] eqn:E.
  - injection H as <- <- <-. exists k. split_and!; [done|lia|lia|done].
  - destruct e; try done. destruct (IH _ H) as (j & ? & ? & ?). exists j. split_and!; [done|lia|lia|done].
Qed.

Lemma fresh_ino_new fs : files fs !! fresh_ino fs = None.
Proof.
  apply (not_elem_of_dom (D := gset nat)). exact (is_fresh (dom (files fs) : gset nat)).
Qed.

Lemma preserved_refl fs l : preserved fs fs l.
Proof. by split. Qed.

(** A state of the write before the rename: the temporary name leads to the
    new inode, whose contents are anything. *)
Definition staged (fs : Fs) (tmp : path) (f : File) : Fs :=
  mkFs (<[tmp := NFile (fresh_ino fs)]> (names fs)) (<[fresh_ino fs := f]> (files fs)).

Lemma preserved_files fs f ns :
  (forall q n, names fs !! q = Some n -> ns !! q = Some n) ->
  preserved fs (mkFs ns (<[fresh_ino fs := f]> (files fs))) [].
Proof.
  intros Hn. split; [by intros q n _; apply Hn|]. intros ino g Hg. cbn.
  rewrite lookup_insert_ne; [done|]. intros <-. by rewrite fresh_ino_new in Hg.
Qed.

Lemma staged_preserved fs tmp f : names fs !! tmp = None -> preserved fs (staged fs tmp f) [].
Proof.
  intros Hn. apply preserved_files. intros q n Hq. rewrite lookup_insert_ne; [done|]. intros <-. by rewrite Hn in Hq.
Qed.

Lemma set_staged fs tmp f g : set_file (staged fs tmp f) (fresh_ino fs) g = staged fs tmp g.
Proof. unfold set_file, staged. cbn. by rewrite insert_insert_eq. Qed.

Lemma preserved_weaken fs fs' l : preserved fs fs' [] -> preserved fs fs' l.
Proof. intros [H1 H2]. split; [|done]. intros q n _. apply H1. intros H. by apply elem_of_nil in H. Qed.

(** What a process that reads the directory may find. *)
Definition intact (fs fs' : Fs) (p : path) (bs : bytes) : Prop :=
  preserved fs fs' [p] /\
  (names fs' !! p = names fs !! p \/
   exists ino, names fs' !! p = Some (NFile ino) /\ files fs' !! ino = Some (mkFile bs 384)).

Lemma staged_intact fs tmp f p bs :
  names fs !! tmp = None -> tmp <> p -> intact fs (staged fs tmp f) p bs.
Proof.
  intros Hn Hne. split; [by apply preserved_weaken, staged_preserved|]. left. cbn. by rewrite lookup_insert_ne.
Qed.

Lemma last_map_seq {A} (f : nat -> A) n : last (map f (seq 0 (S n))) = Some (f n).
Proof. rewrite seq_S, map_app. cbn [map]. by rewrite last_snoc. Qed.

Lemma write_all_staged fs tmp bs io l ok :
  write_all (staged fs tmp (mkFile [] 384)) (fresh_ino fs) bs io = (l, ok) ->
  exists upto, l = map (fun n => staged fs tmp (mkFile (take n bs) 384)) (seq 0 (S upto)) /\
    last l = Some (staged fs tmp (mkFile (take upto bs) 384)) /\ (ok = true -> take upto bs = bs).
Proof.
  unfold write_all. set (upto := match io_written io with Some _ => _ | None => _ end).
  intros [= <- <-]. exists upto. setoid_rewrite set_staged. split_and!; [done| |].
  - apply (last_map_seq (fun n => staged fs tmp (mkFile (take n bs) 384))).
  - intros H. subst upto. destruct (io_written io); [done|]. by apply take_ge.
Qed.

Lemma rename_Ok fs tmp p ok fs' :
  rename fs tmp p ok = Ok fs' ->
  exists node, names fs !! tmp = Some node /\ names fs !! p <> Some NDir /\
    fs' = mkFs (<[p := node]> (delete tmp (names fs))) (files fs).
Proof.
  unfold rename. destruct (names fs !! tmp) as [node|]; [|done].
  destruct (names fs !! p) as [[| |]|]; destruct ok; try done; intros [= <-]; by exists node.
Qed.

(** The state after the rename, and after a clean-up. *)
Lemma renamed_intact fs p bs :
  intact fs (mkFs (<[p := NFile (fresh_ino fs)]> (names fs)) (<[fresh_ino fs := mkFile bs 384]> (files fs))) p bs.
Proof.
  split.
  - split; cbn.
    + intros q n Hq Hn. rewrite lookup_insert_ne; [done|]. intros <-. by apply Hq, list_elem_of_singleton.
    + intros ino f Hf. rewrite lookup_insert_ne; [done|]. intros <-. by rewrite fresh_ino_new in Hf.
  - right. exists (fresh_ino fs). cbn. by rewrite !lookup_insert_eq.
Qed.

Lemma removed_intact fs tmp f ok p bs :
  names fs !! tmp = None -> tmp <> p -> intact fs (remove_file (staged fs tmp f) tmp ok) p bs.
Proof.
  intros Hn Hne. destruct ok; [|by apply staged_intact]. cbn. rewrite delete_insert_id by done.
  split; [by apply preserved_weaken, preserved_files|by left].
Qed.

Lemma temp_path_other p r : temp_path_beside p r <> p.
Proof.
  unfold temp_path_beside. generalize (String.append (hex 16 r) ".tmp"). intros s.
  induction p as [|c p IH]; cbn; [done|]. intros [= H]. by apply IH.
Qed.

Lemma write_states fs p bs random io states r :
  write_atomically fs p bs random io = (states, r) ->
  Forall (fun fs' => intact fs fs' p bs) states /\
  (r = Ok tt -> exists ino, last states = Some (mkFs (<[p := NFile ino]> (names fs)) (<[ino := mkFile bs 384]> (files fs)))) /\
  (forall e, r = Err e -> io_dir_sync io = true -> names (default fs (last states)) !! p = names fs !! p).
Proof.
  intros H. unfold write_atomically, write_via_temp in H.
  set (nt := fun k => temp_path_beside p (random k)) in H.
  assert (forall k, nt k <> p) as Hnt by (intros k; apply temp_path_other).
  destruct (create_temp fs io nt 1 ATTEMPTS) as [[[fs1 tmp] ino]|e] eqn:Ec.
  2: { injection H as <- <-. by split_and!. }
  apply create_temp_Ok in Ec as (j & -> & _ & (Hn & -> & ->)%create_new_private_Ok).
  change (mkFs (<[nt j := NFile (fresh_ino fs)]> _) _) with (staged fs (nt j) (mkFile [] 384)) in H.
  destruct (write_all _ _ _ _) as [l ok] eqn:Ew. apply write_all_staged in Ew as (upto & Hl & Hlast & Hok).
  rewrite Hlast in H. cbn [default from_option id] in H.
  assert (Forall (fun fs' => intact fs fs' p bs) (staged fs (nt j) (mkFile [] 384) :: l)) as Hall.
  { constructor; [by apply staged_intact|]. rewrite Hl. apply Forall_map, Forall_true. intros n. by apply staged_intact. }
  destruct (if ok && io_sync io then _ else _) as [fs3|e] eqn:Er; injection H as <- <-;
    rewrite app_comm_cons, Forall_app, last_snoc.
  - destruct (ok && io_sync io) eqn:Eo; [|done]. apply andb_true_iff in Eo as [-> _].
    rewrite Hok in Er by done. apply rename_Ok in Er as (node & Hnode & _ & ->). cbn in Hnode |- *.
    rewrite lookup_insert_eq in Hnode. injection Hnode as <-. rewrite delete_insert_id by done. split_and!.
    + done.
    + constructor; [|done]. apply renamed_intact.
    + intros _. by exists (fresh_ino fs).
    + unfold fsync_parent_dir. intros e H1 H2. by rewrite H2 in H1.
  - split_and!; [done| |done|].
    + constructor; [|done]. by apply removed_intact.
    + intros e' _ _. cbn. destruct (io_cleanup io); cbn; [by rewrite lookup_delete_ne, lookup_insert_ne|by rewrite lookup_insert_ne].
Qed.

(** A name that is free or leads to a file. *)
Definition plain_file (fs : Fs) (p : path) : Prop :=
  match names fs !! p with
  | None => True
  | Some (NFile ino) => is_Some (files fs !! ino)
  | Some _ => False
  end.

Lemma read_plain fs p :
  plain_file fs p ->
  read_file fs p = match names fs !! p with
                   | Some (NFile ino) => match files fs !! ino with Some f => Ok (contents f) | None => Err OtherIo end
                   | _ => Err NotFound
                   end.
Proof.
  unfold plain_file, read_file. cbn. destruct (names fs !! p) as [[| |]|]; try done. intros [f Hf]. cbn. by rewrite Hf.
Qed.

(** What a state of a write reads as. *)
Lemma same_read fs fs' q : plain_file fs q -> names fs' !! q = names fs !! q ->
  (forall ino f, files fs !! ino = Some f -> files fs' !! ino = Some f) -> plain_file fs' q /\ read_file fs' q = read_file fs q.
Proof.
  intros Hp Hn Hf. assert (plain_file fs' q) as Hp'.
  { unfold plain_file in *. rewrite Hn. destruct (names fs !! q) as [[i| |]|]; try done. destruct Hp as [f Hi]. exists f. by apply Hf. }
  split; [done|]. rewrite !read_plain by done. rewrite Hn. unfold plain_file in Hp.
  destruct (names fs !! q) as [[i| |]|]; try done. destruct Hp as [f Hi]. by rewrite Hi, (Hf _ _ Hi).
Qed.

Lemma intact_read fs fs' p bs : plain_file fs p -> intact fs fs' p bs ->
  plain_file fs' p /\ (read_file fs' p = read_file fs p \/ read_file fs' p = Ok bs).
Proof.
  intros Hp [[_ Hf] [Hn|(ino & Hn & Hi)]].
  - destruct (same_read fs fs' p Hp Hn Hf) as [? ->]. auto.
  - assert (plain_file fs' p) as Hp' by (unfold plain_file; rewrite Hn; by eexists).
    split; [done|]. right. rewrite read_plain by done. by rewrite Hn, Hi.
Qed.

(** No other name changes but the temporary one. *)
Lemma write_elsewhere fs p bs random io states r q :
  write_atomically fs p bs random io = (states, r) -> q <> p -> (forall k, q <> temp_path_beside p k) ->
  Forall (fun fs' => names fs' !! q = names fs !! q) states.
Proof.
  intros H Hp Ht. unfold write_atomically, write_via_temp in H. set (nt := fun k => temp_path_beside p (random k)) in H.
  destruct (create_temp fs io nt 1 ATTEMPTS) as [[[fs1 tmp] ino]|e] eqn:Ec; [|by injection H as <- <-].
  apply create_temp_Ok in Ec as (j & -> & _ & (Hn & -> & ->)%create_new_private_Ok).
  change (mkFs (<[nt j := NFile (fresh_ino fs)]> _) _) with (staged fs (nt j) (mkFile [] 384)) in H.
  destruct (write_all _ _ _ _) as [l ok] eqn:Ew. apply write_all_staged in Ew as (upto & Hl & Hlast & Hok).
  rewrite Hlast in H. cbn [default from_option id] in H.
  assert (forall f, names (staged fs (nt j) f) !! q = names fs !! q) as Hs.
  { intros f. cbn. apply lookup_insert_ne. intros Heq. by apply (Ht (random j)). }
  assert (Forall (fun fs' => names fs' !! q = names fs !! q) (staged fs (nt j) (mkFile [] 384) :: l)) as Hall.
  { constructor; [done|]. rewrite Hl. apply Forall_map, Forall_true. intros n. apply Hs. }
  destruct (if ok && io_sync io then _ else _) as [fs3|e] eqn:Er; injection H as <- <-; rewrite app_comm_cons, Forall_app;
    (split; [done|constructor; [|done]]).
  - destruct (ok && io_sync io); [|done]. apply rename_Ok in Er as (node & _ & _ & ->). cbn [names].
    rewrite lookup_insert_ne by done. rewrite lookup_delete_ne by (intros Heq; by apply (Ht (random j))). apply Hs.
  - unfold remove_file. destruct (io_cleanup io); [|apply Hs]. cbn [names].
    rewrite lookup_delete_ne by (intros Heq; by apply (Ht (random j))). apply Hs.
Qed.

(** C24. A file is replaced whole or not at all: whatever the operating system
    answers, every state that [write_atomically] goes through has the target
    either as it was or leading to a new owner-only file with exactly the new
    bytes, keeps every other name and every file that was there (a link or a
    file at a temporary name is never opened), and leaves no temporary name
    behind when it succeeds; Ok means the new bytes are in place, and an error
    means the target is untouched unless it is the final directory sync that
    failed. *)
Theorem write_replaces_atomically fs p bs random io states r :
  write_atomically fs p bs random io = (states, r) ->
  Forall (fun fs' => intact fs fs' p bs) states /\
  (r = Ok tt -> exists ino, last states = Some (mkFs (<[p := NFile ino]> (names fs)) (<[ino := mkFile bs 384]> (files fs)))) /\
  (forall e, r = Err e -> io_dir_sync io = true -> names (default fs (last states)) !! p = names fs !! p).
Proof. apply write_states. Qed.

Definition one_file : Fs := mkFs {["state" := NFile 0]} {[0%nat := mkFile (bstr "old") 420]}.

Lemma write_replaces_atomically_witness :
  exists states, write_atomically one_file "state" (bstr "new") Z.of_nat io_fine = (states, Ok tt) /\
    Forall (fun fs' => intact one_file fs' "state" (bstr "new")) states /\ length states = 6%nat /\
    ((fun fs => read_file fs "state") <$> last states) = Some (Ok (bstr "new")).
Proof.
  eexists. split; [by vm_compute|]. split; [|by split; vm_compute].
  by apply (write_replaces_atomically one_file "state" (bstr "new") Z.of_nat io_fine _ (Ok tt)).
Defined.

(** A lock file that is opened is the regular, owner-only file at its own name:
    a link there is refused, nothing else changes and no contents do. *)
Lemma lock_file_private fs p io fs' ino :
  open_lock_file fs p io = Ok (fs', ino) ->
  names fs' !! p = Some (NFile ino) /\ (exists f, files fs' !! ino = Some f /\ owner_only (mode f) = true) /\
  (names fs !! p = None \/ names fs !! p = Some (NFile ino)) /\
  (forall q, q <> p -> names fs' !! q = names fs !! q) /\
  (forall i f, files fs !! i = Some f -> exists m, files fs' !! i = Some (mkFile (contents f) m)).
Proof.
  unfold open_lock_file. generalize 1%nat. generalize ATTEMPTS. intros n.
  induction n as [|n IH]; intros k H; [done|]. cbn [open_lock_file_loop] in H.
  destruct (create_new_private fs p (io_create io k)) as [[fs1 i1]|e] eqn:Ec.
  - injection H as <- <-. apply create_new_private_Ok in Ec as (Hn & -> & ->). cbn.
    rewrite !lookup_insert_eq. split_and!; [done|by eexists|by left| |].
    + intros q Hq. by rewrite lookup_insert_ne.
    + intros i f Hf. exists (mode f). rewrite lookup_insert_ne; [by destruct f|]. intros <-. by rewrite fresh_ino_new in Hf.
  - destruct e; try done. destruct (resolve fs MAX_LINKS p) as [i|e] eqn:Er; [|destruct e; try done; by eapply IH].
    unfold require_regular_file_at in H. destruct (names fs !! p) as [[d| |]|] eqn:Ep; try done.
    destruct (bool_decide (d = i)) eqn:Ed; [|done]. bool_prop. subst d. cbn [mbind result_bind] in H.
    destruct (files fs !! i) as [f|] eqn:Ef; [|done]. cbn [ok_or mbind result_bind] in H.
    destruct (owner_only (mode f)) eqn:Eo; [|destruct (io_chmod io); [|done]]; injection H as <- <-.
    + split_and!; [done|by exists f|by right|done|]. intros j g Hg. exists (mode g). by destruct g.
    + cbn. rewrite lookup_insert_eq. split_and!; [done|by eexists|by right|done|].
      intros j g Hg. destruct (decide (j = i)) as [->|Hne].
      * rewrite lookup_insert_eq. exists 384. congruence.
      * rewrite lookup_insert_ne by done. exists (mode g). by destruct g.
Qed.
