(* ===== verification/OperationStore.v ===== *)
(** * OperationStore: the snapshot and its stores
    ([tacenta-client/src/operation_store.rs])

    The combined durable value with its codec, the port a platform store
    implements, the handle a coordinator holds ([DurableStore]) and the native
    file store.  [OperationStore] is the trait of the source; [FencedStore] is
    what a store must promise for the handle's guarantees, and the file store
    is an instance of both. *)

From S2P Require Import Prelude Framing Persist.

Definition OPERATION_SNAPSHOT_VERSION : Z := 2.

Record OperationSnapshot := mkSnapshot {
  version : Z;
  generation : Z;
  provider_state : bytes;
  application_state : bytes;
  snap_outbox : list bytes;
  snap_inbox : list bytes;
  snap_dedup : list bytes;
  group_controls : list bytes;
  delivery_cursor : Z
}.

#[global] Instance OperationSnapshot_eq_dec : EqDecision OperationSnapshot.
Proof. solve_decision. Defined.

Definition snapshot_empty (generation : Z) : OperationSnapshot :=
  mkSnapshot OPERATION_SNAPSHOT_VERSION generation [] [] [] [] [] [] 0.

Definition TCOP : bytes := bstr "TCOP".

Definition snapshot_encode (s : OperationSnapshot) : option bytes :=
  provider ← put_bytes (provider_state s);
  application ← put_bytes (application_state s);
  outbox ← put_counted put_bytes (snap_outbox s);
  inbox ← put_counted put_bytes (snap_inbox s);
  dedup ← put_counted put_bytes (snap_dedup s);
  controls ← put_counted put_bytes (group_controls s);
  Some (TCOP ++ [byte_of (version s)] ++ be64 (generation s) ++ provider ++ application ++
        outbox ++ inbox ++ dedup ++ controls ++ be64 (delivery_cursor s)).

Definition snapshot_decode (bs : bytes) : option OperationSnapshot :=
  '(tag, cursor) ← split_at_checked 4 bs;
  if negb (bool_decide (tag = TCOP)) then None else
  '(v, cursor) ← split_at_checked 1 cursor;
  v ← head v;
  let encoded_version := byte_val v in
  if negb (encoded_version =? 1) && negb (encoded_version =? OPERATION_SNAPSHOT_VERSION) then None else
  '(gen, cursor) ← take_u64 cursor;
  '(provider, cursor) ← take_bytes cursor;
  '(application, cursor) ← take_bytes cursor;
  '(outbox, cursor) ← take_counted take_bytes cursor;
  '(inbox, cursor) ← take_counted take_bytes cursor;
  '(dedup, cursor) ← take_counted take_bytes cursor;
  '(controls, cursor) ← (if encoded_version =? 1 then Some ([], cursor) else take_counted take_bytes cursor);
  '(delivery, cursor) ← take_u64 cursor;
  match cursor with
  | _ :: _ => None
  | [] => Some (mkSnapshot OPERATION_SNAPSHOT_VERSION gen provider application outbox inbox dedup controls delivery)
  end.

(** ** The port *)
Inductive CommitOutcome := Committed | CFailed | CUnknown.

#[global] Instance CommitOutcome_eq_dec : EqDecision CommitOutcome.
Proof. solve_decision. Defined.

Inductive StoreError := StoreFailed.

Class OperationStore (St : Type) := {
  store_commit : St -> OperationSnapshot -> St * CommitOutcome;
  store_recover : St -> St * result StoreError (option OperationSnapshot);
  store_is_frozen : St -> bool;
  store_next_generation : St -> Z -> option Z;
  store_durable_generation : St -> St * result StoreError (option Z);
  store_commit_after : St -> option Z -> OperationSnapshot -> St * CommitOutcome
}.

(** The provided methods of the trait. *)
Definition default_next_generation (current : Z) : option Z := checked_add64 current 1.

Definition default_durable_generation {St} (recover : St -> St * result StoreError (option OperationSnapshot))
    (st : St) : St * result StoreError (option Z) :=
  let '(st, r) := recover st in
  (st, match r with Ok s => Ok (generation <$> s) | Err e => Err e end).

Definition default_commit_after {St} (durable_generation : St -> St * result StoreError (option Z))
    (commit : St -> OperationSnapshot -> St * CommitOutcome) (st : St) (expected : option Z) (s : OperationSnapshot)
    : St * CommitOutcome :=
  let '(st, r) := durable_generation st in
  match r with
  | Ok current => if bool_decide (current = expected) then commit st s else (st, CFailed)
  | Err _ => (st, CFailed)
  end.

(** ** The durable handle *)
Record DurableStore (St : Type) := mkDurable {
  inner : St;
  frozen : bool;
  high_water : Z;
  observed : option Z;
  committed : option Z
}.
Arguments mkDurable {St} inner frozen high_water observed committed.
Arguments inner {St} d.
Arguments frozen {St} d.
Arguments high_water {St} d.
Arguments observed {St} d.
Arguments committed {St} d.

Inductive RecoverError := Unreadable | RolledBack.

(** [Option::max] on numbers. *)
Definition option_max (a b : option Z) : option Z :=
  match a, b with
  | Some x, Some y => Some (Z.max x y)
  | Some x, None | None, Some x => Some x
  | None, None => None
  end.

Definition durable_new {St} (inner : St) : DurableStore St := mkDurable inner false 0 None None.

Section Durable.
Context {St : Type} `{OperationStore St}.
Implicit Types d : DurableStore St.

Definition adopt d (recovered : option OperationSnapshot) : DurableStore St * option OperationSnapshot :=
  let d' := match recovered with
            | Some s => mkDurable (inner d) (frozen d) (Z.max (high_water d) (generation s)) (observed d)
                          (option_max (committed d) (Some (generation s)))
            | None => d
            end in
  (mkDurable (inner d') false (high_water d') (generation <$> recovered) (committed d'), recovered).

Definition with_inner d (st : St) : DurableStore St :=
  mkDurable st (frozen d) (high_water d) (observed d) (committed d).

Definition with_frozen d : DurableStore St :=
  mkDurable (inner d) true (high_water d) (observed d) (committed d).

Definition recover_not_behind d : DurableStore St * result RecoverError (option OperationSnapshot) :=
  let '(st, r) := store_recover (inner d) in
  let d := with_inner d st in
  match r with
  | Err _ => (d, Err Unreadable)
  | Ok recovered =>
      match committed d, recovered with
      | Some c, Some s =>
          if generation s <? c then (with_frozen d, Err RolledBack)
          else let '(d, r) := adopt d recovered in (d, Ok r)
      | _, _ => let '(d, r) := adopt d recovered in (d, Ok r)
      end
  end.

Definition durable_commit d (s : OperationSnapshot) : DurableStore St * CommitOutcome :=
  if frozen d then (d, CFailed) else
  let d := mkDurable (inner d) (frozen d) (Z.max (high_water d) (generation s)) (observed d) (committed d) in
  let '(st, outcome) := store_commit_after (inner d) (observed d) s in
  let d := with_inner d st in
  if bool_decide (outcome = Committed) then
    (mkDurable (inner d) (frozen d) (high_water d) (Some (generation s)) (option_max (committed d) (Some (generation s))),
     outcome)
  else (with_frozen d, outcome).

Definition durable_recover d : DurableStore St * result StoreError (option OperationSnapshot) :=
  let '(st, r) := store_recover (inner d) in
  let d := with_inner d st in
  match r with
  | Err e => (d, Err e)
  | Ok recovered => let '(d, r) := adopt d recovered in (d, Ok r)
  end.

Definition durable_next_generation d (current : Z) : option Z :=
  checked_add64 (Z.max current (high_water d)) 1.

#[global] Instance durable_store : OperationStore (DurableStore St) := {|
  store_commit := durable_commit;
  store_recover := durable_recover;
  store_is_frozen := frozen;
  store_next_generation := durable_next_generation;
  store_durable_generation := default_durable_generation durable_recover;
  store_commit_after := default_commit_after (default_durable_generation durable_recover) durable_commit
|}.
End Durable.

(** ** The native file store

    The file is in the directory both the path and its lock name belong to;
    the answers of the operating system to the next operations and the random
    numbers are part of the state. *)
Record FileOperationStore := mkFileStore {
  store_path : path;
  store_fs : Fs;
  store_io : list IoAnswers;
  store_random : nat -> Z
}.

Definition next_io (st : FileOperationStore) : IoAnswers := default io_fine (head (store_io st)).

Definition with_fs (st : FileOperationStore) (fs : Fs) : FileOperationStore :=
  mkFileStore (store_path st) fs (tail (store_io st)) (store_random st).

Definition read_header (bs : bytes) : result StoreError Z :=
  '(header, _) ← ok_or StoreFailed (split_at_checked 13 bs);
  tag ← ok_or StoreFailed (get_to 4 header);
  v ← ok_or StoreFailed (header !! 4%nat);
  if negb (bool_decide (tag = TCOP)) ||
     (negb (byte_val v =? 1) && negb (byte_val v =? OPERATION_SNAPSHOT_VERSION)) then Err StoreFailed else
  g ← ok_or StoreFailed (get_range 5 13 header);
  Ok (be_value g).

Definition header_generation (st : FileOperationStore) : result StoreError (option Z) :=
  match read_file (store_fs st) (store_path st) with
  | Err NotFound => Ok None
  | Err _ => Err StoreFailed
  | Ok bs => g ← read_header bs; Ok (Some g)
  end.

Definition file_write (st : FileOperationStore) (fs : Fs) (s : OperationSnapshot) : Fs * CommitOutcome :=
  match snapshot_encode s with
  | None => (fs, CFailed)
  | Some bs =>
      let '(states, r) := write_atomically fs (store_path st) bs (store_random st) (next_io st) in
      (default fs (last states), match r with Ok _ => Committed | Err _ => CFailed end)
  end.

Definition lock_path (st : FileOperationStore) : path := String.append (store_path st) ".lock".

(** [locked]: the action runs with the lock held, in the directory that has
    the lock file. *)
Definition locked (st : FileOperationStore) (action : Fs -> Fs * CommitOutcome)
    : FileOperationStore * CommitOutcome :=
  match open_lock_file (store_fs st) (lock_path st) (next_io st) with
  | Err _ => (with_fs st (store_fs st), CFailed)
  | Ok (fs, _) => let '(fs, outcome) := action fs in (with_fs st fs, outcome)
  end.

Definition file_commit (st : FileOperationStore) (s : OperationSnapshot) : FileOperationStore * CommitOutcome :=
  locked st (fun fs => file_write st fs s).

Definition file_commit_after (st : FileOperationStore) (expected : option Z) (s : OperationSnapshot)
    : FileOperationStore * CommitOutcome :=
  locked st (fun fs =>
    match header_generation (mkFileStore (store_path st) fs (store_io st) (store_random st)) with
    | Ok current => if bool_decide (current = expected) then file_write st fs s else (fs, CFailed)
    | Err _ => (fs, CFailed)
    end).

Definition file_recover (st : FileOperationStore) : result StoreError (option OperationSnapshot) :=
  match read_file (store_fs st) (store_path st) with
  | Err NotFound => Ok None
  | Err _ => Err StoreFailed
  | Ok bs => s ← ok_or StoreFailed (snapshot_decode bs); Ok (Some s)
  end.

#[global] Instance file_store : OperationStore FileOperationStore := {|
  store_commit := file_commit;
  store_recover := fun st => (st, file_recover st);
  store_is_frozen := fun _ => false;
  store_next_generation := fun _ => default_next_generation;
  store_durable_generation := fun st => (st, header_generation st);
  store_commit_after := file_commit_after
|}.

(** ** The codec *)
Definition snapshot_wf (s : OperationSnapshot) : Prop :=
  version s = OPERATION_SNAPSHOT_VERSION /\ u64_wf (generation s) /\ u64_wf (delivery_cursor s).

(** A version-one snapshot of the same fields: it has no group controls. *)
Definition legacy_encode (s : OperationSnapshot) : option bytes :=
  provider ← put_bytes (provider_state s);
  application ← put_bytes (application_state s);
  outbox ← put_counted put_bytes (snap_outbox s);
  inbox ← put_counted put_bytes (snap_inbox s);
  dedup ← put_counted put_bytes (snap_dedup s);
  Some (TCOP ++ [x01] ++ be64 (generation s) ++ provider ++ application ++
        outbox ++ inbox ++ dedup ++ be64 (delivery_cursor s)).

Lemma byte_lists_wf (l : list bytes) : Forall (fun _ => True) l.
Proof. by apply Forall_true. Qed.
#[local] Hint Resolve byte_lists_wf : core.

Lemma snapshot_encode_decode s bs : snapshot_wf s -> snapshot_encode s = Some bs -> snapshot_decode bs = Some s.
Proof.
  intros (Hv & Hg & Hc) H. unfold snapshot_encode in H. inv_bind. unfold snapshot_decode.
  rewrite split_at_checked_app by done. cbn [mbind option_bind]. rewrite bool_decide_eq_true_2 by done. cbn [negb].
  rewrite (split_at_checked_app 1 [_]) by done. cbn [mbind option_bind head]. rewrite Hv. cbn [negb andb].
  change (byte_val (byte_of OPERATION_SNAPSHOT_VERSION)) with 2. cbn [Z.eqb Pos.eqb negb andb OPERATION_SNAPSHOT_VERSION].
  frames_fwd. rewrite <- (app_nil_r (be64 (delivery_cursor s))). rewrite take_u64_app by done.
  cbn. destruct s; cbn in *. by subst.
Qed.

Lemma snapshot_legacy_decode s bs :
  snapshot_wf s -> group_controls s = [] -> legacy_encode s = Some bs -> snapshot_decode bs = Some s.
Proof.
  intros (Hv & Hg & Hc) Hn H. unfold legacy_encode in H. inv_bind. unfold snapshot_decode.
  rewrite split_at_checked_app by done. cbn [mbind option_bind]. rewrite bool_decide_eq_true_2 by done. cbn [negb].
  rewrite (split_at_checked_app 1 [_]) by done. cbn [mbind option_bind head].
  change (byte_val x01) with 1. cbn [Z.eqb Pos.eqb negb andb].
  frames_fwd. rewrite <- (app_nil_r (be64 (delivery_cursor s))). rewrite take_u64_app by done.
  cbn. destruct s; cbn in *. by subst.
Qed.

Lemma snapshot_decode_encode s bs :
  snapshot_decode bs = Some s ->
  snapshot_wf s /\ (snapshot_encode s = Some bs \/ (group_controls s = [] /\ legacy_encode s = Some bs)).
Proof.
  intros H. unfold snapshot_decode in H. inv_bind.
  match goal with H : split_at_checked 4 _ = _ |- _ => apply split_at_checked_Some in H as [-> _]; [|lia] end.
  match goal with H : split_at_checked 1 _ = _ |- _ => apply split_at_checked_Some in H as [-> Hl]; [|lia] end.
  bool_prop. subst.
  destruct l1 as [|b' [|? ?]]; [done| |exfalso; unfold len in Hl; cbn in Hl; lia]. cbn in E1. injection E1 as ->.
  apply andb_false_iff in G0.
  destruct (byte_val b =? 1) eqn:Eb.
  - injection E8 as <- <-. frames_inv. split; [by split_and!|]. right. split; [done|].
    unfold legacy_encode. cbn [provider_state application_state snap_outbox snap_inbox snap_dedup generation delivery_cursor].
    put_fwd. rewrite ?app_nil_r. bool_prop. by rewrite (byte_val_inj b x01).
  - frames_inv. split; [by split_and!|]. left. unfold snapshot_encode.
    cbn [version provider_state application_state snap_outbox snap_inbox snap_dedup group_controls generation delivery_cursor].
    put_fwd. rewrite ?app_nil_r. destruct G0 as [G|G]; [done|]. bool_prop.
    by rewrite <- G, byte_of_val.
Qed.

(** The header of a snapshot that decodes is its generation. *)
Lemma header_of_decoded bs s : snapshot_decode bs = Some s -> read_header bs = Ok (generation s).
Proof.
  intros H. apply snapshot_decode_encode in H as [(Hver & Hg & _) H].
  assert (exists v rest, bs = (TCOP ++ [v] ++ be64 (generation s)) ++ rest /\ (byte_val v = 1 \/ byte_val v = 2))
    as (v & rest & -> & Hv).
  { destruct H as [H|[_ H]]; [unfold snapshot_encode in H|unfold legacy_encode in H]; inv_bind;
      eexists _, _; rewrite <- !app_assoc; (split; [done|]); [right|by left]. by rewrite Hver. }
  unfold read_header. rewrite split_at_checked_app by (unfold len; rewrite !length_app, length_be_bytes; done).
  cbn [mbind result_bind ok_or]. rewrite get_to_app by done. cbn [mbind result_bind ok_or].
  change ((TCOP ++ [v] ++ be64 (generation s)) !! 4%nat) with (Some v). cbn [mbind result_bind ok_or].
  rewrite bool_decide_eq_true_2 by done.
  replace (negb (byte_val v =? 1) && negb (byte_val v =? OPERATION_SNAPSHOT_VERSION)) with false
    by (unfold OPERATION_SNAPSHOT_VERSION; destruct Hv as [-> | ->]; done).
  cbn [negb orb]. rewrite app_assoc, <- (app_nil_r (be64 (generation s))).
  rewrite get_range_app by (unfold len; rewrite ?length_be_bytes; done). cbn. rewrite be_value_be_bytes; [done|].
  unfold u64_wf, u64_max in Hg. change (256 ^ Z.of_nat 8) with 18446744073709551616. lia.
Qed.

(** ** What a store promises the handle

    [durable] is what a recovery of the store would read.  A commit after an
    expected generation changes it to the committed snapshot or not at all, and
    never when the durable generation is another. *)
Class FencedStore (St : Type) `{OperationStore St} := {
  store_ok : St -> Prop;
  durable : St -> result StoreError (option OperationSnapshot);
  fenced_recover st st' r :
    store_ok st -> store_recover st = (st', r) ->
    store_ok st' /\ durable st' = durable st /\ (forall x, r = Ok x -> durable st = Ok x);
  fenced_commit st e s st' o :
    store_ok st -> snapshot_wf s -> store_commit_after st e s = (st', o) ->
    store_ok st' /\ (durable st' = durable st \/ durable st' = Ok (Some s)) /\
    (o = Committed -> durable st' = Ok (Some s)) /\
    (forall x, durable st = Ok x -> generation <$> x <> e -> durable st' = durable st /\ o <> Committed)
}.

Lemma write_read fs p bs random io states r :
  plain_file fs p -> write_atomically fs p bs random io = (states, r) ->
  let fs' := default fs (last states) in
  plain_file fs' p /\ (read_file fs' p = read_file fs p \/ read_file fs' p = Ok bs) /\
  (r = Ok tt -> read_file fs' p = Ok bs).
Proof.
  intros Hp H. destruct (write_states _ _ _ _ _ _ _ H) as (Hall & Hok & _).
  set (fs' := default fs (last states)).
  assert (intact fs fs' p bs) as Hi.
  { subst fs'. destruct (last states) as [x|] eqn:El; cbn.
    - rewrite Forall_forall in Hall. apply Hall. apply last_Some in El as [l ->]. set_solver.
    - split; [apply preserved_refl|by left]. }
  destruct (intact_read _ _ _ _ Hp Hi) as [Hp' Hr].
  split_and!; [done|done|]. intros ->. destruct (Hok eq_refl) as [ino El]. subst fs'. rewrite El in *.
  cbn [default from_option id] in *. rewrite read_plain by done. cbn [names files]. by rewrite !lookup_insert_eq.
Qed.

Lemma lock_path_other st : lock_path st <> store_path st.
Proof.
  unfold lock_path. induction (store_path st) as [|c p IH]; cbn; [done|]. intros [= H]. by apply IH.
Qed.

(** Taking the lock changes nothing at the path. *)
Lemma lock_read st fs ino :
  plain_file (store_fs st) (store_path st) -> open_lock_file (store_fs st) (lock_path st) (next_io st) = Ok (fs, ino) ->
  plain_file fs (store_path st) /\ read_file fs (store_path st) = read_file (store_fs st) (store_path st).
Proof.
  intros Hp (_ & _ & _ & Hn & Hf)%lock_file_private. specialize (Hn (store_path st) (not_eq_sym (lock_path_other st))).
  assert (plain_file fs (store_path st)) as Hp'.
  { unfold plain_file in *. rewrite Hn. destruct (names _ !! _) as [[i| |]|]; try done.
    destruct Hp as [f Hi]. destruct (Hf _ _ Hi) as [m ?]. by eexists. }
  split; [done|]. rewrite !read_plain by done. rewrite Hn. unfold plain_file in Hp.
  destruct (names (store_fs st) !! store_path st) as [[i| |]|]; try done. destruct Hp as [f Hi].
  destruct (Hf _ _ Hi) as [m ->]. by rewrite Hi.
Qed.

Definition file_durable (st : FileOperationStore) : result StoreError (option OperationSnapshot) := file_recover st.

Lemma file_recover_same st fs :
  read_file fs (store_path st) = read_file (store_fs st) (store_path st) ->
  file_recover (with_fs st fs) = file_recover st.
Proof. intros H. unfold file_recover. cbn [store_fs store_path with_fs]. by rewrite H. Qed.

Lemma header_of_durable st x : file_recover st = Ok x -> header_generation st = Ok (generation <$> x).
Proof.
  unfold file_recover, header_generation. destruct (read_file _ _) as [bs|[]]; try done; [|by intros [= <-]].
  destruct (snapshot_decode bs) as [s|] eqn:E; [|done]. intros [= <-]. by rewrite (header_of_decoded _ _ E).
Qed.

(** A write of the store: the snapshot is there or nothing has changed. *)
Lemma file_write_durable st fs s fs' o :
  plain_file fs (store_path st) -> snapshot_wf s -> file_write st fs s = (fs', o) ->
  plain_file fs' (store_path st) /\
  (read_file fs' (store_path st) = read_file fs (store_path st) \/ file_recover (with_fs st fs') = Ok (Some s)) /\
  (o = Committed -> file_recover (with_fs st fs') = Ok (Some s)).
Proof.
  intros Hp Hwf H. unfold file_write in H. destruct (snapshot_encode s) as [bs|] eqn:Ee.
  2: { injection H as <- <-. split_and!; [done|by left|done]. }
  destruct (write_atomically _ _ _ _ _) as [states r] eqn:Ew. injection H as <- <-.
  destruct (write_read _ _ _ _ _ _ _ Hp Ew) as (Hp' & Hr & Hok).
  assert (forall f, read_file f (store_path st) = Ok bs -> file_recover (with_fs st f) = Ok (Some s)) as Hdec.
  { intros f Hf. unfold file_recover. cbn [store_fs store_path with_fs]. rewrite Hf.
    by rewrite (snapshot_encode_decode s bs). }
  split_and!; [done| |].
  - destruct Hr as [Hr|Hr]; [by left|right]. by apply Hdec.
  - destruct r as [[]|]; [|done]. intros _. by apply Hdec, Hok.
Qed.

#[global] Program Instance file_fenced : FencedStore FileOperationStore := {|
  store_ok := fun st => plain_file (store_fs st) (store_path st);
  durable := file_durable
|}.
Next Obligation. intros st st' r Hok H. cbn in H. injection H as <- <-. split_and!; done. Qed.
Next Obligation.
  intros st e s st' o Hok Hwf H. cbn in H. unfold file_commit_after, locked in H. unfold file_durable.
  destruct (open_lock_file _ _ _) as [[fs ino]|] eqn:El.
  2: { injection H as <- <-. split_and!; [done|by left|done|]. by intros. }
  destruct (lock_read _ _ _ Hok El) as [Hp Hr].
  pose proof (file_recover_same st fs Hr) as Hsame.
  assert (forall x, file_recover st = Ok x ->
    header_generation (mkFileStore (store_path st) fs (store_io st) (store_random st)) = Ok (generation <$> x)) as Hh.
  { intros x Hx. apply header_of_durable. rewrite <- Hx. unfold file_recover. cbn [store_fs store_path]. by rewrite Hr. }
  assert (forall st', (with_fs st fs, CFailed) = (st', o) ->
    plain_file (store_fs st') (store_path st') /\
    (file_recover st' = file_recover st \/ file_recover st' = Ok (Some s)) /\
    (o = Committed -> file_recover st' = Ok (Some s)) /\
    (forall x, file_recover st = Ok x -> generation <$> x <> e -> file_recover st' = file_recover st /\ o <> Committed)) as Hno.
  { intros st1 [= <- <-]. split_and!; [done|by left|done|]. by intros. }
  destruct (header_generation _) as [cur|] eqn:Eh; [|by apply Hno].
  destruct (bool_decide (cur = e)) eqn:Ec; [|by apply Hno]. bool_prop. subst cur.
  destruct (file_write st fs s) as [fs' o'] eqn:Ew. injection H as <- <-.
  destruct (file_write_durable _ _ _ _ _ Hp Hwf Ew) as (Hp' & Hd & Hc). split_and!; [done| |done|].
  - destruct Hd as [Hd|Hd]; [left|by right]. apply file_recover_same. by rewrite Hd.
  - intros x Hx Hne. exfalso. apply Hne. specialize (Hh x Hx). congruence.
Qed.

(** ** The handle over any store

    A run of commits and recoveries on one handle, with what each did. *)
Inductive HandleOp := HCommit (s : OperationSnapshot) | HRecover.

Inductive HandleEvent :=
| ERefused
| EAttempt (g : Z) (outcome : CommitOutcome)
| ERecovered (g : option Z)
| EUnreadable
| ERolledBack.

(** Whether a handle is latched after an event. *)
Definition latched_after (latched : bool) (ev : HandleEvent) : bool :=
  match ev with
  | EAttempt _ o => negb (bool_decide (o = Committed))
  | ERecovered _ => false
  | ERolledBack => true
  | ERefused | EUnreadable => latched
  end.

(** The generations a log has handed to the store or read from it, and those
    it has seen durable. *)
Definition touched (g : Z) (log : list HandleEvent) : Prop :=
  ERecovered (Some g) ∈ log \/ exists o, EAttempt g o ∈ log.
Definition seen_durable (g : Z) (log : list HandleEvent) : Prop :=
  ERecovered (Some g) ∈ log \/ EAttempt g Committed ∈ log.

Section Handle.
Context {St : Type} `{OperationStore St}.
Implicit Types d : DurableStore St.

Definition handle_op d (op : HandleOp) : DurableStore St * HandleEvent :=
  match op with
  | HCommit s =>
      let '(d', o) := durable_commit d s in
      (d', if frozen d then ERefused else EAttempt (generation s) o)
  | HRecover =>
      let '(d', r) := recover_not_behind d in
      (d', match r with
           | Ok x => ERecovered (generation <$> x)
           | Err Unreadable => EUnreadable
           | Err RolledBack => ERolledBack
           end)
  end.

Fixpoint handle_run d (ops : list HandleOp) : DurableStore St * list HandleEvent :=
  match ops with
  | [] => (d, [])
  | op :: ops =>
      let '(d, ev) := handle_op d op in
      let '(d, log) := handle_run d ops in
      (d, ev :: log)
  end.

Record handle_inv d (log : list HandleEvent) : Prop := {
  hi_latched : frozen d = fold_left latched_after log false;
  hi_high g : touched g log -> g <= high_water d;
  hi_floor g : seen_durable g log -> exists c, committed d = Some c /\ g <= c;
  hi_forward l1 g' l2 g : log = l1 ++ ERecovered (Some g') :: l2 -> seen_durable g l1 -> g <= g'
}.

Lemma touched_snoc g log ev :
  touched g (log ++ [ev]) <-> touched g log \/ ev = ERecovered (Some g) \/ exists o, ev = EAttempt g o.
Proof.
  unfold touched. setoid_rewrite elem_of_app. setoid_rewrite list_elem_of_singleton. naive_solver.
Qed.

Lemma seen_snoc g log ev :
  seen_durable g (log ++ [ev]) <-> seen_durable g log \/ ev = ERecovered (Some g) \/ ev = EAttempt g Committed.
Proof. unfold seen_durable. rewrite !elem_of_app, !list_elem_of_singleton. naive_solver. Qed.

Lemma option_max_ge c x g :
  (exists k, c = Some k /\ g <= k) \/ g <= x -> exists k, option_max c (Some x) = Some k /\ g <= k.
Proof. destruct c as [k|]; cbn; intros [(? & ? & ?)|?]; simplify_eq; eexists; (split; [done|lia]). Qed.

(** Extending the log by an event. *)
Lemma handle_inv_snoc d log d' ev :
  handle_inv d log -> frozen d' = latched_after (frozen d) ev ->
  (forall g, g <= high_water d \/ ev = ERecovered (Some g) \/ (exists o, ev = EAttempt g o) -> g <= high_water d') ->
  (forall g, (exists c, committed d = Some c /\ g <= c) \/ ev = ERecovered (Some g) \/ ev = EAttempt g Committed ->
     exists c, committed d' = Some c /\ g <= c) ->
  (forall g g', ev = ERecovered (Some g') -> (exists c, committed d = Some c /\ g <= c) -> g <= g') ->
  handle_inv d' (log ++ [ev]).
Proof.
  intros [I1 I2 I3 I4] Hf Hh Hc Hr. split.
  - by rewrite fold_left_app, Hf, I1.
  - intros g [Ht|Ht]%touched_snoc; apply Hh; [left; by apply I2|by right].
  - intros g [Ht|Ht]%seen_snoc; apply Hc; [left; by apply I3|by right].
  - intros l1 g' l2 g Hl Hs. destruct l2 as [|x l2 _] using rev_ind.
    + apply app_inj_tail in Hl as [-> ->]. apply (Hr g g'); [done|by apply I3].
    + rewrite app_comm_cons, app_assoc in Hl. apply app_inj_tail in Hl as [-> ->]. by eapply I4.
Qed.

Lemma adopt_inv d log x :
  handle_inv d log -> (forall c s, committed d = Some c -> x = Some s -> c <= generation s) ->
  handle_inv (adopt d x).1 (log ++ [ERecovered (generation <$> x)]).
Proof.
  intros Hi Hx. destruct x as [s|]; cbn; (eapply handle_inv_snoc; [exact Hi|done|..]); cbn.
  - intros g [?|[[= ->]|[? [=]]]]; lia.
  - intros g Hg. apply option_max_ge. destruct Hg as [?|[[= ->]|[=]]]; [by left|right; lia].
  - intros g g' [= <-] (c & Hc & Hg). specialize (Hx c s Hc eq_refl). lia.
  - intros g [?|[[=]|[? [=]]]]. lia.
  - intros g [?|[[=]|[=]]]. done.
  - done.
Qed.

(** What the inner store does leaves the handle's own fields alone. *)
Lemma handle_inv_inner d log st : handle_inv d log -> handle_inv (with_inner d st) log.
Proof. intros [I1 I2 I3 I4]. by split. Qed.

Lemma handle_op_inv d log op d' ev :
  handle_inv d log -> handle_op d op = (d', ev) -> handle_inv d' (log ++ [ev]).
Proof.
  intros Hi Hop. destruct op as [s|]; cbn in Hop.
  - unfold durable_commit in Hop. destruct (frozen d) eqn:Ef.
    { injection Hop as <- <-. eapply handle_inv_snoc; [exact Hi|done|..].
      - intros g [?|[[=]|[? [=]]]]. done.
      - intros g [?|[[=]|[=]]]. done.
      - done. }
    cbn in Hop. destruct (store_commit_after _ _ _) as [st o]. destruct (bool_decide (o = Committed)) eqn:Eo;
      injection Hop as <- <-; (eapply handle_inv_snoc; [exact Hi|cbn; rewrite ?Ef, Eo; done|..]); cbn; bool_prop.
    + intros g [?|[[=]|[? [= -> _]]]]; lia.
    + intros g Hg. apply option_max_ge. destruct Hg as [?|[[=]|[= -> _]]]; [by left|right; lia].
    + done.
    + intros g [?|[[=]|[? [= -> _]]]]; lia.
    + intros g [?|[[=]|[= _ ->]]]; done.
    + done.
  - unfold recover_not_behind in Hop. destruct (store_recover (inner d)) as [st r].
    assert (handle_inv (with_inner d st) log) as Hi' by (by apply handle_inv_inner).
    destruct r as [x|].
    2: { injection Hop as <- <-. eapply handle_inv_snoc; [exact Hi'|done|..].
         - intros g [?|[[=]|[? [=]]]]. done.
         - intros g [?|[[=]|[=]]]. done.
         - done. }
    assert ((d', ev) = ((adopt (with_inner d st) x).1, ERecovered (generation <$> x)) /\
        (forall c s, committed d = Some c -> x = Some s -> c <= generation s) \/
      (d', ev) = (with_frozen (with_inner d st), ERolledBack)) as [[[-> ->]%pair_eq Hx]|[-> ->]%pair_eq].
    { cbn in Hop. destruct (committed d) as [c|] eqn:Ec, x as [s|];
        try (left; split; [rewrite <- Hop; cbn; by rewrite Ec|intros; simplify_eq]).
      destruct (generation s <? c) eqn:E; [by right|left]. split; [rewrite <- Hop; cbn; by rewrite Ec|].
      intros ? ? [= <-] [= <-]. bool_prop. lia. }
    + by apply adopt_inv.
    + eapply handle_inv_snoc; [exact Hi|done|..].
      * intros g [?|[[=]|[? [=]]]]. done.
      * intros g [?|[[=]|[=]]]. done.
      * done.
Qed.

Lemma handle_run_inv ops : forall d log d' log',
  handle_inv d log -> handle_run d ops = (d', log') -> handle_inv d' (log ++ log').
Proof.
  induction ops as [|op ops IH]; intros d log d' log' Hi Hrun; cbn in Hrun.
  - injection Hrun as <- <-. by rewrite app_nil_r.
  - destruct (handle_op d op) as [d1 ev] eqn:E1. destruct (handle_run d1 ops) as [d2 log2] eqn:E2.
    injection Hrun as <- <-. rewrite cons_middle, app_assoc. eapply IH; [|exact E2]. by eapply handle_op_inv.
Qed.

Lemma handle_inv_new st : handle_inv (durable_new st) [].
Proof.
  split; [done| | |].
  - intros g [Hg|[? Hg]]; by apply elem_of_nil in Hg.
  - intros g [Hg|Hg]; by apply elem_of_nil in Hg.
  - intros [|] g' l2 g; done.
Qed.
End Handle.

(** ** Commits of a coordinator
    ([begin_candidate] of [tacenta-client/src/group_operations.rs]) *)
Inductive GroupOperationError := Policy | Frozen.

Definition with_generation (s : OperationSnapshot) (g : Z) : OperationSnapshot :=
  mkSnapshot (version s) g (provider_state s) (application_state s) (snap_outbox s) (snap_inbox s) (snap_dedup s)
    (group_controls s) (delivery_cursor s).

Definition begin_candidate {St} `{OperationStore St} (store : St) (s : OperationSnapshot)
    : result GroupOperationError OperationSnapshot :=
  if store_is_frozen store then Err Frozen else
  g ← ok_or Frozen (store_next_generation store (generation s));
  Ok (with_generation s g).

(** The end of every commit: the candidate and what it would return, published
    or not. *)
Definition publish {St A} `{OperationStore St} (store : St)
    (candidate : result GroupOperationError (OperationSnapshot * A))
    : St * result GroupOperationError (OperationSnapshot * A) :=
  match candidate with
  | Err e => (store, Err e)
  | Ok (c, a) =>
      let '(store, outcome) := store_commit store c in
      (store, if bool_decide (outcome = Committed) then Ok (c, a) else Err Frozen)
  end.

(** ** Several coordinators on one store

    A coordinator is its handle, the snapshot it works from and whether it is
    poisoned ([GroupClient::open], [recover] and the commits of
    [tacenta-client/src/group_client.rs]).  The store they share is the inner
    store of whichever handle acts. *)
Record Coordinator (St : Type) := mkCoordinator {
  co_store : DurableStore St;
  co_snapshot : OperationSnapshot;
  co_poisoned : bool
}.
Arguments mkCoordinator {St} co_store co_snapshot co_poisoned.
Arguments co_store {St} c.
Arguments co_snapshot {St} c.
Arguments co_poisoned {St} c.

(** The refusals of [open] and [recover]. *)
Inductive CoordinatorError :=
| CeRecovery | CeRollback | CeStateMismatch | CeClient | CeOperation (e : GroupOperationError).

Record World (St : Type) := mkWorld { shared : St; coordinators : list (Coordinator St) }.
Arguments mkWorld {St} shared coordinators.
Arguments shared {St} w.
Arguments coordinators {St} w.

Section World.
Context {St : Type} `{FencedStore St}.

(** A commit of the snapshot [c], which the coordinator began from its own. *)
Definition coordinator_commit (st : St) (co : Coordinator St) (c : OperationSnapshot)
    : Coordinator St * result GroupOperationError unit :=
  let d := with_inner (co_store co) st in
  if co_poisoned co then (mkCoordinator d (co_snapshot co) true, Err Frozen) else
  match begin_candidate d (co_snapshot co) with
  | Err e => (mkCoordinator d (co_snapshot co) (co_poisoned co), Err e)
  | Ok base =>
      let '(d, r) := publish d (Ok (with_generation c (generation base), tt)) in
      match r with
      | Ok (c, _) => (mkCoordinator d c (co_poisoned co), Ok tt)
      | Err e => (mkCoordinator d (co_snapshot co) (co_poisoned co), Err e)
      end
  end.

(** [open], given what the client answers: whether a provider state is of its
    identity, and the state it exports ([None]: the export failed). *)
Definition coordinator_open (st : St) (same_identity : bytes -> bool) (exported : option bytes)
    : St * result CoordinatorError (Coordinator St) :=
  let '(d, r) := durable_recover (durable_new st) in
  match r with
  | Err _ => (inner d, Err CeRecovery)
  | Ok (Some s) =>
      if negb (same_identity (provider_state s)) then (inner d, Err CeRecovery) else
      match exported with
      | None => (inner d, Err CeClient)
      | Some state =>
          if negb (bool_decide (state = provider_state s)) then (inner d, Err CeStateMismatch)
          else (inner d, Ok (mkCoordinator d s false))
      end
  | Ok None =>
      match exported with
      | None => (inner d, Err CeClient)
      | Some provider =>
          let first := base ← begin_candidate d (snapshot_empty 0);
            Ok (mkSnapshot (version base) (generation base) provider (application_state base) (snap_outbox base)
                  (snap_inbox base) (snap_dedup base) (group_controls base) (delivery_cursor base), tt) in
          let '(d, r) := publish d first in
          (inner d, match r with Ok (c, _) => Ok (mkCoordinator d c false) | Err e => Err (CeOperation e) end)
      end
  end.

(** The commits of [attach] while [recover] runs, in turn: it ends at the first
    that does not succeed. *)
Fixpoint attach_commits (co : Coordinator St) (cs : list OperationSnapshot)
    : Coordinator St * result GroupOperationError unit :=
  match cs with
  | [] => (co, Ok tt)
  | c :: cs =>
      match coordinator_commit (inner (co_store co)) co c with
      | (co, Ok _) => attach_commits co cs
      | (co, Err e) => (co, Err e)
      end
  end.

Definition with_poison (co : Coordinator St) (b : bool) : Coordinator St := mkCoordinator (co_store co) (co_snapshot co) b.

(** [recover], given whether the client took the provider state, the snapshots
    [attach] commits when there is a group, and what else it answers.  The flag
    stays up until every step has succeeded; [attach] does not read it. *)
Definition coordinator_recover (st : St) (co : Coordinator St) (restored : bool) (cs : list OperationSnapshot)
    (attached : result CoordinatorError unit) : Coordinator St * result CoordinatorError unit :=
  let '(d, r) := recover_not_behind (with_inner (co_store co) st) in
  match r with
  | Ok None | Err Unreadable => (mkCoordinator d (co_snapshot co) true, Err CeRecovery)
  | Err RolledBack => (mkCoordinator d (co_snapshot co) true, Err CeRollback)
  | Ok (Some s) =>
      if negb restored then (mkCoordinator d (co_snapshot co) true, Err CeClient) else
      match attach_commits (mkCoordinator d s false) cs with
      | (co, Err e) => (with_poison co true, Err (CeOperation e))
      | (co, Ok _) =>
          match attached with
          | Err e => (with_poison co true, Err e)
          | Ok _ => (co, Ok tt)
          end
      end
  end.

Definition update_world (w : World St) (i : nat) (co : Coordinator St) : World St :=
  mkWorld (inner (co_store co)) (<[i := co]> (coordinators w)).

Inductive world_step : World St -> World St -> Prop :=
| world_open w same_identity exported st' r :
    coordinator_open (shared w) same_identity exported = (st', r) ->
    world_step w (mkWorld st' (match r with Ok co => coordinators w ++ [co] | Err _ => coordinators w end))
| world_commit w i co c co' r :
    coordinators w !! i = Some co -> snapshot_wf c -> coordinator_commit (shared w) co c = (co', r) ->
    world_step w (update_world w i co')
| world_recover w i co restored cs attached co' r :
    coordinators w !! i = Some co -> Forall snapshot_wf cs ->
    coordinator_recover (shared w) co restored cs attached = (co', r) ->
    world_step w (update_world w i co')
| world_poison w i co :
    coordinators w !! i = Some co ->
    world_step w (mkWorld (shared w) (<[i := mkCoordinator (co_store co) (co_snapshot co) true]> (coordinators w))).

(** What was durable, newest first: generations only rise, and a coordinator
    that may commit works from one of them. *)
Definition rising (history : list OperationSnapshot) : Prop :=
  StronglySorted (fun a b => generation b < generation a) history.

Definition coordinator_ok (history : list OperationSnapshot) (co : Coordinator St) : Prop :=
  co_poisoned co = false ->
  co_snapshot co ∈ history /\ observed (co_store co) = Some (generation (co_snapshot co)).

Record world_inv (w : World St) (history : list OperationSnapshot) : Prop := {
  wi_ok : store_ok (shared w);
  wi_durable : durable (shared w) = Ok (head history);
  wi_rising : rising history;
  wi_wf : Forall snapshot_wf history;
  wi_each : Forall (coordinator_ok history) (coordinators w)
}.

Lemma rising_generation h a b : rising h -> a ∈ h -> b ∈ h -> generation a = generation b -> a = b.
Proof.
  intros Hs Ha Hb Hg. induction Hs as [|x l _ IH Hall]; [by apply elem_of_nil in Ha|].
  rewrite Forall_forall in Hall. apply elem_of_cons in Ha as [->|Ha], Hb as [->|Hb]; [done| | |by apply IH].
  - specialize (Hall b Hb). lia.
  - specialize (Hall a Ha). lia.
Qed.

Lemma coordinator_ok_mono h c co : coordinator_ok h co -> coordinator_ok (c :: h) co.
Proof. intros Hc Hp. destruct (Hc Hp). split; [by apply list_elem_of_further|done]. Qed.

(** The candidate of a handle is above what it has seen and in range. *)
Lemma begin_candidate_durable (d : DurableStore St) s base :
  begin_candidate d s = Ok base ->
  frozen d = false /\ base = with_generation s (generation base) /\ generation s < generation base <= u64_max.
Proof.
  unfold begin_candidate. cbn. destruct (frozen d); [done|]. unfold durable_next_generation, checked_add64.
  destruct (_ <=? _) eqn:E; [|done]. cbn. intros [= <-]. bool_prop. split_and!; [done|done|cbn; lia|cbn; lia].
Qed.

(** A commit through a handle whose observed generation is that of a durable
    snapshot: the history stays, or gains the candidate. *)
Lemma durable_commit_history st h (d : DurableStore St) c d' o :
  store_ok st -> durable st = Ok (head h) -> snapshot_wf c -> frozen d = false ->
  durable_commit (with_inner d st) c = (d', o) ->
  store_ok (inner d') /\
  (durable (inner d') = Ok (head h) /\ o <> Committed \/
   durable (inner d') = Ok (Some c) /\ generation <$> head h = observed d) /\
  (o = Committed -> observed d' = Some (generation c) /\ durable (inner d') = Ok (Some c) /\
     generation <$> head h = observed d) /\
  (o <> Committed -> observed d' = observed d).
Proof.
  intros Hok Hd Hwf Hf. unfold durable_commit. cbn. rewrite Hf.
  destruct (store_commit_after st (observed d) c) as [st' o'] eqn:E.
  destruct (fenced_commit _ _ _ _ _ Hok Hwf E) as (Hok' & Hor & Hc & Hne).
  assert (durable st' = Ok (head h) /\ o' <> Committed \/ durable st' = Ok (Some c) /\ generation <$> head h = observed d)
    as Hcases.
  { destruct (decide (generation <$> head h = observed d)) as [He|He].
    - destruct (decide (o' = Committed)) as [Ho|Ho]; [right; split; [by apply Hc|done]|].
      destruct Hor as [Hor|Hor]; [left; split; [by rewrite Hor|done]|by right].
    - destruct (Hne _ Hd He) as [-> ?]. by left. }
  destruct (bool_decide (o' = Committed)) eqn:Eo; intros [= <- <-]; bool_prop; cbn; split_and!; try done.
  intros _. split_and!; [done|by apply Hc|]. destruct Hcases as [[_ ?]|[_ ?]]; done.
Qed.

(** One commit of a coordinator that may act. *)
Lemma commit_step st h co c co' r :
  store_ok st -> durable st = Ok (head h) -> rising h -> Forall snapshot_wf h -> coordinator_ok h co ->
  snapshot_wf c -> coordinator_commit st co c = (co', r) ->
  exists h', store_ok (inner (co_store co')) /\ durable (inner (co_store co')) = Ok (head h') /\
    coordinator_ok h' co' /\ (r = Ok tt -> head h' = Some (co_snapshot co')) /\
    (h' = h \/
     exists g, h' = with_generation c g :: h /\ generation (co_snapshot co) < g <= u64_max /\ head h = Some (co_snapshot co)).
Proof.
  intros Hok Hd Hr Hw Hco Hwf Hc. unfold coordinator_commit in Hc.
  destruct (co_poisoned co) eqn:Hp.
  { injection Hc as <- <-. exists h. by split_and!; [| | | |left]. }
  destruct (Hco Hp) as [Hin Hobs].
  destruct (begin_candidate _ _) as [base|] eqn:Eb.
  2: { injection Hc as <- <-. exists h. split_and!; [done|done|done|done|by left]. }
  apply begin_candidate_durable in Eb as (Hf & _ & Hg). set (c' := with_generation c (generation base)) in Hc.
  assert (snapshot_wf c') as Hwf'.
  { destruct Hwf as (? & _ & ?). split_and!; [done| |done]. rewrite Forall_forall in Hw.
    destruct (Hw _ Hin) as (_ & [? _] & _). unfold u64_wf. cbn. lia. }
  cbn in Hc. destruct (durable_commit _ c') as [d o] eqn:Ed.
  destruct (durable_commit_history st h _ c' d o Hok Hd Hwf' Hf Ed) as (Hok' & Hcases & Hcom & Hsame).
  assert (generation <$> head h = observed (co_store co) -> head h = Some (co_snapshot co)) as Hhead.
  { intros Hx. rewrite Hobs in Hx. destruct (head h) as [y|] eqn:Ey; [|done]. injection Hx as Hx. f_equal.
    apply (rising_generation h); try done. by apply head_Some_elem_of. }
  destruct (bool_decide (o = Committed)) eqn:Eo; bool_prop; injection Hc as <- <-; cbn.
  - destruct (Hcom Eo) as (Ho & Hdur & Heq). exists (c' :: h). split_and!; [done|done| |done|].
    + intros _. split; [apply list_elem_of_here|done].
    + right. eexists. split_and!; [done|lia|lia|by apply Hhead].
  - assert (coordinator_ok h (mkCoordinator d (co_snapshot co) false)) as Hco'.
    { intros _. split; [done|]. cbn. by rewrite Hsame. }
    destruct Hcases as [[Hdur _]|[Hdur Heq]].
    + exists h. by split_and!; [| | | |left].
    + exists (c' :: h). split_and!; [done|done|by apply coordinator_ok_mono|done|].
      right. eexists. split_and!; [done|lia|lia|by apply Hhead].
Qed.

Lemma durable_recover_inner (d : DurableStore St) d' r st h :
  store_ok st -> durable st = Ok (head h) -> inner d = st -> durable_recover d = (d', r) ->
  store_ok (inner d') /\ durable (inner d') = Ok (head h) /\
  (forall x, r = Ok x -> x = head h /\ observed d' = generation <$> x /\ frozen d' = false).
Proof.
  intros Hok Hd <-. unfold durable_recover. destruct (store_recover (inner d)) as [st' r'] eqn:E.
  destruct (fenced_recover _ _ _ Hok E) as (Hok' & Hd' & Hr). rewrite Hd in Hd'.
  destruct r' as [x|]; [|intros [= <- <-]; by split_and!]. intros [= <- <-]. specialize (Hr x eq_refl).
  cbn. split_and!; [by destruct x|by destruct x|]. intros y [= <-]. split_and!; [congruence|done|done].
Qed.

(** Opening: a coordinator on the newest durable snapshot, or the first. *)
Lemma open_step st h same_identity exported st' r :
  store_ok st -> durable st = Ok (head h) -> Forall snapshot_wf h ->
  coordinator_open st same_identity exported = (st', r) ->
  exists h', store_ok st' /\ durable st' = Ok (head h') /\
    (forall co, r = Ok co -> coordinator_ok h' co) /\ (h' = h \/ h = [] /\ exists c, h' = [c] /\ snapshot_wf c).
Proof.
  intros Hok Hd Hw Ho. unfold coordinator_open in Ho. destruct (durable_recover (durable_new st)) as [d x] eqn:Er.
  destruct (durable_recover_inner (durable_new st) d x st h Hok Hd eq_refl Er) as (Hok' & Hd' & Hx).
  destruct x as [x|]; [|injection Ho as <- <-; exists h; by split_and!; [| | |left]].
  destruct (Hx x eq_refl) as (-> & Hobs & Hf). destruct (head h) as [s|] eqn:Eh.
  { destruct (negb _) in Ho; [injection Ho as <- <-; exists h; rewrite Eh; by split_and!; [| | |left]|].
    destruct exported as [state|]; [|injection Ho as <- <-; exists h; rewrite Eh; by split_and!; [| | |left]].
    destruct (negb _) in Ho; injection Ho as <- <-; exists h; rewrite Eh; (split_and!; [done|done| |by left]); [done|].
    intros co [= <-] _. split; [by apply head_Some_elem_of|done]. }
  destruct exported as [provider|]; [|injection Ho as <- <-; exists h; rewrite Eh; by split_and!; [| | |left]].
  destruct h as [|? ?]; [|done].
  assert (high_water d = 0) as Hhw.
  { unfold durable_recover in Er. destruct (store_recover _) as [? [[|]|]]; cbn in Er; injection Er; intros; subst; done. }
  assert (begin_candidate d (snapshot_empty 0) = Ok (snapshot_empty 1)) as Hb.
  { unfold begin_candidate. cbn. rewrite Hf. unfold durable_next_generation. by rewrite Hhw. }
  rewrite Hb in Ho. cbn in Ho.
  set (c := mkSnapshot OPERATION_SNAPSHOT_VERSION 1 provider [] [] [] [] [] 0) in Ho.
  destruct (durable_commit d c) as [d2 o] eqn:Ec.
  assert (snapshot_wf c) as Hwf by by split_and!; [|split; cbn|split; cbn].
  assert (d = with_inner d (inner d)) as Hdd by by destruct d.
  rewrite Hdd in Ec. destruct (durable_commit_history (inner d) [] d c d2 o Hok' Hd' Hwf Hf Ec) as (Hok2 & Hcases & Hcom & _).
  destruct (bool_decide (o = Committed)) eqn:Eo; bool_prop; injection Ho as <- <-.
  - destruct (Hcom Eo) as (Ho & Hdur & _). exists [c]. split_and!; [done|done| |right; split; [done|by eexists]].
    intros co [= <-] _. split; [apply list_elem_of_here|done].
  - destruct Hcases as [[Hdur _]|[Hdur _]].
    + exists []. by split_and!; [| | |left].
    + exists [c]. split_and!; [done|done|done|right; split; [done|by eexists]].
Qed.

Lemma commit_again st h co c co' r :
  store_ok st -> durable st = Ok (head h) -> rising h -> Forall snapshot_wf h -> coordinator_ok h co ->
  snapshot_wf c -> coordinator_commit st co c = (co', r) ->
  exists h', store_ok (inner (co_store co')) /\ durable (inner (co_store co')) = Ok (head h') /\ rising h' /\
    Forall snapshot_wf h' /\ coordinator_ok h' co' /\ (forall o, coordinator_ok h o -> coordinator_ok h' o) /\
    co_poisoned co' = co_poisoned co.
Proof.
  intros Hok Hd Hr Hw Hco Hwf Hc.
  assert (co_poisoned co' = co_poisoned co) as Hp.
  { unfold coordinator_commit in Hc. destruct (co_poisoned co); [by injection Hc as <- _|].
    destruct (begin_candidate _ _); [|by injection Hc as <- _]. destruct (publish _ _) as [d [[x []]|e]]; by injection Hc as <- _. }
  destruct (commit_step _ _ _ _ _ _ Hok Hd Hr Hw Hco Hwf Hc) as (h' & Hok' & Hd' & Hco' & _ & Hh).
  exists h'. destruct Hh as [->|(g & -> & Hg & Hhd)]; [by split_and!|]. split_and!; try done.
  - constructor; [done|]. destruct h as [|y h]; [done|]. injection Hhd as ->. cbn.
    apply StronglySorted_inv in Hr as [_ Hall]. constructor; [lia|]. eapply Forall_impl; [exact Hall|]. cbn. intros. lia.
  - constructor; [|done]. destruct Hwf as (? & ? & ?). split_and!; [done| |done]. cbn.
    apply head_Some_elem_of in Hhd. rewrite Forall_forall in Hw. destruct (Hw _ Hhd) as (_ & [? ?] & _).
    unfold u64_wf. lia.
  - intros o. apply coordinator_ok_mono.
Qed.

Lemma attach_step cs : forall h co co' r,
  store_ok (inner (co_store co)) -> durable (inner (co_store co)) = Ok (head h) -> rising h -> Forall snapshot_wf h ->
  coordinator_ok h co -> Forall snapshot_wf cs -> attach_commits co cs = (co', r) ->
  exists h', store_ok (inner (co_store co')) /\ durable (inner (co_store co')) = Ok (head h') /\ rising h' /\
    Forall snapshot_wf h' /\ coordinator_ok h' co' /\ (forall o, coordinator_ok h o -> coordinator_ok h' o).
Proof.
  induction cs as [|c cs IH]; intros h co co' r Hok Hd Hr Hw Hco Hcs Hc; cbn [attach_commits] in Hc.
  - injection Hc as <- <-. by exists h.
  - apply Forall_cons in Hcs as [Hwf Hcs]. destruct (coordinator_commit _ _ _) as [co1 r1] eqn:E.
    destruct (commit_again _ _ _ _ _ _ Hok Hd Hr Hw Hco Hwf E) as (h1 & H1 & H2 & H3 & H4 & H5 & H6 & _).
    destruct r1; [|injection Hc as <- <-; by exists h1].
    destruct (IH h1 co1 co' r H1 H2 H3 H4 H5 Hcs Hc) as (h2 & ? & ? & ? & ? & ? & H7). exists h2. split_and!; try done.
    intros o Ho. by apply H7, H6.
Qed.

Lemma poisoned_ok h co : coordinator_ok h (with_poison co true).
Proof. by intros Hp. Qed.

Lemma not_behind_spec (d d' : DurableStore St) r :
  store_ok (inner d) -> recover_not_behind d = (d', r) ->
  store_ok (inner d') /\ durable (inner d') = durable (inner d) /\
  (forall x, r = Ok x -> durable (inner d) = Ok x /\ observed d' = generation <$> x /\ frozen d' = false).
Proof.
  intros Hok Hr. unfold recover_not_behind in Hr. destruct (store_recover (inner d)) as [st' x] eqn:E.
  destruct (fenced_recover _ _ _ Hok E) as (Hok' & Hd' & Hx). destruct x as [x|]; [|by injection Hr as <- <-].
  specialize (Hx x eq_refl). cbn in Hr. destruct (committed d) as [c|], x as [s|]; cbn in Hr; try (destruct (_ <? c));
    injection Hr as <- <-; cbn; split_and!; try done; intros y Hy; by simplify_eq.
Qed.

Lemma recover_step st h co restored cs attached co' r :
  store_ok st -> durable st = Ok (head h) -> rising h -> Forall snapshot_wf h -> Forall snapshot_wf cs ->
  coordinator_recover st co restored cs attached = (co', r) ->
  exists h', store_ok (inner (co_store co')) /\ durable (inner (co_store co')) = Ok (head h') /\ rising h' /\
    Forall snapshot_wf h' /\ coordinator_ok h' co' /\ (forall o, coordinator_ok h o -> coordinator_ok h' o).
Proof.
  intros Hok Hd Hri Hw Hcs Hr. unfold coordinator_recover in Hr.
  destruct (recover_not_behind _) as [d x] eqn:E.
  destruct (not_behind_spec (with_inner (co_store co) st) d x Hok) as (Hok' & Hd' & Hx); [exact E|]. cbn in Hd'.
  rewrite Hd in Hd'. destruct x as [[s|]|[]]; try (injection Hr as <- <-; exists h; by split_and!).
  destruct (Hx _ eq_refl) as (Hs & Hobs & _). cbn in Hs. rewrite Hd in Hs. apply Ok_inj in Hs.
  destruct (negb restored); [injection Hr as <- <-; exists h; by split_and!|].
  destruct (attach_commits _ _) as [co1 r1] eqn:Ea.
  apply (attach_step cs h) in Ea; [|done|done|done|done| |done].
  2: { intros _. split; [by apply head_Some_elem_of|done]. }
  destruct Ea as (h1 & H1 & H2 & H3 & H4 & H5 & H6).
  destruct r1; [destruct attached|]; injection Hr as <- <-; exists h1; by split_and!.
Qed.

Lemma world_inv_step w h w' : world_inv w h -> world_step w w' -> exists h', world_inv w' h'.
Proof.
  intros Hinv Hs. revert Hinv.
  destruct Hs as [w1 same_identity exported st' r Ho|w1 i co c co' r Hi Hwf Hc|w1 i co restored cs attached co' r Hi Hcs Hc|w1 i co Hi];
    intros [Hok Hd Hr Hw He].
  - destruct (open_step _ _ _ _ _ _ Hok Hd Hw Ho) as (h' & Hok' & Hd' & Hco & Hh).
    assert (rising h' /\ Forall snapshot_wf h' /\ Forall (coordinator_ok h') (coordinators w1)) as (Hr' & Hw' & He').
    { destruct Hh as [->|(-> & c & -> & Hcw)]; [done|]. split_and!; [repeat constructor|by constructor|].
      eapply Forall_impl; [exact He|]. intros co. apply coordinator_ok_mono. }
    exists h'. split; try done. cbn. destruct r as [co|]; [|done]. apply Forall_app. split; [done|]. by constructor; [apply Hco|].
  - pose proof (Forall_lookup_1 _ _ _ _ He Hi) as Hco.
    destruct (commit_again _ _ _ _ _ _ Hok Hd Hr Hw Hco Hwf Hc) as (h' & ? & ? & ? & ? & ? & Hm & _).
    exists h'. split; try done. cbn. apply Forall_insert; [|done]. by eapply Forall_impl.
  - destruct (recover_step _ _ _ _ _ _ _ _ Hok Hd Hr Hw Hcs Hc) as (h' & ? & ? & ? & ? & ? & Hm).
    exists h'. split; try done. cbn. apply Forall_insert; [|done]. by eapply Forall_impl.
  - exists h. split; try done. cbn. by apply Forall_insert.
Qed.

Lemma world_inv_run w h w' : world_inv w h -> rtc world_step w w' -> exists h', world_inv w' h'.
Proof. intros Hi Hrun. revert h Hi. induction Hrun as [|w w1 w2 Hs _ IH]; intros h Hi; [by exists h|].
  destruct (world_inv_step _ _ _ Hi Hs) as [h1 Hi1]. by eapply IH. Qed.
End World.

(** ** Properties *)

(** The snapshot codec loses nothing and accepts one form: a snapshot
    decodes from what it encodes to, and whatever decodes is a version-two
    snapshot in range whose encoding is the input, or the input is the
    version-one form of it, which has no group controls and decodes as well. *)
Lemma snapshot_codec_exact s bs :
  (snapshot_wf s -> snapshot_encode s = Some bs -> snapshot_decode bs = Some s) /\
  (snapshot_wf s -> group_controls s = [] -> legacy_encode s = Some bs -> snapshot_decode bs = Some s) /\
  (snapshot_decode bs = Some s ->
     snapshot_wf s /\ (snapshot_encode s = Some bs \/ (group_controls s = [] /\ legacy_encode s = Some bs))).
Proof. split_and!; [apply snapshot_encode_decode|apply snapshot_legacy_decode|apply snapshot_decode_encode]. Qed.

(** C23. The handle fails closed over any inner store: after any run of commits
    and recoveries it is latched exactly when the last write it forwarded did
    not commit (or a recovery was refused as a rollback) and no recovery has
    succeeded since; while it is latched a commit changes nothing and reports
    failure; the next generation is above every one it ever forwarded or read;
    and no recovery yields a generation below one seen durable before it. *)
Theorem durable_handle_fails_closed {St} `{OperationStore St} (st : St) ops d log :
  handle_run (durable_new st) ops = (d, log) ->
  frozen d = fold_left latched_after log false /\
  (frozen d = true -> forall s, durable_commit d s = (d, CFailed) /\ begin_candidate d s = Err Frozen) /\
  (forall g current n, touched g log -> durable_next_generation d current = Some n -> g < n) /\
  (forall l1 g' l2 g, log = l1 ++ ERecovered (Some g') :: l2 -> seen_durable g l1 -> g <= g').
Proof.
  intros Hrun. pose proof (handle_run_inv _ _ _ _ _ (handle_inv_new st) Hrun) as [I1 I2 _ I4]. cbn in *.
  split_and!; [done| | |done].
  - intros Hf s. unfold durable_commit, begin_candidate. cbn. by rewrite Hf.
  - intros g cur n Ht Hn. specialize (I2 g Ht). unfold durable_next_generation, checked_add64 in Hn.
    destruct (_ <=? _); [|done]. injection Hn as <-. lia.
Qed.


(** *** Witnesses *)
Definition first_snapshot : OperationSnapshot :=
  mkSnapshot 2 7 (bstr "p") [] [bstr "a"; bstr "bc"] [] [] [bstr "TCGE"] 3.

Lemma first_wf : snapshot_wf first_snapshot.
Proof. repeat split; by vm_compute. Qed.
Lemma empty_wf : snapshot_wf (snapshot_empty 0).
Proof. repeat split; by vm_compute. Qed.

Definition fresh_file_store : FileOperationStore :=
  mkFileStore "ops" (mkFs ∅ ∅) [] (fun k => Z.of_nat k).

(** The directory cannot be synced: the write is reported as failed. *)
Definition flaky_file_store : FileOperationStore :=
  mkFileStore "ops" (mkFs ∅ ∅) [mkIo (fun _ => true) None true true true false true] (fun k => Z.of_nat k).

Lemma durable_handle_fails_closed_witness :
  let '(d, log) := handle_run (durable_new flaky_file_store) [HRecover; HCommit (snapshot_empty 1); HCommit (snapshot_empty 2)] in
  frozen d = true /\ log = [ERecovered None; EAttempt 1 CFailed; ERefused].
Proof.
  destruct (handle_run _ _) as [d log] eqn:E.
  pose proof (durable_handle_fails_closed flaky_file_store _ d log E) as (H1 & _).
  assert (log = [ERecovered None; EAttempt 1 CFailed; ERefused]) as Hl.
  { change log with (d, log).2. rewrite <- E. by vm_compute. }
  rewrite Hl in H1. split; [exact H1|exact Hl].
Defined.

Definition open_in (w : World FileOperationStore) : World FileOperationStore :=
  let '(st', r) := coordinator_open (shared w) (fun _ => true) (Some (bstr "p")) in
  mkWorld st' (match r with Ok co => coordinators w ++ [co] | Err _ => coordinators w end).

Lemma open_in_step w : world_step w (open_in w).
Proof. unfold open_in. destruct (coordinator_open _ _ _) eqn:E. by eapply world_open. Qed.

(** Two coordinators on one file: the second has not seen the commit of the
    first, and its own is refused. *)
Definition two_opened : World FileOperationStore := open_in (open_in (mkWorld fresh_file_store [])).
Definition co0 := coordinators two_opened !! 0%nat.
Definition one_committed : World FileOperationStore :=
  match co0 with
  | Some co => update_world two_opened 0 (coordinator_commit (shared two_opened) co (snapshot_empty 0)).1
  | None => two_opened
  end.

