(* ===== verification/GroupCodec.v ===== *)
(** * GroupCodec: canonical values of the bounded group profile
    ([tacenta-group/src/lib.rs])

    Members, roster preimages and application contexts with their validation,
    encoding and decoding.  The source reads from a [&mut &[u8]]; here a reader
    returns the bytes that are left.  [Parses] is what a writer and a reader
    promise each other, as [Frames] is for the request protocols. *)

From S2P Require Import Prelude.

(** ** Profile *)
Definition GROUP_ID_LEN : Z := 16.
Definition DIGEST_LEN : Z := 32.
Definition MAX_MEMBERS : Z := 8.
Definition MAX_PAYLOAD_LEN : Z := 1024.
Definition MAX_IDENTITY_LEN : Z := 256.
Definition MAX_DEVICE_LEN : Z := 64.
Definition MAX_ROSTER_LEN : Z := 4096.
Definition MAX_APPLICATION_CONTEXT_LEN : Z := 2048.
Definition MAX_LIVE_LOGICAL_SENDS : Z := 8.
Definition POLICY_VERSION_V1 : Z := 1.
Definition RESERVED_REVISION : Z := u64_max.

Definition ROSTER_DOMAIN : bytes := bstr "Tacenta Group Roster v1".
Definition APPLICATION_DOMAIN : bytes := bstr "Tacenta Group Application v1".

Arguments RESERVED_REVISION : simpl never.
Arguments ROSTER_DOMAIN : simpl never.
Arguments APPLICATION_DOMAIN : simpl never.

Inductive Error :=
| Malformed | NonCanonical | UnsupportedPolicy | ReservedRevision | InvalidGenesis
| TooManyMembers | PayloadTooLarge | IdentityTooLarge | DeviceTooLarge | RosterTooLarge
| ContextTooLarge | EUnauthorized | Conflict | WrongTarget | StaleSource | Expired | Revoked
| WrongDisposition | EmptyRecipients | NotMember | Closed | RetryExhausted | OutboxFull
| StaleRevision | SequenceOrder | SequenceExhausted.

#[global] Instance Error_eq_dec : EqDecision Error.
Proof. solve_decision. Defined.

(** ** Readers and writers *)
Definition gtake (count : Z) (input : bytes) : result Error (bytes * bytes) :=
  ok_or Malformed (split_at_checked count input).

Definition gtake_exact (expected : bytes) (input : bytes) : result Error bytes :=
  '(value, input) ← gtake (len expected) input;
  if bool_decide (value = expected) then Ok input else Err Malformed.

Definition gtake_byte (input : bytes) : result Error (byte * bytes) :=
  '(value, input) ← gtake 1 input;
  b ← ok_or Malformed (head value);
  Ok (b, input).

Definition gtake_u32 (input : bytes) : result Error (Z * bytes) :=
  '(value, input) ← gtake 4 input;
  a ← ok_or Malformed (to_array 4 value);
  Ok (be_value a, input).

Definition gtake_u64 (input : bytes) : result Error (Z * bytes) :=
  '(value, input) ← gtake 8 input;
  a ← ok_or Malformed (to_array 8 value);
  Ok (be_value a, input).

Definition gtake_lp (input : bytes) : result Error (bytes * bytes) :=
  '(count, input) ← gtake_u32 input;
  gtake count input.

Definition gput_u32 (value : Z) : result Error bytes :=
  n ← ok_or Malformed (u32_try_from value); Ok (be32 n).

Definition gput_lp (value : bytes) : result Error bytes :=
  n ← gput_u32 (len value); Ok (n ++ value).

Section GMany.
Context {A : Type} (put_item : A -> result Error bytes)
  (take_item : bytes -> result Error (A * bytes)).

Fixpoint gtake_many (count : nat) (input : bytes) : result Error (list A * bytes) :=
  match count with
  | O => Ok ([], input)
  | S count =>
      '(x, input) ← take_item input;
      '(xs, input) ← gtake_many count input;
      Ok (x :: xs, input)
  end.

Fixpoint gput_many (l : list A) : result Error bytes :=
  match l with
  | [] => Ok []
  | x :: l => b ← put_item x; bs ← gput_many l; Ok (b ++ bs)
  end.
End GMany.

(** ** Group identifiers *)
Definition GroupId : Type := bytes.

Definition group_id_try_from (bs : bytes) : result Error GroupId :=
  ok_or Malformed (to_array GROUP_ID_LEN bs).

Definition digest_try_from (bs : bytes) : result Error bytes :=
  ok_or Malformed (to_array DIGEST_LEN bs).

(** ** Members *)
Record Member := mkMember { m_identity : bytes; m_device : bytes }.

#[global] Instance Member_eq_dec : EqDecision Member.
Proof. solve_decision. Defined.

Definition canonical_cmp (a b : Member) : comparison :=
  then_cmp (bytes_cmp (m_identity a) (m_identity b)) (bytes_cmp (m_device a) (m_device b)).

Definition member_validate (m : Member) : result Error unit :=
  if len (m_identity m) >? MAX_IDENTITY_LEN then Err IdentityTooLarge else
  if len (m_device m) >? MAX_DEVICE_LEN then Err DeviceTooLarge else
  Ok tt.

Definition lp_len (value_len : Z) : Z := 4 + value_len.
Definition member_len (m : Member) : Z := lp_len (len (m_identity m)) + lp_len (len (m_device m)).

Definition gput_member (m : Member) : result Error bytes :=
  i ← gput_lp (m_identity m); d ← gput_lp (m_device m); Ok (i ++ d).

Definition gtake_member (input : bytes) : result Error (Member * bytes) :=
  '(identity, input) ← gtake_lp input;
  '(dev, input) ← gtake_lp input;
  let m := mkMember identity dev in
  _ ← member_validate m;
  Ok (m, input).

(** ** Rosters *)
Record Roster := mkRoster {
  r_group_id : GroupId;
  revision : Z;
  predecessor_digest : bytes;
  authority : Member;
  policy_version : Z;
  closed : bool;
  members : list Member
}.

#[global] Instance Roster_eq_dec : EqDecision Roster.
Proof. solve_decision. Defined.

(** [[0; DIGEST_LEN]]. *)
Definition zero_digest : bytes := replicate (Z.to_nat DIGEST_LEN) x00.

Definition roster_encoded_len (r : Roster) : Z :=
  len ROSTER_DOMAIN + lp_len GROUP_ID_LEN + 8 + lp_len DIGEST_LEN + member_len (authority r)
  + 4 + 1 + 4 + foldr (fun m acc => member_len m + acc) 0 (members r).

(** The loop over the members: the one before, and the identities seen. *)
Fixpoint validate_members (previous : option Member) (identities : gset bytes) (ms : list Member)
    : result Error unit :=
  match ms with
  | [] => Ok tt
  | m :: ms =>
      _ ← member_validate m;
      _ ← guard_err NonCanonical
            (match previous with
             | Some p => negb (bool_decide (canonical_cmp p m = Lt))
             | None => false
             end);
      _ ← guard_err NonCanonical (bool_decide (m_identity m ∈ identities));
      validate_members (Some m) ({[m_identity m]} ∪ identities) ms
  end.

Definition roster_validate (r : Roster) : result Error unit :=
  if revision r =? RESERVED_REVISION then Err ReservedRevision else
  if negb (policy_version r =? POLICY_VERSION_V1) then Err UnsupportedPolicy else
  if (revision r =? 0)
     && (negb (bool_decide (predecessor_digest r = zero_digest)) || closed r
         || negb (bool_decide (members r = [authority r])))
  then Err InvalidGenesis else
  if len (members r) >? MAX_MEMBERS then Err TooManyMembers else
  _ ← member_validate (authority r);
  _ ← validate_members None ∅ (members r);
  if roster_encoded_len r >? MAX_ROSTER_LEN then Err RosterTooLarge else
  Ok tt.

Definition roster_new (group_id : GroupId) (rev : Z) (pred : bytes) (auth : Member)
    (policy : Z) (is_closed : bool) (ms : list Member) : result Error Roster :=
  let roster := mkRoster group_id rev pred auth policy is_closed ms in
  _ ← roster_validate roster;
  Ok roster.

Definition roster_encode (r : Roster) : result Error bytes :=
  _ ← roster_validate r;
  g ← gput_lp (r_group_id r);
  p ← gput_lp (predecessor_digest r);
  a ← gput_member (authority r);
  n ← gput_u32 (len (members r));
  ms ← gput_many gput_member (members r);
  Ok (ROSTER_DOMAIN ++ g ++ be64 (revision r) ++ p ++ a ++ be32 (policy_version r)
      ++ [if closed r then x01 else x00] ++ n ++ ms).

Definition roster_decode (bs : bytes) : result Error Roster :=
  if len bs >? MAX_ROSTER_LEN then Err RosterTooLarge else
  input ← gtake_exact ROSTER_DOMAIN bs;
  '(g, input) ← gtake_lp input;
  group_id ← group_id_try_from g;
  '(rev, input) ← gtake_u64 input;
  '(p, input) ← gtake_lp input;
  pred ← digest_try_from p;
  '(auth, input) ← gtake_member input;
  '(policy, input) ← gtake_u32 input;
  '(c, input) ← gtake_byte input;
  is_closed ← (match c with x00 => Ok false | x01 => Ok true | _ => Err Malformed end);
  '(count, input) ← gtake_u32 input;
  if count >? MAX_MEMBERS then Err TooManyMembers else
  '(ms, input) ← gtake_many gtake_member (Z.to_nat count) input;
  match input with
  | [] => roster_new group_id rev pred auth policy is_closed ms
  | _ => Err Malformed
  end.

(** ** Application contexts *)
Record ApplicationContext := mkContext {
  c_group_id : GroupId;
  c_revision : Z;
  roster_digest : bytes;
  sender : Member;
  recipient : Member;
  logical_sequence : Z;
  c_payload : bytes
}.

#[global] Instance ApplicationContext_eq_dec : EqDecision ApplicationContext.
Proof. solve_decision. Defined.

Definition context_encoded_len (c : ApplicationContext) : Z :=
  len APPLICATION_DOMAIN + lp_len GROUP_ID_LEN + 8 + lp_len DIGEST_LEN + member_len (sender c)
  + member_len (recipient c) + 8 + lp_len (len (c_payload c)).

Definition context_validate (c : ApplicationContext) : result Error unit :=
  if c_revision c =? RESERVED_REVISION then Err ReservedRevision else
  if len (c_payload c) >? MAX_PAYLOAD_LEN then Err PayloadTooLarge else
  _ ← member_validate (sender c);
  _ ← member_validate (recipient c);
  if context_encoded_len c >? MAX_APPLICATION_CONTEXT_LEN then Err ContextTooLarge else
  Ok tt.

Definition context_new (group_id : GroupId) (rev : Z) (digest : bytes) (s r : Member) (seq : Z)
    (p : bytes) : result Error ApplicationContext :=
  let context := mkContext group_id rev digest s r seq p in
  _ ← context_validate context;
  Ok context.

Definition context_encode (c : ApplicationContext) : result Error bytes :=
  _ ← context_validate c;
  g ← gput_lp (c_group_id c);
  d ← gput_lp (roster_digest c);
  s ← gput_member (sender c);
  r ← gput_member (recipient c);
  p ← gput_lp (c_payload c);
  Ok (APPLICATION_DOMAIN ++ g ++ be64 (c_revision c) ++ d ++ s ++ r ++ be64 (logical_sequence c) ++ p).

Definition context_decode (bs : bytes) : result Error ApplicationContext :=
  if len bs >? MAX_APPLICATION_CONTEXT_LEN then Err ContextTooLarge else
  input ← gtake_exact APPLICATION_DOMAIN bs;
  '(g, input) ← gtake_lp input;
  group_id ← group_id_try_from g;
  '(rev, input) ← gtake_u64 input;
  '(d, input) ← gtake_lp input;
  digest ← digest_try_from d;
  '(s, input) ← gtake_member input;
  '(r, input) ← gtake_member input;
  '(seq, input) ← gtake_u64 input;
  '(p, input) ← gtake_lp input;
  match input with
  | [] => context_new group_id rev digest s r seq p
  | _ => Err Malformed
  end.

(** ** The interface of a reader and its writer *)
Class Parses {A : Type} (wf : A -> Prop) (put : A -> result Error bytes)
    (take : bytes -> result Error (A * bytes)) : Prop := {
  parses_take_put a bs rest : wf a -> put a = Ok bs -> take (bs ++ rest) = Ok (a, rest);
  parses_put_take input a rest :
    take input = Ok (a, rest) -> wf a /\ exists bs, put a = Ok bs /\ input = bs ++ rest
}.

(** The same law with the writer's equation first, which determines the value. *)
Lemma parses_read {A} {wf : A -> Prop} {put take} {HP : Parses wf put take} a bs rest :
  put a = Ok bs -> wf a -> take (bs ++ rest) = Ok (a, rest).
Proof. intros. by apply parses_take_put. Qed.

Lemma gtake_app n a rest : n = len a -> gtake n (a ++ rest) = Ok (a, rest).
Proof. intros. unfold gtake. by rewrite split_at_checked_app. Qed.

Lemma gtake_inv n input a rest :
  0 <= n -> gtake n input = Ok (a, rest) -> input = a ++ rest /\ len a = n.
Proof. intros Hn H. unfold gtake in H. inv_bind. by apply split_at_checked_Some. Qed.

Lemma gtake_exact_app e rest : gtake_exact e (e ++ rest) = Ok rest.
Proof. unfold gtake_exact. rewrite gtake_app by done. cbn. by rewrite bool_decide_eq_true_2. Qed.

Lemma gtake_exact_inv e input rest : gtake_exact e input = Ok rest -> input = e ++ rest.
Proof.
  intros H. unfold gtake_exact in H. inv_bind. bool_prop. subst.
  by apply gtake_inv in E as [-> _]; [|apply len_nonneg].
Qed.

Lemma gtake_byte_app b rest : gtake_byte (b :: rest) = Ok (b, rest).
Proof. unfold gtake_byte. change (b :: rest) with ([b] ++ rest). by rewrite gtake_app. Qed.

Lemma gtake_byte_inv input b rest : gtake_byte input = Ok (b, rest) -> input = b :: rest.
Proof.
  intros H. unfold gtake_byte in H. inv_bind. apply gtake_inv in E as [-> Hl]; [|done].
  destruct l as [|x [|]]; unfold len in Hl; cbn in *; [done| |lia]. by inv_bind.
Qed.

Lemma gtake_u32_app n rest : 0 <= n <= u32_max -> gtake_u32 (be32 n ++ rest) = Ok (n, rest).
Proof.
  intros Hn. unfold gtake_u32. rewrite gtake_app by (by rewrite len_be_bytes). cbn.
  rewrite to_array_len by (by rewrite len_be_bytes). cbn. rewrite be_value_be_bytes; [done|].
  unfold u32_max in Hn. change (256 ^ Z.of_nat 4) with 4294967296. lia.
Qed.

Lemma gtake_u32_inv input n rest :
  gtake_u32 input = Ok (n, rest) -> 0 <= n <= u32_max /\ input = be32 n ++ rest.
Proof.
  intros H. unfold gtake_u32 in H. inv_bind. apply gtake_inv in E as [-> Hl]; [|done].
  match goal with H : to_array _ _ = _ |- _ => apply to_array_Some in H as [-> _] end. pose proof (be_value_range l) as Hr. rewrite Hl in Hr.
  change (256 ^ 4) with 4294967296 in Hr. split; [unfold u32_max; lia|].
  f_equal. symmetry. apply be_bytes_be_value. unfold len in Hl. lia.
Qed.

Lemma gtake_u64_app n rest : 0 <= n <= u64_max -> gtake_u64 (be64 n ++ rest) = Ok (n, rest).
Proof.
  intros Hn. unfold gtake_u64. rewrite gtake_app by (by rewrite len_be_bytes). cbn.
  rewrite to_array_len by (by rewrite len_be_bytes). cbn. rewrite be_value_be_bytes; [done|].
  unfold u64_max in Hn. change (256 ^ Z.of_nat 8) with 18446744073709551616. lia.
Qed.

Lemma gtake_u64_inv input n rest :
  gtake_u64 input = Ok (n, rest) -> 0 <= n <= u64_max /\ input = be64 n ++ rest.
Proof.
  intros H. unfold gtake_u64 in H. inv_bind. apply gtake_inv in E as [-> Hl]; [|done].
  match goal with H : to_array _ _ = _ |- _ => apply to_array_Some in H as [-> _] end. pose proof (be_value_range l) as Hr. rewrite Hl in Hr.
  change (256 ^ 8) with 18446744073709551616 in Hr. split; [unfold u64_max; lia|].
  f_equal. symmetry. apply be_bytes_be_value. unfold len in Hl. lia.
Qed.

Lemma gput_u32_Ok n bs : 0 <= n -> gput_u32 n = Ok bs -> bs = be32 n /\ n <= u32_max.
Proof.
  unfold gput_u32, u32_try_from. intros Hn H. inv_bind. by bool_prop.
Qed.

Lemma gput_u32_fits n : n <= u32_max -> gput_u32 n = Ok (be32 n).
Proof.
  intros. unfold gput_u32, u32_try_from.
  by replace (n <=? u32_max) with true by (symmetry; apply Z.leb_le; lia).
Qed.

#[global] Instance parses_lp : Parses (fun _ => True) gput_lp gtake_lp.
Proof.
  split.
  - intros a bs rest _ H. unfold gput_lp in H. inv_bind.
    apply gput_u32_Ok in E as [-> ?]; [|apply len_nonneg]. unfold gtake_lp.
    rewrite <- app_assoc, gtake_u32_app by len_lia. cbn. by apply gtake_app.
  - intros input a rest H. unfold gtake_lp in H. inv_bind.
    apply gtake_u32_inv in E as [? ->]. apply gtake_inv in H as [-> <-]; [|lia]. split; [done|].
    exists (be32 (len a) ++ a). unfold gput_lp. rewrite gput_u32_fits by lia. cbn.
    by rewrite <- app_assoc.
Qed.

(** The length [gput_lp] writes, for values that fit. *)
Lemma gput_lp_fits v : len v <= u32_max -> gput_lp v = Ok (be32 (len v) ++ v).
Proof. intros. unfold gput_lp. by rewrite gput_u32_fits. Qed.

Lemma gput_lp_len v bs : gput_lp v = Ok bs -> len bs = lp_len (len v).
Proof.
  unfold gput_lp. intros H. inv_bind. apply gput_u32_Ok in E as [-> _]; [|apply len_nonneg].
  unfold lp_len. by rewrite len_app, len_be_bytes.
Qed.

Definition member_ok (m : Member) : Prop := member_validate m = Ok tt.

Lemma member_ok_spec m :
  member_ok m <-> len (m_identity m) <= MAX_IDENTITY_LEN /\ len (m_device m) <= MAX_DEVICE_LEN.
Proof.
  unfold member_ok, member_validate. repeat case_test; bool_prop; split; intros; try done; lia.
Qed.

Lemma member_validate_Ok m u : member_validate m = Ok u -> member_ok m.
Proof. by destruct u. Qed.

#[global] Instance parses_member : Parses member_ok gput_member gtake_member.
Proof.
  split.
  - intros [i d] bs rest Hm H. unfold gput_member in H. inv_bind. unfold gtake_member. cbn [m_identity m_device] in *.
    rewrite <- app_assoc, (parses_take_put (take := gtake_lp) _ _ _ I E). cbn [mbind result_bind].
    rewrite (parses_take_put (take := gtake_lp) _ _ _ I E0). cbn [mbind result_bind]. by rewrite Hm.
  - intros input m rest H. unfold gtake_member in H. inv_bind.
    apply parses_put_take in E as (_ & b1 & H1 & ->). apply parses_put_take in E0 as (_ & b2 & H2 & ->).
    split; [by eapply member_validate_Ok|]. exists (b1 ++ b2). unfold gput_member. cbn.
    rewrite H1. cbn. rewrite H2. cbn. by rewrite <- app_assoc.
Qed.

Lemma gput_member_fits m : member_ok m -> exists bs, gput_member m = Ok bs.
Proof.
  intros [? ?]%member_ok_spec. unfold gput_member.
  rewrite !gput_lp_fits by (unfold MAX_IDENTITY_LEN, MAX_DEVICE_LEN, u32_max in *; lia). cbn. eauto.
Qed.

Lemma gput_member_len m bs : gput_member m = Ok bs -> len bs = member_len m.
Proof.
  unfold gput_member. intros H. inv_bind. apply gput_lp_len in E, E0. unfold member_len. len_lia.
Qed.

Section GManyLaws.
Context {A : Type} {wf : A -> Prop} {put_item : A -> result Error bytes}.
Context {take_item : bytes -> result Error (A * bytes)} {HP : Parses wf put_item take_item}.

Lemma gtake_many_put l bs rest :
  Forall wf l -> gput_many put_item l = Ok bs ->
  gtake_many take_item (length l) (bs ++ rest) = Ok (l, rest).
Proof.
  revert bs. induction l as [|x l IH]; intros bs Hl H; cbn in H; inv_bind; [done|].
  apply Forall_cons in Hl as [Hx Hl]. cbn [length gtake_many].
  rewrite <- app_assoc, (parses_take_put _ _ _ Hx E). cbn. by rewrite IH.
Qed.

Lemma gput_many_take n input l rest :
  gtake_many take_item n input = Ok (l, rest) ->
  length l = n /\ Forall wf l /\ exists bs, gput_many put_item l = Ok bs /\ input = bs ++ rest.
Proof.
  revert input l. induction n as [|n IH]; intros input l H; cbn in H; inv_bind.
  - split_and!; [done|constructor|]. by exists [].
  - apply parses_put_take in E as (Hx & b1 & H1 & ->). apply IH in E0 as (<- & Hl & b2 & H2 & ->).
    split_and!; [done|by constructor|]. exists (b1 ++ b2). cbn. rewrite H1. cbn. rewrite H2. cbn.
    by rewrite <- app_assoc.
Qed.

Lemma gput_many_len (size : A -> Z) l bs :
  (forall x b, put_item x = Ok b -> len b = size x) -> gput_many put_item l = Ok bs ->
  len bs = foldr (fun x acc => size x + acc) 0 l.
Proof.
  intros Hs. revert bs. induction l as [|x l IH]; intros bs H; cbn in *; inv_bind; [done|].
  by rewrite len_app, (Hs _ _ E), (IH _ eq_refl).
Qed.

Lemma gput_many_fits l : Forall (fun x => exists b, put_item x = Ok b) l ->
  exists bs, gput_many put_item l = Ok bs.
Proof.
  induction 1 as [|x l [b Hb] _ [bs Hbs]]; cbn; [eauto|]. rewrite Hb. cbn. rewrite Hbs. cbn. eauto.
Qed.
End GManyLaws.

(** Opens the readers of the context; replays a decoder on what was written;
    replays an encoder. *)
Ltac parses_inv :=
  repeat match goal with
  | H : gtake_exact _ _ = Ok _ |- _ => apply gtake_exact_inv in H as ->
  | H : gtake_byte _ = Ok _ |- _ => apply gtake_byte_inv in H as ->
  | H : gtake_u32 _ = Ok _ |- _ => apply gtake_u32_inv in H as [? ->]
  | H : gtake_u64 _ = Ok _ |- _ => apply gtake_u64_inv in H as [? ->]
  | H : gtake_lp _ = Ok _ |- _ => apply (parses_put_take (put := gput_lp)) in H as (_ & ? & ? & ->)
  | H : gtake_member _ = Ok _ |- _ => apply (parses_put_take (put := gput_member)) in H as (? & ? & ? & ->)
  | H : gtake_many _ _ _ = Ok _ |- _ => apply gput_many_take in H as (? & ? & ? & ? & ->)
  | H : gtake _ _ = Ok _ |- _ => apply gtake_inv in H as [-> ?]; [|done]
  | H : group_id_try_from _ = Ok _ |- _ => unfold group_id_try_from in H; inv_bind
  | H : digest_try_from _ = Ok _ |- _ => unfold digest_try_from in H; inv_bind
  | H : to_array _ _ = Some _ |- _ => apply to_array_Some in H as [? ?]; subst
  end.

Ltac parses_fwd :=
  repeat (rewrite <- ?app_assoc; cbn [mbind result_bind app ok_or];
    first [ rewrite gtake_exact_app
          | rewrite gtake_byte_app
          | rewrite gtake_u32_app by done
          | rewrite gtake_u64_app by done
          | erewrite (parses_read (put := gput_lp) (take := gtake_lp)) by eauto
          | erewrite (parses_read (put := gput_member) (take := gtake_member)) by eauto
          | rewrite to_array_len by done
          | rewrite gtake_app by done ]);
  cbn [mbind result_bind app ok_or].

Ltac gput_fwd :=
  repeat (match goal with H : ?l = Ok _ |- context [?l] => rewrite H end;
          cbn [mbind result_bind app]).

(** ** What validation means *)

(** Identities strictly ascend: one device per identity, in canonical order. *)
Definition identity_lt (a b : Member) : Prop := bytes_cmp (m_identity a) (m_identity b) = Lt.

Record roster_valid (r : Roster) : Prop := {
  rv_revision : revision r <> RESERVED_REVISION;
  rv_policy : policy_version r = POLICY_VERSION_V1;
  rv_genesis : revision r = 0 ->
    predecessor_digest r = zero_digest /\ closed r = false /\ members r = [authority r];
  rv_count : len (members r) <= MAX_MEMBERS;
  rv_authority : member_ok (authority r);
  rv_members : Forall member_ok (members r);
  rv_sorted : StronglySorted identity_lt (members r);
  rv_len : roster_encoded_len r <= MAX_ROSTER_LEN
}.

Lemma identity_lt_trans a b c : identity_lt a b -> identity_lt b c -> identity_lt a c.
Proof. unfold identity_lt. apply bytes_cmp_trans. Qed.

(** One turn of the loop: given the member before, whose identity is the
    greatest seen, the two tests say that the next identity is greater. *)
Lemma next_identity (p m : Member) (ids : gset bytes) :
  m_identity p ∈ ids ->
  (forall i, i ∈ ids -> i = m_identity p \/ bytes_cmp i (m_identity p) = Lt) ->
  (canonical_cmp p m = Lt /\ m_identity m ∉ ids) <-> identity_lt p m.
Proof.
  intros Hp Hids. unfold identity_lt, canonical_cmp, then_cmp. split.
  - intros [H Hm]. destruct (bytes_cmp (m_identity p) (m_identity m)) eqn:E; try done.
    apply bytes_cmp_eq in E. by rewrite E in Hp.
  - intros H. rewrite H. split; [done|]. intros Hm. apply Hids in Hm as [Hm|Hm].
    + rewrite Hm, bytes_cmp_refl in H. done.
    + pose proof (bytes_cmp_trans _ _ _ H Hm) as Hx. by rewrite bytes_cmp_refl in Hx.
Qed.

Lemma validate_members_some (p : Member) (ids : gset bytes) (ms : list Member) :
  m_identity p ∈ ids ->
  (forall i, i ∈ ids -> i = m_identity p \/ bytes_cmp i (m_identity p) = Lt) ->
  validate_members (Some p) ids ms = Ok tt <->
  Forall member_ok ms /\ StronglySorted identity_lt ms /\ Forall (identity_lt p) ms.
Proof.
  revert p ids. induction ms as [|m ms IH]; intros p ids Hp Hids; cbn [validate_members].
  { split; [|done]. intros _. split_and!; constructor. }
  pose proof (next_identity p m ids Hp Hids) as Hnext. unfold guard_err.
  rewrite Forall_cons, StronglySorted_cons, (Forall_cons (identity_lt p)).
  destruct (member_validate m) as [[]|e] eqn:Em; cbn [mbind result_bind].
  2: { split; [done|]. intros ([Hx _] & _). unfold member_ok in Hx. congruence. }
  destruct (bool_decide (canonical_cmp p m = Lt)) eqn:E1; cbn [negb mbind result_bind]; bool_prop.
  2: { split; [done|]. intros (_ & _ & Hx & _). apply Hnext in Hx as [? _]. done. }
  destruct (bool_decide (m_identity m ∈ ids)) eqn:E2; cbn [mbind result_bind]; bool_prop.
  { split; [done|]. intros (_ & _ & Hx & _). apply Hnext in Hx as [_ ?]. done. }
  assert (identity_lt p m) as Hlt by (by apply Hnext).
  rewrite IH; [|set_solver|].
  - split.
    + intros (H1 & H2 & H3). split_and!; try done.
      eapply Forall_impl; [exact H3|]. intros x. by apply identity_lt_trans.
    + intros ((_ & H1) & (H2 & H3) & _ & H4). split_and!; done.
  - intros i [->%elem_of_singleton|[->|Hi]%Hids]%elem_of_union; [by left|by right|].
    right. unfold identity_lt in Hlt. by eapply bytes_cmp_trans.
Qed.

Lemma validate_members_spec ms :
  validate_members None ∅ ms = Ok tt <-> Forall member_ok ms /\ StronglySorted identity_lt ms.
Proof.
  destruct ms as [|m ms]; cbn [validate_members].
  { split; [|done]. intros _. split; constructor. }
  rewrite Forall_cons, StronglySorted_cons. unfold guard_err.
  destruct (member_validate m) as [[]|e] eqn:Em; cbn [mbind result_bind].
  2: { split; [done|]. intros ([Hx _] & _). unfold member_ok in Hx. congruence. }
  rewrite bool_decide_eq_false_2 by set_solver. cbn [mbind result_bind].
  rewrite validate_members_some by set_solver. naive_solver.
Qed.

Lemma unit_Ok (r : result Error unit) u : r = Ok u -> r = Ok tt.
Proof. by destruct u. Qed.

Lemma roster_validate_spec r : roster_validate r = Ok tt <-> roster_valid r.
Proof.
  unfold roster_validate. split.
  - intros H. inv_bind. bool_prop. apply unit_Ok in E, E0. apply validate_members_spec in E0 as [? ?].
    split; try done; try lia. intros Hz. rewrite Hz in G1. cbn in G1.
    apply orb_false_elim in G1 as [[Ga ?]%orb_false_elim Gb]. bool_prop. done.
  - intros [H1 H2 H3 H4 H5 H6 H7 H8].
    rewrite (proj2 (Z.eqb_neq _ _) H1), H2. cbn [negb].
    replace ((revision r =? 0) && _) with false.
    2: { symmetry. destruct (Z.eqb_spec (revision r) 0) as [E|]; [|done].
         destruct (H3 E) as (-> & -> & ->). by rewrite !bool_decide_eq_true_2. }
    rewrite Z.gtb_ltb, (proj2 (Z.ltb_ge _ _) H4), H5. cbn [mbind result_bind].
    rewrite (proj2 (validate_members_spec _)) by done. cbn [mbind result_bind].
    by rewrite Z.gtb_ltb, (proj2 (Z.ltb_ge _ _) H8).
Qed.

(** The ranges of the Rust types of a roster. *)
Definition roster_wf (r : Roster) : Prop :=
  len (r_group_id r) = GROUP_ID_LEN /\ 0 <= revision r <= u64_max /\
  len (predecessor_digest r) = DIGEST_LEN /\ 0 <= policy_version r <= u32_max.

Lemma roster_encode_len r bs :
  roster_wf r -> roster_encode r = Ok bs -> len bs = roster_encoded_len r.
Proof.
  intros (Hg & _ & Hp & _) H. unfold roster_encode in H. inv_bind.
  apply gput_u32_Ok in E3 as [-> _]; [|apply len_nonneg].
  apply gput_lp_len in E0, E1. apply gput_member_len in E2.
  apply (gput_many_len member_len) in E4; [|apply gput_member_len].
  unfold roster_encoded_len. autorewrite with lens. rewrite E0, E1, E2, E4, Hg, Hp. lia.
Qed.

Lemma flag_byte_inv b (c : bool) :
  match b with x00 => Ok false | x01 => Ok true | _ => Err Malformed end = Ok c ->
  b = if c then x01 else x00.
Proof. destruct b; intros H; by inv_bind. Qed.

Lemma count_of_length {A} (l : list A) n : 0 <= n -> length l = Z.to_nat n -> len l = n.
Proof. unfold len. lia. Qed.

Lemma roster_decode_encode bs r :
  roster_decode bs = Ok r <-> roster_wf r /\ roster_encode r = Ok bs.
Proof.
  split.
  - intros H. unfold roster_decode, roster_new in H. inv_bind.
    parses_inv. apply flag_byte_inv in E8 as ->.
    match goal with H : length _ = _ |- _ => apply count_of_length in H as <-; [|lia] end.
    split; [done|]. unfold roster_encode. cbn [r_group_id predecessor_digest authority members
      revision policy_version closed].
    gput_fwd. rewrite gput_u32_fits by lia. cbn [mbind result_bind]. gput_fwd. by rewrite app_nil_r.
  - intros [Hwf H]. pose proof (roster_encode_len _ _ Hwf H) as Hlen. unfold roster_encode in H. inv_bind.
    apply unit_Ok in E. pose proof (proj1 (roster_validate_spec r) E) as Hv.
    apply gput_u32_Ok in E3 as [-> Hc]; [|apply len_nonneg]. destruct Hwf as (Hg & Hr & Hp & Hpol).
    destruct Hv as [_ _ _ Hcnt Ha Hm _ Hl]. pose proof (len_nonneg (members r)).
    unfold roster_decode. rewrite Hlen, Z.gtb_ltb, (proj2 (Z.ltb_ge _ _) Hl).
    unfold group_id_try_from, digest_try_from. rewrite <- (app_nil_r a4). parses_fwd.
    replace (match (if closed r then x01 else x00) with x00 => Ok false | x01 => Ok true
             | _ => Err Malformed end) with (Ok (E := Error) (closed r)) by (by destruct (closed r)).
    parses_fwd.
    rewrite Z.gtb_ltb, (proj2 (Z.ltb_ge _ _) Hcnt). unfold len. rewrite Nat2Z.id.
    rewrite (gtake_many_put (members r) a4 [] Hm E4). cbn [mbind result_bind].
    unfold roster_new. destruct r. cbn in *. by rewrite E.
Qed.

Lemma roster_encode_Ok r : roster_wf r -> (roster_valid r <-> exists bs, roster_encode r = Ok bs).
Proof.
  intros (Hg & Hr & Hp & Hpol). rewrite <- roster_validate_spec. split.
  - intros Hv. unfold roster_encode. pose proof (proj1 (roster_validate_spec r) Hv) as [_ _ _ Hc Ha Hm _ _].
    rewrite Hv. cbn [mbind result_bind].
    rewrite !gput_lp_fits by (unfold GROUP_ID_LEN, DIGEST_LEN, u32_max in *; lia). cbn [mbind result_bind].
    destruct (gput_member_fits _ Ha) as [ba ->]. cbn [mbind result_bind].
    rewrite gput_u32_fits by (unfold MAX_MEMBERS, u32_max in *; lia). cbn [mbind result_bind].
    destruct (gput_many_fits (put_item := gput_member) (members r)) as [bm ->]; [|cbn; eauto].
    eapply Forall_impl; [exact Hm|]. apply gput_member_fits.
  - intros [bs' H]. unfold roster_encode in H. inv_bind. by destruct a.
Qed.

Lemma roster_encode_bound r bs : roster_wf r -> roster_encode r = Ok bs -> len bs <= MAX_ROSTER_LEN.
Proof.
  intros Hwf H. rewrite (roster_encode_len _ _ Hwf H). unfold roster_encode in H. inv_bind.
  apply unit_Ok, roster_validate_spec in E. apply E.
Qed.

(** ** Application contexts *)
Definition context_wf (c : ApplicationContext) : Prop :=
  len (c_group_id c) = GROUP_ID_LEN /\ 0 <= c_revision c <= u64_max /\
  len (roster_digest c) = DIGEST_LEN /\ 0 <= logical_sequence c <= u64_max.

Record context_valid (c : ApplicationContext) : Prop := {
  cv_revision : c_revision c <> RESERVED_REVISION;
  cv_payload : len (c_payload c) <= MAX_PAYLOAD_LEN;
  cv_sender : member_ok (sender c);
  cv_recipient : member_ok (recipient c);
  cv_len : context_encoded_len c <= MAX_APPLICATION_CONTEXT_LEN
}.

Lemma context_validate_spec c : context_validate c = Ok tt <-> context_valid c.
Proof.
  unfold context_validate. split.
  - intros H. inv_bind. bool_prop. apply unit_Ok in E, E0. split; try done; lia.
  - intros [H1 H2 H3 H4 H5]. rewrite (proj2 (Z.eqb_neq _ _) H1).
    rewrite Z.gtb_ltb, (proj2 (Z.ltb_ge _ _) H2), H3. cbn [mbind result_bind]. rewrite H4.
    cbn [mbind result_bind]. by rewrite Z.gtb_ltb, (proj2 (Z.ltb_ge _ _) H5).
Qed.

Lemma context_encode_len c bs :
  context_wf c -> context_encode c = Ok bs -> len bs = context_encoded_len c.
Proof.
  intros (Hg & _ & Hd & _) H. unfold context_encode in H. inv_bind.
  apply gput_lp_len in E0, E1, E4. apply gput_member_len in E2, E3.
  unfold context_encoded_len. autorewrite with lens. rewrite E0, E1, E2, E3, E4, Hg, Hd. lia.
Qed.

Lemma context_decode_encode bs c :
  context_decode bs = Ok c <-> context_wf c /\ context_encode c = Ok bs.
Proof.
  split.
  - intros H. unfold context_decode, context_new in H. inv_bind. parses_inv. split; [done|].
    unfold context_encode. cbn [c_group_id roster_digest sender recipient c_payload c_revision logical_sequence].
    gput_fwd. by rewrite app_nil_r.
  - intros [Hwf H]. pose proof (context_encode_len _ _ Hwf H) as Hlen. unfold context_encode in H. inv_bind.
    apply unit_Ok in E. pose proof (proj1 (context_validate_spec c) E) as [_ _ Hs Hr Hl].
    destruct Hwf as (Hg & Hrev & Hd & Hseq).
    unfold context_decode. rewrite Hlen, Z.gtb_ltb, (proj2 (Z.ltb_ge _ _) Hl).
    unfold group_id_try_from, digest_try_from. rewrite <- (app_nil_r a4). parses_fwd.
    unfold context_new. destruct c. cbn in *. by rewrite E.
Qed.

Lemma context_encode_bound c bs :
  context_wf c -> context_encode c = Ok bs -> len bs <= MAX_APPLICATION_CONTEXT_LEN.
Proof.
  intros Hwf H. rewrite (context_encode_len _ _ Hwf H). unfold context_encode in H. inv_bind.
  apply unit_Ok, context_validate_spec in E. apply E.
Qed.

(** ** Properties *)

(** Roster preimages are canonical and bounded: a byte string decodes to a
    roster exactly when that roster is in range and encodes to those bytes, so
    no roster has two preimages (its digest is well defined) and every
    malformed, truncated, over-long or non-canonical input is refused; and a
    roster in range encodes, to at most [MAX_ROSTER_LEN] bytes, exactly when it
    is valid: its revision is not the reserved one, its policy is version one,
    a revision-zero roster is the open genesis of its authority alone, and it
    has at most eight members of bounded size whose identities strictly ascend
    (so one device per identity). *)
Lemma roster_codec_exact bs r :
  (roster_decode bs = Ok r <-> roster_wf r /\ roster_encode r = Ok bs) /\
  (roster_wf r -> (roster_valid r <-> exists out, roster_encode r = Ok out /\ len out <= MAX_ROSTER_LEN)).
Proof.
  split; [apply roster_decode_encode|]. intros Hwf. rewrite (roster_encode_Ok r Hwf). split.
  - intros [out H]. exists out. split; [done|]. by eapply roster_encode_bound.
  - intros (out & H & _). eauto.
Qed.

(** A genesis roster for the witnesses. *)
Definition ana : Member := mkMember (bstr "ana") (bstr "d1").
Definition genesis : Roster :=
  mkRoster (replicate 16 x07) 0 zero_digest ana POLICY_VERSION_V1 false [ana].

