(* ===== verification/Invitation.v ===== *)
(** * Invitation: the bounded invitation lifecycle
    ([tacenta-group/src/invitation.rs])

    The invitation messages with their codecs, and the book of records an
    authority or an invitee keeps.  An operation of the book returns the book
    as it leaves it, because an expiry is recorded even when the call fails.
    The source's private [take], [take_exact], [take_u32] and [take_u64] are
    those of [GroupCodec]; its [take_lp] and [put_lp] have 16-bit prefixes. *)

From S2P Require Import Prelude GroupCodec.

Definition INVITATION_BOOK_STATE_DOMAIN : bytes := bstr "Tacenta Group Invitation Book State v1".
Definition INVITATION_BOOTSTRAP_DOMAIN : bytes := bstr "Tacenta Group Invitation Bootstrap v1".
Definition INVITATION_ACCEPTANCE_DOMAIN : bytes := bstr "Tacenta Group Invitation Acceptance v1".
Definition INVITATION_REVOCATION_DOMAIN : bytes := bstr "Tacenta Group Invitation Revocation v1".
Definition MAX_INVITATION_RECORDS : Z := 32.

Arguments INVITATION_BOOK_STATE_DOMAIN : simpl never.
Arguments INVITATION_BOOTSTRAP_DOMAIN : simpl never.
Arguments INVITATION_ACCEPTANCE_DOMAIN : simpl never.
Arguments INVITATION_REVOCATION_DOMAIN : simpl never.

(** ** Fields *)
Definition itake_lp (input : bytes) : result Error (bytes * bytes) :=
  '(length, input) ← gtake 2 input;
  a ← ok_or Malformed (to_array 2 length);
  gtake (be_value a) input.

Definition itake_u32_lp (input : bytes) : result Error (bytes * bytes) :=
  '(length, input) ← gtake_u32 input;
  gtake length input.

Definition iput_lp (value : bytes) : result Error bytes :=
  n ← ok_or Malformed (u16_try_from (len value)); Ok (be16 n ++ value).

Definition iput_u32_lp (value : bytes) : result Error bytes :=
  n ← ok_or Malformed (u32_try_from (len value)); Ok (be32 n ++ value).

(** ** Invitations *)
Definition InvitationId : Type := bytes.

Definition invitation_id_try_from (bs : bytes) : result Error InvitationId :=
  ok_or Malformed (to_array 16 bs).

Inductive InvitationStatus :=
| Pending
| AcceptedPendingAdmission
| IAdmitted (rev : Z)
| IRevoked
| IExpired.

#[global] Instance InvitationStatus_eq_dec : EqDecision InvitationStatus.
Proof. solve_decision. Defined.

Definition status_code (s : InvitationStatus) : byte * option Z :=
  match s with
  | Pending => (x00, None)
  | AcceptedPendingAdmission => (x01, None)
  | IAdmitted rev => (x02, Some rev)
  | IRevoked => (x03, None)
  | IExpired => (x04, None)
  end.

Record Invitation := mkInvitation {
  i_id : InvitationId;
  i_group_id : GroupId;
  i_target : Member;
  source_revision : Z;
  source_roster_digest : bytes;
  i_policy_version : Z;
  expires_at : Z;
  status : InvitationStatus
}.

#[global] Instance Invitation_eq_dec : EqDecision Invitation.
Proof. solve_decision. Defined.

Definition set_status (i : Invitation) (s : InvitationStatus) : Invitation :=
  mkInvitation (i_id i) (i_group_id i) (i_target i) (source_revision i) (source_roster_digest i)
    (i_policy_version i) (expires_at i) s.

Definition invitation_validate (i : Invitation) : result Error unit :=
  if source_revision i =? RESERVED_REVISION then Err ReservedRevision else
  if negb (i_policy_version i =? POLICY_VERSION_V1) then Err UnsupportedPolicy else
  member_validate (i_target i).

Definition invitation_new (id : InvitationId) (group_id : GroupId) (target : Member) (rev : Z)
    (digest : bytes) (policy expires : Z) : result Error Invitation :=
  let invitation := mkInvitation id group_id target rev digest policy expires Pending in
  _ ← invitation_validate invitation;
  Ok invitation.

Definition same_immutable_fields (i candidate : Invitation) : bool :=
  bool_decide (i_id i = i_id candidate)
  && bool_decide (i_group_id i = i_group_id candidate)
  && bool_decide (i_target i = i_target candidate)
  && (source_revision i =? source_revision candidate)
  && bool_decide (source_roster_digest i = source_roster_digest candidate)
  && (i_policy_version i =? i_policy_version candidate)
  && (expires_at i =? expires_at candidate).

Definition source_matches (i : Invitation) (rev : Z) (digest : bytes) : bool :=
  (source_revision i =? rev) && bool_decide (source_roster_digest i = digest).

Definition expire_if_due (i : Invitation) (now : Z) : Invitation :=
  if (now >=? expires_at i)
     && match status i with Pending | AcceptedPendingAdmission => true | _ => false end
  then set_status i IExpired else i.

(** ** Messages *)
Record InvitationBootstrap := mkBootstrap { b_invitation : Invitation; source_roster : Roster }.

#[global] Instance InvitationBootstrap_eq_dec : EqDecision InvitationBootstrap.
Proof. solve_decision. Defined.

Definition check_binding (i : Invitation) (r : Roster) : result Error unit :=
  if negb (bool_decide (status i = Pending))
     || negb (bool_decide (i_group_id i = r_group_id r))
     || negb (source_revision i =? revision r)
     || negb (i_policy_version i =? policy_version r)
  then Err Conflict else Ok tt.

Definition bootstrap_new (i : Invitation) (r : Roster) : result Error InvitationBootstrap :=
  _ ← check_binding i r;
  _ ← roster_encode r;
  Ok (mkBootstrap i r).

Definition validate_source_digest (b : InvitationBootstrap) (source_digest : bytes) : result Error unit :=
  if negb (bool_decide (source_digest = source_roster_digest (b_invitation b)))
  then Err StaleSource else Ok tt.

Definition bootstrap_encode (b : InvitationBootstrap) : result Error bytes :=
  roster ← roster_encode (source_roster b);
  _ ← invitation_validate (b_invitation b);
  _ ← check_binding (b_invitation b) (source_roster b);
  let i := b_invitation b in
  ident ← iput_lp (m_identity (i_target i));
  dev ← iput_lp (m_device (i_target i));
  r ← iput_u32_lp roster;
  Ok (INVITATION_BOOTSTRAP_DOMAIN ++ i_id i ++ i_group_id i ++ ident ++ dev
      ++ be64 (source_revision i) ++ source_roster_digest i ++ be32 (i_policy_version i)
      ++ be64 (expires_at i) ++ r).

Definition bootstrap_decode (bs : bytes) : result Error InvitationBootstrap :=
  cursor ← gtake_exact INVITATION_BOOTSTRAP_DOMAIN bs;
  '(x, cursor) ← gtake 16 cursor;
  id ← invitation_id_try_from x;
  '(x, cursor) ← gtake GROUP_ID_LEN cursor;
  group_id ← group_id_try_from x;
  '(ident, cursor) ← itake_lp cursor;
  '(dev, cursor) ← itake_lp cursor;
  let target := mkMember ident dev in
  '(rev, cursor) ← gtake_u64 cursor;
  '(x, cursor) ← gtake DIGEST_LEN cursor;
  digest ← digest_try_from x;
  '(policy, cursor) ← gtake_u32 cursor;
  '(expires, cursor) ← gtake_u64 cursor;
  '(x, cursor) ← itake_u32_lp cursor;
  roster ← roster_decode x;
  match cursor with
  | [] =>
      i ← invitation_new id group_id target rev digest policy expires;
      bootstrap_new i roster
  | _ => Err Malformed
  end.

Record InvitationAcceptance := mkAcceptance {
  a_group_id : GroupId;
  a_invitation_id : InvitationId;
  a_source_revision : Z;
  a_source_roster_digest : bytes
}.

#[global] Instance InvitationAcceptance_eq_dec : EqDecision InvitationAcceptance.
Proof. solve_decision. Defined.

Definition acceptance_new (g : GroupId) (id : InvitationId) (rev : Z) (digest : bytes)
    : result Error InvitationAcceptance :=
  if rev =? RESERVED_REVISION then Err ReservedRevision else Ok (mkAcceptance g id rev digest).

Definition acceptance_encode (a : InvitationAcceptance) : result Error bytes :=
  c ← acceptance_new (a_group_id a) (a_invitation_id a) (a_source_revision a) (a_source_roster_digest a);
  Ok (INVITATION_ACCEPTANCE_DOMAIN ++ a_group_id c ++ a_invitation_id c ++ be64 (a_source_revision c)
      ++ a_source_roster_digest c).

Definition acceptance_decode (bs : bytes) : result Error InvitationAcceptance :=
  cursor ← gtake_exact INVITATION_ACCEPTANCE_DOMAIN bs;
  '(x, cursor) ← gtake GROUP_ID_LEN cursor;
  group_id ← group_id_try_from x;
  '(x, cursor) ← gtake 16 cursor;
  id ← invitation_id_try_from x;
  '(rev, cursor) ← gtake_u64 cursor;
  '(x, cursor) ← gtake DIGEST_LEN cursor;
  digest ← digest_try_from x;
  match cursor with
  | [] => acceptance_new group_id id rev digest
  | _ => Err Malformed
  end.

Record InvitationRevocation := mkRevocation {
  v_group_id : GroupId;
  v_invitation_id : InvitationId;
  v_source_revision : Z;
  v_source_roster_digest : bytes
}.

#[global] Instance InvitationRevocation_eq_dec : EqDecision InvitationRevocation.
Proof. solve_decision. Defined.

Definition revocation_new (g : GroupId) (id : InvitationId) (rev : Z) (digest : bytes)
    : result Error InvitationRevocation :=
  if rev =? RESERVED_REVISION then Err ReservedRevision else Ok (mkRevocation g id rev digest).

Definition revocation_encode (v : InvitationRevocation) : result Error bytes :=
  c ← revocation_new (v_group_id v) (v_invitation_id v) (v_source_revision v) (v_source_roster_digest v);
  Ok (INVITATION_REVOCATION_DOMAIN ++ v_group_id c ++ v_invitation_id c ++ be64 (v_source_revision c)
      ++ v_source_roster_digest c).

Definition revocation_decode (bs : bytes) : result Error InvitationRevocation :=
  cursor ← gtake_exact INVITATION_REVOCATION_DOMAIN bs;
  '(x, cursor) ← gtake GROUP_ID_LEN cursor;
  group_id ← group_id_try_from x;
  '(x, cursor) ← gtake 16 cursor;
  id ← invitation_id_try_from x;
  '(rev, cursor) ← gtake_u64 cursor;
  '(x, cursor) ← gtake DIGEST_LEN cursor;
  digest ← digest_try_from x;
  match cursor with
  | [] => revocation_new group_id id rev digest
  | _ => Err Malformed
  end.

(** ** The book *)
Record InvitationBook := mkBook { book_group_id : GroupId; invitations : list Invitation }.

Definition book_new (g : GroupId) : InvitationBook := mkBook g [].

(** One record of the checkpoint, with the checks the encoder makes first. *)
Definition put_record (i : Invitation) : result Error bytes :=
  let '(code, admitted_revision) := status_code (status i) in
  _ ← guard_err ReservedRevision (bool_decide (admitted_revision = Some RESERVED_REVISION));
  _ ← invitation_validate i;
  ident ← iput_lp (m_identity (i_target i));
  dev ← iput_lp (m_device (i_target i));
  Ok (i_id i ++ ident ++ dev ++ be64 (source_revision i) ++ source_roster_digest i
      ++ be32 (i_policy_version i) ++ be64 (expires_at i) ++ [code]
      ++ match admitted_revision with Some rev => be64 rev | None => [] end).

Definition book_encode_state (b : InvitationBook) : result Error bytes :=
  count ← ok_or Malformed (u8_try_from (len (invitations b)));
  if count >? MAX_INVITATION_RECORDS then Err Malformed else
  let sorted := sort_by (fun l r => bytes_cmp (i_id l) (i_id r)) (invitations b) in
  records ← gput_many put_record sorted;
  Ok (INVITATION_BOOK_STATE_DOMAIN ++ book_group_id b ++ [byte_of count] ++ records).

(** The body of the decoding loop, given the identifier before. *)
Definition take_record (expected_group_id : GroupId) (previous_id : option InvitationId) (cursor : bytes)
    : result Error (Invitation * bytes) :=
  '(x, cursor) ← gtake 16 cursor;
  id ← invitation_id_try_from x;
  _ ← guard_err NonCanonical
        (match previous_id with
         | Some p => match bytes_cmp p id with Lt => false | _ => true end
         | None => false
         end);
  '(ident, cursor) ← itake_lp cursor;
  '(dev, cursor) ← itake_lp cursor;
  let target := mkMember ident dev in
  '(rev, cursor) ← gtake_u64 cursor;
  '(x, cursor) ← gtake DIGEST_LEN cursor;
  digest ← digest_try_from x;
  '(policy, cursor) ← gtake_u32 cursor;
  '(expires, cursor) ← gtake_u64 cursor;
  '(code, cursor) ← gtake_byte cursor;
  '(st, cursor) ←
    (match code with
     | x00 => Ok (Pending, cursor)
     | x01 => Ok (AcceptedPendingAdmission, cursor)
     | x02 =>
         '(admitted, cursor) ← gtake_u64 cursor;
         if admitted =? RESERVED_REVISION then Err ReservedRevision else Ok (IAdmitted admitted, cursor)
     | x03 => Ok (IRevoked, cursor)
     | x04 => Ok (IExpired, cursor)
     | _ => Err Malformed
     end);
  i ← invitation_new id expected_group_id target rev digest policy expires;
  Ok (set_status i st, cursor).

Fixpoint take_records (expected_group_id : GroupId) (count : nat) (previous_id : option InvitationId)
    (cursor : bytes) : result Error (list Invitation * bytes) :=
  match count with
  | O => Ok ([], cursor)
  | S count =>
      '(i, cursor) ← take_record expected_group_id previous_id cursor;
      '(records, cursor) ← take_records expected_group_id count (Some (i_id i)) cursor;
      Ok (i :: records, cursor)
  end.

Definition book_decode_state (bs : bytes) (expected_group_id : GroupId) : result Error InvitationBook :=
  if negb (starts_with INVITATION_BOOK_STATE_DOMAIN bs) then Err Malformed else
  let cursor := drop (length INVITATION_BOOK_STATE_DOMAIN) bs in
  '(x, cursor) ← gtake GROUP_ID_LEN cursor;
  encoded_group ← group_id_try_from x;
  if negb (bool_decide (encoded_group = expected_group_id)) then Err Conflict else
  '(c, cursor) ← gtake_byte cursor;
  let count := byte_val c in
  if count >? MAX_INVITATION_RECORDS then Err Malformed else
  '(records, cursor) ← take_records expected_group_id (Z.to_nat count) None cursor;
  match cursor with
  | [] => Ok (mkBook expected_group_id records)
  | _ => Err Malformed
  end.

Definition book_create (b : InvitationBook) (authenticated_authority auth : Member)
    (active_members : list Member) (i : Invitation) (now : Z)
    : InvitationBook * result Error Invitation :=
  if negb (bool_decide (authenticated_authority = auth)) then (b, Err EUnauthorized) else
  if negb (bool_decide (i_group_id i = book_group_id b)) then (b, Err Conflict) else
  if now >=? expires_at i then (b, Err Expired) else
  if existsb (fun m => bool_decide (m_identity m = m_identity (i_target i))) active_members
  then (b, Err Conflict) else
  match list_find (fun e => i_id e = i_id i) (invitations b) with
  | Some (_, existing) =>
      if same_immutable_fields existing i then (b, Ok existing) else (b, Err Conflict)
  | None =>
      if len active_members >=? MAX_MEMBERS then (b, Err TooManyMembers) else
      if len (invitations b) =? MAX_INVITATION_RECORDS then (b, Err OutboxFull) else
      (mkBook (book_group_id b) (invitations b ++ [i]), Ok i)
  end.

(** [find_mut], and the write through the reference it returns. *)
Definition find_mut (b : InvitationBook) (id : InvitationId) : option (nat * Invitation) :=
  list_find (fun i => i_id i = id) (invitations b).

Definition write_back (b : InvitationBook) (k : nat) (i : Invitation) : InvitationBook :=
  mkBook (book_group_id b) (<[k := i]> (invitations b)).

Definition book_accept (b : InvitationBook) (id : InvitationId) (authenticated_target : Member)
    (observed_revision : Z) (observed_roster_digest : bytes) (now : Z)
    : InvitationBook * result Error Invitation :=
  match find_mut b id with
  | None => (b, Err Malformed)
  | Some (k, i) =>
      if negb (bool_decide (authenticated_target = i_target i)) then (b, Err WrongTarget) else
      if negb (source_matches i observed_revision observed_roster_digest) then (b, Err StaleSource) else
      let i := expire_if_due i now in
      match status i with
      | Pending =>
          let i := set_status i AcceptedPendingAdmission in (write_back b k i, Ok i)
      | AcceptedPendingAdmission | IAdmitted _ => (write_back b k i, Ok i)
      | IRevoked => (write_back b k i, Err Revoked)
      | IExpired => (write_back b k i, Err Expired)
      end
  end.

Definition book_revoke (b : InvitationBook) (id : InvitationId)
    (authenticated_authority auth : Member) (now : Z) : InvitationBook * result Error Invitation :=
  if negb (bool_decide (authenticated_authority = auth)) then (b, Err EUnauthorized) else
  match find_mut b id with
  | None => (b, Err Malformed)
  | Some (k, i) =>
      let i := expire_if_due i now in
      match status i with
      | Pending | AcceptedPendingAdmission =>
          let i := set_status i IRevoked in (write_back b k i, Ok i)
      | IRevoked => (write_back b k i, Ok i)
      | IExpired => (write_back b k i, Err Expired)
      | IAdmitted _ => (write_back b k i, Err WrongDisposition)
      end
  end.

Definition book_admit (b : InvitationBook) (id : InvitationId)
    (authenticated_authority auth : Member) (accepted_revision now : Z)
    : InvitationBook * result Error Invitation :=
  if negb (bool_decide (authenticated_authority = auth)) then (b, Err EUnauthorized) else
  if accepted_revision =? RESERVED_REVISION then (b, Err ReservedRevision) else
  match find_mut b id with
  | None => (b, Err Malformed)
  | Some (k, i) =>
      let i := expire_if_due i now in
      match status i with
      | AcceptedPendingAdmission =>
          if accepted_revision <=? source_revision i then (write_back b k i, Err StaleSource) else
          let i := set_status i (IAdmitted accepted_revision) in (write_back b k i, Ok i)
      | IAdmitted rev =>
          if rev =? accepted_revision then (write_back b k i, Ok i)
          else (write_back b k i, Err Conflict)
      | Pending => (write_back b k i, Err WrongDisposition)
      | IRevoked => (write_back b k i, Err Revoked)
      | IExpired => (write_back b k i, Err Expired)
      end
  end.

(** ** Codecs *)
Lemma be16_range n : 0 <= n <= u16_max -> be_value (be16 n) = n.
Proof.
  intros. apply be_value_be_bytes. change (256 ^ Z.of_nat 2) with 65536. unfold u16_max in *. lia.
Qed.

#[global] Instance parses_ilp : Parses (fun _ => True) iput_lp itake_lp.
Proof.
  split.
  - intros a bs rest _ H. unfold iput_lp, u16_try_from in H. inv_bind. bool_prop. unfold itake_lp.
    rewrite <- app_assoc, gtake_app by (by rewrite len_be_bytes). cbn [mbind result_bind].
    rewrite to_array_len by (by rewrite len_be_bytes). cbn [ok_or mbind result_bind].
    rewrite be16_range by len_lia. by apply gtake_app.
  - intros input a rest H. unfold itake_lp in H. inv_bind. apply gtake_inv in E as [-> Hl]; [|done].
    match goal with H : to_array _ _ = _ |- _ => apply to_array_Some in H as [-> _] end.
    pose proof (be_value_range l) as Hr. rewrite Hl in Hr. change (256 ^ 2) with 65536 in Hr.
    apply gtake_inv in H as [-> Ha]; [|lia]. split; [done|]. exists (l ++ a).
    split; [|by rewrite <- app_assoc]. unfold iput_lp, u16_try_from.
    replace (len a <=? u16_max) with true by (symmetry; apply Z.leb_le; unfold u16_max; lia).
    cbn. rewrite Ha. do 2 f_equal. apply be_bytes_be_value. unfold len in Hl. lia.
Qed.

Lemma iput_u32_lp_eq v : iput_u32_lp v = gput_lp v.
Proof. unfold iput_u32_lp, gput_lp, gput_u32. by destruct (u32_try_from (len v)). Qed.

#[global] Instance parses_iu32_lp : Parses (fun _ => True) iput_u32_lp itake_u32_lp.
Proof.
  split.
  - intros a bs rest Ha. rewrite iput_u32_lp_eq. by apply (parses_take_put (take := gtake_lp)).
  - intros input a rest H. rewrite iput_u32_lp_eq. exact (parses_put_take (take := gtake_lp) (wf := fun _ => True) _ _ _ H).
Qed.

Lemma iput_u32_lp_fits v : len v <= u32_max -> iput_u32_lp v = Ok (be32 (len v) ++ v).
Proof. rewrite iput_u32_lp_eq. apply gput_lp_fits. Qed.

Ltac iparses_inv :=
  repeat (parses_inv; match goal with
  | H : itake_lp _ = Ok _ |- _ => apply parses_put_take in H as (_ & ? & ? & ->)
  | H : itake_u32_lp _ = Ok _ |- _ => apply parses_put_take in H as (_ & ? & ? & ->)
  | H : invitation_id_try_from _ = Ok _ |- _ => unfold invitation_id_try_from in H; inv_bind
  end); parses_inv.

Ltac iparses_fwd :=
  unfold invitation_id_try_from, group_id_try_from, digest_try_from;
  repeat (parses_fwd;
    first [ erewrite (parses_read (take := itake_lp)) by eauto
          | erewrite (parses_read (take := itake_u32_lp)) by eauto ]);
  parses_fwd.

Definition invitation_wf (i : Invitation) : Prop :=
  len (i_id i) = 16 /\ len (i_group_id i) = GROUP_ID_LEN /\ 0 <= source_revision i <= u64_max /\
  len (source_roster_digest i) = DIGEST_LEN /\ 0 <= i_policy_version i <= u32_max /\
  0 <= expires_at i <= u64_max /\
  match status i with IAdmitted rev => 0 <= rev <= u64_max | _ => True end.

Definition bootstrap_wf (b : InvitationBootstrap) : Prop :=
  invitation_wf (b_invitation b) /\ roster_wf (source_roster b).

Lemma check_binding_pending i r u : check_binding i r = Ok u -> status i = Pending.
Proof. unfold check_binding. intros H. inv_bind. by bool_prop. Qed.

Lemma bootstrap_decode_encode bs b :
  bootstrap_decode bs = Ok b <-> bootstrap_wf b /\ bootstrap_encode b = Ok bs.
Proof.
  split.
  - intros H. unfold bootstrap_decode, bootstrap_new, invitation_new in H. inv_bind. iparses_inv.
    match goal with H : roster_decode _ = _ |- _ => apply roster_decode_encode in H as [? ?] end.
    split; [done|]. unfold bootstrap_encode. cbn [source_roster b_invitation i_target i_id i_group_id
      m_identity m_device source_revision source_roster_digest i_policy_version expires_at].
    match goal with H1 : roster_encode ?r = Ok ?a, H2 : roster_encode ?r = Ok ?b |- _ =>
      assert (a = b) by congruence; clear H2; subst end.
    gput_fwd. by rewrite app_nil_r.
  - intros [[(Hid & Hg & Hr & Hd & Hp & He & _) Hrw] H]. unfold bootstrap_encode in H. cbv zeta in H. inv_bind.
    apply unit_Ok in E0. pose proof (check_binding_pending _ _ _ E1) as Hst.
    unfold bootstrap_decode. rewrite <- (app_nil_r a4). iparses_fwd.
    assert (roster_decode a = Ok (source_roster b)) as -> by (by apply roster_decode_encode).
    cbn [mbind result_bind]. unfold invitation_new, bootstrap_new.
    assert (mkInvitation (i_id (b_invitation b)) (i_group_id (b_invitation b))
      (mkMember (m_identity (i_target (b_invitation b))) (m_device (i_target (b_invitation b))))
      (source_revision (b_invitation b)) (source_roster_digest (b_invitation b))
      (i_policy_version (b_invitation b)) (expires_at (b_invitation b)) Pending = b_invitation b) as ->.
    { destruct b as [[? ? [] ? ? ? ? ?] ?]. cbn in *. by subst. }
    rewrite E0. cbn [mbind result_bind]. rewrite E1. cbn [mbind result_bind]. rewrite E. by destruct b.
Qed.

Definition acceptance_wf (a : InvitationAcceptance) : Prop :=
  len (a_group_id a) = GROUP_ID_LEN /\ len (a_invitation_id a) = 16 /\
  0 <= a_source_revision a <= u64_max /\ len (a_source_roster_digest a) = DIGEST_LEN.

Lemma acceptance_decode_encode bs a :
  acceptance_decode bs = Ok a <-> acceptance_wf a /\ acceptance_encode a = Ok bs.
Proof.
  split.
  - intros H. unfold acceptance_decode in H. inv_bind. iparses_inv.
    unfold acceptance_encode, acceptance_new in *. inv_bind. split; [done|]. cbn.
    rewrite G. cbn. by rewrite !app_nil_r.
  - intros [(Hg & Hi & Hr & Hd) H]. unfold acceptance_encode, acceptance_new in H. inv_bind. cbn in *.
    unfold acceptance_decode. rewrite <- (app_nil_r (a_source_roster_digest a)). iparses_fwd.
    unfold acceptance_new. rewrite G. by destruct a.
Qed.

Definition revocation_wf (v : InvitationRevocation) : Prop :=
  len (v_group_id v) = GROUP_ID_LEN /\ len (v_invitation_id v) = 16 /\
  0 <= v_source_revision v <= u64_max /\ len (v_source_roster_digest v) = DIGEST_LEN.

Lemma revocation_decode_encode bs v :
  revocation_decode bs = Ok v <-> revocation_wf v /\ revocation_encode v = Ok bs.
Proof.
  split.
  - intros H. unfold revocation_decode in H. inv_bind. iparses_inv.
    unfold revocation_encode, revocation_new in *. inv_bind. split; [done|]. cbn.
    rewrite G. cbn. by rewrite !app_nil_r.
  - intros [(Hg & Hi & Hr & Hd) H]. unfold revocation_encode, revocation_new in H. inv_bind. cbn in *.
    unfold revocation_decode. rewrite <- (app_nil_r (v_source_roster_digest v)). iparses_fwd.
    unfold revocation_new. rewrite G. by destruct v.
Qed.

(** ** Runs of the book *)
Inductive BookOp :=
| BCreate (authenticated auth : Member) (active : list Member) (i : Invitation) (now : Z)
| BAccept (id : InvitationId) (authenticated_target : Member) (rev : Z) (digest : bytes) (now : Z)
| BRevoke (id : InvitationId) (authenticated auth : Member) (now : Z)
| BAdmit (id : InvitationId) (authenticated auth : Member) (rev : Z) (now : Z).

Definition book_step (b : InvitationBook) (op : BookOp) : InvitationBook :=
  match op with
  | BCreate aa auth active i now => (book_create b aa auth active i now).1
  | BAccept id t rev d now => (book_accept b id t rev d now).1
  | BRevoke id aa auth now => (book_revoke b id aa auth now).1
  | BAdmit id aa auth rev now => (book_admit b id aa auth rev now).1
  end.

Definition book_run (b : InvitationBook) (ops : list BookOp) : InvitationBook := fold_left book_step ops b.

(** The record of an identifier. *)
Definition record_of (b : InvitationBook) (id : InvitationId) : option Invitation :=
  snd <$> find_mut b id.

(** What an operation makes of one record's status. *)
Definition status_after (op : BookOp) (i : Invitation) : InvitationStatus :=
  match op with
  | BCreate _ _ _ _ _ => status i
  | BAccept id t rev d now =>
      if decide (id = i_id i /\ t = i_target i /\ source_matches i rev d = true) then
        match status (expire_if_due i now) with Pending => AcceptedPendingAdmission | s => s end
      else status i
  | BRevoke id aa auth now =>
      if decide (id = i_id i /\ aa = auth) then
        match status (expire_if_due i now) with
        | Pending | AcceptedPendingAdmission => IRevoked | s => s end
      else status i
  | BAdmit id aa auth rev now =>
      if decide (id = i_id i /\ aa = auth /\ rev <> RESERVED_REVISION) then
        match status (expire_if_due i now) with
        | AcceptedPendingAdmission =>
            if rev <=? source_revision i then AcceptedPendingAdmission else IAdmitted rev
        | s => s end
      else status i
  end.

Lemma find_write id0 l k (i i' : Invitation) :
  list_find (fun e => i_id e = id0) l = Some (k, i) -> i_id i' = id0 ->
  forall id, snd <$> list_find (fun e => i_id e = id) (<[k := i']> l) =
    if decide (id = id0) then Some i' else snd <$> list_find (fun e => i_id e = id) l.
Proof.
  revert k. induction l as [|x l IH]; intros k Hf Hi id; [done|]. cbn [list_find] in Hf.
  destruct (decide (i_id x = id0)) as [Hx|Hx].
  - inv_bind. cbn [insert list_insert list_find].
    destruct (decide (id = i_id i)) as [->|Hne].
    + by rewrite decide_True.
    + by rewrite !decide_False by congruence.
  - apply fmap_Some in Hf as ([k' i0] & Hf & [= -> <-]). cbn [insert list_insert list_find].
    specialize (IH k' Hf Hi id). destruct (decide (i_id x = id)) as [Hid|Hid].
    + rewrite decide_False by congruence. done.
    + rewrite <- !option_fmap_compose. cbn. rewrite !(option_fmap_ext _ snd) by (by intros []). exact IH.
Qed.

Lemma find_snoc l (i : Invitation) id :
  snd <$> list_find (fun e => i_id e = id) (l ++ [i]) =
  match snd <$> list_find (fun e => i_id e = id) l with
  | Some x => Some x
  | None => if decide (i_id i = id) then Some i else None
  end.
Proof.
  induction l as [|x l IH]; cbn [app list_find]; [by case_decide|].
  destruct (decide (i_id x = id)); [done|].
  rewrite <- !option_fmap_compose. rewrite !(option_fmap_ext _ snd) by (by intros []). exact IH.
Qed.

Lemma find_mut_id b id k i : find_mut b id = Some (k, i) -> i_id i = id.
Proof. unfold find_mut. intros H. apply list_find_Some in H. tauto. Qed.

(** Writing a new status through [find_mut]. *)
Lemma record_write b id0 k i s id :
  find_mut b id0 = Some (k, i) ->
  record_of (write_back b k (set_status i s)) id =
  if decide (id = id0) then Some (set_status i s) else record_of b id.
Proof.
  intros H. unfold record_of, find_mut, write_back. cbn [invitations].
  eapply find_write; [exact H|]. cbn. by eapply find_mut_id.
Qed.

Lemma set_status_id i : set_status i (status i) = i.
Proof. by destruct i. Qed.

Lemma expire_set_status i now : expire_if_due i now = set_status i (status (expire_if_due i now)).
Proof. unfold expire_if_due. case_test; [done|]. by rewrite set_status_id. Qed.

Lemma set_set_status i s s' : set_status (set_status i s) s' = set_status i s'.
Proof. done. Qed.

Lemma record_of_id b id i : record_of b id = Some i -> i_id i = id.
Proof. unfold record_of. intros ([k j] & H & ->)%fmap_Some. by eapply find_mut_id. Qed.

(** An operation that concerns the record of one identifier: it leaves the
    book alone, or writes that record's new status back. *)
Lemma record_via b id0 (f : Invitation -> InvitationStatus) b' :
  (forall j, i_id j <> id0 -> f j = status j) ->
  match find_mut b id0 with
  | None => b' = b
  | Some (k, i) => (b' = b /\ f i = status i) \/ b' = write_back b k (set_status i (f i))
  end ->
  forall id, record_of b' id = (fun j => set_status j (f j)) <$> record_of b id.
Proof.
  intros Hf H id.
  assert (forall j, record_of b id = Some j -> id <> id0 -> set_status j (f j) = j) as Hother.
  { intros j Hj%record_of_id Hne. rewrite Hf, set_status_id; congruence. }
  destruct (find_mut b id0) as [[k i]|] eqn:F.
  - destruct H as [[-> Hi] | ->].
    + destruct (decide (id = id0)) as [->|Hne].
      * unfold record_of. rewrite F. cbn. by rewrite Hi, set_status_id.
      * destruct (record_of b id) as [j|] eqn:E; [|done]. cbn. by rewrite Hother.
    + rewrite (record_write b id0) by done. case_decide as Hid; [subst id; unfold record_of; by rewrite F|].
      destruct (record_of b id) as [j|] eqn:E; [|done]. cbn. by rewrite Hother.
  - subst b'. destruct (decide (id = id0)) as [->|Hne].
    + unfold record_of. by rewrite F.
    + destruct (record_of b id) as [j|] eqn:E; [|done]. cbn. by rewrite Hother.
Qed.

(** The operations on existing records, on every branch. *)
Lemma record_accept b id0 t rev d now id :
  record_of (book_accept b id0 t rev d now).1 id =
  (fun j => set_status j (status_after (BAccept id0 t rev d now) j)) <$> record_of b id.
Proof.
  apply (record_via b id0).
  { intros j Hj. cbn. rewrite decide_False; [done|]. by intros [-> _]. }
  unfold book_accept. destruct (find_mut b id0) as [[k i]|] eqn:F; [|done].
  apply find_mut_id in F. cbn [status_after].
  destruct (bool_decide (t = i_target i)) eqn:Et; bool_prop; cbn [negb fst].
  2: { left. split; [done|]. rewrite decide_False; [done|]. naive_solver. }
  destruct (source_matches i rev d) eqn:Es; cbn [negb fst].
  2: { left. split; [done|]. rewrite decide_False; [done|]. naive_solver. }
  right. rewrite decide_True by done. rewrite (expire_set_status i now).
  cbn [status set_status]. destruct (status (expire_if_due i now)); done.
Qed.

Lemma record_revoke b id0 aa auth now id :
  record_of (book_revoke b id0 aa auth now).1 id =
  (fun j => set_status j (status_after (BRevoke id0 aa auth now) j)) <$> record_of b id.
Proof.
  apply (record_via b id0).
  { intros j Hj. cbn. rewrite decide_False; [done|]. by intros [-> _]. }
  unfold book_revoke. destruct (bool_decide (aa = auth)) eqn:Ea; bool_prop; cbn [negb].
  2: { cbn [fst]. destruct (find_mut b id0) as [[k i]|]; [|done]. left. split; [done|]. cbn.
       rewrite decide_False; [done|]. naive_solver. }
  destruct (find_mut b id0) as [[k i]|] eqn:F; [|done]. apply find_mut_id in F. cbn [status_after].
  right. rewrite decide_True by done. rewrite (expire_set_status i now).
  cbn [status set_status]. destruct (status (expire_if_due i now)); done.
Qed.

Lemma record_admit b id0 aa auth rev now id :
  record_of (book_admit b id0 aa auth rev now).1 id =
  (fun j => set_status j (status_after (BAdmit id0 aa auth rev now) j)) <$> record_of b id.
Proof.
  apply (record_via b id0).
  { intros j Hj. cbn. rewrite decide_False; [done|]. by intros [-> _]. }
  unfold book_admit. destruct (bool_decide (aa = auth)) eqn:Ea; bool_prop; cbn [negb].
  2: { cbn [fst]. destruct (find_mut b id0) as [[k i]|]; [|done]. left. split; [done|]. cbn.
       rewrite decide_False; [done|]. naive_solver. }
  destruct (rev =? RESERVED_REVISION) eqn:Er; bool_prop.
  { cbn [fst]. destruct (find_mut b id0) as [[k i]|]; [|done]. left. split; [done|]. cbn.
    rewrite decide_False; [done|]. naive_solver. }
  destruct (find_mut b id0) as [[k i]|] eqn:F; [|done]. apply find_mut_id in F. cbn [status_after].
  right. rewrite decide_True by done. rewrite (expire_set_status i now).
  cbn [status set_status source_revision]. destruct (status (expire_if_due i now)); try done; by case_test.
Qed.

Lemma record_create b aa auth active i now id :
  record_of (book_create b aa auth active i now).1 id =
  match record_of b id with
  | Some j => Some j
  | None =>
      match (book_create b aa auth active i now).2 with
      | Ok _ => if decide (i_id i = id) then Some i else None
      | Err _ => None
      end
  end.
Proof.
  assert (match record_of b id with Some j => Some j | None => None end = record_of b id) as Hid
    by (by destruct (record_of b id)).
  unfold book_create. repeat (case_test; [done|]).
  destruct (list_find (fun e => i_id e = i_id i) (invitations b)) as [[k e]|] eqn:F.
  - case_test; [|done]. cbn [fst snd]. destruct (record_of b id) as [j|] eqn:E; [done|].
    rewrite decide_False; [done|]. intros <-. unfold record_of, find_mut in E. by rewrite F in E.
  - repeat (case_test; [done|]). cbn [fst snd]. unfold record_of, find_mut. cbn [invitations].
    apply find_snoc.
Qed.

Lemma record_step b op id :
  record_of (book_step b op) id =
  match record_of b id, op with
  | Some i, _ => Some (set_status i (status_after op i))
  | None, BCreate aa auth active i now =>
      match (book_create b aa auth active i now).2 with
      | Ok _ => if decide (i_id i = id) then Some i else None
      | Err _ => None
      end
  | None, _ => None
  end.
Proof.
  destruct op; cbn [book_step].
  - rewrite record_create. destruct (record_of b id); cbn; by rewrite ?set_status_id.
  - rewrite record_accept. by destruct (record_of b id).
  - rewrite record_revoke. by destruct (record_of b id).
  - rewrite record_admit. by destruct (record_of b id).
Qed.

(** ** The lifecycle *)
Definition rank (s : InvitationStatus) : Z :=
  match s with Pending => 0 | AcceptedPendingAdmission => 1 | _ => 2 end.

(** What a due invitation's status is. *)
Lemma expire_status i now :
  (status (expire_if_due i now) = status i /\ (rank (status i) < 2 -> now < expires_at i)) \/
  (rank (status i) < 2 /\ status (expire_if_due i now) = IExpired).
Proof.
  unfold expire_if_due. destruct (now >=? expires_at i) eqn:E; bool_prop; cbn [andb].
  - destruct (status i) eqn:Es; cbn; rewrite ?Es; cbn; try (right; split; [lia|done]); left; split; done || lia.
  - left. split; [done|lia].
Qed.

Lemma status_after_rank op i :
  status_after op i = status i \/ rank (status i) < rank (status_after op i).
Proof.
  destruct op as [aa auth active e now|id t rev d now|id aa auth now|id aa auth rev now];
    cbn [status_after]; [by left|..]; (case_decide; [|by left]);
    destruct (expire_status i now) as [[-> _]|[Hr ->]];
    destruct (status i); cbn in *; try case_test; cbn; try (by left); right; lia.
Qed.

(** The acceptance and the admission a status rests on. *)
Definition accepted_in (ops : list BookOp) (i : Invitation) : Prop :=
  exists now, BAccept (i_id i) (i_target i) (source_revision i) (source_roster_digest i) now ∈ ops /\
    now < expires_at i.

Definition justified (ops : list BookOp) (i : Invitation) : Prop :=
  match status i with
  | AcceptedPendingAdmission => accepted_in ops i
  | IAdmitted rev => exists ops1 auth now ops2,
      ops = ops1 ++ BAdmit (i_id i) auth auth rev now :: ops2 /\
      now < expires_at i /\ source_revision i < rev /\ accepted_in ops1 i
  | _ => True
  end.

Lemma justified_snoc ops op i s :
  justified ops i -> s = status i -> justified (ops ++ [op]) (set_status i s).
Proof.
  intros H ->. rewrite set_status_id. unfold justified in *. destruct (status i); try done.
  - destruct H as (now & H & ?). exists now. split; [|done]. apply elem_of_app. by left.
  - destruct H as (ops1 & auth & now & ops2 & -> & H). exists ops1, auth, now, (ops2 ++ [op]).
    split; [by rewrite <- app_assoc|done].
Qed.

Lemma source_matches_true i rev d :
  source_matches i rev d = true -> rev = source_revision i /\ d = source_roster_digest i.
Proof. unfold source_matches. intros H. by bool_prop. Qed.

Lemma justified_step ops op i :
  justified ops i -> justified (ops ++ [op]) (set_status i (status_after op i)).
Proof.
  intros H. destruct (decide (status_after op i = status i)) as [Hs|Hs]; [by apply justified_snoc|].
  destruct op as [aa auth active e now|id t rev d now|id aa auth now|id aa auth rev now];
    cbn [status_after] in *; [done|..]; (case_decide as Hc; [|done]);
    destruct (expire_status i now) as [[Hst Hnow]|[Hr Hst]]; rewrite Hst in *; try done.
  - destruct (status i) eqn:Es; try done. destruct Hc as (-> & -> & [-> ->]%source_matches_true).
    exists now. split; [|apply Hnow; cbn; lia]. apply elem_of_app. right. by left.
  - by destruct (status i).
  - destruct (status i) eqn:Es; try done. destruct Hc as (-> & -> & _).
    case_test; bool_prop; [done|]. unfold justified in *. rewrite Es in H. cbn.
    exists ops, auth, now, []. split_and!; [done|apply Hnow; cbn; lia|lia|done].
Qed.

Definition book_op_wf (op : BookOp) : Prop :=
  match op with
  | BCreate _ _ _ i _ =>
      invitation_wf i /\ invitation_validate i = Ok tt /\ status i = Pending
  | BAccept _ _ _ _ _ | BRevoke _ _ _ _ => True
  | BAdmit _ _ _ rev _ => 0 <= rev <= u64_max
  end.

Lemma book_run_snoc b ops op : book_run b (ops ++ [op]) = book_step (book_run b ops) op.
Proof. unfold book_run. by rewrite fold_left_app. Qed.

Lemma justified_run g ops id i :
  Forall book_op_wf ops -> record_of (book_run (book_new g) ops) id = Some i -> justified ops i.
Proof.
  revert i. induction ops as [|op ops IH] using rev_ind; intros i Hwf H; [done|].
  apply Forall_app in Hwf as [Hwf Hop]. apply Forall_cons in Hop as [Hop _].
  rewrite book_run_snoc, record_step in H.
  destruct (record_of (book_run (book_new g) ops) id) as [j|] eqn:E.
  - inv_bind. apply justified_step. by apply IH.
  - destruct op as [aa auth active e now| | |]; try done. case_match; [|done].
    case_decide; [|done]. inv_bind. destruct Hop as (_ & _ & Hp). unfold justified. by rewrite Hp.
Qed.

(** ** Properties *)

(** Invitations only move forward: along any run of book operations a
    record's identity, group, target, source roster, policy and expiry never
    change, and its status stays or advances from pending to accepted to one
    final state; an admitted (with its revision), revoked or expired record
    stays exactly that, whoever calls what and whenever. *)
Lemma invitation_lifecycle_monotone b ops id i :
  record_of b id = Some i ->
  exists s, record_of (book_run b ops) id = Some (set_status i s) /\
    (s = status i \/ rank (status i) < rank s).
Proof.
  intros Hi. induction ops as [|op ops IH] using rev_ind.
  - exists (status i). split; [by rewrite set_status_id|by left].
  - destruct IH as (s & Hs & Hr). rewrite book_run_snoc, record_step, Hs.
    eexists. split; [done|]. destruct (status_after_rank op (set_status i s)) as [Hx|Hx]; [rewrite Hx|].
    + exact Hr.
    + right. cbn [status set_status] in Hx. destruct Hr as [Hr|Hr]; [subst s|]; lia.
Qed.

Definition invite : Invitation :=
  mkInvitation (replicate 16 x01) (replicate 16 x07) (mkMember (bstr "bea") (bstr "d1")) 0
    (replicate 32 x09) POLICY_VERSION_V1 100 Pending.

(** C36. Nobody is admitted without both sides: when a record of a run from an
    empty book, in which only valid pending invitations are created, is admitted at a revision, the run contains an admission of that
    record by the authenticated authority, at that revision, past the source
    revision and before the expiry, and before it an acceptance by the
    invitation's authenticated target that named exactly the invitation's
    source roster, also before the expiry. *)
Theorem invitation_admission_justified g ops id i rev :
  Forall book_op_wf ops -> record_of (book_run (book_new g) ops) id = Some i ->
  status i = IAdmitted rev ->
  exists ops1 auth now ops2,
    ops = ops1 ++ BAdmit (i_id i) auth auth rev now :: ops2 /\
    now < expires_at i /\ source_revision i < rev /\ accepted_in ops1 i.
Proof.
  intros Hwf H Hs. pose proof (justified_run g ops id i Hwf H) as Hj. unfold justified in Hj.
  by rewrite Hs in Hj.
Qed.

Lemma invitation_admission_justified_witness :
  let ops := [BCreate ana ana [ana] invite 1;
              BAccept (i_id invite) (i_target invite) 0 (replicate 32 x09) 3;
              BAdmit (i_id invite) ana ana 1 4] in
  let i := set_status invite (IAdmitted 1) in
  exists ops1 auth now ops2,
    ops = ops1 ++ BAdmit (i_id i) auth auth 1 now :: ops2 /\
    now < expires_at i /\ source_revision i < 1 /\ accepted_in ops1 i.
Proof.
  apply (invitation_admission_justified (replicate 16 x07) _ (i_id invite)).
  - repeat constructor; by vm_compute.
  - by vm_compute.
  - done.
Defined.

(** ** The checkpoint *)
Definition record_ok (g : GroupId) (i : Invitation) : Prop :=
  invitation_wf i /\ invitation_validate i = Ok tt /\ i_group_id i = g /\
  status i <> IAdmitted RESERVED_REVISION.

Record book_inv (b : InvitationBook) : Prop := {
  bi_ids : NoDup (i_id <$> invitations b);
  bi_records : Forall (record_ok (book_group_id b)) (invitations b);
  bi_count : len (invitations b) <= MAX_INVITATION_RECORDS
}.

Lemma record_of_in b id i : record_of b id = Some i -> i ∈ invitations b.
Proof.
  unfold record_of, find_mut. intros ([k j] & H & ->)%fmap_Some. apply list_find_Some in H.
  destruct H as [H _]. by eapply list_elem_of_lookup_2.
Qed.

Lemma in_record_of b i : NoDup (i_id <$> invitations b) -> i ∈ invitations b -> record_of b (i_id i) = Some i.
Proof.
  unfold record_of, find_mut. induction (invitations b) as [|x l IH]; intros Hnd Hi; [by apply elem_of_nil in Hi|].
  rewrite fmap_cons in Hnd. apply NoDup_cons in Hnd as [Hx Hnd]. cbn [list_find].
  apply elem_of_cons in Hi as [->|Hi]; [by rewrite decide_True|].
  rewrite decide_False.
  - rewrite <- option_fmap_compose. rewrite (option_fmap_ext _ snd) by (by intros []). by apply IH.
  - intros Hid. apply Hx. rewrite Hid. apply list_elem_of_fmap. eauto.
Qed.

(** An operation keeps the identifiers, or appends the one it creates. *)
Lemma ids_write b id k i s :
  find_mut b id = Some (k, i) ->
  i_id <$> invitations (write_back b k (set_status i s)) = i_id <$> invitations b.
Proof.
  intros H. unfold find_mut in H. apply list_find_Some in H. destruct H as [H _]. cbn.
  rewrite list_fmap_insert. cbn. apply list_insert_id. by rewrite list_lookup_fmap, H.
Qed.

Lemma ids_step b op :
  i_id <$> invitations (book_step b op) = i_id <$> invitations b \/
  exists aa auth active i now, op = BCreate aa auth active i now /\ record_of b (i_id i) = None /\
    i_group_id i = book_group_id b /\
    invitations (book_step b op) = invitations b ++ [i] /\ len (invitations b) <> MAX_INVITATION_RECORDS.
Proof.
  destruct op as [aa auth active i now|id t rev d now|id aa auth now|id aa auth rev now]; cbn [book_step].
  - unfold book_create. destruct (negb (bool_decide (aa = auth))); [by left|].
    destruct (negb (bool_decide (i_group_id i = _))) eqn:Hg; [by left|]. bool_prop.
    destruct (now >=? expires_at i); [by left|]. destruct (existsb _ _); [by left|].
    destruct (list_find _ _) as [[k e]|] eqn:F; [left; by case_test|].
    destruct (len active >=? MAX_MEMBERS); [by left|].
    destruct (len (invitations b) =? MAX_INVITATION_RECORDS) eqn:Hc; [by left|]. bool_prop.
    right. exists aa, auth, active, i, now. split_and!; try done. unfold record_of, find_mut. by rewrite F.
  - left. unfold book_accept. destruct (find_mut b id) as [[k i]|] eqn:F; [|done].
    rewrite (expire_set_status i now). repeat case_match; cbn [fst]; rewrite ?set_set_status; try done; by eapply ids_write.
  - left. unfold book_revoke. destruct (negb _); [done|]. destruct (find_mut b id) as [[k i]|] eqn:F; [|done].
    rewrite (expire_set_status i now). repeat case_match; cbn [fst]; rewrite ?set_set_status; try done; by eapply ids_write.
  - left. unfold book_admit. destruct (negb _); [done|]. destruct (rev =? _); [done|].
    destruct (find_mut b id) as [[k i]|] eqn:F; [|done].
    rewrite (expire_set_status i now). repeat case_match; cbn [fst]; rewrite ?set_set_status; try done; by eapply ids_write.
Qed.

Lemma book_group_step b op : book_group_id (book_step b op) = book_group_id b.
Proof.
  destruct op; cbn [book_step]; unfold book_create, book_accept, book_revoke, book_admit;
    repeat case_match; done.
Qed.

Lemma record_ok_step g op i :
  book_op_wf op -> record_ok g i -> record_ok g (set_status i (status_after op i)).
Proof.
  intros Hop (Hwf & Hv & Hg & Hs).
  destruct Hwf as (H1 & H2 & H3 & H4 & H5 & H6 & H7).
  assert (match status_after op i with
          | IAdmitted rev => 0 <= rev <= u64_max /\ rev <> RESERVED_REVISION | _ => True end) as Hst.
  { assert (match status i with
            | IAdmitted rev => 0 <= rev <= u64_max /\ rev <> RESERVED_REVISION | _ => True end) as Hi
      by (destruct (status i); try done; split; [done|congruence]).
    destruct op as [| | |id aa auth rev now]; cbn [status_after book_op_wf] in *; try done;
      (case_decide as Hc; [|done]); destruct (expire_status i now) as [[-> _]|[_ ->]]; try done;
      destruct (status i); try done.
    case_test; [done|]. by destruct Hc as (_ & _ & ?). }
  split_and!; try done; cbn [status set_status]; destruct (status_after op i); try done.
  - by destruct Hst.
  - destruct Hst as [_ Hst]. congruence.
Qed.

Lemma book_inv_step b op : book_op_wf op -> book_inv b -> book_inv (book_step b op).
Proof.
  intros Hop [Hids Hrec Hcnt].
  assert (NoDup (i_id <$> invitations (book_step b op)) /\ len (invitations (book_step b op)) <= MAX_INVITATION_RECORDS)
    as [Hids' Hcnt'].
  { destruct (ids_step b op) as [Hx|(aa & auth & active & i & now & _ & Hn & _ & -> & Hc)].
    - split; [by rewrite Hx|]. apply (f_equal len) in Hx. rewrite !len_fmap in Hx. lia.
    - rewrite fmap_app, len_app. change (len [i]) with 1. split; [|lia].
      apply NoDup_app. split_and!; [done| |apply NoDup_singleton].
      intros x Hx' ->%list_elem_of_singleton. apply list_elem_of_fmap in Hx' as (j & Hj & Hin).
      rewrite Hj, (in_record_of b j Hids Hin) in Hn. done. }
  split; [done| |done]. rewrite book_group_step. apply Forall_forall. intros j Hj.
  apply (in_record_of _ _ Hids') in Hj. rewrite record_step in Hj.
  destruct (record_of b (i_id j)) as [i|] eqn:E.
  - inv_bind. apply record_ok_step; [done|]. rewrite Forall_forall in Hrec. apply Hrec.
    by eapply record_of_in.
  - destruct op as [aa auth active i now| | |]; try done. case_match eqn:Hc; [|done]. case_decide; [|done].
    inv_bind. destruct Hop as (? & ? & Hp). split_and!; try done; [|by rewrite Hp].
    unfold book_create in Hc. destruct (negb (bool_decide (aa = auth))); [done|].
    destruct (negb (bool_decide (i_group_id j = _))) eqn:Hg; [done|]. by bool_prop.
Qed.

Lemma book_inv_run g ops : Forall book_op_wf ops -> book_inv (book_run (book_new g) ops) /\
  book_group_id (book_run (book_new g) ops) = g.
Proof.
  induction ops as [|op ops IH] using rev_ind; intros Hwf.
  - split; [|done]. split; cbn; [constructor|constructor|done].
  - apply Forall_app in Hwf as [Hwf Hop]. apply Forall_cons in Hop as [Hop _]. rewrite book_run_snoc.
    destruct (IH Hwf) as [Hi Hg]. split; [by apply book_inv_step|by rewrite book_group_step].
Qed.

Lemma iput_lp_fits v : len v <= u16_max -> iput_lp v = Ok (be16 (len v) ++ v).
Proof.
  intros. unfold iput_lp, u16_try_from.
  by replace (len v <=? u16_max) with true by (symmetry; apply Z.leb_le; lia).
Qed.

Lemma invitation_valid_target i : invitation_validate i = Ok tt -> member_ok (i_target i).
Proof. unfold invitation_validate. intros H. by repeat case_match. Qed.

Lemma put_record_fits g i : record_ok g i -> exists bs, put_record i = Ok bs.
Proof.
  intros (Hwf & Hv & Hg & Hs). unfold put_record.
  pose proof (invitation_valid_target i Hv) as [? ?]%member_ok_spec.
  destruct (status_code (status i)) as [code adm] eqn:Ec. unfold guard_err.
  rewrite bool_decide_eq_false_2.
  - cbn [mbind result_bind]. rewrite Hv. cbn [mbind result_bind].
    rewrite !iput_lp_fits by (unfold MAX_IDENTITY_LEN, MAX_DEVICE_LEN, u16_max in *; lia). cbn. eauto.
  - intros ->. destruct (status i); cbn in Ec; try done. congruence.
Qed.

(** Reading one record back, after an identifier that is smaller. *)
Lemma take_record_put g prev i bs rest :
  record_ok g i -> put_record i = Ok bs ->
  match prev with Some p => bytes_cmp p (i_id i) = Lt | None => True end ->
  take_record g prev (bs ++ rest) = Ok (i, rest).
Proof.
  intros ((H1 & H2 & H3 & H4 & H5 & H6 & H7) & Hv & Hg & Hs) H Hprev. unfold put_record in H.
  destruct (status_code (status i)) as [code adm] eqn:Ec. inv_bind. unfold take_record. iparses_fwd.
  replace (guard_err NonCanonical _) with (Ok (E := Error) tt) by (destruct prev; [by rewrite Hprev|done]).
  iparses_fwd. unfold invitation_new.
  assert (forall st, set_status (mkInvitation (i_id i) (i_group_id i) (i_target i) (source_revision i)
    (source_roster_digest i) (i_policy_version i) (expires_at i) Pending) st = set_status i st) as Hset by done.
  replace (mkMember (m_identity (i_target i)) (m_device (i_target i))) with (i_target i) by (by destruct (i_target i)).
  assert (invitation_validate (mkInvitation (i_id i) (i_group_id i) (i_target i) (source_revision i)
    (source_roster_digest i) (i_policy_version i) (expires_at i) Pending) = Ok tt) as Hv' by done.
  assert (forall st, status i = st ->
    set_status i st = i) as Hid by (intros st <-; apply set_status_id).
  destruct (status i) as [| |rev| |] eqn:Es; cbn in Ec; inv_bind; cbn [mbind result_bind app];
    try (rewrite Hv'; cbn [mbind result_bind]; by rewrite Hset, Hid).
  rewrite gtake_u64_app by done. cbn [mbind result_bind].
  replace (rev =? RESERVED_REVISION) with false by (symmetry; apply Z.eqb_neq; congruence).
  cbn [mbind result_bind]. rewrite Hv'. cbn [mbind result_bind]. by rewrite Hset, Hid.
Qed.

Definition id_lt (a b : Invitation) : Prop := bytes_cmp (i_id a) (i_id b) = Lt.

Lemma take_records_put g l : forall prev bs rest,
  Forall (record_ok g) l -> StronglySorted id_lt l ->
  match prev with Some p => Forall (fun i => bytes_cmp p (i_id i) = Lt) l | None => True end ->
  gput_many put_record l = Ok bs ->
  take_records g (length l) prev (bs ++ rest) = Ok (l, rest).
Proof.
  induction l as [|i l IH]; intros prev bs rest Hok Hs Hp H; cbn in H; inv_bind; [done|].
  apply Forall_cons in Hok as [Hi Hok]. apply StronglySorted_cons in Hs as [Hlt Hs].
  cbn [length take_records]. rewrite <- app_assoc, (take_record_put g prev i).
  - cbn [mbind result_bind]. by rewrite (IH (Some (i_id i)) _ _ Hok Hs Hlt eq_refl).
  - done.
  - done.
  - destruct prev; [|done]. by apply Forall_cons in Hp as [? _].
Qed.

Lemma sorted_records b : book_inv b ->
  StronglySorted id_lt (sort_by (fun l r => bytes_cmp (i_id l) (i_id r)) (invitations b)).
Proof.
  intros [Hids _ _]. revert Hids. generalize (invitations b). intros l.
  induction l as [|x l IH]; intros Hids; cbn; [constructor|].
  rewrite fmap_cons in Hids. apply NoDup_cons in Hids as [Hx Hids].
  apply insert_by_sorted.
  - intros. apply bytes_cmp_antisym.
  - intros a b' c. apply bytes_cmp_trans.
  - change (foldr _ _ l) with (sort_by (fun l r => bytes_cmp (i_id l) (i_id r)) l).
    rewrite sort_by_perm. apply Forall_forall. intros y Hy He. apply bytes_cmp_eq in He.
    apply Hx. rewrite He. apply list_elem_of_fmap. eauto.
  - by apply IH.
Qed.

(** The book as its checkpoint orders it. *)
Definition canonical_book (b : InvitationBook) : InvitationBook :=
  mkBook (book_group_id b) (sort_by (fun l r => bytes_cmp (i_id l) (i_id r)) (invitations b)).

Lemma canonical_perm b : invitations (canonical_book b) ≡ₚ invitations b.
Proof. apply sort_by_perm. Qed.

Lemma canonical_records b : book_inv b -> Forall (record_ok (book_group_id b)) (invitations (canonical_book b)).
Proof. intros Hi. rewrite canonical_perm. apply Hi. Qed.

Lemma book_checkpoint b :
  book_inv b -> len (book_group_id b) = GROUP_ID_LEN ->
  exists bs, book_encode_state b = Ok bs /\ book_decode_state bs (book_group_id b) = Ok (canonical_book b).
Proof.
  intros Hi Hg. pose proof (canonical_records b Hi) as Hok. pose proof (len_perm _ _ (canonical_perm b)) as Hlen.
  destruct (gput_many_fits (put_item := put_record) (invitations (canonical_book b))) as [recs Hrecs].
  { eapply Forall_impl; [exact Hok|]. apply put_record_fits. }
  pose proof (bi_count b Hi) as Hc. pose proof (len_nonneg (invitations b)) as Hn.
  unfold MAX_INVITATION_RECORDS in *. eexists _. split.
  - unfold book_encode_state, u8_try_from, MAX_INVITATION_RECORDS.
    replace (len (invitations b) <=? u8_max) with true by (symmetry; apply Z.leb_le; unfold u8_max; lia).
    cbn [ok_or mbind result_bind].
    rewrite Z.gtb_ltb, (proj2 (Z.ltb_ge _ _)) by lia. change (sort_by _ (invitations b)) with (invitations (canonical_book b)).
    rewrite Hrecs. cbn. done.
  - unfold book_decode_state. rewrite starts_with_app. cbn [negb]. rewrite drop_app_length.
    rewrite gtake_app by done. cbn [mbind result_bind]. unfold group_id_try_from.
    rewrite to_array_len by done. cbn [ok_or mbind result_bind]. rewrite bool_decide_eq_true_2 by done.
    cbn [negb app]. rewrite gtake_byte_app. cbn [mbind result_bind].
    rewrite byte_val_of, Z.mod_small by lia. unfold MAX_INVITATION_RECORDS.
    rewrite Z.gtb_ltb, (proj2 (Z.ltb_ge _ _)) by lia.
    rewrite <- Hlen, to_nat_len, <- (app_nil_r recs).
    pose proof (take_records_put (book_group_id b) _ None recs [] Hok (sorted_records b Hi) I Hrecs) as Ht.
    unfold GroupId, InvitationId in *. rewrite Ht. done.
Qed.

(** It has the same records. *)
Lemma canonical_record b id : book_inv b -> record_of (canonical_book b) id = record_of b id.
Proof.
  intros Hi. pose proof (canonical_perm b) as Hperm.
  assert (NoDup (i_id <$> invitations (canonical_book b))) as Hnd by (rewrite Hperm; apply Hi).
  destruct (record_of b id) as [i|] eqn:E.
  - pose proof (record_of_id _ _ _ E) as <-. apply record_of_in in E. rewrite <- Hperm in E. by apply in_record_of.
  - destruct (record_of (canonical_book b) id) as [i|] eqn:E'; [|done].
    pose proof (record_of_id _ _ _ E') as <-. apply record_of_in in E'. rewrite Hperm in E'.
    apply in_record_of in E'; [congruence|apply Hi].
Qed.

(** The invitation checkpoint restores every record: the book of any run
    encodes (it never exceeds 32 records), and decoding the checkpoint for its
    group gives a book with exactly the same records, in the canonical order of
    their identifiers, whatever order they arrived in. *)
Lemma invitation_book_restores g ops :
  len g = GROUP_ID_LEN -> Forall book_op_wf ops ->
  let b := book_run (book_new g) ops in
  exists bs b', book_encode_state b = Ok bs /\ book_decode_state bs g = Ok b' /\
    invitations b' ≡ₚ invitations b /\ StronglySorted id_lt (invitations b') /\
    forall id, record_of b' id = record_of b id.
Proof.
  intros Hg Hwf. cbv zeta. destruct (book_inv_run g ops Hwf) as [Hi Hbg]. set (b := book_run _ ops) in *.
  destruct (book_checkpoint b Hi) as (bs & He & Hd); [by rewrite Hbg|]. rewrite Hbg in Hd.
  exists bs, (canonical_book b). split_and!; [done|done|apply canonical_perm|by apply sorted_records|].
  intros id. by apply canonical_record.
Qed.

