(* ===== verification/GroupPayload.v ===== *)
(** * GroupPayload: the inner payload of a group envelope
    ([tacenta-group/src/payload.rs])

    One tag selects which of the five canonical codecs reads the rest. *)

From S2P Require Import Prelude GroupCodec Invitation.

Definition GROUP_PAYLOAD_DOMAIN : bytes := bstr "Tacenta Group Payload v1".
Definition APPLICATION_TAG : byte := x01.
Definition ROSTER_TAG : byte := x02.
Definition INVITATION_BOOTSTRAP_TAG : byte := x03.
Definition INVITATION_ACCEPTANCE_TAG : byte := x04.
Definition INVITATION_REVOCATION_TAG : byte := x05.
Definition MAX_GROUP_PAYLOAD_LEN : Z := 8192.

Arguments GROUP_PAYLOAD_DOMAIN : simpl never.

Inductive GroupPayload :=
| PApplication (c : ApplicationContext)
| PRoster (r : Roster)
| PBootstrap (b : InvitationBootstrap)
| PAcceptance (a : InvitationAcceptance)
| PRevocation (v : InvitationRevocation).

(** The tag and the value of a payload. *)
Definition payload_value (p : GroupPayload) : result Error (byte * bytes) :=
  match p with
  | PApplication c => v ← context_encode c; Ok (APPLICATION_TAG, v)
  | PRoster r => v ← roster_encode r; Ok (ROSTER_TAG, v)
  | PBootstrap b => v ← bootstrap_encode b; Ok (INVITATION_BOOTSTRAP_TAG, v)
  | PAcceptance a => v ← acceptance_encode a; Ok (INVITATION_ACCEPTANCE_TAG, v)
  | PRevocation r => v ← revocation_encode r; Ok (INVITATION_REVOCATION_TAG, v)
  end.

Definition payload_encode (p : GroupPayload) : result Error bytes :=
  '(tag, value) ← payload_value p;
  length ← ok_or Malformed (u32_try_from (len value));
  let out := GROUP_PAYLOAD_DOMAIN ++ [tag] ++ be32 length ++ value in
  if len out >? MAX_GROUP_PAYLOAD_LEN then Err Malformed else
  Ok out.

Definition payload_decode (bs : bytes) : result Error GroupPayload :=
  if (len bs >? MAX_GROUP_PAYLOAD_LEN) || negb (starts_with GROUP_PAYLOAD_DOMAIN bs)
  then Err Malformed else
  let cursor := drop (length GROUP_PAYLOAD_DOMAIN) bs in
  match cursor with
  | [] => Err Malformed
  | tag :: cursor =>
      '(length, value) ← ok_or Malformed (split_at_checked 4 cursor);
      a ← ok_or Malformed (to_array 4 length);
      if negb (len value =? be_value a) then Err Malformed else
      if bool_decide (tag = APPLICATION_TAG) then c ← context_decode value; Ok (PApplication c)
      else if bool_decide (tag = ROSTER_TAG) then r ← roster_decode value; Ok (PRoster r)
      else if bool_decide (tag = INVITATION_BOOTSTRAP_TAG) then
        b ← bootstrap_decode value; Ok (PBootstrap b)
      else if bool_decide (tag = INVITATION_ACCEPTANCE_TAG) then
        a ← acceptance_decode value; Ok (PAcceptance a)
      else if bool_decide (tag = INVITATION_REVOCATION_TAG) then
        v ← revocation_decode value; Ok (PRevocation v)
      else Err Malformed
  end.

(** The ranges of the Rust types. *)
Definition payload_wf (p : GroupPayload) : Prop :=
  match p with
  | PApplication c => context_wf c
  | PRoster r => roster_wf r
  | PBootstrap b => bootstrap_wf b
  | PAcceptance a => acceptance_wf a
  | PRevocation v => revocation_wf v
  end.

(** The value of a payload under its tag, as the decoder dispatches it. *)
Definition dispatch (tag : byte) (value : bytes) : result Error GroupPayload :=
  if bool_decide (tag = APPLICATION_TAG) then c ← context_decode value; Ok (PApplication c)
  else if bool_decide (tag = ROSTER_TAG) then r ← roster_decode value; Ok (PRoster r)
  else if bool_decide (tag = INVITATION_BOOTSTRAP_TAG) then
    b ← bootstrap_decode value; Ok (PBootstrap b)
  else if bool_decide (tag = INVITATION_ACCEPTANCE_TAG) then
    a ← acceptance_decode value; Ok (PAcceptance a)
  else if bool_decide (tag = INVITATION_REVOCATION_TAG) then
    v ← revocation_decode value; Ok (PRevocation v)
  else Err Malformed.

Lemma dispatch_value tag value p :
  dispatch tag value = Ok p <-> payload_wf p /\ payload_value p = Ok (tag, value).
Proof.
  unfold dispatch. split.
  - intros H. repeat (case_bool_decide; [subst tag; inv_bind|]); [..|done].
    all: match goal with
      | H : context_decode _ = _ |- _ => apply context_decode_encode in H as [? H]
      | H : roster_decode _ = _ |- _ => apply roster_decode_encode in H as [? H]
      | H : bootstrap_decode _ = _ |- _ => apply bootstrap_decode_encode in H as [? H]
      | H : acceptance_decode _ = _ |- _ => apply acceptance_decode_encode in H as [? H]
      | H : revocation_decode _ = _ |- _ => apply revocation_decode_encode in H as [? H]
      end; cbn [payload_wf payload_value]; split; [done|]; by gput_fwd.
  - intros [Hwf H]. destruct p; cbn [payload_wf payload_value] in *; inv_bind; cbn.
    + by rewrite (proj2 (context_decode_encode _ _) (conj Hwf E)).
    + by rewrite (proj2 (roster_decode_encode _ _) (conj Hwf E)).
    + by rewrite (proj2 (bootstrap_decode_encode _ _) (conj Hwf E)).
    + by rewrite (proj2 (acceptance_decode_encode _ _) (conj Hwf E)).
    + by rewrite (proj2 (revocation_decode_encode _ _) (conj Hwf E)).
Qed.

(** The codec, in both directions. *)
Lemma payload_decode_encode bs p :
  payload_decode bs = Ok p <-> payload_wf p /\ payload_encode p = Ok bs.
Proof.
  unfold payload_decode, payload_encode. split.
  - intros H. destruct (len bs >? MAX_GROUP_PAYLOAD_LEN) eqn:Gl; cbn [orb] in H; [done|].
    destruct (starts_with GROUP_PAYLOAD_DOMAIN bs) eqn:Gs; cbn [negb] in H; [|done].
    apply starts_with_true in Gs as [rest ->]. rewrite drop_app_length in H. cbv zeta in H.
    destruct rest as [|tag cursor]; [done|].
    destruct (split_at_checked 4 cursor) as [[l value]|] eqn:E; [|done]. cbn [ok_or mbind result_bind] in H.
    apply split_at_checked_Some in E as [-> Hl]; [|done].
    rewrite to_array_len in H by done. cbn [ok_or mbind result_bind] in H.
    destruct (len value =? be_value l) eqn:Ev; cbn [negb] in H; [|done]. apply Z.eqb_eq in Ev.
    change (dispatch tag value = Ok p) in H. apply dispatch_value in H as [Hwf Hv]. split; [done|].
    rewrite Hv. cbn [mbind result_bind]. pose proof (be_value_range l) as Hr. rewrite Hl in Hr.
    change (256 ^ 4) with 4294967296 in Hr. unfold u32_try_from.
    replace (len value <=? u32_max) with true by (symmetry; apply Z.leb_le; unfold u32_max; lia).
    cbn [ok_or mbind result_bind]. rewrite Ev, be_bytes_be_value by (unfold len in Hl; lia).
    change ([tag] ++ l ++ value) with (tag :: l ++ value). by rewrite Gl.
  - intros [Hwf H]. destruct (payload_value p) as [[tag value]|] eqn:Ev; [|done].
    cbn [mbind result_bind] in H. unfold u32_try_from in H.
    destruct (len value <=? u32_max) eqn:El; cbn [ok_or mbind result_bind] in H; [|done].
    bool_prop. destruct (_ >? _) eqn:Gl in H; [done|]. inv_bind.
    rewrite Gl, starts_with_app. cbn [orb negb]. rewrite drop_app_length. cbv zeta. cbn [app].
    rewrite split_at_checked_app by (by rewrite len_be_bytes). cbn [ok_or mbind result_bind].
    rewrite to_array_len by (by rewrite len_be_bytes). cbn [ok_or mbind result_bind].
    rewrite be_value_be_bytes, Z.eqb_refl. 2: { change (256 ^ Z.of_nat 4) with 4294967296. unfold u32_max in *. len_lia. }
    cbn [negb]. change (dispatch tag value = Ok p). by apply dispatch_value.
Qed.

(** Group payloads are canonical end to end: a byte string decodes to a
    group payload exactly when that payload is in range and encodes to those
    bytes.  This holds for all five kinds (application message, roster,
    invitation bootstrap, acceptance and revocation), so an authenticated
    plaintext has one reading and a reading one plaintext, and everything
    malformed, over-long or non-canonical at any level is refused. *)
Lemma payload_codec_exact bs p :
  payload_decode bs = Ok p <-> payload_wf p /\ payload_encode p = Ok bs.
Proof. apply payload_decode_encode. Qed.
