(* ===== verification/RosterView.v ===== *)
(** * RosterView: accepted roster progression
    ([tacenta-group/src/roster_view.rs])

    The roster a device has accepted, and when a successor may replace it.  The
    roster commitment is a cryptographic helper outside the crate; the source
    takes it as a closure, the model as an argument. *)

From S2P Require Import Prelude GroupCodec.

Definition ROSTER_VIEW_STATE_DOMAIN : bytes := bstr "Tacenta Group Roster View State v1".
Arguments ROSTER_VIEW_STATE_DOMAIN : simpl never.

Inductive RosterRefusal :=
| WrongAuthority | WrongGroup | RInvalidGenesis | InvalidSource | RStaleRevision
| MissingPredecessor | RConflict | AuthorityTransfer | PolicyChange | Reopened
| MissingAuthorityMember.

Inductive RosterDisposition := RosterAccepted | RosterDuplicate | RosterRejected (r : RosterRefusal).

#[global] Instance RosterRefusal_eq_dec : EqDecision RosterRefusal.
Proof. solve_decision. Defined.
#[global] Instance RosterDisposition_eq_dec : EqDecision RosterDisposition.
Proof. solve_decision. Defined.

Record RosterView := mkView { v_roster : Roster; v_digest : bytes }.

#[global] Instance RosterView_eq_dec : EqDecision RosterView.
Proof. solve_decision. Defined.

(** [members.iter().any(|member| member == m)]. *)
Definition has_member (r : Roster) (m : Member) : bool :=
  existsb (fun known => bool_decide (known = m)) (members r).

Definition accept_genesis (authenticated_authority : Member) (r : Roster) (digest : bytes)
    : result RosterRefusal RosterView :=
  if negb (bool_decide (authenticated_authority = authority r)) then Err WrongAuthority else
  if negb (revision r =? 0) || negb (bool_decide (predecessor_digest r = zero_digest)) || closed r
     || negb (bool_decide (members r = [authority r]))
  then Err RInvalidGenesis else
  Ok (mkView r digest).

Definition accept_source (authenticated_authority : Member) (r : Roster) (digest : bytes)
    : result RosterRefusal RosterView :=
  if negb (bool_decide (authenticated_authority = authority r)) then Err WrongAuthority else
  if revision r =? 0 then accept_genesis authenticated_authority r digest else
  if closed r then Err InvalidSource else
  if negb (has_member r (authority r)) then Err MissingAuthorityMember else
  Ok (mkView r digest).

Definition view_encode_state (v : RosterView) : result Error bytes :=
  roster ← roster_encode (v_roster v);
  n ← ok_or Malformed (u32_try_from (len roster));
  Ok (ROSTER_VIEW_STATE_DOMAIN ++ be32 n ++ roster ++ v_digest v).

Definition view_decode_state (bs : bytes) (pinned_authority : Member) (roster_commitment : bytes -> bytes)
    : result RosterRefusal RosterView :=
  if negb (starts_with ROSTER_VIEW_STATE_DOMAIN bs) then Err RInvalidGenesis else
  let cursor := drop (length ROSTER_VIEW_STATE_DOMAIN) bs in
  '(length, cursor) ← ok_or RInvalidGenesis (split_at_checked 4 cursor);
  a ← ok_or RInvalidGenesis (to_array 4 length);
  '(roster_bytes, digest) ← ok_or RInvalidGenesis (split_at_checked (be_value a) cursor);
  if negb (len digest =? DIGEST_LEN) then Err RInvalidGenesis else
  roster ← map_err RInvalidGenesis (roster_decode roster_bytes);
  digest ← ok_or RInvalidGenesis (to_array DIGEST_LEN digest);
  if negb (bool_decide (authority roster = pinned_authority)) then Err WrongAuthority else
  if negb (bool_decide (digest = roster_commitment roster_bytes)) then Err RConflict else
  if revision roster =? 0 then accept_genesis pinned_authority roster digest else
  if negb (has_member roster pinned_authority) then Err MissingAuthorityMember else
  Ok (mkView roster digest).

Definition is_active (v : RosterView) (m : Member) : bool :=
  negb (closed (v_roster v)) && has_member (v_roster v) m.

Definition accept_successor (v : RosterView) (authenticated_authority : Member) (candidate : Roster)
    (digest : bytes) : RosterView * RosterDisposition :=
  let r := v_roster v in
  if negb (bool_decide (authenticated_authority = authority r)) then (v, RosterRejected WrongAuthority) else
  if negb (bool_decide (r_group_id candidate = r_group_id r)) then (v, RosterRejected WrongGroup) else
  if negb (bool_decide (authority candidate = authority r)) then (v, RosterRejected AuthorityTransfer) else
  if negb (policy_version candidate =? policy_version r) then (v, RosterRejected PolicyChange) else
  if negb (has_member candidate (authority candidate)) then (v, RosterRejected MissingAuthorityMember) else
  if revision candidate <? revision r then (v, RosterRejected RStaleRevision) else
  if revision candidate =? revision r then
    (v, if bool_decide (candidate = r) && bool_decide (digest = v_digest v)
        then RosterDuplicate else RosterRejected RConflict)
  else
  if negb (revision candidate =? saturating_add64 (revision r) 1)
     || negb (bool_decide (predecessor_digest candidate = v_digest v))
  then (v, RosterRejected MissingPredecessor) else
  if closed r && negb (closed candidate) then (v, RosterRejected Reopened) else
  (mkView candidate digest, RosterAccepted).

(** ** Runs of offered rosters *)
Definition Offer : Type := Member * Roster * bytes.

Definition offer_step (v : RosterView) (o : Offer) : RosterView * RosterDisposition :=
  let '(auth, candidate, digest) := o in accept_successor v auth candidate digest.

(** The view after a run, and the accepted rosters in order. *)
Fixpoint offers_run (v : RosterView) (offers : list Offer) : RosterView * list RosterView :=
  match offers with
  | [] => (v, [])
  | o :: offers =>
      let '(v', d) := offer_step v o in
      let '(v'', accepted) := offers_run v' offers in
      (v'', if decide (d = RosterAccepted) then v' :: accepted else accepted)
  end.

(** [successor v v']: [v'] may follow [v]. *)
Definition successor (v v' : RosterView) : Prop :=
  let r := v_roster v in let r' := v_roster v' in
  revision r' = revision r + 1 /\ predecessor_digest r' = v_digest v /\
  r_group_id r' = r_group_id r /\ authority r' = authority r /\
  policy_version r' = policy_version r /\ has_member r' (authority r') = true /\
  (closed r = true -> closed r' = true).

(** [chain v vs]: [vs] follow one another from [v]. *)
Fixpoint chain (v : RosterView) (vs : list RosterView) : Prop :=
  match vs with
  | [] => True
  | v' :: vs => successor v v' /\ chain v' vs
  end.

(** The last of them. *)
Fixpoint latest (v : RosterView) (vs : list RosterView) : RosterView :=
  match vs with [] => v | v' :: vs => latest v' vs end.

(** ** Lemmas *)
Lemma accept_successor_cases v auth candidate digest v' d :
  accept_successor v auth candidate digest = (v', d) ->
  (d = RosterAccepted /\ v' = mkView candidate digest /\ auth = authority (v_roster v) /\ successor v v') \/
  (d <> RosterAccepted /\ v' = v).
Proof.
  unfold accept_successor. intros H.
  repeat (case_match; [simplify_eq; right; split; [try case_match; done|done]|]).
  simplify_eq. left. bool_prop. split_and!; try done. unfold successor. cbn.
  unfold saturating_add64 in *. split_and!; try done; [lia|].
  destruct (closed (v_roster v)); cbn in *; by bool_prop.
Qed.

Lemma offers_run_chain v offers v' accepted :
  offers_run v offers = (v', accepted) ->
  chain v accepted /\ v' = latest v accepted /\
  Forall (fun a => exists d, (authority (v_roster v), v_roster a, d) ∈ offers /\ v_digest a = d) accepted.
Proof.
  revert v v' accepted. induction offers as [|[[auth candidate] digest] offers IH]; intros v v' accepted H;
    cbn in H; [simplify_eq; split_and!; [done|done|constructor]|].
  destruct (accept_successor v auth candidate digest) as [v1 d] eqn:E.
  destruct (offers_run v1 offers) as [v2 acc] eqn:Er. simplify_eq.
  apply accept_successor_cases in E. destruct (IH _ _ _ Er) as (Hc & Hl & Hf).
  destruct E as [(-> & -> & -> & Hs)|[Hd ->]].
  - rewrite decide_True by done. split_and!.
    + by split.
    + done.
    + constructor; [exists digest; split; [by left|done]|].
      eapply Forall_impl; [exact Hf|]. intros a (d & Hin & Hd). exists d. split; [|done]. right.
      destruct Hs as (_ & _ & _ & Ha & _). cbn in Ha, Hin. by rewrite Ha in Hin.
  - rewrite decide_False by done. split_and!; [done|done|].
    eapply Forall_impl; [exact Hf|]. intros a (d' & Hin & Hd'). exists d'. split; [by right|done].
Qed.

(** What a chain keeps from its start to its end. *)
Lemma chain_keeps v vs :
  chain v vs ->
  let r := v_roster v in let r' := v_roster (latest v vs) in
  revision r' = revision r + len vs /\ r_group_id r' = r_group_id r /\
  authority r' = authority r /\ policy_version r' = policy_version r /\
  (closed r = true -> closed r' = true) /\
  (has_member r (authority r) = true -> has_member r' (authority r') = true).
Proof.
  revert v. induction vs as [|v' vs IH]; intros v; cbn [chain latest].
  - intros _. cbv zeta. split_and!; try done. unfold len. cbn. lia.
  - intros [(H1 & H2 & H3 & H4 & H5 & H6 & H7) Hc]. cbv zeta.
    destruct (IH v' Hc) as (I1 & I2 & I3 & I4 & I5 & I6).
    split_and!; [rewrite len_cons; lia|congruence|congruence|congruence|tauto|tauto].
Qed.

(** *** The checkpoint *)
Definition view_ok (commit : bytes -> bytes) (pinned : Member) (v : RosterView) : Prop :=
  roster_wf (v_roster v) /\ len (v_digest v) = DIGEST_LEN /\ authority (v_roster v) = pinned /\
  has_member (v_roster v) pinned = true /\
  forall bs, roster_encode (v_roster v) = Ok bs -> v_digest v = commit bs.

Lemma has_member_true r m : has_member r m = true <-> m ∈ members r.
Proof.
  unfold has_member. rewrite existsb_exists. split.
  - intros (x & Hx & H). bool_prop. subst. by apply list_elem_of_In.
  - intros H. exists m. split; [by apply list_elem_of_In|by apply bool_decide_eq_true_2].
Qed.

Lemma accept_genesis_valid a r d :
  roster_valid r -> revision r = 0 -> a = authority r -> accept_genesis a r d = Ok (mkView r d).
Proof.
  intros Hv H0 ->. destruct (rv_genesis r Hv H0) as (Hp & Hc & Hm). unfold accept_genesis.
  rewrite H0, Hp, Hc, Hm. by rewrite !bool_decide_eq_true_2.
Qed.

Lemma accept_genesis_Ok a r d v :
  accept_genesis a r d = Ok v -> v = mkView r d /\ a = authority r /\ has_member r (authority r) = true.
Proof.
  unfold accept_genesis. intros H. inv_bind. bool_prop. split_and!; try done.
  apply has_member_true. match goal with H : members r = _ |- _ => rewrite H end. by left.
Qed.

Lemma roster_encode_valid r bs : roster_wf r -> roster_encode r = Ok bs -> roster_valid r.
Proof. intros Hwf H. apply roster_encode_Ok; eauto. Qed.

(** The checkpoint, read. *)
Lemma view_decode_exact commit pinned bs v :
  view_decode_state bs pinned commit = Ok v <->
  view_ok commit pinned v /\ view_encode_state v = Ok bs.
Proof.
  unfold view_decode_state, view_encode_state. split.
  - intros H.
    destruct (starts_with ROSTER_VIEW_STATE_DOMAIN bs) eqn:Gs; cbn [negb] in H; [|done].
    apply starts_with_true in Gs as [rest ->]. rewrite drop_app_length in H. cbv zeta in H. inv_bind.
    apply split_at_checked_Some in E0 as [-> Hl]; [|done]. apply to_array_Some in E3 as [-> _].
    pose proof (be_value_range l) as Hr. rewrite Hl in Hr. change (256 ^ 4) with 4294967296 in Hr.
    apply split_at_checked_Some in E2 as [-> Hl1]; [|lia]. apply to_array_Some in E4 as [-> Hd].
    bool_prop. apply roster_decode_encode in E5 as [Hwf Henc].
    assert (v = mkView a0 l2 /\ has_member a0 pinned = true) as [-> Hm].
    { destruct (revision a0 =? 0).
      - apply accept_genesis_Ok in H as (-> & -> & Hm). done.
      - inv_bind. by bool_prop. }
    cbn [v_roster v_digest]. split.
    + split_and!; cbn; try done. intros bs Hbs. congruence.
    + rewrite Henc. cbn [mbind result_bind]. unfold u32_try_from.
      replace (len l1 <=? u32_max) with true by (symmetry; apply Z.leb_le; unfold u32_max; lia).
      cbn [ok_or mbind result_bind]. rewrite Hl1, be_bytes_be_value; [done|]. unfold len in Hl. lia.
  - intros [(Hwf & Hd & Ha & Hm & Hc) H].
    destruct (roster_encode (v_roster v)) as [rb|] eqn:Er; [|done]. cbn [mbind result_bind] in H.
    pose proof (roster_encode_bound _ _ Hwf Er) as Hb. unfold MAX_ROSTER_LEN in Hb.
    pose proof (len_nonneg rb) as Hn. unfold u32_try_from in H.
    replace (len rb <=? u32_max) with true in H by (symmetry; apply Z.leb_le; unfold u32_max; lia).
    cbn [ok_or mbind result_bind] in H. inv_bind.
    rewrite starts_with_app. cbn [negb]. rewrite drop_app_length. cbv zeta.
    rewrite split_at_checked_app by (by rewrite len_be_bytes). cbn [ok_or mbind result_bind].
    rewrite to_array_len by (by rewrite len_be_bytes). cbn [ok_or mbind result_bind].
    rewrite be_value_be_bytes by (change (256 ^ Z.of_nat 4) with 4294967296; lia).
    rewrite split_at_checked_app by done. cbn [ok_or mbind result_bind].
    rewrite Hd, Z.eqb_refl. cbn [negb]. rewrite (proj2 (roster_decode_encode rb (v_roster v))) by done.
    cbn [map_err mbind result_bind]. rewrite to_array_len by done. cbn [ok_or mbind result_bind].
    rewrite !bool_decide_eq_true_2 by (done || by apply Hc). cbn [negb]. rewrite Hm. cbn [negb].
    destruct (Z.eqb_spec (revision (v_roster v)) 0) as [H0|]; [|by destruct v].
    rewrite accept_genesis_valid; [by destruct v|by eapply roster_encode_valid|done|done].
Qed.

(** ** Properties *)

(** C37. Accepted rosters form one hash chain: whatever rosters are offered, by
    whomever, the ones a view accepts follow one another: each has the next
    revision, names the digest accepted before it, keeps the group, the
    authority and the policy, lists its authority and never reopens a closed
    group; each was offered by the view's own authority; and the view is the
    last of them.  So a fork, a replay, a gap, an authority transfer or a
    reopening is never installed. *)
Theorem roster_chain v offers v' accepted :
  offers_run v offers = (v', accepted) ->
  chain v accepted /\ v' = latest v accepted /\
  Forall (fun a => (authority (v_roster v), v_roster a, v_digest a) ∈ offers) accepted /\
  revision (v_roster v') = revision (v_roster v) + len accepted /\
  authority (v_roster v') = authority (v_roster v) /\
  (closed (v_roster v) = true -> closed (v_roster v') = true).
Proof.
  intros H. apply offers_run_chain in H as (Hc & -> & Hf).
  pose proof (chain_keeps v accepted Hc) as (H1 & _ & H3 & _ & H5 & _).
  split_and!; try done. eapply Forall_impl; [exact Hf|]. intros a (d & Hin & ->). done.
Qed.

(** A view and its successor for the witness. *)
Definition first_view : RosterView := mkView genesis (replicate 32 x09).
Definition second_roster : Roster :=
  mkRoster (replicate 16 x07) 1 (replicate 32 x09) ana POLICY_VERSION_V1 false
    [ana; mkMember (bstr "bea") (bstr "d1")].

Lemma roster_chain_witness :
  let offers := [(ana, second_roster, replicate 32 x0a); (ana, second_roster, replicate 32 x0b)] in
  let v' := mkView second_roster (replicate 32 x0a) in
  chain first_view [v'] /\ v' = latest first_view [v'] /\
  Forall (fun a => (authority (v_roster first_view), v_roster a, v_digest a) ∈ offers) [v'] /\
  revision (v_roster v') = revision (v_roster first_view) + len [v'] /\
  authority (v_roster v') = authority (v_roster first_view) /\
  (closed (v_roster first_view) = true -> closed (v_roster v') = true).
Proof. by apply roster_chain. Defined.

(** A roster checkpoint restores exactly what it may: for any commitment
    function and pinned authority, a byte string restores to a view exactly
    when it is that view's checkpoint and the view's roster is in range, has
    the pinned authority as its authority and among its members, and carries
    the commitment of its own preimage as digest.  So a checkpoint whose roster
    or digest was altered, or that another authority made, never loads. *)
Lemma roster_view_restores commit pinned bs v :
  view_decode_state bs pinned commit = Ok v <->
  view_ok commit pinned v /\ view_encode_state v = Ok bs.
Proof. apply view_decode_exact. Qed.
