(* ===== verification/GroupReceive.v ===== *)
(** * GroupReceive: receive dispositions ([tacenta-group/src/receive.rs])

    What a device does with each authenticated application context: accept it
    with a stable event identifier, recognise a duplicate, defer it until a
    roster ahead arrives, or refuse it.  The receiver's checkpoint is at the
    end; both commitments it checks are closures in the source and arguments
    here.  A dedup window of 64 sequences per sender is kept; the theorems
    compare it with a log that forgets nothing. *)

From S2P Require Import Prelude GroupCodec.

Definition DEDUP_WINDOW : Z := 64.
Definition FUTURE_REVISIONS : Z := 2.
Definition MAX_DEFERRED : Z := 4.
Definition MAX_DEFERRED_UNLISTED : Z := 2.
Definition RECEIVER_STATE_DOMAIN : bytes := bstr "Tacenta Group Receiver State v1".
Definition MAX_RECEIVER_STATE_LEN : Z := 262144.
Arguments RECEIVER_STATE_DOMAIN : simpl never.

Inductive ReceiveRefusal :=
| FMalformed | FWrongPeer | FWrongGroup | FWrongRecipient | FNotActive | FOldRevision
| FInvalidRoster | FFutureOutOfRange | FSequenceExpired | FConflict | FDeferredFull.

Inductive ReceiveDisposition :=
| DAccepted (event_id : Z)
| DDuplicate (event_id : Z)
| DDeferred
| DRejected (r : ReceiveRefusal).

Inductive ReceiverStatus := SActive | SNotMember | SClosed.

#[global] Instance ReceiveRefusal_eq_dec : EqDecision ReceiveRefusal.
Proof. solve_decision. Defined.
#[global] Instance ReceiveDisposition_eq_dec : EqDecision ReceiveDisposition.
Proof. solve_decision. Defined.

Record RevalidatedReceive := mkRevalidated {
  rr_context : ApplicationContext;
  rr_commitment : bytes;
  rr_disposition : ReceiveDisposition
}.

Record Key := mkKey { k_group_id : GroupId; k_revision : Z; k_sender : Member; k_sequence : Z }.

#[global] Instance Key_eq_dec : EqDecision Key.
Proof. solve_decision. Defined.

Record Accepted := mkAccepted { a_key : Key; a_commitment : bytes; a_event_id : Z }.
Record Deferred := mkDeferred { d_context : ApplicationContext; d_commitment : bytes }.

Record GroupReceiver := mkReceiver {
  g_roster : Roster;
  g_roster_digest : bytes;
  g_local : Member;
  g_accepted : list Accepted;
  g_deferred : list Deferred;
  next_event_id : Z
}.

Definition receiver_new (r : Roster) (digest : bytes) (local : Member) : GroupReceiver :=
  mkReceiver r digest local [] [] 0.

Definition events_issued (g : GroupReceiver) : Z := next_event_id g.

(** [roster.members.iter().any(|member| member == m)]. *)
Definition lists_member (r : Roster) (m : Member) : bool :=
  existsb (fun known => bool_decide (known = m)) (members r).

Definition roster_active (r : Roster) (m : Member) : bool := negb (closed r) && lists_member r m.

Definition receiver_is_active (g : GroupReceiver) (m : Member) : bool := roster_active (g_roster g) m.

Definition receiver_status (g : GroupReceiver) : ReceiverStatus :=
  if closed (g_roster g) then SClosed
  else if receiver_is_active g (g_local g) then SActive
  else SNotMember.

(** The loop over the deferred contexts, with its early return. *)
Fixpoint unlisted_loop (active : Member -> bool) (held : Z) (items : list Deferred) (s : Member) : bool :=
  match items with
  | [] => held <? MAX_DEFERRED_UNLISTED
  | item :: items =>
      let from := sender (d_context item) in
      if active from then unlisted_loop active held items s
      else if bool_decide (m_identity from = m_identity s) then false
      else unlisted_loop active (held + 1) items s
  end.

Definition unlisted_slot_is_open_to (g : GroupReceiver) (s : Member) : bool :=
  unlisted_loop (receiver_is_active g) 0 (g_deferred g) s.

Definition with_accepted (g : GroupReceiver) (l : list Accepted) (next : Z) : GroupReceiver :=
  mkReceiver (g_roster g) (g_roster_digest g) (g_local g) l (g_deferred g) next.

Definition with_deferred (g : GroupReceiver) (l : list Deferred) : GroupReceiver :=
  mkReceiver (g_roster g) (g_roster_digest g) (g_local g) (g_accepted g) l (next_event_id g).

(** The items of one sender and revision. *)
Definition same_window (k : Key) (a : Accepted) : Prop :=
  k_sender (a_key a) = k_sender k /\ k_revision (a_key a) = k_revision k.

Definition accept_current (g : GroupReceiver) (k : Key) (commitment : bytes)
    : GroupReceiver * ReceiveDisposition :=
  match list_find (fun a => a_key a = k) (g_accepted g) with
  | Some (_, existing) =>
      (g, if bool_decide (a_commitment existing = commitment)
          then DDuplicate (a_event_id existing) else DRejected FConflict)
  | None =>
      let newest := max_of ((fun a => k_sequence (a_key a)) <$>
        filter (fun a => k_sender (a_key a) = k_sender k /\ k_revision (a_key a) = k_revision k)
          (g_accepted g)) in
      if match newest with
         | Some s => saturating_add64 (k_sequence k) DEDUP_WINDOW <=? s
         | None => false
         end
      then (g, DRejected FSequenceExpired)
      else
        let event_id := next_event_id g in
        let pushed := g_accepted g ++ [mkAccepted k commitment event_id] in
        let newest_sequence := Z.max (default (k_sequence k) newest) (k_sequence k) in
        let kept := filter (fun a =>
          k_sender (a_key a) <> k_sender k \/ k_revision (a_key a) <> k_revision k \/
          newest_sequence < saturating_add64 (k_sequence (a_key a)) DEDUP_WINDOW) pushed in
        (with_accepted g kept (saturating_add64 event_id 1), DAccepted event_id)
  end.

(** The key of a context, as [receive] and [defer] build it. *)
Definition context_key (c : ApplicationContext) : Key :=
  mkKey (c_group_id c) (c_revision c) (sender c) (logical_sequence c).

Definition defer (g : GroupReceiver) (c : ApplicationContext) (commitment : bytes)
    : GroupReceiver * ReceiveDisposition :=
  match list_find (fun item => context_key (d_context item) = context_key c) (g_deferred g) with
  | Some (_, existing) =>
      (g, if bool_decide (d_commitment existing = commitment) then DDeferred else DRejected FConflict)
  | None =>
      if len (g_deferred g) =? MAX_DEFERRED then (g, DRejected FDeferredFull) else
      if negb (receiver_is_active g (sender c)) && negb (unlisted_slot_is_open_to g (sender c))
      then (g, DRejected FDeferredFull) else
      (with_deferred g (g_deferred g ++ [mkDeferred c commitment]), DDeferred)
  end.

Definition receive (g : GroupReceiver) (c : ApplicationContext) (authenticated_peer : Member)
    (commitment : bytes) : GroupReceiver * ReceiveDisposition :=
  if negb (bool_decide (authenticated_peer = sender c)) then (g, DRejected FWrongPeer) else
  if negb (bool_decide (c_group_id c = r_group_id (g_roster g))) then (g, DRejected FWrongGroup) else
  if negb (bool_decide (recipient c = g_local g)) then (g, DRejected FWrongRecipient) else
  if negb (receiver_is_active g (g_local g)) then (g, DRejected FNotActive) else
  if c_revision c >? revision (g_roster g) then
    if c_revision c >? saturating_add64 (revision (g_roster g)) FUTURE_REVISIONS
    then (g, DRejected FFutureOutOfRange)
    else defer g c commitment
  else
  if negb (receiver_is_active g (sender c)) then (g, DRejected FNotActive) else
  if c_revision c <? revision (g_roster g) then (g, DRejected FOldRevision) else
  if negb (bool_decide (roster_digest c = g_roster_digest g)) then (g, DRejected FInvalidRoster) else
  accept_current g (context_key c) commitment.

(** The lazy map over the deferred items: each is received in turn by the
    receiver as the items before it left it. *)
Fixpoint revalidate (g : GroupReceiver) (items : list Deferred) : GroupReceiver * list RevalidatedReceive :=
  match items with
  | [] => (g, [])
  | item :: items =>
      let '(g, disposition) := receive g (d_context item) (sender (d_context item)) (d_commitment item) in
      let '(g, rest) := revalidate g items in
      (g, mkRevalidated (d_context item) (d_commitment item) disposition :: rest)
  end.

Definition install_accepted_roster (g : GroupReceiver) (r : Roster) (digest : bytes)
    : GroupReceiver * result ReceiveRefusal (list RevalidatedReceive) :=
  if negb (bool_decide (r_group_id r = r_group_id (g_roster g))) then (g, Err FWrongGroup) else
  let g' := mkReceiver r digest (g_local g) [] [] (next_event_id g) in
  let '(g'', out) := revalidate g' (g_deferred g) in
  (g'', Ok out).

(** ** The checkpoint *)
Definition put_accepted (a : Accepted) : result Error bytes :=
  m ← gput_member (k_sender (a_key a));
  Ok (be64 (k_revision (a_key a)) ++ m ++ be64 (k_sequence (a_key a)) ++ a_commitment a
      ++ be64 (a_event_id a)).

Definition put_deferred (d : Deferred) : result Error bytes :=
  c ← context_encode (d_context d);
  c ← gput_lp c;
  Ok (c ++ d_commitment d).

Definition receiver_encode_state (g : GroupReceiver) : result Error bytes :=
  roster ← roster_encode (g_roster g);
  _ ← member_validate (g_local g);
  roster ← gput_lp roster;
  local ← gput_member (g_local g);
  n ← gput_u32 (len (g_accepted g));
  accepted ← gput_many put_accepted (g_accepted g);
  k ← gput_u32 (len (g_deferred g));
  deferred ← gput_many put_deferred (g_deferred g);
  let out := RECEIVER_STATE_DOMAIN ++ roster ++ g_roster_digest g ++ local ++ be64 (next_event_id g)
             ++ n ++ accepted ++ k ++ deferred in
  if len out >? MAX_RECEIVER_STATE_LEN then Err Malformed else
  Ok out.

(** The body of the loop over the accepted entries, given those before. *)
Definition take_accepted (r : Roster) (next_id : Z) (before : list Accepted) (cursor : bytes)
    : result Error (Accepted * bytes) :=
  '(rev, cursor) ← gtake_u64 cursor;
  '(from, cursor) ← gtake_member cursor;
  '(seq, cursor) ← gtake_u64 cursor;
  '(x, cursor) ← gtake DIGEST_LEN cursor;
  commitment ← digest_try_from x;
  '(id, cursor) ← gtake_u64 cursor;
  if negb (rev =? revision r) || negb (lists_member r from) || (id >=? next_id) then Err Malformed else
  let key := mkKey (r_group_id r) rev from seq in
  if existsb (fun item => bool_decide (a_key item = key)) before
     || existsb (fun item => a_event_id item =? id) before
  then Err Conflict else
  Ok (mkAccepted key commitment id, cursor).

Definition take_deferred (r : Roster) (local : Member) (payload_commitment : bytes -> bytes)
    (before : list Deferred) (cursor : bytes) : result Error (Deferred * bytes) :=
  '(context_bytes, cursor) ← gtake_lp cursor;
  if len context_bytes >? MAX_APPLICATION_CONTEXT_LEN then Err ContextTooLarge else
  c ← context_decode context_bytes;
  '(x, cursor) ← gtake DIGEST_LEN cursor;
  commitment ← digest_try_from x;
  if negb (bool_decide (c_group_id c = r_group_id r)) || negb (bool_decide (recipient c = local))
     || (c_revision c <=? revision r)
     || (c_revision c >? saturating_add64 (revision r) FUTURE_REVISIONS)
     || negb (bool_decide (commitment = payload_commitment context_bytes))
  then Err Conflict else
  if existsb (fun item => bool_decide (context_key (d_context item) = context_key c)) before
  then Err Conflict else
  Ok (mkDeferred c commitment, cursor).

(** [for _ in 0..count { v.push(...) }] where the body sees what was pushed. *)
Section TakeSeq.
Context {A : Type} (take_item : list A -> bytes -> result Error (A * bytes)).
Fixpoint take_seq (count : nat) (before : list A) (cursor : bytes) : result Error (list A * bytes) :=
  match count with
  | O => Ok (before, cursor)
  | S count =>
      '(x, cursor) ← take_item before cursor;
      take_seq count (before ++ [x]) cursor
  end.
End TakeSeq.

(** No two of the unlisted senders have the same identity. *)
Fixpoint one_each (ids : list bytes) : bool :=
  match ids with
  | [] => true
  | i :: ids => negb (bool_decide (i ∈ ids)) && one_each ids
  end.

Definition receiver_decode_state (bs : bytes) (roster_commitment payload_commitment : bytes -> bytes)
    : result Error GroupReceiver :=
  if (len bs >? MAX_RECEIVER_STATE_LEN) || negb (starts_with RECEIVER_STATE_DOMAIN bs)
  then Err Malformed else
  let cursor := drop (length RECEIVER_STATE_DOMAIN) bs in
  '(roster_bytes, cursor) ← gtake_lp cursor;
  if len roster_bytes >? MAX_ROSTER_LEN then Err RosterTooLarge else
  roster ← roster_decode roster_bytes;
  '(x, cursor) ← gtake DIGEST_LEN cursor;
  digest ← digest_try_from x;
  if negb (bool_decide (digest = roster_commitment roster_bytes)) then Err Conflict else
  '(local, cursor) ← gtake_member cursor;
  let terminal := closed roster || negb (lists_member roster local) in
  '(next_id, cursor) ← gtake_u64 cursor;
  '(accepted_count, cursor) ← gtake_u32 cursor;
  if accepted_count >? MAX_MEMBERS * DEDUP_WINDOW then Err Malformed else
  if terminal && negb (accepted_count =? 0) then Err NonCanonical else
  '(accepted, cursor) ← take_seq (take_accepted roster next_id) (Z.to_nat accepted_count) [] cursor;
  '(deferred_count, cursor) ← gtake_u32 cursor;
  if deferred_count >? MAX_DEFERRED then Err Malformed else
  if terminal && negb (deferred_count =? 0) then Err NonCanonical else
  '(deferred, cursor) ←
    take_seq (take_deferred roster local payload_commitment) (Z.to_nat deferred_count) [] cursor;
  let unlisted := filter (fun d => roster_active roster (sender (d_context d)) = false) deferred in
  if (len unlisted >? MAX_DEFERRED_UNLISTED)
     || negb (one_each ((fun d => m_identity (sender (d_context d))) <$> unlisted))
  then Err Conflict else
  match cursor with
  | [] => Ok (mkReceiver roster digest local accepted deferred next_id)
  | _ => Err Malformed
  end.

(** ** Runs

    An input is an authenticated context with its commitment, or a roster the
    control layer accepted.  The log of a run is every acceptance it made. *)
Inductive Input :=
| IReceive (c : ApplicationContext) (peer : Member) (commitment : bytes)
| IInstall (r : Roster) (digest : bytes).

Definition Log : Type := list (Key * bytes * Z).

Definition log_of (c : ApplicationContext) (commitment : bytes) (d : ReceiveDisposition) : Log :=
  match d with DAccepted id => [(context_key c, commitment, id)] | _ => [] end.

Definition input_step (g : GroupReceiver) (i : Input) : GroupReceiver * Log :=
  match i with
  | IReceive c peer commitment =>
      let '(g', d) := receive g c peer commitment in (g', log_of c commitment d)
  | IInstall r digest =>
      match install_accepted_roster g r digest with
      | (g', Ok out) => (g', out ≫= fun x => log_of (rr_context x) (rr_commitment x) (rr_disposition x))
      | (g', Err _) => (g', [])
      end
  end.

Fixpoint inputs_run (g : GroupReceiver) (inputs : list Input) : GroupReceiver * Log :=
  match inputs with
  | [] => (g, [])
  | i :: inputs =>
      let '(g, l) := input_step g i in
      let '(g, l') := inputs_run g inputs in
      (g, l ++ l')
  end.

(** ** The window of a sender *)
(** The newest sequence of a key's sender and revision, and the retention that
    drops what is 64 behind it. *)
Definition newest_of (k : Key) (l : list Accepted) : option Z :=
  max_of ((fun a => k_sequence (a_key a)) <$>
    filter (fun a => k_sender (a_key a) = k_sender k /\ k_revision (a_key a) = k_revision k) l).

Definition retained (k : Key) (newest : Z) (l : list Accepted) : list Accepted :=
  filter (fun a =>
    k_sender (a_key a) <> k_sender k \/ k_revision (a_key a) <> k_revision k \/
    newest < saturating_add64 (k_sequence (a_key a)) DEDUP_WINDOW) l.

Definition newest_with (k : Key) (l : list Accepted) : Z :=
  Z.max (default (k_sequence k) (newest_of k l)) (k_sequence k).

Lemma newest_of_Some k l m : newest_of k l = Some m ->
  (exists a, a ∈ l /\ same_window k a /\ k_sequence (a_key a) = m) /\
  forall a, a ∈ l -> same_window k a -> k_sequence (a_key a) <= m.
Proof.
  unfold newest_of. intros [Hin Hle]%max_of_Some. split.
  - apply list_elem_of_fmap in Hin as (a & -> & [? ?]%list_elem_of_filter). by exists a.
  - intros a Ha Hw. apply Hle. apply list_elem_of_fmap. exists a. split; [done|].
    by apply list_elem_of_filter.
Qed.

Lemma newest_of_None k l a : newest_of k l = None -> a ∈ l -> ~ same_window k a.
Proof.
  unfold newest_of. intros H%max_of_None Ha Hw.
  assert (a ∈ filter (fun a => k_sender (a_key a) = k_sender k /\ k_revision (a_key a) = k_revision k) l)
    as Hf by (by apply list_elem_of_filter).
  destruct (filter _ l); [by apply elem_of_nil in Hf|done].
Qed.

(** The newest sequence, the new key's included: it is held, and bounds the rest. *)
Lemma newest_with_spec k l cm id :
  (exists a, a ∈ l ++ [mkAccepted k cm id] /\ same_window k a /\ k_sequence (a_key a) = newest_with k l) /\
  forall a, a ∈ l ++ [mkAccepted k cm id] -> same_window k a -> k_sequence (a_key a) <= newest_with k l.
Proof.
  assert (mkAccepted k cm id ∈ l ++ [mkAccepted k cm id]) as Hnew by set_solver.
  unfold newest_with. destruct (newest_of k l) as [m|] eqn:E; cbn [default from_option Datatypes.id].
  - destruct (newest_of_Some k l m E) as [(a & Ha & Hw & <-) Hle]. split.
    + destruct (Z.max_spec (k_sequence (a_key a)) (k_sequence k)) as [[_ Hm]|[_ Hm]].
      * exists (mkAccepted k cm id). by rewrite Hm.
      * exists a. rewrite Hm. split; [set_solver|done].
    + intros b [Hb| ->%list_elem_of_singleton]%elem_of_app Hbw; [|cbn; lia]. specialize (Hle b Hb Hbw). lia.
  - rewrite Z.max_id. split; [by exists (mkAccepted k cm id)|].
    intros b [Hb| ->%list_elem_of_singleton]%elem_of_app Hbw; [|cbn; lia].
    by apply (newest_of_None k l b E) in Hbw.
Qed.

(** ** One context *)

(** The three things a receive does: nothing, defer, or accept. *)
Record addressed (g : GroupReceiver) (c : ApplicationContext) (peer : Member) : Prop := {
  ad_peer : peer = sender c;
  ad_group : c_group_id c = r_group_id (g_roster g);
  ad_recipient : recipient c = g_local g;
  ad_local : receiver_is_active g (g_local g) = true
}.

Record deferrable (g : GroupReceiver) (c : ApplicationContext) : Prop := {
  df_ahead : revision (g_roster g) < c_revision c <= saturating_add64 (revision (g_roster g)) FUTURE_REVISIONS;
  df_new : ~ (context_key c ∈ ((fun d => context_key (d_context d)) <$> g_deferred g));
  df_room : len (g_deferred g) <> MAX_DEFERRED;
  df_slot : receiver_is_active g (sender c) = true \/ unlisted_slot_is_open_to g (sender c) = true
}.

Record acceptable (g : GroupReceiver) (c : ApplicationContext) : Prop := {
  ac_sender : receiver_is_active g (sender c) = true;
  ac_revision : c_revision c = revision (g_roster g);
  ac_digest : roster_digest c = g_roster_digest g;
  ac_new : context_key c ∉ (a_key <$> g_accepted g);
  ac_fresh : forall m, newest_of (context_key c) (g_accepted g) = Some m ->
    m < saturating_add64 (logical_sequence c) DEDUP_WINDOW
}.

Lemma accept_current_cases g k cm g' d :
  accept_current g k cm = (g', d) ->
  (g' = g /\ match d with
             | DDuplicate id => exists a, a ∈ g_accepted g /\ a_key a = k /\ a_commitment a = cm /\ a_event_id a = id
             | DRejected _ => True
             | _ => False
             end) \/
  (d = DAccepted (next_event_id g) /\ ~ (k ∈ (a_key <$> g_accepted g)) /\
   (forall m, newest_of k (g_accepted g) = Some m -> m < saturating_add64 (k_sequence k) DEDUP_WINDOW) /\
   g' = with_accepted g
          (retained k (newest_with k (g_accepted g)) (g_accepted g ++ [mkAccepted k cm (next_event_id g)]))
          (saturating_add64 (next_event_id g) 1)).
Proof.
  unfold accept_current. destruct (list_find _ (g_accepted g)) as [[i a]|] eqn:F.
  - intros H. inv_bind. left. split; [done|]. apply list_find_Some in F as (Hl & Hk & _).
    case_bool_decide; [|done]. exists a. split; [by eapply list_elem_of_lookup_2|done].
  - apply list_find_absent in F. fold (newest_of k (g_accepted g)). cbv zeta.
    destruct (newest_of k (g_accepted g)) as [m|] eqn:Em.
    + case_test; intros H; inv_bind; [by left|]. bool_prop. right. split_and!; try done.
      * intros m' [= <-]. done.
      * unfold newest_with, retained. by rewrite Em.
    + intros H; inv_bind. right. split_and!; try done. unfold newest_with, retained. by rewrite Em.
Qed.

Lemma receive_cases g c peer cm g' d :
  receive g c peer cm = (g', d) ->
  (g' = g /\ match d with
             | DAccepted _ => False
             | DDuplicate id => exists a, a ∈ g_accepted g /\ a_key a = context_key c /\
                 a_commitment a = cm /\ a_event_id a = id
             | _ => True
             end) \/
  (addressed g c peer /\ deferrable g c /\ d = DDeferred /\
   g' = with_deferred g (g_deferred g ++ [mkDeferred c cm])) \/
  (addressed g c peer /\ acceptable g c /\ d = DAccepted (next_event_id g) /\
   g' = with_accepted g
          (retained (context_key c) (newest_with (context_key c) (g_accepted g))
             (g_accepted g ++ [mkAccepted (context_key c) cm (next_event_id g)]))
          (saturating_add64 (next_event_id g) 1)).
Proof.
  unfold receive. intros H.
  destruct (negb (bool_decide (peer = sender c))) eqn:G1; [inv_bind; by left|].
  destruct (negb (bool_decide (c_group_id c = _))) eqn:G2; [inv_bind; by left|].
  destruct (negb (bool_decide (recipient c = _))) eqn:G3; [inv_bind; by left|].
  destruct (negb (receiver_is_active g (g_local g))) eqn:G4; [inv_bind; by left|].
  bool_prop. assert (addressed g c peer) as Had by done.
  destruct (c_revision c >? revision (g_roster g)) eqn:G5.
  - destruct (c_revision c >? saturating_add64 _ _) eqn:G6; [inv_bind; by left|]. bool_prop.
    unfold defer in H. destruct (list_find _ (g_deferred g)) as [[i x]|] eqn:F.
    { inv_bind. left. split; [done|]. by case_bool_decide. }
    apply list_find_absent in F.
    destruct (len (g_deferred g) =? MAX_DEFERRED) eqn:G7; [inv_bind; by left|].
    destruct (negb (receiver_is_active g (sender c)) && _) eqn:G8; [inv_bind; by left|].
    inv_bind. bool_prop. right; left. split_and!; try done. split; try done.
    destruct (receiver_is_active g (sender c)); [by left|]. right. cbn in G8. by bool_prop.
  - destruct (negb (receiver_is_active g (sender c))) eqn:G6; [inv_bind; by left|].
    destruct (c_revision c <? _) eqn:G7; [inv_bind; by left|].
    destruct (negb (bool_decide (roster_digest c = _))) eqn:G8; [inv_bind; by left|].
    bool_prop. apply accept_current_cases in H as [[-> Hd]|(-> & Hn & Hf & ->)].
    + left. split; [done|]. by destruct d.
    + right; right. split_and!; try done. split; try done. lia.
Qed.

(** ** What every receiver holds *)
Definition unlisted (g : GroupReceiver) : list Deferred :=
  filter (fun d => receiver_is_active g (sender (d_context d)) = false) (g_deferred g).

Definition unlisted_ids (g : GroupReceiver) : list bytes :=
  (fun d => m_identity (sender (d_context d))) <$> unlisted g.

Definition deferred_keys (g : GroupReceiver) : list Key :=
  (fun d => context_key (d_context d)) <$> g_deferred g.

(** A deferred context is addressed to this receiver and ahead of its roster. *)
Definition deferred_ok (g : GroupReceiver) (d : Deferred) : Prop :=
  c_group_id (d_context d) = r_group_id (g_roster g) /\ recipient (d_context d) = g_local g /\
  revision (g_roster g) < c_revision (d_context d)
    <= saturating_add64 (revision (g_roster g)) FUTURE_REVISIONS.

(** An accepted key is of the roster's group and revision and a listed sender. *)
Definition accepted_ok (g : GroupReceiver) (a : Accepted) : Prop :=
  k_group_id (a_key a) = r_group_id (g_roster g) /\ k_revision (a_key a) = revision (g_roster g) /\
  lists_member (g_roster g) (k_sender (a_key a)) = true.

Record receiver_inv (g : GroupReceiver) : Prop := {
  ri_deferred : Forall (deferred_ok g) (g_deferred g);
  ri_deferred_keys : NoDup (deferred_keys g);
  ri_deferred_count : len (g_deferred g) <= MAX_DEFERRED;
  ri_unlisted : len (unlisted g) <= MAX_DEFERRED_UNLISTED /\ NoDup (unlisted_ids g);
  ri_accepted : Forall (accepted_ok g) (g_accepted g);
  ri_accepted_keys : NoDup (a_key <$> g_accepted g);
  ri_window : forall a b, a ∈ g_accepted g -> b ∈ g_accepted g ->
    k_sender (a_key a) = k_sender (a_key b) ->
    k_sequence (a_key b) < k_sequence (a_key a) + DEDUP_WINDOW;
  ri_terminal : receiver_is_active g (g_local g) = false -> g_accepted g = [] /\ g_deferred g = []
}.

Lemma receiver_inv_empty r d m n : receiver_inv (mkReceiver r d m [] [] n).
Proof.
  split; cbn; try done; try constructor.
  - done.
  - constructor.
  - intros a b Ha. by apply elem_of_nil in Ha.
Qed.

(** The slot test counts the unlisted senders and compares their identities. *)
Lemma unlisted_loop_spec active held items s :
  unlisted_loop active held items s = true ->
  held + len (filter (fun d => active (sender (d_context d)) = false) items) < MAX_DEFERRED_UNLISTED /\
  ~ (m_identity s ∈ ((fun d => m_identity (sender (d_context d))) <$>
      filter (fun d => active (sender (d_context d)) = false) items)).
Proof.
  revert held. induction items as [|item items IH]; intros held H; cbn [unlisted_loop] in H.
  - bool_prop. cbn. split; [unfold len; cbn; lia|]. apply not_elem_of_nil.
  - rewrite filter_cons. destruct (active (sender (d_context item))) eqn:Ha.
    + rewrite decide_False by done. by apply IH.
    + case_match eqn:Hi; [done|]. bool_prop. apply IH in H as [H1 H2]. rewrite decide_True by done.
      rewrite len_cons, fmap_cons. split; [lia|]. rewrite not_elem_of_cons. split; [congruence|done].
Qed.

Lemma receiver_inv_defer g c peer cm :
  addressed g c peer -> deferrable g c -> receiver_inv g ->
  receiver_inv (with_deferred g (g_deferred g ++ [mkDeferred c cm])).
Proof.
  intros [_ Hg Hr Hl] [Ha Hn Hroom Hslot] [H1 H2 H3 [H4 H4'] H5 H6 H7 H8].
  split; try done; unfold unlisted, unlisted_ids, deferred_keys in *; cbn [g_deferred with_deferred].
  - apply Forall_app. split; [done|]. apply Forall_singleton. done.
  - rewrite fmap_app. by apply NoDup_snoc.
  - rewrite len_app. change (len [mkDeferred c cm]) with 1. lia.
  - set (Q := fun d => receiver_is_active g (sender (d_context d)) = false) in *.
    change (len (filter Q (g_deferred g ++ [mkDeferred c cm])) <= MAX_DEFERRED_UNLISTED /\
      NoDup ((fun d => m_identity (sender (d_context d))) <$> filter Q (g_deferred g ++ [mkDeferred c cm]))).
    rewrite filter_app, filter_cons, filter_nil. unfold unlisted in H4'. fold Q in H4'.
    destruct (decide (Q (mkDeferred c cm))) as [HQ|HQ]; [|by rewrite app_nil_r].
    unfold Q in HQ. cbn [d_context] in HQ. destruct Hslot as [?|Hslot]; [congruence|].
    apply unlisted_loop_spec in Hslot as [Hlt Hnin]. fold Q in Hlt, Hnin. rewrite fmap_app, len_app.
    change (len [mkDeferred c cm]) with 1. split; [lia|]. by apply NoDup_snoc.
  - intros Hx. cbn in Hx. change (receiver_is_active g (g_local g) = false) in Hx. congruence.
Qed.

Lemma saturating_add64_le a b : saturating_add64 a b <= a + b.
Proof. unfold saturating_add64. lia. Qed.

Lemma receiver_inv_accept g c peer cm n :
  addressed g c peer -> acceptable g c -> receiver_inv g ->
  receiver_inv (with_accepted g
    (retained (context_key c) (newest_with (context_key c) (g_accepted g))
       (g_accepted g ++ [mkAccepted (context_key c) cm n])) (saturating_add64 n 1)).
Proof.
  intros [_ Hg _ Hl] [Hs Hr _ Hn _] [H1 H2 H3 H4 H5 H6 H7 H8]. set (k := context_key c) in *.
  destruct (newest_with_spec k (g_accepted g) cm n) as [_ Hle].
  assert (Forall (accepted_ok g) (g_accepted g ++ [mkAccepted k cm n])) as Hok.
  { apply Forall_app. split; [done|]. apply Forall_singleton. split_and!; [done|done|]. cbn.
    unfold receiver_is_active, roster_active in Hs. by bool_prop. }
  split; try done; cbn [g_accepted with_accepted].
  - apply Forall_forall. intros a [_ Ha]%list_elem_of_filter. rewrite Forall_forall in Hok. by apply Hok.
  - unfold retained. apply NoDup_fmap_filter. rewrite fmap_app. by apply NoDup_snoc.
  - intros a b [Ha Hain]%list_elem_of_filter [Hb Hbin]%list_elem_of_filter Hab.
    rewrite Forall_forall in Hok.
    destruct (decide (k_sender (a_key a) = k_sender k)) as [Hak|Hak].
    + assert (k_revision (a_key a) = k_revision k /\ k_revision (a_key b) = k_revision k) as [Hra Hrb].
      { destruct (Hok a Hain) as (_ & ? & _), (Hok b Hbin) as (_ & ? & _).
        change (k_revision k) with (c_revision c). split; congruence. }
      destruct Ha as [?|[?|Ha]]; [done|done|].
      assert (same_window k b) as Hw by (split; congruence). specialize (Hle b Hbin Hw).
      pose proof (saturating_add64_le (k_sequence (a_key a)) DEDUP_WINDOW). lia.
    + assert (forall x, x ∈ g_accepted g ++ [mkAccepted k cm n] -> k_sender (a_key x) <> k_sender k ->
        x ∈ g_accepted g) as Hold.
      { intros x [Hx| ->%list_elem_of_singleton]%elem_of_app Hxk; done. }
      apply H7; [by apply Hold| |done]. apply Hold; [done|congruence].
  - intros Hx. change (receiver_is_active g (g_local g) = false) in Hx. congruence.
Qed.

Lemma receiver_inv_receive g c peer cm g' d :
  receive g c peer cm = (g', d) -> receiver_inv g -> receiver_inv g'.
Proof.
  intros [[-> _]|[(? & ? & _ & ->)|(? & ? & _ & ->)]]%receive_cases Hi; [done| |].
  - by eapply receiver_inv_defer.
  - by eapply receiver_inv_accept.
Qed.

Lemma revalidate_ind (I : GroupReceiver -> Prop) (Q : Deferred -> Prop) :
  (forall g x g' d, Q x -> I g ->
    receive g (d_context x) (sender (d_context x)) (d_commitment x) = (g', d) -> I g') ->
  forall items g g' out, Forall Q items -> I g -> revalidate g items = (g', out) -> I g'.
Proof.
  intros Hstep. induction items as [|x items IH]; intros g g' out HQ Hi H; cbn in H; [by inv_bind|].
  apply Forall_cons in HQ as [Hx HQ].
  destruct (receive g _ _ _) as [g1 d] eqn:E1. destruct (revalidate g1 items) as [g2 rest] eqn:E2.
  inv_bind. eapply IH; [exact HQ| |exact E2]. by eapply Hstep.
Qed.

Lemma receiver_inv_input g i g' l : input_step g i = (g', l) -> receiver_inv g -> receiver_inv g'.
Proof.
  destruct i as [c peer cm|r digest]; cbn [input_step]; intros H Hi.
  - destruct (receive g c peer cm) as [g1 d] eqn:E. inv_bind. by eapply receiver_inv_receive.
  - unfold install_accepted_roster in H. destruct (negb _); [by inv_bind|].
    destruct (revalidate _ _) as [g1 out] eqn:E. inv_bind.
    eapply (revalidate_ind receiver_inv (fun _ => True)); [| | |exact E].
    + intros. by eapply receiver_inv_receive.
    + by apply Forall_true.
    + apply receiver_inv_empty.
Qed.

Lemma receiver_inv_run g inputs g' l : inputs_run g inputs = (g', l) -> receiver_inv g -> receiver_inv g'.
Proof.
  revert g l. induction inputs as [|i inputs IH]; intros g l H Hi; cbn in H; [by inv_bind|].
  destruct (input_step g i) as [g1 l1] eqn:E1. destruct (inputs_run g1 inputs) as [g2 l2] eqn:E2.
  inv_bind. eapply IH; [exact E2|]. by eapply receiver_inv_input.
Qed.

(** *** Counting *)

(** Distinct integers within a window of [w] are at most [w]. *)
Lemma window_count (l : list Z) w :
  NoDup l -> 0 <= w -> (forall a b, a ∈ l -> b ∈ l -> b < a + w) -> len l <= w.
Proof.
  intros Hnd Hw Hl.
  assert (exists m, forall x, x ∈ l -> m <= x < m + w) as [m Hm].
  { clear Hnd. destruct l as [|y l]; [exists 0; intros x Hx; by apply elem_of_nil in Hx|].
    assert (exists m, m ∈ y :: l /\ forall x, x ∈ y :: l -> m <= x) as (m & Hm & Hmin).
    { clear Hl. revert y. induction l as [|z l IH]; intros y.
      - exists y. split; [by left|]. intros x Hx%list_elem_of_singleton. lia.
      - destruct (IH z) as (m & Hm & Hmin). destruct (Z.le_gt_cases m y).
        + exists m. split; [by right|]. intros x [->|Hx]%elem_of_cons; [lia|by apply Hmin].
        + exists y. split; [by left|]. intros x [->|Hx]%elem_of_cons; [lia|]. apply Hmin in Hx. lia. }
    exists m. intros x Hx. split; [by apply Hmin|by apply Hl]. }
  assert (l ⊆+ seqZ m w) as Hs.
  { apply NoDup_submseteq; [done|]. intros x Hx. apply elem_of_seqZ. by apply Hm. }
  apply submseteq_length in Hs. rewrite length_seqZ in Hs. unfold len. lia.
Qed.

(** A list whose items fall in the classes [ms], each of at most [n] items. *)
Lemma classes_count {A B} `{EqDecision B} (f : A -> B) (ms : list B) (l : list A) n :
  0 <= n -> Forall (fun x => f x ∈ ms) l -> (forall m, len (filter (fun x => f x = m) l) <= n) ->
  len l <= n * len ms.
Proof.
  intros Hn. revert l. induction ms as [|m ms IH]; intros l Hl Hc.
  - destruct l as [|x l]; [by rewrite len_nil, Z.mul_0_r|].
    apply Forall_cons in Hl as [Hx _]. by apply elem_of_nil in Hx.
  - rewrite <- (len_perm _ _ (filter_app_complement (fun x => f x = m) l)), len_app, len_cons.
    assert (len (filter (fun x => ~ f x = m) l) <= n * len ms) as Hr; [|specialize (Hc m); lia].
    apply IH.
    + apply Forall_forall. intros x [Hx Hin]%list_elem_of_filter. rewrite Forall_forall in Hl.
      apply Hl in Hin. apply elem_of_cons in Hin as [?|?]; done.
    + intros m'. destruct (decide (m' = m)) as [->|Hne].
      * destruct (filter _ (filter _ l)) as [|x k] eqn:E; [by rewrite len_nil|].
        assert (x ∈ x :: k) as Hx by left. rewrite <- E in Hx.
        by apply list_elem_of_filter in Hx as [? [? _]%list_elem_of_filter].
      * rewrite list_filter_filter_l by (intros x <-; done). apply Hc.
Qed.

(** The bounds of a receiver, from its invariant. *)
Lemma sender_count g m :
  receiver_inv g -> len (filter (fun a => k_sender (a_key a) = m) (g_accepted g)) <= DEDUP_WINDOW.
Proof.
  intros Hi. set (l := filter _ _). rewrite <- (len_fmap (fun a => k_sequence (a_key a)) l).
  assert (forall a, a ∈ l -> a ∈ g_accepted g /\ k_sender (a_key a) = m) as Hl
    by (intros a [? ?]%list_elem_of_filter; done).
  apply window_count; [|done|].
  - apply (NoDup_fmap_1 (fun s => mkKey (r_group_id (g_roster g)) (revision (g_roster g)) m s)).
    rewrite <- list_fmap_compose. rewrite (list_fmap_ext _ a_key).
    + apply NoDup_fmap_filter. apply Hi.
    + intros i a Ha%list_elem_of_lookup_2. apply Hl in Ha as [Ha Hm]. cbn.
      pose proof (ri_accepted g Hi) as Hok. rewrite Forall_forall in Hok. destruct (Hok a Ha) as (H1 & H2 & _).
      destruct (a_key a). cbn in *. by subst.
  - intros x y (a & -> & Ha)%list_elem_of_fmap (b & -> & Hb)%list_elem_of_fmap.
    apply Hl in Ha as [Ha Ham], Hb as [Hb Hbm]. apply (ri_window g Hi); [done|done|congruence].
Qed.

Lemma lists_member_true r m : lists_member r m = true <-> m ∈ members r.
Proof.
  unfold lists_member. rewrite existsb_exists. split.
  - intros (x & Hx & H). bool_prop. subst. by apply list_elem_of_In.
  - intros H. exists m. split; [by apply list_elem_of_In|by apply bool_decide_eq_true_2].
Qed.

Lemma accepted_count g :
  receiver_inv g -> len (g_accepted g) <= DEDUP_WINDOW * len (members (g_roster g)).
Proof.
  intros Hi. apply (classes_count (fun a => k_sender (a_key a))); [done| |].
  - eapply Forall_impl; [apply Hi|]. intros a (_ & _ & Ha). by apply lists_member_true.
  - intros m. by apply sender_count.
Qed.

Lemma status_active g : receiver_status g = SActive <-> receiver_is_active g (g_local g) = true.
Proof.
  unfold receiver_status, receiver_is_active, roster_active.
  destruct (closed (g_roster g)); cbn; [done|]. by destruct (lists_member _ _).
Qed.

(** ** The log *)
Abbreviation log_key := (fun e : Key * bytes * Z => e.1.1).

(** The sequence of a context is below the greatest [u64]. *)
Definition seq_ok (n : Z) : Prop := 0 <= n < u64_max.

Definition deferred_seq_ok (d : Deferred) : Prop := seq_ok (logical_sequence (d_context d)).

(** An accepted key of the current revision is still held, or its sender has a
    held sequence at least a window ahead of it. *)
Definition covered (k : Key) (l : list Accepted) : Prop :=
  exists a, a ∈ l /\ same_window k a /\
    (a_key a = k \/ k_sequence k + DEDUP_WINDOW <= k_sequence (a_key a)).

Record log_inv (g : GroupReceiver) (log : Log) : Prop := {
  li_ids : log.*2 = (fun i => Z.min i u64_max) <$> seqZ 0 (len log);
  li_next : next_event_id g = Z.min (len log) u64_max;
  li_keys : NoDup (log_key <$> log);
  li_old : Forall (fun e => k_revision (log_key e) <= revision (g_roster g) /\
                           seq_ok (k_sequence (log_key e))) log;
  li_held : Forall (fun a => (a_key a, a_commitment a, a_event_id a) ∈ log) (g_accepted g);
  li_covered : Forall (fun e => k_revision (log_key e) = revision (g_roster g) ->
                               covered (log_key e) (g_accepted g)) log;
  li_deferred : Forall deferred_seq_ok (g_deferred g)
}.

Lemma saturating_window a b :
  seq_ok b -> (b < saturating_add64 a DEDUP_WINDOW <-> b < a + DEDUP_WINDOW).
Proof. unfold seq_ok, saturating_add64. lia. Qed.

(** Retention keeps every key covered. *)
Lemma covered_retained k l cm id k' :
  seq_ok (k_sequence k) -> Forall (fun a => seq_ok (k_sequence (a_key a))) l ->
  let l' := l ++ [mkAccepted k cm id] in
  covered k' l' -> covered k' (retained k (newest_with k l) l').
Proof.
  intros Hk Hl. cbv zeta. intros (a & Ha & [Hs Hr] & Hc).
  destruct (newest_with_spec k l cm id) as [(b & Hb & [Hbs Hbr] & Hbn) Hle].
  assert (Forall (fun a => seq_ok (k_sequence (a_key a))) (l ++ [mkAccepted k cm id])) as Hok.
  { apply Forall_app. split; [done|]. by apply Forall_singleton. }
  rewrite Forall_forall in Hok. pose proof (Hok b Hb) as Hbok. rewrite Hbn in Hbok.
  destruct (decide (same_window k a)) as [[Has Har]|Hw].
  - specialize (Hle a Ha (conj Has Har)).
    destruct (Z.lt_ge_cases (newest_with k l) (k_sequence (a_key a) + DEDUP_WINDOW)) as [Hlt|Hge].
    + exists a. split; [|done]. apply list_elem_of_filter. split; [|done]. right; right.
      by apply saturating_window.
    + exists b. split_and!.
      * apply list_elem_of_filter. split; [|done]. right; right. apply saturating_window; [done|].
        rewrite Hbn. unfold DEDUP_WINDOW. lia.
      * split; congruence.
      * right. rewrite Hbn. unfold DEDUP_WINDOW in *. destruct Hc as [<-|Hc]; lia.
  - exists a. split; [|done]. apply list_elem_of_filter. split; [|done].
    destruct (decide (k_sender (a_key a) = k_sender k)) as [H1|H1]; [|by left].
    right; left. intros H2. by apply Hw.
Qed.

(** A covered key is not acceptable. *)
Lemma covered_not_acceptable g c :
  seq_ok (logical_sequence c) -> Forall (fun a => seq_ok (k_sequence (a_key a))) (g_accepted g) ->
  acceptable g c -> ~ covered (context_key c) (g_accepted g).
Proof.
  intros Hs Hl [_ _ _ Hn Hf] (a & Ha & Hw & [Hk|Hk]).
  - apply Hn. rewrite <- Hk. by apply list_elem_of_fmap_2.
  - destruct (newest_of (context_key c) (g_accepted g)) as [m|] eqn:E.
    + destruct (newest_of_Some _ _ _ E) as [(b & Hb & _ & <-) Hle]. specialize (Hle a Ha Hw).
      rewrite Forall_forall in Hl. apply (saturating_window _ _ (Hl b Hb)) in Hf; [|done]. cbn in Hk. lia.
    + by apply (newest_of_None _ _ _ E Ha).
Qed.

Lemma held_seq_ok g log :
  log_inv g log -> Forall (fun a => seq_ok (k_sequence (a_key a))) (g_accepted g).
Proof.
  intros Hi. eapply Forall_impl; [apply (li_held g log Hi)|]. intros a Ha.
  pose proof (li_old g log Hi) as Ho. rewrite Forall_forall in Ho. by apply Ho in Ha as [_ ?].
Qed.

(** A key of an earlier acceptance is not acceptable again. *)
Lemma acceptable_new g log c :
  log_inv g log -> seq_ok (logical_sequence c) -> acceptable g c -> ~ (context_key c ∈ (log_key <$> log)).
Proof.
  intros Hi Hs Ha (e & He & Hin)%list_elem_of_fmap. pose proof (li_covered g log Hi) as Hc.
  rewrite Forall_forall in Hc. eapply covered_not_acceptable; [done|by eapply held_seq_ok|done|].
  rewrite He. apply Hc; [done|]. rewrite <- He. apply (ac_revision g c Ha).
Qed.

Lemma log_inv_accept g log c cm :
  log_inv g log -> seq_ok (logical_sequence c) -> acceptable g c ->
  log_inv (with_accepted g
    (retained (context_key c) (newest_with (context_key c) (g_accepted g))
       (g_accepted g ++ [mkAccepted (context_key c) cm (next_event_id g)]))
    (saturating_add64 (next_event_id g) 1)) (log ++ [(context_key c, cm, next_event_id g)]).
Proof.
  intros Hi Hs Ha. pose proof (acceptable_new g log c Hi Hs Ha) as Hnew.
  pose proof (held_seq_ok g log Hi) as Hheld. destruct Hi as [H1 H2 H3 H4 H5 H6 H7].
  pose proof (len_nonneg log) as Hn. set (k := context_key c) in *.
  assert (forall k', covered k' (g_accepted g) ->
    covered k' (retained k (newest_with k (g_accepted g)) (g_accepted g ++ [mkAccepted k cm (next_event_id g)]))) as Hkeep.
  { intros k' (a & Hin & Hw). apply covered_retained; [done|done|]. exists a. set_solver. }
  split; cbn [g_accepted g_deferred g_roster with_accepted next_event_id].
  - rewrite fmap_app, H1, len_app. change (len [_]) with 1.
    rewrite seqZ_app by lia. rewrite fmap_app, (seqZ_cons _ 1) by lia. cbn. by rewrite H2.
  - rewrite H2, len_app. change (len [_]) with 1. unfold saturating_add64. lia.
  - rewrite fmap_app. by apply NoDup_snoc.
  - apply Forall_app. split; [done|]. apply Forall_singleton. cbn. rewrite (ac_revision g c Ha). done.
  - apply Forall_forall. intros a [_ [Hin| ->%list_elem_of_singleton]%elem_of_app]%list_elem_of_filter.
    + rewrite Forall_forall in H5. apply elem_of_app. left. by apply H5.
    + apply elem_of_app. right. cbn. by left.
  - apply Forall_app. split.
    + eapply Forall_impl; [exact H6|]. intros e He Hr. by apply Hkeep, He.
    + apply Forall_singleton. intros _. apply covered_retained; [done|done|].
      exists (mkAccepted k cm (next_event_id g)). split; [set_solver|]. split; [done|by left].
  - done.
Qed.

Lemma log_inv_receive g log c peer cm g' d :
  log_inv g log -> seq_ok (logical_sequence c) -> receive g c peer cm = (g', d) ->
  log_inv g' (log ++ log_of c cm d).
Proof.
  intros Hi Hs [[-> Hd]|[(? & ? & -> & ->)|(? & ? & -> & ->)]]%receive_cases.
  - destruct d; [done| | |]; by rewrite app_nil_r.
  - rewrite app_nil_r. destruct Hi. split; try done. cbn. apply Forall_app. split; [done|].
    by apply Forall_singleton.
  - by apply log_inv_accept.
Qed.

Lemma log_inv_revalidate items : forall g log g' out,
  log_inv g log -> Forall deferred_seq_ok items -> revalidate g items = (g', out) ->
  log_inv g' (log ++ (out ≫= fun x => log_of (rr_context x) (rr_commitment x) (rr_disposition x))).
Proof.
  induction items as [|x items IH]; intros g log g' out Hi Hs H; cbn in H.
  { inv_bind. by rewrite app_nil_r. }
  apply Forall_cons in Hs as [Hx Hs]. destruct (receive g _ _ _) as [g1 d] eqn:E1.
  destruct (revalidate g1 items) as [g2 rest] eqn:E2. inv_bind. cbn. rewrite app_assoc.
  eapply IH; [|done|exact E2]. by eapply log_inv_receive.
Qed.

(** Inputs whose sequences are below the greatest [u64] and whose installed
    rosters go up from a revision. *)
Fixpoint ascending_inputs (rev : Z) (inputs : list Input) : Prop :=
  match inputs with
  | [] => True
  | IReceive c _ _ :: inputs => seq_ok (logical_sequence c) /\ ascending_inputs rev inputs
  | IInstall r _ :: inputs => rev < revision r /\ ascending_inputs (revision r) inputs
  end.

Lemma log_inv_install g log r digest g' l :
  log_inv g log -> revision (g_roster g) < revision r -> input_step g (IInstall r digest) = (g', l) ->
  log_inv g' (log ++ l).
Proof.
  intros [H1 H2 H3 H4 H5 H6 H7] Hr H. cbn in H. unfold install_accepted_roster in H.
  destruct (negb _); [inv_bind; by rewrite app_nil_r|]. destruct (revalidate _ _) as [g1 out] eqn:E.
  inv_bind. eapply log_inv_revalidate; [|exact H7|exact E].
  split; try done; cbn [g_accepted g_deferred g_roster].
  - eapply Forall_impl; [exact H4|]. intros e [? ?]. split; [lia|done].
  - eapply Forall_impl; [exact H4|]. intros e [? _] ?. lia.
Qed.

Lemma revalidate_roster items : forall g g' out, revalidate g items = (g', out) -> g_roster g' = g_roster g.
Proof.
  intros g g' out H. eapply (revalidate_ind (fun x => g_roster x = g_roster g) (fun _ => True)); [| |done|exact H].
  - intros g1 x g2 d _ <- [[-> _]|[(_ & _ & _ & ->)|(_ & _ & _ & ->)]]%receive_cases; done.
  - by apply Forall_true.
Qed.

(** A step leaves the roster at or below the bound of the rest of its inputs. *)
Lemma input_step_roster g i g' l : input_step g i = (g', l) ->
  g_roster g' = g_roster g \/ exists r digest, i = IInstall r digest /\ g_roster g' = r.
Proof.
  destruct i as [c peer cm|r digest]; cbn [input_step]; intros H.
  - left. destruct (receive g c peer cm) as [g1 d] eqn:E. inv_bind.
    apply receive_cases in E as [[-> _]|[(_ & _ & _ & ->)|(_ & _ & _ & ->)]]; done.
  - unfold install_accepted_roster in H. destruct (negb _); [left; by inv_bind|].
    destruct (revalidate _ _) as [g1 out] eqn:E. inv_bind. right. exists r, digest.
    split; [done|]. by apply revalidate_roster in E.
Qed.

Lemma log_inv_run inputs : forall g log rev g' l,
  log_inv g log -> revision (g_roster g) <= rev -> ascending_inputs rev inputs ->
  inputs_run g inputs = (g', l) -> log_inv g' (log ++ l).
Proof.
  induction inputs as [|i inputs IH]; intros g log rev g' l Hi Hrev Ha H; cbn in H.
  { inv_bind. by rewrite app_nil_r. }
  destruct (input_step g i) as [g1 l1] eqn:E1. destruct (inputs_run g1 inputs) as [g2 l2] eqn:E2.
  inv_bind. rewrite app_assoc. pose proof (input_step_roster _ _ _ _ E1) as Hro.
  destruct i as [c peer cm|r digest]; destruct Ha as [Hx Ha].
  - cbn in E1. destruct (receive g c peer cm) as [g3 d] eqn:Er. inv_bind.
    eapply IH; [by eapply log_inv_receive| |exact Ha|exact E2].
    destruct Hro as [->|(? & ? & ? & _)]; done.
  - eapply IH; [|idtac|exact Ha|exact E2].
    + eapply log_inv_install; [done| |done]. lia.
    + destruct Hro as [->|(? & ? & [= <- <-] & ->)]; lia.
Qed.

(** *** The greatest sequence *)
(** An acceptable context is accepted. *)
Lemma receive_accepts g c peer cm :
  addressed g c peer -> acceptable g c -> snd (receive g c peer cm) = DAccepted (next_event_id g).
Proof.
  intros [H1 H2 H3 H4] [H5 H6 H7 H8 H9]. unfold receive.
  rewrite H1, H2, H3, H6, H7, !bool_decide_eq_true_2, H4, H5 by done. cbn [negb].
  rewrite Z.gtb_ltb, Z.ltb_irrefl. unfold accept_current. rewrite list_find_none by done.
  fold (newest_of (context_key c) (g_accepted g)). cbv zeta.
  destruct (newest_of (context_key c) (g_accepted g)) as [m|]; [|done].
  rewrite (proj2 (Z.leb_gt _ _)); [done|]. by apply H9.
Qed.

(** At the greatest sequence the retention drops the sender's whole window, the
    new entry included, so the context is acceptable again. *)
Lemma greatest_sequence_again g c cm n :
  receiver_inv g -> logical_sequence c = u64_max -> acceptable g c ->
  acceptable (with_accepted g
    (retained (context_key c) (newest_with (context_key c) (g_accepted g))
       (g_accepted g ++ [mkAccepted (context_key c) cm n])) (saturating_add64 n 1)) c.
Proof.
  intros Hi Hmax [H1 H2 H3 H4 H5]. set (k := context_key c) in *.
  assert (forall a, a ∈ retained k (newest_with k (g_accepted g)) (g_accepted g ++ [mkAccepted k cm n]) ->
    ~ same_window k a) as Hnone.
  { intros a [Ha _]%list_elem_of_filter [Hs Hr]. destruct Ha as [?|[?|Ha]]; [done|done|].
    unfold newest_with, saturating_add64 in Ha. change (k_sequence k) with (logical_sequence c) in Ha. lia. }
  split; try done; cbn [g_accepted with_accepted].
  - intros (a & Hk & Ha)%list_elem_of_fmap. apply (Hnone a Ha). unfold same_window. by rewrite <- Hk.
  - intros m (( a & Ha & Hw & _) & _)%newest_of_Some. by apply Hnone in Ha.
Qed.

(** ** Properties *)

(** C15. Every application message is delivered exactly once: along any run of
    received contexts and installed rosters with ascending revisions, whatever
    is repeated, reordered or deferred, no key (group, revision, sender,
    sequence) is accepted twice; the event identifiers are consecutive from 0
    and count the acceptances; a later context is accepted only with the next
    identifier, from its authenticated, listed sender, at the current revision
    and digest, and only with a key never accepted before; and a duplicate is
    answered with the identifier of the acceptance with the same key and
    commitment.  All this for sequences below the greatest [u64]; at the
    greatest one it fails: the saturating retention test drops the entry just
    made, and an exact duplicate is accepted again as the next event. *)
Theorem receive_exactly_once r digest local inputs g log :
  ascending_inputs (revision r) inputs ->
  inputs_run (receiver_new r digest local) inputs = (g, log) ->
  NoDup (log_key <$> log) /\
  log.*2 = (fun i => Z.min i u64_max) <$> seqZ 0 (len log) /\
  events_issued g = Z.min (len log) u64_max /\
  (forall c peer cm g' d,
    seq_ok (logical_sequence c) -> receive g c peer cm = (g', d) ->
    (match d with
     | DAccepted id =>
         id = events_issued g /\ ~ (context_key c ∈ (log_key <$> log)) /\
         addressed g c peer /\ acceptable g c
     | DDuplicate id => (context_key c, cm, id) ∈ log
     | _ => True
     end)) /\
  (forall c peer cm g' id,
    logical_sequence c = u64_max -> receive g c peer cm = (g', DAccepted id) ->
    snd (receive g' c peer cm) = DAccepted (events_issued g')).
Proof.
  intros Ha H. assert (log_inv g log) as Hi.
  { apply (log_inv_run inputs (receiver_new r digest local) [] (revision r)); try done.
    split; cbn; try done; constructor. }
  assert (receiver_inv g) as Hri by (eapply receiver_inv_run; [exact H|apply receiver_inv_empty]).
  split_and!; [apply Hi|apply Hi|apply Hi| |].
  2: { intros c peer cm g' id Hmax [[_ []]|[(_ & _ & [=] & _)|(Had & Hac & _ & ->)]]%receive_cases.
    apply receive_accepts; [by destruct Had|]. by apply greatest_sequence_again. }
  intros c peer cm g' d Hs [[-> Hd]|[(_ & _ & -> & _)|(Had & Hac & -> & _)]]%receive_cases.
  - destruct d as [|id| |]; try done. destruct Hd as (a & Hin & <- & <- & <-).
    pose proof (li_held g log Hi) as Hh. rewrite Forall_forall in Hh. by apply Hh.
  - done.
  - split_and!; try done. by eapply acceptable_new.
Qed.

(** Data for the witnesses: a group of two, and a context from one to the other. *)
Definition bea : Member := mkMember (bstr "bea") (bstr "d1").
Definition pair_roster : Roster :=
  mkRoster (replicate 16 x07) 1 (replicate 32 x09) ana POLICY_VERSION_V1 false [ana; bea].
Definition note (rev seq : Z) : ApplicationContext :=
  mkContext (replicate 16 x07) rev (replicate 32 x0a) ana bea seq (bstr "hello").
Definition pair_receiver : GroupReceiver := receiver_new pair_roster (replicate 32 x0a) bea.

Lemma receive_exactly_once_witness :
  let inputs := [IReceive (note 1 5) ana (replicate 32 x01); IReceive (note 1 5) ana (replicate 32 x01);
                 IReceive (note 1 4) ana (replicate 32 x02)] in
  let '(g, log) := inputs_run pair_receiver inputs in
  log.*2 = [0; 1] /\
  NoDup (log_key <$> log) /\
  log.*2 = (fun i => Z.min i u64_max) <$> seqZ 0 (len log) /\
  events_issued g = Z.min (len log) u64_max /\
  (forall c peer cm g' d,
    seq_ok (logical_sequence c) -> receive g c peer cm = (g', d) ->
    (match d with
     | DAccepted id =>
         id = events_issued g /\ ~ (context_key c ∈ (log_key <$> log)) /\
         addressed g c peer /\ acceptable g c
     | DDuplicate id => (context_key c, cm, id) ∈ log
     | _ => True
     end)) /\
  (forall c peer cm g' id,
    logical_sequence c = u64_max -> receive g c peer cm = (g', DAccepted id) ->
    snd (receive g' c peer cm) = DAccepted (events_issued g')).
Proof.
  cbv zeta. destruct (inputs_run _ _) as [g log] eqn:E. split.
  - vm_compute in E. by inv_bind.
  - eapply receive_exactly_once; [|exact E]. cbn. unfold seq_ok, u64_max. cbn. lia.
Defined.

(** C40. A receiver stays within its bounds, whatever is sent to it and whatever
    valid rosters are installed: at most four deferred contexts, with distinct
    keys, addressed to this receiver and at most two revisions ahead; at most
    two of them from unlisted senders, of distinct identities; at most 64
    accepted entries per sender and 512 in all, each of the current revision and
    a listed sender, with distinct keys; and nothing at all once the local
    member is removed or the group is closed. *)
Theorem receiver_bounded r digest local inputs g log :
  inputs_run (receiver_new r digest local) inputs = (g, log) ->
  len (members (g_roster g)) <= MAX_MEMBERS ->
  (len (g_deferred g) <= MAX_DEFERRED /\ NoDup (deferred_keys g) /\ Forall (deferred_ok g) (g_deferred g)) /\
  (len (unlisted g) <= MAX_DEFERRED_UNLISTED /\ NoDup (unlisted_ids g)) /\
  (forall m, len (filter (fun a => k_sender (a_key a) = m) (g_accepted g)) <= DEDUP_WINDOW) /\
  len (g_accepted g) <= MAX_MEMBERS * DEDUP_WINDOW /\
  (NoDup (a_key <$> g_accepted g) /\ Forall (accepted_ok g) (g_accepted g)) /\
  (receiver_status g <> SActive -> g_accepted g = [] /\ g_deferred g = []).
Proof.
  intros H Hm. assert (receiver_inv g) as Hi.
  { eapply receiver_inv_run; [exact H|]. apply receiver_inv_empty. }
  split_and!; try apply Hi.
  - intros m. by apply sender_count.
  - pose proof (accepted_count g Hi). unfold DEDUP_WINDOW, MAX_MEMBERS in *. lia.
  - rewrite status_active. intros Hna. destruct (receiver_is_active g (g_local g)) eqn:E; [done|].
    by apply (ri_terminal g Hi).
Qed.

Lemma receiver_bounded_witness :
  let inputs := [IReceive (note 1 5) ana (replicate 32 x01); IReceive (note 2 7) ana (replicate 32 x02)] in
  let g := fst (inputs_run pair_receiver inputs) in
  (len (g_deferred g) <= MAX_DEFERRED /\ NoDup (deferred_keys g) /\ Forall (deferred_ok g) (g_deferred g)) /\
  (len (unlisted g) <= MAX_DEFERRED_UNLISTED /\ NoDup (unlisted_ids g)) /\
  (forall m, len (filter (fun a => k_sender (a_key a) = m) (g_accepted g)) <= DEDUP_WINDOW) /\
  len (g_accepted g) <= MAX_MEMBERS * DEDUP_WINDOW /\
  (NoDup (a_key <$> g_accepted g) /\ Forall (accepted_ok g) (g_accepted g)) /\
  (receiver_status g <> SActive -> g_accepted g = [] /\ g_deferred g = []).
Proof. cbv zeta. eapply receiver_bounded; [apply surjective_pairing|]. by vm_compute. Defined.

(** ** The checkpoint restores *)
Section Checkpoint.
Context (roster_commitment payload_commitment : bytes -> bytes).

(** A context and its commitment as the caller computes it. *)
Definition committed (c : ApplicationContext) (cm : bytes) : Prop :=
  context_wf c /\ exists bs, context_encode c = Ok bs /\ cm = payload_commitment bs.

Definition committed_roster (r : Roster) (digest : bytes) : Prop :=
  roster_wf r /\ exists bs, roster_encode r = Ok bs /\ digest = roster_commitment bs.

Definition honest_input (i : Input) : Prop :=
  match i with
  | IReceive c _ cm => committed c cm /\ len cm = DIGEST_LEN
  | IInstall r digest => committed_roster r digest /\ len digest = DIGEST_LEN
  end.

(** The ranges of an accepted entry. *)
Definition entry_wf (a : Accepted) : Prop :=
  0 <= k_sequence (a_key a) <= u64_max /\ len (a_commitment a) = DIGEST_LEN /\ 0 <= a_event_id a.

Definition deferred_wf (d : Deferred) : Prop :=
  committed (d_context d) (d_commitment d) /\ len (d_commitment d) = DIGEST_LEN.

Record stored (g : GroupReceiver) : Prop := {
  st_roster : committed_roster (g_roster g) (g_roster_digest g) /\ len (g_roster_digest g) = DIGEST_LEN;
  st_local : member_ok (g_local g);
  st_next : 0 <= next_event_id g <= u64_max;
  st_accepted : Forall entry_wf (g_accepted g);
  st_ids : next_event_id g < u64_max ->
    StronglySorted Z.lt (a_event_id <$> g_accepted g) /\
    Forall (fun a => a_event_id a < next_event_id g) (g_accepted g);
  st_deferred : Forall deferred_wf (g_deferred g)
}.

Lemma StronglySorted_snoc (l : list Z) x :
  StronglySorted Z.lt l -> Forall (fun y => y < x) l -> StronglySorted Z.lt (l ++ [x]).
Proof.
  induction 1 as [|y l Hl IH Hy]; cbn; intros Hx; [by repeat constructor|].
  apply Forall_cons in Hx as [Hyx Hx]. constructor; [by apply IH|].
  apply Forall_app. split; [done|]. by apply Forall_singleton.
Qed.

Lemma StronglySorted_filter_map {A} (f : A -> Z) (Q : A -> Prop) `{!forall x, Decision (Q x)} (l : list A) :
  StronglySorted Z.lt (f <$> l) -> StronglySorted Z.lt (f <$> filter Q l).
Proof.
  induction l as [|x l IH]; [done|]. rewrite fmap_cons, filter_cons, StronglySorted_cons.
  intros [Hx Hl]. case_decide; [|by apply IH]. rewrite fmap_cons. constructor; [by apply IH|].
  apply Forall_forall. intros y (a & -> & [_ Ha]%list_elem_of_filter)%list_elem_of_fmap.
  rewrite Forall_forall in Hx. apply Hx. by apply list_elem_of_fmap_2.
Qed.

Lemma stored_receive g c peer cm g' d :
  committed c cm -> len cm = DIGEST_LEN -> stored g -> receive g c peer cm = (g', d) -> stored g'.
Proof.
  intros Hc Hl Hs [[-> _]|[(_ & _ & _ & ->)|(_ & _ & _ & ->)]]%receive_cases; [done| |].
  - destruct Hs. split; try done. cbn. apply Forall_app. split; [done|]. by apply Forall_singleton.
  - destruct Hs as [H1 H2 H3 H4 H5 H6].
    set (new := mkAccepted (context_key c) cm (next_event_id g)).
    split; try done; cbn [g_accepted next_event_id with_accepted].
    + unfold saturating_add64. lia.
    + apply Forall_forall. intros a [_ [Ha| ->%list_elem_of_singleton]%elem_of_app]%list_elem_of_filter.
      * rewrite Forall_forall in H4. by apply H4.
      * destruct Hc as [(_ & _ & _ & ?) _]. split; [done|split; [done|cbn; lia]].
    + intros Hn. assert (saturating_add64 (next_event_id g) 1 = next_event_id g + 1 /\ next_event_id g < u64_max)
        as [-> Hlt] by (unfold saturating_add64 in *; lia).
      destruct (H5 Hlt) as [Hso Hbd]. split.
      * unfold retained. apply StronglySorted_filter_map. rewrite fmap_app. apply StronglySorted_snoc; [done|].
        by apply Forall_fmap.
      * apply Forall_forall. intros a [_ [Ha| ->%list_elem_of_singleton]%elem_of_app]%list_elem_of_filter.
        -- rewrite Forall_forall in Hbd. apply Hbd in Ha. lia.
        -- cbn. lia.
Qed.

Lemma stored_input g i g' l : honest_input i -> stored g -> input_step g i = (g', l) -> stored g'.
Proof.
  destruct i as [c peer cm|r digest]; cbn [input_step honest_input]; intros Hh Hs H.
  - destruct (receive g c peer cm) as [g1 d] eqn:E. inv_bind. destruct Hh. by eapply stored_receive.
  - unfold install_accepted_roster in H. destruct (negb _); [by inv_bind|].
    destruct (revalidate _ _) as [g1 out] eqn:E. inv_bind.
    eapply (revalidate_ind stored deferred_wf); [| |idtac|exact E].
    + intros g1 x g2 d [? ?] ? ?. by eapply stored_receive.
    + apply Hs.
    + destruct Hs. split; try done. intros _. split; constructor.
Qed.

Lemma stored_run inputs : forall g g' l,
  Forall honest_input inputs -> stored g -> inputs_run g inputs = (g', l) -> stored g'.
Proof.
  induction inputs as [|i inputs IH]; intros g g' l Hh Hs H; cbn in H; [by inv_bind|].
  apply Forall_cons in Hh as [Hi Hh]. destruct (input_step g i) as [g1 l1] eqn:E1.
  destruct (inputs_run g1 inputs) as [g2 l2] eqn:E2. inv_bind. eapply IH; [done| |exact E2].
  by eapply stored_input.
Qed.

(** *** Reading entries back *)
Lemma take_seq_put {A} (put : A -> result Error bytes) (take : list A -> bytes -> result Error (A * bytes))
    (Q : list A -> A -> Prop) :
  (forall before x bs rest, Q before x -> put x = Ok bs -> take before (bs ++ rest) = Ok (x, rest)) ->
  forall l before bs rest,
    (forall l1 x l2, l = l1 ++ x :: l2 -> Q (before ++ l1) x) -> gput_many put l = Ok bs ->
    take_seq take (length l) before (bs ++ rest) = Ok (before ++ l, rest).
Proof.
  intros Htake. induction l as [|x l IH]; intros before bs rest HQ H; cbn in H.
  { inv_bind. by rewrite app_nil_r. }
  inv_bind. cbn [length take_seq]. rewrite <- app_assoc, (Htake before x).
  - cbn [mbind result_bind]. rewrite IH; [by rewrite <- app_assoc| |done].
    intros l1 y l2 ->. rewrite <- app_assoc. by apply (HQ (x :: l1) y l2).
  - rewrite <- (app_nil_r before). by apply (HQ [] x l).
  - done.
Qed.

Lemma take_seq_inv {A} (put : A -> result Error bytes) (take : list A -> bytes -> result Error (A * bytes)) :
  (forall before cursor x rest, take before cursor = Ok (x, rest) ->
    exists bs, put x = Ok bs /\ cursor = bs ++ rest) ->
  forall n before cursor l rest, take_seq take n before cursor = Ok (l, rest) ->
    exists items bs, l = before ++ items /\ length items = n /\ gput_many put items = Ok bs /\ cursor = bs ++ rest.
Proof.
  intros Htake. induction n as [|n IH]; intros before cursor l rest H; cbn in H; inv_bind.
  { exists [], []. by rewrite app_nil_r. }
  apply Htake in E as (b1 & H1 & ->). apply IH in H as (items & b2 & -> & <- & H2 & ->).
  exists (a :: items), (b1 ++ b2). cbn. rewrite H1. cbn. rewrite H2. cbn. by rewrite <- !app_assoc.
Qed.

Lemma existsb_key (l : list Accepted) k :
  ~ (k ∈ (a_key <$> l)) -> existsb (fun item => bool_decide (a_key item = k)) l = false.
Proof.
  intros H. apply not_true_iff_false. rewrite existsb_exists. intros (a & Ha & Hk). bool_prop.
  apply H. rewrite <- Hk. by apply list_elem_of_fmap_2, list_elem_of_In.
Qed.

Lemma existsb_id (l : list Accepted) n :
  ~ (n ∈ (a_event_id <$> l)) -> existsb (fun item => a_event_id item =? n) l = false.
Proof.
  intros H. apply not_true_iff_false. rewrite existsb_exists. intros (a & Ha & Hk). bool_prop.
  apply H. rewrite <- Hk. by apply list_elem_of_fmap_2, list_elem_of_In.
Qed.

Lemma existsb_context (l : list Deferred) k :
  ~ (k ∈ ((fun d => context_key (d_context d)) <$> l)) ->
  existsb (fun item => bool_decide (context_key (d_context item) = k)) l = false.
Proof.
  intros H. apply not_true_iff_false. rewrite existsb_exists. intros (a & Ha & Hk). bool_prop.
  apply H. rewrite <- Hk. apply (list_elem_of_fmap_2 (fun d => context_key (d_context d))). by apply list_elem_of_In.
Qed.

(** What the decoder tests of an entry, given those before it. *)
Definition entry_reads (g : GroupReceiver) (before : list Accepted) (a : Accepted) : Prop :=
  entry_wf a /\ accepted_ok g a /\ member_ok (k_sender (a_key a)) /\ a_event_id a < next_event_id g /\
  ~ (a_key a ∈ (a_key <$> before)) /\ ~ (a_event_id a ∈ (a_event_id <$> before)).

Lemma take_accepted_put g before a bs rest :
  0 <= revision (g_roster g) <= u64_max -> next_event_id g <= u64_max ->
  entry_reads g before a -> put_accepted a = Ok bs ->
  take_accepted (g_roster g) (next_event_id g) before (bs ++ rest) = Ok (a, rest).
Proof.
  intros Hr Hn ((Hseq & Hcm & Hid) & (Hg & Hrev & Hm) & Hmem & Hlt & Hk & Hi) H.
  unfold put_accepted in H. inv_bind. rewrite Hrev. unfold take_accepted, digest_try_from.
  parses_fwd. rewrite gtake_u64_app by lia. cbn [mbind result_bind].
  rewrite Z.eqb_refl, Hm, Z.geb_leb, (proj2 (Z.leb_gt _ _) Hlt). cbn [negb orb].
  assert (mkKey (r_group_id (g_roster g)) (revision (g_roster g)) (k_sender (a_key a)) (k_sequence (a_key a))
          = a_key a) as Hkey by (rewrite <- Hg, <- Hrev; by destruct (a_key a)).
  rewrite Hkey, existsb_key, existsb_id by done. cbn [orb]. by destruct a.
Qed.

Lemma take_accepted_inv r next before cursor a rest :
  take_accepted r next before cursor = Ok (a, rest) ->
  exists bs, put_accepted a = Ok bs /\ cursor = bs ++ rest.
Proof.
  unfold take_accepted. intros H. inv_bind. parses_inv. bool_prop. subst.
  eexists. split.
  - unfold put_accepted. cbn. gput_fwd. done.
  - by rewrite <- !app_assoc.
Qed.

Definition deferred_reads (g : GroupReceiver) (before : list Deferred) (d : Deferred) : Prop :=
  deferred_wf d /\ deferred_ok g d /\
  ~ (context_key (d_context d) ∈ ((fun d => context_key (d_context d)) <$> before)).

Lemma take_deferred_put g before d bs rest :
  deferred_reads g before d -> put_deferred d = Ok bs ->
  take_deferred (g_roster g) (g_local g) payload_commitment before (bs ++ rest) = Ok (d, rest).
Proof.
  intros (((Hwf & cb & Hcb & Hcm) & Hl) & (Hg & Hrec & Hahead) & Hk) H.
  unfold put_deferred in H. rewrite Hcb in H. cbn [mbind result_bind] in H. inv_bind. unfold take_deferred, digest_try_from.
  parses_fwd. rewrite Z.gtb_ltb, (proj2 (Z.ltb_ge _ _)) by (by eapply context_encode_bound).
  rewrite (proj2 (context_decode_encode cb (d_context d))) by done. parses_fwd.
  rewrite Hg, Hrec, <- Hcm, !bool_decide_eq_true_2 by done.
  rewrite (proj2 (Z.leb_gt _ _)), Z.gtb_ltb, (proj2 (Z.ltb_ge _ _)) by lia. cbn [negb orb].
  rewrite existsb_context by done. by destruct d.
Qed.

Lemma take_deferred_inv r local before cursor d rest :
  take_deferred r local payload_commitment before cursor = Ok (d, rest) ->
  exists bs, put_deferred d = Ok bs /\ cursor = bs ++ rest.
Proof.
  unfold take_deferred. intros H. inv_bind. parses_inv.
  match goal with H : context_decode _ = Ok _ |- _ => apply context_decode_encode in H as [_ ?] end.
  eexists. split.
  - unfold put_deferred. cbn. gput_fwd. done.
  - by rewrite <- !app_assoc.
Qed.

Lemma gput_many_le {A} (put : A -> result Error bytes) (n : Z) (l : list A) bs :
  Forall (fun x => forall b, put x = Ok b -> len b <= n) l -> gput_many put l = Ok bs -> len bs <= n * len l.
Proof.
  intros Hl. revert bs. induction Hl as [|x l Hx _ IH]; intros bs H; cbn in H; inv_bind.
  - unfold len. cbn. lia.
  - rewrite len_app, len_cons. specialize (Hx _ eq_refl). specialize (IH _ eq_refl). lia.
Qed.

Lemma member_len_bound m : member_ok m -> member_len m <= 8 + MAX_IDENTITY_LEN + MAX_DEVICE_LEN.
Proof. intros [? ?]%member_ok_spec. unfold member_len, lp_len. lia. Qed.

Lemma one_each_NoDup l : one_each l = true <-> NoDup l.
Proof.
  induction l as [|x l IH]; cbn; [by split; [constructor|]|].
  rewrite andb_true_iff, IH, NoDup_cons, negb_true_iff, bool_decide_eq_false. done.
Qed.

(** The entries of a receiver that satisfies both invariants read back. *)
Lemma entries_read g : receiver_inv g -> stored g -> next_event_id g < u64_max ->
  Forall (fun a => member_ok (k_sender (a_key a))) (g_accepted g) ->
  forall l1 a l2, g_accepted g = l1 ++ a :: l2 -> entry_reads g l1 a.
Proof.
  intros Hi Hs Hn Hm l1 a l2 Heq. destruct (st_ids g Hs Hn) as [Hso Hlt].
  assert (a ∈ g_accepted g) as Hin by (rewrite Heq; set_solver).
  pose proof (st_accepted g Hs) as Hw. pose proof (ri_accepted g Hi) as Hok.
  rewrite Forall_forall in Hw, Hok, Hm, Hlt.
  split; [by apply Hw|split; [by apply Hok|split; [by apply Hm|split; [by apply Hlt|split]]]].
  - pose proof (ri_accepted_keys g Hi) as Hk. rewrite Heq, fmap_app in Hk.
    apply NoDup_app in Hk as (_ & Hk & _). intros Hx. apply (Hk _ Hx). by left.
  - assert (NoDup (a_event_id <$> g_accepted g)) as Hk.
    { clear -Hso. induction Hso as [|x l _ IH Hx]; [constructor|]. constructor; [|done].
      intros Hin. rewrite Forall_forall in Hx. apply Hx in Hin. lia. }
    rewrite Heq, fmap_app in Hk. apply NoDup_app in Hk as (_ & Hk & _). intros Hx. apply (Hk _ Hx). by left.
Qed.

Lemma deferred_read g : receiver_inv g -> stored g ->
  forall l1 d l2, g_deferred g = l1 ++ d :: l2 -> deferred_reads g l1 d.
Proof.
  intros Hi Hs l1 d l2 Heq. assert (d ∈ g_deferred g) as Hin by (rewrite Heq; set_solver).
  pose proof (st_deferred g Hs) as Hw. pose proof (ri_deferred g Hi) as Hok. rewrite Forall_forall in Hw, Hok.
  split; [by apply Hw|]. split; [by apply Hok|].
  pose proof (ri_deferred_keys g Hi) as Hk. unfold deferred_keys in Hk. rewrite Heq, fmap_app in Hk.
  apply NoDup_app in Hk as (_ & Hk & _). intros Hx. apply (Hk _ Hx). by left.
Qed.

Lemma listed_ok r m : roster_valid r -> lists_member r m = true -> member_ok m.
Proof.
  intros Hv Hm%lists_member_true. pose proof (rv_members r Hv) as H. rewrite Forall_forall in H. by apply H.
Qed.

(** The pieces of the checkpoint exist and are short. *)
Lemma accepted_written g : stored g -> Forall (fun a => member_ok (k_sender (a_key a))) (g_accepted g) ->
  exists bs, gput_many put_accepted (g_accepted g) = Ok bs /\ len bs <= 384 * len (g_accepted g).
Proof.
  intros Hs Hm. pose proof (st_accepted g Hs) as Hw.
  destruct (gput_many_fits (put_item := put_accepted) (g_accepted g)) as [bs Hbs].
  { eapply Forall_impl; [exact Hm|]. intros a [b Hb]%gput_member_fits. unfold put_accepted. rewrite Hb.
    cbn. eauto. }
  exists bs. split; [done|]. eapply gput_many_le; [|exact Hbs]. apply Forall_forall. intros a Ha b Hb.
  rewrite Forall_forall in Hw, Hm. destruct (Hw a Ha) as (_ & Hl & _). specialize (Hm a Ha).
  unfold put_accepted in Hb. inv_bind. apply gput_member_len in E. apply member_len_bound in Hm.
  autorewrite with lens. rewrite E, Hl. unfold MAX_IDENTITY_LEN, MAX_DEVICE_LEN, DIGEST_LEN in *. lia.
Qed.

Lemma deferred_written g : stored g ->
  exists bs, gput_many put_deferred (g_deferred g) = Ok bs /\ len bs <= 2084 * len (g_deferred g).
Proof.
  intros Hs. pose proof (st_deferred g Hs) as Hw.
  destruct (gput_many_fits (put_item := put_deferred) (g_deferred g)) as [bs Hbs].
  { eapply Forall_impl; [exact Hw|]. intros d ((Hwf & cb & Hcb & _) & _). unfold put_deferred. rewrite Hcb.
    cbn [mbind result_bind]. pose proof (context_encode_bound _ _ Hwf Hcb) as Hb.
    rewrite gput_lp_fits by (unfold MAX_APPLICATION_CONTEXT_LEN, u32_max in *; lia). cbn. eauto. }
  exists bs. split; [done|]. eapply gput_many_le; [|exact Hbs]. apply Forall_forall. intros d Hd b Hb.
  rewrite Forall_forall in Hw. destruct (Hw d Hd) as ((Hwf & cb & Hcb & _) & Hl).
  unfold put_deferred in Hb. rewrite Hcb in Hb. cbn [mbind result_bind] in Hb. inv_bind.
  apply gput_lp_len in E. pose proof (context_encode_bound _ _ Hwf Hcb) as Hbd.
  rewrite len_app, E, Hl. unfold lp_len, MAX_APPLICATION_CONTEXT_LEN, DIGEST_LEN in *. lia.
Qed.

(** The decoder's unlisted test passes on the invariant. *)
Lemma unlisted_passes g : receiver_inv g ->
  (len (unlisted g) >? MAX_DEFERRED_UNLISTED) || negb (one_each (unlisted_ids g)) = false.
Proof.
  intros Hi. destruct (ri_unlisted g Hi) as [H1 H2%one_each_NoDup].
  by rewrite H2, Z.gtb_ltb, (proj2 (Z.ltb_ge _ _) H1).
Qed.

(** A terminal receiver has empty lists, as the decoder demands. *)
Lemma terminal_passes g n (l : list n) : receiver_inv g ->
  (receiver_is_active g (g_local g) = false -> l = []) ->
  (closed (g_roster g) || negb (lists_member (g_roster g) (g_local g))) && negb (len l =? 0) = false.
Proof.
  intros Hi Hl. unfold receiver_is_active, roster_active in Hl. destruct (closed (g_roster g)); cbn in *.
  - by rewrite Hl.
  - destruct (lists_member _ _); cbn in *; [done|]. by rewrite Hl.
Qed.

Lemma receiver_written g : receiver_inv g -> stored g ->
  exists rb lb ab db,
    roster_encode (g_roster g) = Ok rb /\ g_roster_digest g = roster_commitment rb /\
    gput_member (g_local g) = Ok lb /\
    gput_many put_accepted (g_accepted g) = Ok ab /\ gput_many put_deferred (g_deferred g) = Ok db /\
    receiver_encode_state g = Ok (RECEIVER_STATE_DOMAIN ++ (be32 (len rb) ++ rb) ++ g_roster_digest g ++ lb
      ++ be64 (next_event_id g) ++ be32 (len (g_accepted g)) ++ ab ++ be32 (len (g_deferred g)) ++ db) /\
    len (RECEIVER_STATE_DOMAIN ++ (be32 (len rb) ++ rb) ++ g_roster_digest g ++ lb
      ++ be64 (next_event_id g) ++ be32 (len (g_accepted g)) ++ ab ++ be32 (len (g_deferred g)) ++ db)
      <= MAX_RECEIVER_STATE_LEN.
Proof.
  intros Hi Hs. destruct (st_roster g Hs) as [(Hwf & rb & Hrb & Hdg) Hdl].
  pose proof (proj2 (roster_encode_Ok _ Hwf) (ex_intro _ _ Hrb)) as Hv.
  assert (Forall (fun a => member_ok (k_sender (a_key a))) (g_accepted g)) as Hm.
  { eapply Forall_impl; [apply Hi|]. intros a (_ & _ & Ha). by eapply listed_ok. }
  destruct (gput_member_fits _ (st_local g Hs)) as [lb Hlb].
  destruct (accepted_written g Hs Hm) as (ab & Hab & Hal). destruct (deferred_written g Hs) as (db & Hdb & Hdl').
  pose proof (accepted_count g Hi) as Hac. pose proof (ri_deferred_count g Hi) as Hdc.
  pose proof (rv_count _ Hv) as Hmc. pose proof (roster_encode_bound _ _ Hwf Hrb) as Hrl.
  pose proof (len_nonneg (g_accepted g)). pose proof (len_nonneg (g_deferred g)).
  pose proof (gput_member_len _ _ Hlb) as Hll. pose proof (member_len_bound _ (st_local g Hs)) as Hlm.
  unfold MAX_MEMBERS, DEDUP_WINDOW, MAX_DEFERRED, MAX_ROSTER_LEN, MAX_IDENTITY_LEN, MAX_DEVICE_LEN in *.
  exists rb, lb, ab, db.
  assert (len (RECEIVER_STATE_DOMAIN ++ (be32 (len rb) ++ rb) ++ g_roster_digest g ++ lb
      ++ be64 (next_event_id g) ++ be32 (len (g_accepted g)) ++ ab ++ be32 (len (g_deferred g)) ++ db)
      <= MAX_RECEIVER_STATE_LEN) as Hlen.
  { autorewrite with lens. rewrite Hdl, Hll. change (len RECEIVER_STATE_DOMAIN) with 31.
    unfold MAX_RECEIVER_STATE_LEN, DIGEST_LEN. lia. }
  split_and!; try done. unfold receiver_encode_state. rewrite Hrb. cbn [mbind result_bind].
  rewrite (st_local g Hs). cbn [mbind result_bind].
  rewrite gput_lp_fits by (unfold u32_max; lia). cbn [mbind result_bind]. rewrite Hlb. cbn [mbind result_bind].
  rewrite gput_u32_fits by (unfold u32_max; lia). cbn [mbind result_bind]. rewrite Hab. cbn [mbind result_bind].
  rewrite gput_u32_fits by (unfold u32_max; lia). cbn [mbind result_bind]. rewrite Hdb. cbn [mbind result_bind].
  by rewrite Z.gtb_ltb, (proj2 (Z.ltb_ge _ _) Hlen).
Qed.

Lemma receiver_decode_encode g : receiver_inv g -> stored g -> next_event_id g < u64_max ->
  exists bs, receiver_encode_state g = Ok bs /\
    receiver_decode_state bs roster_commitment payload_commitment = Ok g.
Proof.
  intros Hi Hs Hn. destruct (receiver_written g Hi Hs) as (rb & lb & ab & db & Hrb & Hdg & Hlb & Hab & Hdb & He & Hlen).
  eexists. split; [exact He|]. destruct (st_roster g Hs) as [[Hwf _] Hdl].
  pose proof (proj2 (roster_encode_Ok _ Hwf) (ex_intro _ _ Hrb)) as Hv.
  pose proof (accepted_count g Hi) as Hac. pose proof (ri_deferred_count g Hi) as Hdc.
  pose proof (rv_count _ Hv) as Hmc. pose proof (roster_encode_bound _ _ Hwf Hrb) as Hrl.
  pose proof (len_nonneg (g_accepted g)). pose proof (len_nonneg (g_deferred g)). pose proof (st_next g Hs) as Hnx.
  assert (Forall (fun a => member_ok (k_sender (a_key a))) (g_accepted g)) as Hm.
  { eapply Forall_impl; [apply Hi|]. intros a (_ & _ & Ha). by eapply listed_ok. }
  pose proof (st_local g Hs) as Hlo. destruct Hwf as (Hwf1 & Hwf2 & Hwf3).
  unfold receiver_decode_state. rewrite Z.gtb_ltb, (proj2 (Z.ltb_ge _ _) Hlen), starts_with_app.
  cbn [negb orb]. rewrite drop_app_length. cbv zeta.
  assert (gput_lp rb = Ok (be32 (len rb) ++ rb)) as Hrlp
    by (apply gput_lp_fits; unfold MAX_ROSTER_LEN, u32_max in *; lia).
  erewrite (parses_read (take := gtake_lp)) by eauto. cbn [mbind result_bind].
  rewrite Z.gtb_ltb, (proj2 (Z.ltb_ge _ _) Hrl), (proj2 (roster_decode_encode rb (g_roster g))) by done.
  cbn [mbind result_bind]. unfold digest_try_from. parses_fwd.
  rewrite bool_decide_eq_true_2 by done. cbn [negb]. parses_fwd.
  unfold MAX_MEMBERS, DEDUP_WINDOW, MAX_DEFERRED in *.
  rewrite gtake_u32_app by (unfold u32_max; lia). cbn [mbind result_bind].
  rewrite Z.gtb_ltb, (proj2 (Z.ltb_ge _ _)) by lia.
  rewrite terminal_passes by (done || intros; by apply (ri_terminal g Hi)).
  rewrite to_nat_len.
  rewrite (take_seq_put put_accepted _ (entry_reads g)); [|intros; apply take_accepted_put; try done; lia
    |by apply entries_read|done].
  cbn [app mbind result_bind]. rewrite gtake_u32_app by (unfold u32_max; lia). cbn [mbind result_bind].
  rewrite Z.gtb_ltb, (proj2 (Z.ltb_ge _ _)) by lia.
  rewrite terminal_passes by (done || intros; by apply (ri_terminal g Hi)).
  rewrite to_nat_len, <- (app_nil_r db).
  rewrite (take_seq_put put_deferred _ (deferred_reads g)); [|intros; by apply take_deferred_put
    |by apply deferred_read|done].
  cbn [app mbind result_bind].
  pose proof (unlisted_passes g Hi) as Hun. unfold unlisted_ids, unlisted, receiver_is_active in Hun.
  rewrite Hun. by destruct g.
Qed.

(** Only a checkpoint decodes. *)
Lemma receiver_decode_inv bs g :
  receiver_decode_state bs roster_commitment payload_commitment = Ok g -> receiver_encode_state g = Ok bs.
Proof.
  unfold receiver_decode_state. intros H.
  destruct ((len bs >? MAX_RECEIVER_STATE_LEN) || negb (starts_with RECEIVER_STATE_DOMAIN bs)) eqn:G0; [done|].
  bool_prop. match goal with H : starts_with _ _ = true |- _ => apply starts_with_true in H as [rest ->] end.
  rewrite drop_app_length in H. cbv zeta in H. inv_bind. parses_inv.
  match goal with H : roster_decode _ = Ok _ |- _ => apply roster_decode_encode in H as [_ ?] end.
  match goal with H : take_seq (take_accepted _ _) _ _ _ = Ok _ |- _ =>
    apply (take_seq_inv put_accepted) in H as (acc & ab & -> & Hla & Hab & ->);
    [|intros; by eapply take_accepted_inv] end.
  parses_inv.
  match goal with H : take_seq (take_deferred _ _ _) _ _ _ = Ok _ |- _ =>
    apply (take_seq_inv put_deferred) in H as (def & db & -> & Hld & Hdb & ->);
    [|intros; by eapply take_deferred_inv] end.
  apply count_of_length in Hla as <-; [|lia]. apply count_of_length in Hld as <-; [|lia].
  match goal with H : member_ok _ |- _ => unfold member_ok in H end. rewrite app_nil_r in *.
  unfold receiver_encode_state. cbn [g_roster g_roster_digest g_local g_accepted g_deferred next_event_id].
  gput_fwd. rewrite gput_u32_fits by lia. cbn [mbind result_bind]. gput_fwd.
  rewrite gput_u32_fits by lia. cbn [mbind result_bind]. gput_fwd. by rewrite Z.gtb_ltb, (proj2 (Z.ltb_ge _ _)).
Qed.
End Checkpoint.

(** A receiver survives a restart: the receiver of any run whose contexts
    and rosters are valid and carry the caller's commitments (and that has not
    issued the last event identifier) has a checkpoint, that checkpoint
    restores exactly that receiver, with the event identifiers, the windows
    and the deferred contexts, and no other byte string restores it. *)
Lemma receiver_restores rc pc r digest local inputs g log :
  committed_roster rc r digest -> len digest = DIGEST_LEN -> member_ok local ->
  Forall (honest_input rc pc) inputs ->
  inputs_run (receiver_new r digest local) inputs = (g, log) ->
  events_issued g < u64_max ->
  exists bs, receiver_encode_state g = Ok bs /\ (forall bs', receiver_decode_state bs' rc pc = Ok g <-> bs' = bs).
Proof.
  intros Hr Hd Hl Hh H Hn.
  assert (receiver_inv g) as Hi by (eapply receiver_inv_run; [exact H|apply receiver_inv_empty]).
  assert (stored rc pc g) as Hs.
  { eapply stored_run; [exact Hh| |exact H]. split; cbn; try done; try constructor; try constructor. }
  destruct (receiver_decode_encode rc pc g Hi Hs Hn) as (bs & He & Hdec). exists bs. split; [done|].
  intros bs'. split; [|by intros ->]. intros Hx%receiver_decode_inv. congruence.
Qed.

(** Commitments for the witness: every preimage to one digest. *)
Definition const_digest (b : byte) (_ : bytes) : bytes := replicate 32 b.

