(* ===== verification/GroupSend.v ===== *)
(** * GroupSend: logical sends and their outbox ([tacenta-group/src/send.rs])

    A logical send fixes its identifier, payload and recipients; each recipient
    then moves through preparation, at most three handoffs and an end.  The
    outbox holds the sends of one group in order, at most eight of them live.
    A method on [&mut self] returns the value it leaves and its result.  The
    recovery of an outbox from a transcript is in GroupTranscript. *)

From S2P Require Import Prelude GroupCodec.

Definition LOGICAL_SEND_DOMAIN : bytes := bstr "Tacenta Group Logical Send v1".
Arguments LOGICAL_SEND_DOMAIN : simpl never.

Record LogicalMessageId := mkLogicalId {
  l_group_id : GroupId; l_revision : Z; l_sender : Member; l_sequence : Z
}.

#[global] Instance LogicalMessageId_eq_dec : EqDecision LogicalMessageId.
Proof. solve_decision. Defined.

Definition logical_id_new (g : GroupId) (rev : Z) (s : Member) (seq : Z) : result Error LogicalMessageId :=
  if rev =? RESERVED_REVISION then Err ReservedRevision else
  Ok (mkLogicalId g rev s seq).

Inductive RecipientDisposition :=
| PPending | PPrepared | PHandedOff | PRelayAccepted | PCancelled | PCancelledAfterHandoff
| PExhaustedUnknown.

#[global] Instance RecipientDisposition_eq_dec : EqDecision RecipientDisposition.
Proof. solve_decision. Defined.

Record RecipientProgress := mkProgress {
  p_recipient : Member;
  disposition : RecipientDisposition;
  context_commitment : option bytes;
  ciphertext : option bytes;
  attempts_reserved : Z
}.

#[global] Instance RecipientProgress_eq_dec : EqDecision RecipientProgress.
Proof. solve_decision. Defined.

Record LogicalSend := mkSend {
  s_id : LogicalMessageId;
  s_roster_digest : bytes;
  s_payload : bytes;
  recipients : list RecipientProgress
}.

#[global] Instance LogicalSend_eq_dec : EqDecision LogicalSend.
Proof. solve_decision. Defined.

Record GroupOutbox := mkOutbox {
  o_group_id : GroupId; sends : list LogicalSend; applied_revision : Z
}.

Inductive OutboxDisposition := Inserted | ODuplicate.

#[global] Instance OutboxDisposition_eq_dec : EqDecision OutboxDisposition.
Proof. solve_decision. Defined.

(** ** A logical send *)

(** The recipient a new send lists: pending, with nothing stored. *)
Definition pending_progress (m : Member) : RecipientProgress := mkProgress m PPending None None 0.

Fixpoint validate_recipients (r : Roster) (previous : option Member) (identities : gset bytes)
    (ms : list Member) : result Error unit :=
  match ms with
  | [] => Ok tt
  | m :: ms =>
      _ ← guard_err NotMember (negb (existsb (fun known => bool_decide (known = m)) (members r)));
      _ ← guard_err NonCanonical
            (match previous with
             | Some p => negb (bool_decide (canonical_cmp p m = Lt))
             | None => false
             end);
      _ ← guard_err NonCanonical (bool_decide (m_identity m ∈ identities));
      validate_recipients r (Some m) ({[m_identity m]} ∪ identities) ms
  end.

Fixpoint validate_recovery_recipients (previous : option Member) (identities : gset bytes)
    (ms : list Member) : result Error unit :=
  match ms with
  | [] => Ok tt
  | m :: ms =>
      _ ← guard_err NonCanonical
            (match previous with
             | Some p => negb (bool_decide (canonical_cmp p m = Lt))
             | None => false
             end);
      _ ← guard_err NonCanonical (bool_decide (m_identity m ∈ identities));
      validate_recovery_recipients (Some m) ({[m_identity m]} ∪ identities) ms
  end.

Definition send_new (r : Roster) (digest : bytes) (s : Member) (seq : Z) (rs : list Member)
    (payload : bytes) : result Error LogicalSend :=
  if closed r then Err Closed else
  if revision r =? RESERVED_REVISION then Err ReservedRevision else
  if negb (existsb (fun known => bool_decide (known = s)) (members r)) then Err NotMember else
  if bool_decide (rs = []) then Err EmptyRecipients else
  if len payload >? MAX_PAYLOAD_LEN then Err PayloadTooLarge else
  _ ← validate_recipients r None ∅ rs;
  id ← logical_id_new (r_group_id r) (revision r) s seq;
  Ok (mkSend id digest payload (pending_progress <$> rs)).

Definition is_final (d : RecipientDisposition) : bool :=
  match d with
  | PRelayAccepted | PCancelled | PCancelledAfterHandoff | PExhaustedUnknown => true
  | _ => false
  end.

Definition is_terminal (s : LogicalSend) : bool :=
  forallb (fun p => is_final (disposition p)) (recipients s).

Fixpoint validate_each (ms : list Member) : result Error unit :=
  match ms with
  | [] => Ok tt
  | m :: ms => _ ← member_validate m; validate_each ms
  end.

Definition validate_intent (s : LogicalSend) : result Error unit :=
  _ ← member_validate (l_sender (s_id s));
  if len (s_payload s) >? MAX_PAYLOAD_LEN then Err PayloadTooLarge else
  if bool_decide (recipients s = []) then Err EmptyRecipients else
  if len (recipients s) >? MAX_MEMBERS then Err TooManyMembers else
  _ ← validate_each (p_recipient <$> recipients s);
  _ ← validate_recovery_recipients None ∅ (p_recipient <$> recipients s);
  if l_revision (s_id s) =? RESERVED_REVISION then Err ReservedRevision else
  Ok tt.

Definition encode_intent (s : LogicalSend) : result Error bytes :=
  _ ← validate_intent s;
  count ← gput_u32 (len (recipients s));
  g ← gput_lp (l_group_id (s_id s));
  m ← gput_member (l_sender (s_id s));
  d ← gput_lp (s_roster_digest s);
  p ← gput_lp (s_payload s);
  rs ← gput_many gput_member (p_recipient <$> recipients s);
  Ok (LOGICAL_SEND_DOMAIN ++ g ++ be64 (l_revision (s_id s)) ++ m ++ be64 (l_sequence (s_id s))
      ++ d ++ p ++ count ++ rs).

Definition decode_intent (bs : bytes) : result Error LogicalSend :=
  if negb (starts_with LOGICAL_SEND_DOMAIN bs) then Err Malformed else
  let cursor := drop (length LOGICAL_SEND_DOMAIN) bs in
  '(g, cursor) ← gtake_lp cursor;
  group_id ← group_id_try_from g;
  '(rev, cursor) ← gtake_u64 cursor;
  '(s, cursor) ← gtake_member cursor;
  '(seq, cursor) ← gtake_u64 cursor;
  '(d, cursor) ← gtake_lp cursor;
  digest ← digest_try_from d;
  '(payload, cursor) ← gtake_lp cursor;
  if len payload >? MAX_PAYLOAD_LEN then Err PayloadTooLarge else
  '(count, cursor) ← gtake_u32 cursor;
  if count =? 0 then Err EmptyRecipients else
  if count >? MAX_MEMBERS then Err TooManyMembers else
  '(rs, cursor) ← gtake_many gtake_member (Z.to_nat count) cursor;
  match cursor with
  | [] =>
      _ ← validate_recovery_recipients None ∅ rs;
      id ← logical_id_new group_id rev s seq;
      Ok (mkSend id digest payload (pending_progress <$> rs))
  | _ => Err Malformed
  end.

Definition same_immutable_fields (s candidate : LogicalSend) : bool :=
  bool_decide (s_id s = s_id candidate)
  && bool_decide (s_roster_digest s = s_roster_digest candidate)
  && bool_decide (s_payload s = s_payload candidate)
  && (len (recipients s) =? len (recipients candidate))
  && forallb (fun lr => bool_decide (p_recipient lr.1 = p_recipient lr.2))
       (zip (recipients s) (recipients candidate)).

(** [progress] and [progress_mut]: the first entry of a recipient, and its place. *)
Definition progress_at (s : LogicalSend) (m : Member) : option (nat * RecipientProgress) :=
  list_find (fun p => p_recipient p = m) (recipients s).

Definition progress (s : LogicalSend) (m : Member) : result Error RecipientProgress :=
  ok_or NotMember (snd <$> progress_at s m).

Definition application_context (s : LogicalSend) (m : Member) : result Error ApplicationContext :=
  _ ← progress s m;
  context_new (l_group_id (s_id s)) (l_revision (s_id s)) (s_roster_digest s) (l_sender (s_id s)) m
    (l_sequence (s_id s)) (s_payload s).

Definition with_disposition (p : RecipientProgress) (d : RecipientDisposition) : RecipientProgress :=
  mkProgress (p_recipient p) d (context_commitment p) (ciphertext p) (attempts_reserved p).

(** The bodies of the methods on one recipient's progress. *)
Definition prepare_one (cm ct : bytes) (p : RecipientProgress) : RecipientProgress * result Error RecipientProgress :=
  match disposition p with
  | PPending =>
      let p' := mkProgress (p_recipient p) PPrepared (Some cm) (Some ct) (attempts_reserved p) in
      (p', Ok p')
  | PPrepared | PHandedOff =>
      (p, if bool_decide (context_commitment p = Some cm) && bool_decide (ciphertext p = Some ct)
          then Ok p else Err Conflict)
  | _ => (p, Err WrongDisposition)
  end.

Definition handoff_one (p : RecipientProgress) : RecipientProgress * result Error RecipientProgress :=
  match disposition p with
  | PPrepared | PHandedOff =>
      if bool_decide (ciphertext p = None) then (p, Err WrongDisposition) else
      if attempts_reserved p >=? 3 then (with_disposition p PExhaustedUnknown, Err RetryExhausted) else
      let n := attempts_reserved p + 1 in
      let p' := mkProgress (p_recipient p) (if n =? 3 then PExhaustedUnknown else PHandedOff)
                  (context_commitment p) (ciphertext p) n in
      (p', Ok p')
  | PExhaustedUnknown => (p, Err RetryExhausted)
  | _ => (p, Err WrongDisposition)
  end.

Definition accept_one (p : RecipientProgress) : RecipientProgress * result Error RecipientProgress :=
  match disposition p with
  | PHandedOff | PExhaustedUnknown =>
      let p' := with_disposition p PRelayAccepted in (p', Ok p')
  | _ => (p, Err WrongDisposition)
  end.

Definition cancel_one (p : RecipientProgress) : RecipientProgress :=
  match disposition p with
  | PPending | PPrepared => with_disposition p PCancelled
  | PHandedOff => with_disposition p PCancelledAfterHandoff
  | _ => p
  end.

Definition with_recipients (s : LogicalSend) (l : list RecipientProgress) : LogicalSend :=
  mkSend (s_id s) (s_roster_digest s) (s_payload s) l.

(** [progress_mut(m)?] and the body on what it points at. *)
Definition on_progress (s : LogicalSend) (m : Member)
    (body : RecipientProgress -> RecipientProgress * result Error RecipientProgress)
    : LogicalSend * result Error RecipientProgress :=
  match progress_at s m with
  | None => (s, Err NotMember)
  | Some (k, p) => let '(p', r) := body p in (with_recipients s (<[k := p']> (recipients s)), r)
  end.

Definition record_prepared (s : LogicalSend) (m : Member) (cm ct : bytes)
    : LogicalSend * result Error RecipientProgress := on_progress s m (prepare_one cm ct).

Definition reserve_handoff (s : LogicalSend) (m : Member)
    : LogicalSend * result Error RecipientProgress := on_progress s m handoff_one.

Definition record_relay_accepted (s : LogicalSend) (m : Member)
    : LogicalSend * result Error RecipientProgress := on_progress s m accept_one.

Definition cancel_for_roster_change (s : LogicalSend) (removed : Member)
    : LogicalSend * result Error RecipientProgress :=
  on_progress s removed (fun p => (cancel_one p, Ok (cancel_one p))).

Definition send_cancel_for_newer_roster (s : LogicalSend) (rev : Z) : LogicalSend :=
  if l_revision (s_id s) >=? rev then s else with_recipients s (cancel_one <$> recipients s).

(** ** The outbox *)
Definition outbox_new (g : GroupId) : GroupOutbox := mkOutbox g [] 0.

Definition highest_sequence (o : GroupOutbox) (rev : Z) (s : Member) : option Z :=
  max_of ((fun x => l_sequence (s_id x)) <$>
    filter (fun x => l_revision (s_id x) = rev /\ l_sender (s_id x) = s) (sends o)).

Definition next_sequence (o : GroupOutbox) (rev : Z) (s : Member) : result Error Z :=
  match highest_sequence o rev s with
  | None => Ok 0
  | Some highest => ok_or SequenceExhausted (checked_add64 highest 1)
  end.

Definition send_at (o : GroupOutbox) (id : LogicalMessageId) : option (nat * LogicalSend) :=
  list_find (fun s => s_id s = id) (sends o).

Definition outbox_send (o : GroupOutbox) (id : LogicalMessageId) : result Error LogicalSend :=
  ok_or Malformed (snd <$> send_at o id).

Definition with_sends (o : GroupOutbox) (l : list LogicalSend) : GroupOutbox :=
  mkOutbox (o_group_id o) l (applied_revision o).

(** [send_mut(id)?] and a method on the send it points at. *)
Definition on_send {A} (o : GroupOutbox) (id : LogicalMessageId)
    (method : LogicalSend -> LogicalSend * result Error A) : GroupOutbox * result Error A :=
  match send_at o id with
  | None => (o, Err Malformed)
  | Some (k, s) => let '(s', r) := method s in (with_sends o (<[k := s']> (sends o)), r)
  end.

Definition stays_live (cancelled_below : option Z) (s : LogicalSend) : bool :=
  match cancelled_below with Some rev => l_revision (s_id s) >=? rev | None => true end.

Definition live_count (cancelled_below : option Z) (l : list LogicalSend) : Z :=
  len (filter (fun s => is_terminal s = false /\ stays_live cancelled_below s = true) l).

Definition insert (o : GroupOutbox) (s : LogicalSend) (cancelled_below : option Z)
    : GroupOutbox * result Error OutboxDisposition :=
  if negb (bool_decide (l_group_id (s_id s) = o_group_id o)) then (o, Err Conflict) else
  match send_at o (s_id s) with
  | Some (_, known) => (o, if same_immutable_fields known s then Ok ODuplicate else Err Conflict)
  | None =>
      if l_revision (s_id s) <? applied_revision o then (o, Err StaleRevision) else
      if match highest_sequence o (l_revision (s_id s)) (l_sender (s_id s)) with
         | Some highest => l_sequence (s_id s) <=? highest
         | None => false
         end
      then (o, Err SequenceOrder) else
      if stays_live cancelled_below s && (live_count cancelled_below (sends o) >=? MAX_LIVE_LOGICAL_SENDS)
      then (o, Err OutboxFull) else
      (with_sends o (sends o ++ [s]), Ok Inserted)
  end.

Definition record (o : GroupOutbox) (s : LogicalSend) : GroupOutbox * result Error OutboxDisposition :=
  insert o s None.

Definition cancel_for_newer_roster (o : GroupOutbox) (rev : Z) : GroupOutbox :=
  mkOutbox (o_group_id o) ((fun s => send_cancel_for_newer_roster s rev) <$> sends o)
    (Z.max (applied_revision o) rev).

(** ** Runs of a send *)
Inductive SendOp :=
| SPrepare (m : Member) (cm ct : bytes)
| SHandoff (m : Member)
| SAccept (m : Member)
| SCancel (m : Member)
| SNewer (rev : Z).

Definition send_step (s : LogicalSend) (op : SendOp) : LogicalSend :=
  match op with
  | SPrepare m cm ct => fst (record_prepared s m cm ct)
  | SHandoff m => fst (reserve_handoff s m)
  | SAccept m => fst (record_relay_accepted s m)
  | SCancel m => fst (cancel_for_roster_change s m)
  | SNewer rev => send_cancel_for_newer_roster s rev
  end.

Definition send_run (s : LogicalSend) (ops : list SendOp) : LogicalSend := fold_left send_step ops s.

(** The handoffs to one recipient that a run reserves. *)
Definition reserves (s : LogicalSend) (op : SendOp) (m : Member) : Z :=
  match op with
  | SHandoff m' =>
      if decide (m' = m) then match snd (reserve_handoff s m') with Ok _ => 1 | Err _ => 0 end else 0
  | _ => 0
  end.

Fixpoint handoffs (s : LogicalSend) (ops : list SendOp) (m : Member) : Z :=
  match ops with
  | [] => 0
  | op :: ops => reserves s op m + handoffs (send_step s op) ops m
  end.

(** What the stored fields of a recipient are, by its disposition. *)
Definition stored_fields (p : RecipientProgress) : Prop :=
  is_Some (context_commitment p) /\ is_Some (ciphertext p).

Definition progress_ok (p : RecipientProgress) : Prop :=
  match disposition p with
  | PPending => context_commitment p = None /\ ciphertext p = None /\ attempts_reserved p = 0
  | PPrepared => stored_fields p /\ attempts_reserved p = 0
  | PHandedOff | PCancelledAfterHandoff => stored_fields p /\ 1 <= attempts_reserved p <= 2
  | PExhaustedUnknown => stored_fields p /\ attempts_reserved p = 3
  | PRelayAccepted => stored_fields p /\ 1 <= attempts_reserved p <= 3
  | PCancelled => attempts_reserved p = 0
  end.

(** A recipient only moves forward. *)
Definition rank (d : RecipientDisposition) : Z :=
  match d with
  | PPending => 0 | PPrepared => 1 | PHandedOff => 2 | PExhaustedUnknown => 3
  | PRelayAccepted | PCancelled | PCancelledAfterHandoff => 4
  end.

Record moves (p p' : RecipientProgress) : Prop := {
  mv_recipient : p_recipient p' = p_recipient p;
  mv_stored : is_Some (ciphertext p) ->
    ciphertext p' = ciphertext p /\ context_commitment p' = context_commitment p;
  mv_attempts : attempts_reserved p <= attempts_reserved p';
  mv_rank : p' = p \/ rank (disposition p) < rank (disposition p') \/
    (disposition p = PHandedOff /\ disposition p' = PHandedOff);
  mv_final : is_final (disposition p) = true ->
    p' = p \/ (disposition p = PExhaustedUnknown /\ p' = with_disposition p PRelayAccepted)
}.

Lemma moves_refl p : moves p p.
Proof. split; [done|done|lia|by left|by left]. Qed.

Lemma moves_trans p q r : moves p q -> moves q r -> moves p r.
Proof.
  intros [H1 H2 H3 H4 H5] [G1 G2 G3 G4 G5]. split.
  - congruence.
  - intros Hs. destruct (H2 Hs) as [Ha Hb]. destruct G2 as [Hc Hd]; [by rewrite Ha|]. by rewrite Hc, Hd.
  - lia.
  - destruct H4 as [->|[H4|[H4 H4']]]; [done| |].
    + right. destruct G4 as [->|[G4|[G4 G4']]]; [by left|left; lia|left; by rewrite G4', <- G4].
    + destruct G4 as [->|[G4|[G4 G4']]]; [by right; right| |by right; right].
      right; left. by rewrite H4, <- H4'.
  - intros Hf. destruct (H5 Hf) as [->|[He ->]]; [by apply G5|].
    right. split; [done|]. destruct G5 as [->|[? _]]; done.
Qed.

(** Each body is a move that keeps the fields right. *)
Lemma prepare_one_moves cm ct p :
  progress_ok p -> let p' := fst (prepare_one cm ct p) in
  moves p p' /\ progress_ok p' /\ attempts_reserved p' = attempts_reserved p.
Proof.
  unfold prepare_one, progress_ok. intros H. destruct p as [m d c t n]; cbn in *.
  destruct d; cbn; try (split; [apply moves_refl|by split]).
  destruct H as (-> & -> & ->). split; [|by repeat split].
  split; cbn; [done|by intros [? ?]|done|by right; left|done].
Qed.

Lemma handoff_one_moves p :
  progress_ok p -> let '(p', r) := handoff_one p in
  moves p p' /\ progress_ok p' /\
  attempts_reserved p' = attempts_reserved p + match r with Ok _ => 1 | Err _ => 0 end.
Proof.
  unfold handoff_one, progress_ok. intros H. destruct p as [m d c t n]; cbn in *.
  destruct d; cbn; try (split; [apply moves_refl|split; [done|lia]]);
    destruct H as ([Hc Ht] & Hn); cbn in *;
    rewrite bool_decide_eq_false_2 by (by destruct Ht as [? ->]);
    rewrite Z.geb_leb, (proj2 (Z.leb_gt _ _)) by lia; cbn;
    destruct (Z.eqb_spec (n + 1) 3); cbn; (split; [|split; [split; [done|lia]|lia]]);
    (split; cbn; try done; try lia; try (by right; left); by right; right).
Qed.

Lemma accept_one_moves p :
  progress_ok p -> let p' := fst (accept_one p) in
  moves p p' /\ progress_ok p' /\ attempts_reserved p' = attempts_reserved p.
Proof.
  unfold accept_one, progress_ok. intros H. destruct p as [m d c t n]; cbn in *.
  destruct d; cbn; try (split; [apply moves_refl|by split]);
    destruct H as [Hs Hn]; (split; [|split; [split; [done|lia]|done]]);
    (split; cbn; [done|done|lia|by right; left|intros; by right]).
Qed.

Lemma cancel_one_moves p :
  progress_ok p -> moves p (cancel_one p) /\ progress_ok (cancel_one p) /\
  attempts_reserved (cancel_one p) = attempts_reserved p.
Proof.
  unfold cancel_one, progress_ok. intros H. destruct p as [m d c t n]; cbn in *.
  destruct d; cbn; try (split; [apply moves_refl|by split]);
    (split; [|split; [tauto|done]]); (split; cbn; try done; by right; left).
Qed.

Lemma body_recipients cm ct p :
  p_recipient (fst (prepare_one cm ct p)) = p_recipient p /\ p_recipient (fst (handoff_one p)) = p_recipient p /\
  p_recipient (fst (accept_one p)) = p_recipient p /\ p_recipient (cancel_one p) = p_recipient p.
Proof.
  unfold prepare_one, handoff_one, accept_one, cancel_one. destruct p as [m [] c t n]; cbn;
    repeat case_match; done.
Qed.

(** *** One recipient of a send *)
Lemma progress_at_id s m k p : progress_at s m = Some (k, p) -> p_recipient p = m /\ recipients s !! k = Some p.
Proof. unfold progress_at. intros (H & Hp & _)%list_find_Some. done. Qed.

Lemma on_progress_at s m m' body k p :
  progress_at s m = Some (k, p) -> p_recipient (fst (body p)) = m ->
  progress_at (fst (on_progress s m body)) m' =
    if decide (m' = m) then Some (k, fst (body p)) else progress_at s m'.
Proof.
  intros H Hp. unfold on_progress. rewrite H. destruct (body p) as [p' r]. cbn in *.
  unfold progress_at in *. cbn. by apply (list_find_update p_recipient m m' _ k p p').
Qed.

(** The place of a recipient under a map that keeps recipients. *)
Lemma list_find_map {A B} `{EqDecision B} (f : A -> B) (g : A -> A) (b : B) (l : list A) :
  (forall x, f (g x) = f x) ->
  list_find (fun y => f y = b) (g <$> l) = prod_map id g <$> list_find (fun y => f y = b) l.
Proof.
  intros Hg. induction l as [|x l IH]; cbn; [done|]. rewrite Hg. case_decide; [done|].
  change (list_fmap A A g l) with (g <$> l). rewrite IH. by destruct (list_find _ l) as [[]|].
Qed.

Lemma on_progress_moves s m m' body (n : RecipientProgress -> Z) p :
  (forall q, p_recipient (fst (body q)) = p_recipient q) ->
  (forall q, progress_ok q -> let q' := fst (body q) in
     moves q q' /\ progress_ok q' /\ attempts_reserved q' = attempts_reserved q + n q) ->
  progress s m' = Ok p -> progress_ok p ->
  exists p', progress (fst (on_progress s m body)) m' = Ok p' /\ progress_ok p' /\ moves p p' /\
    attempts_reserved p' = attempts_reserved p + (if decide (m = m') then n p else 0).
Proof.
  intros Hr Hb Hp Hok. unfold progress in *. destruct (progress_at s m) as [[k q]|] eqn:E.
  - pose proof (progress_at_id s m k q E) as [Hq _].
    rewrite (on_progress_at s m m' body k q) by (done || by rewrite Hr).
    destruct (decide (m = m')) as [<-|Hne].
    + rewrite E in Hp. cbn in Hp. inv_bind. rewrite decide_True by done.
      destruct (Hb p Hok) as (Hm & Hok' & Hn). by exists (fst (body p)).
    + rewrite decide_False by done. exists p. split_and!; [done|done|apply moves_refl|lia].
  - exists p. unfold on_progress. rewrite E. rewrite decide_False.
    + split_and!; [done|done|apply moves_refl|lia].
    + intros ->. by rewrite E in Hp.
Qed.

Lemma send_step_moves s op m p :
  progress s m = Ok p -> progress_ok p ->
  exists p', progress (send_step s op) m = Ok p' /\ progress_ok p' /\ moves p p' /\
    attempts_reserved p' = attempts_reserved p + reserves s op m.
Proof.
  intros Hp Hok. destruct op as [m' cm ct|m'|m'|m'|rev]; cbn [send_step reserves].
  - edestruct (on_progress_moves s m' m (prepare_one cm ct) (fun _ => 0) p) as (p' & ? & ? & ? & Hn);
      [intros; apply body_recipients|intros q Hq; cbv zeta; rewrite Z.add_0_r; by apply prepare_one_moves|done|done|].
    exists p'. split_and!; try done. by destruct (decide (m' = m)).
  - edestruct (on_progress_moves s m' m handoff_one
      (fun q => match snd (handoff_one q) with Ok _ => 1 | Err _ => 0 end) p) as (p' & ? & ? & ? & Hn);
      [intros; apply (body_recipients [] [])| |done|done|].
    { intros q Hq. pose proof (handoff_one_moves q Hq) as H. by destruct (handoff_one q). }
    exists p'. split_and!; try done. rewrite Hn. destruct (decide (m' = m)) as [->|]; [|done].
    unfold progress in Hp. unfold reserve_handoff, on_progress. destruct (progress_at s m) as [[k q]|]; [|done].
    cbn in Hp. inv_bind. by destruct (handoff_one p).
  - edestruct (on_progress_moves s m' m accept_one (fun _ => 0) p) as (p' & ? & ? & ? & Hn);
      [intros; apply (body_recipients [] [])|intros q Hq; cbv zeta; rewrite Z.add_0_r; by apply accept_one_moves|done|done|].
    exists p'. split_and!; try done. by destruct (decide (m' = m)).
  - edestruct (on_progress_moves s m' m (fun p => (cancel_one p, Ok (cancel_one p))) (fun _ => 0) p)
      as (p' & ? & ? & ? & Hn);
      [intros; apply (body_recipients [] [])|intros q Hq; cbv zeta; rewrite Z.add_0_r; by apply cancel_one_moves|done|done|].
    exists p'. split_and!; try done. by destruct (decide (m' = m)).
  - unfold send_cancel_for_newer_roster. case_test.
    + exists p. split_and!; [done|done|apply moves_refl|lia].
    + exists (cancel_one p). destruct (cancel_one_moves p Hok) as (? & ? & ?). split_and!; [|done|done|lia].
      unfold progress, progress_at in *. cbn [recipients with_recipients].
      rewrite (list_find_map p_recipient cancel_one) by (intros; apply (body_recipients [] [])).
      destruct (list_find _ (recipients s)) as [[k q]|]; [|done]. cbn in *. by inv_bind.
Qed.

(** What no operation changes. *)
Definition same_send (s s' : LogicalSend) : Prop :=
  s_id s' = s_id s /\ s_roster_digest s' = s_roster_digest s /\ s_payload s' = s_payload s /\
  (p_recipient <$> recipients s') = (p_recipient <$> recipients s).

Lemma on_progress_same s m body :
  (forall q, p_recipient (fst (body q)) = p_recipient q) -> same_send s (fst (on_progress s m body)).
Proof.
  intros Hb. unfold on_progress. destruct (progress_at s m) as [[k p]|] eqn:E; [|done].
  apply progress_at_id in E as [_ Hk]. specialize (Hb p). destruct (body p) as [p' r]. cbn in *.
  split_and!; try done. cbn. rewrite list_fmap_insert, Hb. apply list_insert_id.
  by rewrite list_lookup_fmap, Hk.
Qed.

Lemma send_step_same s op : same_send s (send_step s op).
Proof.
  destruct op as [m cm ct|m|m|m|rev]; cbn [send_step];
    try (apply on_progress_same; intros; by apply (body_recipients [] []) || by apply body_recipients).
  unfold send_cancel_for_newer_roster. case_test; [done|]. split_and!; try done. cbn.
  rewrite <- list_fmap_compose. apply list_fmap_ext. intros ? p _. cbn. by apply (body_recipients [] []).
Qed.

Lemma send_run_same s ops : same_send s (send_run s ops).
Proof.
  revert s. induction ops as [|op ops IH]; intros s; [done|].
  change (send_run s (op :: ops)) with (send_run (send_step s op) ops).
  destruct (IH (send_step s op)) as (H1 & H2 & H3 & H4), (send_step_same s op) as (G1 & G2 & G3 & G4).
  split_and!; congruence.
Qed.

(** ** Properties of a send *)

(** C35. A logical send only moves forward: along any run of preparations,
    handoffs, acceptances and cancellations, whoever they name and in whatever
    order, the identifier, roster digest, payload and recipients never change,
    and each recipient keeps its first ciphertext and context commitment, never
    goes back to an earlier disposition, stays in its final one (a final
    attempt may still be relay-accepted), and has exactly as many attempts as
    handoffs were reserved for it: at most three, and exhausted or ended at the
    third. *)
Theorem send_moves_forward s ops m p :
  progress s m = Ok p -> progress_ok p ->
  same_send s (send_run s ops) /\
  exists p', progress (send_run s ops) m = Ok p' /\ progress_ok p' /\ moves p p' /\
    attempts_reserved p' = attempts_reserved p + handoffs s ops m /\ attempts_reserved p' <= 3.
Proof.
  intros Hp Hok. split; [apply send_run_same|]. revert s p Hp Hok.
  induction ops as [|op ops IH]; intros s p Hp Hok.
  - exists p. split_and!; [done|done|apply moves_refl|cbn; lia|].
    unfold progress_ok in Hok. destruct (disposition p); lia.
  - destruct (send_step_moves s op m p Hp Hok) as (q & Hq & Hqok & Hpq & Hn).
    destruct (IH (send_step s op) q Hq Hqok) as (p' & Hp' & Hok' & Hqp' & Hn' & Hle).
    exists p'. split_and!; [done|done|by eapply moves_trans| |done]. cbn [handoffs]. lia.
Qed.

(** A send for the witnesses. *)
Definition cid : Member := mkMember (bstr "cid") (bstr "d1").
Definition first_send : LogicalSend :=
  mkSend (mkLogicalId (replicate 16 x07) 1 ana 0) (replicate 32 x09) (bstr "hello") [pending_progress cid].

Lemma send_moves_forward_witness :
  let ops := [SPrepare cid (replicate 32 x01) (bstr "ct"); SHandoff cid; SHandoff cid; SHandoff cid;
              SHandoff cid; SAccept cid] in
  same_send first_send (send_run first_send ops) /\
  exists p', progress (send_run first_send ops) cid = Ok p' /\ progress_ok p' /\
    moves (pending_progress cid) p' /\
    attempts_reserved p' = 0 + handoffs first_send ops cid /\ attempts_reserved p' <= 3.
Proof. by apply (send_moves_forward first_send _ cid (pending_progress cid)). Defined.

(** ** Runs of an outbox *)
Inductive OutboxOp :=
| ORecord (s : LogicalSend)
| OSend (id : LogicalMessageId) (op : SendOp)
| ONewer (rev : Z).

Definition outbox_step (o : GroupOutbox) (op : OutboxOp) : GroupOutbox :=
  match op with
  | ORecord s => fst (record o s)
  | OSend id op => fst (on_send o id (fun s => (send_step s op, Ok tt)))
  | ONewer rev => cancel_for_newer_roster o rev
  end.

Definition outbox_run (o : GroupOutbox) (ops : list OutboxOp) : GroupOutbox := fold_left outbox_step ops o.

(** In order: a later send of the same revision and sender has a greater sequence. *)
Definition sequence_lt (a b : LogicalSend) : Prop :=
  l_revision (s_id a) = l_revision (s_id b) -> l_sender (s_id a) = l_sender (s_id b) ->
  l_sequence (s_id a) < l_sequence (s_id b).

Record outbox_inv (o : GroupOutbox) : Prop := {
  oi_group : Forall (fun s => l_group_id (s_id s) = o_group_id o) (sends o);
  oi_ids : NoDup (s_id <$> sends o);
  oi_order : StronglySorted sequence_lt (sends o);
  oi_live : live_count None (sends o) <= MAX_LIVE_LOGICAL_SENDS;
  oi_stale : Forall (fun s => l_revision (s_id s) < applied_revision o -> is_terminal s = true) (sends o)
}.

(** One send replaced by another of the same identifier that is not less done. *)
Definition advanced (s s' : LogicalSend) : Prop :=
  s_id s' = s_id s /\ (is_terminal s = true -> is_terminal s' = true).

Lemma advanced_refl s : advanced s s.
Proof. done. Qed.

Lemma body_final cm ct p :
  is_final (disposition p) = true ->
  is_final (disposition (fst (prepare_one cm ct p))) = true /\
  is_final (disposition (fst (handoff_one p))) = true /\
  is_final (disposition (fst (accept_one p))) = true /\
  is_final (disposition (cancel_one p)) = true.
Proof. destruct p as [m [] c t n]; cbn; done. Qed.

Lemma forallb_Forall {A} (f : A -> bool) l : forallb f l = true <-> Forall (fun x => f x = true) l.
Proof. rewrite forallb_forall, Forall_forall. setoid_rewrite list_elem_of_In. done. Qed.

Lemma on_progress_advanced s m body :
  (forall p, is_final (disposition p) = true -> is_final (disposition (fst (body p))) = true) ->
  advanced s (fst (on_progress s m body)).
Proof.
  intros Hb. unfold on_progress. destruct (progress_at s m) as [[k p]|] eqn:E; [|done].
  apply progress_at_id in E as [_ Hk]. specialize (Hb p). destruct (body p) as [p' r]. split; [done|].
  unfold is_terminal. cbn. rewrite !forallb_Forall. intros Hf. apply Forall_insert; [done|].
  apply Hb. by apply (Forall_lookup_1 _ _ _ _ Hf Hk).
Qed.

Lemma send_step_advanced s op : advanced s (send_step s op).
Proof.
  destruct op as [m cm ct|m|m|m|rev]; cbn [send_step];
    try (apply on_progress_advanced; intros p Hp; destruct (body_final [] [] p Hp) as (? & ? & ? & ?); try done;
         by apply body_final).
  unfold send_cancel_for_newer_roster. case_test; [done|]. split; [done|].
  unfold is_terminal. cbn. rewrite !forallb_Forall, Forall_fmap. intros Hf.
  eapply Forall_impl; [exact Hf|]. intros p Hp. by apply (body_final [] []).
Qed.

Lemma live_count_cons b s l :
  live_count b (s :: l) = (if negb (is_terminal s) && stays_live b s then 1 else 0) + live_count b l.
Proof.
  unfold live_count. rewrite filter_cons. destruct (is_terminal s), (stays_live b s); cbn;
    repeat first [rewrite decide_True by done | rewrite decide_False by (intros [? ?]; done)];
    rewrite ?len_cons; done.
Qed.

Lemma live_count_app b l l' : live_count b (l ++ l') = live_count b l + live_count b l'.
Proof. unfold live_count. by rewrite filter_app, len_app. Qed.

Lemma live_count_advanced l l' : Forall2 advanced l l' -> live_count None l' <= live_count None l.
Proof.
  induction 1 as [|s s' l l' [_ Hs] _ IH]; [done|]. rewrite !live_count_cons. cbn.
  destruct (is_terminal s); cbn; [rewrite Hs by done; cbn; lia|]. case_test; lia.
Qed.

Lemma Forall2_ids l l' : Forall2 advanced l l' -> s_id <$> l' = s_id <$> l.
Proof. induction 1 as [|s s' l l' [H _] _ IH]; [done|]. rewrite !fmap_cons. congruence. Qed.

Lemma StronglySorted_ids l l' :
  s_id <$> l' = s_id <$> l -> StronglySorted sequence_lt l -> StronglySorted sequence_lt l'.
Proof.
  revert l'. induction l as [|s l IH]; intros [|s' l'] H Hs; try done.
  rewrite !fmap_cons in H. injection H as Hid H. apply StronglySorted_cons in Hs as [Hf Hs].
  constructor; [by apply IH|]. apply Forall_forall. intros x Hx. rewrite Forall_forall in Hf.
  apply (list_elem_of_fmap_2 s_id) in Hx. rewrite H in Hx. apply list_elem_of_fmap in Hx as (y & Hy & Hin).
  unfold sequence_lt. rewrite Hid, Hy. by apply Hf.
Qed.

Lemma outbox_inv_advanced o l' :
  outbox_inv o -> Forall2 advanced (sends o) l' -> outbox_inv (with_sends o l').
Proof.
  intros [H1 H2 H3 H4 H5] Hf. pose proof (Forall2_ids _ _ Hf) as Hids. split; cbn [sends with_sends o_group_id applied_revision].
  - clear -H1 Hf. induction Hf as [|s s' l l' [Hs _] _ IH]; [constructor|].
    apply Forall_cons in H1 as [? ?]. constructor; [congruence|by apply IH].
  - by rewrite Hids.
  - by eapply StronglySorted_ids.
  - pose proof (live_count_advanced _ _ Hf). lia.
  - clear -H5 Hf. induction Hf as [|s s' l l' [Hs Ht] _ IH]; [constructor|].
    apply Forall_cons in H5 as [Hx ?]. constructor; [|by apply IH]. rewrite Hs. auto.
Qed.

Lemma Forall2_insert_refl {A} (R : A -> A -> Prop) (l : list A) k x x' :
  (forall y, R y y) -> l !! k = Some x -> R x x' -> Forall2 R l (<[k := x']> l).
Proof.
  intros Hr. revert k. induction l as [|y l IH]; intros [|k] H Hx; cbn in *; try done.
  - simplify_eq. constructor; [done|]. clear -Hr. induction l; by constructor.
  - constructor; [done|]. by apply IH.
Qed.

Lemma send_at_id o id k s : send_at o id = Some (k, s) -> s_id s = id /\ sends o !! k = Some s.
Proof. unfold send_at. intros (H & Hs & _)%list_find_Some. done. Qed.

Lemma highest_sequence_Some o rev m h :
  highest_sequence o rev m = Some h ->
  forall s, s ∈ sends o -> l_revision (s_id s) = rev -> l_sender (s_id s) = m -> l_sequence (s_id s) <= h.
Proof.
  unfold highest_sequence. intros [_ Hle]%max_of_Some s Hs Hr Hm. apply Hle.
  apply list_elem_of_fmap. exists s. split; [done|]. by apply list_elem_of_filter.
Qed.

Lemma highest_sequence_None o rev m s :
  highest_sequence o rev m = None -> s ∈ sends o -> l_revision (s_id s) = rev -> l_sender (s_id s) = m -> False.
Proof.
  unfold highest_sequence. intros H%max_of_None Hs Hr Hm.
  assert (s ∈ filter (fun x => l_revision (s_id x) = rev /\ l_sender (s_id x) = m) (sends o)) as Hf
    by (by apply list_elem_of_filter).
  destruct (filter _ _); [by apply elem_of_nil in Hf|done].
Qed.

(** What an insertion does: nothing, or append a new send above the others. *)
Lemma insert_cases o s b o' r :
  insert o s b = (o', r) ->
  (o' = o /\ r <> Ok Inserted) \/
  (r = Ok Inserted /\ o' = with_sends o (sends o ++ [s]) /\ l_group_id (s_id s) = o_group_id o /\
   ~ (s_id s ∈ (s_id <$> sends o)) /\ applied_revision o <= l_revision (s_id s) /\
   (forall x, x ∈ sends o -> sequence_lt x s) /\
   (stays_live b s = true -> live_count b (sends o) < MAX_LIVE_LOGICAL_SENDS)).
Proof.
  unfold insert. intros H. destruct (negb (bool_decide _)) eqn:G1; [inv_bind; by left|].
  destruct (send_at o (s_id s)) as [[k known]|] eqn:F; [inv_bind; left; split; [done|by case_match]|].
  destruct (l_revision (s_id s) <? applied_revision o) eqn:G2; [inv_bind; by left|].
  destruct (highest_sequence o _ _) as [h|] eqn:Hh.
  - destruct (l_sequence (s_id s) <=? h) eqn:G3; [inv_bind; by left|].
    destruct (stays_live b s && _) eqn:G4; inv_bind; [by left|]. bool_prop.
    apply list_find_absent in F. right. split_and!; try done.
    + intros x Hx Hr Hm. pose proof (highest_sequence_Some _ _ _ _ Hh x Hx Hr Hm). lia.
    + intros Hl. rewrite Hl in G4. cbn in G4. by bool_prop.
  - destruct (stays_live b s && _) eqn:G4; inv_bind; [by left|]. bool_prop.
    apply list_find_absent in F. right. split_and!; try done.
    + intros x Hx Hr Hm. by destruct (highest_sequence_None _ _ _ x Hh).
    + intros Hl. rewrite Hl in G4. cbn in G4. by bool_prop.
Qed.

(** And when it inserts. *)
Lemma insert_intro o s b :
  l_group_id (s_id s) = o_group_id o -> ~ (s_id s ∈ (s_id <$> sends o)) ->
  applied_revision o <= l_revision (s_id s) -> (forall x, x ∈ sends o -> sequence_lt x s) ->
  (stays_live b s = true -> live_count b (sends o) < MAX_LIVE_LOGICAL_SENDS) ->
  insert o s b = (with_sends o (sends o ++ [s]), Ok Inserted).
Proof.
  intros Hg Hn Hr Hlt Hl. unfold insert, send_at. rewrite Hg, bool_decide_eq_true_2 by done. cbn [negb].
  rewrite list_find_none by done. rewrite (proj2 (Z.ltb_ge _ _)) by done.
  assert (match highest_sequence o (l_revision (s_id s)) (l_sender (s_id s)) with
          | Some highest => l_sequence (s_id s) <=? highest | None => false end = false) as ->.
  { destruct (highest_sequence o _ _) as [h|] eqn:Hh; [|done]. apply Z.leb_gt.
    unfold highest_sequence in Hh. apply max_of_Some in Hh as [Hin _].
    apply list_elem_of_fmap in Hin as (x & -> & [[? ?] Hx]%list_elem_of_filter). by apply Hlt. }
  destruct (stays_live b s); [|done]. cbn [andb]. by rewrite Z.geb_leb, (proj2 (Z.leb_gt _ _)) by auto.
Qed.

Lemma outbox_inv_step o op : outbox_inv o -> outbox_inv (outbox_step o op).
Proof.
  intros Hi. destruct op as [s|id op|rev]; cbn [outbox_step].
  - unfold record. destruct (insert o s None) as [o' r] eqn:E.
    apply insert_cases in E as [[-> _]|(_ & -> & Hg & Hn & Hr & Hlt & Hlive)]; [done|].
    destruct Hi as [H1 H2 H3 H4 H5]. split; cbn [fst sends with_sends o_group_id applied_revision].
    + apply Forall_app. split; [done|]. by apply Forall_singleton.
    + rewrite fmap_app. by apply NoDup_snoc.
    + clear -H3 Hlt. induction H3 as [|x l _ IH Hx]; cbn; [by repeat constructor|].
      constructor; [apply IH; intros; apply Hlt; by right|]. apply Forall_app. split; [done|].
      apply Forall_singleton, Hlt. by left.
    + rewrite live_count_app, live_count_cons. specialize (Hlive eq_refl).
      change (live_count None []) with 0. cbn. destruct (is_terminal s); cbn; lia.
    + apply Forall_app. split; [done|]. apply Forall_singleton. lia.
  - unfold on_send. destruct (send_at o id) as [[k s]|] eqn:E; [|done]. cbn [fst].
    apply outbox_inv_advanced; [done|]. apply send_at_id in E as [_ Hk].
    eapply Forall2_insert_refl; [apply advanced_refl|done|apply send_step_advanced].
  - assert (Forall2 advanced (sends o) ((fun s => send_cancel_for_newer_roster s rev) <$> sends o)) as Hf.
    { induction (sends o) as [|s l IH]; constructor; [apply (send_step_advanced s (SNewer rev))|done]. }
    pose proof (outbox_inv_advanced o _ Hi Hf) as [H1 H2 H3 H4 H5].
    split; try done. cbn in H5 |- *. rewrite Forall_fmap in *. eapply Forall_impl; [exact H5|].
    intros s Hs Hlt. cbn in *. unfold send_cancel_for_newer_roster in *.
    destruct (l_revision (s_id s) >=? rev) eqn:G; bool_prop; cbn in *.
    + apply Hs. lia.
    + unfold is_terminal. cbn. rewrite forallb_Forall, Forall_fmap. apply Forall_true.
      by intros [m [] c t n].
Qed.

Lemma outbox_inv_run o ops : outbox_inv o -> outbox_inv (outbox_run o ops).
Proof. revert o. induction ops as [|op ops IH]; intros o Hi; [done|]. by apply IH, outbox_inv_step. Qed.

Lemma outbox_inv_new g : outbox_inv (outbox_new g).
Proof. split; cbn; try done; constructor. Qed.

(** The outbox keeps its promises, along any run of records, operations on
    sends and roster changes: at most eight sends are live; every send is of
    the group and has its own identifier; the sends of one revision and sender
    are in ascending sequence; every send older than the applied roster is
    terminal; and the sequence [next_sequence] offers is accepted for any send
    of that identifier that is not stale, while there is room. *)
Lemma outbox_keeps_order g ops :
  let o := outbox_run (outbox_new g) ops in
  live_count None (sends o) <= MAX_LIVE_LOGICAL_SENDS /\
  Forall (fun s => l_group_id (s_id s) = o_group_id o) (sends o) /\ NoDup (s_id <$> sends o) /\
  StronglySorted sequence_lt (sends o) /\
  Forall (fun s => l_revision (s_id s) < applied_revision o -> is_terminal s = true) (sends o) /\
  (forall s seq,
    next_sequence o (l_revision (s_id s)) (l_sender (s_id s)) = Ok seq -> l_sequence (s_id s) = seq ->
    l_group_id (s_id s) = o_group_id o -> applied_revision o <= l_revision (s_id s) ->
    live_count None (sends o) < MAX_LIVE_LOGICAL_SENDS ->
    record o s = (with_sends o (sends o ++ [s]), Ok Inserted)).
Proof.
  cbv zeta. pose proof (outbox_inv_run _ ops (outbox_inv_new g)) as Hi.
  set (o := outbox_run (outbox_new g) ops) in *. split_and!; try apply Hi.
  intros s seq Hn Hseq Hg Hr Hl. unfold record.
  assert (forall x, x ∈ sends o -> sequence_lt x s) as Hlt.
  { intros x Hx Hxr Hxs. unfold next_sequence in Hn. destruct (highest_sequence o _ _) as [h|] eqn:Hh.
    - pose proof (highest_sequence_Some _ _ _ _ Hh x Hx Hxr Hxs). unfold checked_add64 in Hn.
      case_match; [|done]. cbn in Hn. inv_bind. lia.
    - by destruct (highest_sequence_None _ _ _ x Hh). }
  apply insert_intro; try done. intros (x & Hx & Hin)%list_elem_of_fmap.
  specialize (Hlt x Hin). unfold sequence_lt in Hlt. rewrite Hx in Hlt. specialize (Hlt eq_refl eq_refl). lia.
Qed.

(** ** The intent codec *)

(** The ranges of the source's types, and no progress yet. *)
Definition intent_wf (s : LogicalSend) : Prop :=
  len (l_group_id (s_id s)) = GROUP_ID_LEN /\ 0 <= l_revision (s_id s) <= u64_max /\
  0 <= l_sequence (s_id s) <= u64_max /\ len (s_roster_digest s) = DIGEST_LEN /\
  recipients s = (pending_progress <$> (p_recipient <$> recipients s)).

(** What an intent that may be written is. *)
Record intent_valid (s : LogicalSend) : Prop := {
  iv_sender : member_ok (l_sender (s_id s));
  iv_payload : len (s_payload s) <= MAX_PAYLOAD_LEN;
  iv_count : 1 <= len (recipients s) <= MAX_MEMBERS;
  iv_recipients : Forall member_ok (p_recipient <$> recipients s);
  iv_sorted : StronglySorted identity_lt (p_recipient <$> recipients s);
  iv_revision : l_revision (s_id s) <> RESERVED_REVISION
}.

Lemma validate_each_spec ms : validate_each ms = Ok tt <-> Forall member_ok ms.
Proof.
  induction ms as [|m ms IH]; cbn; [by split; [constructor|]|]. rewrite Forall_cons, <- IH. unfold member_ok.
  destruct (member_validate m) as [[]|]; cbn; split; intros; try done; try by destruct_and?.
Qed.

(** With the sizes checked, the order check is the roster's. *)
Lemma validate_recovery_members prev ids ms :
  Forall member_ok ms -> validate_recovery_recipients prev ids ms = validate_members prev ids ms.
Proof.
  revert prev ids. induction ms as [|m ms IH]; intros prev ids H; [done|].
  apply Forall_cons in H as [Hm H]. cbn. rewrite Hm. cbn [mbind result_bind].
  destruct (guard_err _ _); [|done]. cbn [mbind result_bind]. destruct (guard_err _ _); [|done]. by apply IH.
Qed.

Lemma empty_count {A} (l : list A) `{!Decision (l = [])} : bool_decide (l = []) = false <-> 1 <= len l.
Proof.
  rewrite bool_decide_eq_false. destruct l as [|x l]; [by rewrite len_nil; split; [|lia]|].
  rewrite len_cons. pose proof (len_nonneg l). split; [lia|done].
Qed.

Lemma validate_intent_spec s : validate_intent s = Ok tt <-> intent_valid s.
Proof.
  unfold validate_intent. split.
  - intros H. inv_bind.
    match goal with H : bool_decide (_ = []) = false |- _ => apply empty_count in H end. bool_prop. apply unit_Ok in E, E0, E1.
    apply validate_each_spec in E0. rewrite validate_recovery_members in E1 by done.
    apply validate_members_spec in E1 as [_ ?]. done.
  - intros [H1 H2 [H3 H3'] H4 H5 H6]. rewrite H1. cbn [mbind result_bind].
    rewrite Z.gtb_ltb, (proj2 (Z.ltb_ge _ _) H2), (proj2 (empty_count _) H3).
    rewrite Z.gtb_ltb, (proj2 (Z.ltb_ge _ _) H3'), (proj2 (validate_each_spec _) H4). cbn [mbind result_bind].
    rewrite validate_recovery_members, (proj2 (validate_members_spec _)) by done. cbn [mbind result_bind].
    by rewrite (proj2 (Z.eqb_neq _ _) H6).
Qed.

Lemma pending_recipients (l : list Member) : (p_recipient <$> (pending_progress <$> l)) = l.
Proof. rewrite <- list_fmap_compose. etrans; [|apply list_fmap_id]. by apply list_fmap_ext. Qed.

Lemma intent_decode_encode bs s :
  decode_intent bs = Ok s <-> intent_wf s /\ encode_intent s = Ok bs.
Proof.
  split.
  - intros H. unfold decode_intent, logical_id_new in H.
    destruct (starts_with LOGICAL_SEND_DOMAIN bs) eqn:Gs; cbn [negb] in H; [|done].
    apply starts_with_true in Gs as [rest ->]. rewrite drop_app_length in H. cbv zeta in H. inv_bind.
    parses_inv. bool_prop.
    match goal with H : length _ = _ |- _ => apply count_of_length in H as <-; [|lia] end.
    assert (forall g r sn sq d p rs, intent_wf (mkSend (mkLogicalId g r sn sq) d p (pending_progress <$> rs)) <->
      len g = GROUP_ID_LEN /\ 0 <= r <= u64_max /\ 0 <= sq <= u64_max /\ len d = DIGEST_LEN) as Hwf.
    { intros. unfold intent_wf. cbn. rewrite pending_recipients. naive_solver. }
    split; [by apply Hwf|]. unfold encode_intent.
    rewrite (proj2 (validate_intent_spec _)).
    + cbn [mbind result_bind s_id s_payload s_roster_digest recipients l_group_id l_sender l_revision l_sequence].
      rewrite len_fmap, pending_recipients, gput_u32_fits by lia. cbn [mbind result_bind]. gput_fwd.
      by rewrite app_nil_r.
    + rewrite validate_recovery_members in * by done.
      match goal with H : validate_members _ _ _ = Ok _ |- _ =>
        apply unit_Ok, validate_members_spec in H as [_ ?] end.
      split; cbn; rewrite ?pending_recipients, ?len_fmap; try done. lia.
  - intros [(Hg & Hr & Hsq & Hd & Hp) H]. unfold encode_intent in H. inv_bind.
    apply unit_Ok in E. pose proof (proj1 (validate_intent_spec s) E) as [H1 H2 [H3 H3'] H4 H5 H6].
    apply gput_u32_Ok in E0 as [-> Hc]; [|apply len_nonneg].
    unfold decode_intent, group_id_try_from, digest_try_from.
    rewrite starts_with_app. cbn [negb]. rewrite drop_app_length. cbv zeta.
    rewrite <- (app_nil_r a5). parses_fwd.
    rewrite Z.gtb_ltb, (proj2 (Z.ltb_ge _ _) H2). rewrite gtake_u32_app by (split; [lia|done]).
    cbn [mbind result_bind]. rewrite (proj2 (Z.eqb_neq _ _)), Z.gtb_ltb, (proj2 (Z.ltb_ge _ _) H3') by lia.
    rewrite to_nat_len. rewrite <- (length_fmap p_recipient), (gtake_many_put _ a5 [] H4 E5).
    cbn [mbind result_bind]. rewrite validate_recovery_members, (proj2 (validate_members_spec _)) by done.
    cbn [mbind result_bind]. unfold logical_id_new. rewrite (proj2 (Z.eqb_neq _ _) H6). cbn [mbind result_bind].
    rewrite <- Hp. destruct s as [[] ? ? ?]. done.
Qed.

(** Intents are canonical: a byte string decodes to a send exactly when the
    send is in range, untouched by any operation, and encodes to those bytes;
    and a send in range encodes exactly when its sender and recipients fit,
    its payload fits, it has one to eight recipients in strictly ascending
    identities, and its revision is not the reserved one. *)
Lemma intent_codec_exact s :
  (forall bs, decode_intent bs = Ok s <-> intent_wf s /\ encode_intent s = Ok bs) /\
  (intent_wf s -> (intent_valid s <-> exists bs, encode_intent s = Ok bs)).
Proof.
  split; [intros; apply intent_decode_encode|]. intros (Hg & _ & _ & Hd & _). rewrite <- validate_intent_spec. split.
  - intros Hv. unfold encode_intent. pose proof (proj1 (validate_intent_spec s) Hv) as [H1 H2 [H3 H3'] H4 H5 H6].
    unfold MAX_PAYLOAD_LEN, MAX_MEMBERS, GROUP_ID_LEN, DIGEST_LEN in *.
    rewrite Hv. cbn [mbind result_bind]. rewrite gput_u32_fits by (unfold u32_max; lia). cbn [mbind result_bind].
    rewrite (gput_lp_fits (l_group_id (s_id s))) by (rewrite Hg; done). cbn [mbind result_bind].
    destruct (gput_member_fits _ H1) as [bm ->]. cbn [mbind result_bind].
    rewrite !gput_lp_fits by (unfold u32_max; lia). cbn [mbind result_bind].
    destruct (gput_many_fits (put_item := gput_member) (p_recipient <$> recipients s)) as [br ->]; [|cbn; eauto].
    eapply Forall_impl; [exact H4|]. apply gput_member_fits.
  - intros [bs H]. unfold encode_intent in H. inv_bind. by eapply unit_Ok.
Qed.
