(* ===== verification/GroupTranscript.v ===== *)
(** * GroupTranscript: recovery of an outbox from its transcript
    ([recover_from_transcript] of [tacenta-group/src/send.rs], and the writers
    of its records in [tacenta-client/src/group_operations.rs])

    The client appends one record to its snapshot for each intent, preparation,
    handoff and relay acceptance it commits; after a restart the outbox is
    rebuilt by replaying them.  The payload commitment is a closure in the
    source and a parameter here. *)

From S2P Require Import Prelude Persist OperationStore GroupCodec GroupSend.

Definition TCGI : bytes := bstr "TCGI".
Definition TCGP : bytes := bstr "TCGP".
Definition TCGH : bytes := bstr "TCGH".
Definition TCGA : bytes := bstr "TCGA".
Definition TCG : bytes := bstr "TCG".

(** ** Reading records *)
Record ProgressRecord := mkProgressRecord {
  pr_context : ApplicationContext; pr_commitment : bytes; pr_ciphertext : bytes; pr_rest : bytes
}.

Definition decode_intent_record (bs : bytes) : result Error LogicalSend :=
  '(length, intent) ← ok_or Malformed (split_at_checked 4 bs);
  a ← ok_or Malformed (to_array 4 length);
  if negb (len intent =? be_value a) then Err Malformed else
  decode_intent intent.

Definition logical_id_from_context (c : ApplicationContext) : result Error LogicalMessageId :=
  logical_id_new (c_group_id c) (c_revision c) (sender c) (logical_sequence c).

Definition decode_progress_record (bs : bytes) : result Error ProgressRecord :=
  '(context_bytes, cursor) ← gtake_lp bs;
  c ← context_decode context_bytes;
  '(x, cursor) ← gtake DIGEST_LEN cursor;
  cm ← digest_try_from x;
  '(ct, cursor) ← gtake_lp cursor;
  Ok (mkProgressRecord c cm ct cursor).

Definition decode_handoff_suffix (bs : bytes) : result Error (Z * RecipientDisposition) :=
  match bs with
  | [attempts; code] =>
      d ← (match code with x00 => Ok PHandedOff | x01 => Ok PExhaustedUnknown | _ => Err Malformed end);
      Ok (byte_val attempts, d)
  | _ => Err Malformed
  end.

(** ** Replay *)
Section Recover.
Context (payload_commitment : bytes -> bytes) (group_id : GroupId).

(** [send_mut(id)?.method(..)?]: the outbox after it, or its error. *)
Definition send_mut {A} (o : GroupOutbox) (id : LogicalMessageId)
    (method : LogicalSend -> LogicalSend * result Error A) : result Error (GroupOutbox * A) :=
  let '(o, r) := on_send o id method in a ← r; Ok (o, a).

Definition apply_recovered_preparation (o : GroupOutbox) (c : ApplicationContext) (cm ct : bytes)
    (after_final_attempt : bool) : result Error GroupOutbox :=
  if negb (bool_decide (c_group_id c = group_id)) then Ok o else
  context_bytes ← context_encode c;
  if negb (bool_decide (cm = payload_commitment context_bytes)) then Err Conflict else
  id ← logical_id_from_context c;
  s ← outbox_send o id;
  expected ← application_context s (recipient c);
  if negb (bool_decide (expected = c)) then Err Conflict else
  stored ← (if after_final_attempt then p ← progress s (recipient c); Ok (Some p) else Ok None);
  match stored with
  | Some (mkProgress _ PExhaustedUnknown scm sct _) =>
      if bool_decide (scm = Some cm) && bool_decide (sct = Some ct) then Ok o else Err Conflict
  | _ =>
      '(o, _) ← send_mut o id (fun s => record_prepared s (recipient c) cm ct);
      Ok o
  end.

Definition recover_entry (applied : option Z) (o : GroupOutbox) (entry : bytes)
    : result Error GroupOutbox :=
  match split_at_checked 4 entry with
  | None => if starts_with TCG entry then Err Malformed else Ok o
  | Some (tag, body) =>
      if bool_decide (tag = TCGI) then
        s ← decode_intent_record body;
        if negb (bool_decide (l_group_id (s_id s) = group_id)) then Ok o else
        let '(o, r) := insert o s applied in
        d ← r;
        if bool_decide (d = Inserted) then Ok o else Err Conflict
      else if bool_decide (tag = TCGP) then
        r ← decode_progress_record body;
        if negb (bool_decide (pr_rest r = [])) then Err Malformed else
        apply_recovered_preparation o (pr_context r) (pr_commitment r) (pr_ciphertext r) false
      else if bool_decide (tag = TCGH) then
        r ← decode_progress_record body;
        '(attempts, d) ← decode_handoff_suffix (pr_rest r);
        if negb (bool_decide (c_group_id (pr_context r) = group_id)) then Ok o else
        o ← apply_recovered_preparation o (pr_context r) (pr_commitment r) (pr_ciphertext r) false;
        id ← logical_id_from_context (pr_context r);
        s ← outbox_send o id;
        prior ← progress s (recipient (pr_context r));
        next ← ok_or Malformed (u8_try_from (attempts_reserved prior + 1));
        if negb (attempts =? next) then Err Malformed else
        '(o, p) ← send_mut o id (fun s => reserve_handoff s (recipient (pr_context r)));
        if negb (attempts_reserved p =? attempts) || negb (bool_decide (disposition p = d))
        then Err Malformed else Ok o
      else if bool_decide (tag = TCGA) then
        r ← decode_progress_record body;
        if negb (bool_decide (pr_rest r = [])) then Err Malformed else
        if negb (bool_decide (c_group_id (pr_context r) = group_id)) then Ok o else
        o ← apply_recovered_preparation o (pr_context r) (pr_commitment r) (pr_ciphertext r) true;
        id ← logical_id_from_context (pr_context r);
        '(o, _) ← send_mut o id (fun s => record_relay_accepted s (recipient (pr_context r)));
        Ok o
      else if starts_with TCG tag then Err Malformed
      else Ok o
  end.

Fixpoint recover_loop (applied : option Z) (o : GroupOutbox) (entries : list bytes)
    : result Error GroupOutbox :=
  match entries with
  | [] => Ok o
  | entry :: entries => o ← recover_entry applied o entry; recover_loop applied o entries
  end.

Definition recover_from_transcript_at_revision (entries : list bytes) (applied : option Z)
    : result Error GroupOutbox :=
  o ← recover_loop applied (outbox_new group_id) entries;
  Ok (match applied with Some rev => cancel_for_newer_roster o rev | None => o end).

Definition recover_from_transcript (entries : list bytes) : result Error GroupOutbox :=
  recover_from_transcript_at_revision entries None.
End Recover.

(** ** The client's side *)
Definition MAX_TERMINAL_LOGICAL_SENDS : Z := 16.
Definition TCGX : bytes := bstr "TCGX".

Definition with_outbox (snap : OperationSnapshot) (l : list bytes) : OperationSnapshot :=
  mkSnapshot (version snap) (generation snap) (provider_state snap) (application_state snap) l (snap_inbox snap)
    (snap_dedup snap) (group_controls snap) (delivery_cursor snap).

Definition with_provider (snap : OperationSnapshot) (state : bytes) : OperationSnapshot :=
  mkSnapshot (version snap) (generation snap) state (application_state snap) (snap_outbox snap) (snap_inbox snap)
    (snap_dedup snap) (group_controls snap) (delivery_cursor snap).

Definition with_controls (snap : OperationSnapshot) (l : list bytes) : OperationSnapshot :=
  mkSnapshot (version snap) (generation snap) (provider_state snap) (application_state snap) (snap_outbox snap)
    (snap_inbox snap) (snap_dedup snap) l (delivery_cursor snap).

(** *** Writing records *)
Definition put_lp (v : bytes) : result GroupOperationError bytes :=
  n ← ok_or Policy (u32_try_from (len v)); Ok (be32 n ++ v).

Definition encode_intent_record (intent : bytes) : result GroupOperationError bytes :=
  x ← put_lp intent; Ok (TCGI ++ x).

Definition encode_prepared_record (context cm ct : bytes) : result GroupOperationError bytes :=
  x ← put_lp context; y ← put_lp ct; Ok (TCGP ++ x ++ cm ++ y).

Definition encode_relay_acceptance_record (context cm ct : bytes) : result GroupOperationError bytes :=
  x ← put_lp context; y ← put_lp ct; Ok (TCGA ++ x ++ cm ++ y).

Definition encode_handoff_record (context cm ct : bytes) (p : RecipientProgress)
    : result GroupOperationError bytes :=
  d ← (match disposition p with
       | PHandedOff => Ok x00
       | PExhaustedUnknown => Ok x01
       | _ => Err Policy
       end);
  x ← put_lp context; y ← put_lp ct;
  Ok (TCGH ++ x ++ cm ++ y ++ [byte_of (attempts_reserved p)] ++ [d]).

(** *** Reading the transcript *)
Definition length_prefixed (bs : bytes) : result GroupOperationError bytes :=
  '(length, rest) ← ok_or Policy (split_at_checked 4 bs);
  a ← ok_or Policy (to_array 4 length);
  ok_or Policy (get_to (be_value a) rest).

Definition outbox_record_id (entry : bytes) : result GroupOperationError (option LogicalMessageId) :=
  match split_at_checked 4 entry with
  | None => if starts_with TCG entry then Err Policy else Ok None
  | Some (tag, body) =>
      if bool_decide (tag = TCGI) then
        x ← length_prefixed body;
        s ← map_err Policy (decode_intent x);
        Ok (Some (s_id s))
      else if bool_decide (tag = TCGP) || bool_decide (tag = TCGH) || bool_decide (tag = TCGA) then
        x ← length_prefixed body;
        c ← map_err Policy (context_decode x);
        id ← map_err Policy (logical_id_from_context c);
        Ok (Some id)
      else if starts_with TCG tag then Err Policy
      else Ok None
  end.

(** [latest_group_outbox_cancellation]: the loop over the control records. *)
Fixpoint latest_cancellation (g : GroupId) (latest : option Z) (records : list bytes)
    : result GroupOperationError (option Z) :=
  match records with
  | [] => Ok latest
  | r :: records =>
      if starts_with TCGX r then
        '(encoded_group, rev) ← ok_or Policy (split_at_checked GROUP_ID_LEN (drop (length TCGX) r));
        rev ← ok_or Policy (to_array 8 rev);
        group ← map_err Policy (group_id_try_from encoded_group);
        latest_cancellation g
          (if bool_decide (group = g) then Some (Z.max (default 0 latest) (be_value rev)) else latest) records
      else latest_cancellation g latest records
  end.

Definition latest_group_outbox_cancellation (snap : OperationSnapshot) (g : GroupId)
    : result GroupOperationError (option Z) := latest_cancellation g None (group_controls snap).

(** The loop that keeps the entries of one group. *)
Fixpoint group_entries (g : GroupId) (entries : list bytes) : result GroupOperationError (list bytes) :=
  match entries with
  | [] => Ok []
  | e :: entries =>
      id ← outbox_record_id e;
      rest ← group_entries g entries;
      Ok (match id with
          | Some id => if bool_decide (l_group_id id = g) then e :: rest else rest
          | None => rest
          end)
  end.

(** [group_outbox_records] as its callers use it: the identifiers of the
    group's sends, in the order each first appears. *)
Fixpoint group_outbox_ids (g : GroupId) (known : list LogicalMessageId) (entries : list bytes)
    : result GroupOperationError (list LogicalMessageId) :=
  match entries with
  | [] => Ok known
  | e :: entries =>
      id ← outbox_record_id e;
      match id with
      | Some id =>
          if negb (bool_decide (l_group_id id = g)) then group_outbox_ids g known entries
          else group_outbox_ids g (if bool_decide (id ∈ known) then known else known ++ [id]) entries
      | None => group_outbox_ids g known entries
      end
  end.

(** The loop of [compact_group_outbox] that leaves the dropped sends out. *)
Fixpoint keep_entries (g : GroupId) (dropped : list LogicalMessageId) (entries : list bytes)
    : result GroupOperationError (list bytes) :=
  match entries with
  | [] => Ok []
  | e :: entries =>
      id ← outbox_record_id e;
      rest ← keep_entries g dropped entries;
      Ok (match id with
          | Some id => if bool_decide (l_group_id id = g) && bool_decide (id ∈ dropped) then rest else e :: rest
          | None => e :: rest
          end)
  end.

Section Client.
Context (payload_commitment : bytes -> bytes).

Definition recover_group_outbox (snap : OperationSnapshot) (g : GroupId)
    : result GroupOperationError GroupOutbox :=
  cancelled ← latest_group_outbox_cancellation snap g;
  entries ← group_entries g (snap_outbox snap);
  map_err Policy (recover_from_transcript_at_revision payload_commitment g entries cancelled).

Definition compact_group_outbox (snap : OperationSnapshot) (g : GroupId)
    : result GroupOperationError (OperationSnapshot * option GroupOutbox) :=
  outbox ← recover_group_outbox snap g;
  ids ← group_outbox_ids g [] (snap_outbox snap);
  let terminal := filter (fun id =>
    match outbox_send outbox id with Ok s => is_terminal s | Err _ => false end = true) ids in
  if len terminal <=? MAX_TERMINAL_LOGICAL_SENDS then Ok (snap, None) else
  let dropped := take (Z.to_nat (len terminal - MAX_TERMINAL_LOGICAL_SENDS)) terminal in
  kept ← keep_entries g dropped (snap_outbox snap);
  outbox ← recover_group_outbox (with_outbox snap kept) g;
  Ok (with_outbox snap kept, Some outbox).

Definition bind_prepared_ciphertext (s : LogicalSend) (m : Member) (ct : bytes)
    : LogicalSend * result Error RecipientProgress :=
  match c ← application_context s m; context_encode c with
  | Err e => (s, Err e)
  | Ok context => record_prepared s m (payload_commitment context) ct
  end.

(** The context and progress each commit takes from its candidate. *)
Definition candidate_progress (o : GroupOutbox) (id : LogicalMessageId) (m : Member)
    (method : LogicalSend -> LogicalSend * result Error RecipientProgress)
    : result GroupOperationError (GroupOutbox * RecipientProgress * bytes) :=
  '(o', p) ← map_err Policy (send_mut o id method);
  s ← map_err Policy (outbox_send o' id);
  c ← map_err Policy (application_context s m);
  context ← map_err Policy (context_encode c);
  Ok (o', p, context).

Section Commits.
Context {St : Type} `{OperationStore St}.
Implicit Types store : St.

Definition commit_logical_intent store (snap : OperationSnapshot) (o : GroupOutbox) (s : LogicalSend)
    : St * result GroupOperationError (OperationSnapshot * (GroupOutbox * OutboxDisposition)) :=
  match
    intent ← map_err Policy (encode_intent s);
    let '(o', r) := record o s in
    d ← map_err Policy r;
    Ok (intent, o', d)
  with
  | Err e => (store, Err e)
  | Ok (intent, o', d) =>
      if bool_decide (d = ODuplicate) then (store, Ok (snap, (o, d))) else
      publish store
        (candidate ← begin_candidate store snap;
         entry ← encode_intent_record intent;
         Ok (with_outbox candidate (snap_outbox candidate ++ [entry]), (o', d)))
  end.

Definition commit_outbox_prepared_ciphertext store (snap : OperationSnapshot)
    (o : GroupOutbox) (id : LogicalMessageId) (m : Member) (ct : bytes) (state : bytes)
    : St * result GroupOperationError (OperationSnapshot * (GroupOutbox * RecipientProgress)) :=
  publish store
    ('(o', p, context) ← candidate_progress o id m (fun s => bind_prepared_ciphertext s m ct);
     cm ← ok_or Policy (context_commitment p);
     ct ← ok_or Policy (ciphertext p);
     candidate ← begin_candidate store snap;
     entry ← encode_prepared_record context cm ct;
     Ok (with_provider (with_outbox candidate (snap_outbox candidate ++ [entry])) state, (o', p))).

(** The end of the two commits that compact the transcript. *)
Definition compacted (candidate : OperationSnapshot) (o : GroupOutbox) (g : GroupId) (p : RecipientProgress)
    : result GroupOperationError (OperationSnapshot * (GroupOutbox * RecipientProgress)) :=
  '(candidate, compacted) ← compact_group_outbox candidate g;
  Ok (candidate, (default o compacted, p)).

Definition commit_outbox_handoff_reservation store (snap : OperationSnapshot)
    (o : GroupOutbox) (id : LogicalMessageId) (m : Member)
    : St * result GroupOperationError (OperationSnapshot * (GroupOutbox * RecipientProgress)) :=
  publish store
    ('(o', p, context) ← candidate_progress o id m (fun s => reserve_handoff s m);
     cm ← ok_or Policy (context_commitment p);
     ct ← ok_or Policy (ciphertext p);
     candidate ← begin_candidate store snap;
     entry ← encode_handoff_record context cm ct p;
     compacted (with_outbox candidate (snap_outbox candidate ++ [entry])) o' (l_group_id id) p).

Definition commit_outbox_relay_acceptance store (snap : OperationSnapshot)
    (o : GroupOutbox) (id : LogicalMessageId) (m : Member)
    : St * result GroupOperationError (OperationSnapshot * (GroupOutbox * RecipientProgress)) :=
  publish store
    ('(o', p, context) ← candidate_progress o id m (fun s => record_relay_accepted s m);
     cm ← ok_or Policy (context_commitment p);
     ct ← ok_or Policy (ciphertext p);
     candidate ← begin_candidate store snap;
     entry ← encode_relay_acceptance_record context cm ct;
     compacted (with_outbox candidate (snap_outbox candidate ++ [entry])) o' (l_group_id id) p).
End Commits.
End Client.

(** ** Lemmas *)

(** The outbox a replay ends with, given the cancellation it applies last. *)
Definition finish (a : option Z) (o : GroupOutbox) : GroupOutbox :=
  match a with Some rev => cancel_for_newer_roster o rev | None => o end.

Definition finish_send (a : option Z) (s : LogicalSend) : LogicalSend :=
  match a with Some rev => send_cancel_for_newer_roster s rev | None => s end.

Lemma finish_sends a o : sends (finish a o) = (finish_send a <$> sends o).
Proof. destruct a; cbn; [done|]. symmetry. etrans; [|apply list_fmap_id]. by apply list_fmap_ext. Qed.

Lemma finish_group a o : o_group_id (finish a o) = o_group_id o.
Proof. by destruct a. Qed.

Lemma finish_send_id a s : s_id (finish_send a s) = s_id s.
Proof. destruct a; [|done]. cbn. unfold send_cancel_for_newer_roster. by case_test. Qed.

Lemma finish_ids a o : (s_id <$> sends (finish a o)) = (s_id <$> sends o).
Proof. rewrite finish_sends, <- list_fmap_compose. apply list_fmap_ext. intros. apply finish_send_id. Qed.

Lemma finish_send_at a o id : send_at (finish a o) id = prod_map Datatypes.id (finish_send a) <$> send_at o id.
Proof. unfold send_at. rewrite finish_sends. apply list_find_map. intros. apply finish_send_id. Qed.

Lemma finish_with_sends a o k s' :
  finish a (with_sends o (<[k := s']> (sends o))) =
  with_sends (finish a o) (<[k := finish_send a s']> (sends (finish a o))).
Proof.
  rewrite finish_sends. destruct a; cbn; unfold cancel_for_newer_roster, with_sends; cbn; f_equal.
  - by rewrite list_fmap_insert.
  - f_equal. symmetry. etrans; [|apply list_fmap_id]. by apply list_fmap_ext.
Qed.

(** A cancelled recipient only takes what the uncancelled one takes as well. *)
Lemma body_survives_cancel cm ct p q r :
  (prepare_one cm ct (cancel_one p) = (q, Ok r) -> prepare_one cm ct p = (q, Ok r) /\ cancel_one q = q) /\
  (handoff_one (cancel_one p) = (q, Ok r) -> handoff_one p = (q, Ok r) /\ cancel_one q = q) /\
  (accept_one (cancel_one p) = (q, Ok r) -> accept_one p = (q, Ok r) /\ cancel_one q = q).
Proof.
  destruct p as [m [] c t n]; cbn; split_and!; intros H; try done; by inv_bind.
Qed.

Lemma on_progress_id s m body s' r : on_progress s m body = (s', r) -> s_id s' = s_id s.
Proof. unfold on_progress. destruct (progress_at s m) as [[k p]|]; [destruct (body p)|]; intros; by inv_bind. Qed.

Lemma on_progress_finish a s m body s' p :
  (forall q q' r, body (cancel_one q) = (q', Ok r) -> body q = (q', Ok r) /\ cancel_one q' = q') ->
  on_progress (finish_send a s) m body = (s', Ok p) ->
  exists s0, on_progress s m body = (s0, Ok p) /\ finish_send a s0 = s'.
Proof.
  intros Hb H. destruct a as [rev|]; [|by exists s']. cbn [finish_send] in *.
  unfold send_cancel_for_newer_roster in *. destruct (l_revision (s_id s) >=? rev) eqn:G.
  - exists s'. split; [done|]. by rewrite (on_progress_id _ _ _ _ _ H), G.
  - unfold on_progress, progress_at in *. cbn [recipients with_recipients] in H.
    rewrite (list_find_map p_recipient cancel_one) in H by (intros; apply (body_recipients [] [])).
    destruct (list_find _ (recipients s)) as [[k q]|]; cbn in H; [|done].
    destruct (body (cancel_one q)) as [q' r] eqn:E. inv_bind. apply Hb in E as [-> Hc].
    eexists. split; [done|]. cbn. rewrite G. unfold with_recipients. cbn. by rewrite list_fmap_insert, Hc.
Qed.

Lemma send_mut_Ok {A} o id (method : LogicalSend -> LogicalSend * result Error A) o' x :
  send_mut o id method = Ok (o', x) <->
  exists k s s', send_at o id = Some (k, s) /\ method s = (s', Ok x) /\ o' = with_sends o (<[k := s']> (sends o)).
Proof.
  unfold send_mut, on_send. destruct (send_at o id) as [[k s]|]; cbn.
  - destruct (method s) as [s' r] eqn:E. split.
    + intros H. inv_bind. by exists k, s, s'.
    + intros (? & ? & ? & Hs & Hm & ->). inv_bind. rewrite Hm in E. by inv_bind.
  - split; [done|]. by intros (? & ? & ? & ? & _).
Qed.

(** A method that succeeds on the running outbox succeeds on the one replayed so
    far, with the same effect. *)
Lemma send_mut_finish a o id m body o' p :
  (forall q q' r, body (cancel_one q) = (q', Ok r) -> body q = (q', Ok r) /\ cancel_one q' = q') ->
  send_mut (finish a o) id (fun s => on_progress s m body) = Ok (o', p) ->
  exists o0, send_mut o id (fun s => on_progress s m body) = Ok (o0, p) /\ finish a o0 = o'.
Proof.
  intros Hb (k & s & s' & Hs & Hm & ->)%send_mut_Ok. rewrite finish_send_at in Hs.
  destruct (send_at o id) as [[k0 s0]|] eqn:E; cbn in Hs; [|done]. simplify_eq.
  apply on_progress_finish in Hm as (s1 & Hm & <-); [|done].
  exists (with_sends o (<[k := s1]> (sends o))). split; [|apply finish_with_sends].
  apply send_mut_Ok. by exists k, s0, s1.
Qed.

(** *** Contexts *)
Lemma progress_listed s m : (exists p, progress s m = Ok p) <-> m ∈ (p_recipient <$> recipients s).
Proof.
  unfold progress, progress_at. destruct (list_find _ (recipients s)) as [[k p]|] eqn:E; cbn.
  - split; [|eauto]. intros _. apply list_find_Some in E as (Hk & <- & _).
    apply list_elem_of_fmap_2. by eapply list_elem_of_lookup_2.
  - split; [by intros []|]. intros H. by apply list_find_absent in E.
Qed.

Lemma application_context_same s s' m : same_send s s' -> application_context s' m = application_context s m.
Proof.
  intros (H1 & H2 & H3 & H4). unfold application_context. rewrite H1, H2, H3.
  pose proof (progress_listed s m) as Hl. pose proof (progress_listed s' m) as Hl'. rewrite H4, <- Hl in Hl'.
  unfold progress in *. destruct (snd <$> progress_at s m) as [p|], (snd <$> progress_at s' m) as [p'|]; cbn in *;
    try done; [destruct (proj2 Hl'); eauto|destruct (proj1 Hl'); eauto]; done.
Qed.

Lemma application_context_fields s m c :
  application_context s m = Ok c ->
  logical_id_from_context c = Ok (s_id s) /\ recipient c = m /\ c_group_id c = l_group_id (s_id s) /\
  c = mkContext (l_group_id (s_id s)) (l_revision (s_id s)) (s_roster_digest s) (l_sender (s_id s)) m
        (l_sequence (s_id s)) (s_payload s) /\ (exists p, progress s m = Ok p).
Proof.
  unfold application_context, context_new. intros H. inv_bind. split_and!; try done; [|eauto].
  unfold logical_id_from_context, logical_id_new. cbn. apply unit_Ok, context_validate_spec in E0.
  pose proof (cv_revision _ E0) as Hr. cbn in Hr. rewrite (proj2 (Z.eqb_neq _ _) Hr). by destruct (s_id s).
Qed.

(** Resolves the tag tests of a record whose tag is known. *)
Lemma tags_distinct :
  bool_decide (TCGP = TCGI) = false /\ bool_decide (TCGH = TCGI) = false /\ bool_decide (TCGA = TCGI) = false /\
  bool_decide (TCGH = TCGP) = false /\ bool_decide (TCGA = TCGP) = false /\ bool_decide (TCGA = TCGH) = false.
Proof. by vm_compute. Qed.

Ltac tag_fwd :=
  rewrite split_at_checked_app by reflexivity;
  let H := fresh in pose proof tags_distinct as H; destruct H as (?T1 & ?T2 & ?T3 & ?T4 & ?T5 & ?T6);
  repeat match goal with
  | H : bool_decide _ = false |- _ => rewrite H
  | |- context [bool_decide (?a = ?a)] => rewrite (bool_decide_eq_true_2 (a = a)) by done
  end;
  cbn [orb];
  repeat match goal with H : bool_decide _ = false |- _ => clear H end.

(** ** What a replay maintains *)
Section Replay.
Context (pc : bytes -> bytes) (g : GroupId).

(** A stored commitment is that of the recipient's own context. *)
Definition recipient_ok (s : LogicalSend) (p : RecipientProgress) : Prop :=
  progress_ok p /\
  forall cm, context_commitment p = Some cm ->
    exists c cb, application_context s (p_recipient p) = Ok c /\ context_encode c = Ok cb /\ cm = pc cb.

Definition send_ranges (s : LogicalSend) : Prop :=
  len (l_group_id (s_id s)) = GROUP_ID_LEN /\ 0 <= l_revision (s_id s) <= u64_max /\
  0 <= l_sequence (s_id s) <= u64_max /\ len (s_roster_digest s) = DIGEST_LEN.

Record send_faithful (s : LogicalSend) : Prop := {
  sf_group : l_group_id (s_id s) = g;
  sf_ranges : send_ranges s;
  sf_recipients : Forall (recipient_ok s) (recipients s)
}.

Record faithful (o : GroupOutbox) : Prop := {
  fa_applied : applied_revision o = 0;
  fa_group : o_group_id o = g;
  fa_sends : Forall send_faithful (sends o)
}.

Lemma recipient_ok_same s s' p : same_send s s' -> recipient_ok s p -> recipient_ok s' p.
Proof.
  intros Hs [Hp Hc]. split; [done|]. intros cm Hcm. destruct (Hc cm Hcm) as (c & cb & Ha & ?).
  exists c, cb. by rewrite (application_context_same _ _ _ Hs).
Qed.

Lemma send_faithful_update s m body :
  (forall p, p_recipient (fst (body p)) = p_recipient p) ->
  (forall p, p_recipient p = m -> recipient_ok s p -> recipient_ok s (fst (body p))) ->
  send_faithful s -> send_faithful (fst (on_progress s m body)).
Proof.
  intros Hr Hb [H1 H2 H3]. pose proof (on_progress_same s m body Hr) as Hs.
  unfold on_progress in *. destruct (progress_at s m) as [[k p]|] eqn:E; [|done].
  apply progress_at_id in E as [Hm Hk]. specialize (Hb p Hm). destruct (body p) as [p' r]. cbn in *.
  split; [done|done|]. cbn. apply Forall_insert.
  - eapply Forall_impl; [exact H3|]. intros q. by apply recipient_ok_same.
  - apply (recipient_ok_same s); [done|]. apply Hb. by apply (Forall_lookup_1 _ _ _ _ H3 Hk).
Qed.

Lemma faithful_update o id m body o' p :
  (forall p, p_recipient (fst (body p)) = p_recipient p) ->
  (forall k s p, send_at o id = Some (k, s) -> p_recipient p = m -> recipient_ok s p ->
    recipient_ok s (fst (body p))) ->
  faithful o -> send_mut o id (fun s => on_progress s m body) = Ok (o', p) -> faithful o'.
Proof.
  intros Hr Hb [H1 H2 H3] (k & s & s' & Hs & Hm & ->)%send_mut_Ok. split; [done|done|]. cbn.
  pose proof (send_at_id _ _ _ _ Hs) as [Hid Hk]. apply Forall_insert; [done|].
  replace s' with (fst (on_progress s m body)) by (by rewrite Hm).
  apply send_faithful_update; [done| |by apply (Forall_lookup_1 _ _ _ _ H3 Hk)].
  intros q. by apply (Hb k).
Qed.

(** Handoffs and acceptances leave the commitment as it is. *)
Lemma recipient_ok_handoff s p : recipient_ok s p -> recipient_ok s (fst (handoff_one p)).
Proof.
  intros [Hp Hc]. pose proof (handoff_one_moves p Hp) as Hm.
  pose proof (body_recipients [] [] p) as (_ & Hr & _).
  assert (context_commitment (fst (handoff_one p)) = context_commitment p) as Hcm
    by (unfold handoff_one; repeat case_match; done).
  destruct (handoff_one p) as [p' r]. cbn in *. split; [by destruct Hm as (_ & ? & _)|].
  by rewrite Hcm, Hr.
Qed.

Lemma recipient_ok_accept s p : recipient_ok s p -> recipient_ok s (fst (accept_one p)).
Proof.
  intros [Hp Hc]. destruct (accept_one_moves p Hp) as (_ & Hok & _).
  pose proof (body_recipients [] [] p) as (_ & _ & Hr & _). split; [done|]. rewrite Hr.
  intros cm Hcm. apply Hc. rewrite <- Hcm. unfold accept_one. by destruct (disposition p).
Qed.

Lemma recipient_ok_prepare s p c cb cm ct :
  application_context s (p_recipient p) = Ok c -> context_encode c = Ok cb -> cm = pc cb ->
  recipient_ok s p -> recipient_ok s (fst (prepare_one cm ct p)).
Proof.
  intros Ha Hcb Hcm [Hp Hc]. destruct (prepare_one_moves cm ct p Hp) as (_ & Hok & _).
  pose proof (body_recipients cm ct p) as (Hr & _). split; [done|]. rewrite Hr.
  intros cm' Hcm'. unfold prepare_one in Hcm'. destruct (disposition p); cbn in Hcm'; try by apply Hc.
  inv_bind. by exists c, cb.
Qed.

Lemma outbox_send_at o id s : outbox_send o id = Ok s -> exists k, send_at o id = Some (k, s).
Proof. unfold outbox_send. destruct (send_at o id) as [[k x]|]; cbn; [|done]. intros; inv_bind. by exists k. Qed.


Lemma apply_prepared_faithful o c cm ct fin o' :
  faithful o -> apply_recovered_preparation pc g o c cm ct fin = Ok o' -> faithful o'.
Proof.
  intros Hf H. unfold apply_recovered_preparation in H. case_match; [by inv_bind|]. clear H0. inv_bind. bool_prop.
  apply outbox_send_at in E1 as [k Hs]. subst.
  assert (forall m o'' p, m = recipient c ->
    send_mut o a0 (fun s => record_prepared s m (pc a) ct) = Ok (o'', p) -> faithful o'') as Hrec.
  { intros m o'' p -> Hm. eapply faithful_update; [| |done|exact Hm].
    - intros; apply body_recipients.
    - intros k' s p' Hs' Hp. rewrite Hs in Hs'. simplify_eq.
      eapply recipient_ok_prepare; [by rewrite Hp|done|done]. }
  repeat case_match; inv_bind; try done; by eapply Hrec.
Qed.

Lemma insert_faithful a o s o' r :
  faithful o -> insert o s a = (o', r) -> l_group_id (s_id s) = g -> intent_wf s -> faithful o'.
Proof.
  intros Hf H Hg (R1 & R2 & R3 & R4 & Hp).
  apply insert_cases in H as [[-> _]|(_ & -> & _)]; [done|]. destruct Hf as [H1 H2 H3].
  split; [done|done|]. cbn. apply Forall_app. split; [done|]. apply Forall_singleton.
  split; [done|done|]. rewrite Hp. apply Forall_fmap, Forall_true. intros m. split; [done|]. intros ? [=].
Qed.

Lemma recover_entry_faithful a o e o' :
  faithful o -> recover_entry pc g a o e = Ok o' -> faithful o'.
Proof.
  intros Hf H. unfold recover_entry in H. destruct (split_at_checked 4 e) as [[tag body]|]; [|destruct (starts_with TCG e); by inv_bind || done].
  destruct (bool_decide (tag = TCGI)).
  { unfold decode_intent_record in H. inv_bind. destruct (insert o a0 a) as [o1 r] eqn:Ei. case_match eqn:Eg; inv_bind; [done|].
    bool_prop. eapply insert_faithful; [done|exact Ei|done|]. by apply intent_decode_encode in E as [? _]. }
  destruct (bool_decide (tag = TCGP)).
  { inv_bind. by eapply apply_prepared_faithful. }
  destruct (bool_decide (tag = TCGH)).
  { inv_bind. case_match; inv_bind; [done|]. eapply faithful_update; [| | |eassumption].
    - intros; apply (body_recipients [] []).
    - intros. by apply recipient_ok_handoff.
    - by eapply apply_prepared_faithful. }
  destruct (bool_decide (tag = TCGA)).
  { inv_bind. case_match; inv_bind; [done|]. eapply faithful_update; [| | |eassumption].
    - intros; apply (body_recipients [] []).
    - intros. by apply recipient_ok_accept.
    - by eapply apply_prepared_faithful. }
  destruct (starts_with TCG tag); by inv_bind || done.
Qed.

Lemma faithful_new : faithful (outbox_new g).
Proof. split; cbn; [done|done|constructor]. Qed.

Lemma recover_loop_faithful a entries : forall o o',
  faithful o -> recover_loop pc g a o entries = Ok o' -> faithful o'.
Proof.
  induction entries as [|e entries IH]; intros o o' Hf H; cbn in H; inv_bind; [done|].
  eapply IH; [|done]. by eapply recover_entry_faithful.
Qed.

Lemma recover_loop_snoc a o entries e :
  recover_loop pc g a o (entries ++ [e]) = (o ← recover_loop pc g a o entries; recover_entry pc g a o e).
Proof.
  revert o. induction entries as [|x entries IH]; intros o; cbn.
  - by destruct (recover_entry pc g a o e).
  - destruct (recover_entry pc g a o x); cbn; [apply IH|done].
Qed.

(** A later cancellation leaves a successful replay as it is. *)
Definition bound_le (a a' : option Z) : Prop :=
  match a, a' with
  | None, _ => True
  | Some x, Some y => x <= y
  | Some _, None => False
  end.

Lemma stays_live_le a a' s : bound_le a a' -> stays_live a' s = true -> stays_live a s = true.
Proof.
  destruct a as [x|], a' as [y|]; cbn; try done. intros H Hs. rewrite Z.geb_leb in *. bool_prop.
  apply Z.leb_le. lia.
Qed.

Lemma live_count_le a a' l : bound_le a a' -> live_count a' l <= live_count a l.
Proof.
  intros Ha. induction l as [|s l IH]; [done|]. rewrite !live_count_cons.
  pose proof (stays_live_le a a' s Ha). destruct (is_terminal s); cbn; [lia|].
  destruct (stays_live a' s) eqn:E; [rewrite H by done; lia|]. case_test; lia.
Qed.

Lemma insert_le a a' o s o' : bound_le a a' -> insert o s a = (o', Ok Inserted) -> insert o s a' = (o', Ok Inserted).
Proof.
  intros Ha H. unfold insert in *. destruct (negb _); [done|]. destruct (send_at _ _) as [[k x]|].
  { exfalso. by case_match. }
  destruct (_ <? _); [done|].
  match goal with H : (if ?c then (_, Err SequenceOrder) else _) = _ |- _ => destruct c; [done|] end.
  destruct (stays_live a s && _) eqn:E; [done|]. inv_bind.
  assert (stays_live a' s && (live_count a' (sends o) >=? MAX_LIVE_LOGICAL_SENDS) = false) as ->; [|done].
  destruct (stays_live a' s) eqn:Es; [|done]. rewrite (stays_live_le a a' s Ha Es) in E. cbn in *.
  rewrite Z.geb_leb in *. bool_prop. apply Z.leb_gt. pose proof (live_count_le a a' (sends o) Ha). lia.
Qed.

Lemma recover_entry_le a a' o e o' :
  bound_le a a' -> recover_entry pc g a o e = Ok o' -> recover_entry pc g a' o e = Ok o'.
Proof.
  intros Ha H. unfold recover_entry in *. destruct (split_at_checked 4 e) as [[tag body]|]; [|done].
  destruct (bool_decide (tag = TCGI)); [|done].
  destruct (decode_intent_record body) as [s|]; [|done]. cbn [mbind result_bind] in *.
  destruct (negb _); [done|]. destruct (insert o s a) as [o1 r] eqn:E.
  destruct r as [d|]; [|done]. cbn in H. destruct (bool_decide (d = Inserted)) eqn:Ed; [|done]. bool_prop. subst d.
  by rewrite (insert_le a a' _ _ _ Ha E).
Qed.

Lemma recover_loop_le a a' entries : forall o o',
  bound_le a a' -> recover_loop pc g a o entries = Ok o' -> recover_loop pc g a' o entries = Ok o'.
Proof.
  induction entries as [|e entries IH]; intros o o' Ha H; cbn in *; [done|]. inv_bind.
  rewrite (recover_entry_le a a' _ _ _ Ha E). cbn. by apply IH.
Qed.

(** *** Records read back *)
Lemma put_lp_gput v x : put_lp v = Ok x -> gput_lp v = Ok x.
Proof.
  unfold put_lp, gput_lp, gput_u32. intros H. inv_bind. done.
Qed.

Lemma context_wf_of s m c : send_ranges s -> application_context s m = Ok c -> context_wf c.
Proof. intros (H1 & H2 & H3 & H4) (_ & _ & _ & -> & _)%application_context_fields. done. Qed.

Lemma progress_record_read c cb cm ct x y rest :
  context_wf c -> context_encode c = Ok cb -> len cm = DIGEST_LEN ->
  put_lp cb = Ok x -> put_lp ct = Ok y ->
  decode_progress_record (x ++ cm ++ y ++ rest) = Ok (mkProgressRecord c cm ct rest).
Proof.
  intros Hwf Hcb Hcm Hx%put_lp_gput Hy%put_lp_gput. unfold decode_progress_record, digest_try_from.
  parses_fwd. rewrite (proj2 (context_decode_encode cb c)) by done. parses_fwd. done.
Qed.

Lemma length_prefixed_read v x rest : put_lp v = Ok x -> length_prefixed (x ++ rest) = Ok v.
Proof.
  unfold put_lp, length_prefixed, u32_try_from. intros H. inv_bind. bool_prop.
  rewrite <- app_assoc, split_at_checked_app by (by rewrite len_be_bytes). cbn [ok_or mbind result_bind].
  rewrite to_array_len by (by rewrite len_be_bytes). cbn [ok_or mbind result_bind].
  rewrite be_value_be_bytes.
  - by rewrite get_to_app.
  - pose proof (len_nonneg v). unfold u32_max in *. change (256 ^ Z.of_nat 4) with 4294967296. lia.
Qed.

(** The four records belong to the send they were written for. *)
Lemma progress_entry_id tag cb x c id rest :
  tag ∈ [TCGP; TCGH; TCGA] -> context_wf c -> context_encode c = Ok cb -> put_lp cb = Ok x ->
  logical_id_from_context c = Ok id -> outbox_record_id (tag ++ x ++ rest) = Ok (Some id).
Proof.
  intros Ht Hwf Hcb Hx Hid. unfold outbox_record_id.
  rewrite !elem_of_cons, elem_of_nil in Ht. destruct Ht as [->|[->|[->|[]]]]; tag_fwd;
    rewrite (length_prefixed_read cb x) by done; cbn [mbind result_bind];
    rewrite (proj2 (context_decode_encode cb c)) by done; cbn [map_err mbind result_bind];
    rewrite Hid; done.
Qed.

Lemma intent_entry_id s intent x :
  intent_wf s -> encode_intent s = Ok intent -> put_lp intent = Ok x ->
  outbox_record_id (TCGI ++ x) = Ok (Some (s_id s)).
Proof.
  intros Hwf He Hx. unfold outbox_record_id. tag_fwd. rewrite <- (app_nil_r x), (length_prefixed_read intent x) by done.
  cbn [mbind result_bind]. by rewrite (proj2 (intent_decode_encode intent s)).
Qed.

Lemma replay_intent a o s intent e o' :
  intent_wf s -> encode_intent s = Ok intent -> encode_intent_record intent = Ok e ->
  l_group_id (s_id s) = g -> insert o s a = (o', Ok Inserted) -> recover_entry pc g a o e = Ok o'.
Proof.
  intros Hwf He H Hg Hi. unfold encode_intent_record, put_lp in H. inv_bind.
  unfold u32_try_from in *. match goal with H : (if ?c then _ else _) = Some _ |- _ => destruct c eqn:Gc; [|done] end.
  inv_bind. bool_prop. unfold recover_entry. tag_fwd. unfold decode_intent_record.
  rewrite split_at_checked_app by (by rewrite len_be_bytes). cbn [ok_or mbind result_bind].
  rewrite to_array_len by (by rewrite len_be_bytes). cbn [ok_or mbind result_bind].
  rewrite be_value_be_bytes.
  2: { pose proof (len_nonneg intent). unfold u32_max in *. change (256 ^ Z.of_nat 4) with 4294967296. lia. }
  rewrite Z.eqb_refl. cbn [negb]. rewrite (proj2 (intent_decode_encode intent s)) by done. cbn [mbind result_bind].
  by rewrite bool_decide_eq_true_2, Hi.
Qed.

Lemma replay_preparation o id m k s c cb cm ct o' p fin :
  faithful o -> send_at o id = Some (k, s) -> application_context s m = Ok c -> context_encode c = Ok cb ->
  cm = pc cb -> (fin = true -> exists q, progress s m = Ok q /\ disposition q <> PExhaustedUnknown) ->
  send_mut o id (fun s => record_prepared s m cm ct) = Ok (o', p) ->
  apply_recovered_preparation pc g o c cm ct fin = Ok o'.
Proof.
  intros Hf Hs Hc Hcb Hcm Hfin Hm. destruct (application_context_fields _ _ _ Hc) as (Hid & Hrec & Hgr & _).
  pose proof (send_at_id _ _ _ _ Hs) as [Hsid Hk].
  assert (l_group_id (s_id s) = g) as Hsg by (apply (Forall_lookup_1 _ _ _ _ (fa_sends o Hf) Hk)).
  unfold apply_recovered_preparation. rewrite Hgr, Hsg, bool_decide_eq_true_2 by done. cbn [negb].
  rewrite Hcb. cbn [mbind result_bind]. rewrite bool_decide_eq_true_2 by done. cbn [negb].
  rewrite Hid. cbn [mbind result_bind]. unfold outbox_send. rewrite Hsid, Hs. cbn [fmap option_fmap option_map snd ok_or mbind result_bind].
  rewrite Hrec, Hc. cbn [mbind result_bind]. rewrite bool_decide_eq_true_2 by done. cbn [negb].
  destruct fin; cbn [mbind result_bind].
  - destruct (Hfin eq_refl) as (q & -> & Hq). cbn [mbind result_bind]. destruct q as [? [] ? ? ?]; try done; by rewrite Hm.
  - by rewrite Hm.
Qed.

(** A recipient's stored fields, offered again, change nothing. *)
Lemma prepare_again o id m k s j q cm ct :
  send_at o id = Some (k, s) -> progress_at s m = Some (j, q) ->
  disposition q = PPrepared \/ disposition q = PHandedOff ->
  context_commitment q = Some cm -> ciphertext q = Some ct ->
  send_mut o id (fun s => record_prepared s m cm ct) = Ok (o, q).
Proof.
  intros Hs Hq Hd Hcm Hct. apply send_mut_Ok. exists k, s, s. split; [done|].
  pose proof (send_at_id _ _ _ _ Hs) as [_ Hk]. pose proof (progress_at_id _ _ _ _ Hq) as [_ Hj].
  unfold record_prepared, on_progress. rewrite Hq. unfold prepare_one. rewrite Hcm, Hct.
  rewrite !bool_decide_eq_true_2 by done. split.
  - destruct Hd as [-> | ->]; cbn [andb]; f_equal; unfold with_recipients; rewrite list_insert_id by done; by destruct s.
  - unfold with_sends. rewrite list_insert_id by done. by destruct o.
Qed.

Lemma handoff_one_Ok q q' p :
  handoff_one q = (q', Ok p) ->
  (disposition q = PPrepared \/ disposition q = PHandedOff) /\
  context_commitment p = context_commitment q /\ ciphertext p = ciphertext q /\
  attempts_reserved p = attempts_reserved q + 1 /\ attempts_reserved p <= 3 /\
  disposition p = if attempts_reserved p =? 3 then PExhaustedUnknown else PHandedOff.
Proof.
  unfold handoff_one. intros H. destruct q as [r d cm ct n]; cbn in *.
  destruct d; try done; (destruct (bool_decide (ct = None)); [done|]);
    (destruct (n >=? 3) eqn:E; [done|]); bool_prop; inv_bind; cbn; split_and!; try done; try lia; first [by left|by right].
Qed.

Lemma accept_one_Ok q q' p :
  accept_one q = (q', Ok p) ->
  (disposition q = PHandedOff \/ disposition q = PExhaustedUnknown) /\
  context_commitment p = context_commitment q /\ ciphertext p = ciphertext q.
Proof.
  unfold accept_one. intros H. destruct q as [r d cm ct n]; cbn in *.
  destruct d; try done; inv_bind; cbn; split_and!; try done; first [by left|by right].
Qed.

Lemma on_progress_Ok s m body s' p :
  on_progress s m body = (s', Ok p) -> exists j q q', progress_at s m = Some (j, q) /\ body q = (q', Ok p).
Proof.
  unfold on_progress. destruct (progress_at s m) as [[j q]|]; [|done].
  destruct (body q) as [q' r] eqn:E. intros H. inv_bind. by exists j, q, q'.
Qed.

Context (pc_len : forall x, len (pc x) = DIGEST_LEN).

Lemma stored_commitment o id m k s j q c cb cm :
  faithful o -> send_at o id = Some (k, s) -> progress_at s m = Some (j, q) ->
  application_context s m = Ok c -> context_encode c = Ok cb -> context_commitment q = Some cm -> cm = pc cb.
Proof.
  intros Hf Hs Hq Hc Hcb Hcm. apply send_at_id in Hs as [_ Hk]. apply progress_at_id in Hq as [Hm Hj].
  destruct (Forall_lookup_1 _ _ _ _ (fa_sends o Hf) Hk) as [_ _ Hr].
  destruct (Forall_lookup_1 _ _ _ _ Hr Hj) as [_ Hx]. destruct (Hx cm Hcm) as (c' & cb' & Ha & He & ->).
  rewrite Hm in Ha. congruence.
Qed.

Lemma faithful_at o id k s : faithful o -> send_at o id = Some (k, s) -> send_faithful s.
Proof. intros Hf [_ Hk]%send_at_id. by apply (Forall_lookup_1 _ _ _ _ (fa_sends o Hf) Hk). Qed.

Lemma replay_prepared a o id m k s c cb ct o' p e :
  faithful o -> send_at o id = Some (k, s) -> application_context s m = Ok c -> context_encode c = Ok cb ->
  send_mut o id (fun s => record_prepared s m (pc cb) ct) = Ok (o', p) ->
  encode_prepared_record cb (pc cb) ct = Ok e ->
  recover_entry pc g a o e = Ok o' /\ outbox_record_id e = Ok (Some id).
Proof.
  intros Hf Hs Hc Hcb Hm He. unfold encode_prepared_record in He. inv_bind.
  pose proof (faithful_at _ _ _ _ Hf Hs) as Hsf. pose proof (context_wf_of _ _ _ (sf_ranges s Hsf) Hc) as Hwf.
  destruct (application_context_fields _ _ _ Hc) as (Hid & _). rewrite (proj1 (send_at_id _ _ _ _ Hs)) in Hid.
  split; [|eapply progress_entry_id; [set_solver|done|done|done|done]].
  unfold recover_entry. tag_fwd. rewrite <- (app_nil_r a1).
  rewrite (progress_record_read c cb (pc cb) ct) by done. cbn [mbind result_bind pr_rest pr_context pr_commitment pr_ciphertext].
  rewrite bool_decide_eq_true_2 by done. cbn [negb]. by eapply replay_preparation.
Qed.

Lemma replay_handoff a o id m k s c cb cm ct o' p e :
  faithful o -> send_at o id = Some (k, s) -> application_context s m = Ok c -> context_encode c = Ok cb ->
  send_mut o id (fun s => reserve_handoff s m) = Ok (o', p) ->
  context_commitment p = Some cm -> ciphertext p = Some ct -> encode_handoff_record cb cm ct p = Ok e ->
  recover_entry pc g a o e = Ok o' /\ outbox_record_id e = Ok (Some id).
Proof.
  intros Hf Hs Hc Hcb Hm Hcm Hct He. unfold encode_handoff_record in He. inv_bind. pose proof Hm as Hm'.
  apply send_mut_Ok in Hm' as (k' & s1 & s2 & Hs' & Hop & _). rewrite Hs in Hs'. injection Hs' as <- <-.
  apply on_progress_Ok in Hop as (j & q & q' & Hq & (Hd & Hcmq & Hctq & Hn & Hle & Hdp)%handoff_one_Ok).
  rewrite Hcm in Hcmq. rewrite Hct in Hctq. symmetry in Hcmq, Hctq.
  pose proof (stored_commitment _ _ _ _ _ _ _ _ _ _ Hf Hs Hq Hc Hcb Hcmq) as Hcmv.
  pose proof (faithful_at _ _ _ _ Hf Hs) as Hsf. pose proof (context_wf_of _ _ _ (sf_ranges s Hsf) Hc) as Hwf.
  destruct (application_context_fields _ _ _ Hc) as (Hid & Hrec & Hgr & _). rewrite (proj1 (send_at_id _ _ _ _ Hs)) in Hid.
  assert (0 <= attempts_reserved q) as Hq0.
  { pose proof (progress_at_id _ _ _ _ Hq) as [_ Hj].
    destruct (Forall_lookup_1 _ _ _ _ (sf_recipients s Hsf) Hj) as [Hok _].
    unfold progress_ok in Hok. destruct Hd as [Hd|Hd]; rewrite Hd in Hok; lia. }
  split; [|eapply progress_entry_id; [set_solver|done|done|done|done]].
  unfold recover_entry. tag_fwd. rewrite (progress_record_read c cb cm ct) by (done || by rewrite Hcmv).
  cbn [mbind result_bind pr_rest pr_context pr_commitment pr_ciphertext app].
  assert (decode_handoff_suffix [byte_of (attempts_reserved p); a0] = Ok (attempts_reserved p, disposition p)) as ->.
  { unfold decode_handoff_suffix. rewrite byte_val_of, Z.mod_small by lia.
    match goal with H : match disposition p with _ => _ end = Ok _ |- _ => revert H end.
    rewrite Hdp. case_test; intros; by inv_bind. }
  cbn [mbind result_bind]. rewrite Hgr, (sf_group s Hsf), bool_decide_eq_true_2 by done. cbn [negb].
  rewrite (replay_preparation o id m k s c cb cm ct o q false); [|done..|by eapply prepare_again].
  cbn [mbind result_bind]. rewrite Hid. cbn [mbind result_bind]. unfold outbox_send. rewrite Hs.
  cbn [fmap option_fmap option_map snd ok_or mbind result_bind]. rewrite Hrec. unfold progress. rewrite Hq.
  cbn [fmap option_fmap option_map snd ok_or mbind result_bind]. unfold u8_try_from.
  rewrite (proj2 (Z.leb_le _ _)) by (unfold u8_max; lia). cbn [ok_or mbind result_bind].
  rewrite Hn, Z.eqb_refl. cbn [negb]. rewrite Hm. cbn [mbind result_bind].
  rewrite Hn, Z.eqb_refl. cbn [negb orb]. by rewrite bool_decide_eq_true_2.
Qed.

Lemma replay_accepted a o id m k s c cb cm ct o' p e :
  faithful o -> send_at o id = Some (k, s) -> application_context s m = Ok c -> context_encode c = Ok cb ->
  send_mut o id (fun s => record_relay_accepted s m) = Ok (o', p) ->
  context_commitment p = Some cm -> ciphertext p = Some ct -> encode_relay_acceptance_record cb cm ct = Ok e ->
  recover_entry pc g a o e = Ok o' /\ outbox_record_id e = Ok (Some id).
Proof.
  intros Hf Hs Hc Hcb Hm Hcm Hct He. unfold encode_relay_acceptance_record in He. inv_bind. pose proof Hm as Hm'.
  apply send_mut_Ok in Hm' as (k' & s1 & s2 & Hs' & Hop & _). rewrite Hs in Hs'. injection Hs' as <- <-.
  apply on_progress_Ok in Hop as (j & q & q' & Hq & (Hd & Hcmq & Hctq)%accept_one_Ok).
  rewrite Hcm in Hcmq. rewrite Hct in Hctq. symmetry in Hcmq, Hctq.
  pose proof (stored_commitment _ _ _ _ _ _ _ _ _ _ Hf Hs Hq Hc Hcb Hcmq) as Hcmv.
  pose proof (faithful_at _ _ _ _ Hf Hs) as Hsf. pose proof (context_wf_of _ _ _ (sf_ranges s Hsf) Hc) as Hwf.
  destruct (application_context_fields _ _ _ Hc) as (Hid & Hrec & Hgr & _). rewrite (proj1 (send_at_id _ _ _ _ Hs)) in Hid.
  split; [|eapply progress_entry_id; [set_solver|done|done|done|done]].
  assert (apply_recovered_preparation pc g o c cm ct true = Ok o) as Happ.
  { destruct Hd as [Hd|Hd].
    - apply (replay_preparation o id m k s c cb cm ct o q true); try done.
      + intros _. exists q. unfold progress. rewrite Hq. split; [done|congruence].
      + eapply prepare_again; [done|done|by right|done|done].
    - unfold apply_recovered_preparation. rewrite Hgr, (sf_group s Hsf), bool_decide_eq_true_2 by done. cbn [negb].
      rewrite Hcb. cbn [mbind result_bind]. rewrite bool_decide_eq_true_2 by done. cbn [negb].
      rewrite Hid. cbn [mbind result_bind]. unfold outbox_send. rewrite Hs.
      cbn [fmap option_fmap option_map snd ok_or mbind result_bind].
      rewrite Hrec, Hc. cbn [mbind result_bind]. rewrite bool_decide_eq_true_2 by done. cbn [negb].
      unfold progress. rewrite Hq. cbn [fmap option_fmap option_map snd ok_or mbind result_bind].
      destruct q as [? ? ? ? ?]. cbn in Hd, Hcmq, Hctq. subst. by rewrite !bool_decide_eq_true_2. }
  unfold recover_entry. tag_fwd. rewrite <- (app_nil_r a1).
  rewrite (progress_record_read c cb cm ct) by (done || by rewrite Hcmv).
  cbn [mbind result_bind pr_rest pr_context pr_commitment pr_ciphertext].
  rewrite (bool_decide_eq_true_2 ([] = [])) by done. cbn [negb].
  rewrite Hgr, (sf_group s Hsf), bool_decide_eq_true_2 by done. cbn [negb].
  rewrite Happ. cbn [mbind result_bind]. rewrite Hid, Hrec. cbn [mbind result_bind]. by rewrite Hm.
Qed.

(** ** The client keeps the snapshot recoverable *)
Definition tracks (snap : OperationSnapshot) (o : GroupOutbox) : Prop := recover_group_outbox pc snap g = Ok o.

Lemma tracks_inv snap o : tracks snap o <-> exists a l o0,
  latest_group_outbox_cancellation snap g = Ok a /\ group_entries g (snap_outbox snap) = Ok l /\
  recover_loop pc g a (outbox_new g) l = Ok o0 /\ finish a o0 = o.
Proof.
  unfold tracks, recover_group_outbox, recover_from_transcript_at_revision. split.
  - intros H. inv_bind. eexists _, _, _. split_and!; done.
  - intros (a & l & o0 & -> & -> & Hl & <-). cbn [mbind result_bind]. by rewrite Hl.
Qed.

Lemma group_entries_snoc entries e id l :
  group_entries g entries = Ok l -> outbox_record_id e = Ok (Some id) -> l_group_id id = g ->
  group_entries g (entries ++ [e]) = Ok (l ++ [e]).
Proof.
  intros H He Hg. revert l H. induction entries as [|x entries IH]; intros l H; cbn in *.
  - inv_bind. rewrite He. cbn. by rewrite bool_decide_eq_true_2.
  - inv_bind. rewrite (IH _ eq_refl). cbn [mbind result_bind].
    destruct a as [i|]; [|done]. by destruct (bool_decide _).
Qed.

(** One more record, replayed as it was made. *)
Lemma tracks_append snap snap' a l o0 o0' e id :
  latest_group_outbox_cancellation snap g = Ok a -> group_entries g (snap_outbox snap) = Ok l ->
  recover_loop pc g a (outbox_new g) l = Ok o0 ->
  group_controls snap' = group_controls snap -> snap_outbox snap' = snap_outbox snap ++ [e] ->
  outbox_record_id e = Ok (Some id) -> l_group_id id = g -> recover_entry pc g a o0 e = Ok o0' ->
  tracks snap' (finish a o0').
Proof.
  intros Ha Hl Ho Hc Hs He Hg Hr. apply tracks_inv. exists a, (l ++ [e]), o0'. split_and!; [| | |done].
  - unfold latest_group_outbox_cancellation in *. by rewrite Hc.
  - rewrite Hs. by eapply group_entries_snoc.
  - by rewrite recover_loop_snoc, Ho.
Qed.

Section StoreLemmas.
Context {St : Type} `{OperationStore St}.

Lemma begin_candidate_same (store : St) snap c :
  begin_candidate store snap = Ok c ->
  snap_outbox c = snap_outbox snap /\ group_controls c = group_controls snap.
Proof. unfold begin_candidate. intros Hc. by inv_bind. Qed.

Lemma publish_Ok {A} (store : St) (r : result GroupOperationError (OperationSnapshot * A)) store' c x :
  publish store r = (store', Ok (c, x)) -> r = Ok (c, x).
Proof.
  unfold publish. destruct r as [[c' x']|]; [|done]. destruct (store_commit _ _) as [st o].
  destruct (bool_decide _); [|done]. by intros [= _ -> ->].
Qed.
End StoreLemmas.

Lemma compact_tracks snap o snap' opt :
  tracks snap o -> compact_group_outbox pc snap g = Ok (snap', opt) -> tracks snap' (default o opt).
Proof.
  unfold tracks, compact_group_outbox. intros Ho H. inv_bind.
  destruct (len _ <=? _); inv_bind; done.
Qed.

Lemma same_send_trans s1 s2 s3 : same_send s1 s2 -> same_send s2 s3 -> same_send s1 s3.
Proof. intros (A1 & A2 & A3 & A4) (B1 & B2 & B3 & B4). split_and!; congruence. Qed.

Lemma finish_send_same a s : same_send s (finish_send a s).
Proof. destruct a as [rev|]; [|done]. apply (send_step_same s (SNewer rev)). Qed.

(** What a commit reads from its candidate is also what the replay has. *)
Lemma candidate_replay a o0 id m body o' p s' :
  (forall q q' r, body (cancel_one q) = (q', Ok r) -> body q = (q', Ok r) /\ cancel_one q' = q') ->
  (forall q, p_recipient (fst (body q)) = p_recipient q) ->
  send_mut (finish a o0) id (fun s => on_progress s m body) = Ok (o', p) -> outbox_send o' id = Ok s' ->
  exists o0' k s0, send_mut o0 id (fun s => on_progress s m body) = Ok (o0', p) /\ finish a o0' = o' /\
    send_at o0 id = Some (k, s0) /\ same_send s0 s'.
Proof.
  intros Hb Hr Hm Hs'. apply send_mut_finish in Hm as (o0' & Hm & <-); [|done].
  pose proof Hm as (k & s0 & s1 & Hat & Hop & ->)%send_mut_Ok.
  exists (with_sends o0 (<[k := s1]> (sends o0))), k, s0. split_and!; try done.
  apply outbox_send_at in Hs' as [k' Hs']. rewrite finish_send_at in Hs'. unfold send_at in Hs'. cbn [sends with_sends] in Hs'.
  pose proof (send_at_id _ _ _ _ Hat) as [Hid _].
  rewrite (list_find_update s_id id id _ k s0 s1) in Hs'; [|done|by rewrite (on_progress_id _ _ _ _ _ Hop)].
  rewrite decide_True in Hs' by done. cbn in Hs'. simplify_eq.
  eapply same_send_trans; [|apply finish_send_same].
  replace s1 with (fst (on_progress s0 m body)) by (by rewrite Hop). by apply on_progress_same.
Qed.

(** A send the cancellation ends does not count while the replay runs. *)
Lemma live_count_finish a l : live_count a l <= live_count None (finish_send a <$> l).
Proof.
  induction l as [|s l IH]; [done|]. rewrite fmap_cons, !live_count_cons. cbn [stays_live].
  assert (stays_live a s = true -> finish_send a s = s) as Hs.
  { destruct a as [rev|]; [|done]. cbn. unfold send_cancel_for_newer_roster. by intros ->. }
  destruct (is_terminal s) eqn:Et; cbn [negb andb]; [case_test; lia|].
  destruct (stays_live a s); [|case_test; lia]. rewrite Hs, Et by done. cbn. lia.
Qed.

(** The group of a send that a replayed outbox holds. *)
Lemma faithful_id_group o id k s : faithful o -> send_at o id = Some (k, s) -> l_group_id id = g.
Proof. intros Hf Hs. pose proof (sf_group _ (faithful_at _ _ _ _ Hf Hs)). by destruct (send_at_id _ _ _ _ Hs) as [<- _]. Qed.

Lemma tracks_intent {St} `{OperationStore St} (store : St) snap o s store' snap' o' d :
  tracks snap o -> intent_wf s -> commit_logical_intent store snap o s = (store', Ok (snap', (o', d))) -> tracks snap' o'.
Proof.
  intros Ht Hwf Hc. pose proof Ht as (a & l & o0 & Ha & Hl & Ho & Hfin)%tracks_inv.
  unfold commit_logical_intent in Hc. destruct (encode_intent s) as [a0|] eqn:E0; [|done]. cbn [map_err mbind result_bind] in Hc.
  destruct (record _ s) as [o1 r] eqn:Er. destruct r as [a1|]; [|done]. cbn [map_err mbind result_bind] in Hc.
  destruct (bool_decide (a1 = ODuplicate)) eqn:Ed; [by injection Hc as <- <- <- <-|]. bool_prop.
  apply publish_Ok in Hc. inv_bind.
  match goal with E : begin_candidate _ _ = Ok _ |- _ => apply begin_candidate_same in E as [Hb1 Hb2] end.
  destruct d; [|done]. clear Ed. unfold record in Er. apply insert_cases in Er as [[_ []]|Hi]; [done|].
  destruct Hi as (_ & -> & Hg & Hn & Hr & Hlt & Hlive). specialize (Hlive eq_refl).
  pose proof (recover_loop_faithful a l _ _ faithful_new Ho) as Hf.
  rewrite finish_group, (fa_group _ Hf) in Hg. destruct Hwf as (W1 & W2 & W3 & W4 & W5).
  assert (finish_send a s = s /\ stays_live a s = true) as [Hfs Hst].
  { destruct a as [rev|]; [|done]. cbn in Hr |- *. unfold send_cancel_for_newer_roster.
    replace (l_revision (s_id s) >=? rev) with true; [done|]. symmetry. apply Z.geb_le. lia. }
  assert (insert o0 s a = (with_sends o0 (sends o0 ++ [s]), Ok Inserted)) as Hins.
  { apply insert_intro.
    - rewrite Hg. symmetry. apply Hf.
    - by rewrite <- (finish_ids a o0).
    - rewrite (fa_applied _ Hf). lia.
    - intros x Hx Hxr Hxs. pose proof (Hlt (finish_send a x)) as Hlx. unfold sequence_lt in Hlx.
      rewrite finish_send_id in Hlx. apply Hlx; [|done|done]. rewrite finish_sends. by apply list_elem_of_fmap_2.
    - intros _. eapply Z.le_lt_trans; [|exact Hlive]. rewrite finish_sends. apply live_count_finish. }
  assert (finish a (with_sends o0 (sends o0 ++ [s])) = with_sends (finish a o0) (sends (finish a o0) ++ [s])) as <-.
  { rewrite finish_sends. destruct a as [rev|]; cbn in *; unfold cancel_for_newer_roster, with_sends; cbn; f_equal.
    - rewrite fmap_app. cbn. by rewrite Hfs.
    - f_equal. symmetry. etrans; [|apply list_fmap_id]. by apply list_fmap_ext. }
  eapply tracks_append; [done|done|done|done|cbn; by rewrite Hb1| |exact Hg|].
  - unfold encode_intent_record in E1. inv_bind. by eapply intent_entry_id.
  - by eapply replay_intent.
Qed.

(** A method of a commit, with what the candidate shows, on the replayed outbox. *)
Lemma candidate_progress_inv a o0 id m body o' p context :
  faithful o0 ->
  (forall q q' r, body (cancel_one q) = (q', Ok r) -> body q = (q', Ok r) /\ cancel_one q' = q') ->
  (forall q, p_recipient (fst (body q)) = p_recipient q) ->
  candidate_progress (finish a o0) id m (fun s => on_progress s m body) = Ok (o', p, context) ->
  exists o0' k s0 c, send_mut o0 id (fun s => on_progress s m body) = Ok (o0', p) /\ finish a o0' = o' /\
    send_at o0 id = Some (k, s0) /\ application_context s0 m = Ok c /\ context_encode c = Ok context /\
    l_group_id id = g.
Proof.
  intros Hf Hb Hr H. unfold candidate_progress in H. inv_bind.
  match goal with H : send_mut _ _ _ = Ok _, H' : outbox_send _ _ = Ok _ |- _ =>
    destruct (candidate_replay a o0 id m body _ _ _ Hb Hr H H') as (o0' & k & s0 & Hm & Hfin & Hat & Hss) end.
  match goal with H : application_context _ _ = Ok ?c |- _ =>
    rewrite (application_context_same _ _ _ Hss) in H; exists o0', k, s0, c end.
  split_and!; try done. by eapply faithful_id_group.
Qed.

(** The preparation of a commit, with its context in place. *)
Lemma bind_prepared_progress a o0 id m ct o1 q cb :
  faithful o0 ->
  candidate_progress (finish a o0) id m (fun s => bind_prepared_ciphertext pc s m ct) = Ok (o1, q, cb) ->
  candidate_progress (finish a o0) id m (fun s => on_progress s m (prepare_one (pc cb) ct)) = Ok (o1, q, cb).
Proof.
  intros Hf H. unfold candidate_progress in H. inv_bind.
  match goal with H : send_mut _ _ _ = Ok _ |- _ => pose proof H as (k & s & s' & Hat & Hm & Ho1)%send_mut_Ok end.
  unfold bind_prepared_ciphertext in Hm.
  destruct (c ← application_context s m; context_encode c) as [cb'|] eqn:Ecb; [|done].
  assert (send_mut (finish a o0) id (fun s => on_progress s m (prepare_one (pc cb') ct)) = Ok (o1, q)) as Hsm
    by (apply send_mut_Ok; by exists k, s, s').
  destruct (candidate_replay a o0 id m (prepare_one (pc cb') ct) o1 q a0) as (o0' & k0 & s0 & _ & _ & Hat0 & Hss);
    [intros ? ? ?; apply (body_survives_cancel (pc cb') ct)|intros; apply body_recipients|done|done|].
  rewrite finish_send_at, Hat0 in Hat. cbn in Hat. injection Hat as _ <-.
  rewrite (application_context_same _ _ _ (finish_send_same a s0)), <- (application_context_same _ _ _ Hss) in Ecb.
  unfold candidate_progress. repeat match goal with
  | H : application_context a0 m = Ok _ |- _ => rewrite H in Ecb
  end. cbn [mbind result_bind] in Ecb.
  assert (cb' = cb) as -> by congruence. rewrite Hsm. cbn [map_err mbind result_bind].
  repeat (match goal with H : ?x = Ok _ |- context [?x] => rewrite H end; cbn [map_err mbind result_bind]). done.
Qed.

Lemma tracks_prepared {St} `{OperationStore St} (store : St) store' snap o id m ct state snap' o' p :
  tracks snap o -> commit_outbox_prepared_ciphertext pc store snap o id m ct state = (store', Ok (snap', (o', p))) ->
  tracks snap' o'.
Proof.
  intros (a & l & o0 & Ha & Hl & Ho & <-)%tracks_inv Hc0.
  pose proof (recover_loop_faithful a l _ _ faithful_new Ho) as Hf.
  apply publish_Ok in Hc0.
  destruct (candidate_progress _ _ _ _) as [[[o1 q] cb]|] eqn:Ec; cbn [mbind result_bind] in Hc0; [|done].
  apply bind_prepared_progress in Ec; [|done]. inv_bind.
  apply candidate_progress_inv in Ec as (o0' & k & s0 & c & Hm & <- & Hat & Hc & Hcb & Hg);
    [|done|intros q' r'; apply (body_survives_cancel (pc cb) ct)|intros; apply body_recipients].
  apply begin_candidate_same in E1 as [Hb1 Hb2].
  pose proof Hm as (k' & s1 & s2 & Hat' & Hop & _)%send_mut_Ok.
  apply on_progress_Ok in Hop as (j & q & q' & _ & Hq).
  assert (context_commitment p = Some (pc cb) /\ ciphertext p = Some ct) as [Hp1 Hp2].
  { unfold prepare_one in Hq. destruct (disposition q); inv_bind; try done; by bool_prop. }
  assert (a0 = pc cb) as -> by congruence. assert (a1 = ct) as -> by congruence.
  destruct (replay_prepared a o0 id m k s0 c cb ct o0' p a3 Hf Hat Hc Hcb Hm E2) as [Hr Hid].
  eapply tracks_append; [done|done|done| | |exact Hid|exact Hg|exact Hr]; cbn; congruence.
Qed.

(** The end of the two commits that compact. *)
Lemma tracks_compacted candidate o id p snap' o' p' :
  tracks candidate o -> l_group_id id = g ->
  compacted pc candidate o (l_group_id id) p = Ok (snap', (o', p')) -> tracks snap' o'.
Proof.
  intros Ht Hg Hc. unfold compacted in Hc. rewrite Hg in Hc. inv_bind. by eapply compact_tracks.
Qed.

Lemma tracks_handoff {St} `{OperationStore St} (store : St) store' snap o id m snap' o' p :
  tracks snap o -> commit_outbox_handoff_reservation pc store snap o id m = (store', Ok (snap', (o', p))) -> tracks snap' o'.
Proof.
  intros (a & l & o0 & Ha & Hl & Ho & <-)%tracks_inv Hc0.
  pose proof (recover_loop_faithful a l _ _ faithful_new Ho) as Hf.
  apply publish_Ok in Hc0.
  destruct (candidate_progress _ _ _ _) as [[[o1 q] cb]|] eqn:Ec; cbn [mbind result_bind] in Hc0; [|done]. inv_bind.
  apply candidate_progress_inv in Ec as (o0' & k & s0 & c & Hm & <- & Hat & Hc & Hcb & Hg);
    [|done|intros ? ? ?; apply (body_survives_cancel [] [])|intros; apply (body_recipients [] [])].
  apply begin_candidate_same in E1 as [Hb1 Hb2].
  match goal with He : encode_handoff_record _ _ _ _ = Ok _, E : context_commitment _ = Some _, E' : ciphertext _ = Some _ |- _ =>
    destruct (replay_handoff a o0 id m k s0 c cb _ _ o0' q _ Hf Hat Hc Hcb Hm E E' He) as [Hr Hid] end.
  eapply tracks_compacted; [|exact Hg|eassumption].
  eapply tracks_append; [done|done|done| | |exact Hid|exact Hg|exact Hr]; cbn; congruence.
Qed.

Lemma tracks_accepted {St} `{OperationStore St} (store : St) store' snap o id m snap' o' p :
  tracks snap o -> commit_outbox_relay_acceptance pc store snap o id m = (store', Ok (snap', (o', p))) -> tracks snap' o'.
Proof.
  intros (a & l & o0 & Ha & Hl & Ho & <-)%tracks_inv Hc0.
  pose proof (recover_loop_faithful a l _ _ faithful_new Ho) as Hf.
  apply publish_Ok in Hc0.
  destruct (candidate_progress _ _ _ _) as [[[o1 q] cb]|] eqn:Ec; cbn [mbind result_bind] in Hc0; [|done]. inv_bind.
  apply candidate_progress_inv in Ec as (o0' & k & s0 & c & Hm & <- & Hat & Hc & Hcb & Hg);
    [|done|intros ? ? ?; apply (body_survives_cancel [] [])|intros; apply (body_recipients [] [])].
  apply begin_candidate_same in E1 as [Hb1 Hb2].
  match goal with He : encode_relay_acceptance_record _ _ _ = Ok _, E : context_commitment _ = Some _, E' : ciphertext _ = Some _ |- _ =>
    destruct (replay_accepted a o0 id m k s0 c cb _ _ o0' q _ Hf Hat Hc Hcb Hm E E' He) as [Hr Hid] end.
  eapply tracks_compacted; [|exact Hg|eassumption].
  eapply tracks_append; [done|done|done| | |exact Hid|exact Hg|exact Hr]; cbn; congruence.
Qed.

(** *** Roster changes *)
Lemma cancel_one_twice p : cancel_one (cancel_one p) = cancel_one p.
Proof. by destruct p as [m [] c t n]. Qed.

Lemma finish_cancel a rev o :
  bound_le a (Some rev) -> cancel_for_newer_roster (finish a o) rev = finish (Some rev) o.
Proof.
  intros Ha. destruct a as [old|]; [|done]. cbn in *. unfold cancel_for_newer_roster. cbn. f_equal; [|lia].
  rewrite <- list_fmap_compose. apply list_fmap_ext. intros i s _. cbn. unfold send_cancel_for_newer_roster.
  destruct (l_revision (s_id s) >=? old) eqn:G1; [done|]. cbn [s_id with_recipients].
  destruct (l_revision (s_id s) >=? rev) eqn:G2; bool_prop; [lia|].
  unfold with_recipients. cbn. f_equal. rewrite <- list_fmap_compose. apply list_fmap_ext. intros. apply cancel_one_twice.
Qed.

Lemma tracks_roster snap o controls old rev :
  tracks snap o -> latest_group_outbox_cancellation snap g = Ok old -> bound_le old (Some rev) ->
  latest_group_outbox_cancellation (with_controls snap controls) g
    = Ok (Some rev) ->
  tracks (with_controls snap controls)
    (cancel_for_newer_roster o rev).
Proof.
  intros (a & l & o0 & Ha & Hl & Ho & <-)%tracks_inv Hold Hle Hnew. rewrite Ha in Hold. apply Ok_inj in Hold as <-.
  apply tracks_inv. exists (Some rev), l, o0. split_and!; [done|done| |by rewrite finish_cancel].
  by eapply recover_loop_le.
Qed.
End Replay.

(** ** Property *)

(** A commit that the store accepts, or an accepted roster whose cancellation
    record the control records then hold. *)
Inductive client_step (pc : bytes -> bytes) (g : GroupId) :
    OperationSnapshot * GroupOutbox -> OperationSnapshot * GroupOutbox -> Prop :=
| step_intent St (HSt : OperationStore St) (store store' : St) snap o s snap' o' d :
    intent_wf s -> commit_logical_intent store snap o s = (store', Ok (snap', (o', d))) ->
    client_step pc g (snap, o) (snap', o')
| step_prepared St (HSt : OperationStore St) (store store' : St) snap o id m ct state snap' o' p :
    commit_outbox_prepared_ciphertext pc store snap o id m ct state = (store', Ok (snap', (o', p))) ->
    client_step pc g (snap, o) (snap', o')
| step_handoff St (HSt : OperationStore St) (store store' : St) snap o id m snap' o' p :
    commit_outbox_handoff_reservation pc store snap o id m = (store', Ok (snap', (o', p))) ->
    client_step pc g (snap, o) (snap', o')
| step_accepted St (HSt : OperationStore St) (store store' : St) snap o id m snap' o' p :
    commit_outbox_relay_acceptance pc store snap o id m = (store', Ok (snap', (o', p))) ->
    client_step pc g (snap, o) (snap', o')
| step_roster snap o controls old rev :
    let snap' := with_controls snap controls in
    latest_group_outbox_cancellation snap g = Ok old -> bound_le old (Some rev) ->
    latest_group_outbox_cancellation snap' g = Ok (Some rev) ->
    client_step pc g (snap, o) (snap', cancel_for_newer_roster o rev).

(** C19. Recovery gives back the running outbox: for any payload commitment,
    start from a snapshot that recovers to its outbox (the empty one does) and
    take any run of committed intents, preparations, handoffs, relay
    acceptances and roster cancellations, in any order and with the transcript
    compacted whenever the code compacts it: recovering the snapshot then
    succeeds and gives exactly the outbox that was running, with every
    recipient's disposition, ciphertext, commitment and attempts and the
    applied revision. *)
Theorem outbox_recovers_exactly pc g snap o snap' o' :
  (forall x, len (pc x) = DIGEST_LEN) ->
  recover_group_outbox pc snap g = Ok o -> rtc (client_step pc g) (snap, o) (snap', o') ->
  recover_group_outbox pc snap' g = Ok o'.
Proof.
  intros Hpc Ht Hrun.
  assert (forall x y, client_step pc g x y -> tracks pc g x.1 x.2 -> tracks pc g y.1 y.2) as Hstep.
  { intros x y [| | | |] Hx; cbn in *; [by eapply tracks_intent|by eapply tracks_prepared|by eapply tracks_handoff
      |by eapply tracks_accepted|by eapply tracks_roster]. }
  change (tracks pc g (snap', o').1 (snap', o').2). revert Ht. change (recover_group_outbox pc snap g = Ok o)
    with (tracks pc g (snap, o).1 (snap, o).2). induction Hrun; eauto.
Qed.

(** A file store in an empty directory, and the first commits of a group for
    the witness. *)
Definition first_store : DurableStore FileOperationStore :=
  durable_new (mkFileStore "ops" (mkFs ∅ ∅) [] (fun k => Z.of_nat k)).
Definition const_commitment (_ : bytes) : bytes := replicate 32 x01.

Definition client_state : Type := DurableStore FileOperationStore * (OperationSnapshot * GroupOutbox).

(** The state after a commit that succeeds. *)
Definition after {A} (st : client_state)
    (r : DurableStore FileOperationStore * result GroupOperationError (OperationSnapshot * (GroupOutbox * A)))
    : client_state :=
  match r with (store, Ok (snap, (o, _))) => (store, (snap, o)) | (store, Err _) => (store, st.2) end.

Definition first_group : GroupId := replicate 16 x07.
Definition state0 : client_state := (first_store, (snapshot_empty 0, outbox_new first_group)).
Definition state1 := after state0 (commit_logical_intent state0.1 state0.2.1 state0.2.2 first_send).
Definition state2 := after state1
  (commit_outbox_prepared_ciphertext const_commitment state1.1 state1.2.1 state1.2.2 (s_id first_send) cid
     (bstr "ct") (bstr "p")).
Definition state3 := after state2
  (commit_outbox_handoff_reservation const_commitment state2.1 state2.2.1 state2.2.2 (s_id first_send) cid).

Lemma outbox_recovers_exactly_witness :
  recover_group_outbox const_commitment state3.2.1 first_group = Ok state3.2.2 /\
  exists p, progress (default first_send (head (sends state3.2.2))) cid = Ok p /\ disposition p = PHandedOff.
Proof.
  split.
  - apply (outbox_recovers_exactly const_commitment first_group (snapshot_empty 0) (outbox_new first_group)).
    + done.
    + done.
    + eapply rtc_l; [|eapply rtc_l; [|eapply rtc_l; [|apply rtc_refl]]].
      * eapply (step_intent _ _ _ _ state0.1 state1.1 _ _ first_send state1.2.1 state1.2.2); [by vm_compute|by vm_compute].
      * eapply (step_prepared _ _ _ _ state1.1 state2.1 _ _ (s_id first_send) cid (bstr "ct") (bstr "p") state2.2.1 state2.2.2).
        by vm_compute.
      * eapply (step_handoff _ _ _ _ state2.1 state3.1 _ _ (s_id first_send) cid). by vm_compute.
  - eexists. by split; vm_compute.
Defined.
