(* ===== verification/GroupCompaction.v ===== *)
(** * GroupCompaction: dropping old sends from a transcript
    ([compact_group_outbox] of [tacenta-client/src/group_operations.rs])

    A snapshot keeps the records of every live send and of the sixteen most
    recent terminal ones.  The definitions are in GroupTranscript; here is the
    argument that dropping a send's records drops exactly that send from what
    the transcript recovers to, and so never makes a snapshot unreadable. *)

From S2P Require Import Prelude OperationStore GroupCodec GroupSend GroupTranscript.

(** An outbox without some of its sends. *)
Definition without (dropped : list LogicalMessageId) (o : GroupOutbox) : GroupOutbox :=
  with_sends o (filter (fun s => ~ (s_id s ∈ dropped)) (sends o)).

Section Restrict.
Context (dropped : list LogicalMessageId).
Abbreviation kept := (filter (fun s => ~ (s_id s ∈ dropped))).

Lemma kept_find id l k s :
  list_find (fun s => s_id s = id) l = Some (k, s) -> ~ (id ∈ dropped) ->
  exists k1, list_find (fun s => s_id s = id) (kept l) = Some (k1, s) /\
    forall s', s_id s' = id -> kept (<[k := s']> l) = <[k1 := s']> (kept l).
Proof.
  intros H Hid. revert k H. induction l as [|x l IH]; intros k H; [done|]. cbn [list_find] in H.
  case_decide as Hx.
  - injection H as <- <-. exists O. rewrite filter_cons, decide_True by (by rewrite Hx). split.
    + cbn [list_find]. by rewrite decide_True.
    + intros s' Hs'. change (<[O := s']> (x :: l)) with (s' :: l).
      rewrite filter_cons, decide_True by (by rewrite Hs'). done.
  - destruct (list_find _ l) as [[j y]|] eqn:E; cbn in H; [|done]. injection H as <- <-.
    destruct (IH j eq_refl) as (k1 & Hf & Hu). rewrite filter_cons. case_decide as Hk.
    + exists (S k1). split.
      * cbn [list_find]. rewrite decide_False by done. by rewrite Hf.
      * intros s' Hs'. change (<[S j := s']> (x :: l)) with (x :: <[j := s']> l).
        rewrite filter_cons, decide_True by done. by rewrite Hu.
    + exists k1. split; [done|]. intros s' Hs'. change (<[S j := s']> (x :: l)) with (x :: <[j := s']> l).
      rewrite filter_cons, decide_False by tauto. by apply Hu.
Qed.

Lemma kept_drop id l k s s' :
  list_find (fun s => s_id s = id) l = Some (k, s) -> id ∈ dropped -> s_id s' = id ->
  kept (<[k := s']> l) = kept l.
Proof.
  intros H Hid Hs'. revert k H. induction l as [|x l IH]; intros k H; [done|]. cbn [list_find] in H.
  case_decide as Hx.
  - injection H as <- <-. change (<[O := s']> (x :: l)) with (s' :: l).
    rewrite !filter_cons, !decide_False by (rewrite ?Hx, ?Hs'; tauto). done.
  - destruct (list_find _ l) as [[j y]|] eqn:E; cbn in H; [|done]. injection H as <- <-.
    change (<[S j := s']> (x :: l)) with (x :: <[j := s']> l). rewrite !filter_cons, (IH j eq_refl). done.
Qed.

Lemma without_update o id k s s' :
  send_at o id = Some (k, s) -> ~ (id ∈ dropped) -> s_id s' = id ->
  exists k1, send_at (without dropped o) id = Some (k1, s) /\
    without dropped (with_sends o (<[k := s']> (sends o))) =
    with_sends (without dropped o) (<[k1 := s']> (sends (without dropped o))).
Proof.
  intros H Hid Hs'. destruct (kept_find id _ k s H Hid) as (k1 & Hf & Hu). exists k1. split; [done|].
  unfold without, with_sends. cbn. f_equal. by apply Hu.
Qed.

Lemma without_update_dropped o id k s s' :
  send_at o id = Some (k, s) -> id ∈ dropped -> s_id s' = id ->
  without dropped (with_sends o (<[k := s']> (sends o))) = without dropped o.
Proof. intros H Hid Hs'. unfold without, with_sends. cbn. f_equal. by eapply kept_drop. Qed.

Lemma live_count_kept b l : live_count b (kept l) <= live_count b l.
Proof.
  induction l as [|s l IH]; [done|]. rewrite filter_cons. case_decide; rewrite ?live_count_cons; [lia|].
  case_test; lia.
Qed.

Lemma without_insert a o s o' :
  insert o s a = (o', Ok Inserted) ->
  if decide (s_id s ∈ dropped) then without dropped o' = without dropped o
  else insert (without dropped o) s a = (without dropped o', Ok Inserted).
Proof.
  intros [[_ []]|(_ & -> & Hg & Hn & Hr & Hlt & Hl)]%insert_cases; [done|].
  assert (without dropped (with_sends o (sends o ++ [s])) =
    if decide (s_id s ∈ dropped) then without dropped o
    else with_sends (without dropped o) (sends (without dropped o) ++ [s])) as Hw.
  { unfold without, with_sends. cbn. rewrite filter_app, filter_cons, filter_nil.
    destruct (decide (s_id s ∈ dropped)) as [Hd|Hd].
    - rewrite decide_False by tauto. by rewrite app_nil_r.
    - by rewrite decide_True. }
  case_decide as Hd; rewrite Hw; [done|]. apply insert_intro; cbn.
  - done.
  - intros (x & Hx & [_ Hin]%list_elem_of_filter)%list_elem_of_fmap. apply Hn. rewrite Hx.
    by apply list_elem_of_fmap_2.
  - done.
  - intros x [_ Hin]%list_elem_of_filter. by apply Hlt.
  - intros Hs. specialize (Hl Hs). pose proof (live_count_kept a (sends o)). lia.
Qed.

Lemma finish_without a o : finish a (without dropped o) = without dropped (finish a o).
Proof.
  destruct a as [rev|]; [|done]. cbn. unfold cancel_for_newer_roster, without, with_sends. cbn. f_equal.
  induction (sends o) as [|s l IH]; [done|]. rewrite fmap_cons, !filter_cons.
  rewrite <- IH. change (send_cancel_for_newer_roster s rev) with (finish_send (Some rev) s).
  rewrite finish_send_id. by case_decide.
Qed.
End Restrict.

(** ** Records act on their own send

    [local id f]: where it succeeds, [f] replaces the send [id] by another of
    that identifier, and does the same in any outbox that holds that send. *)
Definition local (id : LogicalMessageId) (f : GroupOutbox -> result Error GroupOutbox) : Prop :=
  forall o o', f o = Ok o' -> exists k s s',
    send_at o id = Some (k, s) /\ s_id s' = id /\ o' = with_sends o (<[k := s']> (sends o)) /\
    forall o1 k1, send_at o1 id = Some (k1, s) -> f o1 = Ok (with_sends o1 (<[k1 := s']> (sends o1))).

Lemma send_at_update o id k s s' :
  send_at o id = Some (k, s) -> s_id s' = id ->
  send_at (with_sends o (<[k := s']> (sends o))) id = Some (k, s').
Proof. intros H Hs'. unfold send_at in *. cbn. by rewrite (list_find_update s_id id id _ k s s'), decide_True. Qed.

Lemma local_then id f h : local id f -> local id h -> local id (fun o => o' ← f o; h o').
Proof.
  intros Hf Hh o o' H. destruct (f o) as [o1|] eqn:E1; [|done]. cbn in H.
  destruct (Hf o o1 E1) as (k & s & s1 & Hs & Hid & -> & Hfa).
  destruct (Hh _ _ H) as (k' & s1' & s2 & Hs1 & Hid2 & -> & Hha).
  rewrite (send_at_update o id k s s1 Hs Hid) in Hs1. injection Hs1 as <- <-.
  exists k, s, s2. cbn. rewrite list_insert_insert_eq. split_and!; try done.
  intros o2 k2 H2. rewrite (Hfa o2 k2 H2). cbn [mbind result_bind].
  rewrite (Hha _ k2 (send_at_update _ _ _ _ _ H2 Hid)). cbn. by rewrite list_insert_insert_eq.
Qed.

Lemma local_method {A} id (method : LogicalSend -> LogicalSend * result Error A)
    (check : LogicalSend -> A -> result Error unit) :
  (forall s s' r, method s = (s', r) -> s_id s' = s_id s) ->
  local id (fun o => s ← outbox_send o id; '(o, x) ← send_mut o id method; _ ← check s x; Ok o).
Proof.
  intros Hm o o' H. destruct (outbox_send o id) as [s0|] eqn:E0; [|done]. cbn [mbind result_bind] in H.
  destruct (send_mut o id method) as [[o1 x]|] eqn:E1; [|done]. cbn [mbind result_bind] in H.
  destruct (check s0 x) as [[]|] eqn:E2; [|done]. cbn in H. apply Ok_inj in H as <-.
  apply send_mut_Ok in E1 as (k & s & s' & Hs & Hx & ->).
  unfold outbox_send in E0. rewrite Hs in E0. cbn in E0. apply Ok_inj in E0 as <-.
  pose proof (send_at_id _ _ _ _ Hs) as [Hid _].
  exists k, s, s'. split_and!; [done|by rewrite (Hm _ _ _ Hx)|done|].
  intros o2 k2 H2. unfold outbox_send. rewrite H2. cbn [fmap option_fmap option_map snd ok_or mbind result_bind].
  rewrite (proj2 (send_mut_Ok o2 id method _ x)) by (by exists k2, s, s'). cbn [mbind result_bind]. by rewrite E2.
Qed.

(** It is enough to agree on success. *)
Lemma local_same id f h : (forall o o', f o = Ok o' <-> h o = Ok o') -> local id h -> local id f.
Proof. intros He Hh o o' H. setoid_rewrite He. apply Hh. by apply He. Qed.

Section Records.
Context (pc : bytes -> bytes) (g : GroupId).

Lemma logical_id_fields c id : logical_id_from_context c = Ok id -> l_group_id id = c_group_id c.
Proof. unfold logical_id_from_context, logical_id_new. intros H. by inv_bind. Qed.

(** A recovered preparation is local, whichever of its cases it takes. *)
Lemma apply_prepared_local c cm ct fin id :
  logical_id_from_context c = Ok id -> c_group_id c = g ->
  local id (fun o => apply_recovered_preparation pc g o c cm ct fin).
Proof.
  intros Hid Hg o o' H. unfold apply_recovered_preparation in *.
  rewrite Hg, bool_decide_eq_true_2 in * by done. cbn [negb] in *. rewrite Hid in *.
  destruct (context_encode c) as [cb|]; [|done]. cbn [mbind result_bind] in *.
  destruct (negb (bool_decide (cm = pc cb))); [done|].
  destruct (outbox_send o id) as [s|] eqn:Es; [|done]. cbn [mbind result_bind] in *.
  apply outbox_send_at in Es as [k Hs]. pose proof (send_at_id _ _ _ _ Hs) as [Hsid Hk].
  destruct (application_context s (recipient c)) as [c'|] eqn:Ec; [|done]. cbn [mbind result_bind] in *.
  destruct (negb (bool_decide (c' = c))) eqn:Eb; [done|].
  destruct (if fin then _ else _) as [stored|] eqn:Est; [|done]. cbn [mbind result_bind] in *.
  assert (forall o1 k1, send_at o1 id = Some (k1, s) -> outbox_send o1 id = Ok s) as Hsame
    by (intros o1 k1 H1; unfold outbox_send; by rewrite H1).
  assert (exists s', s_id s' = id /\ o' = with_sends o (<[k := s']> (sends o)) /\
    forall o1 k1, send_at o1 id = Some (k1, s) ->
    match stored with
    | Some (mkProgress _ PExhaustedUnknown scm sct _) =>
        if bool_decide (scm = Some cm) && bool_decide (sct = Some ct) then Ok o1 else Err Conflict
    | _ => '(o, _) ← send_mut o1 id (fun s => record_prepared s (recipient c) cm ct); Ok o
    end = Ok (with_sends o1 (<[k1 := s']> (sends o1)))) as (s' & Hs' & -> & Hall).
  { assert (forall o'', ('(o, _) ← send_mut o id (fun s => record_prepared s (recipient c) cm ct); Ok o) = Ok o'' ->
      exists s', s_id s' = id /\ o'' = with_sends o (<[k := s']> (sends o)) /\
      forall o1 k1, send_at o1 id = Some (k1, s) ->
      ('(o, _) ← send_mut o1 id (fun s => record_prepared s (recipient c) cm ct); Ok o)
        = Ok (with_sends o1 (<[k1 := s']> (sends o1)))) as Hrec.
    { intros o'' Ho. destruct (send_mut o id _) as [[o1 x]|] eqn:Em; [|done]. cbn in Ho. apply Ok_inj in Ho as <-.
      apply send_mut_Ok in Em as (k' & s1 & s' & Hs1 & Hx & ->). rewrite Hs in Hs1. injection Hs1 as <- <-.
      exists s'. split_and!; [by rewrite (on_progress_id _ _ _ _ _ Hx)|done|]. intros o2 k2 H2.
      rewrite (proj2 (send_mut_Ok o2 id _ _ x)) by (by exists k2, s, s'). done. }
    destruct stored as [[m d scm sct n]|]; [|by apply Hrec]. destruct d; try (by apply Hrec).
    destruct (_ && _); [|done]. apply Ok_inj in H as <-. exists s. split_and!; [done| |].
    - unfold with_sends. rewrite list_insert_id by done. by destruct o.
    - intros o1 k1 H1. pose proof (send_at_id _ _ _ _ H1) as [_ Hk1]. unfold with_sends.
      rewrite list_insert_id by done. by destruct o1. }
  exists k, s, s'. split_and!; try done. intros o1 k1 H1. rewrite (Hsame o1 k1 H1). cbn [mbind result_bind].
  rewrite Ec. cbn [mbind result_bind]. rewrite Eb, Est. cbn [mbind result_bind]. by apply Hall.
Qed.

Lemma length_prefixed_taken body x rest : gtake_lp body = Ok (x, rest) -> length_prefixed body = Ok x.
Proof.
  unfold gtake_lp, gtake_u32, gtake, length_prefixed, get_to. intros H.
  destruct (split_at_checked 4 body) as [[a b]|]; cbn in *; [|done].
  destruct (to_array 4 a) as [n|]; cbn in *; [|done].
  destruct (split_at_checked (be_value n) b) as [[y z]|]; cbn in *; [|done]. by inv_bind.
Qed.

(** The identifier of a progress record that decodes. *)
Lemma progress_record_id body r x c id :
  decode_progress_record body = Ok r -> length_prefixed body = Ok x -> context_decode x = Ok c ->
  logical_id_from_context c = Ok id -> c = pr_context r.
Proof.
  unfold decode_progress_record. intros H Hx Hc Hid. inv_bind.
  match goal with H : gtake_lp body = Ok _ |- _ => apply length_prefixed_taken in H end. cbn. congruence.
Qed.

(** What a replayed record does: it appends its send, or acts on it alone. *)
Definition acts_on (a : option Z) (e : bytes) (id : LogicalMessageId) (o o' : GroupOutbox) : Prop :=
  (exists s, s_id s = id /\ insert o s a = (o', Ok Inserted) /\
     forall o1 o1', insert o1 s a = (o1', Ok Inserted) -> recover_entry pc g a o1 e = Ok o1') \/
  (exists k s s', send_at o id = Some (k, s) /\ s_id s' = id /\ o' = with_sends o (<[k := s']> (sends o)) /\
     forall o1 k1, send_at o1 id = Some (k1, s) ->
       recover_entry pc g a o1 e = Ok (with_sends o1 (<[k1 := s']> (sends o1)))).

Lemma intent_acts a tag body o o' x s id :
  split_at_checked 4 (tag ++ body) = Some (tag, body) -> tag = TCGI ->
  length_prefixed body = Ok x -> decode_intent x = Ok s -> id = s_id s -> l_group_id id = g ->
  recover_entry pc g a o (tag ++ body) = Ok o' -> acts_on a (tag ++ body) id o o'.
Proof.
  intros Hsp Ht Hx Hs -> Hg H. unfold acts_on, recover_entry in *. rewrite Hsp in *.
  rewrite (bool_decide_eq_true_2 (tag = TCGI)) in * by done.
  assert (forall s', decode_intent_record body = Ok s' -> s' = s) as Hsame.
  { intros s' Hd. unfold decode_intent_record, length_prefixed, get_to in *.
    destruct (split_at_checked 4 body) as [[n b]|]; cbn in *; [|done].
    destruct (to_array 4 n) as [v|]; cbn in *; [|done].
    destruct (len b =? be_value v) eqn:E; cbn in *; [|done]. bool_prop. rewrite <- E in Hx.
    rewrite <- (app_nil_r b) in Hx at 2. rewrite split_at_checked_app in Hx by done. cbn in Hx.
    apply Ok_inj in Hx as <-. congruence. }
  destruct (decode_intent_record body) as [s'|] eqn:Ed; [|done]. specialize (Hsame s' eq_refl) as ->.
  cbn [mbind result_bind] in *. rewrite Hg, bool_decide_eq_true_2 in * by done. cbn [negb] in *. left. exists s.
  split; [done|]. destruct (insert o s a) as [o1 r] eqn:Ei. destruct r as [d|]; [|done]. cbn [mbind result_bind] in H.
  destruct (bool_decide (d = Inserted)) eqn:E; [|done]. bool_prop. subst d. apply Ok_inj in H as ->. split; [done|].
  intros o2 o2' ->. done.
Qed.

Lemma local_acts a e id f o o' :
  local id f -> (forall o o', recover_entry pc g a o e = Ok o' <-> f o = Ok o') ->
  recover_entry pc g a o e = Ok o' -> acts_on a e id o o'.
Proof.
  intros Hf He H. right. destruct (local_same id _ f He Hf o o' H) as (k & s & s' & H1 & H2 & H3 & H4).
  by exists k, s, s'.
Qed.

Lemma reserve_handoff_id s m s' r : reserve_handoff s m = (s', r) -> s_id s' = s_id s.
Proof. apply on_progress_id. Qed.

Lemma relay_accepted_id s m s' r : record_relay_accepted s m = (s', r) -> s_id s' = s_id s.
Proof. apply on_progress_id. Qed.

(** The test of a handoff record against the recipient before and after. *)
Definition handoff_check (m : Member) (attempts : Z) (d : RecipientDisposition) (s : LogicalSend)
    (p : RecipientProgress) : result Error unit :=
  prior ← progress s m;
  next ← ok_or Malformed (u8_try_from (attempts_reserved prior + 1));
  if negb (attempts =? next) then Err Malformed else
  if negb (attempts_reserved p =? attempts) || negb (bool_decide (disposition p = d)) then Err Malformed
  else Ok tt.

Lemma local_guard {id f} (b : bool) : local id f -> local id (fun o => if b then Err Malformed else f o).
Proof. intros Hf. destruct b; [by intros o o' H|done]. Qed.

Lemma prepared_acts a body o o' r id :
  decode_progress_record body = Ok r -> logical_id_from_context (pr_context r) = Ok id ->
  c_group_id (pr_context r) = g -> recover_entry pc g a o (TCGP ++ body) = Ok o' ->
  acts_on a (TCGP ++ body) id o o'.
Proof.
  intros Hr Hid Hg.
  pose proof (local_guard (negb (bool_decide (pr_rest r = [])))
    (apply_prepared_local _ (pr_commitment r) (pr_ciphertext r) false _ Hid Hg)) as Hl.
  eapply local_acts; [exact Hl|]. intros o1 o1'. unfold recover_entry. tag_fwd. by rewrite Hr.
Qed.

Lemma handoff_acts a body o o' r id :
  decode_progress_record body = Ok r -> logical_id_from_context (pr_context r) = Ok id ->
  c_group_id (pr_context r) = g -> recover_entry pc g a o (TCGH ++ body) = Ok o' ->
  acts_on a (TCGH ++ body) id o o'.
Proof.
  intros Hr Hid Hg H.
  destruct (decode_handoff_suffix (pr_rest r)) as [[attempts d]|] eqn:Ed.
  2: { exfalso. revert H. unfold recover_entry. tag_fwd. rewrite Hr. cbn [mbind result_bind]. by rewrite Ed. }
  revert H. eapply local_acts.
  - apply (local_then id
      (fun o => apply_recovered_preparation pc g o (pr_context r) (pr_commitment r) (pr_ciphertext r) false)).
    + by apply apply_prepared_local.
    + apply (local_method id (fun s => reserve_handoff s (recipient (pr_context r)))
        (handoff_check (recipient (pr_context r)) attempts d)).
      intros s s' x. apply reserve_handoff_id.
  - intros o1 o1'. unfold recover_entry. tag_fwd. rewrite Hr. cbn [mbind result_bind]. rewrite Ed.
    cbn [mbind result_bind]. rewrite Hg, bool_decide_eq_true_2 by done. cbn [negb].
    destruct (apply_recovered_preparation _ _ _ _ _ _ _) as [o2|]; [|done]. cbn [mbind result_bind].
    rewrite Hid. cbn [mbind result_bind]. destruct (outbox_send o2 id) as [s|]; [|done]. cbn [mbind result_bind].
    unfold handoff_check. destruct (progress s _) as [prior|]; cbn [mbind result_bind].
    2: { destruct (send_mut o2 id _) as [[o3 p]|]; done. }
    destruct (ok_or _ _) as [next|]; cbn [mbind result_bind].
    2: { destruct (send_mut o2 id _) as [[o3 p]|]; done. }
    destruct (negb (attempts =? next)).
    { destruct (send_mut o2 id _) as [[o3 p]|]; done. }
    destruct (send_mut o2 id _) as [[o3 p]|]; [|done]. cbn [mbind result_bind]. by destruct (_ || _).
Qed.

Lemma accepted_acts a body o o' r id :
  decode_progress_record body = Ok r -> logical_id_from_context (pr_context r) = Ok id ->
  c_group_id (pr_context r) = g -> recover_entry pc g a o (TCGA ++ body) = Ok o' ->
  acts_on a (TCGA ++ body) id o o'.
Proof.
  intros Hr Hid Hg.
  pose proof (local_guard (negb (bool_decide (pr_rest r = []))) (local_then id _ _
    (apply_prepared_local _ (pr_commitment r) (pr_ciphertext r) true _ Hid Hg)
    (local_method id (fun s => record_relay_accepted s (recipient (pr_context r))) (fun _ _ => Ok tt)
       ltac:(intros s s' x; apply relay_accepted_id)))) as Hl.
  eapply local_acts; [exact Hl|].
  - intros o1 o1'. unfold recover_entry. tag_fwd. rewrite Hr. cbn [mbind result_bind].
    destruct (negb (bool_decide (pr_rest r = []))); [done|].
    rewrite Hg, bool_decide_eq_true_2 by done. cbn [negb].
    destruct (apply_recovered_preparation _ _ _ _ _ _ _) as [o2|]; [|done]. cbn [mbind result_bind].
    rewrite Hid. cbn [mbind result_bind]. unfold outbox_send, send_mut, on_send.
    destruct (send_at o2 id) as [[k s]|]; [|done]. cbn [fmap option_fmap option_map snd ok_or mbind result_bind].
    destruct (record_relay_accepted s _) as [s' [x|]]; done.
Qed.

(** A record of the group's transcript acts on its own send only. *)
Lemma entry_acts a o e o' id :
  outbox_record_id e = Ok (Some id) -> l_group_id id = g -> recover_entry pc g a o e = Ok o' ->
  acts_on a e id o o'.
Proof.
  intros He Hg H. unfold outbox_record_id in He.
  destruct (split_at_checked 4 e) as [[tag body]|] eqn:Hsp; [|by case_match].
  pose proof (split_at_checked_Some 4 e tag body ltac:(lia) Hsp) as [-> _].
  destruct (bool_decide (tag = TCGI)) eqn:E1; [|destruct (bool_decide (tag = TCGP) || _ || _) eqn:E2; [|by case_match]].
  - bool_prop. inv_bind.
    match goal with H : decode_intent _ = Ok _ |- _ => by eapply intent_acts end.
  - inv_bind. pose proof (logical_id_fields _ _ ltac:(eassumption)) as Hgr. rewrite Hg in Hgr.
    destruct (decode_progress_record body) as [r|] eqn:Er.
    2: { exfalso. revert H. unfold recover_entry. rewrite Hsp, E1, Er. cbn [mbind result_bind].
         rewrite !orb_true_iff in E2. by destruct E2 as [[->| ->]| ->]; repeat case_match. }
    match goal with Hx : length_prefixed body = Ok _, Hc : context_decode _ = Ok ?c, Hi : logical_id_from_context ?c = Ok _ |- _ =>
      pose proof (progress_record_id body r _ c _ Er Hx Hc Hi) as -> end.
    rewrite !orb_true_iff, !bool_decide_eq_true in E2. destruct E2 as [[->| ->]| ->].
    + by eapply prepared_acts.
    + by eapply handoff_acts.
    + by eapply accepted_acts.
Qed.
End Records.

Section Loop.
Context (pc : bytes -> bytes) (g : GroupId) (dropped : list LogicalMessageId).

Lemma acts_without a e id o o' :
  acts_on pc g a e id o o' ->
  if decide (id ∈ dropped) then without dropped o' = without dropped o
  else recover_entry pc g a (without dropped o) e = Ok (without dropped o').
Proof.
  intros [(s & <- & Hi & Hall)|(k & s & s' & Hs & Hid & -> & Hall)].
  - apply (without_insert dropped) in Hi. case_decide; [done|]. by apply Hall.
  - case_decide as Hd; [by eapply without_update_dropped|].
    destruct (without_update dropped o id k s s' Hs Hd Hid) as (k1 & H1 & ->). by apply Hall.
Qed.

(** Replaying the kept records gives the outbox without the dropped sends. *)
Lemma keep_replays a entries : forall l o o',
  group_entries g entries = Ok l -> recover_loop pc g a o l = Ok o' ->
  exists k l', keep_entries g dropped entries = Ok k /\ group_entries g k = Ok l' /\
    recover_loop pc g a (without dropped o) l' = Ok (without dropped o').
Proof.
  induction entries as [|e entries IH]; intros l o o' Hl Ho; cbn in Hl |- *.
  { apply Ok_inj in Hl as <-. apply Ok_inj in Ho as <-. by exists [], []. }
  destruct (outbox_record_id e) as [id|] eqn:He; [|done]. cbn [mbind result_bind] in *.
  destruct (group_entries g entries) as [r|] eqn:Hr; [|done]. cbn [mbind result_bind] in *. apply Ok_inj in Hl as <-.
  destruct id as [id|].
  2: { destruct (IH r o o' eq_refl Ho) as (k & l' & -> & Hl' & Ho'). exists (e :: k), l'.
       cbn. by rewrite He, Hl'. }
  destruct (bool_decide (l_group_id id = g)) eqn:Hg.
  2: { destruct (IH r o o' eq_refl Ho) as (k & l' & -> & Hl' & Ho'). exists (e :: k), l'.
       cbn [group_entries]. rewrite He, Hl'. cbn [mbind result_bind andb]. by rewrite Hg. }
  cbn [recover_loop] in Ho. destruct (recover_entry pc g a o e) as [o1|] eqn:E1; [|done]. cbn [mbind result_bind] in Ho.
  destruct (IH r o1 o' eq_refl Ho) as (k & l' & -> & Hl' & Ho'). cbn [andb mbind result_bind].
  pose proof Hg as Hg'. bool_prop. pose proof (acts_without a e id o o1 (entry_acts pc g a o e o1 id He Hg' E1)) as Ha.
  case_decide as Hd.
  - rewrite bool_decide_eq_true_2 by done. exists k, l'. by rewrite <- Ha.
  - rewrite bool_decide_eq_false_2 by done. exists (e :: k), (e :: l').
    cbn [group_entries recover_loop]. rewrite He, Hl'. cbn [mbind result_bind].
    rewrite bool_decide_eq_true_2 by done. split_and!; [done|done|]. by rewrite Ha.
Qed.

(** The identifiers of the records are those of the replayed sends. *)
Lemma acts_ids a e id o o' :
  acts_on pc g a e id o o' -> NoDup (s_id <$> sends o) ->
  NoDup (s_id <$> sends o') /\
  (s_id <$> sends o') = if bool_decide (id ∈ (s_id <$> sends o)) then s_id <$> sends o else (s_id <$> sends o) ++ [id].
Proof.
  intros [(s & <- & Hi & _)|(k & s & s' & Hs & Hid & -> & _)] Hnd.
  - apply insert_cases in Hi as [[_ []]|(_ & -> & _ & Hn & _)]; [done|]. cbn. rewrite fmap_app. rewrite bool_decide_eq_false_2 by done. split; [|done]. by apply NoDup_snoc.
  - cbn. pose proof (send_at_id _ _ _ _ Hs) as [Hsid Hk]. rewrite list_fmap_insert, Hid, list_insert_id.
    2: { rewrite list_lookup_fmap, Hk. cbn. congruence. }
    split; [done|]. rewrite bool_decide_eq_true_2; [done|]. rewrite <- Hsid.
    apply list_elem_of_fmap_2. by apply list_elem_of_lookup_2 in Hk.
Qed.

Lemma ids_replayed a entries : forall l o o',
  group_entries g entries = Ok l -> recover_loop pc g a o l = Ok o' -> NoDup (s_id <$> sends o) ->
  NoDup (s_id <$> sends o') /\ group_outbox_ids g (s_id <$> sends o) entries = Ok (s_id <$> sends o').
Proof.
  induction entries as [|e entries IH]; intros l o o' Hl Ho Hnd; cbn in Hl |- *.
  { apply Ok_inj in Hl as <-. by apply Ok_inj in Ho as <-. }
  destruct (outbox_record_id e) as [id|] eqn:He; [|done]. cbn [mbind result_bind] in *.
  destruct (group_entries g entries) as [r|] eqn:Hr; [|done]. cbn [mbind result_bind] in *. apply Ok_inj in Hl as <-.
  destruct id as [id|]; [|by eapply IH].
  destruct (bool_decide (l_group_id id = g)) eqn:Hg; cbn [negb]; [|by eapply IH].
  cbn [recover_loop] in Ho. destruct (recover_entry pc g a o e) as [o1|] eqn:E1; [|done]. cbn [mbind result_bind] in Ho.
  bool_prop. destruct (acts_ids a e id o o1 (entry_acts pc g a o e o1 id He Hg E1) Hnd) as [Hnd1 <-]. by eapply IH.
Qed.
End Loop.

(** Reading a send of an outbox without duplicates. *)
Lemma outbox_send_in o s : NoDup (s_id <$> sends o) -> s ∈ sends o -> outbox_send o (s_id s) = Ok s.
Proof.
  intros Hnd [k Hk]%list_elem_of_lookup. unfold outbox_send.
  assert (send_at o (s_id s) = Some (k, s)) as ->; [|done]. apply list_find_Some. split_and!; [done|done|].
  intros j y Hj Hlt Heq. assert (j = k); [|lia]. eapply (NoDup_lookup _ _ _ (s_id s) Hnd);
    rewrite list_lookup_fmap; [rewrite Hj|rewrite Hk]; cbn; congruence.
Qed.

Definition terminal_ids (o : GroupOutbox) : list LogicalMessageId :=
  s_id <$> filter (fun s => is_terminal s = true) (sends o).

Lemma terminal_selected o :
  NoDup (s_id <$> sends o) ->
  filter (fun id => match outbox_send o id with Ok s => is_terminal s | Err _ => false end = true) (s_id <$> sends o)
  = terminal_ids o.
Proof.
  intros Hnd. unfold terminal_ids.
  assert (forall s, s ∈ sends o -> outbox_send o (s_id s) = Ok s) as Hin by (intros; by apply outbox_send_in).
  revert Hin. clear Hnd. generalize (sends o). intros l. induction l as [|s l IH]; intros Hin; [done|].
  rewrite fmap_cons, !filter_cons, (Hin s) by apply list_elem_of_here.
  case_decide; rewrite ?fmap_cons, IH by (intros; apply Hin; by apply list_elem_of_further); done.
Qed.

(** At most sixteen terminal sends survive a compaction. *)
Definition compaction_dropped (o : GroupOutbox) : list LogicalMessageId :=
  take (Z.to_nat (len (terminal_ids o) - MAX_TERMINAL_LOGICAL_SENDS)) (terminal_ids o).

Lemma keep_entries_none g entries l : group_entries g entries = Ok l -> keep_entries g [] entries = Ok entries.
Proof.
  revert l. induction entries as [|e entries IH]; intros l H; [done|]. cbn in *. inv_bind.
  rewrite (IH _ eq_refl). cbn. destruct a as [id|]; [|done]. by rewrite andb_false_r.
Qed.

Lemma without_nil o : without [] o = o.
Proof.
  unfold without. transitivity (with_sends o (sends o)); [|by destruct o]. f_equal.
  induction (sends o) as [|s l IH]; [done|].
  rewrite filter_cons, decide_True by (intros H; by apply elem_of_nil in H). by rewrite IH.
Qed.

Lemma compaction_dropped_none o :
  (len (terminal_ids o) <=? MAX_TERMINAL_LOGICAL_SENDS) = true -> compaction_dropped o = [].
Proof.
  intros H. bool_prop. unfold compaction_dropped. replace (Z.to_nat _) with O by lia.
  done.
Qed.

Lemma dropped_terminal o s :
  NoDup (s_id <$> sends o) -> s ∈ sends o -> s_id s ∈ compaction_dropped o -> is_terminal s = true.
Proof.
  intros Hnd Hs (i & Hi%list_elem_of_lookup_2 & _)%elem_of_take.
  apply list_elem_of_fmap in Hi as (x & Hx & [Ht Hin]%list_elem_of_filter).
  pose proof (outbox_send_in o s Hnd Hs) as H1. pose proof (outbox_send_in o x Hnd Hin) as H2. congruence.
Qed.

Lemma filter_not_take {A} `{EqDecision A} n (l : list A) : NoDup l -> filter (fun x => ~ (x ∈ take n l)) l = drop n l.
Proof.
  intros Hnd. rewrite <- (take_drop n l) in Hnd at 1. apply NoDup_app in Hnd as (_ & Hdis & _).
  transitivity (filter (fun x => ~ (x ∈ take n l)) (take n l ++ drop n l)); [by rewrite take_drop|].
  rewrite filter_app.
  assert (forall k, (forall x, x ∈ k -> x ∈ take n l) -> filter (fun x => ~ (x ∈ take n l)) k = []) as H1.
  { intros k. induction k as [|x k IH]; intros Hk; [done|]. rewrite filter_cons, decide_False.
    - apply IH. intros y Hy. apply Hk. by apply list_elem_of_further.
    - intros H. apply H, Hk, list_elem_of_here. }
  assert (forall k : list A, (forall x, x ∈ k -> ~ (x ∈ take n l)) -> filter (fun x => ~ (x ∈ take n l)) k = k) as H2.
  { intros k. induction k as [|x k IH]; intros Hk; [done|]. rewrite filter_cons, decide_True.
    - f_equal. apply IH. intros y Hy. apply Hk. by apply list_elem_of_further.
    - apply Hk, list_elem_of_here. }
  rewrite H1, H2; [done| |done]. intros x Hx Ht. by eapply Hdis.
Qed.

Lemma terminal_without d o : terminal_ids (without d o) = filter (fun id => ~ (id ∈ d)) (terminal_ids o).
Proof.
  unfold terminal_ids, without. cbn. induction (sends o) as [|s l IH]; [done|].
  rewrite !filter_cons. destruct (decide (~ (s_id s ∈ d))) as [H1|H1], (decide (is_terminal s = true)) as [H2|H2];
    rewrite ?filter_cons, ?(decide_True _ _ H2), ?(decide_False _ _ H2), ?fmap_cons, ?filter_cons,
      ?(decide_True _ _ H1), ?(decide_False _ _ H1); cbn [s_id]; rewrite ?IH; done.
Qed.

Lemma terminal_kept o :
  NoDup (s_id <$> sends o) -> len (terminal_ids (without (compaction_dropped o) o)) <= MAX_TERMINAL_LOGICAL_SENDS.
Proof.
  intros Hnd. rewrite terminal_without. unfold compaction_dropped. rewrite filter_not_take.
  - unfold len. rewrite length_drop. unfold MAX_TERMINAL_LOGICAL_SENDS. lia.
  - by apply NoDup_fmap_filter.
Qed.

(** C20. Compaction always succeeds and strands nothing: on any snapshot that
    recovers, [compact_group_outbox] returns Ok, and the snapshot it returns
    recovers in turn, to the same outbox in the same order less the oldest
    terminal sends beyond sixteen.  Every send that is still live survives, and
    the outbox handed back with a rewritten snapshot is the one recovered. *)
Theorem compaction_never_strands pc g snap o :
  recover_group_outbox pc snap g = Ok o ->
  exists snap' opt, compact_group_outbox pc snap g = Ok (snap', opt) /\
    recover_group_outbox pc snap' g = Ok (without (compaction_dropped o) o) /\
    default o opt = without (compaction_dropped o) o /\
    Forall (fun s => is_terminal s = false -> s ∈ sends (without (compaction_dropped o) o)) (sends o) /\
    len (terminal_ids (without (compaction_dropped o) o)) <= MAX_TERMINAL_LOGICAL_SENDS.
Proof.
  intros H. pose proof H as Hrec. unfold recover_group_outbox, recover_from_transcript_at_revision in H.
  destruct (latest_group_outbox_cancellation snap g) as [a|] eqn:Ha; [|done]. cbn [mbind result_bind] in H.
  destruct (group_entries g (snap_outbox snap)) as [l|] eqn:Hl; [|done]. cbn [mbind result_bind] in H.
  destruct (recover_loop pc g a (outbox_new g) l) as [o0|] eqn:Ho; [|done].
  cbn [mbind result_bind map_err] in H. apply Ok_inj in H. change (finish a o0 = o) in H.
  destruct (ids_replayed pc g a _ _ _ _ Hl Ho (NoDup_nil_2)) as [Hnd Hids].
  assert (NoDup (s_id <$> sends o)) as Hndo by (rewrite <- H, finish_ids; done).
  change (s_id <$> sends (outbox_new g)) with (@nil LogicalMessageId) in Hids.
  assert ((s_id <$> sends o0) = (s_id <$> sends o)) as Hsame by (by rewrite <- H, finish_ids).
  unfold compact_group_outbox. rewrite Hrec, Hids, Hsame. cbn [mbind result_bind].
  rewrite terminal_selected by done. fold (compaction_dropped o).
  destruct (keep_replays pc g (compaction_dropped o) a _ _ _ _ Hl Ho) as (k & l' & Hk & Hl' & Ho').
  assert (recover_group_outbox pc (with_outbox snap k) g = Ok (without (compaction_dropped o) o)) as Hk'.
  { unfold recover_group_outbox, recover_from_transcript_at_revision.
    change (latest_group_outbox_cancellation (with_outbox snap k) g) with (latest_group_outbox_cancellation snap g).
    rewrite Ha. cbn [mbind result_bind snap_outbox with_outbox]. rewrite Hl'. cbn [mbind result_bind].
    change (outbox_new g) with (without (compaction_dropped o) (outbox_new g)). rewrite Ho'. cbn.
    f_equal. change (finish a (without (compaction_dropped o) o0) = without (compaction_dropped o) o).
    by rewrite finish_without, H. }
  assert (Forall (fun s => is_terminal s = false -> s ∈ sends (without (compaction_dropped o) o)) (sends o)) as Hlive.
  { apply Forall_forall. intros s Hs Ht. apply list_elem_of_filter. split; [|done]. intros Hd.
    pose proof (dropped_terminal o s Hndo Hs Hd). congruence. }
  pose proof (terminal_kept o Hndo) as Hcap.
  destruct (len (terminal_ids o) <=? MAX_TERMINAL_LOGICAL_SENDS) eqn:Hle.
  - exists snap, None. rewrite compaction_dropped_none in * by done. rewrite without_nil in *. by split_and!.
  - rewrite Hk. cbn [mbind result_bind]. rewrite Hk'. cbn [mbind result_bind].
    eexists _, _. by split_and!.
Qed.

(** Seventeen sends that a newer roster has cancelled. *)
Definition numbered_send (n : nat) : LogicalSend :=
  mkSend (mkLogicalId first_group 1 ana (Z.of_nat n)) (replicate 32 x09) (bstr "hi") [pending_progress cid].

Definition intent_entry_of (s : LogicalSend) : bytes :=
  match encode_intent s with
  | Ok b => match encode_intent_record b with Ok e => e | Err _ => [] end
  | Err _ => []
  end.

Definition crowded_snapshot : OperationSnapshot :=
  with_controls (with_outbox (snapshot_empty 0) (map (fun n => intent_entry_of (numbered_send n)) (seq 0 17)))
    [TCGX ++ first_group ++ be64 2].

Definition crowded_outbox : GroupOutbox :=
  match recover_group_outbox const_commitment crowded_snapshot first_group with
  | Ok o => o | Err _ => outbox_new first_group
  end.

Lemma compaction_never_strands_witness :
  exists snap' opt, compact_group_outbox const_commitment crowded_snapshot first_group = Ok (snap', opt) /\
    (exists o', recover_group_outbox const_commitment snap' first_group = Ok o' /\ length (sends o') = 16%nat) /\
    length (sends crowded_outbox) = 17%nat.
Proof.
  destruct (compaction_never_strands const_commitment first_group crowded_snapshot crowded_outbox)
    as (snap' & opt & H1 & H2 & _); [by vm_compute|].
  exists snap', opt. split; [exact H1|]. split; [|by vm_compute]. eexists. split; [exact H2|by vm_compute].
Defined.
