(* ===== verification/GroupControl.v ===== *)
(** * GroupControl: exact-ciphertext control handoffs
    ([tacenta-client/src/group_control_outbox.rs])

    The outbox of roster and invitation controls: what was encrypted for one
    recipient, how often it may still be sent, and the checkpoint it is kept
    in.  The payload commitment is the standalone core's and a parameter. *)

From S2P Require Import Prelude GroupCodec Invitation GroupPayload.

Definition CONTROL_DOMAIN : bytes := bstr "Tacenta Group Control Outbox State v2".
Arguments CONTROL_DOMAIN : simpl never.
Definition MAX_LIVE_HANDOFFS : Z := 8.
Definition MAX_TERMINAL_HANDOFFS : Z := 16.
Definition MAX_ATTEMPTS : Z := 3.

Inductive ControlDisposition :=
| CPrepared | CHandedOff | CRelayAccepted | CExhaustedUnknown | CCancelled | CCancelledAfterHandoff.

#[global] Instance ControlDisposition_eq_dec : EqDecision ControlDisposition.
Proof. solve_decision. Defined.

Definition control_terminal (d : ControlDisposition) : bool :=
  match d with CPrepared | CHandedOff => false | _ => true end.

Record Handoff := mkHandoff {
  h_recipient : Member;
  h_payload : bytes;
  h_ciphertext : bytes;
  h_attempts : Z;
  h_disposition : ControlDisposition;
  h_sequence : Z
}.

#[global] Instance Handoff_eq_dec : EqDecision Handoff.
Proof. solve_decision. Defined.

Record ControlOutbox := mkControl { handoffs : list Handoff }.

#[global] Instance ControlOutbox_eq_dec : EqDecision ControlOutbox.
Proof. solve_decision. Defined.

Definition control_default : ControlOutbox := mkControl [].

Definition is_terminal_handoff (h : Handoff) : bool := control_terminal (h_disposition h).

Definition control_live (o : ControlOutbox) : Z :=
  len (filter (fun h => is_terminal_handoff h = false) (handoffs o)).

Definition terminal_handoffs (l : list Handoff) : Z := len (filter (fun h => is_terminal_handoff h = true) l).

(** [min_by_key] over the terminal entries: the first of the least sequence. *)
Fixpoint oldest_terminal (index : nat) (best : option (nat * Z)) (l : list Handoff) : option (nat * Z) :=
  match l with
  | [] => best
  | h :: l =>
      oldest_terminal (S index)
        (if is_terminal_handoff h then
           match best with
           | Some (_, least) => if h_sequence h <? least then Some (index, h_sequence h) else best
           | None => Some (index, h_sequence h)
           end
         else best) l
  end.

(** [reclaim]'s loop; each turn removes an entry, so the length is enough fuel.
    [None] is the panic of its [expect]. *)
Fixpoint reclaim_loop (fuel : nat) (l : list Handoff) : option (list Handoff) :=
  if terminal_handoffs l <=? MAX_TERMINAL_HANDOFFS then Some l else
  match fuel with
  | O => None
  | S fuel => '(oldest, _) ← oldest_terminal 0 None l; reclaim_loop fuel (delete oldest l)
  end.

Definition reclaim (o : ControlOutbox) : ControlOutbox :=
  mkControl (default (handoffs o) (reclaim_loop (length (handoffs o)) (handoffs o))).

(** The payloads an entry may carry. *)
Definition is_control (payload : bytes) : bool :=
  match payload_decode payload with
  | Ok (PRoster _) | Ok (PBootstrap _) | Ok (PAcceptance _) | Ok (PRevocation _) => true
  | _ => false
  end.

Definition is_revocation (payload : bytes) : bool :=
  match payload_decode payload with Ok (PRevocation _) => true | _ => false end.

Section Control.
Context (payload_commitment : bytes -> bytes).

Definition canonical_order (a b : Handoff) : comparison :=
  then_cmp (bytes_cmp (payload_commitment (h_payload a)) (payload_commitment (h_payload b)))
    (then_cmp (bytes_cmp (m_identity (h_recipient a)) (m_identity (h_recipient b)))
       (bytes_cmp (m_device (h_recipient a)) (m_device (h_recipient b)))).

(** The entry of a recipient and a payload, and its position. *)
Definition find_handoff (o : ControlOutbox) (m : Member) (payload : bytes) : option (nat * Handoff) :=
  list_find (fun h => (h_recipient h, payload_commitment (h_payload h)) = (m, payload_commitment payload)) (handoffs o).

Definition next_handoff_sequence (o : ControlOutbox) : Z :=
  match max_of (h_sequence <$> handoffs o) with None => 0 | Some highest => saturating_add64 highest 1 end.

Definition control_record_prepared (o : ControlOutbox) (m : Member) (payload ciphertext : bytes)
    : result Error (ControlOutbox * unit) :=
  match find_handoff o m payload with
  | Some (_, existing) =>
      if bool_decide (h_payload existing = payload) && bool_decide (h_ciphertext existing = ciphertext)
      then Ok (o, tt) else Err Conflict
  | None =>
      if (control_live o >=? MAX_LIVE_HANDOFFS) || negb (is_control payload) then Err OutboxFull else
      let l := handoffs o ++ [mkHandoff m payload ciphertext 0 CPrepared (next_handoff_sequence o)] in
      Ok (reclaim (mkControl (sort_by canonical_order l)), tt)
  end.

Definition move_handoff (h : Handoff) (attempts : Z) (d : ControlDisposition) : Handoff :=
  mkHandoff (h_recipient h) (h_payload h) (h_ciphertext h) attempts d (h_sequence h).

Definition control_reserve (o : ControlOutbox) (m : Member) (payload : bytes)
    : result Error (ControlOutbox * Handoff) :=
  '(i, h) ← ok_or Malformed (find_handoff o m payload);
  match h_disposition h with
  | CPrepared | CHandedOff =>
      let attempts := h_attempts h + 1 in
      let reserved := move_handoff h attempts
        (if attempts =? MAX_ATTEMPTS then CExhaustedUnknown else CHandedOff) in
      Ok (reclaim (mkControl (<[i := reserved]> (handoffs o))), reserved)
  | _ => Err WrongDisposition
  end.

Definition cancel_handoff (m : Member) (h : Handoff) : Handoff :=
  if negb (bool_decide (h_recipient h = m)) || is_revocation (h_payload h) then h else
  move_handoff h (h_attempts h)
    (match h_disposition h with
     | CPrepared => CCancelled
     | CHandedOff => CCancelledAfterHandoff
     | d => d
     end).

Definition cancel_non_revocation_for_recipient (o : ControlOutbox) (m : Member) : ControlOutbox :=
  reclaim (mkControl (cancel_handoff m <$> handoffs o)).

Definition control_handoff (o : ControlOutbox) (m : Member) (payload : bytes) : result Error Handoff :=
  ok_or Malformed (snd <$> find_handoff o m payload).

Definition control_accept (o : ControlOutbox) (m : Member) (payload : bytes)
    : result Error (ControlOutbox * unit) :=
  '(i, h) ← ok_or Malformed (find_handoff o m payload);
  match h_disposition h with
  | CHandedOff | CExhaustedUnknown =>
      Ok (reclaim (mkControl (<[i := move_handoff h (h_attempts h) CRelayAccepted]> (handoffs o))), tt)
  | _ => Err WrongDisposition
  end.

Definition control_pending (o : ControlOutbox) : list Handoff :=
  filter (fun h => is_terminal_handoff h = false) (handoffs o).

(** ** The checkpoint *)
Definition disposition_code (d : ControlDisposition) : byte :=
  match d with
  | CPrepared => x00 | CHandedOff => x01 | CRelayAccepted => x02
  | CExhaustedUnknown => x03 | CCancelled => x04 | CCancelledAfterHandoff => x05
  end.

Definition disposition_of_code (b : byte) : result Error ControlDisposition :=
  match b with
  | x00 => Ok CPrepared | x01 => Ok CHandedOff | x02 => Ok CRelayAccepted
  | x03 => Ok CExhaustedUnknown | x04 => Ok CCancelled | x05 => Ok CCancelledAfterHandoff
  | _ => Err Malformed
  end.

Definition put_handoff (h : Handoff) : result Error bytes :=
  i ← gput_lp (m_identity (h_recipient h));
  d ← gput_lp (m_device (h_recipient h));
  p ← gput_lp (h_payload h);
  c ← gput_lp (h_ciphertext h);
  Ok (i ++ d ++ p ++ c ++ [byte_of (h_attempts h)] ++ [disposition_code (h_disposition h)] ++ be64 (h_sequence h)).

Definition control_encode_state (o : ControlOutbox) : result Error bytes :=
  if (control_live o >? MAX_LIVE_HANDOFFS) || (terminal_handoffs (handoffs o) >? MAX_TERMINAL_HANDOFFS)
  then Err OutboxFull else
  let entries := sort_by canonical_order (handoffs o) in
  count ← ok_or Malformed (u8_try_from (len entries));
  body ← gput_many put_handoff entries;
  Ok (CONTROL_DOMAIN ++ [byte_of count] ++ body).

(** The attempts an entry's disposition allows. *)
Definition attempts_malformed (attempts : Z) (d : ControlDisposition) : bool :=
  (attempts >? MAX_ATTEMPTS)
  || (bool_decide (d = CPrepared) && negb (attempts =? 0))
  || (bool_decide (d = CHandedOff) && ((attempts =? 0) || (attempts =? MAX_ATTEMPTS)))
  || (bool_decide (d = CExhaustedUnknown) && negb (attempts =? MAX_ATTEMPTS))
  || (bool_decide (d = CCancelled) && negb (attempts =? 0))
  || (bool_decide (d = CCancelledAfterHandoff) && (attempts =? 0)).

Definition take_handoff (cursor : bytes) : result Error (Handoff * bytes) :=
  '(identity, cursor) ← gtake_lp cursor;
  '(dev, cursor) ← gtake_lp cursor;
  if (len identity >? MAX_IDENTITY_LEN) || (len dev >? MAX_DEVICE_LEN) then Err Malformed else
  '(payload, cursor) ← gtake_lp cursor;
  '(ciphertext, cursor) ← gtake_lp cursor;
  '(attempts, cursor) ← gtake_byte cursor;
  '(code, cursor) ← gtake_byte cursor;
  d ← disposition_of_code code;
  '(sequence, cursor) ← gtake_u64 cursor;
  if attempts_malformed (byte_val attempts) d || negb (is_control payload) then Err Malformed else
  Ok (mkHandoff (mkMember identity dev) payload ciphertext (byte_val attempts) d sequence, cursor).

(** An entry whose sequence or key is already there. *)
Definition handoff_known (l : list Handoff) (h : Handoff) : bool :=
  existsb (fun known => (h_sequence known =? h_sequence h)
    || (bool_decide (h_recipient known = h_recipient h)
        && bool_decide (payload_commitment (h_payload known) = payload_commitment (h_payload h)))) l.

Fixpoint take_handoffs (count : nat) (l : list Handoff) (cursor : bytes) : result Error (list Handoff * bytes) :=
  match count with
  | O => Ok (l, cursor)
  | S count =>
      '(h, cursor) ← take_handoff cursor;
      if handoff_known l h then Err Malformed else
      take_handoffs count (l ++ [h]) cursor
  end.

Definition control_decode_state (bs : bytes) : result Error ControlOutbox :=
  if negb (starts_with CONTROL_DOMAIN bs) then Err Malformed else
  let cursor := drop (length CONTROL_DOMAIN) bs in
  '(count, cursor) ← gtake_byte cursor;
  if byte_val count >? MAX_LIVE_HANDOFFS + MAX_TERMINAL_HANDOFFS then Err OutboxFull else
  '(l, cursor) ← take_handoffs (Z.to_nat (byte_val count)) [] cursor;
  match cursor with
  | _ :: _ => Err Malformed
  | [] =>
      canonical ← control_encode_state (mkControl l);
      if negb (bool_decide (canonical = bs)) then Err NonCanonical else
      Ok (mkControl l)
  end.
End Control.

(** ** Lemmas on reclaiming *)
Section OldestSpec.
Lemma oldest_terminal_spec l : forall pre best,
  match oldest_terminal (length pre) best l with
  | None => best = None /\ Forall (fun h => is_terminal_handoff h = false) l
  | Some (k, s) =>
      (best = Some (k, s) \/
       exists l1 h l2, pre ++ l = l1 ++ h :: l2 /\ k = length l1 /\ s = h_sequence h /\ is_terminal_handoff h = true) /\
      (forall j b, best = Some (j, b) -> s <= b) /\
      Forall (fun h => is_terminal_handoff h = true -> s <= h_sequence h) l
  end.
Proof.
  induction l as [|h l IH]; intros pre best; cbn [oldest_terminal].
  { destruct best as [[k s]|]; [|done]. split_and!; [by left| |done]. intros j b [= _ <-]. lia. }
  set (best' := if is_terminal_handoff h then _ else best).
  specialize (IH (pre ++ [h]) best'). rewrite length_app in IH. cbn [length] in IH.
  replace (length pre + 1)%nat with (S (length pre)) in IH by lia. rewrite <- app_assoc in IH. cbn [app] in IH.
  destruct (oldest_terminal (S (length pre)) best' l) as [[k s]|].
  - destruct IH as (Hk & Hb & Hl).
    assert (best' = Some (k, s) -> best = Some (k, s) \/ (k = length pre /\ s = h_sequence h /\ is_terminal_handoff h = true)) as Hcase.
    { unfold best'. destruct (is_terminal_handoff h); [|by left]. destruct best as [[j b]|].
      - destruct (h_sequence h <? b); [|by left]. intros [= <- <-]. by right.
      - intros [= <- <-]. by right. }
    split_and!.
    + destruct Hk as [Hk|Hk]; [|by right]. destruct (Hcase Hk) as [?|(-> & -> & ?)]; [by left|]. right.
      by exists pre, h, l.
    + intros j b ->. unfold best' in Hb. destruct (is_terminal_handoff h); [|by eapply Hb].
      destruct (h_sequence h <? b) eqn:E; [|by eapply Hb]. specialize (Hb _ _ eq_refl). bool_prop. lia.
    + constructor; [|done]. intros Ht. unfold best' in Hb. rewrite Ht in Hb. destruct best as [[j b]|].
      * destruct (h_sequence h <? b) eqn:E; specialize (Hb _ _ eq_refl); bool_prop; lia.
      * specialize (Hb _ _ eq_refl). lia.
  - destruct IH as [Hb Hl]. unfold best' in Hb. destruct (is_terminal_handoff h) eqn:Ht.
    + by destruct best as [[j b]|]; [destruct (_ <? b)|].
    + split; [done|]. by constructor.
Qed.
End OldestSpec.

Lemma terminal_handoffs_app l1 l2 : terminal_handoffs (l1 ++ l2) = terminal_handoffs l1 + terminal_handoffs l2.
Proof. unfold terminal_handoffs. by rewrite filter_app, len_app. Qed.

Lemma terminal_handoffs_cons h l :
  terminal_handoffs (h :: l) = (if is_terminal_handoff h then 1 else 0) + terminal_handoffs l.
Proof.
  unfold terminal_handoffs. rewrite filter_cons. case_decide as E; rewrite ?len_cons.
  - by rewrite E.
  - destruct (is_terminal_handoff h); [by destruct E|lia].
Qed.

(** What reclaiming keeps: every live entry, and the sixteen terminal ones of
    the highest sequences, in place. *)
Record reclaimed (l l' : list Handoff) : Prop := {
  rc_sub : l' `sublist_of` l;
  rc_live : filter (fun h => is_terminal_handoff h = false) l' = filter (fun h => is_terminal_handoff h = false) l;
  rc_count : terminal_handoffs l' = Z.min MAX_TERMINAL_HANDOFFS (terminal_handoffs l);
  rc_old h : h ∈ l -> h ∈ l' \/
    (is_terminal_handoff h = true /\ forall k, k ∈ l' -> is_terminal_handoff k = true -> h_sequence h <= h_sequence k)
}.

Lemma reclaim_loop_spec fuel : forall l, (length l <= fuel)%nat ->
  exists l', reclaim_loop fuel l = Some l' /\ reclaimed l l'.
Proof.
  induction fuel as [|fuel IH]; intros l Hl; cbn [reclaim_loop];
    destruct (terminal_handoffs l <=? MAX_TERMINAL_HANDOFFS) eqn:E; bool_prop.
  - exists l. split; [done|]. split; [done|done|lia|by left].
  - exfalso. destruct l; [by cbn in E|cbn in Hl; lia].
  - exists l. split; [done|]. split; [done|done|lia|by left].
  - pose proof (oldest_terminal_spec l [] None) as Ho. cbn [length] in Ho.
    destruct (oldest_terminal 0 None l) as [[k s]|].
    + destruct Ho as ([[=]|(l1 & h & l2 & Heq & -> & -> & Ht)] & _ & Hmin). cbn [app] in Heq. subst l.
      cbn [mbind option_bind]. rewrite delete_middle.
      destruct (IH (l1 ++ l2)) as (l' & -> & [S1 S2 S3 S4]).
      { rewrite length_app, length_cons in Hl. rewrite length_app. lia. }
      exists l'. split; [done|]. rewrite terminal_handoffs_app, terminal_handoffs_cons, Ht in E. split.
      * etrans; [exact S1|]. apply sublist_app; [done|]. by apply sublist_cons.
      * rewrite S2, !filter_app, filter_cons, decide_False by (by rewrite Ht). done.
      * rewrite S3, !terminal_handoffs_app, terminal_handoffs_cons, Ht. lia.
      * intros x Hx. assert (x = h \/ x ∈ l1 ++ l2) as [->|Hx'] by set_solver; [|by apply S4].
        right. split; [done|]. intros y Hy Hyt. rewrite Forall_forall in Hmin. apply Hmin; [|done].
        apply (elem_of_sublist _ _ _ Hy) in S1. set_solver.
    + exfalso. destruct Ho as [_ Ho]. unfold terminal_handoffs in E. rewrite filter_none in E; [by cbn in E|].
      eapply Forall_impl; [exact Ho|]. cbn. intros h ->. done.
Qed.

Lemma reclaim_spec o : reclaimed (handoffs o) (handoffs (reclaim o)).
Proof.
  unfold reclaim. cbn. destruct (reclaim_loop_spec (length (handoffs o)) (handoffs o)) as (l' & -> & H); [lia|done].
Qed.

(** ** The invariant *)
Section Invariant.
Context (pc : bytes -> bytes).

(** What identifies an entry, and the order of the keys. *)
Definition handoff_key (h : Handoff) : bytes * Member := (pc (h_payload h), h_recipient h).

Definition key_cmp (a b : bytes * Member) : comparison :=
  then_cmp (bytes_cmp a.1 b.1)
    (then_cmp (bytes_cmp (m_identity a.2) (m_identity b.2)) (bytes_cmp (m_device a.2) (m_device b.2))).

Definition handoff_ok (h : Handoff) : Prop :=
  member_ok (h_recipient h) /\ is_control (h_payload h) = true /\
  len (h_payload h) <= u32_max /\ len (h_ciphertext h) <= u32_max /\
  0 <= h_attempts h /\ attempts_malformed (h_attempts h) (h_disposition h) = false /\
  0 <= h_sequence h <= u64_max.

(** [entries_inv n l]: the entries, all of sequences below [n] and one of them
    just below it, before the terminal ones are counted. *)
Record entries_inv (n : Z) (l : list Handoff) : Prop := {
  ei_each : Forall handoff_ok l;
  ei_sorted : StronglySorted (fun a b => key_cmp a b = Lt) (handoff_key <$> l);
  ei_sequences : NoDup (h_sequence <$> l);
  ei_below : Forall (fun h => h_sequence h < n) l;
  ei_newest : n = 0 /\ l = [] \/ (n - 1) ∈ (h_sequence <$> l);
  ei_live : control_live (mkControl l) <= MAX_LIVE_HANDOFFS
}.

Definition control_inv (n : Z) (o : ControlOutbox) : Prop :=
  entries_inv n (handoffs o) /\ terminal_handoffs (handoffs o) <= MAX_TERMINAL_HANDOFFS.

Lemma then_cmp_eq c d : then_cmp c d = Eq <-> c = Eq /\ d = Eq.
Proof. by destruct c; cbn; split; intros; destruct_and?. Qed.

Lemma key_cmp_eq a b : key_cmp a b = Eq -> a = b.
Proof.
  destruct a as [c [i d]], b as [c' [i' d']]. unfold key_cmp. cbn. rewrite !then_cmp_eq, !bytes_cmp_eq.
  by intros (-> & -> & ->).
Qed.

Lemma then_cmp_opp c d : CompOpp (then_cmp c d) = then_cmp (CompOpp c) (CompOpp d).
Proof. by destruct c. Qed.

Lemma key_cmp_antisym a b : key_cmp b a = CompOpp (key_cmp a b).
Proof.
  unfold key_cmp. rewrite !then_cmp_opp. by rewrite <- !bytes_cmp_antisym.
Qed.

(** Lexicographic composition of orders on byte strings. *)
Lemma then_cmp_trans (x y z : bytes) (d1 d2 d3 : comparison) :
  (d1 = Lt -> d2 = Lt -> d3 = Lt) ->
  then_cmp (bytes_cmp x y) d1 = Lt -> then_cmp (bytes_cmp y z) d2 = Lt -> then_cmp (bytes_cmp x z) d3 = Lt.
Proof.
  intros Hd. destruct (bytes_cmp x y) eqn:E1, (bytes_cmp y z) eqn:E2; cbn; try done; intros H1 H2.
  - apply bytes_cmp_eq in E1 as ->, E2 as ->. rewrite bytes_cmp_refl. cbn. by apply Hd.
  - apply bytes_cmp_eq in E1 as ->. by rewrite E2.
  - apply bytes_cmp_eq in E2 as ->. by rewrite E1.
  - by rewrite (bytes_cmp_trans _ _ _ E1 E2).
Qed.

Lemma key_cmp_trans a b c : key_cmp a b = Lt -> key_cmp b c = Lt -> key_cmp a c = Lt.
Proof.
  unfold key_cmp. apply then_cmp_trans. apply then_cmp_trans. apply bytes_cmp_trans.
Qed.

Lemma key_lt_NoDup l : StronglySorted (fun a b => key_cmp a b = Lt) l -> NoDup l.
Proof.
  induction 1 as [|k l _ IH Hk]; constructor; [|done]. intros Hin. rewrite Forall_forall in Hk.
  specialize (Hk _ Hin). pose proof (key_cmp_antisym k k) as Ha. rewrite Hk in Ha. done.
Qed.

Lemma find_handoff_Some o m payload i h :
  find_handoff pc o m payload = Some (i, h) ->
  handoffs o !! i = Some h /\ h_recipient h = m /\ pc (h_payload h) = pc payload.
Proof. unfold find_handoff. intros (Hi & [= <- Hp] & _)%list_find_Some. done. Qed.

Lemma find_handoff_None o m payload :
  find_handoff pc o m payload = None -> ~ ((pc payload, m) ∈ (handoff_key <$> handoffs o)).
Proof.
  unfold find_handoff. intros Hn (h & Hk & Hin)%list_elem_of_fmap. apply list_find_None in Hn.
  rewrite Forall_forall in Hn. apply (Hn _ Hin). unfold handoff_key in Hk. congruence.
Qed.

(** ** Each operation keeps it *)
Lemma terminal_handoffs_pos l : 0 < terminal_handoffs l <-> exists h, h ∈ l /\ is_terminal_handoff h = true.
Proof.
  induction l as [|x l IH].
  - split; [by intros|]. by intros (h & Hh%elem_of_nil & _).
  - rewrite terminal_handoffs_cons. pose proof (len_nonneg (filter (fun h => is_terminal_handoff h = true) l)) as Hn.
    change (0 <= terminal_handoffs l) in Hn. split.
    + intros H. destruct (is_terminal_handoff x) eqn:E; [exists x; split; [by left|done]|].
      destruct (proj1 IH ltac:(lia)) as (h & Hh & Ht). exists h. split; [by right|done].
    + intros (h & [->|Hh]%elem_of_cons & Ht); [rewrite Ht; lia|].
      assert (0 < terminal_handoffs l) by (apply IH; eauto). destruct (is_terminal_handoff x); lia.
Qed.

(** The newest entry is never reclaimed. *)
Lemma reclaim_newest n l :
  Forall (fun h => h_sequence h < n) l -> (n = 0 /\ l = [] \/ (n - 1) ∈ (h_sequence <$> l)) ->
  n = 0 /\ handoffs (reclaim (mkControl l)) = [] \/ (n - 1) ∈ (h_sequence <$> handoffs (reclaim (mkControl l))).
Proof.
  intros Hb [[-> ->]|(h & Hn & Hh)%list_elem_of_fmap]; [by left|]. right.
  pose proof (reclaim_spec (mkControl l)) as [R1 _ R3 R4]. cbn [handoffs] in *.
  destruct (R4 h Hh) as [Hin|[Ht Hle]]; [rewrite Hn; by apply list_elem_of_fmap_2|].
  assert (0 < terminal_handoffs l) by (apply terminal_handoffs_pos; eauto).
  destruct (proj1 (terminal_handoffs_pos (handoffs (reclaim (mkControl l))))) as (k & Hk & Hkt).
  { rewrite R3. unfold MAX_TERMINAL_HANDOFFS. lia. }
  specialize (Hle k Hk Hkt). rewrite Forall_forall in Hb. pose proof (Hb k ltac:(by eapply elem_of_sublist)).
  replace (n - 1) with (h_sequence k) by lia. by apply list_elem_of_fmap_2.
Qed.

Lemma reclaim_inv n l : entries_inv n l -> control_inv n (reclaim (mkControl l)).
Proof.
  intros [E1 E2 E3 E4 E6 E5]. pose proof (reclaim_spec (mkControl l)) as [R1 R2 R3 R4]. cbn [handoffs] in *.
  split; [|rewrite R3; lia]. split.
  - rewrite Forall_forall in *. intros h Hh. by eapply E1, elem_of_sublist.
  - eapply StronglySorted_sublist; [|exact E2]. by apply fmap_sublist.
  - eapply sublist_NoDup; [exact E3|]. by apply fmap_sublist.
  - rewrite Forall_forall in *. intros h Hh. by eapply E4, elem_of_sublist.
  - by apply (reclaim_newest n l).
  - unfold control_live in *. cbn [handoffs] in *. by rewrite R2.
Qed.

Lemma live_insert l i h h' :
  l !! i = Some h -> (is_terminal_handoff h = true -> is_terminal_handoff h' = true) ->
  control_live (mkControl (<[i := h']> l)) <= control_live (mkControl l).
Proof.
  unfold control_live. cbn. intros Hi Ht. revert i Hi. induction l as [|x l IH]; intros i Hi; [done|].
  destruct i as [|i]; cbn in Hi.
  - injection Hi as ->. change (<[O := h']> (h :: l)) with (h' :: l). rewrite !filter_cons.
    repeat case_decide; rewrite ?len_cons; try lia. destruct (is_terminal_handoff h); [|done]. by rewrite Ht in *.
  - change (<[S i := h']> (x :: l)) with (x :: <[i := h']> l). specialize (IH i Hi). rewrite !filter_cons.
    case_decide; rewrite ?len_cons; lia.
Qed.

Lemma insert_inv n l i h h' :
  entries_inv n l -> l !! i = Some h -> handoff_key h' = handoff_key h -> h_sequence h' = h_sequence h -> handoff_ok h' ->
  (is_terminal_handoff h = true -> is_terminal_handoff h' = true) -> entries_inv n (<[i := h']> l).
Proof.
  intros [E1 E2 E3 E4 E6 E5] Hi Hk Hs Hok Ht. split.
  - by apply Forall_insert.
  - by rewrite (keys_insert handoff_key _ _ _ _ Hi Hk).
  - by rewrite (keys_insert h_sequence _ _ _ _ Hi Hs).
  - apply Forall_insert; [done|]. rewrite Hs. rewrite Forall_forall in E4. by eapply E4, list_elem_of_lookup_2.
  - rewrite (keys_insert h_sequence _ _ _ _ Hi Hs). destruct E6 as [[_ ->]|E6]; [done|by right].
  - pose proof (live_insert l i h h' Hi Ht). lia.
Qed.

Lemma attempts_ok attempts d :
  0 <= attempts -> attempts_malformed attempts d = false ->
  match d with
  | CPrepared | CCancelled => attempts = 0
  | CHandedOff => 1 <= attempts <= 2
  | CExhaustedUnknown => attempts = 3
  | CCancelledAfterHandoff => 1 <= attempts <= 3
  | CRelayAccepted => attempts <= 3
  end.
Proof. unfold attempts_malformed, MAX_ATTEMPTS. intros H0.
  destruct d; repeat first [rewrite bool_decide_eq_true_2 by done|rewrite bool_decide_eq_false_2 by done];
    cbn [andb orb negb]; intros; bool_prop; lia.
Qed.

Lemma insert_reclaim_inv n o i h h' :
  control_inv n o -> handoffs o !! i = Some h ->
  handoff_key h' = handoff_key h -> h_sequence h' = h_sequence h -> handoff_ok h' ->
  (is_terminal_handoff h = true -> is_terminal_handoff h' = true) ->
  control_inv n (reclaim (mkControl (<[i := h']> (handoffs o)))).
Proof. intros [Hi _] **. apply reclaim_inv. by eapply insert_inv. Qed.

Lemma entry_ok n o i h : control_inv n o -> handoffs o !! i = Some h -> handoff_ok h.
Proof. intros [[E _ _ _ _ _] _] Hi. rewrite Forall_forall in E. by eapply E, list_elem_of_lookup_2. Qed.

(** A new disposition and attempt count that fit each other. *)
Lemma move_handoff_ok h a d :
  handoff_ok h -> 0 <= a -> attempts_malformed a d = false -> handoff_ok (move_handoff h a d).
Proof. intros (H1 & H2 & H3 & H4 & H5 & H6 & H7) Ha Hm. unfold handoff_ok. cbn. tauto. Qed.

Lemma reserve_inv n o m p o' h' :
  control_inv n o -> control_reserve pc o m p = Ok (o', h') -> control_inv n o'.
Proof.
  intros Hi H. unfold control_reserve in H. inv_bind.
  match goal with E : find_handoff _ _ _ _ = Some (?i, ?h) |- _ =>
    apply find_handoff_Some in E as (Hl & _ & _); pose proof (entry_ok _ _ _ _ Hi Hl) as Hok end.
  pose proof Hok as (_ & _ & _ & _ & H0 & Ha & _). apply attempts_ok in Ha; [|done].
  destruct (h_disposition h) eqn:Ed; try done; inv_bind;
    (eapply insert_reclaim_inv; [done|exact Hl|done|done| |by unfold is_terminal_handoff; rewrite Ed]);
    apply move_handoff_ok; try done; try lia.
  - by rewrite Ha.
  - unfold attempts_malformed, MAX_ATTEMPTS.
    assert (h_attempts h = 1 \/ h_attempts h = 2) as [Hr1|Hr1] by lia; by rewrite Hr1.
Qed.

Lemma accept_inv n o m p o' :
  control_inv n o -> control_accept pc o m p = Ok (o', tt) -> control_inv n o'.
Proof.
  intros Hi H. unfold control_accept in H. inv_bind.
  match goal with E : find_handoff _ _ _ _ = Some (?i, ?h) |- _ =>
    apply find_handoff_Some in E as (Hl & _ & _); pose proof (entry_ok _ _ _ _ Hi Hl) as Hok end.
  pose proof Hok as (_ & _ & _ & _ & H0 & Ha & _). apply attempts_ok in Ha; [|done].
  destruct (h_disposition h) eqn:Ed; try done; inv_bind;
    (eapply insert_reclaim_inv; [done|exact Hl|done|done| |done]);
    apply move_handoff_ok; try done; unfold attempts_malformed, MAX_ATTEMPTS; cbn; rewrite !orb_false_r, Z.gtb_ltb;
    apply Z.ltb_ge; lia.
Qed.

Lemma cancel_handoff_ok m h : handoff_ok h -> handoff_ok (cancel_handoff m h).
Proof.
  intros Hok. unfold cancel_handoff. case_match; [done|]. pose proof Hok as (_ & _ & _ & _ & H0 & Ha & _).
  pose proof (attempts_ok _ _ H0 Ha) as Hr. apply move_handoff_ok; [done|done|].
  destruct (h_disposition h); try done; unfold attempts_malformed, MAX_ATTEMPTS; cbn.
  - by rewrite Hr.
  - assert (h_attempts h = 1 \/ h_attempts h = 2) as [Hr1|Hr1] by lia; by rewrite Hr1.
Qed.

Lemma cancel_handoff_same m h :
  handoff_key (cancel_handoff m h) = handoff_key h /\ h_sequence (cancel_handoff m h) = h_sequence h /\
  h_ciphertext (cancel_handoff m h) = h_ciphertext h /\ h_payload (cancel_handoff m h) = h_payload h /\
  h_recipient (cancel_handoff m h) = h_recipient h /\ h_attempts (cancel_handoff m h) = h_attempts h /\
  (is_terminal_handoff h = true -> is_terminal_handoff (cancel_handoff m h) = true).
Proof.
  unfold cancel_handoff. case_match; [done|]. split_and!; try done. unfold is_terminal_handoff. cbn.
  by destruct (h_disposition h).
Qed.

Lemma cancel_live m l : control_live (mkControl (cancel_handoff m <$> l)) <= control_live (mkControl l).
Proof.
  unfold control_live. cbn. induction l as [|h l IH]; cbn [fmap list_fmap]; [done|]. rewrite !filter_cons.
  pose proof (cancel_handoff_same m h) as (_ & _ & _ & _ & _ & _ & Ht).
  repeat case_decide; rewrite ?len_cons; try (unfold fmap in *; lia).
  destruct (is_terminal_handoff h); [|done]. by rewrite Ht in *.
Qed.

Lemma cancel_inv n o m : control_inv n o -> control_inv n (cancel_non_revocation_for_recipient o m).
Proof.
  intros [[E1 E2 E3 E4 E6 E5] _]. apply reclaim_inv.
  assert (forall {B} (f : Handoff -> B), (forall h, f (cancel_handoff m h) = f h) ->
    (f <$> (cancel_handoff m <$> handoffs o)) = (f <$> handoffs o)) as Hf.
  { intros B f Hs. rewrite <- list_fmap_compose. apply list_fmap_ext. intros. apply Hs. }
  pose proof (Hf _ handoff_key ltac:(apply cancel_handoff_same)) as Hk.
  pose proof (Hf _ h_sequence ltac:(intros; apply cancel_handoff_same)) as Hs.
  split.
  - apply Forall_fmap. eapply Forall_impl; [exact E1|]. intros h. apply cancel_handoff_ok.
  - by rewrite Hk.
  - by rewrite Hs.
  - apply Forall_fmap. eapply Forall_impl; [exact E4|]. intros h Hh. cbn.
    by destruct (cancel_handoff_same m h) as (_ & -> & _).
  - rewrite Hs. destruct E6 as [[-> ->]|E6]; [by left|by right].
  - pose proof (cancel_live m (handoffs o)). unfold control_live in *. lia.
Qed.

Lemma next_sequence_n n o : control_inv n o -> n <= u64_max -> 0 <= n /\ next_handoff_sequence o = n.
Proof.
  intros [[E1 _ _ E4 E6 _] _] Hn. unfold next_handoff_sequence.
  destruct E6 as [[-> ->]|Hin]; [done|].
  destruct (max_of (h_sequence <$> handoffs o)) as [k|] eqn:E.
  - apply max_of_Some in E as [Hk Hle]. specialize (Hle _ Hin).
    apply list_elem_of_fmap in Hk as (h & -> & Hh). rewrite Forall_forall in E1, E4.
    specialize (E4 h Hh). destruct (E1 h Hh) as (_ & _ & _ & _ & _ & _ & Hs). unfold saturating_add64. lia.
  - apply max_of_None in E. rewrite E in Hin. by apply elem_of_nil in Hin.
Qed.

(** What an operation may be given. *)
Definition prepare_ok (m : Member) (payload ciphertext : bytes) : Prop :=
  member_ok m /\ len payload <= u32_max /\ len ciphertext <= u32_max.

Lemma control_live_perm l l' : l ≡ₚ l' -> control_live (mkControl l) = control_live (mkControl l').
Proof. unfold control_live. cbn. intros H. apply len_perm. by rewrite H. Qed.

(** The entries a preparation leaves: the same ones, or a new one. *)
Lemma prepare_cases o m p c o' :
  control_record_prepared pc o m p c = Ok (o', tt) ->
  (exists i h, o' = o /\ find_handoff pc o m p = Some (i, h) /\ h_payload h = p /\ h_ciphertext h = c) \/
  (find_handoff pc o m p = None /\ control_live o < MAX_LIVE_HANDOFFS /\ is_control p = true /\
   o' = reclaim (mkControl (sort_by (canonical_order pc)
          (handoffs o ++ [mkHandoff m p c 0 CPrepared (next_handoff_sequence o)])))).
Proof.
  unfold control_record_prepared. destruct (find_handoff pc o m p) as [[i h]|] eqn:E; intros H; inv_bind; bool_prop.
  - left. by exists i, h.
  - right. done.
Qed.

Lemma prepare_inv n o m p c o' :
  control_inv n o -> n <= u64_max -> prepare_ok m p c -> control_record_prepared pc o m p c = Ok (o', tt) ->
  control_inv n o' \/ control_inv (n + 1) o'.
Proof.
  intros Hi Hn (Hm & Hp & Hc) H. apply prepare_cases in H as [(i & h & -> & _)|(Hf & Hl & Hctl & ->)]; [by left|].
  right. destruct (next_sequence_n _ _ Hi Hn) as [H0 Hs]. rewrite Hs. apply find_handoff_None in Hf.
  destruct Hi as [[E1 E2 E3 E4 E6 E5] _]. apply reclaim_inv.
  set (new := mkHandoff m p c 0 CPrepared n).
  pose proof (sort_by_perm (canonical_order pc) (handoffs o ++ [new])) as Hperm.
  assert (Forall handoff_ok (handoffs o ++ [new])) as Hall.
  { apply Forall_app. split; [done|]. constructor; [|done]. unfold new, handoff_ok. cbn. split_and!; done || lia. }
  assert (Forall (fun h => h_sequence h < n + 1) (handoffs o ++ [new])) as Hbelow.
  { apply Forall_app. split; [eapply Forall_impl; [exact E4|cbn; lia]|]. constructor; [cbn; lia|done]. }
  split.
  - by rewrite Hperm.
  - apply StronglySorted_keys. apply (sort_by_keys (canonical_order pc)) with (key := handoff_key).
    + intros x y. apply (key_cmp_antisym (handoff_key x) (handoff_key y)).
    + intros x y z. apply (key_cmp_trans (handoff_key x) (handoff_key y) (handoff_key z)).
    + intros x y Hxy. by apply key_cmp_eq.
    + rewrite fmap_app. apply NoDup_snoc; [done|]. by apply key_lt_NoDup.
  - rewrite Hperm, fmap_app. apply NoDup_snoc; [|done]. cbn. intros (h & -> & Hh)%list_elem_of_fmap.
    rewrite Forall_forall in E4. specialize (E4 _ Hh). lia.
  - by rewrite Hperm.
  - right. rewrite Hperm, fmap_app. replace (n + 1 - 1) with n by lia. apply elem_of_app. right. by left.
  - rewrite (control_live_perm _ _ Hperm). unfold control_live in *. cbn [handoffs] in *.
    rewrite filter_app, len_app. unfold MAX_LIVE_HANDOFFS in *. change (filter _ [new]) with [new]. rewrite len_cons, len_nil. lia.
Qed.

(** ** Runs *)
Inductive ControlOp :=
| KPrepare (m : Member) (payload ciphertext : bytes)
| KReserve (m : Member) (payload : bytes)
| KAccept (m : Member) (payload : bytes)
| KCancel (m : Member).

Definition control_op_ok (op : ControlOp) : Prop :=
  match op with KPrepare m p c => prepare_ok m p c | _ => True end.

(** One operation; a refused one changes nothing.  With it, what it hands out
    to be sent. *)
Definition control_step (o : ControlOutbox) (op : ControlOp) : ControlOutbox * list Handoff :=
  match op with
  | KPrepare m p c => match control_record_prepared pc o m p c with Ok (o', _) => (o', []) | Err _ => (o, []) end
  | KReserve m p => match control_reserve pc o m p with Ok (o', h) => (o', [h]) | Err _ => (o, []) end
  | KAccept m p => match control_accept pc o m p with Ok (o', _) => (o', []) | Err _ => (o, []) end
  | KCancel m => (cancel_non_revocation_for_recipient o m, [])
  end.

Fixpoint control_run (o : ControlOutbox) (ops : list ControlOp) : ControlOutbox * list Handoff :=
  match ops with
  | [] => (o, [])
  | op :: ops => let '(o1, out) := control_step o op in let '(o2, outs) := control_run o1 ops in (o2, out ++ outs)
  end.

(** The same entry later on. *)
Definition evolves (a b : Handoff) : Prop :=
  h_sequence b = h_sequence a /\ h_recipient b = h_recipient a /\ h_payload b = h_payload a /\
  h_ciphertext b = h_ciphertext a /\ h_attempts a <= h_attempts b.

#[global] Instance evolves_refl : Reflexive evolves.
Proof. intros h. unfold evolves. split_and!; done || lia. Qed.

#[global] Instance evolves_trans : Transitive evolves.
Proof. intros a b c (?&?&?&?&?) (?&?&?&?&?). unfold evolves. split_and!; congruence || lia. Qed.

Lemma elem_of_insert_inv {A} (l : list A) i x y : x ∈ <[i := y]> l -> x = y \/ x ∈ l.
Proof.
  intros (j & Hj)%list_elem_of_lookup. apply list_lookup_insert_Some in Hj as [(_ & -> & _)|[_ Hj]]; [by left|].
  right. by eapply list_elem_of_lookup_2.
Qed.

Lemma reclaim_from l h : h ∈ handoffs (reclaim (mkControl l)) -> h ∈ l.
Proof. intros H. destruct (reclaim_spec (mkControl l)) as [R _ _ _]. by eapply elem_of_sublist. Qed.

(** Entries of an inserted and reclaimed outbox. *)
Lemma insert_entries o i h h' x :
  handoffs o !! i = Some h -> evolves h h' ->
  x ∈ handoffs (reclaim (mkControl (<[i := h']> (handoffs o)))) -> exists y, y ∈ handoffs o /\ evolves y x.
Proof.
  intros Hi He Hx. apply reclaim_from in Hx. apply elem_of_insert_inv in Hx as [->|Hx]; [|by exists x].
  exists h. split; [by eapply list_elem_of_lookup_2|done].
Qed.

(** What one operation does to the entries: each comes from the same entry, or
    is the new one; and what is handed out is one more attempt of an entry. *)
Record steps (n : Z) (o : ControlOutbox) (op : ControlOp) (o' : ControlOutbox) (out : list Handoff) (n' : Z) : Prop := {
  st_inv : control_inv n' o';
  st_next : n <= n' <= n + 1;
  st_from h : h ∈ handoffs o' -> (exists k, k ∈ handoffs o /\ evolves k h) \/
    (h_sequence h = n /\ n' = n + 1 /\ op = KPrepare (h_recipient h) (h_payload h) (h_ciphertext h));
  st_out a : a ∈ out -> (exists k, k ∈ handoffs o /\ evolves k a /\ h_attempts k < h_attempts a) /\
    1 <= h_attempts a <= MAX_ATTEMPTS /\
    forall h, h ∈ handoffs o' -> h_sequence h = h_sequence a -> evolves a h;
  st_one : (length out <= 1)%nat
}.

(** The cases in which an operation changes nothing, and in which it moves one
    entry or a whole outbox on. *)
Lemma steps_same n o op : control_inv n o -> steps n o op o [] n.
Proof. intros Hi. split; [done|lia|intros h Hh; left; by exists h|by intros a Ha%elem_of_nil|cbn; lia]. Qed.

Lemma sequences_inj n o h k :
  control_inv n o -> h ∈ handoffs o -> k ∈ handoffs o -> h_sequence h = h_sequence k -> h = k.
Proof.
  intros [[_ _ Hn _ _ _] _] (i & Hi)%list_elem_of_lookup (j & Hj)%list_elem_of_lookup Hs.
  assert (i = j) as ->; [|congruence].
  eapply NoDup_lookup; [exact Hn| |]; rewrite list_lookup_fmap; [by rewrite Hi|rewrite Hj; by rewrite Hs].
Qed.

Lemma prepare_steps n o m p c o' :
  control_inv n o -> n <= u64_max -> prepare_ok m p c -> control_record_prepared pc o m p c = Ok (o', tt) ->
  exists n', steps n o (KPrepare m p c) o' [] n'.
Proof.
  intros Hi Hn Hok H. pose proof (prepare_inv _ _ _ _ _ _ Hi Hn Hok H) as Hinv.
  destruct (next_sequence_n _ _ Hi Hn) as [_ Hs].
  apply prepare_cases in H as [(i & h & -> & _)|(Hf & Hl & Hctl & ->)]; [exists n; by apply steps_same|].
  set (new := mkHandoff m p c 0 CPrepared (next_handoff_sequence o)) in *.
  set (l := sort_by (canonical_order pc) (handoffs o ++ [new])) in *.
  assert (forall x, x ∈ handoffs (reclaim (mkControl l)) -> x ∈ handoffs o \/ x = new) as Hfrom.
  { intros x Hx%reclaim_from. unfold l in Hx. rewrite sort_by_perm in Hx.
    apply elem_of_app in Hx as [Hx|Hx%list_elem_of_singleton]; auto. }
  exists (n + 1). destruct Hinv as [Hinv|Hinv].
  - exfalso. assert (new ∈ l) as Hnew.
    { unfold l. rewrite sort_by_perm. apply elem_of_app. right. by left. }
    destruct (reclaim_spec (mkControl l)) as [_ _ _ R]. destruct (R new Hnew) as [Hr|[Ht _]]; [|done].
    destruct Hinv as [[_ _ _ E4 _ _] _]. rewrite Forall_forall in E4. specialize (E4 _ Hr). cbn in E4. lia.
  - split; [done|lia| |by intros a Ha%elem_of_nil|cbn; lia].
    intros h Hh. destruct (Hfrom h Hh) as [Hh'| ->]; [left; by exists h|right]. split_and!; done.
Qed.

Lemma reserve_steps n o m p o' r :
  control_inv n o -> control_reserve pc o m p = Ok (o', r) -> steps n o (KReserve m p) o' [r] n.
Proof.
  intros Hi H. pose proof (reserve_inv _ _ _ _ _ _ Hi H) as Hinv. unfold control_reserve in H. inv_bind.
  match goal with E : find_handoff _ _ _ _ = Some (?i, ?h) |- _ =>
    apply find_handoff_Some in E as (Hl & _ & _); pose proof (entry_ok _ _ _ _ Hi Hl) as Hok end.
  pose proof (list_elem_of_lookup_2 _ _ _ Hl) as Hin.
  pose proof Hok as (_ & _ & _ & _ & H0 & Ha & _). apply attempts_ok in Ha; [|done].
  set (r' := move_handoff h (h_attempts h + 1) _) in H.
  assert (Ok (reclaim (mkControl (<[n0 := r']> (handoffs o))), r') = Ok (E := Error) (o', r) /\ h_attempts h <= 2) as [H' Hatt].
  { destruct (h_disposition h); try done; split; try done; lia. }
  clear H. apply Ok_inj in H'. apply pair_equal_spec in H' as [<- <-].
  assert (evolves h r') as He by (unfold evolves; cbn; split_and!; done || lia).
  split; [done|lia| | |cbn; lia].
  - intros x Hx. left. by eapply insert_entries.
  - intros a ->%list_elem_of_singleton. split; [exists h; split_and!; [done|done|cbn; lia]|].
    split; [cbn; unfold MAX_ATTEMPTS; lia|]. intros x Hx Hseq. apply reclaim_from in Hx.
    apply list_elem_of_lookup in Hx as (j & Hj). apply list_lookup_insert_Some in Hj as [(_ & -> & _)|[Hne Hj]]; [done|].
    destruct Hi as [[_ _ Hn _ _ _] _]. destruct Hne.
    eapply NoDup_lookup; [exact Hn| |]; rewrite list_lookup_fmap; [by rewrite Hl|rewrite Hj; cbn; by rewrite Hseq].
Qed.

Lemma accept_steps n o m p o' :
  control_inv n o -> control_accept pc o m p = Ok (o', tt) -> steps n o (KAccept m p) o' [] n.
Proof.
  intros Hi H. pose proof (accept_inv _ _ _ _ _ Hi H) as Hinv. unfold control_accept in H. inv_bind.
  match goal with E : find_handoff _ _ _ _ = Some (?i, ?h) |- _ => apply find_handoff_Some in E as (Hl & _ & _) end.
  assert (evolves h (move_handoff h (h_attempts h) CRelayAccepted)) as He by (unfold evolves; cbn; split_and!; done || lia).
  split; [done|lia| |by intros a Ha%elem_of_nil|cbn; lia].
  intros x Hx. left. eapply insert_entries; [exact Hl|exact He|].
  destruct (h_disposition h); try done; inv_bind; done.
Qed.

Lemma cancel_steps n o m : control_inv n o -> steps n o (KCancel m) (cancel_non_revocation_for_recipient o m) [] n.
Proof.
  intros Hi. split; [by apply cancel_inv|lia| |by intros a Ha%elem_of_nil|cbn; lia].
  intros x Hx%reclaim_from. left. apply list_elem_of_fmap in Hx as (h & -> & Hh). exists h. split; [done|].
  destruct (cancel_handoff_same m h) as (_ & H1 & H2 & H3 & H4 & H5 & _). unfold evolves. split_and!; done || lia.
Qed.

Lemma control_step_spec n o op :
  control_inv n o -> n <= u64_max -> control_op_ok op ->
  exists n', steps n o op (control_step o op).1 (control_step o op).2 n'.
Proof.
  intros Hi Hn Hok. pose proof (steps_same n o op Hi) as Hsame.
  destruct op as [m p c|m p|m p|m]; cbn [control_step].
  - destruct (control_record_prepared pc o m p c) as [[o' []]|e] eqn:E; [by eapply prepare_steps|by exists n].
  - destruct (control_reserve pc o m p) as [[o' h]|e] eqn:E; [exists n; by eapply reserve_steps|by exists n].
  - destruct (control_accept pc o m p) as [[o' []]|e] eqn:E; [exists n; by eapply accept_steps|by exists n].
  - exists n. by apply cancel_steps.
Qed.

(** [b] was handed out after [a]: were they the same entry, they carry the same
    bytes and [b] is a later attempt. *)
Definition resends (a b : Handoff) : Prop :=
  h_sequence a = h_sequence b ->
  h_recipient a = h_recipient b /\ h_payload a = h_payload b /\ h_ciphertext a = h_ciphertext b /\
  h_attempts a < h_attempts b.

(** What a run from [o] hands out, and where it comes from. *)
Definition run_origin (n : Z) (o : ControlOutbox) (ops : list ControlOp) (b : Handoff) : Prop :=
  (exists k, k ∈ handoffs o /\ evolves k b /\ h_attempts k < h_attempts b) \/
  (n <= h_sequence b /\ KPrepare (h_recipient b) (h_payload b) (h_ciphertext b) ∈ ops).

Lemma control_run_spec ops : forall n o o' outs,
  control_inv n o -> n + len ops <= u64_max + 1 -> Forall control_op_ok ops -> control_run o ops = (o', outs) ->
  (exists n', n <= n' <= n + len ops /\ control_inv n' o') /\
  StronglySorted resends outs /\
  Forall (fun b => 1 <= h_attempts b <= MAX_ATTEMPTS /\ run_origin n o ops b) outs.
Proof.
  induction ops as [|op ops IH]; intros n o o' outs Hi Hn Hops H; cbn [control_run] in H.
  { injection H as <- <-. split_and!; [|constructor|constructor]. exists n. split; [rewrite len_nil; lia|done]. }
  apply Forall_cons in Hops as [Hop Hops]. rewrite len_cons in Hn. pose proof (len_nonneg ops) as Hpos.
  destruct (control_step_spec n o op Hi ltac:(lia) Hop) as [n1 Hs].
  destruct (control_step o op) as [o1 out]. cbn [fst snd] in Hs. destruct Hs as [S1 S2 S3 S4 S5].
  destruct (control_run o1 ops) as [o2 outs2] eqn:Er. injection H as <- <-.
  destruct (IH n1 o1 o2 outs2 S1 ltac:(lia) Hops Er) as ((n2 & Hn2 & Hi2) & Hsort & Hall).
  split; [exists n2; split; [rewrite len_cons; lia|done]|].
  destruct Hi as [[_ _ _ E4 _ _] _]. rewrite Forall_forall in E4. rewrite Forall_forall in Hall. split.
  - apply StronglySorted_app. split; [|split; [|done]].
    + intros a b Ha Hb Hab. destruct (S4 a Ha) as ((k & Hk & Hke & _) & _ & Hafter).
      destruct (Hall b Hb) as [_ [(h & Hh & Heb & Hlt)|[Hge _]]].
      * destruct Heb as (Q1 & Q2 & Q3 & Q4 & Q5). destruct (Hafter h Hh ltac:(congruence)) as (R1 & R2 & R3 & R4 & R5).
        split_and!; congruence || lia.
      * exfalso. specialize (E4 k Hk). destruct Hke as (Q1 & _). lia.
    + destruct out as [|a [|b out]]; [constructor|repeat constructor|cbn in S5; lia].
  - apply Forall_app. split; apply Forall_forall.
    + intros a Ha. destruct (S4 a Ha) as (Hk & Hr & _). split; [done|by left].
    + intros b Hb. destruct (Hall b Hb) as [Hr Horig]. split; [done|].
      destruct Horig as [(h & Hh & Heb & Hlt)|[Hge Hin]]; [|right; split; [lia|by right]].
      destruct (S3 h Hh) as [(k & Hk & Hkh)|(Hseq & Hn1 & Hopeq)].
      * left. exists k. split; [done|]. split; [by etrans|]. destruct Hkh as (_ & _ & _ & _ & ?). lia.
      * right. destruct Heb as (Q1 & Q2 & Q3 & Q4 & _). rewrite Q1, Q2, Q3, Q4. split; [lia|]. rewrite Hopeq. by left.
Qed.
End Invariant.

Lemma control_default_inv pc : control_inv pc 0 control_default.
Proof.
  unfold control_default. split; [|done]. cbn. split; [constructor|constructor|constructor|constructor|by left|done].
Qed.

(** ** The checkpoint *)
Lemma disposition_of_code_code d : disposition_of_code (disposition_code d) = Ok d.
Proof. by destruct d. Qed.

Lemma disposition_code_of b d : disposition_of_code b = Ok d -> b = disposition_code d.
Proof. by destruct b; cbn; intros; inv_bind. Qed.

Lemma gput_lp_bound v bs : gput_lp v = Ok bs -> len v <= u32_max.
Proof. unfold gput_lp. intros H. inv_bind. apply gput_u32_Ok in E as [_ ?]; [done|apply len_nonneg]. Qed.

#[global] Instance parses_handoff : Parses handoff_ok put_handoff take_handoff.
Proof.
  split.
  - intros [[i dv] p c a d s] bs rest (Hm & Hctl & _ & _ & Ha & Hatt & Hs) H. unfold put_handoff in H. cbn in *. inv_bind.
    apply member_ok_spec in Hm as [Hi Hd]. cbn in Hi, Hd. unfold take_handoff. parses_fwd.
    replace ((len i >? MAX_IDENTITY_LEN) || (len dv >? MAX_DEVICE_LEN)) with false
      by (rewrite !Z.gtb_ltb; symmetry; apply orb_false_iff; split; apply Z.ltb_ge; lia).
    parses_fwd. rewrite disposition_of_code_code. cbn [mbind result_bind].
    apply attempts_ok in Hatt as Hr; [|done]. assert (byte_val (byte_of a) = a) as Hb.
    { rewrite byte_val_of. apply Z.mod_small. destruct d; lia. }
    parses_fwd. by rewrite Hb, Hatt, Hctl.
  - intros input h rest H. unfold take_handoff in H. inv_bind.
    repeat match goal with E : gtake_byte _ = Ok _ |- _ => apply gtake_byte_inv in E as -> end.
    match goal with E : gtake_u64 _ = Ok _ |- _ => apply gtake_u64_inv in E as [Hs ->] end.
    repeat match goal with E : gtake_lp _ = Ok _ |- _ => apply (parses_put_take (put := gput_lp)) in E as (_ & ? & ? & ->) end.
    match goal with E : disposition_of_code _ = Ok _ |- _ => apply disposition_code_of in E as -> end.
    bool_prop. pose proof (byte_val_range b) as Hb. split.
    + unfold handoff_ok. cbn. rewrite member_ok_spec. cbn.
      split_and!; try done; try lia; by eapply gput_lp_bound.
    + eexists. unfold put_handoff. cbn. gput_fwd. split; [reflexivity|]. rewrite byte_of_val. by rewrite <- !app_assoc.
Qed.

Section Checkpoint.
Context (pc : bytes -> bytes).

Lemma handoff_known_false l h :
  handoff_known pc l h = false <->
  ~ (h_sequence h ∈ (h_sequence <$> l)) /\ ~ (handoff_key pc h ∈ (handoff_key pc <$> l)).
Proof.
  unfold handoff_known. rewrite <- not_true_iff_false, existsb_exists. split.
  - intros Hn. split; intros (k & Hk & Hin)%list_elem_of_fmap; apply Hn; exists k;
      (split; [by apply list_elem_of_In|]); apply orb_true_iff.
    + left. apply Z.eqb_eq. congruence.
    + right. unfold handoff_key in Hk. apply andb_true_iff. split; apply bool_decide_eq_true_2; congruence.
  - intros [H1 H2] (k & Hk & Hc). apply list_elem_of_In in Hk. apply orb_true_iff in Hc as [Hc|Hc]; bool_prop.
    + apply H1. rewrite <- Hc. by apply list_elem_of_fmap_2.
    + apply H2. replace (handoff_key pc h) with (handoff_key pc k) by (unfold handoff_key; congruence).
      by apply list_elem_of_fmap_2.
Qed.

Definition distinct (l : list Handoff) : Prop := NoDup (h_sequence <$> l) /\ NoDup (handoff_key pc <$> l).

(** Reading entries one by one, each new to the ones before it. *)
Lemma take_handoffs_spec n : forall l cursor l' rest, distinct l ->
  take_handoffs pc n l cursor = Ok (l', rest) <->
  exists k, gtake_many take_handoff n cursor = Ok (k, rest) /\ l' = l ++ k /\ distinct l'.
Proof.
  induction n as [|n IH]; intros l cursor l' rest Hl; cbn [take_handoffs gtake_many].
  { split.
    - intros [= <- <-]. exists []. by rewrite app_nil_r.
    - intros (k & [= <- <-] & -> & _). by rewrite app_nil_r. }
  destruct (take_handoff cursor) as [[h c]|e]; cbn [mbind result_bind]; [|split; [done|by intros (? & ? & _)]].
  destruct (handoff_known pc l h) eqn:E.
  - split; [done|]. intros (k & Hk & -> & [Hd1 Hd2]). inv_bind. exfalso.
    apply not_false_iff_true in E. apply E. apply handoff_known_false.
    rewrite fmap_app in Hd1. rewrite fmap_app in Hd2. apply NoDup_app in Hd1 as (_ & Hd1 & _), Hd2 as (_ & Hd2 & _).
    split; intros Hin; [eapply Hd1|eapply Hd2]; [exact Hin|by left|exact Hin|by left].
  - apply handoff_known_false in E as [E1 E2]. rewrite IH.
    + split.
      * intros (k & Hk & -> & Hd). exists (h :: k). rewrite Hk. by rewrite <- app_assoc in *.
      * intros (k & Hk & -> & Hd). inv_bind. eexists. split; [done|]. by rewrite <- app_assoc.
    + destruct Hl. split; rewrite fmap_app; by apply NoDup_snoc.
Qed.

Lemma live_and_terminal l : len l = control_live (mkControl l) + terminal_handoffs l.
Proof.
  unfold control_live, terminal_handoffs. cbn. induction l as [|h l IH]; [done|]. rewrite !filter_cons.
  destruct (is_terminal_handoff h); repeat case_decide; try done; rewrite ?len_cons; lia.
Qed.

Lemma entries_sorted l :
  StronglySorted (fun a b => key_cmp a b = Lt) (handoff_key pc <$> l) -> sort_by (canonical_order pc) l = l.
Proof. intros H. apply sort_by_sorted. by apply StronglySorted_keys in H. Qed.

Lemma sort_entries_sorted l :
  NoDup (handoff_key pc <$> l) ->
  StronglySorted (fun a b => key_cmp a b = Lt) (handoff_key pc <$> sort_by (canonical_order pc) l).
Proof.
  intros Hn. apply StronglySorted_keys. apply (sort_by_keys (canonical_order pc)) with (key := handoff_key pc).
  - intros x y. apply (key_cmp_antisym (handoff_key pc x) (handoff_key pc y)).
  - intros x y z. apply (key_cmp_trans (handoff_key pc x) (handoff_key pc y) (handoff_key pc z)).
  - intros x y Hxy. by apply key_cmp_eq.
  - done.
Qed.

(** Some bound on the sequences always fits. *)
Lemma newest_exists l :
  exists n, Forall (fun h => h_sequence h < n) l /\ (n = 0 /\ l = [] \/ (n - 1) ∈ (h_sequence <$> l)).
Proof.
  destruct (max_of (h_sequence <$> l)) as [m|] eqn:E.
  - apply max_of_Some in E as [Hin Hle]. exists (m + 1). split.
    + apply Forall_forall. intros h Hh. assert (h_sequence h <= m); [|lia]. apply Hle. by apply list_elem_of_fmap_2.
    + right. by replace (m + 1 - 1) with m by lia.
  - apply max_of_None in E. destruct l; [|done]. exists 0. split; [constructor|by left].
Qed.
Lemma control_inv_fits n o :
  control_inv pc n o -> exists bs, control_encode_state pc o = Ok bs.
Proof.
  intros [[E1 E2 E3 E4 E6 E5] Ht]. unfold control_encode_state.
  change (control_live (mkControl (handoffs o))) with (control_live o) in E5.
  case_test; [exfalso; apply orb_true_iff in G as [G|G]; bool_prop; lia|]. rewrite entries_sorted by done.
  pose proof (live_and_terminal (handoffs o)) as Hlen. change (control_live (mkControl (handoffs o))) with (control_live o) in Hlen.
  unfold u8_try_from. rewrite (proj2 (Z.leb_le _ _)) by (unfold MAX_LIVE_HANDOFFS, MAX_TERMINAL_HANDOFFS, u8_max in *; lia).
  cbn [ok_or mbind result_bind].
  destruct (gput_many_fits (put_item := put_handoff) (handoffs o)) as [bs Hbs]; [|rewrite Hbs; cbn; eauto].
  eapply Forall_impl; [exact E1|]. intros h (Hm & _ & Hp & Hc & _). unfold put_handoff.
  apply member_ok_spec in Hm as [Hi Hd]. unfold MAX_IDENTITY_LEN, MAX_DEVICE_LEN, u32_max in *.
  do 4 (rewrite gput_lp_fits by (unfold u32_max; lia); cbn [mbind result_bind]). eauto.
Qed.

Lemma control_encode_Ok o bs :
  control_encode_state pc o = Ok bs ->
  control_live o <= MAX_LIVE_HANDOFFS /\ terminal_handoffs (handoffs o) <= MAX_TERMINAL_HANDOFFS /\
  exists body, gput_many put_handoff (sort_by (canonical_order pc) (handoffs o)) = Ok body /\
    bs = CONTROL_DOMAIN ++ byte_of (len (handoffs o)) :: body.
Proof.
  unfold control_encode_state. intros H. inv_bind. bool_prop. split_and!; [lia|lia|].
  match goal with E : u8_try_from _ = Some ?z |- _ => unfold u8_try_from in E; inv_bind end.
  eexists. split; [reflexivity|].
  pose proof (len_perm _ _ (sort_by_perm (canonical_order pc) (handoffs o))) as ->. done.
Qed.

Lemma count_byte l :
  control_live (mkControl l) <= MAX_LIVE_HANDOFFS -> terminal_handoffs l <= MAX_TERMINAL_HANDOFFS ->
  byte_val (byte_of (len l)) = len l /\ len l <= MAX_LIVE_HANDOFFS + MAX_TERMINAL_HANDOFFS.
Proof.
  intros H1 H2. pose proof (live_and_terminal l). pose proof (len_nonneg l).
  unfold MAX_LIVE_HANDOFFS, MAX_TERMINAL_HANDOFFS in *. rewrite byte_val_of, Z.mod_small; lia.
Qed.
End Checkpoint.

(** The checkpoint, read. *)
Lemma control_decode_exact pc bs o :
  control_decode_state pc bs = Ok o <-> (exists n, control_inv pc n o) /\ control_encode_state pc o = Ok bs.
Proof.
  unfold control_decode_state. split.
  - intros H. destruct (starts_with CONTROL_DOMAIN bs) eqn:Gs; cbn [negb] in H; [|done].
    apply starts_with_true in Gs as [rest ->]. rewrite drop_app_length in H. cbv zeta in H.
    destruct (gtake_byte rest) as [[count cursor]|] eqn:Ec; [|done]. cbn [mbind result_bind] in H.
    apply gtake_byte_inv in Ec as ->. destruct (_ >? _); [done|].
    destruct (take_handoffs pc (Z.to_nat (byte_val count)) [] cursor) as [[l rest]|] eqn:Et; [|done].
    cbn [mbind result_bind] in H. destruct rest; [|done].
    apply take_handoffs_spec in Et as (k & Hk & -> & [Hd1 Hd2]); [|split; constructor]. cbn [app] in *.
    destruct (control_encode_state pc (mkControl k)) as [canonical|] eqn:Ee; [|done]. cbn [mbind result_bind] in H.
    destruct (bool_decide (canonical = _)) eqn:Eb; cbn [negb] in H; [|done]. bool_prop. subst. inv_bind.
    split; [|exact Ee]. destruct (control_encode_Ok _ _ _ Ee) as (Hlive & Hterm & body & Hbody & Hbs). cbn [handoffs] in *.
    apply app_inv_head in Hbs. injection Hbs as -> <-.
    pose proof (gput_many_take (wf := handoff_ok) (put_item := put_handoff) _ _ _ _ Hk) as (Hlen & Hall & _).
    pose proof (gtake_many_put (wf := handoff_ok) (put_item := put_handoff) (take_item := take_handoff)
      (sort_by (canonical_order pc) k) cursor [] ltac:(by rewrite sort_by_perm) Hbody) as Hk2.
    rewrite app_nil_r, (Permutation_length (sort_by_perm (canonical_order pc) k)), Hlen, Hk in Hk2.
    injection Hk2 as Hk2. pose proof (sort_entries_sorted pc k Hd2) as Hsort. rewrite <- Hk2 in Hsort.
    destruct (newest_exists k) as (n & Hn1 & Hn2). exists n. split; [|done]. by split.
  - intros [[n [Hi Ht]] He]. pose proof Hi as [E1 E2 E3 E4 E6 E5].
    destruct (control_encode_Ok _ _ _ He) as (Hlive & Hterm & body & Hbody & ->).
    rewrite entries_sorted in Hbody by done. destruct o as [l]. cbn [handoffs] in *.
    destruct (count_byte l E5 Ht) as [Hb Hlen].
    rewrite starts_with_app. cbn [negb]. rewrite drop_app_length. cbv zeta. rewrite gtake_byte_app. cbn [mbind result_bind].
    rewrite Hb. case_test; [bool_prop; lia|]. rewrite to_nat_len.
    rewrite (proj2 (take_handoffs_spec pc (length l) [] body l [] ltac:(split; constructor))).
    + cbn [mbind result_bind]. rewrite He. cbn [mbind result_bind]. by rewrite bool_decide_eq_true_2.
    + exists l. split; [|split; [done|split; [done|by apply key_lt_NoDup]]].
      rewrite <- (app_nil_r body). by apply (gtake_many_put (wf := handoff_ok) (put_item := put_handoff)).
Qed.

(** ** Properties *)

(** C34. Controls are resent byte for byte and a bounded number of times: from
    the empty outbox, over any sequence (of at most u64::MAX) preparations of
    payloads and ciphertexts within their length fields for well-formed members,
    reservations, acceptances and cancellations, at most eight entries are live
    and sixteen terminal ones retained, every entry has its own recipient and
    payload commitment and its own sequence, and what the reservations hand out
    is one to three attempts per prepared entry, in ascending order, all with
    the recipient, the payload and the ciphertext that one preparation recorded;
    reclaiming never lets a sequence be issued twice. After a recipient's
    controls are cancelled only revocations can be reserved for it. *)
Theorem control_handoffs_exact pc ops o outs :
  Forall control_op_ok ops -> len ops <= u64_max -> control_run pc control_default ops = (o, outs) ->
  (exists n, control_inv pc n o) /\
  StronglySorted resends outs /\
  Forall (fun b => 1 <= h_attempts b <= MAX_ATTEMPTS /\
    KPrepare (h_recipient b) (h_payload b) (h_ciphertext b) ∈ ops) outs /\
  (forall m p o' h, control_reserve pc (cancel_non_revocation_for_recipient o m) m p = Ok (o', h) ->
     is_revocation (h_payload h) = true).
Proof.
  intros Hops Hlen H.
  destruct (control_run_spec pc ops 0 control_default o outs (control_default_inv pc) ltac:(lia) Hops H)
    as ((n & _ & Hi) & Hs & Ha).
  split_and!; [by exists n|done| |].
  - eapply Forall_impl; [exact Ha|]. intros b [Hb [(k & Hk%elem_of_nil & _)|[_ Hin]]]; done.
  - intros m p o' h. unfold control_reserve. intros Hr. inv_bind.
    match goal with E : find_handoff _ _ _ _ = Some _ |- _ => apply find_handoff_Some in E as (Hl & Hm & _) end.
    apply list_elem_of_lookup_2 in Hl. apply reclaim_from in Hl. apply list_elem_of_fmap in Hl as (k & -> & _).
    destruct (cancel_handoff_same pc m k) as (_ & _ & _ & Hp & Hrec & _). rewrite Hrec in Hm.
    destruct (is_revocation (h_payload k)) eqn:Er.
    + destruct (h_disposition (cancel_handoff m k)); try done; inv_bind; cbn; by rewrite Hp.
    + exfalso. unfold cancel_handoff in Hr. rewrite bool_decide_eq_true_2, Er in Hr by done. cbn in Hr.
      by destruct (h_disposition k).
Qed.

(** A run for the witness: one roster control for [ana], reserved until refused. *)
Definition roster_control : bytes := match payload_encode (PRoster genesis) with Ok bs => bs | Err _ => [] end.
Definition control_ops : list ControlOp :=
  [KPrepare ana roster_control (bstr "sealed"); KReserve ana roster_control; KReserve ana roster_control;
   KPrepare ana roster_control (bstr "other"); KReserve ana roster_control; KReserve ana roster_control].

Lemma control_handoffs_exact_witness :
  let run := control_run (fun b => b) control_default control_ops in
  (h_ciphertext <$> run.2) = replicate 3 (bstr "sealed") /\
  (exists n, control_inv (fun b => b) n run.1) /\
  StronglySorted resends run.2 /\
  Forall (fun b => 1 <= h_attempts b <= MAX_ATTEMPTS /\
    KPrepare (h_recipient b) (h_payload b) (h_ciphertext b) ∈ control_ops) run.2 /\
  (forall m p o' h, control_reserve (fun b => b) (cancel_non_revocation_for_recipient run.1 m) m p = Ok (o', h) ->
     is_revocation (h_payload h) = true).
Proof.
  cbv zeta. split; [vm_compute; reflexivity|]. apply (control_handoffs_exact (fun b => b) control_ops).
  - repeat constructor; vm_compute; done.
  - vm_compute. done.
  - vm_compute. reflexivity.
Defined.

(** The control checkpoint is exact: a byte string restores to an outbox
    exactly when it is that outbox's checkpoint and the outbox is within its
    bounds, in canonical order, with distinct keys and sequences, with only
    control payloads and with attempts that fit every disposition; and every
    outbox a run can reach has one.  So no altered checkpoint loads, and what
    was saved is what comes back. *)
Lemma control_checkpoint_exact pc bs o :
  (control_decode_state pc bs = Ok o <->
   (exists n, control_inv pc n o) /\ control_encode_state pc o = Ok bs) /\
  (forall n, control_inv pc n o -> exists bs', control_encode_state pc o = Ok bs').
Proof. split; [apply control_decode_exact|intros n; apply control_inv_fits]. Qed.
