(* ===== verification/DeferredRosters.v ===== *)
(** * DeferredRosters: roster controls held until their predecessor arrives
    ([tacenta-client/src/group_deferred_rosters.rs])

    The queue of decrypted roster controls that reached a member ahead of their
    predecessor, and the record ([TCGQ]) it is kept in.  The record's readers
    are the source's own slices; rosters are read by the canonical codec. *)

From S2P Require Import Prelude GroupCodec RosterView.

Definition MAX_DEFERRED_ROSTERS : Z := 4.
Definition HOLD_AHEAD : Z := 4.
Definition TCGQ : bytes := bstr "TCGQ".
Arguments TCGQ : simpl never.

Inductive Hold := Held | HoldDuplicate | HoldRefused.

#[global] Instance Hold_eq_dec : EqDecision Hold.
Proof. solve_decision. Defined.

Record DeferredRosters := mkDeferredRosters { rosters : list Roster }.

#[global] Instance DeferredRosters_eq_dec : EqDecision DeferredRosters.
Proof. solve_decision. Defined.

Definition deferred_default : DeferredRosters := mkDeferredRosters [].

(** [find(|held| held.revision == revision)]. *)
Definition held_for (q : DeferredRosters) (rev : Z) : option Roster :=
  snd <$> list_find (fun held => revision held = rev) (rosters q).

Definition by_revision (a b : Roster) : comparison := revision a ?= revision b.

Definition hold (q : DeferredRosters) (r : Roster) : DeferredRosters * Hold :=
  match held_for q (revision r) with
  | Some existing => (q, if bool_decide (existing = r) then HoldDuplicate else HoldRefused)
  | None =>
      if len (rosters q) =? MAX_DEFERRED_ROSTERS then (q, HoldRefused) else
      (mkDeferredRosters (sort_by by_revision (rosters q ++ [r])), Held)
  end.

(** [is_some_and] of [last]; [pop]. *)
Definition below_highest (q : DeferredRosters) (r : Roster) : bool :=
  match last (rosters q) with Some highest => revision r <? revision highest | None => false end.

Definition hold_keeping_lowest (q : DeferredRosters) (r : Roster) : DeferredRosters * Hold :=
  let q :=
    if (len (rosters q) =? MAX_DEFERRED_ROSTERS)
       && negb (existsb (fun held => revision held =? revision r) (rosters q))
       && below_highest q r
    then mkDeferredRosters (removelast (rosters q)) else q in
  hold q r.

Definition prune_through (q : DeferredRosters) (rev : Z) : DeferredRosters :=
  mkDeferredRosters (filter (fun held => revision held > rev) (rosters q)).

Definition deferred_remove (q : DeferredRosters) (rev : Z) : DeferredRosters :=
  mkDeferredRosters (filter (fun held => revision held <> rev) (rosters q)).

Definition follows_view (v : RosterView) (held : Roster) : Prop :=
  Some (revision held) = checked_add64 (revision (v_roster v)) 1 /\ predecessor_digest held = v_digest v.

#[global] Instance follows_view_dec v held : Decision (follows_view v held).
Proof. unfold follows_view. apply _. Defined.

Definition next_for (q : DeferredRosters) (v : RosterView) : option Roster :=
  snd <$> list_find (follows_view v) (rosters q).

(** ** The record *)
Definition put_deferred_roster (r : Roster) : result Error bytes :=
  preimage ← roster_encode r;
  length ← ok_or Malformed (u32_try_from (len preimage));
  Ok (be32 length ++ preimage).

Definition deferred_encode_record (q : DeferredRosters) (group_id : GroupId) : result Error bytes :=
  count ← ok_or Malformed (u8_try_from (len (rosters q)));
  body ← gput_many put_deferred_roster (rosters q);
  Ok (TCGQ ++ group_id ++ [byte_of count] ++ body).

(** [split_first]. *)
Definition split_first (bs : bytes) : option (byte * bytes) :=
  match bs with [] => None | b :: bs => Some (b, bs) end.

Definition take_deferred_roster (rest : bytes) : result Error (Roster * bytes * bytes) :=
  '(length, tail) ← ok_or Malformed (split_at_checked 4 rest);
  length ← ok_or Malformed (to_array 4 length);
  '(preimage, tail) ← ok_or Malformed (split_at_checked (be_value length) tail);
  r ← roster_decode preimage;
  Ok (r, preimage, tail).

(** The loop over the controls; [l] holds the ones read so far. *)
Fixpoint take_deferred_rosters (group_id : GroupId) (pinned : Member) (count : nat) (l : list Roster)
    (rest : bytes) : result Error (list Roster * bytes) :=
  match count with
  | O => Ok (l, rest)
  | S count =>
      '(r, preimage, tail) ← take_deferred_roster rest;
      if negb (bool_decide (r_group_id r = group_id)) || negb (bool_decide (authority r = pinned))
         || match last l with Some previous => revision previous >=? revision r | None => false end
      then Err NonCanonical else
      again ← roster_encode r;
      if negb (bool_decide (again = preimage)) then Err NonCanonical else
      take_deferred_rosters group_id pinned count (l ++ [r]) tail
  end.

Definition deferred_decode_record (record : bytes) (group_id : GroupId) (pinned : Member)
    : result Error DeferredRosters :=
  input ← ok_or Malformed (strip_prefix TCGQ record);
  '(recorded, rest) ← ok_or Malformed (split_at_checked GROUP_ID_LEN input);
  if negb (bool_decide (recorded = group_id)) then Err Malformed else
  '(count, rest) ← ok_or Malformed (split_first rest);
  if byte_val count >? MAX_DEFERRED_ROSTERS then Err Malformed else
  '(l, rest) ← take_deferred_rosters group_id pinned (Z.to_nat (byte_val count)) [] rest;
  match rest with _ :: _ => Err Malformed | [] => Ok (mkDeferredRosters l) end.

(** ** The order of the queue *)
Definition ascending (l : list Roster) : Prop := StronglySorted (fun a b => revision a < revision b) l.

Definition deferred_inv (q : DeferredRosters) : Prop :=
  ascending (rosters q) /\ len (rosters q) <= MAX_DEFERRED_ROSTERS.

Lemma by_revision_lt a b : by_revision a b = Lt <-> revision a < revision b.
Proof. apply Z.compare_lt_iff. Qed.

Lemma ascending_keys l : ascending l <-> StronglySorted (fun a b => by_revision a b = Lt) l.
Proof.
  unfold ascending. induction l as [|x l IH]; [split; constructor|]. rewrite !StronglySorted_cons, IH.
  assert (Forall (fun b => revision x < revision b) l <-> Forall (fun b => by_revision x b = Lt) l) as ->; [|done].
  rewrite !Forall_forall. split; intros H y Hy; specialize (H y Hy); by apply by_revision_lt in H || apply by_revision_lt.
Qed.

Lemma ascending_NoDup l : ascending l -> NoDup (revision <$> l).
Proof.
  induction 1 as [|x l _ IH Hx]; cbn; constructor; [|done]. intros (y & Hxy & Hy)%list_elem_of_fmap.
  rewrite Forall_forall in Hx. specialize (Hx y Hy). lia.
Qed.

Lemma sort_ascending l : NoDup (revision <$> l) -> ascending (sort_by by_revision l).
Proof.
  intros Hl. apply ascending_keys. apply (sort_by_keys by_revision) with (key := revision).
  - intros x y. apply Z.compare_antisym.
  - intros x y z. rewrite !by_revision_lt. lia.
  - intros x y. apply Z.compare_eq.
  - done.
Qed.

Lemma held_for_Some q rev r : held_for q rev = Some r -> r ∈ rosters q /\ revision r = rev.
Proof.
  unfold held_for. intros ([i x] & Hf & ->)%fmap_Some. apply list_find_Some in Hf as (Hi & ? & _).
  split; [by eapply list_elem_of_lookup_2|done].
Qed.

Lemma held_for_None q rev : held_for q rev = None -> ~ (rev ∈ (revision <$> rosters q)).
Proof.
  unfold held_for. intros Hf. apply list_find_absent. by destruct (list_find _ _) as [[? ?]|].
Qed.

Lemma existsb_revision l rev : existsb (fun held => revision held =? rev) l = true <-> rev ∈ (revision <$> l).
Proof.
  rewrite existsb_exists. split.
  - intros (x & Hx & He). bool_prop. subst. apply list_elem_of_fmap_2. by apply list_elem_of_In.
  - intros (x & -> & Hx)%list_elem_of_fmap. exists x. split; [by apply list_elem_of_In|apply Z.eqb_refl].
Qed.

(** The highest of an ascending list is the last. *)
Lemma ascending_last l r : ascending l -> last l = Some r ->
  exists l', l = l' ++ [r] /\ removelast l = l' /\ ascending l' /\ forall x, x ∈ l' -> revision x < revision r.
Proof.
  intros Ha Hl. apply last_Some in Hl as [l' ->]. exists l'. split_and!; [done|apply removelast_last| |].
  - by apply StronglySorted_app in Ha as (_ & ? & _).
  - intros x Hx. apply StronglySorted_app in Ha as (Ha & _). apply Ha; [done|by left].
Qed.

(** What [hold] does, on every branch. *)
Lemma hold_spec q r : deferred_inv q ->
  let '(q', d) := hold q r in
  deferred_inv q' /\
  match d with
  | Held => rosters q' ≡ₚ r :: rosters q /\ ~ (revision r ∈ (revision <$> rosters q)) /\
      len (rosters q) < MAX_DEFERRED_ROSTERS
  | HoldDuplicate => q' = q /\ r ∈ rosters q
  | HoldRefused => q' = q /\ ~ (r ∈ rosters q) /\
      (revision r ∈ (revision <$> rosters q) \/ len (rosters q) = MAX_DEFERRED_ROSTERS)
  end.
Proof.
  intros [Ha Hl]. unfold hold. destruct (held_for q (revision r)) as [x|] eqn:E.
  - apply held_for_Some in E as [Hx Hr]. split; [done|]. case_bool_decide as Hc; [by subst|].
    split_and!; [done| |left; rewrite <- Hr; by apply list_elem_of_fmap_2]. intros Hin. apply Hc.
    apply ascending_NoDup in Ha. apply list_elem_of_lookup in Hx as [i Hi], Hin as [j Hj].
    assert (i = j) as ->; [|congruence].
    eapply NoDup_lookup; [exact Ha| |]; rewrite list_lookup_fmap; [by rewrite Hi|rewrite Hj; cbn; by rewrite Hr].
  - apply held_for_None in E. destruct (len (rosters q) =? MAX_DEFERRED_ROSTERS) eqn:Ef; bool_prop.
    + split; [done|]. split_and!; [done| |by right]. intros Hin. apply E. by apply list_elem_of_fmap_2.
    + assert (rosters q ++ [r] ≡ₚ r :: rosters q) as Hp by (rewrite Permutation_app_comm; done).
      pose proof (sort_by_perm by_revision (rosters q ++ [r])) as Hs. split; [split|].
      * apply sort_ascending. rewrite fmap_app. apply NoDup_snoc; [done|by apply ascending_NoDup].
      * cbn. rewrite (len_perm _ _ Hs), len_app, len_cons, len_nil. lia.
      * cbn. split_and!; [by rewrite Hs|done|lia].
Qed.

(** ** Waiting for a view: the lowest revisions are kept *)
Definition hold_all (q : DeferredRosters) (arrivals : list Roster) : DeferredRosters :=
  fold_left (fun q r => (hold_keeping_lowest q r).1) arrivals q.

(** [r] is the first control to arrive for its revision. *)
Definition first_arrival (arrivals : list Roster) (r : Roster) : Prop :=
  exists before after, arrivals = before ++ r :: after /\ ~ (revision r ∈ (revision <$> before)).

(** A revision that arrived is held, or the queue is full of lower ones. *)
Definition kept_or_high (q : DeferredRosters) (rev : Z) : Prop :=
  rev ∈ (revision <$> rosters q) \/
  (len (rosters q) = MAX_DEFERRED_ROSTERS /\ forall h, h ∈ rosters q -> revision h < rev).

Record lowest_held (arrivals : list Roster) (q : DeferredRosters) : Prop := {
  lh_inv : deferred_inv q;
  lh_first h : h ∈ rosters q -> first_arrival arrivals h;
  lh_kept r : r ∈ arrivals -> kept_or_high q (revision r)
}.

Lemma first_arrival_snoc arrivals r h : first_arrival arrivals h -> first_arrival (arrivals ++ [r]) h.
Proof. intros (l1 & l2 & -> & Hn). exists l1, (l2 ++ [r]). split; [by rewrite <- app_assoc|done]. Qed.

Lemma first_arrival_new arrivals r :
  ~ (revision r ∈ (revision <$> arrivals)) -> first_arrival (arrivals ++ [r]) r.
Proof. intros Hn. by exists arrivals, []. Qed.

(** A revision outside a queue that is not full of lower ones never arrived. *)
Lemma not_arrived arrivals q rev :
  lowest_held arrivals q -> ~ (rev ∈ (revision <$> rosters q)) ->
  (len (rosters q) <> MAX_DEFERRED_ROSTERS \/ exists h, h ∈ rosters q /\ rev < revision h) ->
  ~ (rev ∈ (revision <$> arrivals)).
Proof.
  intros [_ _ Hk] Hn Hc (a & -> & Ha)%list_elem_of_fmap. destruct (Hk a Ha) as [?|[Hf Hlt]]; [done|].
  destruct Hc as [?|(h & Hh & Hlt')]; [done|]. specialize (Hlt h Hh). lia.
Qed.

(** The queue stays as it was: the arrival was known or too high. *)
Lemma lowest_same arrivals q r :
  lowest_held arrivals q -> kept_or_high q (revision r) -> lowest_held (arrivals ++ [r]) q.
Proof.
  intros [Hi Hf Hk] Hr. split; [done|intros h Hh; by apply first_arrival_snoc, Hf|].
  intros a [Ha|Ha%list_elem_of_singleton]%elem_of_app; [by apply Hk|by subst].
Qed.

(** The arrival is added to a queue with room. *)
Lemma lowest_added arrivals q r q' d :
  lowest_held arrivals q -> ~ (revision r ∈ (revision <$> rosters q)) -> len (rosters q) < MAX_DEFERRED_ROSTERS ->
  hold q r = (q', d) -> lowest_held (arrivals ++ [r]) q'.
Proof.
  intros H Hnin Hlt E. pose proof H as [Hi Hf Hk]. pose proof (hold_spec q r Hi) as Hs. rewrite E in Hs.
  destruct Hs as [Hi' Hs].
  destruct d; [|destruct Hs as [_ Hs]; destruct Hnin; by apply list_elem_of_fmap_2
              |destruct Hs as (_ & _ & [?|?]); [done|lia]].
  destruct Hs as (Hp & _). split; [done| |].
  - intros h. rewrite Hp. intros [->|Hh]%elem_of_cons; [|by apply first_arrival_snoc, Hf].
    apply first_arrival_new. apply (not_arrived arrivals q); [done|done|left; lia].
  - intros a [Haa| ->%list_elem_of_singleton]%elem_of_app; left; rewrite Hp; [|by left].
    destruct (Hk a Haa) as [Hin|[? _]]; [by right|lia].
Qed.

(** The arrival takes the highest one's place. *)
Lemma lowest_displaced arrivals q l' top r q' d :
  lowest_held arrivals q -> ~ (revision r ∈ (revision <$> rosters q)) -> len (rosters q) = MAX_DEFERRED_ROSTERS ->
  rosters q = l' ++ [top] -> revision r < revision top ->
  hold (mkDeferredRosters l') r = (q', d) -> lowest_held (arrivals ++ [r]) q'.
Proof.
  intros H Hnin El Hq Hlt E. pose proof H as [[Ha _] Hf Hk]. rewrite Hq in Ha.
  pose proof (proj1 (StronglySorted_app _ _ _) Ha) as (Hlow & Ha' & _).
  assert (len l' = 3) as Hl'.
  { rewrite Hq, len_app in El. unfold MAX_DEFERRED_ROSTERS in El. len_lia. }
  pose proof (hold_spec (mkDeferredRosters l') r) as Hs. rewrite E in Hs. cbn [rosters] in Hs.
  destruct Hs as [Hi' Hs]; [split; [done|cbn; rewrite Hl'; done]|].
  assert (~ (revision r ∈ (revision <$> l'))) as Hn1.
  { intros Hx. apply Hnin. rewrite Hq, fmap_app. apply elem_of_app. by left. }
  assert (top ∈ rosters q) as Htop by (rewrite Hq; apply elem_of_app; right; by left).
  destruct d; [|destruct Hs as [_ Hs]; destruct Hn1; by apply list_elem_of_fmap_2
              |destruct Hs as (_ & _ & [?|Hs]); [done|by rewrite Hl' in Hs]].
  destruct Hs as (Hp & _).
  assert (forall h, h ∈ rosters q' -> revision h < revision top) as Hbelow.
  { intros h. rewrite Hp. intros [->|Hh]%elem_of_cons; [done|apply Hlow; [done|by left]]. }
  assert (len (rosters q') = MAX_DEFERRED_ROSTERS) as Hfull by (rewrite (len_perm _ _ Hp), len_cons, Hl'; done).
  split; [done| |].
  - intros h. rewrite Hp. intros [->|Hh]%elem_of_cons.
    + apply first_arrival_new. apply (not_arrived arrivals q); [done|done|]. right. by exists top.
    + apply first_arrival_snoc, Hf. rewrite Hq. apply elem_of_app. by left.
  - intros a [Haa| ->%list_elem_of_singleton]%elem_of_app; [|left; rewrite Hp; by left].
    destruct (Hk a Haa) as [Hin|[_ Hhi]].
    + rewrite Hq, fmap_app in Hin. apply elem_of_app in Hin as [Hin|Hin%list_elem_of_singleton]; [left; rewrite Hp; by right|].
      right. split; [done|]. intros h Hh. rewrite Hin. by apply Hbelow.
    + right. split; [done|]. intros h Hh. specialize (Hhi top Htop). specialize (Hbelow h Hh). lia.
Qed.

Lemma lowest_step arrivals q r :
  lowest_held arrivals q -> lowest_held (arrivals ++ [r]) (hold_keeping_lowest q r).1.
Proof.
  intros H. pose proof H as [Hi Hf Hk]. pose proof Hi as [Ha Hl]. unfold hold_keeping_lowest.
  pose proof (hold_spec q r Hi) as Hs. pose proof (existsb_revision (rosters q) (revision r)) as Hex.
  destruct (existsb _ (rosters q)).
  - rewrite andb_false_r. cbn [andb]. assert (kept_or_high q (revision r)) as Hr by (left; by apply Hex).
    destruct (hold q r) as [q' d]. destruct Hs as [_ Hs].
    destruct d; [by destruct Hs as (_ & Hs & _); destruct Hs; apply Hex|destruct Hs as [-> _]|destruct Hs as (-> & _)];
      by apply lowest_same.
  - rewrite andb_true_r. assert (~ (revision r ∈ (revision <$> rosters q))) as Hnin by (intros Hx; by apply Hex in Hx).
    destruct (len (rosters q) =? MAX_DEFERRED_ROSTERS) eqn:El; bool_prop; cbn [andb].
    2: { destruct (hold q r) as [q' d] eqn:E. eapply lowest_added; [done|done|lia|done]. }
    unfold below_highest. destruct (last (rosters q)) as [top|] eqn:Et.
    2: { apply last_None in Et. rewrite Et in El. done. }
    destruct (ascending_last _ _ Ha Et) as (l' & Hq & Hrm & _ & Hlow).
    destruct (revision r <? revision top) eqn:Elt; bool_prop.
    + rewrite Hrm. destruct (hold (mkDeferredRosters l') r) as [q' d] eqn:E. eapply (lowest_displaced arrivals q l' top); done.
    + assert (kept_or_high q (revision r)) as Hhigh.
      { right. split; [done|]. intros h Hh. rewrite Hq in Hh. apply elem_of_app in Hh as [Hh|Hh%list_elem_of_singleton].
        - specialize (Hlow h Hh). lia.
        - subst h. assert (revision top <> revision r); [|lia]. intros Heq. apply Hnin. rewrite <- Heq, Hq, fmap_app.
          apply elem_of_app. right. by left. }
      destruct (hold q r) as [q' d]. destruct Hs as [_ Hs]. cbn [fst].
      destruct d; [destruct Hs as (_ & _ & ?); lia|destruct Hs as [-> _]|destruct Hs as (-> & _)]; by apply lowest_same.
Qed.

Lemma hold_all_lowest arrivals : lowest_held arrivals (hold_all deferred_default arrivals).
Proof.
  induction arrivals as [|r arrivals IH] using rev_ind.
  - split; [split; [constructor|done]| |]; cbn; intros h Hh; by apply elem_of_nil in Hh.
  - unfold hold_all in *. rewrite fold_left_app. by apply lowest_step.
Qed.

(** ** The record *)
Lemma take_deferred_roster_spec rest r preimage tail :
  take_deferred_roster rest = Ok (r, preimage, tail) <->
  roster_wf r /\ roster_encode r = Ok preimage /\ rest = be32 (len preimage) ++ preimage ++ tail.
Proof.
  unfold take_deferred_roster. split.
  - intros H. inv_bind.
    match goal with E : roster_decode _ = Ok _ |- _ => apply roster_decode_encode in E as [Hwf He] end.
    repeat match goal with
    | E : to_array _ _ = Some _ |- _ => apply to_array_Some in E as [-> ?]
    | E : split_at_checked 4 _ = Some _ |- _ => apply split_at_checked_Some in E as [-> Hl]; [|done]
    end.
    match goal with E : split_at_checked (be_value ?a) _ = Some _ |- _ =>
      pose proof (be_value_range a); apply split_at_checked_Some in E as [-> Hv]; [|lia] end.
    split_and!; [done|done|]. rewrite Hv, be_bytes_be_value; [done|]. unfold len in *. lia.
  - intros (Hwf & He & ->). pose proof (roster_encode_bound _ _ Hwf He) as Hb. pose proof (len_nonneg preimage) as Hn.
    rewrite split_at_checked_app by (by rewrite len_be_bytes). cbn [ok_or mbind result_bind].
    rewrite to_array_len by (by rewrite len_be_bytes). cbn [ok_or mbind result_bind]. unfold MAX_ROSTER_LEN in *.
    rewrite be_value_be_bytes by (change (256 ^ Z.of_nat 4) with 4294967296; lia).
    rewrite split_at_checked_app by done. cbn [ok_or mbind result_bind].
    by rewrite (proj2 (roster_decode_encode _ r)).
Qed.

Lemma put_deferred_roster_Ok r bs : roster_wf r ->
  put_deferred_roster r = Ok bs <-> exists preimage, roster_encode r = Ok preimage /\ bs = be32 (len preimage) ++ preimage.
Proof.
  intros Hwf. unfold put_deferred_roster. split.
  - intros H. inv_bind. match goal with E : u32_try_from _ = Some _ |- _ => unfold u32_try_from in E; inv_bind end. eauto.
  - intros (pre & He & ->). rewrite He. cbn [mbind result_bind].
    pose proof (roster_encode_bound _ _ Hwf He) as Hb. unfold MAX_ROSTER_LEN, u32_try_from in *.
    by rewrite (proj2 (Z.leb_le (len pre) u32_max)) by (unfold u32_max; lia).
Qed.

(** What a held control must be. *)
Definition held_ok (group_id : GroupId) (pinned : Member) (r : Roster) : Prop :=
  roster_wf r /\ r_group_id r = group_id /\ authority r = pinned.

Lemma ascending_snoc l r :
  ascending l -> (ascending (l ++ [r]) <-> match last l with Some p => revision p < revision r | None => True end).
Proof.
  intros Ha. unfold ascending. rewrite StronglySorted_app. destruct (last l) as [top|] eqn:E.
  - destruct (ascending_last _ _ Ha E) as (l' & -> & _ & _ & Hlow). split.
    + intros (H & _). apply H; [apply elem_of_app; right; by left|by left].
    + intros Hlt. split; [|split; [done|repeat constructor]]. intros x y Hx ->%list_elem_of_singleton.
      apply elem_of_app in Hx as [Hx|Hx%list_elem_of_singleton]; [specialize (Hlow x Hx); lia|by subst].
  - apply last_None in E as ->. split; [done|]. intros _. split; [by intros x y Hx%elem_of_nil|]. split; [done|repeat constructor].
Qed.

Lemma take_deferred_rosters_spec g p n : forall l input l' rest, ascending l ->
  take_deferred_rosters g p n l input = Ok (l', rest) <->
  exists k bs, length k = n /\ l' = l ++ k /\ gput_many put_deferred_roster k = Ok bs /\ input = bs ++ rest /\
    Forall (held_ok g p) k /\ ascending l'.
Proof.
  induction n as [|n IH]; intros l input l' rest Ha; cbn [take_deferred_rosters].
  { split.
    - intros [= <- <-]. exists [], []. split_and!; try done. by rewrite app_nil_r.
    - intros (k & bs & Hk & -> & Hb & -> & _). destruct k; [|done]. injection Hb as <-. by rewrite app_nil_r. }
  split.
  - intros H. destruct (take_deferred_roster input) as [[[r pre] tail]|] eqn:E; [|done]. cbn [mbind result_bind] in H.
    apply take_deferred_roster_spec in E as (Hwf & He & ->).
    destruct (_ || match last l with _ => _ end) eqn:G in H; [done|]. bool_prop.
    rewrite He in H. cbn [mbind result_bind] in H. rewrite bool_decide_eq_true_2 in H by done. cbn [negb] in H.
    apply IH in H as (k & bs & <- & -> & Hk & -> & Hall & Hasc).
    2: { apply ascending_snoc; [done|]. destruct (last l); [|done]. bool_prop. done. }
    exists (r :: k), (be32 (len pre) ++ pre ++ bs). split_and!; try done.
    + by rewrite <- app_assoc.
    + cbn. rewrite (proj2 (put_deferred_roster_Ok r (be32 (len pre) ++ pre) Hwf)) by eauto. cbn. rewrite Hk. cbn. by rewrite <- app_assoc.
    + by rewrite <- !app_assoc.
    + by constructor.
  - intros ([|r k] & bs & Hn & -> & Hk & -> & Hall & Hasc); [done|]. cbn in Hk. inv_bind.
    apply Forall_cons in Hall as [(Hwf & Hg & Hp) Hall].
    match goal with E : put_deferred_roster r = Ok _ |- _ => apply (put_deferred_roster_Ok r _ Hwf) in E as (pre & He & ->) end.
    rewrite <- !app_assoc. rewrite (proj2 (take_deferred_roster_spec _ _ _ _) (conj Hwf (conj He eq_refl))). cbn [mbind result_bind].
    rewrite !bool_decide_eq_true_2 by done. cbn [negb orb].
    change (r :: k) with ([r] ++ k) in Hasc. rewrite app_assoc in Hasc.
    pose proof (proj1 (StronglySorted_app _ _ _) Hasc) as (_ & Hasc' & _). pose proof (proj1 (ascending_snoc l r Ha) Hasc') as Hlast.
    assert (match last l with Some previous => revision previous >=? revision r | None => false end = false) as ->.
    { destruct (last l); [|done]. rewrite Z.geb_leb. apply Z.leb_gt. lia. }
    rewrite He. cbn [mbind result_bind]. rewrite bool_decide_eq_true_2 by done. cbn [negb].
    apply IH; [by apply ascending_snoc|]. eexists k, _. cbn in Hn. split_and!; first [done|lia|by rewrite <- app_assoc|by rewrite <- app_assoc in Hasc].
Qed.

(** What a record may restore. *)
Definition deferred_ok (g : GroupId) (pinned : Member) (q : DeferredRosters) : Prop :=
  deferred_inv q /\ len g = GROUP_ID_LEN /\ Forall (held_ok g pinned) (rosters q).

Lemma deferred_decode_exact record g pinned q :
  len g = GROUP_ID_LEN ->
  deferred_decode_record record g pinned = Ok q <->
  deferred_ok g pinned q /\ deferred_encode_record q g = Ok record.
Proof.
  intros Hg. unfold deferred_decode_record, deferred_encode_record. split.
  - intros H. inv_bind. bool_prop. subst.
    match goal with E : strip_prefix _ _ = Some _ |- _ => apply strip_prefix_exact in E as -> end.
    match goal with E : split_at_checked _ _ = Some _ |- _ => apply split_at_checked_Some in E as [-> _]; [|done] end.
    match goal with E : split_first ?l = Some _ |- _ => destruct l as [|c cursor]; [done|]; cbn in E; inv_bind end.
    match goal with E : take_deferred_rosters _ _ _ _ _ = Ok _ |- _ =>
      apply take_deferred_rosters_spec in E as (k & bs & Hk & -> & Hb & -> & Hall & Hasc); [|constructor] end.
    cbn [app rosters] in *. pose proof (byte_val_range b) as Hr.
    assert (len k = byte_val b) as Hlen by (by apply count_of_length; [lia|]).
    split; [split_and!; [split; [done|cbn; lia]|done|done]|].
    unfold u8_try_from. rewrite Hlen, (proj2 (Z.leb_le _ _)) by (unfold u8_max; lia). cbn [ok_or mbind result_bind].
    rewrite Hb. cbn [mbind result_bind]. by rewrite byte_of_val, app_nil_r.
  - intros [[[Ha Hl] [_ Hall]] H]. inv_bind. unfold u8_try_from in *. inv_bind. bool_prop.
    rewrite (proj2 (strip_prefix_exact _ _ _) eq_refl). cbn [ok_or mbind result_bind]. rewrite split_at_checked_app by done.
    cbn [ok_or mbind result_bind]. rewrite bool_decide_eq_true_2 by done. cbn [negb app split_first ok_or mbind result_bind].
    pose proof (len_nonneg (rosters q)) as Hn. unfold MAX_DEFERRED_ROSTERS in *.
    assert (byte_val (byte_of (len (rosters q))) = len (rosters q)) as -> by (rewrite byte_val_of, Z.mod_small; lia).
    rewrite Z.gtb_ltb, (proj2 (Z.ltb_ge _ _)) by lia.
    rewrite (proj2 (take_deferred_rosters_spec g pinned _ [] _ (rosters q) [] ltac:(constructor))).
    { cbn [mbind result_bind]. by destruct q. }
    eexists (rosters q), _. split_and!; [by rewrite to_nat_len|done|done|by rewrite app_nil_r|done|done].
Qed.

(** ** Properties *)

(** A device waiting for its group's view keeps exactly the controls that
    can still chain from whatever roster it joins at: after any sequence of
    arrivals the queue holds at most four controls in strictly ascending
    revision, each the first control that arrived for its revision (a fork
    never replaces it), and every revision that arrived but is not held lies
    above all four held ones.  The record of a queue is exact: a byte string
    restores to a queue, for a group and a pinned authority, exactly when it is
    the queue's record and the queue is ascending, within its bound, and of
    valid-range rosters of that group and authority. *)
Lemma deferred_rosters_exact arrivals record g pinned q :
  len g = GROUP_ID_LEN ->
  (let held := rosters (hold_all deferred_default arrivals) in
   ascending held /\ len held <= MAX_DEFERRED_ROSTERS /\
   (forall h, h ∈ held -> first_arrival arrivals h) /\
   (forall r, r ∈ arrivals -> revision r ∈ (revision <$> held) \/
      (len held = MAX_DEFERRED_ROSTERS /\ forall h, h ∈ held -> revision h < revision r))) /\
  (deferred_decode_record record g pinned = Ok q <->
   deferred_ok g pinned q /\ deferred_encode_record q g = Ok record).
Proof.
  intros Hg. split; [|by apply deferred_decode_exact].
  destruct (hold_all_lowest arrivals) as [[Ha Hl] Hf Hk]. by split_and!.
Qed.

(** Successors of the genesis roster, for the witness. *)
Definition numbered (rev : Z) : Roster :=
  mkRoster (replicate 16 x07) rev (replicate 32 x09) ana POLICY_VERSION_V1 false [ana].

