(* ===== verification/GroupRecords.v ===== *)
(** * GroupRecords: what a group commit writes into the snapshot
    ([tacenta-client/src/group_operations.rs])

    The records of the [inbox], [dedup] and [group_controls] collections, the
    bounds these are kept within, and the readers recovery and redelivery use.
    The payload and roster commitments are the standalone core's. *)

From S2P Require Import Prelude GroupCodec RosterView GroupReceive GroupSend OperationStore DeferredRosters GroupTranscript.

Definition MAX_GROUP_CONTROL_RECORDS : Z := 64.
Definition MAX_INBOX_RECORDS : Z := 64.
Definition MAX_DEDUP_RECORDS : Z := 512.

Definition TCGV : bytes := bstr "TCGV".
Definition TCGB : bytes := bstr "TCGB".
Definition TCGO : bytes := bstr "TCGO".
Definition TCGS : bytes := bstr "TCGS".
Definition TCGR : bytes := bstr "TCGR".
Definition TCGM : bytes := bstr "TCGM".
Definition TCGC : bytes := bstr "TCGC".
Definition TCGE : bytes := bstr "TCGE".
Arguments TCGV : simpl never.
Arguments TCGB : simpl never.
Arguments TCGO : simpl never.
Arguments TCGS : simpl never.
Arguments TCGR : simpl never.
Arguments TCGM : simpl never.
Arguments TCGC : simpl never.
Arguments TCGE : simpl never.

Definition CHECKPOINT_TAGS : list bytes := [TCGV; TCGB; TCGO; TCGX; TCGQ; TCGS].

Inductive CryptoStateEffect := EUnchanged | EAdvanced | ETerminal.

#[global] Instance CryptoStateEffect_eq_dec : EqDecision CryptoStateEffect.
Proof. solve_decision. Defined.

(** ** Writing records *)
Definition effect_code (e : CryptoStateEffect) : byte :=
  match e with EUnchanged => x00 | EAdvanced => x01 | ETerminal => x02 end.

Definition receive_refusal_code (r : ReceiveRefusal) : byte :=
  match r with
  | FMalformed => x00 | FWrongPeer => x01 | FWrongGroup => x02 | FWrongRecipient => x03
  | FNotActive => x04 | FOldRevision => x05 | FInvalidRoster => x06 | FFutureOutOfRange => x07
  | FSequenceExpired => x08 | FConflict => x09 | FDeferredFull => x0a
  end.

Definition roster_refusal_code (r : RosterRefusal) : byte :=
  match r with
  | WrongAuthority => x00 | WrongGroup => x01 | RInvalidGenesis => x02 | RStaleRevision => x03
  | MissingPredecessor => x04 | RConflict => x05 | AuthorityTransfer => x06 | PolicyChange => x07
  | Reopened => x08 | MissingAuthorityMember => x09 | InvalidSource => x0a
  end.

Definition disposition_bytes (d : ReceiveDisposition) : bytes :=
  match d with
  | DAccepted id => x00 :: be64 id
  | DDuplicate id => x01 :: be64 id
  | DDeferred => [x02]
  | DRejected r => [x03; receive_refusal_code r]
  end.

Definition encode_receive_record (e : CryptoStateEffect) (context commitment : bytes) (d : ReceiveDisposition)
    : result GroupOperationError bytes :=
  c ← put_lp context;
  Ok (TCGR ++ [effect_code e] ++ c ++ commitment ++ disposition_bytes d).

Definition encode_roster_record (preimage commitment : bytes) (d : RosterDisposition)
    : result GroupOperationError bytes :=
  p ← put_lp preimage;
  Ok (TCGC ++ p ++ commitment ++
      match d with
      | RosterAccepted => [x00]
      | RosterDuplicate => [x01]
      | RosterRejected r => [x02; roster_refusal_code r]
      end).

Definition encode_control_effect_record (e : CryptoStateEffect) : bytes := TCGE ++ [effect_code e].

(** The three checkpoints, and reading them back. *)
Definition encode_checkpoint_record (tag state : bytes) : result GroupOperationError bytes :=
  length ← ok_or Policy (u32_try_from (len state));
  Ok (tag ++ be32 length ++ state).

Definition encode_roster_view_record : bytes -> result GroupOperationError bytes := encode_checkpoint_record TCGV.
Definition encode_invitation_book_record : bytes -> result GroupOperationError bytes := encode_checkpoint_record TCGB.
Definition encode_control_outbox_record : bytes -> result GroupOperationError bytes := encode_checkpoint_record TCGO.

Definition decode_checkpoint_record (tag record : bytes) : result GroupOperationError bytes :=
  if negb (starts_with tag record) then Err Policy else
  bs ← ok_or Policy (get_from 4 record);
  '(length, state) ← ok_or Policy (split_at_checked 4 bs);
  length ← ok_or Policy (to_array 4 length);
  if negb (len state =? be_value length) then Err Policy else
  Ok state.

Definition decode_roster_view_record : bytes -> result GroupOperationError bytes := decode_checkpoint_record TCGV.
Definition decode_invitation_book_record : bytes -> result GroupOperationError bytes := decode_checkpoint_record TCGB.
Definition decode_control_outbox_record : bytes -> result GroupOperationError bytes := decode_checkpoint_record TCGO.

Definition encode_replaced_roster_record (g : GroupId) (preimage : bytes) : result GroupOperationError bytes :=
  length ← ok_or Policy (u32_try_from (len preimage));
  Ok (TCGS ++ g ++ be32 length ++ preimage).

Definition encode_group_outbox_cancellation_record (g : GroupId) (rev : Z) : bytes := TCGX ++ g ++ be64 rev.

(** ** The control records *)
(** The scope a checkpoint replaces, if the record is one. *)
Definition checkpoint_scope (record : bytes) : option (bytes * Z) :=
  '(_, tag) ← list_find (fun tag => starts_with tag record = true) CHECKPOINT_TAGS;
  Some (tag, if bool_decide (tag = TCGX) || bool_decide (tag = TCGQ) || bool_decide (tag = TCGS)
             then 4 + GROUP_ID_LEN else 4).

Definition append_record (l : list bytes) (record : bytes) : list bytes :=
  match checkpoint_scope record with
  | Some (tag, scope) =>
      filter (fun known => negb (starts_with tag known && bool_decide (get_to scope known = get_to scope record)) = true) l
  | None => l
  end ++ [record].

(** [rposition], from index [i] on. *)
Fixpoint rposition (tag : bytes) (i : nat) (l : list bytes) : option nat :=
  match l with
  | [] => None
  | r :: l =>
      match rposition tag (S i) l with
      | Some k => Some k
      | None => if starts_with tag r then Some i else None
      end
  end.

(** The first record that is not the latest_record checkpoint of a kind. *)
Definition eviction (l : list bytes) : option nat :=
  snd <$> list_find (fun i => Forall (fun tag => Some i <> rposition tag 0 l) CHECKPOINT_TAGS) (seq 0 (length l)).

(** The loop over the bound; each turn removes a record, so the length is
    enough fuel.  [None] is the panic of its [expect]. *)
Fixpoint evict_loop (fuel : nat) (l : list bytes) : option (list bytes) :=
  if len l <=? MAX_GROUP_CONTROL_RECORDS then Some l else
  match fuel with
  | O => None
  | S fuel => i ← eviction l; evict_loop fuel (delete i l)
  end.

Definition append_controls (l records : list bytes) : option (list bytes) :=
  let l := fold_left append_record records l in evict_loop (length l) l.

Definition append_group_control_records (snap : OperationSnapshot) (records : list bytes) : OperationSnapshot :=
  with_controls snap (default (group_controls snap) (append_controls (group_controls snap) records)).

(** [iter().rev().find(|record| record.starts_with(scope))]. *)
Definition latest_record (scope : bytes) (l : list bytes) : option bytes :=
  last (filter (fun r => starts_with scope r = true) l).

(** ** The inbox *)
Definition push_bounded (collection : list bytes) (item : bytes) (bound : Z) : list bytes :=
  let l := collection ++ [item] in
  if len l >? bound then drop (Z.to_nat (len l - bound)) l else l.

Definition with_inbox (snap : OperationSnapshot) (l : list bytes) : OperationSnapshot :=
  mkSnapshot (version snap) (generation snap) (provider_state snap) (application_state snap) (snap_outbox snap)
    l (snap_dedup snap) (group_controls snap) (delivery_cursor snap).

Definition with_dedup (snap : OperationSnapshot) (l : list bytes) : OperationSnapshot :=
  mkSnapshot (version snap) (generation snap) (provider_state snap) (application_state snap) (snap_outbox snap)
    (snap_inbox snap) l (group_controls snap) (delivery_cursor snap).

Definition with_application (snap : OperationSnapshot) (state : bytes) : OperationSnapshot :=
  mkSnapshot (version snap) (generation snap) (provider_state snap) state (snap_outbox snap)
    (snap_inbox snap) (snap_dedup snap) (group_controls snap) (delivery_cursor snap).

Definition with_cursor (snap : OperationSnapshot) (cursor : Z) : OperationSnapshot :=
  mkSnapshot (version snap) (generation snap) (provider_state snap) (application_state snap) (snap_outbox snap)
    (snap_inbox snap) (snap_dedup snap) (group_controls snap) cursor.

Definition is_accepted (d : ReceiveDisposition) : bool := match d with DAccepted _ => true | _ => false end.

Definition record_receive (snap : OperationSnapshot) (e : CryptoStateEffect) (context commitment : bytes)
    (d : ReceiveDisposition) : result GroupOperationError OperationSnapshot :=
  record ← encode_receive_record e (if is_accepted d then context else []) commitment d;
  let snap := with_inbox snap (push_bounded (snap_inbox snap) record MAX_INBOX_RECORDS) in
  Ok (if is_accepted d then with_dedup snap (push_bounded (snap_dedup snap) commitment MAX_DEDUP_RECORDS) else snap).

Record ReceiveRecordLayout := mkLayout { context_start : Z; context_end : Z; accepted_event : option Z }.

Definition receive_record_layout (record : bytes) : option ReceiveRecordLayout :=
  rest ← (if starts_with TCGR record then Some (drop (length TCGR) record) else None);
  x ← get_range 1 5 rest;
  length ← to_array 4 x;
  let stop := 9 + be_value length in
  after ← get_from stop record;
  y ← get_from 32 after;
  '(tag, tail) ← (match y with [] => None | b :: t => Some (b, t) end);
  event ← (match tag with
           | x00 => z ← get_to 8 tail; a ← to_array 8 z; Some (Some (be_value a))
           | _ => Some None
           end);
  Some (mkLayout 9 stop event).

(** [&record[context]] and [context.is_empty()]. *)
Definition layout_context (layout : ReceiveRecordLayout) (record : bytes) : bytes :=
  take (Z.to_nat (context_end layout - context_start layout)) (drop (Z.to_nat (context_start layout)) record).
Definition layout_empty (layout : ReceiveRecordLayout) : bool := context_end layout <=? context_start layout.

(** The body of the loop of [undelivered_events]. *)
Definition undelivered_record (cursor : Z) (events : list (Z * ApplicationContext)) (record : bytes)
    : list (Z * ApplicationContext) :=
  match receive_record_layout record with
  | None => events
  | Some layout =>
      match accepted_event layout with
      | None => events
      | Some id =>
          if (id <? cursor) || layout_empty layout then events else
          match context_decode (layout_context layout record) with
          | Err _ => events
          | Ok c => if existsb (fun e => e.1 =? id) events then events else events ++ [(id, c)]
          end
      end
  end.

Definition by_event (a b : Z * ApplicationContext) : comparison := a.1 ?= b.1.

Definition undelivered_events (snap : OperationSnapshot) : list (Z * ApplicationContext) :=
  sort_by by_event (fold_left (undelivered_record (delivery_cursor snap)) (snap_inbox snap) []).

(** The rewriting of one inbox record as the cursor advances. *)
Definition scrub_record (cursor : Z) (record : bytes) : bytes :=
  match receive_record_layout record with
  | None => record
  | Some layout =>
      if match accepted_event layout with Some id => id <? cursor | None => false end && negb (layout_empty layout)
      then take 5 record ++ be32 0 ++ drop (Z.to_nat (context_end layout)) record
      else record
  end.

Section Malformed.
Context (payload_commitment : bytes -> bytes).

Definition encode_malformed_record (e : CryptoStateEffect) (plaintext : bytes) : result GroupOperationError bytes :=
  length ← ok_or Policy (u32_try_from (len plaintext));
  Ok (TCGM ++ [effect_code e] ++ be32 length ++ payload_commitment plaintext).

(** What [commit_malformed_group_payload] changes in its candidate's inbox. *)
Definition record_malformed (snap : OperationSnapshot) (e : CryptoStateEffect) (plaintext : bytes)
    : result GroupOperationError OperationSnapshot :=
  r ← encode_malformed_record e plaintext;
  Ok (with_inbox snap (push_bounded (snap_inbox snap) r MAX_INBOX_RECORDS)).
End Malformed.

(** What [commit_delivery_cursor] changes in its candidate. *)
Definition advance_cursor (snap : OperationSnapshot) (cursor : Z) : OperationSnapshot :=
  let snap := with_cursor snap cursor in with_inbox snap (scrub_record cursor <$> snap_inbox snap).

Section Delivery.
Context {St : Type} `{OperationStore St}.

Definition commit_delivery_cursor (store : St) (snap : OperationSnapshot) (cursor : Z)
    : St * result GroupOperationError (OperationSnapshot * unit) :=
  publish store
    (candidate ← begin_candidate store snap;
     Ok (advance_cursor candidate cursor, tt)).
End Delivery.

(** ** The control records keep every latest_record checkpoint *)
Definition tagged (tag : bytes) (l : list bytes) : list bytes := filter (fun r => starts_with tag r = true) l.

(** Per-group checkpoints carry their group behind the tag. *)
Definition per_group (tag : bytes) : Prop := tag = TCGX \/ tag = TCGQ \/ tag = TCGS.

Definition own_record (g : GroupId) (r : bytes) : Prop :=
  forall tag, per_group tag -> starts_with tag r = true -> starts_with (tag ++ g) r = true.

(** What one coordinator's control records satisfy. *)
Record controls_inv (g : GroupId) (l : list bytes) : Prop := {
  ci_own : Forall (own_record g) l;
  ci_single tag : tag ∈ CHECKPOINT_TAGS -> (length (tagged tag l) <= 1)%nat;
  ci_bound : len l <= MAX_GROUP_CONTROL_RECORDS
}.

Lemma tag_length tag : tag ∈ CHECKPOINT_TAGS -> length tag = 4%nat.
Proof. unfold CHECKPOINT_TAGS. rewrite !elem_of_cons, elem_of_nil. intros H. by decompose [or] H; subst. Qed.

Lemma one_tag t u r :
  t ∈ CHECKPOINT_TAGS -> u ∈ CHECKPOINT_TAGS -> starts_with t r = true -> starts_with u r = true -> t = u.
Proof.
  intros Ht%tag_length Hu%tag_length [x ->]%starts_with_true [y Hy]%starts_with_true.
  by apply app_inj_1 in Hy as [-> _]; [|congruence].
Qed.

Lemma checkpoint_scope_Some r tag sc :
  checkpoint_scope r = Some (tag, sc) ->
  tag ∈ CHECKPOINT_TAGS /\ starts_with tag r = true /\
  (per_group tag /\ sc = 4 + GROUP_ID_LEN \/ ~ per_group tag /\ sc = 4).
Proof.
  unfold checkpoint_scope, per_group. intros H.
  destruct (list_find _ CHECKPOINT_TAGS) as [[i t]|] eqn:E; [|done]. cbn [mbind option_bind] in H.
  injection H as <- <-. apply list_find_Some in E as (Hi & Ht & _). apply list_elem_of_lookup_2 in Hi. split_and!; try done.
  repeat case_bool_decide; cbn; tauto.
Qed.

Lemma checkpoint_scope_None r tag : checkpoint_scope r = None -> tag ∈ CHECKPOINT_TAGS -> starts_with tag r = false.
Proof.
  unfold checkpoint_scope. intros H Ht. destruct (list_find _ CHECKPOINT_TAGS) as [[i t]|] eqn:E; [done|].
  apply list_find_None in E. rewrite Forall_forall in E. specialize (E tag Ht). by apply not_true_iff_false.
Qed.

Lemma scope_same g tag sc r known :
  len g = GROUP_ID_LEN -> own_record g r -> own_record g known -> tag ∈ CHECKPOINT_TAGS ->
  (per_group tag /\ sc = 4 + GROUP_ID_LEN \/ ~ per_group tag /\ sc = 4) ->
  starts_with tag r = true -> starts_with tag known = true -> get_to sc known = get_to sc r.
Proof.
  intros Hg Hr Hk Ht%tag_length Hsc Hsr Hsk. assert (len tag = 4) as Hl by (unfold len; lia).
  destruct Hsc as [[Hp ->]|[_ ->]].
  - apply (Hr _ Hp), starts_with_true in Hsr as [x ->]. apply (Hk _ Hp), starts_with_true in Hsk as [y ->].
    by rewrite !get_to_app by len_lia.
  - apply starts_with_true in Hsr as [x ->], Hsk as [y ->]. by rewrite !get_to_app.
Qed.

(** One record appended: it replaces the one of its kind. *)
Lemma append_record_tagged g l r tag :
  len g = GROUP_ID_LEN -> Forall (own_record g) l -> own_record g r -> tag ∈ CHECKPOINT_TAGS ->
  tagged tag (append_record l r) = if starts_with tag r then [r] else tagged tag l.
Proof.
  intros Hg Hl Hr Ht. unfold append_record, tagged. rewrite filter_app.
  destruct (checkpoint_scope r) as [[t sc]|] eqn:E.
  - apply checkpoint_scope_Some in E as (Ht' & Hs & Hsc). destruct (starts_with tag r) eqn:Hst.
    + assert (t = tag) as -> by (by eapply one_tag). rewrite filter_cons_True by done. cbn [app].
      rewrite (filter_none _ (filter _ l)); [done|]. apply Forall_forall. intros k [Hk Hin]%list_elem_of_filter Hsk.
      rewrite Forall_forall in Hl. rewrite Hsk in Hk. cbn [andb] in Hk.
      rewrite bool_decide_eq_true_2 in Hk; [done|]. by eapply scope_same; eauto.
    + rewrite filter_cons_False, app_nil_r by (by rewrite Hst). clear Hl.
      induction l as [|k l IH]; [done|]. rewrite !filter_cons.
      destruct (starts_with tag k) eqn:Hk.
      * assert (starts_with t k = false) as Htk.
        { apply not_true_iff_false. intros Hx. assert (t = tag) as -> by (by eapply one_tag). congruence. }
        rewrite Htk, decide_True by done. cbn [andb negb]. rewrite filter_cons, Hk.
        by rewrite !decide_True, IH by done.
      * case_decide; rewrite ?filter_cons, ?Hk, ?decide_False by done; done.
  - rewrite (checkpoint_scope_None r tag E Ht), filter_cons_False, app_nil_r; [done|].
    by rewrite (checkpoint_scope_None r tag E Ht).
Qed.

Lemma append_record_own g l r : Forall (own_record g) l -> own_record g r -> Forall (own_record g) (append_record l r).
Proof.
  intros Hl Hr. unfold append_record. apply Forall_app. split; [|by constructor].
  destruct (checkpoint_scope r) as [[t sc]|]; [|done].
  rewrite Forall_forall in *. intros k [_ Hk]%list_elem_of_filter. by apply Hl.
Qed.

(** The last of a kind among the appended ones. *)
Lemma latest_snoc tag l r : latest_record tag (l ++ [r]) = if starts_with tag r then Some r else latest_record tag l.
Proof.
  unfold latest_record. rewrite filter_app, filter_cons. destruct (starts_with tag r).
  - by rewrite decide_True, filter_nil, last_snoc.
  - by rewrite decide_False, filter_nil, app_nil_r.
Qed.

Lemma append_records_tagged g l rs tag :
  len g = GROUP_ID_LEN -> Forall (own_record g) l -> Forall (own_record g) rs -> tag ∈ CHECKPOINT_TAGS ->
  Forall (own_record g) (fold_left append_record rs l) /\
  tagged tag (fold_left append_record rs l) = match latest_record tag rs with Some r => [r] | None => tagged tag l end.
Proof.
  intros Hg Hl. induction rs as [|r rs IH] using rev_ind; intros Hrs Ht; [done|].
  apply Forall_app in Hrs as [Hrs Hr]. apply Forall_cons in Hr as [Hr _]. destruct (IH Hrs Ht) as [Ho He].
  rewrite fold_left_app, latest_snoc. cbn [fold_left]. split; [by apply append_record_own|].
  rewrite (append_record_tagged g), He by done. by destruct (starts_with tag r).
Qed.

(** *** Eviction *)
Lemma tagged_app tag l1 l2 : tagged tag (l1 ++ l2) = tagged tag l1 ++ tagged tag l2.
Proof. apply filter_app. Qed.

Lemma tagged_cons tag r l : tagged tag (r :: l) = (if starts_with tag r then [r] else []) ++ tagged tag l.
Proof. unfold tagged. rewrite filter_cons. destruct (starts_with tag r); [by rewrite decide_True|by rewrite decide_False]. Qed.

(** A record of a kind of which there is one is its latest. *)
Lemma rposition_single tag l1 r l2 :
  (length (tagged tag (l1 ++ r :: l2)) <= 1)%nat -> starts_with tag r = true ->
  rposition tag 0 (l1 ++ r :: l2) = Some (length l1).
Proof.
  rewrite tagged_app, tagged_cons. intros Hs Hr. rewrite Hr, !length_app in Hs. cbn in Hs.
  assert (tagged tag l2 = []) as H2 by (apply length_zero_iff_nil; lia). clear Hs.
  assert (forall l i, tagged tag l = [] -> rposition tag i l = None) as Hnone.
  { induction l as [|x l IH]; intros i Hl; [done|]. rewrite tagged_cons in Hl. apply app_eq_nil in Hl as [Hx Hl].
    cbn. rewrite IH by done. by destruct (starts_with tag x). }
  assert (forall i, rposition tag i (l1 ++ r :: l2) = Some (i + length l1)%nat) as H; [|by apply (H O)].
  induction l1 as [|x l1 IH]; intros i; cbn.
  - rewrite Hnone, Hr by done. f_equal. lia.
  - rewrite IH. f_equal. lia.
Qed.

Lemma eviction_Some l i :
  (forall tag, tag ∈ CHECKPOINT_TAGS -> (length (tagged tag l) <= 1)%nat) -> eviction l = Some i ->
  exists l1 r l2, l = l1 ++ r :: l2 /\ i = length l1 /\ forall tag, tag ∈ CHECKPOINT_TAGS -> starts_with tag r = false.
Proof.
  unfold eviction. intros Hs ([j k] & Hf & ->)%fmap_Some. apply list_find_Some in Hf as (Hj & Hall & _). cbn.
  apply lookup_seq in Hj as [-> Hlt]. cbn [Nat.add] in *.
  destruct (lookup_lt_is_Some_2 l j Hlt) as [r Hr]. pose proof (list_elem_of_split_length _ _ _ Hr) as (l1 & l2 & -> & ->).
  exists l1, r, l2. split_and!; [done|done|]. intros tag Ht. apply not_true_iff_false. intros Hst.
  rewrite Forall_forall in Hall. apply (Hall tag Ht). by rewrite rposition_single by auto.
Qed.

(** At most six records are protected. *)
Lemma eviction_is_Some l : (6 < length l)%nat -> is_Some (eviction l).
Proof.
  intros Hl. destruct (eviction l) as [i|] eqn:E; [by exists i|exfalso]. unfold eviction in E.
  destruct (list_find _ _) as [[? ?]|] eqn:Ef; [done|]. apply list_find_None in Ef. rewrite Forall_forall in Ef.
  assert (seq 0 (length l) ⊆+ omap (fun tag => rposition tag 0 l) CHECKPOINT_TAGS) as Hsub.
  { apply NoDup_submseteq; [apply NoDup_seq|]. intros i Hi. specialize (Ef i Hi). cbn in Ef.
    apply list_elem_of_omap. destruct (decide (Exists (fun tag => Some i = rposition tag 0 l) CHECKPOINT_TAGS)) as [Hx|Hx].
    - apply Exists_exists in Hx as (tag & Ht & Hx). by exists tag.
    - destruct Ef. apply Forall_Exists_neg in Hx. done. }
  apply submseteq_length in Hsub. rewrite length_seq in Hsub.
  assert (length (omap (fun tag => rposition tag 0 l) CHECKPOINT_TAGS) <= length CHECKPOINT_TAGS)%nat as Hle.
  { clear. induction CHECKPOINT_TAGS as [|t ts IH]; [done|]. cbn. destruct (rposition t 0 l); cbn; lia. }
  change (length CHECKPOINT_TAGS) with 6%nat in Hle. lia.
Qed.

Lemma evict_loop_spec fuel : forall l, (length l <= fuel)%nat ->
  (forall tag, tag ∈ CHECKPOINT_TAGS -> (length (tagged tag l) <= 1)%nat) ->
  exists l', evict_loop fuel l = Some l' /\ l' `sublist_of` l /\ len l' <= MAX_GROUP_CONTROL_RECORDS /\
    forall tag, tag ∈ CHECKPOINT_TAGS -> tagged tag l' = tagged tag l.
Proof.
  induction fuel as [|fuel IH]; intros l Hl Hs; cbn [evict_loop];
    destruct (len l <=? MAX_GROUP_CONTROL_RECORDS) eqn:E; bool_prop; try (by exists l).
  - exfalso. destruct l; [done|cbn in Hl; lia].
  - destruct (eviction_is_Some l) as [i Hi]; [unfold len, MAX_GROUP_CONTROL_RECORDS in E; lia|].
    rewrite Hi. cbn [mbind option_bind]. apply eviction_Some in Hi as (l1 & r & l2 & -> & -> & Hr); [|done].
    rewrite delete_middle.
    assert (forall tag, tag ∈ CHECKPOINT_TAGS -> tagged tag (l1 ++ l2) = tagged tag (l1 ++ r :: l2)) as Ht.
    { intros tag Htag. by rewrite !tagged_app, tagged_cons, Hr. }
    destruct (IH (l1 ++ l2)) as (l' & He & Hsub & Hb & Htag).
    + rewrite length_app, length_cons in Hl. rewrite length_app. lia.
    + intros tag Htag. rewrite Ht by done. by apply Hs.
    + exists l'. split_and!; [done| |done|].
      * etrans; [exact Hsub|]. apply sublist_app; [done|by apply sublist_cons].
      * intros tag Hin. rewrite Htag by done. by apply Ht.
Qed.

(** Appending: it never panics, stays within the bound and keeps the latest
    checkpoint of every kind. *)
Lemma append_controls_spec g l rs :
  len g = GROUP_ID_LEN -> controls_inv g l -> Forall (own_record g) rs ->
  exists l', append_controls l rs = Some l' /\ controls_inv g l' /\
    forall tag, tag ∈ CHECKPOINT_TAGS ->
      tagged tag l' = match latest_record tag rs with Some r => [r] | None => tagged tag l end.
Proof.
  intros Hg [Ho Hs Hb] Hrs. unfold append_controls.
  assert (Forall (own_record g) (fold_left append_record rs l)) as Hown.
  { apply (append_records_tagged g l rs TCGV); try done. by left. }
  assert (forall tag, tag ∈ CHECKPOINT_TAGS -> tagged tag (fold_left append_record rs l) =
    match latest_record tag rs with Some r => [r] | None => tagged tag l end) as Ht.
  { intros tag Htag. by apply (append_records_tagged g l rs tag). }
  assert (forall tag, tag ∈ CHECKPOINT_TAGS -> (length (tagged tag (fold_left append_record rs l)) <= 1)%nat) as H1.
  { intros tag Htag. rewrite Ht by done. destruct (latest_record tag rs); [cbn; lia|by apply Hs]. }
  destruct (evict_loop_spec (length (fold_left append_record rs l)) (fold_left append_record rs l))
    as (l' & He & Hsub & Hb' & Htag); [done|done|].
  exists l'. split; [done|]. split; [|intros tag Hin; by rewrite Htag, Ht]. split; [| |done].
  - rewrite Forall_forall in *. intros r Hr. apply Hown. by eapply elem_of_sublist.
  - intros tag Hin. rewrite Htag by done. by apply H1.
Qed.

Lemma controls_inv_nil g : controls_inv g [].
Proof. split; [constructor|intros; cbn; lia|done]. Qed.

Lemma latest_tagged tag l : latest_record tag l = last (tagged tag l).
Proof. done. Qed.

(** What recovery reads after an append. *)
Lemma append_latest g l rs l' tag :
  len g = GROUP_ID_LEN -> controls_inv g l -> Forall (own_record g) rs -> append_controls l rs = Some l' ->
  tag ∈ CHECKPOINT_TAGS ->
  latest_record tag l' = match latest_record tag rs with Some r => Some r | None => latest_record tag l end.
Proof.
  intros Hg Hl Hrs H Ht. destruct (append_controls_spec g l rs) as (l'' & H' & _ & Htag); [done..|].
  assert (l'' = l') as -> by congruence. rewrite (latest_tagged tag l'), Htag by done. by destruct (latest_record tag rs).
Qed.

(** The per-group search finds the same record. *)
Lemma latest_scoped g tag l : per_group tag -> Forall (own_record g) l -> latest_record (tag ++ g) l = latest_record tag l.
Proof.
  intros Hp Hl. unfold latest_record. f_equal. induction Hl as [|r l Hr _ IH]; [done|]. rewrite !filter_cons, IH.
  assert (starts_with (tag ++ g) r = starts_with tag r) as ->; [|done].
  apply eq_iff_eq_true. split; [|by apply Hr]. intros [x ->]%starts_with_true. rewrite <- app_assoc. apply starts_with_app.
Qed.

(** ** The inbox and redelivery *)
Definition event_of (d : ReceiveDisposition) : option Z := match d with DAccepted id => Some id | _ => None end.

Definition disposition_ok (d : ReceiveDisposition) : Prop :=
  match d with DAccepted id | DDuplicate id => 0 <= id <= u64_max | _ => True end.

Lemma disposition_event d :
  disposition_ok d ->
  ('(tag, tail) ← (match disposition_bytes d with [] => None | b :: t => Some (b, t) end);
   match tag with
   | x00 => z ← get_to 8 tail; a ← to_array 8 z; Some (Some (be_value a))
   | _ => Some None
   end) = Some (event_of d).
Proof.
  destruct d as [id|id| |r]; cbn; intros Hd; try done.
  - rewrite <- (app_nil_r (be64 id)), get_to_app by (by rewrite len_be_bytes). cbn [mbind option_bind].
    rewrite to_array_len by (by rewrite len_be_bytes). cbn.
    rewrite be_value_be_bytes; [done|]. change (256 ^ Z.of_nat 8) with 18446744073709551616. unfold u64_max in Hd. lia.
Qed.

Lemma receive_record_Ok e ctx cm d r :
  encode_receive_record e ctx cm d = Ok r ->
  len ctx <= u32_max /\ r = TCGR ++ [effect_code e] ++ be32 (len ctx) ++ ctx ++ cm ++ disposition_bytes d.
Proof.
  unfold encode_receive_record, put_lp, u32_try_from. intros H. inv_bind. bool_prop. split; [lia|].
  by rewrite <- app_assoc.
Qed.

Lemma receive_record_layout_spec e ctx cm d r :
  encode_receive_record e ctx cm d = Ok r -> len cm = DIGEST_LEN -> disposition_ok d ->
  receive_record_layout r = Some (mkLayout 9 (9 + len ctx) (event_of d)).
Proof.
  intros [Hl ->]%receive_record_Ok Hcm Hd. unfold receive_record_layout.
  rewrite starts_with_app, drop_app_length. cbn [mbind option_bind].
  rewrite (get_range_app 1 5 [effect_code e] (be32 (len ctx)) (ctx ++ cm ++ disposition_bytes d))
    by (rewrite ?len_be_bytes; done). cbn [mbind option_bind].
  rewrite to_array_len by (by rewrite len_be_bytes). cbn [mbind option_bind].
  pose proof (len_nonneg ctx). rewrite be_value_be_bytes by (change (256 ^ Z.of_nat 4) with 4294967296; unfold u32_max in *; lia).
  rewrite (app_assoc TCGR), (app_assoc (TCGR ++ _)), (app_assoc ((TCGR ++ _) ++ _)).
  rewrite get_from_app by (rewrite !len_app, len_be_bytes; change (len TCGR) with 4; change (len [effect_code e]) with 1; lia).
  cbn [mbind option_bind]. rewrite get_from_app by done. cbn [mbind option_bind].
  pose proof (disposition_event d Hd) as Hev. destruct (disposition_bytes d) as [|b t]; [done|]. cbn [mbind option_bind] in *.
  by rewrite Hev.
Qed.

(** The two places the layout points at. *)
Lemma receive_record_context e ctx cm d r :
  encode_receive_record e ctx cm d = Ok r -> layout_context (mkLayout 9 (9 + len ctx) (event_of d)) r = ctx.
Proof.
  intros [Hl ->]%receive_record_Ok. unfold layout_context. cbn [context_start context_end].
  replace (9 + len ctx - 9) with (len ctx) by lia. rewrite to_nat_len.
  rewrite (app_assoc TCGR), (app_assoc (TCGR ++ _)).
  change (Z.to_nat 9) with (length ((TCGR ++ [effect_code e]) ++ be32 (len ctx))). by rewrite drop_app_length, take_app_length.
Qed.

Lemma scrub_receive_record e ctx cm d r cursor :
  encode_receive_record e ctx cm d = Ok r -> len cm = DIGEST_LEN -> disposition_ok d ->
  encode_receive_record e
    (if match event_of d with Some id => id <? cursor | None => false end then [] else ctx) cm d
  = Ok (scrub_record cursor r).
Proof.
  intros He Hcm Hd. unfold scrub_record. rewrite (receive_record_layout_spec _ _ _ _ _ He Hcm Hd). cbn [accepted_event].
  destruct (match event_of d with Some id => id <? cursor | None => false end); cbn [andb]; [|done].
  unfold layout_empty. cbn [context_end context_start].
  apply receive_record_Ok in He as [Hl ->]. pose proof (len_nonneg ctx).
  destruct (9 + len ctx <=? 9) eqn:E; cbn [negb].
  - bool_prop. assert (ctx = []) as -> by (apply len_zero_nil; lia). done.
  - unfold encode_receive_record. change (put_lp []) with (@Ok GroupOperationError _ (be32 0)).
    cbn [mbind result_bind]. f_equal. rewrite !(app_assoc TCGR).
    change 5%nat with (length (TCGR ++ [effect_code e])). rewrite take_app_length.
    rewrite (app_assoc _ (be32 (len ctx))), (app_assoc _ ctx).
    assert (Z.to_nat (9 + len ctx) = length (((TCGR ++ [effect_code e]) ++ be32 (len ctx)) ++ ctx)) as ->.
    { rewrite !length_app, length_be_bytes. change (length TCGR) with 4%nat. unfold len. cbn. lia. }
    rewrite drop_app_length. by rewrite <- app_assoc.
Qed.

Lemma omap_cons_app {A B} (f : A -> option B) x l :
  omap f (x :: l) = match f x with Some y => [y] | None => [] end ++ omap f l.
Proof. cbn. by destruct (f x). Qed.

(** *** Runs of inbox operations *)
Inductive InboxOp :=
| IoReceive (e : CryptoStateEffect) (c : ApplicationContext) (d : ReceiveDisposition)
| IoMalformed (e : CryptoStateEffect) (plaintext : bytes)
| IoCursor (cursor : Z).

Definition is_record (op : InboxOp) : Prop := match op with IoCursor _ => False | _ => True end.
#[global] Instance is_record_dec op : Decision (is_record op).
Proof. destruct op; apply _. Defined.

(** The last [n] of a list. *)
Definition lastn {A} (n : Z) (l : list A) : list A := drop (Z.to_nat (len l - n)) l.

Lemma push_lastn (n : Z) (l : list bytes) (x : bytes) : 0 < n -> push_bounded (lastn n l) x n = lastn n (l ++ [x]).
Proof.
  intros Hn. unfold push_bounded, lastn. pose proof (len_nonneg l) as Hl.
  destruct (Z_le_gt_dec (len l) n) as [Hle|Hgt].
  - replace (Z.to_nat (len l - n)) with O by lia. rewrite drop_0.
    destruct (_ >? n) eqn:E; bool_prop; [done|]. by replace (Z.to_nat (len (l ++ [x]) - n)) with O by lia.
  - assert (len (drop (Z.to_nat (len l - n)) l) = n) as Hd by (rewrite len_drop; lia).
    rewrite !len_app, Hd, !len_cons, !len_nil. case_test; [|bool_prop; lia].
    rewrite !drop_app_le by (rewrite ?length_drop; unfold len in *; lia). rewrite drop_drop. do 2 f_equal. lia.
Qed.

Lemma len_lastn {A} n (l : list A) : 0 <= n -> len (lastn n l) = Z.min n (len l).
Proof.
  intros Hn. unfold lastn. pose proof (len_nonneg l). destruct (Z_le_gt_dec (len l) n).
  - replace (Z.to_nat (len l - n)) with O by lia. rewrite drop_0. lia.
  - rewrite len_drop; lia.
Qed.

Lemma lastn_fmap {A B} (f : A -> B) n l : f <$> lastn n l = lastn n (f <$> l).
Proof. unfold lastn. by rewrite len_fmap, fmap_drop. Qed.

Section Redelivery.
Context (pc : bytes -> bytes) (pc_len : forall x, len (pc x) = DIGEST_LEN).

(** The context bytes an operation records while its event is not
    acknowledged, and the record it leaves in the inbox. *)
Definition kept_context (cursor : Z) (c : ApplicationContext) (d : ReceiveDisposition) : bytes :=
  match event_of d, context_encode c with
  | Some id, Ok bs => if id <? cursor then [] else bs
  | _, _ => []
  end.

Definition op_record (cursor : Z) (op : InboxOp) : bytes :=
  match op with
  | IoReceive e c d =>
      match context_encode c with
      | Ok bs => match encode_receive_record e (kept_context cursor c d) (pc bs) d with Ok r => r | Err _ => [] end
      | Err _ => []
      end
  | IoMalformed e p => match encode_malformed_record pc e p with Ok r => r | Err _ => [] end
  | IoCursor _ => []
  end.

(** One operation on the snapshot. *)
Definition inbox_step (snap : OperationSnapshot) (op : InboxOp) : result GroupOperationError OperationSnapshot :=
  match op with
  | IoReceive e c d =>
      bs ← map_err Policy (context_encode c);
      record_receive snap e bs (pc bs) d
  | IoMalformed e p => record_malformed pc snap e p
  | IoCursor cursor => Ok (advance_cursor snap cursor)
  end.

Fixpoint inbox_run (snap : OperationSnapshot) (ops : list InboxOp) : result GroupOperationError OperationSnapshot :=
  match ops with
  | [] => Ok snap
  | op :: ops => snap ← inbox_step snap op; inbox_run snap ops
  end.

(** The events an operation accepts, and the cursor it sets. *)
Definition op_event (op : InboxOp) : option (Z * ApplicationContext) :=
  match op with IoReceive _ c (DAccepted id) => Some (id, c) | _ => None end.
Definition op_cursor (op : InboxOp) : option Z := match op with IoCursor n => Some n | _ => None end.

Definition op_ok (op : InboxOp) : Prop :=
  match op with
  | IoReceive _ c d => context_wf c /\ (exists bs, context_encode c = Ok bs) /\ disposition_ok d
  | IoMalformed _ p => len p <= u32_max
  | IoCursor _ => True
  end.

Definition cursor_of (ops : list InboxOp) : Z := default 0 (last (omap op_cursor ops)).
Definition records_of (ops : list InboxOp) : list InboxOp := filter is_record ops.

(** The inbox as the operations leave it. *)
Definition inbox_tracks (ops : list InboxOp) (snap : OperationSnapshot) : Prop :=
  delivery_cursor snap = cursor_of ops /\
  snap_inbox snap = op_record (cursor_of ops) <$> lastn MAX_INBOX_RECORDS (records_of ops).

Lemma op_record_scrub cursor cursor' op :
  is_record op -> op_ok op -> cursor <= cursor' -> scrub_record cursor' (op_record cursor op) = op_record cursor' op.
Proof.
  intros Hr Hok Hle. destruct op as [e c d|e p|n]; [| |done]; cbn [op_record].
  - destruct Hok as (Hwf & [bs Hbs] & Hd). rewrite Hbs. unfold kept_context. rewrite Hbs.
    pose proof (context_encode_bound _ _ Hwf Hbs) as Hb. unfold MAX_APPLICATION_CONTEXT_LEN in Hb.
    set (ctx := match event_of d with Some id => if id <? cursor then [] else bs | None => [] end).
    assert (len ctx <= u32_max) as Hc.
    { unfold ctx, u32_max. destruct (event_of d); [destruct (_ <? _)|]; rewrite ?len_nil; lia. }
    destruct (encode_receive_record e ctx (pc bs) d) as [r|] eqn:Er.
    2: { unfold encode_receive_record, put_lp, u32_try_from in Er. rewrite (proj2 (Z.leb_le _ _) Hc) in Er. done. }
    pose proof (scrub_receive_record _ _ _ _ _ cursor' Er (pc_len _) Hd) as Hs.
    assert ((if match event_of d with Some id => id <? cursor' | None => false end then [] else ctx) =
      match event_of d with Some id => if id <? cursor' then [] else bs | None => [] end) as Hx.
    { unfold ctx. destruct (event_of d) as [id|]; [|done].
      destruct (id <? cursor') eqn:E1, (id <? cursor) eqn:E2; bool_prop; done || lia. }
    rewrite Hx in Hs. by rewrite Hs.
  - unfold encode_malformed_record, u32_try_from. rewrite (proj2 (Z.leb_le _ _) Hok). cbn [ok_or mbind result_bind].
    unfold scrub_record, receive_record_layout. by destruct (starts_with TCGR _) eqn:E.
Qed.

Lemma op_record_receive snap e c d :
  op_ok (IoReceive e c d) -> (forall id, d = DAccepted id -> delivery_cursor snap <= id) ->
  exists snap', inbox_step snap (IoReceive e c d) = Ok snap' /\
    snap_inbox snap' = push_bounded (snap_inbox snap) (op_record (delivery_cursor snap) (IoReceive e c d)) MAX_INBOX_RECORDS /\
    delivery_cursor snap' = delivery_cursor snap.
Proof.
  intros (Hwf & [bs Hbs] & Hd) Hid. cbn [inbox_step op_record]. rewrite Hbs. cbn [map_err mbind result_bind].
  pose proof (context_encode_bound _ _ Hwf Hbs) as Hb. unfold MAX_APPLICATION_CONTEXT_LEN in Hb.
  unfold kept_context. rewrite Hbs. unfold record_receive.
  assert ((if is_accepted d then bs else []) =
    match event_of d with Some id => if id <? delivery_cursor snap then [] else bs | None => [] end) as ->.
  { destruct d as [id| | |]; cbn; try done. specialize (Hid id eq_refl). by rewrite (proj2 (Z.ltb_ge _ _) Hid). }
  set (ctx := match event_of d with Some id => if id <? delivery_cursor snap then [] else bs | None => [] end).
  assert (len ctx <= u32_max) as Hc.
  { unfold ctx, u32_max. destruct (event_of d); [destruct (_ <? _)|]; rewrite ?len_nil; lia. }
  unfold encode_receive_record, put_lp, u32_try_from. rewrite (proj2 (Z.leb_le _ _) Hc). cbn [ok_or mbind result_bind].
  eexists. split; [done|]. by destruct (is_accepted d).
Qed.

(** What a run may contain: accepted events in ascending order, each above the
    cursor of its time, and cursors that never go back. *)
Fixpoint run_ok (cursor next : Z) (ops : list InboxOp) : Prop :=
  match ops with
  | [] => True
  | op :: ops =>
      op_ok op /\
      match op with
      | IoReceive _ _ (DAccepted id) => next <= id /\ cursor <= id /\ run_ok cursor (id + 1) ops
      | IoCursor n => cursor <= n /\ run_ok n next ops
      | _ => run_ok cursor next ops
      end
  end.

Lemma records_snoc ops op : records_of (ops ++ [op]) = records_of ops ++ (if decide (is_record op) then [op] else []).
Proof. unfold records_of. rewrite filter_app, filter_cons. by case_decide. Qed.

Lemma cursor_snoc ops op : cursor_of (ops ++ [op]) = default (cursor_of ops) (op_cursor op).
Proof.
  unfold cursor_of. rewrite omap_app. cbn. destruct (op_cursor op) as [n|]; [by rewrite last_snoc|by rewrite app_nil_r].
Qed.

(** The snapshot follows the operations. *)
Lemma inbox_run_tracks ops : forall before next snap,
  Forall op_ok before -> inbox_tracks before snap -> run_ok (cursor_of before) next ops ->
  exists snap', inbox_run snap ops = Ok snap' /\ inbox_tracks (before ++ ops) snap'.
Proof.
  induction ops as [|op ops IH]; intros before next snap Hb [Hc Hi] Hr; cbn [inbox_run].
  { exists snap. rewrite app_nil_r. by split. }
  cbn [run_ok] in Hr. destruct Hr as [Hop Hr].
  assert (Forall op_ok (before ++ [op])) as Hb' by (apply Forall_app; split; [done|by constructor]).
  assert (exists snap1 next', inbox_step snap op = Ok snap1 /\ inbox_tracks (before ++ [op]) snap1 /\
    run_ok (cursor_of (before ++ [op])) next' ops) as (snap1 & next' & -> & Ht & Hr').
  2: { cbn [mbind result_bind]. destruct (IH (before ++ [op]) next' snap1 Hb' Ht Hr') as (snap' & Hrun & Ht').
       exists snap'. split; [done|]. by rewrite <- app_assoc in Ht'. }
  assert (forall r, is_record op -> snap_inbox snap = op_record (cursor_of before) <$> lastn MAX_INBOX_RECORDS (records_of before) ->
    r = op_record (cursor_of before) op ->
    push_bounded (snap_inbox snap) r MAX_INBOX_RECORDS =
      op_record (cursor_of before) <$> lastn MAX_INBOX_RECORDS (records_of (before ++ [op]))) as Hpush.
  { intros r Hrec -> ->. rewrite records_snoc, decide_True by done. rewrite !lastn_fmap, push_lastn, fmap_app by done. done. }
  destruct op as [e c d|e p|n].
  - destruct (op_record_receive snap e c d Hop) as (snap1 & Hs & Hin & Hcur).
    { intros id ->. rewrite Hc. apply Hr. }
    pose proof Hr as Hr'. exists snap1. exists (match d with DAccepted id => id + 1 | _ => next end). split; [done|].
    unfold inbox_tracks. rewrite cursor_snoc. cbn [op_cursor default]. split; [split; [congruence|]|].
    + rewrite Hin. apply Hpush; [done|done|by rewrite Hc].
    + destruct d; [by destruct Hr' as (_ & _ & ?)|done..].
  - cbn [inbox_step]. unfold record_malformed, encode_malformed_record, u32_try_from. rewrite (proj2 (Z.leb_le _ _) Hop). cbn [ok_or mbind result_bind].
    eexists _, next. split; [done|]. unfold inbox_tracks. rewrite cursor_snoc. cbn [op_cursor default]. split; [split; [done|]|done].
    cbn [snap_inbox with_inbox]. apply Hpush; [done|done|]. cbn [op_record]. unfold encode_malformed_record, u32_try_from.
    by rewrite (proj2 (Z.leb_le _ _) Hop).
  - destruct Hr as [Hle Hr]. cbn [inbox_step]. eexists _, next. split; [done|]. unfold inbox_tracks, advance_cursor. rewrite cursor_snoc, records_snoc.
    cbn [op_cursor default]. rewrite decide_False, app_nil_r by (cbn; tauto). split; [split; [done|]|done].
    cbn [snap_inbox with_inbox with_cursor]. rewrite Hi, <- list_fmap_compose. apply list_fmap_ext. intros i op Hop'. cbn.
    apply list_elem_of_lookup_2, list_elem_of_lookup in Hop' as [j Hj]. unfold lastn in Hj. rewrite lookup_drop in Hj.
    apply list_elem_of_lookup_2, list_elem_of_filter in Hj as [Hrec Hin]. rewrite Forall_forall in Hb.
    apply op_record_scrub; [done|by apply Hb|done].
Qed.

(** Events in ascending order. *)
Definition events_ascend (l : list (Z * ApplicationContext)) : Prop := StronglySorted (fun a b => a.1 < b.1) l.

Lemma run_events ops : forall cursor next, run_ok cursor next ops ->
  events_ascend (omap op_event ops) /\ Forall (fun e => next <= e.1) (omap op_event ops) /\ Forall op_ok ops.
Proof.
  induction ops as [|op ops IH]; intros cursor next Hr; cbn [omap list_omap run_ok] in *; [split_and!; constructor|].
  destruct Hr as [Hop Hr].
  assert (forall c n, run_ok c n ops -> events_ascend (omap op_event ops) /\
    Forall (fun e => n <= e.1) (omap op_event ops) /\ Forall op_ok ops) as IH' by (intros; by eapply IH). clear IH.
  destruct op as [e c [id|id| |r]|e p|n]; cbn [op_event omap list_omap];
    try (destruct (IH' _ _ Hr) as (H1 & H2 & H3); split_and!; [done|done|by constructor]).
  - destruct Hr as (Hn & _ & Hr). destruct (IH' _ _ Hr) as (H1 & H2 & H3). split_and!.
    + constructor; [done|]. eapply Forall_impl; [exact H2|]. cbn. intros e' ?. lia.
    + constructor; [cbn; lia|]. eapply Forall_impl; [exact H2|]. cbn. intros e' ?. lia.
    + by constructor.
  - destruct Hr as [_ Hr]. destruct (IH' _ _ Hr) as (H1 & H2 & H3). split_and!; [done|done|by constructor].
Qed.

Lemma context_encode_nonempty c bs : context_encode c = Ok bs -> 0 < len bs.
Proof. unfold context_encode. intros H. inv_bind. len_lia. Qed.

(** What one inbox record offers. *)
Lemma undelivered_op cursor events op :
  op_ok op -> is_record op -> Forall (fun e => forall x, op_event op = Some x -> e.1 < x.1) events ->
  undelivered_record cursor events (op_record cursor op) =
    events ++ filter (fun e => cursor <= e.1) (match op_event op with Some x => [x] | None => [] end).
Proof.
  intros Hok Hrec Hlt. destruct op as [e c d|e p|n]; [| |done]; cbn [op_record].
  - destruct Hok as (Hwf & [bs Hbs] & Hd). unfold kept_context. rewrite Hbs.
    pose proof (context_encode_bound _ _ Hwf Hbs) as Hb. unfold MAX_APPLICATION_CONTEXT_LEN in Hb.
    set (ctx := match event_of d with Some id => if id <? cursor then [] else bs | None => [] end).
    assert (len ctx <= u32_max) as Hc.
    { unfold ctx, u32_max. destruct (event_of d); [destruct (_ <? _)|]; rewrite ?len_nil; lia. }
    destruct (encode_receive_record e ctx (pc bs) d) as [r|] eqn:Er.
    2: { unfold encode_receive_record, put_lp, u32_try_from in Er. rewrite (proj2 (Z.leb_le _ _) Hc) in Er. done. }
    unfold undelivered_record. rewrite (receive_record_layout_spec _ _ _ _ _ Er (pc_len _) Hd). cbn [accepted_event].
    rewrite (receive_record_context _ _ _ _ _ Er). unfold layout_empty. cbn [context_start context_end].
    destruct d as [id|id| |rf]; cbn [event_of op_event] in *; try by rewrite filter_nil, app_nil_r.
    unfold ctx. rewrite filter_cons, filter_nil. cbn [fst]. destruct (id <? cursor) eqn:Ei; bool_prop; cbn [orb].
    + rewrite decide_False by lia. by rewrite app_nil_r.
    + pose proof (context_encode_nonempty _ _ Hbs). rewrite (proj2 (Z.leb_gt _ _)) by lia.
      rewrite (proj2 (context_decode_encode bs c) (conj Hwf Hbs)), decide_True by lia.
      destruct (existsb _ events) eqn:Ex; [|done]. exfalso. apply existsb_exists in Ex as (x & Hx & Heq). bool_prop.
      apply list_elem_of_In in Hx. rewrite Forall_forall in Hlt. specialize (Hlt x Hx _ eq_refl). cbn in Hlt. lia.
  - unfold encode_malformed_record, u32_try_from. rewrite (proj2 (Z.leb_le _ _) Hok). cbn [ok_or mbind result_bind op_event].
    rewrite filter_nil, app_nil_r. unfold undelivered_record, receive_record_layout. by destruct (starts_with TCGR _) eqn:E.
Qed.

Lemma undelivered_fold cursor l : forall events,
  Forall op_ok l -> Forall is_record l -> events_ascend (events ++ omap op_event l) ->
  fold_left (undelivered_record cursor) (op_record cursor <$> l) events =
    events ++ filter (fun e => cursor <= e.1) (omap op_event l).
Proof.
  induction l as [|op l IH]; intros events Hok Hrec Ha.
  { cbn. by rewrite app_nil_r. }
  cbn [fmap list_fmap fold_left]. rewrite omap_cons_app in Ha |- *.
  apply Forall_cons in Hok as [Hop Hok], Hrec as [Hr Hrec].
  rewrite undelivered_op; [|done|done|].
  2: { apply Forall_forall. intros x Hx y Hy. rewrite Hy in Ha. apply StronglySorted_app in Ha as (Ha & _).
       apply Ha; [done|by left]. }
  rewrite filter_app, app_assoc. apply IH; [done|done|].
  rewrite <- app_assoc. eapply StronglySorted_sublist; [|exact Ha].
  apply sublist_app; [done|]. apply sublist_app; [apply sublist_filter|done].
Qed.
End Redelivery.

(** The head of [receive]: the events that can no longer be offered. *)
Definition lost_events (issued cursor undelivered : Z) : Z := saturating_sub (saturating_sub issued cursor) undelivered.

Lemma filter_seqZ cursor n : 0 <= cursor <= n -> len (filter (fun id => cursor <= id) (seqZ 0 n)) = n - cursor.
Proof.
  intros Hc. replace n with (cursor + (n - cursor)) at 1 by lia. rewrite seqZ_app, filter_app by lia.
  rewrite (filter_none _ (seqZ 0 cursor)).
  - cbn [app]. rewrite filter_all; [unfold len; rewrite length_seqZ; lia|].
    apply Forall_forall. intros x Hx%elem_of_seqZ. lia.
  - apply Forall_forall. intros x Hx%elem_of_seqZ. lia.
Qed.

Lemma filter_events (cursor : Z) (l : list (Z * ApplicationContext)) :
  len (filter (fun e => cursor <= e.1) l) = len (filter (fun id => cursor <= id) l.*1).
Proof.
  induction l as [|x l IH]; [done|]. cbn [fmap list_fmap]. rewrite !filter_cons.
  repeat case_decide; try done; rewrite ?len_cons; by rewrite ?IH.
Qed.

(** ** Properties *)

(** The control records of a coordinator never overflow and never lose a
    checkpoint: in any state in which they are within their bound of 64 with at
    most one checkpoint of a kind, appending any records of its group returns
    (the eviction loop ends and its [expect] never panics), stays within the
    bound, keeps at most one checkpoint of a kind, and for every kind leaves the
    latest_record appended checkpoint, or the one that was there, as the one recovery
    reads; so no traffic can evict the roster view, the invitation book, the
    control outbox, the cancellation, the held controls or the replaced
    roster. *)
Lemma control_records_keep_checkpoints g l rs :
  len g = GROUP_ID_LEN -> controls_inv g l -> Forall (own_record g) rs ->
  exists l', append_controls l rs = Some l' /\ controls_inv g l' /\ len l' <= MAX_GROUP_CONTROL_RECORDS /\
    forall tag, tag ∈ CHECKPOINT_TAGS ->
      latest_record tag l' = match latest_record tag rs with Some r => Some r | None => latest_record tag l end /\
      (per_group tag -> latest_record (tag ++ g) l' = latest_record tag l').
Proof.
  intros Hg Hl Hrs. destruct (append_controls_spec g l rs Hg Hl Hrs) as (l' & Ha & Hinv & Ht).
  exists l'. split_and!; [done|done|apply Hinv|]. intros tag Htag. split.
  - by eapply append_latest.
  - intros Hp. apply latest_scoped; [done|apply Hinv].
Qed.

Definition group_seven : GroupId := replicate 16 x07.

(** Redelivery is exact: over any run of recorded dispositions, malformed
    items and delivery acknowledgments in which events are accepted in order
    and acknowledged at most once issued, the records fit and the inbox holds
    one record for each of the last 64 items; the events offered again are
    exactly the accepted ones at or above the cursor among those, in order and
    each with the context it was accepted with; no acknowledged event's
    plaintext is left in the inbox; and the number reported lost is exactly the
    number of accepted, unacknowledged events whose records have left it. *)
Lemma redelivery_exact pc ops issued :
  (forall x, len (pc x) = DIGEST_LEN) -> run_ok 0 0 ops ->
  (omap op_event ops).*1 = seqZ 0 issued -> 0 <= cursor_of ops <= issued ->
  exists snap, inbox_run pc (snapshot_empty 0) ops = Ok snap /\
    let cursor := cursor_of ops in
    let window := lastn MAX_INBOX_RECORDS (records_of ops) in
    delivery_cursor snap = cursor /\ snap_inbox snap = (op_record pc cursor <$> window) /\
    len (snap_inbox snap) <= MAX_INBOX_RECORDS /\
    undelivered_events snap = filter (fun e => cursor <= e.1) (omap op_event window) /\
    lost_events issued cursor (len (undelivered_events snap)) =
      len (filter (fun e => cursor <= e.1)
        (omap op_event (take (Z.to_nat (len (records_of ops) - MAX_INBOX_RECORDS)) (records_of ops)))).
Proof.
  intros Hpc Hr Hids Hc.
  destruct (inbox_run_tracks pc Hpc ops [] 0 (snapshot_empty 0)) as (snap & Hrun & [Hcur Hin]);
    [constructor|done|done|]. cbn [app] in Hcur, Hin.
  destruct (run_events ops 0 0 Hr) as (Hasc & _ & Hok).
  exists snap. split; [done|]. cbv zeta.
  set (recs := records_of ops) in *. set (k := Z.to_nat (len recs - MAX_INBOX_RECORDS)).
  assert (omap op_event ops = omap op_event (take k recs) ++ omap op_event (drop k recs)) as Hsplit.
  { rewrite <- omap_app, take_drop. unfold recs, records_of. clear. induction ops as [|op ops IH]; [done|].
    rewrite filter_cons, omap_cons_app, IH. case_decide; [by rewrite omap_cons_app|by destruct op]. }
  pose proof Hasc as Hasc0. rewrite Hsplit in Hasc. apply StronglySorted_app in Hasc as (_ & _ & Hwin).
  assert (Forall op_ok (drop k recs) /\ Forall is_record (drop k recs)) as [Hok' Hrec'].
  { split; apply Forall_drop; unfold recs, records_of; [|apply Forall_forall; by intros x [? _]%list_elem_of_filter].
    rewrite Forall_forall in *. intros x [_ Hx]%list_elem_of_filter. by apply Hok. }
  assert (undelivered_events snap = filter (fun e => cursor_of ops <= e.1) (omap op_event (drop k recs))) as Hund.
  { unfold undelivered_events. rewrite Hcur, Hin. change (lastn MAX_INBOX_RECORDS recs) with (drop k recs).
    rewrite (undelivered_fold pc Hpc _ (drop k recs) []) by done. cbn [app]. apply sort_by_sorted.
    eapply StronglySorted_sublist; [apply sublist_filter|].
    eapply StronglySorted_impl; [|exact Hwin]. intros x y Hxy. by apply Z.compare_lt_iff. }
  split_and!; [done|done| |done|].
  - rewrite Hin, len_fmap, len_lastn by done. lia.
  - rewrite Hund. unfold lost_events, saturating_sub.
    assert (issued - cursor_of ops = len (filter (fun e => cursor_of ops <= e.1) (omap op_event ops))) as ->.
    { rewrite filter_events, Hids, filter_seqZ; lia. }
    rewrite Hsplit, filter_app, len_app. len_facts. lia.
Qed.

(** A run for the witness: three notes accepted around a malformed item, the
    first two acknowledged. *)
Definition inbox_note (seq : Z) : ApplicationContext :=
  mkContext group_seven 0 (replicate 32 x0a) ana cid seq (bstr "note").
Definition inbox_ops : list InboxOp :=
  [IoReceive EAdvanced (inbox_note 0) (DAccepted 0); IoMalformed EAdvanced (bstr "junk");
   IoReceive EAdvanced (inbox_note 0) (DDuplicate 0); IoReceive EAdvanced (inbox_note 1) (DAccepted 1);
   IoCursor 2; IoReceive EAdvanced (inbox_note 2) (DAccepted 2)].

