(* ===== verification/GroupInbound.v ===== *)
(** * GroupInbound: the coordinator's commits of what it receives
    ([tacenta-client/src/group_operations.rs], [group_client.rs])

    What a coordinator does with each decrypted group payload: one candidate
    snapshot per commit, published before the live value changes; the routing of
    a payload by its tag; the roster controls held for their predecessor and how
    they are drained; and the rebuilding of the group state from a snapshot.
    Both commitments are the standalone core's and parameters. *)

From S2P Require Import Prelude GroupCodec Invitation GroupPayload RosterView GroupReceive.
From S2P Require Import GroupSend GroupControl OperationStore DeferredRosters GroupTranscript GroupRecords.

(** ** Data *)
(** The production fields of [GroupReceiveInput]; the peer's address is used for
    its device only. *)
Record GroupReceiveInput := mkInput {
  in_plaintext : bytes;
  in_identity : bytes;
  in_device : byte;
  in_provider_state : bytes;
  in_effect : CryptoStateEffect
}.

Definition authenticated_peer (input : GroupReceiveInput) : Member := mkMember (in_identity input) [in_device input].

Record RosterCommit := mkRosterCommit {
  rc_disposition : RosterDisposition;
  rc_revalidated : list RevalidatedReceive;
  rc_held : bool
}.

Inductive GroupPayloadDisposition :=
| GApplication (d : ReceiveDisposition)
| GRoster (c : RosterCommit).

Record PreparedControl := mkPrepared { prep_recipient : Member; prep_payload : bytes; prep_ciphertext : bytes }.
Record InvitationAdmission := mkAdmission { ad_id : InvitationId; ad_target : Member; ad_now : Z }.
Record DeferredCommit := mkDeferredCommit { dc_queue : DeferredRosters; dc_applying : option Z }.

Record RosterCommitState := mkRosterState {
  rs_view : RosterView;
  rs_receiver : option GroupReceiver;
  rs_provider : option (bytes * CryptoStateEffect);
  rs_group_outbox : option GroupOutbox;
  rs_control_outbox : option ControlOutbox;
  rs_prepared : option PreparedControl;
  rs_book : option InvitationBook;
  rs_admission : option InvitationAdmission;
  rs_deferred : option DeferredCommit
}.

Record GroupEvent := mkEvent {
  ev_id : Z; ev_group_id : GroupId; ev_revision : Z; ev_sender : Member; ev_sequence : Z; ev_payload : bytes
}.

Definition event_new (id : Z) (c : ApplicationContext) : GroupEvent :=
  mkEvent id (c_group_id c) (c_revision c) (sender c) (logical_sequence c) (c_payload c).

Inductive GroupOutcome :=
| OEvent (e : GroupEvent)
| ODuplicateEvent (event_id : Z)
| ODeferred
| ORejected (r : ReceiveRefusal)
| ORoster (d : RosterDisposition) (events : list GroupEvent)
| ORosterDeferred
| OInvitation (b : InvitationBootstrap)
| OInvitationStatus (s : InvitationStatus)
| ORefused.

Record GroupState := mkGroupState {
  gs_group_id : GroupId;
  gs_authority : Member;
  gs_source : option Roster;
  gs_local : Member;
  gs_view : option RosterView;
  gs_receiver : option GroupReceiver;
  gs_outbox : GroupOutbox;
  gs_control : ControlOutbox;
  gs_book : InvitationBook;
  gs_deferred : DeferredRosters
}.

(** [GroupError]; the client's own error under [Client] is not modelled. *)
Inductive GroupError :=
| ErrClient | ErrFrozen | ErrPolicy | ErrTransport | ErrNoGroup | ErrRecovery | ErrStateMismatch | ErrRollback.

(** [From<GroupOperationError>]. *)
Definition group_error (e : GroupOperationError) : GroupError :=
  match e with Policy => ErrPolicy | Frozen => ErrFrozen end.

Definition map_group_error {A} (r : result GroupOperationError A) : result GroupError A :=
  match r with Ok x => Ok x | Err e => Err (group_error e) end.

Section Inbound.
Context (roster_commitment payload_commitment : bytes -> bytes).

(** ** Who may be told of a roster *)
Definition recipient_can_receive_roster_control (v : RosterView) (successor : Roster) (recipient : Member) : bool :=
  has_member (v_roster v) recipient || has_member successor recipient.

Definition recipient_can_observe_invitation_successor (book : option InvitationBook) (successor : Roster)
    (recipient : Member) (now : Z) : bool :=
  match book with
  | None => false
  | Some b =>
      existsb (fun i => bool_decide (i_group_id i = r_group_id successor) && bool_decide (i_target i = recipient)
        && (source_revision i <=? revision successor) && (now <? expires_at i)
        && match status i with Pending | AcceptedPendingAdmission => true | _ => false end) (invitations b)
  end.

Definition admission_is_revoked (book : option InvitationBook) (successor : Roster) (a : InvitationAdmission) : bool :=
  match book with
  | None => false
  | Some b =>
      existsb (fun i => bool_decide (i_group_id i = r_group_id successor) && bool_decide (i_id i = ad_id a)
        && bool_decide (i_target i = ad_target a) && bool_decide (status i = IRevoked)) (invitations b)
  end.

Definition recipient_can_receive_installed_roster_control (v : RosterView) (authenticated_authority recipient : Member)
    : bool := bool_decide (authority (v_roster v) = authenticated_authority) && has_member (v_roster v) recipient.

Definition replaced_roster_members (snap : OperationSnapshot) (v : RosterView) : list Member :=
  let g := r_group_id (v_roster v) in
  match (record ← latest_record (TCGS ++ g) (group_controls snap); strip_prefix (TCGS ++ g) record) with
  | None => []
  | Some rest =>
      match split_at_checked 4 rest with
      | None => []
      | Some (length, preimage) =>
          match to_array 4 length with
          | None => []
          | Some length =>
              if negb (len preimage =? be_value length)
                 || negb (bool_decide (roster_commitment preimage = predecessor_digest (v_roster v)))
              then [] else
              match roster_decode preimage with
              | Ok r => if bool_decide (r_group_id r = g) then members r else []
              | Err _ => []
              end
          end
      end
  end.

Definition roster_control_recipient_is_entitled (snap : OperationSnapshot) (v : RosterView)
    (book : option InvitationBook) (successor : Roster) (auth recipient : Member) (now : Z) : bool :=
  if bool_decide (v_roster v = successor) then
    recipient_can_receive_installed_roster_control v auth recipient
    || (bool_decide (authority (v_roster v) = auth) && bool_decide (recipient ∈ replaced_roster_members snap v))
    || recipient_can_observe_invitation_successor book successor recipient now
  else
    recipient_can_receive_roster_control v successor recipient
    || recipient_can_observe_invitation_successor book successor recipient now.

(** ** Recovery *)
Definition recover_group_receiver (snap : OperationSnapshot) : result GroupOperationError GroupReceiver :=
  map_err Policy (receiver_decode_state (application_state snap) roster_commitment payload_commitment).

Definition recover_group_roster_view (snap : OperationSnapshot) (pinned : Member)
    : result GroupOperationError RosterView :=
  record ← ok_or Policy (latest_record TCGV (group_controls snap));
  state ← decode_roster_view_record record;
  map_err Policy (view_decode_state state pinned roster_commitment).

Definition recover_group_invitation_book (snap : OperationSnapshot) (g : GroupId)
    : result GroupOperationError InvitationBook :=
  record ← ok_or Policy (latest_record TCGB (group_controls snap));
  state ← decode_invitation_book_record record;
  map_err Policy (book_decode_state state g).

Definition recover_group_control_outbox (snap : OperationSnapshot) : result GroupOperationError ControlOutbox :=
  match latest_record TCGO (group_controls snap) with
  | None => Ok control_default
  | Some record =>
      state ← decode_control_outbox_record record;
      map_err Policy (control_decode_state payload_commitment state)
  end.

Definition recover_group_deferred_rosters (snap : OperationSnapshot) (g : GroupId) (pinned : Member)
    : result GroupOperationError DeferredRosters :=
  match latest_record (TCGQ ++ g) (group_controls snap) with
  | None => Ok deferred_default
  | Some record => map_err Policy (deferred_decode_record record g pinned)
  end.

(** [attach], up to the draining of held controls. *)
Definition has_tag (tag : bytes) (snap : OperationSnapshot) : bool := existsb (starts_with tag) (group_controls snap).

Definition attach_view (snap : OperationSnapshot) (g : GroupId) (auth : Member) (source : option Roster)
    : result GroupError (option RosterView) :=
  if has_tag TCGV snap then
    v ← map_err ErrRecovery (recover_group_roster_view snap auth);
    if negb (bool_decide (r_group_id (v_roster v) = g)) then Err ErrPolicy else Ok (Some v)
  else
    match source with
    | Some s =>
        if negb (bool_decide (r_group_id s = g)) then Err ErrPolicy else
        preimage ← map_err ErrPolicy (roster_encode s);
        v ← map_err ErrPolicy (accept_source auth s (roster_commitment preimage));
        Ok (Some v)
    | None => Ok None
    end.

Definition attach_receiver (snap : OperationSnapshot) (local : Member) (view : option RosterView)
    : result GroupError (option GroupReceiver) :=
  match view with
  | None => Ok None
  | Some v =>
      if bool_decide (application_state snap = []) then Ok (Some (receiver_new (v_roster v) (v_digest v) local))
      else r ← map_err ErrRecovery (recover_group_receiver snap); Ok (Some r)
  end.

Definition attach_state (snap : OperationSnapshot) (local : Member) (g : GroupId) (auth : Member)
    (source : option Roster) : result GroupError GroupState :=
  view ← attach_view snap g auth source;
  receiver ← attach_receiver snap local view;
  outbox ← map_err ErrRecovery (recover_group_outbox payload_commitment snap g);
  control ← map_err ErrRecovery (recover_group_control_outbox snap);
  book ← (if has_tag TCGB snap then map_err ErrRecovery (recover_group_invitation_book snap g) else Ok (book_new g));
  deferred ← map_err ErrRecovery (recover_group_deferred_rosters snap g auth);
  Ok (mkGroupState g auth source local view receiver outbox control book deferred).

(** ** Commits of one application payload *)
Section Commits.
Context {St : Type} `{OperationStore St}.
Implicit Types (store : St) (snap : OperationSnapshot).

Definition commit_receive_disposition store snap (receiver : GroupReceiver) (c : ApplicationContext)
    (peer : Member) (state : bytes) (e : CryptoStateEffect)
    : St * result GroupOperationError (OperationSnapshot * (GroupReceiver * ReceiveDisposition)) :=
  publish store
    (context ← map_err Policy (context_encode c);
     let commitment := payload_commitment context in
     let '(receiver, d) := receive receiver c peer commitment in
     candidate ← begin_candidate store snap;
     application ← map_err Policy (receiver_encode_state receiver);
     candidate ← record_receive (with_application (with_provider candidate state) application) e context commitment d;
     Ok (candidate, (receiver, d))).

Definition commit_malformed_group_payload store snap (plaintext state : bytes) (e : CryptoStateEffect)
    : St * result GroupOperationError (OperationSnapshot * unit) :=
  publish store
    (candidate ← begin_candidate store snap;
     candidate ← record_malformed payload_commitment (with_provider candidate state) e plaintext;
     Ok (candidate, tt)).

Definition commit_provider_state store snap (state : bytes)
    : St * result GroupOperationError (OperationSnapshot * unit) :=
  publish store (candidate ← begin_candidate store snap; Ok (with_provider candidate state, tt)).

(** ** The roster transition *)
Definition is_roster_accepted (d : RosterDisposition) : bool := bool_decide (d = RosterAccepted).

(** What the transition does to the queue of held controls. *)
Definition deferred_transition (current_revision : Z) (candidate : Roster) (d : RosterDisposition)
    (deferred : DeferredCommit) : DeferredRosters * bool :=
  let queue := dc_queue deferred in
  let '(queue, held) :=
    match d with
    | RosterAccepted => (prune_through queue (revision candidate), false)
    | RosterRejected MissingPredecessor =>
        if (revision candidate >? saturating_add64 current_revision 1)
           && (revision candidate <=? saturating_add64 current_revision (1 + HOLD_AHEAD))
        then let '(queue, h) := hold queue candidate in
             (queue, match h with Held | HoldDuplicate => true | HoldRefused => false end)
        else (queue, false)
    | _ => (queue, false)
    end in
  (match dc_applying deferred with Some rev => deferred_remove queue rev | None => queue end, held).

(** The control outbox and its record, with the prepared control recorded. *)
Definition prepared_transition (d : RosterDisposition) (outbox : option ControlOutbox)
    (prepared : option PreparedControl) : result GroupOperationError (option ControlOutbox * list bytes) :=
  match prepared with
  | None => Ok (outbox, [])
  | Some p =>
      if negb (is_roster_accepted d) then Err Policy else
      o ← ok_or Policy outbox;
      '(o, _) ← map_err Policy (control_record_prepared payload_commitment o (prep_recipient p) (prep_payload p) (prep_ciphertext p));
      state ← map_err Policy (control_encode_state payload_commitment o);
      record ← encode_control_outbox_record state;
      Ok (Some o, [record])
  end.

(** The invitation book and its record, with the invitation admitted. *)
Definition admission_transition (d : RosterDisposition) (candidate : Roster) (authenticated_authority : Member)
    (book : option InvitationBook) (admission : option InvitationAdmission)
    : result GroupOperationError (option InvitationBook * list bytes) :=
  match admission with
  | None => Ok (book, [])
  | Some a =>
      if negb (is_roster_accepted d) || negb (has_member candidate (ad_target a)) then Err Policy else
      b ← ok_or Policy book;
      if negb (existsb (fun i => bool_decide (i_id i = ad_id a) && bool_decide (i_target i = ad_target a)) (invitations b))
      then Err Policy else
      let '(b, r) := book_admit b (ad_id a) authenticated_authority (authority candidate) (revision candidate) (ad_now a) in
      _ ← map_err Policy r;
      state ← map_err Policy (book_encode_state b);
      record ← encode_invitation_book_record state;
      Ok (Some b, [record])
  end.

(** The records of the contexts a roster revalidated. *)
Fixpoint record_revalidated snap (items : list RevalidatedReceive) : result GroupOperationError OperationSnapshot :=
  match items with
  | [] => Ok snap
  | item :: items =>
      context ← map_err Policy (context_encode (rr_context item));
      snap ← record_receive snap EUnchanged context (rr_commitment item) (rr_disposition item);
      record_revalidated snap items
  end.

(** The receiver after the transition, with what it revalidated. *)
Definition receiver_transition (d : RosterDisposition) (candidate : Roster) (commitment : bytes)
    (receiver : option GroupReceiver) snap
    : result GroupOperationError (OperationSnapshot * option GroupReceiver * list RevalidatedReceive) :=
  '(snap, receiver, revalidated) ←
    (match receiver with
     | Some r =>
         if is_roster_accepted d then
           let '(r, out) := install_accepted_roster r candidate commitment in
           items ← map_err Policy out;
           snap ← record_revalidated snap items;
           Ok (snap, Some r, items)
         else Ok (snap, Some r, [])
     | None => Ok (snap, None, [])
     end);
  match receiver with
  | None => Ok (snap, None, revalidated)
  | Some r =>
      application ← map_err Policy (receiver_encode_state r);
      Ok (with_application snap application, Some r, revalidated)
  end.

(** The outbox after the transition, with its transcript compacted. *)
Definition outbox_transition (d : RosterDisposition) (g : GroupId) (outbox : option GroupOutbox) snap
    : result GroupOperationError (OperationSnapshot * option GroupOutbox) :=
  match outbox with
  | Some o =>
      if is_roster_accepted d then
        '(snap, compacted) ← compact_group_outbox payload_commitment snap g;
        Ok (snap, Some (default o compacted))
      else Ok (snap, Some o)
  | None => Ok (snap, None)
  end.

(** The control records of the transition, up to the deferred queue's. *)
Definition transition_records (state : RosterCommitState) (candidate : Roster) (preimage commitment : bytes)
    (d : RosterDisposition) : result GroupOperationError (list bytes) :=
  record ← encode_roster_record preimage commitment d;
  if is_roster_accepted d then
    replaced ← map_err Policy (roster_encode (v_roster (rs_view state)));
    replaced ← encode_replaced_roster_record (r_group_id candidate) replaced;
    Ok [record; encode_group_outbox_cancellation_record (r_group_id candidate) (revision candidate); replaced]
  else Ok [record].

Definition deferred_record (original queue : option DeferredRosters) (g : GroupId)
    : result GroupOperationError (list bytes) :=
  match queue with
  | Some q => if bool_decide (queue = original) then Ok [] else
      record ← map_err Policy (deferred_encode_record q g); Ok [record]
  | None => Ok []
  end.

Definition commit_roster_transition store snap (state : RosterCommitState) (authenticated_authority : Member)
    (candidate : Roster) (logical_sends : list LogicalSend)
    : St * result GroupOperationError (OperationSnapshot * (RosterCommitState * list LogicalSend * RosterCommit)) :=
  publish store
    (preimage ← map_err Policy (roster_encode candidate);
     let commitment := roster_commitment preimage in
     let '(view, d) := accept_successor (rs_view state) authenticated_authority candidate commitment in
     let deferred := deferred_transition (revision (v_roster (rs_view state))) candidate d <$> rs_deferred state in
     let held := from_option snd false deferred in
     let accepted := is_roster_accepted d in
     let sends := if accepted then
         (fun s => if bool_decide (l_group_id (s_id s) = r_group_id candidate)
                   then send_cancel_for_newer_roster s (revision candidate) else s) <$> logical_sends
       else logical_sends in
     let group_outbox := if accepted then (fun o => cancel_for_newer_roster o (revision candidate)) <$> rs_group_outbox state
       else rs_group_outbox state in
     c ← begin_candidate store snap;
     records ← transition_records state candidate preimage commitment d;
     let c := match rs_provider state with Some (provider, _) => with_provider c provider | None => c end in
     '(control_outbox, prepared) ← prepared_transition d (rs_control_outbox state) (rs_prepared state);
     '(book, admitted) ← admission_transition d candidate authenticated_authority (rs_book state) (rs_admission state);
     let effect := match rs_provider state with Some (_, e) => [encode_control_effect_record e] | None => [] end in
     view_state ← map_err Policy (view_encode_state view);
     view_record ← encode_roster_view_record view_state;
     queue_record ← deferred_record (dc_queue <$> rs_deferred state) (fst <$> deferred) (r_group_id candidate);
     let c := append_group_control_records c (records ++ prepared ++ admitted ++ effect ++ [view_record] ++ queue_record) in
     '(c, group_outbox) ← outbox_transition d (r_group_id candidate) group_outbox c;
     '(c, receiver, revalidated) ← receiver_transition d candidate commitment (rs_receiver state) c;
     Ok (c, (mkRosterState view receiver (rs_provider state) group_outbox control_outbox (rs_prepared state) book
               (rs_admission state)
               (match rs_deferred state, deferred with
                | Some dc, Some (q, _) => Some (mkDeferredCommit q (dc_applying dc))
                | _, _ => rs_deferred state
                end),
             sends, mkRosterCommit d revalidated held))).

(** ** Held controls *)
Definition commit_hold_roster_without_view store snap (queue : DeferredRosters) (pinned : Member) (g : GroupId)
    (control : Roster) (state : bytes) (e : CryptoStateEffect)
    : St * result GroupOperationError (OperationSnapshot * DeferredRosters) :=
  publish store
    (_ ← guard_err Policy (negb (bool_decide (r_group_id control = g)) || negb (bool_decide (authority control = pinned))
                           || (revision control =? 0));
     let '(queue, h) := hold_keeping_lowest queue control in
     _ ← guard_err Policy (bool_decide (h = HoldRefused));
     candidate ← begin_candidate store snap;
     let candidate := with_provider candidate state in
     record ← map_err Policy (deferred_encode_record queue g);
     Ok (append_group_control_records candidate [encode_control_effect_record e; record], queue)).

Definition commit_prune_deferred_rosters store snap (v : RosterView) (g : GroupId) (queue : DeferredRosters)
    : St * result GroupOperationError (OperationSnapshot * (DeferredRosters * bool)) :=
  let pruned := prune_through queue (revision (v_roster v)) in
  if bool_decide (pruned = queue) then (store, Ok (snap, (queue, false))) else
  publish store
    (candidate ← begin_candidate store snap;
     record ← map_err Policy (deferred_encode_record pruned g);
     Ok (append_group_control_records candidate [record], (pruned, true))).

(** The state a control from the wire, or a held one, is judged with. *)
Definition wire_state (v : RosterView) (receiver : GroupReceiver) (provider : option (bytes * CryptoStateEffect))
    (outbox : GroupOutbox) (queue : DeferredRosters) (applying : option Z) : RosterCommitState :=
  mkRosterState v (Some receiver) provider (Some outbox) None None None None (Some (mkDeferredCommit queue applying)).

(** The parts such a transition writes back. *)
Definition wire_parts (state : RosterCommitState) (receiver : GroupReceiver) (outbox : GroupOutbox)
    (queue : DeferredRosters) : RosterView * GroupReceiver * GroupOutbox * DeferredRosters :=
  (rs_view state, default receiver (rs_receiver state), default outbox (rs_group_outbox state),
   from_option dc_queue queue (rs_deferred state)).

Definition commit_next_deferred_roster store snap (v : RosterView) (receiver : GroupReceiver) (outbox : GroupOutbox)
    (queue : DeferredRosters)
    : St * result GroupOperationError
        (OperationSnapshot * (RosterView * GroupReceiver * GroupOutbox * DeferredRosters * option RosterCommit)) :=
  match next_for queue v with
  | None => (store, Ok (snap, (v, receiver, outbox, queue, None)))
  | Some next =>
      let '(store, r) := commit_roster_transition store snap
        (wire_state v receiver None outbox queue (Some (revision next))) (authority (v_roster v)) next [] in
      (store,
       '(snap, (state, _, commit)) ← r;
       Ok (snap, (wire_parts state receiver outbox queue, Some commit)))
  end.

(** The payload's dispatch, for a coordinator with a view. *)
Definition commit_group_payload_with_deferred store snap (v : RosterView) (receiver : GroupReceiver)
    (outbox : GroupOutbox) (queue : DeferredRosters) (input : GroupReceiveInput)
    : St * result GroupOperationError
        (OperationSnapshot * (RosterView * GroupReceiver * GroupOutbox * DeferredRosters * GroupPayloadDisposition)) :=
  let malformed :=
    let '(store, r) := commit_malformed_group_payload store snap (in_plaintext input) (in_provider_state input) (in_effect input) in
    (store,
     '(snap, _) ← r;
     Ok (snap, (v, receiver, outbox, queue, GApplication (DRejected FMalformed)))) in
  match payload_decode (in_plaintext input) with
  | Err _ => malformed
  | Ok (PApplication context) =>
      let '(store, r) := commit_receive_disposition store snap receiver context (authenticated_peer input)
        (in_provider_state input) (in_effect input) in
      (store,
       '(snap, (receiver, d)) ← r;
       Ok (snap, (v, receiver, outbox, queue, GApplication d)))
  | Ok (PRoster candidate) =>
      let '(store, r) := commit_roster_transition store snap
        (wire_state v receiver (Some (in_provider_state input, in_effect input)) outbox queue None)
        (authenticated_peer input) candidate [] in
      (store,
       '(snap, (state, _, commit)) ← r;
       Ok (snap, (wire_parts state receiver outbox queue, GRoster commit)))
  | Ok (PBootstrap _) | Ok (PAcceptance _) | Ok (PRevocation _) => malformed
  end.

(** ** Invitations *)
Definition commit_group_invitation_transition_with_provider {A} store snap (book : InvitationBook)
    (provider : option (bytes * CryptoStateEffect)) (transition : InvitationBook -> InvitationBook * result Error A)
    : St * result GroupOperationError (OperationSnapshot * (InvitationBook * A)) :=
  publish store
    (let '(book, r) := transition book in
     x ← map_err Policy r;
     state ← map_err Policy (book_encode_state book);
     candidate ← begin_candidate store snap;
     record ← encode_invitation_book_record state;
     let '(candidate, records) := match provider with
       | Some (p, e) => (with_provider candidate p, [record; encode_control_effect_record e])
       | None => (candidate, [record])
       end in
     Ok (append_group_control_records candidate records, (book, x))).

Definition commit_group_invitation_transition {A} store snap (book : InvitationBook)
    (transition : InvitationBook -> InvitationBook * result Error A)
    : St * result GroupOperationError (OperationSnapshot * (InvitationBook * A)) :=
  commit_group_invitation_transition_with_provider store snap book None transition.

(** [commit_invalid_invitation_control], and the same two steps written out in
    the other two handlers: the refusal is committed and [Policy] returned. *)
Definition commit_invalid_invitation_control {A} store snap (book : InvitationBook) (input : GroupReceiveInput)
    : St * (OperationSnapshot * InvitationBook) * result GroupOperationError A :=
  match commit_malformed_group_payload store snap (in_plaintext input) (in_provider_state input) (in_effect input) with
  | (store, Ok (snap, _)) => (store, (snap, book), Err Policy)
  | (store, Err e) => (store, (snap, book), Err e)
  end.

(** The transition of a control, or its refusal. *)
Definition commit_invitation_control {A} store snap (book : InvitationBook) (input : GroupReceiveInput)
    (transition : InvitationBook -> InvitationBook * result Error A)
    : St * (OperationSnapshot * InvitationBook) * result GroupOperationError A :=
  match commit_group_invitation_transition_with_provider store snap book
          (Some (in_provider_state input, in_effect input)) transition with
  | (store, Ok (snap, (book, x))) => (store, (snap, book), Ok x)
  | (store, Err Policy) => commit_invalid_invitation_control store snap book input
  | (store, Err Frozen) => (store, (snap, book), Err Frozen)
  end.

(** [map] of a book operation's result. *)
Definition book_map {A} (f : Invitation -> A) (r : InvitationBook * result Error Invitation)
    : InvitationBook * result Error A := let '(b, x) := r in (b, i ← x; Ok (f i)).

Definition commit_group_invitation_bootstrap store snap (book : InvitationBook) (local : Member) (now : Z)
    (input : GroupReceiveInput)
    : St * (OperationSnapshot * InvitationBook) * result GroupOperationError InvitationBootstrap :=
  match payload_decode (in_plaintext input) with
  | Ok (PBootstrap b) =>
      match roster_encode (source_roster b) with
      | Err _ => (store, (snap, book), Err Policy)
      | Ok preimage =>
          if match validate_source_digest b (roster_commitment preimage) with Err _ => true | Ok _ => false end
             || closed (source_roster b)
             || negb (bool_decide (authority (source_roster b) = authenticated_peer input))
             || negb (bool_decide (i_target (b_invitation b) = local))
          then commit_invalid_invitation_control store snap book input
          else commit_invitation_control store snap book input (fun candidate =>
                 book_map (fun _ => b) (book_create candidate (authenticated_peer input) (authority (source_roster b))
                   (members (source_roster b)) (b_invitation b) now))
      end
  | _ => commit_invalid_invitation_control store snap book input
  end.

Definition commit_group_invitation_acceptance store snap (book : InvitationBook) (now : Z) (input : GroupReceiveInput)
    : St * (OperationSnapshot * InvitationBook) * result GroupOperationError InvitationStatus :=
  match payload_decode (in_plaintext input) with
  | Ok (PAcceptance a) =>
      if negb (bool_decide (a_group_id a = book_group_id book))
      then commit_invalid_invitation_control store snap book input
      else commit_invitation_control store snap book input (fun candidate =>
             book_map status (book_accept candidate (a_invitation_id a) (authenticated_peer input)
               (a_source_revision a) (a_source_roster_digest a) now))
  | _ => commit_invalid_invitation_control store snap book input
  end.

Definition commit_group_invitation_revocation store snap (book : InvitationBook) (local_target source_authority : Member)
    (now : Z) (input : GroupReceiveInput)
    : St * (OperationSnapshot * InvitationBook) * result GroupOperationError InvitationStatus :=
  match payload_decode (in_plaintext input) with
  | Ok (PRevocation v) =>
      let matches := existsb (fun i => bool_decide (i_id i = v_invitation_id v) && bool_decide (i_group_id i = v_group_id v)
        && bool_decide (i_target i = local_target) && (source_revision i =? v_source_revision v)
        && bool_decide (source_roster_digest i = v_source_roster_digest v)) (invitations book) in
      if negb (bool_decide (v_group_id v = book_group_id book))
         || negb (bool_decide (authenticated_peer input = source_authority)) || negb matches
      then commit_invalid_invitation_control store snap book input
      else commit_invitation_control store snap book input (fun candidate =>
             book_map status (book_revoke candidate (v_invitation_id v) source_authority source_authority now))
  | _ => commit_invalid_invitation_control store snap book input
  end.

(** ** Control handoffs *)
Definition commit_group_control_outbox_transition {A} store snap (outbox : ControlOutbox)
    (transition : ControlOutbox -> result Error (ControlOutbox * A))
    : St * result GroupOperationError (OperationSnapshot * (ControlOutbox * A)) :=
  publish store
    ('(outbox, x) ← map_err Policy (transition outbox);
     state ← map_err Policy (control_encode_state payload_commitment outbox);
     candidate ← begin_candidate store snap;
     record ← encode_control_outbox_record state;
     Ok (append_group_control_records candidate [record], (outbox, x))).

Definition commit_prepared_control_handoff store snap (outbox : ControlOutbox) (m : Member)
    (payload ciphertext state : bytes)
    : St * result GroupOperationError (OperationSnapshot * (ControlOutbox * Handoff)) :=
  publish store
    ('(outbox, _) ← map_err Policy (control_record_prepared payload_commitment outbox m payload ciphertext);
     encoded ← map_err Policy (control_encode_state payload_commitment outbox);
     handoff ← map_err Policy (control_handoff payload_commitment outbox m payload);
     candidate ← begin_candidate store snap;
     record ← encode_control_outbox_record encoded;
     Ok (append_group_control_records (with_provider candidate state) [record], (outbox, handoff))).

Definition commit_authority_invitation_revocation_transition store snap (book : InvitationBook)
    (outbox : ControlOutbox) (auth : Member) (id : InvitationId) (now : Z)
    : St * result GroupOperationError (OperationSnapshot * (InvitationBook * ControlOutbox * Invitation)) :=
  publish store
    (let '(book, r) := book_revoke book id auth auth now in
     i ← map_err Policy r;
     let outbox := cancel_non_revocation_for_recipient outbox (i_target i) in
     book_state ← map_err Policy (book_encode_state book);
     outbox_state ← map_err Policy (control_encode_state payload_commitment outbox);
     candidate ← begin_candidate store snap;
     book_record ← encode_invitation_book_record book_state;
     outbox_record ← encode_control_outbox_record outbox_state;
     Ok (append_group_control_records candidate [book_record; outbox_record], (book, outbox, i))).
End Commits.
End Inbound.
