(* ===== verification/GroupClient.v ===== *)
(** * GroupClient: routing, draining and receiving
    ([tacenta-client/src/group_client.rs])

    The coordinator over its store: every decrypted payload is routed by its own
    tag to one of the commits, held roster controls are applied when the view
    reaches them, and a [receive] call acknowledges what the call before handed
    over, offers what was not, and processes at most 32 items.  What the client
    connection does (fetching, decrypting, acknowledging to the relay) is the
    input of the model: a list of staged items or errors. *)

From S2P Require Import Prelude GroupCodec Invitation GroupPayload RosterView GroupReceive.
From S2P Require Import GroupSend GroupControl OperationStore DeferredRosters GroupTranscript GroupRecords GroupInbound.

Inductive MessageKind := KDirect | KGroup | KReceipt.

#[global] Instance MessageKind_eq_dec : EqDecision MessageKind.
Proof. solve_decision. Defined.

(** The fields of [StagedItem] the coordinator reads. *)
Record StagedItem := mkStaged {
  si_device : byte;
  si_kind : MessageKind;
  si_plaintext : option bytes;
  si_identity : option bytes;
  si_effect : CryptoStateEffect;
  si_provider_state : bytes
}.

(** What one item adds to the [Inbound]. *)
Inductive ItemResult :=
| RDropped
| RDirect (plaintext : bytes) (kind : MessageKind)
| RItem (o : GroupOutcome).

Record Inbound := mkInbound {
  redelivered : list GroupEvent;
  inbound_lost : Z;
  items : list ItemResult;
  inbound_frozen : bool
}.

Definition item_events (r : ItemResult) : list GroupEvent :=
  match r with
  | RItem (OEvent e) => [e]
  | RItem (ORoster _ events) => events
  | _ => []
  end.

Definition inbound_events (i : Inbound) : list GroupEvent := redelivered i ++ (items i ≫= item_events).

Definition MAX_RECEIVE_ITEMS : nat := 32.

Section GroupClient.
Context (roster_commitment payload_commitment : bytes -> bytes).
Context {St : Type} `{OperationStore St}.
Implicit Types (store : St) (snap : OperationSnapshot).

(** ** Draining the held controls *)
Definition accepted_events (l : list RevalidatedReceive) : list GroupEvent :=
  omap (fun item => match rr_disposition item with
                    | DAccepted id => Some (event_new id (rr_context item))
                    | _ => None
                    end) l.

Definition Parts : Type := RosterView * GroupReceiver * GroupOutbox * DeferredRosters.

(** The loop; [None] is that it has not ended. *)
Fixpoint drain_loop (fuel : nat) store snap (parts : Parts) (events : list GroupEvent)
    : option (St * (OperationSnapshot * Parts) * result GroupOperationError (list GroupEvent)) :=
  match fuel with
  | O => None
  | S fuel =>
      let '(v, receiver, outbox, queue) := parts in
      match commit_next_deferred_roster roster_commitment payload_commitment store snap v receiver outbox queue with
      | (store, Err e) => Some (store, (snap, parts), Err e)
      | (store, Ok (snap, (parts, None))) => Some (store, (snap, parts), Ok events)
      | (store, Ok (snap, (parts, Some commit))) =>
          drain_loop fuel store snap parts (events ++ accepted_events (rc_revalidated commit))
      end
  end.

Definition with_parts (g : GroupState) (parts : Parts) : GroupState :=
  let '(v, receiver, outbox, queue) := parts in
  mkGroupState (gs_group_id g) (gs_authority g) (gs_source g) (gs_local g) (Some v) (Some receiver) outbox
    (gs_control g) (gs_book g) queue.

(** Each turn but the last takes a control out of the queue, so its length
    bounds the turns. *)
Definition drain_deferred_rosters store snap (g : GroupState)
    : St * (OperationSnapshot * GroupState) * result GroupOperationError (list GroupEvent) :=
  match gs_view g, gs_receiver g with
  | Some v, Some receiver =>
      match drain_loop (S (length (rosters (gs_deferred g)))) store snap (v, receiver, gs_outbox g, gs_deferred g) [] with
      | None => (store, (snap, g), Err Frozen)
      | Some (store, (snap, parts), Err e) => (store, (snap, with_parts g parts), Err e)
      | Some (store, (snap, parts), Ok events) =>
          let '(v, receiver, outbox, queue) := parts in
          match commit_prune_deferred_rosters store snap v (gs_group_id g) queue with
          | (store, Err e) => (store, (snap, with_parts g parts), Err e)
          | (store, Ok (snap, (queue, _))) => (store, (snap, with_parts g (v, receiver, outbox, queue)), Ok events)
          end
      end
  | _, _ => (store, (snap, g), Ok [])
  end.

(** [attach]: what is rebuilt is kept even when draining fails. *)
Definition attach store snap (group : option GroupState) (local : Member) (id : GroupId) (auth : Member)
    (source : option Roster) : St * (OperationSnapshot * option GroupState) * result GroupError unit :=
  match attach_state roster_commitment payload_commitment snap local id auth source with
  | Err e => (store, (snap, group), Err e)
  | Ok g =>
      let '(store, (snap, g), r) := drain_deferred_rosters store snap g in
      (store, (snap, Some g), match r with Ok _ => Ok tt | Err e => Err (group_error e) end)
  end.

(** [create_group], [join_group] and [await_group]; [local] is the client's own
    member. *)
Definition create_group store snap (group : option GroupState) (local : Member) (id : GroupId)
    : St * (OperationSnapshot * option GroupState) * result GroupError unit :=
  match roster_new id 0 zero_digest local POLICY_VERSION_V1 false [local] with
  | Err _ => (store, (snap, group), Err ErrPolicy)
  | Ok genesis => attach store snap group local id local (Some genesis)
  end.

Definition join_group store snap (group : option GroupState) (local : Member) (source : Roster) (auth : Member)
    : St * (OperationSnapshot * option GroupState) * result GroupError unit :=
  attach store snap group local (r_group_id source) auth (Some source).

Definition await_group store snap (group : option GroupState) (local : Member) (id : GroupId) (auth : Member)
    : St * (OperationSnapshot * option GroupState) * result GroupError unit :=
  attach store snap group local id auth None.

(** The successor of the accepted roster for some members. *)
Definition next_roster (group : option GroupState) (ms : list Member) : result GroupError Roster :=
  g ← ok_or ErrNoGroup group;
  v ← ok_or ErrPolicy (gs_view g);
  rev ← ok_or ErrPolicy (checked_add64 (revision (v_roster v)) 1);
  map_err ErrPolicy (roster_new (gs_group_id g) rev (v_digest v) (gs_authority g) POLICY_VERSION_V1 false
    (sort_by canonical_cmp ms)).

(** ** Routing *)
Definition receive_outcome (d : ReceiveDisposition) (c : ApplicationContext) : GroupOutcome :=
  match d with
  | DAccepted id => OEvent (event_new id c)
  | DDuplicate id => ODuplicateEvent id
  | DDeferred => ODeferred
  | DRejected r => ORejected r
  end.

Definition refuse {G} store snap (g : G) (input : GroupReceiveInput)
    : St * (OperationSnapshot * G) * result GroupOperationError GroupOutcome :=
  match commit_malformed_group_payload payload_commitment store snap (in_plaintext input) (in_provider_state input)
          (in_effect input) with
  | (store, Ok (snap, _)) => (store, (snap, g), Ok ORefused)
  | (store, Err e) => (store, (snap, g), Err e)
  end.

Definition with_book (g : GroupState) (b : InvitationBook) : GroupState :=
  mkGroupState (gs_group_id g) (gs_authority g) (gs_source g) (gs_local g) (gs_view g) (gs_receiver g) (gs_outbox g)
    (gs_control g) b (gs_deferred g).

Definition with_queue (g : GroupState) (q : DeferredRosters) : GroupState :=
  mkGroupState (gs_group_id g) (gs_authority g) (gs_source g) (gs_local g) (gs_view g) (gs_receiver g) (gs_outbox g)
    (gs_control g) (gs_book g) q.

(** The result of an invitation control: a refusal is committed, not an error. *)
Definition invitation_outcome {A} (g : GroupState) (f : A -> GroupOutcome)
    (r : St * (OperationSnapshot * InvitationBook) * result GroupOperationError A)
    : St * (OperationSnapshot * GroupState) * result GroupOperationError GroupOutcome :=
  let '(store, (snap, book), r) := r in
  (store, (snap, with_book g book),
   match r with Ok x => Ok (f x) | Err Policy => Ok ORefused | Err Frozen => Err Frozen end).

(** The roster branch of a coordinator with a view. *)
Definition route_roster store snap (g : GroupState) (v : RosterView) (receiver : GroupReceiver) (input : GroupReceiveInput)
    : St * (OperationSnapshot * GroupState) * result GroupOperationError GroupOutcome :=
  match commit_group_payload_with_deferred roster_commitment payload_commitment store snap v receiver (gs_outbox g)
          (gs_deferred g) input with
  | (store, Err e) => (store, (snap, g), Err e)
  | (store, Ok (snap, (parts, GApplication _))) => (store, (snap, with_parts g parts), Err Policy)
  | (store, Ok (snap, (parts, GRoster commit))) =>
      let g := with_parts g parts in
      if rc_held commit then (store, (snap, g), Ok ORosterDeferred) else
      let events := accepted_events (rc_revalidated commit) in
      if is_roster_accepted (rc_disposition commit) then
        match drain_deferred_rosters store snap g with
        | (store, (snap, g), Ok more) => (store, (snap, g), Ok (ORoster (rc_disposition commit) (events ++ more)))
        | (store, (snap, g), Err e) => (store, (snap, g), Err e)
        end
      else (store, (snap, g), Ok (ORoster (rc_disposition commit) events))
  end.

Definition route store snap (g : GroupState) (now : Z) (input : GroupReceiveInput)
    : St * (OperationSnapshot * GroupState) * result GroupOperationError GroupOutcome :=
  match payload_decode (in_plaintext input) with
  | Err _ => refuse store snap g input
  | Ok (PApplication context) =>
      match gs_view g, gs_receiver g with
      | Some v, Some receiver =>
          match commit_group_payload_with_deferred roster_commitment payload_commitment store snap v receiver
                  (gs_outbox g) (gs_deferred g) input with
          | (store, Err e) => (store, (snap, g), Err e)
          | (store, Ok (snap, (parts, GApplication d))) => (store, (snap, with_parts g parts), Ok (receive_outcome d context))
          | (store, Ok (snap, (parts, GRoster _))) => (store, (snap, with_parts g parts), Err Policy)
          end
      | _, _ => refuse store snap g input
      end
  | Ok (PRoster control) =>
      match gs_view g, gs_receiver g with
      | Some v, Some receiver => route_roster store snap g v receiver input
      | _, _ =>
          if negb (bool_decide (authenticated_peer input = gs_authority g)) then refuse store snap g input else
          match commit_hold_roster_without_view store snap (gs_deferred g) (gs_authority g) (gs_group_id g) control
                  (in_provider_state input) (in_effect input) with
          | (store, Ok (snap, queue)) => (store, (snap, with_queue g queue), Ok ORosterDeferred)
          | (store, Err Policy) => refuse store snap g input
          | (store, Err Frozen) => (store, (snap, g), Err Frozen)
          end
      end
  | Ok (PBootstrap _) =>
      if negb (bool_decide (authenticated_peer input = gs_authority g)) then refuse store snap g input else
      invitation_outcome g OInvitation
        (commit_group_invitation_bootstrap roster_commitment payload_commitment store snap (gs_book g) (gs_local g) now input)
  | Ok (PAcceptance _) =>
      invitation_outcome g OInvitationStatus
        (commit_group_invitation_acceptance payload_commitment store snap (gs_book g) now input)
  | Ok (PRevocation _) =>
      invitation_outcome g OInvitationStatus
        (commit_group_invitation_revocation payload_commitment store snap (gs_book g) (gs_local g) (gs_authority g) now input)
  end.

(** ** The coordinator *)
Record Coord := mkCoord {
  co_store : St;
  co_snap : OperationSnapshot;
  co_group : option GroupState;
  co_poisoned : bool;
  co_handed_over : Z
}.

Definition is_frozen (c : Coord) : bool := co_poisoned c || store_is_frozen (co_store c).

Definition after_commit (c : Coord) store snap (group : option GroupState) : Coord :=
  mkCoord store snap group (co_poisoned c) (co_handed_over c).

Definition route_item (c : Coord) (now : Z) (input : GroupReceiveInput) : Coord * result GroupOperationError GroupOutcome :=
  match payload_decode (in_plaintext input), co_group c with
  | Ok _, Some g =>
      let '(store, (snap, g), r) := route (co_store c) (co_snap c) g now input in (after_commit c store snap (Some g), r)
  | _, _ =>
      let '(store, (snap, g), r) := refuse (co_store c) (co_snap c) (co_group c) input in (after_commit c store snap g, r)
  end.

Definition commit_item (c : Coord) (now : Z) (item : StagedItem) : Coord * result GroupOperationError ItemResult :=
  match si_plaintext item with
  | None =>
      if bool_decide (si_effect item = EUnchanged) then (c, Ok RDropped) else
      match commit_malformed_group_payload payload_commitment (co_store c) (co_snap c) [] (si_provider_state item) (si_effect item) with
      | (store, Ok (snap, _)) => (after_commit c store snap (co_group c), Ok RDropped)
      | (store, Err e) => (after_commit c store (co_snap c) (co_group c), Err e)
      end
  | Some plaintext =>
      if negb (bool_decide (si_kind item = KGroup)) then
        match commit_provider_state (co_store c) (co_snap c) (si_provider_state item) with
        | (store, Ok (snap, _)) => (after_commit c store snap (co_group c), Ok (RDirect plaintext (si_kind item)))
        | (store, Err e) => (after_commit c store (co_snap c) (co_group c), Err e)
        end
      else
        match si_identity item with
        | None =>
            match commit_malformed_group_payload payload_commitment (co_store c) (co_snap c) plaintext (si_provider_state item)
                    (si_effect item) with
            | (store, Ok (snap, _)) => (after_commit c store snap (co_group c), Ok (RItem ORefused))
            | (store, Err e) => (after_commit c store (co_snap c) (co_group c), Err e)
            end
        | Some peer_identity =>
            let '(c, r) := route_item c now (mkInput plaintext peer_identity (si_device item) (si_provider_state item) (si_effect item)) in
            (c, o ← r; Ok (RItem o))
        end
  end.

Definition poison (c : Coord) : Coord := mkCoord (co_store c) (co_snap c) (co_group c) true (co_handed_over c).

(** One message: [None] is that it could not be opened. *)
Definition stage (c : Coord) (now : Z) (opened : option StagedItem) : Coord * result GroupError ItemResult :=
  match opened with
  | None => (poison c, Err ErrClient)
  | Some item =>
      let '(c, r) := commit_item c now item in
      match r with Ok x => (c, Ok x) | Err e => (poison c, Err (group_error e)) end
  end.

(** The batch: it stops at the first item that fails. *)
Fixpoint stage_all (c : Coord) (now : Z) (messages : list (option StagedItem))
    : Coord * list ItemResult * option GroupError :=
  match messages with
  | [] => (c, [], None)
  | m :: messages =>
      match stage c now m with
      | (c, Ok x) => let '(c, xs, stopped) := stage_all c now messages in (c, x :: xs, stopped)
      | (c, Err e) => (c, [], Some e)
      end
  end.

Definition acknowledge_delivery (c : Coord) : Coord * result GroupError unit :=
  if is_frozen c then (c, Err ErrFrozen) else
  if co_handed_over c >? delivery_cursor (co_snap c) then
    match commit_delivery_cursor (co_store c) (co_snap c) (co_handed_over c) with
    | (store, Ok (snap, _)) => (after_commit c store snap (co_group c), Ok tt)
    | (store, Err e) => (after_commit c store (co_snap c) (co_group c), Err (group_error e))
    end
  else (c, Ok tt).

(** What a completed call has handed over. *)
Definition hand_over (c : Coord) (inbound : Inbound) (issued : Z) : Coord :=
  let handed := match max_of (ev_id <$> inbound_events inbound) with
                | Some highest => Z.max (co_handed_over c) (saturating_add64 highest 1)
                | None => co_handed_over c
                end in
  let handed := if inbound_lost inbound >? 0 then Z.max handed issued else handed in
  mkCoord (co_store c) (co_snap c) (co_group c) (co_poisoned c) handed.

Definition coord_issued (c : Coord) : Z :=
  match co_group c with
  | Some g => from_option events_issued 0 (gs_receiver g)
  | None => 0
  end.

(** [receive], given what was fetched and whether the relay took the
    acknowledgment of the processed prefix. *)
Definition client_receive (c : Coord) (now : Z) (fetched : option (list (option StagedItem))) (acknowledged : bool)
    : Coord * result GroupError Inbound :=
  if is_frozen c then (c, Err ErrFrozen) else
  let '(c, r) := acknowledge_delivery c in
  match r with
  | Err e => (c, Err e)
  | Ok _ =>
      let undelivered := undelivered_events (co_snap c) in
      let issued := coord_issued c in
      let lost := lost_events issued (delivery_cursor (co_snap c)) (len undelivered) in
      match fetched with
      | None => (c, Err ErrClient)
      | Some messages =>
          let '(c, results, stopped) := stage_all c now (take MAX_RECEIVE_ITEMS messages) in
          if (0 <? len results) && negb acknowledged then (c, Err ErrClient) else
          let done frozen :=
            let inbound := mkInbound ((fun e => event_new e.1 e.2) <$> undelivered) lost results frozen in
            (hand_over c inbound issued, Ok inbound) in
          match stopped with
          | Some ErrFrozen => done true
          | Some e => if len results =? 0 then (c, Err e) else done false
          | None => done false
          end
      end
  end.
End GroupClient.
