(* ===== verification/GroupDrive.v ===== *)
(** * GroupDrive: the sending side of the coordinator
    ([tacenta-client/src/group_operations.rs], [group_client.rs])

    The operations that encrypt for a recipient, commit what was encrypted and
    hand it to the relay: group sends, roster installs, invitations and their
    retries.  The client connection is the environment: what it answers to an
    encryption or a dispatch is a function of everything asked of it before,
    which the model keeps as a log, so that what reaches the wire can be
    compared with what was committed. *)

From S2P Require Import Prelude Framing GroupCodec Invitation GroupPayload RosterView GroupReceive GroupSend GroupControl.
From S2P Require Import OperationStore DeferredRosters GroupTranscript GroupRecords GroupInbound GroupClient.

(** ** Errors *)
Inductive ErrorKind :=
| KNetwork | KDiscovery | KUnknownTenant | KUsernameTaken | KInvalidUsername | KWeakPassword | KSignUpRefused
| KSignInRefused | KIdentityMismatch | KNotFound | KRateLimited | KServerFailure | KState | KStoreUnavailable
| KInvalidArgument | KInternal.

Inductive GroupLiveError := LPolicy | LFrozen | LTransport.

(** [From<GroupOperationError> for GroupLiveError]. *)
Definition live_error (e : GroupOperationError) : GroupLiveError :=
  match e with Policy => LPolicy | Frozen => LFrozen end.

Definition live_client_error (k : ErrorKind) : GroupLiveError :=
  match k with KNetwork | KRateLimited => LTransport | _ => LFrozen end.

(** [From<GroupLiveError> for GroupError]. *)
Definition group_live_error (e : GroupLiveError) : GroupError :=
  match e with LPolicy => ErrPolicy | LFrozen => ErrFrozen | LTransport => ErrTransport end.

Definition transport_or_client (k : ErrorKind) : GroupError :=
  match k with KNetwork | KRateLimited => ErrTransport | _ => ErrClient end.

(** ** The store a dry run writes to *)
Inductive DiscardStore := discard.

#[global] Instance discard_store : OperationStore DiscardStore := {|
  store_commit := fun st _ => (st, Committed);
  store_recover := fun st => (st, Ok None);
  store_is_frozen := fun _ => false;
  store_next_generation := fun _ => default_next_generation;
  store_durable_generation := default_durable_generation (fun st => (st, Ok None));
  store_commit_after := default_commit_after (default_durable_generation (fun st => (st, Ok None))) (fun st _ => (st, Committed))
|}.

(** ** Routes *)
Definition Route : Type := Member * DeviceAddr.

Definition route_is_members_device (m : Member) (route : DeviceAddr) : bool :=
  match m_device m with [d] => byte_val d =? device route | _ => false end.

Definition check_routes (routes : list Route) : result GroupError unit :=
  if forallb (fun r => route_is_members_device r.1 r.2) routes then Ok tt else Err ErrPolicy.

Definition route_of (routes : list Route) (m : Member) : option DeviceAddr :=
  '(_, r) ← list_find (fun r => r.1 = m) routes; Some r.2.

(** ** The connection *)
Inductive NetAction :=
| AEncrypt (to : DeviceAddr) (identity payload : bytes)
| ADispatch (to : DeviceAddr) (ciphertext : bytes)
| APrepareDirect (to : DeviceAddr) (message : bytes)
| ADispatchDirect (to : DeviceAddr) (framed : bytes).

Section Drive.
Context (roster_commitment payload_commitment : bytes -> bytes).
(** [client.party.identity_key()]. *)
Context (own_identity : bytes).
(** [prepare_group_ciphertext] and [dispatch_group_ciphertext], by what was
    asked before. *)
Context (encrypt : list NetAction -> DeviceAddr -> bytes -> bytes -> result ErrorKind (bytes * bytes)).
Context (dispatch : list NetAction -> DeviceAddr -> bytes -> result ErrorKind unit).
Context {St : Type} `{OperationStore St}.

(** The store, the snapshot and what was asked of the connection. *)
Record Live := mkLive { lv_store : St; lv_snap : OperationSnapshot; lv_log : list NetAction }.

Definition ask_encrypt (l : Live) (to : DeviceAddr) (identity payload : bytes)
    : Live * result GroupLiveError (bytes * bytes) :=
  (mkLive (lv_store l) (lv_snap l) (lv_log l ++ [AEncrypt to identity payload]),
   match encrypt (lv_log l) to identity payload with Ok x => Ok x | Err k => Err (live_client_error k) end).

Definition ask_dispatch (l : Live) (to : DeviceAddr) (ciphertext : bytes) : Live * result GroupLiveError unit :=
  (mkLive (lv_store l) (lv_snap l) (lv_log l ++ [ADispatch to ciphertext]),
   match dispatch (lv_log l) to ciphertext with Ok x => Ok x | Err k => Err (live_client_error k) end).

(** A commit, and the value it would replace. *)
Definition run_commit {X A} (l : Live) (x : X)
    (r : St * result GroupOperationError (OperationSnapshot * (X * A))) : Live * X * result GroupLiveError A :=
  match r with
  | (store, Ok (snap, (x, a))) => (mkLive store snap (lv_log l), x, Ok a)
  | (store, Err e) => (mkLive store (lv_snap l) (lv_log l), x, Err (live_error e))
  end.

(** ** Control handoffs *)
Definition live_handoff (o : ControlOutbox) (m : Member) (payload : bytes) : option Handoff :=
  match control_handoff payload_commitment o m payload with
  | Ok h => match h_disposition h with CPrepared | CHandedOff => Some h | _ => None end
  | Err _ => None
  end.

Definition prepare_control_handoff (l : Live) (o : ControlOutbox) (m : Member) (route : DeviceAddr) (payload : bytes)
    : Live * ControlOutbox * result GroupLiveError Handoff :=
  if store_is_frozen (lv_store l) then (l, o, Err LFrozen) else
  match live_handoff o m payload with
  | Some h => (l, o, Ok h)
  | None =>
      match snd (commit_prepared_control_handoff payload_commitment discard (lv_snap l) o m payload [x00] []) with
      | Err e => (l, o, Err (live_error e))
      | Ok _ =>
          match ask_encrypt l route (m_identity m) payload with
          | (l, Err e) => (l, o, Err e)
          | (l, Ok (ciphertext, state)) =>
              run_commit l o (commit_prepared_control_handoff payload_commitment (lv_store l) (lv_snap l) o m payload
                ciphertext state)
          end
      end
  end.

Definition is_invitation_control (p : GroupPayload) : bool :=
  match p with PBootstrap _ | PAcceptance _ | PRevocation _ => true | _ => false end.

Definition prepare_outbound_invitation_control (l : Live) (o : ControlOutbox) (m : Member) (route : DeviceAddr)
    (p : GroupPayload) : Live * ControlOutbox * result GroupLiveError Handoff :=
  if negb (is_invitation_control p) then (l, o, Err LPolicy) else
  match payload_encode p with
  | Err _ => (l, o, Err LPolicy)
  | Ok payload => prepare_control_handoff l o m route payload
  end.

Definition prepare_outbound_roster_control (l : Live) (o : ControlOutbox) (m : Member) (route : DeviceAddr)
    (successor : Roster) : Live * ControlOutbox * result GroupLiveError Handoff :=
  match payload_encode (PRoster successor) with
  | Err _ => (l, o, Err LPolicy)
  | Ok payload => prepare_control_handoff l o m route payload
  end.

Definition dispatch_outbound_roster_control (l : Live) (o : ControlOutbox) (m : Member) (payload : bytes)
    (route : DeviceAddr) : Live * ControlOutbox * result GroupLiveError Handoff :=
  match run_commit l o (commit_group_control_outbox_transition payload_commitment (lv_store l) (lv_snap l) o
          (fun candidate => control_reserve payload_commitment candidate m payload)) with
  | (l, o, Err e) => (l, o, Err e)
  | (l, o, Ok handoff) =>
      match ask_dispatch l route (h_ciphertext handoff) with
      | (l, Err e) => (l, o, Err e)
      | (l, Ok _) =>
          match run_commit l o (commit_group_control_outbox_transition payload_commitment (lv_store l) (lv_snap l) o
                  (fun candidate => control_accept payload_commitment candidate m payload)) with
          | (l, o, Err e) => (l, o, Err e)
          | (l, o, Ok _) =>
              (l, o, match control_handoff payload_commitment o m payload with Ok h => Ok h | Err _ => Err LPolicy end)
          end
      end
  end.

Definition prepare_authority_invitation_revocation (l : Live) (book : InvitationBook) (o : ControlOutbox) (now : Z)
    (auth m : Member) (route : DeviceAddr) (id : InvitationId)
    : Live * (InvitationBook * ControlOutbox) * result GroupLiveError Handoff :=
  if negb (bool_decide (own_identity = m_identity auth)) then (l, (book, o), Err LPolicy) else
  match run_commit l (book, o) (commit_authority_invitation_revocation_transition payload_commitment (lv_store l)
          (lv_snap l) book o auth id now) with
  | (l, (book, o), Err e) => (l, (book, o), Err e)
  | (l, (book, o), Ok i) =>
      if negb (bool_decide (i_target i = m)) then (l, (book, o), Err LPolicy) else
      match revocation_new (i_group_id i) (i_id i) (source_revision i) (source_roster_digest i) with
      | Err _ => (l, (book, o), Err LPolicy)
      | Ok v =>
          match payload_encode (PRevocation v) with
          | Err _ => (l, (book, o), Err LPolicy)
          | Ok encoded =>
              match control_handoff payload_commitment o m encoded with
              | Ok h => (l, (book, o), Ok h)
              | Err _ =>
                  let '(l, o, r) := prepare_outbound_invitation_control l o m route (PRevocation v) in
                  (l, (book, o), r)
              end
          end
      end
  end.

(** ** Roster controls of the authority *)
Record AuthorityControlState := mkAuthority {
  ac_view : RosterView; ac_receiver : GroupReceiver; ac_group_outbox : GroupOutbox; ac_outbox : ControlOutbox;
  ac_book : InvitationBook
}.

(** The state a transition of the authority is judged with. *)
Definition authority_state (a : AuthorityControlState) (admission : option InvitationAdmission)
    (provider : bytes * CryptoStateEffect) (prepared : PreparedControl) : RosterCommitState :=
  mkRosterState (ac_view a) (Some (ac_receiver a)) (Some provider) (Some (ac_group_outbox a)) (Some (ac_outbox a))
    (Some prepared) (Some (ac_book a)) admission None.

(** What the transition wrote back. *)
Definition authority_written (a : AuthorityControlState) (s : RosterCommitState) : AuthorityControlState :=
  mkAuthority (rs_view s) (default (ac_receiver a) (rs_receiver s)) (default (ac_group_outbox a) (rs_group_outbox s))
    (default (ac_outbox a) (rs_control_outbox s)) (default (ac_book a) (rs_book s)).

(** The checks before the encryption, the dry run among them. *)
Definition authority_refuses (l : Live) (a : AuthorityControlState) (admission : option InvitationAdmission) (now : Z)
    (auth m : Member) (successor : Roster) : option GroupLiveError :=
  if store_is_frozen (lv_store l) then Some LFrozen else
  if negb (bool_decide (own_identity = m_identity auth)) then Some LPolicy else
  if match admission with
     | Some ad => bool_decide (ad_target ad = m) && admission_is_revoked (Some (ac_book a)) successor ad
     | None => false
     end
     || (negb (recipient_can_receive_roster_control (ac_view a) successor m)
         && negb (recipient_can_observe_invitation_successor (Some (ac_book a)) successor m now))
  then Some LPolicy else
  match roster_encode successor, payload_encode (PRoster successor) with
  | Ok preimage, Ok payload =>
      if negb (is_roster_accepted (accept_successor (ac_view a) auth successor (roster_commitment preimage)).2)
      then Some LPolicy else
      match snd (commit_roster_transition roster_commitment payload_commitment discard (lv_snap l)
              (authority_state a admission ([], EAdvanced) (mkPrepared m payload [x00])) auth successor []) with
      | Err e => Some (live_error e)
      | Ok _ => None
      end
  | _, _ => Some LPolicy
  end.

Definition prepare_authority_roster_control (l : Live) (a : AuthorityControlState)
    (admission : option InvitationAdmission) (now : Z) (auth m : Member) (route : DeviceAddr) (successor : Roster)
    : Live * AuthorityControlState * result GroupLiveError (RosterCommit * Handoff) :=
  match authority_refuses l a admission now auth m successor, payload_encode (PRoster successor) with
  | Some e, _ => (l, a, Err e)
  | None, Err _ => (l, a, Err LPolicy)
  | None, Ok payload =>
      match ask_encrypt l route (m_identity m) payload with
      | (l, Err e) => (l, a, Err e)
      | (l, Ok (ciphertext, state)) =>
          match commit_roster_transition roster_commitment payload_commitment (lv_store l) (lv_snap l)
                  (authority_state a admission (state, EAdvanced) (mkPrepared m payload ciphertext)) auth successor [] with
          | (store, Err e) => (mkLive store (lv_snap l) (lv_log l), a, Err (live_error e))
          | (store, Ok (snap, (s, _, commit))) =>
              let a := authority_written a s in
              (mkLive store snap (lv_log l), a,
               match control_handoff payload_commitment (ac_outbox a) m payload with
               | Ok h => Ok (commit, h)
               | Err _ => Err LFrozen
               end)
          end
      end
  end.

Definition prepare_installed_roster_control (l : Live) (v : RosterView) (o : ControlOutbox) (book : InvitationBook)
    (now : Z) (auth m : Member) (route : DeviceAddr) : Live * ControlOutbox * result GroupLiveError Handoff :=
  if negb (bool_decide (own_identity = m_identity auth))
     || negb (roster_control_recipient_is_entitled roster_commitment (lv_snap l) v (Some book) (v_roster v) auth m now)
  then (l, o, Err LPolicy)
  else prepare_outbound_roster_control l o m route (v_roster v).

(** ** Sends *)
Definition prepare_outbox_group_recipient (l : Live) (o : GroupOutbox) (id : LogicalMessageId) (m : Member)
    (route : DeviceAddr) : Live * GroupOutbox * result GroupLiveError RecipientProgress :=
  if store_is_frozen (lv_store l) then (l, o, Err LFrozen) else
  match (send ← outbox_send o id; application ← application_context send m; p ← progress send m; Ok (application, p)) with
  | Err _ => (l, o, Err LPolicy)
  | Ok (application, p) =>
      match disposition p with
      | PPrepared | PHandedOff => (l, o, Ok p)
      | PRelayAccepted | PCancelled | PCancelledAfterHandoff | PExhaustedUnknown => (l, o, Err LPolicy)
      | PPending =>
          match payload_encode (PApplication application) with
          | Err _ => (l, o, Err LPolicy)
          | Ok payload =>
              match snd (commit_outbox_prepared_ciphertext payload_commitment discard (lv_snap l) o id m [x00] []) with
              | Err e => (l, o, Err (live_error e))
              | Ok _ =>
                  match ask_encrypt l route (m_identity m) payload with
                  | (l, Err e) => (l, o, Err e)
                  | (l, Ok (ciphertext, state)) =>
                      run_commit l o (commit_outbox_prepared_ciphertext payload_commitment (lv_store l) (lv_snap l) o id m
                        ciphertext state)
                  end
              end
          end
      end
  end.

Definition dispatch_outbox_group_handoff (l : Live) (o : GroupOutbox) (id : LogicalMessageId) (m : Member)
    (route : DeviceAddr) : Live * GroupOutbox * result GroupLiveError RecipientProgress :=
  match run_commit l o (commit_outbox_handoff_reservation payload_commitment (lv_store l) (lv_snap l) o id m) with
  | (l, o, Err e) => (l, o, Err e)
  | (l, o, Ok handoff) =>
      match ciphertext handoff with
      | None => (l, o, Err LPolicy)
      | Some c =>
          match ask_dispatch l route c with
          | (l, Err e) => (l, o, Err e)
          | (l, Ok _) =>
              run_commit l o (commit_outbox_relay_acceptance payload_commitment (lv_store l) (lv_snap l) o id m)
          end
      end
  end.

(** One recipient of [drive_send]: [true] is that the batch stops. *)
Definition drive_recipient (l : Live) (o : GroupOutbox) (id : LogicalMessageId) (routes : list Route) (m : Member)
    : Live * GroupOutbox * bool :=
  match route_of routes m with
  | None => (l, o, false)
  | Some route =>
      match prepare_outbox_group_recipient l o id m route with
      | (l, o, Err LFrozen) => (l, o, true)
      | (l, o, Err _) => (l, o, false)
      | (l, o, Ok _) =>
          match dispatch_outbox_group_handoff l o id m route with
          | (l, o, Err LFrozen) => (l, o, true)
          | (l, o, _) => (l, o, false)
          end
      end
  end.

Fixpoint drive_recipients (l : Live) (o : GroupOutbox) (id : LogicalMessageId) (routes : list Route) (ms : list Member)
    : Live * GroupOutbox * result GroupError unit :=
  match ms with
  | [] => (l, o, Ok tt)
  | m :: ms =>
      match drive_recipient l o id routes m with
      | (l, o, true) => (l, o, Err ErrFrozen)
      | (l, o, false) => drive_recipients l o id routes ms
      end
  end.

Definition drive_send (l : Live) (o : GroupOutbox) (id : LogicalMessageId) (routes : list Route)
    : Live * GroupOutbox * result GroupError unit :=
  match outbox_send o id with
  | Err _ => (l, o, Err ErrPolicy)
  | Ok send => drive_recipients l o id routes (p_recipient <$> recipients send)
  end.

(** ** The coordinator's calls *)
Record Online := mkOnline { se_coord : @Coord St; se_log : list NetAction }.

Definition live_of (s : Online) : Live := mkLive (co_store (se_coord s)) (co_snap (se_coord s)) (se_log s).

(** The session after a call that left the group in state [g]. *)
Definition resume (s : Online) (l : Live) (g : GroupState) : Online :=
  mkOnline (after_commit (se_coord s) (lv_store l) (lv_snap l) (Some g)) (lv_log l).

Definition set_outbox (g : GroupState) (o : GroupOutbox) : GroupState :=
  mkGroupState (gs_group_id g) (gs_authority g) (gs_source g) (gs_local g) (gs_view g) (gs_receiver g) o
    (gs_control g) (gs_book g) (gs_deferred g).

Definition set_control (g : GroupState) (o : ControlOutbox) : GroupState :=
  mkGroupState (gs_group_id g) (gs_authority g) (gs_source g) (gs_local g) (gs_view g) (gs_receiver g) (gs_outbox g)
    o (gs_book g) (gs_deferred g).

(** [self.is_frozen()], then [group.as_mut().ok_or(NoGroup)]. *)
Definition with_group {A} (s : Online) (f : GroupState -> Online * result GroupError A) : Online * result GroupError A :=
  if is_frozen (se_coord s) then (s, Err ErrFrozen) else
  match co_group (se_coord s) with None => (s, Err ErrNoGroup) | Some g => f g end.

Definition by_member (a b : Route) : comparison := canonical_cmp a.1 b.1.

Definition send_group (s : Online) (routes : list Route) (payload : bytes)
    : Online * result GroupError (LogicalMessageId * list RecipientProgress) :=
  with_group s (fun g =>
    match
      v ← ok_or ErrPolicy (gs_view g);
      _ ← check_routes routes;
      let routes := sort_by by_member routes in
      sequence ← map_err ErrPolicy (next_sequence (gs_outbox g) (revision (v_roster v)) (gs_local g));
      send ← map_err ErrPolicy (send_new (v_roster v) (v_digest v) (gs_local g) sequence (fst <$> routes) payload);
      Ok (routes, send)
    with
    | Err e => (s, Err e)
    | Ok (routes, send) =>
        let l := live_of s in
        match run_commit l (gs_outbox g) (commit_logical_intent (lv_store l) (lv_snap l) (gs_outbox g) send) with
        | (l, o, Err e) => (resume s l (set_outbox g o), Err (group_live_error e))
        | (l, o, Ok _) =>
            match drive_send l o (s_id send) routes with
            | (l, o, Err e) => (resume s l (set_outbox g o), Err e)
            | (l, o, Ok _) =>
                (resume s l (set_outbox g o),
                 send' ← map_err ErrPolicy (outbox_send o (s_id send)); Ok (s_id send, recipients send'))
            end
        end
    end).

Fixpoint drive_pending (l : Live) (o : GroupOutbox) (routes : list Route) (pending : list LogicalMessageId)
    : Live * GroupOutbox * result GroupError unit :=
  match pending with
  | [] => (l, o, Ok tt)
  | id :: pending =>
      match drive_send l o id routes with
      | (l, o, Err e) => (l, o, Err e)
      | (l, o, Ok _) => drive_pending l o routes pending
      end
  end.

(** The routes are checked before the group is looked up. *)
Definition dispatch_pending_group_sends (s : Online) (routes : list Route) : Online * result GroupError Z :=
  if is_frozen (se_coord s) then (s, Err ErrFrozen) else
  match check_routes routes with
  | Err e => (s, Err e)
  | Ok _ =>
      with_group s (fun g =>
        let pending := s_id <$> filter (fun x => is_terminal x = false) (sends (gs_outbox g)) in
        let '(l, o, r) := drive_pending (live_of s) (gs_outbox g) routes pending in
        (resume s l (set_outbox g o), _ ← r; Ok (len pending)))
  end.

(** *** Installing a roster *)
Record Install := mkInstall {
  in_disposition : RosterDisposition; delivered : list Member; pending : list Member; unprepared : list Member
}.

(** The parts of the group a roster install works on. *)
Record Installing := mkInstalling {
  is_live : Live; is_state : AuthorityControlState; is_installed : bool;
  is_admission : option InvitationAdmission; is_result : Install
}.

Definition note_delivered (i : Install) (m : Member) : Install :=
  mkInstall (in_disposition i) (delivered i ++ [m]) (pending i) (unprepared i).
Definition note_pending (i : Install) (m : Member) : Install :=
  mkInstall (in_disposition i) (delivered i) (pending i ++ [m]) (unprepared i).
Definition note_unprepared (i : Install) (m : Member) : Install :=
  mkInstall (in_disposition i) (delivered i) (pending i) (unprepared i ++ [m]).

Definition set_ac_outbox (a : AuthorityControlState) (o : ControlOutbox) : AuthorityControlState :=
  mkAuthority (ac_view a) (ac_receiver a) (ac_group_outbox a) o (ac_book a).

(** What an earlier call left for this recipient, if it settles it. *)
Definition settled (a : AuthorityControlState) (installed : bool) (m : Member) (payload : bytes) : option bool :=
  if negb installed then None else
  match control_handoff payload_commitment (ac_outbox a) m payload with
  | Ok h =>
      match h_disposition h with
      | CRelayAccepted => Some true
      | CPrepared | CHandedOff => None
      | CExhaustedUnknown | CCancelled | CCancelledAfterHandoff => Some false
      end
  | Err _ => None
  end.

(** The preparation for one recipient; the first one installs. *)
Definition prepare_install (x : Installing) (auth m : Member) (route : DeviceAddr) (successor : Roster) (now : Z)
    : Installing * result GroupLiveError Handoff :=
  let a := is_state x in
  if is_installed x then
    let '(l, o, r) := prepare_installed_roster_control (is_live x) (ac_view a) (ac_outbox a) (ac_book a) now auth m route in
    (mkInstalling l (set_ac_outbox a o) true (is_admission x) (is_result x), r)
  else
    match prepare_authority_roster_control (is_live x) a (is_admission x) now auth m route successor with
    | (l, a, Err e) => (mkInstalling l a false None (is_result x), Err e)
    | (l, a, Ok (commit, h)) =>
        let i := is_result x in
        (mkInstalling l a true None (mkInstall (rc_disposition commit) (delivered i) (pending i) (unprepared i)), Ok h)
    end.

(** The loop over the recipients; an error is what the call returns. *)
Definition install_one (x : Installing) (auth : Member) (successor : Roster) (payload : bytes) (now : Z) (r : Route)
    : Installing * result GroupError unit :=
  let '(m, route) := r in
  let done x i := (mkInstalling (is_live x) (is_state x) (is_installed x) (is_admission x) i, Ok tt) in
  match settled (is_state x) (is_installed x) m payload with
  | Some true => done x (note_delivered (is_result x) m)
  | Some false => done x (note_pending (is_result x) m)
  | None =>
      match prepare_install x auth m route successor now with
      | (x, Err LFrozen) => (x, Err ErrFrozen)
      | (x, Err e) => if is_installed x then done x (note_unprepared (is_result x) m) else (x, Err (group_live_error e))
      | (x, Ok h) =>
          let '(l, o, r) := dispatch_outbound_roster_control (is_live x) (ac_outbox (is_state x)) m (h_payload h) route in
          let x := mkInstalling l (set_ac_outbox (is_state x) o) (is_installed x) (is_admission x) (is_result x) in
          match r with
          | Ok _ => done x (note_delivered (is_result x) m)
          | Err LFrozen => (x, Err ErrFrozen)
          | Err _ => done x (note_pending (is_result x) m)
          end
      end
  end.

Fixpoint install_all (x : Installing) (auth : Member) (successor : Roster) (payload : bytes) (now : Z) (rs : list Route)
    : Installing * result GroupError unit :=
  match rs with
  | [] => (x, Ok tt)
  | r :: rs =>
      match install_one x auth successor payload now r with
      | (x, Err e) => (x, Err e)
      | (x, Ok _) => install_all x auth successor payload now rs
      end
  end.

Definition put_authority (g : GroupState) (a : AuthorityControlState) : GroupState :=
  mkGroupState (gs_group_id g) (gs_authority g) (gs_source g) (gs_local g) (Some (ac_view a)) (Some (ac_receiver a))
    (ac_group_outbox a) (ac_outbox a) (ac_book a) (gs_deferred g).

(** [Admission], as the id and the target. *)
Definition install_roster (s : Online) (successor : Roster) (rs : list Route)
    (admission : option (InvitationId * Member)) (now : Z) : Online * result GroupError Install :=
  with_group s (fun g =>
    if negb (bool_decide (gs_authority g = gs_local g)) then (s, Err ErrPolicy) else
    match gs_view g, gs_receiver g with
    | Some v, Some receiver =>
        match check_routes rs with
        | Err e => (s, Err e)
        | Ok _ =>
            let installed := bool_decide (v_roster v = successor) in
            if (match rs with [] => true | _ => false end && negb installed)
               || negb (forallb (fun r => roster_control_recipient_is_entitled roster_commitment (co_snap (se_coord s)) v
                          (Some (gs_book g)) successor (gs_local g) r.1 now) rs)
            then (s, Err ErrPolicy) else
            match payload_encode (PRoster successor) with
            | Err _ => (s, Err ErrPolicy)
            | Ok payload =>
                let x := mkInstalling (live_of s) (mkAuthority v receiver (gs_outbox g) (gs_control g) (gs_book g)) installed
                  ((fun a => mkAdmission a.1 a.2 now) <$> admission) (mkInstall RosterDuplicate [] [] []) in
                let '(x, r) := install_all x (gs_local g) successor payload now rs in
                (resume s (is_live x) (put_authority g (is_state x)), _ ← r; Ok (is_result x))
            end
        end
    | _, _ => (s, Err ErrPolicy)
    end).

(** *** Pending controls *)
Fixpoint dispatch_controls (l : Live) (o : ControlOutbox) (routes : list Route) (hs : list Handoff) (accepted : Z)
    : Live * ControlOutbox * result GroupError Z :=
  match hs with
  | [] => (l, o, Ok accepted)
  | h :: hs =>
      match route_of routes (h_recipient h) with
      | None => dispatch_controls l o routes hs accepted
      | Some route =>
          match dispatch_outbound_roster_control l o (h_recipient h) (h_payload h) route with
          | (l, o, Ok _) => dispatch_controls l o routes hs (accepted + 1)
          | (l, o, Err LFrozen) => (l, o, Err ErrFrozen)
          | (l, o, Err _) => dispatch_controls l o routes hs accepted
          end
      end
  end.

Definition dispatch_pending_controls (s : Online) (routes : list Route) : Online * result GroupError Z :=
  if is_frozen (se_coord s) then (s, Err ErrFrozen) else
  match check_routes routes with
  | Err e => (s, Err e)
  | Ok _ =>
      with_group s (fun g =>
        let '(l, o, r) := dispatch_controls (live_of s) (gs_control g) routes (control_pending (gs_control g)) 0 in
        (resume s l (set_control g o), r))
  end.

(** *** Invitations *)
(** The end of the three calls: prepare the control and hand it off. *)
Definition send_invitation_control (s : Online) (l : Live) (g : GroupState) (m : Member) (route : DeviceAddr)
    (p : GroupPayload) : Online * result GroupError unit :=
  match prepare_outbound_invitation_control l (gs_control g) m route p with
  | (l, o, Err e) => (resume s l (set_control g o), Err (group_live_error e))
  | (l, o, Ok h) =>
      let '(l, o, r) := dispatch_outbound_roster_control l o m (h_payload h) route in
      (resume s l (set_control g o), match r with Ok _ => Ok tt | Err e => Err (group_live_error e) end)
  end.

(** A step of the book, committed before anything is prepared. *)
Definition commit_book {A B} (s : Online) (g : GroupState) (transition : InvitationBook -> InvitationBook * result Error A)
    (f : Live -> GroupState -> A -> Online * result GroupError B) : Online * result GroupError B :=
  let l := live_of s in
  match run_commit l (gs_book g) (commit_group_invitation_transition (lv_store l) (lv_snap l) (gs_book g) transition) with
  | (l, b, Err e) => (resume s l (with_book g b), Err (group_live_error e))
  | (l, b, Ok x) => f l (with_book g b) x
  end.

Definition invite (s : Online) (id : InvitationId) (target : Member) (route : DeviceAddr) (expires now : Z)
    : Online * result GroupError InvitationBootstrap :=
  with_group s (fun g =>
    if negb (bool_decide (gs_authority g = gs_local g)) then (s, Err ErrPolicy) else
    match gs_view g with
    | None => (s, Err ErrPolicy)
    | Some v =>
        if closed (v_roster v) || negb (route_is_members_device target route) then (s, Err ErrPolicy) else
        match invitation_new id (gs_group_id g) target (revision (v_roster v)) (v_digest v) POLICY_VERSION_V1 expires with
        | Err _ => (s, Err ErrPolicy)
        | Ok i =>
            commit_book s g (fun b => book_map (fun _ => tt)
                (book_create b (gs_local g) (gs_authority g) (members (v_roster v)) i now))
              (fun l g _ =>
                 match bootstrap_new i (v_roster v) with
                 | Err _ => (resume s l g, Err ErrPolicy)
                 | Ok bootstrap =>
                     let '(s, r) := send_invitation_control s l g target route (PBootstrap bootstrap) in
                     (s, _ ← r; Ok bootstrap)
                 end)
        end
    end).

Definition find_invitation (g : GroupState) (id : InvitationId) : option Invitation :=
  snd <$> list_find (fun i => i_id i = id) (invitations (gs_book g)).

Definition accept_invitation (s : Online) (id : InvitationId) (route : DeviceAddr) (now : Z)
    : Online * result GroupError InvitationStatus :=
  with_group s (fun g =>
    if negb (route_is_members_device (gs_authority g) route) then (s, Err ErrPolicy) else
    match find_invitation g id with
    | None => (s, Err ErrPolicy)
    | Some i =>
        commit_book s g (fun b => book_map status
            (book_accept b id (gs_local g) (source_revision i) (source_roster_digest i) now))
          (fun l g st =>
             match acceptance_new (gs_group_id g) id (source_revision i) (source_roster_digest i) with
             | Err _ => (resume s l g, Err ErrPolicy)
             | Ok a =>
                 let '(s, r) := send_invitation_control s l g (gs_authority g) route (PAcceptance a) in
                 (s, _ ← r; Ok st)
             end)
    end).

Definition revoke_invitation (s : Online) (id : InvitationId) (route : DeviceAddr) (now : Z)
    : Online * result GroupError unit :=
  with_group s (fun g =>
    if negb (bool_decide (gs_authority g = gs_local g)) then (s, Err ErrPolicy) else
    match find_invitation g id with
    | None => (s, Err ErrPolicy)
    | Some i =>
        if negb (route_is_members_device (i_target i) route) then (s, Err ErrPolicy) else
        match prepare_authority_invitation_revocation (live_of s) (gs_book g) (gs_control g) now (gs_local g) (i_target i)
                route id with
        | (l, (b, o), Err e) => (resume s l (set_control (with_book g b) o), Err (group_live_error e))
        | (l, (b, o), Ok h) =>
            let '(l, o, r) := dispatch_outbound_roster_control l o (i_target i) (h_payload h) route in
            (resume s l (set_control (with_book g b) o), match r with Ok _ => Ok tt | Err e => Err (group_live_error e) end)
        end
    end).

(** *** Direct messages *)
(** [prepare_send_as] and [dispatch_prepared_send], by what was asked before,
    and the provider state the connection then exports. *)
Context (prepare : list NetAction -> DeviceAddr -> bytes -> result ErrorKind bytes).
Context (export : list NetAction -> result ErrorKind bytes).
Context (dispatch_direct : list NetAction -> DeviceAddr -> bytes -> result ErrorKind unit).

Definition send_direct (s : Online) (to : DeviceAddr) (message : bytes) : Online * result GroupError unit :=
  let c := se_coord s in
  if is_frozen c then (s, Err ErrFrozen) else
  let log := se_log s ++ [APrepareDirect to message] in
  match prepare (se_log s) to message with
  | Err _ => (mkOnline c log, Err ErrClient)
  | Ok framed =>
      match export log with
      | Err _ => (mkOnline (poison c) log, Err ErrClient)
      | Ok state =>
          match commit_provider_state (co_store c) (co_snap c) state with
          | (store, Err e) => (mkOnline (poison (after_commit c store (co_snap c) (co_group c))) log, Err (group_error e))
          | (store, Ok (snap, _)) =>
              (mkOnline (mkCoord store snap (co_group c) false (co_handed_over c)) (log ++ [ADispatchDirect to framed]),
               match dispatch_direct log to framed with Ok _ => Ok tt | Err k => Err (transport_or_client k) end)
          end
      end
  end.
End Drive.
