(* ===== verification/GroupRecovery.v ===== *)
(** * GroupRecovery: a restart gives back the running coordinator
    ([tacenta-client/src/group_operations.rs], [group_client.rs])

    Every commit of a coordinator leaves a snapshot from which [attach] rebuilds
    the very state that is running: the view, the receiver, the outbox, the
    control handoffs, the invitation book and the held controls.  The state of
    each part is related to the record it is kept in, and each commit is shown
    to keep the relation. *)

From S2P Require Import Prelude GroupCodec Invitation GroupPayload RosterView GroupReceive GroupSend GroupControl.
From S2P Require Import OperationStore DeferredRosters GroupTranscript GroupRecords GroupInbound GroupClient GroupDrive.

(** ** Reading the snapshot by its latest records *)
Lemma existsb_latest tag l :
  existsb (starts_with tag) l = match latest_record tag l with Some _ => true | None => false end.
Proof.
  induction l as [|r l IH] using rev_ind; [done|]. rewrite existsb_app, latest_snoc, IH. cbn.
  destruct (starts_with tag r); rewrite ?orb_false_r, ?orb_true_r; done.
Qed.

Lemma has_tag_latest tag snap :
  has_tag tag snap = match latest_record tag (group_controls snap) with Some _ => true | None => false end.
Proof. apply existsb_latest. Qed.

(** What recovery reads of two snapshots is the same. *)
Definition same_tags (tags : list bytes) (snap snap' : OperationSnapshot) : Prop :=
  forall tag, tag ∈ tags -> latest_record tag (group_controls snap') = latest_record tag (group_controls snap).

Lemma latest_cancellation_tagged g l : forall a, latest_cancellation g a l = latest_cancellation g a (tagged TCGX l).
Proof.
  induction l as [|r l IH]; intros a; [done|]. rewrite tagged_cons. cbn [latest_cancellation].
  destruct (starts_with TCGX r) eqn:E; cbn [app latest_cancellation]; [|apply IH]. rewrite E.
  destruct (split_at_checked _ _) as [[x y]|]; [|done]. cbn [ok_or mbind result_bind].
  destruct (to_array 8 y); [|done]. cbn [ok_or mbind result_bind].
  destruct (group_id_try_from x); [|done]. cbn [map_err mbind result_bind]. apply IH.
Qed.

(** The one record of a kind. *)
Lemma tagged_single g tag l :
  controls_inv g l -> tag ∈ CHECKPOINT_TAGS ->
  tagged tag l = match latest_record tag l with Some r => [r] | None => [] end.
Proof.
  intros Hl Ht. pose proof (ci_single g l Hl tag Ht) as H1. rewrite latest_tagged.
  destruct (tagged tag l) as [|r [|s k]]; [done|done|cbn in H1; lia].
Qed.

Lemma cancellation_read g snap :
  controls_inv g (group_controls snap) ->
  latest_group_outbox_cancellation snap g =
  match latest_record TCGX (group_controls snap) with
  | Some r => latest_cancellation g None [r]
  | None => Ok None
  end.
Proof.
  intros Hl. unfold latest_group_outbox_cancellation.
  rewrite latest_cancellation_tagged, (tagged_single g) by (done || by repeat (left || right)).
  by destruct (latest_record _ _).
Qed.

Lemma cancellation_record_read g rev :
  len g = GROUP_ID_LEN -> 0 <= rev <= u64_max ->
  latest_cancellation g None [encode_group_outbox_cancellation_record g rev] = Ok (Some rev).
Proof.
  intros Hg Hr. unfold encode_group_outbox_cancellation_record. cbn [latest_cancellation].
  rewrite starts_with_app, drop_app_length, split_at_checked_app by done. cbn [ok_or mbind result_bind].
  rewrite to_array_len by (by rewrite len_be_bytes). cbn [ok_or mbind result_bind].
  unfold group_id_try_from. rewrite to_array_len by done. cbn [ok_or map_err mbind result_bind].
  rewrite bool_decide_eq_true_2, be_value_be_bytes by (done || (unfold u64_max in Hr; change (256 ^ Z.of_nat 8) with 18446744073709551616; lia)).
  cbn. f_equal. f_equal. lia.
Qed.

(** ** Records and their group *)
Lemma own_other g t r :
  len t = 4 -> starts_with t r = true -> ~ per_group t -> own_record g r.
Proof.
  intros Hl [x ->]%starts_with_true Hn tag Hp Hs. exfalso. apply Hn.
  assert (length tag = 4%nat) as Ht by (by destruct Hp as [-> | [-> | ->]]).
  apply starts_with_true in Hs as [y Hy]. apply app_inj_1 in Hy as [-> _]; [done|]. unfold len in Hl. lia.
Qed.

Lemma own_group g t x : per_group t -> own_record g (t ++ g ++ x).
Proof.
  intros Hp tag Hq Hs.
  assert (t = tag) as <-; [|rewrite app_assoc; apply starts_with_app].
  apply (one_tag t tag (t ++ g ++ x)); [| |apply starts_with_app|done].
  - unfold CHECKPOINT_TAGS. destruct Hp as [-> | [-> | ->]]; rewrite !elem_of_cons; tauto.
  - unfold CHECKPOINT_TAGS. destruct Hq as [-> | [-> | ->]]; rewrite !elem_of_cons; tauto.
Qed.

(** ** Appending control records *)
Lemma append_group_records g snap rs :
  len g = GROUP_ID_LEN -> controls_inv g (group_controls snap) -> Forall (own_record g) rs ->
  let snap' := append_group_control_records snap rs in
  controls_inv g (group_controls snap') /\
  (forall tag, tag ∈ CHECKPOINT_TAGS ->
     latest_record tag (group_controls snap') =
     match latest_record tag rs with Some r => Some r | None => latest_record tag (group_controls snap) end) /\
  snap_outbox snap' = snap_outbox snap /\ application_state snap' = application_state snap.
Proof.
  intros Hg Hl Hrs. destruct (append_controls_spec g _ _ Hg Hl Hrs) as (l' & Ha & Hl' & Ht).
  cbv zeta. unfold append_group_control_records. rewrite Ha. cbn. split_and!; [done| |done|done].
  intros tag Htag. by eapply append_latest.
Qed.

Lemma checkpoint_decode tag state r :
  len tag = 4 -> encode_checkpoint_record tag state = Ok r -> decode_checkpoint_record tag r = Ok state.
Proof.
  intros Ht H. unfold encode_checkpoint_record, u32_try_from in H. inv_bind. bool_prop.
  unfold decode_checkpoint_record. rewrite starts_with_app. cbn [negb].
  rewrite get_from_app by done. cbn [ok_or mbind result_bind]. rewrite split_at_checked_app by (by rewrite len_be_bytes).
  cbn [ok_or mbind result_bind]. rewrite to_array_len by (by rewrite len_be_bytes). cbn [ok_or mbind result_bind].
  pose proof (len_nonneg state). rewrite be_value_be_bytes by (change (256 ^ Z.of_nat 4) with 4294967296; unfold u32_max in *; lia).
  by rewrite Z.eqb_refl.
Qed.

Lemma checkpoint_tag tag state r : encode_checkpoint_record tag state = Ok r -> starts_with tag r = true.
Proof. unfold encode_checkpoint_record. intros H. inv_bind. apply starts_with_app. Qed.

(** The latest of one or two records, by their tags. *)
Lemma starts_other t tag r :
  starts_with t r = true -> length t = length tag -> starts_with tag r = bool_decide (tag = t).
Proof.
  intros [x ->]%starts_with_true Hl. case_bool_decide as E; [subst; apply starts_with_app|].
  apply not_true_iff_false. intros [y Hy]%starts_with_true. by apply app_inj_1 in Hy as [? _].
Qed.

Lemma latest_cons tag r l :
  latest_record tag (r :: l) =
  match latest_record tag l with Some x => Some x | None => if starts_with tag r then Some r else None end.
Proof.
  induction l as [|x l IH] using rev_ind; [apply (latest_snoc tag [] r)|].
  rewrite app_comm_cons, !latest_snoc, IH. by destruct (starts_with tag x).
Qed.

(** The records of a commit leave a part as it was, or record it. *)
Definition part (tag : bytes) (rs : list bytes) (same : Prop) (recorded : bytes -> Prop) : Prop :=
  match latest_record tag rs with Some r => recorded r | None => same end.

Ltac tag_known :=
  first [eassumption | apply starts_with_app | eapply checkpoint_tag; eassumption].

(** Evaluates the latest record of a list of records of known kinds. *)
Ltac latest :=
  unfold part; rewrite ?latest_cons; change (latest_record _ []) with (@None bytes); cbv beta iota;
  repeat (erewrite starts_other by (tag_known || reflexivity));
  repeat match goal with
  | |- context [bool_decide (?a = ?b)] =>
      let v := eval vm_compute in (bool_decide (a = b)) in change (bool_decide (a = b)) with v
  end; cbv beta iota.

(** ** The parts and their records *)
Section Parts.
(** The roster and the payload commitment. *)
Context {rc pc : bytes -> bytes}.

(** The state as [attach] gives it back: the book in its canonical order. *)
Definition as_rebuilt (g : GroupState) : GroupState := with_book g (canonical_book (gs_book g)).

(** What holds of the running parts. *)
Record parts_ok (g : GroupState) (old : option Z) : Prop := {
  po_id : len (gs_group_id g) = GROUP_ID_LEN;
  po_local : member_ok (gs_local g);
  po_view v : gs_view g = Some v -> view_ok rc (gs_authority g) v /\ r_group_id (v_roster v) = gs_group_id g;
  po_receiver r : gs_receiver g = Some r -> receiver_inv r /\ stored rc pc r;
  po_both : is_Some (gs_view g) <-> is_Some (gs_receiver g);
  po_cancelled : match gs_view g with Some v => bound_le old (Some (revision (v_roster v))) | None => old = None end;
  po_control : exists n, control_inv pc n (gs_control g);
  po_book : book_inv (gs_book g) /\ book_group_id (gs_book g) = gs_group_id g;
  po_deferred : deferred_ok (gs_group_id g) (gs_authority g) (gs_deferred g);
  po_authority : member_ok (gs_authority g)
}.

(** The receiver has not issued the last event identifier. *)
Definition events_left (g : GroupState) : Prop :=
  forall r, gs_receiver g = Some r -> next_event_id r < u64_max.

(** The records they are kept in. *)
Record rebuilds (snap : OperationSnapshot) (g : GroupState) : Prop := {
  rb_controls : controls_inv (gs_group_id g) (group_controls snap);
  rb_view : attach_view rc snap (gs_group_id g) (gs_authority g) (gs_source g) = Ok (gs_view g);
  rb_receiver : events_left g -> attach_receiver rc pc snap (gs_local g) (gs_view g) = Ok (gs_receiver g);
  rb_fresh : gs_view g = None -> application_state snap = [];
  rb_outbox : tracks pc (gs_group_id g) snap (gs_outbox g);
  rb_control : recover_group_control_outbox pc snap = Ok (gs_control g);
  rb_book : (if has_tag TCGB snap then recover_group_invitation_book snap (gs_group_id g)
             else Ok (book_new (gs_group_id g))) = Ok (canonical_book (gs_book g));
  rb_deferred : recover_group_deferred_rosters snap (gs_group_id g) (gs_authority g) = Ok (gs_deferred g)
}.

(** The relation every commit keeps. *)
Definition running (snap : OperationSnapshot) (g : GroupState) : Prop :=
  rebuilds snap g /\ exists old, latest_group_outbox_cancellation snap (gs_group_id g) = Ok old /\ parts_ok g old.

Lemma rebuilds_attach snap g :
  rebuilds snap g -> events_left g ->
  attach_state rc pc snap (gs_local g) (gs_group_id g) (gs_authority g) (gs_source g) = Ok (as_rebuilt g).
Proof.
  intros [_ Hv Hr _ Ho Hc Hb Hd] He. unfold attach_state. rewrite Hv. cbn [mbind result_bind]. rewrite (Hr He).
  cbn [mbind result_bind]. unfold tracks in Ho. rewrite Ho. cbn [map_err mbind result_bind]. rewrite Hc.
  cbn [map_err mbind result_bind].
  destruct (has_tag TCGB snap); [|apply Ok_inj in Hb]; rewrite Hb; cbn [map_err mbind result_bind]; rewrite Hd; by destruct g.
Qed.

(** *** Reading is by the latest record of the kind *)
Lemma attach_view_same snap snap' g auth source :
  same_tags [TCGV] snap snap' -> attach_view rc snap' g auth source = attach_view rc snap g auth source.
Proof.
  intros H. specialize (H TCGV ltac:(by left)). unfold attach_view, recover_group_roster_view.
  by rewrite !has_tag_latest, H.
Qed.

Lemma recover_control_same snap snap' :
  same_tags [TCGO] snap snap' -> recover_group_control_outbox pc snap' = recover_group_control_outbox pc snap.
Proof. intros H. unfold recover_group_control_outbox. by rewrite (H TCGO ltac:(by left)). Qed.

Lemma recover_book_same snap snap' g :
  same_tags [TCGB] snap snap' ->
  (if has_tag TCGB snap' then recover_group_invitation_book snap' g else Ok (book_new g)) =
  (if has_tag TCGB snap then recover_group_invitation_book snap g else Ok (book_new g)).
Proof.
  intros H. specialize (H TCGB ltac:(by left)). unfold recover_group_invitation_book. by rewrite !has_tag_latest, H.
Qed.

Lemma recover_deferred_same snap snap' g auth :
  controls_inv g (group_controls snap) -> controls_inv g (group_controls snap') -> same_tags [TCGQ] snap snap' ->
  recover_group_deferred_rosters snap' g auth = recover_group_deferred_rosters snap g auth.
Proof.
  intros H1 H2 H. unfold recover_group_deferred_rosters.
  rewrite !(latest_scoped g TCGQ) by (unfold per_group; tauto || by apply H1 || by apply H2).
  by rewrite (H TCGQ ltac:(by left)).
Qed.

Lemma cancellation_same snap snap' g :
  controls_inv g (group_controls snap) -> controls_inv g (group_controls snap') -> same_tags [TCGX] snap snap' ->
  latest_group_outbox_cancellation snap' g = latest_group_outbox_cancellation snap g.
Proof. intros H1 H2 H. by rewrite !cancellation_read, (H TCGX ltac:(by left)). Qed.

Lemma tracks_same snap snap' g o :
  latest_group_outbox_cancellation snap' g = latest_group_outbox_cancellation snap g ->
  snap_outbox snap' = snap_outbox snap -> tracks pc g snap o -> tracks pc g snap' o.
Proof. intros Hc Ho. unfold tracks, recover_group_outbox. by rewrite Hc, Ho. Qed.

Lemma attach_receiver_same snap snap' local v :
  application_state snap' = application_state snap ->
  attach_receiver rc pc snap' local v = attach_receiver rc pc snap local v.
Proof. intros H. unfold attach_receiver, recover_group_receiver. by rewrite H. Qed.

(** *** The record of a part gives the part *)
Lemma view_recorded snap g auth source v state r :
  latest_record TCGV (group_controls snap) = Some r -> encode_roster_view_record state = Ok r ->
  view_encode_state v = Ok state -> view_ok rc auth v -> r_group_id (v_roster v) = g ->
  attach_view rc snap g auth source = Ok (Some v).
Proof.
  intros Hl Hr Hs Hv Hg. unfold attach_view, recover_group_roster_view. rewrite has_tag_latest, Hl.
  cbn [ok_or mbind result_bind]. unfold decode_roster_view_record. rewrite (checkpoint_decode TCGV state r) by done.
  cbn [mbind result_bind]. rewrite (proj2 (view_decode_exact rc auth state v)) by done.
  cbn [map_err mbind result_bind]. by rewrite bool_decide_eq_true_2.
Qed.

Lemma control_recorded snap o n state r :
  latest_record TCGO (group_controls snap) = Some r -> encode_control_outbox_record state = Ok r ->
  control_encode_state pc o = Ok state -> control_inv pc n o -> recover_group_control_outbox pc snap = Ok o.
Proof.
  intros Hl Hr Hs Hi. unfold recover_group_control_outbox, decode_control_outbox_record. rewrite Hl.
  rewrite (checkpoint_decode TCGO state r) by done. cbn [mbind result_bind].
  by rewrite (proj2 (control_decode_exact pc state o) (conj (ex_intro _ n Hi) Hs)).
Qed.

Lemma book_recorded snap b state r :
  latest_record TCGB (group_controls snap) = Some r -> encode_invitation_book_record state = Ok r ->
  book_encode_state b = Ok state -> book_inv b -> len (book_group_id b) = GROUP_ID_LEN ->
  (if has_tag TCGB snap then recover_group_invitation_book snap (book_group_id b)
   else Ok (book_new (book_group_id b))) = Ok (canonical_book b).
Proof.
  intros Hl Hr Hs Hi Hg. destruct (book_checkpoint b Hi Hg) as (state' & Hs' & Hd).
  assert (state' = state) as -> by congruence. rewrite has_tag_latest, Hl.
  unfold recover_group_invitation_book, decode_invitation_book_record. rewrite Hl. cbn [ok_or mbind result_bind].
  rewrite (checkpoint_decode TCGB state r) by done. cbn [mbind result_bind]. by rewrite Hd.
Qed.

Lemma deferred_recorded snap g auth q r :
  controls_inv g (group_controls snap) -> latest_record TCGQ (group_controls snap) = Some r ->
  deferred_encode_record q g = Ok r -> deferred_ok g auth q ->
  recover_group_deferred_rosters snap g auth = Ok q.
Proof.
  intros Hc Hl Hr Hq. unfold recover_group_deferred_rosters.
  rewrite (latest_scoped g TCGQ) by (unfold per_group; tauto || apply Hc). rewrite Hl.
  pose proof Hq as (_ & Hg & _). by rewrite (proj2 (deferred_decode_exact r g auth q Hg)).
Qed.

Lemma receiver_recorded snap local v r :
  receiver_encode_state r = Ok (application_state snap) -> receiver_inv r -> stored rc pc r ->
  next_event_id r < u64_max -> attach_receiver rc pc snap local (Some v) = Ok (Some r).
Proof.
  intros He Hi Hs Hn. destruct (receiver_decode_encode rc pc r Hi Hs Hn) as (bs & He' & Hd).
  assert (bs = application_state snap) as -> by congruence. unfold attach_receiver.
  case_bool_decide as Hz.
  - exfalso. rewrite Hz in Hd. done.
  - unfold recover_group_receiver. by rewrite Hd.
Qed.
(** *** One commit, part by part *)
(** What a commit changes of the state is what it writes. *)
Record writes (snap : OperationSnapshot) (g : GroupState) (rs : list bytes) (snap' : OperationSnapshot) (g' : GroupState)
    : Prop := {
  wr_pinned : gs_group_id g' = gs_group_id g /\ gs_authority g' = gs_authority g /\ gs_source g' = gs_source g /\
    gs_local g' = gs_local g;
  wr_own : Forall (own_record (gs_group_id g)) rs;
  wr_controls : group_controls snap' = group_controls (append_group_control_records snap rs);
  wr_view : part TCGV rs (gs_view g' = gs_view g) (fun r => exists v state,
    gs_view g' = Some v /\ view_encode_state v = Ok state /\ encode_roster_view_record state = Ok r);
  wr_receiver :
    (gs_receiver g' = gs_receiver g /\ gs_view g' = gs_view g /\ application_state snap' = application_state snap) \/
    (exists r, gs_receiver g' = Some r /\ receiver_encode_state r = Ok (application_state snap'));
  wr_control : part TCGO rs (gs_control g' = gs_control g) (fun r => exists state,
    control_encode_state pc (gs_control g') = Ok state /\ encode_control_outbox_record state = Ok r);
  wr_book : part TCGB rs (gs_book g' = gs_book g) (fun r => exists state,
    book_encode_state (gs_book g') = Ok state /\ encode_invitation_book_record state = Ok r);
  wr_deferred : part TCGQ rs (gs_deferred g' = gs_deferred g) (fun r =>
    deferred_encode_record (gs_deferred g') (gs_group_id g) = Ok r)
}.

Lemma part_latest tag rs same recorded l l' :
  part tag rs same recorded ->
  latest_record tag l' = match latest_record tag rs with Some r => Some r | None => latest_record tag l end ->
  (same /\ latest_record tag l' = latest_record tag l) \/ (exists r, recorded r /\ latest_record tag l' = Some r).
Proof. unfold part. destruct (latest_record tag rs) as [r|]; intros Hp Hl; [right; by exists r|by left]. Qed.

Lemma rebuilds_write snap g rs snap' g' old :
  running snap g -> writes snap g rs snap' g' ->
  tracks pc (gs_group_id g) snap' (gs_outbox g') ->
  latest_group_outbox_cancellation snap' (gs_group_id g) = Ok old -> parts_ok g' old ->
  running snap' g'.
Proof.
  intros [[Rc Rv Rr Rf Ro Rt Rb Rd] (old0 & _ & P)] [(Ei & Ea & Es & El) Wo Wc Wv Wr Wt Wb Wd] Ho Hc P'.
  pose proof (po_id _ _ P) as Hg. pose proof (po_book _ _ P') as [Hbi Hbg].
  destruct (append_group_records _ snap rs Hg Rc Wo) as (Hinv & Hlat & _ & _). rewrite <- Wc in Hinv, Hlat.
  assert (forall tag, tag ∈ CHECKPOINT_TAGS -> latest_record tag (group_controls snap') = latest_record tag (group_controls snap) ->
    same_tags [tag] snap snap') as Hsame by (intros tag _ He t ->%list_elem_of_singleton; done).
  assert (forall tag, tag ∈ [TCGV; TCGO; TCGB; TCGQ] -> tag ∈ CHECKPOINT_TAGS) as Htags.
  { intros tag. unfold CHECKPOINT_TAGS. rewrite !elem_of_cons. tauto. }
  split; [|exists old; rewrite Ei; done]. split; rewrite ?Ei, ?Ea, ?Es, ?El; try done.
  - destruct (part_latest _ _ _ _ _ _ Wv (Hlat TCGV ltac:(by apply Htags; left))) as [[-> Hl]|(r & (v & st & Hv & H1 & H2) & Hl)].
    + rewrite <- Rv. apply attach_view_same, Hsame; [by apply Htags; left|done].
    + rewrite Hv. destruct (po_view _ _ P' v Hv) as [Hok Hvg]. rewrite Ea in Hok. rewrite Ei in Hvg. by eapply view_recorded.
  - intros Hn. destruct Wr as [(Hr & Hv & Happ)|(r & Hr & Happ)].
    + rewrite Hr, Hv, (attach_receiver_same snap snap') by done. apply Rr. intros r' Hr'. apply Hn. by rewrite Hr.
    + destruct (po_receiver _ _ P' r Hr) as [Hi Hs]. assert (is_Some (gs_view g')) as [v Hv] by (apply (po_both _ _ P'); by rewrite Hr).
      rewrite Hr, Hv. apply receiver_recorded; auto.
  - intros Hv. destruct Wr as [(Hr & Hv' & ->)|(r & Hr & Happ)]; [apply Rf; congruence|].
    assert (is_Some (gs_view g')) as [v Hv'] by (apply (po_both _ _ P'); by rewrite Hr). congruence.
  - destruct (part_latest _ _ _ _ _ _ Wt (Hlat TCGO ltac:(by apply Htags; right; left))) as [[-> Hl]|(r & (st & H1 & H2) & Hl)].
    + rewrite <- Rt. apply recover_control_same, Hsame; [by apply Htags; right; left|done].
    + destruct (po_control _ _ P') as [n Hn]. by eapply control_recorded.
  - destruct (part_latest _ _ _ _ _ _ Wb (Hlat TCGB ltac:(by apply Htags; do 2 right; left))) as [[-> Hl]|(r & (st & H1 & H2) & Hl)].
    + rewrite <- Rb. apply recover_book_same, Hsame; [by apply Htags; do 2 right; left|done].
    + rewrite <- Ei, <- Hbg. eapply book_recorded; try done. by rewrite Hbg, Ei.
  - destruct (part_latest _ _ _ _ _ _ Wd (Hlat TCGQ ltac:(by apply Htags; do 3 right; left))) as [[-> Hl]|(r & H1 & Hl)].
    + rewrite <- Rd. apply recover_deferred_same, Hsame; try done. by apply Htags; do 3 right; left.
    + pose proof (po_deferred _ _ P') as Hq. rewrite Ei, Ea in Hq. by eapply deferred_recorded.
Qed.
(** Nothing recovery reads has changed. *)
Lemma append_none g snap :
  controls_inv g (group_controls snap) -> group_controls (append_group_control_records snap []) = group_controls snap.
Proof.
  intros Hl. unfold append_group_control_records, append_controls. cbn [fold_left].
  pose proof (ci_bound _ _ Hl) as Hb. destruct (group_controls snap) as [|r l]; [done|].
  cbn [length evict_loop]. by rewrite (proj2 (Z.leb_le _ _) Hb).
Qed.

Lemma running_frame snap snap' g :
  running snap g -> group_controls snap' = group_controls snap -> snap_outbox snap' = snap_outbox snap ->
  application_state snap' = application_state snap -> running snap' g.
Proof.
  intros Hr Hc Ho Ha. pose proof Hr as [R (old & Hx & P)]. pose proof (rb_controls _ _ R) as Hl.
  assert (latest_group_outbox_cancellation snap' (gs_group_id g) = Ok old) as Hx'.
  { unfold latest_group_outbox_cancellation in *. by rewrite Hc. }
  apply (rebuilds_write snap g [] snap' g old); try done.
  - split; try done; [by rewrite (append_none _ _ Hl)|by left].
  - apply (tracks_same snap); [by rewrite Hx'|done|apply R].
Qed.

Lemma candidate_running {St} `{OperationStore St} (store : St) snap g c :
  running snap g -> begin_candidate store snap = Ok c -> running c g.
Proof.
  intros Hr Hc. unfold begin_candidate in Hc. inv_bind. by apply (running_frame snap).
Qed.

(** A commit that appends control records and leaves the outbox alone. *)
Lemma running_append snap g rs g' :
  let snap' := append_group_control_records snap rs in
  running snap g -> writes snap g rs snap' g' -> gs_outbox g' = gs_outbox g ->
  latest_record TCGX rs = None ->
  (forall old, parts_ok g old -> parts_ok g' old) -> running snap' g'.
Proof.
  intros snap' Hr Hw Ho Hx HP. pose proof Hr as [R (old & Hold & P)]. pose proof (rb_controls _ _ R) as Hl.
  destruct (append_group_records _ snap rs (po_id _ _ P) Hl (wr_own _ _ _ _ _ Hw)) as (Hinv & Hlat & Hso & _).
  assert (latest_group_outbox_cancellation snap' (gs_group_id g) = latest_group_outbox_cancellation snap (gs_group_id g)) as He.
  { apply cancellation_same; [done|done|]. intros tag ->%list_elem_of_singleton. rewrite Hlat; [by rewrite Hx|].
    unfold CHECKPOINT_TAGS. rewrite !elem_of_cons. tauto. }
  apply (rebuilds_write snap g rs snap' g' old); [done|done| |by rewrite He|by apply HP].
  rewrite Ho. by apply (tracks_same snap); [|done|apply R].
Qed.

(** ** Commits of the receiver *)
Definition with_receiver (g : GroupState) (r : GroupReceiver) : GroupState :=
  mkGroupState (gs_group_id g) (gs_authority g) (gs_source g) (gs_local g) (gs_view g) (Some r) (gs_outbox g)
    (gs_control g) (gs_book g) (gs_deferred g).

Lemma record_receive_frame snap e ctx cm d snap' :
  record_receive snap e ctx cm d = Ok snap' ->
  group_controls snap' = group_controls snap /\ snap_outbox snap' = snap_outbox snap /\
  application_state snap' = application_state snap /\ provider_state snap' = provider_state snap.
Proof. unfold record_receive. intros H. inv_bind. by destruct (is_accepted d). Qed.

Lemma record_malformed_frame snap e p snap' :
  record_malformed pc snap e p = Ok snap' ->
  group_controls snap' = group_controls snap /\ snap_outbox snap' = snap_outbox snap /\
  application_state snap' = application_state snap.
Proof. unfold record_malformed. intros H. by inv_bind. Qed.

Lemma payload_context bs c : payload_decode bs = Ok (PApplication c) -> context_wf c.
Proof. intros [Hwf _]%payload_decode_encode. done. Qed.

Lemma receive_running {St} `{OperationStore St} (store store' : St) snap g v r c peer state e snap' r' d :
  (forall x, len (pc x) = DIGEST_LEN) -> running snap g -> gs_view g = Some v -> gs_receiver g = Some r -> context_wf c ->
  commit_receive_disposition pc store snap r c peer state e = (store', Ok (snap', (r', d))) ->
  running snap' (with_receiver g r').
Proof.
  intros Hpc Hr Hv Hrec Hc Hcom. apply publish_Ok in Hcom.
  destruct (context_encode c) as [ctx|] eqn:Ec; [|done]. cbn [map_err mbind result_bind] in Hcom.
  destruct (receive r c peer (pc ctx)) as [r1 d1] eqn:Er. inv_bind.
  match goal with E : begin_candidate _ _ = Ok _ |- _ => pose proof (candidate_running _ _ _ _ Hr E) as Hr' end.
  match goal with E : record_receive _ _ _ _ _ = Ok _ |- _ => apply record_receive_frame in E as (F1 & F2 & F3 & _) end.
  destruct Hr' as [R (old & Hold & P)]. destruct (po_receiver _ _ P r Hrec) as [Hi Hs].
  assert (latest_group_outbox_cancellation snap' (gs_group_id g) = Ok old) as Hold'.
  { unfold latest_group_outbox_cancellation in *. by rewrite F1. }
  assert (receiver_inv r' /\ stored rc pc r') as Hr2.
  { split; [by eapply receiver_inv_receive|]. eapply stored_receive; [|by apply Hpc|exact Hs|exact Er]. split; [done|]. by eexists. }
  eapply (rebuilds_write _ g [] snap' (with_receiver g r') old); [by split; [exact R|eauto]| | |done|].
  - split; try done.
    + by rewrite (append_none _ _ (rb_controls _ _ R)).
    + right. exists r'. split; [done|]. rewrite F3. cbn. by destruct (receiver_encode_state r').
  - eapply tracks_same; [by rewrite Hold', Hold|by rewrite F2|apply R].
  - destruct P as [P1 P2 P3 P4 P5 P6 P7 P8 P9 P10]. split; try done; cbn. by intros ? [= <-].
Qed.

(** ** Commits of held controls *)
Lemma with_queue_ok g old q : parts_ok g old -> deferred_ok (gs_group_id g) (gs_authority g) q -> parts_ok (with_queue g q) old.
Proof. intros [] Hq. by split. Qed.

Lemma effect_tag e : starts_with TCGE (encode_control_effect_record e) = true.
Proof. apply starts_with_app. Qed.

Lemma own_effect g e : own_record g (encode_control_effect_record e).
Proof. apply (own_other g TCGE); [done|apply effect_tag|]. by intros [? | [? | ?]]. Qed.

Lemma queue_record_own g q r : deferred_encode_record q g = Ok r -> own_record g r /\ starts_with TCGQ r = true.
Proof using Type.
  unfold deferred_encode_record. intros H. inv_bind. split; [apply own_group; right; by left|apply starts_with_app].
Qed.

Lemma prune_through_ok g a q rev : deferred_ok g a q -> deferred_ok g a (prune_through q rev).
Proof.
  intros [[Ha Hl] [Hg Hh]]. split; [split|split; [done|]]; cbn.
  - eapply StronglySorted_sublist; [apply sublist_filter|exact Ha].
  - pose proof (length_filter (fun held => revision held > rev) (rosters q)). unfold len in *. lia.
  - rewrite Forall_forall in *. intros h [_ Hin]%list_elem_of_filter. by apply Hh.
Qed.

(** What holding a control does to a queue of one group. *)
Lemma hold_ok g a q r :
  deferred_ok g a q -> held_ok g a r -> deferred_ok g a (hold q r).1.
Proof.
  intros [Hi [Hg Hh]] Hr. pose proof (hold_spec q r Hi) as Hs. destruct (hold q r) as [q' d]. destruct Hs as [Hi' Hs].
  split; [done|split; [done|]]. destruct d; [|by destruct Hs as [-> _]|by destruct Hs as [-> _]].
  destruct Hs as [Hp _]. cbn. rewrite Hp. by constructor.
Qed.

Lemma hold_keeping_lowest_ok g a q r :
  deferred_ok g a q -> held_ok g a r -> deferred_ok g a (hold_keeping_lowest q r).1.
Proof.
  intros Hq Hr. unfold hold_keeping_lowest. destruct (_ && _); [|by apply hold_ok]. apply hold_ok; [|done].
  destruct Hq as [[Ha Hl] [Hg Hh]]. destruct (last (rosters q)) as [top|] eqn:E.
  - destruct (ascending_last _ _ Ha E) as (l' & Hq & -> & Ha' & _). rewrite Hq in Hl, Hh. apply Forall_app in Hh as [Hh _].
    split; [split; [done|]|done]. cbn. rewrite len_app in Hl. pose proof (len_nonneg [top]). lia.
  - apply last_None in E. rewrite E. cbn. split; [split; [constructor|done]|]. split; [done|constructor].
Qed.

Lemma queue_running snap g q r :
  running snap g -> deferred_ok (gs_group_id g) (gs_authority g) q -> deferred_encode_record q (gs_group_id g) = Ok r ->
  forall rs, rs = [r] \/ (exists e, rs = [encode_control_effect_record e; r]) ->
  running (append_group_control_records snap rs) (with_queue g q).
Proof.
  intros Hr Hq He rs Hrs. destruct (queue_record_own _ _ _ He) as [Ho Ht]. pose proof effect_tag as Hef.
  apply (running_append _ g rs); [done| |done| |by intros; apply with_queue_ok].
  - destruct Hrs as [-> | [e ->]]; (split; [done|repeat constructor; done || apply own_effect|done|latest; try done..|by left|latest; done|latest; done|]);
      by latest.
  - destruct Hrs as [-> | [e ->]]; by latest.
Qed.

Lemma hold_running {St} `{OperationStore St} (store store' : St) snap g r state e snap' q' :
  running snap g -> roster_wf r ->
  commit_hold_roster_without_view store snap (gs_deferred g) (gs_authority g) (gs_group_id g) r state e = (store', Ok (snap', q')) ->
  running snap' (with_queue g q').
Proof.
  intros Hr Hwf Hc. apply publish_Ok in Hc. unfold guard_err in Hc. destruct (_ || _ || _) eqn:G in Hc; [done|]. cbn [mbind result_bind] in Hc.
  apply orb_false_iff in G as [[G1 G2]%orb_false_iff G3]. bool_prop.
  destruct (hold_keeping_lowest (gs_deferred g) r) as [q h] eqn:Eh. case_bool_decide; [done|]. cbn [mbind result_bind] in Hc. inv_bind.
  pose proof Hr as [_ (old & _ & P)].
  assert (deferred_ok (gs_group_id g) (gs_authority g) q') as Hq.
  { change q' with (q', h).1. rewrite <- Eh. apply hold_keeping_lowest_ok; [apply P|done]. }
  eapply queue_running; [|done| |right; by eexists].
  - eapply running_frame; [eapply candidate_running; [exact Hr|eassumption]|done..].
  - by destruct (deferred_encode_record _ _) eqn:?; inv_bind.
Qed.

Lemma prune_running {St} `{OperationStore St} (store store' : St) snap g v snap' q' b :
  running snap g ->
  commit_prune_deferred_rosters store snap v (gs_group_id g) (gs_deferred g) = (store', Ok (snap', (q', b))) ->
  running snap' (with_queue g q').
Proof.
  intros Hr Hc. unfold commit_prune_deferred_rosters in Hc. pose proof Hr as [_ (old & _ & P)].
  case_bool_decide as Hq; [injection Hc as _ <- <- _; by destruct g|].
  apply publish_Ok in Hc. inv_bind. eapply queue_running; [by eapply candidate_running| | |by left].
  - apply prune_through_ok, P.
  - by destruct (deferred_encode_record _ _) eqn:?; inv_bind.
Qed.

(** ** Commits of the invitation book and of the control handoffs *)
Definition book_ok (g : GroupState) (b : InvitationBook) : Prop := book_inv b /\ book_group_id b = gs_group_id g.

Lemma with_book_ok g old b : parts_ok g old -> book_ok g b -> parts_ok (with_book g b) old.
Proof. intros [] Hb. by split. Qed.

Lemma set_control_ok g old o : parts_ok g old -> (exists n, control_inv pc n o) -> parts_ok (set_control g o) old.
Proof. intros [] Ho. by split. Qed.

Lemma own_checkpoint g tag state r :
  encode_checkpoint_record tag state = Ok r -> len tag = 4 -> ~ per_group tag -> own_record g r.
Proof. intros H Hl Hn. eapply own_other; [exact Hl|by eapply checkpoint_tag|done]. Qed.

Lemma not_per_group : ~ per_group TCGV /\ ~ per_group TCGB /\ ~ per_group TCGO /\ ~ per_group TCGC.
Proof. split_and!; by intros [? | [? | ?]]. Qed.

(** Records of other kinds leave a kind alone. *)
Lemma latest_none tag rs : Forall (fun r => exists t, starts_with t r = true /\ length t = length tag /\ tag <> t) rs ->
  latest_record tag rs = None.
Proof.
  induction 1 as [|r rs (t & Hs & Hl & Hn) _ IH]; [done|].
  by rewrite latest_cons, IH, (starts_other t), bool_decide_eq_false_2.
Qed.

(** The records that a book or a control commit may write. *)
Definition book_or_control (r : bytes) : Prop :=
  starts_with TCGB r = true \/ starts_with TCGO r = true \/ starts_with TCGE r = true.

Lemma book_or_control_own g r : book_or_control r -> own_record g r.
Proof.
  intros [H|[H|H]]; (eapply own_other; [|exact H|by intros [? | [? | ?]]]); done.
Qed.

Lemma book_or_control_none tag rs :
  tag ∈ [TCGV; TCGX; TCGQ] -> Forall book_or_control rs -> latest_record tag rs = None.
Proof.
  intros Ht Hrs. apply latest_none. eapply Forall_impl; [exact Hrs|]. intros r Hr.
  rewrite !elem_of_cons, elem_of_nil in Ht.
  destruct Hr as [H|[H|H]]; (eexists; split; [exact H|]); by destruct Ht as [-> | [-> | [-> | []]]].
Qed.

Lemma checkpoints_running snap g book control rs :
  running snap g -> book_ok g book -> (exists n, control_inv pc n control) ->
  part TCGB rs (book = gs_book g) (fun r => exists state,
    book_encode_state book = Ok state /\ encode_invitation_book_record state = Ok r) ->
  part TCGO rs (control = gs_control g) (fun r => exists state,
    control_encode_state pc control = Ok state /\ encode_control_outbox_record state = Ok r) ->
  Forall book_or_control rs ->
  running (append_group_control_records snap rs) (set_control (with_book g book) control).
Proof.
  intros Hr Hb Ho Pb Po Hrs.
  apply (running_append _ g rs); [done| |done|apply book_or_control_none; [do 1 right; by left|done]|].
  - split; [done| |done| |by left|exact Po|exact Pb|].
    + eapply Forall_impl; [exact Hrs|]. apply book_or_control_own.
    + unfold part. by rewrite book_or_control_none by (done || by left).
    + unfold part. by rewrite book_or_control_none by (done || by do 2 right; left).
  - intros old Hp. apply set_control_ok; [by apply with_book_ok|done].
Qed.

Lemma with_book_self g b : set_control (with_book g b) (gs_control g) = with_book g b.
Proof. done. Qed.

Lemma with_book_same g : with_book g (gs_book g) = g.
Proof. by destruct g. Qed.

Lemma set_control_self g o : set_control (with_book g (gs_book g)) o = set_control g o.
Proof. by destruct g. Qed.

Lemma book_running {St A} `{OperationStore St} (store store' : St) snap g provider
    (transition : InvitationBook -> InvitationBook * result Error A) snap' b' x :
  running snap g ->
  (forall b x, transition (gs_book g) = (b, Ok x) -> book_ok g b) ->
  commit_group_invitation_transition_with_provider store snap (gs_book g) provider transition = (store', Ok (snap', (b', x))) ->
  running snap' (with_book g b').
Proof.
  intros Hr Hb Hc. apply publish_Ok in Hc. destruct (transition (gs_book g)) as [b r] eqn:Et.
  destruct r as [y|]; [|done]. cbn [map_err mbind result_bind] in Hc. inv_bind.
  specialize (Hb _ _ eq_refl). pose proof Hr as [_ (old & _ & P)].
  match goal with E : begin_candidate _ _ = Ok _ |- _ => pose proof (candidate_running _ _ _ _ Hr E) as Hr' end.
  match goal with E : book_encode_state _ = Ok ?a |- _ => rename E into Es end.
  match goal with E : encode_invitation_book_record _ = Ok _ |- _ => rename E into Ee end.
  pose proof (checkpoint_tag _ _ _ Ee) as Ht. pose proof effect_tag as Hef. rewrite <- with_book_self.
  destruct provider as [[p e]|]; injection Hc as <- <- _;
    (apply checkpoints_running; [by eapply running_frame|done|apply P|latest; by eexists|by latest|]).
  - apply Forall_cons. split; [by left|]. apply Forall_singleton. right. by right.
  - apply Forall_singleton. by left.
Qed.

Lemma control_running {St A} `{OperationStore St} (store store' : St) snap g
    (transition : ControlOutbox -> result Error (ControlOutbox * A)) snap' o' x :
  running snap g ->
  (forall o x, transition (gs_control g) = Ok (o, x) -> exists n, control_inv pc n o) ->
  commit_group_control_outbox_transition pc store snap (gs_control g) transition = (store', Ok (snap', (o', x))) ->
  running snap' (set_control g o').
Proof.
  intros Hr Ho Hc. apply publish_Ok in Hc. inv_bind. pose proof Hr as [_ (old & _ & P)].
  specialize (Ho _ _ eq_refl).
  match goal with E : encode_control_outbox_record _ = Ok _ |- _ => pose proof (checkpoint_tag _ _ _ E) as Ht end.
  rewrite <- set_control_self. apply checkpoints_running; [by eapply candidate_running|apply P|done|by latest|latest; by eexists|].
  apply Forall_singleton. right. by left.
Qed.

(** A sequence is left for another handoff. *)
Definition sequence_left (o : ControlOutbox) : Prop := next_handoff_sequence o < u64_max.

Lemma prepared_inv o m p ct o' u :
  (exists n, control_inv pc n o) -> sequence_left o -> prepare_ok m p ct ->
  control_record_prepared pc o m p ct = Ok (o', u) -> exists n, control_inv pc n o'.
Proof.
  intros [n Hn] Hs Hp H. destruct u. destruct (Z_le_gt_dec n u64_max) as [Hle|Hgt].
  - destruct (prepare_inv pc n o m p ct o' Hn Hle Hp H); eauto.
  - exfalso. destruct Hn as [[_ _ _ _ E6 _] _]. unfold sequence_left, next_handoff_sequence in Hs.
    destruct E6 as [[-> _]|Hin]; [by vm_compute in Hgt|].
    destruct (max_of _) as [k|] eqn:E; [|apply max_of_None in E; rewrite E in Hin; by apply elem_of_nil in Hin].
    apply max_of_Some in E as [_ Hle]. specialize (Hle _ Hin). unfold saturating_add64 in Hs. lia.
Qed.

Lemma prepared_running {St} `{OperationStore St} (store store' : St) snap g m p ct state snap' o' h :
  running snap g -> sequence_left (gs_control g) -> prepare_ok m p ct ->
  commit_prepared_control_handoff pc store snap (gs_control g) m p ct state = (store', Ok (snap', (o', h))) ->
  running snap' (set_control g o').
Proof.
  intros Hr Hs Hp Hc. apply publish_Ok in Hc. pose proof Hr as [_ (old & _ & P)].
  destruct (control_record_prepared pc (gs_control g) m p ct) as [[o u]|] eqn:Ep; [|done].
  apply prepared_inv in Ep; [|apply P|done..]. cbn [map_err mbind result_bind] in Hc. inv_bind.
  match goal with E : encode_control_outbox_record _ = Ok _ |- _ => pose proof (checkpoint_tag _ _ _ E) as Ht end.
  rewrite <- set_control_self.
  apply checkpoints_running; [eapply running_frame; [by eapply candidate_running|done..]|apply P|done|by latest|latest; by eexists|].
  apply Forall_singleton. right. by left.
Qed.

Lemma revocation_running {St} `{OperationStore St} (store store' : St) snap g auth id now snap' b' o' i :
  running snap g ->
  commit_authority_invitation_revocation_transition pc store snap (gs_book g) (gs_control g) auth id now
    = (store', Ok (snap', (b', o', i))) ->
  running snap' (set_control (with_book g b') o').
Proof.
  intros Hr Hc. apply publish_Ok in Hc. pose proof Hr as [_ (old & _ & P)]. destruct (po_book _ _ P) as [Hb Hbg].
  pose proof (book_inv_step _ (BRevoke id auth auth now) I Hb) as Hb'.
  pose proof (book_group_step (gs_book g) (BRevoke id auth auth now)) as Hg'. cbn [book_step] in Hb', Hg'.
  destruct (book_revoke (gs_book g) id auth auth now) as [b r]. cbn [fst] in Hb', Hg'.
  destruct (po_control _ _ P) as [n Hn]. inv_bind.
  match goal with E : encode_control_outbox_record _ = Ok _ |- _ => pose proof (checkpoint_tag _ _ _ E) as Ht end.
  match goal with E : encode_invitation_book_record _ = Ok _ |- _ => pose proof (checkpoint_tag _ _ _ E) as Hu end.
  apply checkpoints_running; [by eapply candidate_running|split; [done|congruence]| |latest; by eexists|latest; by eexists|].
  - exists n. by apply cancel_inv.
  - apply Forall_cons. split; [by left|]. apply Forall_singleton. right. by left.
Qed.

(** ** Commits of the outbox *)
Definition outbox_frame (snap snap' : OperationSnapshot) : Prop :=
  group_controls snap' = group_controls snap /\ application_state snap' = application_state snap.

Lemma sends_running snap g snap' o' :
  running snap g -> outbox_frame snap snap' -> tracks pc (gs_group_id g) snap' o' -> running snap' (set_outbox g o').
Proof.
  intros Hr [F1 F2] Ht. pose proof Hr as [R (old & Hold & P)].
  eapply (rebuilds_write _ g [] snap' (set_outbox g o') old); [done| |done| |by destruct P; split].
  - split; try done; [by rewrite (append_none _ _ (rb_controls _ _ R))|by left].
  - unfold latest_group_outbox_cancellation in *. by rewrite F1.
Qed.

Lemma compact_frame snap g snap' o : compact_group_outbox pc snap g = Ok (snap', o) -> outbox_frame snap snap'.
Proof. unfold compact_group_outbox. intros H. inv_bind. by destruct (len _ <=? _); inv_bind. Qed.

Lemma compacted_frame c o g p snap' x : compacted pc c o g p = Ok (snap', x) -> outbox_frame c snap'.
Proof. unfold compacted. intros H. inv_bind. by eapply compact_frame. Qed.

Lemma candidate_frame {St} `{OperationStore St} (store : St) snap c : begin_candidate store snap = Ok c -> outbox_frame snap c.
Proof. unfold begin_candidate. intros H0. by inv_bind. Qed.

Lemma frame_trans s1 s2 s3 : outbox_frame s1 s2 -> outbox_frame s2 s3 -> outbox_frame s1 s3.
Proof. intros [A1 A2] [B1 B2]. split; congruence. Qed.

Section Outbox.
Context {St : Type} `{OperationStore St}.
Implicit Types store : St.

Lemma intent_frame store store' snap o s snap' x :
  commit_logical_intent store snap o s = (store', Ok (snap', x)) -> outbox_frame snap snap'.
Proof.
  intros Hc. unfold commit_logical_intent in Hc. destruct (encode_intent s); [|done]. cbn [map_err mbind result_bind] in Hc.
  destruct (record o s) as [o1 [d|]]; [|done]. cbn [map_err mbind result_bind] in Hc.
  destruct (bool_decide _); [by injection Hc as _ <- _|]. apply publish_Ok in Hc. inv_bind.
  match goal with E : begin_candidate _ _ = Ok _ |- _ => by apply candidate_frame in E end.
Qed.

Lemma prepared_frame store store' snap o id m ct state snap' x :
  commit_outbox_prepared_ciphertext pc store snap o id m ct state = (store', Ok (snap', x)) -> outbox_frame snap snap'.
Proof.
  intros Hc. apply publish_Ok in Hc. inv_bind.
  match goal with E : begin_candidate _ _ = Ok _ |- _ => by apply candidate_frame in E end.
Qed.

Lemma handoff_frame store store' snap o id m snap' x :
  commit_outbox_handoff_reservation pc store snap o id m = (store', Ok (snap', x)) -> outbox_frame snap snap'.
Proof.
  intros Hc. apply publish_Ok in Hc. destruct (candidate_progress _ _ _ _) as [[[o1 p] context]|]; [|done].
  cbn [mbind result_bind] in Hc. destruct (context_commitment p), (ciphertext p); try done.
  cbn [ok_or mbind result_bind] in Hc. destruct (begin_candidate _ _) as [c|] eqn:E; [|done].
  destruct (encode_handoff_record _ _ _ _); [|done]. cbn [mbind result_bind] in Hc.
  apply compacted_frame in Hc. eapply frame_trans; [by eapply candidate_frame|exact Hc].
Qed.

Lemma acceptance_frame store store' snap o id m snap' x :
  commit_outbox_relay_acceptance pc store snap o id m = (store', Ok (snap', x)) -> outbox_frame snap snap'.
Proof.
  intros Hc. apply publish_Ok in Hc. destruct (candidate_progress _ _ _ _) as [[[o1 p] context]|]; [|done].
  cbn [mbind result_bind] in Hc. destruct (context_commitment p), (ciphertext p); try done.
  cbn [ok_or mbind result_bind] in Hc. destruct (begin_candidate _ _) as [c|] eqn:E; [|done].
  destruct (encode_relay_acceptance_record _ _ _); [|done]. cbn [mbind result_bind] in Hc.
  apply compacted_frame in Hc. eapply frame_trans; [by eapply candidate_frame|exact Hc].
Qed.
End Outbox.
End Parts.
Arguments parts_ok : clear implicits.
Arguments rebuilds : clear implicits.
Arguments running : clear implicits.
Arguments writes : clear implicits.
