(* ===== verification/GroupTransition.v ===== *)
(** * GroupTransition: the roster transition keeps the state recoverable
    ([commit_roster_transition] of [tacenta-client/src/group_operations.rs],
    [attach] and [drain_deferred_rosters] of [group_client.rs])

    The one commit that rewrites every part at once, the attaching that rebuilds
    them and the draining of the held controls. *)

From S2P Require Import Prelude GroupCodec Invitation GroupPayload RosterView GroupReceive GroupSend GroupControl.
From S2P Require Import OperationStore DeferredRosters GroupTranscript GroupRecords GroupInbound GroupClient GroupDrive.
From S2P Require Import GroupRecovery.

Section Parts.
Context {rc pc : bytes -> bytes}.
Local Abbreviation running := (GroupRecovery.running rc pc).
Local Abbreviation parts_ok := (GroupRecovery.parts_ok rc pc).
Local Abbreviation writes := (GroupRecovery.writes pc).
Local Abbreviation rebuilds := (GroupRecovery.rebuilds rc pc).

(** ** The roster transition *)
Lemma latest_app tag l1 l2 :
  latest_record tag (l1 ++ l2) = match latest_record tag l2 with Some x => Some x | None => latest_record tag l1 end.
Proof.
  induction l2 as [|x l2 IH] using rev_ind; [by rewrite app_nil_r|]. rewrite app_assoc, !latest_snoc, IH.
  by destruct (starts_with tag x).
Qed.

(** At most one record, of a known kind. *)
Definition only (t : bytes) (l : list bytes) : Prop := l = [] \/ exists r, l = [r] /\ starts_with t r = true.

Lemma only_latest t tag l : only t l -> length t = length tag -> tag <> t -> latest_record tag l = None.
Proof.
  intros [-> |(r & -> & Hr)] Hl Hn; [done|]. apply latest_none. apply Forall_singleton. by exists t.
Qed.

Lemma only_own t g l : only t l -> len t = 4 -> ~ per_group t -> Forall (own_record g) l.
Proof. intros [-> |(r & -> & Hr)] Hl Hn; [constructor|]. apply Forall_singleton. by eapply own_other. Qed.

Lemma prepared_spec d o p o' l :
  prepared_transition pc d o p = Ok (o', l) ->
  (o' = o /\ l = [] /\ p = None) \/
  (exists q c c' u state r, p = Some q /\ o = Some c /\ o' = Some c' /\
     control_record_prepared pc c (prep_recipient q) (prep_payload q) (prep_ciphertext q) = Ok (c', u) /\
     control_encode_state pc c' = Ok state /\ encode_control_outbox_record state = Ok r /\ l = [r]).
Proof.
  unfold prepared_transition. destruct p as [q|]; intros H; [|inv_bind; by left]. right. inv_bind. by eexists _, _, _, _, _, _.
Qed.

Lemma admission_spec d candidate auth b a b' l :
  admission_transition d candidate auth b a = Ok (b', l) ->
  (b' = b /\ l = []) \/
  (exists k c c' i state r, b = Some c /\ b' = Some c' /\
     book_admit c (ad_id k) auth (authority candidate) (revision candidate) (ad_now k) = (c', Ok i) /\
     book_encode_state c' = Ok state /\ encode_invitation_book_record state = Ok r /\ l = [r]).
Proof.
  unfold admission_transition. destruct a as [k|]; intros H; [|inv_bind; by left]. right.
  destruct (_ || _) in H; [done|]. destruct b as [c|]; [|done]. cbn [ok_or mbind result_bind] in H.
  destruct (negb _); [done|]. destruct (book_admit _ _ _ _ _ _) as [c1 r1] eqn:E. inv_bind.
  by eexists _, _, _, _, _, _.
Qed.

Lemma roster_record_only p c d r : encode_roster_record p c d = Ok r -> only TCGC [r].
Proof.
  unfold encode_roster_record. intros H. inv_bind. right. eexists. split; [done|]. apply starts_with_app.
Qed.

Lemma missing_predecessor v auth candidate digest v' :
  accept_successor v auth candidate digest = (v', RosterRejected MissingPredecessor) ->
  r_group_id candidate = r_group_id (v_roster v) /\ authority candidate = authority (v_roster v).
Proof.
  unfold accept_successor. intros H.
  repeat (case_match; [simplify_eq; bool_prop; first [done | case_match; done]|]); simplify_eq; by bool_prop.
Qed.

(** The parts a transition works on are those of the running state. *)
Record drawn_from (g : GroupState) (s : RosterCommitState) : Prop := {
  df_view : gs_view g = Some (rs_view s);
  df_receiver : rs_receiver s = gs_receiver g;
  df_outbox : rs_group_outbox s = Some (gs_outbox g);
  df_control : rs_control_outbox s = None \/ rs_control_outbox s = Some (gs_control g);
  df_book : rs_book s = None \/ rs_book s = Some (gs_book g);
  df_deferred : rs_deferred s = None \/ exists a, rs_deferred s = Some (mkDeferredCommit (gs_deferred g) a);
  df_prepared p : rs_prepared s = Some p ->
    prepare_ok (prep_recipient p) (prep_payload p) (prep_ciphertext p) /\ sequence_left (gs_control g)
}.

Definition commit_parts (g : GroupState) (s : RosterCommitState) : GroupState :=
  mkGroupState (gs_group_id g) (gs_authority g) (gs_source g) (gs_local g) (Some (rs_view s)) (rs_receiver s)
    (default (gs_outbox g) (rs_group_outbox s)) (default (gs_control g) (rs_control_outbox s))
    (default (gs_book g) (rs_book s)) (from_option dc_queue (gs_deferred g) (rs_deferred s)).

(** The queue after a transition. *)
Lemma deferred_transition_ok g a rev candidate d dc :
  deferred_ok g a (dc_queue dc) -> (d = RosterRejected MissingPredecessor -> held_ok g a candidate) ->
  deferred_ok g a (deferred_transition rev candidate d dc).1.
Proof.
  intros Hq Hc. unfold deferred_transition.
  assert (forall q b, deferred_ok g a q -> deferred_ok g a
    ((match dc_applying dc with Some x => deferred_remove q x | None => q end, b) : DeferredRosters * bool).1) as Hrm.
  { intros q b Hx. cbn. destruct (dc_applying dc) as [x|]; [|done]. destruct Hx as [[Ha Hl] [Hg Hh]].
    split; [split|split; [done|]]; cbn.
    - eapply StronglySorted_sublist; [apply sublist_filter|exact Ha].
    - pose proof (length_filter (fun held => revision held <> x) (rosters q)). unfold len in *. lia.
    - rewrite Forall_forall in *. intros h [_ Hin]%list_elem_of_filter. by apply Hh. }
  destruct d as [| |[]]; try (by apply Hrm).
  - apply Hrm. by apply prune_through_ok.
  - destruct (_ && _); [|by apply Hrm]. pose proof (hold_ok g a (dc_queue dc) candidate Hq (Hc eq_refl)) as Hh.
    destruct (hold (dc_queue dc) candidate) as [q h]. by apply Hrm.
Qed.

(** The view after a transition. *)
Lemma successor_view_ok a v auth candidate preimage v' d :
  view_ok rc a v -> roster_wf candidate -> roster_encode candidate = Ok preimage -> len (rc preimage) = DIGEST_LEN ->
  accept_successor v auth candidate (rc preimage) = (v', d) ->
  view_ok rc a v' /\ r_group_id (v_roster v') = r_group_id (v_roster v) /\
  (d = RosterAccepted -> v' = mkView candidate (rc preimage) /\ revision candidate = revision (v_roster v) + 1) /\
  (d <> RosterAccepted -> v' = v).
Proof.
  intros Hv Hwf He Hl [(-> & -> & _ & Hs)|[Hd ->]]%accept_successor_cases; [|by split_and!].
  destruct Hv as (V1 & V2 & V3 & V4 & V5). destruct Hs as (S1 & S2 & S3 & S4 & S5 & S6 & S7). cbn in *.
  split_and!; try done. split_and!; try done; cbn; [congruence| |congruence].
  rewrite <- V3, <- S4. done.
Qed.

Lemma transition_records_spec g s candidate preimage cm d l :
  (d = RosterAccepted -> r_group_id candidate = g) ->
  transition_records s candidate preimage cm d = Ok l ->
  Forall (own_record g) l /\
  (forall tag, tag ∈ [TCGV; TCGB; TCGO; TCGQ] -> latest_record tag l = None) /\
  latest_record TCGX l =
    if bool_decide (d = RosterAccepted) then Some (encode_group_outbox_cancellation_record g (revision candidate)) else None.
Proof.
  intros Hg H. unfold transition_records in H.
  destruct (encode_roster_record preimage cm d) as [r|] eqn:Er; [|done]. cbn [mbind result_bind] in H.
  apply roster_record_only in Er as [|(? & [= <-] & Hr)]; [done|]. unfold is_roster_accepted in H.
  pose proof (own_other g TCGC r eq_refl Hr (proj2 (proj2 (proj2 not_per_group)))) as Hown.
  case_bool_decide as Hd.
  - specialize (Hg Hd). subst g. destruct (roster_encode (v_roster (rs_view s))) as [old|]; [|done]. cbn [map_err mbind result_bind] in H.
    unfold encode_replaced_roster_record in H. destruct (ok_or Policy _) as [n|]; [|done]. cbn [mbind result_bind] in H.
    apply Ok_inj in H as <-.
    assert (starts_with TCGX (encode_group_outbox_cancellation_record (r_group_id candidate) (revision candidate)) = true) as Hx
      by apply starts_with_app.
    split_and!.
    + rewrite !Forall_cons, Forall_nil. split; [exact Hown|].
      split; [apply (own_group _ TCGX); unfold per_group; tauto|].
      split; [apply (own_group _ TCGS); unfold per_group; tauto|done].
    + intros tag Ht. rewrite !elem_of_cons, elem_of_nil in Ht. by destruct Ht as [-> | [-> | [-> | [-> | []]]]]; latest.
    + by latest.
  - injection H as <-. split_and!; [by apply Forall_singleton| |by latest].
    intros tag Ht. rewrite !elem_of_cons, elem_of_nil in Ht. by destruct Ht as [-> | [-> | [-> | [-> | []]]]]; latest.
Qed.

Lemma deferred_record_spec q q' g l :
  deferred_record q q' g = Ok l ->
  (l = [] /\ (q' = None \/ q' = q)) \/
  (exists x r, q' = Some x /\ q' <> q /\ deferred_encode_record x g = Ok r /\ l = [r]).
Proof.
  unfold deferred_record. intros H. destruct q' as [x|]; [|inv_bind; by left; split; [|left]].
  case_bool_decide as Hq; [injection H as <-; left; split; [done|by right]|]. right.
  destruct (deferred_encode_record x g) as [r|] eqn:E; [|done]. exists x, r. split_and!; try done. by injection H as <-.
Qed.

(** The records of a transition, by kind. *)
Lemma records_latest g a0 l l0 eff r q :
  Forall (own_record g) a0 -> (forall tag, tag ∈ [TCGV; TCGB; TCGO; TCGQ] -> latest_record tag a0 = None) ->
  only TCGO l -> only TCGB l0 -> only TCGE eff -> starts_with TCGV r = true ->
  only TCGQ q -> Forall (own_record g) q ->
  let rs := a0 ++ l ++ l0 ++ eff ++ [r] ++ q in
  Forall (own_record g) rs /\ latest_record TCGV rs = Some r /\ latest_record TCGO rs = latest_record TCGO l /\
  latest_record TCGB rs = latest_record TCGB l0 /\ latest_record TCGQ rs = latest_record TCGQ q /\
  latest_record TCGX rs = latest_record TCGX a0.
Proof.
  intros Ho Ha Hl Hl0 He Hr Hq Hqo rs. pose proof not_per_group as (N1 & N2 & N3 & _).
  assert (only TCGV [r]) as Hr1 by (right; by exists r).
  unfold rs. split_and!.
  - repeat (apply Forall_app; split); try done.
    + by eapply only_own.
    + by eapply only_own.
    + eapply only_own; [done|done|by intros [? | [? | ?]]].
    + by eapply only_own.
  - rewrite !latest_app, (only_latest TCGQ TCGV q), latest_cons, Hr by done. done.
  - rewrite !latest_app, (only_latest TCGQ TCGO q), (only_latest TCGV TCGO [r]), (only_latest TCGE TCGO eff),
      (only_latest TCGB TCGO l0), Ha by (done || set_solver). by destruct (latest_record TCGO l).
  - rewrite !latest_app, (only_latest TCGQ TCGB q), (only_latest TCGV TCGB [r]), (only_latest TCGE TCGB eff),
      (only_latest TCGO TCGB l), Ha by (done || set_solver). by destruct (latest_record TCGB l0).
  - rewrite !latest_app, (only_latest TCGV TCGQ [r]), (only_latest TCGE TCGQ eff), (only_latest TCGB TCGQ l0),
      (only_latest TCGO TCGQ l), Ha by (done || set_solver). by destruct (latest_record TCGQ q).
  - by rewrite !latest_app, (only_latest TCGQ TCGX q), (only_latest TCGV TCGX [r]), (only_latest TCGE TCGX eff),
      (only_latest TCGB TCGX l0), (only_latest TCGO TCGX l) by done.
Qed.

Lemma record_revalidated_frame items : forall snap snap',
  record_revalidated snap items = Ok snap' ->
  group_controls snap' = group_controls snap /\ snap_outbox snap' = snap_outbox snap.
Proof.
  induction items as [|x items IH]; intros snap snap' H; cbn in H; [by injection H as <-|].
  destruct (context_encode _) as [ctx|]; [|done]. cbn [map_err mbind result_bind] in H.
  destruct (record_receive _ _ _ _ _) as [s1|] eqn:E; [|done]. cbn [mbind result_bind] in H.
  apply record_receive_frame in E as (E1 & E2 & _). apply IH in H as [-> ->]. done.
Qed.

Lemma receiver_transition_spec d candidate cm r snap snap' r' items :
  receiver_transition d candidate cm (Some r) snap = Ok (snap', r', items) ->
  exists r1, r' = Some r1 /\ receiver_encode_state r1 = Ok (application_state snap') /\
    group_controls snap' = group_controls snap /\ snap_outbox snap' = snap_outbox snap /\
    ((d = RosterAccepted /\ install_accepted_roster r candidate cm = (r1, Ok items)) \/
     (d <> RosterAccepted /\ r1 = r /\ items = [])).
Proof.
  unfold receiver_transition, is_roster_accepted. intros H. case_bool_decide as Hd.
  - destruct (install_accepted_roster _ _ _) as [r1 [out|]] eqn:Ei; [|done]. cbn [map_err mbind result_bind] in H.
    destruct (record_revalidated _ _) as [s1|] eqn:Es; [|done]. cbn [mbind result_bind] in H.
    apply record_revalidated_frame in Es as [F1 F2].
    destruct (receiver_encode_state r1) as [st|] eqn:Er; [|done]. cbn [map_err mbind result_bind] in H. injection H as <- <- <-.
    exists r1. split_and!; try done. by left.
  - cbn [mbind result_bind] in H. destruct (receiver_encode_state r) as [st|] eqn:Er; [|done]. cbn [map_err mbind result_bind] in H.
    injection H as <- <- <-. exists r. split_and!; try done. by right.
Qed.

Lemma installed_ok r candidate cm preimage r' items :
  install_accepted_roster r candidate cm = (r', Ok items) ->
  roster_wf candidate -> roster_encode candidate = Ok preimage -> cm = rc preimage -> len cm = DIGEST_LEN ->
  receiver_inv r -> stored rc pc r -> receiver_inv r' /\ stored rc pc r'.
Proof.
  intros H Hwf He Hcm Hl Hi Hs.
  assert (exists l, input_step r (IInstall candidate cm) = (r', l)) as [l Hst] by (cbn; rewrite H; eauto).
  split; [by eapply receiver_inv_input|]. eapply stored_input; [|exact Hs|exact Hst]. split; [|done]. split; [done|]. by exists preimage.
Qed.

Lemma outbox_transition_spec d g g' o snap snap' o' :
  (d = RosterAccepted -> g = g') ->
  outbox_transition pc d g (Some o) snap = Ok (snap', o') ->
  exists o1, o' = Some o1 /\ outbox_frame snap snap' /\ (tracks pc g' snap o -> tracks pc g' snap' o1).
Proof.
  unfold outbox_transition, is_roster_accepted. intros Hg H. case_bool_decide as Hd; [|by inv_bind; eexists].
  rewrite (Hg Hd) in H.
  destruct (compact_group_outbox pc snap g') as [[s1 c]|] eqn:E; [|done]. cbn [mbind result_bind] in H. injection H as <- <-.
  exists (default o c). split_and!; [done|by eapply compact_frame|]. intros Ht. by eapply compact_tracks.
Qed.

(** The parts a transition rewrites with a record of their own. *)
Lemma prepared_part g s d o l :
  drawn_from g s -> (exists n, control_inv pc n (gs_control g)) ->
  prepared_transition pc d (rs_control_outbox s) (rs_prepared s) = Ok (o, l) ->
  only TCGO l /\ (exists n, control_inv pc n (default (gs_control g) o)) /\
  part TCGO l (default (gs_control g) o = gs_control g) (fun r => exists state,
    control_encode_state pc (default (gs_control g) o) = Ok state /\ encode_control_outbox_record state = Ok r).
Proof.
  intros Hs Hi [(-> & -> & _)|(p & c & c' & u & st & r & Hp & Hc & -> & Hrp & He & Hr & ->)]%prepared_spec.
  - assert (default (gs_control g) (rs_control_outbox s) = gs_control g) as -> by (by destruct (df_control _ _ Hs) as [-> | ->]).
    split_and!; [by left|done|done].
  - destruct (df_control _ _ Hs) as [Hx|Hx]; rewrite Hx in Hc; [done|]. injection Hc as <-.
    destruct (df_prepared _ _ Hs p Hp) as [Hok Hleft]. pose proof (checkpoint_tag _ _ _ Hr) as Ht. cbn.
    split_and!; [right; by exists r|eapply prepared_inv; [exact Hi|exact Hleft|exact Hok|exact Hrp]|latest; by exists st].
Qed.

Lemma admission_part g s d candidate auth o l :
  drawn_from g s -> book_ok g (gs_book g) -> roster_wf candidate ->
  admission_transition d candidate auth (rs_book s) (rs_admission s) = Ok (o, l) ->
  only TCGB l /\ book_ok g (default (gs_book g) o) /\
  part TCGB l (default (gs_book g) o = gs_book g) (fun r => exists state,
    book_encode_state (default (gs_book g) o) = Ok state /\ encode_invitation_book_record state = Ok r).
Proof.
  intros Hs [Hi Hg] Hwf [(-> & ->)|(k & c & c' & i & st & r & Hc & -> & Ha & He & Hr & ->)]%admission_spec.
  - assert (default (gs_book g) (rs_book s) = gs_book g) as -> by (by destruct (df_book _ _ Hs) as [-> | ->]).
    split_and!; [by left|done|done].
  - destruct (df_book _ _ Hs) as [Hx|Hx]; rewrite Hx in Hc; [done|]. injection Hc as <-.
    pose proof (checkpoint_tag _ _ _ Hr) as Ht. destruct Hwf as (_ & Hrev & _).
    pose proof (book_inv_step (gs_book g) (BAdmit (ad_id k) auth (authority candidate) (revision candidate) (ad_now k))) as Hb.
    pose proof (book_group_step (gs_book g) (BAdmit (ad_id k) auth (authority candidate) (revision candidate) (ad_now k))) as Hbg.
    cbn [book_step] in Hb, Hbg. rewrite Ha in Hb, Hbg. cbn [fst] in Hb, Hbg. cbn.
    split_and!; [right; by exists r|split; [by apply Hb|by rewrite Hbg]|latest; by exists st].
Qed.

(** A control that is only judged leaves the queue as it was. *)
Lemma deferred_transition_same rev candidate d dc :
  dc_applying dc = None -> d <> RosterAccepted -> d <> RosterRejected MissingPredecessor ->
  deferred_transition rev candidate d dc = (dc_queue dc, false).
Proof. intros Ha H1 H2. unfold deferred_transition. rewrite Ha. by destruct d as [| |[]]. Qed.

Lemma deferred_part g s rev candidate d l :
  drawn_from g s -> deferred_ok (gs_group_id g) (gs_authority g) (gs_deferred g) ->
  (d = RosterRejected MissingPredecessor -> held_ok (gs_group_id g) (gs_authority g) candidate) ->
  (d = RosterAccepted -> r_group_id candidate = gs_group_id g) ->
  (forall dc, rs_deferred s = Some dc -> dc_applying dc = None \/ r_group_id candidate = gs_group_id g) ->
  let after := deferred_transition rev candidate d <$> rs_deferred s in
  let q := from_option fst (gs_deferred g) after in
  deferred_record (dc_queue <$> rs_deferred s) (fst <$> after) (r_group_id candidate) = Ok l ->
  only TCGQ l /\ Forall (own_record (gs_group_id g)) l /\ deferred_ok (gs_group_id g) (gs_authority g) q /\
  part TCGQ l (q = gs_deferred g) (fun r => deferred_encode_record q (gs_group_id g) = Ok r).
Proof.
  intros Hs Hq Hm Ha Happ. cbv zeta. assert (only TCGQ []) as Honly by by left.
  destruct (df_deferred _ _ Hs) as [Hd|[ap Hd]]; rewrite Hd in Happ |- *;
    cbn [fmap option_fmap option_map from_option]; intros H.
  { injection H as <-. by split_and!. }
  assert (deferred_ok (gs_group_id g) (gs_authority g)
    (deferred_transition rev candidate d (mkDeferredCommit (gs_deferred g) ap)).1) as Hok by (by apply deferred_transition_ok).
  apply deferred_record_spec in H as [[-> Hsame]|(x & r & Hx & Hne & Hr & ->)].
  - destruct Hsame as [|Hsame]; [done|]. injection Hsame as Hsame. cbn [dc_queue] in Hsame. split_and!; try done.
  - injection Hx as Hx. subst x.
    assert (r_group_id candidate = gs_group_id g \/
      (deferred_transition rev candidate d (mkDeferredCommit (gs_deferred g) ap)).1 = gs_deferred g) as [Hg|Hsame].
    { destruct (Happ _ eq_refl) as [Hn|Hg]; [|by left]. destruct (decide (d = RosterAccepted)) as [Hd1|Hd1]; [left; by apply Ha|].
      destruct (decide (d = RosterRejected MissingPredecessor)) as [Hd2|Hd2]; [left; by apply Hm|]. right.
      by rewrite deferred_transition_same. }
    + rewrite Hg in Hr. destruct (queue_record_own _ _ _ Hr) as [Ho Ht].
      split_and!; [right; by exists r|by apply Forall_singleton|done|by latest].
    + destruct Hne. cbn. by rewrite Hsame.
Qed.

Lemma effect_records_only (p : option (bytes * CryptoStateEffect)) :
  only TCGE (match p with Some (_, e) => [encode_control_effect_record e] | None => [] end).
Proof. destruct p as [[b e]|]; [right; eexists; split; [done|apply effect_tag]|by left]. Qed.

Definition accepted_bound (old : option Z) (d : RosterDisposition) (candidate : Roster) : option Z :=
  if bool_decide (d = RosterAccepted) then Some (revision candidate) else old.

(** The outbox and the cancellation bound once the records are appended. *)
Lemma cancelled_outbox snap g v old rs d candidate :
  running snap g -> latest_group_outbox_cancellation snap (gs_group_id g) = Ok old -> gs_view g = Some v ->
  roster_wf candidate -> Forall (own_record (gs_group_id g)) rs ->
  (d = RosterAccepted -> revision candidate = revision (v_roster v) + 1) ->
  latest_record TCGX rs = (if bool_decide (d = RosterAccepted)
    then Some (encode_group_outbox_cancellation_record (gs_group_id g) (revision candidate)) else None) ->
  let snap' := append_group_control_records snap rs in
  latest_group_outbox_cancellation snap' (gs_group_id g) = Ok (accepted_bound old d candidate) /\
  tracks pc (gs_group_id g) snap'
    (if is_roster_accepted d then cancel_for_newer_roster (gs_outbox g) (revision candidate) else gs_outbox g).
Proof.
  intros Hr Hold Hv Hwf Hrs Hrev Hx snap'. pose proof Hr as [R (old' & Hold' & P)].
  assert (old' = old) as -> by congruence. pose proof (po_cancelled _ _ P) as Hc. rewrite Hv in Hc.
  destruct (append_group_records _ snap rs (po_id _ _ P) (rb_controls _ _ R) Hrs) as (Hinv & Hlat & Hso & _).
  fold snap' in Hinv, Hlat, Hso. specialize (Hlat TCGX). rewrite Hx in Hlat.
  assert (TCGX ∈ CHECKPOINT_TAGS) as Ht by (unfold CHECKPOINT_TAGS; rewrite !elem_of_cons; tauto). specialize (Hlat Ht).
  unfold is_roster_accepted, accepted_bound. case_bool_decide as Hd.
  - assert (latest_group_outbox_cancellation snap' (gs_group_id g) = Ok (Some (revision candidate))) as He.
    { rewrite cancellation_read, Hlat by done. apply cancellation_record_read; [apply P|]. by destruct Hwf as (_ & ? & _). }
    split; [done|]. unfold snap', append_group_control_records in *. eapply tracks_roster; [apply R|exact Hold| |exact He].
    specialize (Hrev Hd). destruct old as [z|]; [|done]. cbn in *. lia.
  - assert (latest_group_outbox_cancellation snap' (gs_group_id g) = Ok old) as He.
    { rewrite cancellation_read, Hlat by done. by rewrite <- cancellation_read by apply R. }
    split; [done|]. apply (tracks_same snap); [by rewrite He, Hold|done|apply R].
Qed.

(** What is known of the view and the candidate of a transition. *)
Lemma transition_view g s old auth candidate preimage v' d :
  (forall x, len (rc x) = DIGEST_LEN) -> parts_ok g old -> drawn_from g s -> roster_wf candidate ->
  roster_encode candidate = Ok preimage -> accept_successor (rs_view s) auth candidate (rc preimage) = (v', d) ->
  view_ok rc (gs_authority g) v' /\ r_group_id (v_roster v') = gs_group_id g /\
  (d = RosterAccepted -> r_group_id candidate = gs_group_id g /\ revision candidate = revision (v_roster (rs_view s)) + 1) /\
  (d = RosterRejected MissingPredecessor -> held_ok (gs_group_id g) (gs_authority g) candidate) /\
  bound_le (accepted_bound old d candidate) (Some (revision (v_roster v'))).
Proof.
  intros Hrc P Hs Hwf He Ha. destruct (po_view _ _ P _ (df_view _ _ Hs)) as [Hv Hg].
  destruct (successor_view_ok _ _ _ _ _ _ _ Hv Hwf He (Hrc _) Ha) as (Hv' & Hg' & Hacc & Hrej).
  pose proof (po_cancelled _ _ P) as Hb. rewrite (df_view _ _ Hs) in Hb.
  split_and!; [done|congruence| | |].
  - intros Hd. destruct (Hacc Hd) as [-> Hrev]. split; [|done]. cbn in Hg'. congruence.
  - intros ->. apply missing_predecessor in Ha as [Ha1 Ha2]. destruct Hv as (_ & _ & Hv & _). split; [done|]. split; congruence.
  - unfold accepted_bound. case_bool_decide as Hd; [destruct (Hacc Hd) as [-> _]; cbn; lia|]. by rewrite (Hrej Hd).
Qed.

(** The receiver of a transition. *)
Lemma transition_receiver g s old candidate preimage d snap snap' r' items :
  (forall x, len (rc x) = DIGEST_LEN) -> parts_ok g old -> drawn_from g s -> roster_wf candidate -> roster_encode candidate = Ok preimage ->
  receiver_transition d candidate (rc preimage) (rs_receiver s) snap = Ok (snap', r', items) ->
  exists r1, r' = Some r1 /\ receiver_encode_state r1 = Ok (application_state snap') /\
    group_controls snap' = group_controls snap /\ snap_outbox snap' = snap_outbox snap /\ receiver_inv r1 /\ stored rc pc r1.
Proof.
  intros Hrc P Hs Hwf He H. rewrite (df_receiver _ _ Hs) in H.
  assert (is_Some (gs_receiver g)) as [r Hr] by (apply (po_both _ _ P); rewrite (df_view _ _ Hs); eauto).
  rewrite Hr in H. destruct (po_receiver _ _ P r Hr) as [Hi Hst].
  apply receiver_transition_spec in H as (r1 & -> & H1 & H2 & H3 & Hcase). exists r1.
  assert (receiver_inv r1 /\ stored rc pc r1) as [? ?].
  { destruct Hcase as [[_ Hin]|(_ & -> & _)]; [|done]. by eapply installed_ok. }
  by split_and!.
Qed.

(** The records of a transition say what becomes of every part. *)
Lemma transition_written g s old auth candidate preimage v' d records o l o0 l0 vs vr q :
  let dq := deferred_transition (revision (v_roster (rs_view s))) candidate d <$> rs_deferred s in
  let rs := records ++ l ++ l0 ++ (match rs_provider s with Some (_, e) => [encode_control_effect_record e] | None => [] end)
            ++ [vr] ++ q in
  let g' := mkGroupState (gs_group_id g) (gs_authority g) (gs_source g) (gs_local g) (Some v') (gs_receiver g) (gs_outbox g)
              (default (gs_control g) o) (default (gs_book g) o0) (from_option fst (gs_deferred g) dq) in
  (forall x, len (rc x) = DIGEST_LEN) -> parts_ok g old -> drawn_from g s -> roster_wf candidate ->
  (forall dc, rs_deferred s = Some dc -> dc_applying dc = None \/ r_group_id candidate = gs_group_id g) ->
  roster_encode candidate = Ok preimage -> accept_successor (rs_view s) auth candidate (rc preimage) = (v', d) ->
  transition_records s candidate preimage (rc preimage) d = Ok records ->
  prepared_transition pc d (rs_control_outbox s) (rs_prepared s) = Ok (o, l) ->
  admission_transition d candidate auth (rs_book s) (rs_admission s) = Ok (o0, l0) ->
  view_encode_state v' = Ok vs -> encode_roster_view_record vs = Ok vr ->
  deferred_record (dc_queue <$> rs_deferred s) (fst <$> dq) (r_group_id candidate) = Ok q ->
  Forall (own_record (gs_group_id g)) rs /\ parts_ok g' (accepted_bound old d candidate) /\
  latest_record TCGX rs = (if bool_decide (d = RosterAccepted)
    then Some (encode_group_outbox_cancellation_record (gs_group_id g) (revision candidate)) else None) /\
  part TCGV rs (gs_view g' = gs_view g) (fun r => exists v state,
    gs_view g' = Some v /\ view_encode_state v = Ok state /\ encode_roster_view_record state = Ok r) /\
  part TCGO rs (gs_control g' = gs_control g) (fun r => exists state,
    control_encode_state pc (gs_control g') = Ok state /\ encode_control_outbox_record state = Ok r) /\
  part TCGB rs (gs_book g' = gs_book g) (fun r => exists state,
    book_encode_state (gs_book g') = Ok state /\ encode_invitation_book_record state = Ok r) /\
  part TCGQ rs (gs_deferred g' = gs_deferred g) (fun r => deferred_encode_record (gs_deferred g') (gs_group_id g) = Ok r).
Proof.
  intros dq rs g' Hrc P Hs Hwf Happ Epre Eacc E0 E1 E2 E3 E4 E5.
  destruct (transition_view _ _ _ _ _ _ _ _ Hrc P Hs Hwf Epre Eacc) as (Hv' & Hg' & Hacc & Hmiss & Hbound).
  apply (transition_records_spec (gs_group_id g)) in E0 as (Hro & Hrn & Hrx); [|by intros Hd; apply Hacc].
  destruct (prepared_part _ _ _ _ _ Hs (po_control _ _ P) E1) as (Hl & Hctl & Pctl).
  destruct (admission_part _ _ _ _ _ _ _ Hs (po_book _ _ P) Hwf E2) as (Hl0 & Hbook & Pbook).
  destruct (deferred_part _ _ _ _ _ _ Hs (po_deferred _ _ P) Hmiss (fun Hd => proj1 (Hacc Hd)) Happ E5) as (Hq & Hqo & Hqok & Pq).
  destruct (records_latest _ _ _ _ _ _ _ Hro Hrn Hl Hl0 (effect_records_only (rs_provider s)) (checkpoint_tag _ _ _ E4) Hq Hqo)
    as (Hown & LV & LO & LB & LQ & LX).
  fold rs in Hown, LV, LO, LB, LQ, LX. unfold part in *. rewrite LV, LO, LB, LQ, LX. split_and!; try done.
  - destruct P as [P1 P2 P3 P4 P5 P6 P7 P8 P9 P10]. split; try done; cbn.
    + by intros v [= <-].
    + rewrite <- P5, (df_view _ _ Hs). by split; eexists.
  - by exists v', vs.
Qed.

(** The queue a transition writes back. *)
Lemma queue_written (q0 : DeferredRosters) (dc : option DeferredCommit) (f : DeferredCommit -> DeferredRosters * bool) :
  from_option fst q0 (f <$> dc) =
  from_option dc_queue q0 (match dc with
    | Some c => match f <$> dc with Some (q, _) => Some (mkDeferredCommit q (dc_applying c)) | None => dc end
    | None => dc
    end).
Proof. destruct dc as [c|]; [|done]. cbn. by destruct (f c). Qed.

Lemma roster_running {St} `{OperationStore St} (store store' : St) snap g s auth candidate snap' s' sends rcm :
  (forall x, len (rc x) = DIGEST_LEN) -> (forall x, len (pc x) = DIGEST_LEN) ->
  running snap g -> drawn_from g s -> roster_wf candidate ->
  (forall dc, rs_deferred s = Some dc -> dc_applying dc = None \/ r_group_id candidate = gs_group_id g) ->
  commit_roster_transition rc pc store snap s auth candidate [] = (store', Ok (snap', (s', sends, rcm))) ->
  running snap' (commit_parts g s').
Proof.
  intros Hrc Hpc Hr Hs Hwf Happ Hc. apply publish_Ok in Hc.
  destruct (roster_encode candidate) as [preimage|] eqn:Epre; [|done]. cbn [map_err mbind result_bind] in Hc. cbv zeta in Hc.
  destruct (accept_successor _ _ _ _) as [v' d] eqn:Eacc.
  destruct (begin_candidate store snap) as [c|] eqn:Ec; [|done]. cbn [mbind result_bind] in Hc.
  set (base := match rs_provider s with Some (p, _) => with_provider c p | None => c end) in Hc.
  assert (running base g) as Hb.
  { eapply running_frame; [by eapply candidate_running|..]; unfold base; by destruct (rs_provider s) as [[? ?]|]. }
  pose proof Hb as [R (old & Hold & P)].
  destruct (transition_view _ _ _ _ _ _ _ _ Hrc P Hs Hwf Epre Eacc) as (_ & _ & Hacc & _).
  destruct (transition_records s candidate preimage (rc preimage) d) as [records|] eqn:E0; [|done]. cbn [mbind result_bind] in Hc.
  destruct (prepared_transition _ _ _ _) as [[o l]|] eqn:E1; [|done]. cbn [mbind result_bind] in Hc.
  destruct (admission_transition _ _ _ _ _) as [[o0 l0]|] eqn:E2; [|done]. cbn [mbind result_bind] in Hc.
  destruct (view_encode_state v') as [vs|] eqn:E3; [|done]. cbn [map_err mbind result_bind] in Hc.
  destruct (encode_roster_view_record vs) as [vr|] eqn:E4; [|done]. cbn [mbind result_bind] in Hc.
  destruct (deferred_record _ _ _) as [q|] eqn:E5; [|done]. cbn [mbind result_bind] in Hc.
  destruct (transition_written _ _ _ _ _ _ _ _ _ _ _ _ _ _ _ _ Hrc P Hs Hwf Happ Epre Eacc E0 E1 E2 E3 E4 E5)
    as (Hown & Pok & LX & PV & PO & PB & PQ).
  destruct (cancelled_outbox base g (rs_view s) old _ d candidate Hb Hold (df_view _ _ Hs) Hwf Hown (fun Hd => proj2 (Hacc Hd)) LX)
    as [Hcan Htr].
  set (rs := records ++ _) in *.
  destruct (outbox_transition _ _ _ _ _) as [[c1 o1]|] eqn:E6; [|done]. cbn [mbind result_bind] in Hc.
  destruct (receiver_transition _ _ _ _ _) as [[[c2 r'] items]|] eqn:E7; [|done]. cbn [mbind result_bind] in Hc.
  assert ((if is_roster_accepted d
    then (fun o => cancel_for_newer_roster o (revision candidate)) <$> rs_group_outbox s else rs_group_outbox s) =
    Some (if is_roster_accepted d then cancel_for_newer_roster (gs_outbox g) (revision candidate) else gs_outbox g)) as Hob.
  { rewrite (df_outbox _ _ Hs). by destruct (is_roster_accepted d). }
  rewrite Hob in E6. apply (outbox_transition_spec _ _ (gs_group_id g)) in E6 as (o2 & -> & [F1 F2] & Ht2); [|by intros Hd; apply Hacc].
  specialize (Ht2 Htr). eapply (transition_receiver _ _ old) in E7 as (r1 & -> & Hre & G1 & G2 & Hri & Hrs); try done.
  injection Hc as <- <- _ _. unfold commit_parts.
  cbn [rs_view rs_receiver rs_group_outbox rs_control_outbox rs_book rs_deferred].
  rewrite <- queue_written. cbn in Pok, PV, PO, PB, PQ.
  eapply (rebuilds_write base g rs c2 _ (accepted_bound old d candidate)); [done| | | |].
  - split; try done; [by rewrite G1, F1|right; by exists r1].
  - eapply tracks_same; [|exact G2|exact Ht2]. unfold latest_group_outbox_cancellation. by rewrite G1.
  - unfold latest_group_outbox_cancellation in *. by rewrite G1, F1.
  - destruct Pok as [P1 P2 P3 P4 P5 P6 P7 P8 P9 P10]. split; try done; cbn. by intros ? [= <-].
Qed.

(** ** Attaching *)
Lemma canonical_inv b : book_inv b -> book_inv (canonical_book b).
Proof.
  intros [H1 H2 H3]. pose proof (canonical_perm b) as Hp. split.
  - by rewrite Hp.
  - by rewrite Hp.
  - by rewrite (len_perm _ _ Hp).
Qed.

Lemma canonical_twice b : book_inv b -> canonical_book (canonical_book b) = canonical_book b.
Proof.
  intros Hi. unfold canonical_book. cbn [book_group_id invitations]. f_equal. apply sort_by_sorted. by apply sorted_records.
Qed.

Lemma source_view_ok auth s preimage v :
  roster_wf s -> roster_encode s = Ok preimage -> len (rc preimage) = DIGEST_LEN ->
  accept_source auth s (rc preimage) = Ok v -> v = mkView s (rc preimage) /\ view_ok rc auth v.
Proof.
  intros Hwf He Hl H. unfold accept_source in H. case_bool_decide as Ha; [|done]. cbn [negb] in H. subst auth.
  assert (v = mkView s (rc preimage) /\ has_member s (authority s) = true) as [-> Hm].
  { destruct (revision s =? 0).
    - apply accept_genesis_Ok in H as (-> & _ & Hm). done.
    - destruct (closed s); [done|]. destruct (has_member s (authority s)); [|done]. by injection H as <-. }
  split; [done|]. split_and!; try done. intros bs Hbs. cbn in *. congruence.
Qed.

(** The view an attach finds. *)
Lemma attached_view snap g source v :
  (forall x, len (rc x) = DIGEST_LEN) -> running snap g ->
  (gs_source g = None \/ source = gs_source g) -> (forall s, source = Some s -> roster_wf s) ->
  attach_view rc snap (gs_group_id g) (gs_authority g) source = Ok v ->
  v = gs_view g \/
  (gs_view g = None /\ exists x, v = Some x /\ view_ok rc (gs_authority g) x /\ r_group_id (v_roster x) = gs_group_id g /\
     committed_roster rc (v_roster x) (v_digest x) /\ len (v_digest x) = DIGEST_LEN).
Proof.
  intros Hrc [R _] Hsrc Hwf H. pose proof (rb_view _ _ R) as Hv. unfold attach_view in H, Hv.
  destruct (has_tag TCGV snap); [left; congruence|]. destruct Hsrc as [Hn| ->]; [|left; congruence].
  rewrite Hn in Hv. injection Hv as Hv. destruct source as [s|]; [|left; congruence]. right. split; [done|].
  case_bool_decide as Hg; [|done]. cbn [negb] in H.
  destruct (roster_encode s) as [pre|] eqn:He; [|done]. cbn [map_err mbind result_bind] in H.
  destruct (accept_source (gs_authority g) s (rc pre)) as [x|] eqn:Ha; [|done]. injection H as <-.
  destruct (source_view_ok _ _ _ _ (Hwf s eq_refl) He (Hrc _) Ha) as [-> Hok]. exists (mkView s (rc pre)).
  split_and!; try done; [split; [by apply Hwf|by exists pre]|apply Hrc].
Qed.

Lemma fresh_receiver_ok local v :
  committed_roster rc (v_roster v) (v_digest v) -> len (v_digest v) = DIGEST_LEN -> member_ok local ->
  let r := receiver_new (v_roster v) (v_digest v) local in receiver_inv r /\ stored rc pc r.
Proof.
  intros Hc Hl Hm. split; [apply receiver_inv_empty|]. split; cbn; try done; [split; constructor].
Qed.

(** [attach], on a snapshot whose state runs: the same state, with the view of
    a source that was not there before. *)
Lemma attach_running snap g source g' :
  (forall x, len (rc x) = DIGEST_LEN) -> running snap g -> events_left g ->
  (gs_source g = None \/ source = gs_source g) -> (forall s, source = Some s -> roster_wf s) ->
  attach_state rc pc snap (gs_local g) (gs_group_id g) (gs_authority g) source = Ok g' ->
  running snap g'.
Proof.
  intros Hrc Hr Hleft Hsrc Hwf H. pose proof Hr as [R (old & Hold & P)]. pose proof R as [Rc Rv Rr Rf Ro Rt Rb Rd].
  unfold attach_state in H.
  destruct (attach_view rc snap _ _ source) as [v|] eqn:Ev; [|done]. cbn [mbind result_bind] in H.
  pose proof (attached_view _ _ _ _ Hrc Hr Hsrc Hwf Ev) as Hview.
  destruct (attach_receiver rc pc snap _ v) as [r|] eqn:Er; [|done]. cbn [mbind result_bind] in H.
  unfold tracks in Ro. rewrite Ro in H. cbn [map_err mbind result_bind] in H. rewrite Rt in H. cbn [map_err mbind result_bind] in H.
  assert ((if has_tag TCGB snap then map_err ErrRecovery (recover_group_invitation_book snap (gs_group_id g)) else Ok (book_new (gs_group_id g)))
    = Ok (canonical_book (gs_book g))) as Hb.
  { destruct (has_tag TCGB snap); [by rewrite Rb|apply Ok_inj in Rb; by rewrite Rb]. }
  rewrite Hb in H. cbn [mbind result_bind] in H. rewrite Rd in H. cbn [map_err mbind result_bind] in H. injection H as <-.
  destruct P as [P1 P2 P3 P4 P5 P6 P7 [P8 P8'] P9 P10].
  destruct Hview as [-> |(Hnone & x & -> & Hx & Hg & Hc & Hl)].
  - rewrite (Rr Hleft) in Er. apply Ok_inj in Er as <-. split; [|exists old; split; [done|]].
    + split; cbn; try done. rewrite canonical_twice by done. exact Rb.
    + split; cbn; try done. split; [by apply canonical_inv|done].
  - unfold attach_receiver in Er. rewrite (Rf Hnone), bool_decide_eq_true_2 in Er by done. apply Ok_inj in Er as <-.
    rewrite Hnone in P6. subst old. destruct (fresh_receiver_ok _ _ Hc Hl P2) as [Hri Hrs].
    split; [|exists None; split; [done|]].
    + split; cbn; try done; [|by rewrite canonical_twice].
      intros _. unfold attach_receiver. by rewrite (Rf Hnone), bool_decide_eq_true_2.
    + split; cbn; try done; [by intros ? [= <-]|by intros ? [= <-]|]. split; [by apply canonical_inv|done].
Qed.

(** ** Draining *)
Lemma transition_control {St} `{OperationStore St} (store store' : St) snap s auth candidate sends snap' s' sends' rcm :
  commit_roster_transition rc pc store snap s auth candidate sends = (store', Ok (snap', (s', sends', rcm))) ->
  (exists d l, prepared_transition pc d (rs_control_outbox s) (rs_prepared s) = Ok (rs_control_outbox s', l)) /\
  (rs_deferred s = None -> rs_deferred s' = None).
Proof.
  intros Hc. apply publish_Ok in Hc.
  destruct (roster_encode candidate) as [pre|]; [|done]. cbn [map_err mbind result_bind] in Hc. cbv zeta in Hc.
  destruct (accept_successor _ _ _ _) as [v d]. inv_bind. split; [exists d; by eexists|]. cbn. by intros ->.
Qed.

Lemma transition_untouched {St} `{OperationStore St} (store store' : St) snap s auth candidate sends snap' s' sends' rcm :
  commit_roster_transition rc pc store snap s auth candidate sends = (store', Ok (snap', (s', sends', rcm))) ->
  rs_prepared s = None -> rs_admission s = None ->
  rs_control_outbox s' = rs_control_outbox s /\ rs_book s' = rs_book s.
Proof.
  intros Hc Hp Ha. apply publish_Ok in Hc. rewrite Hp, Ha in Hc.
  destruct (roster_encode candidate) as [pre|]; [|done]. cbn [map_err mbind result_bind] in Hc. cbv zeta in Hc.
  destruct (accept_successor _ _ _ _) as [v d]. inv_bind.
  match goal with E : prepared_transition _ _ _ _ = Ok _ |- _ => injection E as <- _ end.
  match goal with E : admission_transition _ _ _ _ _ = Ok _ |- _ => injection E as <- _ end. done.
Qed.

(** The state of a control from the wire, or of a held one. *)
Lemma wire_drawn g v r provider applying :
  gs_view g = Some v -> gs_receiver g = Some r ->
  drawn_from g (wire_state v r provider (gs_outbox g) (gs_deferred g) applying).
Proof. intros Hv Hr. split; cbn; eauto; done. Qed.

Lemma wire_running {St} `{OperationStore St} (store store' : St) snap g v r provider applying auth candidate snap' s' sends rcm :
  (forall x, len (rc x) = DIGEST_LEN) -> (forall x, len (pc x) = DIGEST_LEN) ->
  running snap g -> gs_view g = Some v -> gs_receiver g = Some r -> roster_wf candidate ->
  applying = None \/ r_group_id candidate = gs_group_id g ->
  commit_roster_transition rc pc store snap (wire_state v r provider (gs_outbox g) (gs_deferred g) applying) auth candidate []
    = (store', Ok (snap', (s', sends, rcm))) ->
  running snap' (with_parts g (wire_parts s' r (gs_outbox g) (gs_deferred g))).
Proof.
  intros Hrc Hpc Hr Hv Hrec Hwf Happ Hc.
  assert (running snap' (commit_parts g s')) as Hrun.
  { eapply roster_running; [done|done|exact Hr|by apply wire_drawn|exact Hwf| |exact Hc]. cbn. by intros dc [= <-]. }
  apply transition_untouched in Hc as [H1 H2]; [|done|done]. cbn in H1, H2.
  pose proof Hrun as [_ (old & _ & P)]. pose proof (po_both _ _ P) as Hb. cbn in Hb.
  assert (is_Some (rs_receiver s')) as [r' Hr'] by (apply Hb; eauto).
  unfold commit_parts in Hrun. rewrite H1, H2, Hr' in Hrun. unfold wire_parts. rewrite Hr'. exact Hrun.
Qed.

Lemma with_parts_twice g p p' : with_parts (with_parts g p) p' = with_parts g p'.
Proof. by destruct p as [[[? ?] ?] ?], p' as [[[? ?] ?] ?]. Qed.

Lemma next_for_in q v r : next_for q v = Some r -> r ∈ rosters q /\ follows_view v r.
Proof.
  unfold next_for. intros ([i x] & Hf & ->)%fmap_Some. apply list_find_Some in Hf as (Hi & ? & _).
  split; [by eapply list_elem_of_lookup_2|done].
Qed.

Section Drain.
Context {St : Type} `{OperationStore St}.
Implicit Types store : St.
Context (Hrc : forall x, len (rc x) = DIGEST_LEN) (Hpc : forall x, len (pc x) = DIGEST_LEN).

Lemma next_deferred_running store store' snap g v r outbox queue snap' parts' c :
  running snap (with_parts g (v, r, outbox, queue)) ->
  commit_next_deferred_roster rc pc store snap v r outbox queue = (store', Ok (snap', (parts', c))) ->
  running snap' (with_parts g parts').
Proof.
  intros Hr Hc. unfold commit_next_deferred_roster in Hc. destruct (next_for queue v) as [next|] eqn:En.
  2: { by injection Hc as _ <- <- _. }
  apply next_for_in in En as [Hin _]. pose proof Hr as [_ (old & _ & P)].
  destruct (po_deferred _ _ P) as (_ & _ & Hq). cbn in Hq. rewrite Forall_forall in Hq. destruct (Hq next Hin) as (Hwf & Hg & _).
  destruct (commit_roster_transition _ _ _ _ _ _ _ _) as [st res] eqn:Et. destruct res as [[s1 [[s' sends] rcm]]|]; [|done].
  injection Hc as <- <- <- _. rewrite <- (with_parts_twice g (v, r, outbox, queue)).
  eapply (wire_running _ _ _ (with_parts g (v, r, outbox, queue))); [done|done|done|done|done|exact Hwf|by right|exact Et].
Qed.

Lemma drain_loop_running fuel : forall store snap g parts events store' snap' parts' res,
  running snap (with_parts g parts) ->
  drain_loop rc pc fuel store snap parts events = Some (store', (snap', parts'), res) ->
  running snap' (with_parts g parts').
Proof.
  induction fuel as [|fuel IH]; intros store snap g [[[v r] outbox] queue] events store' snap' parts' res Hr H1; [done|].
  cbn [drain_loop] in H1. destruct (commit_next_deferred_roster _ _ _ _ _ _ _ _) as [st [[s1 [p1 c]]|e]] eqn:E.
  - pose proof (next_deferred_running _ _ _ _ _ _ _ _ _ _ _ Hr E) as Hr1.
    destruct c as [c|]; [by eapply IH|]. by injection H1 as <- <- <- <-.
  - by injection H1 as <- <- <- <-.
Qed.

Lemma drain_running store store' snap g snap' g' res :
  running snap g -> drain_deferred_rosters rc pc store snap g = (store', (snap', g'), res) -> running snap' g'.
Proof.
  intros Hr Hd. unfold drain_deferred_rosters in Hd.
  destruct (gs_view g) as [v|] eqn:Ev; [|by injection Hd as <- <- <- <-].
  destruct (gs_receiver g) as [r|] eqn:Er; [|by injection Hd as <- <- <- <-].
  destruct (drain_loop _ _ _ _ _ _ _) as [[[st [s1 p1]] res1]|] eqn:El; [|by injection Hd as <- <- <- <-].
  assert (with_parts g (v, r, gs_outbox g, gs_deferred g) = g) as Hself by (destruct g; cbn in *; by subst).
  rewrite <- Hself in Hr. pose proof (drain_loop_running _ _ _ _ _ _ _ _ _ _ Hr El) as Hr1.
  destruct res1 as [events|e]; [|by injection Hd as <- <- <- <-].
  destruct p1 as [[[v1 r1] o1] q1].
  destruct (commit_prune_deferred_rosters _ _ _ _ _) as [st2 [[s2 [q2 b]]|e]] eqn:Ep; injection Hd as <- <- <- <-; [|done].
  apply (prune_running (rc := rc) (pc := pc) _ _ _ (with_parts g (v1, r1, o1, q1)) v1) in Ep; [|done]. exact Ep.
Qed.
End Drain.
End Parts.
