(* ===== verification/GroupLanding.v ===== *)
(** * GroupLanding: what may be durable after a commit
    ([tacenta-client/src/group_operations.rs], [operation_store.rs])

    A commit that does not succeed may still have landed: the store then holds
    the candidate and the coordinator the snapshot before it, with its handle
    latched.  Every candidate a commit publishes is shown to be a snapshot of
    the same group that an attach rebuilds, so that whichever of the two is
    durable, the coordinator can go on from it. *)

From S2P Require Import Prelude Framing GroupCodec Invitation GroupPayload RosterView GroupReceive GroupSend GroupControl.
From S2P Require Import OperationStore DeferredRosters GroupTranscript GroupRecords GroupInbound GroupClient GroupDrive.
From S2P Require Import GroupRecovery GroupTransition.

(** ** The same commit, succeeding

    What a commit publishes depends on its store only through
    [begin_candidate]; on [yes_of store] the same candidate is committed. *)
Record Yes := mkYes { yes_frozen : bool; yes_next : Z -> option Z }.

#[global] Instance yes_store : OperationStore Yes := {|
  store_commit := fun st _ => (st, Committed);
  store_recover := fun st => (st, Ok None);
  store_is_frozen := yes_frozen;
  store_next_generation := yes_next;
  store_durable_generation := default_durable_generation (fun st => (st, Ok None));
  store_commit_after := default_commit_after (default_durable_generation (fun st => (st, Ok None))) (fun st _ => (st, Committed))
|}.

Definition yes_of {St} `{OperationStore St} (store : St) : Yes := mkYes (store_is_frozen store) (store_next_generation store).

Lemma yes_publish {A} (st : Yes) (cand : result GroupOperationError (OperationSnapshot * A)) c a :
  cand = Ok (c, a) -> publish st cand = (st, Ok (c, a)).
Proof. by intros ->. Qed.

(** ** The fields no commit but the cursor's changes *)
Section Built.
Context {St : Type} `{OperationStore St}.
Implicit Types store : St.

Definition counts_same (base c : OperationSnapshot) : Prop :=
  version c = version base /\ generation c = generation base /\ delivery_cursor c = delivery_cursor base.

Definition built store (snap c : OperationSnapshot) : Prop :=
  exists base, begin_candidate store snap = Ok base /\ counts_same base c.

Lemma counts_trans a b c : counts_same a b -> counts_same b c -> counts_same a c.
Proof. intros (? & ? & ?) (? & ? & ?). split_and!; congruence. Qed.

Lemma append_counts snap rs : counts_same snap (append_group_control_records snap rs).
Proof. done. Qed.

Lemma record_receive_counts snap e ctx cm d snap' : record_receive snap e ctx cm d = Ok snap' -> counts_same snap snap'.
Proof. unfold record_receive. intros H0. inv_bind. by destruct (is_accepted d). Qed.

Lemma revalidated_counts items : forall snap snap', record_revalidated snap items = Ok snap' -> counts_same snap snap'.
Proof.
  induction items as [|item items IH]; intros snap snap' Hr; cbn [record_revalidated] in Hr; inv_bind; [done|].
  match goal with E : record_receive _ _ _ _ _ = Ok _ |- _ => apply record_receive_counts in E as Hc end.
  eapply counts_trans; [exact Hc|by apply IH].
Qed.

Lemma compact_counts pc snap g snap' o : compact_group_outbox pc snap g = Ok (snap', o) -> counts_same snap snap'.
Proof. unfold compact_group_outbox. intros H0. inv_bind. by destruct (len _ <=? _); inv_bind. Qed.

Lemma outbox_transition_counts pc d g o snap snap' o' :
  outbox_transition pc d g o snap = Ok (snap', o') -> counts_same snap snap'.
Proof.
  unfold outbox_transition. intros H0. destruct o as [o|]; [|by inv_bind]. destruct (is_roster_accepted d); inv_bind; [|done].
  by eapply compact_counts.
Qed.

Lemma receiver_transition_counts d candidate cm r snap snap' r' items :
  receiver_transition d candidate cm r snap = Ok (snap', r', items) -> counts_same snap snap'.
Proof.
  unfold receiver_transition. intros H0. destruct r as [r|]; [|by inv_bind]. destruct (is_roster_accepted d).
  - destruct (install_accepted_roster r candidate cm) as [r1 out]. inv_bind.
    match goal with E : record_revalidated _ _ = Ok _ |- _ => apply revalidated_counts in E end. by eapply counts_trans.
  - by inv_bind.
Qed.

Ltac built := match goal with Hc : _ = (_, Ok _) |- _ => apply publish_Ok in Hc end; inv_bind; eexists; split; [eassumption|].

Lemma malformed_built pc store snap p state e st c u :
  commit_malformed_group_payload pc store snap p state e = (st, Ok (c, u)) -> built store snap c.
Proof. intros Hc. built. unfold record_malformed in *. by inv_bind. Qed.

Lemma provider_built store snap state st c u : commit_provider_state store snap state = (st, Ok (c, u)) -> built store snap c.
Proof. intros Hc. by built. Qed.

Lemma receive_built pc store snap r x peer state e st c y :
  commit_receive_disposition pc store snap r x peer state e = (st, Ok (c, y)) -> built store snap c.
Proof.
  intros Hc. apply publish_Ok in Hc. destruct (context_encode x) as [ctx|]; [|done]. cbn [map_err mbind result_bind] in Hc.
  destruct (receive r x peer (pc ctx)) as [r1 d1]. inv_bind. eexists; split; [eassumption|].
  match goal with E : record_receive _ _ _ _ _ = Ok _ |- _ => apply record_receive_counts in E end. by eapply counts_trans.
Qed.

Lemma roster_built rc pc store snap s auth candidate sends st c y :
  commit_roster_transition rc pc store snap s auth candidate sends = (st, Ok (c, y)) -> built store snap c.
Proof.
  intros Hc. apply publish_Ok in Hc. destruct (roster_encode candidate) as [pre|]; [|done]. cbn [map_err mbind result_bind] in Hc.
  cbv zeta in Hc. destruct (accept_successor _ _ _ _) as [v d].
  destruct (begin_candidate store snap) as [base|] eqn:Eb; [|done]. cbn [mbind result_bind] in Hc. exists base. split; [done|].
  set (b2 := match rs_provider s with Some (p, _) => with_provider base p | None => base end) in Hc.
  assert (counts_same base b2) as H2 by (unfold b2; by destruct (rs_provider s) as [[? ?]|]).
  clearbody b2. inv_bind.
  repeat match goal with
  | E : outbox_transition _ _ _ _ _ = Ok _ |- _ => apply outbox_transition_counts in E
  | E : receiver_transition _ _ _ _ _ = Ok _ |- _ => apply receiver_transition_counts in E
  end.
  by repeat (eapply counts_trans; [eassumption|]).
Qed.

Lemma hold_built store snap q auth g r state e st c y :
  commit_hold_roster_without_view store snap q auth g r state e = (st, Ok (c, y)) -> built store snap c.
Proof.
  intros Hc. apply publish_Ok in Hc. unfold guard_err in Hc. destruct (_ || _) in Hc; [done|]. cbn [mbind result_bind] in Hc.
  destruct (hold_keeping_lowest q r) as [q1 h]. case_bool_decide; [done|]. cbn [mbind result_bind] in Hc. inv_bind.
  eexists. by split; [eassumption|].
Qed.

Lemma book_built {A} store snap b provider (t : InvitationBook -> InvitationBook * result Error A) st c y :
  commit_group_invitation_transition_with_provider store snap b provider t = (st, Ok (c, y)) -> built store snap c.
Proof.
  intros Hc. apply publish_Ok in Hc. destruct (t b) as [b1 [x|]]; [|done]. cbn [map_err mbind result_bind] in Hc. inv_bind.
  eexists. split; [eassumption|]. destruct provider as [[p e]|]; by inv_bind.
Qed.

Lemma control_built {A} pc store snap o (t : ControlOutbox -> result Error (ControlOutbox * A)) st c y :
  commit_group_control_outbox_transition pc store snap o t = (st, Ok (c, y)) -> built store snap c.
Proof. intros Hc. by built. Qed.

Lemma prepared_built pc store snap o m p ct state st c y :
  commit_prepared_control_handoff pc store snap o m p ct state = (st, Ok (c, y)) -> built store snap c.
Proof. intros Hc. by built. Qed.

Lemma revocation_built pc store snap b o auth id now st c y :
  commit_authority_invitation_revocation_transition pc store snap b o auth id now = (st, Ok (c, y)) -> built store snap c.
Proof.
  intros Hc. apply publish_Ok in Hc. destruct (book_revoke b id auth auth now) as [b1 [x|]]; [|done].
  cbn [map_err mbind result_bind] in Hc. inv_bind. eexists. by split; [eassumption|].
Qed.

Lemma ciphertext_built pc store snap o id m ct state st c y :
  commit_outbox_prepared_ciphertext pc store snap o id m ct state = (st, Ok (c, y)) -> built store snap c.
Proof. intros Hc. by built. Qed.

Lemma reservation_built pc store snap o id m st c y :
  commit_outbox_handoff_reservation pc store snap o id m = (st, Ok (c, y)) -> built store snap c.
Proof.
  intros Hc. built. unfold compacted in *. inv_bind.
  match goal with E : compact_group_outbox _ _ _ = Ok _ |- _ => apply compact_counts in E end. by eapply counts_trans.
Qed.

Lemma accepted_built pc store snap o id m st c y :
  commit_outbox_relay_acceptance pc store snap o id m = (st, Ok (c, y)) -> built store snap c.
Proof.
  intros Hc. built. unfold compacted in *. inv_bind.
  match goal with E : compact_group_outbox _ _ _ = Ok _ |- _ => apply compact_counts in E end. by eapply counts_trans.
Qed.
End Built.

Section Landing.
Context {rc pc : bytes -> bytes}.
Local Abbreviation running := (GroupRecovery.running rc pc).

(** ** What a coordinator holds: a group that runs, or a snapshot of no group *)
Definition fresh_snapshot (snap : OperationSnapshot) : Prop :=
  group_controls snap = [] /\ snap_outbox snap = [] /\ application_state snap = [].

Definition holds_group (snap : OperationSnapshot) (group : option GroupState) : Prop :=
  match group with Some g => running snap g | None => fresh_snapshot snap end.

(** A commit that touches none of the records recovery reads. *)
Definition state_frame (snap snap' : OperationSnapshot) : Prop :=
  group_controls snap' = group_controls snap /\ snap_outbox snap' = snap_outbox snap /\
  application_state snap' = application_state snap.

Lemma holds_frame snap snap' group : holds_group snap group -> state_frame snap snap' -> holds_group snap' group.
Proof.
  intros Hh (F1 & F2 & F3). destruct group as [g|]; [by apply (running_frame snap)|].
  destruct Hh as (H1 & H2 & H3). split_and!; congruence.
Qed.

(** ** Of one group *)
(** What a coordinator is attached with: it is of this group when it is the same. *)
Definition group_key (g : GroupState) : Member * GroupId * Member * option Roster :=
  (gs_local g, gs_group_id g, gs_authority g, gs_source g).

(** The events the receiver has issued, and how many one commit can add: the
    message received, or the deferred ones a roster lets in. *)
Definition issued (g : GroupState) : Z := from_option next_event_id 0 (gs_receiver g).
Definition EVENTS_PER_COMMIT : Z := MAX_DEFERRED.

(** A snapshot a coordinator of this group can be attached to, at most a commit
    ahead of it. *)
Definition adoptable (snap : OperationSnapshot) (group : option GroupState) : Prop :=
  match group with
  | Some g => exists g', running snap g' /\ group_key g' = group_key g /\ issued g' <= issued g + EVENTS_PER_COMMIT
  | None => fresh_snapshot snap
  end.

Lemma issued_same g g' : gs_receiver g' = gs_receiver g -> issued g' <= issued g + EVENTS_PER_COMMIT.
Proof. unfold issued. intros ->. change EVENTS_PER_COMMIT with MAX_DEFERRED. unfold MAX_DEFERRED. lia. Qed.

Lemma holds_adoptable snap group : holds_group snap group -> adoptable snap group.
Proof. destruct group as [g|]; [|done]. intros Hr. exists g. split; [done|]. split; [done|by apply issued_same]. Qed.

(** *** Events *)
Lemma receive_issues r c peer cm r' d : receive r c peer cm = (r', d) -> next_event_id r' <= next_event_id r + 1.
Proof.
  unfold receive, defer, accept_current, with_accepted, with_deferred, saturating_add64. cbv zeta. intros Hr.
  repeat case_match; simplify_eq; cbn; lia.
Qed.

Lemma receive_commit_issues {T} `{OperationStore T} (st st' : T) snap r x peer state e c r' d :
  commit_receive_disposition pc st snap r x peer state e = (st', Ok (c, (r', d))) -> next_event_id r' <= next_event_id r + 1.
Proof.
  intros Hc. apply publish_Ok in Hc. destruct (context_encode x) as [ctx|]; [|done]. cbn [map_err mbind result_bind] in Hc.
  destruct (receive r x peer (pc ctx)) as [r1 d1] eqn:E. apply receive_issues in E. inv_bind. lia.
Qed.

Lemma revalidate_issues items : forall r r' out, revalidate r items = (r', out) -> next_event_id r' <= next_event_id r + len items.
Proof.
  induction items as [|item items IH]; intros r r' out Hr; cbn [revalidate] in Hr; [injection Hr as <- <-; rewrite len_nil; lia|].
  destruct (receive _ _ _ _) as [r1 d] eqn:E. apply receive_issues in E.
  destruct (revalidate r1 items) as [r2 rest] eqn:E2. apply IH in E2. injection Hr as <- <-. rewrite len_cons. lia.
Qed.

Lemma install_issues r roster digest r' out :
  install_accepted_roster r roster digest = (r', out) -> next_event_id r' <= next_event_id r + len (g_deferred r).
Proof.
  unfold install_accepted_roster. destruct (negb _); [intros [= <- <-]; pose proof (len_nonneg (g_deferred r)); lia|].
  destruct (revalidate _ _) as [r1 rest] eqn:E. apply revalidate_issues in E. by intros [= <- <-].
Qed.

Lemma transition_issues {T} `{OperationStore T} (st st' : T) snap s r auth candidate sends c s' x y :
  rs_receiver s = Some r -> len (g_deferred r) <= MAX_DEFERRED ->
  commit_roster_transition rc pc st snap s auth candidate sends = (st', Ok (c, (s', x, y))) ->
  from_option next_event_id 0 (rs_receiver s') <= next_event_id r + EVENTS_PER_COMMIT \/ rs_receiver s' = None.
Proof.
  intros Hr Hd Hc. apply publish_Ok in Hc. destruct (roster_encode candidate) as [pre|]; [|done]. cbn [map_err mbind result_bind] in Hc.
  cbv zeta in Hc. destruct (accept_successor _ _ _ _) as [v d]. inv_bind. cbn [rs_receiver].
  match goal with E : receiver_transition _ _ _ _ _ = Ok (_, ?r1, _) |- _ =>
    unfold receiver_transition in E; rewrite Hr in E; destruct r1 as [r1|]; [|by right]; left end.
  assert (0 <= MAX_DEFERRED) by done. change EVENTS_PER_COMMIT with MAX_DEFERRED. cbn [from_option].
  destruct (is_roster_accepted d).
  - destruct (install_accepted_roster r candidate _) as [r2 out] eqn:Ei. apply install_issues in Ei. inv_bind. lia.
  - inv_bind. lia.
Qed.

Lemma transition_receiverless {T} `{OperationStore T} (st st' : T) snap s auth candidate sends c s' x y :
  rs_receiver s = None -> commit_roster_transition rc pc st snap s auth candidate sends = (st', Ok (c, (s', x, y))) ->
  rs_receiver s' = None.
Proof.
  intros Hr Hc. apply publish_Ok in Hc. destruct (roster_encode candidate) as [pre|]; [|done]. cbn [map_err mbind result_bind] in Hc.
  cbv zeta in Hc. destruct (accept_successor _ _ _ _) as [v d]. inv_bind. cbn [rs_receiver].
  match goal with E : receiver_transition _ _ _ _ _ = Ok _ |- _ => unfold receiver_transition in E; rewrite Hr in E end. by inv_bind.
Qed.

(** ** The store of a coordinator that has not failed *)
Section Store.
Context {St : Type} {ops : OperationStore St} {fenced : FencedStore St}.
Implicit Types (d : DurableStore St).

(** The durable snapshot, which is the coordinator's own unless a commit of
    unknown outcome has latched the handle. *)
Definition landed d (snap : OperationSnapshot) (group : option GroupState) : Prop :=
  store_ok (inner d) /\
  exists top, durable (inner d) = Ok (Some top) /\ snapshot_wf top /\ adoptable top group /\ (frozen d = false -> top = snap).

Definition kept d (snap : OperationSnapshot) (group : option GroupState) : Prop :=
  holds_group snap group /\ snapshot_wf snap /\ landed d snap group.

Lemma built_wf d snap c : snapshot_wf snap -> built (yes_of d) snap c -> snapshot_wf c.
Proof.
  intros (Hv & [Hg0 _] & Hc) (base & Hb & Hcv & Hcg & Hcc). change (begin_candidate d snap = Ok base) in Hb.
  apply begin_candidate_durable in Hb as (_ & Hb & Hg).
  assert (version base = version snap /\ delivery_cursor base = delivery_cursor snap) as [H1 H2] by (by rewrite Hb).
  split_and!; [congruence| |by rewrite Hcc, H2]. rewrite Hcg. unfold u64_wf. lia.
Qed.

Lemma landed_commit d snap group c d' o :
  landed d snap group -> snapshot_wf c -> adoptable c group -> durable_commit d c = (d', o) ->
  (o = Committed -> store_ok (inner d') /\ durable (inner d') = Ok (Some c)) /\ (o <> Committed -> landed d' snap group).
Proof.
  intros (Hok & top & Hd & Hwf & Ha & Hf) Hc Hac Hcom. unfold durable_commit in Hcom.
  destruct (frozen d) eqn:Ef; [injection Hcom as <- <-; split; [done|]; intros _; split; [done|]; exists top; by rewrite Ef|].
  cbn in Hcom. destruct (store_commit_after (inner d) (observed d) c) as [st' o'] eqn:E.
  destruct (fenced_commit _ _ _ _ _ Hok Hc E) as (Hok' & Hor & Hcm & _).
  destruct (bool_decide (o' = Committed)) eqn:Eo; bool_prop; injection Hcom as <- <-; cbn; (split; intros Ho; [|]); try done.
  - split; [done|]. by apply Hcm.
  - split; [done|]. destruct Hor as [Hor|Hor].
    + exists top. cbn. by rewrite Hor.
    + by exists c.
Qed.

Lemma publish_kept {A} d snap group (cand : result GroupOperationError (OperationSnapshot * A)) d' r :
  kept d snap group -> (forall c a, cand = Ok (c, a) -> snapshot_wf c /\ adoptable c group) ->
  publish d cand = (d', r) ->
  match r with
  | Ok (c, a) => cand = Ok (c, a) /\ snapshot_wf c /\ store_ok (inner d') /\ durable (inner d') = Ok (Some c)
  | Err _ => kept d' snap group
  end.
Proof.
  intros (Hh & Hw & Hl) Hc Hp. unfold publish in Hp. destruct cand as [[c a]|e]; [|by injection Hp as <- <-].
  destruct (Hc c a eq_refl) as [Hcw Hca]. cbn in Hp. destruct (durable_commit d c) as [d1 o] eqn:E.
  destruct (landed_commit _ _ _ _ _ _ Hl Hcw Hca E) as [H1 H2].
  destruct (bool_decide (o = Committed)) eqn:Eo; bool_prop; injection Hp as <- <-; [split; [done|]; split; [done|by apply H1]|].
  exact (conj Hh (conj Hw (H2 Eo))).
Qed.

Lemma committed_kept d snap group :
  store_ok (inner d) -> durable (inner d) = Ok (Some snap) -> holds_group snap group -> snapshot_wf snap -> kept d snap group.
Proof.
  intros Hok Hd Hh Hw. refine (conj Hh (conj Hw (conj Hok _))). exists snap.
  exact (conj Hd (conj Hw (conj (holds_adoptable _ _ Hh) (fun _ => eq_refl)))).
Qed.

(** A commit that leaves the group in state [state a]. *)
Lemma commit_kept {A} d snap g (state : A -> GroupState) (cand : result GroupOperationError (OperationSnapshot * A)) d' r :
  kept d snap (Some g) -> (forall a, group_key (state a) = group_key g) ->
  (forall c a, publish (yes_of d) cand = (yes_of d, Ok (c, a)) -> built (yes_of d) snap c /\ running c (state a) /\ issued (state a) <= issued g + EVENTS_PER_COMMIT) ->
  publish d cand = (d', r) ->
  match r with
  | Ok (c, a) => kept d' c (Some (state a))
  | Err _ => kept d' snap (Some g)
  end.
Proof.
  intros Hk Hs Hc Hp. pose proof Hk as (_ & Hw & _).
  eapply publish_kept in Hp; [|exact Hk|].
  - destruct r as [[c a]|e]; [|done]. destruct Hp as (He & Hcw & Hok & Hd).
    destruct (Hc c a (yes_publish _ _ _ _ He)) as (_ & Hr & _). by apply committed_kept.
  - intros c a He. destruct (Hc c a (yes_publish _ _ _ _ He)) as (Hb & Hr & Hi). split; [by eapply built_wf|].
    exists (state a). by refine (conj Hr (conj (Hs a) Hi)).
Qed.

(** A commit of no group record, whatever the coordinator holds. *)
Lemma frame_kept {A} d snap group (cand : result GroupOperationError (OperationSnapshot * A)) d' r :
  kept d snap group ->
  (forall c a, publish (yes_of d) cand = (yes_of d, Ok (c, a)) -> snapshot_wf c /\ state_frame snap c) ->
  publish d cand = (d', r) ->
  match r with Ok (c, a) => kept d' c group | Err _ => kept d' snap group end.
Proof.
  intros Hk Hc Hp. pose proof Hk as (Hh & Hw & _).
  eapply publish_kept in Hp; [|exact Hk|].
  - destruct r as [[c a]|e]; [|done]. destruct Hp as (He & Hcw & Hok & Hd). destruct (Hc c a (yes_publish _ _ _ _ He)) as [_ Hf].
    apply committed_kept; try done. by eapply holds_frame.
  - intros c a He. destruct (Hc c a (yes_publish _ _ _ _ He)) as [Hb Hf]. split; [done|]. by eapply holds_adoptable, holds_frame.
Qed.

(** *** Commits that touch no record of the group *)
Lemma candidate_state {T} `{OperationStore T} (store : T) snap c : begin_candidate store snap = Ok c -> state_frame snap c.
Proof. unfold begin_candidate. intros H2. by inv_bind. Qed.

Lemma malformed_frame {T} `{OperationStore T} (store store' : T) snap p state e snap' u :
  commit_malformed_group_payload pc store snap p state e = (store', Ok (snap', u)) -> state_frame snap snap'.
Proof.
  intros Hc. apply publish_Ok in Hc. destruct (begin_candidate store snap) as [c|] eqn:Ec; [|done].
  cbn [mbind result_bind] in Hc. destruct (record_malformed pc _ e p) as [c1|] eqn:Em; [|done]. injection Hc as <- _.
  apply record_malformed_frame in Em as (F1 & F2 & F3). apply candidate_state in Ec as (E1 & E2 & E3).
  split_and!; [by rewrite F1|by rewrite F2|by rewrite F3].
Qed.

Lemma provider_frame {T} `{OperationStore T} (store store' : T) snap state snap' u :
  commit_provider_state store snap state = (store', Ok (snap', u)) -> state_frame snap snap'.
Proof.
  intros Hc. apply publish_Ok in Hc. destruct (begin_candidate _ _) as [c|] eqn:Ec; [|done]. injection Hc as <- _.
  exact (candidate_state _ _ _ Ec).
Qed.

Lemma cursor_frame {T} `{OperationStore T} (store store' : T) snap cursor snap' u :
  commit_delivery_cursor store snap cursor = (store', Ok (snap', u)) -> state_frame snap snap'.
Proof.
  intros Hc. apply publish_Ok in Hc. destruct (begin_candidate _ _) as [c|] eqn:Ec; [|done]. injection Hc as <- _.
  exact (candidate_state _ _ _ Ec).
Qed.

Lemma malformed_kept d snap group p state e d' r :
  kept d snap group -> commit_malformed_group_payload pc d snap p state e = (d', r) ->
  match r with Ok (c, _) => kept d' c group | Err _ => kept d' snap group end.
Proof.
  intros Hk. apply frame_kept; [done|]. intros c a E. split; [|exact (malformed_frame _ _ _ _ _ _ _ _ E)].
  eapply built_wf; [apply Hk|exact (malformed_built _ _ _ _ _ _ _ _ _ E)].
Qed.

Lemma provider_kept d snap group state d' r :
  kept d snap group -> commit_provider_state d snap state = (d', r) ->
  match r with Ok (c, _) => kept d' c group | Err _ => kept d' snap group end.
Proof.
  intros Hk. apply frame_kept; [done|]. intros c a E. split; [|exact (provider_frame _ _ _ _ _ _ E)].
  eapply built_wf; [apply Hk|exact (provider_built _ _ _ _ _ _ E)].
Qed.

Lemma cursor_kept d snap group cursor d' r :
  kept d snap group -> u64_wf cursor -> commit_delivery_cursor d snap cursor = (d', r) ->
  match r with Ok (c, _) => kept d' c group | Err _ => kept d' snap group end.
Proof.
  intros Hk Hcur. apply frame_kept; [done|]. intros c a E. split; [|exact (cursor_frame _ _ _ _ _ _ E)].
  apply publish_Ok in E. destruct (begin_candidate _ _) as [base|] eqn:Eb; [|done]. injection E as <- _.
  assert (snapshot_wf base) as (? & ? & _) by (apply (built_wf d snap); [apply Hk|by exists base]). done.
Qed.

(** *** Commits of the group *)
Lemma receive_kept d snap g v r x peer state e d' res :
  (forall x, len (pc x) = DIGEST_LEN) -> kept d snap (Some g) -> gs_view g = Some v -> gs_receiver g = Some r -> context_wf x ->
  commit_receive_disposition pc d snap r x peer state e = (d', res) ->
  match res with Ok (c, (r', _)) => kept d' c (Some (with_receiver g r')) | Err _ => kept d' snap (Some g) end.
Proof.
  intros Hpc Hk Hv Hr Hx Hc. eapply (commit_kept d snap g (fun y => with_receiver g y.1)) in Hc; [|done|done|].
  - by destruct res as [[c [r' y]]|].
  - intros c [r' y] E. split_and!; [exact (receive_built _ _ _ _ _ _ _ _ _ _ _ E)| |].
    + exact (receive_running (rc := rc) _ _ _ _ _ _ _ _ _ _ _ _ _ Hpc (proj1 Hk) Hv Hr Hx E).
    + pose proof (receive_commit_issues (yes_of d) (yes_of d) snap r x peer state e c r' y E) as Hi. unfold issued. rewrite Hr. cbn. change EVENTS_PER_COMMIT with 4. lia.
Qed.

Lemma hold_kept d snap g r state e d' res :
  kept d snap (Some g) -> roster_wf r ->
  commit_hold_roster_without_view d snap (gs_deferred g) (gs_authority g) (gs_group_id g) r state e = (d', res) ->
  match res with Ok (c, q) => kept d' c (Some (with_queue g q)) | Err _ => kept d' snap (Some g) end.
Proof.
  intros Hk Hr Hc. eapply (commit_kept d snap g (fun q => with_queue g q)) in Hc; [done|done|done|].
  intros c q E. split_and!; [exact (hold_built _ _ _ _ _ _ _ _ _ _ _ E)| |by apply issued_same].
  exact (hold_running (rc := rc) (pc := pc) _ _ _ _ _ _ _ _ _ (proj1 Hk) Hr E).
Qed.

Lemma prune_kept d snap g v d' res :
  kept d snap (Some g) -> commit_prune_deferred_rosters d snap v (gs_group_id g) (gs_deferred g) = (d', res) ->
  match res with Ok (c, (q, _)) => kept d' c (Some (with_queue g q)) | Err _ => kept d' snap (Some g) end.
Proof.
  intros Hk Hc. pose proof (prune_running (rc := rc) (pc := pc) (yes_of d) (yes_of d) snap g v) as Hpr.
  unfold commit_prune_deferred_rosters in Hc, Hpr. cbv zeta in Hc, Hpr.
  case_bool_decide as Hq.
  - injection Hc as <- <-. by destruct g.
  - eapply (commit_kept d snap g (fun y => with_queue g y.1)) in Hc; [|done|done|].
    + by destruct res as [[c [q b]]|].
    + intros c [q b] E. split_and!; [|exact (Hpr _ _ _ (proj1 Hk) E)|by apply issued_same].
      apply publish_Ok in E. inv_bind. eexists. by split; [eassumption|].
Qed.

Lemma deferred_bounded d snap g r :
  kept d snap (Some g) -> gs_receiver g = Some r -> len (g_deferred r) <= MAX_DEFERRED.
Proof. intros [[_ (old & _ & P)] _] Hr. destruct (po_receiver _ _ P r Hr) as [Hi _]. by destruct Hi. Qed.

Lemma issued_bound d snap g : kept d snap (Some g) -> 0 <= issued g <= u64_max.
Proof.
  intros [[_ (old & _ & P)] _]. unfold issued. destruct (gs_receiver g) as [r|] eqn:Er; [|by vm_compute].
  destruct (po_receiver _ _ P r Er) as [_ Hs]. by destruct Hs.
Qed.

Lemma wire_kept d snap g v r provider applying auth candidate d' res :
  (forall x, len (rc x) = DIGEST_LEN) -> (forall x, len (pc x) = DIGEST_LEN) ->
  kept d snap (Some g) -> gs_view g = Some v -> gs_receiver g = Some r -> roster_wf candidate ->
  applying = None \/ r_group_id candidate = gs_group_id g ->
  commit_roster_transition rc pc d snap (wire_state v r provider (gs_outbox g) (gs_deferred g) applying) auth candidate []
    = (d', res) ->
  match res with
  | Ok (c, (s, _, _)) => kept d' c (Some (with_parts g (wire_parts s r (gs_outbox g) (gs_deferred g))))
  | Err _ => kept d' snap (Some g)
  end.
Proof.
  intros Hrc Hpc Hk Hv Hr Hwf Happ Hc.
  eapply (commit_kept d snap g (fun y => with_parts g (wire_parts y.1.1 r (gs_outbox g) (gs_deferred g)))) in Hc; [|done|done|].
  - by destruct res as [[c [[s y] z]]|].
  - intros c [[s y] z] E. split_and!; [exact (roster_built _ _ _ _ _ _ _ _ _ _ _ E)| |].
    + exact (wire_running (rc := rc) (pc := pc) _ _ _ _ _ _ _ _ _ _ _ _ _ _ Hrc Hpc (proj1 Hk) Hv Hr Hwf Happ E).
    + pose proof (transition_issues (yes_of d) (yes_of d) snap (wire_state v r provider (gs_outbox g) (gs_deferred g) applying) r auth candidate [] c s y z eq_refl
        (deferred_bounded _ _ _ _ Hk Hr) E) as Hi. clear E. rename Hi into E.
      unfold issued, wire_parts. rewrite Hr. cbn. destruct E as [E| ->]; [|cbn; change EVENTS_PER_COMMIT with 4; lia].
      destruct (rs_receiver s); cbn in *; [lia|change EVENTS_PER_COMMIT with 4; lia].
Qed.

Lemma book_kept {A} d snap g provider (t : InvitationBook -> InvitationBook * result Error A) d' res :
  kept d snap (Some g) -> (forall b x, t (gs_book g) = (b, Ok x) -> book_ok g b) ->
  commit_group_invitation_transition_with_provider d snap (gs_book g) provider t = (d', res) ->
  match res with Ok (c, (b, _)) => kept d' c (Some (with_book g b)) | Err _ => kept d' snap (Some g) end.
Proof.
  intros Hk Ht Hc. eapply (commit_kept d snap g (fun y => with_book g y.1)) in Hc; [|done|done|].
  - by destruct res as [[c [b x]]|].
  - intros c [b x] E. split_and!; [exact (book_built _ _ _ _ _ _ _ _ E)| |by apply issued_same].
    exact (book_running (rc := rc) (pc := pc) _ _ _ _ _ _ _ _ _ (proj1 Hk) Ht E).
Qed.

(** *** Draining *)
Lemma next_deferred_kept d snap g v r outbox queue d' res :
  (forall x, len (rc x) = DIGEST_LEN) -> (forall x, len (pc x) = DIGEST_LEN) ->
  kept d snap (Some (with_parts g (v, r, outbox, queue))) ->
  commit_next_deferred_roster rc pc d snap v r outbox queue = (d', res) ->
  match res with
  | Ok (c, (parts, _)) => kept d' c (Some (with_parts g parts))
  | Err _ => kept d' snap (Some (with_parts g (v, r, outbox, queue)))
  end.
Proof.
  intros Hrc Hpc Hk Hc. unfold commit_next_deferred_roster in Hc. destruct (next_for queue v) as [next|] eqn:En.
  2: { by injection Hc as <- <-. }
  apply next_for_in in En as [Hin _]. pose proof Hk as [[_ (old & _ & P)] _].
  destruct (po_deferred _ _ P) as (_ & _ & Hq). cbn in Hq. rewrite Forall_forall in Hq. destruct (Hq next Hin) as (Hwf & Hg & _).
  destruct (commit_roster_transition _ _ _ _ _ _ _ _) as [st x] eqn:Et.
  eapply (wire_kept d snap (with_parts g (v, r, outbox, queue))) in Et; [|done|done|done|done|done|exact Hwf|by right].
  destruct x as [[s1 [[s' sends] rcm]]|]; injection Hc as <- <-; [|done]. by rewrite with_parts_twice in Et.
Qed.

Lemma drain_loop_kept fuel : forall d snap g parts events d' snap' parts' res,
  (forall x, len (rc x) = DIGEST_LEN) -> (forall x, len (pc x) = DIGEST_LEN) ->
  kept d snap (Some (with_parts g parts)) ->
  drain_loop rc pc fuel d snap parts events = Some (d', (snap', parts'), res) ->
  kept d' snap' (Some (with_parts g parts')).
Proof.
  induction fuel as [|fuel IH]; intros d snap g [[[v r] outbox] queue] events d' snap' parts' res Hrc Hpc Hk H1; [done|].
  cbn [drain_loop] in H1. destruct (commit_next_deferred_roster _ _ _ _ _ _ _ _) as [st [[s1 [p1 c]]|e]] eqn:E.
  - apply (next_deferred_kept _ _ g) in E; [|done..]. destruct c as [c|]; [by eapply IH|]. by injection H1 as <- <- <- <-.
  - apply (next_deferred_kept _ _ g) in E; [|done..]. by injection H1 as <- <- <- <-.
Qed.

Lemma drain_kept d snap g d' snap' g' res :
  (forall x, len (rc x) = DIGEST_LEN) -> (forall x, len (pc x) = DIGEST_LEN) ->
  kept d snap (Some g) -> drain_deferred_rosters rc pc d snap g = (d', (snap', g'), res) ->
  kept d' snap' (Some g') /\ group_key g' = group_key g.
Proof.
  intros Hrc Hpc Hk Hd. unfold drain_deferred_rosters in Hd.
  destruct (gs_view g) as [v|] eqn:Ev; [|by injection Hd as <- <- <- <-].
  destruct (gs_receiver g) as [r|] eqn:Er; [|by injection Hd as <- <- <- <-].
  destruct (drain_loop _ _ _ _ _ _ _) as [[[st [s1 p1]] res1]|] eqn:El; [|by injection Hd as <- <- <- <-].
  assert (with_parts g (v, r, gs_outbox g, gs_deferred g) = g) as Hself by (destruct g; cbn in *; by subst).
  rewrite <- Hself in Hk. pose proof (drain_loop_kept _ _ _ _ _ _ _ _ _ _ Hrc Hpc Hk El) as Hk1.
  destruct p1 as [[[v1 r1] o1] q1]. destruct res1 as [events|e]; [|by injection Hd as <- <- <- <-].
  destruct (commit_prune_deferred_rosters _ _ _ _ _) as [st2 x] eqn:Ep.
  apply (prune_kept st s1 (with_parts g (v1, r1, o1, q1)) v1) in Ep; [|done].
  destruct x as [[s2 [q2 b]]|e]; by injection Hd as <- <- <- <-.
Qed.

(** *** Commits of the control outbox and the book *)
Lemma prepared_kept d snap g m p ct state d' res :
  kept d snap (Some g) -> sequence_left (gs_control g) -> prepare_ok m p ct ->
  commit_prepared_control_handoff pc d snap (gs_control g) m p ct state = (d', res) ->
  match res with Ok (c, (o, _)) => kept d' c (Some (set_control g o)) | Err _ => kept d' snap (Some g) end.
Proof.
  intros Hk Hs Hp Hc. eapply (commit_kept d snap g (fun y => set_control g y.1)) in Hc; [|done|done|].
  - by destruct res as [[c [o h]]|].
  - intros c [o h] E. split_and!; [exact (prepared_built _ _ _ _ _ _ _ _ _ _ _ E)| |by apply issued_same].
    exact (prepared_running (rc := rc) _ _ _ _ _ _ _ _ _ _ _ (proj1 Hk) Hs Hp E).
Qed.

Lemma control_kept {A} d snap g (t : ControlOutbox -> result Error (ControlOutbox * A)) d' res :
  kept d snap (Some g) -> (forall o x, t (gs_control g) = Ok (o, x) -> exists n, control_inv pc n o) ->
  commit_group_control_outbox_transition pc d snap (gs_control g) t = (d', res) ->
  match res with Ok (c, (o, _)) => kept d' c (Some (set_control g o)) | Err _ => kept d' snap (Some g) end.
Proof.
  intros Hk Ht Hc. eapply (commit_kept d snap g (fun y => set_control g y.1)) in Hc; [|done|done|].
  - by destruct res as [[c [o h]]|].
  - intros c [o h] E. split_and!; [exact (control_built _ _ _ _ _ _ _ _ E)| |by apply issued_same].
    exact (control_running (rc := rc) _ _ _ _ _ _ _ _ (proj1 Hk) Ht E).
Qed.

Lemma revocation_kept d snap g auth id now d' res :
  kept d snap (Some g) ->
  commit_authority_invitation_revocation_transition pc d snap (gs_book g) (gs_control g) auth id now = (d', res) ->
  match res with
  | Ok (c, (y, _)) => kept d' c (Some (set_control (with_book g y.1) y.2))
  | Err _ => kept d' snap (Some g)
  end.
Proof.
  intros Hk Hc. eapply (commit_kept d snap g (fun y => set_control (with_book g y.1.1) y.1.2)) in Hc; [|done|done|].
  - by destruct res as [[c [y i]]|].
  - intros c [[b o] i] E. split_and!; [exact (revocation_built _ _ _ _ _ _ _ _ _ _ _ E)| |by apply issued_same].
    exact (revocation_running (rc := rc) _ _ _ _ _ _ _ _ _ _ _ (proj1 Hk) E).
Qed.

Lemma roster_kept d snap g s auth candidate d' res :
  (forall x, len (rc x) = DIGEST_LEN) -> (forall x, len (pc x) = DIGEST_LEN) ->
  kept d snap (Some g) -> drawn_from g s -> roster_wf candidate ->
  (forall dc, rs_deferred s = Some dc -> dc_applying dc = None \/ r_group_id candidate = gs_group_id g) ->
  commit_roster_transition rc pc d snap s auth candidate [] = (d', res) ->
  match res with
  | Ok (c, (s', _, _)) => kept d' c (Some (commit_parts g s'))
  | Err _ => kept d' snap (Some g)
  end.
Proof.
  intros Hrc Hpc Hk Hs Hwf Happ Hc. eapply (commit_kept d snap g (fun y => commit_parts g y.1.1)) in Hc; [|done|done|].
  - by destruct res as [[c [[s' y] z]]|].
  - intros c [[s' y] z] E. split_and!; [exact (roster_built _ _ _ _ _ _ _ _ _ _ _ E)| |].
    + exact (roster_running (rc := rc) (pc := pc) _ _ _ _ _ _ _ _ _ _ _ Hrc Hpc (proj1 Hk) Hs Hwf Happ E).
    + assert ((exists r, rs_receiver s = Some r) \/ rs_receiver s = None) as [[r Er]|Er] by (destruct (rs_receiver s); eauto).
      * pose proof (df_receiver _ _ Hs) as Hg. rewrite Er in Hg.
        pose proof (transition_issues (yes_of d) (yes_of d) snap s r auth candidate [] c s' y z Er
          (deferred_bounded _ _ _ _ Hk (eq_sym Hg)) E) as Hi. clear E. rename Hi into E. unfold issued. rewrite <- Hg. cbn. destruct E as [E| ->]; [exact E|]. pose proof (issued_bound d snap g Hk) as Hb.
        unfold issued in Hb. rewrite <- Hg in Hb. cbn in *. change EVENTS_PER_COMMIT with 4. lia.
      * pose proof (transition_receiverless (yes_of d) (yes_of d) snap s auth candidate [] c s' y z Er E) as Hi.
        unfold issued. cbn. rewrite Hi, <- (df_receiver _ _ Hs), Er. done.
Qed.

(** *** Commits of the outbox *)
Lemma sends_kept {A} d snap g (cand : result GroupOperationError (OperationSnapshot * (GroupOutbox * A))) d' res :
  kept d snap (Some g) ->
  (forall c o x, publish (yes_of d) cand = (yes_of d, Ok (c, (o, x))) ->
     built (yes_of d) snap c /\ outbox_frame snap c /\ tracks pc (gs_group_id g) c o) ->
  publish d cand = (d', res) ->
  match res with Ok (c, (o, _)) => kept d' c (Some (set_outbox g o)) | Err _ => kept d' snap (Some g) end.
Proof.
  intros Hk Ht Hc. eapply (commit_kept d snap g (fun y => set_outbox g y.1)) in Hc; [|done|done|].
  - by destruct res as [[c [o x]]|].
  - intros c [o x] E. destruct (Ht c o x E) as (Hb & Hf & Hr). split_and!; [exact Hb| |by apply issued_same].
    exact (sends_running _ _ _ _ (proj1 Hk) Hf Hr).
Qed.

Lemma kept_tracks d snap g : kept d snap (Some g) -> tracks pc (gs_group_id g) snap (gs_outbox g).
Proof. intros [[R _] _]. apply R. Qed.

Lemma ciphertext_kept d snap g id m ct state d' res :
  (forall x, len (pc x) = DIGEST_LEN) -> kept d snap (Some g) -> commit_outbox_prepared_ciphertext pc d snap (gs_outbox g) id m ct state = (d', res) ->
  match res with Ok (c, (o, _)) => kept d' c (Some (set_outbox g o)) | Err _ => kept d' snap (Some g) end.
Proof.
  intros Hpc Hk. apply sends_kept; [done|]. intros c o x E. split_and!.
  - exact (ciphertext_built _ _ _ _ _ _ _ _ _ _ _ E).
  - exact (prepared_frame _ _ _ _ _ _ _ _ _ _ E).
  - eapply (tracks_prepared _ _ Hpc (yes_of d)); [exact (kept_tracks _ _ _ Hk)|exact E].
Qed.

Lemma reservation_kept d snap g id m d' res :
  (forall x, len (pc x) = DIGEST_LEN) -> kept d snap (Some g) -> commit_outbox_handoff_reservation pc d snap (gs_outbox g) id m = (d', res) ->
  match res with Ok (c, (o, _)) => kept d' c (Some (set_outbox g o)) | Err _ => kept d' snap (Some g) end.
Proof.
  intros Hpc Hk. apply sends_kept; [done|]. intros c o x E. split_and!.
  - exact (reservation_built _ _ _ _ _ _ _ _ _ E).
  - exact (handoff_frame _ _ _ _ _ _ _ _ E).
  - eapply (tracks_handoff _ _ Hpc (yes_of d)); [exact (kept_tracks _ _ _ Hk)|exact E].
Qed.

Lemma accepted_kept d snap g id m d' res :
  (forall x, len (pc x) = DIGEST_LEN) -> kept d snap (Some g) -> commit_outbox_relay_acceptance pc d snap (gs_outbox g) id m = (d', res) ->
  match res with Ok (c, (o, _)) => kept d' c (Some (set_outbox g o)) | Err _ => kept d' snap (Some g) end.
Proof.
  intros Hpc Hk. apply sends_kept; [done|]. intros c o x E. split_and!.
  - exact (accepted_built _ _ _ _ _ _ _ _ _ E).
  - exact (acceptance_frame _ _ _ _ _ _ _ _ E).
  - eapply (tracks_accepted _ _ Hpc (yes_of d)); [exact (kept_tracks _ _ _ Hk)|exact E].
Qed.

Lemma intent_kept d snap g s d' res :
  kept d snap (Some g) -> intent_wf s -> commit_logical_intent d snap (gs_outbox g) s = (d', res) ->
  match res with Ok (c, (o, _)) => kept d' c (Some (set_outbox g o)) | Err _ => kept d' snap (Some g) end.
Proof.
  intros Hk Hwf Hc.
  pose proof (fun c o x => intent_frame (yes_of d) (yes_of d) snap (gs_outbox g) s c (o, x)) as Hf.
  pose proof (fun c o x => tracks_intent _ _ (yes_of d) snap (gs_outbox g) s (yes_of d) c o x (kept_tracks _ _ _ Hk) Hwf) as Ht.
  unfold commit_logical_intent in Hc, Hf, Ht. destruct (encode_intent s) as [i|]; [|by injection Hc as <- <-].
  cbn [map_err mbind result_bind] in Hc, Hf, Ht. destruct (record (gs_outbox g) s) as [o1 [y|]]; [|by injection Hc as <- <-].
  cbn [map_err mbind result_bind] in Hc, Hf, Ht. case_bool_decide; [injection Hc as <- <-; by destruct g|].
  revert Hc. apply sends_kept; [done|]. intros c o x E. split_and!; [|exact (Hf _ _ _ E)|exact (Ht _ _ _ E)].
  apply publish_Ok in E. inv_bind. eexists. by split; [eassumption|].
Qed.
End Store.
End Landing.
Arguments kept rc pc {St ops fenced} d snap group.
Arguments landed rc pc {St ops fenced} d snap group.
Arguments adoptable rc pc snap group : clear implicits.
Arguments holds_group rc pc snap group : clear implicits.
