(* ===== verification/GroupCoordinator.v ===== *)
(** * GroupCoordinator: the work of the coordinator's calls
    ([tacenta-client/src/group_client.rs])

    The calls of the coordinator, receiving and sending, keep the snapshot such
    that a restart rebuilds the state that is running, and what is durable such
    that it is this snapshot or, after a commit of unknown outcome, one that can
    be attached to as well. *)

From S2P Require Import Prelude Framing GroupCodec Invitation GroupPayload RosterView GroupReceive GroupSend GroupControl.
From S2P Require Import OperationStore DeferredRosters GroupTranscript GroupRecords GroupInbound GroupClient GroupDrive.
From S2P Require Import GroupRecovery GroupTransition GroupLanding.

Section Parts.
Context {rc pc : bytes -> bytes}.
Local Abbreviation running := (GroupRecovery.running rc pc).
Local Abbreviation parts_ok := (GroupRecovery.parts_ok rc pc).
Local Abbreviation writes := (GroupRecovery.writes pc).
Local Abbreviation rebuilds := (GroupRecovery.rebuilds rc pc).

Local Abbreviation kept := (GroupLanding.kept rc pc).

(** ** Routing *)
Section Route.
Context {St : Type} {ops : OperationStore St} {fenced : FencedStore St}.
Implicit Types store : DurableStore St.
Context (Hrc : forall x, len (rc x) = DIGEST_LEN) (Hpc : forall x, len (pc x) = DIGEST_LEN).

Lemma refuse_kept {G} store store' snap group (g : G) input snap' g' r :
  kept store snap group -> refuse pc store snap g input = (store', (snap', g'), r) -> g' = g /\ kept store' snap' group.
Proof.
  intros Hk H1. unfold refuse in H1. destruct (commit_malformed_group_payload _ _ _ _ _ _) as [st x] eqn:E.
  apply (malformed_kept (rc := rc) _ _ group) in E; [|done]. destruct x as [[s1 u]|e]; by injection H1 as <- <- <- <-.
Qed.

Lemma refuse_running store store' snap g input snap' g' r :
  kept store snap (Some g) -> refuse pc store snap g input = (store', (snap', g'), r) -> kept store' snap' (Some g').
Proof. intros Hr Hc. by eapply refuse_kept in Hc as [-> ?]. Qed.

Lemma payload_roster bs r : payload_decode bs = Ok (PRoster r) -> roster_wf r.
Proof. by intros [? _]%payload_decode_encode. Qed.

Lemma payload_bootstrap bs b : payload_decode bs = Ok (PBootstrap b) -> book_op_wf (BCreate (authority (source_roster b))
  (authority (source_roster b)) (members (source_roster b)) (b_invitation b) 0).
Proof.
  intros [[Hi _] He]%payload_decode_encode. unfold payload_encode in He. cbn [payload_value] in He.
  destruct (bootstrap_encode b) as [v|] eqn:Eb; [|done]. unfold bootstrap_encode in Eb.
  destruct (roster_encode _); [|done]. cbn [mbind result_bind] in Eb.
  destruct (invitation_validate _) as [[]|] eqn:Ev; [|done]. cbn [mbind result_bind] in Eb.
  destruct (check_binding _ _) as [u|] eqn:Ec; [|done]. split_and!; [done|done|by eapply check_binding_pending].
Qed.

(** An operation on the book keeps its bounds. *)
Lemma book_step_ok snap g op b : running snap g -> book_op_wf op -> book_step (gs_book g) op = b -> book_ok g b.
Proof.
  intros [_ (old & _ & P)] Hop <-. destruct (po_book _ _ P) as [Hb Hg]. split; [by apply book_inv_step|by rewrite book_group_step].
Qed.

Lemma invalid_running {A} store store' snap g input snap' book (r : result GroupOperationError A) :
  kept store snap (Some g) -> commit_invalid_invitation_control pc store snap (gs_book g) input = (store', (snap', book), r) ->
  kept store' snap' (Some (with_book g book)).
Proof.
  intros Hr H1. unfold commit_invalid_invitation_control in H1.
  destruct (commit_malformed_group_payload _ _ _ _ _ _) as [st x] eqn:E. apply (malformed_kept (rc := rc) _ _ (Some g)) in E; [|done].
  destruct x as [[s1 u]|e]; injection H1 as <- <- <- <-; by rewrite with_book_same.
Qed.

Lemma invitation_control_running {A} store store' snap g input (transition : InvitationBook -> InvitationBook * result Error A)
    snap' book r :
  kept store snap (Some g) -> (forall b x, transition (gs_book g) = (b, Ok x) -> book_ok g b) ->
  commit_invitation_control pc store snap (gs_book g) input transition = (store', (snap', book), r) ->
  kept store' snap' (Some (with_book g book)).
Proof.
  intros Hr Hb H1. unfold commit_invitation_control in H1.
  destruct (commit_group_invitation_transition_with_provider _ _ _ _ _) as [st x] eqn:E. apply (book_kept (rc := rc) (pc := pc)) in E; [|done..].
  destruct x as [[s1 [b1 x]]|[]]; [by injection H1 as <- <- <- <-|by eapply invalid_running|].
  injection H1 as <- <- <- <-. by rewrite with_book_same.
Qed.

Lemma book_map_Ok {A} (f : Invitation -> A) r b x : book_map f r = (b, Ok x) -> b = r.1.
Proof. unfold book_map. destruct r as [b1 i]. by intros [= <- _]. Qed.

Lemma bootstrap_running store store' snap g local now input snap' book r :
  kept store snap (Some g) ->
  commit_group_invitation_bootstrap rc pc store snap (gs_book g) local now input = (store', (snap', book), r) ->
  kept store' snap' (Some (with_book g book)).
Proof.
  intros Hr H1. unfold commit_group_invitation_bootstrap in H1.
  destruct (payload_decode (in_plaintext input)) as [[| |b| |]|] eqn:Ep; try (by eapply invalid_running).
  destruct (roster_encode _) as [pre|]; [|injection H1 as <- <- <- <-; by rewrite with_book_same].
  destruct (_ || _) in H1; [by eapply invalid_running|].
  eapply invitation_control_running; [done| |exact H1]. cbn beta. intros b1 x ->%book_map_Ok.
  apply (book_step_ok snap g (BCreate (authenticated_peer input) (authority (source_roster b)) (members (source_roster b))
    (b_invitation b) now)); [apply Hr|exact (payload_bootstrap _ _ Ep)|done].
Qed.

Lemma acceptance_running store store' snap g now input snap' book r :
  kept store snap (Some g) -> commit_group_invitation_acceptance pc store snap (gs_book g) now input = (store', (snap', book), r) ->
  kept store' snap' (Some (with_book g book)).
Proof.
  intros Hr H1. unfold commit_group_invitation_acceptance in H1.
  destruct (payload_decode (in_plaintext input)) as [[| | |a|]|] eqn:Ep; try (by eapply invalid_running).
  destruct (negb _); [by eapply invalid_running|].
  eapply invitation_control_running; [done| |exact H1]. cbn beta. intros b1 x ->%book_map_Ok.
  by eapply (book_step_ok snap g (BAccept _ _ _ _ _)); [apply Hr|..].
Qed.

Lemma revoked_running store store' snap g local auth now input snap' book r :
  kept store snap (Some g) ->
  commit_group_invitation_revocation pc store snap (gs_book g) local auth now input = (store', (snap', book), r) ->
  kept store' snap' (Some (with_book g book)).
Proof.
  intros Hr H1. unfold commit_group_invitation_revocation in H1.
  destruct (payload_decode (in_plaintext input)) as [[| | | |v]|] eqn:Ep; try (by eapply invalid_running). cbv zeta in H1.
  destruct (_ || _) in H1; [by eapply invalid_running|].
  eapply invitation_control_running; [done| |exact H1]. cbn beta. intros b1 x ->%book_map_Ok.
  by eapply (book_step_ok snap g (BRevoke _ _ _ _)); [apply Hr|..].
Qed.

Lemma invitation_outcome_running {A} snap' g (f : A -> GroupOutcome) store' store1 s1 b1 (res : result GroupOperationError A) g' r :
  kept store1 s1 (Some (with_book g b1)) -> invitation_outcome g f (store1, (s1, b1), res) = (store', (snap', g'), r) -> kept store' snap' (Some g').
Proof. intros Hr H1. unfold invitation_outcome in H1. by injection H1 as <- <- <- _. Qed.

(** The dispatch of a payload for a coordinator with a view. *)
Lemma payload_commit_running store store' snap g v r input res :
  kept store snap (Some g) -> gs_view g = Some v -> gs_receiver g = Some r ->
  commit_group_payload_with_deferred rc pc store snap v r (gs_outbox g) (gs_deferred g) input = (store', res) ->
  match res with
  | Ok (snap', (parts, _)) => kept store' snap' (Some (with_parts g parts))
  | Err _ => kept store' snap (Some g)
  end.
Proof.
  intros Hr Hv Hrec H1. unfold commit_group_payload_with_deferred in H1. cbv zeta in H1.
  assert (with_parts g (v, r, gs_outbox g, gs_deferred g) = g) as Hself by (destruct g; cbn in *; by subst).
  assert (forall x, (let '(store, r0) := commit_malformed_group_payload pc store snap (in_plaintext input) (in_provider_state input) (in_effect input) in
    (store, '(snap, _) ← r0; Ok (snap, (v, r, gs_outbox g, gs_deferred g, x)))) = (store', res) ->
    match res with
    | Ok (snap', (parts, _)) => kept store' snap' (Some (with_parts g parts))
    | Err _ => kept store' snap (Some g)
    end) as Hmal.
  { intros x Hx. destruct (commit_malformed_group_payload _ _ _ _ _ _) as [st y] eqn:E.
    apply (malformed_kept (rc := rc) _ _ (Some g)) in E; [|done]. destruct y as [[s1 u]|]; injection Hx as <- <-; [|done].
    by rewrite Hself. }
  destruct (payload_decode (in_plaintext input)) as [[c|candidate|b|a|w]|] eqn:Ep; try (by eapply Hmal).
  - destruct (commit_receive_disposition _ _ _ _ _ _ _ _) as [st y] eqn:E.
    eapply (receive_kept (rc := rc)) in E; [|done|done|done|done|by eapply payload_context].
    destruct y as [[s1 [r1 d1]]|]; injection H1 as <- <-; [|done]. unfold with_receiver in E. by rewrite Hv in E.
  - destruct (commit_roster_transition _ _ _ _ _ _ _ _) as [st y] eqn:E.
    eapply (wire_kept (rc := rc)) in E; [|done|done|done|done|done|by eapply payload_roster|by left].
    by destruct y as [[s1 [[s' sends] rcm]]|]; injection H1 as <- <-.
Qed.

Lemma route_roster_running store store' snap g v r input snap' g' res :
  kept store snap (Some g) -> gs_view g = Some v -> gs_receiver g = Some r ->
  route_roster rc pc store snap g v r input = (store', (snap', g'), res) -> kept store' snap' (Some g').
Proof.
  intros Hr Hv Hrec H1. unfold route_roster in H1.
  destruct (commit_group_payload_with_deferred _ _ _ _ _ _ _ _ _) as [st y] eqn:E.
  pose proof (payload_commit_running _ _ _ _ _ _ _ _ Hr Hv Hrec E) as Hr1.
  destruct y as [[s1 [p1 d]]|e]; [|by injection H1 as <- <- <- _].
  destruct d as [d|c]; [by injection H1 as <- <- <- _|]. cbv zeta in H1.
  destruct (rc_held c); [by injection H1 as <- <- <- _|]. destruct (is_roster_accepted _); [|by injection H1 as <- <- <- _].
  destruct (drain_deferred_rosters _ _ _ _ _) as [[st2 [s2 g2]] res2] eqn:Ed.
  pose proof (drain_kept _ _ _ _ _ _ _ Hrc Hpc Hr1 Ed) as [Hr2 _]. destruct res2; by injection H1 as <- <- <- _.
Qed.

Lemma route_running store store' snap g now input snap' g' res :
  kept store snap (Some g) -> route rc pc store snap g now input = (store', (snap', g'), res) -> kept store' snap' (Some g').
Proof.
  intros Hr H1. unfold route in H1.
  destruct (payload_decode (in_plaintext input)) as [[c|control|b|a|w]|] eqn:Ep.
  - destruct (gs_view g) as [v|] eqn:Ev; [|by eapply refuse_running].
    destruct (gs_receiver g) as [r|] eqn:Er; [|by eapply refuse_running].
    destruct (commit_group_payload_with_deferred _ _ _ _ _ _ _ _ _) as [st y] eqn:E.
    pose proof (payload_commit_running _ _ _ _ _ _ _ _ Hr Ev Er E) as Hr1.
    destruct y as [[s1 [p1 d]]|e]; [|by injection H1 as <- <- <- _]. destruct d; by injection H1 as <- <- <- _.
  - destruct (gs_view g) as [v|] eqn:Ev; [destruct (gs_receiver g) as [r|] eqn:Er; [by eapply route_roster_running|]|].
    all: destruct (negb _); [by eapply refuse_running|].
    all: destruct (commit_hold_roster_without_view _ _ _ _ _ _ _ _) as [st y] eqn:E;
      apply (hold_kept (rc := rc) (pc := pc)) in E; [|done|by eapply payload_roster].
    all: destruct y as [[s1 q1]|[]]; [by injection H1 as <- <- <- _| |by injection H1 as <- <- <- _].
    all: by eapply refuse_running; [|exact H1].
  - destruct (negb _); [by eapply refuse_running|].
    destruct (commit_group_invitation_bootstrap _ _ _ _ _ _ _ _) as [[st [s1 b1]] res1] eqn:E.
    eapply invitation_outcome_running; [|exact H1]. by eapply bootstrap_running.
  - destruct (commit_group_invitation_acceptance _ _ _ _ _ _) as [[st [s1 b1]] res1] eqn:E.
    eapply invitation_outcome_running; [|exact H1]. by eapply acceptance_running.
  - destruct (commit_group_invitation_revocation _ _ _ _ _ _ _ _) as [[st [s1 b1]] res1] eqn:E.
    eapply invitation_outcome_running; [|exact H1]. by eapply revoked_running.
  - by eapply refuse_running.
Qed.

(** ** The coordinator *)
(** A coordinator that has not failed: what it works from is durable, unless a
    commit has just latched its handle. *)
Definition coord_ok (c : @Coord (DurableStore St)) : Prop :=
  kept (co_store c) (co_snap c) (co_group c) /\ u64_wf (co_handed_over c).

Lemma route_item_ok c now input c' r :
  coord_ok c -> route_item rc pc c now input = (c', r) -> coord_ok c'.
Proof.
  intros [Hc Hh] H1. unfold route_item in H1.
  destruct (refuse pc (co_store c) (co_snap c) (co_group c) input) as [[st [s1 og]] r1] eqn:Ef.
  apply (refuse_kept _ _ _ (co_group c)) in Ef as [-> Hf]; [|done].
  destruct (payload_decode _); [|by injection H1 as <- <-].
  destruct (co_group c) as [g|] eqn:Eg; [|by injection H1 as <- <-].
  destruct (route _ _ _ _ _ _ _) as [[st2 [s2 g2]] r2] eqn:Er. injection H1 as <- <-. split; [|done].
  by eapply route_running; [exact Hc|exact Er].
Qed.

Lemma commit_item_ok c now item c' r :
  coord_ok c -> commit_item rc pc c now item = (c', r) -> coord_ok c'.
Proof.
  intros [Hc Hh] H1. unfold commit_item in H1.
  assert (forall p x, commit_malformed_group_payload pc (co_store c) (co_snap c) p (si_provider_state item) (si_effect item) = x ->
    match x with
    | (store, Ok (snap, _)) => coord_ok (after_commit c store snap (co_group c))
    | (store, Err _) => coord_ok (after_commit c store (co_snap c) (co_group c))
    end) as Hmal.
  { intros p [st x] E. apply (malformed_kept (rc := rc) _ _ (co_group c)) in E; [|done]. by destruct x as [[s1 u]|e]. }
  destruct (si_plaintext item) as [p|].
  - destruct (negb _).
    + destruct (commit_provider_state _ _ _) as [st x] eqn:E. apply (provider_kept (rc := rc) (pc := pc) _ _ (co_group c)) in E; [|done].
      by destruct x as [[s1 u]|e]; injection H1 as <- <-.
    + destruct (si_identity item) as [i|].
      * destruct (route_item _ _ _ _ _) as [c1 r1] eqn:E. injection H1 as <- <-. by eapply route_item_ok.
      * destruct (commit_malformed_group_payload _ _ _ _ _ _) as [st x] eqn:E. apply Hmal in E.
        by destruct x as [[s1 u]|e]; injection H1 as <- <-.
  - case_bool_decide; [by injection H1 as <- <-|].
    destruct (commit_malformed_group_payload _ _ _ _ _ _) as [st x] eqn:E. apply Hmal in E.
    by destruct x as [[s1 u]|e]; injection H1 as <- <-.
Qed.

Lemma stage_all_ok messages : forall c now c' xs stopped,
  coord_ok c -> stage_all rc pc c now messages = (c', xs, stopped) -> coord_ok c'.
Proof.
  induction messages as [|m messages IH]; intros c now c' xs stopped Hc H1; cbn [stage_all] in H1; [by injection H1 as <- <- <-|].
  destruct (stage _ _ _ _ _) as [c1 r] eqn:E.
  assert (coord_ok c1) as Hc1.
  { unfold stage in E. destruct m as [item|]; [|by injection E as <- _].
    destruct (commit_item _ _ _ _ _) as [c2 r2] eqn:Ei. apply commit_item_ok in Ei; [|done].
    destruct r2; by injection E as <- _. }
  destruct r as [x|e]; [|by injection H1 as <- <- <-].
  destruct (stage_all _ _ _ _ _) as [[c2 ys] st] eqn:Es. injection H1 as <- <- <-. by eapply IH.
Qed.

Lemma acknowledge_ok c c' r : coord_ok c -> acknowledge_delivery c = (c', r) -> coord_ok c'.
Proof.
  intros [Hc Hh] H1. unfold acknowledge_delivery in H1. destruct (is_frozen c); [by injection H1 as <- _|].
  destruct (_ >? _); [|by injection H1 as <- _].
  destruct (commit_delivery_cursor _ _ _) as [st x] eqn:E. apply (cursor_kept (rc := rc) (pc := pc) _ _ (co_group c)) in E; [|done..].
  by destruct x as [[s1 u]|e]; injection H1 as <- _.
Qed.

(** What it has handed over is a number of events. *)
Lemma coord_issued_wf c : coord_ok c -> u64_wf (coord_issued c).
Proof.
  intros [(Hh & _) _]. unfold coord_issued. destruct (co_group c) as [g|]; [|by vm_compute].
  destruct Hh as [_ (old & _ & P)]. destruct (gs_receiver g) as [r|] eqn:Er; [|by vm_compute].
  destruct (po_receiver _ _ P r Er) as [_ Hs]. by destruct Hs.
Qed.

Lemma hand_over_ok c inbound issued : coord_ok c -> u64_wf issued -> coord_ok (hand_over c inbound issued).
Proof.
  intros [Hc [H1 H2]] [H3 H4]. split; [exact Hc|]. unfold hand_over. cbn [co_handed_over].
  assert (forall x, saturating_add64 x 1 <= u64_max) as Hx by (intros; unfold saturating_add64; lia).
  set (handed := match max_of _ with Some _ => _ | None => _ end).
  assert (u64_wf handed) as [? ?].
  { subst handed. destruct (max_of _) as [m|]; [|done]. specialize (Hx m). unfold u64_wf. lia. }
  destruct (_ >? _); unfold u64_wf; lia.
Qed.

Lemma client_receive_ok c c' now fetched acked r :
  coord_ok c -> client_receive rc pc c now fetched acked = (c', r) -> coord_ok c'.
Proof.
  intros Hc H1. unfold client_receive in H1. destruct (is_frozen c); [by injection H1 as <- _|].
  destruct (acknowledge_delivery c) as [c1 r1] eqn:Ea. apply acknowledge_ok in Ea; [|done].
  destruct r1; [|by injection H1 as <- _]. cbv zeta in H1. destruct fetched as [messages|]; [|by injection H1 as <- _].
  pose proof (coord_issued_wf _ Ea) as Hi.
  destruct (stage_all _ _ _ _ _) as [[c2 xs] stopped] eqn:Es. apply stage_all_ok in Es; [|done].
  destruct (_ && _) in H1; [by injection H1 as <- _|].
  destruct stopped as [[]|]; try (injection H1 as <- _; by apply hand_over_ok);
    destruct (len xs =? 0); injection H1 as <- _; try done; by apply hand_over_ok.
Qed.
End Route.

(** ** The sending side *)
Section Drive.
Context (own_identity : bytes).
Context (encrypt : list NetAction -> DeviceAddr -> bytes -> bytes -> result ErrorKind (bytes * bytes)).
Context (dispatch : list NetAction -> DeviceAddr -> bytes -> result ErrorKind unit).
Context {St : Type} {ops : OperationStore St} {fenced : FencedStore St}.
Context (Hrc : forall x, len (rc x) = DIGEST_LEN) (Hpc : forall x, len (pc x) = DIGEST_LEN).
(** A ciphertext is within the lengths the records can carry. *)
Context (Hencrypt : forall log to id p c st, encrypt log to id p = Ok (c, st) -> len c <= u32_max).
Implicit Types (l : @Live (DurableStore St)).

(** *** What was committed, and what reached the wire *)
Definition commit_step (st st' : DurableStore St) : Prop := exists c o, store_commit st c = (st', o).

(** [snap] is the snapshot of the start, or was committed since. *)
Definition saved (st0 : DurableStore St) snap0 (st : DurableStore St) snap : Prop :=
  rtc commit_step st0 st /\
  (snap = snap0 \/ exists a b, rtc commit_step st0 a /\ store_commit a snap = (b, Committed) /\ rtc commit_step b st).

Definition publishes {A} (st : DurableStore St) snap (p : DurableStore St * result GroupOperationError (OperationSnapshot * A)) : Prop :=
  rtc commit_step st p.1 /\ forall snap' x, p.2 = Ok (snap', x) -> saved st snap p.1 snap'.

Lemma publish_publishes {A} (st : DurableStore St) snap (r : result GroupOperationError (OperationSnapshot * A)) : publishes st snap (publish st r).
Proof.
  unfold publish. destruct r as [[c a]|e]; [|by split]. destruct (store_commit st c) as [st' o] eqn:E.
  assert (rtc commit_step st st') as Hst by (apply rtc_once; by exists c, o). split; [done|]. intros snap' x Hx. cbn in *.
  case_bool_decide as Ho; [|done]. injection Hx as <- <-. subst o. split; [done|]. right. by exists st, st'.
Qed.

Lemma unchanged_publishes {A} (st : DurableStore St) snap (r : result GroupOperationError (OperationSnapshot * A)) :
  (forall snap' x, r = Ok (snap', x) -> snap' = snap) -> publishes st snap (st, r).
Proof. intros Hr. split; [done|]. intros snap' x Hx. split; [done|]. left. by eapply Hr. Qed.

Lemma saved_later st0 snap0 st st' snap : saved st0 snap0 st snap -> rtc commit_step st st' -> saved st0 snap0 st' snap.
Proof. intros [H1 H2] Hs. split; [by etrans|]. destruct H2 as [->|(a & b & Ha & Hb & Hc)]; [by left|]. right. exists a, b. split_and!; [done|done|by etrans]. Qed.

Lemma saved_commit {A} st0 snap0 st snap st' snap' (x : A) :
  saved st0 snap0 st snap -> publishes st snap (st', Ok (snap', x)) -> saved st0 snap0 st' snap'.
Proof.
  intros Hs [Hrun Hp]. destruct (Hp snap' x eq_refl) as [_ [->|(a & b & Ha & Hb & Hc)]]; [by eapply saved_later|].
  destruct Hs as [H0 _]. split; [by etrans|]. right. exists a, b. split_and!; [by etrans|done|done].
Qed.

(** The ciphertexts a group state holds for a member. *)
Definition hands (g : GroupState) (m : Member) (c : bytes) : Prop :=
  (exists s p, s ∈ sends (gs_outbox g) /\ p ∈ recipients s /\ p_recipient p = m /\ ciphertext p = Some c) \/
  (exists h, h ∈ handoffs (gs_control g) /\ h_recipient h = m /\ h_ciphertext h = c).

(** From the store, the snapshot and the log a call starts with. *)
Section Live.
Context (st0 : DurableStore St) (snap0 : OperationSnapshot) (log0 : list NetAction).

(** A dispatch of what a snapshot that was committed before it holds for the
    member whose device it goes to. *)
Definition wired (st : DurableStore St) (to : DeviceAddr) (c : bytes) : Prop :=
  exists snap g m, saved st0 snap0 st snap /\ running snap g /\ hands g m c /\ route_is_members_device m to = true.

(** The sends of a group ask for nothing else. *)
Definition sent_ok (st : DurableStore St) (a : NetAction) : Prop :=
  match a with
  | AEncrypt _ _ _ => True
  | ADispatch to c => wired st to c
  | APrepareDirect _ _ | ADispatchDirect _ _ => False
  end.

Definition log_ok (st : DurableStore St) (log : list NetAction) : Prop :=
  exists acts, log = log0 ++ acts /\ Forall (sent_ok st) acts.

Definition live_ok l (g : GroupState) : Prop :=
  kept (lv_store l) (lv_snap l) (Some g) /\ saved st0 snap0 (lv_store l) (lv_snap l) /\ log_ok (lv_store l) (lv_log l).

Lemma log_later st st' log : log_ok st log -> rtc commit_step st st' -> log_ok st' log.
Proof.
  intros (acts & -> & Ha) Hs. exists acts. split; [done|]. eapply Forall_impl; [exact Ha|]. intros [| to c| |]; cbn; try done.
  intros (snap & g & m & H1 & H2). exists snap, g, m. split; [by eapply saved_later|done].
Qed.

Lemma log_more st log a : log_ok st log -> sent_ok st a -> log_ok st (log ++ [a]).
Proof.
  intros (acts & -> & Ha) Hs. exists (acts ++ [a]). split; [by rewrite app_assoc|]. apply Forall_app. split; [done|by constructor].
Qed.

Lemma live_encrypt l g to i p : live_ok l g -> live_ok (mkLive (lv_store l) (lv_snap l) (lv_log l ++ [AEncrypt to i p])) g.
Proof. intros (H1 & H2 & H3). exact (conj H1 (conj H2 (log_more _ _ (AEncrypt to i p) H3 I))). Qed.

Lemma live_dispatch l g to c :
  live_ok l g -> wired (lv_store l) to c -> live_ok (mkLive (lv_store l) (lv_snap l) (lv_log l ++ [ADispatch to c])) g.
Proof. intros (H1 & H2 & H3) Hw. exact (conj H1 (conj H2 (log_more _ _ (ADispatch to c) H3 Hw))). Qed.

Lemma commit_live {A} l g (r0 : DurableStore St * result GroupOperationError (OperationSnapshot * A)) :
  live_ok l g -> publishes (lv_store l) (lv_snap l) r0 ->
  match r0 with
  | (store, Ok (snap, _)) => forall g', kept store snap (Some g') -> live_ok (mkLive store snap (lv_log l)) g'
  | (store, Err _) => kept store (lv_snap l) (Some g) -> live_ok (mkLive store (lv_snap l) (lv_log l)) g
  end.
Proof.
  intros (H1 & H2 & H3) Hp. destruct r0 as [store [[snap a]|e]].
  - intros g' Hg. split_and!; [done|by eapply saved_commit|]. cbn. eapply log_later; [done|apply Hp].
  - intros Hg. split_and!; [done|eapply saved_later; [done|apply Hp]|]. cbn. eapply log_later; [done|apply Hp].
Qed.

(** What a commit of the part [x] of the state keeps. *)
Definition commit_keeps {X A} (state : X -> GroupState) snap (x : X)
    (d' : DurableStore St) (res : result GroupOperationError (OperationSnapshot * (X * A))) : Prop :=
  match res with Ok (c, (y, _)) => kept d' c (Some (state y)) | Err _ => kept d' snap (Some (state x)) end.

Lemma run_commit_live {X A} (state : X -> GroupState) l (x : X) (r0 : DurableStore St * result GroupOperationError (OperationSnapshot * (X * A))) l' x' r :
  live_ok l (state x) -> publishes (lv_store l) (lv_snap l) r0 ->
  (forall d' res, r0 = (d', res) -> commit_keeps state (lv_snap l) x d' res) ->
  run_commit l x r0 = (l', x', r) -> live_ok l' (state x').
Proof.
  intros Hl Hp Hr Hc. pose proof (commit_live _ _ _ Hl Hp) as Hcl. unfold run_commit in Hc.
  destruct r0 as [store res]. specialize (Hr _ _ eq_refl). destruct res as [[snap [x1 a]]|e]; injection Hc as <- <- <-; by apply Hcl.
Qed.

(** Sequences are left for [k] more handoffs. *)
Definition control_room (k : Z) (o : ControlOutbox) : Prop := exists n, control_inv pc n o /\ n + k <= u64_max.

Lemma control_room_le k k' o : k' <= k -> control_room k o -> control_room k' o.
Proof. intros Hle (n & Hn & Hk). exists n. split; [done|lia]. Qed.

Lemma prepare_room k o m p c o' u :
  0 <= k -> control_room (k + 1) o -> prepare_ok m p c -> control_record_prepared pc o m p c = Ok (o', u) -> control_room k o'.
Proof.
  intros H0 (n & Hn & Hk) Hp Hc. destruct u. destruct (prepare_inv pc n o m p c o' Hn ltac:(lia) Hp Hc) as [Hi|Hi].
  - exists n. split; [done|lia].
  - exists (n + 1). split; [done|lia].
Qed.

Lemma room_left k o : 0 <= k -> control_room (k + 1) o -> sequence_left o.
Proof.
  intros H0 (n & Hn & Hk). destruct (next_sequence_n pc n o Hn ltac:(lia)) as [_ He]. unfold sequence_left. rewrite He. lia.
Qed.

(** What the control drivers keep: the running state with this outbox. *)
Definition ctl_ok (k : Z) (g : GroupState) (l : @Live (DurableStore St)) (o : ControlOutbox) : Prop :=
  live_ok l (set_control g o) /\ control_room k o.

Lemma set_control_twice g o o' : set_control (set_control g o) o' = set_control g o'.
Proof. done. Qed.

Lemma payload_len p bs : payload_encode p = Ok bs -> len bs <= u32_max.
Proof.
  unfold payload_encode. intros Hp. destruct (payload_value p) as [[tag v]|]; [|done]. cbn [mbind result_bind] in Hp.
  destruct (ok_or Malformed _) as [n|]; [|done]. cbn [mbind result_bind] in Hp. destruct (_ >? _) eqn:E in Hp; [done|].
  apply Ok_inj in Hp as <-. bool_prop. assert (MAX_GROUP_PAYLOAD_LEN <= u32_max) by (by vm_compute). lia.
Qed.

Lemma handoff_commit_ok k g l o m p c st l' o' r :
  0 <= k -> ctl_ok (k + 1) g l o -> prepare_ok m p c ->
  run_commit l o (commit_prepared_control_handoff pc (lv_store l) (lv_snap l) o m p c st) = (l', o', r) -> ctl_ok k g l' o'.
Proof.
  intros H0 [Hr Hk] Hp Hc. split.
  - eapply (run_commit_live (set_control g)); [exact Hr|apply publish_publishes| |exact Hc]. intros d' res E.
    exact (prepared_kept _ _ (set_control g o) _ _ _ _ _ _ (proj1 Hr) (room_left _ _ H0 Hk) Hp E).
  - unfold run_commit in Hc. destruct (commit_prepared_control_handoff _ _ _ _ _ _ _ _) as [store [[snap [o1 h]]|e]] eqn:E;
      injection Hc as <- <- <-; [|eapply control_room_le; [|exact Hk]; lia].
    apply publish_Ok in E. destruct (control_record_prepared pc o m p c) as [[o2 u]|] eqn:Er; [|done].
    apply (prepare_room k) in Er; [|done..]. cbn [map_err mbind result_bind] in E. by inv_bind.
Qed.

Lemma prepare_control_handoff_ok k g l o m route p l' o' r :
  0 <= k -> ctl_ok (k + 1) g l o -> member_ok m -> len p <= u32_max ->
  prepare_control_handoff pc encrypt l o m route p = (l', o', r) -> ctl_ok k g l' o'.
Proof.
  intros H0 Hi Hm Hp Hc. unfold prepare_control_handoff in Hc.
  assert (ctl_ok k g l o) as Hi' by (destruct Hi; split; [done|eapply control_room_le; [|done]; lia]).
  destruct (store_is_frozen _); [by injection Hc as <- <- <-|].
  destruct (live_handoff _ _ _ _); [by injection Hc as <- <- <-|].
  destruct (snd _) as [x|e]; [|by injection Hc as <- <- <-]. unfold ask_encrypt in Hc.
  destruct (encrypt _ _ _ _) as [[c st]|e] eqn:Ee.
  2: { injection Hc as <- <- <-. destruct Hi' as [Hr Hk]. split; [by apply live_encrypt|done]. }
  eapply handoff_commit_ok; [done| | |exact Hc]; [destruct Hi as [Hr Hk]; split; [by apply live_encrypt|done]|]. split_and!; [done|done|by eapply Hencrypt].
Qed.

Lemma control_commit_ok {A} k g l o (transition : ControlOutbox -> result Error (ControlOutbox * A)) l' o' r :
  (forall n o1 x, control_inv pc n o -> transition o = Ok (o1, x) -> control_inv pc n o1) -> ctl_ok k g l o ->
  run_commit l o (commit_group_control_outbox_transition pc (lv_store l) (lv_snap l) o transition) = (l', o', r) ->
  ctl_ok k g l' o'.
Proof.
  intros Ht [Hr (n & Hn & Hk)] Hc. split.
  - eapply (run_commit_live (set_control g)); [exact Hr|apply publish_publishes| |exact Hc]. intros d' res E.
    eapply (control_kept _ _ (set_control g o)); [exact (proj1 Hr)| |exact E].
    cbn. intros o2 y Hy. exists n. by eapply Ht.
  - unfold run_commit in Hc. destruct (commit_group_control_outbox_transition _ _ _ _ _) as [store [[snap [o1 x]]|e]] eqn:E;
      injection Hc as <- <- <-; exists n; [|done]. split; [|done].
    apply publish_Ok in E. destruct (transition o) as [[o2 y]|] eqn:Et; [|done].
    cbn [map_err mbind result_bind] in E. inv_bind. by eapply Ht.
Qed.

(** A reservation hands out a ciphertext the outbox held for the member. *)
Lemma reserve_holds o m p o1 h :
  control_reserve pc o m p = Ok (o1, h) -> exists k, k ∈ handoffs o /\ h_recipient k = m /\ h_ciphertext k = h_ciphertext h.
Proof.
  unfold control_reserve. destruct (find_handoff pc o m p) as [[i k]|] eqn:Ef; [|done]. cbn [ok_or mbind result_bind].
  apply find_handoff_Some in Ef as (Hl & Hm & _). intros Hr. exists k. split; [by eapply list_elem_of_lookup_2|].
  destruct (h_disposition k); by inv_bind.
Qed.

Lemma reserved_wired k g l o m p to l1 o1 h :
  ctl_ok k g l o -> route_is_members_device m to = true ->
  run_commit l o (commit_group_control_outbox_transition pc (lv_store l) (lv_snap l) o
    (fun candidate => control_reserve pc candidate m p)) = (l1, o1, Ok h) ->
  wired (lv_store l1) to (h_ciphertext h).
Proof.
  intros [(Hr & Hs & _) _] Hto Hc. unfold run_commit in Hc.
  destruct (commit_group_control_outbox_transition _ _ _ _ _) as [store [[snap [o2 x]]|e]] eqn:E; [|done].
  injection Hc as <- <- <-.
  exists (lv_snap l), (set_control g o), m. split_and!; [|exact (proj1 Hr)| |exact Hto].
  - eapply saved_later; [exact Hs|]. unfold commit_group_control_outbox_transition in E.
    match type of E with publish _ ?r = _ => pose proof (publish_publishes (lv_store l) (lv_snap l) r) as [Hrun _]; rewrite E in Hrun end.
    exact Hrun.
  - right. apply publish_Ok in E. destruct (control_reserve pc o m p) as [[o3 y]|] eqn:Er; [|done].
    cbn [map_err mbind result_bind] in E. inv_bind. by apply reserve_holds in Er.
Qed.

Lemma dispatch_control_ok k g l o m p route l' o' r :
  ctl_ok k g l o -> route_is_members_device m route = true ->
  dispatch_outbound_roster_control pc dispatch l o m p route = (l', o', r) -> ctl_ok k g l' o'.
Proof.
  intros Hi Hto Hc. unfold dispatch_outbound_roster_control in Hc.
  destruct (run_commit l o _) as [[l1 o1] r1] eqn:E1.
  pose proof (fun h => reserved_wired k g l o m p route l1 o1 h Hi Hto) as Hw.
  pose proof E1 as E1'. apply (control_commit_ok k g) in E1; [|intros n o2 x; apply reserve_inv|done].
  destruct r1 as [h|e]; [|by injection Hc as <- <- <-]. specialize (Hw h E1'). unfold ask_dispatch in Hc.
  assert (ctl_ok k g (mkLive (lv_store l1) (lv_snap l1) (lv_log l1 ++ [ADispatch route (h_ciphertext h)])) o1) as Hi1
    by (destruct E1 as [Hr Hk]; split; [by apply live_dispatch|done]).
  destruct (dispatch _ _ _) as [u|e]; [|by injection Hc as <- <- <-].
  destruct (run_commit _ o1 _) as [[l2 o2] r2] eqn:E2.
  apply (control_commit_ok k g) in E2; [|intros n o3 [] ; apply accept_inv|exact Hi1].
  destruct r2; by injection Hc as <- <- <-.
Qed.

Lemma invitation_control_ok k g l o m route p l' o' r :
  0 <= k -> ctl_ok (k + 1) g l o -> member_ok m ->
  prepare_outbound_invitation_control pc encrypt l o m route p = (l', o', r) -> ctl_ok k g l' o'.
Proof.
  intros H0 Hi Hm Hc. unfold prepare_outbound_invitation_control in Hc.
  assert (ctl_ok k g l o) as Hi' by (destruct Hi; split; [done|eapply control_room_le; [|done]; lia]).
  destruct (negb _); [by injection Hc as <- <- <-|]. destruct (payload_encode p) as [bs|] eqn:Ep; [|by injection Hc as <- <- <-].
  eapply prepare_control_handoff_ok; [done|exact Hi|done|by eapply payload_len|exact Hc].
Qed.

Lemma roster_control_ok k g l o m route v l' o' r :
  0 <= k -> ctl_ok (k + 1) g l o -> member_ok m ->
  prepare_outbound_roster_control pc encrypt l o m route v = (l', o', r) -> ctl_ok k g l' o'.
Proof.
  intros H0 Hi Hm Hc. unfold prepare_outbound_roster_control in Hc.
  assert (ctl_ok k g l o) as Hi' by (destruct Hi; split; [done|eapply control_room_le; [|done]; lia]).
  destruct (payload_encode _) as [bs|] eqn:Ep; [|by injection Hc as <- <- <-].
  eapply prepare_control_handoff_ok; [done|exact Hi|done|by eapply payload_len|exact Hc].
Qed.

Lemma revocation_ok k g l b o now auth m route id l' b' o' r :
  0 <= k -> ctl_ok (k + 1) (with_book g b) l o -> member_ok m ->
  prepare_authority_invitation_revocation pc own_identity encrypt l b o now auth m route id = (l', (b', o'), r) ->
  ctl_ok k (with_book g b') l' o'.
Proof.
  intros H0 Hi Hm Hc. unfold prepare_authority_invitation_revocation in Hc.
  assert (forall g l o, ctl_ok (k + 1) g l o -> ctl_ok k g l o) as Hw
    by (intros ? ? ? []; split; [done|eapply control_room_le; [|done]; lia]).
  destruct (negb _); [injection Hc as <- <- <- <-; by apply Hw|].
  destruct (run_commit l (b, o) _) as [[l1 [b1 o1]] r1] eqn:E1.
  assert (ctl_ok (k + 1) (with_book g b1) l1 o1) as Hi1.
  { destruct Hi as [Hr (n & Hn & Hk)]. split.
    - eapply (run_commit_live (fun x => set_control (with_book g x.1) x.2) l (b, o) _ l1 (b1, o1)); [exact Hr| | |exact E1];
        [apply publish_publishes|]. intros d' res E. exact (revocation_kept _ _ (set_control (with_book g b) o) _ _ _ _ _ (proj1 Hr) E).
    - unfold run_commit in E1.
      destruct (commit_authority_invitation_revocation_transition _ _ _ _ _ _ _ _) as [store [[snap [[b2 o2] i]]|e]] eqn:E;
        injection E1 as <- <- <- <-; exists n; [|done]. split; [|done].
      apply publish_Ok in E. destruct (book_revoke _ _ _ _ _) as [b3 [x|]]; [|done].
      cbn [map_err mbind result_bind] in E. inv_bind. by apply cancel_inv. }
  destruct r1 as [i|e]; [|injection Hc as <- <- <- <-; by apply Hw].
  destruct (negb _); [injection Hc as <- <- <- <-; by apply Hw|].
  destruct (revocation_new _ _ _ _) as [v|]; [|injection Hc as <- <- <- <-; by apply Hw].
  destruct (payload_encode _) as [bs|]; [|injection Hc as <- <- <- <-; by apply Hw].
  destruct (control_handoff _ _ _ _); [injection Hc as <- <- <- <-; by apply Hw|].
  destruct (prepare_outbound_invitation_control _ _ _ _ _ _ _) as [[l2 o2] r2] eqn:E2. injection Hc as <- <- <- <-.
  by eapply invitation_control_ok.
Qed.

(** *** Sends *)
Definition send_ok (g : GroupState) (l : @Live (DurableStore St)) (o : GroupOutbox) : Prop := live_ok l (set_outbox g o).

Lemma send_commit_ok {A} g l o (r0 : DurableStore St * result GroupOperationError (OperationSnapshot * (GroupOutbox * A))) l' o' r :
  send_ok g l o -> publishes (lv_store l) (lv_snap l) r0 ->
  (forall d' res, r0 = (d', res) -> commit_keeps (set_outbox g) (lv_snap l) o d' res) ->
  run_commit l o r0 = (l', o', r) -> send_ok g l' o'.
Proof. apply (run_commit_live (set_outbox g)). Qed.

Lemma prepare_recipient_ok g l o id m route l' o' r :
  send_ok g l o -> prepare_outbox_group_recipient pc encrypt l o id m route = (l', o', r) -> send_ok g l' o'.
Proof.
  intros Hr Hc. unfold prepare_outbox_group_recipient in Hc. destruct (store_is_frozen _); [by injection Hc as <- <- <-|].
  destruct (_ ≫= _) as [[app p]|]; [|by injection Hc as <- <- <-].
  destruct (disposition p); try (by injection Hc as <- <- <-).
  destruct (payload_encode _) as [bs|]; [|by injection Hc as <- <- <-].
  destruct (snd _); [|by injection Hc as <- <- <-]. unfold ask_encrypt in Hc.
  destruct (encrypt _ _ _ _) as [[c st]|e]; [|injection Hc as <- <- <-; by apply live_encrypt].
  eapply (send_commit_ok g); [| | |exact Hc]; [by apply live_encrypt|apply publish_publishes|]. intros d' res E.
  exact (ciphertext_kept _ _ (set_outbox g o) _ _ _ _ _ _ Hpc (proj1 Hr) E).
Qed.

(** A reservation hands out a ciphertext the outbox held for the member. *)
Lemma handoff_holds (store store' : DurableStore St) snap o id m snap' o1 p :
  commit_outbox_handoff_reservation pc store snap o id m = (store', Ok (snap', (o1, p))) ->
  exists s q, s ∈ sends o /\ q ∈ recipients s /\ p_recipient q = m /\ ciphertext q = ciphertext p.
Proof.
  intros E. apply publish_Ok in E. destruct (candidate_progress _ _ _ _) as [[[o2 q] ctx]|] eqn:Ec; [|done].
  cbn [mbind result_bind] in E. inv_bind. unfold candidate_progress in Ec. inv_bind.
  match goal with H : send_mut _ _ _ = Ok _ |- _ => apply send_mut_Ok in H as (k & s & s' & Hat & Hop & _) end.
  unfold send_at in Hat. apply list_find_Some in Hat as (Hs & _ & _).
  apply on_progress_Ok in Hop as (j & q0 & q' & Hq & Hb). unfold progress_at in Hq. apply list_find_Some in Hq as (Hj & Hm & _).
  exists s, q0. split_and!; [by eapply list_elem_of_lookup_2|by eapply list_elem_of_lookup_2|done|].
  unfold compacted in E. inv_bind. unfold handoff_one in Hb. cbv zeta in Hb. repeat case_match; by simplify_eq.
Qed.

Lemma dispatch_recipient_ok g l o id m route l' o' r :
  send_ok g l o -> route_is_members_device m route = true ->
  dispatch_outbox_group_handoff pc dispatch l o id m route = (l', o', r) -> send_ok g l' o'.
Proof.
  intros Hr Hto Hc. unfold dispatch_outbox_group_handoff in Hc.
  destruct (run_commit l o _) as [[l1 o1] r1] eqn:E1. pose proof E1 as E1'.
  apply (send_commit_ok g) in E1; [|done|apply publish_publishes|intros d' res E; exact (reservation_kept _ _ (set_outbox g o) _ _ _ _ Hpc (proj1 Hr) E)].
  destruct r1 as [p|e]; [|by injection Hc as <- <- <-]. destruct (ciphertext p) as [c|] eqn:Ep; [|by injection Hc as <- <- <-].
  assert (send_ok g (mkLive (lv_store l1) (lv_snap l1) (lv_log l1 ++ [ADispatch route c])) o1) as Hi1.
  { apply live_dispatch; [done|]. unfold run_commit in E1'. destruct Hr as (Hr & Hs & _).
    destruct (commit_outbox_handoff_reservation _ _ _ _ _ _) as [store [[snap [o2 q]]|e]] eqn:E; [|done].
    injection E1' as <- <- ->. exists (lv_snap l), (set_outbox g o), m. split_and!; [|exact (proj1 Hr)| |exact Hto].
    - eapply saved_later; [exact Hs|]. unfold commit_outbox_handoff_reservation in E.
      match type of E with publish _ ?r = _ => pose proof (publish_publishes (lv_store l) (lv_snap l) r) as [Hrun _]; rewrite E in Hrun end.
      exact Hrun.
    - left. apply handoff_holds in E. rewrite Ep in E. exact E. }
  unfold ask_dispatch in Hc. destruct (dispatch _ _ _) as [u|e]; [|by injection Hc as <- <- <-].
  eapply (send_commit_ok g); [| | |exact Hc]; [exact Hi1|apply publish_publishes|]. intros d' res E2.
  exact (accepted_kept _ _ (set_outbox g o1) _ _ _ _ Hpc (proj1 Hi1) E2).
Qed.

(** The routes of a batch go to the devices of its members. *)
Definition routes_ok (routes : list Route) : Prop := Forall (fun x => route_is_members_device x.1 x.2 = true) routes.

Lemma check_routes_ok routes u : check_routes routes = Ok u -> routes_ok routes.
Proof. unfold check_routes. destruct (forallb _ _) eqn:E; [|done]. intros _. by apply forallb_Forall in E. Qed.

Lemma route_of_ok routes m route : routes_ok routes -> route_of routes m = Some route -> route_is_members_device m route = true.
Proof.
  intros Hok Hr. unfold route_of in Hr. destruct (list_find _ _) as [[i [m' r']]|] eqn:E; [|done]. cbn in Hr. injection Hr as ->.
  apply list_find_Some in E as (Hi & Hm & _). cbn in Hm. subst m'. unfold routes_ok in Hok. rewrite Forall_lookup in Hok.
  exact (Hok _ _ Hi).
Qed.

Lemma drive_recipients_ok g id routes ms : routes_ok routes -> forall l o l' o' r,
  send_ok g l o -> drive_recipients pc encrypt dispatch l o id routes ms = (l', o', r) -> send_ok g l' o'.
Proof.
  intros Hok. induction ms as [|m ms IH]; intros l o l' o' r Hr Hc; cbn [drive_recipients] in Hc; [by injection Hc as <- <- <-|].
  destruct (drive_recipient _ _ _ _ _ _ _ _) as [[l1 o1] stop] eqn:E.
  assert (send_ok g l1 o1) as Hr1.
  { unfold drive_recipient in E. destruct (route_of routes m) as [route|] eqn:Ert; [|by injection E as <- <- <-]. apply route_of_ok in Ert; [|done].
    destruct (prepare_outbox_group_recipient _ _ _ _ _ _ _) as [[l2 o2] r2] eqn:E2. apply (prepare_recipient_ok g) in E2; [|done].
    destruct r2 as [p|[]]; try (by injection E as <- <- <-).
    destruct (dispatch_outbox_group_handoff _ _ _ _ _ _ _) as [[l3 o3] r3] eqn:E3. apply (dispatch_recipient_ok g) in E3; [|done..].
    by destruct r3 as [|[]]; injection E as <- <- <-. }
  destruct stop; [by injection Hc as <- <- <-|by eapply IH].
Qed.

Lemma drive_send_ok g l o id routes l' o' r :
  send_ok g l o -> routes_ok routes -> drive_send pc encrypt dispatch l o id routes = (l', o', r) -> send_ok g l' o'.
Proof.
  intros Hr Hok Hc. unfold drive_send in Hc. destruct (outbox_send o id); [|by injection Hc as <- <- <-]. by eapply drive_recipients_ok.
Qed.

Lemma drive_pending_ok g routes pending : routes_ok routes -> forall l o l' o' r,
  send_ok g l o -> drive_pending pc encrypt dispatch l o routes pending = (l', o', r) -> send_ok g l' o'.
Proof.
  intros Hok. induction pending as [|id pending IH]; intros l o l' o' r Hr Hc; cbn [drive_pending] in Hc; [by injection Hc as <- <- <-|].
  destruct (drive_send _ _ _ _ _ _ _) as [[l1 o1] r1] eqn:E. apply (drive_send_ok g) in E; [|done..].
  destruct r1; [by eapply IH|by injection Hc as <- <- <-].
Qed.

(** *** Installing a roster *)
Definition install_ok (k : Z) (g : GroupState) (l : @Live (DurableStore St)) (a : AuthorityControlState) : Prop :=
  live_ok l (put_authority g a) /\ control_room k (ac_outbox a).

Lemma install_ctl k g l a o : install_ok k g l (set_ac_outbox a o) <-> ctl_ok k (put_authority g a) l o.
Proof. done. Qed.

Lemma install_self k g l a : install_ok k g l a <-> ctl_ok k (put_authority g a) l (ac_outbox a).
Proof. done. Qed.

Lemma authority_drawn k g l a admission p c m payload st :
  0 <= k -> install_ok (k + 1) g l a -> prepare_ok m payload c ->
  drawn_from (put_authority g a) (authority_state a admission (st, p) (mkPrepared m payload c)).
Proof.
  intros H0 [_ Hk] Hp. split; cbn; try done; [by right|by right|by left|].
  intros q [= <-]. cbn. split; [done|by eapply room_left].
Qed.

Lemma authority_prepare_ok k g l a admission now auth m route successor l' a' r :
  0 <= k -> install_ok (k + 1) g l a -> member_ok m -> roster_wf successor ->
  prepare_authority_roster_control rc pc own_identity encrypt l a admission now auth m route successor = (l', a', r) ->
  install_ok k g l' a'.
Proof.
  intros H0 Hi Hm Hwf Hc. unfold prepare_authority_roster_control in Hc.
  assert (install_ok k g l a) as Hi' by (destruct Hi; split; [done|eapply control_room_le; [|done]; lia]).
  destruct (authority_refuses _ _ _ _ _ _ _ _ _ _); [by injection Hc as <- <- <-|].
  destruct (payload_encode _) as [payload|] eqn:Ep; [|by injection Hc as <- <- <-]. unfold ask_encrypt in Hc.
  destruct (encrypt _ _ _ _) as [[c st]|e] eqn:Ee.
  2: { injection Hc as <- <- <-. destruct Hi' as [Hr Hk]. split; [by apply live_encrypt|done]. }
  cbn [lv_store lv_snap lv_log] in Hc.
  match type of Hc with match ?r0 with _ => _ end = _ =>
    assert (publishes (lv_store l) (lv_snap l) r0) as Hpub by apply publish_publishes end.
  pose proof (live_encrypt _ _ route (m_identity m) payload (proj1 Hi)) as Hle.
  apply (commit_live _ _ _ Hle) in Hpub. cbn [lv_log] in Hpub.
  assert (prepare_ok m payload c) as Hp by (split_and!; [done|by eapply payload_len|by eapply Hencrypt]).
  pose proof (authority_drawn k g l a admission EAdvanced c m payload st H0 Hi Hp) as Hd.
  destruct (commit_roster_transition _ _ _ _ _ _ _ _) as [store res] eqn:E. pose proof E as Er.
  eapply (roster_kept _ _ (put_authority g a)) in Er; [|done|done|exact (proj1 Hle)|exact Hd|exact Hwf|by intros dc Hdc].
  destruct res as [[snap [[s sends] commit]]|e]; injection Hc as <- <- <-; [|split; [by apply Hpub|apply Hi']].
  destruct Hi as [Hr Hk].
  apply transition_control in E as [(d & q & E) Hdef]. specialize (Hdef eq_refl). cbn [authority_state rs_control_outbox rs_prepared] in E. split.
  - pose proof (proj1 Er) as [_ (old & _ & P)]. destruct (proj1 (po_both _ _ P)) as [r1 Hr1]; [cbn; eauto|]. cbn in Hr1.
    apply Hpub. unfold commit_parts in Er. rewrite Hr1 in Er. unfold put_authority, authority_written. cbn. rewrite Hr1. cbn.
    rewrite Hdef in Er. exact Er.
  - apply prepared_spec in E as [(_ & _ & ?)|(x & o1 & o2 & u & stt & rr & [= <-] & [= <-] & Ho & Hrp & _)]; [done|].
    unfold authority_written. cbn. rewrite Ho. eapply prepare_room; [done|exact Hk|exact Hp|exact Hrp].
Qed.

Lemma prepare_install_ok k g x auth m route successor now x' r :
  0 <= k -> install_ok (k + 1) g (is_live x) (is_state x) -> member_ok m -> roster_wf successor ->
  prepare_install rc pc own_identity encrypt x auth m route successor now = (x', r) -> install_ok k g (is_live x') (is_state x').
Proof.
  intros H0 Hi Hm Hwf Hc. unfold prepare_install in Hc. cbv zeta in Hc. destruct (is_installed x).
  - destruct (prepare_installed_roster_control _ _ _ _ _ _ _ _ _ _ _ _) as [[l o] r1] eqn:E. injection Hc as <- <-. cbn.
    apply install_ctl. unfold prepare_installed_roster_control in E. apply install_self in Hi.
    destruct (_ || _) in E.
    + injection E as <- <- <-. destruct Hi as [Hr Hk]. split; [exact Hr|]. eapply control_room_le; [|exact Hk]. lia.
    + eapply roster_control_ok; [done|exact Hi|done|exact E].
  - destruct (prepare_authority_roster_control _ _ _ _ _ _ _ _ _ _ _ _) as [[l a] r1] eqn:E.
    apply (authority_prepare_ok k g) in E; [|done..]. destruct r1 as [[c h]|e]; by injection Hc as <- <-.
Qed.

Lemma install_one_ok k g x auth successor payload now rt x' r :
  0 <= k -> install_ok (k + 1) g (is_live x) (is_state x) -> member_ok rt.1 -> route_is_members_device rt.1 rt.2 = true ->
  roster_wf successor ->
  install_one rc pc own_identity encrypt dispatch x auth successor payload now rt = (x', r) ->
  install_ok k g (is_live x') (is_state x').
Proof.
  intros H0 Hi Hm Hto Hwf Hc. unfold install_one in Hc. destruct rt as [m route]. cbv zeta in Hc.
  assert (install_ok k g (is_live x) (is_state x)) as Hi' by (destruct Hi; split; [done|eapply control_room_le; [|done]; lia]).
  destruct (settled _ _ _ _ _) as [[]|]; [by injection Hc as <- <-|by injection Hc as <- <-|].
  destruct (prepare_install _ _ _ _ _ _ _ _ _ _) as [x1 r1] eqn:E1. apply (prepare_install_ok k g) in E1; [|done..].
  destruct r1 as [h|e].
  - destruct (dispatch_outbound_roster_control _ _ _ _ _ _ _) as [[l o] r2] eqn:E2.
    apply (dispatch_control_ok k (put_authority g (is_state x1))) in E2; [|by apply install_self|done].
    assert (install_ok k g l (set_ac_outbox (is_state x1) o)) as Hi2 by (by apply install_ctl).
    destruct r2 as [|[]]; by injection Hc as <- <-.
  - destruct e; [destruct (is_installed x1)| |destruct (is_installed x1)]; by injection Hc as <- <-.
Qed.

Lemma install_all_ok g auth successor payload now rs : forall k x x' r,
  0 <= k -> install_ok (k + len rs) g (is_live x) (is_state x) -> Forall (fun rt => member_ok rt.1) rs -> routes_ok rs -> roster_wf successor ->
  install_all rc pc own_identity encrypt dispatch x auth successor payload now rs = (x', r) ->
  install_ok k g (is_live x') (is_state x').
Proof.
  induction rs as [|rt rs IH]; intros k x x' r H0 Hi Hm Hok Hwf Hc; cbn [install_all] in Hc.
  - injection Hc as <- <-. rewrite len_nil, Z.add_0_r in Hi. exact Hi.
  - apply Forall_cons in Hm as [Hm Hms]. apply Forall_cons in Hok as [Hto Hok]. rewrite len_cons in Hi. pose proof (len_nonneg rs).
    destruct (install_one _ _ _ _ _ _ _ _ _ _ _) as [x1 r1] eqn:E.
    apply (install_one_ok (k + len rs) g) in E; [|lia|by replace (k + len rs + 1) with (k + (1 + len rs)) by lia|done..].
    destruct r1; [by eapply IH|]. injection Hc as <- <-. destruct E as [Hr Hk]. split; [exact Hr|].
    eapply control_room_le; [|exact Hk]. lia.
Qed.

Lemma dispatch_controls_ok k g routes hs : routes_ok routes -> forall l o n l' o' r,
  ctl_ok k g l o -> dispatch_controls pc dispatch l o routes hs n = (l', o', r) -> ctl_ok k g l' o'.
Proof.
  intros Hok. induction hs as [|h hs IH]; intros l o n l' o' r Hi Hc; cbn [dispatch_controls] in Hc; [by injection Hc as <- <- <-|].
  destruct (route_of routes (h_recipient h)) as [route|] eqn:Ert; [|by eapply IH]. apply route_of_ok in Ert; [|done].
  destruct (dispatch_outbound_roster_control _ _ _ _ _ _ _) as [[l1 o1] r1] eqn:E. apply (dispatch_control_ok k g) in E; [|done..].
  destruct r1 as [|[]]; try (by eapply IH). by injection Hc as <- <- <-.
Qed.
End Live.
End Drive.
End Parts.
Arguments control_room pc k o : clear implicits.
Arguments wired rc pc {St ops} st0 snap0 st to c.
Arguments sent_ok rc pc {St ops} st0 snap0 st a.
Arguments log_ok rc pc {St ops} st0 snap0 log0 st log.
Arguments live_ok rc pc {St ops fenced} st0 snap0 log0 l g.
Arguments ctl_ok rc pc {St ops fenced} st0 snap0 log0 k g l o.
Arguments send_ok rc pc {St ops fenced} st0 snap0 log0 g l o.
Arguments install_ok rc pc {St ops fenced} st0 snap0 log0 k g l a.
Arguments coord_ok rc pc {St ops fenced} c.
