(* ===== verification/GroupSession.v ===== *)
(** * GroupSession: every call of the coordinator
    ([tacenta-client/src/group_client.rs])

    The calls of a coordinator over its lifetime, as a step relation over a
    store that keeps the fencing promise: a commit of unknown outcome may have
    landed, a recovery and a restart adopt what the store then holds.  In every
    state they reach an attach to what is durable rebuilds the group. *)

From S2P Require Import Prelude Framing GroupCodec Invitation GroupPayload RosterView GroupReceive GroupSend GroupControl.
From S2P Require Import Persist OperationStore DeferredRosters GroupTranscript GroupRecords GroupInbound GroupClient GroupDrive.
From S2P Require Import GroupRecovery GroupTransition GroupLanding GroupCoordinator.

Section Session.
Context {rc pc : bytes -> bytes}.
Local Abbreviation running := (GroupRecovery.running rc pc).
Local Abbreviation parts_ok := (GroupRecovery.parts_ok rc pc).
Local Abbreviation control_room := (GroupCoordinator.control_room pc).
Local Abbreviation coord_ok := (GroupCoordinator.coord_ok rc pc).
Local Abbreviation kept := (GroupLanding.kept rc pc).
Local Abbreviation adoptable := (GroupLanding.adoptable rc pc).
Local Abbreviation holds_group := (GroupLanding.holds_group rc pc).
Context (own_identity : bytes).
Context (encrypt : list NetAction -> DeviceAddr -> bytes -> bytes -> result ErrorKind (bytes * bytes)).
Context (dispatch : list NetAction -> DeviceAddr -> bytes -> result ErrorKind unit).
Context (prepare : list NetAction -> DeviceAddr -> bytes -> result ErrorKind bytes).
Context (export : list NetAction -> result ErrorKind bytes).
Context (dispatch_direct : list NetAction -> DeviceAddr -> bytes -> result ErrorKind unit).
Context {St : Type} {ops : OperationStore St} {fenced : FencedStore St}.
Context (Hrc : forall x, len (rc x) = DIGEST_LEN) (Hpc : forall x, len (pc x) = DIGEST_LEN).
(** A ciphertext is within the lengths the records can carry. *)
Context (Hencrypt : forall log to id p c st, encrypt log to id p = Ok (c, st) -> len c <= u32_max).
Implicit Types (l : @Live (DurableStore St)).

(** ** Sessions *)
Implicit Types s : @Online (DurableStore St).

(** The state that runs is what an attach to its snapshot gives; what is
    durable can be adopted, and is this snapshot unless the coordinator is
    frozen. *)
Definition session_ok s : Prop :=
  let c := se_coord s in
  holds_group (co_snap c) (co_group c) /\ snapshot_wf (co_snap c) /\ u64_wf (co_handed_over c) /\
  store_ok (inner (co_store c)) /\
  exists top, durable (inner (co_store c)) = Ok (Some top) /\ snapshot_wf top /\ adoptable top (co_group c) /\
    (is_frozen c = false -> top = co_snap c).

Lemma session_coord s : session_ok s -> is_frozen (se_coord s) = false -> coord_ok (se_coord s).
Proof.
  intros (Hh & Hw & Hu & Hok & top & Hd & Ht & Ha & Hf) Hz. specialize (Hf Hz). split; [|exact Hu].
  refine (conj Hh (conj Hw (conj Hok _))). exists top. exact (conj Hd (conj Ht (conj Ha (fun _ => Hf)))).
Qed.

Lemma coord_session (c : @Coord (DurableStore St)) log : coord_ok c -> session_ok (mkOnline c log).
Proof.
  intros [(Hh & Hw & Hok & top & Hd & Ht & Ha & Hf) Hu]. refine (conj Hh (conj Hw (conj Hu (conj Hok _)))). exists top.
  refine (conj Hd (conj Ht (conj Ha _))). cbn. unfold is_frozen. intros [_ Hz]%orb_false_iff. by apply Hf.
Qed.

Lemma poisoned_session (c : @Coord (DurableStore St)) log : session_ok (mkOnline c log) -> session_ok (mkOnline (poison c) log).
Proof.
  intros (Hh & Hw & Hu & Hok & top & Hd & Ht & Ha & Hf). refine (conj Hh (conj Hw (conj Hu (conj Hok _)))). exists top.
  by refine (conj Hd (conj Ht (conj Ha _))).
Qed.

Lemma session_log s log : session_ok s -> session_ok (mkOnline (se_coord s) log).
Proof. done. Qed.

(** From the state a call starts in. *)
Local Abbreviation live s := (live_ok rc pc (co_store (se_coord s)) (co_snap (se_coord s)) (se_log s)).
Local Abbreviation ctl s := (ctl_ok rc pc (co_store (se_coord s)) (co_snap (se_coord s)) (se_log s)).

(** A direct request on the wire: the one the connection prepared, and the
    store has committed the provider state exported with it. *)
Definition direct_committed s s' (to : DeviceAddr) (framed : bytes) : Prop :=
  exists message state,
    prepare (se_log s) to message = Ok framed /\ export (se_log s ++ [APrepareDirect to message]) = Ok state /\
    provider_state (co_snap (se_coord s')) = state /\
    store_commit (co_store (se_coord s)) (co_snap (se_coord s')) = (co_store (se_coord s'), Committed).

(** What a call asks of the connection. *)
Definition wire_ok s s' (a : NetAction) : Prop :=
  match a with
  | AEncrypt _ _ _ | APrepareDirect _ _ => True
  | ADispatch to c => wired rc pc (co_store (se_coord s)) (co_snap (se_coord s)) (co_store (se_coord s')) to c
  | ADispatchDirect to framed => direct_committed s s' to framed
  end.

(** A call keeps the state such that a restart rebuilds it, and puts nothing on
    the wire but what was committed. *)
Definition stepped s s' : Prop :=
  session_ok s' /\ exists acts, se_log s' = se_log s ++ acts /\ Forall (wire_ok s s') acts.

Lemma log_start st0 snap0 log st : log_ok rc pc st0 snap0 log st log.
Proof. exists []. by rewrite app_nil_r. Qed.

Lemma stepped_quiet s s' : session_ok s' -> se_log s' = se_log s -> stepped s s'.
Proof. intros Hs Hl. split; [done|]. exists []. by rewrite app_nil_r. Qed.

Local Abbreviation keeps s g := (kept (co_store (se_coord s)) (co_snap (se_coord s)) (Some g)).

Lemma live_start s g : keeps s g -> live s (live_of s) g.
Proof. intros Hr. refine (conj Hr (conj _ _)); [split; [done|by left]|apply log_start]. Qed.

Definition handoffs_left (k : Z) (g : GroupState) : Prop := next_handoff_sequence (gs_control g) + k < u64_max.

Lemma left_room k snap g : 0 <= k -> running snap g -> handoffs_left k g -> control_room k (gs_control g).
Proof.
  intros H0 [_ (old & _ & P)] Hk. destruct (po_control _ _ P) as [n Hn]. unfold handoffs_left in Hk.
  destruct (Z_le_gt_dec n u64_max) as [Hle|Hgt].
  - destruct (next_sequence_n pc n _ Hn Hle) as [_ He]. exists n. split; [done|lia].
  - exfalso. assert (sequence_left (gs_control g)) as Hs by (unfold sequence_left; lia).
    destruct Hn as [[_ _ _ _ E6 _] _]. unfold sequence_left, next_handoff_sequence in Hs.
    destruct E6 as [[-> _]|Hin]; [by vm_compute in Hgt|].
    destruct (max_of _) as [m|] eqn:E; [|apply max_of_None in E; rewrite E in Hin; by apply elem_of_nil in Hin].
    apply max_of_Some in E as [_ Hle]. specialize (Hle _ Hin). unfold saturating_add64 in Hs. lia.
Qed.

Lemma next_sequence_range g o snap rev m n :
  tracks pc g snap o -> next_sequence o rev m = Ok n -> 0 <= n <= u64_max.
Proof.
  intros (a & l & o0 & _ & _ & Ho & <-)%tracks_inv Hn. pose proof (recover_loop_faithful pc g a l _ _ (faithful_new pc g) Ho) as Hf.
  unfold next_sequence in Hn. destruct (highest_sequence _ _ _) as [k|] eqn:E; [|by injection Hn as <-].
  unfold checked_add64 in Hn. destruct (_ <=? _) eqn:El in Hn; [|done]. injection Hn as <-. bool_prop.
  unfold highest_sequence in E. apply max_of_Some in E as [Hk _].
  apply list_elem_of_fmap in Hk as (x & -> & Hx). apply list_elem_of_filter in Hx as [_ Hx].
  rewrite finish_sends in Hx. apply list_elem_of_fmap in Hx as (y & -> & Hy). rewrite finish_send_id.
  pose proof (fa_sends _ _ _ Hf) as Hs. rewrite Forall_forall in Hs. destruct (sf_ranges _ _ _ (Hs y Hy)) as (_ & _ & ? & _).
  rewrite finish_send_id in El. lia.
Qed.

Lemma new_send_wf snap g v seq ms payload send :
  running snap g -> gs_view g = Some v -> 0 <= seq <= u64_max ->
  send_new (v_roster v) (v_digest v) (gs_local g) seq ms payload = Ok send -> intent_wf send.
Proof.
  intros [_ (old & _ & P)] Hv Hseq Hs. destruct (po_view _ _ P v Hv) as [(Hwf & Hd & _) _]. destruct Hwf as (Hg & Hrev & _).
  unfold send_new, logical_id_new in Hs. inv_bind. split_and!; cbn; try done; try lia.
  rewrite <- !list_fmap_compose. apply list_fmap_ext. done.
Qed.

Lemma intent_publishes (store : DurableStore St) snap o send : publishes store snap (commit_logical_intent store snap o send).
Proof.
  unfold commit_logical_intent. destruct (encode_intent send); [|by apply unchanged_publishes]. cbn [map_err mbind result_bind].
  destruct (record o send) as [o1 [d|]]; [|by apply unchanged_publishes]. cbn [map_err mbind result_bind].
  destruct (bool_decide _); [apply unchanged_publishes; by intros snap' x [= <- _]|apply publish_publishes].
Qed.

Lemma sorted_routes_ok routes : routes_ok routes -> routes_ok (sort_by by_member routes).
Proof. unfold routes_ok. by rewrite sort_by_perm. Qed.

Lemma set_outbox_self g : set_outbox g (gs_outbox g) = g.
Proof. by destruct g. Qed.

(** A call that leaves the group in state [g]. *)
Lemma resume_ok s l g : session_ok s -> live s l g -> stepped s (resume s l g).
Proof.
  intros (_ & _ & Hu & _) (Hr & _ & acts & Hl & Ha). split; [apply coord_session; exact (conj Hr Hu)|].
  exists acts. split; [exact Hl|]. eapply Forall_impl; [exact Ha|]. by intros [].
Qed.

Lemma with_group_ok {A} s (f : GroupState -> Online * result GroupError A) s' r :
  session_ok s ->
  (forall g, co_group (se_coord s) = Some g -> keeps s g -> f g = (s', r) -> stepped s s') ->
  with_group s f = (s', r) -> stepped s s'.
Proof.
  intros Hs Hf Hc. assert (stepped s s) as Hss by (by apply stepped_quiet).
  unfold with_group in Hc. destruct (is_frozen _) eqn:Ez; [by injection Hc as <- <-|].
  destruct (co_group (se_coord s)) as [g|] eqn:E; [|by injection Hc as <- <-].
  pose proof (session_coord _ Hs Ez) as [Hk _]. rewrite E in Hk. by eapply Hf.
Qed.

Lemma send_group_ok s routes payload s' r :
  session_ok s -> send_group pc encrypt dispatch s routes payload = (s', r) -> stepped s s'.
Proof.
  intros Hs Hc. assert (stepped s s) as Hss by (by apply stepped_quiet). eapply with_group_ok; [exact Hs| |exact Hc]. clear Hc. cbn beta. intros g Hg Hr Hc.
  destruct (ok_or ErrPolicy (gs_view g) ≫= _) as [[rs send]|e] eqn:E; [|by injection Hc as <- <-]. cbv zeta in Hc.
  destruct (gs_view g) as [v|] eqn:Ev; [|done]. cbn [ok_or mbind result_bind] in E.
  destruct (check_routes routes) as [u|] eqn:Eu; [|done]. apply check_routes_ok in Eu. cbn [mbind result_bind] in E.
  destruct (next_sequence _ _ _) as [n|] eqn:En; [|done]. cbn [map_err mbind result_bind] in E.
  destruct (send_new _ _ _ _ _ _) as [sd|] eqn:Es; [|done]. cbn [map_err mbind result_bind] in E. injection E as <- ->.
  pose proof (next_sequence_range _ _ _ _ _ _ (kept_tracks _ _ _ Hr) En) as Hn.
  pose proof (new_send_wf _ _ _ _ _ _ _ (proj1 Hr) Ev Hn Es) as Hwf.
  assert (live s (live_of s) (set_outbox g (gs_outbox g))) as Hok by (apply live_start; by destruct g).
  destruct (run_commit _ _ _) as [[l o] r1] eqn:E1.
  eapply (send_commit_ok (rc := rc) (pc := pc) _ _ _ g) in E1; [|exact Hok|apply intent_publishes|intros d' res E; unfold commit_keeps; rewrite set_outbox_self; exact (intent_kept _ _ g _ _ _ Hr Hwf E)].
  destruct r1 as [d|e]; [|injection Hc as <- <-; by apply resume_ok].
  destruct (drive_send _ _ _ _ _ _ _) as [[l2 o2] r2] eqn:E2. eapply (drive_send_ok (rc := rc) encrypt dispatch Hpc _ _ _ g) in E2; [|done|by apply sorted_routes_ok].
  destruct r2; injection Hc as <- <-; by apply resume_ok.
Qed.

Lemma pending_sends_ok s routes s' r :
  session_ok s -> dispatch_pending_group_sends pc encrypt dispatch s routes = (s', r) -> stepped s s'.
Proof.
  intros Hs Hc. assert (stepped s s) as Hss by (by apply stepped_quiet). unfold dispatch_pending_group_sends in Hc. destruct (is_frozen _); [by injection Hc as <- <-|].
  destruct (check_routes _) as [u|] eqn:Eu; [|by injection Hc as <- <-]. apply check_routes_ok in Eu.
  eapply with_group_ok; [exact Hs| |exact Hc]. clear Hc. cbn beta zeta. intros g Hg Hr Hc.
  destruct (drive_pending _ _ _ _ _ _ _) as [[l o] r1] eqn:E. eapply (drive_pending_ok (rc := rc) encrypt dispatch Hpc _ _ _ g _ _ Eu) in E; [|by apply live_start; destruct g].
  injection Hc as <- <-. by apply resume_ok.
Qed.

Lemma pending_controls_ok s routes s' r :
  session_ok s -> dispatch_pending_controls pc dispatch s routes = (s', r) -> stepped s s'.
Proof.
  intros Hs Hc. assert (stepped s s) as Hss by (by apply stepped_quiet). unfold dispatch_pending_controls in Hc. destruct (is_frozen _); [by injection Hc as <- <-|].
  destruct (check_routes _) as [u|] eqn:Eu; [|by injection Hc as <- <-]. apply check_routes_ok in Eu.
  eapply with_group_ok; [exact Hs| |exact Hc]. clear Hc. cbn beta zeta. intros g Hg Hr Hc.
  destruct (dispatch_controls _ _ _ _ _ _ _) as [[l o] r1] eqn:E. injection Hc as <- <-.
  pose proof (proj1 Hr) as [_ (old & _ & P)]. destruct (po_control _ _ P) as [n Hn].
  assert (ctl s (u64_max - n) g (live_of s) (gs_control g)) as Hok by (split; [by apply live_start; destruct g|exists n; split; [done|lia]]).
  eapply (dispatch_controls_ok (rc := rc) dispatch) in E; [|exact Eu|exact Hok]. destruct E. by apply resume_ok.
Qed.

Lemma install_roster_ok s successor rs admission now s' r :
  session_ok s -> roster_wf successor -> Forall (fun x => member_ok x.1) rs ->
  (forall g, co_group (se_coord s) = Some g -> handoffs_left (len rs) g) ->
  install_roster rc pc own_identity encrypt dispatch s successor rs admission now = (s', r) -> stepped s s'.
Proof.
  intros Hs Hwf Hm Hleft Hc. assert (stepped s s) as Hss by (by apply stepped_quiet). eapply with_group_ok; [exact Hs| |exact Hc]. clear Hc. cbn beta. intros g Hg Hr Hc.
  destruct (negb _); [by injection Hc as <- <-|]. destruct (gs_view g) as [v|] eqn:Ev; [|by injection Hc as <- <-].
  destruct (gs_receiver g) as [receiver|] eqn:Er; [|by injection Hc as <- <-].
  destruct (check_routes rs) as [u|] eqn:Eu; [|by injection Hc as <- <-]. apply check_routes_ok in Eu. cbv zeta in Hc. destruct (_ || _) in Hc; [by injection Hc as <- <-|].
  destruct (payload_encode _) as [payload|]; [|by injection Hc as <- <-].
  destruct (install_all _ _ _ _ _ _ _ _ _ _ _) as [x r1] eqn:E. injection Hc as <- <-. apply resume_ok; [exact Hs|].
  eapply (install_all_ok (rc := rc) own_identity encrypt dispatch Hrc Hpc Hencrypt _ _ _ g _ _ _ _ _ 0) in E; [by apply E|done| |done..].
  cbn [is_live is_state]. assert (put_authority g (mkAuthority v receiver (gs_outbox g) (gs_control g) (gs_book g)) = g) as He
    by (destruct g; cbn in *; by subst). split; [by apply live_start; rewrite He|].
  eapply left_room; [apply len_nonneg|exact (proj1 Hr)|by apply Hleft].
Qed.

(** *** Invitations *)
Lemma send_control_ok s l g m route p s' r :
  session_ok s -> live s l g -> control_room 1 (gs_control g) -> member_ok m -> route_is_members_device m route = true ->
  send_invitation_control pc encrypt dispatch s l g m route p = (s', r) -> stepped s s'.
Proof.
  intros Hs Hr Hk Hm Hto Hc. unfold send_invitation_control in Hc.
  destruct (prepare_outbound_invitation_control _ _ _ _ _ _ _) as [[l1 o1] r1] eqn:E.
  eapply (invitation_control_ok (rc := rc) encrypt Hencrypt _ _ _ 0 g) in E; [|done|by destruct g|done]. destruct r1 as [h|e].
  - destruct (dispatch_outbound_roster_control _ _ _ _ _ _ _) as [[l2 o2] r2] eqn:E2. injection Hc as <- <-.
    eapply (dispatch_control_ok (rc := rc) dispatch _ _ _ 0 g) in E2; [|done..]. apply resume_ok; [exact Hs|by apply E2].
  - injection Hc as <- <-. apply resume_ok; [exact Hs|by apply E].
Qed.

Lemma commit_book_ok {A B} s g (transition : InvitationBook -> InvitationBook * result Error A)
    (f : Live -> GroupState -> A -> Online * result GroupError B) s' r :
  session_ok s -> keeps s g -> (forall b x, transition (gs_book g) = (b, Ok x) -> book_ok g b) ->
  (forall l b x, live s l (with_book g b) -> f l (with_book g b) x = (s', r) -> stepped s s') ->
  commit_book s g transition f = (s', r) -> stepped s s'.
Proof.
  intros Hs Hr Ht Hf Hc. unfold commit_book in Hc. cbv zeta in Hc.
  destruct (run_commit _ _ _) as [[l b] r1] eqn:E.
  assert (live s l (with_book g b)) as Hl.
  { eapply (run_commit_live _ _ _ (with_book g)); [|apply publish_publishes| |exact E]; [by apply live_start; rewrite with_book_same|].
    intros d' res E1. unfold commit_keeps. rewrite with_book_same. exact (book_kept _ _ _ None _ _ _ Hr Ht E1). }
  destruct r1 as [x|e]; [by eapply Hf|]. injection Hc as <- <-. by apply resume_ok.
Qed.

Lemma invite_ok s id target route expires now s' r :
  session_ok s -> len id = 16 -> 0 <= expires <= u64_max ->
  (forall g, co_group (se_coord s) = Some g -> handoffs_left 1 g) ->
  invite pc encrypt dispatch s id target route expires now = (s', r) -> stepped s s'.
Proof.
  intros Hs Hid Hexp Hleft Hc. assert (stepped s s) as Hss by (by apply stepped_quiet). eapply with_group_ok; [exact Hs| |exact Hc]. clear Hc. cbn beta. intros g Hg Hr Hc.
  pose proof (left_room 1 _ _ ltac:(lia) (proj1 Hr) (Hleft g Hg)) as Hroom.
  destruct (negb _) in Hc; [by injection Hc as <- <-|]. destruct (gs_view g) as [v|] eqn:Ev; [|by injection Hc as <- <-].
  destruct (_ || _) eqn:Eto in Hc; [by injection Hc as <- <-|]. bool_prop.
  destruct (invitation_new _ _ _ _ _ _ _) as [i|] eqn:Ei; [|by injection Hc as <- <-].
  unfold invitation_new in Ei. destruct (invitation_validate _) as [u|] eqn:Evd; [|done]. destruct u. apply Ok_inj in Ei as Ei.
  pose proof (proj1 Hr) as [_ (old & _ & P)]. destruct (po_view _ _ P v Ev) as [(Hwf & Hd & _) Hvg]. destruct Hwf as (Hg1 & Hrev & _).
  eapply commit_book_ok; [exact Hs|exact Hr| | |exact Hc].
  - intros b x ->%book_map_Ok. eapply (book_step_ok _ g (BCreate (gs_local g) (gs_authority g) (members (v_roster v)) i now)); [exact (proj1 Hr)| |done].
    subst i. split_and!; [|done|done]. pose proof (po_id _ _ P). unfold invitation_wf. cbn. by split_and!; try apply Hrev; try apply Hexp.
  - cbn beta. intros l b x Hb Hcc. destruct (bootstrap_new i _) as [bt|]; [|injection Hcc as <- <-; by apply resume_ok].
    destruct (send_invitation_control _ _ _ _ _ _ _ _ _) as [s2 r2] eqn:Es. injection Hcc as <- <-.
    eapply send_control_ok; [exact Hs|exact Hb|done| |done|exact Es]. by apply invitation_valid_target in Evd.
Qed.

Lemma accept_invitation_ok s id route now s' r :
  session_ok s -> (forall g, co_group (se_coord s) = Some g -> handoffs_left 1 g) ->
  accept_invitation pc encrypt dispatch s id route now = (s', r) -> stepped s s'.
Proof.
  intros Hs Hleft Hc. assert (stepped s s) as Hss by (by apply stepped_quiet). eapply with_group_ok; [exact Hs| |exact Hc]. clear Hc. cbn beta. intros g Hg Hr Hc.
  pose proof (left_room 1 _ _ ltac:(lia) (proj1 Hr) (Hleft g Hg)) as Hroom.
  destruct (negb _) eqn:Eto in Hc; [by injection Hc as <- <-|]. bool_prop. destruct (find_invitation g id) as [i|]; [|by injection Hc as <- <-].
  eapply commit_book_ok; [exact Hs|exact Hr| | |exact Hc].
  - intros b x ->%book_map_Ok. by eapply (book_step_ok _ g (BAccept _ _ _ _ _)); [exact (proj1 Hr)|..].
  - cbn beta. intros l b x Hb Hcc. destruct (acceptance_new _ _ _ _) as [a|]; [|injection Hcc as <- <-; by apply resume_ok].
    destruct (send_invitation_control _ _ _ _ _ _ _ _ _) as [s2 r2] eqn:Es. injection Hcc as <- <-.
    eapply send_control_ok; [exact Hs|exact Hb|done| |done|exact Es]. pose proof (proj1 Hr) as [_ (old & _ & P)]. apply (po_authority _ _ P).
Qed.

Lemma revoke_invitation_ok s id route now s' r :
  session_ok s -> (forall g, co_group (se_coord s) = Some g -> handoffs_left 1 g) ->
  revoke_invitation pc own_identity encrypt dispatch s id route now = (s', r) -> stepped s s'.
Proof.
  intros Hs Hleft Hc. assert (stepped s s) as Hss by (by apply stepped_quiet). eapply with_group_ok; [exact Hs| |exact Hc]. clear Hc. cbn beta. intros g Hg Hr Hc.
  pose proof (left_room 1 _ _ ltac:(lia) (proj1 Hr) (Hleft g Hg)) as Hroom.
  destruct (negb _) in Hc; [by injection Hc as <- <-|]. destruct (find_invitation g id) as [i|] eqn:Ei; [|by injection Hc as <- <-].
  destruct (negb _) eqn:Eto in Hc; [by injection Hc as <- <-|]. bool_prop.
  destruct (prepare_authority_invitation_revocation _ _ _ _ _ _ _ _ _ _ _) as [[l1 [b1 o1]] r1] eqn:E.
  eapply (revocation_ok (rc := rc) own_identity encrypt Hencrypt _ _ _ 0 g) in E; [|done|by split; [apply live_start; rewrite with_book_same; destruct g|]|].
  2: { pose proof (proj1 Hr) as [_ (old & _ & P)]. destruct (po_book _ _ P) as [[_ Hrec _] _]. unfold find_invitation in Ei.
       destruct (list_find _ _) as [[k j]|] eqn:Ef; [|done]. injection Ei as <-. apply list_find_Some in Ef as (Hk & _ & _).
       rewrite Forall_forall in Hrec. destruct (Hrec j) as (_ & Hv & _); [by eapply list_elem_of_lookup_2|].
       by apply invitation_valid_target. }
  destruct r1 as [h|e].
  - destruct (dispatch_outbound_roster_control _ _ _ _ _ _ _) as [[l2 o2] r2] eqn:E2. injection Hc as <- <-.
    eapply (dispatch_control_ok (rc := rc) dispatch _ _ _ 0 (with_book g b1)) in E2; [|done..]. apply resume_ok; [exact Hs|by apply E2].
  - injection Hc as <- <-. apply resume_ok; [exact Hs|by apply E].
Qed.

(** *** Direct messages *)
Lemma publish_committed {A} (st : DurableStore St) (r : result GroupOperationError (OperationSnapshot * A)) st' c x :
  publish st r = (st', Ok (c, x)) -> store_commit st c = (st', Committed).
Proof.
  unfold publish. destruct r as [[c1 y]|]; [|done]. destruct (store_commit st c1) as [st1 o] eqn:E.
  case_bool_decide as Ho; [|done]. intros [= <- <- _]. by rewrite E, Ho.
Qed.

Lemma send_direct_ok s to message s' r :
  session_ok s -> send_direct prepare export dispatch_direct s to message = (s', r) -> stepped s s'.
Proof.
  intros Hs Hc. unfold send_direct in Hc. cbv zeta in Hc.
  destruct (is_frozen _) eqn:Ez; [injection Hc as <- <-; by apply stepped_quiet|].
  pose proof (session_coord _ Hs Ez) as [Hk Hu].
  assert (forall (x : @Online (DurableStore St)), session_ok x -> se_log x = se_log s ++ [APrepareDirect to message] -> stepped s x) as Hprep.
  { intros x Hx Hl. split; [done|]. exists [APrepareDirect to message]. split; [done|by constructor]. }
  destruct (prepare _ _ _) as [framed|] eqn:Ep; [|injection Hc as <- <-; by apply Hprep].
  destruct (export _) as [state|] eqn:Ee; [|injection Hc as <- <-; apply Hprep; [by apply poisoned_session|done]].
  destruct (commit_provider_state _ _ _) as [st x] eqn:Ecm. pose proof Ecm as Ek.
  apply (provider_kept (rc := rc) (pc := pc) _ _ (co_group (se_coord s))) in Ek; [|done].
  destruct x as [[snap u]|e]; injection Hc as <- <-.
  - split; [by apply coord_session|]. exists [APrepareDirect to message; ADispatchDirect to framed].
    split; [cbn; by rewrite <- app_assoc|]. repeat constructor. exists message, state. cbn. split_and!; [done|done| |].
    + apply publish_Ok in Ecm. destruct (begin_candidate _ _); [|done]. by injection Ecm as <- _.
    + by eapply publish_committed.
  - apply Hprep; [|done]. by apply poisoned_session, coord_session.
Qed.

(** *** Attaching *)
(** A group known only by its identifier and authority, on a snapshot of none. *)
Definition awaiting (local : Member) (id : GroupId) (auth : Member) : GroupState :=
  mkGroupState id auth None local None None (outbox_new id) control_default (book_new id) deferred_default.

Lemma awaiting_running snap local id auth :
  fresh_snapshot snap -> len id = GROUP_ID_LEN -> member_ok local -> member_ok auth -> running snap (awaiting local id auth).
Proof.
  intros (Hc & Ho & Ha) Hid Hl Hau. split; [|exists None; split; [by unfold latest_group_outbox_cancellation; rewrite Hc|]].
  - split; cbn; try done.
    + rewrite Hc. apply controls_inv_nil.
    + unfold attach_view, has_tag. by rewrite Hc.
    + unfold tracks, recover_group_outbox, latest_group_outbox_cancellation. by rewrite Hc, Ho.
    + unfold recover_group_control_outbox. by rewrite Hc.
    + unfold has_tag. by rewrite Hc.
    + unfold recover_group_deferred_rosters. by rewrite Hc.
  - split; cbn; try done.
    + exists 0. apply control_default_inv.
    + split; [|done]. by apply (book_inv_run id []).
    + split; [split; [constructor|done]|]. by split; [|constructor].
Qed.

(** [attach] on a session. *)
Definition attach_session s (local : Member) (id : GroupId) (auth : Member) (source : option Roster)
    : @Online (DurableStore St) * result GroupError unit :=
  let c := se_coord s in
  let '(store, (snap, group), r) := attach rc pc (co_store c) (co_snap c) (co_group c) local id auth source in
  (mkOnline (after_commit c store snap group) (se_log s), r).

Lemma attach_log s local id auth source s' r : attach_session s local id auth source = (s', r) -> se_log s' = se_log s.
Proof.
  unfold attach_session, attach. cbv zeta. destruct (attach_state _ _ _ _ _ _ _); [|by intros [= <- _]].
  destruct (drain_deferred_rosters _ _ _ _ _) as [[st [s1 g2]] r1]. by intros [= <- _].
Qed.

Lemma kept_top store snap group group' : kept store snap group -> frozen store = false -> holds_group snap group' -> kept store snap group'.
Proof.
  intros (_ & Hw & Hok & top & Hd & _ & _ & Hf) Hz Hh. rewrite (Hf Hz) in Hd. by apply committed_kept.
Qed.

Lemma attach_session_ok s g source s' r :
  coord_ok (se_coord s) -> frozen (co_store (se_coord s)) = false -> running (co_snap (se_coord s)) g -> events_left g ->
  (gs_source g = None \/ source = gs_source g) -> (forall x, source = Some x -> roster_wf x) ->
  attach_session s (gs_local g) (gs_group_id g) (gs_authority g) source = (s', r) -> coord_ok (se_coord s').
Proof.
  intros [Hk Hu] Hz Hr He Hsrc Hwf Hc. unfold attach_session, attach in Hc. cbv zeta in Hc.
  destruct (attach_state rc pc _ _ _ _ _) as [g1|e] eqn:Ea; [|by injection Hc as <- <-].
  apply (attach_running (rc := rc) (pc := pc) _ g) in Ea; try done.
  destruct (drain_deferred_rosters _ _ _ _ _) as [[st [s1 g2]] r1] eqn:Ed. injection Hc as <- <-. split; [|exact Hu].
  eapply drain_kept in Ed; [apply Ed|done|done|]. by apply (kept_top _ _ (co_group (se_coord s))).
Qed.

(** ** Recovering and restarting *)
Definition restore_coord (c : @Coord (DurableStore St)) (store : DurableStore St) (snap : OperationSnapshot) (poisoned : bool) :
    @Coord (DurableStore St) := mkCoord store snap (co_group c) poisoned (co_handed_over c).

(** [recover], given whether the client took the provider state: the store is
    read, the flag stays up until the group has been rebuilt. *)
Definition recover s (restored : bool) : @Online (DurableStore St) * result GroupError unit :=
  let c := se_coord s in
  let '(store, r) := recover_not_behind (co_store c) in
  match r with
  | Ok None | Err Unreadable => (mkOnline (restore_coord c store (co_snap c) true) (se_log s), Err ErrRecovery)
  | Err RolledBack => (mkOnline (restore_coord c store (co_snap c) true) (se_log s), Err ErrRollback)
  | Ok (Some snap) =>
      if negb restored then (mkOnline (restore_coord c store (co_snap c) true) (se_log s), Err ErrClient) else
      let s := mkOnline (restore_coord c store snap true) (se_log s) in
      let unfreeze s := let c := se_coord s in mkOnline (restore_coord c (co_store c) (co_snap c) false) (se_log s) in
      match co_group c with
      | None => (unfreeze s, Ok tt)
      | Some g =>
          match attach_session s (gs_local g) (gs_group_id g) (gs_authority g) (gs_source g) with
          | (s, Ok _) => (unfreeze s, Ok tt)
          | (s, Err e) => (s, Err e)
          end
      end
  end.

Definition open_error (e : CoordinatorError) : GroupError :=
  match e with
  | CeRecovery => ErrRecovery | CeRollback => ErrRollback | CeStateMismatch => ErrStateMismatch | CeClient => ErrClient
  | CeOperation e => group_error e
  end.

(** [open]: a coordinator with no group, over the store as it is. *)
Definition open_coordinator (st : St) (same_identity : bytes -> bool) (exported : option bytes)
    : St * result GroupError (@Coord (DurableStore St)) :=
  let '(st, r) := coordinator_open st same_identity exported in
  (st, match r with
       | Ok co => Ok (mkCoord (OperationStore.co_store co) (co_snapshot co) None false 0)
       | Err e => Err (open_error e)
       end).

(** A restart: the process opens the store again and, when it had attached a
    group, attaches it with what it was attached with. *)
Definition restart s (same_identity : bytes -> bool) (exported : option bytes)
    : option (@Online (DurableStore St) * result GroupError unit) :=
  match open_coordinator (inner (co_store (se_coord s))) same_identity exported with
  | (_, Err _) => None
  | (_, Ok c) =>
      let s1 := mkOnline c (se_log s) in
      Some (match co_group (se_coord s) with
            | None => (s1, Ok tt)
            | Some g => attach_session s1 (gs_local g) (gs_group_id g) (gs_authority g) (gs_source g)
            end)
  end.

(** Identifiers are left for the events of another commit. *)
Definition events_room s : Prop :=
  forall g, co_group (se_coord s) = Some g -> issued g + EVENTS_PER_COMMIT < u64_max.

Definition source_ok s : Prop :=
  forall g x, co_group (se_coord s) = Some g -> gs_source g = Some x -> roster_wf x.

Lemma issued_left g k : 0 <= k -> issued g + k < u64_max -> events_left g.
Proof. intros Hk Hi r Hr. unfold issued in Hi. rewrite Hr in Hi. cbn in Hi. lia. Qed.

(** A coordinator over what is durable, when its group is attached again. *)
Lemma reattach_ok (c : @Coord (DurableStore St)) log g top s' r :
  store_ok (inner (co_store c)) -> durable (inner (co_store c)) = Ok (Some top) -> snapshot_wf top -> adoptable top (Some g) ->
  co_snap c = top -> frozen (co_store c) = false -> u64_wf (co_handed_over c) ->
  issued g + EVENTS_PER_COMMIT < u64_max -> (forall x, gs_source g = Some x -> roster_wf x) ->
  attach_session (mkOnline c log) (gs_local g) (gs_group_id g) (gs_authority g) (gs_source g) = (s', r) -> coord_ok (se_coord s').
Proof.
  intros Hok Hd Ht (g' & Hr & Hkey & Hi) Hs Hz Hu He Hwf Hc. injection Hkey as H1 H2 H3 H4.
  assert (kept (co_store c) (co_snap c) (Some g')) as Hk by (rewrite Hs; by apply committed_kept).
  assert (events_left g') as Hev by (apply (issued_left g' 0); lia).
  unfold attach_session, attach in Hc. cbv zeta in Hc. cbn [se_coord co_store co_snap co_group] in Hc.
  rewrite <- H1, <- H2, <- H3, <- H4, Hs in Hc. rewrite (rebuilds_attach _ _ (proj1 Hr) Hev) in Hc.
  pose proof (attach_running (rc := rc) (pc := pc) _ g' _ _ Hrc Hr Hev (or_intror eq_refl) ltac:(by rewrite H4) (rebuilds_attach _ _ (proj1 Hr) Hev)) as Hr1.
  destruct (drain_deferred_rosters _ _ _ _ _) as [[st [s1 g2]] r1] eqn:Ed. injection Hc as <- <-. split; [|exact Hu].
  eapply drain_kept in Ed; [apply Ed|done|done|]. rewrite <- Hs. eapply kept_top; [exact Hk|done|by rewrite Hs].
Qed.
(** What a freeze leaves: the store may hold the snapshot or the one a commit of
    unknown outcome would have published. *)
Lemma frozen_session s (store : DurableStore St) :
  session_ok s -> store_ok (inner store) -> durable (inner store) = durable (inner (co_store (se_coord s))) ->
  session_ok (mkOnline (restore_coord (se_coord s) store (co_snap (se_coord s)) true) (se_log s)).
Proof.
  intros (Hh & Hw & Hu & _ & top & Hd & Ht & Ha & Hf) Hok Hdur.
  refine (conj Hh (conj Hw (conj Hu (conj Hok _)))). exists top. cbn. rewrite Hdur. by refine (conj Hd (conj Ht (conj Ha _))).
Qed.

Lemma poison_free (c : @Coord (DurableStore St)) log b : coord_ok c -> session_ok (mkOnline (restore_coord c (co_store c) (co_snap c) b) log).
Proof. intros Hc. apply coord_session. exact Hc. Qed.

Lemma recover_ok s restored s' r :
  session_ok s -> events_room s -> source_ok s -> recover s restored = (s', r) -> session_ok s'.
Proof.
  intros Hs He Hsrc Hc. unfold recover in Hc. cbv zeta in Hc. destruct (recover_not_behind _) as [store x] eqn:E.
  pose proof Hs as (_ & _ & Hu & Hok & top & Hd & Ht & Ha & _).
  destruct (not_behind_spec _ _ _ Hok E) as (Hok' & Hd' & Hx). pose proof (frozen_session s store Hs Hok' Hd') as Hz.
  destruct x as [[snap|]|[]]; [|by injection Hc as <- _..].
  destruct (Hx _ eq_refl) as (Htop & _ & Hfz). rewrite Hd in Htop, Hd'. injection Htop as <-.
  destruct (negb restored).
  { injection Hc as <- _. done. }
  destruct (co_group (se_coord s)) as [g|] eqn:Eg.
  - destruct (attach_session _ _ _ _ _) as [s1 r1] eqn:Ea.
    apply (reattach_ok _ _ g top) in Ea; [|done|done|done|done|done|done|exact Hu|by apply He|intros x; by apply (Hsrc g)].
    destruct r1; injection Hc as <- _; [by apply poison_free|]. destruct s1. by apply coord_session.
  - injection Hc as <- _. apply coord_session. split; [|exact Hu]. cbn. rewrite Eg. by apply committed_kept.
Qed.

(** Opening a store: on the durable snapshot, or on the first one. *)
Lemma open_spec (st : St) same_identity exported st' c x :
  store_ok st -> durable st = Ok x -> open_coordinator st same_identity exported = (st', Ok c) ->
  store_ok (inner (co_store c)) /\ durable (inner (co_store c)) = Ok (Some (co_snap c)) /\ frozen (co_store c) = false /\
  co_group c = None /\ co_handed_over c = 0 /\
  match x with Some top => co_snap c = top | None => snapshot_wf (co_snap c) /\ fresh_snapshot (co_snap c) end.
Proof.
  intros Hok Hd Hc. unfold open_coordinator, coordinator_open in Hc.
  destruct (durable_recover (durable_new st)) as [d y] eqn:Er.
  destruct (durable_recover_inner (durable_new st) d y st (option_list x) Hok) as (Hok' & Hd' & Hx); [by destruct x|done|done|].
  destruct y as [y|]; [|done]. destruct (Hx y eq_refl) as (Hy & _ & Hf). destruct x as [top|]; cbn in Hy, Hd'; subst y.
  - destruct (negb _) in Hc; [done|]. destruct exported as [state|]; [|done]. destruct (negb _) in Hc; [done|].
    by injection Hc as <- <-.
  - destruct exported as [provider|]; [|done]. destruct (begin_candidate d _) as [base|] eqn:Eb; [|done].
    cbn [mbind result_bind] in Hc. destruct (publish d _) as [d2 [[c2 u]|]] eqn:Ep; [|done]. injection Hc as <- <-. cbn.
    apply begin_candidate_durable in Eb as (_ & Hb & Hg). revert Hb Hg. generalize (generation base). intros n -> Hg.
    pose proof Ep as Ec. apply publish_Ok in Ec. injection Ec as <- <-.
    apply publish_committed in Ep. cbn in Ep. unfold durable_commit in Ep. rewrite Hf in Ep.
    destruct (store_commit_after _ _ _) as [st2 o] eqn:Es.
    match type of Es with store_commit_after _ _ ?c = _ => assert (snapshot_wf c) as Hwf by (refine (conj eq_refl (conj _ _)); unfold u64_wf; cbn -[u64_max] in *; lia) end.
    destruct (fenced_commit _ _ _ _ _ Hok' Hwf Es) as (Hok2 & _ & Hcm & _).
    destruct (bool_decide (o = Committed)) eqn:Eo; bool_prop; [|by injection Ep as _ ->].
    injection Ep as <- _. cbn. split_and!; try done. by apply Hcm.
Qed.

Lemma restart_ok s same_identity exported s' r :
  session_ok s -> events_room s -> source_ok s -> restart s same_identity exported = Some (s', r) -> session_ok s'.
Proof.
  intros (_ & _ & _ & Hok & top & Hd & Ht & Ha & _) He Hsrc Hc. unfold restart in Hc.
  destruct (open_coordinator _ _ _) as [st' [c|]] eqn:Eo; [|done].
  destruct (open_spec _ _ _ _ _ _ Hok Hd Eo) as (Hok' & Hd' & Hz & Hg & Hh & <-). injection Hc as Hc.
  destruct (co_group (se_coord s)) as [g|] eqn:Eg.
  - apply (reattach_ok _ _ g (co_snap c)) in Hc; [|done|done|done|done|done|done|by rewrite Hh|by apply He|intros x; by apply (Hsrc g)].
    destruct s'. by apply coord_session.
  - injection Hc as <- _. apply coord_session. split; [|by rewrite Hh]. rewrite Hg. by apply committed_kept.
Qed.

(** ** The calls of a coordinator *)
Definition group_of s : option GroupState := co_group (se_coord s).

(** Identifiers are left for [k] more control handoffs. *)
Definition room (k : Z) s : Prop := forall g, group_of s = Some g -> handoffs_left k g.

(** The calls, with what the types of their arguments say.  A coordinator is of
    one group: it is attached again, while it is not frozen, only to the group
    it holds, with the source it had, or with a first one.  A recovery and a
    restart read whatever the store then holds. *)
Inductive call : @Online (DurableStore St) -> @Online (DurableStore St) -> Prop :=
| call_attach s local id auth source s' r :
    is_frozen (se_coord s) = false -> (forall x, source = Some x -> roster_wf x) ->
    match group_of s with
    | None => len id = GROUP_ID_LEN /\ member_ok local /\ member_ok auth
    | Some g => local = gs_local g /\ id = gs_group_id g /\ auth = gs_authority g /\ events_left g /\
        (gs_source g = None \/ source = gs_source g)
    end ->
    attach_session s local id auth source = (s', r) -> call s s'
| call_restart s same_identity exported s' r :
    events_room s -> source_ok s -> restart s same_identity exported = Some (s', r) -> call s s'
| call_recover s restored s' r :
    events_room s -> source_ok s -> recover s restored = (s', r) -> call s s'
| call_receive s now fetched acknowledged c r :
    client_receive rc pc (se_coord s) now fetched acknowledged = (c, r) -> call s (mkOnline c (se_log s))
| call_acknowledge s c r :
    acknowledge_delivery (se_coord s) = (c, r) -> call s (mkOnline c (se_log s))
| call_send_direct s to message s' r :
    send_direct prepare export dispatch_direct s to message = (s', r) -> call s s'
| call_send_group s routes payload s' r :
    send_group pc encrypt dispatch s routes payload = (s', r) -> call s s'
| call_pending_sends s routes s' r :
    dispatch_pending_group_sends pc encrypt dispatch s routes = (s', r) -> call s s'
| call_install s successor rs admission now s' r :
    roster_wf successor -> Forall (fun x => member_ok x.1) rs -> room (len rs) s ->
    install_roster rc pc own_identity encrypt dispatch s successor rs admission now = (s', r) -> call s s'
| call_pending_controls s routes s' r :
    dispatch_pending_controls pc dispatch s routes = (s', r) -> call s s'
| call_invite s id target route expires now s' r :
    len id = 16 -> 0 <= expires <= u64_max -> room 1 s ->
    invite pc encrypt dispatch s id target route expires now = (s', r) -> call s s'
| call_accept s id route now s' r :
    room 1 s -> accept_invitation pc encrypt dispatch s id route now = (s', r) -> call s s'
| call_revoke s id route now s' r :
    room 1 s -> revoke_invitation pc own_identity encrypt dispatch s id route now = (s', r) -> call s s'.

Lemma call_attach_ok s local id auth source s' r :
  session_ok s -> is_frozen (se_coord s) = false -> (forall x, source = Some x -> roster_wf x) ->
  match group_of s with
  | None => len id = GROUP_ID_LEN /\ member_ok local /\ member_ok auth
  | Some g => local = gs_local g /\ id = gs_group_id g /\ auth = gs_authority g /\ events_left g /\
      (gs_source g = None \/ source = gs_source g)
  end ->
  attach_session s local id auth source = (s', r) -> session_ok s'.
Proof.
  intros Hs Hz Hwf Hm Hc. pose proof (session_coord _ Hs Hz) as Hk. pose proof Hz as [_ Hfz]%orb_false_iff. pose proof Hs as [Hh _].
  assert (coord_ok (se_coord s')) as Hk'; [|destruct s'; by apply coord_session].
  unfold group_of in Hm. destruct (co_group (se_coord s)) as [g|].
  - destruct Hm as (-> & -> & -> & He & Hsrc). eapply (attach_session_ok s g); [done|exact Hfz|exact Hh|done..|exact Hc].
  - destruct Hm as (Hid & Hl & Hau). eapply (attach_session_ok s (awaiting local id auth)); [done|exact Hfz| |done|by left|done|exact Hc].
    by apply awaiting_running.
Qed.

Lemma recover_log s restored s' r : recover s restored = (s', r) -> se_log s' = se_log s.
Proof.
  unfold recover. cbv zeta. destruct (recover_not_behind _) as [store [[snap|]|[]]]; try (by intros [= <- _]).
  destruct (negb _); [by intros [= <- _]|]. destruct (co_group _); [|by intros [= <- _]].
  destruct (attach_session _ _ _ _ _) as [s1 r1] eqn:E. apply attach_log in E. by destruct r1; intros [= <- _].
Qed.

Lemma restart_log s same_identity exported s' r : restart s same_identity exported = Some (s', r) -> se_log s' = se_log s.
Proof.
  unfold restart. destruct (open_coordinator _ _ _) as [st [c|]]; [|done]. destruct (co_group _); [|by intros [= <- _]].
  intros [= E]. by apply attach_log in E.
Qed.

Lemma acknowledge_session s c r : session_ok s -> acknowledge_delivery (se_coord s) = (c, r) -> session_ok (mkOnline c (se_log s)).
Proof.
  intros Hs Hc. destruct (is_frozen (se_coord s)) eqn:Ez.
  - unfold acknowledge_delivery in Hc. rewrite Ez in Hc. injection Hc as <- _. exact Hs.
  - apply coord_session. exact (acknowledge_ok _ _ _ (session_coord _ Hs Ez) Hc).
Qed.

Lemma receive_session s now fetched acked c r :
  session_ok s -> client_receive rc pc (se_coord s) now fetched acked = (c, r) -> session_ok (mkOnline c (se_log s)).
Proof.
  intros Hs Hc. destruct (is_frozen (se_coord s)) eqn:Ez.
  - unfold client_receive in Hc. rewrite Ez in Hc. injection Hc as <- _. exact Hs.
  - apply coord_session. exact (client_receive_ok Hrc Hpc _ _ _ _ _ _ (session_coord _ Hs Ez) Hc).
Qed.

Lemma call_ok s s' : session_ok s -> call s s' -> stepped s s'.
Proof.
  intros Hs Hcall. revert Hs. destruct Hcall as [s0 local id auth source s1 r Hz Hwf Hm Hc|s0 si ex s1 r He Hsrc Hc|s0 restored s1 r He Hsrc Hc
    |s0 now fetched acked c r Hc|s0 c r Hc|s0 to message s1 r Hc|s0 routes payload s1 r Hc|s0 routes s1 r Hc
    |s0 successor rs admission now s1 r Hwf Hm Hk Hc|s0 routes s1 r Hc|s0 id target route expires now s1 r Hid He Hk Hc
    |s0 id route now s1 r Hk Hc|s0 id route now s1 r Hk Hc]; intros Hs.
  - apply stepped_quiet; [by eapply call_attach_ok|by eapply attach_log].
  - apply stepped_quiet; [by eapply restart_ok|by eapply restart_log].
  - apply stepped_quiet; [by eapply recover_ok|by eapply recover_log].
  - apply stepped_quiet; [|done]. by eapply receive_session.
  - apply stepped_quiet; [|done]. by eapply acknowledge_session.
  - by eapply send_direct_ok.
  - by eapply send_group_ok.
  - by eapply pending_sends_ok.
  - by eapply install_roster_ok.
  - by eapply pending_controls_ok.
  - by eapply invite_ok.
  - by eapply accept_invitation_ok.
  - by eapply revoke_invitation_ok.
Qed.

(** A coordinator just opened, on a store that holds nothing or no group. *)
Definition opened s : Prop :=
  exists st same_identity exported st' c x,
    store_ok st /\ durable st = Ok x /\ (forall top, x = Some top -> snapshot_wf top /\ fresh_snapshot top) /\
    open_coordinator st same_identity exported = (st', Ok c) /\ s = mkOnline c [].

Lemma run_ok s s' : session_ok s -> rtc call s s' -> session_ok s'.
Proof. intros Hs Hrun. induction Hrun; [done|]. apply IHHrun. by eapply call_ok. Qed.

Lemma opened_ok s : opened s -> session_ok s.
Proof.
  intros (st & si & ex & st' & c & x & Hok & Hd & Hx & Ho & ->).
  destruct (open_spec _ _ _ _ _ _ Hok Hd Ho) as (Hok' & Hd' & Hz & Hg & Hh & Hm).
  apply coord_session. split; [|by rewrite Hh]. rewrite Hg.
  destruct x as [top|]; [destruct (Hx top eq_refl); rewrite Hm in *|destruct Hm]; by apply committed_kept.
Qed.
End Session.

(** * Properties *)

(** C1. A restart loses nothing.  Take any run of calls of a coordinator opened
    on a store with no group (attaching, receiving, acknowledging, sending
    directly and to the group, installing rosters, inviting, accepting,
    revoking, retrying, recovering and restarting, each of them succeeding or
    failing at any point), over any store that keeps the fencing promise: a
    commit whose outcome is unknown may or may not have landed, and a recovery
    and a restart adopt whatever is then durable.  Attaching the group again to
    the snapshot the coordinator works from gives exactly the state it runs on,
    with the invitation book in its canonical order, as long as the receiver has
    event identifiers left.  What is durable is that snapshot unless the
    coordinator is frozen; and even then an attach to it rebuilds a state of the
    same group, at most the events of one commit ahead.  The calls left out are
    an attach on a frozen coordinator and a recovery or a restart within one
    commit of the last event identifier. *)
Theorem restart_rebuilds rc pc own_identity encrypt dispatch prepare export dispatch_direct
    {St} {ops : OperationStore St} {fenced : FencedStore St} (s s' : @Online (DurableStore St)) g :
  (forall x, len (rc x) = DIGEST_LEN) -> (forall x, len (pc x) = DIGEST_LEN) ->
  (forall log to id p c st, encrypt log to id p = Ok (c, st) -> len c <= u32_max) ->
  opened s -> rtc (call (rc := rc) (pc := pc) own_identity encrypt dispatch prepare export dispatch_direct) s s' ->
  group_of s' = Some g ->
  (events_left g ->
   attach_state rc pc (co_snap (se_coord s')) (gs_local g) (gs_group_id g) (gs_authority g) (gs_source g) = Ok (as_rebuilt g)) /\
  exists top g',
    durable (inner (co_store (se_coord s'))) = Ok (Some top) /\
    (is_frozen (se_coord s') = false -> top = co_snap (se_coord s')) /\
    issued g' <= issued g + EVENTS_PER_COMMIT /\
    (events_left g' ->
     attach_state rc pc top (gs_local g) (gs_group_id g) (gs_authority g) (gs_source g) = Ok (as_rebuilt g')).
Proof.
  intros Hrc Hpc He Ho Hrun Hg.
  pose proof (run_ok own_identity encrypt dispatch prepare export dispatch_direct Hrc Hpc He _ _ (opened_ok _ Ho) Hrun) as Hs.
  destruct Hs as (Hh & _ & _ & _ & top & Hd & _ & Ha & Hf). unfold group_of in Hg. rewrite Hg in Hh, Ha. cbn in Hh, Ha.
  split; [intros Hl; apply rebuilds_attach; [apply Hh|done]|]. destruct Ha as (g' & [R _] & Hk & Hi). exists top, g'. split_and!; [done|done|done|].
  intros Hl. injection Hk as <- <- <- <-. by apply rebuilds_attach.
Qed.

(** C8. Nothing uncommitted reaches the wire, and nothing goes to the wrong
    device.  Whatever group or control ciphertext a call asks the connection to
    dispatch is one that a snapshot (the one the call started from, or one the
    store store reported committed during the call) holds, in its
    group outbox or its control outbox, for a member whose device is the one it
    goes to; and attaching to that snapshot gives back the state that holds it.
    Whatever direct request a call asks it to dispatch is the one the connection
    prepared for that device in that call, and the store has reported committed,
    as the coordinator's snapshot, the provider state exported after preparing
    it.  A call never rewrites what was asked before, and this holds whatever
    the store and the connection answer, so no dispatch can come before its
    commit.  As in C1 an attach is not called on a frozen coordinator. *)
Theorem only_committed_is_sent rc pc own_identity encrypt dispatch prepare export dispatch_direct
    {St} {ops : OperationStore St} {fenced : FencedStore St} (s0 s s' : @Online (DurableStore St)) :
  (forall x, len (rc x) = DIGEST_LEN) -> (forall x, len (pc x) = DIGEST_LEN) ->
  (forall log to id p c st, encrypt log to id p = Ok (c, st) -> len c <= u32_max) ->
  opened s0 -> rtc (call (rc := rc) (pc := pc) own_identity encrypt dispatch prepare export dispatch_direct) s0 s ->
  call (rc := rc) (pc := pc) own_identity encrypt dispatch prepare export dispatch_direct s s' ->
  exists acts, se_log s' = se_log s ++ acts /\
    (forall to c, ADispatch to c ∈ acts -> exists snap g m,
      saved (co_store (se_coord s)) (co_snap (se_coord s)) (co_store (se_coord s')) snap /\
      hands g m c /\ route_is_members_device m to = true /\
      (events_left g ->
       attach_state rc pc snap (gs_local g) (gs_group_id g) (gs_authority g) (gs_source g) = Ok (as_rebuilt g))) /\
    (forall to framed, ADispatchDirect to framed ∈ acts -> direct_committed prepare export s s' to framed).
Proof.
  intros Hrc Hpc He Ho Hrun Hcall.
  pose proof (run_ok own_identity encrypt dispatch prepare export dispatch_direct Hrc Hpc He _ _ (opened_ok _ Ho) Hrun) as Hs.
  destruct (call_ok own_identity encrypt dispatch prepare export dispatch_direct Hrc Hpc He _ _ Hs Hcall) as [_ (acts & Hl & Ha)].
  rewrite Forall_forall in Ha. exists acts. split_and!; [done| |by intros to framed Hin; apply (Ha _ Hin)].
  intros to c Hin. destruct (Ha _ Hin) as (snap & g & m & H1 & H2 & H3 & H4). exists snap, g, m. split_and!; try done.
  destruct H2 as [R _]. by apply rebuilds_attach.
Qed.

(** A run for the witness: the authority creates a group, invites a member,
    receives the acceptance, installs the roster with it and sends to it.  The
    first commit of its next send lands with its outcome unknown; a recovery
    adopts it, and a direct message is sent from there. *)
Definition ana_m : Member := mkMember (bstr "ana") [x01].
Definition bob_m : Member := mkMember (bstr "bob") [x02].
Definition bob_route : Route := (bob_m, mkAddr (bstr "bob") 2).
Definition run_commitment (b : bytes) : bytes := be_bytes 32 (len b).
Definition run_encrypt (_ : list NetAction) (_ : DeviceAddr) (_ _ : bytes) : result ErrorKind (bytes * bytes) :=
  Ok (bstr "ct", bstr "st").
Definition run_dispatch (_ : list NetAction) (_ : DeviceAddr) (_ : bytes) : result ErrorKind unit := Ok tt.
Definition run_prepare (_ : list NetAction) (_ : DeviceAddr) (message : bytes) : result ErrorKind bytes := Ok (bstr "dm:" ++ message).
Definition run_export (_ : list NetAction) : result ErrorKind bytes := Ok (bstr "st3").

Definition run_genesis : Roster := mkRoster first_group 0 zero_digest ana_m POLICY_VERSION_V1 false [ana_m].
Definition run_digest : bytes := match roster_encode run_genesis with Ok bs => run_commitment bs | Err _ => [] end.
Definition run_successor : Roster := mkRoster first_group 1 run_digest ana_m POLICY_VERSION_V1 false [ana_m; bob_m].
Definition run_invitation : InvitationId := replicate 16 x05.
Definition run_acceptance : bytes :=
  match payload_encode (PAcceptance (mkAcceptance first_group run_invitation 0 run_digest)) with Ok bs => bs | Err _ => [] end.

(** The directory is not synced after the fourteenth write. *)
Definition run_store : FileOperationStore :=
  mkFileStore "ops" (mkFs ∅ ∅) (replicate 13 io_fine ++ [mkIo (fun _ => true) None true true true false true]) (fun k => Z.of_nat k).

Definition run_opening := open_coordinator run_store (fun _ => true) (Some (bstr "st0")).
Definition run0 : @Online (DurableStore FileOperationStore) :=
  mkOnline (match run_opening.2 with Ok c => c | Err _ => mkCoord first_store (snapshot_empty 0) None false 0 end) [].
Definition run1 := (attach_session (rc := run_commitment) (pc := run_commitment) run0 ana_m first_group ana_m (Some run_genesis)).1.
Definition run2 := (invite run_commitment run_encrypt run_dispatch run1 run_invitation bob_m bob_route.2 100 1).1.
Definition run3 := mkOnline
  (client_receive run_commitment run_commitment (se_coord run2) 2
     (Some [Some (mkStaged x02 KGroup (Some run_acceptance) (Some (bstr "bob")) EAdvanced (bstr "st2"))]) true).1
  (se_log run2).
Definition run4 := (install_roster run_commitment run_commitment (bstr "ana") run_encrypt run_dispatch run3 run_successor
  [bob_route] (Some (run_invitation, bob_m)) 3).1.
Definition run5 := (send_group run_commitment run_encrypt run_dispatch run4 [bob_route] (bstr "hi")).1.
Definition run6 := (send_group run_commitment run_encrypt run_dispatch run5 [bob_route] (bstr "yo")).1.
Definition run7 := (recover (rc := run_commitment) (pc := run_commitment) run6 true).1.
Definition run8 := (send_direct run_prepare run_export run_dispatch run7 bob_route.2 (bstr "psst")).1.
Definition run_group : GroupState := default (awaiting ana_m first_group ana_m) (group_of run6).

Local Abbreviation run_call := (call (rc := run_commitment) (pc := run_commitment) (bstr "ana") run_encrypt run_dispatch
  run_prepare run_export run_dispatch (St := FileOperationStore)).

Lemma run_calls_to4 : rtc run_call run0 run4.
Proof.
  assert (room 1 run1) as K1 by (intros g Hg; vm_compute in Hg; injection Hg as <-; by vm_compute).
  assert (room (len [bob_route]) run3) as K3 by (intros g Hg; vm_compute in Hg; injection Hg as <-; by vm_compute).
  eapply (rtc_l _ _ run1).
  { eapply (call_attach _ _ _ _ _ _ run0 ana_m first_group ana_m (Some run_genesis)); [by vm_compute| | |apply surjective_pairing].
    - intros x [= <-]. split_and!; by vm_compute.
    - by vm_compute. }
  eapply (rtc_l _ _ run2).
  { eapply (call_invite _ _ _ _ _ _ run1 run_invitation bob_m bob_route.2 100 1); [by vm_compute|by vm_compute|exact K1|apply surjective_pairing]. }
  eapply (rtc_l _ _ run3); [eapply (call_receive _ _ _ _ _ _ run2); apply surjective_pairing|].
  eapply (rtc_l _ _ run4); [|apply rtc_refl].
  { eapply (call_install _ _ _ _ _ _ run3 run_successor [bob_route] (Some (run_invitation, bob_m)) 3); [| |exact K3|apply surjective_pairing].
    - split_and!; by vm_compute.
    - apply Forall_singleton. by vm_compute. }
Qed.

Lemma run_calls_to6 : rtc run_call run0 run6.
Proof.
  eapply (rtc_r _ run5 _); [eapply (rtc_r _ run4 _); [exact run_calls_to4|]|].
  - eapply call_send_group; exact (surjective_pairing (send_group run_commitment run_encrypt run_dispatch run4 _ _)).
  - eapply call_send_group; exact (surjective_pairing (send_group run_commitment run_encrypt run_dispatch run5 _ _)).
Qed.

Lemma run_recovers : run_call run6 run7.
Proof.
  eapply (call_recover _ _ _ _ _ _ run6 true); [| |apply surjective_pairing].
  - intros g Hg. vm_compute in Hg. injection Hg as <-. by vm_compute.
  - intros g x Hg Hx. vm_compute in Hg. injection Hg as <-. vm_compute in Hx. injection Hx as <-. split_and!; by vm_compute.
Qed.

Lemma run_opened : opened run0.
Proof.
  exists run_store, (fun _ => true), (Some (bstr "st0")), run_opening.1, (se_coord run0), None.
  split; [by vm_compute|]. split; [by vm_compute|]. split; [done|]. split; by vm_compute.
Qed.

Lemma restart_rebuilds_witness :
  is_frozen (se_coord run6) = true /\
  attach_state run_commitment run_commitment (co_snap (se_coord run6)) ana_m first_group ana_m (Some run_genesis)
    = Ok (as_rebuilt run_group) /\
  length (sends (gs_outbox run_group)) = 1%nat /\ length (handoffs (gs_control run_group)) = 2%nat /\
  (status <$> invitations (gs_book run_group)) = [IAdmitted 1] /\
  exists g', group_of run7 = Some g' /\ length (sends (gs_outbox g')) = 2%nat /\
    durable (inner (co_store (se_coord run6))) = Ok (Some (co_snap (se_coord run7))) /\
    exists g1, attach_state run_commitment run_commitment (co_snap (se_coord run7)) ana_m first_group ana_m (Some run_genesis)
      = Ok (as_rebuilt g1).
Proof.
  assert (durable (inner (co_store (se_coord run6))) = Ok (Some (co_snap (se_coord run7)))) as Hl by (by vm_compute).
  destruct (restart_rebuilds run_commitment run_commitment (bstr "ana") run_encrypt run_dispatch run_prepare run_export run_dispatch
    run0 run6 run_group) as [H1 (top & g1 & Hd & _ & Hi & Hg)].
  - intros x. by apply len_be_bytes.
  - intros x. by apply len_be_bytes.
  - by intros log to id p c st [= <- <-].
  - exact run_opened.
  - exact run_calls_to6.
  - by vm_compute.
  - pose proof (Some_inj _ _ (Ok_inj _ _ (eq_trans (eq_sym Hl) Hd))) as Ht. clear Hd.
    rewrite <- Ht in Hg. split; [by vm_compute|]. split.
    { apply H1. intros r Hr. vm_compute in Hr. injection Hr as <-. by vm_compute. }
    split; [by vm_compute|]. split; [by vm_compute|]. split; [by vm_compute|].
    exists (default run_group (group_of run7)). split; [by vm_compute|]. split; [by vm_compute|]. split; [exact Hl|]. exists g1. apply Hg.
    apply (issued_left g1 0); [done|]. rewrite Z.add_0_r. eapply Z.le_lt_trans; [exact Hi|by vm_compute].
Defined.

Lemma only_committed_is_sent_witness :
  (exists snap g m,
    saved (co_store (se_coord run4)) (co_snap (se_coord run4)) (co_store (se_coord run5)) snap /\
    hands g m (bstr "ct") /\ route_is_members_device m bob_route.2 = true) /\
  direct_committed run_prepare run_export run7 run8 bob_route.2 (bstr "dm:psst").
Proof.
  assert (se_log run5 = se_log run4 ++ drop 4 (se_log run5)) as Hl by (by vm_compute).
  assert (ADispatch bob_route.2 (bstr "ct") ∈ drop 4 (se_log run5)) as Hin by (vm_compute; right; left).
  assert (se_log run8 = se_log run7 ++ drop 6 (se_log run8)) as Hl8 by (by vm_compute).
  assert (ADispatchDirect bob_route.2 (bstr "dm:psst") ∈ drop 6 (se_log run8)) as Hin8 by (vm_compute; right; left).
  pose proof (fun s s' => only_committed_is_sent run_commitment run_commitment (bstr "ana") run_encrypt run_dispatch
    run_prepare run_export run_dispatch run0 s s' (fun x => len_be_bytes 32 (len x)) (fun x => len_be_bytes 32 (len x))
    ltac:(by intros log to id p c st [= <- <-]) run_opened) as Hsent.
  split.
  - destruct (Hsent run4 run5) as (acts & Hl' & Ha & _); [exact run_calls_to4|eapply call_send_group; exact (surjective_pairing (send_group run_commitment run_encrypt run_dispatch run4 _ _))|].
    pose proof (app_inv_head _ _ _ (eq_trans (eq_sym Hl) Hl')) as <-. destruct (Ha _ _ Hin) as (snap & g & m & H1 & H2 & H3 & _).
    exists snap, g, m. exact (conj H1 (conj H2 H3)).
  - destruct (Hsent run7 run8) as (acts & Hl' & _ & Ha); [exact (rtc_r _ _ _ run_calls_to6 run_recovers)
      |eapply (call_send_direct _ _ _ _ _ _ run7); apply surjective_pairing|].
    pose proof (app_inv_head _ _ _ (eq_trans (eq_sym Hl8) Hl')) as <-. exact (Ha _ _ Hin8).
Defined.

(** ** An attach on a frozen coordinator

    [create_group], [join_group] and [await_group] do not read the freeze.  A
    recovery whose client does not take the provider state has lifted the latch
    of the store; an attach then drains a held roster and commits it from the
    snapshot the coordinator still works from, over what another coordinator has
    made durable since. *)
Definition held_roster : bytes := match payload_encode (PRoster run_successor) with Ok bs => bs | Err _ => [] end.
Definition late0 : @Online (DurableStore FileOperationStore) :=
  mkOnline (match (open_coordinator fresh_file_store (fun _ => true) (Some (bstr "late"))).2 with
            | Ok c => c | Err _ => mkCoord first_store (snapshot_empty 0) None false 0 end) [].
Definition late1 := (attach_session (rc := run_commitment) (pc := run_commitment) late0 bob_m first_group ana_m None).1.
Definition late2 := mkOnline
  (client_receive run_commitment run_commitment (se_coord late1) 2
     (Some [Some (mkStaged x01 KGroup (Some held_roster) (Some (bstr "ana")) EAdvanced (bstr "late2"))]) true).1
  (se_log late1).
(** Another coordinator opens the store and sends. *)
Definition other0 : @Online (DurableStore FileOperationStore) :=
  mkOnline (match (open_coordinator (inner (co_store (se_coord late2))) (fun _ => true) (Some (bstr "late2"))).2 with
            | Ok c => c | Err _ => mkCoord first_store (snapshot_empty 0) None false 0 end) [].
Definition other1 := (send_direct run_prepare run_export run_dispatch other0 bob_route.2 (bstr "psst")).1.
Definition late3 :=
  let c := se_coord late2 in
  mkOnline (mkCoord (with_inner (co_store c) (inner (co_store (se_coord other1)))) (co_snap c) (co_group c) (co_poisoned c)
    (co_handed_over c)) (se_log late2).
Definition late4 := (send_direct run_prepare run_export run_dispatch late3 bob_route.2 (bstr "psst")).1.
Definition late5 := (recover (rc := run_commitment) (pc := run_commitment) late4 false).1.
Definition late6 := (attach_session (rc := run_commitment) (pc := run_commitment) late5 bob_m first_group ana_m (Some run_genesis)).1.

Definition durable_state (s : @Online (DurableStore FileOperationStore)) : option (Z * bytes) :=
  match durable (inner (co_store (se_coord s))) with
  | Ok (Some top) => Some (generation top, provider_state top)
  | _ => None
  end.

Lemma frozen_attach_overwrites :
  (recover (rc := run_commitment) (pc := run_commitment) late4 false).2 = Err ErrClient /\ is_frozen (se_coord late5) = true /\
  ADispatchDirect bob_route.2 (bstr "dm:psst") ∈ se_log other1 /\ durable_state late5 = Some (3, bstr "st3") /\
  (attach_session (rc := run_commitment) (pc := run_commitment) late5 bob_m first_group ana_m (Some run_genesis)).2 = Ok tt /\
  durable_state late6 = Some (4, bstr "late2").
Proof.
  split; [by vm_compute|]. split; [by vm_compute|]. split; [vm_compute; right; left|]. by vm_compute.
Qed.
