(* ===== verification/GroupDrain.v ===== *)
(** * GroupDrain: held roster controls are applied as far as they go
    ([tacenta-client/src/group_client.rs], [drain_deferred_rosters])

    Draining ends: every control it applies or refuses leaves the queue, so the
    length of the queue bounds the turns.  When it succeeds, nothing that is
    still held follows the installed roster. *)

From S2P Require Import Prelude GroupCodec RosterView GroupReceive GroupSend.
From S2P Require Import OperationStore DeferredRosters GroupTranscript GroupRecords GroupInbound GroupClient GroupTransition GroupSession.

Lemma sublist_misses {A} (l l' : list A) x : sublist l l' -> x ∈ l' -> x ∉ l -> (length l < length l')%nat.
Proof.
  induction 1 as [|y l l' Hs IH|y l l' Hs IH]; intros Hx Hn; cbn; [by apply elem_of_nil in Hx| |].
  - apply not_elem_of_cons in Hn as [Hne Hn]. apply elem_of_cons in Hx as [->|Hx]; [done|]. specialize (IH Hx Hn). lia.
  - pose proof (sublist_length _ _ Hs). lia.
Qed.

Lemma filter_sublist {A} (P : A -> Prop) `{!forall x, Decision (P x)} l : sublist (filter P l) l.
Proof.
  induction l as [|y l IH]; [done|]. rewrite filter_cons. destruct (decide (P y)); [by apply sublist_skip|by apply sublist_cons].
Qed.

(** Taking a control out of a queue that holds it. *)
Lemma remove_shrinks (q q0 : DeferredRosters) x :
  sublist (rosters q) (rosters q0) -> x ∈ rosters q0 ->
  sublist (rosters (deferred_remove q (revision x))) (rosters q0) /\
  (length (rosters (deferred_remove q (revision x))) < length (rosters q0))%nat.
Proof.
  intros Hs Hx. assert (sublist (rosters (deferred_remove q (revision x))) (rosters q0)) as Hsub
    by (etrans; [apply filter_sublist|exact Hs]).
  split; [exact Hsub|]. apply (sublist_misses _ _ x Hsub Hx). intros [Hn _]%list_elem_of_filter. done.
Qed.

Lemma deferred_transition_shrinks (v : RosterView) queue x d :
  x ∈ rosters queue -> follows_view v x ->
  let q := (deferred_transition (revision (v_roster v)) x d (mkDeferredCommit queue (Some (revision x)))).1 in
  sublist (rosters q) (rosters queue) /\ (length (rosters q) < length (rosters queue))%nat.
Proof.
  intros Hx [Hr _]. unfold deferred_transition. cbn [dc_queue dc_applying].
  assert ((revision x >? saturating_add64 (revision (v_roster v)) 1) = false) as Hnot.
  { unfold checked_add64 in Hr. destruct (_ <=? _) eqn:E in Hr; [|done]. injection Hr as ->. unfold saturating_add64.
    bool_prop. lia. }
  rewrite Hnot. cbn [andb].
  destruct d as [| |[]]; cbv zeta; apply remove_shrinks; try done; cbn; apply filter_sublist.
Qed.

Section Drain.
Context (rc pc : bytes -> bytes).
Context {St : Type} `{OperationStore St}.
Implicit Types store : St.

(** One turn: the view moves on by a held control or stays, and that control is
    held no more. *)
Lemma next_deferred_spec store store' snap v r o q snap' v' r' o' q' c :
  commit_next_deferred_roster rc pc store snap v r o q = (store', Ok (snap', (v', r', o', q', c))) ->
  match c with
  | None => next_for q v = None /\ v' = v /\ q' = q
  | Some _ => sublist (rosters q') (rosters q) /\ (length (rosters q') < length (rosters q))%nat /\
      (v' = v \/ (successor v v' /\ v_roster v' ∈ rosters q))
  end.
Proof.
  intros Hc. unfold commit_next_deferred_roster in Hc. destruct (next_for q v) as [next|] eqn:En; [|injection Hc; intros; subst; by split_and!].
  apply next_for_in in En as [Hin Hf].
  destruct (commit_roster_transition _ _ _ _ _ _ _ _) as [st res] eqn:Et. destruct res as [[s1 [[s' sends] rcm]]|]; [|done].
  injection Hc as _ _ Hv _ _ Hq <-. apply publish_Ok in Et.
  destruct (roster_encode next) as [pre|]; [|done]. cbn [map_err mbind result_bind] in Et. cbv zeta in Et.
  destruct (accept_successor _ _ _ _) as [v1 d] eqn:Ea. inv_bind. cbn.
  pose proof (deferred_transition_shrinks v q next d Hin Hf) as [H1 H2]. cbn in H1, H2.
  destruct (deferred_transition _ _ _ _) as [q1 held]. cbn in *. split_and!; [done|done|].
  apply accept_successor_cases in Ea as [(_ & -> & _ & Hs)|[_ ->]]; [right; by split|by left].
Qed.

(** What pruning leaves. *)
Lemma prune_leaves q v :
  next_for q v = None ->
  next_for (prune_through q (revision (v_roster v))) v = None /\
  Forall (fun x => revision (v_roster v) < revision x) (rosters (prune_through q (revision (v_roster v)))).
Proof.
  intros Hn. unfold next_for in *. apply fmap_None, list_find_None in Hn. split.
  - apply fmap_None, list_find_None. cbn. apply Forall_forall. intros x [_ Hx]%list_elem_of_filter. rewrite Forall_forall in Hn. by apply Hn.
  - cbn. apply Forall_forall. intros x [Hx _]%list_elem_of_filter. lia.
Qed.

(** The views a drain goes through are held controls, each the successor of the
    one before. *)
Definition drained (v : RosterView) (q : DeferredRosters) (v' : RosterView) (q' : DeferredRosters) : Prop :=
  sublist (rosters q') (rosters q) /\
  exists vs, chain v vs /\ v' = latest v vs /\ Forall (fun x => v_roster x ∈ rosters q) vs.

Lemma drained_refl v q : drained v q v q.
Proof. split; [done|]. exists []. by split_and!. Qed.

Lemma drained_step v q v1 q1 v' q' :
  sublist (rosters q1) (rosters q) -> v1 = v \/ (successor v v1 /\ v_roster v1 ∈ rosters q) ->
  drained v1 q1 v' q' -> drained v q v' q'.
Proof.
  intros Hs Hv [Hs' (vs & Hc & Hl & Hf)]. split; [by etrans|].
  assert (Forall (fun x => v_roster x ∈ rosters q) vs) as Hf'.
  { eapply Forall_impl; [exact Hf|]. intros x Hx. cbn in *. by eapply elem_of_sublist. }
  destruct Hv as [-> |[Hsuc Hin]]; [by exists vs|]. exists (v1 :: vs). split_and!; [done|done|by constructor].
Qed.

Lemma drain_loop_spec fuel : forall store snap v r o q events,
  (length (rosters q) < fuel)%nat ->
  exists store' snap' v' r' o' q' res,
    drain_loop rc pc fuel store snap (v, r, o, q) events = Some (store', (snap', (v', r', o', q')), res) /\
    drained v q v' q' /\ (forall x, res = Ok x -> next_for q' v' = None).
Proof.
  induction fuel as [|fuel IH]; intros store snap v r o q events Hl; [lia|]. cbn [drain_loop].
  destruct (commit_next_deferred_roster _ _ _ _ _ _ _ _) as [st [[s1 [[[[v1 r1] o1] q1] c]]|e]] eqn:E.
  2: { do 7 eexists. split_and!; [done|apply drained_refl|done]. }
  apply next_deferred_spec in E. destruct c as [c|].
  - destruct E as (Hs & Hlt & Hv).
    destruct (IH st s1 v1 r1 o1 q1 (events ++ accepted_events (rc_revalidated c)) ltac:(lia))
      as (st' & s' & v' & r' & o' & q' & res & He & Hd & Hn).
    do 7 eexists. split_and!; [exact He|by eapply drained_step|exact Hn].
  - destruct E as (Hn & -> & ->). do 7 eexists. split_and!; [done|apply drained_refl|done].
Qed.
End Drain.

(** * Properties *)

(** C21. Draining held roster controls ends and leaves nothing to apply: the
    loop stops within one turn more than there are held controls, whatever the
    store does; the roster it ends on is reached from the installed one through
    held controls only, each naming its predecessor's digest; what is still
    held was held before; and if the drain succeeds, every control still held
    is above the accepted revision and none of them follows it. *)
Theorem drain_applies_what_follows rc pc {St} `{OperationStore St} (store store' : St) snap g v r snap' g' res :
  gs_view g = Some v -> gs_receiver g = Some r ->
  drain_deferred_rosters rc pc store snap g = (store', (snap', g'), res) ->
  (exists out, drain_loop rc pc (S (length (rosters (gs_deferred g)))) store snap (v, r, gs_outbox g, gs_deferred g) [] = Some out) /\
  exists v', gs_view g' = Some v' /\ drained v (gs_deferred g) v' (gs_deferred g') /\
    forall events, res = Ok events ->
      next_for (gs_deferred g') v' = None /\
      Forall (fun x => revision (v_roster v') < revision x) (rosters (gs_deferred g')).
Proof.
  intros Hv Hr Hd. unfold drain_deferred_rosters in Hd. rewrite Hv, Hr in Hd.
  destruct (drain_loop_spec rc pc (S (length (rosters (gs_deferred g)))) store snap v r (gs_outbox g) (gs_deferred g) []
    ltac:(lia)) as (st & s1 & v1 & r1 & o1 & q1 & res1 & He & Hdr & Hn).
  split; [by eexists|]. rewrite He in Hd. destruct res1 as [events|e].
  2: { injection Hd as _ _ <- <-. exists v1. by split_and!. }
  specialize (Hn events eq_refl). unfold commit_prune_deferred_rosters in Hd. cbv zeta in Hd.
  apply prune_leaves in Hn as [Hn Hall]. pose proof (filter_sublist (fun held => revision held > revision (v_roster v1)) (rosters q1)) as Hs.
  case_bool_decide as Ep.
  - rewrite Ep in Hn, Hall. injection Hd as _ _ <- <-. exists v1. by split_and!.
  - destruct (publish _ _) as [st2 [[s2 [q2 b]]|e]] eqn:Epub; injection Hd as _ _ <- <-; [|exists v1; by split_and!].
    apply publish_Ok in Epub. inv_bind. exists v1. split_and!; [done| |done]. destruct Hdr as [H1 H2].
    split; [by etrans|exact H2].
Qed.

(** The group of the run above, holding the successor of its genesis and a
    later control. *)
Definition held_group : GroupState :=
  with_queue (default (awaiting ana_m first_group ana_m) (group_of run1))
    (mkDeferredRosters [run_successor; mkRoster first_group 3 run_digest ana_m POLICY_VERSION_V1 false [ana_m]]).
Definition drained_group := drain_deferred_rosters run_commitment run_commitment first_store (snapshot_empty 0) held_group.

Lemma drain_applies_what_follows_witness :
  exists v', gs_view drained_group.1.2.2 = Some v' /\ v_roster v' = run_successor /\
    (revision <$> rosters (gs_deferred drained_group.1.2.2)) = [3] /\
    next_for (gs_deferred drained_group.1.2.2) v' = None.
Proof.
  destruct (gs_view held_group) as [v|] eqn:Hv; [|by vm_compute in Hv].
  destruct (gs_receiver held_group) as [r|] eqn:Hr; [|by vm_compute in Hr].
  assert (drained_group = (drained_group.1.1, (drained_group.1.2.1, drained_group.1.2.2), drained_group.2)) as Hd
    by (by rewrite <- !surjective_pairing).
  destruct (drain_applies_what_follows run_commitment run_commitment first_store _ (snapshot_empty 0) held_group v r _ _ _
    Hv Hr Hd) as (_ & v' & Hv' & _ & Hn).
  assert (v_roster <$> gs_view drained_group.1.2.2 = Some run_successor) as Hs by (by vm_compute).
  rewrite Hv' in Hs. injection Hs as Hs. exists v'. split_and!; [exact Hv'|exact Hs|by vm_compute|].
  apply (Hn []). by vm_compute.
Defined.
