(* ===== verification/GroupPrepare.v ===== *)
(** * GroupPrepare: nothing that can refuse runs after an encryption
    ([tacenta-client/src/group_operations.rs])

    A preparation encrypts once, after a dry run of its commit against a store
    that discards.  The commit that follows the encryption differs from the dry
    run in the ciphertext, the provider state and the store only, and is shown
    not to refuse where the dry run did not: it is published, or the coordinator
    freezes. *)

From S2P Require Import Prelude Framing GroupCodec Invitation GroupPayload RosterView GroupReceive GroupSend GroupControl.
From S2P Require Import OperationStore DeferredRosters GroupTranscript GroupCompaction GroupRecords GroupInbound GroupClient GroupDrive.
From S2P Require Import GroupRecovery GroupTransition GroupCoordinator GroupSession.

(** ** Published or frozen *)
Lemma publish_refuses {St A} `{OperationStore St} (st : St) (r : result GroupOperationError (OperationSnapshot * A)) :
  snd (publish st r) = Err Policy -> r = Err Policy.
Proof.
  unfold publish. destruct r as [[c a]|e]; [|by intros [= ->]]. destruct (store_commit st c) as [st' o]. cbn. by case_bool_decide.
Qed.

Lemma publish_discard {A} (r : result GroupOperationError (OperationSnapshot * A)) x :
  snd (publish discard r) = Ok x -> r = Ok x.
Proof. unfold publish. by destruct r as [[c a]|e]. Qed.

Lemma begin_refuses {St} `{OperationStore St} (st : St) snap : begin_candidate st snap <> Err Policy.
Proof. unfold begin_candidate. destruct (store_is_frozen st); [done|]. by destruct (store_next_generation _ _). Qed.

Lemma run_commit_policy {St X A} `{OperationStore St} (l : @Live St) (x : X) r0 l' x' (r : result GroupLiveError A) :
  run_commit l x r0 = (l', x', r) -> r = Err LPolicy -> snd r0 = Err Policy.
Proof. unfold run_commit. destruct r0 as [st [[snap [x1 a]]|[]]]; intros [= _ _ <-]; done. Qed.

(** ** Control records of two candidates *)
(** The records of two candidates differ in the control outbox's only. *)
Definition kin (r r' : bytes) : Prop := r = r' \/ (starts_with TCGO r = true /\ starts_with TCGO r' = true).

Lemma kin_refl l : Forall2 kin l l.
Proof. induction l; constructor; [by left|done]. Qed.

Lemma kin_tag tag r r' : length tag = 4%nat -> kin r r' -> starts_with tag r = starts_with tag r'.
Proof.
  intros Ht [->|[H1 H2]]; [done|].
  by rewrite (starts_other TCGO tag r H1 (eq_sym Ht)), (starts_other TCGO tag r' H2 (eq_sym Ht)).
Qed.

Lemma kin_scope r r' : kin r r' -> checkpoint_scope r = checkpoint_scope r'.
Proof.
  intros Hk. unfold checkpoint_scope. f_equal.
  assert (forall l, Forall (fun tag => tag ∈ CHECKPOINT_TAGS) l -> list_find (fun tag => starts_with tag r = true) l =
    list_find (fun tag => starts_with tag r' = true) l) as H.
  { induction l as [|tag l IH]; [done|]. intros [Ht Hl]%Forall_cons. cbn.
    rewrite (kin_tag tag r r' (tag_length _ Ht) Hk). by rewrite (IH Hl). }
  rewrite H; [done|]. by apply Forall_forall.
Qed.

Lemma kin_get_to r r' : starts_with TCGO r = true -> starts_with TCGO r' = true -> get_to 4 r = get_to 4 r'.
Proof.
  intros [x ->]%starts_with_true [y ->]%starts_with_true. by rewrite !get_to_app.
Qed.

Lemma kin_append_record l l' r r' :
  Forall2 kin l l' -> kin r r' -> Forall2 kin (append_record l r) (append_record l' r').
Proof.
  intros Hl Hr. unfold append_record. rewrite <- (kin_scope r r' Hr). apply Forall2_app; [|by constructor].
  destruct (checkpoint_scope r) as [[tag scope]|] eqn:Es; [|done].
  assert (tag ∈ CHECKPOINT_TAGS /\ starts_with tag r = true /\ (tag = TCGO -> scope = 4)) as (Ht & Hs & Hsc).
  { unfold checkpoint_scope in Es. destruct (list_find _ _) as [[i t]|] eqn:Ef; [|done]. injection Es as <- <-.
    apply list_find_Some in Ef as (Hi & Hs & _). split_and!; [by eapply list_elem_of_lookup_2|done|by intros ->]. }
  induction Hl as [|x y l l' Hx Hl IH]; [done|]. rewrite !filter_cons.
  assert (negb (starts_with tag x && bool_decide (get_to scope x = get_to scope r)) =
          negb (starts_with tag y && bool_decide (get_to scope y = get_to scope r'))) as ->.
  { rewrite (kin_tag tag x y (tag_length _ Ht) Hx). destruct (starts_with tag y) eqn:Ey; [|done]. cbn. f_equal.
    destruct (decide (tag = TCGO)) as [->|Hne].
    - rewrite (Hsc eq_refl). destruct Hr as [<-|[Hr1 Hr2]].
      + destruct Hx as [<-|[Hx1 Hx2]]; [done|]. by rewrite (kin_get_to x y).
      + apply bool_decide_ext. rewrite (kin_get_to r r') by done.
        destruct Hx as [<-|[Hx1 Hx2]]; [done|]. by rewrite (kin_get_to x y).
    - assert (forall z, starts_with tag z = true -> starts_with TCGO z = true -> False) as Hno.
      { intros z H1 H2. apply Hne. apply (one_tag tag TCGO z); [done| |done|done]. by repeat (left || right). }
      destruct Hx as [<-|[Hx1 Hx2]]; [|by destruct (Hno y)]. destruct Hr as [<-|[Hr1 Hr2]]; [done|by destruct (Hno r)]. }
  case_decide; [by constructor|done].
Qed.

Lemma kin_fold rs rs' : Forall2 kin rs rs' -> forall l l',
  Forall2 kin l l' -> Forall2 kin (fold_left append_record rs l) (fold_left append_record rs' l').
Proof. induction 1 as [|r r' rs rs' Hr Hrs IH]; intros l l' Hl; cbn; [done|]. by apply IH, kin_append_record. Qed.

Lemma kin_rposition tag l l' : length tag = 4%nat -> Forall2 kin l l' -> forall i, rposition tag i l = rposition tag i l'.
Proof.
  intros Ht. induction 1 as [|x y l l' Hx Hl IH]; intros i; cbn; [done|]. rewrite IH. destruct (rposition tag (S i) l'); [done|].
  by rewrite (kin_tag tag x y Ht Hx).
Qed.

Lemma kin_eviction l l' : Forall2 kin l l' -> eviction l = eviction l'.
Proof.
  intros Hl. unfold eviction. rewrite (Forall2_length _ _ _ Hl). f_equal. apply list_find_ext. intros i.
  split; intros H; apply Forall_forall; intros tag Ht; rewrite Forall_forall in H; specialize (H tag Ht);
    by rewrite (kin_rposition tag l l' (tag_length _ Ht) Hl) in *.
Qed.

Lemma kin_evict fuel : forall l l', Forall2 kin l l' -> option_Forall2 (Forall2 kin) (evict_loop fuel l) (evict_loop fuel l').
Proof.
  induction fuel as [|fuel IH]; intros l l' Hl; cbn [evict_loop]; unfold len; rewrite (Forall2_length _ _ _ Hl);
    destruct (_ <=? _); try (by constructor).
  rewrite (kin_eviction l l' Hl). destruct (eviction l') as [i|]; cbn; [|by constructor]. by apply IH, Forall2_delete.
Qed.

Lemma kin_append snap snap' rs rs' :
  Forall2 kin (group_controls snap) (group_controls snap') -> Forall2 kin rs rs' ->
  Forall2 kin (group_controls (append_group_control_records snap rs)) (group_controls (append_group_control_records snap' rs')).
Proof.
  intros Hl Hr. unfold append_group_control_records, append_controls. cbn. cbv zeta.
  pose proof (kin_fold rs rs' Hr _ _ Hl) as Hf. rewrite (Forall2_length _ _ _ Hf).
  by destruct (kin_evict (length (fold_left append_record rs' (group_controls snap'))) _ _ Hf).
Qed.

Lemma kin_cancellation g l l' : Forall2 kin l l' -> forall a, latest_cancellation g a l = latest_cancellation g a l'.
Proof.
  induction 1 as [|x y l l' Hx Hl IH]; intros a; [done|]. cbn [latest_cancellation].
  rewrite (kin_tag TCGX x y eq_refl Hx). destruct (starts_with TCGX y) eqn:Ey; [|apply IH].
  destruct Hx as [->|[_ Hy]].
  - destruct (split_at_checked _ _) as [[u v]|]; [|done]. cbn [ok_or mbind result_bind]. destruct (to_array 8 v); [|done].
    cbn [ok_or mbind result_bind]. destruct (group_id_try_from u); [|done]. cbn [map_err mbind result_bind]. apply IH.
  - pose proof (one_tag TCGX TCGO y ltac:(by repeat (left || right)) ltac:(by repeat (left || right)) Ey Hy) as Hbad. done.
Qed.

(** Two candidates that differ in the control outbox's record, the provider
    state and the generation. *)
Definition alike (c c' : OperationSnapshot) : Prop :=
  snap_outbox c = snap_outbox c' /\ Forall2 kin (group_controls c) (group_controls c').

Section Alike.
Context (rc pc : bytes -> bytes).

Lemma alike_recover c c' g : alike c c' -> recover_group_outbox pc c g = recover_group_outbox pc c' g.
Proof.
  intros [Ho Hc]. unfold recover_group_outbox, latest_group_outbox_cancellation. by rewrite (kin_cancellation g _ _ Hc), Ho.
Qed.

Lemma alike_outbox d g o c c' c1 o1 :
  alike c c' -> outbox_transition pc d g o c = Ok (c1, o1) ->
  exists c1', outbox_transition pc d g o c' = Ok (c1', o1) /\ alike c1 c1'.
Proof.
  intros Ha Ht. unfold outbox_transition in *. destruct o as [o|]; [|injection Ht as <- <-; by eexists].
  destruct (is_roster_accepted d); [|injection Ht as <- <-; by eexists].
  unfold compact_group_outbox in *. rewrite (alike_recover c c' g Ha) in Ht. pose proof Ha as [Ho Hc]. rewrite Ho in Ht.
  destruct (recover_group_outbox pc c' g) as [x|]; [|done]. cbn [mbind result_bind] in *.
  destruct (group_outbox_ids g [] (snap_outbox c')) as [ids|]; [|done]. cbn [mbind result_bind] in *. cbv zeta in *.
  destruct (_ <=? _); [injection Ht as <- <-; by eexists|].
  destruct (keep_entries _ _ _) as [kept|]; [|done]. cbn [mbind result_bind] in *.
  assert (alike (with_outbox c kept) (with_outbox c' kept)) as Ha' by done. rewrite (alike_recover _ _ g Ha') in Ht.
  destruct (recover_group_outbox pc (with_outbox c' kept) g) as [y|]; [|done]. cbn [mbind result_bind] in *.
  injection Ht as <- <-. by eexists.
Qed.

Lemma alike_revalidated items : forall c c' c1, record_revalidated c items = Ok c1 -> exists c1', record_revalidated c' items = Ok c1'.
Proof.
  induction items as [|item items IH]; intros c c' c1 Hr; cbn [record_revalidated] in *; [by eexists|].
  destruct (context_encode _) as [ctx|]; [|done]. cbn [map_err mbind result_bind] in *.
  unfold record_receive in *. destruct (encode_receive_record _ _ _ _) as [rec|]; [|done]. cbn [mbind result_bind] in *. by eapply IH.
Qed.

Lemma alike_receiver d candidate cm r c c' x :
  receiver_transition d candidate cm r c = Ok x -> exists x', receiver_transition d candidate cm r c' = Ok x'.
Proof.
  intros Ht. unfold receiver_transition in *. destruct r as [r|]; [|by eexists].
  destruct (is_roster_accepted d).
  - destruct (install_accepted_roster r candidate cm) as [r1 [items|]]; [|done]. cbn [map_err mbind result_bind] in *.
    destruct (record_revalidated c items) as [c1|] eqn:E; [|done]. cbn [mbind result_bind] in Ht.
    destruct (alike_revalidated items c c' c1 E) as [c1' ->]. cbn [mbind result_bind].
    destruct (receiver_encode_state r1); [by eexists|done].
  - cbn [mbind result_bind] in *. destruct (receiver_encode_state r); [by eexists|done].
Qed.
End Alike.

(** ** Recording a prepared control *)
Section Prepare.
Context (rc pc : bytes -> bytes).

(** The outbox has room for the control: sequences, a checkpoint within its
    length field, and no entry that carries the placeholder of the dry run. *)
Record room_for (o : ControlOutbox) (m : Member) (p c : bytes) : Prop := {
  rf_ok : prepare_ok m p c;
  rf_inv : control_room pc 1 o;
  rf_placeholder : Forall (fun h => h_ciphertext h <> [x00]) (handoffs o);
  rf_fits o1 st : control_record_prepared pc o m p c = Ok (o1, tt) -> control_encode_state pc o1 = Ok st -> len st <= u32_max
}.

Lemma record_after_dry_run o m p c o0 :
  room_for o m p c -> control_record_prepared pc o m p [x00] = Ok (o0, tt) ->
  exists o1 st r h, control_record_prepared pc o m p c = Ok (o1, tt) /\ control_encode_state pc o1 = Ok st /\
    encode_control_outbox_record st = Ok r /\ control_handoff pc o1 m p = Ok h.
Proof.
  intros [Hok (n & Hn & Hroom) Hph Hfits] H0.
  apply prepare_cases in H0 as [(i & h & _ & Hf & _ & Hc)|(Hf & Hlive & Hctl & _)].
  { apply find_handoff_Some in Hf as (Hl & _ & _). rewrite Forall_lookup in Hph. by destruct (Hph _ _ Hl). }
  set (new := mkHandoff m p c 0 CPrepared (next_handoff_sequence o)).
  set (o1 := reclaim (mkControl (sort_by (canonical_order pc) (handoffs o ++ [new])))).
  assert (control_record_prepared pc o m p c = Ok (o1, tt)) as Hr.
  { unfold control_record_prepared. rewrite Hf, Hctl. destruct (control_live o >=? MAX_LIVE_HANDOFFS) eqn:E; [|done]. bool_prop. lia. }
  assert (exists k, control_inv pc k o1) as [k Hk].
  { destruct (prepare_inv pc n o m p c o1 Hn ltac:(lia) Hok Hr) as [Hi|Hi]; eauto. }
  destruct (control_inv_fits pc k o1 Hk) as [st Hst]. pose proof (Hfits o1 st Hr Hst) as Hle.
  assert (new ∈ handoffs o1) as Hin.
  { set (all := sort_by (canonical_order pc) (handoffs o ++ [new])).
    assert (new ∈ all) as Hall by (unfold all; rewrite sort_by_perm; apply elem_of_app; right; by left).
    destruct (reclaim_spec (mkControl all)) as [_ _ _ Hold]. destruct (Hold new Hall) as [?|[Ht _]]; done. }
  assert (exists h, control_handoff pc o1 m p = Ok h) as [h Hh].
  { unfold control_handoff, find_handoff.
    destruct (list_find_elem_of (fun x => (h_recipient x, pc (h_payload x)) = (m, pc p)) (handoffs o1) new Hin eq_refl) as [[i x] Hx].
    rewrite Hx. by exists x. }
  exists o1, st, (TCGO ++ be32 (len st) ++ st), h. split_and!; [done|done| |done].
  unfold encode_control_outbox_record, encode_checkpoint_record, u32_try_from. by rewrite (proj2 (Z.leb_le _ _) Hle).
Qed.

Lemma prepared_after_dry_run d o m p c x :
  room_for o m p c -> prepared_transition pc d (Some o) (Some (mkPrepared m p [x00])) = Ok x ->
  exists x', prepared_transition pc d (Some o) (Some (mkPrepared m p c)) = Ok x' /\ Forall2 kin x.2 x'.2 /\
    exists o1 h, x'.1 = Some o1 /\ control_handoff pc o1 m p = Ok h.
Proof.
  intros Hroom Hx. unfold prepared_transition in *. destruct (negb _); [done|]. cbn [ok_or mbind result_bind prep_recipient prep_payload prep_ciphertext] in *.
  destruct (control_record_prepared pc o m p [x00]) as [[o0 []]|] eqn:E0; [|done]. cbn [map_err mbind result_bind] in Hx.
  destruct (record_after_dry_run o m p c o0 Hroom E0) as (o1 & st & r & h & -> & Hst & Hr & Hh). cbn [map_err mbind result_bind].
  rewrite Hst. cbn [map_err mbind result_bind]. rewrite Hr. cbn [mbind result_bind]. eexists. split; [done|]. cbn.
  destruct (control_encode_state pc o0) as [st0|]; [|done]. cbn [map_err mbind result_bind] in Hx.
  destruct (encode_control_outbox_record st0) as [r0|] eqn:Hr0; [|done]. injection Hx as <-. cbn.
  split; [|by exists o1, h]. constructor; [|done]. right.
  split; (eapply checkpoint_tag; eassumption).
Qed.
(** The commits after an encryption. *)
Lemma control_commit_after_dry_run {St} `{OperationStore St} (st : St) snap o m p c state x :
  room_for o m p c ->
  snd (commit_prepared_control_handoff pc discard snap o m p [x00] []) = Ok x ->
  snd (commit_prepared_control_handoff pc st snap o m p c state) <> Err Policy.
Proof.
  intros Hroom Hx Hbad. unfold commit_prepared_control_handoff in Hx. apply publish_discard in Hx.
  apply publish_refuses in Hbad.
  destruct (control_record_prepared pc o m p [x00]) as [[o0 []]|] eqn:E0; [|done].
  destruct (record_after_dry_run o m p c o0 Hroom E0) as (o1 & s1 & r & h & Hr & Hs & Hrec & Hh).
  rewrite Hr in Hbad. cbn [map_err mbind result_bind] in Hbad. rewrite Hs in Hbad. cbn [map_err mbind result_bind] in Hbad.
  rewrite Hh in Hbad. cbn [map_err mbind result_bind] in Hbad.
  destruct (begin_candidate st snap) as [cd|e] eqn:Eb; [|injection Hbad as ->; by apply begin_refuses in Eb].
  cbn [mbind result_bind] in Hbad. by rewrite Hrec in Hbad.
Qed.

Lemma roster_commit_after_dry_run {St} `{OperationStore St} (st : St) snap a admission auth successor m p c state e x :
  room_for (ac_outbox a) m p c ->
  snd (commit_roster_transition rc pc discard snap (authority_state a admission ([], e) (mkPrepared m p [x00])) auth successor []) = Ok x ->
  snd (commit_roster_transition rc pc st snap (authority_state a admission (state, e) (mkPrepared m p c)) auth successor []) <> Err Policy.
Proof.
  intros Hroom Hx Hbad. unfold commit_roster_transition in *. apply publish_discard in Hx. apply publish_refuses in Hbad.
  cbn [authority_state rs_view rs_provider rs_deferred rs_group_outbox rs_control_outbox rs_prepared rs_book rs_admission rs_receiver] in Hx, Hbad.
  destruct (roster_encode successor) as [pre|]; [|done]. cbn [map_err mbind result_bind] in Hx, Hbad. cbv zeta in Hx, Hbad.
  destruct (accept_successor _ _ _ _) as [v d]. 
  destruct (begin_candidate discard snap) as [c0|] eqn:Eb0; [|done]. cbn [mbind result_bind] in Hx.
  destruct (begin_candidate st snap) as [c1|e1] eqn:Eb; [|injection Hbad as ->; by apply begin_refuses in Eb].
  cbn [mbind result_bind] in Hbad.
  change (transition_records (authority_state a admission ([], e) (mkPrepared m p [x00])) successor pre (rc pre) d)
    with (transition_records (authority_state a admission (state, e) (mkPrepared m p c)) successor pre (rc pre) d) in Hx.
  destruct (transition_records _ _ _ _ _) as [records|]; [|done]. cbn [mbind result_bind] in Hx, Hbad.
  destruct (prepared_transition pc d (Some (ac_outbox a)) (Some (mkPrepared m p [x00]))) as [y|] eqn:Ey; [|done].
  destruct (prepared_after_dry_run d (ac_outbox a) m p c y Hroom Ey) as (y' & Hy' & Hkin & o1 & h & _ & _).
  rewrite Hy' in Hbad. destruct y as [yo yr], y' as [yo' yr']. cbn [mbind result_bind snd] in Hx, Hbad, Hkin.
  destruct (admission_transition _ _ _ _ _) as [[book admitted]|]; [|done]. cbn [mbind result_bind] in Hx, Hbad.
  destruct (view_encode_state v) as [vs|]; [|done]. cbn [map_err mbind result_bind] in Hx, Hbad.
  destruct (encode_roster_view_record vs) as [vr|]; [|done]. cbn [mbind result_bind] in Hx, Hbad.
  destruct (deferred_record _ _ _) as [qr|]; [|done]. cbn [mbind result_bind] in Hx, Hbad. cbv zeta in Hx, Hbad.
  match type of Hx with context [outbox_transition pc d ?g ?o ?cd] => destruct (outbox_transition pc d g o cd) as [[c2 o2]|] eqn:Eo; [|done];
    match type of Hbad with context [outbox_transition pc d g o ?cd'] =>
      destruct (alike_outbox pc d g o cd cd' c2 o2) as (c2' & Hc2 & Ha2); [|exact Eo|rewrite Hc2 in Hbad] end end.
  - apply begin_candidate_same in Eb0 as [Ho0 Hg0]. apply begin_candidate_same in Eb as [Ho1 Hg1].
    split; [cbn; congruence|]. apply kin_append; [cbn; rewrite Hg0, Hg1; apply kin_refl|].
    repeat (apply Forall2_app); try (by apply kin_refl). done.
  - cbn [mbind result_bind] in Hx, Hbad.
    destruct (receiver_transition d successor (rc pre) (Some (ac_receiver a)) c2) as [z|] eqn:Ez; [|done].
    destruct (alike_receiver d successor (rc pre) _ c2 c2' z Ez) as [[[z1 z2] z3] Hz]. by rewrite Hz in Hbad.
Qed.

(** A recipient's send that is still pending takes any ciphertext. *)
Lemma bind_pending s m c0 s0 p0 p ct :
  bind_prepared_ciphertext pc s m c0 = (s0, Ok p0) -> progress s m = Ok p -> disposition p = PPending ->
  exists s1, bind_prepared_ciphertext pc s m ct =
    (s1, Ok (mkProgress (p_recipient p) PPrepared (context_commitment p0) (Some ct) (attempts_reserved p))) /\
    same_send s0 s1 /\ s_id s1 = s_id s.
Proof.
  unfold bind_prepared_ciphertext, progress. destruct (_ ≫= _) as [ctx|]; [|done]. unfold record_prepared, on_progress.
  destruct (progress_at s m) as [[j q]|] eqn:Ej; [|done]. cbn. intros Hb [= ->] Hd. unfold prepare_one in *. rewrite Hd in *. cbn in *.
  injection Hb as <- <-. eexists. split; [done|]. split; [|done]. split_and!; try done. cbn. by rewrite !list_fmap_insert.
Qed.

Lemma outbox_commit_after_dry_run {St} `{OperationStore St} (st : St) snap o id m send p ct state x :
  outbox_send o id = Ok send -> progress send m = Ok p -> disposition p = PPending -> len ct <= u32_max ->
  snd (commit_outbox_prepared_ciphertext pc discard snap o id m [x00] []) = Ok x ->
  snd (commit_outbox_prepared_ciphertext pc st snap o id m ct state) <> Err Policy.
Proof.
  intros Hs Hp Hd Hlen Hx Hbad. unfold commit_outbox_prepared_ciphertext in *.
  apply publish_discard in Hx. apply publish_refuses in Hbad. unfold candidate_progress in *.
  destruct (send_mut o id _) as [[o0 p0]|] eqn:E0 in Hx; [|done]. apply send_mut_Ok in E0 as (k & s & s0 & Hat & Hb & ->).
  assert (s = send) as -> by (unfold outbox_send in Hs; rewrite Hat in Hs; by injection Hs).
  destruct (bind_pending send m [x00] s0 p0 p ct Hb Hp Hd) as (s1 & Hb1 & Hsame & Hid).
  assert (s_id send = id) as He by (unfold send_at in Hat; by apply list_find_Some in Hat as (_ & -> & _)).
  rewrite He in Hid. assert (s_id s0 = id) as Hid0 by (by rewrite <- Hid; destruct Hsame as (-> & _)).
  match type of Hb1 with _ = (_, Ok ?p1) => 
    rewrite (proj2 (send_mut_Ok o id _ (with_sends o (<[k := s1]> (sends o))) p1)) in Hbad; [|by exists k, send, s1] end.
  cbn [map_err mbind result_bind] in Hx, Hbad. unfold outbox_send in Hx, Hbad.
  rewrite (send_at_update o id k send s0 Hat Hid0) in Hx. rewrite (send_at_update o id k send s1 Hat Hid) in Hbad.
  cbn [map_err mbind result_bind ok_or option_fmap option_map fmap snd] in Hx, Hbad. rewrite <- (application_context_same s0 s1 m Hsame) in Hx.
  destruct (application_context s1 m) as [c|]; [|done]. cbn [map_err mbind result_bind] in Hx, Hbad.
  destruct (context_encode c) as [ctx|]; [|done]. cbn [map_err mbind result_bind ok_or] in Hx, Hbad.
  destruct (context_commitment p0) as [cm|]; [|done]. cbn [mbind result_bind ok_or] in Hx, Hbad.
  destruct (ciphertext p0) as [ct0|]; [|done]. cbn [mbind result_bind ok_or] in Hx, Hbad.
  cbn [context_commitment ciphertext ok_or mbind result_bind] in Hbad.
  change (ok_or Frozen (default_next_generation (generation snap)) ≫= fun g => Ok (with_generation snap g))
    with (begin_candidate discard snap) in Hx.
  destruct (begin_candidate discard snap) as [cd0|]; [|done]. cbn [mbind result_bind] in Hx.
  destruct (begin_candidate st snap) as [cd|e] eqn:Eb; [|injection Hbad as ->; by apply begin_refuses in Eb].
  cbn [mbind result_bind] in Hbad. unfold encode_prepared_record in *.
  destruct (put_lp ctx) as [y|]; [|done]. cbn [mbind result_bind] in Hx, Hbad.
  unfold put_lp, u32_try_from in Hbad. by rewrite (proj2 (Z.leb_le _ _) Hlen) in Hbad.
Qed.
End Prepare.

(** ** Nothing refuses after an encryption *)
Section Encrypted.
Context {rc pc : bytes -> bytes} (own_identity : bytes).
Context (encrypt : list NetAction -> DeviceAddr -> bytes -> bytes -> result ErrorKind (bytes * bytes)).
Context {St : Type} `{OperationStore St}.

Lemma live_client_not_policy k : live_client_error k <> LPolicy.
Proof. by destruct k. Qed.

Lemma live_not_policy e : e <> Policy -> live_error e <> LPolicy.
Proof. by destruct e. Qed.

Lemma handoff_refusal (l l' : @Live St) o o' m route payload :
  (forall c st, encrypt (lv_log l) route (m_identity m) payload = Ok (c, st) -> room_for pc o m payload c) ->
  prepare_control_handoff pc encrypt l o m route payload = (l', o', Err LPolicy) -> lv_log l' = lv_log l.
Proof.
  intros Hroom Hp. unfold prepare_control_handoff in Hp. destruct (store_is_frozen _); [done|]. destruct (live_handoff _ _ _); [done|].
  destruct (snd _) as [x|e] eqn:Ed in Hp; [|by injection Hp as <- _ _]. unfold ask_encrypt in Hp.
  destruct (encrypt _ _ _ _) as [[c st]|k] eqn:Ee in Hp; [|injection Hp as _ _ Hk; by apply live_client_not_policy in Hk].
  apply run_commit_policy in Hp; [|done]. exfalso.
  eapply (control_commit_after_dry_run pc (lv_store l) (lv_snap l)); [exact (Hroom c st Ee)|exact Ed|exact Hp].
Qed.

Lemma roster_refusal (l l' : @Live St) a a' admission now auth m route successor payload :
  payload_encode (PRoster successor) = Ok payload ->
  (forall c st, encrypt (lv_log l) route (m_identity m) payload = Ok (c, st) -> room_for pc (ac_outbox a) m payload c) ->
  prepare_authority_roster_control rc pc own_identity encrypt l a admission now auth m route successor = (l', a', Err LPolicy) ->
  lv_log l' = lv_log l.
Proof.
  intros He Hroom Hp. unfold prepare_authority_roster_control in Hp. rewrite He in Hp.
  destruct (authority_refuses _ _ _ _ _ _ _ _ _ _) as [e|] eqn:Er; [by injection Hp as <- _ _|].
  unfold ask_encrypt in Hp.
  destruct (encrypt _ _ _ _) as [[c st]|k] eqn:Ee in Hp; [|injection Hp as _ _ Hk; by apply live_client_not_policy in Hk].
  unfold authority_refuses in Er. rewrite He in Er. destruct (store_is_frozen _); [done|].
  destruct (negb _); [done|]. destruct (_ || _) in Er; [done|].
  destruct (roster_encode successor) as [pre|]; [|done]. destruct (negb _); [done|].
  destruct (snd _) as [x|e] eqn:Ed in Er; [|done].
  cbn [lv_store lv_snap lv_log] in Hp.
  pose proof (roster_commit_after_dry_run rc pc (lv_store l) (lv_snap l) a admission auth successor m payload c st EAdvanced x
    (Hroom c st Ee) Ed) as Hok.
  destruct (commit_roster_transition rc pc (lv_store l) _ _ _ _ _) as [store [[snap [[s ls] commit]]|e]].
  - injection Hp as _ _ Hc. by destruct (control_handoff _ _ _ _).
  - injection Hp as _ _ Hl. apply live_not_policy in Hl; [done|]. intros ->. by apply Hok.
Qed.

Lemma recipient_refusal (l l' : @Live St) o o' id m route :
  (forall log to i p c st, encrypt log to i p = Ok (c, st) -> len c <= u32_max) ->
  prepare_outbox_group_recipient pc encrypt l o id m route = (l', o', Err LPolicy) -> lv_log l' = lv_log l.
Proof.
  intros Hlen Hp. unfold prepare_outbox_group_recipient in Hp. destruct (store_is_frozen _); [done|].
  destruct (outbox_send o id) as [send|] eqn:Es; [|by injection Hp as <- _]. cbn [mbind result_bind] in Hp.
  destruct (application_context send m) as [app|]; [|by injection Hp as <- _]. cbn [mbind result_bind] in Hp.
  destruct (progress send m) as [p|] eqn:Eg; [|by injection Hp as <- _]. cbn [mbind result_bind] in Hp.
  destruct (disposition p) eqn:Edp; try (by injection Hp as <- _).
  destruct (payload_encode _) as [payload|]; [|by injection Hp as <- _].
  destruct (snd _) as [x|e] eqn:Ed in Hp; [|by injection Hp as <- _ _]. unfold ask_encrypt in Hp.
  destruct (encrypt _ _ _ _) as [[c st]|k] eqn:Ee in Hp; [|injection Hp as _ _ Hk; by apply live_client_not_policy in Hk].
  apply run_commit_policy in Hp; [|done]. exfalso.
  eapply (outbox_commit_after_dry_run pc (lv_store l) (lv_snap l)); [exact Es|exact Eg|exact Edp|exact (Hlen _ _ _ _ _ _ Ee)|exact Ed|exact Hp].
Qed.
End Encrypted.

(** C33. No refusal follows an encryption: when preparing a recipient of a
    group send, a control handoff or a roster control for a recipient is
    refused as against policy, nothing had been asked of the connection, so no
    ratchet step was spent on what was refused.  What can go wrong after an
    encryption is the connection or the store, and freezes the coordinator or
    is retried.  For the two controls, the outbox must have room for the
    ciphertext the encryption answers with. *)
Theorem refusals_precede_encryption rc pc own_identity encrypt {St} `{OperationStore St} (l l' : @Live St) m route :
  (forall log to i p c st, encrypt log to i p = Ok (c, st) -> len c <= u32_max) ->
  (forall o o' id, prepare_outbox_group_recipient pc encrypt l o id m route = (l', o', Err LPolicy) ->
     lv_log l' = lv_log l) /\
  (forall o o' payload,
     (forall c st, encrypt (lv_log l) route (m_identity m) payload = Ok (c, st) -> room_for pc o m payload c) ->
     prepare_control_handoff pc encrypt l o m route payload = (l', o', Err LPolicy) -> lv_log l' = lv_log l) /\
  (forall a a' admission now auth successor payload,
     payload_encode (PRoster successor) = Ok payload ->
     (forall c st, encrypt (lv_log l) route (m_identity m) payload = Ok (c, st) -> room_for pc (ac_outbox a) m payload c) ->
     prepare_authority_roster_control rc pc own_identity encrypt l a admission now auth m route successor = (l', a', Err LPolicy) ->
     lv_log l' = lv_log l).
Proof.
  intros Hlen. split_and!.
  - intros o o' id. by eapply recipient_refusal.
  - intros o o' payload. by eapply handoff_refusal.
  - intros a a' admission now auth successor payload. by eapply roster_refusal.
Qed.

(** The authority of a group it has just created refuses three times. *)
Definition idle_group : GroupState := default (awaiting ana_m first_group ana_m) (group_of run1).
Definition idle_live : @Live (DurableStore FileOperationStore) := live_of run1.
Definition idle_authority : AuthorityControlState :=
  mkAuthority (default (mkView run_genesis run_digest) (gs_view idle_group))
    (default (receiver_new run_genesis run_digest ana_m) (gs_receiver idle_group)) (gs_outbox idle_group) (gs_control idle_group)
    (gs_book idle_group).
Definition idle_payload : bytes := match payload_encode (PRoster run_genesis) with Ok bs => bs | Err _ => [] end.

Lemma idle_room payload :
  payload = [] \/ payload = idle_payload -> room_for run_commitment (gs_control idle_group) bob_m payload (bstr "ct").
Proof.
  assert (gs_control idle_group = mkControl []) as -> by (by vm_compute).
  intros Hp. constructor.
  - destruct Hp as [->| ->]; split_and!; by vm_compute.
  - exists 0. split; [|by vm_compute]. split; [|by vm_compute]. by split; try constructor; try left.
  - constructor.
  - intros o1 st Hr Hs. destruct Hp as [->| ->]; vm_compute in Hr; [done|]. injection Hr as <-. vm_compute in Hs.
    injection Hs as <-. by vm_compute.
Qed.

Lemma refused {A B C} (x : A * B * result GroupLiveError C) : x.2 = Err LPolicy -> x = (x.1.1, x.1.2, Err LPolicy).
Proof. destruct x as [[a b] r]. cbn. by intros ->. Qed.

Lemma refusals_precede_encryption_witness :
  let l1 := prepare_outbox_group_recipient run_commitment run_encrypt idle_live (gs_outbox idle_group)
    (mkLogicalId first_group 0 ana_m 0) bob_m bob_route.2 in
  let l2 := prepare_control_handoff run_commitment run_encrypt idle_live (gs_control idle_group) bob_m bob_route.2 [] in
  let l3 := prepare_authority_roster_control run_commitment run_commitment (bstr "ana") run_encrypt idle_live idle_authority None 1
    ana_m bob_m bob_route.2 run_genesis in
  lv_log l1.1.1 = lv_log idle_live /\ lv_log l2.1.1 = lv_log idle_live /\ lv_log l3.1.1 = lv_log idle_live.
Proof.
  assert (forall log to i p c st, run_encrypt log to i p = Ok (c, st) -> len c <= u32_max) as Hlen by (by intros log to i p c st [= <- <-]).
  intros l1 l2 l3. split_and!.
  - refine (proj1 (refusals_precede_encryption run_commitment run_commitment (bstr "ana") run_encrypt idle_live l1.1.1 bob_m
      bob_route.2 Hlen) _ l1.1.2 _ (refused l1 _)). vm_compute. reflexivity.
  - refine (proj1 (proj2 (refusals_precede_encryption run_commitment run_commitment (bstr "ana") run_encrypt idle_live l2.1.1 bob_m
      bob_route.2 Hlen)) _ l2.1.2 _ _ (refused l2 _)); [|vm_compute; reflexivity].
    intros c st [= <- <-]. apply idle_room. left. reflexivity.
  - refine (proj2 (proj2 (refusals_precede_encryption run_commitment run_commitment (bstr "ana") run_encrypt idle_live l3.1.1 bob_m
      bob_route.2 Hlen)) _ l3.1.2 _ _ _ _ idle_payload _ _ (refused l3 _)); [| |vm_compute; reflexivity].
    + vm_compute. reflexivity.
    + intros c st [= <- <-]. apply idle_room. right. reflexivity.
Defined.
