(* ===== verification/Provider.v ===== *)
(** * Provider: one participant's pairwise cryptography
    ([tacenta-core/src/crypto/open.rs], [tacenta-core/src/crypto/provider.rs])

    The party behind the provider seam: an identity, a prekey store and a map
    of sessions, each call forwarded to the protocol engine.  The engine
    ([open-tacenta]) is not part of the repository: its types and functions are
    the parameters of [Engine].  A call that draws randomness takes what it
    drew; a call that may change what it is given returns the new value, failed
    or not. *)

From S2P Require Import Prelude Framing GroupRecords.

(** ** Addresses and outcomes ([provider.rs]) *)
(** [device] is a [u8]. *)
Record Address := mkAddress { ad_user : bytes; ad_device : byte }.

#[global] Instance Address_eq_dec : EqDecision Address.
Proof. solve_decision. Defined.

#[global] Instance Address_countable : Countable Address.
Proof. refine (inj_countable' (fun a => (ad_user a, ad_device a)) (fun p => mkAddress p.1 p.2) _). by intros []. Defined.

(** The derived order: the user, then the device. *)
Definition address_cmp (a b : Address) : comparison :=
  then_cmp (bytes_cmp (ad_user a) (ad_user b)) (byte_val (ad_device a) ?= byte_val (ad_device b)).

Record CryptoOperation (T Err : Type) := mkOperation {
  op_result : result Err T; op_authenticated_peer : option bytes; op_state_effect : CryptoStateEffect
}.
Arguments mkOperation {T Err}.
Arguments op_result {T Err}.
Arguments op_authenticated_peer {T Err}.
Arguments op_state_effect {T Err}.

Inductive Failure := FBadBundle | FUndecryptable | FNoSession | FOther.

(** ** What the engine hands over *)
Record PreKeyBundle := mkPreKeyBundle {
  pb_identity_key : bytes; pb_signed_prekey : bytes; pb_signed_prekey_signature : bytes;
  pb_kem_prekey : bytes; pb_kem_prekey_signature : bytes; pb_one_time_prekey : option bytes
}.
Record PublishedBundle := mkPublished {
  pu_bundle : PreKeyBundle; pu_signed_prekey_id : Z; pu_one_time_prekey_id : option Z; pu_kem_prekey_id : Z
}.
Record WireBundle := mkWireBundle {
  wb_identity_key : bytes; wb_signed_prekey : bytes; wb_signed_prekey_signature : bytes; wb_kem_prekey : bytes;
  wb_kem_prekey_signature : bytes; wb_one_time_prekey : option bytes; wb_signed_prekey_id : Z;
  wb_one_time_prekey_id : option Z; wb_kem_prekey_id : Z
}.

Inductive MessageType := Initial | Ratchet.

Class Engine := {
  Draw : Type; Identity : Type; PrekeyStore : Type; Session : Type;
  identity_generate : Draw -> Identity;
  identity_export : Identity -> bytes;
  identity_from_secret : bytes -> Identity;
  identity_public : Identity -> bytes;
  sign_message : Identity -> bytes -> Draw -> bytes;
  verify_under_identity : bytes -> bytes -> bytes -> bool;
  create_prekeys : Identity -> Z -> Draw -> PrekeyStore;
  one_time_remaining : PrekeyStore -> Z * Z;
  replenish : PrekeyStore -> Identity -> Z -> Draw -> PrekeyStore;
  publish_multi_use : PrekeyStore -> PublishedBundle;
  one_time_batch : PrekeyStore -> list PublishedBundle;
  prekeys_to_bytes : PrekeyStore -> bytes;
  prekeys_from_bytes : bytes -> option PrekeyStore;
  encode_bundle : WireBundle -> bytes;
  decode_bundle : bytes -> option WireBundle;
  establish_initiator : Identity -> PublishedBundle -> Draw -> option Session;
  establish_initiator_for : Identity -> PublishedBundle -> bytes -> Draw -> option Session;
  establish_responder : Identity -> PrekeyStore -> bytes -> Draw -> PrekeyStore * option (Session * bytes);
  message_type : bytes -> option MessageType;
  session_encrypt : Session -> bytes -> Draw -> Session * option bytes;
  session_decrypt : Session -> bytes -> Draw -> Session * option bytes;
  session_export : Session -> bytes;
  session_import : bytes -> option Session;
  peer_identity : Session -> bytes;
  agreement_failed : Session -> bool
}.

(** ** The party *)
Inductive OpenError := OBundle | OMessage | ONoSession | OIdentity | ONoPrekeys | OSessions | OPrekeys.

Definition classify (e : OpenError) : Failure :=
  match e with
  | OBundle => FBadBundle
  | OMessage => FUndecryptable
  | ONoSession => FNoSession
  | OIdentity | ONoPrekeys | OSessions | OPrekeys => FOther
  end.

Definition PROVIDER_NAME : bytes := bstr "open-tacenta".
Definition ONE_TIME_PREKEYS : Z := 32.
Definition REPLENISH_BELOW : Z := 8.

Section Party.
Context {engine : Engine}.

Record OpenParty := mkParty {
  pa_address : Address; pa_identity : Identity; pa_prekeys : option PrekeyStore; pa_sessions : gmap Address Session
}.

Definition with_prekeys (p : OpenParty) (s : option PrekeyStore) : OpenParty :=
  mkParty (pa_address p) (pa_identity p) s (pa_sessions p).
Definition with_peers (p : OpenParty) (m : gmap Address Session) : OpenParty :=
  mkParty (pa_address p) (pa_identity p) (pa_prekeys p) m.
Definition with_peer (p : OpenParty) (peer : Address) (s : Session) : OpenParty := with_peers p (<[peer := s]> (pa_sessions p)).

(** [sessions.keys()], in the order of the map. *)
Definition known_peers (p : OpenParty) : list Address := sort_by address_cmp (map_to_list (pa_sessions p)).*1.

Definition export_prekeys (p : OpenParty) : option bytes := prekeys_to_bytes <$> pa_prekeys p.

Definition import_prekeys (p : OpenParty) (bs : bytes) : OpenParty * result OpenError unit :=
  match (store ← ok_or OPrekeys (prekeys_from_bytes bs);
         let reencoded := prekeys_to_bytes store in
         _ ← (if negb (bool_decide (reencoded = bs)) then
                again ← ok_or OPrekeys (prekeys_from_bytes reencoded);
                if negb (bool_decide (prekeys_to_bytes again = reencoded)) then Err OPrekeys else Ok tt
              else Ok tt);
         Ok store) with
  | Ok store => (with_prekeys p (Some store), Ok tt)
  | Err e => (p, Err e)
  end.

Definition bundle_from_wire (w : WireBundle) : PublishedBundle :=
  mkPublished
    (mkPreKeyBundle (wb_identity_key w) (wb_signed_prekey w) (wb_signed_prekey_signature w) (wb_kem_prekey w)
       (wb_kem_prekey_signature w) (wb_one_time_prekey w))
    (wb_signed_prekey_id w) (wb_one_time_prekey_id w) (wb_kem_prekey_id w).

(** The [WireBundle] of [publish_bundle] and [publish_one_time_batch]. *)
Definition wire_bundle (p : PublishedBundle) : WireBundle :=
  mkWireBundle (pb_identity_key (pu_bundle p)) (pb_signed_prekey (pu_bundle p)) (pb_signed_prekey_signature (pu_bundle p))
    (pb_kem_prekey (pu_bundle p)) (pb_kem_prekey_signature (pu_bundle p)) (pb_one_time_prekey (pu_bundle p))
    (pu_signed_prekey_id p) (pu_one_time_prekey_id p) (pu_kem_prekey_id p).

Definition generate (user : bytes) (device : byte) (d : Draw) : OpenParty :=
  mkParty (mkAddress user device) (identity_generate d) None ∅.

Definition export_identity (p : OpenParty) : bytes := identity_export (pa_identity p).

Definition from_identity (user : bytes) (device : byte) (bs : bytes) : result OpenError OpenParty :=
  secret ← ok_or OIdentity (to_array 32 bs);
  Ok (mkParty (mkAddress user device) (identity_from_secret secret) None ∅).

Definition identity_key (p : OpenParty) : bytes := identity_public (pa_identity p).
Definition sign_challenge (p : OpenParty) (challenge : bytes) (d : Draw) : bytes := sign_message (pa_identity p) challenge d.

Definition verify_challenge (identity challenge signature : bytes) : bool :=
  match to_array 32 identity, to_array 64 signature with
  | Some key, Some sig => verify_under_identity key challenge sig
  | _, _ => false
  end.

(** The store a publish works on: the one held, or a new one. *)
Definition prekeys_or_create (p : OpenParty) (d : Draw) : PrekeyStore :=
  match pa_prekeys p with Some store => store | None => create_prekeys (pa_identity p) ONE_TIME_PREKEYS d end.

Definition publish_bundle (p : OpenParty) (d1 d2 : Draw) : OpenParty * bytes :=
  let store := prekeys_or_create p d1 in
  let '(curve_left, kem_left) := one_time_remaining store in
  let fewest := Z.min curve_left kem_left in
  let store := if fewest <? REPLENISH_BELOW then replenish store (pa_identity p) (ONE_TIME_PREKEYS - fewest) d2 else store in
  (with_prekeys p (Some store), encode_bundle (wire_bundle (publish_multi_use store))).

Definition publish_one_time_batch (p : OpenParty) (d : Draw) : OpenParty * list bytes :=
  let store := prekeys_or_create p d in
  (with_prekeys p (Some store), (fun b => encode_bundle (wire_bundle b)) <$> one_time_batch store).

Definition establish_session (p : OpenParty) (peer : Address) (bundle : bytes) (d : Draw) : OpenParty * result OpenError unit :=
  match (wire ← ok_or OBundle (decode_bundle bundle);
         ok_or OBundle (establish_initiator (pa_identity p) (bundle_from_wire wire) d)) with
  | Ok s => (with_peer p peer s, Ok tt)
  | Err e => (p, Err e)
  end.

Definition establish_session_for (p : OpenParty) (peer : Address) (bundle expected_identity : bytes) (d : Draw)
    : OpenParty * result OpenError unit :=
  match (wire ← ok_or OBundle (decode_bundle bundle);
         expected ← ok_or OBundle (to_array 32 expected_identity);
         ok_or OBundle (establish_initiator_for (pa_identity p) (bundle_from_wire wire) expected d)) with
  | Ok s => (with_peer p peer s, Ok tt)
  | Err e => (p, Err e)
  end.

Definition encrypt (p : OpenParty) (peer : Address) (plaintext : bytes) (d : Draw) : OpenParty * result OpenError bytes :=
  match pa_sessions p !! peer with
  | None => (p, Err ONoSession)
  | Some s => let '(s, out) := session_encrypt s plaintext d in (with_peer p peer s, ok_or OMessage out)
  end.

(** The identity the party's session with [peer] authenticates, and what a
    failed call leaves behind. *)
Definition peer_of (p : OpenParty) (peer : Address) : option bytes := peer_identity <$> pa_sessions p !! peer.
Definition effect_of {T} (p : OpenParty) (peer : Address) (r : result OpenError T) : CryptoStateEffect :=
  match r with
  | Ok _ => EAdvanced
  | Err _ =>
      if match pa_sessions p !! peer with Some s => agreement_failed s | None => false end then ETerminal else EUnchanged
  end.

Definition encrypt_with_outcome (p : OpenParty) (peer : Address) (plaintext : bytes) (d : Draw)
    : OpenParty * CryptoOperation bytes OpenError :=
  let authenticated_peer := peer_of p peer in
  let '(p, r) := encrypt p peer plaintext d in
  (p, mkOperation r authenticated_peer (effect_of p peer r)).

(** [decrypt]: an initial message is offered to the session held before it
    opens another. *)
Definition establish_or_refuse (p : OpenParty) (peer : Address) (framed : bytes) (d : Draw) : OpenParty * result OpenError bytes :=
  match pa_prekeys p with
  | None => (p, Err ONoPrekeys)
  | Some store =>
      let '(store, opened) := establish_responder (pa_identity p) store framed d in
      let p := with_prekeys p (Some store) in
      match opened with
      | Some (s, plaintext) => (with_peer p peer s, Ok plaintext)
      | None => (p, Err OMessage)
      end
  end.

Definition decrypt (p : OpenParty) (peer : Address) (framed : bytes) (d1 d2 : Draw) : OpenParty * result OpenError bytes :=
  match message_type framed with
  | Some Initial =>
      match pa_sessions p !! peer with
      | Some s =>
          let '(s, out) := session_decrypt s framed d1 in
          let p := with_peer p peer s in
          match out with
          | Some plaintext => (p, Ok plaintext)
          | None => establish_or_refuse p peer framed d2
          end
      | None => establish_or_refuse p peer framed d2
      end
  | Some Ratchet =>
      match pa_sessions p !! peer with
      | None => (p, Err ONoSession)
      | Some s => let '(s, out) := session_decrypt s framed d1 in (with_peer p peer s, ok_or OMessage out)
      end
  | None => (p, Err OMessage)
  end.

Definition decrypt_with_outcome (p : OpenParty) (peer : Address) (framed : bytes) (d1 d2 : Draw)
    : OpenParty * CryptoOperation bytes OpenError :=
  let '(p, r) := decrypt p peer framed d1 d2 in
  (p, mkOperation r (peer_of p peer) (effect_of p peer r)).

Definition clear_sessions (p : OpenParty) : OpenParty := with_peers p ∅.

(** *** Session persistence *)
(** [(len as u32).to_be_bytes()], then the block: the prefix is the length
    modulo 2^32. *)
Definition put_block (b : bytes) : bytes := be32 (len b) ++ b.

Definition put_peer (p : OpenParty) (peer : Address) : option bytes :=
  s ← pa_sessions p !! peer;
  Some (put_block (ad_user peer) ++ [ad_device peer] ++ put_block (session_export s)).

(** [count += 1] overflows past 2^32 sessions, which no memory holds. *)
Definition export_sessions (p : OpenParty) (peers : list Address) : bytes :=
  let held := omap (put_peer p) peers in
  be32 (len held) ++ mjoin held.

Definition take_peer (bs : bytes) : result OpenError (Address * Session * bytes) :=
  '(name, rest) ← ok_or OSessions (take_bytes bs);
  match rest with
  | [] => Err OSessions
  | device :: rest =>
      '(session_bytes, rest) ← ok_or OSessions (take_bytes rest);
      if negb (utf8_valid name) then Err OSessions else
      s ← ok_or OSessions (session_import session_bytes);
      Ok (mkAddress name device, s, rest)
  end.

(** A blob that breaks off leaves the sessions read before the break. *)
Fixpoint import_loop (count : nat) (p : OpenParty) (restored : list Address) (rest : bytes)
    : OpenParty * result OpenError (list Address) :=
  match count with
  | O => (p, match rest with [] => Ok restored | _ => Err OSessions end)
  | S count =>
      match take_peer rest with
      | Err e => (p, Err e)
      | Ok (peer, s, rest) => import_loop count (with_peer p peer s) (restored ++ [peer]) rest
      end
  end.

Definition import_sessions (p : OpenParty) (bs : bytes) : OpenParty * result OpenError (list Address) :=
  match take_u32 bs with
  | None => (p, Err OSessions)
  | Some (count, rest) => import_loop (Z.to_nat count) p [] rest
  end.
End Party.

(** ** What the party relies on *)
Class EngineLaws {engine : Engine} : Prop := {
  session_import_export s : session_import (session_export s) = Some s;
  prekeys_from_to_bytes s : prekeys_from_bytes (prekeys_to_bytes s) = Some s;
  identity_from_export i : identity_from_secret (identity_export i) = i;
  identity_export_len i : len (identity_export i) = 32;
  (** A refusal changes nothing unless it ended the agreement. *)
  session_encrypt_refused s m d s' : session_encrypt s m d = (s', None) -> agreement_failed s' = false -> s' = s;
  session_decrypt_refused s m d s' : session_decrypt s m d = (s', None) -> agreement_failed s' = false -> s' = s;
  establish_responder_refused i st m d st' : establish_responder i st m d = (st', None) -> st' = st
}.

Section Outcomes.
Context {engine : Engine}.

(** What a call on [peer] leaves alone. *)
Record touches_only (peer : Address) (p p' : OpenParty) : Prop := {
  tc_address : pa_address p' = pa_address p;
  tc_identity : pa_identity p' = pa_identity p;
  tc_others a : a <> peer -> pa_sessions p' !! a = pa_sessions p !! a
}.

Lemma touches_refl peer p : touches_only peer p p.
Proof. done. Qed.

Lemma touches_peer peer p s : touches_only peer p (with_peer p peer s).
Proof. split; [done..|]. intros a Ha. cbn. by rewrite lookup_insert_ne. Qed.

Lemma touches_prekeys peer p s : touches_only peer p (with_prekeys p s).
Proof. done. Qed.

Lemma touches_trans peer p q r : touches_only peer p q -> touches_only peer q r -> touches_only peer p r.
Proof. intros [A1 A2 A3] [B1 B2 B3]. split; [by rewrite B1|by rewrite B2|]. intros a Ha. by rewrite B3, A3. Qed.

Lemma with_peer_same p peer s : pa_sessions p !! peer = Some s -> with_peer p peer s = p.
Proof. intros H. unfold with_peer, with_peers. rewrite insert_id by done. by destruct p. Qed.

Lemma with_prekeys_same p s : pa_prekeys p = s -> with_prekeys p s = p.
Proof. intros <-. by destruct p. Qed.

(** A held session's own step: encryption, a ratchet message, a repeat. *)
Lemma encrypt_spec p peer m d p' r : encrypt p peer m d = (p', r) ->
  touches_only peer p p' /\ pa_prekeys p' = pa_prekeys p /\
  match pa_sessions p !! peer with
  | None => p' = p /\ r = Err ONoSession
  | Some s => p' = with_peer p peer (session_encrypt s m d).1 /\ r = ok_or OMessage (session_encrypt s m d).2
  end.
Proof.
  unfold encrypt. destruct (pa_sessions p !! peer) as [s|]; [|by intros [= <- <-]].
  destruct (session_encrypt s m d) as [s' out]. intros [= <- <-]. split; [apply touches_peer|done].
Qed.

Lemma establish_spec p peer m d p' r : establish_or_refuse p peer m d = (p', r) ->
  touches_only peer p p' /\
  match r with
  | Ok _ => exists store store' s x, pa_prekeys p = Some store /\ establish_responder (pa_identity p) store m d = (store', Some (s, x)) /\
      r = Ok x /\ pa_prekeys p' = Some store' /\ pa_sessions p' !! peer = Some s
  | Err _ => pa_sessions p' = pa_sessions p /\
      (p' = p \/ exists store store', pa_prekeys p = Some store /\ establish_responder (pa_identity p) store m d = (store', None) /\
         p' = with_prekeys p (Some store'))
  end.
Proof.
  unfold establish_or_refuse. destruct (pa_prekeys p) as [store|] eqn:Ep.
  - destruct (establish_responder (pa_identity p) store m d) as [store' [[s x]|]] eqn:Ee; intros [= <- <-].
    + split; [apply (touches_trans peer p (with_prekeys p (Some store'))); [apply touches_prekeys|apply touches_peer]|].
      exists store, store', s, x. split_and!; try done. cbn. apply lookup_insert_eq.
    + split; [apply touches_prekeys|]. split; [done|]. right. by exists store, store'.
  - intros [= <- <-]. split; [apply touches_refl|]. split; [done|by left].
Qed.

(** Which of its two calls a decryption was. *)
Inductive decrypted (p : OpenParty) (peer : Address) (m : bytes) (d1 d2 : Draw) (p' : OpenParty) : result OpenError bytes -> Prop :=
| by_session s s' x :
    pa_sessions p !! peer = Some s -> message_type m <> None -> session_decrypt s m d1 = (s', Some x) ->
    p' = with_peer p peer s' -> decrypted p peer m d1 d2 p' (Ok x)
| by_establishing store store' s x :
    message_type m = Some Initial ->
    match pa_sessions p !! peer with Some s0 => (session_decrypt s0 m d1).2 = None | None => True end ->
    pa_prekeys p = Some store -> establish_responder (pa_identity p) store m d2 = (store', Some (s, x)) ->
    pa_prekeys p' = Some store' -> pa_sessions p' !! peer = Some s -> decrypted p peer m d1 d2 p' (Ok x)
| by_refusing e :
    (pa_sessions p' !! peer = pa_sessions p !! peer \/
     exists s s', pa_sessions p !! peer = Some s /\ session_decrypt s m d1 = (s', None) /\ pa_sessions p' !! peer = Some s') ->
    (pa_prekeys p' = pa_prekeys p \/
     exists store store', pa_prekeys p = Some store /\ establish_responder (pa_identity p) store m d2 = (store', None) /\
       pa_prekeys p' = Some store') -> decrypted p peer m d1 d2 p' (Err e).

Lemma refuse_spec p q peer m d1 d2 p' r :
  message_type m = Some Initial ->
  match pa_sessions p !! peer with
  | Some s => exists s', session_decrypt s m d1 = (s', None) /\ q = with_peer p peer s'
  | None => q = p
  end ->
  establish_or_refuse q peer m d2 = (p', r) -> touches_only peer p p' /\ decrypted p peer m d1 d2 p' r.
Proof.
  intros Ht Hq He. assert (touches_only peer p q /\ pa_identity q = pa_identity p /\ pa_prekeys q = pa_prekeys p) as (Htq & Hi & Hk).
  { destruct (pa_sessions p !! peer); [destruct Hq as (s' & _ & ->); split; [apply touches_peer|done]|by subst q]. }
  apply establish_spec in He as [Hto He]. split; [by eapply touches_trans|]. destruct r as [x|e].
  - destruct He as (store & store' & s & x' & H1 & H2 & [= ->] & H4 & H5). rewrite Hi, Hk in *.
    eapply by_establishing; try done. destruct (pa_sessions p !! peer); [|done]. by destruct Hq as (s' & -> & _).
  - destruct He as [Hs He]. apply by_refusing.
    + rewrite Hs. destruct (pa_sessions p !! peer) as [s|] eqn:Es.
      * destruct Hq as (s' & Hd & ->). right. exists s, s'. split_and!; try done. cbn. apply lookup_insert_eq.
      * left. by subst q.
    + destruct He as [->|(store & store' & H1 & H2 & ->)]; [by left|]. right. exists store, store'. by rewrite <- Hk, <- Hi.
Qed.

Lemma decrypt_spec p peer m d1 d2 p' r :
  decrypt p peer m d1 d2 = (p', r) -> touches_only peer p p' /\ decrypted p peer m d1 d2 p' r.
Proof.
  unfold decrypt. destruct (message_type m) as [[]|] eqn:Et.
  - destruct (pa_sessions p !! peer) as [s|] eqn:Es.
    + destruct (session_decrypt s m d1) as [s' [x|]] eqn:Ed.
      * intros [= <- <-]. split; [apply touches_peer|]. eapply by_session; [done|by rewrite Et|done..].
      * intros He. eapply refuse_spec; [done| |done]. rewrite Es. by exists s'.
    + intros He. eapply refuse_spec; [done| |done]. by rewrite Es.
  - destruct (pa_sessions p !! peer) as [s|] eqn:Es.
    + destruct (session_decrypt s m d1) as [s' [x|]] eqn:Ed; intros [= <- <-]; (split; [apply touches_peer|]).
      * eapply by_session; [done|by rewrite Et|done..].
      * apply by_refusing; [|by left]. right. exists s, s'. split_and!; try done. cbn. apply lookup_insert_eq.
    + intros [= <- <-]. split; [apply touches_refl|]. apply by_refusing; by left.
  - intros [= <- <-]. split; [apply touches_refl|]. apply by_refusing; by left.
Qed.

(** What the engine answers to the calls a message can lead to: the session
    held reads it, or the prekeys open a session with it. *)
Definition heard (p : OpenParty) (peer : Address) (m : bytes) (d : Draw) : option (Session * bytes) :=
  match message_type m, pa_sessions p !! peer with
  | Some _, Some s => match session_decrypt s m d with (s', Some x) => Some (s', x) | _ => None end
  | _, _ => None
  end.

Definition opened (p : OpenParty) (m : bytes) (d : Draw) : option (PrekeyStore * Session * bytes) :=
  match message_type m, pa_prekeys p with
  | Some Initial, Some store =>
      match establish_responder (pa_identity p) store m d with
      | (store', Some (s, x)) => Some (store', s, x)
      | _ => None
      end
  | _, _ => None
  end.

(** The sessions after a message nobody could read: the one held, if it was
    asked, is as the engine returned it. *)
Definition refused (p : OpenParty) (peer : Address) (m : bytes) (d : Draw) : gmap Address Session :=
  match message_type m, pa_sessions p !! peer with
  | Some _, Some s => <[peer := (session_decrypt s m d).1]> (pa_sessions p)
  | _, _ => pa_sessions p
  end.

Definition refusal (p : OpenParty) (peer : Address) (m : bytes) : OpenError :=
  match message_type m with
  | Some Initial => match pa_prekeys p with Some _ => OMessage | None => ONoPrekeys end
  | Some Ratchet => match pa_sessions p !! peer with Some _ => OMessage | None => ONoSession end
  | None => OMessage
  end.

Lemma establish_exact {laws : EngineLaws} p q peer m d p' r :
  message_type m = Some Initial -> pa_prekeys q = pa_prekeys p -> pa_identity q = pa_identity p ->
  establish_or_refuse q peer m d = (p', r) ->
  match opened p m d with
  | Some (store, s, x) => r = Ok x /\ pa_sessions p' = <[peer := s]> (pa_sessions q) /\ pa_prekeys p' = Some store
  | None => r = Err (refusal p peer m) /\ pa_sessions p' = pa_sessions q /\ pa_prekeys p' = pa_prekeys p
  end.
Proof.
  unfold opened, refusal, establish_or_refuse. intros -> Hk ->. rewrite Hk.
  destruct (pa_prekeys p) as [store|] eqn:Ep; [|by intros [= <- <-]].
  destruct (establish_responder (pa_identity p) store m d) as [store' [[s x]|]] eqn:Ee; intros [= <- <-]; [done|].
  split_and!; [done..|]. cbn. f_equal. by eapply establish_responder_refused.
Qed.

Lemma decrypt_exact {laws : EngineLaws} p peer m d1 d2 p' r :
  decrypt p peer m d1 d2 = (p', r) ->
  match heard p peer m d1 with
  | Some (s, x) => r = Ok x /\ pa_sessions p' = <[peer := s]> (pa_sessions p) /\ pa_prekeys p' = pa_prekeys p
  | None =>
      match opened p m d2 with
      | Some (store, s, x) => r = Ok x /\ pa_sessions p' = <[peer := s]> (pa_sessions p) /\ pa_prekeys p' = Some store
      | None => r = Err (refusal p peer m) /\ pa_sessions p' = refused p peer m d1 /\ pa_prekeys p' = pa_prekeys p
      end
  end.
Proof.
  unfold decrypt, heard, refused. destruct (message_type m) as [[]|] eqn:Et.
  - destruct (pa_sessions p !! peer) as [s|] eqn:Es.
    + destruct (session_decrypt s m d1) as [s' [x|]] eqn:Ed; [by intros [= <- <-]|].
      intros He. apply (establish_exact p) in He; [|done..]. destruct (opened p m d2) as [[[store s0] x]|]; [|done].
      destruct He as (-> & -> & ->). split_and!; [done| |done]. cbn. by rewrite insert_insert_eq.
    + intros He. by apply (establish_exact p) in He.
  - unfold opened, refusal. rewrite Et. destruct (pa_sessions p !! peer) as [s|] eqn:Es; [|by intros [= <- <-]].
    by destruct (session_decrypt s m d1) as [s' [x|]] eqn:Ed; intros [= <- <-].
  - unfold opened, refusal. rewrite Et. by intros [= <- <-].
Qed.
End Outcomes.

(** ** Sessions and prekeys survive their export *)
Section Persistence.
Context {engine : Engine} {laws : EngineLaws}.

(** What the length prefixes hold. *)
Definition peer_fits (peer : Address) (s : Session) : Prop :=
  utf8_valid (ad_user peer) = true /\ len (ad_user peer) <= u32_max /\ len (session_export s) <= u32_max.

Lemma take_block b rest : len b <= u32_max -> take_bytes (put_block b ++ rest) = Some (b, rest).
Proof.
  intros Hb. unfold put_block, take_bytes. rewrite <- app_assoc. change (be32 (len b)) with (put_u32 (len b)).
  rewrite take_u32_app by (unfold u32_wf; len_lia). cbn [mbind option_bind]. by apply split_at_checked_app.
Qed.

Lemma take_put_peer p peer s bs rest :
  pa_sessions p !! peer = Some s -> peer_fits peer s -> put_peer p peer = Some bs -> take_peer (bs ++ rest) = Ok (peer, s, rest).
Proof.
  intros Hs (Hu & Hl & He) Hp. unfold put_peer in Hp. rewrite Hs in Hp. cbn [mbind option_bind] in Hp. apply (inj Some) in Hp as <-.
  unfold take_peer. rewrite <- app_assoc, take_block by done. cbn [ok_or mbind result_bind app].
  rewrite take_block by done. cbn [ok_or mbind result_bind]. rewrite Hu. cbn [negb]. rewrite session_import_export. by destruct peer.
Qed.

(** The sessions of [m] put over those of [p]. *)
Lemma import_put peers : forall p q restored held,
  Forall (fun peer => exists s, pa_sessions p !! peer = Some s /\ peer_fits peer s) peers ->
  omap (put_peer p) peers = held ->
  exists q', import_loop (length held) q restored (mjoin held) = (q', Ok (restored ++ peers)) /\
    pa_address q' = pa_address q /\ pa_identity q' = pa_identity q /\ pa_prekeys q' = pa_prekeys q /\
    forall a, pa_sessions q' !! a = if decide (a ∈ peers) then pa_sessions p !! a else pa_sessions q !! a.
Proof.
  induction peers as [|peer peers IH]; intros p q restored held Hf Hh.
  - subst held. exists q. cbn. rewrite app_nil_r. split_and!; try done. 
  - apply Forall_cons in Hf as [(s & Hs & Hfit) Hf]. cbn in Hh.
    destruct (put_peer p peer) as [bs|] eqn:Ep; [|unfold put_peer in Ep; by rewrite Hs in Ep].
    subst held. cbn [length import_loop].
    change (mjoin (bs :: omap (put_peer p) peers)) with (bs ++ mjoin (omap (put_peer p) peers)).
    rewrite (take_put_peer p peer s bs _ Hs Hfit Ep).
    destruct (IH p (with_peer q peer s) (restored ++ [peer]) _ Hf eq_refl) as (q' & Hq & Ha & Hi & Hk & Hm).
    exists q'. rewrite Hq, <- app_assoc. split_and!; try done. intros a. rewrite Hm. cbn [pa_sessions with_peer with_peers].
    destruct (decide (a ∈ peers)) as [Hin|Hout].
    + rewrite decide_True by (by right). done.
    + destruct (decide (a = peer)) as [->|Hne].
      * rewrite decide_True by (by left). by rewrite lookup_insert_eq.
      * rewrite decide_False by (by intros [?|?]%elem_of_cons). by rewrite lookup_insert_ne.
Qed.

Definition sessions_fit (p : OpenParty) : Prop :=
  (forall peer s, pa_sessions p !! peer = Some s -> peer_fits peer s) /\ Z.of_nat (size (pa_sessions p)) <= u32_max.

Lemma known_peers_elem p peer : peer ∈ known_peers p <-> is_Some (pa_sessions p !! peer).
Proof.
  unfold known_peers. rewrite (sort_by_perm _ _), list_elem_of_fmap. split.
  - intros ([a s] & -> & Has). apply elem_of_map_to_list in Has. by exists s.
  - intros [s Hs]. exists (peer, s). split; [done|]. by apply elem_of_map_to_list.
Qed.

Lemma length_known_peers p : length (known_peers p) = size (pa_sessions p).
Proof. unfold known_peers. rewrite (Permutation_length (sort_by_perm _ _)), length_fmap. apply length_map_to_list. Qed.

Lemma import_export p q : sessions_fit p -> pa_sessions q = ∅ ->
  import_sessions q (export_sessions p (known_peers p)) = (with_peers q (pa_sessions p), Ok (known_peers p)).
Proof.
  intros [Hfit Hn] Hq. unfold import_sessions, export_sessions. set (held := omap (put_peer p) (known_peers p)).
  assert (Forall (fun peer => exists s, pa_sessions p !! peer = Some s /\ peer_fits peer s) (known_peers p)) as Hf.
  { apply Forall_forall. intros peer [s Hs]%known_peers_elem. exists s. split; [done|by apply Hfit]. }
  assert (length held = length (known_peers p)) as Hl.
  { subst held. clear Hfit Hn. induction Hf as [|peer l (s & Hs & _) Hf IH]; [done|]. cbn. unfold put_peer at 1. rewrite Hs. cbn. by rewrite IH. }
  rewrite take_u32_app by (unfold u32_wf, len; rewrite Hl, length_known_peers; lia).
  rewrite to_nat_len. destruct (import_put (known_peers p) p q [] held Hf eq_refl) as (q' & -> & Ha & Hi & Hk & Hm).
  f_equal. destruct q as [a i k m], q' as [a' i' k' m']. cbn in *. subst. f_equal. apply map_eq. intros x. rewrite Hm.
  destruct (decide (x ∈ known_peers p)) as [|Hx]; [done|]. rewrite lookup_empty. symmetry. apply eq_None_not_Some. intros Hs. by apply Hx, known_peers_elem.
Qed.

Lemma import_export_prekeys p store : import_prekeys p (prekeys_to_bytes store) = (with_prekeys p (Some store), Ok tt).
Proof. unfold import_prekeys. rewrite prekeys_from_to_bytes. cbn. by rewrite bool_decide_eq_true_2. Qed.

Lemma from_export_identity p user device :
  from_identity user device (export_identity p) = Ok (mkParty (mkAddress user device) (pa_identity p) None ∅).
Proof.
  unfold from_identity, export_identity. rewrite (to_array_len 32) by apply identity_export_len. cbn. by rewrite identity_from_export.
Qed.
End Persistence.

(** C26. What the provider reports of an operation is what happened.  Whatever
    the engine does, encrypting for a peer or decrypting from it touches no
    other peer's session and neither the address nor the identity, and
    encrypting touches no prekey; [Advanced] is reported exactly for success, a
    success always names the identity the session held authenticates,
    [Unchanged] means the party is as it was, and [Terminal] means the session
    now held has failed.  What is stored is what the engine returned: an
    encryption leaves the session the engine advanced in the place of the one
    held; a message the session held reads leaves that session advanced and
    spends no prekey; an initial message it refuses, or that finds no session,
    is opened by the prekeys, and then the party holds the very session the
    engine opened and the prekey store it left; a message neither can read is
    refused, with the reason the code gives it, and leaves the prekeys and all
    but the session that was asked. *)
Theorem provider_outcomes_exact {engine : Engine} {laws : EngineLaws} p peer m d1 d2 p1 o1 p2 o2 :
  encrypt_with_outcome p peer m d1 = (p1, o1) -> decrypt_with_outcome p peer m d1 d2 = (p2, o2) ->
  (touches_only peer p p1 /\ pa_prekeys p1 = pa_prekeys p /\ touches_only peer p p2) /\
  ((op_state_effect o1 = EAdvanced <-> exists x, op_result o1 = Ok x) /\
   (op_state_effect o2 = EAdvanced <-> exists x, op_result o2 = Ok x)) /\
  (forall x, op_result o1 = Ok x -> is_Some (op_authenticated_peer o1) /\ op_authenticated_peer o1 = peer_of p peer) /\
  (forall x, op_result o2 = Ok x -> is_Some (op_authenticated_peer o2) /\ op_authenticated_peer o2 = peer_of p2 peer) /\
  (op_state_effect o1 = EUnchanged -> p1 = p) /\ (op_state_effect o2 = EUnchanged -> p2 = p) /\
  (op_state_effect o1 = ETerminal -> exists s, pa_sessions p1 !! peer = Some s /\ agreement_failed s = true) /\
  (op_state_effect o2 = ETerminal -> exists s, pa_sessions p2 !! peer = Some s /\ agreement_failed s = true) /\
  match pa_sessions p !! peer with
  | None => p1 = p /\ op_result o1 = Err ONoSession
  | Some s => pa_sessions p1 = <[peer := (session_encrypt s m d1).1]> (pa_sessions p) /\
      op_result o1 = ok_or OMessage (session_encrypt s m d1).2
  end /\
  match heard p peer m d1 with
  | Some (s, x) => op_result o2 = Ok x /\ pa_sessions p2 = <[peer := s]> (pa_sessions p) /\ pa_prekeys p2 = pa_prekeys p
  | None =>
      match opened p m d2 with
      | Some (store, s, x) =>
          op_result o2 = Ok x /\ pa_sessions p2 = <[peer := s]> (pa_sessions p) /\ pa_prekeys p2 = Some store
      | None =>
          op_result o2 = Err (refusal p peer m) /\ pa_sessions p2 = refused p peer m d1 /\ pa_prekeys p2 = pa_prekeys p
      end
  end.
Proof.
  unfold encrypt_with_outcome, decrypt_with_outcome. intros H1 H2.
  destruct (encrypt p peer m d1) as [q1 r1] eqn:E1. injection H1 as <- <-. apply encrypt_spec in E1 as (T1 & K1 & S1).
  destruct (decrypt p peer m d1 d2) as [q2 r2] eqn:E2. injection H2 as <- <-.
  pose proof (decrypt_exact _ _ _ _ _ _ _ E2) as X2. apply decrypt_spec in E2 as [T2 S2].
  cbn [op_result op_authenticated_peer op_state_effect].
  assert (forall (q : OpenParty) (r : result OpenError bytes), effect_of q peer r = EAdvanced <-> exists x, r = Ok x) as Ha.
  { intros q [x|e]; cbn; [split; eauto|]. split; [by destruct (pa_sessions q !! peer) as [s|]; [destruct (agreement_failed s)|]|by intros [? ?]]. }
  assert (forall (q : OpenParty) (r : result OpenError bytes), effect_of q peer r = ETerminal ->
    exists s, pa_sessions q !! peer = Some s /\ agreement_failed s = true) as Hterm.
  { intros q [x|e]; cbn; [done|]. destruct (pa_sessions q !! peer) as [s|]; [|done]. destruct (agreement_failed s) eqn:Ef; [by eauto|done]. }
  assert (forall (q : OpenParty) (r : result OpenError bytes), effect_of q peer r = EUnchanged ->
    (exists e, r = Err e) /\ forall s, pa_sessions q !! peer = Some s -> agreement_failed s = false) as Hun.
  { intros q [x|e]; cbn; [done|]. intros H. split; [by eauto|]. intros s Hs. rewrite Hs in H. by destruct (agreement_failed s). }
  split_and!; try done; try apply Ha; try apply Hterm.
  - intros x ->. destruct (pa_sessions p !! peer) as [s|] eqn:Es; [|by destruct S1]. unfold peer_of. by rewrite Es.
  - intros x ->. split; [|done]. unfold peer_of.
    inversion S2 as [s s' x' Hs Hm Hd Hp|store store' s x' Hm Hs Hk He Hk' Hs'|]; subst; [cbn; by rewrite lookup_insert_eq|by rewrite Hs'].
  - intros [[e ->] Hf]%Hun. destruct (pa_sessions p !! peer) as [s|] eqn:Es; [|by destruct S1]. destruct S1 as [-> Hr].
    destruct (session_encrypt s m d1) as [s' [c|]] eqn:Ee; [done|]. cbn in *.
    rewrite (session_encrypt_refused s m d1 s' Ee); [by apply with_peer_same|]. apply Hf. apply lookup_insert_eq.
  - intros [[e ->] Hf]%Hun. inversion S2 as [| |e' Hs Hk]; subst. destruct T2 as [A1 A2 A3].
    assert (pa_sessions q2 = pa_sessions p) as Hsess.
    { apply map_eq. intros a. destruct (decide (a = peer)) as [->|Hne]; [|by apply A3].
      destruct Hs as [?|(s & s' & Hs & Hd & Hs')]; [done|]. rewrite Hs, Hs'. f_equal. apply (session_decrypt_refused s m d1 s' Hd). by apply Hf. }
    assert (pa_prekeys q2 = pa_prekeys p) as Hpk.
    { destruct Hk as [?|(st & st' & Hs1 & Hr & ->)]; [done|]. rewrite Hs1. f_equal. by eapply establish_responder_refused. }
    destruct p, q2; cbn in *. by subst.
  - destruct (pa_sessions p !! peer) as [s|]; [|done]. by destruct S1 as [-> ->].
Qed.

(** ** An engine for the witnesses: a session is its peer's identity byte,
    whether it has failed, and how many messages it has taken *)
#[global] Instance sample_engine : Engine := {|
  Draw := unit; Identity := byte; PrekeyStore := byte; Session := byte * bool * byte;
  identity_generate := fun _ => x07;
  identity_export := fun i => replicate 32 i;
  identity_from_secret := fun bs => hd x00 bs;
  identity_public := fun i => replicate 32 i;
  sign_message := fun i _ _ => replicate 64 i;
  verify_under_identity := fun key _ sig => bool_decide (take 32 sig = key);
  create_prekeys := fun _ n _ => byte_of n;
  one_time_remaining := fun s => (byte_val s, byte_val s);
  replenish := fun s _ n _ => byte_of (byte_val s + n);
  publish_multi_use := fun s => mkPublished (mkPreKeyBundle [s] [] [] [] [] None) 0 None 0;
  one_time_batch := fun s => [];
  prekeys_to_bytes := fun s => [s];
  prekeys_from_bytes := fun bs => match bs with [s] => Some s | _ => None end;
  encode_bundle := fun w => wb_identity_key w;
  decode_bundle := fun bs => Some (mkWireBundle bs [] [] [] [] None 0 None 0);
  establish_initiator := fun _ b _ => Some (hd x00 (pb_identity_key (pu_bundle b)), false, x00);
  establish_initiator_for := fun _ b key _ => if bool_decide (hd x00 key = hd x00 (pb_identity_key (pu_bundle b))) then Some (hd x00 key, false, x00) else None;
  establish_responder := fun _ s m _ =>
    match m with
    | t :: i :: m => if bool_decide (t = x01) && (0 <? byte_val s) then (byte_of (byte_val s - 1), Some ((i, false, x00), m)) else (s, None)
    | _ => (s, None)
    end;
  message_type := fun m => match m with x01 :: _ => Some Initial | x02 :: _ => Some Ratchet | _ => None end;
  session_encrypt := fun s m _ => let '(i, failed, n) := s in
    if failed : bool then (s, None) else ((i, false, byte_of (byte_val n + 1)), Some (x02 :: m));
  session_decrypt := fun s m _ => let '(i, failed, n) := s in
    match m with
    | t :: m => if bool_decide (t = x02) && negb failed then ((i, false, byte_of (byte_val n + 1)), Some m) else (s, None)
    | [] => (s, None)
    end;
  session_export := fun s => let '(i, failed, n) := s in [i; if failed : bool then x01 else x00; n];
  session_import := fun bs => match bs with [i; x00; n] => Some (i, false, n) | [i; x01; n] => Some (i, true, n) | _ => None end;
  peer_identity := fun s => replicate 32 s.1.1;
  agreement_failed := fun s => s.1.2
|}.

#[global] Instance sample_engine_laws : EngineLaws.
Proof.
  split; cbn.
  - intros [[i []] n]; done.
  - done.
  - done.
  - done.
  - intros [[i []] n] m d s'; by intros [= <-].
  - intros [[i f] n] [|b m] d s' H; [by injection H|]. destruct (_ && _); [done|by injection H].
  - intros i st [|b [|j m]] d st' H; [by injection H..|]. destruct (_ && _); [done|by injection H].
Qed.

Lemma provider_outcomes_exact_witness :
  let p := mkParty (mkAddress (bstr "acme/alice") x01) x07 (Some x02) {[mkAddress (bstr "acme/bob") x01 := (x09, false, x00)]} in
  let peer := mkAddress (bstr "acme/bob") x01 in
  let m := [x01; x0a; x55] in
  exists p2 o2, decrypt_with_outcome p peer m tt tt = (p2, o2) /\ op_result o2 = Ok [x55] /\ op_state_effect o2 = EAdvanced /\
    pa_prekeys p2 = Some x01 /\ op_authenticated_peer o2 = Some (replicate 32 x0a).
Proof.
  intros p peer m.
  pose proof (provider_outcomes_exact p peer m tt tt _ _ _ _ (surjective_pairing _) (surjective_pairing _)) as (_ & (_ & Ha) & _).
  exists (decrypt_with_outcome p peer m tt tt).1, (decrypt_with_outcome p peer m tt tt).2. split; [apply surjective_pairing|].
  split_and!; [vm_compute; reflexivity|apply Ha; exists [x55]; vm_compute; reflexivity|vm_compute; reflexivity..].
Defined.
