(* ===== verification/DurableOpen.v ===== *)
(** * DurableOpen: a party whose every step is on disk
    ([tacenta-core/src/crypto/durable_open.rs])

    The party of [Provider] with the directory of [Persist]: each call that
    changes the party rewrites one state file before it returns.  A call's
    states of the directory are a list, so a crash is any one of them. *)

From S2P Require Import Prelude Framing GroupRecords Persist Provider.

Definition IDENTITY_FILE : path := "identity.bin".
Definition STATE_FILE : path := "state.bin".
Definition STATE_VERSION : byte := x01.

(** [dir.join(name)]. *)
Definition join (dir name : path) : path := String.append dir (String.append "/" name).

(** [DInvalidData] is the [Io] of [invalid_data]. *)
Inductive DurableError := DProvider (e : OpenError) | DIo (e : IoError) | DInvalidData.

Definition d_provider {A} (r : result OpenError A) : result DurableError A :=
  match r with Ok a => Ok a | Err e => Err (DProvider e) end.
Definition d_io {A} (r : result IoError A) : result DurableError A :=
  match r with Ok a => Ok a | Err e => Err (DIo e) end.

(** ** The state file *)
Definition encode_state (prekeys sessions : bytes) : bytes :=
  STATE_VERSION :: (match prekeys with [] => [x00] | _ => x01 :: put_block prekeys end) ++ put_block sessions.

(** Each slice is bounds-checked before it is taken; [rest] is what lies past
    [pos]. *)
Definition decode_state (bs : bytes) : result DurableError (option bytes * bytes) :=
  match bs with
  | [] => Err DInvalidData
  | version :: rest =>
      if negb (bool_decide (version = STATE_VERSION)) then Err DInvalidData else
      match rest with
      | [] => Err DInvalidData
      | prekeys_present :: rest =>
          '(prekeys, rest) ←
            (if bool_decide (prekeys_present = x00) then Ok (None, rest) else
             if bool_decide (prekeys_present = x01) then
               '(field, rest) ← ok_or DInvalidData (take_bytes rest); Ok (Some field, rest)
             else Err DInvalidData);
          '(sessions, rest) ← ok_or DInvalidData (take_bytes rest);
          match rest with [] => Ok (prekeys, sessions) | _ => Err DInvalidData end
      end
  end.

(** [0u32.to_be_bytes()]. *)
Definition empty_sessions_blob : bytes := be32 0.

(** ** The durable party *)
Section Durable.
Context {engine : Engine}.

Record DurableOpenParty := mkDurable { du_inner : OpenParty; du_dir : path }.

Definition write_state (fs : Fs) (dir : path) (prekeys sessions : bytes) (random : nat -> Z) (io : IoAnswers)
    : list Fs * result DurableError unit :=
  let '(states, r) := write_atomically fs (join dir STATE_FILE) (encode_state prekeys sessions) random io in
  (states, d_io r).

(** What [persist] writes. *)
Definition party_prekeys (p : OpenParty) : bytes := default [] (export_prekeys p).
Definition party_sessions (p : OpenParty) : bytes := export_sessions p (known_peers p).

Definition persist (fs : Fs) (d : DurableOpenParty) (random : nat -> Z) (io : IoAnswers) : list Fs * result DurableError unit :=
  write_state fs (du_dir d) (party_prekeys (du_inner d)) (party_sessions (du_inner d)) random io.

(** [made]: what creating the directory answered. *)
Definition create (fs : Fs) (dir : path) (made : result IoError unit) (user : bytes) (device : byte) (draw : Draw)
    (random1 random2 : nat -> Z) (io1 io2 : IoAnswers) : list Fs * result DurableError DurableOpenParty :=
  match made with
  | Err e => ([], Err (DIo e))
  | Ok _ =>
      let inner := generate user device draw in
      let '(states, r) := write_atomically fs (join dir IDENTITY_FILE) (export_identity inner) random1 io1 in
      match r with
      | Err e => (states, Err (DIo e))
      | Ok _ =>
          let '(more, r) := write_state (default fs (last states)) dir [] empty_sessions_blob random2 io2 in
          (states ++ more, _ ← r; Ok (mkDurable inner dir))
      end
  end.

Definition open (fs : Fs) (dir : path) (user : bytes) (device : byte) : result DurableError DurableOpenParty :=
  identity_bytes ← d_io (read_file fs (join dir IDENTITY_FILE));
  inner ← d_provider (from_identity user device identity_bytes);
  state_bytes ← d_io (read_file fs (join dir STATE_FILE));
  '(prekeys, sessions) ← decode_state state_bytes;
  inner ← match prekeys with
          | Some prekeys => let '(inner, r) := import_prekeys inner prekeys in _ ← d_provider r; Ok inner
          | None => Ok inner
          end;
  let '(inner, r) := import_sessions inner sessions in
  _ ← d_provider r;
  Ok (mkDurable inner dir).

(** The inner call, then [persist]: a call the provider refused writes
    nothing. *)
Definition persisted {A} (fs : Fs) (dir : path) (call : OpenParty * result OpenError A) (random : nat -> Z) (io : IoAnswers)
    : DurableOpenParty * list Fs * result DurableError A :=
  let '(inner, r) := call in
  let d := mkDurable inner dir in
  match r with
  | Err e => (d, [], Err (DProvider e))
  | Ok a => let '(states, r) := persist fs d random io in (d, states, _ ← r; Ok a)
  end.

Definition durable_publish_bundle (fs : Fs) (d : DurableOpenParty) (d1 d2 : Draw) (random : nat -> Z) (io : IoAnswers) :=
  let '(inner, bundle) := publish_bundle (du_inner d) d1 d2 in persisted fs (du_dir d) (inner, Ok bundle) random io.
Definition durable_establish_session (fs : Fs) (d : DurableOpenParty) peer bundle draw (random : nat -> Z) (io : IoAnswers) :=
  persisted fs (du_dir d) (establish_session (du_inner d) peer bundle draw) random io.
Definition durable_encrypt (fs : Fs) (d : DurableOpenParty) peer plaintext draw (random : nat -> Z) (io : IoAnswers) :=
  persisted fs (du_dir d) (encrypt (du_inner d) peer plaintext draw) random io.
Definition durable_decrypt (fs : Fs) (d : DurableOpenParty) peer framed d1 d2 (random : nat -> Z) (io : IoAnswers) :=
  persisted fs (du_dir d) (decrypt (du_inner d) peer framed d1 d2) random io.

(** The calls as one type. *)
Inductive DurableOp :=
| DPublish (d1 d2 : Draw)
| DEstablish (peer : Address) (bundle : bytes) (draw : Draw)
| DEncrypt (peer : Address) (plaintext : bytes) (draw : Draw)
| DDecrypt (peer : Address) (framed : bytes) (d1 d2 : Draw).

Definition durable_call (fs : Fs) (d : DurableOpenParty) (op : DurableOp) (random : nat -> Z) (io : IoAnswers)
    : DurableOpenParty * list Fs * result DurableError bytes :=
  match op with
  | DPublish d1 d2 => durable_publish_bundle fs d d1 d2 random io
  | DEstablish peer bundle draw =>
      let '(d, states, r) := durable_establish_session fs d peer bundle draw random io in (d, states, _ ← r; Ok [])
  | DEncrypt peer plaintext draw => durable_encrypt fs d peer plaintext draw random io
  | DDecrypt peer framed d1 d2 => durable_decrypt fs d peer framed d1 d2 random io
  end.
End Durable.

(** ** The file holds the party *)
Lemma decode_encode_state prekeys sessions : len prekeys <= u32_max -> len sessions <= u32_max ->
  decode_state (encode_state prekeys sessions) = Ok (match prekeys with [] => None | _ => Some prekeys end, sessions).
Proof.
  intros Hp Hs. unfold encode_state, decode_state. cbn [app]. rewrite bool_decide_eq_true_2 by done. cbn [negb].
  assert (take_bytes (put_block sessions) = Some (sessions, [])) as Ht.
  { pose proof (take_block sessions [] Hs) as H. by rewrite app_nil_r in H. }
  destruct prekeys as [|b prekeys]; cbn [app].
  - rewrite bool_decide_eq_true_2 by done. cbn [mbind result_bind]. by rewrite Ht.
  - rewrite bool_decide_eq_false_2, bool_decide_eq_true_2 by done. rewrite take_block by done. cbn [ok_or mbind result_bind]. by rewrite Ht.
Qed.

Lemma read_regular fs p ino f : names fs !! p = Some (NFile ino) -> files fs !! ino = Some f -> read_file fs p = Ok (contents f).
Proof. intros Hn Hf. unfold read_file, MAX_LINKS. cbn [resolve]. rewrite Hn. cbn. by rewrite Hf. Qed.

Lemma join_apart dir : join dir IDENTITY_FILE <> join dir STATE_FILE.
Proof. unfold join. intros H. induction dir as [|c dir IH]; [done|]. injection H as H. by apply IH. Qed.

Section Crash.
Context {engine : Engine} {laws : EngineLaws}.

(** The ranges the state file's prefixes hold. *)
Record party_fits (p : OpenParty) : Prop := {
  pf_sessions : sessions_fit p;
  pf_prekeys : match export_prekeys p with Some bs => bs <> [] /\ len bs <= u32_max | None => True end;
  pf_blob : len (party_sessions p) <= u32_max
}.

(** A regular file of these contents. *)
Definition holds (fs : Fs) (p : path) (bs : bytes) : Prop :=
  exists ino f, names fs !! p = Some (NFile ino) /\ files fs !! ino = Some f /\ contents f = bs.

Definition on_disk (fs : Fs) (d : DurableOpenParty) : Prop :=
  holds fs (join (du_dir d) IDENTITY_FILE) (export_identity (du_inner d)) /\
  holds fs (join (du_dir d) STATE_FILE) (encode_state (party_prekeys (du_inner d)) (party_sessions (du_inner d))).

Lemma holds_read fs p bs : holds fs p bs -> read_file fs p = Ok bs.
Proof. intros (ino & f & Hn & Hf & <-). by eapply read_regular. Qed.

Lemma open_on_disk fs d : on_disk fs d -> party_fits (du_inner d) ->
  open fs (du_dir d) (ad_user (pa_address (du_inner d))) (ad_device (pa_address (du_inner d))) = Ok d.
Proof.
  intros [Hi Hs] [Hfit Hk Hb]. unfold open. rewrite (holds_read _ _ _ Hi), (holds_read _ _ _ Hs). cbn [d_io mbind result_bind].
  rewrite from_export_identity. cbn [d_provider mbind result_bind].
  destruct d as [p dir]. cbn [du_inner du_dir] in *. unfold party_prekeys in *.
  rewrite decode_encode_state; [|by destruct (export_prekeys p); [apply Hk|by vm_compute]|done]. cbn [mbind result_bind].
  set (q := mkParty (mkAddress _ _) (pa_identity p) None ∅).
  assert (match match default [] (export_prekeys p) with [] => None | _ => Some (default [] (export_prekeys p)) end with
          | Some prekeys => let '(inner, r) := import_prekeys q prekeys in _ ← d_provider r; Ok inner
          | None => Ok q
          end = Ok (E := DurableError) (with_prekeys q (pa_prekeys p))) as ->.
  { unfold export_prekeys in *. destruct (pa_prekeys p) as [store|]; cbn [fmap option_fmap option_map default] in *; [|done].
    destruct (prekeys_to_bytes store) as [|b bs] eqn:Eb; [by destruct Hk|]. cbn [from_option id]. rewrite <- Eb, import_export_prekeys. done. }
  cbn [mbind result_bind]. unfold party_sessions. rewrite import_export by done. cbn [d_provider mbind result_bind].
  by destruct p as [[u v] i k m].
Qed.

Lemma holds_preserved fs fs' l p bs : preserved fs fs' l -> p ∉ l -> holds fs p bs -> holds fs' p bs.
Proof. intros [H1 H2] Hp (ino & f & Hn & Hf & <-). exists ino, f. split_and!; auto. Qed.

(** Every state a rewrite goes through holds the party as it was or as it is. *)
Lemma persist_states fs p d random io states r :
  on_disk fs (mkDurable p (du_dir d)) -> pa_identity (du_inner d) = pa_identity p ->
  persist fs d random io = (states, r) ->
  (forall fs', fs' ∈ states -> on_disk fs' (mkDurable p (du_dir d)) \/ on_disk fs' d) /\
  (r = Ok tt -> exists fs', last states = Some fs' /\ on_disk fs' d).
Proof.
  intros [Hi Hs] Hid H. unfold persist, write_state in H. destruct (write_atomically _ _ _ _ _) as [l r'] eqn:Ew. injection H as <- <-.
  apply write_states in Ew as (Hall & Hlast & _). cbn [du_dir du_inner] in *.
  assert (forall fs', intact fs fs' (join (du_dir d) STATE_FILE)
    (encode_state (party_prekeys (du_inner d)) (party_sessions (du_inner d))) -> on_disk fs' (mkDurable p (du_dir d)) \/ on_disk fs' d) as Hst.
  { intros fs' [Hpre Hn]. assert (holds fs' (join (du_dir d) IDENTITY_FILE) (export_identity p)) as Hi'.
    { eapply holds_preserved; [done| |done]. rewrite list_elem_of_singleton. apply join_apart. }
    destruct Hn as [Hn|(ino & Hn & Hf)].
    - left. split; [done|]. destruct Hs as (ino & f & Hs & Hf & Hc). exists ino, f. cbn [du_dir du_inner] in *. rewrite Hn. split_and!; try done. by apply Hpre.
    - right. split; [unfold export_identity; by rewrite Hid|]. by exists ino, (mkFile (encode_state (party_prekeys (du_inner d)) (party_sessions (du_inner d))) 384). }
  split.
  - intros fs' Hin. rewrite Forall_forall in Hall. by apply Hst, Hall.
  - intros Hr. destruct r' as [[]|]; [|done]. destruct (Hlast eq_refl) as (ino & Hl). eexists. split; [exact Hl|]. split.
    + assert (intact fs (mkFs (<[join (du_dir d) STATE_FILE := NFile ino]> (names fs))
        (<[ino := mkFile (encode_state (party_prekeys (du_inner d)) (party_sessions (du_inner d))) 384]> (files fs)))
        (join (du_dir d) STATE_FILE) (encode_state (party_prekeys (du_inner d)) (party_sessions (du_inner d)))) as [Hpre _].
      { rewrite Forall_forall in Hall. apply Hall. by apply last_Some_elem_of. }
      unfold export_identity. rewrite Hid. eapply holds_preserved; [done| |done]. rewrite list_elem_of_singleton. apply join_apart.
    + eexists ino, _. cbn. by rewrite !lookup_insert_eq.
Qed.

Lemma establish_keeps p peer bundle d : let p' := (establish_session p peer bundle d).1 in
  pa_address p' = pa_address p /\ pa_identity p' = pa_identity p.
Proof. unfold establish_session. destruct (decode_bundle bundle); [|done]. cbn. by destruct (establish_initiator _ _ _). Qed.

(** A call that reached the disk, whatever the inner call was. *)
Lemma persisted_states {A} fs d (call : OpenParty * result OpenError A) random io d' states r :
  on_disk fs d -> party_fits (du_inner d) -> party_fits (du_inner d') ->
  pa_address call.1 = pa_address (du_inner d) -> pa_identity call.1 = pa_identity (du_inner d) ->
  persisted fs (du_dir d) call random io = (d', states, r) ->
  (forall fs', fs' = fs \/ fs' ∈ states ->
     (on_disk fs' d \/ on_disk fs' d') /\
     exists found, open fs' (du_dir d) (ad_user (pa_address (du_inner d))) (ad_device (pa_address (du_inner d))) = Ok found /\
       (found = d \/ found = d')) /\
  (forall x, r = Ok x -> exists fs', last states = Some fs' /\ on_disk fs' d').
Proof.
  intros Hd Hf Hf' Ha Hi H. destruct call as [inner q]. cbn [fst] in *. unfold persisted in H.
  assert (forall fs', on_disk fs' d \/ on_disk fs' (mkDurable inner (du_dir d)) -> d' = mkDurable inner (du_dir d) ->
    exists found, open fs' (du_dir d) (ad_user (pa_address (du_inner d))) (ad_device (pa_address (du_inner d))) = Ok found /\
       (found = d \/ found = d')) as Hopen.
  { intros fs' [Ho|Ho] ->; [exists d; split; [by apply open_on_disk|by left]|]. exists (mkDurable inner (du_dir d)).
    split; [|by right]. rewrite <- Ha. by apply (open_on_disk fs' (mkDurable inner (du_dir d))). }
  destruct q as [a|e].
  - destruct (persist fs (mkDurable inner (du_dir d)) random io) as [l s] eqn:Ep. injection H as <- <- <-.
    destruct d as [p dir]. cbn [du_dir du_inner] in *.
    destruct (persist_states fs p (mkDurable inner dir) random io l s Hd Hi Ep) as [Hall Hlast]. cbn [du_dir] in *. split.
    + intros fs' [->|Hin]; [split; [by left|apply Hopen; [by left|done]]|].
      destruct (Hall fs' Hin); (split; [by auto|apply Hopen; [by auto|done]]).
    + intros x Hx. destruct s as [[]|]; [|done]. by apply Hlast.
  - injection H as <- <- <-. split; [|done]. intros fs' [->|Hin]; [|by apply elem_of_nil in Hin].
    split; [by left|apply Hopen; [by left|done]].
Qed.
End Crash.

(** C6. A crash at any point of a call leaves the party as it was before the
    call or as it is after.  Start from a directory that holds a party; whatever
    the operating system answers while the party publishes, opens a session,
    encrypts or decrypts, every state the directory goes through opens as the
    party before the call, with its prekeys and every session, or as the party
    after it, never as a mixture; and a call that succeeded left the party after
    it, as long as both parties fit the two files' length fields.  So an initial
    message's prekey is spent exactly when its session is
    saved, and no restart reuses a message key that reached the wire. *)
Theorem durable_party_survives_crash {engine : Engine} {laws : EngineLaws} fs d op random io d' states r :
  on_disk fs d -> party_fits (du_inner d) -> party_fits (du_inner d') ->
  durable_call fs d op random io = (d', states, r) ->
  (forall fs', fs' = fs \/ fs' ∈ states ->
     (on_disk fs' d \/ on_disk fs' d') /\
     exists found, open fs' (du_dir d) (ad_user (pa_address (du_inner d))) (ad_device (pa_address (du_inner d))) = Ok found /\
       (found = d \/ found = d')) /\
  (forall x, r = Ok x -> exists fs', last states = Some fs' /\ on_disk fs' d').
Proof.
  intros Hd Hf Hf' H. destruct op as [d1 d2|peer bundle draw|peer m draw|peer m d1 d2]; cbn [durable_call] in H.
  - unfold durable_publish_bundle in H. destruct (publish_bundle (du_inner d) d1 d2) as [inner b] eqn:Eb.
    unfold publish_bundle in Eb. destruct (one_time_remaining _) as [x y]. injection Eb as <- <-.
    by apply persisted_states in H.
  - unfold durable_establish_session in H. destruct (persisted _ _ _ _ _) as [[e l] s] eqn:Ep. injection H as <- <- <-.
    destruct (establish_keeps (du_inner d) peer bundle draw). apply persisted_states in Ep as [Hall Hlast]; try done.
    split; [done|]. intros x Hx. destruct s as [[]|]; [|done]. by apply (Hlast tt).
  - unfold durable_encrypt in H. destruct (encrypt (du_inner d) peer m draw) as [inner q] eqn:Ee.
    destruct (encrypt_spec _ _ _ _ _ _ Ee) as ([Ta Ti _] & _ & _). by apply persisted_states in H.
  - unfold durable_decrypt in H. destruct (decrypt (du_inner d) peer m d1 d2) as [inner q] eqn:Ee.
    destruct (decrypt_spec _ _ _ _ _ _ _ Ee) as [[Ta Ti _] _]. by apply persisted_states in H.
Qed.

Definition sample_party : OpenParty := mkParty (mkAddress (bstr "alice") x01) x07 (Some x02) ∅.
Definition sample_peer : Address := mkAddress (bstr "bob") x01.
Definition sample_party' : OpenParty := with_peer (with_prekeys sample_party (Some x01)) sample_peer (x09, false, x00).
Definition sample_disk : Fs :=
  mkFs {["party/identity.bin" := NFile 0; "party/state.bin" := NFile 1]}
    {[0%nat := mkFile (export_identity sample_party) 384;
      1%nat := mkFile (encode_state (party_prekeys sample_party) (party_sessions sample_party)) 384]}.

Lemma sample_on_disk : on_disk sample_disk (mkDurable sample_party "party").
Proof.
  split; [exists 0%nat, (mkFile (export_identity sample_party) 384)
         |exists 1%nat, (mkFile (encode_state (party_prekeys sample_party) (party_sessions sample_party)) 384)];
    split_and!; vm_compute; reflexivity.
Qed.

Lemma sample_fits : party_fits sample_party.
Proof. split; [split; [intros peer s H; cbn in H; by apply lookup_empty_Some in H|by vm_compute]|split; [done|by vm_compute]|by vm_compute]. Qed.

Lemma sample_fits' : party_fits sample_party'.
Proof.
  split; [split; [|by vm_compute]|split; [done|by vm_compute]|by vm_compute].
  intros peer s H. change (({[sample_peer := (x09, false, x00)]} : gmap Address Session) !! peer = Some s) in H.
  apply lookup_singleton_Some in H as [<- <-]. by vm_compute.
Qed.

Lemma durable_party_survives_crash_witness :
  let d := mkDurable sample_party "party" in
  let op := DDecrypt sample_peer [x01; x09; x55] tt tt in
  exists d' states, durable_call sample_disk d op Z.of_nat io_fine = (d', states, Ok [x55]) /\ pa_prekeys (du_inner d') = Some x01 /\
    (exists fs', last states = Some fs' /\ on_disk fs' d') /\
    (exists found, open (default sample_disk (states !! 2%nat)) "party" (bstr "alice") x01 = Ok found /\ (found = d \/ found = d')).
Proof.
  intros d op. set (d' := mkDurable sample_party' "party").
  destruct (persist sample_disk d' Z.of_nat io_fine) as [states r] eqn:Ep.
  assert (r = Ok tt) as -> by (change (r = Ok tt) with ((states, r).2 = Ok tt); rewrite <- Ep; vm_compute; reflexivity).
  assert (durable_call sample_disk d op Z.of_nat io_fine = (d', states, Ok [x55])) as Hc.
  { unfold op, durable_call, durable_decrypt.
    change (decrypt (du_inner d) sample_peer [x01; x09; x55] tt tt) with (sample_party', Ok (E := OpenError) [x55]).
    unfold persisted. cbn [du_dir d]. change (mkDurable sample_party' "party") with d'. rewrite Ep. reflexivity. }
  destruct (durable_party_survives_crash sample_disk d op Z.of_nat io_fine d' states _ sample_on_disk sample_fits sample_fits' Hc)
    as [Hall Hlast].
  exists d', states. split; [exact Hc|]. split; [reflexivity|].
  split; [apply (Hlast [x55]); reflexivity|].
  apply Hall. destruct (states !! 2%nat) as [fs'|] eqn:E2; [right; by eapply list_elem_of_lookup_2|by left].
Defined.
