(* ===== verification/DirServer.v ===== *)
(** * DirServer: the directory over a connection
    ([tacenta-transport/src/directory.rs])

    The server side of a directory connection, which checks every signature and
    the admission of new handles before the store of [Directory] sees a
    request, and the client side, which signs the connection's challenge and
    builds the requests.  Verification is a parameter ([Possession]); the clock
    a registration is throttled by is an argument. *)

From S2P Require Import Prelude Framing Directory DirectoryProtocol RateLimit.

(** ** The server *)
(** [verify identity statement signature]. *)
Class Possession := verify : bytes -> bytes -> bytes -> bool.

Inductive RegistrationPolicy := PolicyOpen | AccountsOnly.

Record DirServer := mkDirServer { ds_directory : Directory; ds_limiter : Limiter; ds_policy : RegistrationPolicy }.

Definition dir_server_gated (dir : Directory) (max_per_hour : Z) (policy : RegistrationPolicy) : DirServer :=
  mkDirServer dir (reg_with_max max_per_hour) policy.
Definition dir_server_with_limit (dir : Directory) (max_per_hour : Z) : DirServer := dir_server_gated dir max_per_hour PolicyOpen.
Definition dir_server (dir : Directory) : DirServer := dir_server_with_limit dir DEFAULT_MAX_PER_WINDOW.

(** [user.contains('/')]. *)
Definition is_reserved_handle (u : bytes) : bool := existsb (fun b => bool_decide (b = x2f)) u.

Definition with_directory (s : DirServer) (dir : Directory) : DirServer := mkDirServer dir (ds_limiter s) (ds_policy s).
Definition with_reg_limiter (s : DirServer) (l : Limiter) : DirServer := mkDirServer (ds_directory s) l (ds_policy s).

Section Server.
Context `{Possession}.

(** A new handle's admission: the policy, then the throttle. *)
Definition admit_new (s : DirServer) (source : bytes) (now : Z) : DirServer * option DirResponse :=
  match ds_policy s with
  | AccountsOnly => (s, Some RRegistrationClosed)
  | PolicyOpen =>
      let '(l, over) := over_limit_at (ds_limiter s) source now in
      (with_reg_limiter s l, if over then Some RRateLimited else None)
  end.

Definition handle_register (s : DirServer) (challenge source : bytes) (now : Z) (d : DeviceAddr) (identity bundle signature : bytes)
    : DirServer * DirResponse :=
  if is_reserved_handle (user d) then (s, RReservedHandle) else
  if negb (verify identity challenge signature) then (s, RPossessionFailed) else
  let '(s, refused) := if negb (contains_device (ds_directory s) d) then admit_new s source now else (s, None) in
  match refused with
  | Some r => (s, r)
  | None =>
      let '(dir, outcome) := dir_register (ds_directory s) d identity bundle in
      (with_directory s dir, from_registration outcome)
  end.

(** [Rotate] and [Recover]: possession of the new key, then [authority]'s
    signature over the challenge and the new key. *)
Definition replace_key (s : DirServer) (challenge : bytes) (authority : option bytes) (missing : DirResponse)
    (d : DeviceAddr) (new_identity new_bundle possession_sig authority_sig : bytes) : DirServer * DirResponse :=
  if negb (verify new_identity challenge possession_sig) then (s, RPossessionFailed) else
  match authority with
  | None => (s, missing)
  | Some key =>
      if negb (verify key (challenge ++ new_identity) authority_sig) then (s, RUnauthorized) else
      let '(dir, outcome) := dir_rotate (ds_directory s) d new_identity new_bundle in
      (with_directory s dir, from_rotation outcome)
  end.

Definition handle (s : DirServer) (challenge source : bytes) (now : Z) (request : DirRequest) : DirServer * DirResponse :=
  match request with
  | DirRegister d identity bundle signature => handle_register s challenge source now d identity bundle signature
  | DirDepositPrekeys d identity bundles signature =>
      if negb (verify identity challenge signature) then (s, RPossessionFailed) else
      let '(dir, outcome) := deposit_prekeys (ds_directory s) d identity bundles in
      (with_directory s dir, from_deposit outcome)
  | DirLookup d =>
      let '(dir, found) := dir_lookup (ds_directory s) d in
      (with_directory s dir, match found with Some (key, bundle) => RFound key bundle | None => RNotFound end)
  | DirRotate d new_identity new_bundle possession_sig rotation_sig =>
      replace_key s challenge (dir_identity (ds_directory s) d) RUnregistered d new_identity new_bundle possession_sig rotation_sig
  | DirSetRecovery d key signature =>
      match dir_identity (ds_directory s) d with
      | None => (s, RUnregistered)
      | Some current =>
          if negb (verify current challenge signature) then (s, RUnauthorized) else
          let '(dir, outcome) := set_recovery (ds_directory s) d key in
          (with_directory s dir, from_recovery_set outcome)
      end
  | DirRecover d new_identity new_bundle possession_sig recovery_sig =>
      replace_key s challenge (recovery_key (ds_directory s) d) RNoRecovery d new_identity new_bundle possession_sig recovery_sig
  | DirWitness d generation signature =>
      match dir_identity (ds_directory s) d with
      | None => (s, RUnregistered)
      | Some current =>
          if negb (verify current challenge signature) then (s, RPossessionFailed) else
          let '(dir, outcome) := dir_witness (ds_directory s) d generation in
          (with_directory s dir, from_witness outcome)
      end
  end.

(** One frame of [serve_dir_connection]; a panic is the codec's [expect]. *)
Inductive Served := SReply (frame : bytes) | SClosed | SPanic.

Definition serve_dir_frame (s : DirServer) (challenge source : bytes) (now : Z) (frame : bytes) : DirServer * Served :=
  match decode_dir_request frame with
  | None => (s, SClosed)
  | Some request =>
      let '(s, response) := handle s challenge source now request in
      (s, match encode_dir_response response with Some out => SReply out | None => SPanic end)
  end.

(** Frames until the connection ends. *)
Fixpoint serve_dir_connection (s : DirServer) (challenge source : bytes) (frames : list (Z * bytes)) : DirServer * list bytes :=
  match frames with
  | [] => (s, [])
  | (now, frame) :: frames =>
      match serve_dir_frame s challenge source now frame with
      | (s, SReply out) => let '(s, outs) := serve_dir_connection s challenge source frames in (s, out :: outs)
      | (s, _) => (s, [])
      end
  end.
End Server.

(** ** The client: a request over the connection's challenge *)
Section Connection.
Context (challenge : bytes).
Implicit Types sign : bytes -> bytes.

Definition register_request (d : DeviceAddr) (identity bundle : bytes) sign : DirRequest :=
  DirRegister d identity bundle (sign challenge).
Definition deposit_request (d : DeviceAddr) (identity : bytes) (bundles : list bytes) sign : DirRequest :=
  DirDepositPrekeys d identity bundles (sign challenge).
Definition witness_request (d : DeviceAddr) (generation : Z) sign : DirRequest := DirWitness d generation (sign challenge).
Definition lookup_request (d : DeviceAddr) : DirRequest := DirLookup d.
Definition rotate_request (d : DeviceAddr) (new_identity new_bundle : bytes) sign_possession sign_rotation : DirRequest :=
  DirRotate d new_identity new_bundle (sign_possession challenge) (sign_rotation (challenge ++ new_identity)).
Definition set_recovery_request (d : DeviceAddr) (key : bytes) sign : DirRequest := DirSetRecovery d key (sign challenge).
Definition recover_request (d : DeviceAddr) (new_identity new_bundle : bytes) sign_possession sign_recovery : DirRequest :=
  DirRecover d new_identity new_bundle (sign_possession challenge) (sign_recovery (challenge ++ new_identity)).
End Connection.

(** [exchange]: [answer] is the frame read back, [None] the end of the
    stream. *)
Inductive ExchangeError := NoResponse | Malformed.

Definition exchange_answer (answer : option bytes) : result ExchangeError DirResponse :=
  frame ← ok_or NoResponse answer; ok_or Malformed (decode_dir_response frame).

(** ** Who may change a binding *)
Section Keys.
Context `{Possession}.

(** A request as it reaches the server, over some connection. *)
Record WireRequest := mkWire { wr_challenge : bytes; wr_source : bytes; wr_now : Z; wr_request : DirRequest }.

Definition serve_one (s : DirServer) (w : WireRequest) : DirServer :=
  (handle s (wr_challenge w) (wr_source w) (wr_now w) (wr_request w)).1.
Definition serve_run (s : DirServer) (run : list WireRequest) : DirServer := fold_left serve_one run s.

(** The statements a request carries signatures over, with the signatures. *)
Definition presented (challenge : bytes) (request : DirRequest) : list (bytes * bytes) :=
  match request with
  | DirRegister _ _ _ sig | DirDepositPrekeys _ _ _ sig | DirSetRecovery _ _ sig | DirWitness _ _ sig => [(challenge, sig)]
  | DirLookup _ => []
  | DirRotate _ new_identity _ possession authority | DirRecover _ new_identity _ possession authority =>
      [(challenge, possession); (challenge ++ new_identity, authority)]
  end.

(** No signature of the request verifies under [key]. *)
Definition silent (key : bytes) (w : WireRequest) : Prop :=
  Forall (fun p => verify key p.1 p.2 = false) (presented (wr_challenge w) (wr_request w)).

(** What only the owner's keys move, for a bound device, and that a reserved
    handle no one bound stays unbound. *)
Record untouched (dir dir' : Directory) (d : DeviceAddr) : Prop := {
  un_entry : match entries dir !! d with
             | Some e => exists given pool, entry_pool e = given ++ pool /\
                 entries dir' !! d = Some (mkEntry (entry_identity e) (entry_bundle e) pool)
             | None => is_reserved_handle (user d) = true -> entries dir' !! d = None
             end;
  un_recovery : is_Some (entries dir !! d) -> recovery_key dir' d = recovery_key dir d;
  un_generation : is_Some (entries dir !! d) -> generations dir' !! d = generations dir !! d
}.

Lemma untouched_refl dir d : untouched dir dir d.
Proof. split; [|done..]. destruct (entries dir !! d) as [[]|] eqn:E; [by exists [], entry_pool|by intros _]. Qed.

Lemma untouched_other dir dir' d :
  entries dir' !! d = entries dir !! d -> recovery_key dir' d = recovery_key dir d -> generations dir' !! d = generations dir !! d ->
  untouched dir dir' d.
Proof.
  intros He Hr Hg. split; [|done..]. rewrite He. destruct (entries dir !! d) as [[]|] eqn:E; [by exists [], entry_pool|by intros _].
Qed.

Lemma untouched_trans d1 d2 d3 d : is_reserved_handle (user d) = true \/ is_Some (entries d1 !! d) ->
  untouched d1 d2 d -> untouched d2 d3 d -> untouched d1 d3 d.
Proof.
  intros Hd [A1 A2 A3] [B1 B2 B3]. destruct (entries d1 !! d) as [e|] eqn:E1.
  - destruct A1 as (g & p & Hp & E2). rewrite E2 in B1, B2, B3. destruct B1 as (g' & p' & Hp' & E3). cbn in *. split; rewrite ?E1.
    + exists (g ++ g'), p'. by rewrite Hp, Hp', app_assoc.
    + intros Hs. by rewrite B2, A2.
    + intros Hs. by rewrite B3, A3.
  - destruct Hd as [Hd|[? ?]]; [|done]. rewrite (A1 Hd) in B1. split; rewrite E1; [by auto|by intros [? ?]..].
Qed.

(** A request about another device. *)
Definition about (request : DirRequest) : DeviceAddr :=
  match request with
  | DirRegister d _ _ _ | DirLookup d | DirDepositPrekeys d _ _ _ | DirRotate d _ _ _ _ | DirSetRecovery d _ _
  | DirRecover d _ _ _ _ | DirWitness d _ _ => d
  end.

(** The operation a request becomes on the store once every check passed. *)
Definition admitted (s : DirServer) (w : WireRequest) : option DirOp :=
  let dir := ds_directory s in
  let ok key stmt sig := verify key stmt sig in
  let c := wr_challenge w in
  match wr_request w with
  | DirRegister d i b sig =>
      if negb (is_reserved_handle (user d)) && ok i c sig &&
         (contains_device dir d || bool_decide ((admit_new s (wr_source w) (wr_now w)).2 = None))
      then Some (OpRegister d i b) else None
  | DirDepositPrekeys d i bs sig => if ok i c sig then Some (OpDeposit d i bs) else None
  | DirLookup d => Some (OpTake d)
  | DirRotate d i b p a =>
      match dir_identity dir d with
      | Some key => if ok i c p && ok key (c ++ i) a then Some (OpRotate d i b) else None
      | None => None
      end
  | DirRecover d i b p a =>
      match recovery_key dir d with
      | Some key => if ok i c p && ok key (c ++ i) a then Some (OpRotate d i b) else None
      | None => None
      end
  | DirSetRecovery d k sig =>
      match dir_identity dir d with Some key => if ok key c sig then Some (OpSetRecovery d k) else None | None => None end
  | DirWitness d g sig =>
      match dir_identity dir d with Some key => if ok key c sig then Some (OpWitness d g) else None | None => None end
  end.

Definition op_device (op : DirOp) : DeviceAddr :=
  match op with
  | OpRegister d _ _ | OpRotate d _ _ | OpSetRecovery d _ | OpWitness d _ | OpDeposit d _ _ | OpTake d => d
  end.

Lemma admit_new_directory s source now : ds_directory (admit_new s source now).1 = ds_directory s.
Proof. unfold admit_new. destruct (ds_policy s); [|done]. by destruct (over_limit_at _ _ _). Qed.

Lemma replace_key_directory s c authority missing d i b p a :
  ds_directory (replace_key s c authority missing d i b p a).1 =
  match authority with
  | Some key => if verify i c p && verify key (c ++ i) a then (dir_rotate (ds_directory s) d i b).1 else ds_directory s
  | None => ds_directory s
  end.
Proof.
  unfold replace_key. destruct (verify i c p); cbn [negb andb]; destruct authority; try done.
  destruct (verify _ _ a); cbn [negb]; [|done]. by destruct (dir_rotate _ _ _ _).
Qed.

Lemma lookup_takes dir d : (dir_lookup dir d).1 = (take_bundle dir d).1.
Proof.
  unfold dir_lookup, dir_identity, take_bundle. destruct (entries dir !! d) as [e|]; [|done]. cbn. by destruct (entry_pool e).
Qed.

(** The server is the store behind its checks. *)
Lemma serve_one_directory s w :
  ds_directory (serve_one s w) =
  match admitted s w with Some op => dir_step (ds_directory s) op | None => ds_directory s end.
Proof.
  unfold serve_one, admitted. destruct w as [c src now [d i b sig|d|d i bs sig|d i b p a|d k sig|d i b p a|d g sig]];
    cbn [wr_request wr_challenge wr_source wr_now handle].
  - unfold handle_register. destruct (is_reserved_handle (user d)); [done|]. cbn [negb andb].
    destruct (verify i c sig); [|done]. cbn [negb andb]. destruct (contains_device (ds_directory s) d); cbn [negb orb].
    + cbn [dir_step]. by destruct (dir_register _ _ _ _).
    + pose proof (admit_new_directory s src now) as Ha. destruct (admit_new s src now) as [s' [r|]]; cbn [fst snd] in *.
      * by rewrite bool_decide_eq_false_2.
      * rewrite bool_decide_eq_true_2 by done. cbn [dir_step]. rewrite <- Ha. by destruct (dir_register _ _ _ _).
  - cbn [dir_step]. rewrite <- lookup_takes. by destruct (dir_lookup _ _).
  - destruct (verify i c sig); [|done]. cbn [negb dir_step]. by destruct (deposit_prekeys _ _ _ _).
  - rewrite replace_key_directory. destruct (dir_identity _ d); [|done]. by destruct (_ && _).
  - destruct (dir_identity _ d) as [key|]; [|done]. destruct (verify key c sig); [|done]. cbn [negb dir_step].
    by destruct (set_recovery _ _ _).
  - rewrite replace_key_directory. destruct (recovery_key _ d); [|done]. by destruct (_ && _).
  - destruct (dir_identity _ d) as [key|]; [|done]. destruct (verify key c sig); [|done]. cbn [negb dir_step].
    by destruct (dir_witness _ _ _).
Qed.

Lemma step_elsewhere dir op d : op_device op <> d -> untouched dir (dir_step dir op) d.
Proof.
  intros Hd. apply untouched_other; destruct op as [d' i b|d' i b|d' k|d' g|d' i bs|d']; cbn [dir_step op_device] in *;
    unfold recovery_key; dir_cases dir d'; by rewrite ?lookup_insert_ne, ?lookup_delete_ne.
Qed.

Lemma admitted_about s w op : admitted s w = Some op -> op_device op = about (wr_request w).
Proof.
  unfold admitted. destruct (wr_request w); cbn [about]; repeat case_match; intros; simplify_eq; done.
Qed.

(** A request that carries no signature of the bound key or of the recovery
    key hands out one-time bundles, and nothing else. *)
Lemma serve_one_untouched s w d :
  is_reserved_handle (user d) = true \/ is_Some (entries (ds_directory s) !! d) ->
  (forall e, entries (ds_directory s) !! d = Some e -> silent (entry_identity e) w) ->
  (forall r, is_Some (entries (ds_directory s) !! d) -> recovery_key (ds_directory s) d = Some r -> silent r w) ->
  (forall r, recovery_key (ds_directory s) d = Some r -> is_Some (entries (ds_directory s) !! d)) ->
  untouched (ds_directory s) (ds_directory (serve_one s w)) d.
Proof.
  intros Hd He Hr Hb. rewrite serve_one_directory. destruct (admitted s w) as [op|] eqn:Ea; [|apply untouched_refl].
  destruct (decide (op_device op = d)) as [Ho|Ho]; [|by apply step_elsewhere].
  rewrite (admitted_about _ _ _ Ea) in Ho. unfold admitted in Ea. set (dir := ds_directory s) in *.
  unfold silent in He, Hr. destruct w as [c src now [d' i b sig|d'|d' i bs sig|d' i b p a|d' k sig|d' i b p a|d' g sig]];
    cbn [wr_request wr_challenge wr_source wr_now about presented] in *; subst d'.
  - destruct (is_reserved_handle (user d)) eqn:Er; [done|]. destruct Hd as [?|[e E]]; [done|]. cbn [negb andb] in Ea.
    destruct (verify i c sig) eqn:Ev; [|done]. cbn [andb] in Ea. destruct (_ || _); [|done]. injection Ea as <-. cbn [dir_step].
    unfold dir_register, dir_identity, register_core. rewrite E. cbn. case_bool_decide as Hk; [|apply untouched_refl].
    exfalso. subst i. apply He in E. apply Forall_cons in E as [E _]. cbn in E. by rewrite E in Ev.
  - injection Ea as <-. cbn [dir_step]. unfold take_bundle. destruct (entries dir !! d) as [[k b pool]|] eqn:E; cbn; [|apply untouched_refl].
    destruct pool as [|x pool]; [apply untouched_refl|]. cbn. split; cbn; [|done..]. rewrite E, lookup_insert_eq. by exists [x], pool.
  - destruct (verify i c sig) eqn:Ev; [|done]. injection Ea as <-. cbn [dir_step]. unfold deposit_prekeys.
    destruct (entries dir !! d) as [e|] eqn:E; [|apply untouched_refl]. case_bool_decide as Hk; [|apply untouched_refl].
    exfalso. subst i. specialize (He e eq_refl). apply Forall_cons in He as [He' _]. cbn in He'. by rewrite He' in Ev.
  - unfold dir_identity in Ea. destruct (entries dir !! d) as [e|]; [|done]. cbn in Ea. specialize (He e eq_refl).
    apply Forall_cons in He as [_ He]. apply Forall_cons in He as [He _]. cbn in He. rewrite He, andb_false_r in Ea. done.
  - unfold dir_identity in Ea. destruct (entries dir !! d) as [e|]; [|done]. cbn in Ea. specialize (He e eq_refl).
    apply Forall_cons in He as [He _]. cbn in He. by rewrite He in Ea.
  - destruct (recovery_key dir d) as [r|] eqn:Er; [|done]. specialize (Hr r (Hb r eq_refl) eq_refl).
    apply Forall_cons in Hr as [_ Hr]. apply Forall_cons in Hr as [Hr _]. cbn in Hr. rewrite Hr, andb_false_r in Ea. done.
  - unfold dir_identity in Ea. destruct (entries dir !! d) as [e|]; [|done]. cbn in Ea. specialize (He e eq_refl).
    apply Forall_cons in He as [He _]. cbn in He. by rewrite He in Ea.
Qed.

(** A server's store is a run of store operations, so it keeps the store's
    invariant. *)
Lemma serve_one_inv s w : dir_inv (ds_directory s) -> dir_inv (ds_directory (serve_one s w)).
Proof. intros Hi. rewrite serve_one_directory. destruct (admitted s w); [by apply dir_inv_step|done]. Qed.

Lemma serve_run_untouched run : forall s d,
  dir_inv (ds_directory s) ->
  is_reserved_handle (user d) = true \/ is_Some (entries (ds_directory s) !! d) ->
  (forall e, entries (ds_directory s) !! d = Some e -> Forall (silent (entry_identity e)) run) ->
  (forall r, recovery_key (ds_directory s) d = Some r -> Forall (silent r) run) ->
  untouched (ds_directory s) (ds_directory (serve_run s run)) d.
Proof.
  induction run as [|w run IH]; intros s d Hi Hd He Hr; [apply untouched_refl|]. cbn [serve_run fold_left].
  assert (untouched (ds_directory s) (ds_directory (serve_one s w)) d) as Hu.
  { apply serve_one_untouched; [done| | |intros r Hk; by apply (inv_recovery _ Hi)].
    - intros e E. by apply He in E; apply Forall_cons in E as [E _].
    - intros r _ E. by apply Hr in E; apply Forall_cons in E as [E _]. }
  assert (forall r, recovery_key (ds_directory (serve_one s w)) d = Some r -> recovery_key (ds_directory s) d = Some r) as Hk.
  { intros r E. destruct (decide (is_Some (entries (ds_directory s) !! d))) as [Hs|Hn].
    - by rewrite <- (un_recovery _ _ _ Hu Hs).
    - exfalso. apply (serve_one_inv _ w) in Hi. assert (is_Some (recovery (ds_directory (serve_one s w)) !! d)) as Hs by (by exists r).
      apply (inv_recovery _ Hi) in Hs. destruct Hd as [Hd|Hd]; [|done]. pose proof (un_entry _ _ _ Hu) as Hx.
      destruct (entries (ds_directory s) !! d) as [e0|]; [by apply Hn; eexists|]. rewrite (Hx Hd) in Hs. by destruct Hs. }
  apply (untouched_trans _ (ds_directory (serve_one s w)) _ _ Hd Hu). apply (IH (serve_one s w) d).
  - by apply serve_one_inv.
  - destruct Hd as [Hd|Hs]; [by left|]. right. pose proof (un_entry _ _ _ Hu) as Hx. destruct Hs as [e E]. rewrite E in Hx.
    destruct Hx as (? & ? & _ & Hx). by eexists.
  - intros e E. pose proof (un_entry _ _ _ Hu) as Hx. destruct (entries (ds_directory s) !! d) as [e0|] eqn:E0.
    + destruct Hx as (g & p & _ & Hx). rewrite Hx in E. injection E as <-. cbn. specialize (He e0 eq_refl).
      by apply Forall_cons in He as [_ He].
    + destruct Hd as [Hd|[? ?]]; [|done]. by rewrite (Hx Hd) in E.
  - intros r E. apply Hk, Hr in E. by apply Forall_cons in E as [_ E].
Qed.
End Keys.

(** C14. Only its keys move a device.  Take any sequence of directory requests,
    over any connections, at any times and from any sources, in which no
    signature verifies, over the statement the server checks it against, under
    the key a device is bound to or under its recovery key.  Then the device is
    still bound to the same key and bundle with the same recovery key and
    rollback anchor, and of its one-time bundles some were handed out, oldest
    first, and none were added.  And a handle of the account namespace that is
    not bound when the sequence starts is not bound after it, whoever signed:
    no request over the wire takes an account's name. *)
Theorem directory_needs_the_keys `{Possession} s run d :
  dir_inv (ds_directory s) ->
  is_reserved_handle (user d) = true \/ is_Some (entries (ds_directory s) !! d) ->
  (forall e, entries (ds_directory s) !! d = Some e -> Forall (silent (entry_identity e)) run) ->
  (forall r, recovery_key (ds_directory s) d = Some r -> Forall (silent r) run) ->
  let dir := ds_directory s in
  let dir' := ds_directory (serve_run s run) in
  match entries dir !! d with
  | Some e =>
      (exists given pool, entry_pool e = given ++ pool /\ entries dir' !! d = Some (mkEntry (entry_identity e) (entry_bundle e) pool)) /\
      recovery_key dir' d = recovery_key dir d /\ generations dir' !! d = generations dir !! d
  | None => dir_identity dir' d = None
  end.
Proof.
  intros Hi Hd He Hr dir dir'. destruct (serve_run_untouched run s d Hi Hd He Hr) as [U1 U2 U3]. fold dir dir' in U1, U2, U3 |- *.
  unfold dir, dir' in *. destruct (entries (ds_directory s) !! d) as [e|] eqn:E.
  - split; [done|]. split; [by apply U2|by apply U3].
  - destruct Hd as [Hd|[? ?]]; [|done]. unfold dir_identity. by rewrite (U1 Hd).
Qed.

(** A verifier by which a signature is the key and the statement. *)
Definition sample_possession : Possession := fun key stmt sig => bool_decide (sig = key ++ stmt).

Definition sample_server : DirServer :=
  dir_server (dir_run directory_new [OpRegister (mkAddr (bstr "bob") 1) [x0b] [xb0]; OpDeposit (mkAddr (bstr "bob") 1) [x0b] [[x01]; [x02]]]).
Definition sample_run : list WireRequest :=
  [mkWire [xc0] (bstr "mallory") 5 (DirRegister (mkAddr (bstr "bob") 1) [x0c] [xee] [x0c; xc0]);
   mkWire [xc0] (bstr "mallory") 6 (DirRotate (mkAddr (bstr "bob") 1) [x0c] [xee] [x0c; xc0] [x0c; xc0; x0c]);
   mkWire [xc1] (bstr "carol") 7 (DirLookup (mkAddr (bstr "bob") 1));
   mkWire [xc1] (bstr "carol") 8 (DirRegister (mkAddr (bstr "acme/al") 1) [x0c] [xee] [x0c; xc1])].

Lemma directory_needs_the_keys_witness :
  let H : Possession := sample_possession in
  (exists given pool, [[x01]; [x02]] = given ++ pool /\
     entries (ds_directory (serve_run sample_server sample_run)) !! mkAddr (bstr "bob") 1 = Some (mkEntry [x0b] [xb0] pool)) /\
  dir_identity (ds_directory (serve_run sample_server sample_run)) (mkAddr (bstr "acme/al") 1) = None.
Proof.
  intros H. split.
  - refine (proj1 (directory_needs_the_keys (H := H) sample_server sample_run (mkAddr (bstr "bob") 1) _ _ _ _)).
    + apply dir_inv_run.
    + right. eexists. vm_compute. reflexivity.
    + intros e E. vm_compute in E. injection E as <-. repeat constructor.
    + intros r E. by vm_compute in E.
  - refine (directory_needs_the_keys (H := H) sample_server sample_run (mkAddr (bstr "acme/al") 1) _ _ _ _).
    + apply dir_inv_run.
    + by left.
    + intros e E. by vm_compute in E.
    + intros r E. by vm_compute in E.
Defined.
