(* ===== verification/Transport.v ===== *)
(** * Transport: frames over a byte stream, and one request at a time
    ([tacenta-transport/src/lib.rs])

    A stream is what its reads will answer; a read that has nothing yet is
    pending, and a pending future may be dropped.  [next] is one poll of
    [FrameReader::next], which returns the reader it leaves, dropped or not. *)

From S2P Require Import Prelude Framing.

(** ** Frames *)
Definition MAX_FRAME_LEN : Z := 16 * 1024 * 1024.
Definition TAG_RESPONSE : byte := x00.
Definition TAG_PUSH : byte := x01.

Inductive FrameError := FrameTooLong | EarlyEof | ReadFailed.

(** [write_frame]: the buffer written, or the refusal of a body whose length
    does not fit its prefix. *)
Definition write_frame (data : bytes) : option bytes :=
  n ← u32_try_from (len data); Some (be32 n ++ data).
Definition write_tagged (tag : byte) (payload : bytes) : option bytes := write_frame (tag :: payload).

(** What the stream's next reads answer: bytes (none of them is an end), an end
    reported as an error, or a failure. *)
Inductive Arrival := Data (bs : bytes) | EndAsError | Broken.

(** [stream.read(&mut buf)] with room for [room] bytes; [None] is pending.  An
    end and a failure stay. *)
Inductive ReadAnswer := Got (bs : bytes) | GotEnd | GotError.

Definition read (room : Z) (s : list Arrival) : option (ReadAnswer * list Arrival) :=
  match s with
  | [] => None
  | Data [] :: _ => Some (Got [], s)
  | Data bs :: rest =>
      if len bs <=? room then Some (Got bs, rest)
      else Some (Got (take (Z.to_nat room) bs), Data (drop (Z.to_nat room) bs) :: rest)
  | EndAsError :: _ => Some (GotEnd, s)
  | Broken :: _ => Some (GotError, s)
  end.

(** [header] and [body] are the parts read so far ([header[..header_len]],
    [body[..body_len]]); [need] is [body.len()] once [in_body]. *)
Record FrameReader := mkReader { fr_header : bytes; fr_need : option Z; fr_body : bytes }.

Definition reader_new : FrameReader := mkReader [] None [].

Inductive Polled A := Pending | Ready (r : A).
Arguments Pending {A}.
Arguments Ready {A}.

(** One pass through a loop of [next]: more to do, or an answer. *)
Definition next_step (r : FrameReader) (s : list Arrival)
    : FrameReader * list Arrival * option (Polled (result FrameError (option bytes))) :=
  if len (fr_header r) <? 4 then
    match read (4 - len (fr_header r)) s with
    | None => (r, s, Some Pending)
    | Some (Got [], s) => (r, s, Some (Ready (Ok None)))
    | Some (Got bs, s) => (mkReader (fr_header r ++ bs) (fr_need r) (fr_body r), s, None)
    | Some (GotEnd, s) => (r, s, Some (Ready (Ok None)))
    | Some (GotError, s) => (r, s, Some (Ready (Err ReadFailed)))
    end
  else
    match fr_need r with
    | None =>
        let n := be_value (fr_header r) in
        if n >? MAX_FRAME_LEN then (r, s, Some (Ready (Err FrameTooLong)))
        else (mkReader (fr_header r) (Some n) [], s, None)
    | Some n =>
        if len (fr_body r) <? n then
          match read (n - len (fr_body r)) s with
          | None => (r, s, Some Pending)
          | Some (Got [], s) => (r, s, Some (Ready (Err EarlyEof)))
          | Some (Got bs, s) => (mkReader (fr_header r) (fr_need r) (fr_body r ++ bs), s, None)
          | Some (GotEnd, s) => (r, s, Some (Ready (Err EarlyEof)))
          | Some (GotError, s) => (r, s, Some (Ready (Err ReadFailed)))
          end
        else (reader_new, s, Some (Ready (Ok (Some (fr_body r)))))
    end.

Fixpoint next_loop (fuel : nat) (r : FrameReader) (s : list Arrival)
    : FrameReader * list Arrival * Polled (result FrameError (option bytes)) :=
  match fuel with
  | O => (r, s, Pending)
  | S fuel =>
      match next_step r s with
      | (r, s, Some answer) => (r, s, answer)
      | (r, s, None) => next_loop fuel r s
      end
  end.

(** A pass takes a byte or an arrival from the stream, or begins the body. *)
Fixpoint arrivals_size (s : list Arrival) : nat :=
  match s with [] => 0 | Data bs :: s => 1 + length bs + arrivals_size s | _ :: s => 1 + arrivals_size s end.
Definition next (r : FrameReader) (s : list Arrival) := next_loop (arrivals_size s + 3) r s.

(** [read_frame]: a reader of its own for one frame, lost if the future is
    dropped. *)
Definition read_frame (s : list Arrival) := next reader_new s.

(** What happens to a reader: bytes arrive, or [next] is polled.  The frames it
    answered with, and what ended it. *)
Inductive Input := Arrive (s : list Arrival) | Poll.

Fixpoint drive (r : FrameReader) (s : list Arrival) (inputs : list Input)
    : FrameReader * list Arrival * list bytes * option (result FrameError unit) :=
  match inputs with
  | [] => (r, s, [], None)
  | Arrive more :: inputs => drive r (s ++ more) inputs
  | Poll :: inputs =>
      match next r s with
      | (r, s, Pending) => drive r s inputs
      | (r, s, Ready (Ok (Some frame))) =>
          let '(r, s, frames, ended) := drive r s inputs in (r, s, frame :: frames, ended)
      | (r, s, Ready (Ok None)) => (r, s, [], Some (Ok tt))
      | (r, s, Ready (Err e)) => (r, s, [], Some (Err e))
      end
  end.

(** ** What the reader holds *)
Definition stream_bytes (s : list Arrival) : bytes := mjoin ((fun a => match a with Data bs => bs | _ => [] end) <$> s).
Definition data_only (s : list Arrival) : Prop := Forall (fun a => match a with Data [] => False | Data _ => True | _ => False end) s.
Definition held (r : FrameReader) : bytes := fr_header r ++ fr_body r.

Definition reader_wf (r : FrameReader) : Prop :=
  match fr_need r with
  | None => len (fr_header r) <= 4 /\ fr_body r = []
  | Some n => len (fr_header r) = 4 /\ n = be_value (fr_header r) /\ n <= MAX_FRAME_LEN /\ len (fr_body r) <= n
  end.

(** No frame ends here, and the prefix, when it is all here, is in range. *)
Definition incomplete (bs : bytes) : Prop :=
  len bs < 4 \/ be_value (take 4 bs) <= MAX_FRAME_LEN /\ len bs < 4 + be_value (take 4 bs).

Lemma stream_bytes_app s1 s2 : stream_bytes (s1 ++ s2) = stream_bytes s1 ++ stream_bytes s2.
Proof. unfold stream_bytes. by rewrite fmap_app, join_app. Qed.

Lemma stream_bytes_cons bs s : stream_bytes (Data bs :: s) = bs ++ stream_bytes s.
Proof. done. Qed.

(** A read of a stream of data takes from its front and leaves such a stream. *)
Lemma read_data room s : data_only s -> 0 < room ->
  match read room s with
  | None => s = []
  | Some (Got bs, s') => bs <> [] /\ len bs <= room /\ stream_bytes s = bs ++ stream_bytes s' /\ data_only s' /\
      (arrivals_size s' < arrivals_size s)%nat
  | Some _ => False
  end.
Proof.
  intros Hs Hr. destruct Hs as [|[[|b bs]| |] s Ha Hs]; try done. cbn [read]. destruct (Z.leb_spec (len (b :: bs)) room) as [Hl|Hl].
  - split_and!; try done. cbn [arrivals_size]. lia.
  - rewrite !stream_bytes_cons. assert (exists n, Z.to_nat room = S n) as [n En] by (exists (pred (Z.to_nat room)); lia).
    split_and!.
    + by rewrite En.
    + rewrite len_take; lia.
    + by rewrite app_assoc, take_drop.
    + constructor; [|done]. destruct (drop (Z.to_nat room) (b :: bs)) eqn:Ed; [|done].
      apply (f_equal len) in Ed. rewrite len_drop, len_nil in Ed; lia.
    + cbn [arrivals_size]. rewrite length_drop, En. cbn [length]. lia.
Qed.

Ltac step_read Hs :=
  match goal with
  | |- context [read ?n ?s] =>
      let H := fresh "Hread" in assert (0 < n) as H by (unfold len in *; lia);
      apply (read_data n s Hs) in H; destruct (read n s) as [[[[|? ?]| |] ?]|];
      [by destruct H|destruct H as (_ & Hlen & Hsb & Hdo & Hlt)|done|done|subst s]
  end.

(** One pass keeps the reader well formed and loses no byte. *)
Lemma next_step_spec r s : data_only s -> reader_wf r ->
  match next_step r s with
  | (r', s', None) => reader_wf r' /\ data_only s' /\ held r' ++ stream_bytes s' = held r ++ stream_bytes s /\
      ((arrivals_size s' < arrivals_size s)%nat /\ fr_need r' = fr_need r \/ s' = s /\ fr_need r = None /\ exists n, fr_need r' = Some n)
  | (r', s', Some Pending) => r' = r /\ s = [] /\ s' = [] /\ incomplete (held r)
  | (r', s', Some (Ready (Ok (Some f)))) =>
      r' = reader_new /\ s' = s /\ len f <= MAX_FRAME_LEN /\ write_frame f = Some (held r)
  | (r', s', Some (Ready (Err FrameTooLong))) =>
      r' = r /\ s' = s /\ fr_body r = [] /\ len (fr_header r) = 4 /\ MAX_FRAME_LEN < be_value (fr_header r)
  | (_, _, Some (Ready _)) => False
  end.
Proof.
  intros Hs Hw. unfold next_step, reader_wf, held in *. destruct (Z.ltb_spec (len (fr_header r)) 4) as [Hh|Hh].
  - destruct (fr_need r) as [n|] eqn:En; [lia|]. destruct Hw as [_ Hb]. step_read Hs.
    + cbn [fr_need fr_header fr_body]. rewrite Hb, !app_nil_r. split_and!; [len_lia|done|done| |by left].
      rewrite Hsb. by rewrite app_assoc.
    + split_and!; try done. left. rewrite Hb, app_nil_r. lia.
  - destruct (fr_need r) as [n|] eqn:En.
    + destruct Hw as (H4 & -> & Hm & Hb). destruct (Z.ltb_spec (len (fr_body r)) (be_value (fr_header r))) as [Hl|Hl].
      * step_read Hs.
        -- cbn [fr_need fr_header fr_body]. split_and!; try done; [len_lia| |by left]. rewrite Hsb. by rewrite !app_assoc.
        -- split_and!; try done. right. rewrite take_app_length' by (unfold len in H4; lia). split; [lia|]. rewrite len_app. lia.
      * split_and!; try done; [lia|]. unfold write_frame. assert (len (fr_body r) = be_value (fr_header r)) as -> by lia.
        rewrite u32_try_from_wf by (unfold MAX_FRAME_LEN, u32_max in *; lia). cbn.
        rewrite be_bytes_be_value; [done|]. unfold len in H4. lia.
    + destruct Hw as [H4 Hb]. assert (len (fr_header r) = 4) as H4' by lia. destruct (Z.gtb_spec (be_value (fr_header r)) MAX_FRAME_LEN) as [Hg|Hg].
      * by split_and!.
      * cbn [fr_need fr_header fr_body]. rewrite Hb. split_and!; try done; [rewrite len_nil; apply be_value_range|]. right. by eauto.
Qed.

(** What a reader has left to do besides reading. *)
Definition passes_left (r : FrameReader) : nat := match fr_need r with Some _ => 1 | None => 2 end.

(** A poll: the fuel is enough, so [Pending] is the stream's doing. *)
Lemma next_loop_spec fuel : forall r s,
  data_only s -> reader_wf r -> (arrivals_size s + passes_left r <= fuel)%nat ->
  match next_loop fuel r s with
  | (r', s', Pending) => s' = [] /\ reader_wf r' /\ held r' = held r ++ stream_bytes s /\ incomplete (held r')
  | (r', s', Ready (Ok (Some f))) =>
      r' = reader_new /\ data_only s' /\ len f <= MAX_FRAME_LEN /\
      exists x, write_frame f = Some x /\ held r ++ stream_bytes s = x ++ stream_bytes s'
  | (r', s', Ready (Err FrameTooLong)) =>
      fr_body r' = [] /\ len (fr_header r') = 4 /\ MAX_FRAME_LEN < be_value (fr_header r') /\
      held r ++ stream_bytes s = fr_header r' ++ stream_bytes s'
  | (_, _, Ready _) => False
  end.
Proof.
  induction fuel as [|fuel IH]; intros r s Hs Hw Hf; unfold passes_left in *; [destruct (fr_need r); lia|]. cbn [next_loop].
  pose proof (next_step_spec r s Hs Hw) as H. destruct (next_step r s) as [[r1 s1] [[|[[f|]|[]]]|]]; try done.
  - destruct H as (-> & -> & -> & Hi). change (stream_bytes []) with (@nil byte). rewrite app_nil_r. done.
  - destruct H as (-> & -> & Hl & Hx). split_and!; try done. by eexists.
  - destruct H as (-> & -> & Hb & H4 & Hm). split_and!; try done. unfold held. by rewrite Hb, app_nil_r.
  - destruct H as (Hw1 & Hs1 & Hh & Hm). rewrite <- Hh. apply IH; [done..|]. unfold passes_left.
    destruct Hm as [[Hm ->]|(-> & Hn & n & ->)]; [destruct (fr_need r); lia|]. rewrite Hn in Hf. lia.
Qed.

Lemma next_spec r s : data_only s -> reader_wf r ->
  match next r s with
  | (r', s', Pending) => s' = [] /\ reader_wf r' /\ held r' = held r ++ stream_bytes s /\ incomplete (held r')
  | (r', s', Ready (Ok (Some f))) =>
      r' = reader_new /\ data_only s' /\ len f <= MAX_FRAME_LEN /\
      exists x, write_frame f = Some x /\ held r ++ stream_bytes s = x ++ stream_bytes s'
  | (r', s', Ready (Err FrameTooLong)) =>
      fr_body r' = [] /\ len (fr_header r') = 4 /\ MAX_FRAME_LEN < be_value (fr_header r') /\
      held r ++ stream_bytes s = fr_header r' ++ stream_bytes s'
  | (_, _, Ready _) => False
  end.
Proof. intros Hs Hw. apply next_loop_spec; [done..|]. unfold passes_left. destruct (fr_need r); lia. Qed.

(** ** Runs of a reader *)
Definition frame_of (m : bytes) : bytes := be32 (len m) ++ m.

Lemma write_frame_eq m : len m <= MAX_FRAME_LEN -> write_frame m = Some (frame_of m).
Proof. intros H. unfold write_frame. rewrite u32_try_from_wf by (unfold MAX_FRAME_LEN, u32_max in *; lia). done. Qed.

Lemma frame_prefix m bs : len m <= MAX_FRAME_LEN -> take 4 (frame_of m ++ bs) = be32 (len m) /\ be_value (be32 (len m)) = len m.
Proof.
  intros H. split.
  - unfold frame_of. rewrite <- app_assoc. by rewrite take_app_length' by (by rewrite length_be_bytes).
  - apply be_value_be_bytes. unfold MAX_FRAME_LEN in H. len_facts. lia.
Qed.

Lemma frame_complete m bs : len m <= MAX_FRAME_LEN -> ~ incomplete (frame_of m ++ bs).
Proof.
  intros H Hi. destruct (frame_prefix m bs H) as [Hp Hv]. unfold incomplete in Hi. rewrite Hp, Hv in Hi.
  assert (len (frame_of m ++ bs) = 4 + len m + len bs) as Hl by (unfold frame_of; rewrite !len_app, len_be_bytes; lia).
  rewrite Hl in Hi. len_facts. lia.
Qed.

Lemma frame_inj f m bs bs' : len f <= MAX_FRAME_LEN -> len m <= MAX_FRAME_LEN ->
  frame_of f ++ bs = frame_of m ++ bs' -> f = m /\ bs = bs'.
Proof.
  intros Hf Hm H. destruct (frame_prefix f bs Hf) as [F1 F2], (frame_prefix m bs' Hm) as [M1 M2].
  assert (len f = len m) as Hl by (rewrite <- F2, <- M2; f_equal; by rewrite <- F1, <- M1, H).
  unfold frame_of in H. rewrite <- !app_assoc, Hl in H. apply app_inv_head in H.
  apply app_inj_1 in H as [-> ->]; [done|]. unfold len in Hl. lia.
Qed.

Lemma prefix_app (a b : bytes) : len a = 4 -> take 4 (a ++ b) = a.
Proof. intros H. apply take_app_length'. unfold len in H. lia. Qed.

Definition input_bytes (inputs : list Input) : bytes :=
  mjoin ((fun i => match i with Arrive s => stream_bytes s | Poll => [] end) <$> inputs).
Definition inputs_data (inputs : list Input) : Prop := Forall (fun i => match i with Arrive s => data_only s | Poll => True end) inputs.

(** What may follow the frames: nothing, or a prefix out of range. *)
Definition oversized (h : bytes) : Prop := h = [] \/ 4 <= len h /\ MAX_FRAME_LEN < be_value (take 4 h).

Lemma reader_new_wf : reader_wf reader_new.
Proof. split; [by apply Z.leb_le|done]. Qed.

Lemma drive_spec inputs : forall r s ms h rest,
  data_only s -> reader_wf r -> inputs_data inputs -> Forall (fun m => len m <= MAX_FRAME_LEN) ms -> oversized h ->
  held r ++ stream_bytes s ++ input_bytes inputs ++ rest = mjoin (frame_of <$> ms) ++ h ->
  match drive r s inputs with
  | (r', s', got, ended) =>
      exists late, ms = got ++ late /\
      (ended = None /\ data_only s' /\ reader_wf r' /\ held r' ++ stream_bytes s' ++ rest = mjoin (frame_of <$> late) ++ h \/
       ended = Some (Err FrameTooLong) /\ late = [] /\ held r' = take 4 h /\ len (held r') = 4)
  end.
Proof.
  induction inputs as [|i inputs IH]; intros r s ms h rest Hs Hw Hin Hms Hh Heq; cbn [drive].
  { exists ms. split; [done|]. by left. }
  apply Forall_cons in Hin as [Hi Hin]. destruct i as [more|].
  { apply IH; try done; [by apply Forall_app|]. rewrite stream_bytes_app, <- Heq.
    change (input_bytes (Arrive more :: inputs)) with (stream_bytes more ++ input_bytes inputs). by rewrite <- !app_assoc. }
  pose proof (next_spec r s Hs Hw) as H. destruct (next r s) as [[r1 s1] [|[[f|]|[]]]]; try done.
  - destruct H as (-> & Hw1 & Hh1 & _). apply IH; try done; [by constructor|]. rewrite Hh1, <- Heq. by rewrite <- app_assoc.
  - destruct H as (-> & Hs1 & Hf & x & Hx & Hsp). rewrite write_frame_eq in Hx by done. injection Hx as <-.
    rewrite app_assoc, Hsp, <- app_assoc in Heq. destruct Hms as [|m ms Hm Hms].
    + exfalso. destruct Hh as [->|[_ Hh]].
      * unfold frame_of in Heq. pose proof (length_be_bytes 4 (len f)). by destruct (be32 (len f)).
      * change (frame_of f ++ stream_bytes s1 ++ input_bytes (Poll :: inputs) ++ rest = h) in Heq. rewrite <- Heq in Hh.
        destruct (frame_prefix f (stream_bytes s1 ++ input_bytes (Poll :: inputs) ++ rest) Hf) as [Hp Hv]. rewrite Hp, Hv in Hh. lia.
    + rewrite fmap_cons in Heq. change (mjoin (frame_of m :: (frame_of <$> ms))) with (frame_of m ++ mjoin (frame_of <$> ms)) in Heq.
      rewrite <- app_assoc in Heq. apply frame_inj in Heq as [-> Heq]; [|done..].
      specialize (IH reader_new s1 ms h rest Hs1 reader_new_wf Hin Hms Hh Heq).
      destruct (drive reader_new s1 inputs) as [[[r2 s2] got] ended]. destruct IH as (late & -> & IH). by exists late.
  - destruct H as (Hb & H4 & Hm & Hsp). rewrite app_assoc, Hsp, <- app_assoc in Heq. apply (f_equal (take 4)) in Heq.
    rewrite (prefix_app _ _ H4) in Heq. exists []. destruct Hms as [|m ms Hm' Hms].
    + split; [done|]. right. unfold held. rewrite Hb, app_nil_r. split_and!; done.
    + exfalso. rewrite fmap_cons in Heq. change (mjoin (frame_of m :: (frame_of <$> ms))) with (frame_of m ++ mjoin (frame_of <$> ms)) in Heq.
      rewrite <- app_assoc in Heq. destruct (frame_prefix m (mjoin (frame_of <$> ms) ++ h) Hm') as [Hp Hv]. rewrite Hp in Heq.
      rewrite Heq, Hv in Hm. lia.
Qed.

(** Enough polls after the last byte leave nothing behind. *)
Lemma drive_polls n : forall r s ms, data_only s -> reader_wf r -> Forall (fun m => len m <= MAX_FRAME_LEN) ms ->
  (length ms <= n)%nat -> held r ++ stream_bytes s = mjoin (frame_of <$> ms) ->
  exists r' s', drive r s (replicate n Poll) = (r', s', ms, None).
Proof.
  induction n as [|n IH]; intros r s ms Hs Hw Hms Hn Heq; [destruct ms; [by eexists _, _|cbn in Hn; lia]|].
  cbn [replicate drive]. pose proof (next_spec r s Hs Hw) as H. destruct Hms as [|m ms Hm Hms].
  - change (mjoin (frame_of <$> [])) with (@nil byte) in Heq. rewrite Heq in H.
    destruct (next r s) as [[r1 s1] [|[[f|]|[]]]]; try done.
    + destruct H as (-> & Hw1 & Hh & _). apply IH; [by constructor|done|by constructor|cbn; lia|by rewrite Hh, app_nil_r].
    + destruct H as (_ & _ & Hf & x & Hx & Hsp). rewrite write_frame_eq in Hx by done. injection Hx as <-.
      apply (f_equal length) in Hsp. unfold frame_of in Hsp. rewrite !length_app, length_be_bytes in Hsp. cbn in Hsp. lia.
    + destruct H as (_ & H4 & _ & Hsp). symmetry in Hsp. apply app_nil in Hsp as [Hsp _]. by rewrite Hsp in H4.
  - assert (held r ++ stream_bytes s = frame_of m ++ mjoin (frame_of <$> ms)) as Heq' by done.
    destruct (frame_prefix m (mjoin (frame_of <$> ms)) Hm) as [Hp Hv].
    destruct (next r s) as [[r1 s1] [|[[f|]|[]]]]; try done.
    + exfalso. destruct H as (-> & _ & Hh & Hi). rewrite Hh, Heq' in Hi. by apply frame_complete in Hi.
    + destruct H as (-> & Hs1 & Hf & x & Hx & Hsp). rewrite write_frame_eq in Hx by done. injection Hx as <-.
      rewrite Heq' in Hsp. apply frame_inj in Hsp as [<- Hsp]; [|done..].
      destruct (IH reader_new s1 ms Hs1 reader_new_wf Hms) as (r2 & s2 & Hd); [cbn in Hn; lia|by rewrite Hsp|].
      rewrite Hd. by eexists _, _.
    + exfalso. destruct H as (_ & H4 & Hv' & Hsp). rewrite Heq' in Hsp. apply (f_equal (take 4)) in Hsp.
      rewrite (prefix_app _ _ H4) in Hsp. rewrite Hp in Hsp. rewrite <- Hsp, Hv in Hv'. lia.
Qed.

Lemma drive_app r s inputs more : forall r' s' got,
  drive r s inputs = (r', s', got, None) ->
  drive r s (inputs ++ more) = (let '(r2, s2, got2, ended) := drive r' s' more in (r2, s2, got ++ got2, ended)).
Proof.
  revert r s. induction inputs as [|[a|] inputs IH]; intros r s r' s' got H; cbn [drive app] in *.
  - injection H as <- <- <-. by destruct (drive r s more) as [[[]]].
  - by apply IH.
  - destruct (next r s) as [[r1 s1] [|[[f|]|e]]]; try done.
    + by apply IH.
    + destruct (drive r1 s1 inputs) as [[[r2 s2] got2] ended] eqn:Ed. injection H as -> -> <- ->.
      rewrite (IH _ _ _ _ _ Ed). by destruct (drive r' s' more) as [[[]]].
Qed.

(** C18. Frames survive cancellation.  Messages of at most [MAX_FRAME_LEN]
    bytes are written one after another, perhaps followed by a prefix that is
    out of range; their bytes reach a reader cut anywhere, and its [next] is
    polled at any moments and dropped whenever it was pending.  The frames it
    answered with are exactly the first of the messages, in order, and the bytes
    it holds, the bytes not yet read and the bytes not yet here are the rest; it
    never ends of its own accord, unless it reached the prefix that is out of
    range, which it refused having read its four bytes and nothing more.  Once
    every byte is here, one poll for each message answers with all of them. *)
Theorem frames_survive_cancellation ms h inputs rest :
  Forall (fun m => len m <= MAX_FRAME_LEN) ms -> oversized h -> inputs_data inputs ->
  input_bytes inputs ++ rest = mjoin (omap write_frame ms) ++ h ->
  match drive reader_new [] inputs with
  | (r, s, got, ended) =>
      (exists late, ms = got ++ late /\
        (ended = None /\ held r ++ stream_bytes s ++ rest = mjoin (omap write_frame late) ++ h \/
         ended = Some (Err FrameTooLong) /\ late = [] /\ held r = take 4 h)) /\
      (rest ++ h = [] -> exists r' s', drive reader_new [] (inputs ++ replicate (length ms) Poll) = (r', s', ms, None))
  end.
Proof.
  intros Hms Hh Hin Heq.
  assert (forall l, Forall (fun m => len m <= MAX_FRAME_LEN) l -> omap write_frame l = frame_of <$> l) as Ho.
  { induction 1 as [|m l Hm _ IH]; [done|]. cbn. rewrite write_frame_eq by done. by rewrite IH. }
  rewrite Ho in Heq by done.
  pose proof (drive_spec inputs reader_new [] ms h rest ltac:(by constructor) reader_new_wf Hin Hms Hh Heq) as H.
  destruct (drive reader_new [] inputs) as [[[r s] got] ended] eqn:Ed. destruct H as (late & -> & H).
  assert (Forall (fun m => len m <= MAX_FRAME_LEN) late) as Hl by (by apply Forall_app in Hms as [_ ?]).
  split.
  - exists late. split; [done|]. rewrite (Ho late Hl). destruct H as [(-> & _ & _ & H)|(-> & -> & H & _)]; [by left|by right].
  - intros [-> ->]%app_nil. destruct H as [(-> & Hs & Hw & H)|(-> & -> & H & H4)]; [|by rewrite H in H4].
    rewrite !app_nil_r in H. rewrite (drive_app _ _ _ _ _ _ _ Ed).
    destruct (drive_polls (length (got ++ late)) r s late Hs Hw Hl) as (r1 & s1 & Hd); [rewrite length_app; lia|done|].
    rewrite Hd. by eexists _, _.
Qed.

(** A frame cut in three, polled and dropped in between, then a second one. *)
Definition cut_inputs : list Input :=
  [Arrive [Data [x00; x00]]; Poll; Arrive [Data [x00; x02; x61]]; Poll; Arrive [Data [x62; x00; x00; x00]; Data [x01; x63]]; Poll].

Lemma frames_survive_cancellation_witness :
  match drive reader_new [] cut_inputs with
  | (r, s, got, ended) =>
      (exists late, [[x61; x62]; [x63]] = got ++ late /\
        (ended = None /\ held r ++ stream_bytes s ++ [] = mjoin (omap write_frame late) ++ [] \/
         ended = Some (Err FrameTooLong) /\ late = [] /\ held r = take 4 [])) /\
      (@nil byte ++ [] = [] -> exists r' s', drive reader_new [] (cut_inputs ++ replicate 2 Poll) = (r', s', [[x61; x62]; [x63]], None))
  end.
Proof.
  apply (frames_survive_cancellation [[x61; x62]; [x63]] [] cut_inputs []).
  - repeat constructor; unfold MAX_FRAME_LEN, len; cbn; lia.
  - by left.
  - repeat constructor.
  - by vm_compute.
Defined.
