(* ===== verification/Connection.v ===== *)
(** * Connection: one request at a time, paired with its response by order
    ([tacenta-transport/src/lib.rs])

    A client's relay connection: a reader task that sorts the server's frames
    into responses and pushes, and [request], a future that may be dropped at
    any await.  A step is what happens next: a frame is read, the caller calls,
    the future is polled, its write is answered, or it is dropped. *)

From S2P Require Import Prelude Framing Transport.

Definition MAX_QUEUED_RESPONSES : Z := 2.

(** [cn_ended]: the reader task is over, and with it the sender of the queue.
    [cn_signal] counts the pings of the mail signal. *)
Record Connection := mkConn {
  cn_queue : list bytes; cn_ended : bool; cn_overflowed : bool; cn_outstanding : Z; cn_torn : bool;
  cn_pushes : Z; cn_signal : Z
}.

Definition conn_new : Connection := mkConn [] false false 0 false 0 0.

(** [UnmatchedResponses], the missing response, [BrokenPipe] and a failed
    write. *)
Inductive RequestError := UnmatchedResponses | MissingResponse | TornConnection | WriteFailed.

(** ** The reader task *)
Definition reader_ends (c : Connection) : Connection :=
  mkConn (cn_queue c) true (cn_overflowed c) (cn_outstanding c) (cn_torn c) (cn_pushes c) (cn_signal c + 1).

(** One pass of the loop: [None] is the end of the stream or a failed read. *)
Definition reader_frame (c : Connection) (frame : option bytes) : Connection :=
  if cn_ended c then c else
  match frame with
  | Some (tag :: body) =>
      if bool_decide (tag = TAG_RESPONSE) then
        if len (cn_queue c) <? MAX_QUEUED_RESPONSES then
          mkConn (cn_queue c ++ [body]) (cn_ended c) (cn_overflowed c) (cn_outstanding c) (cn_torn c) (cn_pushes c) (cn_signal c)
        else
          reader_ends (mkConn (cn_queue c) (cn_ended c) true (cn_outstanding c) (cn_torn c) (cn_pushes c) (cn_signal c))
      else if bool_decide (tag = TAG_PUSH) then
        mkConn (cn_queue c) (cn_ended c) (cn_overflowed c) (cn_outstanding c) (cn_torn c) (cn_pushes c + 1) (cn_signal c + 1)
      else reader_ends c
  | _ => reader_ends c
  end.

(** ** [request] *)
Definition with_torn (c : Connection) (torn : bool) : Connection :=
  mkConn (cn_queue c) (cn_ended c) (cn_overflowed c) (cn_outstanding c) torn (cn_pushes c) (cn_signal c).
Definition with_outstanding (c : Connection) (n : Z) : Connection :=
  mkConn (cn_queue c) (cn_ended c) (cn_overflowed c) n (cn_torn c) (cn_pushes c) (cn_signal c).

(** [take_response]: [None] while nothing is queued and more may come. *)
Definition take_response (c : Connection) : Connection * option (result RequestError bytes) :=
  match cn_queue c with
  | response :: queue =>
      let c := mkConn queue (cn_ended c) (cn_overflowed c) (cn_outstanding c) (cn_torn c) (cn_pushes c) (cn_signal c) in
      (c, Some (if cn_overflowed c then Err UnmatchedResponses else Ok response))
  | [] =>
      if cn_ended c then (c, Some (Err (if cn_overflowed c then UnmatchedResponses else MissingResponse))) else (c, None)
  end.

(** Where the future is: not running, taking the responses of abandoned
    requests, writing its frame, or awaiting its response. *)
Inductive Phase := Idle | Draining (request : bytes) | Writing (request : bytes) | Waiting (request : bytes).

Inductive Answer := Done (r : result RequestError bytes) | Still.

(** The checks before the first await. *)
Definition request (c : Connection) (req : bytes) : Connection * Phase * Answer :=
  if cn_torn c then (c, Idle, Done (Err TornConnection)) else
  if cn_overflowed c then (c, Idle, Done (Err UnmatchedResponses)) else (c, Draining req, Still).

(** One await of the future.  Past the loop the connection is torn until its
    write is answered. *)
Definition poll (c : Connection) (phase : Phase) : Connection * Phase * Answer :=
  match phase with
  | Draining req =>
      if 0 <? cn_outstanding c then
        match take_response c with
        | (c, None) => (c, phase, Still)
        | (c, Some (Ok _)) => (with_outstanding c (cn_outstanding c - 1), phase, Still)
        | (c, Some (Err e)) => (c, Idle, Done (Err e))
        end
      else (with_torn c true, Writing req, Still)
  | Waiting _ =>
      match take_response c with
      | (c, None) => (c, phase, Still)
      | (c, Some (Ok response)) => (with_outstanding c (cn_outstanding c - 1), Idle, Done (Ok response))
      | (c, Some (Err e)) => (c, Idle, Done (Err e))
      end
  | _ => (c, phase, Still)
  end.

(** What [write_frame] answered. *)
Definition written (c : Connection) (phase : Phase) (sent : bool) : Connection * Phase * Answer :=
  match phase with
  | Writing req =>
      if sent then let c := with_torn c false in (with_outstanding c (cn_outstanding c + 1), Waiting req, Still)
      else (c, Idle, Done (Err WriteFailed))
  | _ => (c, phase, Still)
  end.

(** ** A connection and its peer *)
Inductive ConnStep := SFrame (frame : option bytes) | SCall (req : bytes) | SPoll | SWritten (sent : bool) | SDrop.

Definition conn_step (st : Connection * Phase) (s : ConnStep) : Connection * Phase * Answer :=
  let '(c, phase) := st in
  match s with
  | SFrame frame => (reader_frame c frame, phase, Still)
  | SCall req => match phase with Idle => request c req | _ => (c, phase, Still) end
  | SPoll => poll c phase
  | SWritten sent => written c phase sent
  | SDrop => (c, Idle, Still)
  end.

(** A relay that answers each request it reads once, in order: [answer i req]
    for the [i]-th.  [rl_requests] reached it whole; a write that failed or was
    dropped may have. *)
Section Relay.
Context (answer : nat -> bytes -> bytes).

Record World := mkWorld { wo_conn : Connection; wo_phase : Phase; rl_requests : list bytes; rl_answered : nat }.

Definition world_new : World := mkWorld conn_new Idle [] 0.

Inductive world_step : World -> Answer -> World -> Prop :=
| ws_answer c ph reqs n req : reqs !! n = Some req ->
    world_step (mkWorld c ph reqs n) Still (mkWorld (reader_frame c (Some (TAG_RESPONSE :: answer n req))) ph reqs (S n))
| ws_push c ph reqs n :
    world_step (mkWorld c ph reqs n) Still (mkWorld (reader_frame c (Some [TAG_PUSH])) ph reqs n)
| ws_hangs_up c ph reqs n :
    world_step (mkWorld c ph reqs n) Still (mkWorld (reader_frame c None) ph reqs n)
| ws_call c ph reqs n req c' ph' a : conn_step (c, ph) (SCall req) = (c', ph', a) ->
    world_step (mkWorld c ph reqs n) a (mkWorld c' ph' reqs n)
| ws_poll c ph reqs n c' ph' a : conn_step (c, ph) SPoll = (c', ph', a) ->
    world_step (mkWorld c ph reqs n) a (mkWorld c' ph' reqs n)
| ws_written c req reqs n c' ph' a : conn_step (c, Writing req) (SWritten true) = (c', ph', a) ->
    world_step (mkWorld c (Writing req) reqs n) a (mkWorld c' ph' (reqs ++ [req]) n)
| ws_write_fails c req reqs n (whole : bool) c' ph' a : conn_step (c, Writing req) (SWritten false) = (c', ph', a) ->
    world_step (mkWorld c (Writing req) reqs n) a (mkWorld c' ph' (if whole then reqs ++ [req] else reqs) n)
| ws_drop c ph reqs n (whole : bool) c' ph' a : conn_step (c, ph) SDrop = (c', ph', a) ->
    world_step (mkWorld c ph reqs n) a
      (mkWorld c' ph' (match ph with Writing req => if whole then reqs ++ [req] else reqs | _ => reqs end) n).

Inductive world_run : World -> World -> Prop :=
| run_refl w : world_run w w
| run_step w1 w2 a w3 : world_run w1 w2 -> world_step w2 a w3 -> world_run w1 w3.
End Relay.

(** ** Lemmas *)
Section Pairing.
Context (answer : nat -> bytes -> bytes).

(** The answers to the requests from the [taken]-th to the [arrived]-th. *)
Definition answers (reqs : list bytes) (taken arrived : nat) : list bytes :=
  imap (fun k req => answer (taken + k) req) (drop taken (take arrived reqs)).

#[local] Arguments answers : simpl never.

(** What the queue holds and how far apart the two sides are. *)
Record paired (w : World) (taken arrived : nat) : Prop := {
  pd_order : (taken <= arrived <= rl_answered w)%nat;
  pd_bound : (rl_answered w <= length (rl_requests w))%nat;
  pd_open : cn_ended (wo_conn w) = false -> arrived = rl_answered w;
  pd_queue : cn_queue (wo_conn w) = answers (rl_requests w) taken arrived;
  pd_calm : cn_overflowed (wo_conn w) = false;
  pd_count : cn_torn (wo_conn w) = false -> cn_outstanding (wo_conn w) = Z.of_nat (length (rl_requests w)) - Z.of_nat taken;
  pd_gap : (length (rl_requests w) <= taken + 1)%nat;
  pd_phase : match wo_phase w with
             | Idle => True
             | Draining _ => cn_torn (wo_conn w) = false
             | Writing _ => cn_torn (wo_conn w) = true /\ cn_outstanding (wo_conn w) = 0 /\ length (rl_requests w) = taken
             | Waiting req => cn_torn (wo_conn w) = false /\ last (rl_requests w) = Some req /\ length (rl_requests w) = S taken
             end
}.

Lemma answers_nil reqs n : answers reqs n n = [].
Proof. unfold answers. rewrite drop_ge; [done|]. rewrite length_take. lia. Qed.

Lemma length_answers reqs t a : (a <= length reqs)%nat -> length (answers reqs t a) = (a - t)%nat.
Proof. intros H. unfold answers. rewrite length_imap, length_drop, length_take. lia. Qed.

Lemma answers_snoc reqs more t a : (a <= length reqs)%nat -> answers (reqs ++ more) t a = answers reqs t a.
Proof. intros H. unfold answers. by rewrite take_app_le. Qed.

Lemma answers_one reqs t req : reqs !! t = Some req -> answers reqs t (S t) = [answer t req].
Proof.
  intros H. unfold answers. rewrite (take_S_r _ _ _ H), drop_app_length'; [by cbn; rewrite Nat.add_0_r|].
  rewrite length_take. apply lookup_lt_Some in H. lia.
Qed.

Lemma reader_frame_paired w t a frame n :
  paired w t a ->
  match frame with
  | Some (tag :: body) => if bool_decide (tag = TAG_RESPONSE)
      then exists req, rl_requests w !! rl_answered w = Some req /\ body = answer (rl_answered w) req /\ n = S (rl_answered w)
      else n = rl_answered w
  | _ => n = rl_answered w
  end ->
  exists a', paired (mkWorld (reader_frame (wo_conn w) frame) (wo_phase w) (rl_requests w) n) t a'.
Proof.
  intros [H1 H2 H3 H4 H5 H6 H7 H8] Hf.
  assert (rl_answered w <= n <= length (rl_requests w))%nat as Hn.
  { destruct frame as [[|tag body]|]; try lia. case_bool_decide; [|lia]. destruct Hf as (req & Hr & _ & ->).
    apply lookup_lt_Some in Hr. lia. }
  unfold reader_frame. destruct (cn_ended (wo_conn w)) eqn:Ee.
  { exists a. split; cbn [wo_conn wo_phase rl_requests rl_answered]; try done; try (by rewrite Ee); lia. }
  specialize (H3 eq_refl). subst a. destruct frame as [[|tag body]|].
  - subst n. exists (rl_answered w). by split.
  - case_bool_decide as Hr.
    + destruct Hf as (req & Hreq & -> & ->). pose proof (lookup_lt_Some _ _ _ Hreq) as Hlt.
      assert (rl_answered w = t) as Ht by lia. rewrite Ht, answers_nil in H4. rewrite H4. cbn [len length app].
      change (len [] <? MAX_QUEUED_RESPONSES) with true. exists (S (rl_answered w)). split; cbn; try done; try lia.
      rewrite Ht. symmetry. apply answers_one. by rewrite <- Ht.
    + subst n. exists (rl_answered w). case_bool_decide; by split.
  - subst n. exists (rl_answered w). by split.
Qed.

(** Taking a response: the next answer, if it is here. *)
Lemma take_response_paired w t a : paired w t a ->
  match take_response (wo_conn w) with
  | (c, None) => c = wo_conn w
  | (c, Some (Ok response)) => exists req, rl_requests w !! t = Some req /\ response = answer t req /\ a = S t /\
      c = mkConn [] (cn_ended (wo_conn w)) false (cn_outstanding (wo_conn w)) (cn_torn (wo_conn w)) (cn_pushes (wo_conn w)) (cn_signal (wo_conn w))
  | (c, Some (Err e)) => c = wo_conn w /\ a = t
  end.
Proof.
  intros [H1 H2 H3 H4 H5 H6 H7 H8]. unfold take_response. destruct (decide (a = t)) as [->|Hne].
  - rewrite answers_nil in H4. rewrite H4. by destruct (cn_ended (wo_conn w)).
  - assert (a = S t) as -> by lia. destruct (lookup_lt_is_Some_2 (rl_requests w) t) as [req Hr]; [lia|].
    rewrite H4, (answers_one _ _ _ Hr), H5. cbn. by exists req.
Qed.

Lemma world_step_paired w x w' t a : paired w t a -> world_step answer w x w' ->
  exists t' a', paired w' t' a' /\
    forall response, x = Done (Ok response) ->
      exists req, wo_phase w = Waiting req /\ last (rl_requests w) = Some req /\ response = answer (pred (length (rl_requests w))) req.
Proof.
  intros Hp Hs. pose proof (take_response_paired w t a Hp) as Ht. pose proof Hp as [H1 H2 H3 H4 H5 H6 H7 H8].
  destruct Hs as [c ph reqs n req Hr|c ph reqs n|c ph reqs n|c ph reqs n req c' ph' x Hc|c ph reqs n c' ph' x Hc|c req reqs n c' ph' x Hc
    |c req reqs n whole c' ph' x Hc|c ph reqs n whole c' ph' x Hc]; cbn [wo_conn wo_phase rl_requests rl_answered] in *.
  - destruct (reader_frame_paired _ t a (Some (TAG_RESPONSE :: answer n req)) (S n) Hp) as [a' Ha]; [cbn; by exists req|]. by exists t, a'.
  - destruct (reader_frame_paired _ t a (Some [TAG_PUSH]) n Hp eq_refl) as [a' Ha]. by exists t, a'.
  - destruct (reader_frame_paired _ t a None n Hp eq_refl) as [a' Ha]. by exists t, a'.
  - exists t, a. cbn [conn_step] in Hc. destruct ph; try (injection Hc as <- <- <-; by split).
    unfold request in Hc. destruct (cn_torn c) eqn:Et; [injection Hc as <- <- <-; by split|]. rewrite H5 in Hc.
    injection Hc as <- <- <-. split; [|done]. split; cbn; try done. by rewrite Et.
  - cbn [conn_step] in Hc. unfold poll in Hc. destruct ph as [|req|req|req]; try (injection Hc as <- <- <-; exists t, a; by split).
    + destruct (Z.ltb_spec 0 (cn_outstanding c)) as [Ho|Ho].
      * destruct (take_response c) as [c1 [[response|e]|]]; injection Hc as <- <- <-.
        -- destruct Ht as (req' & Hr & -> & -> & ->). exists (S t), (S t). split; [|done].
           apply lookup_lt_Some in Hr. specialize (H6 H8). split; cbn; try done; try lia; by rewrite answers_nil.
        -- destruct Ht as [-> _]. exists t, a. split; [|done]. by split.
        -- subst c1. exists t, a. by split.
      * injection Hc as <- <- <-. specialize (H6 H8). exists t, a. split; [|done]. split; cbn; try done. lia.
    + destruct H8 as (Hn & Hl & Hlen). destruct (take_response c) as [c1 [[response|e]|]]; injection Hc as <- <- <-.
      * destruct Ht as (req' & Hr & -> & -> & ->). exists (S t), (S t). specialize (H6 Hn). split.
        -- split; cbn; try done; try lia; by rewrite answers_nil.
        -- intros response [= <-]. exists req. split_and!; try done. rewrite Hlen. cbn. f_equal.
           rewrite last_lookup, Hlen in Hl. cbn in Hl. congruence.
      * destruct Ht as [-> _]. exists t, a. split; [|done]. by split.
      * subst c1. exists t, a. by split.
  - destruct H8 as (Hn & Ho & Hlen). cbn in Hc. injection Hc as <- <- <-. exists t, a. split; [|done].
    split; cbn; rewrite ?length_app; cbn; try done; try lia.
    + rewrite H4. symmetry. apply answers_snoc. lia.
    + rewrite last_snoc. split_and!; [done|done|lia].
  - destruct H8 as (Hn & Ho & Hlen). cbn in Hc. injection Hc as <- <- <-. exists t, a. split; [|done].
    destruct whole; split; cbn; rewrite ?length_app; cbn; try done; try lia; [|by rewrite Hn..].
    rewrite H4. symmetry. apply answers_snoc. lia.
  - cbn in Hc. injection Hc as <- <- <-. exists t, a. split; [|done]. destruct ph as [|req|req|req]; try by split.
    destruct H8 as (Hn & Ho & Hlen). destruct whole; split; cbn; rewrite ?length_app; cbn; try done; try lia; [|by rewrite Hn..].
    rewrite H4. symmetry. apply answers_snoc. lia.
Qed.

Lemma world_run_paired w : world_run answer world_new w -> exists t a, paired w t a.
Proof.
  intros H. remember world_new as w0 eqn:E. induction H as [w|w1 w2 x w3 Hr IH Hs]; subst.
  - exists 0%nat, 0%nat. split; cbn; try done; lia.
  - destruct (IH eq_refl) as (t & a & Hp). destruct (world_step_paired _ _ _ _ _ Hp Hs) as (t' & a' & H & _). by exists t', a'.
Qed.
End Pairing.

(** Any peer: the steps of a connection, whatever frames arrive. *)
Fixpoint conn_run (st : Connection * Phase) (steps : list ConnStep) : Connection * Phase * list Answer :=
  match steps with
  | [] => (st, [])
  | s :: steps =>
      let '(c, phase, a) := conn_step st s in
      let '(st, answers) := conn_run (c, phase) steps in (st, a :: answers)
  end.

Definition queue_bounded (st : Connection * Phase) : Prop := len (cn_queue st.1) <= MAX_QUEUED_RESPONSES.

Lemma conn_step_bounded st s : queue_bounded st -> queue_bounded (conn_step st s).1.
Proof.
  unfold queue_bounded. destruct st as [c phase]. cbn [fst].
  assert (forall c', (take_response c).1 = c' -> len (cn_queue c') <= len (cn_queue c)) as Ht.
  { intros c' <-. unfold take_response. destruct (cn_queue c) as [|x q] eqn:Eq; [destruct (cn_ended c); cbn; by rewrite Eq|].
    cbn. rewrite len_cons. lia. }
  intros H. destruct s as [frame|req| |sent|]; cbn [conn_step].
  - unfold reader_frame. destruct (cn_ended c); [done|]. destruct frame as [[|tag body]|]; try done. repeat case_bool_decide; try done.
    destruct (Z.ltb_spec (len (cn_queue c)) MAX_QUEUED_RESPONSES); [|done]. cbn. len_lia.
  - destruct phase; try done. unfold request. destruct (cn_torn c); [done|]. by destruct (cn_overflowed c).
  - unfold poll. destruct phase; try done.
    + destruct (0 <? _); [|done]. specialize (Ht _ eq_refl). destruct (take_response c) as [c1 [[]|]]; cbn in *; lia.
    + specialize (Ht _ eq_refl). destruct (take_response c) as [c1 [[]|]]; cbn in *; lia.
  - unfold written. destruct phase; try done. by destruct sent.
  - done.
Qed.

(** Once a response found the queue full, or a request was dropped or failed
    while it was being written, no call of the connection succeeds again. *)
Definition spent (st : Connection * Phase) : Prop :=
  cn_overflowed st.1 = true \/ cn_torn st.1 = true /\ st.2 = Idle.

Lemma conn_step_spent st s : spent st ->
  spent (conn_step st s).1 /\ (forall response, (conn_step st s).2 <> Done (Ok response)) /\
  (forall req, s = SCall req -> st.2 = Idle -> exists e, (conn_step st s).2 = Done (Err e)).
Proof.
  unfold spent. destruct st as [c phase]. cbn [fst snd]. intros H.
  assert (match take_response c with
          | (c', Some (Ok _)) => cn_overflowed c = false
          | (c', _) => True
          end /\ cn_overflowed (take_response c).1 = cn_overflowed c /\ cn_torn (take_response c).1 = cn_torn c) as (Ht & Hto & Htt).
  { unfold take_response. destruct (cn_queue c); [by destruct (cn_ended c)|]. cbn. by destruct (cn_overflowed c). }
  destruct s as [frame|req| |sent|]; cbn [conn_step].
  - split_and!; [|done|done]. unfold reader_frame. destruct (cn_ended c); [done|].
    destruct frame as [[|tag body]|]; try done. repeat case_bool_decide; try done. destruct (_ <? _); [done|]. by left.
  - destruct phase; try (by split_and!). unfold request. destruct (cn_torn c) eqn:Et; [split_and!; cbn; try done; [by auto|by eauto]|].
    destruct H as [H|[? _]]; [|done]. rewrite H. split_and!; cbn; try done; [by left|by eauto].
  - split_and!; [| |done]; unfold poll; destruct phase as [|req|req|req]; try done.
    + destruct (0 <? _); [|cbn; destruct H as [H|[_ ?]]; [by left|done]].
      destruct (take_response c) as [c1 [[]|]]; cbn in *; rewrite Hto; destruct H as [H|[_ ?]]; try done; by left.
    + destruct (take_response c) as [c1 [[]|]]; cbn in *; rewrite Hto; destruct H as [H|[_ ?]]; try done; by left.
    + destruct (0 <? _); [|done]. by destruct (take_response c) as [c1 [[]|]].
    + intros response. destruct H as [H|[_ ?]]; [|done]. rewrite H in Ht. by destruct (take_response c) as [c1 [[]|]].
  - split_and!; [| |done]; unfold written; destruct phase; try done; destruct sent; try done.
    + destruct H as [H|[_ ?]]; [by left|done].
    + destruct H as [H|[_ ?]]; [by left|done].
  - split_and!; [|done|done]. cbn. destruct H as [H|[H _]]; [by left|by right].
Qed.

(** C9. A response is the response to the request it is returned for.  Against
    a relay that answers each request it reads once, in order, and pushes and
    hangs up as it likes, whichever calls are made and wherever a future is
    dropped: at most one response is queued and the connection never overflows,
    and a call that returns [Ok] returns the answer to its own request, the last
    one written.  Against any peer, whatever frames it sends, at most
    [MAX_QUEUED_RESPONSES] responses are held; and once a response found the
    queue full, or a future was dropped or failed while writing its frame, every
    later call fails and nothing more is written. *)
Theorem responses_are_paired answer w peer steps :
  world_run answer world_new w ->
  (len (cn_queue (wo_conn w)) <= 1 /\ cn_overflowed (wo_conn w) = false /\
   forall w' response, world_step answer w (Done (Ok response)) w' ->
     exists req, wo_phase w = Waiting req /\ last (rl_requests w) = Some req /\
       response = answer (pred (length (rl_requests w))) req) /\
  queue_bounded (conn_run (conn_new, Idle) peer).1 /\
  (spent (conn_run (conn_new, Idle) peer).1 ->
   let '(st, answers) := conn_run (conn_run (conn_new, Idle) peer).1 steps in
   spent st /\ Forall (fun a => forall response, a <> Done (Ok response)) answers /\
   forall req, st.2 = Idle -> exists e, (conn_step st (SCall req)).2 = Done (Err e)).
Proof.
  intros Hw. split; [|split].
  - destruct (world_run_paired answer w Hw) as (t & a & Hp). pose proof Hp as [H1 H2 H3 H4 H5 H6 H7 H8]. split_and!; [|done|].
    + rewrite H4. unfold len. rewrite length_answers; lia.
    + intros w' response Hs. destruct (world_step_paired answer w _ w' t a Hp Hs) as (_ & _ & _ & H). exact (H response eq_refl).
  - assert (forall st, queue_bounded st -> queue_bounded (conn_run st peer).1) as H.
    { induction peer as [|s peer IH]; intros st Hst; [done|]. cbn [conn_run]. apply (conn_step_bounded _ s) in Hst.
      destruct (conn_step st s) as [[c ph] x]. cbn [fst] in Hst. specialize (IH (c, ph) Hst).
      by destruct (conn_run (c, ph) peer). }
    by apply H.
  - generalize (conn_run (conn_new, Idle) peer).1 as st. clear. induction steps as [|s steps IH]; intros st Hst; cbn [conn_run].
    + split_and!; [done|by constructor|]. intros req Hi. exact (proj2 (proj2 (conn_step_spent st (SCall req) Hst)) req eq_refl Hi).
    + destruct (conn_step_spent st s Hst) as (H1 & H2 & _). destruct (conn_step st s) as [[c ph] x]. cbn [fst snd] in *.
      specialize (IH (c, ph) H1). destruct (conn_run (c, ph) steps) as [st' xs]. destruct IH as (I1 & I2 & I3).
      split_and!; [done|by constructor|done].
Qed.

(** A request dropped while it waits, then a second one. *)
Definition echo (_ : nat) (req : bytes) : bytes := req.
Definition abandoned : Connection * Phase := (conn_run (conn_new, Idle) [SCall [x01]; SPoll; SWritten true; SDrop; SCall [x02]]).1.
Definition flooded : list ConnStep := replicate 3 (SFrame (Some [TAG_RESPONSE; x07])).

Lemma abandoned_run : world_run echo world_new (mkWorld abandoned.1 abandoned.2 [[x01]] 0).
Proof.
  eapply run_step; [|apply ws_call with (req := [x02]) (c := (conn_run (conn_new, Idle) [SCall [x01]; SPoll; SWritten true; SDrop]).1.1)
    (ph := Idle) (a := Still); vm_compute; reflexivity].
  eapply run_step; [|apply (ws_drop echo (conn_run (conn_new, Idle) [SCall [x01]; SPoll; SWritten true]).1.1 (Waiting [x01]) [[x01]] 0 false
    _ _ Still); vm_compute; reflexivity].
  eapply run_step; [|apply (ws_written echo (conn_run (conn_new, Idle) [SCall [x01]; SPoll]).1.1 [x01] [] 0 _ _ Still); vm_compute; reflexivity].
  eapply run_step; [|apply (ws_poll echo (conn_run (conn_new, Idle) [SCall [x01]]).1.1 (Draining [x01]) [] 0 _ _ Still); vm_compute; reflexivity].
  eapply run_step; [apply run_refl|]. apply (ws_call echo conn_new Idle [] 0 [x01] _ _ Still). vm_compute. reflexivity.
Qed.

Lemma responses_are_paired_witness :
  (len (cn_queue abandoned.1) <= 1 /\ cn_overflowed abandoned.1 = false /\
   forall w' response, world_step echo (mkWorld abandoned.1 abandoned.2 [[x01]] 0) (Done (Ok response)) w' ->
     exists req, abandoned.2 = Waiting req /\ last [[x01]] = Some req /\ response = echo 0 req) /\
  queue_bounded (conn_run (conn_new, Idle) flooded).1 /\
  (let '(st, answers) := conn_run (conn_run (conn_new, Idle) flooded).1 [SCall [x05]; SPoll] in
   spent st /\ Forall (fun a => forall response, a <> Done (Ok response)) answers /\
   forall req, st.2 = Idle -> exists e, (conn_step st (SCall req)).2 = Done (Err e)).
Proof.
  destruct (responses_are_paired echo (mkWorld abandoned.1 abandoned.2 [[x01]] 0) flooded [SCall [x05]; SPoll] abandoned_run) as (H1 & H2 & H3).
  split; [exact H1|]. split; [exact H2|]. apply H3. left. reflexivity.
Defined.
