(* ===== verification/Provisioning.v ===== *)
(** * Provisioning: the messages that bind a device to an account's handle
    ([tacenta-transport/src/provisioning.rs])

    The request and outcome codecs over the fields of [Framing], and the
    request a client builds over its connection's challenge. *)

From S2P Require Import Prelude Framing AccountsCodec.

Record ProvisionRequest := mkProvision {
  pr_session_token : bytes; pr_device : Z; pr_identity : bytes; pr_bundle : bytes; pr_possession_sig : bytes
}.

Inductive ProvisionOutcome := Provisioned (h : bytes) | BadSession | ProvisionPossessionFailed | ProvisionRejected | ProvisionServerError.

Definition encode_provision_request (r : ProvisionRequest) : option bytes :=
  t ← put_str (pr_session_token r); i ← put_bytes (pr_identity r); b ← put_bytes (pr_bundle r); s ← put_bytes (pr_possession_sig r);
  Some (t ++ put_u32 (pr_device r) ++ i ++ b ++ s).

Definition decode_provision_request (bs : bytes) : option ProvisionRequest :=
  '(token, rest) ← take_str bs;
  '(device, rest) ← take_u32 rest;
  '(id, rest) ← take_bytes rest;
  '(bundle, rest) ← take_bytes rest;
  '(sig, rest) ← take_bytes rest;
  then_some rest (mkProvision token device id bundle sig).

Definition encode_provision_outcome (o : ProvisionOutcome) : option bytes :=
  match o with
  | Provisioned h => x ← put_str h; Some (x01 :: x)
  | BadSession => Some [x02]
  | ProvisionPossessionFailed => Some [x03]
  | ProvisionRejected => Some [x04]
  | ProvisionServerError => Some [x05]
  end.

Definition decode_provision_outcome (bs : bytes) : option ProvisionOutcome :=
  match bs with
  | [] => None
  | tag :: rest =>
      match tag with
      | x01 => '(h, rest) ← take_str rest; then_some rest (Provisioned h)
      | x02 => then_some rest BadSession
      | x03 => then_some rest ProvisionPossessionFailed
      | x04 => then_some rest ProvisionRejected
      | x05 => then_some rest ProvisionServerError
      | _ => None
      end
  end.

(** [ProvisionConnection::provision]. *)
Definition provision_request (challenge token : bytes) (device : Z) (id bundle : bytes) (sign : bytes -> bytes) : ProvisionRequest :=
  mkProvision token device id bundle (sign challenge).

(** ** The codecs are exact *)
Definition provision_request_wf (r : ProvisionRequest) : Prop := utf8_valid (pr_session_token r) = true /\ u32_wf (pr_device r).
Definition provision_outcome_wf (o : ProvisionOutcome) : Prop := match o with Provisioned h => utf8_valid h = true | _ => True end.

Lemma provision_request_exact bs r :
  decode_provision_request bs = Some r <-> provision_request_wf r /\ encode_provision_request r = Some bs.
Proof.
  split.
  - unfold decode_provision_request. intros H. inv_bind. str_inv. end_inv.
    split; [done|]. unfold encode_provision_request. cbn [pr_session_token pr_device pr_identity pr_bundle pr_possession_sig].
    put_fwd. by rewrite app_nil_r.
  - intros [[Hs Hd] H]. destruct r. unfold encode_provision_request in H. cbn in *. inv_bind. unfold decode_provision_request.
    rewrite <- (app_nil_r (_ : bytes)). str_fwd. frames_fwd. done.
Qed.

Lemma provision_outcome_exact bs o :
  decode_provision_outcome bs = Some o <-> provision_outcome_wf o /\ encode_provision_outcome o = Some bs.
Proof.
  split.
  - destruct bs as [|tag rest]; [done|]. cbn [decode_provision_outcome]. intros H.
    tag_cases H tag; inv_bind; str_inv; end_inv; (split; [done|]); cbn [encode_provision_outcome]; put_fwd; rewrite ?app_nil_r; done.
  - intros [Hw H]. destruct o; cbn [encode_provision_outcome provision_outcome_wf] in *; inv_bind; cbn [decode_provision_outcome]; try done.
    rewrite <- (app_nil_r l). by str_fwd.
Qed.
