(* ===== verification/Server.v ===== *)
(** * Server: the services of one node over one directory
    ([tacenta-server/src/lib.rs], [tacenta-transport/src/lib.rs],
    [tacenta-transport/src/accounts.rs], [tacenta-accounts/src/store.rs])

    The relay's connections, the account service, the provisioner that joins
    accounts and directory, and the node that runs them over shared state.  A
    step is one request, handled under the locks it takes; [None] is a panic.
    The account store is the in-memory one. *)

From S2P Require Import Prelude Framing Wire Delivery Relay RelayProtocol Directory DirectoryProtocol RateLimit Inventory Accounts AccountsState AccountsSessions AccountsCodec DirServer Transport Provisioning.

(** ** Relay connections *)
(** What the relay asks of the directory ([IdentityAuth]). *)
Section IdentityAuth.
Context `{Possession}.

Definition identity_verify (dir : Directory) (d : DeviceAddr) (challenge signature : bytes) : bool :=
  match dir_identity dir d with Some key => verify key challenge signature | None => false end.
Definition is_registered (dir : Directory) (d : DeviceAddr) : bool := bool_decide (is_Some (dir_identity dir d)).
Definition knows_recipient := is_registered.
End IdentityAuth.

(** [rs_tasks]: the connections being served, the device each authenticated as
    and the pushes its channel holds.  [rs_connected] names the channel to wake
    for a device. *)
Record RelayServer := mkRelayServer {
  rs_relay : Relay; rs_connected : gmap DeviceAddr nat; rs_tasks : gmap nat (DeviceAddr * Z)
}.

Definition relay_server (r : Relay) : RelayServer := mkRelayServer r ∅ ∅.

(** The handshake of [serve_connection]: the reply, and the device it
    authenticated. *)
Definition handshake (verify_device : DeviceAddr -> bytes -> bytes -> bool) (challenge : bytes) (frame : bytes)
    : bytes * option DeviceAddr :=
  match decode_auth frame with
  | None => ([x00], None)
  | Some (d, signature) => if verify_device d challenge signature then ([x01], Some d) else ([x00], None)
  end.

(** Registering the push channel of an authenticated connection. *)
Definition open_connection (s : RelayServer) (d : DeviceAddr) : RelayServer :=
  let c := fresh (dom (rs_tasks s) ∪ map_img (rs_connected s) : gset nat) in
  mkRelayServer (rs_relay s) (<[d := c]> (rs_connected s)) (<[c := (d, 0)]> (rs_tasks s)).

(** The end of a connection: its registration goes, unless another replaced
    it. *)
Definition close_connection (s : RelayServer) (c : nat) : RelayServer :=
  match rs_tasks s !! c with
  | None => s
  | Some (d, _) =>
      mkRelayServer (rs_relay s)
        (if bool_decide (rs_connected s !! d = Some c) then delete d (rs_connected s) else rs_connected s)
        (delete c (rs_tasks s))
  end.

Definition notify (s : RelayServer) (d : DeviceAddr) : RelayServer :=
  match rs_connected s !! d with
  | None => s
  | Some c =>
      match rs_tasks s !! c with
      | Some (d', pushes) => mkRelayServer (rs_relay s) (rs_connected s) (<[c := (d', pushes + 1)]> (rs_tasks s))
      | None => s
      end
  end.

(** One request frame of [serve_authenticated]; [written]: whether the response
    reached the stream, which is checked before anyone is woken. *)
Definition serve_relay_frame (knows : DeviceAddr -> bool) (s : RelayServer) (c : nat) (frame : bytes) (written : bool)
    : option (RelayServer * Served) :=
  '(d, _) ← rs_tasks s !! c;
  match decode_request frame with
  | None => Some (s, SClosed)
  | Some req =>
      let recipient := match req with Send to _ => Some to | _ => None end in
      let unknown := match recipient with Some to => negb (knows to) | None => false end in
      '(s, response) ← (if unknown then out ← encode_response UnknownRecipient; Some (s, out)
                        else '(r, resp) ← RelayProtocol.handle (rs_relay s) d req;
                             out ← encode_response resp;
                             Some (mkRelayServer r (rs_connected s) (rs_tasks s), out));
      match write_tagged TAG_RESPONSE response with
      | Some out =>
          if written then
            Some (match recipient with Some to => if unknown then s else notify s to | None => s end, SReply out)
          else Some (s, SClosed)
      | None => Some (s, SClosed)
      end
  end.

(** The other branch of the loop: a push is written. *)
Definition deliver_push (s : RelayServer) (c : nat) : RelayServer * option bytes :=
  match rs_tasks s !! c with
  | Some (d, pushes) =>
      if 0 <? pushes
      then (mkRelayServer (rs_relay s) (rs_connected s) (<[c := (d, pushes - 1)]> (rs_tasks s)), write_tagged TAG_PUSH [])
      else (s, None)
  | None => (s, None)
  end.

(** ** The account service *)
Inductive StoreError := StSignup (e : SignupError) | StAuth (e : AuthError) | StBackend.

(** [map_err] into a store error. *)
Definition store_err {A Er} (f : Er -> StoreError) (r : result Er A) : result StoreError A :=
  match r with Ok x => Ok x | Err e => Err (f e) end.

(** What one request draws. *)
Record AccountRandom := mkAccountRandom { ar_signup : SignupRandom; ar_salt : bytes; ar_token : bytes }.

Section Accounts.
Context {env : Environment}.

(** The in-memory arms of the store. *)
Definition store_sign_up_tenant (a : Accounts) (now : Z) (rnd : SignupRandom) (username email password : bytes) :=
  let '(a, r) := sign_up_tenant a now rnd username email password in (a, store_err StSignup r).
Definition store_sign_up_user (a : Accounts) (salt tenant username password : bytes) :=
  let '(a, r) := sign_up_user a salt tenant username password in (a, store_err StSignup r).
Definition store_sign_in (a : Accounts) (now : Z) (random tenant identifier password : bytes) :=
  let '(a, r) := sign_in_at a now random tenant identifier password in (a, store_err StAuth r).
Definition store_tenant_by_api_key (a : Accounts) (api_key : bytes) : result StoreError (option bytes) := Ok (tenant_by_api_key a api_key).
Definition store_validate_session (a : Accounts) (now : Z) (token : bytes) : result StoreError (option (bytes * bytes)) :=
  Ok (validate_session_at a now token).
Definition store_handle (a : Accounts) (tenant username : bytes) : result StoreError (option bytes) := Ok (Accounts.handle a tenant username).

Definition refuse_signup (e : SignupError) : AccountResponse :=
  match signup_reason e with Some reason => SignupRefused reason | None => ReUnknownTenant end.

(** [AccountServer::handle]. *)
Definition account_handle (a : Accounts) (now : Z) (rnd : AccountRandom) (request : AccountRequest) : Accounts * AccountResponse :=
  match request with
  | SignUpTenant username email password =>
      let '(a, r) := store_sign_up_tenant a now (ar_signup rnd) username email password in
      (a, match r with
          | Ok (id, _, _, api_key) => TenantCreated id api_key
          | Err (StSignup e) => refuse_signup e
          | Err _ => ServerError
          end)
  | SignUpUser api_key username password =>
      match store_tenant_by_api_key a api_key with
      | Ok (Some tenant) =>
          let '(a, r) := store_sign_up_user a (ar_salt rnd) tenant username password in
          (a, match r with
              | Ok (_, username) => UserCreated username
              | Err (StSignup e) => refuse_signup e
              | Err _ => ServerError
              end)
      | Ok None => (a, ReUnknownTenant)
      | Err _ => (a, ServerError)
      end
  | SignIn api_key identifier password =>
      match store_tenant_by_api_key a api_key with
      | Ok (Some tenant) =>
          let '(a, r) := store_sign_in a now (ar_token rnd) tenant identifier password in
          (a, match r with
              | Ok (_, username, token) => SignedIn username token
              | Err (StAuth RateLimited) => ReRateLimited
              | Err (StAuth _) => SignInRefused
              | Err _ => ServerError
              end)
      | Ok None => (a, ReUnknownTenant)
      | Err _ => (a, ServerError)
      end
  end.

Definition serve_account_frame (a : Accounts) (now : Z) (rnd : AccountRandom) (frame : bytes) : Accounts * Served :=
  match decode_account_request frame with
  | None => (a, SClosed)
  | Some request =>
      let '(a, response) := account_handle a now rnd request in
      (a, match encode_account_response response with Some out => SReply out | None => SPanic end)
  end.
End Accounts.

(** ** Provisioning *)
Section Provision.
Context {env : Environment} `{Possession}.

Definition provision (a : Accounts) (dir : Directory) (now : Z) (request : ProvisionRequest) (challenge : bytes)
    : Directory * ProvisionOutcome :=
  match store_validate_session a now (pr_session_token request) with
  | Ok (Some (tenant, username)) =>
      match store_handle a tenant username with
      | Ok (Some h) =>
          if negb (verify (pr_identity request) challenge (pr_possession_sig request)) then (dir, ProvisionPossessionFailed) else
          let '(dir, outcome) := dir_register dir (mkAddr h (pr_device request)) (pr_identity request) (pr_bundle request) in
          (dir, match outcome with Registered | Refreshed => Provisioned h | RegRejected => ProvisionRejected end)
      | Ok None => (dir, BadSession)
      | Err _ => (dir, ProvisionServerError)
      end
  | Ok None => (dir, BadSession)
  | Err _ => (dir, ProvisionServerError)
  end.

Definition serve_provision_frame (a : Accounts) (dir : Directory) (now : Z) (challenge frame : bytes) : Directory * Served :=
  match decode_provision_request frame with
  | None => (dir, SClosed)
  | Some request =>
      let '(dir, outcome) := provision a dir now request challenge in
      (dir, match encode_provision_outcome outcome with Some out => SReply out | None => SPanic end)
  end.
End Provision.

(** ** The node *)
Section Node.
Context {env : Environment} {E : Type} {core : InventoryCore E} `{Possession}.

Record Node := mkNode { nd_directory : DirServer; nd_relay : RelayServer; nd_accounts : Accounts }.

Definition nd_dir (n : Node) : Directory := ds_directory (nd_directory n).

(** What reaches the node: a directory request, a provisioning request, an
    account request, a call of the store by its operator (the gateway's key
    management, a sweep, a sign-out), and a relay connection's handshake, request,
    push and end. *)
Inductive NodeOp :=
| NDirectory (w : WireRequest)
| NProvision (challenge : bytes) (now : Z) (r : ProvisionRequest)
| NAccount (now : Z) (rnd : AccountRandom) (r : AccountRequest)
| NStore (op : AccountOp)
| NConnect (challenge frame : bytes)
| NRelay (c : nat) (frame : bytes) (written : bool)
| NPush (c : nat)
| NClose (c : nat).

Definition node_step (n : Node) (op : NodeOp) : option Node :=
  let '(mkNode ds rs a) := n in
  match op with
  | NDirectory w => Some (mkNode (serve_one ds w) rs a)
  | NProvision challenge now r =>
      Some (mkNode (with_directory ds (provision a (ds_directory ds) now r challenge).1) rs a)
  | NAccount now rnd r => Some (mkNode ds rs (account_handle a now rnd r).1)
  | NStore op => Some (mkNode ds rs (apply_op a op))
  | NConnect challenge frame =>
      match (handshake (identity_verify (ds_directory ds)) challenge frame).2 with
      | Some d => Some (mkNode ds (open_connection rs d) a)
      | None => Some n
      end
  | NRelay c frame written =>
      match rs_tasks rs !! c with
      | None => Some n
      | Some _ =>
          '(rs, served) ← serve_relay_frame (knows_recipient (ds_directory ds)) rs c frame written;
          Some (mkNode ds (match served with SReply _ => rs | _ => close_connection rs c end) a)
      end
  | NPush c => Some (mkNode ds (deliver_push rs c).1 a)
  | NClose c => Some (mkNode ds (close_connection rs c) a)
  end.

Fixpoint node_run (n : Node) (ops : list NodeOp) : option Node :=
  match ops with [] => Some n | op :: ops => n ← node_step n op; node_run n ops end.

Definition node_new (policy : RegistrationPolicy) (max_per_hour : Z) : Node :=
  mkNode (dir_server_gated directory_new max_per_hour policy) (relay_server relay_new) accounts_new.

(** The store calls a run makes. *)
Definition account_op (a : Accounts) (op : NodeOp) : option AccountOp :=
  match op with
  | NStore op => Some op
  | NAccount now rnd (SignUpTenant u e p) => Some (OSignUpTenant now (ar_signup rnd) u e p)
  | NAccount now rnd (SignUpUser k u p) => t ← tenant_by_api_key a k; Some (OSignUpUser (ar_salt rnd) t u p)
  | NAccount now rnd (SignIn k i p) => t ← tenant_by_api_key a k; Some (OSignIn now (ar_token rnd) t i p)
  | _ => None
  end.

Fixpoint account_trace (a : Accounts) (ops : list NodeOp) : list AccountOp :=
  match ops with
  | [] => []
  | op :: ops =>
      match account_op a op with
      | Some o => o :: account_trace (apply_op a o) ops
      | None => account_trace a ops
      end
  end.

(** ** Lemmas *)
Lemma account_handle_op a now rnd r :
  (account_handle a now rnd r).1 = match account_op a (NAccount now rnd r) with Some op => apply_op a op | None => a end.
Proof.
  destruct r as [u e p|k u p|k i p]; cbn [account_handle account_op].
  - unfold store_sign_up_tenant. cbn [apply_op]. by destruct (sign_up_tenant _ _ _ _ _ _).
  - unfold store_tenant_by_api_key. destruct (tenant_by_api_key a k) as [t|]; [|done]. unfold store_sign_up_user. cbn [apply_op mbind option_bind].
    by destruct (sign_up_user _ _ _ _ _).
  - unfold store_tenant_by_api_key. destruct (tenant_by_api_key a k) as [t|]; [|done]. unfold store_sign_in. cbn [apply_op mbind option_bind].
    by destruct (sign_in_at _ _ _ _ _ _).
Qed.

Lemma node_step_accounts n op n' : node_step n op = Some n' ->
  nd_accounts n' = match account_op (nd_accounts n) op with Some o => apply_op (nd_accounts n) o | None => nd_accounts n end.
Proof.
  destruct n as [ds rs a]. destruct op as [w|ch now r|now rnd r|o|ch frame|c frame written|c|c]; cbn [node_step nd_accounts]; intros Hs;
    try (injection Hs as <-; done).
  - injection Hs as <-. cbn [nd_accounts]. apply account_handle_op.
  - destruct (handshake _ _ _).2; by injection Hs as <-.
  - destruct (rs_tasks rs !! c); [|by injection Hs as <-]. inv_bind. done.
Qed.

Lemma node_run_accounts ops : forall n n', node_run n ops = Some n' ->
  nd_accounts n' = run_ops (nd_accounts n) (account_trace (nd_accounts n) ops).
Proof.
  induction ops as [|op ops IH]; intros n n' Hr; cbn [node_run account_trace] in *; [by injection Hr as <-|]. inv_bind.
  rewrite (IH _ _ Hr), (node_step_accounts _ _ _ E0). by destruct (account_op (nd_accounts n) op).
Qed.

Lemma node_run_app pre : forall n post n', node_run n (pre ++ post) = Some n' ->
  exists m, node_run n pre = Some m /\ node_run m post = Some n'.
Proof.
  induction pre as [|op pre IH]; intros n post n' Hr; cbn [node_run app] in *; [by exists n|]. inv_bind. by apply IH.
Qed.

Lemma account_trace_app pre : forall a post,
  account_trace a (pre ++ post) = account_trace a pre ++ account_trace (run_ops a (account_trace a pre)) post.
Proof.
  induction pre as [|op pre IH]; intros a post; cbn [account_trace app]; [done|]. destruct (account_op a op); [|apply IH].
  cbn [app]. f_equal. apply IH.
Qed.

Lemma node_run_snoc n ops op n' : node_run n (ops ++ [op]) = Some n' ->
  exists m, node_run n ops = Some m /\ node_step m op = Some n'.
Proof. intros (m & Hm & Hs)%node_run_app. exists m. split; [done|]. cbn in Hs. by inv_bind. Qed.

(** Requests never unbind, and what binds a reserved handle is a
    provisioning request. *)
Lemma serve_one_bound s w d : is_Some (entries (ds_directory s) !! d) -> is_Some (entries (ds_directory (serve_one s w)) !! d).
Proof.
  rewrite serve_one_directory. destruct (admitted s w) as [op|]; [|done]. intros Hb. apply step_entries_some. by left.
Qed.

Lemma provision_step a dir now r ch :
  (provision a dir now r ch).1 = dir \/
  exists t u h, validate_session_at a now (pr_session_token r) = Some (t, u) /\ Accounts.handle a t u = Some h /\
    verify (pr_identity r) ch (pr_possession_sig r) = true /\
    (provision a dir now r ch).1 = dir_step dir (OpRegister (mkAddr h (pr_device r)) (pr_identity r) (pr_bundle r)).
Proof.
  unfold provision, store_validate_session, store_handle. destruct (validate_session_at a now _) as [[t u]|] eqn:Ev; [|by left].
  destruct (Accounts.handle a t u) as [h|] eqn:Eh; [|by left]. destruct (verify _ ch _) eqn:Es; [|by left]. right. exists t, u, h.
  cbn [negb dir_step]. by destruct (dir_register _ _ _ _).
Qed.

Lemma node_step_dir n op n' : node_step n op = Some n' ->
  nd_dir n' =
  match op with
  | NDirectory w => ds_directory (serve_one (nd_directory n) w)
  | NProvision ch now r => (provision (nd_accounts n) (nd_dir n) now r ch).1
  | _ => nd_dir n
  end.
Proof.
  destruct n as [ds rs a]. unfold nd_dir.
  destruct op as [w|ch now r|now rnd r|o|ch frame|c frame written|c|c]; cbn [node_step nd_accounts nd_directory]; intros Hs;
    try (injection Hs as <-; done).
  - destruct (handshake _ _ _).2; by injection Hs as <-.
  - destruct (rs_tasks rs !! c); [|by injection Hs as <-]. by inv_bind.
Qed.

Lemma node_step_bound n op n' d : node_step n op = Some n' -> is_Some (entries (nd_dir n) !! d) -> is_Some (entries (nd_dir n') !! d).
Proof.
  intros Hs Hb. rewrite (node_step_dir _ _ _ Hs). destruct op as [w|ch now r|now rnd r|o|ch frame|c frame written|c|c]; try done.
  - by apply serve_one_bound.
  - destruct (provision_step (nd_accounts n) (nd_dir n) now r ch) as [->|(t & u & h & _ & _ & _ & ->)]; [done|].
    apply step_entries_some. by left.
Qed.

Lemma node_step_new n op n' d : node_step n op = Some n' -> is_reserved_handle (user d) = true ->
  entries (nd_dir n) !! d = None -> is_Some (entries (nd_dir n') !! d) ->
  exists ch now r t u, op = NProvision ch now r /\ validate_session_at (nd_accounts n) now (pr_session_token r) = Some (t, u) /\
    Accounts.handle (nd_accounts n) t u = Some (user d) /\ pr_device r = device d /\
    verify (pr_identity r) ch (pr_possession_sig r) = true /\ dir_identity (nd_dir n') d = Some (pr_identity r).
Proof.
  intros Hs Hr He. rewrite (node_step_dir _ _ _ Hs). intros Hb. destruct op as [w|ch now r|now rnd r|o|ch frame|c frame written|c|c];
    try (rewrite He in Hb; by destruct Hb).
  - exfalso. rewrite serve_one_directory in Hb. destruct (admitted (nd_directory n) w) as [op|] eqn:Ea; unfold nd_dir in He.
    2: { rewrite He in Hb. by destruct Hb. }
    apply step_entries_some in Hb as [Hb|(i & b & ->)]; [rewrite He in Hb; by destruct Hb|].
    pose proof (admitted_about _ _ _ Ea) as Ho. cbn [op_device] in Ho. unfold admitted in Ea.
    destruct (wr_request w) as [d' i' b' sig|d'|d' i' bs sig|d' i' b' p a|d' k sig|d' i' b' p a|d' g sig]; cbn [about] in Ho; subst d';
      try discriminate Ea; repeat case_match; simplify_eq.
    by rewrite Hr in *.
  - destruct (provision_step (nd_accounts n) (nd_dir n) now r ch) as [Heq|(t & u & h & Hv & Hh & Hg & Heq)]; rewrite Heq in Hb |- *.
    { rewrite He in Hb. by destruct Hb. }
    apply step_entries_some in Hb as [Hb|(i & b & [= <- <- <-])]; [rewrite He in Hb; by destruct Hb|].
    exists ch, now, r, t, u. split_and!; try done. rewrite step_identity. unfold dir_identity at 1. rewrite He. cbn.
    by rewrite bool_decide_eq_true_2.
Qed.

Lemma node_first_binding policy m ops n d : node_run (node_new policy m) ops = Some n -> is_reserved_handle (user d) = true ->
  is_Some (entries (nd_dir n) !! d) ->
  exists pre ch now r post before after t u, ops = pre ++ NProvision ch now r :: post /\
    node_run (node_new policy m) pre = Some before /\ node_step before (NProvision ch now r) = Some after /\
    entries (nd_dir before) !! d = None /\
    validate_session_at (nd_accounts before) now (pr_session_token r) = Some (t, u) /\
    Accounts.handle (nd_accounts before) t u = Some (user d) /\ pr_device r = device d /\
    verify (pr_identity r) ch (pr_possession_sig r) = true /\ dir_identity (nd_dir after) d = Some (pr_identity r).
Proof.
  revert n. induction ops as [|op ops IH] using rev_ind; intros n Hrun Hr Hb.
  - cbn in Hrun. injection Hrun as <-. cbn in Hb. rewrite lookup_empty in Hb. by destruct Hb.
  - apply node_run_snoc in Hrun as (k & Hk & Hs). destruct (entries (nd_dir k) !! d) as [e|] eqn:Ek.
    + destruct (IH k Hk Hr) as (pre & ch & now & r & post & before & after & t & u & -> & Hx); [by eexists|].
      exists pre, ch, now, r, (post ++ [op]), before, after, t, u. by rewrite <- app_assoc.
    + destruct (node_step_new _ _ _ _ Hs Hr Ek Hb) as (ch & now & r & t & u & -> & Hv & Hh & Hd & Hg & Hi).
      by exists ops, ch, now, r, [], k, n, t, u.
Qed.
End Node.

Section Earned.
Context {env : Environment} {laws : EnvironmentLaws} {E : Type} {core : InventoryCore E} {core_laws : InventoryCoreLaws E} `{Possession}.

(** A valid session goes back to a sign-in with correct credentials. *)
Lemma session_origin ops now token t u : ops_ok accounts_new ops -> NoDup (draws ops) ->
  validate_session_at (run_ops accounts_new ops) now token = Some (t, u) ->
  exists pre now0 random i p post, ops = pre ++ OSignIn now0 random t i p :: post /\ drawn random = sha256 token /\
    authenticate_user (run_ops accounts_new pre) t i p = Ok (t, u) /\ now < saturating_add64 now0 SESSION_TTL_SECS.
Proof.
  intros Hops Hnd Hv. unfold validate_session_at in Hv. destruct (sessions _ !! sha256 token) as [[[t' u'] x]|] eqn:Es; [|done].
  cbn in Hv. destruct (Z.ltb_spec now x) as [Hx|]; [|done]. injection Hv as -> ->.
  apply sessions_held in Es as (pre & op & post & -> & Hi & _); [|done].
  destruct op as [| | | |now0 random t0 i p| | | | |]; try done. destruct Hi as (Hd & -> & tok & Htok).
  destruct (ops_ok_app _ _ _ Hops) as [Hpre _].
  destruct (sign_in_Ok _ _ _ _ _ _ _ _ _ (run_preserves _ _ Hpre accounts_new_ok) Htok) as (-> & _ & Ha & _).
  by exists pre, now0, random, i, p, post.
Qed.
End Earned.

Section Names.
Context {env : Environment} {laws : EnvironmentLaws} {E : Type} {core : InventoryCore E} {core_laws : InventoryCoreLaws E} `{Possession}.

(** C2. An account's name is earned.  Run a fresh node over any sequence of
    directory, provisioning, account, store and relay operations, in any order,
    whose account calls are admissible and draw distinct random values.  If a
    handle of the account namespace is bound to a key at the end, then it was
    unbound until a provisioning request bound it: at that moment the request's
    session token was valid for a user whose handle it is, the key proved
    possession over that connection's challenge, and the token was issued by an
    earlier sign-in whose credentials the account store accepted for that very
    user and which had not expired. *)
Theorem account_names_are_earned policy m ops n d :
  ops_ok accounts_new (account_trace accounts_new ops) -> NoDup (draws (account_trace accounts_new ops)) ->
  node_run (node_new policy m) ops = Some n -> is_reserved_handle (user d) = true -> is_Some (dir_identity (nd_dir n) d) ->
  exists pre challenge now r post before after t u,
    ops = pre ++ NProvision challenge now r :: post /\ node_run (node_new policy m) pre = Some before /\
    node_step before (NProvision challenge now r) = Some after /\
    dir_identity (nd_dir before) d = None /\ dir_identity (nd_dir after) d = Some (pr_identity r) /\
    verify (pr_identity r) challenge (pr_possession_sig r) = true /\
    Accounts.handle (nd_accounts before) t u = Some (user d) /\ pr_device r = device d /\
    exists earlier now0 random i p later,
      account_trace accounts_new pre = earlier ++ OSignIn now0 random t i p :: later /\
      drawn random = sha256 (pr_session_token r) /\
      authenticate_user (run_ops accounts_new earlier) t i p = Ok (t, u) /\ now < saturating_add64 now0 SESSION_TTL_SECS.
Proof.
  intros Hops Hnd Hrun Hr [k Hk].
  destruct (node_first_binding policy m ops n d Hrun Hr)
    as (pre & ch & now & r & post & before & after & t & u & -> & Hpre & Hs & Hnone & Hv & Hh & Hdev & Hsig & Hid).
  { unfold dir_identity in Hk. destruct (entries (nd_dir n) !! d); [by eexists|done]. }
  exists pre, ch, now, r, post, before, after, t, u.
  assert (dir_identity (nd_dir before) d = None) as Hu by (unfold dir_identity; by rewrite Hnone).
  do 8 (split; [done|]). rewrite account_trace_app in Hops, Hnd. destruct (ops_ok_app _ _ _ Hops) as [Hops' _].
  rewrite draws_app in Hnd. apply NoDup_app in Hnd as (Hnd & _ & _).
  rewrite (node_run_accounts _ _ _ Hpre) in Hv. cbn [nd_accounts node_new] in Hv.
  destruct (session_origin _ _ _ _ _ Hops' Hnd Hv) as (e & now0 & rnd & i & p & l & Ht & Hx). by exists e, now0, rnd, i, p, l.
Qed.
End Names.

(** ** The relay's side *)
Section RelaySide.
Context {env : Environment} {E : Type} {core : InventoryCore E} `{Possession}.

Lemma enqueue_queues r to from e r' res d : relay_enqueue r to from e = Some (r', res) ->
  is_Some (queues r' !! d) -> is_Some (queues r !! d) \/ d = to.
Proof.
  unfold relay_enqueue. intros He Hd. repeat case_match; inv_bind; simplify_eq; try (by left); cbn [queues] in Hd;
    try (rewrite lookup_insert_is_Some in Hd; naive_solver);
    repeat case_match; inv_bind; simplify_eq; cbn [queues] in Hd; rewrite lookup_insert_is_Some in Hd; naive_solver.
Qed.

Lemma ack_queues r d0 n r' b d : relay_ack r d0 n = Some (r', b) -> is_Some (queues r' !! d) -> is_Some (queues r !! d).
Proof.
  unfold relay_ack. intros He Hd. destruct (queues r !! d0) as [q|] eqn:Eq; [|by simplify_eq]. inv_bind.
  case_match; inv_bind; simplify_eq; cbn [queues] in Hd; rewrite lookup_insert_is_Some in Hd; destruct Hd as [ <- | [_ Hd] ]; eauto.
Qed.

Lemma handle_queues r d0 req r' resp d : RelayProtocol.handle r d0 req = Some (r', resp) -> is_Some (queues r' !! d) ->
  is_Some (queues r !! d) \/ exists to e, req = Send to e /\ d = to.
Proof.
  destruct req as [to e|d1|d1 n|ds]; cbn [RelayProtocol.handle]; intros He Hd.
  - inv_bind. destruct (enqueue_queues _ _ _ _ _ _ _ E0 Hd) as [?| ->]; [by left|right; eauto].
  - case_match; inv_bind; simplify_eq; by left.
  - case_match; inv_bind; simplify_eq; [|by left]. left. by eapply ack_queues.
  - case_match; inv_bind; simplify_eq; by left.
Qed.

(** A request moves the mail of its own device, or adds to the recipient's. *)
Lemma handle_others r d0 req r' resp d : RelayProtocol.handle r d0 req = Some (r', resp) -> d <> d0 ->
  (forall e, req <> Send d e) -> queues r' !! d = queues r !! d.
Proof.
  destruct req as [to e|d1|d1 n|ds]; cbn [RelayProtocol.handle]; intros He Hd Hs.
  - inv_bind. assert (d <> to) by (intros ->; by eapply Hs). unfold relay_enqueue in E0.
    repeat case_match; inv_bind; simplify_eq; try done; repeat case_match; inv_bind; simplify_eq; cbn [queues]; by rewrite lookup_insert_ne.
  - case_match; inv_bind; by simplify_eq.
  - case_match; inv_bind; simplify_eq; [|done]. bool_prop. subst d1. unfold relay_ack in E0.
    destruct (queues r !! d0); [|by simplify_eq]. inv_bind. case_match; inv_bind; simplify_eq; cbn [queues]; by rewrite lookup_insert_ne.
  - case_match; inv_bind; by simplify_eq.
Qed.

(** What waking leaves alone, and what it does. *)
Lemma notify_relay s d : rs_relay (notify s d) = rs_relay s /\ rs_connected (notify s d) = rs_connected s /\
  fst <$> rs_tasks (notify s d) = fst <$> rs_tasks s.
Proof.
  unfold notify. destruct (rs_connected s !! d) as [c|]; [|done]. destruct (rs_tasks s !! c) as [[d' p]|] eqn:Et; [|done].
  split_and!; [done..|]. cbn [rs_tasks]. rewrite fmap_insert. cbn. apply insert_id. by rewrite lookup_fmap, Et.
Qed.

Lemma serve_relay_effect knows s c frame written s' served : serve_relay_frame knows s c frame written = Some (s', served) ->
  rs_connected s' = rs_connected s /\ fst <$> rs_tasks s' = fst <$> rs_tasks s /\
  (forall d, is_Some (queues (rs_relay s') !! d) -> is_Some (queues (rs_relay s) !! d) \/ knows d = true) /\
  (forall d0 p d, rs_tasks s !! c = Some (d0, p) -> d <> d0 -> (forall e, decode_request frame <> Some (Send d e)) ->
     queues (rs_relay s') !! d = queues (rs_relay s) !! d).
Proof.
  unfold serve_relay_frame. destruct (rs_tasks s !! c) as [[d0 p0]|]; [|done]. cbn [mbind option_bind].
  destruct (decode_request frame) as [req|]; [|intros [= <- <-]; split_and!; by eauto].
  set (recipient := match req with Send to _ => Some to | _ => None end).
  set (unknown := match recipient with Some to => negb (knows to) | None => false end). cbv zeta. intros Hs. inv_bind.
  rename r into s1, l into out.
  assert (rs_connected s1 = rs_connected s /\ rs_tasks s1 = rs_tasks s /\
    (forall d, is_Some (queues (rs_relay s1) !! d) -> is_Some (queues (rs_relay s) !! d) \/ knows d = true) /\
    (forall d, d <> d0 -> (forall e, req <> Send d e) -> queues (rs_relay s1) !! d = queues (rs_relay s) !! d)) as (Hc & Ht & Hq & Ho).
  { destruct unknown eqn:Eu; inv_bind; [split_and!; by eauto|]. cbn. split_and!; [done..| |].
    - intros d Hd. destruct (handle_queues _ _ _ _ _ _ E1 Hd) as [?|(to & e & -> & ->)]; [by left|right].
      unfold unknown, recipient in Eu. cbn in Eu. bool_prop. done.
    - intros d Hd He. by apply (handle_others _ _ _ _ _ _ E1). }
  assert (forall t, let s2 := match t with Some to => if unknown then s1 else notify s1 to | None => s1 end in
    rs_relay s2 = rs_relay s1 /\ rs_connected s2 = rs_connected s1 /\ fst <$> rs_tasks s2 = fst <$> rs_tasks s1) as Hn.
  { intros [to|]; [|done]. destruct unknown; [done|apply notify_relay]. }
  assert (exists t, s' = s1 \/ s' = match t with Some to => if unknown then s1 else notify s1 to | None => s1 end) as [t [->|Hs']].
  { exists recipient. destruct (write_tagged _ _); [destruct written|]; simplify_eq; auto. }
  - rewrite Ht. split_and!; [done..|]. intros d1 p d [= <- <-] Hd He. apply Ho; [done|]. intros e ->. by eapply He.
  - rewrite Hs'. destruct (Hn t) as (-> & -> & ->). rewrite Ht. split_and!; [done..|]. intros d1 p d [= <- <-] Hd He. apply Ho; [done|].
    intros e ->. by eapply He.
Qed.

(** A device the run authenticated, and how. *)
Definition authenticated (n0 : Node) (ops : list NodeOp) (d : DeviceAddr) : Prop :=
  exists pre challenge frame signature post before key, ops = pre ++ NConnect challenge frame :: post /\
    node_run n0 pre = Some before /\ decode_auth frame = Some (d, signature) /\
    dir_identity (nd_dir before) d = Some key /\ verify key challenge signature = true.

(** Connections and mail of a reachable node. *)
Record relay_side (n0 : Node) (ops : list NodeOp) (n : Node) : Prop := {
  rsd_mail : forall d, is_Some (queues (rs_relay (nd_relay n)) !! d) -> is_Some (dir_identity (nd_dir n) d);
  rsd_tasks : forall c d p, rs_tasks (nd_relay n) !! c = Some (d, p) -> authenticated n0 ops d;
  rsd_live : forall d c, rs_connected (nd_relay n) !! d = Some c -> exists p, rs_tasks (nd_relay n) !! c = Some (d, p)
}.

Lemma authenticated_app n0 ops op d : authenticated n0 ops d -> authenticated n0 (ops ++ [op]) d.
Proof.
  intros (pre & ch & frame & sig & post & before & key & -> & Hx). exists pre, ch, frame, sig, (post ++ [op]), before, key.
  by rewrite <- app_assoc.
Qed.

Lemma fst_tasks (t t' : gmap nat (DeviceAddr * Z)) c d p : fst <$> t' = fst <$> t -> t !! c = Some (d, p) -> exists p', t' !! c = Some (d, p').
Proof.
  intros He Ht. assert ((fst <$> t') !! c = Some d) as Hx by (by rewrite He, lookup_fmap, Ht). rewrite lookup_fmap in Hx.
  destruct (t' !! c) as [[d' p']|]; [|done]. injection Hx as ->. by exists p'.
Qed.

(** Steps that leave the directory and the mail alone. *)
Lemma relay_side_quiet n0 ops op n n' : relay_side n0 ops n -> nd_dir n' = nd_dir n ->
  (forall d, is_Some (queues (rs_relay (nd_relay n')) !! d) -> is_Some (queues (rs_relay (nd_relay n)) !! d) \/ is_Some (dir_identity (nd_dir n) d)) ->
  rs_connected (nd_relay n') = rs_connected (nd_relay n) -> fst <$> rs_tasks (nd_relay n') = fst <$> rs_tasks (nd_relay n) ->
  relay_side n0 (ops ++ [op]) n'.
Proof.
  intros [H1 H2 H3] Hd Hq Hc Ht. split.
  - intros d Hs. rewrite Hd. destruct (Hq d Hs); auto.
  - intros c d p E0. apply authenticated_app. destruct (fst_tasks _ _ c d p (eq_sym Ht) E0) as [p' Hp]. by eapply H2.
  - intros d c E0. rewrite Hc in E0. destruct (H3 d c E0) as [p Hp]. by eapply fst_tasks.
Qed.

Lemma relay_side_closed n0 ops n c : relay_side n0 ops n ->
  relay_side n0 ops (mkNode (nd_directory n) (close_connection (nd_relay n) c) (nd_accounts n)).
Proof.
  intros [H1 H2 H3]. unfold close_connection. destruct (rs_tasks (nd_relay n) !! c) as [[d p]|] eqn:Et; [|by split].
  split; cbn.
  - done.
  - intros c' d' p' Hl. apply lookup_delete_Some in Hl as [_ Hl]. by eapply H2.
  - intros d' c' Hl.
    assert (rs_connected (nd_relay n) !! d' = Some c' /\ c' <> c) as [Hl' Hne].
    { case_bool_decide as Hb.
      - apply lookup_delete_Some in Hl as [Hd Hl]. split; [done|]. intros ->. destruct (H3 d' c Hl) as [p' Hp]. congruence.
      - split; [done|]. intros ->. destruct (H3 d' c Hl) as [p' Hp]. congruence. }
    destruct (H3 d' c' Hl') as [p' Hp]. exists p'. by rewrite lookup_delete_ne.
Qed.

Lemma relay_side_same n0 ops op n n' : relay_side n0 ops n -> node_step n op = Some n' -> nd_relay n' = nd_relay n ->
  relay_side n0 (ops ++ [op]) n'.
Proof.
  intros [H1 H2 H3] Hs Hr. split; rewrite Hr.
  - intros d Hd. destruct (H1 d Hd) as [k Hk]. unfold dir_identity in *.
    destruct (entries (nd_dir n) !! d) as [e|] eqn:Ee; [|done].
    destruct (node_step_bound _ _ _ d Hs) as [e' He']; [by eexists|]. rewrite He'. by eexists.
  - intros c d p Hc. apply authenticated_app. by eapply H2.
  - done.
Qed.

Lemma relay_side_open n0 ops n ch frame d sig : node_run n0 ops = Some n -> relay_side n0 ops n ->
  decode_auth frame = Some (d, sig) -> identity_verify (nd_dir n) d ch sig = true ->
  relay_side n0 (ops ++ [NConnect ch frame]) (mkNode (nd_directory n) (open_connection (nd_relay n) d) (nd_accounts n)).
Proof.
  intros Hrun [H1 H2 H3] Hf Hv. unfold open_connection. set (c := fresh _).
  assert (rs_tasks (nd_relay n) !! c = None /\ forall d', rs_connected (nd_relay n) !! d' <> Some c) as [Hc1 Hc2].
  { pose proof (is_fresh (dom (rs_tasks (nd_relay n)) ∪ map_img (rs_connected (nd_relay n)) : gset nat)) as Hf'. fold c in Hf'.
    apply not_elem_of_union in Hf' as [Hf1 Hf2]. split; [by apply not_elem_of_dom|]. intros d' Hd. apply Hf2. by apply (elem_of_map_img_2 _ d'). }
  split; cbn; [done| |].
  - intros c' d' p Hl. apply lookup_insert_Some in Hl as [[<- [= <- <-]]|[_ Hl]]; [|apply authenticated_app; by eapply H2].
    unfold identity_verify in Hv. destruct (dir_identity (nd_dir n) d) as [key|] eqn:Ek; [|done].
    by exists ops, ch, frame, sig, [], n, key.
  - intros d' c' Hl. apply lookup_insert_Some in Hl as [[<- <-]|[_ Hl]]; [exists 0; by rewrite lookup_insert_eq|].
    destruct (H3 d' c' Hl) as [p Hp]. exists p. rewrite lookup_insert_ne; [done|]. intros ->. by apply (Hc2 d').
Qed.

Lemma relay_side_step n0 ops op n n' : node_run n0 ops = Some n -> relay_side n0 ops n -> node_step n op = Some n' ->
  relay_side n0 (ops ++ [op]) n'.
Proof.
  intros Hrun Hn Hs. pose proof (relay_side_same _ _ _ _ _ Hn Hs) as Hsame. destruct n as [ds rs a].
  destruct op as [w|ch now r|now rnd r|o|ch frame|c frame written|c|c]; cbn [node_step] in Hs;
    try (injection Hs as <-; by apply Hsame).
  - unfold handshake in Hs. destruct (decode_auth frame) as [[d sig]|] eqn:Ef; [|injection Hs as <-; by apply Hsame].
    destruct (identity_verify (ds_directory ds) d ch sig) eqn:Ev; injection Hs as <-; [|by apply Hsame].
    exact (relay_side_open n0 ops (mkNode ds rs a) ch frame d sig Hrun Hn Ef Ev).
  - destruct (rs_tasks rs !! c) as [[d p]|] eqn:Ec; [|injection Hs as <-; by apply Hsame]. inv_bind. rename r into rs', s into served.
    destruct (serve_relay_effect _ _ _ _ _ _ _ E0) as (Hc & Ht & Hq & _).
    assert (relay_side n0 (ops ++ [NRelay c frame written]) (mkNode ds rs' a)) as Hq'.
    { apply (relay_side_quiet _ _ _ (mkNode ds rs a)); try done. intros d' Hd'. destruct (Hq d' Hd') as [?|Hk]; [by left|right].
      unfold knows_recipient, is_registered in Hk. by bool_prop. }
    destruct served; [done|by apply (relay_side_closed _ _ _ c) in Hq'..].
  - injection Hs as <-. unfold deliver_push in *. destruct (rs_tasks rs !! c) as [[d p]|] eqn:Ec; [|by apply Hsame].
    destruct (0 <? p); [|by apply Hsame]. apply (relay_side_quiet _ _ _ (mkNode ds rs a)); try done; cbn; [by left|].
    rewrite fmap_insert. apply insert_id. by rewrite lookup_fmap, Ec.
  - injection Hs as <-. apply (relay_side_closed _ _ (mkNode ds rs a)). apply (relay_side_quiet _ _ _ (mkNode ds rs a)); auto.
Qed.

Lemma relay_side_run policy m ops n : node_run (node_new policy m) ops = Some n -> relay_side (node_new policy m) ops n.
Proof.
  revert n. induction ops as [|op ops IH] using rev_ind; intros n Hrun.
  - cbn in Hrun. injection Hrun as <-. split; cbn; [intros d [x Hx]|intros c d p Hx|intros d c Hx]; by rewrite lookup_empty in Hx.
  - destruct (node_run_snoc _ _ _ _ Hrun) as (k & Hk & Hs). by eapply relay_side_step; [| |exact Hs]; auto.
Qed.

Lemma handle_send_reply r d to e r' resp : RelayProtocol.handle r d (Send to e) = Some (r', resp) -> exists b, encode_response resp = Some [b].
Proof. cbn [RelayProtocol.handle]. intros He. inv_bind. destruct e0; by eexists. Qed.

Lemma write_byte b : write_tagged TAG_RESPONSE [b] = Some (be32 2 ++ [TAG_RESPONSE; b]).
Proof. done. Qed.

(** A send answered to its sender woke the recipient's connection. *)
Lemma relay_send_wakes knows s c to e frame s' served c' p : is_Some (rs_tasks s !! c) -> decode_request frame = Some (Send to e) ->
  knows to = true -> rs_connected s !! to = Some c' -> rs_tasks s !! c' = Some (to, p) ->
  serve_relay_frame knows s c frame true = Some (s', served) ->
  (exists out, served = SReply out) /\ rs_tasks s' !! c' = Some (to, p + 1).
Proof.
  intros [[d0 p0] Hc] Hf Hk Hcon Htask Hs. unfold serve_relay_frame in Hs. rewrite Hc in Hs. cbn [mbind option_bind] in Hs.
  rewrite Hf, Hk in Hs. cbn [negb] in Hs.
  destruct (RelayProtocol.handle (rs_relay s) d0 (Send to e)) as [[r resp]|] eqn:Eh; [|discriminate Hs].
  destruct (handle_send_reply _ _ _ _ _ _ Eh) as (b & Hb). cbn [mbind option_bind] in Hs. rewrite Hb in Hs. cbn [mbind option_bind] in Hs.
  rewrite write_byte in Hs. apply (inj Some) in Hs. injection Hs as <- <-. split; [by eexists|]. unfold notify. cbn [rs_connected rs_tasks].
  rewrite Hcon, Htask. apply lookup_insert_eq.
Qed.
End RelaySide.

(** C17. The relay serves and keeps mail for registered devices only.  In every
    state a fresh node reaches, by any interleaving of its operations: a device
    with a mail queue is bound in the directory; every connection being served
    proved, when it was opened, the key its device was then bound to, over that
    connection's challenge; the connection registered to be woken for a device
    is being served and authenticated as that device.  A request on a
    connection changes no queue but that of its own device and, for a send, the
    recipient's; and a send to a registered device that is connected, once
    answered, leaves one more wake-up for the recipient's connection. *)
Theorem relay_serves_the_bound {env : Environment} {E : Type} {core : InventoryCore E} `{Possession} policy m ops n :
  node_run (node_new policy m) ops = Some n ->
  let rs := nd_relay n in
  (forall d, is_Some (queues (rs_relay rs) !! d) -> is_Some (dir_identity (nd_dir n) d)) /\
  (forall c d p, rs_tasks rs !! c = Some (d, p) -> authenticated (node_new policy m) ops d) /\
  (forall d c, rs_connected rs !! d = Some c -> exists p, rs_tasks rs !! c = Some (d, p)) /\
  (forall c d p frame written n' d', rs_tasks rs !! c = Some (d, p) -> node_step n (NRelay c frame written) = Some n' ->
     d' <> d -> (forall e, decode_request frame <> Some (Send d' e)) ->
     queues (rs_relay (nd_relay n')) !! d' = queues (rs_relay rs) !! d') /\
  (forall c frame to e n' c', is_Some (rs_tasks rs !! c) -> decode_request frame = Some (Send to e) ->
     is_Some (dir_identity (nd_dir n) to) -> rs_connected rs !! to = Some c' -> node_step n (NRelay c frame true) = Some n' ->
     exists p, rs_tasks rs !! c' = Some (to, p) /\ rs_tasks (nd_relay n') !! c' = Some (to, p + 1)).
Proof.
  intros Hrun rs. destruct (relay_side_run policy m ops n Hrun) as [H1 H2 H3]. fold rs in H1, H2, H3. do 3 (split; [done|]).
  destruct n as [ds rs' a]. cbn in rs. subst rs. unfold nd_dir in *. cbn [nd_relay nd_directory node_step] in *. split.
  - intros c d p frame written n' d' Hc Hs Hd He. rewrite Hc in Hs. inv_bind. rename r into rs2, s into served.
    destruct (serve_relay_effect _ _ _ _ _ _ _ E0) as (_ & _ & _ & Hq). rewrite <- (Hq d p d' Hc Hd He).
    unfold close_connection. destruct served; cbn; [done|by destruct (rs_tasks rs2 !! c) as [[??]|]..].
  - intros c frame to e n' c' Hc Hf Hk Hto Hs. destruct (H3 _ _ Hto) as [p Hp]. exists p. split; [done|].
    destruct Hc as [dp Hc]. rewrite Hc in Hs. inv_bind. rename r into rs2, s into served.
    destruct (relay_send_wakes _ _ _ _ _ _ _ _ _ p (mk_is_Some _ _ Hc) Hf (bool_decide_eq_true_2 _ Hk) Hto Hp E0) as [[out ->] Hw].
    done.
Qed.

(** ** A run for the witnesses *)
#[local] Existing Instance sample_possession.
#[local] Existing Instance sample_env.
#[local] Existing Instance sample_core.

Definition alice_device : DeviceAddr := mkAddr (bstr "acme/alice") 1.
Definition sample_api_key : bytes := (generate_api_key (replicate 32 x02)).1.
Definition sample_hello : bytes := default [] (encode_request (Send alice_device (mkEnvelope Dm (bstr "hello")))).
Definition sample_node_ops : list NodeOp := [
  NAccount 100 (mkAccountRandom (mkSignupRandom 5 (replicate 10 x01) (replicate 32 x02) (replicate 16 x03)) [] [])
    (SignUpTenant (bstr "Acme") (bstr "a@acme.example") (bstr "correct horse"));
  NAccount 110 (mkAccountRandom (mkSignupRandom 0 [] [] []) (replicate 16 x04) []) (SignUpUser sample_api_key (bstr " Alice ") (bstr "hunter2!!"));
  NAccount 200 (mkAccountRandom (mkSignupRandom 0 [] [] []) [] (replicate 16 x05)) (SignIn sample_api_key (bstr "alice") (bstr "hunter2!!"));
  NProvision [xcc] 201 (mkProvision (random_token (bstr "ses") (replicate 16 x05)) 1 [x0a] [xa0] [x0a; xcc]);
  NConnect [xdd] (default [] (encode_auth alice_device [x0a; xdd]));
  NRelay 0 sample_hello true].

(** What the witnesses read of a node. *)
Definition node_view (n : Node) : option bytes * list (option Z) * option nat * list bytes :=
  (dir_identity (nd_dir n) alice_device, [snd <$> rs_tasks (nd_relay n) !! 0%nat], rs_connected (nd_relay n) !! alice_device,
   match relay_pending (rs_relay (nd_relay n)) alice_device with Some l => payload ∘ msg_envelope <$> l | None => [] end).

Lemma sample_node_runs : node_view <$> node_run (node_new AccountsOnly 1) sample_node_ops = Some (Some [x0a], [Some 1], Some 0%nat, [bstr "hello"]).
Proof. vm_compute. reflexivity. Qed.

(** The wake-up is skipped when the response to the sender cannot be written,
    though the mail was accepted: the recipient is connected and is not
    woken. *)
Lemma failed_write_wakes_nobody :
  node_view <$> node_run (node_new AccountsOnly 1) (take 5 sample_node_ops ++ [NConnect [xee] (default [] (encode_auth alice_device [x0a; xee]));
    NRelay 0 sample_hello false])
  = Some (Some [x0a], [None], Some 1%nat, [bstr "hello"]) /\
  (n ← node_run (node_new AccountsOnly 1) (take 5 sample_node_ops ++ [NConnect [xee] (default [] (encode_auth alice_device [x0a; xee]));
    NRelay 0 sample_hello false]); snd <$> rs_tasks (nd_relay n) !! 1%nat) = Some 0.
Proof. split; vm_compute; reflexivity. Qed.

Lemma sample_trace : account_trace accounts_new sample_node_ops = take 3 sample_ops.
Proof. vm_compute. reflexivity. Qed.

Lemma sample_trace_ok : ops_ok accounts_new (take 3 sample_ops).
Proof.
  pose proof sample_ops_ok as Hops. rewrite <- (take_drop 3 sample_ops) in Hops. exact (proj1 (ops_ok_app _ _ _ Hops)).
Qed.

Lemma sample_node_run : exists n, node_run (node_new AccountsOnly 1) sample_node_ops = Some n /\
  dir_identity (nd_dir n) alice_device = Some [x0a] /\ rs_connected (nd_relay n) !! alice_device = Some 0%nat.
Proof.
  pose proof sample_node_runs as Hv. destruct (node_run (node_new AccountsOnly 1) sample_node_ops) as [n|]; [|discriminate Hv].
  exists n. split; [reflexivity|]. apply (inj Some) in Hv.
  split; [exact (f_equal (fun v => v.1.1.1) Hv)|exact (f_equal (fun v => v.1.2) Hv)].
Qed.

Lemma account_names_are_earned_witness :
  exists n, node_run (node_new AccountsOnly 1) sample_node_ops = Some n /\
    exists pre challenge now r post t u, sample_node_ops = pre ++ NProvision challenge now r :: post /\
      exists earlier now0 random i p later, account_trace accounts_new pre = earlier ++ OSignIn now0 random t i p :: later /\
        authenticate_user (run_ops accounts_new earlier) t i p = Ok (t, u).
Proof.
  destruct sample_node_run as (n & Hrun & Hbound & _). exists n. split; [exact Hrun|].
  assert (is_Some (dir_identity (nd_dir n) alice_device)) as Hb by exact (mk_is_Some _ _ Hbound).
  destruct (account_names_are_earned AccountsOnly 1 sample_node_ops n alice_device)
    as (pre & ch & now & r & post & before & after & t & u & Hops & _ & _ & _ & _ & _ & _ & _ & e & now0 & rnd & i & p & l & Ht & _ & Ha & _).
  - rewrite sample_trace. exact sample_trace_ok.
  - rewrite sample_trace. apply NoDup_singleton.
  - exact Hrun.
  - reflexivity.
  - exact Hb.
  - exists pre, ch, now, r, post, t, u. split; [exact Hops|]. exists e, now0, rnd, i, p, l. split; [exact Ht|exact Ha].
Defined.

Lemma relay_serves_the_bound_witness :
  exists n, node_run (node_new AccountsOnly 1) sample_node_ops = Some n /\ authenticated (node_new AccountsOnly 1) sample_node_ops alice_device.
Proof.
  destruct sample_node_run as (n & Hrun & _ & Hwake). exists n. split; [exact Hrun|].
  destruct (relay_serves_the_bound AccountsOnly 1 sample_node_ops n Hrun) as (_ & Ht & Hl & _).
  destruct (Hl alice_device 0%nat Hwake) as [p Hp]. exact (Ht _ _ _ Hp).
Defined.
