(* ===== verification/ServerRestart.v ===== *)
(** * ServerRestart: what a node keeps across restarts
    ([load], [bind] and [persist_state] of [tacenta-server/src/lib.rs])

    A node saves three snapshots, one file after the other, each taken under its
    own lock; requests may run between them, and a crash may fall at any state
    of the directory.  A start loads the three files.  Connecting to a database
    instead of an account snapshot, TLS and the listeners are not modelled. *)

From S2P Require Import Prelude Framing Wire Delivery Relay RelayProtocol Directory DirectoryProtocol RateLimit Persist OperationStore Provider DurableOpen Inventory Accounts AccountsState AccountsSessions AccountsCodec DirServer Transport Provisioning Server.

Definition DIRECTORY_SNAPSHOT : path := "directory.snapshot".
Definition RELAY_SNAPSHOT : path := "relay.snapshot".
Definition ACCOUNTS_SNAPSHOT : path := "accounts.snapshot".

(** ** Loading *)
Inductive LoadError := LoadIo (e : IoError) | Corrupt.

Definition load {T} (fs : Fs) (p : path) (restore : bytes -> option T) (fresh : T) : result LoadError T :=
  match read_file fs p with
  | Ok bs => ok_or Corrupt (restore bs)
  | Err NotFound => Ok fresh
  | Err e => Err (LoadIo e)
  end.

(** What [Config] says of the state; [cf_data_dir]: where it is kept. *)
Record Config := mkConfig {
  cf_data_dir : option path; cf_relay_max_total_bytes : option Z; cf_registration_max_per_hour : option Z;
  cf_registration_policy : option RegistrationPolicy
}.

Section Restart.
Context {env : Environment} {E : Type} {core : InventoryCore E} `{Possession}.

(** The node [bind] and [serve_until] make of what was loaded. *)
Definition started (cfg : Config) (d : Directory) (r : Relay) (a : Accounts) : Node :=
  mkNode (dir_server_gated d (default DEFAULT_MAX_PER_WINDOW (cf_registration_max_per_hour cfg)) (default PolicyOpen (cf_registration_policy cfg)))
    (relay_server r) a.

(** [made]: what [create_dir_all_private] answers.  [None]: the relay's floor
    assertion panics. *)
Definition bind (cfg : Config) (fs : Fs) (made : result IoError unit) : option (result LoadError Node) :=
  let loaded :=
    match cf_data_dir cfg with
    | Some dir =>
        match made with
        | Err e => Err (LoadIo e)
        | Ok _ =>
            d ← load fs (join dir DIRECTORY_SNAPSHOT) dir_restore directory_new;
            r ← load fs (join dir RELAY_SNAPSHOT) relay_restore relay_new;
            Ok (d, r)
        end
    | None => Ok (directory_new, relay_new)
    end in
  match loaded with
  | Err e => Some (Err e)
  | Ok (d, r) =>
      r ← match cf_relay_max_total_bytes cfg with Some limit => relay_with_max_total_bytes r limit | None => Some r end;
      Some (a ← match cf_data_dir cfg with
                | Some dir => load fs (join dir ACCOUNTS_SNAPSHOT) restore accounts_new
                | None => Ok accounts_new
                end;
            Ok (started cfg d r a))
  end.

(** ** Saving *)
Inductive Saved := SavedOk | SaveFailed (e : IoError) | SavePanicked.

(** The files of [persist_state], in order: a snapshot that cannot be encoded
    panics, a write that fails ends the save. *)
Fixpoint save_files (fs : Fs) (dir : path) (files : list (path * option bytes)) (random : nat -> nat -> Z) (io : nat -> IoAnswers)
    : list Fs * Saved :=
  match files with
  | [] => ([], SavedOk)
  | (_, None) :: _ => ([], SavePanicked)
  | (name, Some bs) :: files =>
      let k := length files in
      match write_atomically fs (join dir name) bs (random k) (io k) with
      | (states, Err e) => (states, SaveFailed e)
      | (states, Ok _) =>
          let '(more, saved) := save_files (default fs (last states)) dir files random io in
          (states ++ more, saved)
      end
  end.

(** [d], [r] and [a]: the state when each snapshot is taken. *)
Definition persist_state (fs : Fs) (data_dir : option path) (d : Directory) (r : Relay) (a : Accounts) (random : nat -> nat -> Z)
    (io : nat -> IoAnswers) : list Fs * Saved :=
  match data_dir with
  | None => ([], SavedOk)
  | Some dir =>
      save_files fs dir [(DIRECTORY_SNAPSHOT, dir_snapshot d); (RELAY_SNAPSHOT, relay_snapshot r); (ACCOUNTS_SNAPSHOT, snapshot a)] random io
  end.

(** ** A node's life *)
(** What a request may be given: the account call it makes is admissible. *)
Definition op_admissible (n : Node) (op : NodeOp) : Prop :=
  match account_op (nd_accounts n) op with Some o => op_ok (nd_accounts n) o | None => True end.

(** [k] requests. *)
Inductive serves : Z -> Node -> Node -> Prop :=
| sv_none n : serves 0 n n
| sv_more k a b op c : serves k a b -> op_admissible b op -> node_step b op = Some c -> serves (k + 1) a c.

(** A save that begins at [a]: the relay's snapshot is taken at [b] and the
    accounts' at [c]. *)
Record saving (cfg : Config) (dir : path) (fs : Fs) (a b c : Node) (k1 k2 : Z) (states : list Fs) (saved : Saved) : Prop := {
  sg_first : serves k1 a b;
  sg_second : serves k2 b c;
  sg_directory : dir_fits (nd_dir a);
  sg_relay : Z.of_nat (size (queues (rs_relay (nd_relay b)))) <= u32_max;
  sg_accounts : countable_sizes (nd_accounts c);
  sg_save : exists random io,
    persist_state fs (Some dir) (nd_dir a) (rs_relay (nd_relay b)) (nd_accounts c) random io = (states, saved)
}.

(** [history cfg dir quiet n fs node]: [node] runs over the files [fs] after
    [n] requests since the first start; a start may follow a crash anywhere in
    a save, or between two ([fs] itself).  [quiet]: no request ran during a
    save. *)
Inductive history (cfg : Config) (dir : path) (quiet : bool) : Z -> Fs -> Node -> Prop :=
| h_first fs node :
    Forall (fun name => names fs !! join dir name = None) [DIRECTORY_SNAPSHOT; RELAY_SNAPSHOT; ACCOUNTS_SNAPSHOT] ->
    bind cfg fs (Ok tt) = Some (Ok node) -> history cfg dir quiet 0 fs node
| h_serves n fs a k b : history cfg dir quiet n fs a -> serves k a b -> history cfg dir quiet (n + k) fs b
| h_saved n fs a b c k1 k2 states saved :
    history cfg dir quiet n fs a -> saving cfg dir fs a b c k1 k2 states saved -> (quiet = true -> k1 = 0 /\ k2 = 0) ->
    history cfg dir quiet (n + k1 + k2) (default fs (last states)) c
| h_crashed n fs a b c k1 k2 states saved fs' node :
    history cfg dir quiet n fs a -> saving cfg dir fs a b c k1 k2 states saved -> (quiet = true -> k1 = 0 /\ k2 = 0) ->
    fs' = fs \/ fs' ∈ states -> bind cfg fs' (Ok tt) = Some (Ok node) ->
    history cfg dir quiet (n + k1 + k2) fs' node.
End Restart.

(** ** The files a save leaves *)
(** The last character, [p] or [t], tells a temporary file from a snapshot. *)
Definition last_char (p : path) : option Ascii.ascii := last (String.list_ascii_of_string p).

Lemma list_ascii_app p q : String.list_ascii_of_string (String.append p q) = String.list_ascii_of_string p ++ String.list_ascii_of_string q.
Proof.
  induction p as [|c p IH]; [done|].
  change (c :: String.list_ascii_of_string (String.append p q) = c :: String.list_ascii_of_string p ++ String.list_ascii_of_string q).
  by rewrite IH.
Qed.

Lemma last_char_append p q : q <> String.EmptyString -> last_char (String.append p q) = last_char q.
Proof.
  intros Hq. unfold last_char. rewrite list_ascii_app. destruct q as [|c q]; [done|]. cbn [String.list_ascii_of_string].
  by rewrite last_app_cons.
Qed.

Lemma last_char_temp p r : last_char (temp_path_beside p r) = Some (Ascii.ascii_of_nat 112).
Proof. unfold temp_path_beside. by rewrite !last_char_append by (destruct (Persist.hex 16 r); done). Qed.

Lemma join_inj dir p q : join dir p = join dir q -> p = q.
Proof.
  unfold join. intros H. apply (f_equal String.list_ascii_of_string) in H. rewrite !list_ascii_app in H. apply app_inv_head in H.
  cbn in H. injection H as H. by rewrite <- (String.string_of_list_ascii_of_string p), H, String.string_of_list_ascii_of_string.
Qed.

(** A snapshot's name, and a state of the directory in which [q] is as it
    was. *)
Definition snapshot_name (p : path) : Prop := last_char p = Some (Ascii.ascii_of_nat 116).
Definition kept (fs fs' : Fs) (q : path) : Prop := plain_file fs' q /\ read_file fs' q = read_file fs q.

Lemma kept_refl fs q : plain_file fs q -> kept fs fs q.
Proof. by split. Qed.

Lemma kept_trans fs1 fs2 fs3 q : kept fs1 fs2 q -> kept fs2 fs3 q -> kept fs1 fs3 q.
Proof. intros [_ H1] [H2 H3]. split; [done|congruence]. Qed.

Lemma last_elem {A} (x : A) l : default x (last l) = x \/ default x (last l) ∈ l.
Proof. destruct (last l) eqn:El; cbn; [right; by apply last_Some_elem_of|by left]. Qed.

(** One write: its own file, and the others. *)
Lemma write_kept fs p bs random io states r q fs' : write_atomically fs p bs random io = (states, r) -> fs' ∈ states ->
  snapshot_name q -> plain_file fs q -> q <> p -> kept fs fs' q.
Proof.
  intros Hw Hin Hq Hp Hne. destruct (write_states _ _ _ _ _ _ _ Hw) as (Hall & _). rewrite Forall_forall in Hall.
  destruct (Hall _ Hin) as [[_ Hf] _]. apply same_read; [done| |done].
  assert (Forall (fun fs' => names fs' !! q = names fs !! q) states) as Hn.
  { eapply write_elsewhere; [done..|]. intros k ->. unfold snapshot_name in Hq. by rewrite last_char_temp in Hq. }
  rewrite Forall_forall in Hn. by apply Hn.
Qed.

(** Every state of a save has the files before some point new and the others
    as they were. *)
Definition written_upto (fs fs' : Fs) (dir : path) (files : list (path * bytes)) (j : nat) : Prop :=
  forall i n b, files !! i = Some (n, b) ->
    plain_file fs' (join dir n) /\ read_file fs' (join dir n) = if decide (i < j)%nat then Ok b else read_file fs (join dir n).

Lemma snapshot_name_join dir n : snapshot_name n -> snapshot_name (join dir n).
Proof.
  unfold snapshot_name, join. intros H. rewrite !last_char_append; [done| |done]. intros ->. by vm_compute in H.
Qed.

Lemma written_upto_step fs fs1 fs' dir n0 b0 files j : plain_file fs' (join dir n0) -> read_file fs' (join dir n0) = Ok b0 ->
  (forall n, n ∈ files.*1 -> kept fs fs1 (join dir n)) -> written_upto fs1 fs' dir files j -> written_upto fs fs' dir ((n0, b0) :: files) (S j).
Proof.
  intros Hp Hr Hk Hj [|i] n b Hi.
  - injection Hi as <- <-. by rewrite decide_True by lia.
  - destruct (Hj i n b Hi) as [Hpl ->]. split; [done|]. destruct (Hk n) as [_ ->].
    { change (files !! i = Some (n, b)) in Hi.
    apply list_elem_of_lookup_2 with i. by rewrite list_lookup_fmap, Hi. }
    destruct (decide (i < j)%nat); [rewrite decide_True by lia|rewrite decide_False by lia]; done.
Qed.

(** The states of the first write of a save. *)
Lemma first_write fs dir n0 b0 files random io states r : n0 ∉ files.*1 -> Forall snapshot_name (n0 :: files.*1) ->
  (forall n, n ∈ n0 :: files.*1 -> plain_file fs (join dir n)) -> write_atomically fs (join dir n0) b0 random io = (states, r) ->
  forall fs', fs' = fs \/ fs' ∈ states ->
    (forall n, snapshot_name n -> n <> n0 -> plain_file fs (join dir n) -> kept fs fs' (join dir n)) /\
    (forall n, n ∈ files.*1 -> kept fs fs' (join dir n)) /\
    plain_file fs' (join dir n0) /\ exists j, written_upto fs fs' dir ((n0, b0) :: files) j.
Proof.
  intros Hn0 [Hs0 Hsn]%Forall_cons Hp Hw fs' Hin. rewrite Forall_forall in Hsn.
  assert (plain_file fs (join dir n0)) as Hp0 by (apply Hp; by left).
  assert (forall n, snapshot_name n -> n <> n0 -> plain_file fs (join dir n) -> kept fs fs' (join dir n)) as Hother.
  { intros n Hn Hne Hpn. destruct Hin as [->|Hin]; [by apply kept_refl|].
    eapply write_kept; [done|done|by apply snapshot_name_join|done|]. by intros ?%join_inj. }
  assert (forall n, n ∈ files.*1 -> kept fs fs' (join dir n)) as Hrest.
  { intros n Hn. apply Hother; [by apply Hsn|by intros ->|apply Hp; by right]. }
  assert (plain_file fs' (join dir n0) /\ (read_file fs' (join dir n0) = read_file fs (join dir n0) \/ read_file fs' (join dir n0) = Ok b0))
    as [Hpl Hr].
  { destruct Hin as [->|Hin]; [by auto|]. apply intact_read; [done|]. destruct (write_states _ _ _ _ _ _ _ Hw) as (Hall & _).
    rewrite Forall_forall in Hall. by apply Hall. }
  split_and!; [done|done|done|]. destruct Hr as [Hr|Hr].
  - exists 0%nat. intros [|i] n b Hi; [injection Hi as <- <-; by split|]. rewrite decide_False by lia. apply Hrest.
    change (files !! i = Some (n, b)) in Hi.
    apply list_elem_of_lookup_2 with i. by rewrite list_lookup_fmap, Hi.
  - exists 1%nat. apply (written_upto_step fs fs); [done|done|intros n Hn; by apply kept_refl, Hp; right|].
    intros i n b Hi. rewrite decide_False by lia. apply Hrest. apply list_elem_of_lookup_2 with i. by rewrite list_lookup_fmap, Hi.
Qed.

Lemma save_states dir random io files : forall fs states saved,
  NoDup files.*1 -> Forall snapshot_name files.*1 -> (forall n, n ∈ files.*1 -> plain_file fs (join dir n)) ->
  save_files fs dir (prod_map id Some <$> files) random io = (states, saved) ->
  (forall fs', fs' = fs \/ fs' ∈ states ->
     (exists j, written_upto fs fs' dir files j) /\
     forall n, snapshot_name n -> n ∉ files.*1 -> plain_file fs (join dir n) -> kept fs fs' (join dir n)) /\
  (saved = SavedOk -> written_upto fs (default fs (last states)) dir files (length files)).
Proof.
  induction files as [|[n0 b0] files IH]; intros fs states saved Hnd Hsn Hp Hs.
  { cbn in Hs. injection Hs as <- <-. split; [|by intros _ i n b Hi]. intros fs' [->|Hin]; [|by apply elem_of_nil in Hin].
    split; [by exists 0%nat|]. intros n _ _. apply kept_refl. }
  cbn [fmap list_fmap fst] in Hnd, Hsn, Hp. apply NoDup_cons in Hnd as [Hn0 Hnd].
  cbn [fmap list_fmap prod_map id save_files] in Hs. set (k := length _) in Hs. cbn [fst snd] in Hs.
  destruct (write_atomically fs (join dir n0) b0 (random k) (io k)) as [states1 r1] eqn:Ew.
  pose proof (first_write _ _ _ _ _ _ _ _ _ Hn0 Hsn Hp Ew) as Hfirst. apply Forall_cons in Hsn as [Hs0 Hsn].
  destruct r1 as [[]|e].
  2: { injection Hs as <- <-. split; [|done]. intros fs' Hin. destruct (Hfirst fs' Hin) as (Ho & _ & _ & Hj). split; [done|].
    intros n Hn Hni Hpn. apply Ho; try done. intros ->. apply Hni. by left. }
  destruct (save_files _ dir _ random io) as [more saved'] eqn:Em. injection Hs as <- <-.
  set (fs1 := default fs (last states1)) in *. destruct (Hfirst fs1 (last_elem _ _)) as (Ho1 & Hk1 & Hp1 & _).
  assert (read_file fs1 (join dir n0) = Ok b0) as Hnew.
  { assert (plain_file fs (join dir n0)) as Hp0 by (apply Hp; by left).
    by destruct (write_read _ _ _ _ _ _ _ Hp0 Ew) as (_ & _ & Hr); apply Hr. }
  destruct (IH fs1 more saved' Hnd Hsn (fun n Hn => proj1 (Hk1 n Hn)) Em) as [Hmore Hok].
  assert (forall fs' j, fs' = fs1 \/ fs' ∈ more -> written_upto fs1 fs' dir files j -> written_upto fs fs' dir ((n0, b0) :: files) (S j)) as Hlift.
  { intros fs' j Hin Hj. destruct (Hmore fs' Hin) as [_ Hm]. destruct (Hm n0 Hs0 Hn0 Hp1) as [Hpl Hr].
    apply (written_upto_step fs fs1); [done|by rewrite Hr|done|done]. }
  split.
  - intros fs' Hin. assert ((fs' = fs \/ fs' ∈ states1) \/ fs' ∈ more) as [Hin1|Hin2] by set_solver.
    + destruct (Hfirst fs' Hin1) as (Ho & _ & _ & Hj). split; [done|]. intros n Hn Hni Hpn. apply Ho; try done. intros ->. apply Hni. by left.
    + destruct (Hmore fs' (or_intror Hin2)) as [[j Hj] Hm]. split; [exists (S j); by apply Hlift; [right|]|].
      intros n Hn Hni Hpn. assert (kept fs fs1 (join dir n)) as Hk by (apply Ho1; try done; intros ->; apply Hni; by left).
      eapply kept_trans; [done|]. apply Hm; [done| |apply Hk]. intros Hx. apply Hni. by right.
  - intros ->. specialize (Hok eq_refl). rewrite last_app. destruct (last more) as [x|] eqn:El.
    + cbn in Hok |- *. apply Hlift; [right; by apply last_Some_elem_of|done].
    + cbn in Hok. fold fs1. apply Hlift; [by left|done].
Qed.

(** ** What a running node keeps *)
Section Kept.
Context {env : Environment} {laws : EnvironmentLaws} {E : Type} {core : InventoryCore E} {core_laws : InventoryCoreLaws E} `{Possession}.

Record node_ok (limit n : Z) (nd : Node) : Prop := {
  no_dir : dir_inv (nd_dir nd);
  no_relay : relay_sound limit n (rs_relay (nd_relay nd));
  no_texts : relay_texts (rs_relay (nd_relay nd));
  no_tasks c d p : rs_tasks (nd_relay nd) !! c = Some (d, p) -> addr_wf d;
  no_accounts : accounts_ok (nd_accounts nd)
}.

(** Mail is held for bound devices only. *)
Definition mailed (dir : Directory) (r : Relay) : Prop := forall d, is_Some (queues r !! d) -> is_Some (dir_identity dir d).
Definition bound_in (dir dir' : Directory) : Prop := forall d, is_Some (dir_identity dir d) -> is_Some (dir_identity dir' d).

Lemma identity_bound dir d : is_Some (dir_identity dir d) <-> is_Some (entries dir !! d).
Proof. unfold dir_identity. by rewrite fmap_is_Some. Qed.

Lemma step_bound n op n' : node_step n op = Some n' -> bound_in (nd_dir n) (nd_dir n').
Proof. intros Hs d. rewrite !identity_bound. by apply (node_step_bound n op). Qed.

Lemma step_mailed n op n' : node_step n op = Some n' -> mailed (nd_dir n) (rs_relay (nd_relay n)) -> mailed (nd_dir n') (rs_relay (nd_relay n')).
Proof.
  intros Hs Hm d Hd. apply (step_bound _ _ _ Hs). destruct n as [ds rs a]. unfold nd_dir in *. cbn [nd_directory nd_relay] in *.
  destruct op as [w|ch now r|now rnd r|o|ch frame|c frame written|c|c]; cbn [node_step] in Hs; try (injection Hs as <-; by apply Hm).
  - destruct (handshake _ _ _).2; injection Hs as <-; by apply Hm.
  - destruct (rs_tasks rs !! c) as [[d0 p]|]; [|injection Hs as <-; by apply Hm]. inv_bind. rename r into rs', s into served.
    destruct (serve_relay_effect _ _ _ _ _ _ _ E0) as (_ & _ & Hq & _). cbn [nd_relay] in Hd.
    assert (is_Some (queues (rs_relay rs') !! d)) as Hd'.
    { destruct served; [done|unfold close_connection in Hd; by destruct (rs_tasks rs' !! c) as [[??]|]..]. }
    destruct (Hq d Hd') as [?|Hk]; [by apply Hm|]. unfold knows_recipient, is_registered in Hk. by bool_prop.
  - injection Hs as <-. apply Hm. cbn [nd_relay] in Hd. unfold deliver_push in Hd.
    destruct (rs_tasks rs !! c) as [[d0 p]|]; [|done]. by destruct (0 <? p).
  - injection Hs as <-. apply Hm. cbn [nd_relay] in Hd. unfold close_connection in Hd. by destruct (rs_tasks rs !! c) as [[d0 p]|].
Qed.

Lemma step_dir_inv n op n' : node_step n op = Some n' -> dir_inv (nd_dir n) -> dir_inv (nd_dir n').
Proof.
  intros Hs Hi. rewrite (node_step_dir _ _ _ Hs). destruct op as [w|ch now r|now rnd r|o|ch frame|c frame written|c|c]; try done.
  - by apply serve_one_inv.
  - destruct (provision_step (nd_accounts n) (nd_dir n) now r ch) as [->|(t & u & h & _ & _ & _ & ->)]; [done|by apply dir_inv_step].
Qed.

Lemma step_accounts n op n' : node_step n op = Some n' -> op_admissible n op -> accounts_ok (nd_accounts n) -> accounts_ok (nd_accounts n').
Proof.
  intros Hs Ho Ha. rewrite (node_step_accounts _ _ _ Hs). unfold op_admissible in Ho. destruct (account_op _ op); [by apply op_preserves|done].
Qed.

(** A request frame on the relay: at most one call of [Relay::handle]. *)
Lemma serve_relay_handles knows s c frame written s' served d p : rs_tasks s !! c = Some (d, p) ->
  serve_relay_frame knows s c frame written = Some (s', served) ->
  rs_relay s' = rs_relay s \/
  exists req resp, decode_request frame = Some req /\ RelayProtocol.handle (rs_relay s) d req = Some (rs_relay s', resp).
Proof.
  intros Hc Hs. unfold serve_relay_frame in Hs. rewrite Hc in Hs. cbn [mbind option_bind] in Hs.
  destruct (decode_request frame) as [req|]; [|injection Hs as <- <-; by left].
  set (recipient := match req with Send to _ => Some to | _ => None end) in *.
  set (unknown := match recipient with Some to => negb (knows to) | None => false end) in *. cbv zeta in Hs. inv_bind. rename r into s1, l into out.
  assert (rs_relay s' = rs_relay s1) as ->.
  { destruct (write_tagged _ _); [destruct written|]; simplify_eq; try done. destruct recipient as [to|]; [|done].
    destruct unknown; [done|apply notify_relay]. }
  destruct unknown; inv_bind; [by left|]. right. by exists req, r0.
Qed.

Lemma step_relay limit n nd op nd' : node_step nd op = Some nd' -> node_ok limit n nd -> n <= u64_max ->
  relay_sound limit (n + 1) (rs_relay (nd_relay nd')) /\ relay_texts (rs_relay (nd_relay nd')).
Proof.
  intros Hs [_ Hr Ht Htask _] Hn. assert (relay_sound limit (n + 1) (rs_relay (nd_relay nd))) as Hr' by (eapply sound_weaken; [done|lia]).
  assert (rs_relay (nd_relay nd') = rs_relay (nd_relay nd) -> relay_sound limit (n + 1) (rs_relay (nd_relay nd')) /\ relay_texts (rs_relay (nd_relay nd')))
    as Hsame by (intros ->; done).
  destruct nd as [ds rs a]. cbn [nd_relay] in *.
  destruct op as [w|ch now r|now rnd r|o|ch frame|c frame written|c|c]; cbn [node_step] in Hs; try (injection Hs as <-; by apply Hsame).
  - destruct (handshake _ _ _).2; injection Hs as <-; by apply Hsame.
  - destruct (rs_tasks rs !! c) as [[d p]|] eqn:Ec; [|injection Hs as <-; by apply Hsame]. inv_bind. rename r into rs', s into served.
    assert (rs_relay match served with SReply _ => rs' | _ => close_connection rs' c end = rs_relay rs') as Heq.
    { destruct served; [done|unfold close_connection; by destruct (rs_tasks rs' !! c) as [[??]|]..]. }
    cbn [nd_relay] in Hsame |- *. rewrite Heq in Hsame |- *.
    destruct (serve_relay_handles _ _ _ _ _ _ _ _ _ Ec E0) as [Heq'|(req & resp & Hf & Hh)]; [by apply Hsame|].
    split; [by eapply sound_handle|]. eapply texts_handle; [exact Hr|exact Hn|exact Ht|by eapply Htask| |exact Hh].
    intros to e ->. by eapply decode_send_ok.
  - injection Hs as <-. apply Hsame. cbn [nd_relay]. unfold deliver_push. destruct (rs_tasks rs !! c) as [[d p]|]; [|done]. by destruct (0 <? p).
  - injection Hs as <-. apply Hsame. cbn [nd_relay]. unfold close_connection. by destruct (rs_tasks rs !! c) as [[d p]|].
Qed.

Lemma step_tasks n op n' : node_step n op = Some n' ->
  (forall c d p, rs_tasks (nd_relay n) !! c = Some (d, p) -> addr_wf d) -> forall c d p, rs_tasks (nd_relay n') !! c = Some (d, p) -> addr_wf d.
Proof.
  intros Hs Ht. destruct n as [ds rs a]. cbn [nd_relay] in *.
  assert (forall rs' c0, fst <$> rs_tasks rs' = fst <$> rs_tasks rs ->
    forall c d p, rs_tasks (close_connection rs' c0) !! c = Some (d, p) \/ rs_tasks rs' !! c = Some (d, p) -> addr_wf d) as Hrel.
  { intros rs' c0 Heq c d p Hc. assert (rs_tasks rs' !! c = Some (d, p)) as Hc'.
    { destruct Hc as [Hc|]; [|done]. unfold close_connection in Hc. destruct (rs_tasks rs' !! c0) as [[??]|]; [|done]. cbn [rs_tasks] in Hc.
      by apply lookup_delete_Some in Hc as [_ ?]. }
    destruct (fst_tasks _ _ c d p (eq_sym Heq) Hc') as [p' Hp]. by eapply Ht. }
  destruct op as [w|ch now r|now rnd r|o|ch frame|c frame written|c|c]; cbn [node_step] in Hs; try (injection Hs as <-; exact Ht).
  - unfold handshake in Hs. destruct (decode_auth frame) as [[d sig]|] eqn:Ef; [|injection Hs as <-; exact Ht].
    destruct (identity_verify _ d ch sig); injection Hs as <-; [|exact Ht]. intros c d' p Hc. cbn in Hc.
    apply lookup_insert_Some in Hc as [[_ [= <- <-]]|[_ Hc]]; [by eapply decode_auth_wf|by eapply Ht].
  - destruct (rs_tasks rs !! c) as [[d p]|]; [|injection Hs as <-; exact Ht]. inv_bind. rename r into rs', s into served.
    destruct (serve_relay_effect _ _ _ _ _ _ _ E0) as (_ & Heq & _). cbn [nd_relay]. intros c' d' p' Hc.
    destruct served; eapply (Hrel rs' c Heq); [right|left|left]; exact Hc.
  - injection Hs as <-. cbn [nd_relay]. unfold deliver_push. destruct (rs_tasks rs !! c) as [[d p]|] eqn:Ec; [|exact Ht].
    destruct (0 <? p); [|exact Ht]. intros c' d' p' Hc. cbn in Hc.
    apply lookup_insert_Some in Hc as [[_ [= <- <-]]|[_ Hc]]; by eapply Ht.
  - injection Hs as <-. intros c' d' p' Hc. eapply (Hrel rs c eq_refl). left. exact Hc.
Qed.

Lemma node_ok_step limit n nd op nd' : node_step nd op = Some nd' -> op_admissible nd op -> n <= u64_max -> node_ok limit n nd ->
  node_ok limit (n + 1) nd'.
Proof.
  intros Hs Ho Hn Hok. destruct (step_relay _ _ _ _ _ Hs Hok Hn). split; [by eapply step_dir_inv, Hok|done|done| |by eapply step_accounts, Hok].
  eapply step_tasks; [done|apply Hok].
Qed.

Lemma serves_count k a b : serves k a b -> 0 <= k.
Proof. induction 1; lia. Qed.

Lemma serves_none a b : serves 0 a b -> a = b.
Proof. intros Hs. remember 0 as k eqn:Hk. destruct Hs as [|k a b op c Hs]; [done|]. apply serves_count in Hs. lia. Qed.

Lemma serves_ok limit n k a b : serves k a b -> n + k <= u64_max -> node_ok limit n a ->
  node_ok limit (n + k) b /\ bound_in (nd_dir a) (nd_dir b) /\ (mailed (nd_dir a) (rs_relay (nd_relay a)) -> mailed (nd_dir b) (rs_relay (nd_relay b))).
Proof.
  induction 1 as [a|k a b op c Hab IH Ho Hs]; intros Hn Ha; [rewrite Z.add_0_r; split_and!; [done|by intros ?|done]|].
  destruct IH as (Hb & Hd & Hm); [lia|done|]. split_and!.
  - replace (n + (k + 1)) with (n + k + 1) by lia. eapply node_ok_step; [done|done|lia|done].
  - intros d Hx. by eapply step_bound, Hd.
  - intros Hx. by eapply step_mailed, Hm.
Qed.

(** ** What a start finds *)
Section Config.
Context (cfg : Config) (dir : path).
Hypothesis cfg_dir : cf_data_dir cfg = Some dir.
Hypothesis cfg_limit : forall limit, cf_relay_max_total_bytes cfg = Some limit -> MAX_USER_BYTES <= limit < u64_max.

Definition relay_limit : Z := default MAX_TOTAL_BYTES (cf_relay_max_total_bytes cfg).
Definition limited (r : Relay) : Relay := mkRelay (queues r) (user_bytes r) (total_bytes r) relay_limit.

Record loaded (fs : Fs) (d : Directory) (r : Relay) (a : Accounts) : Prop := {
  ld_plain name : name ∈ [DIRECTORY_SNAPSHOT; RELAY_SNAPSHOT; ACCOUNTS_SNAPSHOT] -> plain_file fs (join dir name);
  ld_directory : load fs (join dir DIRECTORY_SNAPSHOT) dir_restore directory_new = Ok d;
  ld_relay : exists r0, load fs (join dir RELAY_SNAPSHOT) relay_restore relay_new = Ok r0 /\ max_total_bytes r0 = MAX_TOTAL_BYTES /\ r = limited r0;
  ld_accounts : load fs (join dir ACCOUNTS_SNAPSHOT) restore accounts_new = Ok a
}.

Lemma relay_limit_ok : MAX_USER_BYTES <= relay_limit < u64_max.
Proof. unfold relay_limit. destruct (cf_relay_max_total_bytes cfg) as [l|] eqn:El; cbn; [by apply cfg_limit|]. limits. lia. Qed.

Lemma bind_loaded fs d r a : loaded fs d r a -> bind cfg fs (Ok tt) = Some (Ok (started cfg d r a)).
Proof.
  intros [_ Hd (r0 & Hr & Hm & ->) Ha]. unfold bind. rewrite cfg_dir, Hd. cbn [mbind result_bind]. rewrite Hr. cbn [mbind result_bind].
  assert (match cf_relay_max_total_bytes cfg with Some limit => relay_with_max_total_bytes r0 limit | None => Some r0 end = Some (limited r0)) as ->.
  { unfold limited, relay_limit. destruct (cf_relay_max_total_bytes cfg) as [l|] eqn:El; cbn.
    - unfold relay_with_max_total_bytes. replace (l >=? MAX_USER_BYTES) with true; [done|]. specialize (cfg_limit l eq_refl). lia.
    - rewrite <- Hm. by destruct r0. }
  cbn [mbind option_bind]. by rewrite Ha.
Qed.

Lemma first_loaded fs : Forall (fun name => names fs !! join dir name = None) [DIRECTORY_SNAPSHOT; RELAY_SNAPSHOT; ACCOUNTS_SNAPSHOT] ->
  loaded fs directory_new (limited relay_new) accounts_new.
Proof.
  intros Hf. assert (forall name, name ∈ [DIRECTORY_SNAPSHOT; RELAY_SNAPSHOT; ACCOUNTS_SNAPSHOT] ->
    plain_file fs (join dir name) /\ read_file fs (join dir name) = Err NotFound) as Hr.
  { rewrite Forall_forall in Hf. intros name Hn. specialize (Hf _ Hn). assert (plain_file fs (join dir name)) as Hp by (unfold plain_file; by rewrite Hf).
    split; [done|]. by rewrite (read_plain _ _ Hp), Hf. }
  split; [by apply Hr| |exists relay_new; split; [|done]|]; unfold load;
    (match goal with |- context [read_file fs (join dir ?n)] => destruct (Hr n) as [_ ->]; [set_solver|done] end).
Qed.

(** ** What a save leaves for the next start *)
(** The states a start may find after a save over a directory that held [d0],
    [r0] and [a0]. *)
Definition stages (d0 : Directory) (r0 : Relay) (a0 : Accounts) (a b c : Node) : list (Directory * Relay * Accounts) :=
  let d1 := nd_dir a in
  let r1 := rs_relay (nd_relay b) in
  [(d0, r0, a0); (d1, r0, a0); (d1, r1, a0); (d1, r1, with_limiter (nd_accounts c) auth_default)].

Lemma load_written {T} fs fs' p (restore : bytes -> option T) fresh bs (i j : nat) x :
  read_file fs' p = (if decide (i < j)%nat then Ok bs else read_file fs p) -> restore bs = Some x ->
  load fs' p restore fresh = if decide (i < j)%nat then Ok x else load fs p restore fresh.
Proof. unfold load. intros -> Hx. destruct (decide (i < j)%nat); [by rewrite Hx|done]. Qed.

Lemma written_loaded fs fs' d0 r0 a0 a b c n db rb ab j :
  loaded fs d0 r0 a0 -> relay_sound relay_limit n (rs_relay (nd_relay b)) ->
  dir_restore db = Some (nd_dir a) ->
  relay_restore rb = Some (mkRelay (queues (rs_relay (nd_relay b))) (user_bytes (rs_relay (nd_relay b))) (total_bytes (rs_relay (nd_relay b))) MAX_TOTAL_BYTES) ->
  try_restore ab = Ok (with_limiter (nd_accounts c) auth_default) ->
  written_upto fs fs' dir [(DIRECTORY_SNAPSHOT, db); (RELAY_SNAPSHOT, rb); (ACCOUNTS_SNAPSHOT, ab)] j ->
  exists st, stages d0 r0 a0 a b c !! Nat.min j 3 = Some st /\ loaded fs' st.1.1 st.1.2 st.2.
Proof.
  intros [Hp Hd (r & Hr & Hm & Hl) Ha] Hs Hdb Hrb Hab Hj.
  destruct (Hj 0%nat _ _ eq_refl) as [Pd Rd]. destruct (Hj 1%nat _ _ eq_refl) as [Pr Rr]. destruct (Hj 2%nat _ _ eq_refl) as [Pa Ra].
  assert (restore ab = Some (with_limiter (nd_accounts c) auth_default)) as Hab' by (unfold restore; by rewrite Hab).
  eapply (load_written fs fs' _ dir_restore directory_new) in Rd; [|exact Hdb].
  eapply (load_written fs fs' _ relay_restore relay_new) in Rr; [|exact Hrb].
  eapply (load_written fs fs' _ restore accounts_new) in Ra; [|exact Hab'].
  assert (forall name, name ∈ [DIRECTORY_SNAPSHOT; RELAY_SNAPSHOT; ACCOUNTS_SNAPSHOT] -> plain_file fs' (join dir name)) as Hp'.
  { intros name Hn. rewrite !elem_of_cons, elem_of_nil in Hn. by destruct Hn as [->|[->|[->|[]]]]. }
  assert (rs_relay (nd_relay b) = limited (mkRelay (queues (rs_relay (nd_relay b))) (user_bytes (rs_relay (nd_relay b)))
    (total_bytes (rs_relay (nd_relay b))) MAX_TOTAL_BYTES)) as Hlim.
  { unfold limited. cbn. rewrite <- (so_limit _ _ _ Hs). by destruct (rs_relay (nd_relay b)). }
  rewrite Hd in Rd. rewrite Hr in Rr. rewrite Ha in Ra.
  destruct j as [|[|[|j]]]; [exists (d0, r0, a0)|exists (nd_dir a, r0, a0)|exists (nd_dir a, rs_relay (nd_relay b), a0)|
    exists (nd_dir a, rs_relay (nd_relay b), with_limiter (nd_accounts c) auth_default); replace (Nat.min (S (S (S j))) 3) with 3%nat by lia];
    (split; [reflexivity|]); cbn [fst snd];
    repeat (first [rewrite decide_True in Rd by lia|rewrite decide_False in Rd by lia]);
    repeat (first [rewrite decide_True in Rr by lia|rewrite decide_False in Rr by lia]);
    repeat (first [rewrite decide_True in Ra by lia|rewrite decide_False in Ra by lia]);
    (split; [done|done|by eexists|done]).
Qed.

Lemma saved_loaded fs d0 r0 a0 a b c n k1 k2 states saved : loaded fs d0 r0 a0 -> node_ok relay_limit n a -> n + k1 + k2 <= u64_max ->
  saving cfg dir fs a b c k1 k2 states saved ->
  (forall fs', fs' = fs \/ fs' ∈ states -> exists st, st ∈ stages d0 r0 a0 a b c /\ loaded fs' st.1.1 st.1.2 st.2) /\
  (saved = SavedOk -> loaded (default fs (last states)) (nd_dir a) (rs_relay (nd_relay b)) (with_limiter (nd_accounts c) auth_default)).
Proof.
  intros Hld Hok Hn [H1 H2 Fd Fr Fa (random & io & Hsave)]. pose proof (serves_count _ _ _ H1). pose proof (serves_count _ _ _ H2).
  destruct (serves_ok relay_limit n k1 a b H1) as (Hb & _); [lia|done|].
  destruct (serves_ok relay_limit (n + k1) k2 b c H2) as (Hc & _); [lia|done|].
  destruct (inv_snapshot_restore (nd_dir a) (no_dir _ _ _ Hok) Fd) as (db & Sd & Rd).
  destruct (sound_snapshot_restore _ _ _ (no_relay _ _ _ Hb)) as (rb & Sr & Rr); [lia|done|apply Hb|].
  destruct (snapshot_restores (nd_accounts c) (no_accounts _ _ _ Hc) Fa) as (ab & Sa & Ra & _).
  unfold persist_state in Hsave. rewrite Sd, Sr, Sa in Hsave.
  set (files := [(DIRECTORY_SNAPSHOT, db); (RELAY_SNAPSHOT, rb); (ACCOUNTS_SNAPSHOT, ab)]).
  destruct (save_states dir random io files fs states saved) as [Hall Hdone]; [| | |exact Hsave|].
  - by apply (bool_decide_unpack _).
  - repeat constructor.
  - apply (ld_plain _ _ _ _ Hld).
  - assert (forall fs' j, written_upto fs fs' dir files j -> exists st, stages d0 r0 a0 a b c !! Nat.min j 3 = Some st /\ loaded fs' st.1.1 st.1.2 st.2)
      as Hpl by (intros fs' j Hj; by eapply written_loaded; [|apply Hb|..]).
    split.
    + intros fs' Hin. destruct (Hall fs' Hin) as [[j Hj] _]. destruct (Hpl fs' j Hj) as (st & Hst & Hl). exists st. split; [|done].
      by apply list_elem_of_lookup_2 in Hst.
    + intros Hs. destruct (Hpl _ _ (Hdone Hs)) as (st & Hst & Hl). cbn in Hst. by injection Hst as <-.
Qed.

(** ** Histories *)
Lemma started_ok n d r a : dir_inv d -> relay_sound relay_limit n r -> relay_texts r -> accounts_ok a -> node_ok relay_limit n (started cfg d r a).
Proof. by split. Qed.

(** What a history keeps: of the files, of the node, and of the two. *)
Record alive (quiet : bool) (n : Z) (fs : Fs) (nd : Node) (d : Directory) (r : Relay) (a : Accounts) : Prop := {
  al_loaded : loaded fs d r a;
  al_files : node_ok relay_limit n (started cfg d r a);
  al_node : node_ok relay_limit n nd;
  al_bound : bound_in d (nd_dir nd);
  al_mailed : quiet = true -> mailed d r /\ mailed (nd_dir nd) (rs_relay (nd_relay nd))
}.

Lemma node_ok_weaken n m nd : node_ok relay_limit n nd -> n <= m -> node_ok relay_limit m nd.
Proof. intros [H1 H2 H3 H4 H5] Hm. split; try done. by eapply sound_weaken. Qed.

(** Every stage of a save is a sound node to start, and holds no mail for the
    unbound if the save was quiet. *)
Lemma stage_alive quiet n fs a b c d0 r0 a0 k1 k2 st : alive quiet n fs a d0 r0 a0 -> serves k1 a b -> serves k2 b c ->
  n + k1 + k2 <= u64_max -> (quiet = true -> k1 = 0 /\ k2 = 0) -> st ∈ stages d0 r0 a0 a b c ->
  node_ok relay_limit (n + k1 + k2) (started cfg st.1.1 st.1.2 st.2) /\ bound_in st.1.1 (nd_dir c) /\ (quiet = true -> mailed st.1.1 st.1.2).
Proof.
  intros [Hld Hf Hnd Hbd Hm] H1 H2 Hn Hq Hst. pose proof (serves_count _ _ _ H1). pose proof (serves_count _ _ _ H2).
  destruct (serves_ok relay_limit n k1 a b H1) as (Hb & Bab & _); [lia|done|].
  destruct (serves_ok relay_limit (n + k1) k2 b c H2) as (Hc & Bbc & _); [lia|done|].
  apply (node_ok_weaken _ (n + k1 + k2)) in Hf, Hnd, Hb; try lia.
  pose proof (with_limiter_ok (nd_accounts c) auth_default (no_accounts _ _ _ Hc)) as Ha1.
  assert (bound_in (nd_dir a) (nd_dir c)) as Bac by (intros d Hd; by apply Bbc, Bab).
  assert (quiet = true -> mailed (nd_dir a) r0 /\ mailed (nd_dir a) (rs_relay (nd_relay b))) as Hmail.
  { intros Hqt. destruct (Hq Hqt) as [-> ->]. apply serves_none in H1 as <-. destruct (Hm Hqt) as [M1 M2]. split; [|done].
    intros d Hd. by apply Hbd, M1. }
  destruct Hf as [F1 F2 F3 _ F5], Hnd as [N1 N2 N3 _ N5], Hb as [B1 B2 B3 _ B5].
  unfold stages in Hst. rewrite !elem_of_cons, elem_of_nil in Hst. destruct Hst as [->|[->|[->|[->|[]]]]]; cbn [fst snd] in *;
    (split; [by apply started_ok|split; [first [done|intros d Hd; by apply Bac, Hbd]|intros Hqt; first [by apply (Hm Hqt)|by apply (Hmail Hqt)]]]).
Qed.

(** A save, with the files left at any of its states. *)
Lemma saving_alive quiet n fs a b c d0 r0 a0 k1 k2 states saved : alive quiet n fs a d0 r0 a0 ->
  saving cfg dir fs a b c k1 k2 states saved -> n + k1 + k2 <= u64_max -> (quiet = true -> k1 = 0 /\ k2 = 0) ->
  forall fs', fs' = fs \/ fs' ∈ states -> exists st, st ∈ stages d0 r0 a0 a b c /\
    bind cfg fs' (Ok tt) = Some (Ok (started cfg st.1.1 st.1.2 st.2)) /\
    alive quiet (n + k1 + k2) fs' c st.1.1 st.1.2 st.2 /\
    alive quiet (n + k1 + k2) fs' (started cfg st.1.1 st.1.2 st.2) st.1.1 st.1.2 st.2.
Proof.
  intros Hal Hs Hn Hq fs' Hin. pose proof (sg_first _ _ _ _ _ _ _ _ _ _ Hs) as H1. pose proof (sg_second _ _ _ _ _ _ _ _ _ _ Hs) as H2.
  pose proof (serves_count _ _ _ H1). pose proof (serves_count _ _ _ H2).
  destruct (saved_loaded _ _ _ _ _ _ _ _ _ _ _ _ (al_loaded _ _ _ _ _ _ _ Hal) (al_node _ _ _ _ _ _ _ Hal) Hn Hs) as [Hst _].
  destruct (Hst fs' Hin) as (st & Hin' & Hl). exists st. pose proof (bind_loaded _ _ _ _ Hl) as Hb.
  destruct (stage_alive _ _ _ _ _ _ _ _ _ _ _ _ Hal H1 H2 Hn Hq Hin') as (Hok & Hbd & Hm).
  assert (n + k1 <= u64_max) as Hn1 by lia.
  destruct (serves_ok _ _ _ _ _ H1 Hn1 (al_node _ _ _ _ _ _ _ Hal)) as (Hbk & _ & Mb).
  destruct (serves_ok _ _ _ _ _ H2 Hn Hbk) as (Hc & _ & Mc). split; [done|]. split; [done|]. split.
  - split; [done|done|done|done|]. intros Hqt. split; [by apply Hm|]. apply Mc, Mb. by apply (al_mailed _ _ _ _ _ _ _ Hal).
  - split; [done|done|done|by intros z Hz|]. intros Hqt. split; by apply Hm.
Qed.

Lemma history_alive quiet n fs nd : history cfg dir quiet n fs nd -> n <= u64_max -> exists d r a, alive quiet n fs nd d r a.
Proof.
  induction 1 as [fs nd Hf Hb|n fs a k b Hh IH Hs|n fs a b c k1 k2 states saved Hh IH Hs Hq|n fs a b c k1 k2 states saved fs' nd Hh IH Hs Hq Hin Hb];
    intros Hn.
  - exists directory_new, (limited relay_new), accounts_new. pose proof (first_loaded fs Hf) as Hl. rewrite (bind_loaded _ _ _ _ Hl) in Hb.
    apply (inj Some), Ok_inj in Hb as <-. pose proof relay_limit_ok as Hlim.
    assert (relay_with_max_total_bytes relay_new relay_limit = Some (limited relay_new)) as Hnew.
    { unfold relay_with_max_total_bytes. by replace (relay_limit >=? MAX_USER_BYTES) with true by lia. }
    destruct (sound_new _ _ Hnew) as [Hs Ht]; [lia|].
    assert (node_ok relay_limit 0 (started cfg directory_new (limited relay_new) accounts_new)) as Hok.
    { apply started_ok; [exact (dir_inv_run [])|done|done|apply accounts_new_ok]. }
    split; [done|done|done|by intros z Hz|]. intros _. split; intros d Hd; cbn in Hd; rewrite lookup_empty in Hd; by destruct Hd.
  - pose proof (serves_count _ _ _ Hs). destruct IH as (d & r & x & [Hl Hf Ha Hb Hm]); [lia|]. exists d, r, x.
    destruct (serves_ok _ _ _ _ _ Hs Hn Ha) as (Hok & Hbd & Hmail).
    split; [done|by apply (node_ok_weaken n); [|lia]|done|by intros z Hz; apply Hbd, Hb|].
    intros Hqt. destruct (Hm Hqt). auto.
  - pose proof (serves_count _ _ _ (sg_first _ _ _ _ _ _ _ _ _ _ Hs)). pose proof (serves_count _ _ _ (sg_second _ _ _ _ _ _ _ _ _ _ Hs)).
    destruct IH as (d & r & x & Hal); [lia|].
    destruct (saving_alive _ _ _ _ _ _ _ _ _ _ _ _ _ Hal Hs Hn Hq _ (last_elem _ _)) as (st & _ & _ & Hc & _). eauto.
  - pose proof (serves_count _ _ _ (sg_first _ _ _ _ _ _ _ _ _ _ Hs)). pose proof (serves_count _ _ _ (sg_second _ _ _ _ _ _ _ _ _ _ Hs)).
    destruct IH as (d & r & x & Hal); [lia|].
    destruct (saving_alive _ _ _ _ _ _ _ _ _ _ _ _ _ Hal Hs Hn Hq _ Hin) as (st & _ & Hb' & _ & Hc). rewrite Hb' in Hb.
    apply (inj Some), Ok_inj in Hb as <-. eauto.
Qed.
End Config.
End Kept.

(** C5. A node restarts from any crash, with nothing mixed but the order of
    its files.  Take any life of a node from an empty data directory: requests
    of every service, saves that succeed or fail at any call of the operating
    system, crashes at any state of the directory and restarts.  Whatever
    happens during the next save, every state of the directory loads, and gives
    the directory, relay and accounts that a start before the save would have
    given with the first none, one, two or all three replaced, in that order, by
    exactly what the save recorded (the sign-in throttle alone starts empty);
    after a save that succeeded all three are.  And if no request ran during a
    save, no restart holds mail for a device that is not registered. *)
Theorem server_restarts {env : Environment} {laws : EnvironmentLaws} {E : Type} {core : InventoryCore E}
    {core_laws : InventoryCoreLaws E} `{Possession} cfg dir quiet n fs a b c k1 k2 states saved :
  cf_data_dir cfg = Some dir ->
  (forall limit, cf_relay_max_total_bytes cfg = Some limit -> MAX_USER_BYTES <= limit < u64_max) ->
  history cfg dir quiet n fs a -> saving cfg dir fs a b c k1 k2 states saved -> n + k1 + k2 <= u64_max ->
  (quiet = true -> k1 = 0 /\ k2 = 0) ->
  exists d0 r0 a0, bind cfg fs (Ok tt) = Some (Ok (started cfg d0 r0 a0)) /\
    (forall fs', fs' = fs \/ fs' ∈ states -> exists d r x, (d, r, x) ∈ stages d0 r0 a0 a b c /\
       bind cfg fs' (Ok tt) = Some (Ok (started cfg d r x)) /\
       (quiet = true -> forall dev, is_Some (queues r !! dev) -> is_Some (dir_identity d dev))) /\
    (saved = SavedOk -> bind cfg (default fs (last states)) (Ok tt) =
       Some (Ok (started cfg (nd_dir a) (rs_relay (nd_relay b)) (with_limiter (nd_accounts c) auth_default)))).
Proof.
  intros Hdir Hlimit Hh Hs Hn Hq.
  pose proof (serves_count _ _ _ (sg_first _ _ _ _ _ _ _ _ _ _ Hs)). pose proof (serves_count _ _ _ (sg_second _ _ _ _ _ _ _ _ _ _ Hs)).
  destruct (history_alive cfg dir Hdir Hlimit _ _ _ _ Hh) as (d0 & r0 & a0 & Hal); [lia|]. exists d0, r0, a0.
  split; [by apply (bind_loaded cfg dir), Hal|]. split.
  - intros fs' Hin. destruct (saving_alive cfg dir Hdir Hlimit _ _ _ _ _ _ _ _ _ _ _ _ _ Hal Hs Hn Hq _ Hin) as ([[d r] x] & Hst & Hb & _ & Hx).
    exists d, r, x. split; [done|]. split; [done|]. intros Hqt. by apply (al_mailed _ _ _ _ _ _ _ _ _ Hx).
  - intros Hok. apply (bind_loaded cfg dir); [done..|].
    by apply (saved_loaded cfg dir _ _ _ _ _ _ _ _ _ _ _ _ (al_loaded _ _ _ _ _ _ _ _ _ Hal) (al_node _ _ _ _ _ _ _ _ _ Hal) Hn Hs).
Qed.

(** ** A run for the witness *)
#[local] Existing Instance sample_possession.
#[local] Existing Instance sample_env.
#[local] Existing Instance sample_core.

Definition sample_cfg : Config := mkConfig (Some "data") None None None.
Definition empty_disk : Fs := mkFs ∅ ∅.
Definition sample_start : Node := started sample_cfg directory_new relay_new accounts_new.
Definition ann : DeviceAddr := mkAddr (bstr "ann") 1.
Definition ben : DeviceAddr := mkAddr (bstr "ben") 1.
Definition register_ann : NodeOp := NDirectory (mkWire [xcc] [x01] 0 (DirRegister ann [x0a] [xa0] [x0a; xcc])).
Definition sample_registered : Node := default sample_start (node_step sample_start register_ann).

Lemma sample_registered_entries :
  entries (nd_dir sample_registered) = {[ann := mkEntry [x0a] [xa0] []]} /\ recovery (nd_dir sample_registered) = ∅ /\
  generations (nd_dir sample_registered) = ∅ /\ rs_relay (nd_relay sample_registered) = relay_new /\ nd_accounts sample_registered = accounts_new.
Proof. split_and!; reflexivity. Qed.

Lemma sample_dir_fits : dir_fits (nd_dir sample_registered).
Proof.
  destruct sample_registered_entries as (He & Hr & Hg & _). unfold dir_fits. rewrite He, Hr, Hg. split_and!.
  - by vm_compute.
  - intros d e [<- <-]%lookup_singleton_Some. split; [by split|]. by split_and!.
  - intros d k Hk. by rewrite lookup_empty in Hk.
  - intros d g Hk. by rewrite lookup_empty in Hk.
Qed.

Lemma sample_history q : history sample_cfg "data" q 1 empty_disk sample_registered.
Proof.
  apply (h_serves sample_cfg "data" q 0 empty_disk sample_start 1).
  - apply h_first; [repeat constructor|reflexivity].
  - apply (sv_more 0 _ sample_start register_ann); [constructor|exact I|reflexivity].
Qed.

Definition sample_save : list Fs * Saved :=
  persist_state empty_disk (Some "data") (nd_dir sample_registered) (rs_relay (nd_relay sample_registered)) (nd_accounts sample_registered)
    (fun _ => Z.of_nat) (fun _ => io_fine).

Lemma sample_saving : saving sample_cfg "data" empty_disk sample_registered sample_registered sample_registered 0 0 sample_save.1 sample_save.2.
Proof.
  split; [constructor|constructor|exact sample_dir_fits| | |].
  - destruct sample_registered_entries as (_ & _ & _ & -> & _). by vm_compute.
  - destruct sample_registered_entries as (_ & _ & _ & _ & ->). split_and!; by vm_compute.
  - exists (fun _ => Z.of_nat), (fun _ => io_fine). by destruct sample_save eqn:Es.
Qed.

Lemma server_restarts_witness :
  history sample_cfg "data" true 1 empty_disk sample_registered /\
  bind sample_cfg (default empty_disk (last sample_save.1)) (Ok tt) =
    Some (Ok (started sample_cfg (nd_dir sample_registered) relay_new (with_limiter accounts_new auth_default))).
Proof.
  split; [exact (sample_history true)|].
  destruct (server_restarts sample_cfg "data" true 1 empty_disk sample_registered sample_registered sample_registered 0 0 sample_save.1 sample_save.2)
    as (d0 & r0 & a0 & _ & _ & Hok).
  - reflexivity.
  - intros limit Hl. discriminate Hl.
  - exact (sample_history true).
  - exact sample_saving.
  - unfold u64_max. lia.
  - intros _. split; reflexivity.
  - assert (sample_save.2 = SavedOk) as Hs by (vm_compute; reflexivity). specialize (Hok Hs).
    destruct sample_registered_entries as (_ & _ & _ & Hr & Ha). rewrite Hr, Ha in Hok. exact Hok.
Defined.

(** A device registered between the directory's snapshot and the relay's: a
    send to it in between leaves, after a save that succeeded, a queue whose
    device is not registered. *)
Lemma interleaved_save_orphans_mail :
  match node_run sample_registered [NConnect [xdd] (default [] (encode_auth ann [x0a; xdd]))] with
  | None => False
  | Some a =>
      match node_run a [NDirectory (mkWire [xee] [x02] 0 (DirRegister ben [x0b] [xb0] [x0b; xee]));
                        NRelay 0 (default [] (encode_request (Send ben (mkEnvelope Dm (bstr "hello"))))) true] with
      | None => False
      | Some b =>
          let '(states, saved) :=
            persist_state empty_disk (Some "data") (nd_dir a) (rs_relay (nd_relay b)) (nd_accounts b) (fun _ => Z.of_nat) (fun _ => io_fine) in
          saved = SavedOk /\
          match bind sample_cfg (default empty_disk (last states)) (Ok tt) with
          | Some (Ok n) => is_Some (queues (rs_relay (nd_relay n)) !! ben) /\ dir_identity (nd_dir n) ben = None /\
                           is_Some (dir_identity (nd_dir n) ann)
          | _ => False
          end
      end
  end.
Proof. vm_compute. split_and!; try reflexivity; by eexists. Qed.
