(* ===== verification/Mailbox.v ===== *)
(** * Mailbox: a device that waits for its mail
    ([tacenta-client/src/lib.rs], [tacenta-transport/src/lib.rs])

    One device's connection from both ends: the relay's task with its wake-ups
    ([Server]), the frames on the wire, the client's reader task ([Connection]),
    the mail signal and the loop of [receive].  A step is what happens next
    anywhere; what other connections ask of the relay is arbitrary.  A response
    is written after its request was handled and before the recipient is woken,
    so the wake-ups that are owed are part of the state; writes do not fail
    (see [Server.failed_write_wakes_nobody]) and nobody else registers as the
    device, which would take the wake-ups over. *)

From S2P Require Import Prelude Framing Wire Delivery Relay RelayProtocol Directory RateLimit Inventory Accounts AccountsState DirServer Transport Connection Server ServerRestart.

(** ** The machine *)
(** [receive]: [drain] until a batch is not empty, waiting on the signal in
    between.  [up_to] and [received] are what the batch was: the position to
    acknowledge, and whether any message of it could be opened. *)
Inductive Want := WantMail | WantAck (up_to : Z) (received : bool).
Inductive Loop := Away | Calling (w : Want) | Awaiting (w : Want) | Parked.

(** [mb_owed]: the recipients to wake once a response is written.  [mb_wire]:
    the frames written to the device and not read.  [mb_permit]: the one permit
    the signal keeps. *)
Record Mailbox := mkMailbox {
  mb_server : RelayServer; mb_owed : list DeviceAddr; mb_wire : list bytes;
  mb_conn : Connection; mb_permit : bool; mb_loop : Loop
}.

Definition mailbox_of (s : RelayServer) : Mailbox := mkMailbox s [] [] conn_new false Away.

(** Who a request wakes. *)
Definition wakes (knows : DeviceAddr -> bool) (frame : bytes) : option DeviceAddr :=
  match decode_request frame with Some (Send to _) => if knows to then Some to else None | _ => None end.

(** The reader task on a frame: one that is too long is refused by its length. *)
Definition reader_reads (c : Connection) (frame : bytes) : Connection :=
  reader_frame c (if len frame <=? MAX_FRAME_LEN then Some frame else None).

(** [notify_one]. *)
Definition pinged (permit : bool) (c c' : Connection) : bool := permit || (cn_signal c <? cn_signal c').

Section Mailbox.
Context (d : DeviceAddr) (c : nat).

Definition want_request (w : Want) : Request := match w with WantMail => RelayProtocol.Poll d | WantAck k _ => Ack d k end.

(** What the loop does with an answer ([poll_batch]); [received] is whether a
    message of the batch could be opened. *)
Definition after (w : Want) (r : result RequestError bytes) (received : bool) : Loop :=
  match r with
  | Err _ => Away
  | Ok response =>
      match w, decode_response response with
      | WantMail, Some (RespDelivered _ []) => Parked
      | WantMail, Some (RespDelivered from messages) =>
          match checked_add64 from (len messages) with Some k => Calling (WantAck k received) | None => Away end
      | WantAck _ received, Some (Acked true) => if received then Away else Parked
      | _, _ => Away
      end
  end.

(** What goes on without anyone's doing: a wake-up that is owed, a push that is
    written, a frame that is read, the loop that the signal wakes. *)
Inductive settles : Mailbox -> Mailbox -> Prop :=
| st_written s owed1 to owed2 wire cn p l :
    settles (mkMailbox s (owed1 ++ to :: owed2) wire cn p l) (mkMailbox (notify s to) (owed1 ++ owed2) wire cn p l)
| st_pushed s s' out owed wire cn p l : deliver_push s c = (s', Some out) ->
    settles (mkMailbox s owed wire cn p l) (mkMailbox s' owed (wire ++ [[TAG_PUSH]]) cn p l)
| st_read s owed frame wire cn p l :
    settles (mkMailbox s owed (frame :: wire) cn p l)
      (mkMailbox s owed wire (reader_reads cn frame) (pinged p cn (reader_reads cn frame)) l)
| st_woken s owed wire cn :
    settles (mkMailbox s owed wire cn true Parked) (mkMailbox s owed wire cn false (Calling WantMail)).

Inductive mailbox_step : Mailbox -> Mailbox -> Prop :=
| ms_settles w w' : settles w w' -> mailbox_step w w'
| ms_other knows e frame s s' served owed wire cn p l : e <> c ->
    serve_relay_frame knows s e frame false = Some (s', served) ->
    mailbox_step (mkMailbox s owed wire cn p l) (mkMailbox s' (owed ++ option_list (wakes knows frame)) wire cn p l)
| ms_opened d' s owed wire cn p l : d' <> d -> addr_wf d' ->
    mailbox_step (mkMailbox s owed wire cn p l) (mkMailbox (open_connection s d') owed wire cn p l)
| ms_closed e s owed wire cn p l : e <> c ->
    mailbox_step (mkMailbox s owed wire cn p l) (mkMailbox (close_connection s e) owed wire cn p l)
| ms_lost s owed wire cn p l :
    mailbox_step (mkMailbox s owed wire cn p l)
      (mkMailbox s owed wire (reader_frame cn None) (pinged p cn (reader_frame cn None)) l)
| ms_receive s owed wire cn p :
    mailbox_step (mkMailbox s owed wire cn p Away) (mkMailbox s owed wire cn p (Calling WantMail))
| ms_served knows w frame s s' out owed wire cn p : encode_request (want_request w) = Some frame ->
    serve_relay_frame knows s c frame true = Some (s', SReply out) ->
    mailbox_step (mkMailbox s owed wire cn p (Calling w)) (mkMailbox s' owed (wire ++ [drop 4 out]) cn p (Awaiting w))
| ms_answered w received r s owed wire cn cn' p : take_response cn = (cn', Some r) ->
    mailbox_step (mkMailbox s owed wire cn p (Awaiting w)) (mkMailbox s owed wire cn' p (after w r received)).

(** [n] steps. *)
Inductive mailbox_run : Mailbox -> Z -> Mailbox -> Prop :=
| mr_none w : mailbox_run w 0 w
| mr_step w n w1 w2 : mailbox_run w n w1 -> mailbox_step w1 w2 -> mailbox_run w (n + 1) w2.

(** The loop polls again, whatever settles first. *)
Inductive will_wake : Mailbox -> Prop :=
| ww_now w : mb_loop w = Calling WantMail -> will_wake w
| ww_soon w : (exists w', settles w w') -> (forall w', settles w w' -> will_wake w') -> will_wake w.
End Mailbox.

(** ** What requests do to one device's mail *)
(** The position behind the last message a device was ever sent. *)
Definition mail_end (r : Relay) (d : DeviceAddr) : Z := lifetime (queue_of r d).

Lemma handle_mail limit n r d0 req r' resp d : relay_sound limit n r -> n <= u64_max -> RelayProtocol.handle r d0 req = Some (r', resp) ->
  (forall e, req <> Send d e) ->
  mail_end r' d = mail_end r d /\ (relay_pending r d = Some [] -> relay_pending r' d = Some []).
Proof.
  intros [_ Hi _ Hl _] Hn He Hs. assert (queue_of r' d = queue_of r d -> mail_end r' d = mail_end r d /\
    (relay_pending r d = Some [] -> relay_pending r' d = Some [])) as Hsame by (intros Hq; unfold mail_end; by rewrite !relay_pending_queue_of, Hq).
  destruct req as [to e|d1|d1 k|ds]; cbn [RelayProtocol.handle] in He.
  - destruct (relay_enqueue _ _ _ _) as [[r1 res]|] eqn:E0; [|done]. injection He as <- _. assert (d <> to) by (intros ->; by eapply Hs). apply Hsame.
    destruct (enqueue_queue _ _ _ _ _ _ Hi E0) as (_ & _ & [->|[size Hq]]); [done|]. unfold queue_of. by rewrite Hq, lookup_insert_ne.
  - case_bool_decide; [|by inv_bind; apply Hsame]. inv_bind. by apply Hsame.
  - case_bool_decide; [|by inv_bind; apply Hsame]. destruct (relay_ack _ _ _) as [[r2 b0]|] eqn:E0; [|done]. injection He as <- _. subst d1. specialize (Hl d0).
    destruct (relay_ack_inv r d0 k Hi) as (r1 & b & H1 & _ & Hq & _); [unfold mail_end in *; lia|].
    rewrite H1 in E0. injection E0 as <- <-. destruct (queues r !! d0) as [q|] eqn:E; [|by apply Hsame; unfold queue_of; rewrite Hq].
    pose proof (queue_of_ok r d0 Hi) as Hok. destruct (queue_ack _ k) as [[q' b']|] eqn:Ea; [|by apply Hsame; unfold queue_of; rewrite Hq].
    destruct (decide (d = d0)) as [->|]; [|by apply Hsame; unfold queue_of; rewrite Hq, lookup_insert_ne].
    assert (queue_of r1 d0 = q') as Hq' by (unfold queue_of; by rewrite Hq, lookup_insert_eq).
    destruct (queue_ack_ok _ _ _ _ Hok ltac:(lia) Ea) as (_ & Hlife & _). unfold mail_end. rewrite !relay_pending_queue_of, Hq'. split; [done|].
    destruct Hok as (Hv & Hb & _). pose proof Hv as [Hv1 Hv2]. rewrite queue_ack_spec in Ea by (done || lia). cbv zeta in Ea. unfold queue_pending.
    rewrite session_pending_valid by done. intros Hp. apply (inj Some), (f_equal len) in Hp. rewrite len_drop, len_nil in Hp by done. unfold lifetime in *.
    destruct (_ && _) eqn:Et; injection Ea as <- _; [bool_prop; lia|]. rewrite session_pending_valid by done. f_equal. apply len_zero_nil. by rewrite len_drop.
  - destruct (forallb _ ds); inv_bind; by apply Hsame.
Qed.

(** The answer to a poll, and what acknowledging to the end leaves. *)
Lemma poll_answer limit n r d : relay_sound limit n r -> n <= u64_max -> relay_texts r ->
  exists from pend, RelayProtocol.handle r d (RelayProtocol.Poll d) = Some (r, RespDelivered from pend) /\
    relay_cursor r d = Some from /\ relay_pending r d = Some pend /\ from + len pend = mail_end r d /\ response_wf (RespDelivered from pend).
Proof.
  intros [Hn0 Hi _ Hl _] Hn Ht. cbn [RelayProtocol.handle]. rewrite bool_decide_eq_true_2 by done.
  destruct (queue_pending_of r d Hi) as [pend Hp]. rewrite Hp. pose proof (queue_of_ok r d Hi) as (Hv & Hb & _). pose proof Hv as [Hv1 Hv2].
  assert (relay_cursor r d = Some (base (queue_of r d) + cursor (inner (queue_of r d)))) as Hc.
  { specialize (Hl d). unfold relay_cursor, queue_of, lifetime in *. destruct (queues r !! d) as [q|]; [|done]. cbn in *.
    unfold queue_cursor. by rewrite checked_add64_Some by lia. }
  rewrite Hc. cbn [mbind option_bind]. eexists _, _. split; [done|]. split; [done|]. split; [done|].
  assert (pend = drop (Z.to_nat (cursor (inner (queue_of r d)))) (log (inner (queue_of r d)))) as ->.
  { rewrite relay_pending_queue_of in Hp. unfold queue_pending in Hp. rewrite session_pending_valid in Hp by done. by injection Hp as <-. }
  specialize (Hl d). unfold mail_end, lifetime in *. rewrite len_drop by done. split; [lia|]. split; [unfold u64_wf; lia|].
  unfold queue_of. destruct (queues r !! d) as [q|] eqn:E; [|done]. apply Forall_drop, (Ht d q E).
Qed.

Lemma ack_to_end limit n r d r' resp : relay_sound limit n r -> n <= u64_max ->
  RelayProtocol.handle r d (Ack d (mail_end r d)) = Some (r', resp) -> relay_pending r' d = Some [].
Proof.
  intros [_ Hi _ Hl _] Hn He. cbn [RelayProtocol.handle] in He. rewrite bool_decide_eq_true_2 in He by done.
  destruct (relay_ack _ _ _) as [[r2 b0]|] eqn:E0; [|done]. injection He as <- _. specialize (Hl d).
  destruct (relay_ack_inv r d (mail_end r d) Hi) as (r1 & b & H1 & _ & Hq & _); [lia|]. rewrite H1 in E0. injection E0 as <- <-.
  pose proof (queue_of_ok r d Hi) as (Hv & Hb & _). pose proof Hv as [Hv1 Hv2]. rewrite queue_ack_spec in Hq by (done || lia). cbv zeta in Hq.
  rewrite relay_pending_queue_of. unfold queue_of in *. rewrite Hq. destruct (queues r !! d) as [q|] eqn:E; [|by rewrite E].
  unfold mail_end, queue_of in *. rewrite E in *. cbn [default from_option id] in *.
  unfold lifetime in *. destruct (_ && _) eqn:Et; cbv beta iota; rewrite lookup_insert_eq; unfold queue_pending; cbn [default from_option id inner].
  - rewrite session_pending_valid by (unfold session_valid; cbn; len_lia). cbn [cursor log]. f_equal. apply len_zero_nil.
    rewrite drop_drop. unfold len. rewrite length_drop. unfold len in *. lia.
  - apply andb_false_iff in Et as [Et|Et]; bool_prop; [|lia]. rewrite session_pending_valid by done. f_equal. apply len_zero_nil. rewrite len_drop by done. lia.
Qed.

(** ** What a request frame does *)
Lemma serve_unwritten knows s e d0 p frame s' served : rs_tasks s !! e = Some (d0, p) -> serve_relay_frame knows s e frame false = Some (s', served) ->
  rs_connected s' = rs_connected s /\ rs_tasks s' = rs_tasks s /\
  (rs_relay s' = rs_relay s \/ exists req resp, decode_request frame = Some req /\ RelayProtocol.handle (rs_relay s) d0 req = Some (rs_relay s', resp) /\
     forall to env, req = Send to env -> knows to = true).
Proof.
  intros Hc Hs. unfold serve_relay_frame in Hs. rewrite Hc in Hs. cbn [mbind option_bind] in Hs.
  destruct (decode_request frame) as [req|]; [|injection Hs as <- <-; by auto].
  set (recipient := match req with Send to _ => Some to | _ => None end) in *.
  set (unknown := match recipient with Some to => negb (knows to) | None => false end) in *. cbv zeta in Hs. inv_bind. rename r into s1, l into out.
  assert (s' = s1) as -> by (destruct (write_tagged _ _); by simplify_eq).
  destruct unknown eqn:Eu; inv_bind; [by auto|]. split; [done|]. split; [done|]. right. eexists _, _. split; [done|]. split; [done|].
  intros to env ->. cbn in Eu. by destruct (knows to).
Qed.

Lemma tagged_frame tag body out : write_tagged tag body = Some out -> out = frame_of (tag :: body).
Proof.
  unfold write_tagged, write_frame. destruct (u32_try_from _) as [z|] eqn:E; [|done]. apply u32_try_from_Some in E as [-> _]; [|apply len_nonneg].
  by intros [= <-].
Qed.

Lemma frame_body m out : out = frame_of m -> drop 4 out = m.
Proof. intros ->. apply drop_app_length'. by rewrite length_be_bytes. Qed.

Lemma serve_own knows s c d p req frame s' out : rs_tasks s !! c = Some (d, p) -> RelayProtocol.request_wf req -> is_send req = false ->
  encode_request req = Some frame -> serve_relay_frame knows s c frame true = Some (s', SReply out) ->
  rs_connected s' = rs_connected s /\ rs_tasks s' = rs_tasks s /\
  exists resp body, RelayProtocol.handle (rs_relay s) d req = Some (rs_relay s', resp) /\ encode_response resp = Some body /\
    out = frame_of (TAG_RESPONSE :: body).
Proof.
  intros Hc Hw Hns Hf Hs. unfold serve_relay_frame in Hs. rewrite Hc in Hs. cbn [mbind option_bind] in Hs.
  assert (decode_request frame = Some req) as Hd by (by apply relay_request_exact). rewrite Hd in Hs.
  assert (match req with Send to _ => Some to | _ => None end = None) as Hr by (by destruct req). rewrite Hr in Hs. cbv zeta in Hs. inv_bind. rename l into body.
  destruct (write_tagged TAG_RESPONSE body) as [o|] eqn:Ew; [|discriminate Hs]. injection Hs as <- <-. split; [done|]. split; [done|].
  eexists _, body. split; [done|]. split; [done|]. exact (tagged_frame _ _ _ Ew).
Qed.

(** ** No wake-up is lost *)
Section Waking.
Context (d : DeviceAddr) (c : nat) (limit : Z).
Implicit Types (w : Mailbox) (x : Want).

Definition mb_relay w : Relay := rs_relay (mb_server w).

(** Something that will make the loop poll again: a wake-up owed, a push held
    by the task or on the wire, the permit, or the end of the connection. *)
Definition token w : Prop :=
  d ∈ mb_owed w \/ (exists p, rs_tasks (mb_server w) !! c = Some (d, p) /\ 0 < p) \/ [TAG_PUSH] ∈ mb_wire w \/
  mb_permit w = true \/ cn_ended (mb_conn w) = true.

(** The loop has seen all mail up to [k]; no mail is waiting. *)
Definition seen w (k : Z) : Prop := token w \/ mail_end (mb_relay w) d = k.
Definition quiet w : Prop := token w \/ relay_pending (mb_relay w) d = Some [].

Definition response_of (frame : bytes) : option bytes :=
  match frame with tag :: body => if bool_decide (tag = TAG_RESPONSE) then Some body else None | [] => None end.

(** The responses the loop is still to be given. *)
Definition arriving w : list bytes :=
  cn_queue (mb_conn w) ++ (if cn_ended (mb_conn w) then [] else omap response_of (mb_wire w)).

Definition good w x (resp : bytes) : Prop :=
  match x with
  | WantMail => exists from ms, decode_response resp = Some (RespDelivered from ms) /\ 0 <= from /\ seen w (from + len ms) /\ (ms = [] -> quiet w)
  | WantAck _ _ => quiet w
  end.

Definition loop_ok w : Prop :=
  match mb_loop w with
  | Parked => quiet w
  | Calling (WantAck k _) => u64_wf k /\ seen w k
  | _ => True
  end.

Definition arrival_ok w : Prop :=
  match mb_loop w with
  | Awaiting x => arriving w = [] /\ cn_ended (mb_conn w) = true \/ exists resp, arriving w = [resp] /\ good w x resp
  | _ => arriving w = []
  end.

Record mailbox_ok (n : Z) w : Prop := {
  mo_relay : relay_sound limit n (mb_relay w);
  mo_texts : relay_texts (mb_relay w);
  mo_tasks e d' p : rs_tasks (mb_server w) !! e = Some (d', p) -> addr_wf d';
  mo_live : rs_connected (mb_server w) !! d = Some c;
  mo_task : exists p, rs_tasks (mb_server w) !! c = Some (d, p) /\ 0 <= p;
  mo_loop : loop_ok w;
  mo_arrival : arrival_ok w;
  mo_ended : cn_ended (mb_conn w) = true -> mb_permit w = true \/ mb_loop w <> Parked /\ arriving w = []
}.

(** What a step leaves of the device's mail. *)
Record mail_kept w w' : Prop := {
  mk_token : token w -> token w';
  mk_mail : token w' \/ mail_end (mb_relay w') d = mail_end (mb_relay w) d /\
              (relay_pending (mb_relay w) d = Some [] -> relay_pending (mb_relay w') d = Some [])
}.

Lemma kept_seen w w' k : mail_kept w w' -> seen w k -> seen w' k.
Proof. intros [Ht [H|[H1 H2]]] [Hs|Hs]; unfold seen; auto. right. congruence. Qed.
Lemma kept_quiet w w' : mail_kept w w' -> quiet w -> quiet w'.
Proof. intros [Ht [H|[H1 H2]]] [Hs|Hs]; unfold quiet; auto. Qed.
Lemma kept_good w w' x resp : mail_kept w w' -> good w x resp -> good w' x resp.
Proof.
  intros Hk. destruct x as [|k b]; cbn; [|by apply kept_quiet]. intros (from & ms & H1 & H2 & H3 & H4). exists from, ms. split_and!; try done.
  - by eapply kept_seen.
  - intros Hm. eapply kept_quiet; [done|]. by apply H4.
Qed.
Lemma kept_loop w w' : mail_kept w w' -> mb_loop w' = mb_loop w -> loop_ok w -> loop_ok w'.
Proof.
  intros Hk Hl. unfold loop_ok. rewrite Hl. destruct (mb_loop w) as [|[|k b]|[]|]; try done; [|by apply kept_quiet].
  intros [H1 H2]. split; [done|]. by eapply kept_seen.
Qed.
Lemma kept_arrival w w' : mail_kept w w' -> mb_loop w' = mb_loop w -> arriving w' = arriving w ->
  (cn_ended (mb_conn w) = true -> cn_ended (mb_conn w') = true) -> arrival_ok w -> arrival_ok w'.
Proof.
  intros Hk Hl Ha He. unfold arrival_ok. rewrite Hl, Ha. destruct (mb_loop w) as [|x|x|]; try done.
  intros [[H1 H2]|(resp & H1 & H2)]; [left; auto|right]. exists resp. split; [done|]. by eapply kept_good.
Qed.

(** A step that leaves the loop where it is, and takes nothing from what is to
    arrive. *)
Lemma ok_kept n n' w w' : mailbox_ok n w -> relay_sound limit n' (mb_relay w') -> relay_texts (mb_relay w') ->
  (forall e d' p, rs_tasks (mb_server w') !! e = Some (d', p) -> addr_wf d') ->
  rs_connected (mb_server w') !! d = Some c -> (exists p, rs_tasks (mb_server w') !! c = Some (d, p) /\ 0 <= p) ->
  mail_kept w w' -> mb_loop w' = mb_loop w -> arriving w' = arriving w -> mb_permit w' = mb_permit w -> cn_ended (mb_conn w') = cn_ended (mb_conn w) ->
  mailbox_ok n' w'.
Proof.
  intros [H1 H2 H3 H4 H5 H6 H7 H8] R1 R2 R3 R4 R5 Hk Hl Ha Hp He. split; try done.
  - by eapply kept_loop.
  - eapply kept_arrival; try done. by rewrite He.
  - by rewrite Hl, Ha, Hp, He.
Qed.

(** ** Reading a frame *)
Lemma reader_reads_cases cn frame : cn_ended cn = false ->
  let cn' := reader_reads cn frame in
  (cn_ended cn' = true /\ cn_signal cn < cn_signal cn' /\ cn_queue cn' = cn_queue cn) \/
  (exists body, frame = TAG_RESPONSE :: body /\ cn_queue cn' = cn_queue cn ++ [body] /\ cn_ended cn' = false /\ cn_signal cn' = cn_signal cn) \/
  (exists body, frame = TAG_PUSH :: body /\ cn_queue cn' = cn_queue cn /\ cn_ended cn' = false /\ cn_signal cn < cn_signal cn').
Proof.
  intros He. unfold reader_reads, reader_frame. rewrite He. destruct (len frame <=? MAX_FRAME_LEN); [|left; cbn; split_and!; (done || lia)].
  destruct frame as [|tag body]; [left; cbn; split_and!; (done || lia)|]. destruct (bool_decide_reflect (tag = TAG_RESPONSE)) as [->|].
  - destruct (len (cn_queue cn) <? MAX_QUEUED_RESPONSES); [right; left; by eexists|left; cbn; split_and!; (done || lia)].
  - destruct (bool_decide_reflect (tag = TAG_PUSH)) as [->|]; [right; right; eexists; cbn; split_and!; (done || lia)|left; cbn; split_and!; (done || lia)].
Qed.

Lemma reader_ended cn frame : cn_ended cn = true -> reader_frame cn frame = cn.
Proof. unfold reader_frame. by intros ->. Qed.

Lemma pinged_more p cn cn' : p = true \/ cn_signal cn < cn_signal cn' -> pinged p cn cn' = true.
Proof. unfold pinged. intros [->|H]; [done|]. rewrite orb_true_iff. right. by apply Z.ltb_lt. Qed.
Lemma pinged_same p cn cn' : cn_signal cn' = cn_signal cn -> pinged p cn cn' = p.
Proof. unfold pinged. intros ->. rewrite Z.ltb_irrefl. apply orb_false_r. Qed.

(** The end of the connection: what was still to arrive may never, and the
    permit is there. *)
Lemma ok_ended n s owed wire cn p l wire' cn' : mailbox_ok n (mkMailbox s owed wire cn p l) ->
  cn_ended cn' = true -> cn_queue cn' = cn_queue cn -> mailbox_ok n (mkMailbox s owed wire' cn' true l).
Proof.
  intros [H1 H2 H3 H4 H5 H6 H7 H8] He Hq.
  assert (token (mkMailbox s owed wire' cn' true l)) as Ht by (do 3 right; by left).
  split; try done; [| |by left].
  - unfold loop_ok, seen, quiet in *. cbn [mb_loop] in *. destruct l as [|[|k b]|[]|]; try done; [|by left]. destruct H6. split; [done|]. by left.
  - unfold arrival_ok, arriving in *. cbn [mb_loop mb_conn mb_wire] in *. rewrite He, Hq, app_nil_r.
    destruct l as [|x|x|]; try (by apply app_nil in H7 as [-> _]).
    destruct H7 as [[[-> _]%app_nil _]|(resp & H7 & Hg)]; [by left|].
    destruct (cn_queue cn) as [|r q] eqn:Eq; [by left|]. injection H7 as -> H7. apply app_nil in H7 as [-> _].
    right. exists resp. split; [done|]. destruct x; cbn in *; [|by left].
    destruct Hg as (from & ms & Hd & Hf & _). exists from, ms. split_and!; try done; [by left|by intros; left].
Qed.

(** ** What settles keeps the machine sound *)
Lemma notify_self s : rs_connected s !! d = Some c -> (exists p, rs_tasks s !! c = Some (d, p) /\ 0 <= p) ->
  exists p, rs_tasks (notify s d) !! c = Some (d, p) /\ 0 < p.
Proof.
  intros Hc (p & Ht & Hp). unfold notify. rewrite Hc, Ht. cbn. rewrite lookup_insert_eq. exists (p + 1). split; [done|lia].
Qed.

Lemma notify_other s to : rs_connected s !! d = Some c -> to <> d -> forall d' p, rs_tasks s !! c = Some (d', p) ->
  (exists p', rs_tasks (notify s to) !! c = Some (d', p') /\ p <= p').
Proof.
  intros Hc Hn d' p Ht. unfold notify. destruct (rs_connected s !! to) as [c'|]; [|by exists p]. destruct (rs_tasks s !! c') as [[d2 p2]|] eqn:E; [|by exists p].
  cbn. destruct (decide (c' = c)) as [->|]; [|by rewrite lookup_insert_ne; [exists p|]]. rewrite lookup_insert_eq.
  rewrite Ht in E. injection E as <- <-. exists (p + 1). split; [done|lia].
Qed.

Lemma notify_tasks s to e d' p : rs_tasks (notify s to) !! e = Some (d', p) -> exists p', rs_tasks s !! e = Some (d', p').
Proof.
  unfold notify. destruct (rs_connected s !! to) as [c'|]; [|eauto]. destruct (rs_tasks s !! c') as [[d2 p2]|] eqn:E; [|eauto].
  cbn. intros [[<- [= <- <-]]|[_ Hl]]%lookup_insert_Some; eauto.
Qed.

Lemma pushed_tasks s s' out e : deliver_push s c = (s', Some out) ->
  exists d' p, rs_tasks s !! c = Some (d', p) /\ 0 < p /\ rs_relay s' = rs_relay s /\ rs_connected s' = rs_connected s /\
    rs_tasks s' !! e = if decide (e = c) then Some (d', p - 1) else rs_tasks s !! e.
Proof.
  unfold deliver_push. destruct (rs_tasks s !! c) as [[d' p]|]; [|done]. destruct (0 <? p) eqn:Hp; [|done]. intros [= <- _].
  exists d', p. cbn. bool_prop. split_and!; try done. case_decide; [subst; apply lookup_insert_eq|by rewrite lookup_insert_ne].
Qed.

(** How much is on its way. *)
Definition stirring w : nat :=
  3 * length (mb_owed w) + 2 * match rs_tasks (mb_server w) !! c with Some (_, p) => Z.to_nat p | None => 0 end + length (mb_wire w).

Record settled_to n w w' : Prop := {
  se_ok : mailbox_ok n w';
  se_less : (stirring w' < stirring w)%nat;
  se_loop : mb_loop w' = mb_loop w;
  se_token : mb_loop w = Parked -> token w -> token w'
}.

Lemma written_settles n s owed1 to owed2 wire cn p l : mailbox_ok n (mkMailbox s (owed1 ++ to :: owed2) wire cn p l) ->
  settled_to n (mkMailbox s (owed1 ++ to :: owed2) wire cn p l) (mkMailbox (notify s to) (owed1 ++ owed2) wire cn p l).
Proof.
  intros Hok. pose proof Hok as [H1 H2 H3 H4 (q & H5 & Hq) H6 H7 H8]. unfold mb_relay in *. cbn [mb_server] in *.
  destruct (notify_relay s to) as (Nr & Nc & Nt).
  assert (exists q', rs_tasks (notify s to) !! c = Some (d, q') /\ q <= q' /\ (to = d -> 0 < q') /\ (Z.to_nat q' <= S (Z.to_nat q))%nat) as (q' & Hq' & Hle & Hd & Hs).
  { unfold notify. destruct (rs_connected s !! to) as [c'|] eqn:Ec; [|exists q; split_and!; [done|lia|intros ->; congruence|lia]].
    destruct (rs_tasks s !! c') as [[d2 p2]|] eqn:E; [|exists q; split_and!; [done|lia|intros ->; simplify_eq|lia]]. cbn.
    destruct (decide (c' = c)) as [->|Hn].
    - rewrite lookup_insert_eq. rewrite H5 in E. injection E as <- <-. exists (q + 1). split_and!; try done; lia.
    - rewrite lookup_insert_ne by done. exists q. split_and!; [done|lia|intros ->; simplify_eq|lia]. }
  assert (mail_kept (mkMailbox s (owed1 ++ to :: owed2) wire cn p l) (mkMailbox (notify s to) (owed1 ++ owed2) wire cn p l)) as Hk.
  { split.
    - unfold token. cbn [mb_owed mb_server mb_wire mb_permit mb_conn]. intros [Ho|[(q0 & Hq0 & Hp0)|Ho]]; [|right; left|by do 2 right].
      + apply elem_of_app in Ho as [Ho|Ho]; [left; set_solver|]. apply elem_of_cons in Ho as [Ho|Ho]; [|left; set_solver].
        right. left. exists q'. auto.
      + rewrite H5 in Hq0. injection Hq0 as <-. exists q'. split; [done|lia].
    - right. unfold mb_relay. cbn [mb_server]. by rewrite Nr. }
  split; [|unfold stirring; cbn [mb_owed mb_server mb_wire]; rewrite H5, Hq', !length_app; cbn [length]; lia|done|by intros _; apply Hk].
  eapply ok_kept; try done; unfold mb_relay; cbn [mb_server]; rewrite ?Nr, ?Nc; try done.
  - intros e d' pe He. destruct (notify_tasks _ _ _ _ _ He) as [p' Hp']. by eapply H3.
  - exists q'. split; [done|lia].
Qed.

Lemma pushed_settles n s s' out owed wire cn p l : deliver_push s c = (s', Some out) -> mailbox_ok n (mkMailbox s owed wire cn p l) ->
  settled_to n (mkMailbox s owed wire cn p l) (mkMailbox s' owed (wire ++ [[TAG_PUSH]]) cn p l).
Proof.
  intros Hp Hok. pose proof Hok as [H1 H2 H3 H4 (q & H5 & Hq) H6 H7 H8]. unfold mb_relay in *. cbn [mb_server] in *.
  pose proof (pushed_tasks _ _ _ c Hp) as (d' & p0 & Ht & Hpos & Hr & Hc & Hself). rewrite H5 in Ht. injection Ht as <- <-.
  rewrite decide_True in Hself by done.
  assert (mail_kept (mkMailbox s owed wire cn p l) (mkMailbox s' owed (wire ++ [[TAG_PUSH]]) cn p l)) as Hk.
  { split; [|right; unfold mb_relay; cbn [mb_server]; by rewrite Hr]. unfold token. cbn [mb_owed mb_server mb_wire mb_permit mb_conn].
    intros [Ho|[Ho|[Ho|Ho]]]; [by left| | |by do 3 right]; right; right; left; set_solver. }
  split; [|unfold stirring; cbn [mb_owed mb_server mb_wire]; rewrite H5, Hself, length_app; cbn [length]; lia|done|by intros _; apply Hk].
  eapply ok_kept; try done; unfold mb_relay; cbn [mb_server]; rewrite ?Hr, ?Hc; try done.
  - intros e d' pe He. destruct (pushed_tasks _ _ _ e Hp) as (d0 & p0 & Ht & _ & _ & _ & Hl). rewrite Hl in He.
    case_decide as Hec; [subst e|by eapply H3]. injection He as <- <-. by eapply H3.
  - exists (q - 1). split; [done|lia].
  - unfold arriving. cbn [mb_conn mb_wire]. destruct (cn_ended cn); [done|]. rewrite omap_app. cbn. by rewrite app_nil_r.
Qed.

Lemma read_settles n s owed frame wire cn p l : mailbox_ok n (mkMailbox s owed (frame :: wire) cn p l) ->
  settled_to n (mkMailbox s owed (frame :: wire) cn p l)
    (mkMailbox s owed wire (reader_reads cn frame) (pinged p cn (reader_reads cn frame)) l).
Proof.
  intros Hok. pose proof Hok as [H1 H2 H3 H4 H5 H6 H7 H8].
  assert (stirring (mkMailbox s owed wire (reader_reads cn frame) (pinged p cn (reader_reads cn frame)) l) <
          stirring (mkMailbox s owed (frame :: wire) cn p l))%nat as Hst by (unfold stirring; cbn [mb_owed mb_server mb_wire length]; lia).
  destruct (cn_ended cn) eqn:He.
  { unfold reader_reads in *. rewrite reader_ended, pinged_same in * by done.
    assert (mail_kept (mkMailbox s owed (frame :: wire) cn p l) (mkMailbox s owed wire cn p l)) as Hk by (split; [intros _; by do 4 right|by left; do 4 right]).
    split; [|done|done|by intros _; apply Hk]. eapply ok_kept; try done. unfold arriving. cbn [mb_conn]. by rewrite He. }
  destruct (reader_reads_cases cn frame He) as [(Hend & Hsig & Hq)|[(body & -> & Hq & Hend & Hsig)|(body & -> & Hq & Hend & Hsig)]].
  - rewrite pinged_more in * by auto. split; [by eapply ok_ended|done|done|]. intros _ _. do 3 right. by left.
  - rewrite (pinged_same p) in * by done.
    assert (mail_kept (mkMailbox s owed ((TAG_RESPONSE :: body) :: wire) cn p l) (mkMailbox s owed wire (reader_reads cn (TAG_RESPONSE :: body)) p l)) as Hk.
    { split; [|by right]. unfold token. cbn [mb_owed mb_server mb_wire mb_permit mb_conn]. rewrite Hend, He.
      intros [Ho|[Ho|[Ho|Ho]]]; [by left|by right; left| |by do 3 right]. apply elem_of_cons in Ho as [Ho|Ho]; [discriminate Ho|by do 2 right; left]. }
    split; [|done|done|by intros _; apply Hk]. eapply ok_kept; try done; [|by cbn [mb_conn]; rewrite Hend, He].
    unfold arriving. cbn [mb_conn mb_wire]. rewrite Hend, He, Hq, <- app_assoc. done.
  - rewrite pinged_more in * by auto. set (w' := mkMailbox s owed wire _ true l).
    assert (token w') as Ht by (do 3 right; by left).
    assert (mail_kept (mkMailbox s owed ((TAG_PUSH :: body) :: wire) cn p l) w') as Hk by (split; [done|by left]).
    split; [|done|done|done]. split; try done.
    + by eapply kept_loop.
    + eapply kept_arrival; try done; cbn [mb_conn]; [|by rewrite He]. unfold arriving, w'. cbn [mb_conn mb_wire]. by rewrite Hend, He, Hq.
    + by left.
Qed.

Lemma woken_ok n s owed wire cn : mailbox_ok n (mkMailbox s owed wire cn true Parked) ->
  mailbox_ok n (mkMailbox s owed wire cn false (Calling WantMail)).
Proof. intros [H1 H2 H3 H4 H5 H6 H7 H8]. split; try done. right. split; [done|exact H7]. Qed.

Lemma settles_ok n w w' : settles c w w' -> mailbox_ok n w ->
  settled_to n w w' \/ mb_loop w' = Calling WantMail /\ mailbox_ok n w'.
Proof.
  intros [s o1 to o2 wire cn p l|s s' out owed wire cn p l Hp|s owed frame wire cn p l|s owed wire cn] Hok.
  - left. by apply written_settles.
  - left. by eapply pushed_settles.
  - left. by apply read_settles.
  - right. split; [done|by apply woken_ok].
Qed.

(** Something stirs as long as there is a token, and it ends in a poll. *)
Lemma token_stirs n w : mailbox_ok n w -> mb_loop w = Parked -> token w -> exists w', settles c w w'.
Proof.
  intros [_ _ _ _ _ _ _ He] Hl Ht. destruct w as [s owed wire cn p l]. unfold token in Ht. cbn in *. subst l.
  destruct Ht as [Ho|[(q & Hq & Hp)|[Hw|[->|Hend]]]].
  - apply list_elem_of_split in Ho as (o1 & o2 & ->). eexists. apply st_written.
  - eexists. apply (st_pushed _ s (deliver_push s c).1 (default [] (write_tagged TAG_PUSH []))).
    unfold deliver_push. rewrite Hq. replace (0 <? q) with true by (symmetry; by apply Z.ltb_lt). reflexivity.
  - destruct wire as [|f wire]; [by apply elem_of_nil in Hw|]. eexists. apply st_read.
  - eexists. apply st_woken.
  - destruct (He Hend) as [->|[H _]]; [|done]. eexists. apply st_woken.
Qed.

Lemma token_wakes n w : mailbox_ok n w -> mb_loop w = Parked -> token w -> will_wake c w.
Proof.
  remember (stirring w) as m eqn:Hm. revert w Hm. induction (lt_wf m) as [m _ IH]. intros w -> Hok Hl Ht. apply ww_soon; [by eapply token_stirs|].
  intros w' Hs. destruct (settles_ok n w w' Hs Hok) as [[S1 S2 S3 S4]|[S _]]; [|by apply ww_now].
  eapply IH; [exact S2|done|done|by rewrite S3|by apply S4].
Qed.

(** ** Every step keeps the machine sound *)
Lemma ok_weaken n m w : mailbox_ok n w -> n <= m -> mailbox_ok m w.
Proof. intros [H1 H2 H3 H4 H5 H6 H7 H8] Hm. split; try done. by eapply sound_weaken. Qed.

Lemma other_ok n knows e frame s s' served owed wire cn p l : n <= u64_max -> e <> c ->
  serve_relay_frame knows s e frame false = Some (s', served) -> mailbox_ok n (mkMailbox s owed wire cn p l) ->
  mailbox_ok (n + 1) (mkMailbox s' (owed ++ option_list (wakes knows frame)) wire cn p l).
Proof.
  intros Hn He Hs Hok. pose proof Hok as [H1 H2 H3 H4 H5 H6 H7 H8]. unfold mb_relay in *. cbn [mb_server] in *.
  destruct (rs_tasks s !! e) as [[d0 q]|] eqn:Et; [|by unfold serve_relay_frame in Hs; rewrite Et in Hs].
  destruct (serve_unwritten _ _ _ _ _ _ _ _ Et Hs) as (Sc & St & Sr).
  eapply ok_kept; try done; unfold mb_relay; cbn [mb_server]; rewrite ?Sc, ?St; try done.
  - destruct Sr as [->|(req & resp & _ & Hh & _)]; [eapply sound_weaken; [done|lia]|by eapply sound_handle].
  - destruct Sr as [->|(req & resp & Hd & Hh & _)]; [done|]. eapply texts_handle; [exact H1|exact Hn|exact H2|by eapply H3| |exact Hh].
    intros to env ->. by eapply decode_send_ok.
  - split.
    + unfold token. cbn [mb_owed mb_server mb_wire mb_permit mb_conn]. rewrite St. intros [Ho|Ho]; [left; set_solver|by right].
    + unfold mb_relay. cbn [mb_server]. destruct Sr as [->|(req & resp & Hd & Hh & Hto)]; [by right|].
      destruct (decide (wakes knows frame = Some d)) as [Hw|Hw]; [left; left; cbn [mb_owed]; rewrite Hw; set_solver|right].
      eapply handle_mail; [exact H1|exact Hn|exact Hh|]. intros env ->. apply Hw. unfold wakes. rewrite Hd. by rewrite (Hto d env).
Qed.

Lemma served_ok n knows x frame s s' out owed wire cn p : n <= u64_max -> encode_request (want_request d x) = Some frame ->
  serve_relay_frame knows s c frame true = Some (s', SReply out) -> mailbox_ok n (mkMailbox s owed wire cn p (Calling x)) ->
  mailbox_ok (n + 1) (mkMailbox s' owed (wire ++ [drop 4 out]) cn p (Awaiting x)).
Proof.
  intros Hn Hf Hs Hok. pose proof Hok as [H1 H2 H3 H4 (q & H5 & Hq) H6 H7 H8]. unfold mb_relay, loop_ok in *. cbn [mb_server mb_loop] in *.
  assert (addr_wf d) as Hd by (by eapply H3).
  assert (RelayProtocol.request_wf (want_request d x)) as Hw by (destruct x; [done|by destruct H6]).
  assert (is_send (want_request d x) = false) as Hns by (by destruct x).
  destruct (serve_own _ _ _ _ _ _ _ _ _ H5 Hw Hns Hf Hs) as (Sc & St & resp & body & Hh & He & Ho%frame_body).
  assert (mail_kept (mkMailbox s owed wire cn p (Calling x)) (mkMailbox s' owed (wire ++ [drop 4 out]) cn p (Awaiting x))) as Hk.
  { split.
    - unfold token. cbn [mb_owed mb_server mb_wire mb_permit mb_conn]. rewrite St. intros [Hx|[Hx|[Hx|Hx]]]; [by left|by right; left| |by do 3 right].
      right. right. left. set_solver.
    - right. unfold mb_relay. cbn [mb_server]. eapply handle_mail; [exact H1|exact Hn|exact Hh|]. by destruct x. }
  split; unfold mb_relay; cbn [mb_server mb_loop mb_conn mb_permit]; rewrite ?Sc, ?St; try done.
  - by eapply sound_handle.
  - eapply texts_handle; [exact H1|exact Hn|exact H2|exact Hd| |exact Hh]. intros to env Hx. by destruct x.
  - by exists q.
  - unfold arrival_ok, arriving in *. cbn [mb_loop mb_conn mb_wire] in *. destruct (cn_ended cn) eqn:Hend; [by left|right].
    rewrite Ho in Hk. rewrite omap_app, app_assoc, H7, Ho. cbn. exists body. split; [done|]. destruct x as [|k b]; cbn [good want_request] in *.
    + destruct (poll_answer limit n (rs_relay s) d H1 Hn H2) as (from & pend & Hp & _ & Hpend & Hm & Hwf). rewrite Hp in Hh. injection Hh as Hr <-.
      exists from, pend. split; [by apply relay_response_exact|]. split; [apply Hwf|]. split.
      * right. unfold mb_relay. cbn [mb_server]. by rewrite <- Hr.
      * intros ->. right. unfold mb_relay. cbn [mb_server]. by rewrite <- Hr.
    + destruct H6 as [_ [Hx|Hx]]; [left; exact (mk_token _ _ Hk Hx)|right]. unfold mb_relay in *. cbn [mb_server] in *. rewrite <- Hx in Hh. by eapply ack_to_end.
  - intros Hend. destruct (H8 Hend) as [?|[_ Ha]]; [by left|right]. split; [done|]. unfold arriving in *. cbn [mb_conn mb_wire] in *. by rewrite Hend in *.
Qed.

Lemma answered_ok n x received r s owed wire cn cn' p : take_response cn = (cn', Some r) ->
  mailbox_ok n (mkMailbox s owed wire cn p (Awaiting x)) -> mailbox_ok n (mkMailbox s owed wire cn' p (after x r received)).
Proof.
  intros Ht [H1 H2 H3 H4 H5 H6 H7 H8]. unfold take_response in Ht. unfold arrival_ok, arriving in H7. cbn [mb_loop mb_conn mb_wire] in H7.
  destruct (cn_queue cn) as [|b queue] eqn:Eq.
  { destruct (cn_ended cn) eqn:Hend; [|done]. injection Ht as <- <-. split; try done; cbn [mb_loop mb_conn mb_permit after].
    - unfold arrival_ok, arriving. cbn [mb_loop mb_conn mb_wire after]. by rewrite Eq, Hend.
    - intros _. right. split; [done|]. unfold arriving. cbn [mb_conn mb_wire]. by rewrite Eq, Hend. }
  destruct H7 as [[H7 _]|(resp & H7 & Hg)]; [done|]. injection H7 as -> H7.
  assert (cn_ended cn' = cn_ended cn /\ cn_queue cn' = queue) as [He Hq'] by (by injection Ht as <- _).
  assert (mb_permit (mkMailbox s owed wire cn p (Awaiting x)) = true \/ cn_ended cn = false) as Hp.
  { destruct (cn_ended cn) eqn:E; [left|by right]. destruct (H8 E) as [?|[_ Ha]]; [done|]. unfold arriving in Ha. cbn in Ha. by rewrite Eq in Ha. }
  assert (mail_kept (mkMailbox s owed wire cn p (Awaiting x)) (mkMailbox s owed wire cn' p (after x r received))) as Hk.
  { split; [|by right]. unfold token. cbn [mb_owed mb_server mb_wire mb_permit mb_conn]. by rewrite He. }
  assert (arriving (mkMailbox s owed wire cn' p (after x r received)) = []) as Ha by (unfold arriving; cbn [mb_conn mb_wire]; by rewrite He, Hq').
  assert (r = Ok resp \/ exists e, r = Err e) as Hr by (injection Ht as _ <-; destruct (cn_overflowed cn); eauto).
  assert (match after x r received with Away => True | Calling (WantAck k _) => exists from ms, decode_response resp = Some (RespDelivered from ms) /\
      0 <= from /\ checked_add64 from (len ms) = Some k /\ x = WantMail
    | Parked => quiet (mkMailbox s owed wire cn p (Awaiting x)) | _ => False end) as Hcase.
  { destruct Hr as [->|[e ->]]; [|done]. cbn [after]. destruct x as [|k rc]; cbn [good] in Hg.
    - destruct Hg as (from & ms & Hd & Hf & _ & Hm). rewrite Hd. destruct ms as [|m ms]; [by apply Hm|].
      destruct (checked_add64 from (len (m :: ms))) eqn:Ec; [|done]. by exists from, (m :: ms).
    - destruct (decode_response resp) as [[| |[]| | | | |]|]; try done. by destruct rc. }
  split; try done; cbn [mb_loop mb_conn mb_permit].
  - unfold loop_ok. cbn [mb_loop]. destruct (after x r received) as [|[|k rc]|[]|]; try done; [|by eapply kept_quiet].
    destruct Hcase as (from & ms & Hd & Hf & Hc & ->). destruct Hg as (from' & ms' & Hd' & _ & Hs & _). rewrite Hd in Hd'. injection Hd' as <- <-.
    unfold checked_add64 in Hc. destruct (_ <=? u64_max) eqn:El; [|done]. injection Hc as <-. bool_prop. pose proof (len_nonneg ms).
    split; [unfold u64_wf; lia|]. by eapply kept_seen.
  - unfold arrival_ok. cbn [mb_loop]. by destruct (after x r received).
  - rewrite He. intros Hend. left. destruct Hp as [?|Hp]; [done|]. by rewrite Hend in Hp.
Qed.

(** Connections of other devices come and go. *)
Lemma others_ok n s s' owed wire cn p l : mailbox_ok n (mkMailbox s owed wire cn p l) ->
  rs_relay s' = rs_relay s -> rs_connected s' !! d = Some c -> rs_tasks s' !! c = rs_tasks s !! c ->
  (forall e d' q, rs_tasks s' !! e = Some (d', q) -> addr_wf d') -> mailbox_ok n (mkMailbox s' owed wire cn p l).
Proof.
  intros Hok Hr Hc Ht Hw. pose proof Hok as [H1 H2 H3 H4 H5 H6 H7 H8]. unfold mb_relay in *. cbn [mb_server] in *.
  eapply ok_kept; try done; unfold mb_relay; cbn [mb_server]; rewrite ?Hr, ?Ht; try done.
  split; [|right; unfold mb_relay; cbn [mb_server]; by rewrite Hr]. unfold token. cbn [mb_owed mb_server mb_wire mb_permit mb_conn]. by rewrite Ht.
Qed.

Lemma task_opened_ok n d' s owed wire cn p l : d' <> d -> addr_wf d' -> mailbox_ok n (mkMailbox s owed wire cn p l) ->
  mailbox_ok n (mkMailbox (open_connection s d') owed wire cn p l).
Proof.
  intros Hn Hw Hok. pose proof Hok as [_ _ H3 H4 (q & H5 & _) _ _ _]. cbn [mb_server] in *.
  eapply others_ok; [exact Hok|done| | |]; unfold open_connection; cbn [rs_connected rs_tasks].
  - by rewrite lookup_insert_ne.
  - rewrite lookup_insert_ne; [done|]. intros Hf. pose proof (is_fresh (dom (rs_tasks s) ∪ map_img (rs_connected s) : gset nat)) as Hfr.
    rewrite Hf in Hfr. apply Hfr, elem_of_union_l, elem_of_dom. by rewrite H5.
  - intros e d2 q2 [[_ [= <- _]]|[_ He]]%lookup_insert_Some; [done|by eapply H3].
Qed.

Lemma task_closed_ok n e s owed wire cn p l : e <> c -> mailbox_ok n (mkMailbox s owed wire cn p l) ->
  mailbox_ok n (mkMailbox (close_connection s e) owed wire cn p l).
Proof.
  intros Hn Hok. pose proof Hok as [_ _ H3 H4 _ _ _ _]. cbn [mb_server] in *. unfold close_connection.
  destruct (rs_tasks s !! e) as [[d2 q2]|]; [|done]. eapply others_ok; [exact Hok|done| | |]; cbn [rs_connected rs_tasks].
  - case_bool_decide as Hb; [|done]. rewrite lookup_delete_ne; [done|]. intros ->. congruence.
  - by rewrite lookup_delete_ne.
  - intros e' d3 q3 [_ He]%lookup_delete_Some. by eapply H3.
Qed.

Lemma mailbox_step_ok n w w' : n <= u64_max -> mailbox_step d c w w' -> mailbox_ok n w -> mailbox_ok (n + 1) w'.
Proof.
  intros Hn Hs Hok. destruct Hs as [w w' Hs|knows e frame s s' served owed wire cn p l He Hs|d' s owed wire cn p l Hd Hw|e s owed wire cn p l He
    |s owed wire cn p l|s owed wire cn p|knows x frame s s' out owed wire cn p Hf Hs|x received r s owed wire cn cn' p Ht].
  - destruct (settles_ok n w w' Hs Hok) as [[S1 _ _ _]|[_ S1]]; (eapply ok_weaken; [exact S1|lia]).
  - by eapply other_ok.
  - eapply ok_weaken; [by apply task_opened_ok|lia].
  - eapply ok_weaken; [by apply task_closed_ok|lia].
  - apply (ok_weaken n); [|lia]. destruct (cn_ended cn) eqn:E.
    + by rewrite reader_ended, pinged_same.
    + rewrite pinged_more by (right; unfold reader_frame; rewrite E; cbn; lia). eapply ok_ended; [exact Hok| |]; unfold reader_frame; by rewrite E.
  - apply (ok_weaken n); [|lia]. destruct Hok as [H1 H2 H3 H4 H5 H6 H7 H8]. split; try done.
    intros He. destruct (H8 He) as [?|[_ Ha]]; [by left|by right].
  - by eapply served_ok.
  - eapply ok_weaken; [by eapply answered_ok|lia].
Qed.

Lemma mailbox_run_ok n0 w n w' : mailbox_run d c w n w' -> n0 + n <= u64_max -> mailbox_ok n0 w -> 0 <= n /\ mailbox_ok (n0 + n) w'.
Proof.
  intros Hr. induction Hr as [w|w n w1 w2 Hr IH Hs]; intros Hn Hok; [by rewrite Z.add_0_r|].
  destruct IH as [Hn1 IH]; [lia|done|]. split; [lia|]. replace (n0 + (n + 1)) with (n0 + n + 1) by lia. eapply mailbox_step_ok; [|done|done]. lia.
Qed.

Lemma mailbox_new_ok n s : relay_sound limit n (rs_relay s) -> relay_texts (rs_relay s) ->
  (forall e d' p, rs_tasks s !! e = Some (d', p) -> addr_wf d') -> rs_connected s !! d = Some c -> rs_tasks s !! c = Some (d, 0) ->
  mailbox_ok n (mailbox_of s).
Proof. intros. split; try done. by exists 0. Qed.
End Waking.

Lemma node_new_ok {env : Environment} {laws : EnvironmentLaws} {E : Type} {core : InventoryCore E} {core_laws : InventoryCoreLaws E} `{Possession} policy m :
  node_ok MAX_TOTAL_BYTES 0 (node_new policy m).
Proof.
  split; [exact (dir_inv_run [])| | | |apply accounts_new_ok].
  - by destruct (sound_new MAX_TOTAL_BYTES relay_new eq_refl eq_refl).
  - by destruct (sound_new MAX_TOTAL_BYTES relay_new eq_refl eq_refl).
  - intros c d p Hc. cbn in Hc. by rewrite lookup_empty in Hc.
Qed.

(** No wake-up is lost.  A device has connected to a node that served any
    requests before, and waits for its mail in [receive]; in between other
    devices connected, sent, acknowledged and went, the device polled and
    acknowledged, and wake-ups, pushes and frames were on their way for any
    time.  If it is parked on the mail signal while the relay holds a message
    for it, or while its connection is over, then something is on its way that
    makes it poll again: a wake-up that is owed, a push, or the signal's permit;
    and whichever of these goes on first, it comes to that. *)
Theorem mail_wakes_the_receiver {env : Environment} {laws : EnvironmentLaws} {E : Type} {core : InventoryCore E}
    {core_laws : InventoryCoreLaws E} `{Possession} policy m k nd d c n w :
  serves k (node_new policy m) nd -> rs_connected (nd_relay nd) !! d = Some c -> rs_tasks (nd_relay nd) !! c = Some (d, 0) ->
  mailbox_run d c (mailbox_of (nd_relay nd)) n w -> k + n <= u64_max -> mb_loop w = Parked ->
  cn_ended (mb_conn w) = true \/ relay_pending (rs_relay (mb_server w)) d <> Some [] ->
  will_wake c w.
Proof.
  intros Hk Hc Ht Hr Hn Hl Hm. assert (0 <= n) as Hn0 by (clear -Hr; induction Hr; lia).
  destruct (serves_ok MAX_TOTAL_BYTES 0 k _ nd Hk) as ([_ H1 H2 H3 _] & _ & _); [lia|apply node_new_ok|].
  destruct (mailbox_run_ok d c MAX_TOTAL_BYTES k _ n w Hr Hn) as [_ Hok]; [by apply mailbox_new_ok|].
  eapply token_wakes; [exact Hok|done|]. destruct Hm as [He|Hp]; [by do 4 right|].
  pose proof (mo_loop _ _ _ _ _ Hok) as Hq. unfold loop_ok in Hq. rewrite Hl in Hq. by destruct Hq.
Qed.


(** ** Mail and the frame it travels in *)
Lemma drive_ended r s inputs more : forall r' s' got e,
  drive r s inputs = (r', s', got, Some e) -> drive r s (inputs ++ more) = (r', s', got, Some e).
Proof.
  revert r s. induction inputs as [|[a|] inputs IH]; intros r s r' s' got e H; cbn [drive app] in *; [done|by apply IH|].
  destruct (next r s) as [[r1 s1] [|[[f|]|e']]]; try done; [by apply IH|].
  destruct (drive r1 s1 inputs) as [[[r2 s2] got2] ended] eqn:Ed. injection H as -> -> <- ->. by rewrite (IH _ _ _ _ _ _ Ed).
Qed.

(** One frame, cut anywhere. *)
Lemma drive_one m inputs : len m <= MAX_FRAME_LEN -> inputs_data inputs -> input_bytes inputs = frame_of m ->
  exists r s, drive reader_new [] (inputs ++ [Transport.Poll]) = (r, s, [m], None).
Proof.
  intros Hm Hi Hb.
  pose proof (drive_spec inputs reader_new [] [m] [] [] ltac:(by constructor) reader_new_wf Hi ltac:(by constructor) ltac:(by left)) as H.
  change (held reader_new ++ stream_bytes [] ++ input_bytes inputs ++ []) with (input_bytes inputs ++ []) in H. rewrite app_nil_r, Hb in H.
  change (mjoin (frame_of <$> [m]) ++ []) with ((frame_of m ++ []) ++ []) in H. rewrite !app_nil_r in H. specialize (H eq_refl).
  destruct (drive reader_new [] inputs) as [[[r s] got] ended] eqn:Ed. destruct H as (late & Hl & [(-> & Hs & Hw & H)|(-> & -> & H & H4)]).
  2:{ exfalso. by rewrite H in H4. }
  rewrite !app_nil_r in H. rewrite (drive_app _ _ _ _ _ _ _ Ed).
  assert (Forall (fun m => len m <= MAX_FRAME_LEN) late) as Hf by (assert (Forall (fun m => len m <= MAX_FRAME_LEN) (got ++ late)) as Ha
    by (rewrite <- Hl; by constructor); by apply Forall_app in Ha as [_ ?]).
  destruct (drive_polls 1 r s late Hs Hw Hf) as (r1 & s1 & Hd); [|done|].
  - apply (f_equal length) in Hl. rewrite length_app in Hl. cbn in Hl. lia.
  - cbn [replicate] in Hd. rewrite Hd. rewrite <- Hl. by eexists _, _.
Qed.

(** A frame that is too long. *)
Lemma drive_too_long out inputs : 4 <= len out -> MAX_FRAME_LEN < be_value (take 4 out) -> inputs_data inputs -> input_bytes inputs = out ->
  exists r s, drive reader_new [] (inputs ++ [Transport.Poll]) = (r, s, [], Some (Err FrameTooLong)).
Proof.
  intros H4 Hv Hi Hb.
  pose proof (drive_spec inputs reader_new [] [] out [] ltac:(by constructor) reader_new_wf Hi ltac:(by constructor) ltac:(by right)) as H.
  change (held reader_new ++ stream_bytes [] ++ input_bytes inputs ++ []) with (input_bytes inputs ++ []) in H. rewrite app_nil_r, Hb in H.
  specialize (H eq_refl). destruct (drive reader_new [] inputs) as [[[r s] got] ended] eqn:Ed.
  destruct H as (late & Hl & H). symmetry in Hl. apply app_nil in Hl as [-> ->].
  destruct H as [(-> & Hs & Hw & H)|(-> & _)]; [|rewrite (drive_ended _ _ _ _ _ _ _ _ Ed); by eexists _, _].
  rewrite (drive_app _ _ _ _ _ _ _ Ed). rewrite app_nil_r in H. change (mjoin (frame_of <$> []) ++ out) with out in H.
  cbn [drive]. pose proof (next_spec r s Hs Hw) as Hn. destruct (next r s) as [[r1 s1] [|[[f|]|[]]]]; try done.
  - exfalso. destruct Hn as (-> & _ & Hh & Hinc). rewrite Hh, H in Hinc. destruct Hinc as [?|[? _]]; lia.
  - exfalso. destruct Hn as (_ & _ & Hf & x & Hx & Hsp). rewrite write_frame_eq in Hx by done. injection Hx as <-. rewrite H in Hsp.
    destruct (frame_prefix f (stream_bytes s1) Hf) as [Hp Hv']. rewrite Hsp, Hp, Hv' in Hv. lia.
  - by eexists _, _.
Qed.

(** The length of the frame that carries a device's mail: each message takes 19
    bytes besides those it is counted for. *)
Definition poll_frame_len (pend : list StoredMessage) : Z := 14 + 19 * len pend + sum_bytes pend.

Lemma poll_response_len limit n r d from pend : relay_sound limit n r -> relay_pending r d = Some pend ->
  exists body, encode_response (RespDelivered from pend) = Some body /\ len (TAG_RESPONSE :: body) = poll_frame_len pend /\
    poll_frame_len pend <= u32_max.
Proof.
  intros [_ Hi _ _ _] Hp. destruct (queue_of_ok r d Hi) as (_ & _ & pend' & Hp' & _ & Hl & Hs & Hf).
  assert (pend' = pend) as -> by (rewrite relay_pending_queue_of in Hp; unfold queue_pending in Hp; congruence).
  destruct (put_messages_len pend Hl Hf) as (out & Ho & Lo). cbn [encode_response]. rewrite Ho. cbn [mbind option_bind].
  eexists. split; [done|]. unfold poll_frame_len. split; [|limits; lia]. rewrite len_cons, !len_app, len_be_bytes, Lo. change (len [x02]) with 1. lia.
Qed.

(** A device's mail reaches it exactly when the frame that carries all of it is
    within the transport's bound: then a poll is answered with every message,
    however the frame is cut up; otherwise the reader refuses the answer, the
    connection ends, and the mail is what it was, for the next poll to fail the
    same way. *)
Theorem mail_arrives_iff_it_fits limit n knows s c d p frame s' out inputs :
  relay_sound limit n (rs_relay s) -> n <= u64_max -> relay_texts (rs_relay s) -> addr_wf d -> rs_tasks s !! c = Some (d, p) ->
  encode_request (RelayProtocol.Poll d) = Some frame -> serve_relay_frame knows s c frame true = Some (s', SReply out) ->
  inputs_data inputs -> input_bytes inputs = out ->
  exists from pend body r1 s1, relay_pending (rs_relay s) d = Some pend /\ rs_relay s' = rs_relay s /\
    decode_response body = Some (RespDelivered from pend) /\
    drive reader_new [] (inputs ++ [Transport.Poll]) =
      if poll_frame_len pend <=? MAX_FRAME_LEN then (r1, s1, [TAG_RESPONSE :: body], None) else (r1, s1, [], Some (Err FrameTooLong)).
Proof.
  intros Hs Hn Ht Hd Hc Hf Hsv Hi Hb.
  destruct (serve_own _ _ _ _ _ (RelayProtocol.Poll d) _ _ _ Hc Hd eq_refl Hf Hsv) as (_ & _ & resp & body & Hh & He & ->).
  destruct (poll_answer limit n _ d Hs Hn Ht) as (from & pend & Hp & _ & Hpend & _ & Hwf). rewrite Hp in Hh. injection Hh as Hr <-.
  destruct (poll_response_len limit n _ d from pend Hs Hpend) as (body' & He' & Hl & Hu). rewrite He in He'. injection He' as <-.
  exists from, pend, body. destruct (Z.leb_spec (poll_frame_len pend) MAX_FRAME_LEN) as [Hle|Hgt].
  - destruct (drive_one (TAG_RESPONSE :: body) inputs) as (r1 & s1 & Hdr); [by rewrite Hl|done|done|]. exists r1, s1.
    split; [done|]. split; [done|]. split; [by apply relay_response_exact|done].
  - destruct (drive_too_long (frame_of (TAG_RESPONSE :: body)) inputs) as (r1 & s1 & Hdr); [| |done|done|].
    + unfold frame_of. rewrite len_app, len_be_bytes. pose proof (len_nonneg (TAG_RESPONSE :: body)). lia.
    + unfold frame_of. rewrite take_app_length' by (by rewrite length_be_bytes). rewrite be_value_be_bytes; [lia|]. rewrite Hl. unfold u32_max in Hu. pose proof (len_nonneg body). split; [rewrite <- Hl; apply len_nonneg|lia].
    + exists r1, s1. split; [done|]. split; [done|]. split; [by apply relay_response_exact|done].
Qed.

(** Seventeen envelopes of the largest size are within every budget of the
    relay, and too many for one frame. *)
Lemma seventeen_envelopes_wedge m pend :
  byte_len m = MAX_ENVELOPE_BYTES -> pend = replicate 17 m -> sum_bytes pend <= MAX_QUEUE_BYTES /\ MAX_FRAME_LEN < poll_frame_len pend.
Proof.
  intros Hm ->. unfold poll_frame_len. cbn -[Z.add Z.mul Z.le Z.lt byte_len]. rewrite Hm. by vm_compute.
Qed.

(** ** A run for the witness *)
#[local] Existing Instance sample_possession.
#[local] Existing Instance sample_env.
#[local] Existing Instance sample_core.

(** Ann is registered, connects and asks for her mail; there is none; Ben
    connects and sends her a message. *)
Definition connect_ann : NodeOp := NConnect [xdd] (default [] (encode_auth ann [x0a; xdd])).
Definition ann_connected : Node := default sample_start (node_step sample_registered connect_ann).
Definition no_mail : bytes := TAG_RESPONSE :: default [] (encode_response (RespDelivered 0 [])).
Definition greeting : bytes := default [] (encode_request (Send ann (mkEnvelope Dm (bstr "hi")))).
Definition ann_alone : RelayServer := nd_relay ann_connected.
Definition ann_and_ben : RelayServer := open_connection ann_alone ben.
Definition after_greeting : RelayServer := (default (ann_and_ben, SClosed) (serve_relay_frame (fun _ => true) ann_and_ben 1 greeting false)).1.
Definition ann_parked : Mailbox := mkMailbox after_greeting [ann] [] (mkConn [] false false 0 false 0 0) false Parked.

Lemma ann_connected_serves : serves 2 (node_new PolicyOpen DEFAULT_MAX_PER_WINDOW) ann_connected.
Proof.
  apply (sv_more 1 _ sample_registered connect_ann); [|exact I|reflexivity].
  apply (sv_more 0 _ sample_start register_ann); [constructor|exact I|reflexivity].
Qed.

Lemma ann_parks : mailbox_run ann 0%nat (mailbox_of ann_alone) 6 ann_parked.
Proof.
  change 6 with (0 + 1 + 1 + 1 + 1 + 1 + 1).
  eapply mr_step; [eapply mr_step; [eapply mr_step; [eapply mr_step; [eapply mr_step; [eapply mr_step; [apply mr_none|]|]|]|]|]|].
  - apply ms_receive.
  - apply (ms_served _ _ (fun _ => true) WantMail (default [] (encode_request (RelayProtocol.Poll ann))) _ ann_alone (be32 (len no_mail) ++ no_mail));
      by vm_compute.
  - apply ms_settles. apply st_read.
  - apply (ms_answered _ _ WantMail false (Ok (drop 1 no_mail)) _ _ _ _ (mkConn [] false false 0 false 0 0)). by vm_compute.
  - apply (ms_opened _ _ ben); [done|by split].
  - apply (ms_other _ _ (fun _ => true) 1%nat greeting ann_and_ben after_greeting SClosed); [done|by vm_compute].
Qed.

Lemma mail_wakes_the_receiver_witness :
  relay_pending (rs_relay (mb_server ann_parked)) ann = Some [mkStored ben (mkEnvelope Dm (bstr "hi"))] /\ will_wake 0%nat ann_parked.
Proof.
  assert (relay_pending (rs_relay (mb_server ann_parked)) ann = Some [mkStored ben (mkEnvelope Dm (bstr "hi"))]) as Hp by (vm_compute; reflexivity).
  split; [exact Hp|]. apply (mail_wakes_the_receiver PolicyOpen DEFAULT_MAX_PER_WINDOW 2 ann_connected ann 0%nat 6 ann_parked).
  - exact ann_connected_serves.
  - vm_compute. reflexivity.
  - vm_compute. reflexivity.
  - exact ann_parks.
  - unfold u64_max. lia.
  - reflexivity.
  - right. rewrite Hp. discriminate.
Defined.
