(* ===== verification/Seal.v ===== *)
(** * Seal: authenticated persisted state and the store behind it
    ([tacenta-core/src/persist.rs] from its [SEAL_VERSION] on,
    [tacenta-client/src/secure_store.rs])

    The envelope that binds a generation and a payload under a key, and the
    interface of the platform store that keeps the key and a counter which only
    moves forward.  HMAC-SHA-256 is a parameter: what is relied on is that it
    gives 32 bytes. *)

From S2P Require Import Prelude Framing.

(** ** The envelope *)
Definition SEAL_VERSION : byte := x01.
Definition GENERATION_LEN : Z := 8.
Definition TAG_LEN : Z := 32.
Definition SEAL_OVERHEAD : Z := 1 + GENERATION_LEN + TAG_LEN.
Definition SEAL_LABEL : bytes := bstr "tacenta:persisted-state:v1" ++ [xff].

Inductive SealError := SealUnknownVersion | SealTooShort | BadAuthenticator.

Record Unsealed := mkUnsealed { us_generation : Z; us_payload : bytes }.

(** [Hmac::<Sha256>] over a key and all it was updated with. *)
Class Mac := { hmac : bytes -> bytes -> bytes; hmac_len k m : len (hmac k m) = TAG_LEN }.

Section Envelope.
Context {mac : Mac}.

Definition tag_over (key body : bytes) : bytes := hmac key (SEAL_LABEL ++ body).

Definition seal (key : bytes) (generation : Z) (payload : bytes) : bytes :=
  let out := SEAL_VERSION :: be64 generation ++ payload in
  out ++ tag_over key out.

(** [verify_slice] accepts exactly the authenticator itself.  Past the length
    check no slice is out of range: [body] is [sealed] without its tag, the
    generation its bytes 1 to 9. *)
Definition unseal (key sealed : bytes) : result SealError Unsealed :=
  if len sealed <? SEAL_OVERHEAD then Err SealTooShort else
  if negb (bool_decide (head sealed = Some SEAL_VERSION)) then Err SealUnknownVersion else
  let body := take (Z.to_nat (len sealed - TAG_LEN)) sealed in
  let tag := drop (Z.to_nat (len sealed - TAG_LEN)) sealed in
  if negb (bool_decide (tag = tag_over key body)) then Err BadAuthenticator else
  Ok (mkUnsealed (be_value (take 8 (drop 1 body))) (drop 9 body)).
End Envelope.

Inductive Freshness := FrCurrent | FrRolledBack.

Definition freshness (highest_seen offered : Z) : Freshness :=
  if offered <? highest_seen then FrRolledBack else FrCurrent.

(** ** The store behind it *)
Inductive SecureStoreError := Unavailable (reason : String.string) | Backend (reason : String.string).

(** [trait SecureStore]: a call may fail, and a state of the store is all a
    failure may depend on. *)
Class SecureStore := {
  Store : Type;
  wrap_key : Store -> Store * result SecureStoreError bytes;
  rollback_counter : Store -> Store * result SecureStoreError Z;
  bump_rollback_counter : Store -> Store * result SecureStoreError Z
}.

(** What the trait asks of an implementation: one key for the install, of 32
    bytes; a counter that only a bump moves, and only up. *)
Class SecureStoreLaws {secure : SecureStore} := {
  install_key : Store -> bytes;
  committed : Store -> Z;
  committed_wf s : u64_wf (committed s);
  wrap_key_law s s' r : wrap_key s = (s', r) ->
    install_key s' = install_key s /\ committed s' = committed s /\
    match r with Ok k => k = install_key s /\ len k = 32 | Err _ => True end;
  rollback_counter_law s s' r : rollback_counter s = (s', r) ->
    install_key s' = install_key s /\ committed s' = committed s /\
    match r with Ok c => c = committed s | Err _ => True end;
  bump_law s s' r : bump_rollback_counter s = (s', r) ->
    install_key s' = install_key s /\
    match r with Ok c => c = committed s' /\ committed s < c | Err _ => committed s <= committed s' end
}.

(** ** What opens *)
Section Exact.
Context {mac : Mac}.

Lemma len_seal key g p : len (seal key g p) = SEAL_OVERHEAD + len p.
Proof.
  unfold seal, tag_over. cbn [app]. rewrite len_cons, !len_app, len_be_bytes, hmac_len. unfold SEAL_OVERHEAD, GENERATION_LEN, TAG_LEN. lia.
Qed.

(** The three parts of a string long enough for an envelope. *)
Lemma sealed_parts sealed : SEAL_OVERHEAD <= len sealed -> head sealed = Some SEAL_VERSION ->
  exists g p tag, sealed = (SEAL_VERSION :: g ++ p) ++ tag /\ len g = 8 /\ len tag = TAG_LEN /\
    take (Z.to_nat (len sealed - TAG_LEN)) sealed = SEAL_VERSION :: g ++ p /\
    drop (Z.to_nat (len sealed - TAG_LEN)) sealed = tag.
Proof.
  intros Hl Hh. set (n := Z.to_nat (len sealed - TAG_LEN)).
  destruct sealed as [|v rest]; [done|]. injection Hh as ->.
  destruct n as [|m] eqn:En; [unfold SEAL_OVERHEAD, GENERATION_LEN in Hl; subst n; unfold TAG_LEN in *; lia|].
  exists (take 8 (take m rest)), (drop 8 (take m rest)), (drop m rest).
  assert (m + 32 = length rest)%nat as Hm by (subst n; rewrite len_cons in En; unfold TAG_LEN, len in En; lia).
  assert (8 <= m)%nat as H8 by (rewrite len_cons in Hl; unfold SEAL_OVERHEAD, GENERATION_LEN, TAG_LEN, len in Hl; lia).
  rewrite take_drop. cbn [take drop]. split_and!; try done.
  - cbn. by rewrite take_drop.
  - unfold len. rewrite length_take, length_take. lia.
  - unfold len, TAG_LEN. rewrite length_drop. lia.
Qed.

Lemma unseal_parts key g p tag : len g = 8 -> len tag = TAG_LEN ->
  unseal key ((SEAL_VERSION :: g ++ p) ++ tag) =
  if negb (bool_decide (tag = tag_over key (SEAL_VERSION :: g ++ p))) then Err BadAuthenticator else Ok (mkUnsealed (be_value g) p).
Proof.
  intros Hg Ht. unfold unseal. set (body := SEAL_VERSION :: g ++ p). assert (len body = 9 + len p) as Hb by (unfold body; rewrite len_cons, len_app; lia).
  pose proof (len_nonneg p) as Hp. rewrite len_app, Hb, Ht. unfold TAG_LEN in *.
  destruct (Z.ltb_spec (9 + len p + 32) SEAL_OVERHEAD) as [H|_]; [unfold SEAL_OVERHEAD, GENERATION_LEN, TAG_LEN in H; lia|].
  replace (9 + len p + 32 - 32) with (len body) by lia. rewrite !to_nat_len, take_app_length, drop_app_length.
  cbn [body app head]. rewrite bool_decide_eq_true_2 by done. cbn [negb].
  destruct (negb _); [done|]. f_equal. unfold body. cbn [drop skipn].
  assert (length g = 8%nat) as Hg' by (unfold len in Hg; lia).
  f_equal; [f_equal; rewrite <- Hg'; apply take_app_length|]. change (drop 9 (SEAL_VERSION :: g ++ p)) with (drop 8 (g ++ p)). rewrite <- Hg'. apply drop_app_length.
Qed.

(** The first eight bytes of a body are its generation. *)
Lemma unseal_seal key g p : u64_wf g -> unseal key (seal key g p) = Ok (mkUnsealed g p).
Proof.
  intros Hg. unfold seal. rewrite unseal_parts by (first [by rewrite len_be_bytes|apply hmac_len]).
  rewrite bool_decide_eq_true_2 by done. cbn [negb]. f_equal. f_equal. apply be_value_be_bytes. unfold u64_wf, u64_max in Hg.
  change (256 ^ Z.of_nat 8) with 18446744073709551616. lia.
Qed.

Lemma unseal_exact key sealed u :
  unseal key sealed = Ok u <-> u64_wf (us_generation u) /\ sealed = seal key (us_generation u) (us_payload u).
Proof.
  split.
  - intros H. assert (SEAL_OVERHEAD <= len sealed /\ head sealed = Some SEAL_VERSION) as [Hl Hh].
    { unfold unseal in H. destruct (Z.ltb_spec (len sealed) SEAL_OVERHEAD); [done|]. split; [lia|]. by destruct (bool_decide_reflect (head sealed = Some SEAL_VERSION)). }
    destruct (sealed_parts sealed Hl Hh) as (g & p & tag & -> & Hg & Ht & _). rewrite unseal_parts in H by done.
    destruct (bool_decide_reflect (tag = tag_over key (SEAL_VERSION :: g ++ p))) as [->|]; [|done]. cbn [negb] in H.
    apply Ok_inj in H as <-. cbn [us_generation us_payload]. split.
    + pose proof (be_value_range g) as Hr. rewrite Hg in Hr. unfold u64_wf, u64_max. change (256 ^ 8) with 18446744073709551616 in Hr. lia.
    + unfold seal. rewrite be_bytes_be_value by (unfold len in Hg; lia). done.
  - intros [Hg ->]. rewrite unseal_seal by done. by destruct u.
Qed.
End Exact.
