(* ===== verification/ClientState.v ===== *)
(** * ClientState: what a client saves, reports and remembers
    ([tacenta-client/src/lib.rs])

    The client's errors and the kind each is reported as, the address forms,
    the contact list, and the state blob with its versions: the unsealed v2, v3
    and v4, and the sealed v5 and v6 over the envelope of [Seal]. *)

From S2P Require Import Prelude Framing Wire GroupRecords GroupClient GroupDrive Provider RelayProtocol DirectoryProtocol AccountsCodec Provisioning Seal.

(** ** Errors *)
Inductive RelayRefusal := RefTooLarge | RefQueueFull | RefUnknownRecipient.

(** A [std::io::Error] by its kind, of which [kind] looks at one. *)
Inductive NetError := NetPermissionDenied | NetOther.

Inductive ClientError :=
| CIo (e : NetError)
| CRelay (r : RelayRefusal)
| CInvalidArgument (m : String.string)
| CDirectory (r : DirResponse)
| CAccount (r : AccountResponse)
| CProvision (o : ProvisionOutcome)
| CCrypto (e : String.string)
| CProtocol (m : String.string)
| CSecureStore (m : String.string)
| CStoreUnavailable (m : String.string)
| CStateMismatch (state client : DeviceAddr)
| CDiscovery (m : String.string).

Definition client_store_err (e : SecureStoreError) : ClientError :=
  match e with Unavailable reason => CStoreUnavailable reason | Backend reason => CSecureStore reason end.

(** [Error::kind]. *)
Definition error_kind (e : ClientError) : ErrorKind :=
  match e with
  | CIo NetPermissionDenied => KIdentityMismatch
  | CIo _ => KNetwork
  | CInvalidArgument _ => KInvalidArgument
  | CDiscovery _ => KDiscovery
  | CRelay RefTooLarge => KInvalidArgument
  | CRelay RefQueueFull => KRateLimited
  | CRelay RefUnknownRecipient => KNotFound
  | CAccount response =>
      match response with
      | ReUnknownTenant => KUnknownTenant
      | SignupRefused reason =>
          match reason with
          | ReUsernameTaken => KUsernameTaken
          | ReInvalidUsername => KInvalidUsername
          | ReWeakPassword => KWeakPassword
          | ReEmailTaken | ReInvalidEmail => KSignUpRefused
          end
      | SignInRefused => KSignInRefused
      | ReRateLimited => KRateLimited
      | ServerError => KServerFailure
      | _ => KInternal
      end
  | CDirectory response =>
      match response with
      | RRejected | RDepositRejected | RUnauthorized => KIdentityMismatch
      | RNotFound | RUnregistered => KNotFound
      | RRateLimited => KRateLimited
      | RRegistrationClosed | RReservedHandle => KSignUpRefused
      | RRolledBack => KState
      | _ => KInternal
      end
  | CProvision outcome =>
      match outcome with
      | ProvisionRejected => KIdentityMismatch
      | BadSession => KSignInRefused
      | ProvisionServerError => KServerFailure
      | _ => KInternal
      end
  | CSecureStore _ => KState
  | CStoreUnavailable _ => KStoreUnavailable
  | CStateMismatch _ _ => KIdentityMismatch
  | CCrypto _ | CProtocol _ => KInternal
  end.

(** [ErrorKind::as_str]. *)
Definition error_kind_str (k : ErrorKind) : String.string :=
  match k with
  | KNetwork => "network" | KDiscovery => "discovery" | KUnknownTenant => "unknownTenant" | KUsernameTaken => "usernameTaken"
  | KInvalidUsername => "invalidUsername" | KWeakPassword => "weakPassword" | KSignUpRefused => "signUpRefused"
  | KSignInRefused => "signInRefused" | KIdentityMismatch => "identityMismatch" | KNotFound => "notFound"
  | KRateLimited => "rateLimited" | KServerFailure => "serverFailure" | KState => "state"
  | KStoreUnavailable => "storeUnavailable" | KInvalidArgument => "invalidArgument" | KInternal => "internal"
  end.

(** [crypto(e)]: the derived [Debug] of a provider error. *)
Definition debug_open_error (e : OpenError) : String.string :=
  match e with
  | OBundle => "Bundle" | OMessage => "Message" | ONoSession => "NoSession" | OIdentity => "Identity"
  | ONoPrekeys => "NoPrekeys" | OSessions => "Sessions" | OPrekeys => "Prekeys"
  end.
Definition crypto {A} (r : result OpenError A) : result ClientError A :=
  match r with Ok a => Ok a | Err e => Err (CCrypto (debug_open_error e)) end.

(** ** Addresses *)
Definition peer_address (a : DeviceAddr) : result ClientError Address :=
  d ← ok_or (CInvalidArgument "device id out of range") (u8_try_from (device a));
  Ok (mkAddress (user a) (byte_of d)).

Definition device_addr (peer : Address) : DeviceAddr := mkAddr (ad_user peer) (byte_val (ad_device peer)).

(** [From<Kind> for MessageKind]. *)
Definition message_kind (k : Kind) : MessageKind :=
  match k with Dm => KDirect | Group => KGroup | Receipt => KReceipt end.

(** ** Contacts *)
Record Contact := mkContact { co_address : DeviceAddr }.
Definition contact_handle (c : Contact) : bytes := user (co_address c).
Record Contacts := mkContacts { co_entries : list Contact }.

Definition contacts_add (cs : Contacts) (c : Contact) : Contacts :=
  if existsb (fun x => bool_decide (co_address x = co_address c)) (co_entries cs) then cs
  else mkContacts (co_entries cs ++ [c]).
Definition contacts_remove (cs : Contacts) (h : bytes) : Contacts :=
  mkContacts (filter (fun c => contact_handle c <> h) (co_entries cs)).
Definition contacts_get (cs : Contacts) (h : bytes) : option Contact :=
  snd <$> list_find (fun c => contact_handle c = h) (co_entries cs).

(** Lengths are written [as u32]. *)
Definition put_contact (c : Contact) : bytes :=
  be32 (len (contact_handle c)) ++ contact_handle c ++ be32 (device (co_address c)).
Definition contacts_to_bytes (cs : Contacts) : bytes :=
  be32 (len (co_entries cs)) ++ mjoin (put_contact <$> co_entries cs).

Definition take_contact (rest : bytes) : option (Contact * bytes) :=
  '(n, rest) ← take_u32 rest;
  '(h, rest) ← split_at_checked n rest;
  if negb (utf8_valid h) then None else
  '(d, rest) ← take_u32 rest;
  Some (mkContact (mkAddr h d), rest).
Definition contacts_from_bytes (bs : bytes) : option Contacts :=
  '(count, rest) ← take_u32 bs;
  '(entries, rest) ← take_many take_contact (Z.to_nat count) rest;
  then_some rest (mkContacts entries).

(** ** The provider a session belongs to *)
Inductive SessionProvider := Untagged | OpenTacenta.

#[global] Instance SessionProvider_eq_dec : EqDecision SessionProvider.
Proof. solve_decision. Defined.

Definition provider_to_byte (p : SessionProvider) : byte := match p with Untagged => x01 | OpenTacenta => x02 end.
Definition provider_from_byte (b : byte) : option SessionProvider :=
  if bool_decide (b = x01) then Some Untagged else if bool_decide (b = x02) then Some OpenTacenta else None.

(** [SessionProvider::of]: a name without a byte panics. *)
Definition provider_of (name : bytes) : option SessionProvider :=
  if bool_decide (name = bstr "open-tacenta") then Some OpenTacenta else None.

(** [of::<P>()] for the provider of [Provider]. *)
Definition own_provider : SessionProvider := default Untagged (provider_of PROVIDER_NAME).

(** ** The state blob *)
Definition STATE_TAGGED : byte := xff.
Definition STATE_VERSION_2 : byte := x02.
Definition STATE_VERSION_3 : byte := x03.
Definition STATE_VERSION_4 : byte := x04.
Definition STATE_VERSION_5 : byte := x05.
Definition STATE_VERSION_6 : byte := x06.

Record SplitState := mkSplit {
  sp_provider : SessionProvider; sp_identity : bytes; sp_sessions : bytes; sp_prekeys : option bytes; sp_generation : Z
}.

(** [(block.len() as u32).to_be_bytes()], then the block. *)
Definition put_lp_block (block : bytes) : bytes := be32 (len block) ++ block.
Definition take_lp (b : bytes) : option (bytes * bytes) := '(n, rest) ← take_u32 b; split_at_checked n rest.

Definition split_first (b : bytes) : option (byte * bytes) := match b with [] => None | x :: rest => Some (x, rest) end.

Definition state_truncated : ClientError := CProtocol "state blob truncated".

(** The three length-prefixed sections of v3 and v4. *)
Definition take_sections (rest : bytes) : result ClientError (bytes * bytes * bytes * bytes) :=
  '(identity, rest) ← ok_or state_truncated (take_lp rest);
  '(sessions, rest) ← ok_or state_truncated (take_lp rest);
  '(prekeys, rest) ← ok_or state_truncated (take_lp rest);
  Ok (identity, sessions, prekeys, rest).

Definition no_trailing (rest : bytes) : result ClientError unit :=
  match rest with [] => Ok tt | _ => Err (CProtocol "state blob has trailing bytes") end.

Definition split_tagged (rest : bytes) : result ClientError SplitState :=
  '(version, rest) ← ok_or state_truncated (split_first rest);
  '(tag, rest) ← ok_or state_truncated (split_first rest);
  provider ← ok_or (CProtocol "unknown session provider") (provider_from_byte tag);
  if bool_decide (version = STATE_VERSION_2) then
    '(identity, sessions) ← ok_or state_truncated (take_lp rest);
    Ok (mkSplit provider identity sessions None 0)
  else if bool_decide (version = STATE_VERSION_3) then
    '(identity, sessions, prekeys, rest) ← take_sections rest;
    _ ← no_trailing rest;
    Ok (mkSplit provider identity sessions (Some prekeys) 0)
  else if bool_decide (version = STATE_VERSION_4) then
    '(identity, sessions, prekeys, rest) ← take_sections rest;
    '(gen, rest) ← ok_or state_truncated (take_u64 rest);
    _ ← no_trailing rest;
    Ok (mkSplit provider identity sessions (Some prekeys) gen)
  else Err (CProtocol "unknown state blob version").

Definition split_state (state : bytes) : result ClientError SplitState :=
  match split_first state with
  | Some (b, rest) =>
      if bool_decide (b = STATE_TAGGED) then split_tagged rest else
      '(identity, sessions) ← ok_or state_truncated (take_lp state);
      Ok (mkSplit Untagged identity sessions None 0)
  | None =>
      '(identity, sessions) ← ok_or state_truncated (take_lp state);
      Ok (mkSplit Untagged identity sessions None 0)
  end.

(** What [export_body_v3] writes of the three parts. *)
Definition body_v3 (version : byte) (provider : SessionProvider) (identity sessions prekeys : bytes) : bytes :=
  [STATE_TAGGED; version; provider_to_byte provider] ++ put_lp_block identity ++ put_lp_block sessions ++ put_lp_block prekeys.

Definition restore_prekeys_into {engine : Engine} (p : OpenParty) (split : SplitState) : OpenParty * result ClientError unit :=
  if negb (bool_decide (sp_provider split = own_provider)) then (p, Ok tt) else
  match sp_prekeys split with
  | Some ((_ :: _) as prekeys) => let '(p, r) := import_prekeys p prekeys in (p, crypto r)
  | _ => (p, Ok tt)
  end.

(** ** The sealed state *)
Record Opened := mkOpened { op_body : bytes; op_generation : Z; op_stale : bool; op_bound : option DeviceAddr }.

Definition expect_address (o : Opened) (client : DeviceAddr) : result ClientError unit :=
  match op_bound o with
  | Some state => if negb (bool_decide (state = client)) then Err (CStateMismatch state client) else Ok tt
  | None => Ok tt
  end.

Definition expect_user (o : Opened) (identifier : bytes) (dev : Z) : result ClientError unit :=
  match op_bound o with
  | Some state =>
      if negb (device state =? dev) || negb (bool_decide (user state = identifier) || ends_with (x2f :: identifier) (user state))
      then Err (CStateMismatch state (mkAddr identifier dev)) else Ok tt
  | None => Ok tt
  end.

Definition not_sealed : ClientError := CSecureStore "not a sealed state blob".
Definition no_address : ClientError := CSecureStore "sealed state missing its address".

Definition unseal_error (e : SealError) : ClientError :=
  match e with
  | BadAuthenticator => CSecureStore "state authenticator does not match: the file was altered or the key is wrong"
  | SealTooShort => CSecureStore "sealed state is truncated"
  | SealUnknownVersion => CSecureStore "sealed state envelope version"
  end.

Definition lift_err {E A} (f : E -> ClientError) (r : result E A) : result ClientError A := match r with Ok a => Ok a | Err e => Err (f e) end.

(** The address a v6 body leads with. *)
Definition take_bound (body : bytes) : result ClientError (DeviceAddr * bytes) :=
  '(n, rest) ← ok_or no_address (take_u32 body);
  '(u, rest) ← ok_or no_address (split_at_checked n rest);
  '(d, rest) ← ok_or no_address (take_u32 rest);
  if negb (utf8_valid u) then Err no_address else Ok (mkAddr u d, rest).

(** The payload, split into the body, its counter and its address. *)
Definition open_payload (version : byte) (payload : bytes) : result ClientError (option DeviceAddr * bytes * Z) :=
  split_at ← ok_or (CSecureStore "sealed state missing its rollback counter") (checked_sub (len payload) 8);
  let body := take (Z.to_nat split_at) payload in
  let counter := be_value (drop (Z.to_nat split_at) payload) in
  if bool_decide (version = STATE_VERSION_6) then
    '(bound, body) ← take_bound body; Ok (Some bound, body, counter)
  else Ok (None, body, counter).

Section Sealed.
Context {mac : Mac} {secure : SecureStore}.

Definition open_sealed (s : Store) (state : bytes) : Store * result ClientError Opened :=
  match split_first state with
  | Some (b, rest) =>
      if negb (bool_decide (b = STATE_TAGGED)) then (s, Err not_sealed) else
      match split_first rest with
      | None => (s, Err state_truncated)
      | Some (version, sealed) =>
          if negb (bool_decide (version = STATE_VERSION_5)) && negb (bool_decide (version = STATE_VERSION_6)) then (s, Err not_sealed) else
          let '(s, key) := wrap_key s in
          match (key ← lift_err client_store_err key;
                 opened ← lift_err unseal_error (unseal key sealed);
                 '(bound, body, counter) ← open_payload version (us_payload opened);
                 Ok (us_generation opened, bound, body, counter)) with
          | Err e => (s, Err e)
          | Ok (generation, bound, body, counter) =>
              let '(s, highest) := rollback_counter s in
              (s, highest ← lift_err client_store_err highest; Ok (mkOpened body generation (counter <? highest) bound))
          end
      end
  | None => (s, Err not_sealed)
  end.

(** What [export_state_sealed] writes of its parts. *)
Definition sealed_payload (me : DeviceAddr) (body : bytes) (counter : Z) : bytes :=
  put_lp_block (user me) ++ be32 (device me) ++ body ++ be64 counter.
Definition sealed_blob (key : bytes) (me : DeviceAddr) (body : bytes) (generation counter : Z) : bytes :=
  [STATE_TAGGED; STATE_VERSION_6] ++ seal key generation (sealed_payload me body counter).
End Sealed.

(** ** The formats are exact *)
Definition lp_fits (b : bytes) : Prop := len b <= u32_max.

Lemma take_put_lp b rest : lp_fits b -> take_lp (put_lp_block b ++ rest) = Some (b, rest).
Proof. apply take_block. Qed.

Lemma take_lp_inv bs b rest : take_lp bs = Some (b, rest) -> bs = put_lp_block b ++ rest /\ lp_fits b.
Proof.
  unfold take_lp. intros H. inv_bind. apply take_u32_inv in E as [Hz ->].
  apply split_at_checked_Some in H as [-> <-]; [|unfold u32_wf in Hz; lia]. split; [unfold put_lp_block; by rewrite <- app_assoc|unfold u32_wf in Hz; unfold lp_fits; lia].
Qed.

Lemma provider_from_to p : provider_from_byte (provider_to_byte p) = Some p.
Proof. by destruct p. Qed.

Lemma take_sections_app i s k rest : lp_fits i -> lp_fits s -> lp_fits k ->
  take_sections (put_lp_block i ++ put_lp_block s ++ put_lp_block k ++ rest) = Ok (i, s, k, rest).
Proof. intros Hi Hs Hk. unfold take_sections. by rewrite !take_put_lp by done; cbn [ok_or mbind result_bind]; rewrite !take_put_lp by done; cbn [ok_or mbind result_bind]; rewrite !take_put_lp by done. Qed.

(** A body written as v3 and one written as v4 with its generation. *)
Lemma split_body_v3 p i s k : lp_fits i -> lp_fits s -> lp_fits k ->
  split_state (body_v3 STATE_VERSION_3 p i s k) = Ok (mkSplit p i s (Some k) 0).
Proof.
  intros Hi Hs Hk. unfold split_state, body_v3. cbn [app split_first]. rewrite bool_decide_eq_true_2 by done.
  unfold split_tagged. cbn [split_first ok_or mbind result_bind]. rewrite provider_from_to. cbn [ok_or mbind result_bind].
  rewrite bool_decide_eq_false_2 by done. rewrite bool_decide_eq_true_2 by done.
  rewrite <- (app_nil_r (put_lp_block k)), take_sections_app by done. done.
Qed.

Lemma split_body_v4 p i s k g : lp_fits i -> lp_fits s -> lp_fits k -> u64_wf g ->
  split_state (body_v3 STATE_VERSION_4 p i s k ++ be64 g) = Ok (mkSplit p i s (Some k) g).
Proof.
  intros Hi Hs Hk Hg. unfold split_state, body_v3. cbn [app split_first]. rewrite bool_decide_eq_true_2 by done.
  unfold split_tagged. cbn [split_first ok_or mbind result_bind]. rewrite provider_from_to. cbn [ok_or mbind result_bind].
  rewrite !bool_decide_eq_false_2 by done. rewrite bool_decide_eq_true_2 by done.
  rewrite <- !app_assoc, take_sections_app by done. cbn [ok_or mbind result_bind].
  rewrite <- (app_nil_r (be64 g)), take_u64_app by done. done.
Qed.

(** A contact list and its bytes determine each other. *)
Definition contact_wf (c : Contact) : Prop := addr_wf (co_address c) /\ lp_fits (contact_handle c).

#[global] Instance frames_contact : Frames contact_wf (fun c => Some (put_contact c)) take_contact.
Proof.
  split.
  - intros [[h d]] bs rest [[Hu Hd] Hl] [= <-]. unfold take_contact, put_contact, contact_handle in *. cbn in *.
    rewrite <- !app_assoc. change (be32 (len h)) with (put_u32 (len h)). change (be32 d) with (put_u32 d).
    rewrite take_u32_app by (split; [apply len_nonneg|exact Hl]). cbn [mbind option_bind]. rewrite split_at_checked_app by done. cbn [mbind option_bind].
    rewrite Hu. cbn [negb]. by rewrite take_u32_app.
  - intros input c rest H. unfold take_contact in H. inv_bind. apply take_u32_inv in E as [Hn ->].
    apply split_at_checked_Some in E0 as [-> <-]; [|unfold u32_wf in Hn; lia]. apply negb_false_iff in G.
    apply take_u32_inv in E1 as [Hd ->]. split; [split; [split; [done|exact Hd]|exact (proj2 Hn)]|]. eexists. split; [done|].
    unfold put_contact, contact_handle. cbn. by rewrite <- !app_assoc.
Qed.

Definition contacts_fit (cs : Contacts) : Prop := Forall contact_wf (co_entries cs) /\ len (co_entries cs) <= u32_max.

Lemma put_many_contacts l : put_many (fun c => Some (put_contact c)) l = Some (mjoin (put_contact <$> l)).
Proof.
  induction l as [|c l IH]; [done|]. apply put_many_cons. exists (put_contact c), (mjoin (put_contact <$> l)). done.
Qed.

Lemma contacts_exact bs cs : contacts_from_bytes bs = Some cs <-> contacts_fit cs /\ bs = contacts_to_bytes cs.
Proof.
  unfold contacts_from_bytes, contacts_to_bytes. split.
  - intros H. inv_bind. apply then_some_Some in H as [-> <-]. apply take_u32_inv in E as [Hn ->]. apply put_many_take in E0 as (Hl & Hw & b & Hb & ->).
    rewrite put_many_contacts in Hb. injection Hb as <-. cbn.
    assert (len l0 = z) as <- by (unfold len; unfold u32_wf in Hn; lia). split; [split; [done|exact (proj2 Hn)]|]. by rewrite app_nil_r.
  - intros [[Hw Hl] ->]. change (be32 (len (co_entries cs))) with (put_u32 (len (co_entries cs))).
    rewrite take_u32_app by (split; [apply len_nonneg|exact Hl]). cbn [mbind option_bind]. rewrite to_nat_len.
    rewrite <- (app_nil_r (mjoin _)). rewrite (take_many_put (co_entries cs) _ [] Hw (put_many_contacts _)). cbn. by destruct cs.
Qed.

(** The address and the counter of a payload. *)
Lemma take_bound_app a body : addr_wf a -> lp_fits (user a) ->
  take_bound (put_lp_block (user a) ++ be32 (device a) ++ body) = Ok (a, body).
Proof.
  intros [Hu Hd] Hl. unfold take_bound, put_lp_block. rewrite <- app_assoc. change (be32 (len (user a))) with (put_u32 (len (user a))).
  rewrite take_u32_app by (split; [apply len_nonneg|exact Hl]). cbn [ok_or mbind result_bind]. rewrite split_at_checked_app by done. cbn [ok_or mbind result_bind].
  change (be32 (device a)) with (put_u32 (device a)). rewrite take_u32_app by done. cbn [ok_or mbind result_bind]. rewrite Hu. by destruct a.
Qed.

Lemma take_bound_inv body a rest : take_bound body = Ok (a, rest) ->
  addr_wf a /\ lp_fits (user a) /\ body = put_lp_block (user a) ++ be32 (device a) ++ rest.
Proof.
  unfold take_bound. intros H. destruct (take_u32 body) as [[n r1]|] eqn:E1; [|done]. cbn [ok_or mbind result_bind] in H.
  destruct (split_at_checked n r1) as [[u r2]|] eqn:E2; [|done]. cbn [ok_or mbind result_bind] in H.
  destruct (take_u32 r2) as [[d r3]|] eqn:E3; [|done]. cbn [ok_or mbind result_bind] in H.
  destruct (utf8_valid u) eqn:Eu; [|done]. cbn [negb] in H. injection H as <- <-.
  apply take_u32_inv in E1 as [Hn ->], E3 as [Hd ->]. apply split_at_checked_Some in E2 as [-> <-]; [|unfold u32_wf in Hn; lia].
  split; [split; [done|exact Hd]|]. split; [exact (proj2 Hn)|]. cbn [user device]. unfold put_lp_block. by rewrite <- app_assoc.
Qed.

Lemma open_payload_exact version payload bound body counter :
  open_payload version payload = Ok (bound, body, counter) <->
  u64_wf counter /\
  match bound with
  | Some a => version = STATE_VERSION_6 /\ addr_wf a /\ lp_fits (user a) /\ payload = sealed_payload a body counter
  | None => version <> STATE_VERSION_6 /\ payload = body ++ be64 counter
  end.
Proof.
  assert (forall front c, u64_wf c -> open_payload version (front ++ be64 c) =
    if bool_decide (version = STATE_VERSION_6) then '(bound, body) ← take_bound front; Ok (Some bound, body, c) else Ok (None, front, c)) as Hopen.
  { intros front c Hc. unfold open_payload. rewrite len_app, len_be_bytes. unfold checked_sub.
    destruct (Z.leb_spec 8 (len front + Z.of_nat 8)); [|pose proof (len_nonneg front); lia]. cbn [ok_or mbind result_bind].
    replace (len front + Z.of_nat 8 - 8) with (len front) by lia. rewrite to_nat_len, take_app_length, drop_app_length.
    rewrite be_value_be_bytes by (unfold u64_wf, u64_max in Hc; change (256 ^ Z.of_nat 8) with 18446744073709551616; lia). done. }
  split.
  - intros H. assert (exists front, u64_wf (be_value (drop (length front) payload)) /\ payload = front ++ be64 (be_value (drop (length front) payload))) as (front & Hc & Hp).
    { unfold open_payload, checked_sub in H. destruct (Z.leb_spec 8 (len payload)) as [Hl|]; [|done].
      exists (take (length payload - 8) payload). rewrite length_take. replace ((length payload - 8) `min` length payload)%nat with (length payload - 8)%nat by lia.
      set (tail := drop (length payload - 8) payload). assert (length tail = 8%nat) as H8 by (unfold tail, len in *; rewrite length_drop; lia).
      pose proof (be_value_range tail) as Hr. unfold len in Hr. rewrite H8 in Hr. split; [unfold u64_wf, u64_max; change (256 ^ Z.of_nat 8) with 18446744073709551616 in Hr; lia|].
      rewrite be_bytes_be_value by done. unfold tail. by rewrite take_drop. }
    set (c := be_value (drop (length front) payload)) in *. rewrite Hp in H. rewrite Hopen in H by done. rewrite Hp.
    destruct (bool_decide_reflect (version = STATE_VERSION_6)) as [->|Hv].
    + destruct (take_bound front) as [[a b]|] eqn:Eb; [|done]. cbn [mbind result_bind] in H. injection H as <- <- <-.
      apply take_bound_inv in Eb as (Ha & Hl & ->). split; [exact Hc|]. split; [done|]. split; [exact Ha|]. split; [exact Hl|]. unfold sealed_payload. by rewrite <- !app_assoc.
    + injection H as <- <- <-. done.
  - intros [Hc H]. destruct bound as [a|].
    + destruct H as (-> & Ha & Hl & ->). unfold sealed_payload. rewrite !app_assoc, Hopen by done. rewrite bool_decide_eq_true_2 by done.
      rewrite <- !app_assoc, take_bound_app by done. done.
    + destruct H as [Hv ->]. rewrite Hopen by done. by rewrite bool_decide_eq_false_2.
Qed.

Section Opening.
Context {mac : Mac} {secure : SecureStore} {laws : SecureStoreLaws} (s s1 s2 : Store) (key : bytes) (highest : Z).
Context (Hk : wrap_key s = (s1, Ok key)) (Hc : rollback_counter s1 = (s2, Ok highest)).

Lemma store_answers : install_key s2 = install_key s /\ committed s2 = committed s /\ key = install_key s /\ highest = committed s /\
  install_key s1 = install_key s /\ committed s1 = committed s.
Proof.
  apply wrap_key_law in Hk as (Hk1 & Hc1 & -> & Hlen). apply rollback_counter_law in Hc as (Hk2 & Hc2 & ->).
  split_and!; congruence.
Qed.

Definition sealed_version (version : byte) : Prop := version = STATE_VERSION_5 \/ version = STATE_VERSION_6.

Lemma open_sealed_tagged version sealed : sealed_version version ->
  open_sealed s (STATE_TAGGED :: version :: sealed) =
  match (opened ← lift_err unseal_error (unseal (install_key s) sealed); open_payload version (us_payload opened) ≫= fun p => Ok (us_generation opened, p)) with
  | Ok (g, (bound, body, counter)) => (s2, Ok (mkOpened body g (counter <? committed s) bound))
  | Err e => (s1, Err e)
  end.
Proof.
  intros Hv. destruct store_answers as (_ & _ & Hkey & Hhigh & _ & _).
  unfold open_sealed. cbn [split_first]. rewrite bool_decide_eq_true_2 by done. cbn [negb].
  assert (negb (bool_decide (version = STATE_VERSION_5)) && negb (bool_decide (version = STATE_VERSION_6)) = false) as -> by (by destruct Hv as [-> | ->]).
  rewrite Hk. cbn [lift_err mbind result_bind]. rewrite Hkey. destruct (unseal (install_key s) sealed) as [u|e]; [|done]. cbn [lift_err mbind result_bind].
  destruct (open_payload version (us_payload u)) as [[[bound body] counter]|e]; [|done]. cbn [mbind result_bind]. rewrite Hc. cbn [lift_err mbind result_bind].
  by rewrite Hhigh.
Qed.

(** The payload of what was opened. *)
Definition payload_of (o : Opened) (counter : Z) : bytes :=
  match op_bound o with Some a => sealed_payload a (op_body o) counter | None => op_body o ++ be64 counter end.
Definition bound_as (version : byte) (o : Opened) : Prop :=
  match op_bound o with Some a => version = STATE_VERSION_6 /\ addr_wf a /\ lp_fits (user a) | None => version = STATE_VERSION_5 end.

Lemma open_sealed_iff version sealed o : sealed_version version ->
  (open_sealed s (STATE_TAGGED :: version :: sealed)).2 = Ok o <->
  exists counter, u64_wf (op_generation o) /\ op_stale o = (counter <? committed s) /\
    sealed = seal (install_key s) (op_generation o) (payload_of o counter) /\ u64_wf counter /\ bound_as version o.
Proof.
  intros Hv. rewrite open_sealed_tagged by done. unfold payload_of, bound_as. split.
  - destruct (unseal (install_key s) sealed) as [u|e] eqn:Eu; [|done]. cbn [lift_err mbind result_bind]. apply unseal_exact in Eu as [Hg ->].
    destruct (open_payload version (us_payload u)) as [[[bound body] counter]|e] eqn:Ep; [|done]. cbn [mbind result_bind]. intros [= <-].
    apply open_payload_exact in Ep as [Hcw Hb]. exists counter. cbn. destruct bound as [a|].
    + destruct Hb as (-> & Ha & Hl & <-). done.
    + destruct Hb as (Hv' & <-). split_and!; try done; [apply Hcw..|]. by destruct Hv.
  - intros (counter & Hg & Hst & -> & Hcw & Hb). rewrite unseal_seal by done. cbn [lift_err mbind result_bind us_payload us_generation].
    destruct o as [body g st bound]. cbn in *. subst st.
    assert (open_payload version (match bound with Some a => sealed_payload a body counter | None => body ++ be64 counter end) = Ok (bound, body, counter)) as ->; [|done].
    apply open_payload_exact. split; [done|]. destruct bound as [a|]; [destruct Hb as (-> & Ha & Hl); done|by subst version].
Qed.

(** What opens at all has the shape of a sealed blob. *)
Lemma open_sealed_shape state o : (open_sealed s state).2 = Ok o ->
  exists version sealed, state = STATE_TAGGED :: version :: sealed /\ sealed_version version.
Proof.
  intros H. destruct state as [|b [|version sealed]]; [done| |].
  { unfold open_sealed in H. cbn [split_first] in H. by destruct (negb (bool_decide (b = STATE_TAGGED))). }
  exists version, sealed. unfold open_sealed in H. cbn [split_first] in H. destruct (bool_decide_reflect (b = STATE_TAGGED)) as [->|]; [|done]. split; [done|].
  cbn [negb] in H. destruct (bool_decide_reflect (version = STATE_VERSION_5)); [by left|]. destruct (bool_decide_reflect (version = STATE_VERSION_6)); [by right|done].
Qed.
End Opening.

(** Opening writes nothing to the store. *)
Lemma open_sealed_store {mac : Mac} {secure : SecureStore} {laws : SecureStoreLaws} s state :
  install_key (open_sealed s state).1 = install_key s /\ committed (open_sealed s state).1 = committed s.
Proof.
  unfold open_sealed. destruct (split_first state) as [[b rest]|]; [|done]. destruct (negb _); [done|].
  destruct (split_first rest) as [[version sealed]|]; [|done]. destruct (_ && _); [done|].
  destruct (wrap_key s) as [s1 key] eqn:Ek. apply wrap_key_law in Ek as (K1 & C1 & _).
  destruct (mbind _ _) as [[[[g bound] body] counter]|e]; [|done].
  destruct (rollback_counter s1) as [s2 h] eqn:Ec. apply rollback_counter_law in Ec as (K2 & C2 & _). cbn. by rewrite K2, C2, K1, C1.
Qed.

(** The user is compared as it was typed: the server's account name is in lower
    case, so a state sealed for it is refused to a sign-in that spells it
    otherwise, which the server would have accepted. *)
Lemma expect_user_spelling :
  let o := mkOpened [] 0 false (Some (mkAddr (bstr "acme/alice") 1)) in
  expect_user o (bstr "alice") 1 = Ok tt /\ expect_user o (bstr "Alice") 1 = Err (CStateMismatch (mkAddr (bstr "acme/alice") 1) (mkAddr (bstr "Alice") 1)).
Proof. split; vm_compute; reflexivity. Qed.


(** ** A store and an authenticator for the witnesses *)
#[global] Instance sample_mac : Mac.
Proof.
  refine {| hmac := fun k m => replicate 32 (byte_of (fold_left (fun a b => (31 * a + byte_val b) mod 251) (k ++ m) 7)) |}.
  intros k m. unfold len. by rewrite length_replicate.
Defined.

(** The counter is all a sample store holds. *)
#[global] Instance sample_secure : SecureStore := {|
  Store := Z;
  wrap_key := fun s => (s, Ok (replicate 32 x5a));
  rollback_counter := fun s => (s, Ok (s mod 2 ^ 64));
  bump_rollback_counter := fun s => if s mod 2 ^ 64 =? u64_max then (s, Err (Backend "exhausted")) else (s mod 2 ^ 64 + 1, Ok (s mod 2 ^ 64 + 1))
|}.

#[global] Instance sample_secure_laws : SecureStoreLaws.
Proof.
  refine {| install_key := fun _ => replicate 32 x5a; committed := fun s : @Store sample_secure => (s : Z) mod 2 ^ 64 |}.
  - intros s. pose proof (Z.mod_pos_bound s (2 ^ 64)). unfold u64_wf, u64_max. lia.
  - by intros s s' r [= <- <-].
  - by intros s s' r [= <- <-].
  - intros s s' r. cbn [bump_rollback_counter sample_secure]. pose proof (Z.mod_pos_bound s (2 ^ 64)) as Hb. destruct (Z.eqb_spec (s mod 2 ^ 64) u64_max) as [|Hm]; intros [= <- <-].
    + split; [done|]. lia.
    + split; [done|]. unfold u64_max in Hm. rewrite (Z.mod_small (s mod 2 ^ 64 + 1)) by lia. lia.
Defined.

