(* ===== verification/PairwiseClient.v ===== *)
(** * PairwiseClient: one connected client
    ([tacenta-client/src/lib.rs], [operations.rs])

    The client over its party, its two connections and the platform's secure
    store: connecting, sending, receiving, exporting and restoring.  The network
    is a parameter: what it answers is a function of everything the client did
    before, which the model keeps as a log, together with every counter the
    secure store committed, so that what reached the wire can be compared with
    what was recorded first.  A call runs to its end: dropped futures are the
    business of [Connection]. *)

From S2P Require Import Prelude Framing Wire Relay RelayProtocol DirectoryProtocol DirServer AccountsCodec Provisioning.
From S2P Require Import GroupRecords GroupClient GroupDrive Provider Seal ClientState.
From stdpp Require Import pretty.
#[local] Open Scope Z_scope.

(** ** Actions

    A call returns, fails with a [ClientError], or panics (an [expect], or a [u64]
    that overflows). *)
Inductive outcome (A : Type) := Done (a : A) | Failed (e : ClientError) | Panicked.
Arguments Done {A}.
Arguments Failed {A}.
Arguments Panicked {A}.

Definition M (St A : Type) : Type := St -> St * outcome A.

#[global] Instance act_ret {St} : MRet (M St) := fun A a st => (st, Done a).
#[global] Instance act_bind {St} : MBind (M St) := fun A B k m st =>
  match m st with
  | (st, Done a) => k a st
  | (st, Failed e) => (st, Failed e)
  | (st, Panicked) => (st, Panicked)
  end.

Definition fail {St A} (e : ClientError) : M St A := fun st => (st, Failed e).
Definition of_result {St A} (r : result ClientError A) : M St A := fun st => (st, match r with Ok a => Done a | Err e => Failed e end).
(** [expect]. *)
Definition expect {St A} (o : option A) : M St A := fun st => (st, match o with Some a => Done a | None => Panicked end).
(** The [Result] of a call, looked at instead of passed on. *)
Definition attempt {St A} (m : M St A) : M St (result ClientError A) := fun st =>
  match m st with
  | (st, Done a) => (st, Done (Ok a))
  | (st, Failed e) => (st, Done (Err e))
  | (st, Panicked) => (st, Panicked)
  end.

(** ** The world *)
Inductive Service := SvDirectory | SvRelay | SvAccounts | SvProvisioning.
Abbreviation Endpoint := bytes (only parsing).

Inductive Event :=
| EDial (service : Service) (ep : Endpoint)
| EFrame (conn : nat) (frame : bytes)
| ERelay (conn : nat) (request : bytes)
| ECounter (advanced : Z)
| ESleep (seconds : Z).

(** What the services answer: a dial, the frame a service opens with, the
    frame that answers a frame ([None]: the stream ended), and
    [Connection::request]. *)
Class Network := {
  nw_dial : list Event -> Service -> Endpoint -> result NetError unit;
  nw_challenge : list Event -> nat -> result NetError (option bytes);
  nw_exchange : list Event -> nat -> bytes -> result NetError (option bytes);
  nw_request : list Event -> nat -> bytes -> result NetError bytes
}.

Record DirConn := mkDirConn { dc_id : nat; dc_challenge : bytes }.

Inductive RestoreOutcome := RestoreFresh | RestoreResumed | SessionsDiscarded.

Record ClientConfig := mkClientConfig { cf_directory : Endpoint; cf_relay : Endpoint; cf_user : bytes; cf_device : byte }.
Record AccountConfig := mkAccountConfig {
  ac_directory : Endpoint; ac_relay : Endpoint; ac_accounts : Endpoint; ac_provisioning : Endpoint;
  ac_api_key : bytes; ac_identifier : bytes; ac_password : bytes; ac_device : byte
}.

(** [MAX_ENVELOPE_BYTES - 1024]. *)
Definition MAX_MESSAGE_BYTES : Z := MAX_ENVELOPE_BYTES - 1024.

Section Client.
Context {engine : Engine} {mac : Mac} {secure : SecureStore} {net : Network}.
(** What the random source gives, draw by draw. *)
Context (draws : nat -> Draw).

Record World := mkWorld { w_log : list Event; w_draws : nat; w_store : Store }.

(** [secure_store] is whether the world's store is attached; the dialer and
    the mail signal are the network's. *)
Record Client := mkClient {
  cl_party : OpenParty; cl_directory : DirConn; cl_relay : nat; cl_me : DeviceAddr; cl_sessions : gset DeviceAddr;
  cl_directory_ep : Endpoint; cl_relay_ep : Endpoint; cl_provider : SessionProvider; cl_generation : Z; cl_attached : bool;
  cl_restore : RestoreOutcome; cl_counter_seen : Z
}.

Definition with_party (c : Client) (p : OpenParty) : Client :=
  mkClient p (cl_directory c) (cl_relay c) (cl_me c) (cl_sessions c) (cl_directory_ep c) (cl_relay_ep c) (cl_provider c) (cl_generation c)
    (cl_attached c) (cl_restore c) (cl_counter_seen c).
Definition with_connections (c : Client) (d : DirConn) (r : nat) : Client :=
  mkClient (cl_party c) d r (cl_me c) (cl_sessions c) (cl_directory_ep c) (cl_relay_ep c) (cl_provider c) (cl_generation c)
    (cl_attached c) (cl_restore c) (cl_counter_seen c).
Definition with_sessions (c : Client) (s : gset DeviceAddr) : Client :=
  mkClient (cl_party c) (cl_directory c) (cl_relay c) (cl_me c) s (cl_directory_ep c) (cl_relay_ep c) (cl_provider c) (cl_generation c)
    (cl_attached c) (cl_restore c) (cl_counter_seen c).
Definition with_provider (c : Client) (p : SessionProvider) : Client :=
  mkClient (cl_party c) (cl_directory c) (cl_relay c) (cl_me c) (cl_sessions c) (cl_directory_ep c) (cl_relay_ep c) p (cl_generation c)
    (cl_attached c) (cl_restore c) (cl_counter_seen c).
Definition with_generation (c : Client) (g : Z) : Client :=
  mkClient (cl_party c) (cl_directory c) (cl_relay c) (cl_me c) (cl_sessions c) (cl_directory_ep c) (cl_relay_ep c) (cl_provider c) g
    (cl_attached c) (cl_restore c) (cl_counter_seen c).
Definition with_store (c : Client) (attached : bool) (seen : Z) : Client :=
  mkClient (cl_party c) (cl_directory c) (cl_relay c) (cl_me c) (cl_sessions c) (cl_directory_ep c) (cl_relay_ep c) (cl_provider c) (cl_generation c)
    attached (cl_restore c) seen.
Definition with_restore (c : Client) (r : RestoreOutcome) : Client :=
  mkClient (cl_party c) (cl_directory c) (cl_relay c) (cl_me c) (cl_sessions c) (cl_directory_ep c) (cl_relay_ep c) (cl_provider c) (cl_generation c)
    (cl_attached c) r (cl_counter_seen c).

(** ** Primitive steps *)
Definition CState : Type := Client * World.

Definition emit (e : Event) : M World unit := fun w => (mkWorld (w_log w ++ [e]) (w_draws w) (w_store w), Done tt).
Definition log : M World (list Event) := fun w => (w, Done (w_log w)).
Definition draw : M World Draw := fun w => (mkWorld (w_log w) (S (w_draws w)) (w_store w), Done (draws (w_draws w))).
Definition io {A} (r : result NetError A) : M World A := of_result (lift_err CIo r).

Definition store_call {A} (f : Store -> Store * result SecureStoreError A) : M World A := fun w =>
  let '(s, r) := f (w_store w) in
  (mkWorld (w_log w) (w_draws w) s, match r with Ok a => Done a | Err e => Failed (client_store_err e) end).

(** A bump that the store says it committed is logged. *)
Definition bump_counter : M World Z := c ← store_call bump_rollback_counter; emit (ECounter c);; mret c.

Definition on_world {A} (m : M World A) : M CState A := fun st => let '(w, r) := m st.2 in ((st.1, w), r).
Definition self : M CState Client := fun st => (st, Done st.1).
Definition modify (f : Client -> Client) : M CState unit := fun st => ((f st.1, st.2), Done tt).
(** A [&mut] call on the party. *)
Definition call_party {A} (f : OpenParty -> OpenParty * result OpenError A) : M CState A := fun st =>
  let '(p, r) := f (cl_party st.1) in
  ((with_party st.1 p, st.2), match crypto r with Ok a => Done a | Err e => Failed e end).

(** ** Connections *)
(** A dialed connection is known by the length the log had. *)
Definition dial (service : Service) (ep : Endpoint) : M World nat :=
  l ← log; emit (EDial service ep);; io (nw_dial l service ep);; mret (length l).

(** The frame a service opens with. *)
Definition challenge (conn : nat) : M World bytes :=
  l ← log; frame ← io (nw_challenge l conn); of_result (ok_or (CIo NetOther) frame).

(** A frame written, and the frame read back. *)
Definition exchange (conn : nat) (frame : bytes) : M World (option bytes) :=
  l ← log; emit (EFrame conn frame);; io (nw_exchange l conn frame).

(** No answer and an answer that does not decode are both [Io] errors. *)
Definition decoded {A} (decode : bytes -> option A) (answer : option bytes) : M World A :=
  of_result (ok_or (CIo NetOther) (answer ≫= decode)).

Definition dial_directory (ep : Endpoint) : M World DirConn :=
  conn ← dial SvDirectory ep; ch ← challenge conn; mret (mkDirConn conn ch).
Definition dial_provisioning (ep : Endpoint) : M World DirConn :=
  conn ← dial SvProvisioning ep; ch ← challenge conn; mret (mkDirConn conn ch).

Definition dir_exchange (d : DirConn) (request : DirRequest) : M World DirResponse :=
  frame ← expect (encode_dir_request request);
  answer ← exchange (dc_id d) frame;
  of_result (lift_err (fun _ => CIo NetOther) (exchange_answer answer)).

(** [Connection::establish_with_signal]: anything but the accepting byte is
    [PermissionDenied]. *)
Definition dial_relay (ep : Endpoint) (me : DeviceAddr) (party : OpenParty) : M World nat :=
  conn ← dial SvRelay ep;
  ch ← challenge conn;
  d ← draw;
  frame ← expect (encode_auth me (sign_challenge party ch d));
  answer ← exchange conn frame;
  if bool_decide (answer = Some [x01]) then mret conn else fail (CIo NetPermissionDenied).

Definition relay_request (conn : nat) (request : bytes) : M World bytes :=
  l ← log; emit (ERelay conn request);; io (nw_request l conn request).

(** Dial first, replace after: a failed dial leaves the old connections. *)
Definition reconnect : M CState unit :=
  c ← self;
  directory ← on_world (dial_directory (cl_directory_ep c));
  relay ← on_world (dial_relay (cl_relay_ep c) (cl_me c) (cl_party c));
  modify (fun c => with_connections c directory relay).

(** The jitter on a delay is left out. *)
Fixpoint patience (attempts : nat) (delay : Z) (outcome : result ClientError unit) : M CState unit :=
  match attempts, outcome with
  | O, _ | _, Ok _ => of_result outcome
  | S attempts, Err _ =>
      on_world (emit (ESleep delay));;
      outcome ← attempt reconnect;
      patience attempts (2 * delay) outcome
  end.
Definition reconnect_with_patience : M CState unit := outcome ← attempt reconnect; patience 4 1 outcome.

(** ** The counter and the sessions *)
Definition no_advance (advanced seen : Z) : ClientError :=
  CSecureStore ("the secure store's rollback counter did not advance (" +:+ pretty advanced +:+ " after " +:+ pretty seen +:+ ")").

Definition commit_ratchet_advance : M CState unit :=
  c ← self;
  if cl_attached c then
    advanced ← on_world bump_counter;
    if advanced <=? cl_counter_seen c then fail (no_advance advanced (cl_counter_seen c))
    else modify (fun c => with_store c true advanced)
  else mret tt.

Definition attach_secure_store : M CState unit :=
  c ← self;
  if cl_attached c then fail (CInvalidArgument "a secure store is already attached; a client takes one store for its life")
  else
    seen ← on_world (store_call rollback_counter);
    modify (fun c => with_store c true seen).

Definition has_open_session (c : Client) (peer : DeviceAddr) : bool := bool_decide (peer ∈ cl_sessions c).

(** [if self.sessions.insert(..) { self.state_generation += 1 }]. *)
Definition note_session (a : DeviceAddr) : M CState unit :=
  c ← self;
  if bool_decide (a ∈ cl_sessions c) then mret tt
  else
    modify (fun c => with_sessions c ({[a]} ∪ cl_sessions c));;
    g ← expect (checked_add64 (cl_generation c) 1);
    modify (fun c => with_generation c g).

Definition discard_sessions : M CState unit :=
  modify (fun c => with_restore (with_sessions (with_party c (clear_sessions (cl_party c))) ∅) SessionsDiscarded).

(** ** Sending *)
Definition fetch_bundle (to : DeviceAddr) : M CState (bytes * bytes) :=
  c ← self;
  response ← on_world (dir_exchange (cl_directory c) (lookup_request to));
  match response with
  | RFound identity bundle => mret (identity, bundle)
  | _ => fail (CRelay RefUnknownRecipient)
  end.

(** The lookup of a first contact, once more after a reconnect when the
    connection was gone. *)
Definition lookup_bundle (to : DeviceAddr) : M CState (bytes * bytes) :=
  r ← attempt (fetch_bundle to);
  match r with
  | Err (CIo _) => reconnect_with_patience;; fetch_bundle to
  | other => of_result other
  end.

Definition establish_for (to : DeviceAddr) (peer : Address) (bundle identity : bytes) : M CState unit :=
  d ← on_world draw;
  call_party (fun p => establish_session_for p peer bundle identity d);;
  note_session to.

(** [PreparedSend]: the request's bytes. *)
Definition prepared_send (to : DeviceAddr) (k : Kind) (payload : bytes) : M CState bytes :=
  expect (encode_request (Send to (mkEnvelope k payload))).

Definition ensure_session (to : DeviceAddr) (peer : Address) : M CState unit :=
  c ← self;
  if bool_decide (to ∈ cl_sessions c) then mret tt
  else '(peer_identity, peer_bundle) ← lookup_bundle to; establish_for to peer peer_bundle peer_identity.

Definition prepare_send_as (to : DeviceAddr) (message : bytes) (k : Kind) : M CState bytes :=
  if len message >? MAX_MESSAGE_BYTES then fail (CInvalidArgument "message exceeds the relay's per-message size limit") else
  peer ← of_result (peer_address to);
  ensure_session to peer;;
  d ← on_world draw;
  framed ← call_party (fun p => encrypt p peer message d);
  commit_ratchet_advance;;
  prepared_send to k framed.

(** The same bytes once more after a reconnect. *)
Definition dispatch_prepared_send (prepared : bytes) : M CState unit :=
  c ← self;
  r ← attempt (on_world (relay_request (cl_relay c) prepared));
  resp ← match r with
         | Err _ => reconnect_with_patience;; c ← self; on_world (relay_request (cl_relay c) prepared)
         | Ok resp => mret resp
         end;
  match decode_response resp with
  | Some RespOk => mret tt
  | Some RespTooLarge => fail (CRelay RefTooLarge)
  | Some RespQueueFull => fail (CRelay RefQueueFull)
  | Some UnknownRecipient => fail (CRelay RefUnknownRecipient)
  | _ => fail (CProtocol "send was not accepted")
  end.

Definition send_as (to : DeviceAddr) (message : bytes) (k : Kind) : M CState unit :=
  prepared ← prepare_send_as to message k; dispatch_prepared_send prepared.
Definition send (to : DeviceAddr) (message : bytes) : M CState unit := send_as to message Dm.

(** ** Exporting *)
(** The peers of the sessions, in the order of their address. *)
Definition session_peers (c : Client) : list Address :=
  sort_by address_cmp (omap (fun a => match peer_address a with Ok peer => Some peer | Err _ => None end) (elements (cl_sessions c))).

Definition state_body (version : byte) (c : Client) : bytes :=
  body_v3 version (cl_provider c) (export_identity (cl_party c)) (export_sessions (cl_party c) (session_peers c))
    (default [] (export_prekeys (cl_party c))).

Definition export_body_v3 (c : Client) : bytes := state_body STATE_VERSION_3 c.
(** [out[1] = STATE_VERSION_4], and the generation after it. *)
Definition export_state (c : Client) : bytes := state_body STATE_VERSION_4 c ++ be64 (cl_generation c).

Definition export_state_sealed : M CState bytes :=
  c ← self;
  if negb (cl_attached c) then
    fail (CSecureStore "no secure store attached; call attach_secure_store before exporting sealed state")
  else
    key ← on_world (store_call wrap_key);
    counter ← on_world (store_call rollback_counter);
    mret (sealed_blob key (cl_me c) (export_body_v3 c) (cl_generation c) counter).

(** ** Group ciphertexts *)
Definition prepare_group_ciphertext (to : DeviceAddr) (expected_identity context : bytes) : M CState (bytes * bytes) :=
  if len context >? MAX_MESSAGE_BYTES then fail (CInvalidArgument "group context exceeds the relay's per-message size limit") else
  peer ← of_result (peer_address to);
  c ← self;
  (if bool_decide (to ∈ cl_sessions c) then mret tt
   else
     '(peer_identity, peer_bundle) ← lookup_bundle to;
     if negb (bool_decide (peer_identity = expected_identity)) then fail (CCrypto "directory identity did not match the group recipient")
     else establish_for to peer peer_bundle expected_identity);;
  d ← on_world draw;
  operation ← call_party (fun p => let '(p, operation) := encrypt_with_outcome p peer context d in (p, Ok operation));
  if negb (bool_decide (op_authenticated_peer operation = Some expected_identity))
  then fail (CCrypto "provider identity did not match the group recipient") else
  ciphertext ← of_result (crypto (op_result operation));
  commit_ratchet_advance;;
  c ← self;
  mret (ciphertext, export_state c).

Definition dispatch_group_ciphertext (to : DeviceAddr) (ciphertext : bytes) : M CState unit :=
  if len ciphertext >? MAX_MESSAGE_BYTES then fail (CInvalidArgument "group ciphertext exceeds the relay's per-message size limit") else
  prepared ← prepared_send to Group ciphertext; dispatch_prepared_send prepared.

(** ** Receiving *)
Record Received := mkReceived { rc_from : DeviceAddr; rc_plaintext : bytes; rc_kind : MessageKind }.
Record Fetched := mkFetched { fe_from : Z; fe_messages : list StoredMessage }.

Definition fetch_staged : M CState Fetched :=
  c ← self;
  poll ← expect (encode_request (Poll (cl_me c)));
  answer ← on_world (relay_request (cl_relay c) poll);
  match decode_response answer with
  | Some (RespDelivered from messages) => mret (mkFetched from messages)
  | _ => fail (CProtocol "expected a delivery")
  end.

(** [PreparedAcknowledgement::for_fetched]. *)
Definition for_fetched (d : DeviceAddr) (first_sequence count : Z) : option (option bytes) :=
  if count =? 0 then None else
  up_to ← checked_add64 first_sequence count; Some (encode_request (Ack d up_to)).

Definition acknowledge_fetched (from count : Z) : M CState unit :=
  if count =? 0 then mret tt else
  c ← self;
  match for_fetched (cl_me c) from count with
  | None => fail (CProtocol "delivery acknowledgement prefix overflow")
  | Some request =>
      request ← expect request;
      answer ← on_world (relay_request (cl_relay c) request);
      match decode_response answer with
      | Some (Acked true) => mret tt
      | _ => fail (CProtocol "acknowledgement was not accepted")
      end
  end.

(** One message of a batch: what does not decrypt is passed over. *)
Definition open_direct (m : StoredMessage) : M CState (option Received) :=
  match peer_address (msg_from m) with
  | Err _ => mret None
  | Ok peer =>
      d1 ← on_world draw; d2 ← on_world draw;
      r ← attempt (call_party (fun p => decrypt p peer (payload (msg_envelope m)) d1 d2));
      match r with
      | Err _ => mret None
      | Ok plaintext =>
          note_session (msg_from m);;
          mret (Some (mkReceived (msg_from m) plaintext (message_kind (kind (msg_envelope m)))))
      end
  end.

Fixpoint open_batch (messages : list StoredMessage) : M CState (list Received) :=
  match messages with
  | [] => mret []
  | m :: messages => r ← open_direct m; rest ← open_batch messages; mret (option_list r ++ rest)
  end.

(** The counter is moved once for the batch, and a failure to move it is
    dropped. *)
Definition poll_batch : M CState (list Received) :=
  fetched ← fetch_staged;
  received ← open_batch (fe_messages fetched);
  (match received with [] => mret tt | _ => attempt commit_ratchet_advance;; mret tt end);;
  acknowledge_fetched (fe_from fetched) (len (fe_messages fetched));;
  mret received.

Definition drain : M CState (list Received) :=
  r ← attempt poll_batch;
  match r with
  | Ok batch => mret batch
  | Err (CIo _) => reconnect_with_patience;; poll_batch
  | Err e => fail e
  end.

(** [open_staged]: the sender, the address decrypted for, and what the
    coordinator reads. *)
Definition open_staged (m : StoredMessage) : M CState (DeviceAddr * Address * StagedItem) :=
  let k := message_kind (kind (msg_envelope m)) in
  match peer_address (msg_from m) with
  | Err _ => mret (msg_from m, mkAddress (user (msg_from m)) x00, mkStaged x00 k None None EUnchanged [])
  | Ok peer =>
      d1 ← on_world draw; d2 ← on_world draw;
      outcome ← call_party (fun p => let '(p, operation) := decrypt_with_outcome p peer (payload (msg_envelope m)) d1 d2 in (p, Ok operation));
      let effect := op_state_effect outcome in
      let plaintext := match op_result outcome with Ok x => Some x | Err _ => None end in
      (if bool_decide (is_Some plaintext) then note_session (msg_from m);; attempt commit_ratchet_advance;; mret tt else mret tt);;
      c ← self;
      let provider_state := if bool_decide (effect = EUnchanged) then [] else export_state c in
      mret (msg_from m, peer, mkStaged (ad_device peer) k plaintext (op_authenticated_peer outcome) effect provider_state)
  end.

(** ** Witness, restore and rotation *)
Definition checkpoint : M CState DirResponse :=
  c ← self;
  d ← on_world draw;
  response ← on_world (dir_exchange (cl_directory c)
    (witness_request (dc_challenge (cl_directory c)) (cl_me c) (cl_generation c) (fun ch => sign_challenge (cl_party c) ch d)));
  match response with RRolledBack => discard_sessions;; mret response | _ => mret response end.

Definition restore_sessions (provider : SessionProvider) (sessions : bytes) : M CState unit :=
  if negb (bool_decide (provider = own_provider)) then mret tt else
  restored ← call_party (fun p => import_sessions p sessions);
  modify (fun c => with_sessions c (list_to_set (device_addr <$> restored) ∪ cl_sessions c)).

Definition state_has_this_identity (c : Client) (state : bytes) : bool :=
  match split_state state with Ok split => bool_decide (sp_identity split = export_identity (cl_party c)) | Err _ => false end.

Definition device_byte (e : ClientError) (d : Z) : result ClientError byte := d ← ok_or e (u8_try_from d); Ok (byte_of d).

(** The party a state restores to, before it publishes anything. *)
Definition restored_party (u : bytes) (d : byte) (split : SplitState) : result ClientError OpenParty :=
  party ← crypto (from_identity u d (sp_identity split));
  let '(party, r) := restore_prekeys_into party split in
  _ ← r; Ok party.

Definition restore_state_in_place (state : bytes) : M CState unit :=
  split ← of_result (split_state state);
  c ← self;
  d ← of_result (device_byte (CProtocol "device id out of range") (device (cl_me c)));
  party ← of_result (restored_party (user (cl_me c)) d split);
  modify (fun c => with_provider (with_sessions (with_party c party) ∅) own_provider);;
  restore_sessions (sp_provider split) (sp_sessions split);;
  modify (fun c => with_generation c (sp_generation split)).

(** The party and what it publishes, two draws. *)
Definition published (party : OpenParty) : M World (OpenParty * bytes) :=
  d1 ← draw; d2 ← draw; mret (publish_bundle party d1 d2).

Definition rotate : M CState unit :=
  c ← self;
  d ← of_result (device_byte (CProtocol "device id out of range") (device (cl_me c)));
  r ← on_world draw;
  '(next, new_bundle) ← on_world (published (generate (user (cl_me c)) d r));
  r1 ← on_world draw; r2 ← on_world draw;
  outcome ← on_world (dir_exchange (cl_directory c)
    (rotate_request (dc_challenge (cl_directory c)) (cl_me c) (identity_key next) new_bundle
       (fun ch => sign_challenge next ch r1) (fun stmt => sign_challenge (cl_party c) stmt r2)));
  match outcome with
  | RRotated => modify (fun c => with_sessions (with_party c next) ∅)
  | _ => fail (CDirectory outcome)
  end.

(** ** Asking *)
Definition delivered_watermark (devices : list DeviceAddr) : M CState Z :=
  request ← expect (encode_request (ReqDelivered devices));
  c ← self;
  answer ← on_world (relay_request (cl_relay c) request);
  match decode_response answer with
  | Some (DeliveredCount count) => mret count
  | _ => fail (CProtocol "expected a delivered count")
  end.

(** [split_once('/')]: what comes before the first slash. *)
Fixpoint before_slash (s : bytes) : option bytes :=
  match s with
  | [] => None
  | b :: s => if bool_decide (b = x2f) then Some [] else cons b <$> before_slash s
  end.

Definition find (username : bytes) : M CState (option Contact) :=
  c ← self;
  tenant ← of_result (ok_or (CInvalidArgument "client is not under a tenant handle") (before_slash (user (cl_me c))));
  let address := mkAddr (tenant ++ [x2f] ++ username) 1 in
  response ← on_world (dir_exchange (cl_directory c) (lookup_request address));
  match response with
  | RFound _ _ => mret (Some (mkContact address))
  | RNotFound => mret None
  | other => fail (CDirectory other)
  end.

(** ** Connecting *)
(** Best effort: no failure of it is one of the connection. *)
Definition deposit_one_time (party : OpenParty) (directory : DirConn) (me : DeviceAddr) : M World OpenParty :=
  d ← draw;
  let '(party, batch) := publish_one_time_batch party d in
  match batch with
  | [] => mret party
  | _ =>
      d ← draw;
      attempt (dir_exchange directory (deposit_request (dc_challenge directory) me (identity_key party) batch (fun ch => sign_challenge party ch d)));;
      mret party
  end.

Definition new_client (party : OpenParty) (directory : DirConn) (relay : nat) (me : DeviceAddr) (directory_ep relay_ep : Endpoint) : Client :=
  mkClient party directory relay me ∅ directory_ep relay_ep own_provider 0 false RestoreFresh 0.

Definition connect_with_party (cfg : ClientConfig) (party : OpenParty) : M World Client :=
  let me := mkAddr (cf_user cfg) (byte_val (cf_device cfg)) in
  '(party, bundle) ← published party;
  directory ← dial_directory (cf_directory cfg);
  d ← draw;
  outcome ← dir_exchange directory
    (register_request (dc_challenge directory) me (identity_key party) bundle (fun ch => sign_challenge party ch d));
  match outcome with
  | RRegistered | RRefreshed =>
      party ← deposit_one_time party directory me;
      relay ← dial_relay (cf_relay cfg) me party;
      mret (new_client party directory relay me (cf_directory cfg) (cf_relay cfg))
  | _ => fail (CDirectory outcome)
  end.

(** [connect], over whatever the dialer is. *)
Definition connect (cfg : ClientConfig) : M World Client :=
  d ← draw; connect_with_party cfg (generate (cf_user cfg) (cf_device cfg) d).

Definition connect_with_identity (cfg : ClientConfig) (identity : bytes) : M World Client :=
  party ← of_result (crypto (from_identity (cf_user cfg) (cf_device cfg) identity));
  connect_with_party cfg party.

(** Calls on a client just made. *)
Definition with_client (c : Client) (m : M CState unit) : M World Client := fun w =>
  let '((c, w), r) := m (c, w) in
  (w, match r with Done _ => Done c | Failed e => Failed e | Panicked => Panicked end).

(** What every unsealed restore ends with. *)
Definition resume_state (split : SplitState) : M CState unit :=
  restore_sessions (sp_provider split) (sp_sessions split);;
  modify (fun c => with_generation (with_restore c RestoreResumed) (sp_generation split)).

(** What every sealed restore ends with: the counter's verdict before the
    directory's, whose failure is dropped. *)
Definition resume_sealed (opened : Opened) (split : SplitState) : M CState unit :=
  restore_sessions (sp_provider split) (sp_sessions split);;
  modify (fun c => with_generation (with_restore c RestoreResumed) (op_generation opened));;
  attach_secure_store;;
  (if op_stale opened then discard_sessions else mret tt);;
  attempt checkpoint;;
  mret tt.

Definition open_state (state : bytes) : M World Opened := fun w =>
  let '(s, r) := open_sealed (w_store w) state in
  (mkWorld (w_log w) (w_draws w) s, match r with Ok o => Done o | Err e => Failed e end).

Definition connect_with_state (cfg : ClientConfig) (state : bytes) : M World Client :=
  split ← of_result (split_state state);
  party ← of_result (restored_party (cf_user cfg) (cf_device cfg) split);
  c ← connect_with_party cfg party;
  with_client c (resume_state split).

Definition connect_with_state_sealed (cfg : ClientConfig) (state : bytes) : M World Client :=
  opened ← open_state state;
  of_result (expect_address opened (mkAddr (cf_user cfg) (byte_val (cf_device cfg))));;
  split ← of_result (split_state (op_body opened));
  party ← of_result (restored_party (cf_user cfg) (cf_device cfg) split);
  c ← connect_with_party cfg party;
  with_client c (resume_sealed opened split).

(** ** Accounts *)
Definition account_exchange (conn : nat) (request : AccountRequest) : M World AccountResponse :=
  frame ← expect (encode_account_request request);
  answer ← exchange conn frame;
  decoded decode_account_response answer.

Definition sign_up (accounts : Endpoint) (api_key username password : bytes) : M World unit :=
  conn ← dial SvAccounts accounts;
  response ← account_exchange conn (SignUpUser api_key username password);
  match response with
  | UserCreated _ => mret tt
  | TenantCreated _ _ | SignedIn _ _ => fail (CProtocol "unexpected account response")
  | other => fail (CAccount other)
  end.

Definition sign_in_with_party (cfg : AccountConfig) (party : OpenParty) : M World Client :=
  conn ← dial SvAccounts (ac_accounts cfg);
  response ← account_exchange conn (SignIn (ac_api_key cfg) (ac_identifier cfg) (ac_password cfg));
  token ← match response with
          | SignedIn _ token => mret token
          | TenantCreated _ _ | UserCreated _ => fail (CProtocol "unexpected account response")
          | other => fail (CAccount other)
          end;
  '(party, bundle) ← published party;
  provisioning ← dial_provisioning (ac_provisioning cfg);
  d ← draw;
  frame ← expect (encode_provision_request (provision_request (dc_challenge provisioning) token (byte_val (ac_device cfg))
                    (identity_key party) bundle (fun ch => sign_challenge party ch d)));
  answer ← exchange (dc_id provisioning) frame;
  outcome ← decoded decode_provision_outcome answer;
  match outcome with
  | Provisioned h =>
      let me := mkAddr h (byte_val (ac_device cfg)) in
      directory ← dial_directory (ac_directory cfg);
      relay ← dial_relay (ac_relay cfg) me party;
      mret (new_client party directory relay me (ac_directory cfg) (ac_relay cfg))
  | other => fail (CProvision other)
  end.

Definition sign_in (cfg : AccountConfig) : M World Client :=
  d ← draw; sign_in_with_party cfg (generate (ac_identifier cfg) (ac_device cfg) d).

Definition sign_in_with_identity (cfg : AccountConfig) (identity : bytes) : M World Client :=
  party ← of_result (crypto (from_identity (ac_identifier cfg) (ac_device cfg) identity));
  sign_in_with_party cfg party.

Definition sign_in_with_state (cfg : AccountConfig) (state : bytes) : M World Client :=
  split ← of_result (split_state state);
  party ← of_result (restored_party (ac_identifier cfg) (ac_device cfg) split);
  c ← sign_in_with_party cfg party;
  with_client c (resume_state split).

Definition sign_in_with_state_sealed (cfg : AccountConfig) (state : bytes) : M World Client :=
  opened ← open_state state;
  of_result (expect_user opened (ac_identifier cfg) (byte_val (ac_device cfg)));;
  split ← of_result (split_state (op_body opened));
  party ← of_result (restored_party (ac_identifier cfg) (ac_device cfg) split);
  c ← sign_in_with_party cfg party;
  of_result (expect_address opened (cl_me c));;
  with_client c (resume_sealed opened split).
End Client.

(** ** What every call keeps

    [keeps R m]: whatever [m] returns, the state it leaves is related to the
    state it was given. *)
Definition keeps {St A} (R : St -> St -> Prop) (m : M St A) : Prop := forall st, R st (m st).1.

Section Keeps.
Context {St : Type} (R : St -> St -> Prop) `{!PreOrder R}.

Lemma keeps_ret {A} (a : A) : keeps R (mret a : M St A).
Proof. intros st. cbn. reflexivity. Qed.
Lemma keeps_fail {A} e : keeps R (fail e : M St A).
Proof. intros st. cbn. reflexivity. Qed.
Lemma keeps_of_result {A} r : keeps R (of_result r : M St A).
Proof. intros st. cbn. reflexivity. Qed.
Lemma keeps_expect {A} o : keeps R (expect o : M St A).
Proof. intros st. cbn. reflexivity. Qed.
Lemma keeps_bind {A B} (m : M St A) (k : A -> M St B) : keeps R m -> (forall a, keeps R (k a)) -> keeps R (m ≫= k).
Proof.
  intros Hm Hk st. unfold mbind, act_bind. specialize (Hm st). destruct (m st) as [st1 [a|e|]]; cbn in *; [|done..].
  etransitivity; [exact Hm|apply Hk].
Qed.
Lemma keeps_attempt {A} (m : M St A) : keeps R m -> keeps R (attempt m).
Proof. intros Hm st. unfold attempt. specialize (Hm st). by destruct (m st) as [st1 [a|e|]]. Qed.
End Keeps.

(** A call that returned a value, step by step. *)
Lemma bind_Done {St A B} (m : M St A) (k : A -> M St B) st st' b :
  (m ≫= k) st = (st', Done b) <-> exists st1 a, m st = (st1, Done a) /\ k a st1 = (st', Done b).
Proof.
  unfold mbind, act_bind. destruct (m st) as [st1 [a|e|]]; (split; [|intros (? & ? & [= <- <-] & H)|..]); try done; eauto.
  all: by intros (? & ? & [=] & _).
Qed.

(** ** Calls that put no message on the wire *)
Section Calm.
Context {engine : Engine} {mac : Mac} {secure : SecureStore} {laws : SecureStoreLaws} {net : Network} (draws : nat -> Draw).

(** A relay that goes away between the challenge and its answer is reported as
    one that refused the identity. *)
Lemma cut_handshake_denied ep me party w ch frame :
  (forall l service, nw_dial l service ep = Ok tt) -> (forall l conn, nw_challenge l conn = Ok (Some ch)) ->
  (forall l conn, nw_exchange l conn frame = Ok None) ->
  encode_auth me (sign_challenge party ch (draws (w_draws w))) = Some frame ->
  (dial_relay draws ep me party w).2 = Failed (CIo NetPermissionDenied) /\ error_kind (CIo NetPermissionDenied) = KIdentityMismatch.
Proof.
  intros Hd Hc Hx Ha. split; [|done].
  unfold dial_relay, dial, challenge, exchange, log, emit, io, of_result, draw, mbind, act_bind. cbn [w_log w_draws w_store lift_err].
  rewrite Hd. cbn. rewrite Hc. cbn. unfold expect. rewrite Ha. cbn. rewrite Hx. done.
Qed.

(** A relay request under the tag of [Send]. *)
Definition sent_event (e : Event) : bool := match e with ERelay _ (x01 :: _) => true | _ => false end.

Record calm_world (w w' : World) : Prop := {
  cw_log : exists ext, w_log w' = w_log w ++ ext /\ Forall (fun e => sent_event e = false) ext;
  cw_key : install_key (w_store w') = install_key (w_store w);
  cw_committed : committed (w_store w) <= committed (w_store w')
}.

#[global] Instance calm_world_preorder : PreOrder calm_world.
Proof.
  split.
  - intros w. split; [|done|lia]. exists []. by rewrite app_nil_r.
  - intros a b c [(e1 & L1 & F1) K1 C1] [(e2 & L2 & F2) K2 C2]. split; [|congruence|lia].
    exists (e1 ++ e2). split; [by rewrite L2, L1, app_assoc|by apply Forall_app].
Qed.

Record calm (st st' : CState) : Prop := {
  ca_world : calm_world st.2 st'.2;
  ca_attached : cl_attached st.1 = true -> cl_attached st'.1 = true;
  ca_me : cl_me st'.1 = cl_me st.1
}.

#[global] Instance calm_preorder : PreOrder calm.
Proof.
  split.
  - intros st. by split.
  - intros a b c [W1 A1 M1] [W2 A2 M2]. split; [by etransitivity|auto|congruence].
Qed.

Lemma calm_store w s : install_key s = install_key (w_store w) -> committed (w_store w) <= committed s ->
  calm_world w (mkWorld (w_log w) (w_draws w) s).
Proof. intros. split; [|done..]. exists []. by rewrite app_nil_r. Qed.

Lemma keeps_emit e : sent_event e = false -> keeps calm_world (emit e).
Proof. intros He w. split; [|done|cbn; lia]. exists [e]. split; [done|]. by constructor. Qed.
Lemma keeps_log : keeps calm_world log.
Proof. intros w. cbn. reflexivity. Qed.
Lemma keeps_draw : keeps calm_world (draw draws).
Proof. intros w. split; [|done|cbn; lia]. exists []. by rewrite app_nil_r. Qed.
Lemma keeps_io {A} (r : result NetError A) : keeps calm_world (io r).
Proof. by apply keeps_of_result; apply _. Qed.

Lemma keeps_bump : keeps calm_world bump_counter.
Proof.
  apply keeps_bind; [apply _| |intros c; apply keeps_bind; [apply _|by apply keeps_emit|intros _; apply keeps_ret; apply _]].
  intros w. unfold store_call. destruct (bump_rollback_counter (w_store w)) as [s r] eqn:E. apply bump_law in E as [K C].
  apply calm_store; [done|]. destruct r; lia.
Qed.
Lemma keeps_wrap_key : keeps calm_world (store_call wrap_key).
Proof. intros w. unfold store_call. destruct (wrap_key (w_store w)) as [s r] eqn:E. apply wrap_key_law in E as (K & C & _). apply calm_store; [done|]. lia. Qed.
Lemma keeps_counter : keeps calm_world (store_call rollback_counter).
Proof. intros w. unfold store_call. destruct (rollback_counter (w_store w)) as [s r] eqn:E. apply rollback_counter_law in E as (K & C & _). apply calm_store; [done|]. lia. Qed.

Lemma keeps_on_world {A} (m : M World A) : keeps calm_world m -> keeps calm (on_world m).
Proof. intros Hm [c w]. unfold on_world. cbn. specialize (Hm w). destruct (m w) as [w' r]. by split. Qed.
Lemma keeps_self : keeps calm self.
Proof. intros st. cbn. reflexivity. Qed.
Lemma keeps_modify f : (forall c, (cl_attached c = true -> cl_attached (f c) = true) /\ cl_me (f c) = cl_me c) -> keeps calm (modify f).
Proof. intros Hf [c w]. destruct (Hf c) as [Ha Hm]. split; cbn; [reflexivity|auto..]. Qed.
Lemma keeps_party {A} (f : OpenParty -> OpenParty * result OpenError A) : keeps calm (call_party f).
Proof. intros [c w]. unfold call_party. cbn. destruct (f (cl_party c)) as [p r]. split; cbn; [reflexivity|auto..]. Qed.
End Calm.

Create HintDb keeps.
#[export] Hint Resolve keeps_emit keeps_log keeps_draw keeps_io keeps_bump keeps_wrap_key keeps_counter keeps_self keeps_party : keeps.
#[export] Hint Extern 1 (keeps _ (mret _)) => apply keeps_ret; apply _ : keeps.
#[export] Hint Extern 1 (keeps _ (fail _)) => apply keeps_fail; apply _ : keeps.
#[export] Hint Extern 1 (keeps _ (of_result _)) => apply keeps_of_result; apply _ : keeps.
#[export] Hint Extern 1 (keeps _ (expect _)) => apply keeps_expect; apply _ : keeps.
#[export] Hint Extern 1 (keeps calm (modify _)) => apply keeps_modify; intros; split; [auto|reflexivity] : keeps.

(** The steps of a call, one after the other. *)
Ltac keeps_steps :=
  repeat first
    [ solve [eauto with keeps]
    | apply keeps_bind; [apply _| |intros ?]
    | apply keeps_attempt
    | apply keeps_on_world
    | match goal with |- keeps _ (match ?x with _ => _ end) => destruct x end ].
Ltac keeps_call name := intros; unfold name; keeps_steps.

Section CalmCalls.
Context {engine : Engine} {mac : Mac} {secure : SecureStore} {laws : SecureStoreLaws} {net : Network} (draws : nat -> Draw).

Lemma keeps_dial service ep : keeps calm_world (dial service ep).
Proof. keeps_call @dial. Qed.
Lemma keeps_challenge conn : keeps calm_world (challenge conn).
Proof. keeps_call @challenge. Qed.
Lemma keeps_exchange conn frame : keeps calm_world (exchange conn frame).
Proof. keeps_call @exchange. Qed.
#[local] Hint Resolve keeps_dial keeps_challenge keeps_exchange : keeps.
Lemma keeps_dial_directory ep : keeps calm_world (dial_directory ep).
Proof. keeps_call @dial_directory. Qed.
Lemma keeps_dial_provisioning ep : keeps calm_world (dial_provisioning ep).
Proof. keeps_call @dial_provisioning. Qed.
Lemma keeps_dir_exchange d request : keeps calm_world (dir_exchange d request).
Proof. keeps_call @dir_exchange. Qed.
Lemma keeps_dial_relay ep me party : keeps calm_world (dial_relay draws ep me party).
Proof. keeps_call @dial_relay. Qed.
Lemma keeps_relay_request conn request : sent_event (ERelay conn request) = false -> keeps calm_world (relay_request conn request).
Proof. keeps_call @relay_request. Qed.
#[local] Hint Resolve keeps_dial_directory keeps_dial_provisioning keeps_dir_exchange keeps_dial_relay : keeps.
Lemma keeps_reconnect : keeps calm (reconnect draws).
Proof. keeps_call @reconnect. Qed.
#[local] Hint Resolve keeps_reconnect : keeps.
Lemma keeps_patience n : forall delay r, keeps calm (patience draws n delay r).
Proof. induction n as [|n IH]; intros delay r; cbn [patience]; keeps_steps. Qed.
#[local] Hint Resolve keeps_patience : keeps.
Lemma keeps_reconnect_with_patience : keeps calm (reconnect_with_patience draws).
Proof. keeps_call @reconnect_with_patience. Qed.
End CalmCalls.

#[export] Hint Resolve keeps_dial keeps_challenge keeps_exchange keeps_dial_directory keeps_dial_provisioning keeps_dir_exchange keeps_dial_relay
  keeps_relay_request keeps_reconnect keeps_reconnect_with_patience : keeps.

Section CalmClient.
Context {engine : Engine} {mac : Mac} {secure : SecureStore} {laws : SecureStoreLaws} {net : Network} (draws : nat -> Draw).

Lemma keeps_commit : keeps calm commit_ratchet_advance.
Proof. keeps_call @commit_ratchet_advance. Qed.
Lemma keeps_attach : keeps calm attach_secure_store.
Proof. keeps_call @attach_secure_store. Qed.
Lemma keeps_note_session a : keeps calm (note_session a).
Proof. keeps_call @note_session. Qed.
Lemma keeps_discard : keeps calm discard_sessions.
Proof. keeps_call @discard_sessions. Qed.
#[local] Hint Resolve keeps_commit keeps_attach keeps_note_session keeps_discard : keeps.
Lemma keeps_fetch_bundle to : keeps calm (fetch_bundle to).
Proof. keeps_call @fetch_bundle. Qed.
#[local] Hint Resolve keeps_fetch_bundle : keeps.
Lemma keeps_lookup_bundle to : keeps calm (lookup_bundle draws to).
Proof. keeps_call @lookup_bundle. Qed.
Lemma keeps_establish_for to peer bundle identity : keeps calm (establish_for draws to peer bundle identity).
Proof. keeps_call @establish_for. Qed.
#[local] Hint Resolve keeps_lookup_bundle keeps_establish_for : keeps.
Lemma keeps_ensure_session to peer : keeps calm (ensure_session draws to peer).
Proof. keeps_call @ensure_session. Qed.
#[local] Hint Resolve keeps_ensure_session : keeps.
Lemma keeps_prepare to message k : keeps calm (prepare_send_as draws to message k).
Proof. intros. unfold prepare_send_as, prepared_send. keeps_steps. Qed.
Lemma keeps_export_sealed : keeps calm export_state_sealed.
Proof. keeps_call @export_state_sealed. Qed.
Lemma keeps_prepare_group to identity context : keeps calm (prepare_group_ciphertext draws to identity context).
Proof. keeps_call @prepare_group_ciphertext. Qed.
Lemma keeps_checkpoint : keeps calm (checkpoint draws).
Proof. keeps_call @checkpoint. Qed.
Lemma keeps_restore_sessions provider sessions : keeps calm (restore_sessions provider sessions).
Proof. keeps_call @restore_sessions. Qed.
#[local] Hint Resolve keeps_restore_sessions : keeps.
Lemma keeps_restore_in_place state : keeps calm (restore_state_in_place state).
Proof. keeps_call @restore_state_in_place. Qed.
Lemma keeps_published party : keeps calm_world (published draws party).
Proof. keeps_call @published. Qed.
#[local] Hint Resolve keeps_published : keeps.
Lemma keeps_rotate : keeps calm (rotate draws).
Proof. keeps_call @rotate. Qed.
Lemma keeps_find username : keeps calm (find username).
Proof. keeps_call @find. Qed.

(** A request that is not a [Send] does not have its tag. *)
Lemma other_request conn request bs : encode_request request = Some bs ->
  match request with Send _ _ => True | _ => sent_event (ERelay conn bs) = false end.
Proof. destruct request; cbn [encode_request]; intros H; [done|..]; inv_bind; done. Qed.

Lemma keeps_expect_known {A B} (o : option A) (k : A -> M CState B) :
  (forall a, o = Some a -> keeps calm (k a)) -> keeps calm (expect o ≫= k).
Proof. intros Hk st. destruct o as [a|]; [exact (Hk a eq_refl st)|cbn; reflexivity]. Qed.

Lemma keeps_fetch_staged : keeps calm fetch_staged.
Proof.
  apply keeps_bind; [apply _|auto with keeps|intros c]. apply keeps_expect_known. intros bs E.
  pose proof (fun conn => other_request conn _ _ E) as Hs. cbv beta iota in Hs. keeps_steps.
Qed.
Lemma keeps_acknowledge from count : keeps calm (acknowledge_fetched from count).
Proof.
  unfold acknowledge_fetched. destruct (count =? 0) eqn:En; [auto with keeps|]. apply keeps_bind; [apply _|auto with keeps|intros c].
  unfold for_fetched. rewrite En. destruct (checked_add64 from count) as [up|]; cbn [mbind option_bind]; [|auto with keeps].
  apply keeps_expect_known. intros bs E. pose proof (fun conn => other_request conn _ _ E) as Hs. cbv beta iota in Hs. keeps_steps.
Qed.
Lemma keeps_watermark devices : keeps calm (delivered_watermark devices).
Proof. apply keeps_expect_known. intros bs E. pose proof (fun conn => other_request conn _ _ E) as Hs. cbv beta iota in Hs. keeps_steps. Qed.
Lemma keeps_open_direct m : keeps calm (open_direct draws m).
Proof. keeps_call @open_direct. Qed.
#[local] Hint Resolve keeps_fetch_staged keeps_acknowledge keeps_open_direct : keeps.
Lemma keeps_open_batch messages : keeps calm (open_batch draws messages).
Proof. induction messages as [|m messages IH]; cbn [open_batch]; keeps_steps. Qed.
#[local] Hint Resolve keeps_open_batch : keeps.
Lemma keeps_poll_batch : keeps calm (poll_batch draws).
Proof. keeps_call @poll_batch. Qed.
#[local] Hint Resolve keeps_poll_batch : keeps.
Lemma keeps_drain : keeps calm (drain draws).
Proof. keeps_call @drain. Qed.
Lemma keeps_open_staged m : keeps calm (open_staged draws m).
Proof. keeps_call @open_staged. Qed.
End CalmClient.

(** ** One send *)
Section Sending.
Context {engine : Engine} {mac : Mac} {secure : SecureStore} {laws : SecureStoreLaws} {net : Network} (draws : nat -> Draw).

(** What happens up to the counter: only the session with [peer] moves. *)
Record preparing (peer : Address) (st st' : CState) : Prop := {
  pr_attached : cl_attached st'.1 = cl_attached st.1;
  pr_seen : cl_counter_seen st'.1 = cl_counter_seen st.1;
  pr_party : touches_only peer (cl_party st.1) (cl_party st'.1)
}.

#[global] Instance preparing_preorder peer : PreOrder (preparing peer).
Proof.
  split.
  - intros st. split; [done..|apply touches_refl].
  - intros a b c [A1 S1 T1] [A2 S2 T2]. split; [congruence..|by eapply touches_trans].
Qed.

Lemma prep_on_world {A} peer (m : M World A) : keeps (preparing peer) (on_world m).
Proof. intros [c w]. unfold on_world. cbn. destruct (m w). split; [done..|apply touches_refl]. Qed.
Lemma prep_self peer : keeps (preparing peer) self.
Proof. intros st. cbn. reflexivity. Qed.
Lemma prep_modify peer f : (forall c, cl_attached (f c) = cl_attached c /\ cl_counter_seen (f c) = cl_counter_seen c /\ cl_party (f c) = cl_party c) ->
  keeps (preparing peer) (modify f).
Proof. intros Hf [c w]. destruct (Hf c) as (Ha & Hs & Hp). split; cbn; [done..|]. rewrite Hp. apply touches_refl. Qed.
Lemma prep_party {A} peer (f : OpenParty -> OpenParty * result OpenError A) : (forall p, touches_only peer p (f p).1) -> keeps (preparing peer) (call_party f).
Proof. intros Hf [c w]. unfold call_party. cbn. specialize (Hf (cl_party c)). destruct (f (cl_party c)) as [p r]. by split. Qed.

#[local] Hint Resolve prep_on_world prep_self : keeps.
#[local] Hint Extern 1 (keeps (preparing _) (modify _)) => apply prep_modify; done : keeps.

Lemma prep_reconnect peer : keeps (preparing peer) (reconnect draws).
Proof. keeps_call @reconnect. Qed.
#[local] Hint Resolve prep_reconnect : keeps.
Lemma prep_patience peer n : forall delay r, keeps (preparing peer) (patience draws n delay r).
Proof. induction n as [|n IH]; intros delay r; cbn [patience]; keeps_steps. Qed.
#[local] Hint Resolve prep_patience : keeps.
Lemma prep_reconnect_with_patience peer : keeps (preparing peer) (reconnect_with_patience draws).
Proof. keeps_call @reconnect_with_patience. Qed.
#[local] Hint Resolve prep_reconnect_with_patience : keeps.
Lemma prep_fetch_bundle peer to : keeps (preparing peer) (fetch_bundle to).
Proof. keeps_call @fetch_bundle. Qed.
#[local] Hint Resolve prep_fetch_bundle : keeps.
Lemma prep_lookup_bundle peer to : keeps (preparing peer) (lookup_bundle draws to).
Proof. keeps_call @lookup_bundle. Qed.
Lemma prep_note_session peer a : keeps (preparing peer) (note_session a).
Proof. keeps_call @note_session. Qed.
#[local] Hint Resolve prep_lookup_bundle prep_note_session : keeps.

Lemma establish_touches peer bundle identity d p : touches_only peer p (establish_session_for p peer bundle identity d).1.
Proof. unfold establish_session_for. destruct (mbind _ _); [apply touches_peer|apply touches_refl]. Qed.
Lemma prep_establish_for to peer bundle identity : keeps (preparing peer) (establish_for draws to peer bundle identity).
Proof.
  unfold establish_for. keeps_steps. apply prep_party. intros p. apply establish_touches.
Qed.
#[local] Hint Resolve prep_establish_for : keeps.
Lemma prep_ensure_session to peer : keeps (preparing peer) (ensure_session draws to peer).
Proof. keeps_call @ensure_session. Qed.

Lemma commit_Done st st' : commit_ratchet_advance st = (st', Done tt) ->
  if cl_attached st.1 then
    exists advanced, st'.1 = with_store st.1 true advanced /\ w_log st'.2 = w_log st.2 ++ [ECounter advanced] /\
      advanced = committed (w_store st'.2) /\ committed (w_store st.2) < advanced /\ cl_counter_seen st.1 < advanced
  else st' = st.
Proof.
  destruct st as [c w]. intros H. apply bind_Done in H as (st1 & c0 & [= <- <-] & H). cbn [fst snd] in *.
  destruct (cl_attached c); [|by injection H as <-]. apply bind_Done in H as ([c1 w1] & a & Hb & H).
  unfold on_world, bump_counter, store_call, mbind, act_bind in Hb. cbn in Hb.
  destruct (bump_rollback_counter (w_store w)) as [s [a'|e]] eqn:E; [|done]. cbn in Hb. injection Hb as <- <- ->.
  apply bump_law in E as [_ [-> Hlt]]. destruct (Z.leb_spec (committed s) (cl_counter_seen c)); [done|]. injection H as <-. cbn. by exists (committed s).
Qed.

(** What a prepared send was made of. *)
Record prepared_from (to : DeviceAddr) (message : bytes) (k : Kind) (bs : bytes) (c c' : Client) : Prop := {
  pf_encrypted : exists peer p d framed, peer_address to = Ok peer /\ touches_only peer (cl_party c) p /\
    encrypt p peer message d = (cl_party c', Ok framed) /\ encode_request (Send to (mkEnvelope k framed)) = Some bs
}.

(** The counter moved before the log [l] ends. *)
Definition recorded_first (c c' : Client) (w w' : World) (l : list Event) : Prop :=
  cl_attached c = true -> last l = Some (ECounter (cl_counter_seen c')) /\ cl_counter_seen c < cl_counter_seen c' /\
    committed (w_store w) < cl_counter_seen c' <= committed (w_store w').

Lemma prepare_Done to message k c w c' w' bs : prepare_send_as draws to message k (c, w) = ((c', w'), Done bs) ->
  exists ext, w_log w' = w_log w ++ ext /\ Forall (fun e => sent_event e = false) ext /\ prepared_from to message k bs c c' /\ recorded_first c c' w w' ext.
Proof.
  intros H. unfold prepare_send_as in H. destruct (len message >? MAX_MESSAGE_BYTES); [done|].
  apply bind_Done in H as (st1 & peer & Hpeer & H). unfold of_result in Hpeer. destruct (peer_address to) as [peer'|] eqn:Ep; [|done]. injection Hpeer as <- ->.
  apply bind_Done in H as ([c2 w2] & [] & Hest & H).
  pose proof (keeps_ensure_session draws to peer (c, w)) as [[(ext & Hl & Hf) _ Hcm] _ _].
  pose proof (prep_ensure_session to peer (c, w)) as [Ha Hs Ht]. rewrite Hest in Hl, Hcm, Ha, Hs, Ht. clear Hest. cbn [fst snd] in *.
  apply bind_Done in H as (st3 & d & Hd & H). unfold on_world, draw in Hd. cbn in Hd. injection Hd as <- <-.
  apply bind_Done in H as (st4 & framed & Henc & H). unfold call_party in Henc. cbn [fst snd] in Henc.
  destruct (encrypt (cl_party c2) peer message (draws (w_draws w2))) as [p [x|e]] eqn:Ee; [|done]. cbn [crypto] in Henc. injection Henc as <- ->.
  apply bind_Done in H as ([c5 w5] & [] & Hcommit & H). unfold prepared_send, expect in H.
  destruct (encode_request _) as [bs'|] eqn:Eb; [|done]. injection H as -> -> ->.
  assert (cl_party c' = p) as Hp.
  { apply commit_Done in Hcommit. cbn in Hcommit. destruct (cl_attached c2); [by destruct Hcommit as (a & -> & _)|by injection Hcommit as -> _]. }
  apply commit_Done in Hcommit. cbn in Hcommit. rewrite Ha in Hcommit.
  exists (ext ++ if cl_attached c then [ECounter (cl_counter_seen c')] else []). destruct (cl_attached c) eqn:Eatt.
  - destruct Hcommit as (a & -> & Hlog & -> & Hlt & Hseen). split_and!.
    + rewrite Hlog, Hl. by rewrite app_assoc.
    + apply Forall_app. split; [done|by constructor].
    + split. exists peer, (cl_party c2), (draws (w_draws w2)), framed. by rewrite Ee.
    + intros _. cbn in *. rewrite last_snoc. split; [done|]. lia.
  - injection Hcommit as -> ->. split_and!.
    + cbn. by rewrite Hl, app_nil_r.
    + by rewrite app_nil_r.
    + split. exists peer, (cl_party c2), (draws (w_draws w2)), framed. by rewrite Ee.
    + intros ?. congruence.
Qed.

(** A reconnect replaces the connections and nothing else of the client. *)
Definition reconnected (st st' : CState) : Prop := exists d r, st'.1 = with_connections st.1 d r.

#[global] Instance reconnected_preorder : PreOrder reconnected.
Proof.
  split.
  - intros [c w]. exists (cl_directory c), (cl_relay c). by destruct c.
  - intros a b c (d1 & r1 & H1) (d2 & r2 & H2). exists d2, r2. by rewrite H2, H1.
Qed.

Lemma again_on_world {A} (m : M World A) : keeps reconnected (on_world m).
Proof. intros [c w]. unfold on_world. cbn. destruct (m w). exists (cl_directory c), (cl_relay c). by destruct c. Qed.
Lemma again_self : keeps reconnected self.
Proof. intros st. cbn. reflexivity. Qed.
#[local] Hint Resolve again_on_world again_self : keeps.
Lemma again_reconnect : keeps reconnected (reconnect draws).
Proof. unfold reconnect. keeps_steps. intros [c w]. cbn. eexists _, _. done. Qed.
#[local] Hint Resolve again_reconnect : keeps.
Lemma again_patience n : forall delay r, keeps reconnected (patience draws n delay r).
Proof. induction n as [|n IH]; intros delay r; cbn [patience]; keeps_steps. Qed.
#[local] Hint Resolve again_patience : keeps.
Lemma again_reconnect_with_patience : keeps reconnected (reconnect_with_patience draws).
Proof. keeps_call @reconnect_with_patience. Qed.

(** A request on the client's relay connection. *)
Lemma relay_request_log conn bs w :
  relay_request conn bs w =
  (mkWorld (w_log w ++ [ERelay conn bs]) (w_draws w) (w_store w),
   match nw_request (w_log w) conn bs with Ok resp => Done resp | Err e => Failed (CIo e) end).
Proof. unfold relay_request, log, mbind, act_bind, emit, io, of_result. cbn. by destruct (nw_request (w_log w) conn bs). Qed.

(** The outcome of a send by the relay's answer. *)
Definition send_answer (resp : bytes) : outcome unit :=
  match decode_response resp with
  | Some RespOk => Done tt
  | Some RespTooLarge => Failed (CRelay RefTooLarge)
  | Some RespQueueFull => Failed (CRelay RefQueueFull)
  | Some UnknownRecipient => Failed (CRelay RefUnknownRecipient)
  | _ => Failed (CProtocol "send was not accepted")
  end.

(** What a dispatch adds to the log: the request, at most once more, and the
    reconnect between the two. *)
Record dispatched (prepared : bytes) (wire : list Event) : Prop := {
  ds_first : exists conn later, wire = ERelay conn prepared :: later;
  ds_same : Forall (fun e => sent_event e = true -> exists conn, e = ERelay conn prepared) wire;
  ds_twice : (length (filter (fun e => sent_event e = true) wire) <= 2)%nat
}.

(** The last answer decides: it is the relay's own, or there was none. *)
Definition answered (prepared : bytes) (r : outcome unit) : Prop :=
  (exists l conn resp, nw_request l conn prepared = Ok resp /\ r = send_answer resp) \/ (exists e, r = Failed e) \/ r = Panicked.

Lemma filter_unsent l : Forall (fun e => sent_event e = false) l -> filter (fun e => sent_event e = true) l = [].
Proof. intros H. apply filter_none. eapply Forall_impl; [exact H|]. cbn. by intros e ->. Qed.

Lemma one_more_same prepared conn ext : Forall (fun e => sent_event e = false) ext ->
  dispatched prepared (ERelay conn prepared :: ext).
Proof.
  intros Hf. split; [by eexists _, _| |].
  - constructor; [by eexists|]. eapply Forall_impl; [exact Hf|]. cbn. by intros e ->.
  - rewrite filter_cons, (filter_unsent ext Hf). destruct (decide _); cbn; lia.
Qed.
Lemma two_more_same prepared conn ext conn' : Forall (fun e => sent_event e = false) ext ->
  dispatched prepared (ERelay conn prepared :: ext ++ [ERelay conn' prepared]).
Proof.
  intros Hf. split; [by eexists _, _| |].
  - constructor; [by eexists|]. apply Forall_app. split; [|constructor; [by eexists|constructor]]. eapply Forall_impl; [exact Hf|]. cbn. by intros e ->.
  - rewrite filter_cons, filter_app, (filter_unsent ext Hf). pose proof (length_filter (fun e => sent_event e = true) [ERelay conn' prepared]) as Hl.
    destruct (decide _); cbn [length app] in *; lia.
Qed.

Lemma dispatch_spec prepared c w c' w' r : dispatch_prepared_send draws prepared (c, w) = ((c', w'), r) ->
  (exists wire, w_log w' = w_log w ++ wire /\ dispatched prepared wire) /\ committed (w_store w) <= committed (w_store w') /\
  (exists d relay, c' = with_connections c d relay) /\ answered prepared r.
Proof.
  unfold dispatch_prepared_send, mbind, act_bind, attempt, on_world, self. cbn [fst snd]. rewrite relay_request_log.
  set (w1 := mkWorld (w_log w ++ [ERelay (cl_relay c) prepared]) (w_draws w) (w_store w)).
  assert (forall st resp, match decode_response resp with
    | Some RespOk => mret tt | Some RespTooLarge => fail (CRelay RefTooLarge) | Some RespQueueFull => fail (CRelay RefQueueFull)
    | Some UnknownRecipient => fail (CRelay RefUnknownRecipient) | _ => fail (CProtocol "send was not accepted") end st = (st : CState, send_answer resp)) as Hans.
  { intros st resp. unfold send_answer. by destruct (decode_response resp) as [[]|]. }
  destruct (nw_request (w_log w) (cl_relay c) prepared) as [resp|e] eqn:E1.
  - unfold mret, act_ret. cbn [fst snd]. rewrite Hans. intros [= <- <- <-]. split_and!.
    + exists [ERelay (cl_relay c) prepared]. split; [done|]. by apply one_more_same.
    + done.
    + exists (cl_directory c), (cl_relay c). by destruct c.
    + left. by eexists _, _, _.
  - pose proof (keeps_reconnect_with_patience draws (c, w1)) as [[(ext & Hl & Hf) _ Hcm] _ _].
    pose proof (again_reconnect_with_patience (c, w1)) as (d & r0 & Hc).
    destruct (reconnect_with_patience draws (c, w1)) as [[c2 w2] [[]|e2|]]; cbn [fst snd] in *; subst c2.
    + rewrite relay_request_log. set (rest := match nw_request _ _ _ with Ok _ => _ | Err _ => _ end).
      assert (exists resp, (rest = Done resp /\ exists l conn, nw_request l conn prepared = Ok resp) \/ exists e', rest = Failed e') as [resp Hr].
      { subst rest. destruct (nw_request (w_log w2) _ prepared) as [resp|e'] eqn:E2; [exists resp; left; eauto|exists []; right; eauto]. }
      destruct Hr as [[-> (l & conn & Hr)]|[e' ->]]; [rewrite Hans|]; intros [= <- <- <-]; split_and!.
      1,5: exists (ERelay (cl_relay c) prepared :: ext ++ [ERelay (cl_relay (with_connections c d r0)) prepared]); split;
        [cbn [w_log w1]; rewrite Hl; cbn; by rewrite <- !app_assoc|by apply two_more_same].
      1,4: exact Hcm. 1,3: by eexists _, _.
      * left. by eexists _, _, _.
      * right. left. eauto.
    + intros [= <- <- <-]. split_and!; [exists (ERelay (cl_relay c) prepared :: ext); split; [rewrite Hl; cbn; by rewrite <- app_assoc|by apply one_more_same]|exact Hcm|by eexists _, _|].
      right. left. eauto.
    + intros [= <- <- <-]. split_and!; [exists (ERelay (cl_relay c) prepared :: ext); split; [rewrite Hl; cbn; by rewrite <- app_assoc|by apply one_more_same]|exact Hcm|by eexists _, _|].
      by right; right.
Qed.
End Sending.


(** ** Services for the witnesses: the first relay request is lost, the rest
    are accepted; the directory knows one peer *)
#[global] Instance sample_net : Network := {|
  nw_dial := fun _ _ _ => Ok tt;
  nw_challenge := fun _ _ => Ok (Some [x09]);
  nw_exchange := fun _ _ frame => Ok
    match decode_dir_request frame with
    | Some (DirLookup _) => encode_dir_response (RFound (replicate 32 x09) [x09])
    | Some (DirRegister _ _ _ _) => encode_dir_response RRegistered
    | Some (DirWitness _ _ _) => encode_dir_response RFresh
    | Some _ => encode_dir_response RNotFound
    | None => Some [x01]
    end;
  nw_request := fun l _ _ => if existsb sent_event l then Ok [x01] else Err NetOther
|}.

Definition sample_draws : nat -> Draw := fun _ => tt.
Definition sample_bob : DeviceAddr := mkAddr (bstr "acme/bob") 1.
Definition sample_client : Client :=
  with_store (new_client (mkParty (mkAddress (bstr "acme/alice") x01) x07 None ∅) (mkDirConn 0 [x09]) 0 (mkAddr (bstr "acme/alice") 1) [] []) true 5.
Definition sample_world : World := mkWorld [] 0 (5 : @Store sample_secure).
Definition sample_send : CState * outcome unit := send sample_draws sample_bob (bstr "hi") (sample_client, sample_world).

