(* ===== verification/ClientRestore.v ===== *)
(** * ClientRestore: what a restored client resumes
    ([tacenta-client/src/lib.rs])

    The calls on a connected client as one type, the ways to come by one, and
    what a sealed state exported by a reachable client gives when it is offered
    again: the sessions it was exported with, or none. *)

From S2P Require Import Prelude Framing Wire Relay RelayProtocol DirectoryProtocol DirServer AccountsCodec Provisioning.
From S2P Require Import GroupRecords GroupClient GroupDrive Provider Seal ClientState PairwiseClient.

(** ** Calls and openings *)
Inductive ClientOp :=
| OpSend (to : DeviceAddr) (message : bytes)
| OpPrepareGroup (to : DeviceAddr) (identity context : bytes)
| OpDispatchGroup (to : DeviceAddr) (ciphertext : bytes)
| OpDrain
| OpFetch
| OpOpenStaged (m : StoredMessage)
| OpAcknowledge (from count : Z)
| OpExportSealed
| OpCheckpoint
| OpReconnect
| OpRotate
| OpRestoreInPlace (state : bytes)
| OpAttach
| OpWatermark (devices : list DeviceAddr)
| OpFind (username : bytes).

Inductive Opening :=
| ByConnect (cfg : ClientConfig)
| ByIdentity (cfg : ClientConfig) (identity : bytes)
| ByState (cfg : ClientConfig) (state : bytes)
| BySealed (cfg : ClientConfig) (state : bytes)
| BySignIn (cfg : AccountConfig)
| BySignInIdentity (cfg : AccountConfig) (identity : bytes)
| BySignInState (cfg : AccountConfig) (state : bytes)
| BySignInSealed (cfg : AccountConfig) (state : bytes).

Section Life.
Context {engine : Engine} {mac : Mac} {secure : SecureStore} {net : Network} (draws : nat -> Draw).

Definition void {St A} (m : M St A) : M St unit := _ ← m; mret tt.

Definition client_call (op : ClientOp) : M CState unit :=
  match op with
  | OpSend to message => send draws to message
  | OpPrepareGroup to identity context => void (prepare_group_ciphertext draws to identity context)
  | OpDispatchGroup to ciphertext => dispatch_group_ciphertext draws to ciphertext
  | OpDrain => void (drain draws)
  | OpFetch => void fetch_staged
  | OpOpenStaged m => void (open_staged draws m)
  | OpAcknowledge from count => acknowledge_fetched from count
  | OpExportSealed => void export_state_sealed
  | OpCheckpoint => void (checkpoint draws)
  | OpReconnect => reconnect draws
  | OpRotate => rotate draws
  | OpRestoreInPlace state => restore_state_in_place state
  | OpAttach => attach_secure_store
  | OpWatermark devices => void (delivered_watermark devices)
  | OpFind username => void (find username)
  end.

Definition open_client (how : Opening) : M World Client :=
  match how with
  | ByConnect cfg => connect draws cfg
  | ByIdentity cfg identity => connect_with_identity draws cfg identity
  | ByState cfg state => connect_with_state draws cfg state
  | BySealed cfg state => connect_with_state_sealed draws cfg state
  | BySignIn cfg => sign_in draws cfg
  | BySignInIdentity cfg identity => sign_in_with_identity draws cfg identity
  | BySignInState cfg state => sign_in_with_state draws cfg state
  | BySignInSealed cfg state => sign_in_with_state_sealed draws cfg state
  end.

Definition sealed_opening (how : Opening) (state : bytes) : Prop :=
  (exists cfg, how = BySealed cfg state) \/ (exists cfg, how = BySignInSealed cfg state).

(** Whether a call let go of a ciphertext: it put a message on the wire, or
    handed one to the coordinator. *)
Definition lets_go (op : ClientOp) (w w' : World) (r : outcome unit) : bool :=
  match op, r with
  | OpSend _ _, _ => existsb sent_event (drop (length (w_log w)) (w_log w'))
  | OpPrepareGroup _ _ _, Done _ => true
  | _, _ => false
  end.

(** One call after another, and whether any let go of a ciphertext. *)
Fixpoint client_run (ops : list ClientOp) (st : CState) : CState * bool :=
  match ops with
  | [] => (st, false)
  | op :: ops =>
      let '(st', r) := client_call op st in
      let '(st'', b) := client_run ops st' in
      (st'', lets_go op st.2 st'.2 r || b)
  end.

(** The ranges of the types a call's arguments have. *)
Definition call_wf (op : ClientOp) : Prop :=
  match op with
  | OpSend to _ | OpPrepareGroup to _ _ | OpDispatchGroup to _ => addr_wf to
  | OpOpenStaged m => addr_wf (msg_from m)
  | _ => True
  end.

Inductive reachable : Client -> World -> Prop :=
| reach_open how w w' c : open_client how w = (w', Done c) -> reachable c w'
| reach_call op c w st r : call_wf op -> reachable c w -> client_call op (c, w) = (st, r) -> reachable st.1 st.2.
End Life.

(** ** Every session a client counts on is one its party holds *)
Section WellFormed.
Context {engine : Engine} {mac : Mac} {secure : SecureStore} {net : Network} (draws : nat -> Draw).

Definition held_by (p : OpenParty) (a : DeviceAddr) : Prop :=
  exists peer, peer_address a = Ok peer /\ device_addr peer = a /\ is_Some (pa_sessions p !! peer).

Record client_wf (c : Client) : Prop := {
  wf_sessions : forall a, a ∈ cl_sessions c -> held_by (cl_party c) a;
  wf_generation : u64_wf (cl_generation c);
  wf_provider : cl_provider c = own_provider
}.

Definition wf_kept (st st' : CState) : Prop := client_wf st.1 -> client_wf st'.1.
#[global] Instance wf_kept_preorder : PreOrder wf_kept.
Proof. split; [intros st H; exact H|]. intros a b c H1 H2 Ha. exact (H2 (H1 Ha)). Qed.

Lemma kept_on_world {A} (m : M World A) : keeps wf_kept (on_world m).
Proof. intros [c w]. unfold on_world, wf_kept. cbn. by destruct (m w). Qed.
Lemma kept_self : keeps wf_kept self.
Proof. intros st. cbn. reflexivity. Qed.
Lemma kept_modify f : (forall c, client_wf c -> client_wf (f c)) -> keeps wf_kept (modify f).
Proof. intros Hf [c w]. exact (Hf c). Qed.

(** A party that holds at least the sessions of another. *)
Definition grows (p p' : OpenParty) : Prop := forall a, is_Some (pa_sessions p !! a) -> is_Some (pa_sessions p' !! a).

Lemma wf_party c p : grows (cl_party c) p -> client_wf c -> client_wf (with_party c p).
Proof.
  intros Hg [Hs Hgen Hp]. split; [|done..]. intros a Ha. destruct (Hs a Ha) as (peer & H1 & H2 & H3). exists peer. split; [done|]. split; [done|by apply Hg].
Qed.

Lemma kept_party {A} (f : OpenParty -> OpenParty * result OpenError A) : (forall p, grows p (f p).1) -> keeps wf_kept (call_party f).
Proof. intros Hf [c w] Hwf. unfold call_party. cbn. specialize (Hf (cl_party c)). destruct (f (cl_party c)) as [p r]. by apply wf_party. Qed.

Lemma grows_refl p : grows p p.
Proof. by intros a. Qed.
Lemma grows_peer p peer s : grows p (with_peer p peer s).
Proof. intros a Ha. cbn. destruct (decide (a = peer)) as [->|Hne]; [by rewrite lookup_insert_eq|by rewrite lookup_insert_ne]. Qed.

Lemma grows_establish p peer bundle identity d : grows p (establish_session_for p peer bundle identity d).1.
Proof. unfold establish_session_for. destruct (mbind _ _); [apply grows_peer|apply grows_refl]. Qed.
Lemma grows_encrypt p peer m d : grows p (encrypt p peer m d).1.
Proof. unfold encrypt. destruct (pa_sessions p !! peer) as [s|]; [|apply grows_refl]. destruct (session_encrypt s m d). apply grows_peer. Qed.

Lemma grows_responder p peer m d : grows p (establish_or_refuse p peer m d).1.
Proof.
  unfold establish_or_refuse. destruct (pa_prekeys p) as [store|]; [|apply grows_refl].
  destruct (establish_responder _ _ _ _) as [store' [[s x]|]]; [|by intros a]. apply (grows_peer (with_prekeys p (Some store'))).
Qed.
Lemma grows_trans p q r : grows p q -> grows q r -> grows p r.
Proof. intros H1 H2 a Ha. by apply H2, H1. Qed.
Lemma grows_decrypt p peer m d1 d2 : grows p (decrypt p peer m d1 d2).1.
Proof.
  unfold decrypt. destruct (message_type m) as [[]|]; [| |apply grows_refl].
  - destruct (pa_sessions p !! peer) as [s|]; [|apply grows_responder]. destruct (session_decrypt s m d1) as [s' [x|]]; [apply grows_peer|].
    eapply grows_trans; [apply grows_peer|apply grows_responder].
  - destruct (pa_sessions p !! peer) as [s|]; [|apply grows_refl]. destruct (session_decrypt s m d1) as [s' out]. apply grows_peer.
Qed.

(** What a successful call leaves a session for. *)
Lemma establish_holds p peer bundle identity d p' x : establish_session_for p peer bundle identity d = (p', Ok x) -> is_Some (pa_sessions p' !! peer).
Proof. unfold establish_session_for. destruct (mbind _ _) as [s|]; intros [= <- <-]. cbn. by rewrite lookup_insert_eq. Qed.
Lemma decrypt_holds p peer m d1 d2 p' x : decrypt p peer m d1 d2 = (p', Ok x) -> is_Some (pa_sessions p' !! peer).
Proof.
  intros H. apply decrypt_spec in H as [_ H].
  inversion H as [s s' x' Hs Hm Hd Hp|store store' s x' Hm Hs Hk He Hk' Hs'|]; subst; [cbn; by rewrite lookup_insert_eq|by rewrite Hs'].
Qed.

Lemma peer_address_device a peer : 0 <= device a -> peer_address a = Ok peer -> device_addr peer = a.
Proof.
  intros Hd. unfold peer_address, u8_try_from. destruct (Z.leb_spec (device a) u8_max); cbn; [|done]. intros [= <-]. destruct a as [u d]. cbn in *.
  unfold device_addr. cbn. f_equal. rewrite byte_val_of. apply Z.mod_small. unfold u8_max in *. lia.
Qed.
Lemma device_peer_address peer : peer_address (device_addr peer) = Ok peer.
Proof.
  unfold peer_address, u8_try_from. cbn. pose proof (byte_val_range (ad_device peer)). destruct (Z.leb_spec (byte_val (ad_device peer)) u8_max); [|unfold u8_max in *; lia].
  cbn. rewrite byte_of_val. by destruct peer.
Qed.

(** Counting on a session the party holds. *)
Lemma note_held a c w : client_wf c -> held_by (cl_party c) a -> client_wf (note_session a (c, w)).1.1.
Proof.
  intros [Hs Hg Hp] Ha. unfold note_session, self, mbind, act_bind. cbn [fst snd]. destruct (bool_decide (a ∈ cl_sessions c)); [done|].
  unfold modify, expect. cbn [fst snd cl_generation with_sessions].
  assert (forall b, b ∈ {[a]} ∪ cl_sessions c -> held_by (cl_party c) b) as Hin by (intros b [->%elem_of_singleton|Hb]%elem_of_union; [done|by apply Hs]).
  unfold checked_add64. destruct (Z.leb_spec (cl_generation c + 1) u64_max); cbn [fst snd]; split; try done. unfold u64_wf in *. cbn. lia.
Qed.

(** A party call and the session it leaves. *)
Lemma call_party_held {A} (f : OpenParty -> OpenParty * result OpenError A) a peer c w st x :
  (forall p, grows p (f p).1) -> (forall p p' y, f p = (p', Ok y) -> is_Some (pa_sessions p' !! peer)) ->
  peer_address a = Ok peer -> 0 <= device a -> client_wf c -> call_party f (c, w) = (st, Done x) ->
  client_wf st.1 /\ held_by (cl_party st.1) a.
Proof.
  intros Hg Hh Hp Hd Hwf H. unfold call_party in H. cbn [fst snd] in H. specialize (Hg (cl_party c)). specialize (Hh (cl_party c)).
  destruct (f (cl_party c)) as [p [y|e]]; [|done]. injection H as <- _. split; [by apply wf_party|].
  exists peer. split; [done|]. split; [by apply peer_address_device|]. by apply (Hh p y).
Qed.

#[local] Hint Resolve kept_on_world kept_self : keeps.
#[local] Hint Extern 1 (keeps wf_kept (modify _)) => apply kept_modify; intros ? []; split; done : keeps.

Lemma kept_reconnect : keeps wf_kept (reconnect draws).
Proof. keeps_call @reconnect. Qed.
#[local] Hint Resolve kept_reconnect : keeps.
Lemma kept_patience n : forall delay r, keeps wf_kept (patience draws n delay r).
Proof. induction n as [|n IH]; intros delay r; cbn [patience]; keeps_steps. Qed.
#[local] Hint Resolve kept_patience : keeps.
Lemma kept_reconnect_with_patience : keeps wf_kept (reconnect_with_patience draws).
Proof. keeps_call @reconnect_with_patience. Qed.
Lemma kept_commit : keeps wf_kept commit_ratchet_advance.
Proof. keeps_call @commit_ratchet_advance. Qed.
Lemma kept_attach : keeps wf_kept attach_secure_store.
Proof. keeps_call @attach_secure_store. Qed.
Lemma kept_discard : keeps wf_kept discard_sessions.
Proof. apply kept_modify. intros c [Hs Hg Hp]. split; [|done..]. cbn. set_solver. Qed.
Lemma kept_fetch_bundle to : keeps wf_kept (fetch_bundle to).
Proof. keeps_call @fetch_bundle. Qed.
#[local] Hint Resolve kept_reconnect_with_patience kept_commit kept_attach kept_discard kept_fetch_bundle : keeps.
Lemma kept_lookup_bundle to : keeps wf_kept (lookup_bundle draws to).
Proof. keeps_call @lookup_bundle. Qed.
Lemma kept_checkpoint : keeps wf_kept (checkpoint draws).
Proof. keeps_call @checkpoint. Qed.
Lemma kept_export_sealed : keeps wf_kept export_state_sealed.
Proof. keeps_call @export_state_sealed. Qed.
Lemma kept_fetch_staged : keeps wf_kept fetch_staged.
Proof. keeps_call @fetch_staged. Qed.
Lemma kept_acknowledge from count : keeps wf_kept (acknowledge_fetched from count).
Proof. keeps_call @acknowledge_fetched. Qed.
Lemma kept_watermark devices : keeps wf_kept (delivered_watermark devices).
Proof. keeps_call @delivered_watermark. Qed.
Lemma kept_row_find username : keeps wf_kept (find username).
Proof. keeps_call @find. Qed.
Lemma kept_dispatch prepared : keeps wf_kept (dispatch_prepared_send draws prepared).
Proof. keeps_call @dispatch_prepared_send. Qed.
Lemma kept_dispatch_group to ciphertext : keeps wf_kept (dispatch_group_ciphertext draws to ciphertext).
Proof. intros. unfold dispatch_group_ciphertext, prepared_send. keeps_steps. Qed.
Lemma kept_rotate : keeps wf_kept (rotate draws).
Proof.
  keeps_call @rotate.
Qed.
#[local] Hint Resolve kept_lookup_bundle kept_fetch_staged kept_acknowledge kept_dispatch : keeps.

(** First contact. *)
Lemma kept_establish_for to peer bundle identity : peer_address to = Ok peer -> 0 <= device to ->
  keeps wf_kept (establish_for draws to peer bundle identity).
Proof.
  intros Hp Hd. unfold establish_for. apply keeps_bind; [apply _|apply kept_on_world|intros d].
  intros [c w] Hwf. unfold mbind, act_bind.
  destruct (call_party (fun p => establish_session_for p peer bundle identity d) (c, w)) as [[c1 w1] [x|e|]] eqn:E.
  - eapply call_party_held in E as [H1 H2]; [by apply note_held|..]; try done; [intros p; apply grows_establish|intros p p' y; apply establish_holds].
  - pose proof (kept_party (fun p => establish_session_for p peer bundle identity d) (fun p => grows_establish p _ _ _ _) (c, w) Hwf) as H. by rewrite E in H.
  - pose proof (kept_party (fun p => establish_session_for p peer bundle identity d) (fun p => grows_establish p _ _ _ _) (c, w) Hwf) as H. by rewrite E in H.
Qed.
#[local] Hint Resolve kept_establish_for : keeps.
Lemma kept_ensure_session to peer : peer_address to = Ok peer -> 0 <= device to -> keeps wf_kept (ensure_session draws to peer).
Proof. keeps_call @ensure_session. Qed.

(** The steps after an address was checked. *)
Lemma kept_address {B} a (k : Address -> M CState B) : (forall peer, peer_address a = Ok peer -> keeps wf_kept (k peer)) ->
  keeps wf_kept (of_result (peer_address a) ≫= k).
Proof. intros Hk st. unfold of_result, mbind, act_bind. destruct (peer_address a) as [peer|e]; [exact (Hk peer eq_refl st)|cbn; reflexivity]. Qed.

Lemma kept_encrypt peer m d : keeps wf_kept (call_party (fun p => encrypt p peer m d)).
Proof. apply kept_party. intros p. apply grows_encrypt. Qed.
#[local] Hint Resolve kept_ensure_session kept_encrypt : keeps.
Lemma kept_prepare to message k : addr_wf to -> keeps wf_kept (prepare_send_as draws to message k).
Proof.
  intros [_ [Hd _]]. unfold prepare_send_as, prepared_send. destruct (len message >? MAX_MESSAGE_BYTES); [auto with keeps|].
  apply kept_address. intros peer Hp. keeps_steps.
Qed.
Lemma kept_send to message : addr_wf to -> keeps wf_kept (send draws to message).
Proof. intros Hto. unfold send, send_as. pose proof (kept_prepare to message Dm Hto). keeps_steps. Qed.

Lemma kept_encrypt_with_outcome peer m d :
  keeps wf_kept (call_party (fun p => let '(p, operation) := encrypt_with_outcome p peer m d in (p, Ok operation))).
Proof.
  apply kept_party. intros p. unfold encrypt_with_outcome. pose proof (grows_encrypt p peer m d). by destruct (encrypt p peer m d).
Qed.
#[local] Hint Resolve kept_encrypt_with_outcome : keeps.
Lemma kept_prepare_group to identity context : addr_wf to -> keeps wf_kept (prepare_group_ciphertext draws to identity context).
Proof.
  intros [_ [Hd _]]. unfold prepare_group_ciphertext. destruct (len context >? MAX_MESSAGE_BYTES); [auto with keeps|].
  apply kept_address. intros peer Hp. keeps_steps.
Qed.

(** Reading. *)
Lemma kept_open_direct m : addr_wf (msg_from m) -> keeps wf_kept (open_direct draws m).
Proof.
  intros [_ [Hd _]]. unfold open_direct. destruct (peer_address (msg_from m)) as [peer|e] eqn:Ep; [|auto with keeps].
  apply keeps_bind; [apply _|apply kept_on_world|intros d1]. apply keeps_bind; [apply _|apply kept_on_world|intros d2].
  intros [c w] Hwf. unfold mbind, act_bind, attempt. set (f := fun p => decrypt p peer (payload (msg_envelope m)) d1 d2).
  pose proof (kept_party f (fun p => grows_decrypt p _ _ _ _) (c, w) Hwf) as Hk.
  destruct (call_party f (c, w)) as [[c1 w1] [x|e|]] eqn:E; [|exact Hk..].
  destruct (call_party_held f (msg_from m) peer c w (c1, w1) x) as [H1 H2]; try done; [intros p; apply grows_decrypt|intros p p' y; apply decrypt_holds|].
  pose proof (note_held (msg_from m) c1 w1 H1 H2) as Hn. by destruct (note_session (msg_from m) (c1, w1)) as [st [[]|e|]].
Qed.

(** A state that is well formed after [m] is after what follows. *)
Lemma wf_then {A B} (m : M CState A) (k : A -> M CState B) st :
  client_wf (m st).1.1 -> (forall a, keeps wf_kept (k a)) -> client_wf ((m ≫= k) st).1.1.
Proof. intros Hm Hk. unfold mbind, act_bind. destruct (m st) as [st1 [a|e|]]; [|exact Hm..]. exact (Hk a st1 Hm). Qed.

Lemma kept_open_staged m : addr_wf (msg_from m) -> keeps wf_kept (open_staged draws m).
Proof.
  intros [_ [Hd _]]. unfold open_staged. destruct (peer_address (msg_from m)) as [peer|e] eqn:Ep; [|auto with keeps].
  apply keeps_bind; [apply _|apply kept_on_world|intros d1]. apply keeps_bind; [apply _|apply kept_on_world|intros d2].
  intros [c w] Hwf. unfold mbind at 1, act_bind at 1, call_party, decrypt_with_outcome. cbn [fst snd].
  pose proof (grows_decrypt (cl_party c) peer (payload (msg_envelope m)) d1 d2) as Hg.
  pose proof (decrypt_holds (cl_party c) peer (payload (msg_envelope m)) d1 d2) as Hh.
  destruct (decrypt (cl_party c) peer (payload (msg_envelope m)) d1 d2) as [p r]. cbn [fst crypto op_state_effect op_result op_authenticated_peer] in *.
  assert (client_wf (with_party c p)) as Hwf' by (by apply wf_party).
  destruct r as [x|e].
  - rewrite (bool_decide_eq_true_2 (is_Some (Some x))) by by eexists. apply wf_then; [apply wf_then|intros; keeps_steps].
    + apply note_held; [done|]. exists peer. split; [done|]. split; [by apply peer_address_device|]. by apply (Hh p x).
    + intros; keeps_steps.
  - rewrite (bool_decide_eq_false_2 (is_Some None)) by (by intros [? ?]). apply wf_then; [exact Hwf'|intros; keeps_steps].
Qed.

#[local] Hint Resolve kept_open_direct : keeps.
Lemma kept_open_batch messages : Forall message_wf messages -> keeps wf_kept (open_batch draws messages).
Proof.
  induction 1 as [|m messages Hm _ IH]; cbn [open_batch]; [auto with keeps|]. pose proof (kept_open_direct m Hm). keeps_steps.
Qed.

Lemma fetched_wf st st' f : fetch_staged st = (st', Done f) -> Forall message_wf (fe_messages f).
Proof.
  intros H. unfold fetch_staged in H. apply bind_Done in H as (st1 & c & _ & H). apply bind_Done in H as (st2 & poll & _ & H).
  apply bind_Done in H as (st3 & answer & _ & H). destruct (decode_response answer) as [[]|] eqn:E; try done. injection H as _ <-.
  by apply relay_response_exact in E as [[_ Hm] _].
Qed.

Lemma kept_poll_batch : keeps wf_kept (poll_batch draws).
Proof.
  intros st. unfold poll_batch. unfold mbind at 1, act_bind at 1. pose proof (kept_fetch_staged st) as Hk.
  destruct (fetch_staged st) as [st1 [f|e|]] eqn:E; [|exact Hk..]. apply fetched_wf in E. etransitivity; [exact Hk|].
  pose proof (kept_open_batch _ E). refine ((_ : keeps wf_kept _) st1). keeps_steps.
Qed.
#[local] Hint Resolve kept_poll_batch : keeps.
Lemma kept_drain : keeps wf_kept (drain draws).
Proof. keeps_call @drain. Qed.

(** Restoring. *)
Lemma import_loop_holds n : forall p restored rest p' r, import_loop n p restored rest = (p', r) ->
  grows p p' /\ match r with Ok l => exists new, l = restored ++ new /\ Forall (fun peer => is_Some (pa_sessions p' !! peer)) new | Err _ => True end.
Proof.
  induction n as [|n IH]; intros p restored rest p' r H; cbn [import_loop] in H.
  - injection H as <- <-. split; [apply grows_refl|]. destruct rest; [|done]. exists []. by rewrite app_nil_r.
  - destruct (take_peer rest) as [[[peer s] rest']|e]; [|injection H as <- <-; split; [apply grows_refl|done]].
    apply IH in H as [Hg Hr]. split; [eapply grows_trans; [apply grows_peer|exact Hg]|]. destruct r as [l|e]; [|done].
    destruct Hr as (new & -> & Hn). exists (peer :: new). split; [by rewrite <- app_assoc|]. constructor; [|done]. apply Hg. cbn. by rewrite lookup_insert_eq.
Qed.

Lemma import_holds p bs p' r : import_sessions p bs = (p', r) ->
  grows p p' /\ match r with Ok l => Forall (fun peer => is_Some (pa_sessions p' !! peer)) l | Err _ => True end.
Proof.
  unfold import_sessions. destruct (take_u32 bs) as [[n rest]|]; [|intros [= <- <-]; split; [apply grows_refl|done]].
  intros H. apply import_loop_holds in H as [Hg Hr]. split; [done|]. destruct r; [|done]. by destruct Hr as (new & -> & Hn).
Qed.

Lemma kept_restore_sessions provider sessions : keeps wf_kept (restore_sessions provider sessions).
Proof.
  unfold restore_sessions. destruct (negb _); [auto with keeps|]. intros [c w] Hwf. unfold mbind, act_bind, call_party. cbn [fst snd].
  destruct (import_sessions (cl_party c) sessions) as [p r] eqn:E. apply import_holds in E as [Hg Hr].
  pose proof (wf_party c p Hg Hwf) as Hwf'. destruct r as [l|e]; [|exact Hwf']. unfold modify. cbn [crypto fst].
  destruct Hwf' as [Hs Hgen Hp]. split; [|done..]. cbn. intros a [Ha|Ha]%elem_of_union; [|by apply Hs].
  apply elem_of_list_to_set, list_elem_of_fmap in Ha as (peer & -> & Hpeer). rewrite Forall_forall in Hr.
  exists peer. split; [apply device_peer_address|]. split; [done|by apply Hr].
Qed.
#[local] Hint Resolve kept_restore_sessions : keeps.

Lemma split_generation state split : split_state state = Ok split -> u64_wf (sp_generation split).
Proof.
  assert (u64_wf 0) as H0 by (split; unfold u64_max; lia). unfold split_state, split_tagged, take_sections. intros H.
  destruct (split_first state) as [[b rest]|]; [destruct (bool_decide (b = STATE_TAGGED))|]; [|by inv_bind..]. inv_bind.
  repeat match type of H with (if ?t then _ else _) = _ => destruct t end; inv_bind; cbn [sp_generation]; try done.
  match goal with E : take_u64 _ = Some _ |- _ => by apply take_u64_inv in E as [Hw _] end.
Qed.

Lemma kept_restore_in_place state : keeps wf_kept (restore_state_in_place state).
Proof.
  unfold restore_state_in_place. intros [c w] Hwf. unfold mbind at 1, act_bind at 1, of_result at 1. destruct (split_state state) as [split|e] eqn:Es; [|exact Hwf].
  apply split_generation in Es. refine ((_ : keeps wf_kept _) (c, w) Hwf). keeps_steps.
Qed.
End WellFormed.

(** ** Opening a client *)
Section Openings.
Context {engine : Engine} {mac : Mac} {secure : SecureStore} {net : Network} (draws : nat -> Draw).

Definition same_store (w w' : World) : Prop := w_store w' = w_store w.
#[global] Instance same_store_preorder : PreOrder same_store.
Proof. split; [by intros w|]. intros a b c H1 H2. unfold same_store in *. congruence. Qed.

Lemma store_emit e : keeps same_store (emit e).
Proof. by intros w. Qed.
Lemma store_log : keeps same_store log.
Proof. by intros w. Qed.
Lemma store_draw : keeps same_store (draw draws).
Proof. by intros w. Qed.
Lemma store_io {A} (r : result NetError A) : keeps same_store (io r).
Proof. apply keeps_of_result; apply _. Qed.
#[local] Hint Resolve store_emit store_log store_draw store_io : keeps.

(** A client just made of a party: no session counted on, no store. *)
Record fresh_client (party : OpenParty) (c : Client) : Prop := {
  fc_identity : pa_identity (cl_party c) = pa_identity party;
  fc_held : pa_sessions (cl_party c) = pa_sessions party;
  fc_sessions : cl_sessions c = ∅;
  fc_provider : cl_provider c = own_provider;
  fc_generation : cl_generation c = 0;
  fc_attached : cl_attached c = false
}.

Lemma fresh_wf party c : fresh_client party c -> client_wf c.
Proof. intros []. split; [set_solver|by split; rewrite fc_generation0; unfold u64_max|done]. Qed.

Lemma published_Done party w w' p b : published draws party w = (w', Done (p, b)) ->
  pa_identity p = pa_identity party /\ pa_sessions p = pa_sessions party.
Proof.
  intros H. unfold published in H. apply bind_Done in H as (w1 & d1 & _ & H). apply bind_Done in H as (w2 & d2 & _ & H). injection H as _ Hp.
  unfold publish_bundle in Hp. destruct (one_time_remaining _) as [cl kl]. by injection Hp as <- _.
Qed.

Lemma deposit_Done party directory me w w' p : deposit_one_time draws party directory me w = (w', Done p) ->
  pa_identity p = pa_identity party /\ pa_sessions p = pa_sessions party.
Proof.
  intros H. unfold deposit_one_time in H. apply bind_Done in H as (w1 & d1 & _ & H). unfold publish_one_time_batch in H.
  destruct (_ <$> _) as [|b l]; [by injection H as _ <-|]. apply bind_Done in H as (w2 & d2 & _ & H). apply bind_Done in H as (w3 & r & _ & H). by injection H as _ <-.
Qed.

Lemma connect_fresh cfg party w w' c : connect_with_party draws cfg party w = (w', Done c) ->
  fresh_client party c /\ cl_me c = mkAddr (cf_user cfg) (byte_val (cf_device cfg)) /\ w_store w' = w_store w.
Proof.
  intros H. assert (keeps same_store (connect_with_party draws cfg party)) as Hk by keeps_call @connect_with_party.
  specialize (Hk w). rewrite H in Hk. unfold connect_with_party in H.
  apply bind_Done in H as (w1 & [p b] & Hp & H). apply published_Done in Hp as [Hi Hs].
  apply bind_Done in H as (w2 & dir & _ & H). apply bind_Done in H as (w3 & d & _ & H). apply bind_Done in H as (w4 & out & _ & H).
  assert (forall x, x = (p' ← deposit_one_time draws p dir (mkAddr (cf_user cfg) (byte_val (cf_device cfg)));
     relay ← dial_relay draws (cf_relay cfg) (mkAddr (cf_user cfg) (byte_val (cf_device cfg))) p';
     mret (new_client p' dir relay (mkAddr (cf_user cfg) (byte_val (cf_device cfg))) (cf_directory cfg) (cf_relay cfg))) w4 -> x = (w', Done c) ->
     fresh_client party c /\ cl_me c = mkAddr (cf_user cfg) (byte_val (cf_device cfg)) /\ w_store w' = w_store w) as Hend.
  { intros x -> Hx. apply bind_Done in Hx as (w5 & p' & Hd & Hx). apply deposit_Done in Hd as [Hi' Hs'].
    apply bind_Done in Hx as (w6 & relay & _ & Hx). injection Hx as _ <-. split; [|done]. split; cbn; congruence. }
  destruct out; try done; exact (Hend _ eq_refl H).
Qed.

Lemma sign_in_fresh cfg party w w' c : sign_in_with_party draws cfg party w = (w', Done c) ->
  fresh_client party c /\ w_store w' = w_store w.
Proof.
  intros H. assert (keeps same_store (sign_in_with_party draws cfg party)) as Hk by keeps_call @sign_in_with_party.
  specialize (Hk w). rewrite H in Hk. split; [|exact Hk]. clear Hk. unfold sign_in_with_party in H.
  apply bind_Done in H as (w1 & conn & _ & H). apply bind_Done in H as (w2 & resp & _ & H). apply bind_Done in H as (w3 & token & _ & H).
  apply bind_Done in H as (w4 & [p b] & Hp & H). apply published_Done in Hp as [Hi Hs].
  apply bind_Done in H as (w5 & prov & _ & H). apply bind_Done in H as (w6 & d & _ & H). apply bind_Done in H as (w7 & frame & _ & H).
  apply bind_Done in H as (w8 & answer & _ & H). apply bind_Done in H as (w9 & out & _ & H). destruct out; try done.
  apply bind_Done in H as (w10 & dir & _ & H). apply bind_Done in H as (w11 & relay & _ & H). injection H as _ <-. split; cbn; congruence.
Qed.

Lemma with_client_Done c m w w' c' : with_client c m w = (w', Done c') <-> m (c, w) = ((c', w'), Done tt).
Proof.
  unfold with_client. destruct (m (c, w)) as [[c1 w1] [[]|e|]]; (split; [|try done]); try done.
  - by intros [= <- <-].
  - by intros [= <- <-].
Qed.
End Openings.

Section Reachable.
Context {engine : Engine} {mac : Mac} {secure : SecureStore} {laws : SecureStoreLaws} {net : Network} (draws : nat -> Draw).

(** The store answered both questions of a blob that opened. *)
Lemma open_sealed_answers s state o : (open_sealed s state).2 = Ok o ->
  exists s1 s2 key highest, wrap_key s = (s1, Ok key) /\ rollback_counter s1 = (s2, Ok highest).
Proof.
  unfold open_sealed. intros H. destruct (split_first state) as [[b rest]|]; [|done]. destruct (negb _); [done|].
  destruct (split_first rest) as [[version sealed]|]; [|done]. destruct (_ && _); [done|].
  destruct (wrap_key s) as [s1 [key|e]] eqn:Ek; [|done]. destruct (mbind _ _) as [[[[g bound] body] counter]|e]; [|done].
  destruct (rollback_counter s1) as [s2 [h|e]] eqn:Ec; [|done]. by exists s1, s2, key, h.
Qed.

Lemma opened_generation s state o : (open_sealed s state).2 = Ok o -> u64_wf (op_generation o).
Proof.
  intros H. destruct (open_sealed_answers _ _ _ H) as (s1 & s2 & key & h & Hk & Hc). destruct (open_sealed_shape _ _ _ H) as (v & sealed & -> & Hv).
  by apply (open_sealed_iff s s1 s2 key h Hk Hc) in H as (counter & Hg & _).
Qed.

Lemma open_state_Done state w w' o : open_state state w = (w', Done o) ->
  (open_sealed (w_store w) state).2 = Ok o /\ install_key (w_store w') = install_key (w_store w) /\ committed (w_store w') = committed (w_store w).
Proof.
  unfold open_state. pose proof (open_sealed_store (w_store w) state) as [Hk Hc]. destruct (open_sealed (w_store w) state) as [s [o'|e]]; [|done].
  by intros [= <- <-].
Qed.

Lemma kept_resume_state split : u64_wf (sp_generation split) -> keeps wf_kept (resume_state split).
Proof.
  intros Hg. unfold resume_state. apply keeps_bind; [apply _|apply kept_restore_sessions|intros _].
  apply kept_modify. intros c [Hs _ Hp]. split; done.
Qed.
Lemma kept_resume_sealed opened split : u64_wf (op_generation opened) -> keeps wf_kept (resume_sealed draws opened split).
Proof.
  intros Hg. unfold resume_sealed. repeat (apply keeps_bind; [apply _| |intros _]).
  - apply kept_restore_sessions.
  - apply kept_modify. intros c [Hs _ Hp]. split; done.
  - apply kept_attach.
  - destruct (op_stale opened); [apply kept_discard|apply keeps_ret; apply _].
  - apply keeps_attempt, kept_checkpoint.
  - apply keeps_ret; apply _.
Qed.

Lemma with_client_wf c m w w' c' : client_wf c -> keeps wf_kept m -> with_client c m w = (w', Done c') -> client_wf c'.
Proof. intros Hc Hm H. apply with_client_Done in H. specialize (Hm (c, w) Hc). by rewrite H in Hm. Qed.

(** Past the checks, an opening is a connection and what is resumed on it. *)
Lemma open_client_wf how w w' c : open_client draws how w = (w', Done c) -> client_wf c.
Proof.
  destruct how as [cfg|cfg i|cfg st|cfg st|cfg|cfg i|cfg st|cfg st]; cbn [open_client]; intros H.
  - apply bind_Done in H as (w1 & d & _ & H). apply connect_fresh in H as [H _]. by eapply fresh_wf.
  - apply bind_Done in H as (w1 & d & _ & H). apply connect_fresh in H as [H _]. by eapply fresh_wf.
  - apply bind_Done in H as (w1 & split & Hs & H). apply bind_Done in H as (w2 & p & _ & H). apply bind_Done in H as (w3 & c3 & Hc & H).
    apply connect_fresh in Hc as [Hc _]. unfold of_result in Hs. destruct (split_state st) as [sp|] eqn:Es; [|done]. injection Hs as _ <-.
    eapply with_client_wf; [by eapply fresh_wf| |exact H]. apply kept_resume_state. by eapply split_generation.
  - apply bind_Done in H as (w1 & o & Ho & H). apply open_state_Done in Ho as [Ho _]. apply bind_Done in H as (w2 & _ & _ & H).
    apply bind_Done in H as (w3 & split & _ & H). apply bind_Done in H as (w4 & p & _ & H). apply bind_Done in H as (w5 & c3 & Hc & H).
    apply connect_fresh in Hc as [Hc _]. eapply with_client_wf; [by eapply fresh_wf| |exact H]. apply kept_resume_sealed. by eapply opened_generation.
  - apply bind_Done in H as (w1 & d & _ & H). apply sign_in_fresh in H as [H _]. by eapply fresh_wf.
  - apply bind_Done in H as (w1 & d & _ & H). apply sign_in_fresh in H as [H _]. by eapply fresh_wf.
  - apply bind_Done in H as (w1 & split & Hs & H). apply bind_Done in H as (w2 & p & _ & H). apply bind_Done in H as (w3 & c3 & Hc & H).
    apply sign_in_fresh in Hc as [Hc _]. unfold of_result in Hs. destruct (split_state st) as [sp|] eqn:Es; [|done]. injection Hs as _ <-.
    eapply with_client_wf; [by eapply fresh_wf| |exact H]. apply kept_resume_state. by eapply split_generation.
  - apply bind_Done in H as (w1 & o & Ho & H). apply open_state_Done in Ho as [Ho _]. apply bind_Done in H as (w2 & _ & _ & H).
    apply bind_Done in H as (w3 & split & _ & H). apply bind_Done in H as (w4 & p & _ & H). apply bind_Done in H as (w5 & c3 & Hc & H).
    apply bind_Done in H as (w6 & _ & _ & H).
    apply sign_in_fresh in Hc as [Hc _]. eapply with_client_wf; [by eapply fresh_wf| |exact H]. apply kept_resume_sealed. by eapply opened_generation.
Qed.

Lemma keeps_void {St A} (R : St -> St -> Prop) `{!PreOrder R} (m : M St A) : keeps R m -> keeps R (void m).
Proof. intros Hm. apply keeps_bind; [done..|intros a; by apply keeps_ret]. Qed.

Lemma client_call_wf op : call_wf op -> keeps wf_kept (client_call draws op).
Proof.
  destruct op; cbn [call_wf client_call]; intros Hw; try (apply keeps_void; [apply _|]);
    auto using kept_send, kept_prepare_group, kept_dispatch_group, kept_drain, kept_fetch_staged, kept_open_staged, kept_acknowledge, kept_export_sealed,
      kept_checkpoint, kept_reconnect, kept_rotate, kept_restore_in_place, kept_attach, kept_watermark, kept_row_find.
Qed.

Lemma reachable_wf c w : reachable draws c w -> client_wf c.
Proof.
  induction 1 as [how w w' c H|op c w st r Hw _ IH H]; [by eapply open_client_wf|].
  pose proof (client_call_wf op Hw (c, w) IH) as Hk. by rewrite H in Hk.
Qed.
End Reachable.

(** ** What a run records *)
Section Recorded.
Context {engine : Engine} {mac : Mac} {secure : SecureStore} {laws : SecureStoreLaws} {net : Network} (draws : nat -> Draw).

(** Nothing leaves unrecorded: the key stays, the counter never falls, and it
    has risen when a client with a store let go of a ciphertext. *)
Record recording (st st' : CState) (gone : bool) : Prop := {
  rg_key : install_key (w_store st'.2) = install_key (w_store st.2);
  rg_committed : committed (w_store st.2) <= committed (w_store st'.2);
  rg_attached : cl_attached st.1 = true -> cl_attached st'.1 = true;
  rg_gone : cl_attached st.1 = true -> gone = true -> committed (w_store st.2) < committed (w_store st'.2)
}.

Lemma calm_recording st st' : calm st st' -> recording st st' false.
Proof. intros [[_ K C] A _]. by split. Qed.

Lemma recording_trans st1 st2 st3 b1 b2 : recording st1 st2 b1 -> recording st2 st3 b2 -> recording st1 st3 (b1 || b2).
Proof.
  intros [K1 C1 A1 G1] [K2 C2 A2 G2]. split; [congruence|lia|auto|]. intros Ha [Hb|Hb]%orb_prop.
  - specialize (G1 Ha Hb). lia.
  - specialize (G2 (A1 Ha) Hb). lia.
Qed.

Definition safe (st st' : CState) : Prop := recording st st' false.
#[global] Instance safe_preorder : PreOrder safe.
Proof. split; [intros st; split; done || lia|]. intros a b c. apply (recording_trans a b c false false). Qed.

Lemma calm_safe {A} (m : M CState A) : keeps calm m -> keeps safe m.
Proof. intros Hm st. apply calm_recording, Hm. Qed.

Lemma safe_relay_request conn bs : keeps safe (on_world (relay_request conn bs)).
Proof. intros [c w]. unfold on_world. cbn [fst snd]. rewrite relay_request_log. split; cbn; done || lia. Qed.
Lemma safe_dispatch prepared : keeps safe (dispatch_prepared_send draws prepared).
Proof.
  unfold dispatch_prepared_send. pose proof (calm_safe _ (keeps_reconnect_with_patience draws)). pose proof (calm_safe _ keeps_self).
  pose proof safe_relay_request. keeps_steps.
Qed.

Lemma unsent_existsb l : Forall (fun e => sent_event e = false) l -> existsb sent_event l = false.
Proof. induction 1 as [|e l He _ IH]; [done|]. cbn. by rewrite He. Qed.

Lemma send_recording to message st : recording st (send draws to message st).1
  (lets_go (OpSend to message) st.2 (send draws to message st).1.2 (send draws to message st).2).
Proof.
  destruct st as [c w]. unfold send, send_as, mbind, act_bind. pose proof (keeps_prepare draws to message Dm (c, w)) as Hcalm.
  destruct (prepare_send_as draws to message Dm (c, w)) as [[c1 w1] [bs|e|]] eqn:E; cbn [fst snd] in *.
  2,3: replace (lets_go _ _ _ _) with false; [by apply calm_recording|];
    destruct Hcalm as [[(ext & Hl & Hf) _ _] _ _]; cbn [lets_go fst snd] in *; rewrite Hl, drop_app_length; symmetry; by apply unsent_existsb.
  apply prepare_Done in E as (ext & _ & _ & _ & Hrec). pose proof (safe_dispatch bs (c1, w1)) as [K C A _].
  destruct Hcalm as [[_ K1 C1] A1 _]. cbn [fst snd] in *. split; cbn [fst snd]; [congruence|lia|auto|].
  intros Ha _. destruct (Hrec Ha) as (_ & _ & H1 & H2). lia.
Qed.

Lemma group_recording to identity context st : recording st (prepare_group_ciphertext draws to identity context st).1
  (match (prepare_group_ciphertext draws to identity context st).2 with Done _ => true | _ => false end).
Proof.
  destruct st as [c w]. pose proof (keeps_prepare_group draws to identity context (c, w)) as Hcalm.
  destruct (prepare_group_ciphertext draws to identity context (c, w)) as [st' [x|e|]] eqn:E; [|by apply calm_recording..].
  apply calm_recording in Hcalm. destruct Hcalm as [K C A _]. split; [done..|]. cbn [fst snd] in *. intros Ha _.
  unfold prepare_group_ciphertext in E. destruct (len context >? MAX_MESSAGE_BYTES); [done|].
  apply bind_Done in E as (s1 & peer & Hp & E). unfold of_result in Hp. injection Hp as <- _. apply bind_Done in E as (s2 & c0 & [= <- <-] & E). cbn [fst] in E.
  apply bind_Done in E as (s3 & [] & H3 & E). apply bind_Done in E as (s4 & d & H4 & E). apply bind_Done in E as (s5 & operation & H5 & E).
  assert (calm (c, w) s5) as [[_ _ C5] A5 _].
  { transitivity s3; [|transitivity s4].
    - set (first := if bool_decide _ then _ else _) in H3. assert (keeps calm first) as Hk.
      { subst first. keeps_steps; auto using keeps_lookup_bundle, keeps_establish_for. }
      specialize (Hk (c, w)). by rewrite H3 in Hk.
    - pose proof (keeps_on_world (draw draws) (keeps_draw draws) s3) as Hk. by rewrite H4 in Hk.
    - pose proof (keeps_party (fun p => let '(p, operation) := encrypt_with_outcome p peer context d in (p, Ok operation)) s4) as Hk. by rewrite H5 in Hk. }
  destruct (negb _); [done|]. apply bind_Done in E as (s6 & ct & H6 & E). unfold of_result in H6. injection H6 as <- _.
  apply bind_Done in E as (s7 & [] & H7 & E). apply commit_Done in H7. cbn [fst snd] in *. rewrite (A5 Ha) in H7. destruct H7 as (a & _ & _ & -> & Hlt & _).
  apply bind_Done in E as (s8 & c8 & [= <- <-] & E). injection E as <- _. lia.
Qed.

Lemma client_call_recording op st st' r : client_call draws op st = (st', r) -> recording st st' (lets_go op st.2 st'.2 r).
Proof.
  intros H. assert (forall {A} (m : M CState A) b, keeps calm m -> void m st = (st', r) -> lets_go op st.2 st'.2 r = b -> b = false -> recording st st' b) as Hvoid.
  { intros A m b Hm Hv _ ->. apply calm_recording. pose proof (keeps_void _ m Hm st) as Hk. by rewrite Hv in Hk. }
  destruct op; cbn [client_call] in H; try (eapply Hvoid; [|exact H|reflexivity|reflexivity];
    auto using keeps_drain, keeps_fetch_staged, keeps_open_staged, keeps_export_sealed, keeps_checkpoint, keeps_watermark, keeps_find).
  - pose proof (send_recording to message st) as Hs. by rewrite H in Hs.
  - pose proof (group_recording to identity context st) as Hs. unfold void, mbind, act_bind in H. cbn [lets_go].
    destruct (prepare_group_ciphertext draws to identity context st) as [s [x|e|]]; injection H as <- <-; exact Hs.
  - cbn [lets_go]. assert (keeps safe (dispatch_group_ciphertext draws to ciphertext)) as Hk.
    { unfold dispatch_group_ciphertext, prepared_send. pose proof (safe_dispatch). destruct (_ >? _); [apply keeps_fail; apply _|].
      apply keeps_bind; [apply _|apply keeps_expect; apply _|done]. }
    specialize (Hk st). by rewrite H in Hk.
  - cbn [lets_go]. apply calm_recording. pose proof (keeps_acknowledge from count st) as Hk. by rewrite H in Hk.
  - cbn [lets_go]. apply calm_recording. pose proof (keeps_reconnect draws st) as Hk. by rewrite H in Hk.
  - cbn [lets_go]. apply calm_recording. pose proof (keeps_rotate draws st) as Hk. by rewrite H in Hk.
  - cbn [lets_go]. apply calm_recording. pose proof (keeps_restore_in_place state st) as Hk. by rewrite H in Hk.
  - cbn [lets_go]. apply calm_recording. pose proof (keeps_attach st) as Hk. by rewrite H in Hk.
Qed.

Lemma client_run_recording ops : forall st st' b, client_run draws ops st = (st', b) -> recording st st' b.
Proof.
  induction ops as [|op ops IH]; intros st st' b H; cbn [client_run] in H; [injection H as <- <-; exact (@reflexivity _ safe _ st)|].
  destruct (client_call draws op st) as [s1 r] eqn:E. destruct (client_run draws ops s1) as [s2 b2] eqn:Er. injection H as <- <-.
  eapply recording_trans; [by apply client_call_recording|by apply IH].
Qed.
End Recorded.

(** ** From the exported state to the restored client *)
Section Restored.
Context {engine : Engine} {elaws : EngineLaws} {mac : Mac} {secure : SecureStore} {laws : SecureStoreLaws} {net : Network} (draws : nat -> Draw).

(** What the Rust types and the length prefixes of a state hold. *)
Record export_fits (c : Client) : Prop := {
  ef_me : addr_wf (cl_me c) /\ lp_fits (user (cl_me c));
  ef_peers : forall peer s, pa_sessions (cl_party c) !! peer = Some s -> peer_fits peer s;
  ef_count : len (session_peers c) <= u32_max;
  ef_sessions : lp_fits (export_sessions (cl_party c) (session_peers c));
  ef_prekeys : lp_fits (default [] (export_prekeys (cl_party c)))
}.

Lemma export_sealed_Done c w st blob : export_state_sealed (c, w) = (st, Done blob) ->
  st.1 = c /\ cl_attached c = true /\ install_key (w_store st.2) = install_key (w_store w) /\ committed (w_store st.2) = committed (w_store w) /\
  blob = sealed_blob (install_key (w_store w)) (cl_me c) (export_body_v3 c) (cl_generation c) (committed (w_store w)).
Proof.
  intros H. unfold export_state_sealed in H. apply bind_Done in H as (s1 & c0 & [= <- <-] & H). cbn [fst] in H.
  destruct (cl_attached c) eqn:Ea; [|done]. cbn [negb] in H. apply bind_Done in H as (s2 & key & H1 & H). apply bind_Done in H as (s3 & counter & H2 & H).
  unfold on_world, store_call in H1, H2. cbn [fst snd w_store] in H1. destruct (wrap_key (w_store w)) as [t1 [k|e]] eqn:Ek; [|done]. injection H1 as <- <-.
  cbn [fst snd w_store] in H2. destruct (rollback_counter t1) as [t2 [n|e]] eqn:Ec; [|done]. injection H2 as <- <-. injection H as <- <-.
  apply wrap_key_law in Ek as (K1 & C1 & -> & _). apply rollback_counter_law in Ec as (K2 & C2 & ->). cbn. by rewrite K2, C2, K1, C1.
Qed.

Lemma session_peers_elem c peer : peer ∈ session_peers c <-> exists a, a ∈ cl_sessions c /\ peer_address a = Ok peer.
Proof.
  unfold session_peers. rewrite (sort_by_perm _ _), list_elem_of_omap. split.
  - intros (a & Ha & Hp). apply elem_of_elements in Ha. exists a. split; [done|]. by destruct (peer_address a) as [q|]; [injection Hp as ->|].
  - intros (a & Ha & Hp). exists a. split; [by apply elem_of_elements|]. by rewrite Hp.
Qed.

Lemma session_peers_set c : client_wf c -> list_to_set (device_addr <$> session_peers c) = cl_sessions c.
Proof.
  intros [Hs _ _]. apply set_eq. intros a. rewrite elem_of_list_to_set, list_elem_of_fmap. split.
  - intros (peer & -> & (b & Hb & Hp)%session_peers_elem). destruct (Hs b Hb) as (peer' & Hp' & <- & _). by rewrite Hp in Hp'; injection Hp' as ->.
  - intros Ha. destruct (Hs a Ha) as (peer & Hp & <- & _). exists peer. split; [done|]. apply session_peers_elem. by exists (device_addr peer).
Qed.

Lemma peers_held c : client_wf c -> export_fits c -> Forall (fun peer => exists s, pa_sessions (cl_party c) !! peer = Some s /\ peer_fits peer s) (session_peers c).
Proof.
  intros [Hs _ _] Hf. apply Forall_forall. intros peer (a & Ha & Hp)%session_peers_elem. destruct (Hs a Ha) as (peer' & Hp' & _ & [s Hh]).
  rewrite Hp in Hp'. injection Hp' as <-. exists s. split; [done|]. by apply ef_peers with c.
Qed.

(** The sessions of [c] imported into a party that holds none. *)
Lemma import_exported c q : client_wf c -> export_fits c -> pa_sessions q = ∅ ->
  exists q', import_sessions q (export_sessions (cl_party c) (session_peers c)) = (q', Ok (session_peers c)) /\
    pa_identity q' = pa_identity q /\
    forall a, pa_sessions q' !! a = if decide (a ∈ session_peers c) then pa_sessions (cl_party c) !! a else None.
Proof.
  intros Hwf Hf Hq. pose proof (peers_held c Hwf Hf) as Hall. unfold import_sessions, export_sessions. set (held := omap (put_peer (cl_party c)) (session_peers c)).
  assert (length held = length (session_peers c)) as Hl.
  { subst held. induction Hall as [|peer l (s & Hs & _) _ IH]; [done|]. cbn. unfold put_peer at 1. rewrite Hs. cbn. by rewrite IH. }
  rewrite take_u32_app by (split; [apply len_nonneg|unfold len; rewrite Hl; apply (ef_count c Hf)]). rewrite to_nat_len.
  destruct (import_put (session_peers c) (cl_party c) q [] held Hall eq_refl) as (q' & -> & _ & Hi & _ & Hm). exists q'. split; [done|]. split; [done|].
  intros a. rewrite Hm, Hq. by destruct (decide _).
Qed.

(** The parts of an exported body, and the party they restore. *)
Lemma split_exported c : client_wf c -> export_fits c ->
  split_state (export_body_v3 c) = Ok (mkSplit own_provider (export_identity (cl_party c)) (export_sessions (cl_party c) (session_peers c))
    (Some (default [] (export_prekeys (cl_party c)))) 0).
Proof.
  intros [_ _ Hp] Hf. unfold export_body_v3, state_body. rewrite Hp. apply split_body_v3; [|apply (ef_sessions c Hf)|apply (ef_prekeys c Hf)].
  unfold lp_fits, export_identity. by rewrite identity_export_len.
Qed.

Lemma restored_party_exported u d c sessions party :
  restored_party u d (mkSplit own_provider (export_identity (cl_party c)) sessions (Some (default [] (export_prekeys (cl_party c)))) 0) = Ok party ->
  pa_identity party = pa_identity (cl_party c) /\ pa_sessions party = ∅.
Proof.
  unfold restored_party. cbn [sp_identity]. rewrite from_export_identity. cbn [crypto mbind result_bind]. unfold restore_prekeys_into. cbn [sp_provider sp_prekeys].
  rewrite bool_decide_eq_true_2 by done. cbn [negb]. destruct (default [] (export_prekeys (cl_party c))) as [|b l]; [by intros [= <-]|].
  unfold import_prekeys. destruct (mbind _ _) as [store|e]; cbn [crypto mbind result_bind]; [|done]. by intros [= <-].
Qed.

(** The directory answered [RolledBack] to a frame. *)
Definition directory_rolled_back : Prop :=
  exists l conn frame bs, nw_exchange l conn frame = Ok (Some bs) /\ decode_dir_response bs = Some RRolledBack.

Definition discarded (c : Client) : Client := with_restore (with_sessions (with_party c (clear_sessions (cl_party c))) ∅) SessionsDiscarded.

Lemma dir_exchange_Done d request w w' resp : dir_exchange d request w = (w', Done resp) ->
  exists l frame bs, nw_exchange l (dc_id d) frame = Ok (Some bs) /\ decode_dir_response bs = Some resp.
Proof.
  intros H. unfold dir_exchange in H. apply bind_Done in H as (w1 & frame & _ & H). apply bind_Done in H as (w2 & answer & He & H).
  unfold exchange in He. apply bind_Done in He as (w3 & l & [= <- <-] & He). apply bind_Done in He as (w4 & [] & _ & He).
  unfold io, of_result in He. destruct (nw_exchange (w_log w1) (dc_id d) frame) as [ans|e] eqn:En; [|done]. injection He as <- ->.
  unfold of_result, exchange_answer in H. destruct answer as [bs|]; [|done]. cbn [ok_or mbind result_bind] in H.
  destruct (decode_dir_response bs) as [r|] eqn:Ed; [|done]. injection H as _ ->. by exists (w_log w1), frame, bs.
Qed.

Lemma checkpoint_outcome c w st r : checkpoint draws (c, w) = (st, r) ->
  st.1 = c \/ (st.1 = discarded c /\ directory_rolled_back).
Proof.
  unfold checkpoint, self, mbind, act_bind, on_world, draw. cbn [fst snd].
  match goal with |- context [dir_exchange ?a ?b ?c] => destruct (dir_exchange a b c) as [w1 [resp|e|]] eqn:E end; [|intros [= <- <-]; by left..].
  destruct resp; try (intros [= <- <-]; by left). intros [= <- <-]. right. split; [done|]. apply dir_exchange_Done in E as (l & frame & bs & H1 & H2). by exists l, (dc_id (cl_directory c)), frame, bs.
Qed.

Record resumed (c c' : Client) : Prop := {
  rs_identity : pa_identity (cl_party c') = pa_identity (cl_party c);
  rs_held a : pa_sessions (cl_party c') !! a = if decide (a ∈ session_peers c) then pa_sessions (cl_party c) !! a else None;
  rs_sessions : cl_sessions c' = cl_sessions c;
  rs_restore : cl_restore c' = RestoreResumed
}.

(** The identity, and no session of any peer. *)
Record forgotten (c c' : Client) : Prop := {
  fg_identity : pa_identity (cl_party c') = pa_identity (cl_party c);
  fg_held : pa_sessions (cl_party c') = ∅;
  fg_sessions : cl_sessions c' = ∅;
  fg_restore : cl_restore c' = SessionsDiscarded
}.

(** What the two have in common. *)
Record continues (c c' : Client) (counter : Z) : Prop := {
  ct_generation : cl_generation c' = cl_generation c;
  ct_attached : cl_attached c' = true;
  ct_seen : cl_counter_seen c' = counter
}.

Lemma discarded_forgotten c c1 : pa_identity (cl_party c1) = pa_identity (cl_party c) -> forgotten c (discarded c1).
Proof. intros Hi. by split. Qed.

(** A prekey store outlives the sessions: what a rolled-back state restored of
    it stays. *)
Lemma discarded_prekeys c : pa_prekeys (cl_party (discarded c)) = pa_prekeys (cl_party c).
Proof. done. Qed.

Lemma resume_sealed_exported c party c0 w st o sp :
  client_wf c -> export_fits c -> split_state (export_body_v3 c) = Ok sp -> fresh_client party c0 ->
  pa_identity party = pa_identity (cl_party c) -> pa_sessions party = ∅ -> op_generation o = cl_generation c ->
  resume_sealed draws o sp (c0, w) = (st, Done tt) ->
  continues c st.1 (committed (w_store w)) /\
  if op_stale o then forgotten c st.1 else resumed c st.1 \/ (forgotten c st.1 /\ directory_rolled_back).
Proof.
  intros Hwf Hf Hsp Hfresh Hi Hs Hgen H. rewrite (split_exported c Hwf Hf) in Hsp. injection Hsp as <-.
  destruct (import_exported c (cl_party c0) Hwf Hf) as (q & Hq & Hqi & Hqs); [by rewrite (fc_held _ _ Hfresh)|].
  set (c2 := with_generation (with_restore (with_sessions (with_party c0 q) (list_to_set (device_addr <$> session_peers c) ∪ cl_sessions c0)) RestoreResumed) (op_generation o)).
  unfold resume_sealed in H. apply bind_Done in H as (s1 & [] & H1 & H). cbn [sp_provider sp_sessions] in H1.
  unfold restore_sessions in H1. rewrite bool_decide_eq_true_2 in H1 by done. cbn [negb] in H1.
  apply bind_Done in H1 as (s0 & l & Hcall & H1). unfold call_party in Hcall. cbn [fst snd] in Hcall. rewrite Hq in Hcall. injection Hcall as <- <-. injection H1 as <-.
  apply bind_Done in H as (s2 & [] & [= <-] & H). apply bind_Done in H as (s3 & [] & Ha & H). cbn [fst snd] in Ha. fold c2 in Ha.
  unfold attach_secure_store in Ha. apply bind_Done in Ha as (s4 & c4 & [= <- <-] & Ha). cbn [fst] in Ha.
  assert (cl_attached c2 = false) as Hatt by (exact (fc_attached _ _ Hfresh)). rewrite Hatt in Ha.
  apply bind_Done in Ha as (s5 & seen & Hc & Ha). unfold on_world, store_call in Hc. cbn [fst snd] in Hc.
  destruct (rollback_counter (w_store w)) as [t [n|e]] eqn:Ec; [|done]. injection Hc as <- <-. injection Ha as <-. cbn [fst snd] in *.
  apply rollback_counter_law in Ec as (_ & _ & ->). set (c3 := with_store c2 true (committed (w_store w))) in *.
  apply bind_Done in H as ([c5 w5] & [] & Hst & H). apply bind_Done in H as (s7 & r & Hcp & H). injection H as <-.
  unfold attempt in Hcp. destruct (checkpoint draws (c5, w5)) as [s8 r8] eqn:Ecp. apply checkpoint_outcome in Ecp.
  assert (s7 = s8) as -> by (by destruct r8; injection Hcp as <-). clear Hcp.
  assert (pa_identity (cl_party c3) = pa_identity (cl_party c)) as Hi3 by (subst c3 c2; cbn; rewrite Hqi, (fc_identity _ _ Hfresh); done).
  destruct (op_stale o).
  - injection Hst as <- _. fold (discarded c3) in *. destruct Ecp as [-> | [-> _]]; (split; [by split|by apply discarded_forgotten]).
  - injection Hst as <- _. destruct Ecp as [-> | [-> Hr]].
    + split; [by split|]. left. split; [done| |subst c3 c2; cbn; rewrite session_peers_set by done; rewrite (fc_sessions _ _ Hfresh); set_solver|done].
      intros a. subst c3 c2. cbn. apply Hqs.
    + split; [by split|]. right. split; [by apply discarded_forgotten|done].
Qed.

Lemma resume_sealed_me o sp c0 w : cl_me (resume_sealed draws o sp (c0, w)).1.1 = cl_me c0.
Proof.
  assert (keeps calm (resume_sealed draws o sp)) as Hk.
  { unfold resume_sealed. pose proof keeps_restore_sessions. pose proof keeps_attach. pose proof keeps_discard. pose proof (keeps_checkpoint draws). keeps_steps. }
  apply (ca_me _ _ (Hk (c0, w))).
Qed.

(** The blob of [c], opened against a store that has its key. *)
Definition opened_from (c : Client) (sealed_at now : Z) : Opened :=
  mkOpened (export_body_v3 c) (cl_generation c) (sealed_at <? now) (Some (cl_me c)).

Lemma opened_exported c key counter s o : client_wf c -> export_fits c -> u64_wf counter -> install_key s = key ->
  (open_sealed s (sealed_blob key (cl_me c) (export_body_v3 c) (cl_generation c) counter)).2 = Ok o -> o = opened_from c counter (committed s).
Proof.
  intros Hwf Hf Hc <- H. destruct (open_sealed_answers _ _ _ H) as (s1 & s2 & key & h & Hk & Hr).
  assert ((open_sealed s (sealed_blob (install_key s) (cl_me c) (export_body_v3 c) (cl_generation c) counter)).2 = Ok (opened_from c counter (committed s))) as Hok.
  { apply (open_sealed_iff s s1 s2 key h Hk Hr); [by right|]. exists counter. split; [apply (wf_generation _ Hwf)|]. split; [done|]. split; [done|]. split; [done|].
    split; [done|]. apply (ef_me c Hf). }
  congruence.
Qed.

(** The two sealed openings, past the connection. *)
Lemma sealed_opening_Done how blob w w' c' : sealed_opening how blob -> open_client draws how w = (w', Done c') ->
  exists w1 o sp party c0 w2 u d, open_state blob w = (w1, Done o) /\ split_state (op_body o) = Ok sp /\ restored_party u d sp = Ok party /\
    fresh_client party c0 /\ w_store w2 = w_store w1 /\ expect_address o (cl_me c0) = Ok tt /\ resume_sealed draws o sp (c0, w2) = ((c', w'), Done tt).
Proof.
  assert (forall {A} (r : result ClientError A) (v v' : World) a, of_result r v = (v', Done a) -> v' = v /\ r = Ok a) as Hres.
  { intros A r v v' a H. unfold of_result in H. destruct r; [|done]. by injection H as <- ->. }
  intros [[cfg ->]|[cfg ->]]; cbn [open_client]; intros H.
  - apply bind_Done in H as (w1 & o & Ho & H). apply bind_Done in H as (w2 & [] & Hb & H). apply Hres in Hb as [-> Hb].
    apply bind_Done in H as (w3 & sp & Hsp & H). apply Hres in Hsp as [-> Hsp]. apply bind_Done in H as (w4 & party & Hp & H). apply Hres in Hp as [-> Hp].
    apply bind_Done in H as (w5 & c0 & Hc & H). apply connect_fresh in Hc as (Hc & Hme & Hst). apply with_client_Done in H.
    exists w1, o, sp, party, c0, w5, (cf_user cfg), (cf_device cfg). rewrite Hme. done.
  - apply bind_Done in H as (w1 & o & Ho & H). apply bind_Done in H as (w2 & [] & Hb & H). apply Hres in Hb as [-> Hb].
    apply bind_Done in H as (w3 & sp & Hsp & H). apply Hres in Hsp as [-> Hsp]. apply bind_Done in H as (w4 & party & Hp & H). apply Hres in Hp as [-> Hp].
    apply bind_Done in H as (w5 & c0 & Hc & H). apply sign_in_fresh in Hc as (Hc & Hst). apply bind_Done in H as (w6 & [] & Hb2 & H).
    apply Hres in Hb2 as [-> Hb2]. apply with_client_Done in H. exists w1, o, sp, party, c0, w5, (ac_identifier cfg), (ac_device cfg). done.
Qed.
End Restored.

(** C3. A sealed state never resumes a ratchet that has moved on.  Take any
    client there can be, export its sealed state, let it make any calls, and
    offer the blob later, through either sealed opening, to any network, with
    the same install's store.  If that comes to a client at all, it has the
    exported identity, address and generation and the store attached at its
    counter; if a ciphertext was let go of after the export (a send that
    reached the wire, or a ciphertext handed to the coordinator), or the store
    was moved at all, it has no session with anyone; and if the counter stands
    where it stood, it resumes exactly the sessions that were exported, unless
    the directory answers that the state was rolled back, when again it has
    none. *)
Theorem sealed_states_never_roll_back {engine : Engine} {elaws : EngineLaws} {mac : Mac} {secure : SecureStore} {laws : SecureStoreLaws}
    (net net' : Network) draws draws' c w c1 w1 blob ops c2 w2 gone w' how w3 c' :
  reachable (net := net) draws c w -> export_fits c -> export_state_sealed (c, w) = ((c1, w1), Done blob) ->
  client_run (net := net) draws ops (c1, w1) = ((c2, w2), gone) ->
  install_key (w_store w') = install_key (w_store w2) -> committed (w_store w2) <= committed (w_store w') ->
  sealed_opening how blob -> open_client (net := net') draws' how w' = (w3, Done c') ->
  (cl_me c' = cl_me c /\ continues c c' (committed (w_store w'))) /\
  (gone = true \/ committed (w_store w) < committed (w_store w') -> forgotten c c') /\
  (committed (w_store w') = committed (w_store w) -> resumed c c' \/ (forgotten c c' /\ directory_rolled_back (net := net'))).
Proof.
  intros Hreach Hf Hex Hrun Hkey Hcm Hhow Hopen. apply reachable_wf in Hreach as Hwf.
  apply export_sealed_Done in Hex as (H1 & Hatt & K1 & C1 & ->). cbn [fst snd] in *. subst c1.
  apply client_run_recording in Hrun as [K2 C2 _ G2]. cbn [fst snd] in *.
  apply (sealed_opening_Done (net := net') draws' how _ _ _ _ Hhow) in Hopen as (v1 & o & sp & party & c0 & v2 & u & d & Ho & Hsp & Hp & Hc0 & Hst & Hb & Hr).
  apply open_state_Done in Ho as (Ho & K3 & C3). apply opened_exported in Ho as ->; [|done..|apply committed_wf|congruence].
  cbn [op_body opened_from] in Hsp. pose proof Hsp as Hsp'. rewrite (split_exported c Hwf Hf) in Hsp'. injection Hsp' as <-.
  apply restored_party_exported in Hp as [Hi Hs].
  assert (cl_me c0 = cl_me c) as Hme.
  { unfold expect_address in Hb. cbn [op_bound opened_from] in Hb. by destruct (bool_decide_reflect (cl_me c = cl_me c0)). }
  epose proof (resume_sealed_me (net := net') draws' _ _ c0 v2) as Hme'. rewrite Hr in Hme'.
  eapply (resume_sealed_exported (net := net') draws' c party) in Hr as [Hct Hout]; [|done..]. cbn [fst op_stale opened_from] in *. rewrite Hst, C3 in Hct.
  split; [split; [congruence|done]|]. split.
  - intros Hmoved. assert (committed (w_store w) < committed (w_store w')) as Hlt by (destruct Hmoved as [Hg|]; [specialize (G2 Hatt Hg)|]; lia).
    apply Z.ltb_lt in Hlt. by rewrite Hlt in Hout.
  - intros Heq. rewrite Heq, Z.ltb_irrefl in Hout. done.
Qed.

(** ** A life for the witness: connect, attach, send, export, send again, and
    offer the export *)
Definition value_of {A} (d : A) (o : outcome A) : A := match o with Done a => a | _ => d end.
Definition is_done {A} (o : outcome A) : bool := match o with Done _ => true | _ => false end.

Lemma done_value {St A} (d : A) (x : St * outcome A) : is_done x.2 = true -> x = (x.1, Done (value_of d x.2)).
Proof. by destruct x as [st []]. Qed.

Definition sample_config : ClientConfig := mkClientConfig [] [] (bstr "acme/alice") x01.
Definition sample_connected : World * outcome Client := open_client sample_draws (ByConnect sample_config) sample_world.
Definition sample_attached : CState * outcome unit :=
  client_call sample_draws OpAttach (value_of sample_client sample_connected.2, sample_connected.1).
Definition sample_sent : CState * outcome unit := client_call sample_draws (OpSend sample_bob (bstr "hi")) sample_attached.1.

(** What follows on a state: its export, one more send, and the blob offered
    to a store. *)
Definition blob_of (st : CState) : bytes := value_of [] (export_state_sealed st).2.
Definition later_of (st : CState) : CState * bool := client_run sample_draws [OpSend sample_bob (bstr "again")] (export_state_sealed st).1.
Definition reopened_with (st : CState) (s : @Store sample_secure) : World * outcome Client :=
  open_client sample_draws (BySealed sample_config (blob_of st)) (mkWorld [] 0 s).

Lemma sample_reachable : reachable sample_draws sample_sent.1.1 sample_sent.1.2.
Proof.
  refine (reach_call sample_draws (OpSend sample_bob (bstr "hi")) sample_attached.1.1 sample_attached.1.2 sample_sent.1 sample_sent.2 _ _ _).
  - split; [vm_compute; reflexivity|split; vm_compute; discriminate].
  - refine (reach_call sample_draws OpAttach (value_of sample_client sample_connected.2) sample_connected.1 sample_attached.1 sample_attached.2 I _ _).
    + refine (reach_open sample_draws (ByConnect sample_config) sample_world sample_connected.1 _ _).
      apply (done_value sample_client sample_connected). vm_compute. reflexivity.
    + apply surjective_pairing.
  - rewrite <- (surjective_pairing sample_attached.1). apply surjective_pairing.
Qed.

Lemma sample_export_fits : export_fits sample_sent.1.1.
Proof.
  split.
  - split; [split; [vm_compute; reflexivity|split; vm_compute; discriminate]|vm_compute; discriminate].
  - intros peer s H. apply elem_of_map_to_list in H.
    assert (forallb (fun p => utf8_valid (ad_user p.1) && (len (ad_user p.1) <=? u32_max)) (map_to_list (pa_sessions (cl_party sample_sent.1.1))) = true) as E
      by (vm_compute; reflexivity).
    rewrite forallb_forall in E. apply list_elem_of_In, E, andb_prop in H as [Hu Hl]. apply Z.leb_le in Hl. split; [exact Hu|]. split; [exact Hl|].
    destruct s as [[i f] n]. vm_compute. discriminate.
  - vm_compute. discriminate.
  - vm_compute. discriminate.
  - vm_compute. discriminate.
Qed.

Lemma life_of st :
  reachable sample_draws st.1 st.2 -> export_fits st.1 -> sample_bob ∈ cl_sessions st.1 ->
  is_done (export_state_sealed st).2 = true -> (later_of st).2 = true ->
  is_done (reopened_with st (w_store (later_of st).1.2)).2 = true -> is_done (reopened_with st (w_store (export_state_sealed st).1.2)).2 = true ->
  exists c w c1 w1 blob c2 w2 v stale v' current,
    reachable sample_draws c w /\ export_fits c /\ export_state_sealed (c, w) = ((c1, w1), Done blob) /\
    client_run sample_draws [OpSend sample_bob (bstr "again")] (c1, w1) = ((c2, w2), true) /\
    open_client sample_draws (BySealed sample_config blob) (mkWorld [] 0 (w_store w2)) = (v, Done stale) /\
    open_client sample_draws (BySealed sample_config blob) (mkWorld [] 0 (w_store w1)) = (v', Done current) /\
    sample_bob ∈ cl_sessions c.
Proof.
  destruct st as [c w]. unfold reopened_with, later_of, blob_of. intros Hr Hf H5 H1 H2 H3 H4.
  destruct (export_state_sealed (c, w)) as [[c1 w1] [blob|e|]] eqn:E1; try done. cbn [fst snd value_of] in *.
  destruct (client_run sample_draws _ (c1, w1)) as [[c2 w2] gone] eqn:E2. cbn [fst snd] in *. subst gone.
  destruct (open_client sample_draws _ (mkWorld [] 0 (w_store w2))) as [v [stale|e|]] eqn:E3; try done.
  destruct (open_client sample_draws _ (mkWorld [] 0 (w_store w1))) as [v' [current|e|]] eqn:E4; try done.
  by exists c, w, c1, w1, blob, c2, w2, v, stale, v', current.
Qed.

Lemma sample_has_bob : sample_bob ∈ cl_sessions sample_sent.1.1.
Proof. assert (bool_decide (sample_bob ∈ cl_sessions sample_sent.1.1) = true) as H by (vm_compute; reflexivity). by apply bool_decide_eq_true_1 in H. Qed.
Lemma sample_export_done : is_done (export_state_sealed sample_sent.1).2 = true.
Proof. vm_compute. reflexivity. Qed.
Lemma sample_later_gone : (later_of sample_sent.1).2 = true.
Proof. vm_compute. reflexivity. Qed.
Lemma sample_stale_done : is_done (reopened_with sample_sent.1 (w_store (later_of sample_sent.1).1.2)).2 = true.
Proof. vm_compute. reflexivity. Qed.
Lemma sample_current_done : is_done (reopened_with sample_sent.1 (w_store (export_state_sealed sample_sent.1).1.2)).2 = true.
Proof. vm_compute. reflexivity. Qed.

(** Offered after the second send it resumes nothing; offered at once it
    resumes the session with the peer. *)
Lemma sealed_states_never_roll_back_witness :
  exists c stale current, sample_bob ∈ cl_sessions c /\ forgotten c stale /\
    (resumed c current \/ (forgotten c current /\ directory_rolled_back)).
Proof.
  destruct (life_of sample_sent.1 sample_reachable sample_export_fits sample_has_bob sample_export_done sample_later_gone sample_stale_done sample_current_done) as (c & w & c1 & w1 & blob & c2 & w2 & v & stale & v' & current & Hr & Hf & He & Hrun & Hs & Hc & Hin).
  exists c, stale, current. split; [exact Hin|]. split.
  - refine (proj1 (proj2 (sealed_states_never_roll_back sample_net sample_net sample_draws sample_draws c w c1 w1 blob [OpSend sample_bob (bstr "again")]
      c2 w2 true (mkWorld [] 0 (w_store w2)) (BySealed sample_config blob) v stale Hr Hf He Hrun eq_refl (Z.le_refl _) _ Hs)) _).
    + left. exists sample_config. reflexivity.
    + left. reflexivity.
  - refine (proj2 (proj2 (sealed_states_never_roll_back sample_net sample_net sample_draws sample_draws c w c1 w1 blob []
      c1 w1 false (mkWorld [] 0 (w_store w1)) (BySealed sample_config blob) v' current Hr Hf He eq_refl eq_refl (Z.le_refl _) _ Hc)) _).
    + left. exists sample_config. reflexivity.
    + apply export_sealed_Done in He. exact (proj1 (proj2 (proj2 (proj2 He)))).
Defined.
