(* ===== verification/Issuer.v ===== *)
(** * Issuer: the key that attests to device inventories
    ([tacenta-server/src/inventory_issuer.rs], [inventory_service.rs])

    The key file is the trust anchor: it is written under a name of its own and
    published with a hard link.  The starters of a deployment are processes over
    one directory ([Persist]), whose steps interleave in any order and any of
    which may stop for good; a restart is one more starter.  The statement codec
    and its signature are another repository's: a parameter.  Windows is not
    modelled. *)

From S2P Require Import Prelude Persist Inventory Accounts AccountsState Server.
From stdpp Require Import pretty.
#[local] Open Scope Z_scope.

(** ** The key file *)
Definition ISSUER_FILE_MAGIC : bytes := bstr "TCIV" ++ [x01].

Inductive KeyError := KeNotFound | KeAlreadyExists | KePermissionDenied | KeInvalidData | KeOther.

Record InventoryIssuer := mkIssuer { is_key_id : Z; is_secret : bytes }.

Definition encode_file (i : InventoryIssuer) : bytes := ISSUER_FILE_MAGIC ++ be64 (is_key_id i) ++ is_secret i.
Arguments encode_file : simpl never.

Definition decode_file (bs : bytes) (configured_key_id : Z) : result KeyError InventoryIssuer :=
  if negb (len bs =? len ISSUER_FILE_MAGIC + 8 + 32) || negb (starts_with ISSUER_FILE_MAGIC bs) then Err KeInvalidData else
  let key_id := be_value (take 8 (drop 5 bs)) in
  if negb (key_id =? configured_key_id) then Err KeInvalidData else
  Ok (mkIssuer key_id (drop 13 bs)).

Definition key_error (e : IoError) : KeyError :=
  match e with NotFound => KeNotFound | AlreadyExists => KeAlreadyExists | _ => KeOther end.

(** The mode is that of the file opened; [0o077] is 63.  [ok] is whether the
    system serves the read. *)
Definition read_key_file (fs : Fs) (p : path) (ok : bool) : result KeyError bytes :=
  match resolve fs MAX_LINKS p with
  | Err e => Err (key_error e)
  | Ok ino =>
      f ← ok_or KeOther (files fs !! ino);
      if negb (Z.land (mode f) 63 =? 0) then Err KePermissionDenied else
      if ok then Ok (contents f) else Err KeOther
  end.

(** [fs::hard_link]: refused where anything has the name. *)
Definition hard_link (fs : Fs) (original link : path) (ok : bool) : result KeyError Fs :=
  match names fs !! original, names fs !! link with
  | _, Some _ => Err KeAlreadyExists
  | None, _ => Err KeNotFound
  | Some node, None => if ok then Ok (mkFs (<[link := node]> (names fs)) (files fs)) else Err KeOther
  end.

(** [<path>.<pid>.<16 hex digits>.tmp]. *)
Definition staging_name (p : path) (pid random : Z) : path :=
  String.append p (String.append "." (String.append (pretty pid) (String.append "." (String.append (Persist.hex 16 random) ".tmp")))).

(** ** A starter: [load_or_create], step by step *)
Inductive Phase :=
| PStart
| PCreate (i : InventoryIssuer)
| PWrite (i : InventoryIssuer) (staging : path) (ino : nat) (n : nat)
| PLink (i : InventoryIssuer) (staging : path) (ino : nat)
| PUnlink (i : InventoryIssuer) (staging : path) (ino : nat) (published : result KeyError unit)
| PDirSync (i : InventoryIssuer)
| PReread
| PReturned (r : result KeyError InventoryIssuer).

(** What a step meets: whether the call succeeds, and what was drawn. *)
Record Step := mkStep { st_ok : bool; st_secret : bytes; st_pid : Z; st_random : Z }.

Definition starter_step (p : path) (key_id : Z) (fs : Fs) (ph : Phase) (a : Step) : Fs * Phase :=
  match ph with
  | PStart =>
      (fs, match read_key_file fs p (st_ok a) with
           | Ok bs => PReturned (decode_file bs key_id)
           | Err KeNotFound => PCreate (mkIssuer key_id (st_secret a))
           | Err e => PReturned (Err e)
           end)
  | PCreate i =>
      let staging := staging_name p (st_pid a) (st_random a) in
      match create_new_private fs staging (st_ok a) with
      | Ok (fs, ino) => (fs, PWrite i staging ino 0)
      | Err AlreadyExists => (fs, PReread)
      | Err e => (fs, PReturned (Err (key_error e)))
      end
  | PWrite i staging ino n =>
      if negb (st_ok a) then (fs, PUnlink i staging ino (Err KeOther))
      else if (n <? length (encode_file i))%nat then (set_file fs ino (mkFile (take (S n) (encode_file i)) 384), PWrite i staging ino (S n))
      else (fs, PLink i staging ino)
  | PLink i staging ino =>
      match hard_link fs staging p (st_ok a) with
      | Ok fs => (fs, PUnlink i staging ino (Ok tt))
      | Err e => (fs, PUnlink i staging ino (Err e))
      end
  | PUnlink i staging ino published =>
      (remove_file fs staging (st_ok a),
       match published with
       | Ok _ => PDirSync i
       | Err KeAlreadyExists => PReread
       | Err e => PReturned (Err e)
       end)
  | PDirSync i => (fs, PReturned (if st_ok a then Ok i else Err KeOther))
  | PReread => (fs, PReturned (bs ← read_key_file fs p (st_ok a); decode_file bs key_id))
  | PReturned r => (fs, PReturned r)
  end.

(** A directory and the starters working on it; one not yet begun is at its
    start. *)
Record Deployment := mkDeployment { dp_fs : Fs; dp_starters : gmap nat Phase }.

Definition phase_of (d : Deployment) (i : nat) : Phase := default PStart (dp_starters d !! i).

Section Deployments.
Context (p : path) (key_ids : nat -> Z).

Definition deployment_step (d : Deployment) (s : nat * Step) : Deployment :=
  let '(fs, ph) := starter_step p (key_ids s.1) (dp_fs d) (phase_of d s.1) s.2 in
  mkDeployment fs (<[s.1 := ph]> (dp_starters d)).

Definition deployment_run (d : Deployment) (steps : list (nat * Step)) : Deployment := fold_left deployment_step steps d.
End Deployments.

(** ** The service *)
Record InventoryStatement := mkStatement {
  sm_issuer_key_id : Z; sm_account_handle : bytes; sm_inventory_generation : Z; sm_active : list DeviceBinding;
  sm_revocation_floor_generation : Z; sm_revoked : list Revocation
}.

(** [InventoryIssuer::issue]: the statement the signer is given. *)
Definition statement_of (i : InventoryIssuer) (account_handle : bytes) (inventory : DeviceInventory) : InventoryStatement :=
  mkStatement (is_key_id i) account_handle (inv_generation inventory) (active inventory)
    (revocation_floor_generation inventory) (revoked inventory).

Inductive InventoryServiceError {E : Type} :=
| SvStore (e : InventoryError E) | SvMissingHandle | SvSigning | SvSuperseded (committed_generation current_generation : Z).
Arguments InventoryServiceError E : clear implicits.

Section Service.
Context {env : Environment} {E : Type} {core : InventoryCore E}.
(** The statement codec's signature under the issuer's secret. *)
Context (encode_signed : bytes -> InventoryStatement -> option bytes).

(** [issue] takes the store's lock twice: [current] is the store at its first
    read, [later] at its second. *)
Definition issue (issuer : InventoryIssuer) (current later : Accounts) (tenant username : bytes) (inventory : DeviceInventory)
    : result (InventoryServiceError E) bytes :=
  now ← ok_or SvMissingHandle (device_inventory current tenant username);
  if negb (bool_decide (now = inventory)) then Err (SvSuperseded (inv_generation inventory) (inv_generation now)) else
  h ← ok_or SvMissingHandle (Accounts.handle later tenant username);
  ok_or SvSigning (encode_signed (is_secret issuer) (statement_of issuer h inventory)).

(** [link_device_binding]: committed first, then signed; [between] is what
    other requests make of the store before each of the reads. *)
Definition service_link (issuer : InventoryIssuer) (between : Accounts -> Accounts * Accounts) (a : Accounts)
    (tenant username : bytes) (predecessor_generation : Z) (idempotency_key : bytes) (b : DeviceBinding)
    : Accounts * result (InventoryServiceError E) bytes :=
  let '(a, r) := link_device_binding a tenant username predecessor_generation idempotency_key b in
  (a, match r with
      | Err e => Err (SvStore e)
      | Ok inventory => let '(current, later) := between a in issue issuer current later tenant username inventory
      end).
End Service.

(** ** What the key file is *)
Record issuer_ok (i : InventoryIssuer) : Prop := {
  ik_id : 0 <= is_key_id i <= u64_max;
  ik_secret : len (is_secret i) = 32
}.

(** The path leads to this inode, a complete key file that only its owner can
    read. *)
Definition key_is (p : path) (fs : Fs) (ino : nat) (i : InventoryIssuer) : Prop :=
  names fs !! p = Some (NFile ino) /\ issuer_ok i /\
  exists m, files fs !! ino = Some (mkFile (encode_file i) m) /\ Z.land m 63 = 0.

(** Nothing at the path, or the key. *)
Definition path_safe (p : path) (fs : Fs) : Prop := names fs !! p = None \/ exists ino i, key_is p fs ino i.

(** The staging file a starter is responsible for. *)
Definition owns (ph : Phase) : option (path * nat) :=
  match ph with
  | PWrite _ s ino _ | PLink _ s ino | PUnlink _ s ino _ => Some (s, ino)
  | _ => None
  end.

(** Where a starter is, of what the directory holds. *)
Definition phase_ok (p : path) (fs : Fs) (ph : Phase) : Prop :=
  match ph with
  | PCreate i => issuer_ok i
  | PWrite i _ ino n => issuer_ok i /\ files fs !! ino = Some (mkFile (take n (encode_file i)) 384) /\ names fs !! p <> Some (NFile ino)
  | PLink i _ ino => issuer_ok i /\ files fs !! ino = Some (mkFile (encode_file i) 384) /\ names fs !! p <> Some (NFile ino)
  | PUnlink i _ _ (Ok _) | PDirSync i | PReturned (Ok i) => exists ino, key_is p fs ino i
  | _ => True
  end.

Record deployment_ok (p : path) (d : Deployment) : Prop := {
  dk_path : path_safe p (dp_fs d);
  dk_phase k : phase_ok p (dp_fs d) (phase_of d k);
  dk_own k s ino : owns (phase_of d k) = Some (s, ino) -> s <> p /\ names (dp_fs d) !! s = Some (NFile ino) /\ is_Some (files (dp_fs d) !! ino);
  dk_apart j k s ino s' ino' : j <> k -> owns (phase_of d j) = Some (s, ino) -> owns (phase_of d k) = Some (s', ino') -> ino <> ino'
}.

(** ** Lemmas *)
Lemma decode_encode_file i kid :
  issuer_ok i -> decode_file (encode_file i) kid = (if is_key_id i =? kid then Ok i else Err KeInvalidData).
Proof.
  intros [Hid Hs]. unfold decode_file, encode_file.
  assert (len (be64 (is_key_id i)) = 8) as H8 by (unfold len; by rewrite length_be_bytes).
  replace (len _ =? _) with true.
  2:{ symmetry. apply Z.eqb_eq. rewrite !len_app, H8, Hs. reflexivity. }
  rewrite starts_with_app. cbn [negb orb].
  assert (drop 5 (ISSUER_FILE_MAGIC ++ be64 (is_key_id i) ++ is_secret i) = be64 (is_key_id i) ++ is_secret i) as -> by reflexivity.
  rewrite take_app_length' by (by rewrite length_be_bytes).
  assert (be_value (be64 (is_key_id i)) = is_key_id i) as ->.
  { apply be_value_be_bytes. change (256 ^ Z.of_nat 8) with (u64_max + 1). lia. }
  assert (drop 13 (ISSUER_FILE_MAGIC ++ be64 (is_key_id i) ++ is_secret i) = is_secret i) as ->.
  { rewrite app_assoc. apply drop_app_length'. rewrite length_app, length_be_bytes. reflexivity. }
  destruct (_ =? kid) eqn:Ek; cbn; [|done]. by destruct i.
Qed.

Lemma encode_file_length i : issuer_ok i -> length (encode_file i) = 45%nat.
Proof.
  intros [_ Hs]. unfold encode_file. rewrite !length_app, length_be_bytes. unfold len in Hs. cbn. lia.
Qed.

Lemma staging_name_other p pid r : staging_name p pid r <> p.
Proof.
  unfold staging_name. generalize (String.append (pretty pid) (String.append "." (String.append (Persist.hex 16 r) ".tmp"))).
  intros s. induction p as [|c p IH]; cbn; [done|]. intros [= H]. by apply IH.
Qed.

Lemma read_path_safe p fs ok :
  path_safe p fs ->
  (names fs !! p = None /\ read_key_file fs p ok = Err KeNotFound) \/
  (exists ino i, key_is p fs ino i /\ read_key_file fs p ok = if ok then Ok (encode_file i) else Err KeOther).
Proof.
  unfold read_key_file, MAX_LINKS. intros [H|(ino & i & Hk)]; [left|right].
  - cbn. by rewrite H.
  - exists ino, i. split; [done|]. destruct Hk as (H1 & _ & m & H2 & H3). cbn. rewrite H1. cbn. rewrite H2. cbn. by rewrite H3.
Qed.

(** Two keys at one path are one key. *)
Lemma key_is_unique p fs ino ino' i i' : key_is p fs ino i -> key_is p fs ino' i' -> ino = ino' /\ i = i'.
Proof.
  intros (H1 & Hi & m & H2 & _) (H1' & Hi' & m' & H2' & _). rewrite H1 in H1'. injection H1' as <-.
  rewrite H2 in H2'. split; [done|].
  assert (encode_file i = encode_file i') as He by congruence.
  pose proof (decode_encode_file i (is_key_id i) Hi) as Hd. rewrite He, decode_encode_file, Z.eqb_refl in Hd by done.
  destruct (_ =? _); congruence.
Qed.

(** What a step leaves as it was. *)
Record undisturbed (p : path) (fs fs' : Fs) (ph : Phase) : Prop := {
  ud_names q node : names fs !! q = Some node -> (forall ino, owns ph <> Some (q, ino)) -> names fs' !! q = Some node;
  ud_files j f : files fs !! j = Some f -> (forall i s n, ph <> PWrite i s j n) -> files fs' !! j = Some f;
  ud_path j : names fs' !! p = Some (NFile j) -> names fs !! p = Some (NFile j) \/ exists i s, ph = PLink i s j
}.

Definition own_ok (p : path) (fs : Fs) (ph : Phase) : Prop :=
  forall s ino, owns ph = Some (s, ino) -> s <> p /\ names fs !! s = Some (NFile ino) /\ is_Some (files fs !! ino).

Lemma undisturbed_refl p fs ph : undisturbed p fs fs ph.
Proof. split; auto. Qed.

Lemma step_undisturbed p kid fs ph a fs' ph' :
  own_ok p fs ph -> starter_step p kid fs ph a = (fs', ph') -> undisturbed p fs fs' ph.
Proof.
  intros Hown Hs. destruct ph as [|i|i s ino n|i s ino|i s ino r|i| |r]; cbn [starter_step] in Hs; try (injection Hs as <- _; apply undisturbed_refl).
  - destruct (create_new_private _ _ _) as [[fs1 ino]|[]] eqn:Ec; try (injection Hs as <- _; apply undisturbed_refl).
    injection Hs as <- _. apply create_new_private_Ok in Ec as (Hn & -> & ->). split; cbn.
    + intros q node Hq _. rewrite lookup_insert_ne; [done|]. intros <-. congruence.
    + intros j f Hj _. rewrite lookup_insert_ne; [done|]. intros <-. by rewrite fresh_ino_new in Hj.
    + intros j. rewrite lookup_insert_ne by apply staging_name_other. by left.
  - destruct (negb _); [injection Hs as <- _; apply undisturbed_refl|].
    destruct (_ <? _)%nat; [|injection Hs as <- _; apply undisturbed_refl].
    injection Hs as <- _. split; cbn; [done| |by left].
    intros j f Hj Hne. rewrite lookup_insert_ne; [done|]. intros <-. by eapply Hne.
  - destruct (hard_link _ _ _ _) as [fs1|e] eqn:El; [|injection Hs as <- _; apply undisturbed_refl].
    injection Hs as <- _. unfold hard_link in El. destruct (Hown s ino eq_refl) as (_ & Hn & _). rewrite Hn in El.
    destruct (names fs !! p) eqn:Ep; [done|]. destruct (st_ok a); [|done]. injection El as <-. split; cbn; [|done|].
    + intros q node Hq _. rewrite lookup_insert_ne; [done|]. intros <-. congruence.
    + intros j. rewrite lookup_insert_eq. intros [= <-]. right. by eexists _, _.
  - injection Hs as <- _. unfold remove_file. destruct (st_ok a); [|apply undisturbed_refl]. split; cbn; [|done|].
    + intros q node Hq Hne. rewrite lookup_delete_ne; [done|]. intros <-. by apply (Hne ino).
    + intros j. rewrite lookup_delete_Some. intros [_ ?]. by left.
Qed.

Lemma key_is_step p fs fs' ph ino i :
  undisturbed p fs fs' ph -> own_ok p fs ph -> phase_ok p fs ph -> key_is p fs ino i -> key_is p fs' ino i.
Proof.
  intros [Hn Hf _] Hown Hph (H1 & Hi & m & H2 & H3). split; [|split; [done|]].
  - apply Hn; [done|]. intros j Ho. by apply Hown in Ho as [? _].
  - exists m. split; [|done]. apply Hf; [done|]. intros i' s n ->. destruct Hph as (_ & _ & Hne). done.
Qed.

(** The other starters stand where they stood. *)
Lemma phase_ok_step p fs fs' ph other :
  undisturbed p fs fs' ph -> own_ok p fs ph -> phase_ok p fs ph -> own_ok p fs other ->
  (forall s ino s' ino', owns ph = Some (s, ino) -> owns other = Some (s', ino') -> ino <> ino') ->
  phase_ok p fs other -> phase_ok p fs' other /\ own_ok p fs' other.
Proof.
  intros Hu Hown Hph Hoo Hne Hoth. pose proof Hu as [Hn Hf Hp]. split.
  - assert (forall i, (exists ino, key_is p fs ino i) -> exists ino, key_is p fs' ino i) as Hk.
    { intros i [ino Hk]. exists ino. eapply key_is_step; eauto. }
    assert (forall i ino bs, (issuer_ok i /\ files fs !! ino = Some bs /\ names fs !! p <> Some (NFile ino)) ->
      (exists s, owns other = Some (s, ino)) -> issuer_ok i /\ files fs' !! ino = Some bs /\ names fs' !! p <> Some (NFile ino)) as Hw.
    { intros i ino bs (Hi & Hb & Hq) [s Ho]. split; [done|]. split.
      - apply Hf; [done|]. intros i' s' n ->. by eapply (Hne s' ino s ino).
      - intros Hc. apply Hp in Hc as [Hc|(i' & s' & ->)]; [done|]. by eapply (Hne s' ino s ino). }
    destruct other as [|i|i s ino n|i s ino|i s ino [u|e]|i| |[i|e]]; cbn in *; eauto.
  - intros s ino Ho. destruct (Hoo s ino Ho) as (H1 & H2 & [f H3]). split; [done|]. split.
    + apply Hn; [done|]. intros j Hj. destruct (Hown s j Hj) as (_ & H4 & _). rewrite H2 in H4. injection H4 as ->.
      by eapply (Hne s j s j).
    + exists f. apply Hf; [done|]. intros i' s' n ->. by eapply (Hne s' ino s ino).
Qed.

Definition id_ok (kid : Z) : Prop := 0 <= kid <= u64_max.
Definition step_ok (a : Step) : Prop := len (st_secret a) = 32.

(** What a starter's own step establishes. *)
Record stepped (p : path) (fs fs' : Fs) (ph ph' : Phase) : Prop := {
  sp_path : path_safe p fs';
  sp_phase : phase_ok p fs' ph';
  sp_own : own_ok p fs' ph';
  sp_new s ino : owns ph' = Some (s, ino) -> owns ph = Some (s, ino) \/ files fs !! ino = None
}.

Lemma stepped_idle p fs ph ph' : path_safe p fs -> phase_ok p fs ph' -> owns ph' = None -> stepped p fs fs ph ph'.
Proof. intros Hp Hph Hn. split; try done. - intros s ino. by rewrite Hn. - intros s ino. by rewrite Hn. Qed.

Lemma step_stays p kid fs ph a fs' ph' :
  id_ok kid -> step_ok a -> path_safe p fs -> phase_ok p fs ph -> own_ok p fs ph ->
  starter_step p kid fs ph a = (fs', ph') -> stepped p fs fs' ph ph'.
Proof.
  intros Hid Ha Hp Hph Hown Hs. pose proof (step_undisturbed _ _ _ _ _ _ _ Hown Hs) as Hu.
  assert (forall r, (exists ino, match r with Ok i => key_is p fs ino i | Err _ => True end) -> stepped p fs fs ph (PReturned r)) as Hret.
  { intros r [ino Hr]. apply stepped_idle; [done| |done]. destruct r; cbn; eauto. }
  assert (forall ino i, key_is p fs ino i -> stepped p fs fs ph (PReturned (decode_file (encode_file i) kid))) as Hread.
  { intros ino i Hk. apply Hret. exists ino. destruct Hk as (H1 & Hi & H2). rewrite decode_encode_file by done.
    by destruct (_ =? _). }
  destruct ph as [|i|i s ino n|i s ino|i s ino r|i| |r]; cbn [starter_step] in Hs.
  - destruct (read_path_safe p fs (st_ok a) Hp) as [[Hn Hr]|(ino & i & Hk & Hr)]; rewrite Hr in Hs.
    + injection Hs as <- <-. apply stepped_idle; [done| |done]. by split.
    + destruct (st_ok a); injection Hs as <- <-; [by eapply Hread|]. apply Hret. by exists 0%nat.
  - destruct (create_new_private _ _ _) as [[fs1 ino]|[]] eqn:Ec; injection Hs as <- <-;
      try (apply Hret; by exists 0%nat); try by apply stepped_idle.
    apply create_new_private_Ok in Ec as (Hn & -> & ->). split; cbn.
    + destruct Hp as [Hp|(j & i' & Hk)]; [left|right].
      * cbn. rewrite lookup_insert_ne; [done|]. apply staging_name_other.
      * exists j, i'. by eapply key_is_step.
    + split; [done|]. rewrite lookup_insert_eq. split; [done|]. rewrite lookup_insert_ne by apply staging_name_other.
      destruct Hp as [Hp|(j & i' & Hk & _ & m & Hf & _)]; [by rewrite Hp|]. rewrite Hk. intros [= ->]. by rewrite fresh_ino_new in Hf.
    + intros s j [= <- <-]. cbn. rewrite !lookup_insert_eq. split; [apply staging_name_other|eauto].
    + intros s j [= <- <-]. right. apply fresh_ino_new.
  - destruct (negb _); [injection Hs as <- <-; by split; auto|].
    destruct Hph as (Hi & Hf & Hne). destruct (_ <? _)%nat eqn:El.
    + injection Hs as <- <-. split.
      * destruct Hp as [Hp|(j & i' & Hk)]; [by left|right]. exists j, i'. by eapply key_is_step.
      * split; [done|]. cbn. by rewrite lookup_insert_eq.
      * intros s' j [= <- <-]. destruct (Hown s ino eq_refl) as (H1 & H2 & _). cbn. rewrite lookup_insert_eq. eauto.
      * auto.
    + injection Hs as <- <-. apply Nat.ltb_ge in El. split; auto. cbn. rewrite take_ge in Hf by done. done.
  - destruct Hph as (Hi & Hf & Hne). destruct (Hown s ino eq_refl) as (H1 & H2 & H3). unfold hard_link in Hs. rewrite H2 in Hs.
    destruct (names fs !! p) eqn:Ep; [injection Hs as <- <-; by split; auto|].
    destruct (st_ok a); [|injection Hs as <- <-; by split; auto]. injection Hs as <- <-.
    assert (key_is p (mkFs (<[p:=NFile ino]> (names fs)) (files fs)) ino i) as Hk.
    { split; [apply lookup_insert_eq|]. split; [done|]. by exists 384. }
    split; [right; eauto|by exists ino| |auto]. intros s' j [= <- <-]. cbn. rewrite lookup_insert_ne by done. done.
  - destruct (Hown s ino eq_refl) as (H1 & H2 & H3). injection Hs as <- <-.
    assert (path_safe p (remove_file fs s (st_ok a))) as Hp'.
    { destruct Hp as [Hp|(j & i' & Hk)]; [left|right; exists j, i'; by eapply key_is_step].
      unfold remove_file. destruct (st_ok a); [|done]. cbn. rewrite lookup_delete_ne; [done|]. done. }
    destruct r as [u|[]]; split; try done; try (intros ? ?; done). pose proof Hph as [j Hk]. exists j. by eapply key_is_step.
  - injection Hs as <- <-. destruct Hph as [j Hk]. apply Hret. exists j. by destruct (st_ok a).
  - destruct (read_path_safe p fs (st_ok a) Hp) as [[Hn Hr]|(ino & i & Hk & Hr)]; rewrite Hr in Hs.
    + injection Hs as <- <-. apply Hret. by exists 0%nat.
    + destruct (st_ok a); injection Hs as <- <-; [by eapply Hread|]. apply Hret. by exists 0%nat.
  - injection Hs as <- <-. by apply stepped_idle.
Qed.

Lemma phase_of_step p kids d k a j :
  phase_of (deployment_step p kids d (k, a)) j =
  if decide (j = k) then (starter_step p (kids k) (dp_fs d) (phase_of d k) a).2 else phase_of d j.
Proof.
  unfold deployment_step. cbn. destruct (starter_step _ _ _ _ _) as [fs' ph'] eqn:E1. unfold phase_of at 1. cbn.
  destruct (decide (j = k)) as [->|Hne]; [by rewrite lookup_insert_eq|by rewrite lookup_insert_ne].
Qed.

Lemma dp_fs_step p kids d k a :
  dp_fs (deployment_step p kids d (k, a)) = (starter_step p (kids k) (dp_fs d) (phase_of d k) a).1.
Proof. unfold deployment_step. cbn. by destruct (starter_step _ _ _ _ _). Qed.

(** What a step of the deployment does to the directory, whoever makes it:
    the key stays, and every file made is its owner's alone. *)
Record guarded (p : path) (fs fs' : Fs) : Prop := {
  gd_key ino i : key_is p fs ino i -> key_is p fs' ino i;
  gd_private ino f : files fs' !! ino = Some f -> files fs !! ino = Some f \/ mode f = 384
}.

#[global] Instance guarded_preorder p : PreOrder (guarded p).
Proof.
  split; [by split; auto|]. intros x y z [H1 H2] [H3 H4]. split; [by auto|].
  intros ino f H. destruct (H4 _ _ H) as [H5|H5]; auto.
Qed.

Lemma step_private p kid fs ph a ino f :
  files (starter_step p kid fs ph a).1 !! ino = Some f -> files fs !! ino = Some f \/ mode f = 384.
Proof.
  destruct ph as [|i|i s j n|i s j|i s j r|i| |r]; cbn [starter_step]; try (by left).
  - destruct (create_new_private _ _ _) as [[fs1 j]|[]] eqn:Ec; try (by left). apply create_new_private_Ok in Ec as (_ & -> & ->).
    cbn. intros [[_ <-]|[_ ?]]%lookup_insert_Some; [by right|by left].
  - destruct (negb _); [by left|]. destruct (_ <? _)%nat; [|by left]. cbn. intros [[_ <-]|[_ ?]]%lookup_insert_Some; [by right|by left].
  - unfold hard_link. repeat case_match; simplify_eq; by left.
  - unfold remove_file. destruct (st_ok a); by left.
Qed.

Lemma deployment_ok_step p kids d s :
  id_ok (kids s.1) -> step_ok s.2 -> deployment_ok p d ->
  deployment_ok p (deployment_step p kids d s) /\ guarded p (dp_fs d) (dp_fs (deployment_step p kids d s)).
Proof.
  destruct s as [k a]. cbn. intros Hid Ha [Hp Hph Hown Hap].
  assert (forall j, own_ok p (dp_fs d) (phase_of d j)) as Ho by (intros j s ino; apply Hown).
  destruct (starter_step p (kids k) (dp_fs d) (phase_of d k) a) as [fs' ph'] eqn:Es.
  pose proof (step_undisturbed _ _ _ _ _ _ _ (Ho k) Es) as Hu.
  pose proof (step_stays _ _ _ _ _ _ _ Hid Ha Hp (Hph k) (Ho k) Es) as [Sp Sph So Sn].
  assert (forall j, j <> k -> phase_ok p fs' (phase_of d j) /\ own_ok p fs' (phase_of d j)) as Hj.
  { intros j Hne. eapply phase_ok_step; eauto. }
  assert (dp_fs (deployment_step p kids d (k, a)) = fs') as Ef by (by rewrite dp_fs_step, Es).
  split; [split; rewrite ?Ef|].
  - done.
  - intros j. rewrite phase_of_step, Es. case_decide; [done|by apply Hj].
  - intros j s ino. rewrite phase_of_step, Es. case_decide; [apply So|by apply Hj].
  - intros i j s ino s' ino' Hne. rewrite !phase_of_step, Es. cbn. do 2 case_decide; subst; try done; [| |by apply (Hap i j s ino s' ino')].
    + intros Hi Hj'. destruct (Sn _ _ Hi) as [Hi'|Hn]; [by apply (Hap k j s ino s' ino')|]. intros ->.
      destruct (Ho j _ _ Hj') as (_ & _ & [f Hf]). congruence.
    + intros Hi Hj'. destruct (Sn _ _ Hj') as [Hi'|Hn]; [by apply (Hap i k s ino s' ino')|]. intros ->.
      destruct (Ho i _ _ Hi) as (_ & _ & [f Hf]). congruence.
  - rewrite Ef. split; [intros ino i; by eapply key_is_step|]. intros ino f Hf. eapply step_private. rewrite Es. exact Hf.
Qed.

Lemma deployment_run_ok p kids steps : forall d,
  (forall k, id_ok (kids k)) -> Forall (fun s => step_ok s.2) steps -> deployment_ok p d ->
  deployment_ok p (deployment_run p kids d steps) /\ guarded p (dp_fs d) (dp_fs (deployment_run p kids d steps)).
Proof.
  induction steps as [|s steps IH]; intros d Hid Hs Hd; [done|]. apply Forall_cons in Hs as [Hs1 Hs2].
  destruct (deployment_ok_step p kids d s (Hid _) Hs1 Hd) as [H1 H2].
  destruct (IH _ Hid Hs2 H1) as [H3 H4]. split; [done|]. by etrans.
Qed.

Lemma deployment_starts p fs : path_safe p fs -> deployment_ok p (mkDeployment fs ∅).
Proof. intros Hp. split; cbn; try done. Qed.

(** A starter working alone, whose calls are all served. *)
Fixpoint starter_run (p : path) (kid : Z) (a : Step) (n : nat) (x : Fs * Phase) : Fs * Phase :=
  match n with O => x | S n => starter_run p kid a n (starter_step p kid x.1 x.2 a) end.

Lemma starter_run_add p kid a n m x : starter_run p kid a (n + m) x = starter_run p kid a m (starter_run p kid a n x).
Proof. revert x. induction n; intros x; cbn; auto. Qed.

Lemma lone_writes p kid a i s ino m : forall fs n,
  st_ok a = true -> (n + m <= length (encode_file i))%nat ->
  exists fl, starter_run p kid a m (fs, PWrite i s ino n) = (mkFs (names fs) fl, PWrite i s ino (n + m)).
Proof.
  induction m as [|m IH]; intros fs n Ha Hn; cbn [starter_run].
  - exists (files fs). rewrite Nat.add_0_r. by destruct fs.
  - cbn [starter_step fst snd]. rewrite Ha. cbn [negb]. replace (_ <? _)%nat with true by (symmetry; apply Nat.ltb_lt; lia).
    edestruct (IH (set_file fs ino (mkFile (take (S n) (encode_file i)) 384)) (S n)) as [fl Hf]; [done|lia|].
    exists fl. rewrite Hf. do 2 f_equal. lia.
Qed.

Lemma returned_stays p kid a n fs r : starter_run p kid a n (fs, PReturned r) = (fs, PReturned r).
Proof. induction n; cbn; auto. Qed.

(** It returns, and holds a key of the configured id. *)
Lemma lone_starter_returns p kid fs a :
  path_safe p fs -> id_ok kid -> step_ok a -> st_ok a = true ->
  (forall ino i, key_is p fs ino i -> is_key_id i = kid) ->
  names fs !! staging_name p (st_pid a) (st_random a) = None ->
  exists fs' i, starter_run p kid a 51 (fs, PStart) = (fs', PReturned (Ok i)) /\ is_key_id i = kid.
Proof.
  intros Hp Hid Ha Hok Hkid Hfree. change 51%nat with (1 + (1 + (45 + 4)))%nat. rewrite starter_run_add.
  cbn [starter_run starter_step fst snd]. rewrite Hok.
  destruct (read_path_safe p fs true Hp) as [[Hn ->]|(ino & i & Hk & ->)].
  - rewrite starter_run_add. cbn [starter_run starter_step fst snd]. unfold create_new_private. rewrite Hfree, Hok.
    set (i := mkIssuer kid (st_secret a)). rewrite starter_run_add.
    edestruct (lone_writes p kid a i) as [fl ->]; [done| |].
    { rewrite encode_file_length; [lia|by split]. }
    cbn [starter_run starter_step fst snd]. rewrite Hok. cbn [negb]. rewrite encode_file_length by (by split).
    replace (_ <? _)%nat with false by reflexivity. cbn [starter_step fst snd]. rewrite Hok.
    unfold hard_link. cbn [names]. rewrite lookup_insert_eq, lookup_insert_ne, Hn by apply staging_name_other.
    cbn [starter_step fst snd]. rewrite Hok. by eexists _, i.
  - rewrite decode_encode_file by apply Hk. rewrite (Hkid _ _ Hk), Z.eqb_refl.
    rewrite returned_stays. exists fs, i. split; [done|by eapply Hkid].
Qed.

Lemma run_alone p kids k a n : forall d,
  (dp_fs (deployment_run p kids d (replicate n (k, a))), phase_of (deployment_run p kids d (replicate n (k, a))) k) =
  starter_run p (kids k) a n (dp_fs d, phase_of d k).
Proof.
  induction n as [|n IH]; intros d; [done|]. cbn [replicate deployment_run fold_left starter_run]. etrans; [apply IH|].
  rewrite dp_fs_step, phase_of_step, decide_True by done. f_equal. by destruct (starter_step _ _ _ _ _).
Qed.

Lemma run_alone_phase p kids k a n d :
  phase_of (deployment_run p kids d (replicate n (k, a))) k = (starter_run p (kids k) a n (dp_fs d, phase_of d k)).2.
Proof. by rewrite <- run_alone. Qed.

(** C10. one deployment, one issuer: whatever starters run over a directory
    whose key path is empty or holds a complete owner-only key file, in
    whatever order their calls to the system interleave, whichever of those
    calls fail and wherever a starter stops for good, the path always holds
    nothing or one complete owner-only key file, a key once there is never
    replaced, every starter that returned an issuer returned that file's (so any
    two returned the same secret), every file made on the way was readable by
    its owner alone from its first byte, and a starter left to work alone
    returns an issuer within 51 calls. *)
Theorem issuer_key_is_one p kids fs before after :
  path_safe p fs -> (forall k, id_ok (kids k)) -> Forall (fun s => step_ok s.2) (before ++ after) ->
  let d := deployment_run p kids (mkDeployment fs ∅) before in
  let d' := deployment_run p kids d after in
  path_safe p (dp_fs d') /\
  (forall ino i, key_is p (dp_fs d) ino i -> key_is p (dp_fs d') ino i) /\
  (forall k i, phase_of d k = PReturned (Ok i) -> exists ino, key_is p (dp_fs d') ino i) /\
  (forall j k i i', phase_of d' j = PReturned (Ok i) -> phase_of d' k = PReturned (Ok i') -> i = i') /\
  (forall ino f, files (dp_fs d') !! ino = Some f -> files fs !! ino = Some f \/ mode f = 384) /\
  (forall k a, phase_of d' k = PStart -> step_ok a -> st_ok a = true ->
     names (dp_fs d') !! staging_name p (st_pid a) (st_random a) = None ->
     (forall ino i, key_is p (dp_fs d') ino i -> is_key_id i = kids k) ->
     exists i, phase_of (deployment_run p kids d' (replicate 51 (k, a))) k = PReturned (Ok i)).
Proof.
  intros Hp Hid [Hb Ha]%Forall_app. cbn zeta.
  destruct (deployment_run_ok p kids before _ Hid Hb (deployment_starts p fs Hp)) as [Hd Hg].
  destruct (deployment_run_ok p kids after _ Hid Ha Hd) as [Hd' Hg'].
  set (d := deployment_run p kids (mkDeployment fs ∅) before) in *. set (d' := deployment_run p kids d after) in *.
  split; [apply Hd'|]. split; [apply Hg'|]. split.
  { intros k i Hk. pose proof (dk_phase _ _ Hd k) as H. rewrite Hk in H. destruct H as [ino H]. exists ino. by apply Hg'. }
  split.
  { intros j k i i' Hj Hk. pose proof (dk_phase _ _ Hd' j) as H. pose proof (dk_phase _ _ Hd' k) as H'.
    rewrite Hj in H. rewrite Hk in H'. destruct H as [ino H], H' as [ino' H']. by destruct (key_is_unique _ _ _ _ _ _ H H'). }
  split; [apply (gd_private p fs); by etrans|].
  intros k a Hk Hsa Hok Hfree Hkid.
  destruct (lone_starter_returns p (kids k) (dp_fs d') a (dk_path _ _ Hd') (Hid k) Hsa Hok Hkid Hfree) as (fs' & i & Hr & _).
  exists i. by rewrite run_alone_phase, Hk, Hr.
Qed.

Definition race : list (nat * Step) :=
  mjoin (replicate 60 [(0%nat, mkStep true (replicate 32 x01) 100 7); (1%nat, mkStep true (replicate 32 x02) 101 8)]).

Definition raced : Deployment := deployment_run "issuer.key" (fun _ => 9) (mkDeployment (mkFs ∅ ∅) ∅) race.

Lemma issuer_key_is_one_witness :
  exists i, is_secret i = replicate 32 x01 /\ phase_of raced 1 = PReturned (Ok i) /\
  exists ino, key_is "issuer.key" (dp_fs (deployment_run "issuer.key" (fun _ => 9) raced [])) ino i.
Proof.
  assert (path_safe "issuer.key" (mkFs ∅ ∅)) as H1 by by left.
  assert (forall k : nat, id_ok ((fun _ => 9) k)) as H2 by (intros k; unfold id_ok, u64_max; lia).
  assert (Forall (fun s => step_ok s.2) (race ++ [])) as H3.
  { unfold step_ok. apply (bool_decide_unpack _). by vm_compute. }
  destruct (issuer_key_is_one "issuer.key" (fun _ => 9) (mkFs ∅ ∅) race [] H1 H2 H3) as (_ & _ & H & _).
  exists (mkIssuer 9 (replicate 32 x01)). split; [done|]. split; [by vm_compute|]. apply (H 0%nat). by vm_compute.
Defined.

(** What is signed is the account's inventory when it was read, whatever
    moved the account since the mutation was committed. *)
Lemma signed_is_current {env : Environment} {E} {core : InventoryCore E} sign i current later t u inv bs :
  issue (E := E) sign i current later t u inv = Ok bs ->
  device_inventory current t u = Some inv /\
  exists h, Accounts.handle later t u = Some h /\ sign (is_secret i) (statement_of i h inv) = Some bs.
Proof.
  unfold issue. destruct (device_inventory current t u) as [now|]; cbn; [|done]. case_bool_decide as Hn; cbn; [|done].
  subst now. destruct (Accounts.handle later t u) as [h|]; cbn; [|done]. destruct (sign _ _) eqn:Es; cbn; [|done].
  intros [= <-]. eauto.
Qed.

(** A mutation the account has moved past is not signed again. *)
Lemma superseded_is_not_signed {env : Environment} {E} {core : InventoryCore E} sign i current later t u inv now :
  device_inventory current t u = Some now -> now <> inv ->
  issue (E := E) sign i current later t u inv = Err (SvSuperseded (inv_generation inv) (inv_generation now)).
Proof. intros H Hn. unfold issue. rewrite H. cbn. by rewrite bool_decide_eq_false_2. Qed.
