(* ===== verification/Url.v ===== *)
(** * Url: the URL parser and the text operations it is written with
    ([tacenta-transport/src/url.rs])

    Strings are their bytes.  The operations of the standard library that the
    parser, the document fetch and the tenant handle use are given with the
    characters they look for, which are all ASCII; [trim] knows the white space
    of Unicode. *)

From S2P Require Import Prelude Accounts.

(** ** Text *)
(** [str::find] of a pattern that is not empty. *)
Fixpoint find_sub (needle bs : bytes) : option nat :=
  if starts_with needle bs then Some O else
  match bs with [] => None | _ :: bs => S <$> find_sub needle bs end.

(** [split_once] and [rsplit_once]. *)
Definition split_once (sep bs : bytes) : option (bytes * bytes) :=
  i ← find_sub sep bs; Some (take i bs, drop (i + length sep) bs).

Fixpoint rsplit_once (c : byte) (bs : bytes) : option (bytes * bytes) :=
  match bs with
  | [] => None
  | b :: bs =>
      match rsplit_once c bs with
      | Some (h, p) => Some (b :: h, p)
      | None => if bool_decide (b = c) then Some ([], bs) else None
      end
  end.

(** What is before the first [c], and the rest from it on. *)
Fixpoint break_at (c : byte) (bs : bytes) : bytes * bytes :=
  match bs with
  | [] => ([], [])
  | b :: bs' => if bool_decide (b = c) then ([], bs) else let '(h, r) := break_at c bs' in (b :: h, r)
  end.

(** [split(c).next()], and [rsplit(c).next()]. *)
Definition first_field (c : byte) (bs : bytes) : bytes := (break_at c bs).1.
Definition last_field (c : byte) (bs : bytes) : bytes := match rsplit_once c bs with Some (_, p) => p | None => bs end.

Definition contains_byte (c : byte) (bs : bytes) : bool := existsb (fun b => bool_decide (b = c)) bs.
Definition contains (needle bs : bytes) : bool := match find_sub needle bs with Some _ => true | None => false end.
Definition to_ascii_lowercase (bs : bytes) : bytes := ascii_lowercase <$> bs.

Fixpoint drop_byte (c : byte) (bs : bytes) : bytes :=
  match bs with [] => [] | b :: bs' => if bool_decide (b = c) then drop_byte c bs' else bs end.
(** [trim_end_matches(c)]. *)
Definition trim_end_matches (c : byte) (bs : bytes) : bytes := rev (drop_byte c (rev bs)).

(** [str::trim]: the characters with the property White_Space. *)
Definition WHITE_SPACE : list bytes :=
  ((fun n => [byte_of n]) <$> [9; 10; 11; 12; 13; 32]) ++
  ((fun n => [byte_of 194; byte_of n]) <$> [133; 160]) ++
  [[byte_of 225; byte_of 154; byte_of 128]] ++
  ((fun n => [byte_of 226; byte_of 128; byte_of n]) <$> [128; 129; 130; 131; 132; 133; 134; 135; 136; 137; 138; 168; 169; 175]) ++
  [[byte_of 226; byte_of 129; byte_of 159]; [byte_of 227; byte_of 128; byte_of 128]].

Fixpoint trim_of (spaces : list bytes) (fuel : nat) (bs : bytes) : bytes :=
  match fuel with
  | O => bs
  | S fuel =>
      match list_find (fun s => starts_with s bs = true) spaces with
      | Some (_, s) => trim_of spaces fuel (drop (length s) bs)
      | None => bs
      end
  end.
Definition trim (bs : bytes) : bytes :=
  let bs := trim_of WHITE_SPACE (length bs) bs in rev (trim_of (@rev byte <$> WHITE_SPACE) (length bs) (rev bs)).

(** [from_str_radix] of an unsigned integer of at most [max]. *)
Definition digit_of (radix : Z) (b : byte) : option Z :=
  let d := if in_byte 48 57 b then byte_val b - 48
           else if in_byte 97 122 b then byte_val b - 87
           else if in_byte 65 90 b then byte_val b - 55 else radix in
  if d <? radix then Some d else None.

Fixpoint digits_value (radix max acc : Z) (bs : bytes) : option Z :=
  match bs with
  | [] => Some acc
  | b :: bs => d ← digit_of radix b; let acc := acc * radix + d in if acc <=? max then digits_value radix max acc bs else None
  end.

Definition from_str_radix (radix max : Z) (bs : bytes) : option Z :=
  match (if starts_with (bstr "+") bs then drop 1 bs else bs) with [] => None | ds => digits_value radix max 0 ds end.

(** ** [Target::parse] *)
Record Target := mkTarget { tg_scheme : bytes; tg_tls : bool; tg_authority : bytes; tg_host : bytes; tg_port : Z; tg_path : bytes }.

Inductive UrlError := UrlNoScheme | UrlBadScheme | UrlNoHost | UrlUserinfo | UrlUnterminated | UrlBadPort.

(** [[v6]] or [[v6]:port], else [host] or [host:port]. *)
Definition split_authority (authority : bytes) : result UrlError (bytes * option bytes) :=
  match strip_prefix (bstr "[") authority with
  | Some rest =>
      '(h, after) ← ok_or UrlUnterminated (split_once (bstr "]") rest);
      match after with
      | [] => Ok (h, None)
      | p => port ← ok_or UrlBadPort (strip_prefix (bstr ":") p); Ok (h, Some port)
      end
  | None =>
      match rsplit_once (byte_of 58) authority with
      | Some (h, p) => Ok (h, Some p)
      | None => Ok (authority, None)
      end
  end.

Definition parse (url : bytes) : result UrlError Target :=
  '(scheme, rest) ← ok_or UrlNoScheme (split_once (bstr "://") url);
  tls ← (if bool_decide (scheme = bstr "https") || bool_decide (scheme = bstr "wss") then Ok true
         else if bool_decide (scheme = bstr "http") || bool_decide (scheme = bstr "ws") then Ok false
         else Err UrlBadScheme);
  let '(authority, tail) := break_at (byte_of 47) rest in
  let path := match tail with [] => bstr "/" | _ => tail end in
  if bool_decide (authority = []) then Err UrlNoHost else
  if contains_byte (byte_of 64) authority then Err UrlUserinfo else
  '(host, port_str) ← split_authority authority;
  if bool_decide (host = []) then Err UrlNoHost else
  port ← match port_str with
         | Some p => ok_or UrlBadPort (from_str_radix 10 u16_max p)
         | None => Ok (if tls : bool then 443 else 80)
         end;
  Ok (mkTarget scheme tls authority host port path).

(** ** Lemmas *)
Lemma break_at_app c bs : (break_at c bs).1 ++ (break_at c bs).2 = bs.
Proof. induction bs as [|b bs IH]; cbn; [done|]. case_bool_decide; [done|]. destruct (break_at c bs). cbn in *. by rewrite IH. Qed.

Lemma break_at_without c bs : c ∉ (break_at c bs).1.
Proof.
  induction bs as [|b bs IH]; cbn; [set_solver|]. case_bool_decide; [set_solver|]. destruct (break_at c bs). cbn in *. set_solver.
Qed.

Lemma break_at_tail c bs : (break_at c bs).2 = [] \/ exists t, (break_at c bs).2 = c :: t.
Proof.
  induction bs as [|b bs IH]; cbn; [by left|]. case_bool_decide; [subst; right; by eexists|]. by destruct (break_at c bs).
Qed.

(** Text without [c] and then [c]: the split is known. *)
Lemma break_at_exact c a t : c ∉ a -> break_at c (a ++ c :: t) = (a, c :: t).
Proof.
  induction a as [|b a IH]; intros H; cbn; [by rewrite bool_decide_eq_true_2|].
  rewrite bool_decide_eq_false_2 by set_solver. rewrite IH by set_solver. done.
Qed.

Lemma break_at_none c a : c ∉ a -> break_at c a = (a, []).
Proof.
  induction a as [|b a IH]; intros H; cbn; [done|]. rewrite bool_decide_eq_false_2 by set_solver. rewrite IH by set_solver. done.
Qed.

Lemma find_sub_Some needle bs i :
  find_sub needle bs = Some i -> bs = take i bs ++ needle ++ drop (i + length needle) bs.
Proof.
  revert i. induction bs as [|b bs IH]; intros i; cbn [find_sub].
  - destruct (starts_with needle []) eqn:E1; [|done]. intros [= <-]. apply starts_with_true in E1 as [r E1]. cbn.
    rewrite E1 at 1. by rewrite E1, drop_app_length.
  - destruct (starts_with needle (b :: bs)) eqn:E1.
    + intros [= <-]. apply starts_with_true in E1 as [r E1]. cbn [take app Nat.add]. by rewrite E1, drop_app_length.
    + destruct (find_sub needle bs) as [j|] eqn:E2; [|done]. intros [= <-]. cbn. f_equal. by apply IH.
Qed.

Lemma split_once_Some sep bs a b : split_once sep bs = Some (a, b) -> bs = a ++ sep ++ b.
Proof. unfold split_once. destruct (find_sub sep bs) as [i|] eqn:E1; [|done]. intros [= <- <-]. by apply find_sub_Some. Qed.

(** Splitting once at a character, and its first field. *)
Lemma split_once_byte c bs a b : split_once [c] bs = Some (a, b) -> first_field c bs = a.
Proof.
  intros H. pose proof (split_once_Some _ _ _ _ H) as ->. cbn.
  assert (c ∉ a) as Hn; [|unfold first_field; by rewrite break_at_exact].
  unfold split_once in H. destruct (find_sub [c] (a ++ [c] ++ b)) as [i|] eqn:E1; [|done]. cbn in H. injection H as H _.
  assert (find_sub [c] (a ++ [c] ++ b) = Some i -> c ∉ take i (a ++ [c] ++ b)) as Hf; [|rewrite <- H; by apply Hf].
  clear. generalize (a ++ [c] ++ b). clear. intros l. revert i. induction l as [|x l IH]; intros i; cbn [find_sub starts_with].
  - done.
  - case_bool_decide as Hx; [intros [= <-]; set_solver|]. cbn [andb]. destruct (find_sub [c] l) as [j|]; [|done].
    intros [= <-]. cbn. specialize (IH j eq_refl). set_solver.
Qed.

Definition scheme_of (s : bytes) : Prop := s = bstr "https" \/ s = bstr "http" \/ s = bstr "wss" \/ s = bstr "ws".

Lemma split_scheme s rest : scheme_of s -> split_once (bstr "://") (s ++ bstr "://" ++ rest) = Some (s, rest).
Proof. intros [->|[->|[->| ->]]]; done. Qed.

(** What a URL that parses is made of. *)
Record parsed (url : bytes) (t : Target) (rest : bytes) : Prop := {
  pd_url : url = tg_scheme t ++ bstr "://" ++ rest;
  pd_scheme : scheme_of (tg_scheme t);
  pd_tls : tg_tls t = true <-> tg_scheme t = bstr "https" \/ tg_scheme t = bstr "wss";
  pd_authority : tg_authority t = first_field (byte_of 47) rest;
  pd_nonempty : tg_authority t <> [];
  pd_split : exists p, split_authority (tg_authority t) = Ok (tg_host t, p)
}.

Lemma parse_Ok url t : parse url = Ok t -> exists rest, parsed url t rest.
Proof.
  unfold parse. destruct (split_once _ url) as [[scheme rest]|] eqn:Es; cbn [mbind result_bind ok_or]; [|done]. intros H.
  apply split_once_Some in Es. exists rest.
  assert (exists (tls : bool), scheme_of scheme /\ (tls = true <-> scheme = bstr "https" \/ scheme = bstr "wss") /\
    (let '(authority, tail) := break_at (byte_of 47) rest in
     if bool_decide (authority = []) then Err UrlNoHost else
     if contains_byte (byte_of 64) authority then Err UrlUserinfo else
     '(host, port_str) ← split_authority authority;
     if bool_decide (host = []) then Err UrlNoHost else
     port ← match port_str with
         | Some p => ok_or UrlBadPort (from_str_radix 10 u16_max p)
         | None => Ok (if tls : bool then 443 else 80)
         end;
     Ok (mkTarget scheme tls authority host port match tail with [] => bstr "/" | _ => tail end)) = Ok t) as (tls & Hs & Ht & H').
  { destruct (bool_decide (scheme = bstr "https") || bool_decide (scheme = bstr "wss")) eqn:E1; cbn [mbind result_bind] in H.
    - exists true. apply orb_prop in E1 as [E1|E1]; apply bool_decide_eq_true_1 in E1 as ->; (split; [unfold scheme_of; auto|split; [by split; auto|exact H]]).
    - bool_prop. destruct (bool_decide (scheme = bstr "http") || bool_decide (scheme = bstr "ws")) eqn:E3; cbn [mbind result_bind] in H; [|done].
      exists false. apply orb_prop in E3 as [E3|E3]; apply bool_decide_eq_true_1 in E3 as ->; (split; [unfold scheme_of; auto|split; [split; [done|intros [Hx|Hx]; by vm_compute in Hx]|exact H]]). }
  clear H. unfold first_field in *. destruct (break_at (byte_of 47) rest) as [authority tail] eqn:Eb.
  case_bool_decide as Ha; [done|]. destruct (contains_byte _ _); [done|].
  destruct (split_authority authority) as [[host port_str]|] eqn:Eh; cbn in H'; [|done].
  case_bool_decide; [done|]. match type of H' with context [mbind _ ?m] => destruct m as [port|]; cbn in H'; [|done] end.
  injection H' as <-. split; cbn; unfold first_field; rewrite ?Eb; eauto.
Qed.

(** Trimming at the end of a concatenation. *)
Lemma drop_byte_app c x y : drop_byte c (x ++ y) = match drop_byte c x with [] => drop_byte c y | d => d ++ y end.
Proof. induction x as [|b x IH]; cbn; [done|]. case_bool_decide; [done|]. done. Qed.

Lemma trim_end_app c x y : trim_end_matches c (x ++ y) = match trim_end_matches c y with [] => trim_end_matches c x | d => x ++ d end.
Proof.
  unfold trim_end_matches. rewrite rev_app_distr, drop_byte_app. destruct (drop_byte c (rev y)) as [|d l] eqn:E1; [done|].
  rewrite rev_app_distr, rev_involutive. destruct (rev (d :: l)) eqn:E2; [|done].
  apply (f_equal (@rev byte)) in E2. by rewrite rev_involutive in E2.
Qed.

Lemma trim_end_without c x : c ∉ x -> trim_end_matches c x = x.
Proof.
  intros H. unfold trim_end_matches. rewrite <- (rev_involutive x) at 2. f_equal.
  assert (c ∉ rev x) as Hr by (rewrite rev_alt; by rewrite (elem_of_reverse c x)).
  destruct (rev x) as [|b l]; cbn; [done|]. rewrite bool_decide_eq_false_2; [done|set_solver].
Qed.

Lemma trim_end_idem c x : trim_end_matches c (trim_end_matches c x) = trim_end_matches c x.
Proof.
  unfold trim_end_matches. rewrite rev_involutive. f_equal. induction (rev x) as [|b l IH]; cbn; [done|].
  case_bool_decide as Hb; [done|]. cbn. by rewrite bool_decide_eq_false_2.
Qed.

(** What is left of text that begins with [c] begins with it still. *)
Lemma trim_end_head c t : trim_end_matches c (c :: t) = [] \/ exists t', trim_end_matches c (c :: t) = c :: t'.
Proof.
  change (c :: t) with ([c] ++ t). rewrite trim_end_app. destruct (trim_end_matches c t); [left|right; by eexists].
  unfold trim_end_matches. cbn. by rewrite bool_decide_eq_true_2.
Qed.

(** A parsed number is not negative and fits. *)
Lemma digit_of_range radix b d : 0 < radix -> digit_of radix b = Some d -> 0 <= d < radix.
Proof.
  intros Hr. unfold digit_of, in_byte. pose proof (byte_val_range b). repeat case_match; intros [= <-]; bool_prop; lia.
Qed.

Lemma digits_value_range radix max bs : forall acc v,
  0 < radix -> 0 <= acc <= max -> digits_value radix max acc bs = Some v -> 0 <= v <= max.
Proof.
  induction bs as [|b bs IH]; intros acc v Hr Ha H; cbn in H; [by injection H as <-|].
  destruct (digit_of radix b) as [d|] eqn:Ed; cbn in H; [|done]. apply digit_of_range in Ed; [|done].
  destruct (_ <=? max) eqn:El in H; [|done]. bool_prop. apply IH in H; [done|done|nia].
Qed.

Lemma from_str_radix_range radix max bs v : 0 < radix -> 0 <= max -> from_str_radix radix max bs = Some v -> 0 <= v <= max.
Proof.
  intros Hr Hm. unfold from_str_radix. set (ds := if starts_with (bstr "+") bs then drop 1 bs else bs). destruct ds as [|b l]; [done|].
  by apply digits_value_range.
Qed.
