(* ===== verification/Tenant.v ===== *)
(** * Tenant: the service document and the handle built from it
    ([tacenta-discovery/src/lib.rs], [tacenta-client/src/tenant.rs],
    [tacenta-client/src/dial.rs])

    What a document says, what a document from an origin may say, the handle,
    and where each of its connections goes.  Name resolution, certificates and
    the JSON reader are parameters; the texts of the errors are their cases. *)

From stdpp Require Import pretty.
From S2P Require Import Prelude Accounts Url.
#[local] Open Scope Z_scope.

(** ** The document *)
Inductive Tls := TlsNone | TlsWebPki | TlsPrivateCa (trust_anchors_pem : bytes).

#[global] Instance Tls_eq_dec : EqDecision Tls.
Proof. solve_decision. Defined.

Record ServiceDocument := mkDocument {
  version : Z; server_name : bytes; sd_directory : bytes; sd_relay : bytes; sd_accounts : bytes; sd_provisioning : bytes;
  tls : Tls; ws : option bytes
}.

Definition VERSION : Z := 1.
Definition DEFAULT_PORTS : Z * Z * Z * Z := (4720, 4721, 4722, 4723).

Definition host_port (host : bytes) (port : Z) : bytes := host ++ bstr ":" ++ bstr (pretty port).

(** [ServiceDocument::on]. *)
Definition document_on (host server_name : bytes) (ports : Z * Z * Z * Z) (t : Tls) : ServiceDocument :=
  let host := if contains_byte (byte_of 58) host && negb (starts_with (bstr "[") host) then bstr "[" ++ host ++ bstr "]" else host in
  let '(d, r, a, p) := ports in
  mkDocument VERSION server_name (host_port host d) (host_port host r) (host_port host a) (host_port host p) t None.

Definition hosted (host : bytes) : ServiceDocument := document_on host host DEFAULT_PORTS TlsWebPki.
Definition local (host : bytes) : ServiceDocument := document_on host host DEFAULT_PORTS TlsNone.

Definition with_ws (doc : ServiceDocument) (base : bytes) : ServiceDocument :=
  mkDocument (version doc) (server_name doc) (sd_directory doc) (sd_relay doc) (sd_accounts doc) (sd_provisioning doc)
    (tls doc) (Some (trim_end_matches (byte_of 47) base)).

Definition ws_url (doc : ServiceDocument) (service : bytes) : option bytes := (fun base => base ++ bstr "/" ++ service) <$> ws doc.

Definition doc_endpoints (doc : ServiceDocument) : list bytes := [sd_directory doc; sd_relay doc; sd_accounts doc; sd_provisioning doc].

Definition host_of (hostport : bytes) : bytes :=
  match strip_prefix (bstr "[") hostport with
  | Some rest => first_field (byte_of 93) rest
  | None => match rsplit_once (byte_of 58) hostport with Some (h, _) => h | None => hostport end
  end.

(** ** [IpAddr::from_str], as far as [is_loopback] asks *)
Fixpoint take_digits (radix : Z) (bs : bytes) : list Z * bytes :=
  match bs with
  | [] => ([], [])
  | b :: bs' => match digit_of radix b with Some d => let '(ds, r) := take_digits radix bs' in (d :: ds, r) | None => ([], bs) end
  end.

Definition read_number (radix : Z) (max_digits : nat) (allow_zero_prefix : bool) (max : Z) (bs : bytes) : option (Z * bytes) :=
  let '(ds, rest) := take_digits radix bs in
  if (length ds =? 0)%nat || (max_digits <? length ds)%nat then None else
  if negb allow_zero_prefix && match ds with 0 :: _ :: _ => true | _ => false end then None else
  let v := fold_left (fun acc d => acc * radix + d) ds 0 in if v <=? max then Some (v, rest) else None.

Definition read_separator {A} (sep : byte) (index : nat) (p : bytes -> option (A * bytes)) (bs : bytes) : option (A * bytes) :=
  match index with O => p bs | _ => rest ← strip_prefix [sep] bs; p rest end.

Definition read_ipv4_addr (bs : bytes) : option (list Z * bytes) :=
  let octet i bs := read_separator (byte_of 46) i (read_number 10 3 false 255) bs in
  '(a, bs) ← octet 0%nat bs; '(b, bs) ← octet 1%nat bs; '(c, bs) ← octet 2%nat bs; '(d, bs) ← octet 3%nat bs;
  Some ([a; b; c; d], bs).

(** [n] is how many groups may still be read; the flag is whether the last
    were an IPv4 address. *)
Fixpoint read_groups (n index : nat) (bs : bytes) : list Z * bool * bytes :=
  match n with
  | O => ([], false, bs)
  | S n =>
      match (if (0 <? n)%nat then read_separator (byte_of 58) index read_ipv4_addr bs else None) with
      | Some ([a; b; c; d], rest) => ([a * 256 + b; c * 256 + d], true, rest)
      | _ =>
          match read_separator (byte_of 58) index (read_number 16 4 true u16_max) bs with
          | Some (g, rest) => let '(gs, v4, rest) := read_groups n (S index) rest in (g :: gs, v4, rest)
          | None => ([], false, bs)
          end
      end
  end.

Definition read_ipv6_addr (bs : bytes) : option (list Z * bytes) :=
  let '(head, v4, rest) := read_groups 8 0 bs in
  if (length head =? 8)%nat then Some (head, rest) else
  if v4 : bool then None else
  rest ← strip_prefix (bstr "::") rest;
  let '(tail, _, rest) := read_groups (8 - (length head + 1)) 0 rest in
  Some (head ++ replicate (8 - length head - length tail) 0 ++ tail, rest).

Inductive IpAddr := V4 (octets : list Z) | V6 (groups : list Z).

Definition parse_ip (bs : bytes) : option IpAddr :=
  '(ip, rest) ← match read_ipv4_addr bs with
                | Some (o, rest) => Some (V4 o, rest)
                | None => '(g, rest) ← read_ipv6_addr bs; Some (V6 g, rest)
                end;
  match rest with [] => Some ip | _ => None end.

Definition ip_is_loopback (ip : IpAddr) : bool :=
  match ip with
  | V4 o => match o with 127 :: _ => true | _ => false end
  | V6 g => bool_decide (g = [0; 0; 0; 0; 0; 0; 0; 1])
  end.

(** ** What a document from an origin may say *)
Definition is_loopback (host : bytes) : bool :=
  bool_decide (to_ascii_lowercase host = bstr "localhost") ||
  match parse_ip host with Some ip => ip_is_loopback ip | None => false end.

(** The name in one spelling. *)
Definition canonical (name : bytes) : bytes := to_ascii_lowercase (trim_end_matches (byte_of 46) name).

Definition same_site (name origin : bytes) : bool :=
  bool_decide (canonical name = canonical origin) || ends_with (bstr "." ++ canonical origin) (canonical name).

Inductive DiscoveryError :=
| FetchFailed | NotADocument
| PlaintextDiscovery | Downgrade | OtherDomain (name : bytes) | CarriageNotWss (ws : bytes) | CarriageElsewhere (host : bytes)
| UnknownVersion (v : Z) | BadTrustAnchors | Unresolved (hostport : bytes) | NoCarriage.

Definition check_against_origin (url : bytes) (doc : ServiceDocument) : result DiscoveryError unit :=
  match strip_prefix (bstr "https://") url with
  | None =>
      let authority := match strip_prefix (bstr "http://") url with Some r => first_field (byte_of 47) r | None => [] end in
      if is_loopback (host_of authority) then Ok tt else Err PlaintextDiscovery
  | Some rest =>
      let origin := host_of (first_field (byte_of 47) rest) in
      if bool_decide (tls doc = TlsNone) then Err Downgrade else
      match list_find (fun name => same_site name origin = false) ((host_of <$> doc_endpoints doc) ++ [server_name doc]) with
      | Some (_, name) => Err (OtherDomain name)
      | None =>
          match ws doc with
          | None => Ok tt
          | Some w =>
              match strip_prefix (bstr "wss://") w with
              | None => Err (CarriageNotWss w)
              | Some rest =>
                  let ws_host := host_of (first_field (byte_of 47) rest) in
                  if same_site ws_host origin then Ok tt else Err (CarriageElsewhere ws_host)
              end
          end
      end
  end.

(** ** The handle *)
Inductive Service := SDirectory | SRelay | SAccounts | SProvisioning.

Definition service_name (s : Service) : bytes :=
  match s with SDirectory => bstr "directory" | SRelay => bstr "relay" | SAccounts => bstr "accounts" | SProvisioning => bstr "provisioning" end.

Section Handle.
(** The trust of a client, the public one, and one from trust anchors. *)
Context {ClientTls : Type} (web_pki : ClientTls) (trusting_pem : bytes -> option ClientTls).
(** The resolver, and streams a caller opens itself. *)
Context {SocketAddr : Type} (lookup_host : bytes -> option (list SocketAddr)) {Connector : Type}.
(** The document fetch and the JSON reader. *)
Context (http_get : bytes -> ClientTls -> option bytes) (from_slice : bytes -> option ServiceDocument).

Record Endpoints := mkEndpoints { ep_directory : SocketAddr; ep_relay : SocketAddr; ep_accounts : SocketAddr; ep_provisioning : SocketAddr }.

Inductive Carriage := CTcp | COffered (base : bytes) | CActive (base : bytes) | CCustom (c : Connector).

Record Tacenta := mkTacenta {
  tn_api_key : bytes; tn_endpoints : Endpoints; tn_trust : option (bytes * ClientTls); tn_origin_tls : ClientTls; tn_carriage : Carriage
}.

Definition trust_for (t : Tls) (name : bytes) : option (option (bytes * ClientTls)) :=
  match t with
  | TlsNone => Some None
  | TlsWebPki => Some (Some (name, web_pki))
  | TlsPrivateCa pem => c ← trusting_pem pem; Some (Some (name, c))
  end.

Definition resolve (hostport : bytes) : result DiscoveryError SocketAddr :=
  match lookup_host hostport with Some (a :: _) => Ok a | _ => Err (Unresolved hostport) end.

Definition from_document (api_key : bytes) (doc : ServiceDocument) (t : ClientTls) : result DiscoveryError Tacenta :=
  if negb (version doc =? VERSION) then Err (UnknownVersion (version doc)) else
  trust ← match tls doc with
          | TlsWebPki => Ok (Some (server_name doc, t))
          | other => ok_or BadTrustAnchors (trust_for other (server_name doc))
          end;
  d ← resolve (sd_directory doc); r ← resolve (sd_relay doc); a ← resolve (sd_accounts doc); p ← resolve (sd_provisioning doc);
  Ok (mkTacenta api_key (mkEndpoints d r a p) trust t
        match ws doc with Some base => COffered (trim_end_matches (byte_of 47) base) | None => CTcp end).

Definition from_discovered (api_key url : bytes) (doc : ServiceDocument) (t : ClientTls) : result DiscoveryError Tacenta :=
  _ ← check_against_origin url doc; from_document api_key doc t.

Definition fetch_document (url : bytes) (t : ClientTls) : result DiscoveryError ServiceDocument :=
  body ← ok_or FetchFailed (http_get url t); ok_or NotADocument (from_slice body).

Definition connect_via (api_key url : bytes) (t : ClientTls) : result DiscoveryError Tacenta :=
  doc ← fetch_document url t; from_discovered api_key url doc t.

Definition WELL_KNOWN_PATH : bytes := bstr "/.well-known/tacenta".

Definition connect_to (api_key server : bytes) : result DiscoveryError Tacenta :=
  connect_via api_key (bstr "https://" ++ server ++ WELL_KNOWN_PATH) web_pki.

Definition with_carriage (t : Tacenta) (c : Carriage) : Tacenta :=
  mkTacenta (tn_api_key t) (tn_endpoints t) (tn_trust t) (tn_origin_tls t) c.

Definition websocket (t : Tacenta) : result DiscoveryError Tacenta :=
  match tn_carriage t with
  | COffered base | CActive base => Ok (with_carriage t (CActive base))
  | CTcp | CCustom _ => Err NoCarriage
  end.

Definition with_connector (t : Tacenta) (c : Connector) : Tacenta := with_carriage t (CCustom c).

Definition is_websocket (t : Tacenta) : bool := match tn_carriage t with CActive _ => true | _ => false end.

Definition websocket_url (t : Tacenta) : option bytes :=
  match tn_carriage t with COffered base | CActive base => Some base | CTcp | CCustom _ => None end.

Definition from_endpoints (api_key : bytes) (e : Endpoints) (trust : option (bytes * ClientTls)) : Tacenta :=
  mkTacenta api_key e trust web_pki CTcp.

(** ** Dialling *)
Inductive Dialer := DialTcp (trust : option (bytes * ClientTls)) | DialWebSocket (base : bytes) (t : ClientTls) | DialCustom (c : Connector).

Definition dialer (t : Tacenta) : Dialer :=
  match tn_carriage t with
  | CActive base => DialWebSocket base (tn_origin_tls t)
  | CCustom c => DialCustom c
  | _ => DialTcp (tn_trust t)
  end.

Definition dialer_url (base service : bytes) : bytes := trim_end_matches (byte_of 47) base ++ bstr "/" ++ service.

(** Where a connection goes: an address under a trust, the host and port of
    a URL under one, or a stream of the caller's. *)
Inductive Destination :=
| ToAddress (a : SocketAddr) (trust : option (bytes * ClientTls))
| ToWebSocket (host : bytes) (port : Z) (trust : option (bytes * ClientTls))
| ToStream (c : Connector) (s : Service).

(** [ws::connect], up to the connection. *)
Definition ws_destination (url : bytes) (t : ClientTls) : result UrlError Destination :=
  target ← parse url;
  if negb (bool_decide (tg_scheme target = bstr "ws") || bool_decide (tg_scheme target = bstr "wss")) then Err UrlBadScheme else
  Ok (ToWebSocket (tg_host target) (tg_port target) (if tg_tls target then Some (tg_host target, t) else None)).

Definition endpoint_of (e : Endpoints) (s : Service) : SocketAddr :=
  match s with SDirectory => ep_directory e | SRelay => ep_relay e | SAccounts => ep_accounts e | SProvisioning => ep_provisioning e end.

Definition entry_of (doc : ServiceDocument) (s : Service) : bytes :=
  match s with SDirectory => sd_directory doc | SRelay => sd_relay doc | SAccounts => sd_accounts doc | SProvisioning => sd_provisioning doc end.

(** [Dialer::accounts] and its three siblings. *)
Definition dial (d : Dialer) (s : Service) (addr : SocketAddr) : result UrlError Destination :=
  match d with
  | DialCustom c => Ok (ToStream c s)
  | DialTcp trust => Ok (ToAddress addr trust)
  | DialWebSocket base t => ws_destination (dialer_url base (service_name s)) t
  end.

Definition reach (t : Tacenta) (s : Service) : result UrlError Destination := dial (dialer t) s (endpoint_of (tn_endpoints t) s).

(** [http::parse]: a document is fetched over http or https. *)
Definition http_parse (url : bytes) : result UrlError Target :=
  target ← parse url;
  if bool_decide (tg_scheme target = bstr "http") || bool_decide (tg_scheme target = bstr "https") then Ok target else Err UrlBadScheme.
End Handle.

(** ** Lemmas *)
(** The host a URL is dialled at is the one [host_of] reads. *)
Lemma split_authority_host authority host p : split_authority authority = Ok (host, p) -> host_of authority = host.
Proof.
  unfold split_authority, host_of. destruct (strip_prefix (bstr "[") authority) as [rest|].
  - destruct (split_once (bstr "]") rest) as [[h after]|] eqn:Es; cbn [mbind result_bind ok_or]; [|done].
    apply split_once_byte in Es. intros H. assert (h = host) as <-; [|exact Es].
    destruct after; [by injection H|]. destruct (strip_prefix _ _); [by injection H|done].
  - destruct (rsplit_once _ _) as [[h q]|]; by intros [= <- _].
Qed.

Lemma parsed_host url t rest : parsed url t rest -> host_of (first_field (byte_of 47) rest) = tg_host t.
Proof. intros [_ _ _ Ha _ [p Hp]]. rewrite <- Ha. by eapply split_authority_host. Qed.

(** The origin of a document is where it was fetched from. *)
Lemma origin_is_fetched url o :
  http_parse url = Ok o ->
  exists rest, host_of (first_field (byte_of 47) rest) = tg_host o /\
  if tg_tls o then strip_prefix (bstr "https://") url = Some rest
  else strip_prefix (bstr "https://") url = None /\ strip_prefix (bstr "http://") url = Some rest.
Proof.
  unfold http_parse. destruct (parse url) as [t|] eqn:Ep; cbn [mbind result_bind]; [|done].
  destruct (_ || _) eqn:Es; [|done]. intros [= <-]. apply parse_Ok in Ep as [rest Hp]. exists rest.
  split; [by eapply parsed_host|]. destruct Hp as [-> _ Ht _ _ _].
  apply orb_prop in Es as [Es|Es]; apply bool_decide_eq_true_1 in Es; rewrite Es in *.
  - destruct (tg_tls t); [destruct Ht as [Ht _]; destruct (Ht eq_refl) as [Hc|Hc]; by vm_compute in Hc|]. done.
  - destruct (tg_tls t); [by apply strip_prefix_exact|]. destruct Ht as [_ Ht]. discriminate Ht. by left.
Qed.

(** The name is the origin's or below it. *)
Definition within (name origin : bytes) : Prop :=
  canonical name = canonical origin \/ exists sub, canonical name = sub ++ bstr "." ++ canonical origin.

Lemma same_site_within name origin : same_site name origin = true -> within name origin.
Proof.
  unfold same_site, ends_with. intros [H|H]%orb_prop; [left; by apply bool_decide_eq_true_1 in H|right].
  apply starts_with_true in H as [r H]. exists (rev r). apply (f_equal (@rev byte)) in H.
  by rewrite rev_involutive, rev_app_distr, rev_involutive in H.
Qed.

(** The URL of a service under the base of a document's carriage. *)
Lemma carriage_host rest s target :
  parse (dialer_url (trim_end_matches (byte_of 47) (bstr "wss://" ++ rest)) (service_name s)) = Ok target ->
  tg_host target = host_of (first_field (byte_of 47) rest) /\ tg_tls target = true.
Proof.
  unfold dialer_url. rewrite trim_end_idem. unfold first_field.
  pose proof (break_at_app (byte_of 47) rest) as Hr. pose proof (break_at_without (byte_of 47) rest) as Hn.
  pose proof (break_at_tail (byte_of 47) rest) as Ht. destruct (break_at (byte_of 47) rest) as [a tl]. cbn [fst snd] in *. subst rest.
  intros Hp. assert (exists y, trim_end_matches (byte_of 47) (bstr "wss://" ++ a ++ tl) ++ bstr "/" ++ service_name s =
    bstr "wss" ++ bstr "://" ++ a ++ byte_of 47 :: y) as [y Hy].
  { rewrite (app_assoc (bstr "wss://") a tl), (trim_end_app _ (bstr "wss://" ++ a) tl). assert (trim_end_matches (byte_of 47) tl = [] \/ exists t', trim_end_matches (byte_of 47) tl = byte_of 47 :: t') as [Hx|[t' Hx]].
    { destruct Ht as [->|[t ->]]; [by left|apply trim_end_head]. }
    - rewrite Hx, trim_end_app, trim_end_without by done.
      destruct a as [|b a]; [cbn [app] in Hp; rewrite trim_end_app, Hx in Hp; by destruct s|]. exists (service_name s). by rewrite <- !app_assoc.
    - rewrite Hx. exists (t' ++ bstr "/" ++ service_name s). by rewrite <- !app_assoc. }
  rewrite Hy in Hp. apply parse_Ok in Hp as [rest Hp]. pose proof (parsed_host _ _ _ Hp) as Hh. destruct Hp as [Hu Hs Htl _ _ _].
  assert (tg_scheme target = bstr "wss" /\ rest = a ++ byte_of 47 :: y) as [Hw ->].
  { apply (f_equal (split_once (bstr "://"))) in Hu. rewrite !split_scheme in Hu by (done || (unfold scheme_of; auto)). by injection Hu. }
  rewrite <- Hh. unfold first_field. rewrite break_at_exact by done. split; [done|]. apply Htl. by right.
Qed.


(** What the check admits over https. *)
Record admitted_document (doc : ServiceDocument) (origin : bytes) : Prop := {
  ad_tls : tls doc <> TlsNone;
  ad_entries s : within (host_of (entry_of doc s)) origin;
  ad_name : within (server_name doc) origin;
  ad_ws w : ws doc = Some w -> exists rest, w = bstr "wss://" ++ rest /\ within (host_of (first_field (byte_of 47) rest)) origin
}.

Lemma check_admits url doc rest :
  strip_prefix (bstr "https://") url = Some rest -> check_against_origin url doc = Ok tt ->
  admitted_document doc (host_of (first_field (byte_of 47) rest)).
Proof.
  unfold check_against_origin. intros ->. case_bool_decide as Ht; [done|].
  destruct (list_find _ _) as [[i n]|] eqn:Ef; [done|]. apply list_find_None in Ef. rewrite Forall_forall in Ef.
  assert (forall n, n ∈ (host_of <$> doc_endpoints doc) ++ [server_name doc] -> within n (host_of (first_field (byte_of 47) rest))) as Hw.
  { intros n Hn. apply same_site_within. apply Ef in Hn. by destruct (same_site n _). }
  intros H. split.
  - done.
  - intros s. apply Hw. destruct s; cbn; set_solver.
  - apply Hw. set_solver.
  - intros w Hws. rewrite Hws in H. destruct (strip_prefix (bstr "wss://") w) as [r|] eqn:Es; [|done].
    apply strip_prefix_exact in Es. destruct (same_site _ _) eqn:Ess in H; [|done]. eauto using same_site_within.
Qed.

Section Origin.
Context {ClientTls : Type} (web_pki : ClientTls) (trusting_pem : bytes -> option ClientTls).
Context {SocketAddr : Type} (lookup_host : bytes -> option (list SocketAddr)) (Connector : Type).

Abbreviation Handle := (@Tacenta ClientTls SocketAddr Connector).

Lemma resolve_Ok hp a : resolve lookup_host hp = Ok a -> exists rest, lookup_host hp = Some (a :: rest).
Proof. unfold resolve. destruct (lookup_host hp) as [[|b l]|]; try done. intros [= <-]. eauto. Qed.

(** What the handle of a document is. *)
Record handle_of (doc : ServiceDocument) (t : ClientTls) (tn : Handle) : Prop := {
  ho_addr s : exists rest, lookup_host (entry_of doc s) = Some (endpoint_of (tn_endpoints tn) s :: rest);
  ho_trust : match tls doc with
             | TlsWebPki => tn_trust tn = Some (server_name doc, t)
             | TlsNone => tn_trust tn = None
             | TlsPrivateCa pem => exists c, trusting_pem pem = Some c /\ tn_trust tn = Some (server_name doc, c)
             end;
  ho_origin : tn_origin_tls tn = t;
  ho_carriage : tn_carriage tn = match ws doc with Some base => COffered (trim_end_matches (byte_of 47) base) | None => CTcp end
}.

Lemma from_document_Ok api_key doc t (tn : Handle) :
  from_document web_pki trusting_pem lookup_host api_key doc t = Ok tn -> handle_of doc t tn.
Proof.
  unfold from_document. destruct (negb _); [done|]. destruct (match tls doc with TlsWebPki => _ | _ => _ end) as [trust|] eqn:Et; cbn; [|done].
  destruct (resolve _ (sd_directory doc)) as [d|] eqn:Ed; cbn; [|done]. destruct (resolve _ (sd_relay doc)) as [r|] eqn:Er; cbn; [|done].
  destruct (resolve _ (sd_accounts doc)) as [a|] eqn:Ea; cbn; [|done]. destruct (resolve _ (sd_provisioning doc)) as [p|] eqn:Ep; cbn; [|done].
  apply resolve_Ok in Ed, Er, Ea, Ep. intros [= <-]. split; cbn; try done.
  - by intros [].
  - destruct (tls doc); cbn in Et; try by injection Et as <-. destruct (trusting_pem _) as [c|]; cbn in Et; [|done]. injection Et as <-. eauto.
Qed.

End Origin.

Definition sample_lookup (hp : bytes) : option (list bytes) := Some [hp].

Definition sample_document : ServiceDocument := with_ws (hosted (bstr "svc.tacenta.example")) (bstr "wss://Tacenta.example/v1/ws/").


(** The check reads the carriage's host as [host_of] does, which stops at the
    port; a reader of URLs that knows userinfo, or that ends an authority at a
    query or a backslash, reads another host.  This crate's own parser refuses
    the first of these. *)
Lemma carriage_userinfo_passes :
  let doc := with_ws (hosted (bstr "tacenta.example")) (bstr "wss://tacenta.example:x@evil.example/v1/ws") in
  check_against_origin (bstr "https://tacenta.example/doc") doc = Ok tt /\
  parse (bstr "wss://tacenta.example:x@evil.example/v1/ws/relay") = Err UrlUserinfo.
Proof. by vm_compute. Qed.
