(* ===== verification/Http.v ===== *)
(** * Http: fetching a service document ([tacenta-transport/src/http.rs])

    One request, the head, and a body framed by its length, by chunks or by
    the close.  What the stream answers is a list of reads of any size, the
    close and a failure included; the list running out is a server that says
    nothing more, which the deadline ends.  [usize] has 64 bits. *)

From S2P Require Import Prelude Accounts Url.

Definition MAX_BODY : Z := 65536.
Definition MAX_HEAD : Z := 16384.
Definition CRLF : bytes := [x0d; x0a].
Definition HEAD_END : bytes := CRLF ++ CRLF.

(** The errors, by their texts. *)
Inductive HttpError :=
| HeadTooLarge | Incomplete | NonUtf8 | BadStatus | Unexpected (status_line : bytes) | BadContentLength
| BodyTooLarge | TruncatedBody | BadChunkSize | TruncatedChunk | ReadFailed.

(** ** The request *)
Definition fetch_request (target : Target) : bytes :=
  bstr "GET " ++ tg_path target ++ bstr " HTTP/1.1" ++ CRLF ++ bstr "Host: " ++ tg_authority target ++ CRLF ++
  bstr "Accept: application/json" ++ CRLF ++ bstr "User-Agent: tacenta-client" ++ CRLF ++ bstr "Connection: close" ++ HEAD_END.

(** ** The head *)
Inductive Framing := Length (n : Z) | Chunked | Close.

Fixpoint split_lines (fuel : nat) (bs : bytes) : list bytes :=
  match fuel, split_once CRLF bs with
  | S fuel, Some (l, r) => l :: split_lines fuel r
  | _, _ => [bs]
  end.

(** One header line. *)
Definition header_line (framing : Framing) (line : bytes) : result HttpError Framing :=
  match split_once (bstr ":") line with
  | None => Ok framing
  | Some (name, value) =>
      let name := to_ascii_lowercase (trim name) in
      let value := trim value in
      if bool_decide (name = bstr "transfer-encoding") && contains (bstr "chunked") (to_ascii_lowercase value) then Ok Chunked
      else if bool_decide (name = bstr "content-length") && match framing with Chunked => false | _ => true end
      then n ← ok_or BadContentLength (from_str_radix 10 u64_max value); Ok (Length n)
      else Ok framing
  end.

Fixpoint header_lines (framing : Framing) (lines : list bytes) : result HttpError Framing :=
  match lines with [] => Ok framing | l :: ls => f ← header_line framing l; header_lines f ls end.

Definition parse_head (head : bytes) : result HttpError Framing :=
  if negb (utf8_valid head) then Err NonUtf8 else
  match split_lines (length head) head with
  | [] => Err BadStatus
  | status_line :: lines =>
      status ← ok_or BadStatus (s ← split_on x20 status_line !! 1%nat; from_str_radix 10 u16_max s);
      if negb (status =? 200) then Err (Unexpected status_line) else header_lines Close lines
  end.

(** ** The chunk decoder *)
Record Dechunker := mkDechunker { dc_out : bytes; dc_consumed : nat; dc_done : bool }.

Definition dechunker_new : Dechunker := mkDechunker [] 0 false.

Definition chunk_size (line : bytes) : result HttpError Z :=
  if negb (utf8_valid line) then Err BadChunkSize else
  ok_or BadChunkSize (from_str_radix 16 u64_max (trim (first_field x3b line))).

(** One round of the loop: more bytes are needed, the decoder is at the next
    chunk, or the last one has arrived. *)
Inductive Round := NeedMore | NextChunk (d : Dechunker) | Finished (d : Dechunker).

Definition chunk_round (d : Dechunker) (raw : bytes) : result HttpError Round :=
  let body := drop (dc_consumed d) raw in
  match find_sub CRLF body with
  | None => Ok NeedMore
  | Some line_end =>
      size ← chunk_size (take line_end body);
      if (size >? MAX_BODY) || (len (dc_out d) + size >? MAX_BODY) then Err BodyTooLarge else
      let data := drop (line_end + 2) body in
      if size =? 0 then Ok (Finished (mkDechunker (dc_out d) (dc_consumed d + (line_end + 2)) true)) else
      if len data <? size + 2 then Ok NeedMore else
      Ok (NextChunk (mkDechunker (dc_out d ++ take (Z.to_nat size) data) (dc_consumed d + (line_end + 2 + Z.to_nat size + 2)) false))
  end.

(** The loop of [feed]; a round consumes at least two bytes. *)
Fixpoint feed_loop (fuel : nat) (d : Dechunker) (raw : bytes) : result HttpError (Dechunker * bool) :=
  match fuel with
  | O => Ok (d, false)
  | S fuel =>
      r ← chunk_round d raw;
      match r with NeedMore => Ok (d, false) | NextChunk d => feed_loop fuel d raw | Finished d => Ok (d, true) end
  end.

Definition feed (d : Dechunker) (raw : bytes) : result HttpError (Dechunker * bool) :=
  if dc_done d then Ok (d, true) else feed_loop (S (length raw)) d raw.

(** ** The exchange *)
(** What one read gives: bytes, the end of the stream (a TLS peer's close
    without notice is one), or a failure. *)
Inductive Read := RdData (bs : bytes) | RdEof | RdErr.

(** The head: [scanned] is where the last search stopped, less three. *)
Fixpoint read_head (raw : bytes) (scanned : nat) (reads : list Read) : option (result HttpError (bytes * nat * list Read)) :=
  match find_sub HEAD_END (drop scanned raw) with
  | Some i => Some (Ok (raw, (scanned + i)%nat, reads))
  | None =>
      if len raw >? MAX_HEAD then Some (Err HeadTooLarge) else
      match reads with
      | [] => None
      | RdData bs :: reads => read_head (raw ++ bs) (length raw - 3) reads
      | RdEof :: _ => Some (Err Incomplete)
      | RdErr :: _ => Some (Err ReadFailed)
      end
  end.

Fixpoint read_sized (n : Z) (body : bytes) (reads : list Read) : option (result HttpError bytes) :=
  if len body <? n then
    match reads with
    | [] => None
    | RdData bs :: reads => read_sized n (body ++ bs) reads
    | RdEof :: _ => Some (Err TruncatedBody)
    | RdErr :: _ => Some (Err ReadFailed)
    end
  else Some (Ok (take (Z.to_nat n) body)).

Fixpoint read_chunked (d : Dechunker) (body : bytes) (reads : list Read) : option (result HttpError bytes) :=
  match feed d body with
  | Err e => Some (Err e)
  | Ok (d, true) => Some (Ok (dc_out d))
  | Ok (d, false) =>
      if len body >? MAX_BODY + MAX_HEAD then Some (Err BodyTooLarge) else
      match reads with
      | [] => None
      | RdData bs :: reads => read_chunked d (body ++ bs) reads
      | RdEof :: _ => Some (Err TruncatedChunk)
      | RdErr :: _ => Some (Err ReadFailed)
      end
  end.

Fixpoint read_close (body : bytes) (reads : list Read) : option (result HttpError bytes) :=
  if len body >? MAX_BODY then Some (Err BodyTooLarge) else
  match reads with
  | [] => None
  | RdData bs :: reads => read_close (body ++ bs) reads
  | RdEof :: _ => Some (Ok body)
  | RdErr :: _ => Some (Err ReadFailed)
  end.

Definition exchange (reads : list Read) : option (result HttpError bytes) :=
  match read_head [] 0 reads with
  | None => None
  | Some (Err e) => Some (Err e)
  | Some (Ok (raw, head_end, reads)) =>
      match parse_head (take head_end raw) with
      | Err e => Some (Err e)
      | Ok framing =>
          let body := drop (head_end + 4) raw in
          match framing with
          | Length n => if n >? MAX_BODY then Some (Err BodyTooLarge) else read_sized n body reads
          | Chunked => read_chunked dechunker_new body reads
          | Close => read_close body reads
          end
      end
  end.

(** ** Searching what grows *)
Lemma find_sub_first needle l i :
  find_sub needle l = Some i <->
  starts_with needle (drop i l) = true /\ (i <= length l)%nat /\ forall j, (j < i)%nat -> starts_with needle (drop j l) = false.
Proof.
  revert i. induction l as [|b l IH]; intros i; cbn [find_sub].
  - destruct (starts_with needle []) eqn:E1.
    + split.
      * intros [= <-]. split; [done|]. split; [done|]. intros j. lia.
      * intros (_ & Hi & _). cbn in Hi. by replace i with 0%nat by lia.
    + split; [done|]. intros (H & _). by rewrite drop_nil, E1 in H.
  - destruct (starts_with needle (b :: l)) eqn:E1.
    + split.
      * intros [= <-]. split; [done|]. split; [lia|]. intros j. lia.
      * intros (_ & _ & H). destruct i as [|i]; [done|]. specialize (H 0%nat). cbn [drop] in H. rewrite E1 in H. discriminate H. lia.
    + destruct i as [|i].
      * split; [by destruct (find_sub needle l)|]. intros (H & _). cbn [drop] in H. by rewrite E1 in H.
      * transitivity (find_sub needle l = Some i).
        { destruct (find_sub needle l); cbn; split; congruence. }
        rewrite IH. cbn [drop length]. split; intros (H1 & H2 & H3); (split; [done|]); (split; [lia|]).
        { intros [|j] Hj; [done|]. apply H3. lia. }
        { intros j Hj. apply (H3 (S j)). lia. }
Qed.

Lemma find_sub_None needle l :
  find_sub needle l = None <-> forall j, (j <= length l)%nat -> starts_with needle (drop j l) = false.
Proof.
  split.
  - revert needle. induction l as [|b l IH]; intros needle H j Hj; cbn [find_sub] in H; destruct (starts_with needle _) eqn:E1 in H; try done.
    + by rewrite drop_nil.
    + destruct j as [|j]; [done|]. cbn. destruct (find_sub needle l) eqn:E2; [done|]. apply IH; [done|]. cbn in Hj. lia.
  - intros H. destruct (find_sub needle l) as [i|] eqn:E1; [|done]. apply find_sub_first in E1 as (H1 & H2 & _).
    by rewrite H in H1.
Qed.

Lemma starts_with_app_r needle a x : starts_with needle a = true -> starts_with needle (a ++ x) = true.
Proof. intros [r ->]%starts_with_true. rewrite <- app_assoc. apply starts_with_app. Qed.

Lemma starts_with_length needle a : starts_with needle a = true -> (length needle <= length a)%nat.
Proof. intros [r ->]%starts_with_true. rewrite length_app. lia. Qed.

(** A pattern that fits is not found later than it was. *)
Lemma starts_with_fits needle a x :
  (length needle <= length a)%nat -> starts_with needle (a ++ x) = starts_with needle a.
Proof.
  revert a. induction needle as [|n needle IH]; intros a H; [done|]. destruct a as [|b a]; cbn in *; [lia|].
  by rewrite IH by lia.
Qed.

Lemma find_sub_grows needle l x i : find_sub needle l = Some i -> find_sub needle (l ++ x) = Some i.
Proof.
  intros (H1 & H2 & H3)%find_sub_first. apply find_sub_first. pose proof (starts_with_length _ _ H1) as Hl. rewrite length_drop in Hl.
  rewrite length_app. split; [rewrite drop_app_le by done; by apply starts_with_app_r|]. split; [lia|].
  intros j Hj. rewrite drop_app_le by lia. rewrite starts_with_fits; [by apply H3|]. rewrite length_drop. lia.
Qed.

(** Nothing found before [s]: the search may begin there. *)
Lemma find_sub_skip needle l s :
  (s <= length l)%nat -> (forall j, (j < s)%nat -> starts_with needle (drop j l) = false) ->
  find_sub needle l = Nat.add s <$> find_sub needle (drop s l).
Proof.
  intros Hs H. destruct (find_sub needle (drop s l)) as [i|] eqn:E1; cbn.
  - apply find_sub_first in E1 as (H1 & H2 & H3). rewrite length_drop in H2. apply find_sub_first.
    rewrite drop_drop in H1. split; [done|]. split; [lia|]. intros j Hj. destruct (decide (j < s)%nat) as [Hl|Hl]; [by apply H|].
    specialize (H3 (j - s)%nat). rewrite drop_drop in H3. replace (s + (j - s))%nat with j in H3 by lia. apply H3. lia.
  - apply find_sub_None. intros j Hj. destruct (decide (j < s)%nat) as [Hl|Hl]; [by apply H|].
    apply find_sub_None with (j := (j - s)%nat) in E1; [|rewrite length_drop; lia]. rewrite drop_drop in E1.
    by replace (s + (j - s))%nat with j in E1 by lia.
Qed.

(** Where the search of a longer text may begin once the shorter one held
    nothing. *)
Lemma find_sub_resume needle l x :
  (0 < length needle)%nat -> find_sub needle l = None ->
  find_sub needle (l ++ x) = Nat.add (length l - (length needle - 1)) <$> find_sub needle (drop (length l - (length needle - 1)) (l ++ x)).
Proof.
  intros Hn H. apply find_sub_skip; [rewrite length_app; lia|]. intros j Hj. rewrite drop_app_le by lia.
  rewrite starts_with_fits by (rewrite length_drop; lia). apply find_sub_None; [done|lia].
Qed.

(** ** What a response says, however it arrives *)
(** A chunked body: the decoded text of the chunks up to the empty one,
    whatever follows it. *)
Inductive chunks : bytes -> bytes -> Prop :=
| chunks_last line rest :
    find_sub CRLF (line ++ CRLF ++ rest) = Some (length line) -> chunk_size line = Ok 0 -> chunks (line ++ CRLF ++ rest) []
| chunks_more line data x y rest out :
    find_sub CRLF (line ++ CRLF ++ data ++ [x; y] ++ rest) = Some (length line) -> chunk_size line = Ok (len data) -> data <> [] ->
    chunks rest out -> chunks (line ++ CRLF ++ data ++ [x; y] ++ rest) (data ++ out).

Definition body_of (framing : Framing) (body b : bytes) : Prop :=
  match framing with
  | Length n => n <= len body /\ b = take (Z.to_nat n) body
  | Chunked => chunks body b
  | Close => b = body
  end.

Record response (bs : bytes) (head_end : nat) (framing : Framing) (b : bytes) : Prop := {
  rp_head : find_sub HEAD_END bs = Some head_end;
  rp_framing : parse_head (take head_end bs) = Ok framing;
  rp_body : body_of framing (drop (head_end + 4) bs) b;
  rp_bound : match framing with Length n => n <= MAX_BODY | _ => len b <= MAX_BODY end
}.

(** The data of the reads up to the end or the failure. *)
Fixpoint received (reads : list Read) : bytes :=
  match reads with RdData bs :: reads => bs ++ received reads | _ => [] end.

(** *** The decoder *)
Inductive decodes (raw : bytes) : Dechunker -> result HttpError (Dechunker * bool) -> Prop :=
| decodes_more d : chunk_round d raw = Ok NeedMore -> decodes raw d (Ok (d, false))
| decodes_end d d' : chunk_round d raw = Ok (Finished d') -> decodes raw d (Ok (d', true))
| decodes_next d d' r : chunk_round d raw = Ok (NextChunk d') -> decodes raw d' r -> decodes raw d r
| decodes_err d e : chunk_round d raw = Err e -> decodes raw d (Err e).

Lemma decodes_unique raw d r r' : decodes raw d r -> decodes raw d r' -> r = r'.
Proof.
  intros H. revert r'. induction H; intros r' H'; inversion H'; subst; try congruence.
  apply IHdecodes. congruence.
Qed.

Lemma chunk_size_nonneg line n : chunk_size line = Ok n -> 0 <= n.
Proof.
  unfold chunk_size. destruct (negb _); [done|]. destruct (from_str_radix _ _ _) as [v|] eqn:Ev; cbn; [|done]. intros [= <-].
  apply from_str_radix_range in Ev; unfold u64_max; lia.
Qed.

(** What a round that goes on or ends has seen. *)
Lemma round_progress d raw r :
  (dc_consumed d <= length raw)%nat -> chunk_round d raw = Ok r ->
  match r with
  | NeedMore => True
  | NextChunk d' => (dc_consumed d < dc_consumed d' <= length raw)%nat /\ dc_done d' = false
  | Finished d' => (dc_consumed d < dc_consumed d' <= length raw)%nat
  end.
Proof.
  intros Hd. unfold chunk_round. destruct (find_sub CRLF _) as [i|] eqn:Ef; [|by intros [= <-]].
  apply find_sub_first in Ef as (H1 & H2 & _). apply starts_with_length in H1. rewrite !length_drop in H1. cbn in H1.
  rewrite length_drop in H2. destruct (chunk_size _) as [size|] eqn:Ez; cbn; [|done]. apply chunk_size_nonneg in Ez.
  destruct (_ || _); [done|]. destruct (size =? 0); [intros [= <-]; cbn; lia|]. destruct (_ <? _) eqn:El; intros [= <-]; [done|]. cbn. split; [|done].
  bool_prop. unfold len in El. rewrite !length_drop in El. lia.
Qed.

Lemma round_grows d raw x r :
  (dc_consumed d <= length raw)%nat -> chunk_round d raw = r -> r <> Ok NeedMore -> chunk_round d (raw ++ x) = r.
Proof.
  intros Hd. unfold chunk_round. rewrite drop_app_le by done. destruct (find_sub CRLF (drop (dc_consumed d) raw)) as [i|] eqn:Ef; [|by intros <-].
  rewrite (find_sub_grows _ _ _ _ Ef). apply find_sub_first in Ef as (H1 & H2 & _). apply starts_with_length in H1.
  rewrite length_drop in H1. cbn [length CRLF] in H1. rewrite take_app_le by done.
  destruct (chunk_size _) as [size|]; cbn; [|done]. destruct (_ || _); [done|]. destruct (size =? 0); [done|].
  rewrite drop_app_le by lia. destruct (_ <? size + 2) eqn:El; [by intros <-|]. bool_prop. intros <- _.
  rewrite len_app. replace (_ <? _) with false by (symmetry; apply Z.ltb_ge; pose proof (len_nonneg x); lia).
  rewrite take_app_le; [done|]. unfold len in El. lia.
Qed.

Lemma feed_loop_decodes fuel : forall d raw,
  (length raw - dc_consumed d < fuel)%nat -> (dc_consumed d <= length raw)%nat -> decodes raw d (feed_loop fuel d raw).
Proof.
  induction fuel as [|fuel IH]; intros d raw Hf Hd; [lia|]. cbn [feed_loop].
  destruct (chunk_round d raw) as [[|d'|d']|e] eqn:Er; cbn; try by econstructor.
  pose proof (round_progress _ _ _ Hd Er) as [Hp _]. eapply decodes_next; [done|]. apply IH; lia.
Qed.

Lemma feed_decodes d raw : dc_done d = false -> (dc_consumed d <= length raw)%nat -> decodes raw d (feed d raw).
Proof. intros Hn Hd. unfold feed. rewrite Hn. apply feed_loop_decodes; [lia|done]. Qed.

(** More bytes change nothing once it ended or failed, and go on from where
    it stopped otherwise. *)
Lemma decodes_grows raw d r x :
  (dc_consumed d <= length raw)%nat -> dc_done d = false -> decodes raw d r ->
  match r with
  | Ok (d', false) => (dc_consumed d' <= length raw)%nat /\ dc_done d' = false /\
      forall r', decodes (raw ++ x) d' r' -> decodes (raw ++ x) d r'
  | _ => decodes (raw ++ x) d r
  end.
Proof.
  intros Hd Hn H. induction H as [d Hr|d d' Hr|d d' r Hr Hdec IH|d e Hr].
  - done.
  - apply decodes_end. by apply round_grows.
  - destruct (round_progress _ _ _ Hd Hr) as [Hp Hn']. specialize (IH ltac:(lia) Hn').
    assert (chunk_round d (raw ++ x) = Ok (NextChunk d')) as Hg by (by apply round_grows).
    destruct r as [[d2 []]|e]; [by eapply decodes_next| |by eapply decodes_next].
    destruct IH as (H1 & H2 & H3). split; [done|]. split; [done|]. intros r' Hr'. eapply decodes_next; [done|]. by apply H3.
  - apply decodes_err. by apply round_grows.
Qed.

(** Rounds and the grammar of chunks. *)
Lemma round_finished d raw d' :
  chunk_round d raw = Ok (Finished d') -> chunks (drop (dc_consumed d) raw) [] /\ dc_out d' = dc_out d.
Proof.
  unfold chunk_round. set (body := drop (dc_consumed d) raw). destruct (find_sub CRLF body) as [i|] eqn:Ef; [|done].
  destruct (chunk_size _) as [size|] eqn:Ez; cbn; [|done]. destruct (_ || _); [done|].
  destruct (size =? 0) eqn:E0; [|by destruct (_ <? _)]. intros [= <-]. bool_prop. subst size. split; [|done].
  pose proof (find_sub_Some _ _ _ Ef) as Hb. apply find_sub_first in Ef as Hf. destruct Hf as (_ & Hl & _).
  rewrite Hb. apply chunks_last; [|done]. rewrite <- Hb, Ef. f_equal. rewrite length_take. lia.
Qed.

Lemma round_next d raw d' :
  (dc_consumed d <= length raw)%nat -> chunk_round d raw = Ok (NextChunk d') ->
  exists data, dc_out d' = dc_out d ++ data /\ len (dc_out d') <= MAX_BODY /\
  forall out, chunks (drop (dc_consumed d') raw) out -> chunks (drop (dc_consumed d) raw) (data ++ out).
Proof.
  intros Hd. unfold chunk_round. set (body := drop (dc_consumed d) raw). destruct (find_sub CRLF body) as [i|] eqn:Ef; [|done].
  destruct (chunk_size _) as [size|] eqn:Ez; cbn; [|done]. pose proof (chunk_size_nonneg _ _ Ez) as Hnn.
  destruct (_ || _) eqn:Eb; [done|]. destruct (size =? 0) eqn:E0; [done|]. destruct (_ <? _) eqn:El; [done|]. bool_prop.
  intros [= <-]. cbn. set (data := drop (i + 2) body) in *. exists (take (Z.to_nat size) data). split; [done|].
  assert (len (take (Z.to_nat size) data) = size) as Hlen by (rewrite len_take; unfold len in *; lia).
  split; [rewrite len_app; lia|]. intros out Hc. pose proof (find_sub_Some _ _ _ Ef) as Hb.
  assert (exists x y rest, drop (Z.to_nat size) data = [x; y] ++ rest) as (x & y & rest & Hr).
  { unfold len in El. assert (2 <= length (drop (Z.to_nat size) data))%nat as H2 by (rewrite length_drop; lia).
    destruct (drop (Z.to_nat size) data) as [|x [|y rest]]; cbn in H2; [lia|lia|]. by exists x, y, rest. }
  assert (body = take i body ++ CRLF ++ take (Z.to_nat size) data ++ [x; y] ++ rest) as Hbody.
  { rewrite <- Hr, take_drop. exact Hb. }
  assert (rest = drop (dc_consumed d + (i + 2 + Z.to_nat size + 2)) raw) as Hrest.
  { rewrite <- drop_drop. fold body. replace (i + 2 + Z.to_nat size + 2)%nat with (i + 2 + (Z.to_nat size + 2))%nat by lia.
    rewrite <- drop_drop. fold data. by rewrite <- drop_drop, Hr. }
  rewrite Hbody. apply chunks_more.
  - rewrite <- Hbody, Ef. apply find_sub_first in Ef as (_ & Hl & _). rewrite length_take. f_equal. lia.
  - by rewrite Hlen.
  - intros Hn. rewrite Hn, len_nil in Hlen. lia.
  - by rewrite Hrest.
Qed.

Lemma decodes_chunks raw d r :
  decodes raw d r -> (dc_consumed d <= length raw)%nat -> len (dc_out d) <= MAX_BODY ->
  forall d', r = Ok (d', true) ->
  exists out, chunks (drop (dc_consumed d) raw) out /\ dc_out d' = dc_out d ++ out /\ len (dc_out d') <= MAX_BODY.
Proof.
  induction 1 as [d Hr|d d1 Hr|d d1 r Hr Hdec IH|d e Hr]; intros Hd Hm d' Hres; try done.
  - injection Hres as <-. destruct (round_finished _ _ _ Hr) as [Hc Ho]. exists []. rewrite app_nil_r, Ho. auto.
  - destruct (round_next _ _ _ Hd Hr) as (data & Ho & Hb & Hc). destruct (round_progress _ _ _ Hd Hr) as [Hp _].
    destruct (IH ltac:(lia) Hb d' Hres) as (out & H1 & H2 & H3). exists (data ++ out). split; [by apply Hc|].
    split; [|done]. by rewrite H2, Ho, app_assoc.
Qed.

Lemma chunks_decodes body out :
  chunks body out -> forall d raw, drop (dc_consumed d) raw = body -> (dc_consumed d <= length raw)%nat -> len (dc_out d ++ out) <= MAX_BODY ->
  exists d', decodes raw d (Ok (d', true)) /\ dc_out d' = dc_out d ++ out.
Proof.
  induction 1 as [line rest Hf Hz|line data x y rest out Hf Hz Hne Hc IH]; intros d raw Hd Hl Hm.
  - eexists. split.
    + apply decodes_end. unfold chunk_round. rewrite Hd, Hf, take_app_length, Hz. cbn. rewrite app_nil_r in Hm.
      replace (_ >? MAX_BODY) with false by (symmetry; rewrite Z.gtb_ltb; apply Z.ltb_ge; lia). reflexivity.
    + by rewrite app_nil_r.
  - rewrite !len_app in Hm. pose proof (len_nonneg (dc_out d)) as H0. pose proof (len_nonneg data) as H1. pose proof (len_nonneg out) as H2.
    set (d1 := mkDechunker (dc_out d ++ data) (dc_consumed d + (length line + 2 + Z.to_nat (len data) + 2)) false).
    assert (chunk_round d raw = Ok (NextChunk d1)) as Hr.
    { unfold chunk_round. rewrite Hd, Hf, take_app_length, Hz. cbn [mbind result_bind].
      replace ((len data >? MAX_BODY) || _) with false
        by (symmetry; apply orb_false_intro; rewrite Z.gtb_ltb; apply Z.ltb_ge; lia).
      replace (len data =? 0) with false by (symmetry; apply Z.eqb_neq; intros Hn; apply Hne; by apply len_zero_nil).
      replace (drop (length line + 2) (line ++ CRLF ++ data ++ [x; y] ++ rest)) with (data ++ [x; y] ++ rest)
        by (by rewrite <- drop_drop, drop_app_length).
      rewrite !len_app. change (len [x; y]) with 2. replace (_ <? _) with false by (symmetry; apply Z.ltb_ge; pose proof (len_nonneg rest); lia).
      unfold d1. do 4 f_equal. replace (Z.to_nat (len data)) with (length data) by (unfold len; lia). apply take_app_length. }
    assert (drop (dc_consumed d1) raw = rest) as Hd1.
    { unfold d1. cbn [dc_consumed]. rewrite <- drop_drop, Hd. replace (Z.to_nat (len data)) with (length data) by (unfold len; lia).
      replace (length line + 2 + length data + 2)%nat with (length line + (2 + (length data + 2)))%nat by lia.
      rewrite <- drop_drop, drop_app_length, <- drop_drop. change (drop 2 (CRLF ++ ?l)) with l. by rewrite <- drop_drop, drop_app_length. }
    destruct (round_progress _ _ _ Hl Hr) as [Hp _].
    destruct (IH d1 raw Hd1 ltac:(lia)) as (d' & H3 & H4); [unfold d1; cbn; rewrite !len_app; lia|].
    exists d'. split; [by eapply decodes_next|]. rewrite H4. unfold d1. cbn. by rewrite app_assoc.
Qed.

(** *** The reads *)
Definition data (pieces : list bytes) : list Read := RdData <$> pieces.

Lemma received_data pieces tail : received (data pieces ++ tail) = mjoin pieces ++ received tail.
Proof.
  induction pieces as [|p ps IH]; [done|].
  change (p ++ received (data ps ++ tail) = (p ++ mjoin ps) ++ received tail). by rewrite IH, app_assoc.
Qed.

(** [read_head] searches the whole of what it holds. *)
Definition searched (raw : bytes) (scanned : nat) : Prop :=
  find_sub HEAD_END raw = Nat.add scanned <$> find_sub HEAD_END (drop scanned raw).

Lemma searched_next raw bs scanned :
  searched raw scanned -> find_sub HEAD_END (drop scanned raw) = None -> searched (raw ++ bs) (length raw - 3).
Proof.
  unfold searched. intros H Hn. rewrite Hn in H. cbn in H. pose proof (find_sub_resume HEAD_END raw bs) as Hr. cbn [length HEAD_END CRLF app] in Hr.
  apply Hr; [lia|done].
Qed.

Lemma read_head_sound reads : forall raw scanned raw' i reads',
  searched raw scanned -> read_head raw scanned reads = Some (Ok (raw', i, reads')) ->
  find_sub HEAD_END raw' = Some i /\ raw' ++ received reads' = raw ++ received reads.
Proof.
  induction reads as [|r reads IH]; intros raw scanned raw' i reads' Hs; cbn [read_head];
    destruct (find_sub HEAD_END (drop scanned raw)) as [k|] eqn:Ef.
  - intros [= <- <- <-]. split; [by rewrite Hs, Ef|done].
  - by destruct (_ >? _).
  - intros [= <- <- <-]. split; [by rewrite Hs, Ef|done].
  - destruct (_ >? _); [done|]. destruct r as [bs| |]; try done. intros H.
    apply IH in H as [H1 H2]; [|by eapply searched_next]. split; [done|]. by rewrite H2, <- app_assoc.
Qed.

Lemma read_head_complete pieces tail : forall raw scanned i,
  searched raw scanned -> find_sub HEAD_END (raw ++ mjoin pieces) = Some i -> Z.of_nat i + 3 <= MAX_HEAD ->
  exists k, read_head raw scanned (data pieces ++ tail) = Some (Ok (raw ++ mjoin (take k pieces), i, data (drop k pieces) ++ tail)) /\
    (i + 4 <= length (raw ++ mjoin (take k pieces)))%nat.
Proof.
  assert (forall raw tl i k, searched raw tl -> find_sub HEAD_END (drop tl raw) = Some k -> find_sub HEAD_END (raw ++ mjoin i) = Some (tl + k)%nat) as Hfound.
  { intros raw s l k Hs Hk. apply find_sub_grows. by rewrite Hs, Hk. }
  assert (forall raw s k, searched raw s -> find_sub HEAD_END (drop s raw) = Some k -> (s + k + 4 <= length raw)%nat) as Hlen.
  { intros raw s k Hs Hk. assert (find_sub HEAD_END raw = Some (s + k)%nat) as Hf by (by rewrite Hs, Hk).
    apply find_sub_first in Hf as (H1 & H2 & _). apply starts_with_length in H1. rewrite length_drop in H1. cbn in H1. lia. }
  induction pieces as [|p ps IH]; intros raw scanned i Hs Hi Hm.
  - change (data [] ++ tail) with tail. cbn [mjoin list_join] in Hi. rewrite app_nil_r in Hi. exists 0%nat.
    cbn [take drop mjoin list_join]. rewrite app_nil_r. change (data [] ++ tail) with tail.
    destruct (find_sub HEAD_END (drop scanned raw)) as [k|] eqn:Ef; [|unfold searched in Hs; rewrite Hi, Ef in Hs; done].
    assert (i = (scanned + k)%nat) as -> by (unfold searched in Hs; rewrite Hi, Ef in Hs; by injection Hs).
    pose proof (Hlen _ _ _ Hs Ef). destruct tail as [|[]]; cbn [read_head]; rewrite Ef; (split; [done|lia]).
  - change (data (p :: ps) ++ tail) with (RdData p :: data ps ++ tail). cbn [read_head].
    destruct (find_sub HEAD_END (drop scanned raw)) as [k|] eqn:Ef.
    + exists 0%nat. rewrite (Hfound _ _ _ _ Hs Ef) in Hi. injection Hi as <-.
      cbn [take drop mjoin list_join]. rewrite app_nil_r. split; [done|]. by apply Hlen.
    + pose proof (searched_next raw p scanned Hs Ef) as Hs'. cbn [mjoin list_join] in Hi. rewrite app_assoc in Hi.
      assert (len raw <= MAX_HEAD) as Hl.
      { unfold searched in Hs. rewrite Ef in Hs. cbn in Hs. rewrite <- app_assoc in Hi. apply find_sub_first in Hi as (H1 & H2 & _).
        destruct (decide (i + 4 <= length raw)%nat) as [Hc|Hc]; [|unfold len; lia].
        exfalso. assert (starts_with HEAD_END (drop i raw) = false) as Hz by (apply (proj1 (find_sub_None _ _) Hs); lia).
        rewrite drop_app_le in H1 by lia. rewrite starts_with_fits, Hz in H1; [done|]. rewrite length_drop. cbn. lia. }
      replace (_ >? MAX_HEAD) with false by (symmetry; rewrite Z.gtb_ltb; apply Z.ltb_ge; lia).
      destruct (IH _ _ _ Hs' Hi Hm) as (k & H1 & H2). exists (S k). cbn [take drop mjoin list_join]. rewrite app_assoc. auto.
Qed.

Lemma read_sized_sound n reads : forall body b,
  read_sized n body reads = Some (Ok b) -> n <= len (body ++ received reads) /\ b = take (Z.to_nat n) (body ++ received reads).
Proof.
  induction reads as [|r reads IH]; intros body b; cbn [read_sized]; destruct (len body <? n) eqn:El; try done; bool_prop.
  - intros [= <-]. rewrite app_nil_r. auto.
  - destruct r as [bs| |]; try done. intros H. apply IH in H as [H1 H2]. cbn. by rewrite app_assoc.
  - intros [= <-]. rewrite len_app. pose proof (len_nonneg (received (r :: reads))). split; [lia|].
    rewrite take_app_le; [done|]. unfold len in El. lia.
Qed.

Lemma read_sized_complete n pieces tail : forall body,
  n <= len (body ++ mjoin pieces) -> read_sized n body (data pieces ++ tail) = Some (Ok (take (Z.to_nat n) (body ++ mjoin pieces))).
Proof.
  induction pieces as [|p ps IH]; intros body Hn.
  - cbn in *. rewrite app_nil_r in *. replace (len body <? n) with false by (symmetry; apply Z.ltb_ge; lia).
    destruct tail; cbn; by replace (len body <? n) with false by (symmetry; apply Z.ltb_ge; lia).
  - change (data (p :: ps) ++ tail) with (RdData p :: data ps ++ tail). cbn [read_sized mjoin list_join] in *. rewrite app_assoc in *.
    destruct (len body <? n) eqn:El; [by apply IH|]. bool_prop. f_equal. f_equal. rewrite <- app_assoc, take_app_le; [done|]. unfold len in El. lia.
Qed.

Lemma read_close_sound reads : forall body b,
  read_close body reads = Some (Ok b) -> b = body ++ received reads /\ len b <= MAX_BODY.
Proof.
  induction reads as [|r reads IH]; intros body b; cbn [read_close]; destruct (_ >? _) eqn:El; try done; bool_prop.
  destruct r as [bs| |]; try done.
  - intros H. apply IH in H as [H1 H2]. cbn. by rewrite app_assoc.
  - intros [= <-]. cbn. by rewrite app_nil_r.
Qed.

Lemma read_close_complete pieces tail : forall body,
  len (body ++ mjoin pieces) <= MAX_BODY -> read_close body (data pieces ++ RdEof :: tail) = Some (Ok (body ++ mjoin pieces)).
Proof.
  induction pieces as [|p ps IH]; intros body Hn; cbn [mjoin list_join] in *.
  - rewrite app_nil_r in *. cbn. by replace (_ >? _) with false by (symmetry; rewrite Z.gtb_ltb; apply Z.ltb_ge; lia).
  - change (data (p :: ps) ++ RdEof :: tail) with (RdData p :: data ps ++ RdEof :: tail). cbn [read_close]. rewrite app_assoc in *.
    replace (len body >? _) with false; [by apply IH|]. symmetry. rewrite Z.gtb_ltb. apply Z.ltb_ge. rewrite !len_app in Hn.
    unfold len in *. lia.
Qed.

(** The decoder stands where a decoder of all that came would stand. *)
Record following (d : Dechunker) (body : bytes) : Prop := {
  fo_here : (dc_consumed d <= length body)%nat;
  fo_done : dc_done d = false;
  fo_all x r : decodes (body ++ x) d r -> decodes (body ++ x) dechunker_new r
}.

Lemma following_new body : following dechunker_new body.
Proof. split; cbn; [lia|done|auto]. Qed.

Lemma following_fed d body d' x : following d body -> decodes body d (Ok (d', false)) -> following d' (body ++ x).
Proof.
  intros [H1 H2 H3] H. split.
  - destruct (decodes_grows _ _ _ x H1 H2 H) as (? & _ & _). rewrite length_app. lia.
  - by destruct (decodes_grows _ _ _ x H1 H2 H) as (_ & ? & _).
  - intros y r Hr. rewrite <- app_assoc in *. apply H3. by apply (decodes_grows _ _ _ (x ++ y) H1 H2 H).
Qed.

Lemma following_decodes d body : following d body -> decodes body d (feed d body) /\ decodes body dechunker_new (feed d body).
Proof.
  intros [H1 H2 H3]. pose proof (feed_decodes d body H2 H1) as H. split; [done|]. specialize (H3 [] (feed d body)). rewrite app_nil_r in H3. auto.
Qed.

Lemma read_chunked_sound reads : forall d body b,
  following d body -> read_chunked d body reads = Some (Ok b) ->
  exists d', decodes (body ++ received reads) dechunker_new (Ok (d', true)) /\ dc_out d' = b.
Proof.
  assert (forall d body d' x, following d body -> feed d body = Ok (d', true) -> decodes (body ++ x) dechunker_new (Ok (d', true))) as Hend.
  { intros d body d' x Hf Hd. destruct (following_decodes _ _ Hf) as [_ H]. rewrite Hd in H.
    apply (decodes_grows body dechunker_new _ x) in H; [done|cbn; lia|done]. }
  induction reads as [|r reads IH]; intros d body b Hf; cbn [read_chunked]; destruct (feed d body) as [[d' []]|] eqn:Ed; try done.
  - intros [= <-]. eauto.
  - by destruct (_ >? _).
  - intros [= <-]. eauto.
  - destruct (_ >? _); [done|]. destruct r as [bs| |]; try done. intros H.
    apply IH in H as (d2 & H1 & H2); [exists d2; split; [|done]; cbn; by rewrite app_assoc|].
    eapply following_fed; [done|]. rewrite <- Ed. by apply following_decodes.
Qed.

Lemma read_chunked_complete pre df extra pieces tail : forall d body,
  following d body -> decodes pre dechunker_new (Ok (df, true)) -> len pre <= MAX_BODY + MAX_HEAD ->
  body ++ mjoin pieces = pre ++ extra -> read_chunked d body (data pieces ++ tail) = Some (Ok (dc_out df)).
Proof.
  assert (forall d body rest, following d body -> decodes pre dechunker_new (Ok (df, true)) -> body ++ rest = pre ++ extra ->
    feed d body = Ok (df, true) \/ (exists d', feed d body = Ok (d', false) /\ len body < len pre)) as Hfeed.
  { intros d body rest Hf Hp He. destruct (following_decodes _ _ Hf) as [_ Hd].
    destruct (decide (length pre <= length body)%nat) as [Hl|Hl].
    - left. assert (body = pre ++ drop (length pre) body) as Hb.
      { apply (f_equal (take (length pre))) in He. rewrite take_app_le, take_app_length in He by done. by rewrite <- He at 1; rewrite take_drop. }
      apply (decodes_grows pre dechunker_new _ (drop (length pre) body)) in Hp; [|cbn; lia|done]. rewrite <- Hb in Hp.
      by rewrite (decodes_unique _ _ _ _ Hp Hd).
    - assert (pre = body ++ drop (length body) pre) as Hb.
      { apply (f_equal (take (length body))) in He. rewrite take_app_length, take_app_le in He by lia. by rewrite He at 1; rewrite take_drop. }
      pose proof (decodes_grows body dechunker_new _ (drop (length body) pre) ltac:(cbn; lia) eq_refl Hd) as Hg.
      destruct (feed d body) as [[d' []]|e]; [| |].
      + rewrite <- Hb in Hg. pose proof (decodes_unique _ _ _ _ Hp Hg) as Hu. left. congruence.
      + right. exists d'. split; [done|]. unfold len. lia.
      + rewrite <- Hb in Hg. by pose proof (decodes_unique _ _ _ _ Hp Hg). }
  induction pieces as [|p ps IH]; intros d body Hf Hp Hm He.
  - change (data [] ++ tail) with tail. destruct (Hfeed d body _ Hf Hp He) as [Hd|(d' & _ & Hl)].
    + destruct tail; cbn [read_chunked]; by rewrite Hd.
    + exfalso. cbn in He. rewrite app_nil_r in He. rewrite He, len_app in Hl. pose proof (len_nonneg extra). lia.
  - change (data (p :: ps) ++ tail) with (RdData p :: data ps ++ tail). cbn [read_chunked].
    destruct (Hfeed d body _ Hf Hp He) as [-> |(d' & Hd & Hl)]; [done|]. rewrite Hd.
    replace (_ >? _) with false by (symmetry; rewrite Z.gtb_ltb; apply Z.ltb_ge; lia).
    apply IH; [|done|done|by rewrite <- He, <- app_assoc]. eapply following_fed; [done|]. rewrite <- Hd. by apply following_decodes.
Qed.

(** What comes after a complete body is not looked at, the close apart. *)
Lemma body_of_more framing body extra b : framing <> Close -> body_of framing body b -> body_of framing (body ++ extra) b.
Proof.
  destruct framing as [n| |]; intros Hc; cbn; [|clear Hc|done].
  - intros [H ->]. rewrite len_app. pose proof (len_nonneg extra). split; [lia|]. symmetry. destruct (decide (n < 0)) as [Hn|Hn].
    + by replace (Z.to_nat n) with 0%nat by lia.
    + apply take_app_le. unfold len in H. lia.
  - induction 1 as [line rest Hf Hz|line data x y rest out Hf Hz Hne Hc IH]; rewrite <- !app_assoc.
    + apply chunks_last; [|done]. rewrite !app_assoc. apply find_sub_grows. by rewrite <- app_assoc.
    + apply chunks_more; try done. pose proof (find_sub_grows _ _ extra _ Hf) as Hg. by rewrite <- !app_assoc in Hg.
Qed.

Lemma exchange_sound reads b :
  exchange reads = Some (Ok b) -> len b <= MAX_BODY /\ exists i framing, response (received reads) i framing b.
Proof.
  unfold exchange. destruct (read_head [] 0 reads) as [[[[raw i] reads']|]|] eqn:Eh; try done.
  apply read_head_sound in Eh as [Hf He]; [|done]. cbn in He.
  destruct (parse_head (take i raw)) as [framing|] eqn:Ep; [|done].
  pose proof (find_sub_first HEAD_END raw i) as [Hff _]. destruct (Hff Hf) as (Hs & Hl & _). apply starts_with_length in Hs.
  rewrite length_drop in Hs. cbn in Hs. intros Hb.
  assert (drop (i + 4) (received reads) = drop (i + 4) raw ++ received reads') as Hd by (by rewrite <- He, drop_app_le by lia).
  assert (forall P : Prop, P -> body_of framing (drop (i + 4) (received reads)) b ->
    match framing with Length n => n <= MAX_BODY | _ => len b <= MAX_BODY end -> P /\ exists i framing, response (received reads) i framing b) as Hdone.
  { intros P HP Hbody Hbound. split; [done|]. exists i, framing. split; [rewrite <- He; by apply find_sub_grows| |done|done].
    by rewrite <- He, take_app_le by lia. }
  destruct framing as [n| |].
  - destruct (_ >? _) eqn:En; [done|]. bool_prop. apply read_sized_sound in Hb as [H1 H2]. rewrite <- Hd in *. apply Hdone; [|by split|done].
    rewrite H2. pose proof (length_take (drop (i + 4) (received reads)) (Z.to_nat n)). unfold len. unfold MAX_BODY in *. lia.
  - apply read_chunked_sound in Hb as (d & H1 & H2); [|apply following_new]. rewrite <- Hd in *.
    destruct (decodes_chunks _ _ _ H1 ltac:(cbn; lia) ltac:(done) d eq_refl) as (out & H3 & H4 & H5). cbn in H3, H4. rewrite drop_0 in H3.
    rewrite <- H2, H4 in *. by apply Hdone.
  - apply read_close_sound in Hb as [H1 H2]. rewrite <- Hd in H1. by apply Hdone.
Qed.

Lemma exchange_complete pieces tail pre extra i framing b :
  mjoin pieces = pre ++ extra -> response pre i framing b ->
  Z.of_nat i + 3 <= MAX_HEAD -> len pre - (Z.of_nat i + 4) <= MAX_BODY + MAX_HEAD ->
  (framing = Close -> extra = [] /\ exists more, tail = RdEof :: more) ->
  exchange (data pieces ++ tail) = Some (Ok b).
Proof.
  intros He [Hf Hp Hbody Hbound] Hi Hpre Hclose.
  pose proof (find_sub_first HEAD_END pre i) as [Hff _]. destruct (Hff Hf) as (Hs & Hl & _). apply starts_with_length in Hs.
  rewrite length_drop in Hs. cbn [length HEAD_END CRLF app] in Hs.
  destruct (read_head_complete pieces tail [] 0 i) as (k & Hk & Hlen); [done| |done|].
  { cbn [app]. rewrite He. by apply find_sub_grows. }
  unfold exchange. rewrite Hk. cbn [app] in *. set (raw := mjoin (take k pieces)) in *.
  assert (raw ++ mjoin (drop k pieces) = pre ++ extra) as Hraw by (unfold raw; by rewrite <- join_app, take_drop).
  assert (drop (i + 4) raw ++ mjoin (drop k pieces) = drop (i + 4) pre ++ extra) as Hbd.
  { apply (f_equal (drop (i + 4))) in Hraw. by rewrite !drop_app_le in Hraw by lia. }
  assert (take i raw = take i pre) as ->.
  { apply (f_equal (take i)) in Hraw. by rewrite !take_app_le in Hraw by lia. }
  rewrite Hp. destruct framing as [n| |].
  - destruct (_ >? _) eqn:En; bool_prop; [lia|]. pose proof (body_of_more (Length n) _ extra b ltac:(done) Hbody) as [H1 ->].
    rewrite <- Hbd in H1 |- *. by apply read_sized_complete.
  - destruct (chunks_decodes _ _ Hbody dechunker_new (drop (i + 4) pre)) as (df & H1 & H2); [done|cbn; lia|done|].
    cbn in H2. rewrite <- H2. eapply (read_chunked_complete _ df extra); [apply following_new|done| |done].
    unfold len in *. rewrite length_drop. lia.
  - destruct (Hclose eq_refl) as [-> [more ->]]. cbn in Hbody. rewrite app_nil_r in Hbd. rewrite Hbody, <- Hbd.
    apply read_close_complete. rewrite Hbd, <- Hbody. done.
Qed.

(** C13. How the network cuts a response up changes nothing: whatever the
    sizes of the reads, a fetch that returns a body returns the one the bytes
    received spell (the part its Content-Length counts, its chunks decoded, or
    all of it up to the close), at most 64 KiB of it; and a response that fits
    the caps on its head and its framing is returned, with that body, however it
    is cut up, without waiting for the close when its framing ends it. *)
Theorem fetch_ignores_fragmentation :
  (forall reads b, exchange reads = Some (Ok b) ->
     len b <= MAX_BODY /\ exists i framing, response (received reads) i framing b) /\
  (forall pieces tail pre extra i framing b,
     mjoin pieces = pre ++ extra -> response pre i framing b ->
     Z.of_nat i + 3 <= MAX_HEAD -> len pre - (Z.of_nat i + 4) <= MAX_BODY + MAX_HEAD ->
     (framing = Close -> extra = [] /\ exists more, tail = RdEof :: more) ->
     exchange (data pieces ++ tail) = Some (Ok b)).
Proof. split; [exact exchange_sound|exact exchange_complete]. Qed.

Definition sample_response : bytes :=
  bstr "HTTP/1.1 200 OK" ++ CRLF ++ bstr "Content-Length: 11" ++ HEAD_END ++ bstr "{'version':1}".

Lemma fetch_ignores_fragmentation_witness :
  exchange (data ((fun b => [b]) <$> sample_response)) = Some (Ok (bstr "{'version':")) /\ exchange [RdData sample_response] = Some (Ok (bstr "{'version':")).
Proof.
  assert (response sample_response 35 (Length 11) (bstr "{'version':")) as Hr by (split; by vm_compute).
  split.
  - rewrite <- (app_nil_r (data _)).
    by apply (proj2 fetch_ignores_fragmentation _ [] sample_response [] 35%nat (Length 11)); [vm_compute|exact Hr|vm_compute|vm_compute|].
  - by apply (proj2 fetch_ignores_fragmentation [sample_response] [] sample_response [] 35%nat (Length 11)); [vm_compute|exact Hr|vm_compute|vm_compute|].
Defined.

(** The cap on the head is looked at between reads: these bytes are a response
    or an error by where they are cut. *)
Definition long_head : bytes :=
  bstr "HTTP/1.1 200 OK" ++ CRLF ++ bstr "X: " ++ replicate 16365 x61 ++ HEAD_END.

Lemma head_cap_by_reads :
  exchange (data [take 16384 long_head; drop 16384 long_head] ++ [RdEof]) = Some (Ok []) /\
  exchange (data [take 16386 long_head; drop 16386 long_head] ++ [RdEof]) = Some (Err HeadTooLarge).
Proof. by vm_compute. Qed.
