(* ===== verification/Gateway.v ===== *)
(** * Gateway: the HTTP control plane ([tacenta-gateway/src/lib.rs])

    Tenant sign-up and key management over the in-memory account store, behind
    the throttle of the caller's address, and the upgrade to the WebSocket
    carriage.  What the HTTP library reads of a request is an argument: the
    [x-forwarded-for] header as text, when it has one, and the decoded body. *)

From S2P Require Import Prelude Framing RateLimit Inventory Accounts AccountsState Url Tenant.

(** ** Requests and replies *)
Inductive ControlRequest :=
| CreateTenant (username email password : bytes)
| CreateKey (email password : bytes) (label : option bytes)
| ListKeys (email password : bytes)
| RevokeKey (email password prefix : bytes).

Inductive Reply :=
| TenantCreated (tenant_id api_key : bytes)
| KeyCreated (api_key key_prefix : bytes)
| KeyList (keys : list ApiKeyInfo)
| KeyRevoked (revoked : bool)
| RError (status : Z) (reason : bytes).

Definition status (r : Reply) : Z :=
  match r with TenantCreated _ _ | KeyCreated _ _ => 201 | KeyList _ | KeyRevoked _ => 200 | RError s _ => s end.

Definition rate_limited : Reply := RError 429 (bstr "rate_limited").

Definition signup_outcome (e : SignupError) : bytes :=
  match e with
  | UsernameTaken => bstr "username_taken" | EmailTaken => bstr "email_taken" | InvalidUsername => bstr "invalid_username"
  | InvalidEmail => bstr "invalid_email" | WeakPassword => bstr "weak_password" | UnknownTenant => bstr "server_error"
  end.

Definition signup_error (e : SignupError) : Reply :=
  RError match e with UsernameTaken | EmailTaken => 409 | InvalidUsername | InvalidEmail | WeakPassword => 422 | UnknownTenant => 500 end
    (signup_outcome e).

(** The address a request is throttled on. *)
Definition client_ip (forwarded : option bytes) : bytes :=
  match (s ← forwarded; let s := trim (last_field x2c s) in if bool_decide (s = []) then None else Some s) with
  | Some s => s
  | None => bstr "shared"
  end.

(** ** State *)
Section Gateway.
Context {env : Environment} {ClientTls : Type} (trust : Tls -> bytes -> option (option (bytes * ClientTls))).

Record Upstream := mkUpstream {
  up_directory : bytes; up_relay : bytes; up_accounts : bytes; up_provisioning : bytes; up_trust : option (bytes * ClientTls)
}.

(** [Upstream::from_document]: [host] in place of the document's hosts. *)
Definition upstream_from_document (doc : ServiceDocument) (host : option bytes) : option Upstream :=
  let at_host (entry : bytes) :=
    match host with
    | Some h => (if contains_byte (byte_of 58) h then bstr "[" ++ h ++ bstr "]" else h) ++ bstr ":" ++ last_field (byte_of 58) entry
    | None => entry
    end in
  t ← trust (tls doc) (server_name doc);
  Some (mkUpstream (at_host (sd_directory doc)) (at_host (sd_relay doc)) (at_host (sd_accounts doc)) (at_host (sd_provisioning doc)) t).

Definition up_address (u : Upstream) (service : bytes) : option bytes :=
  if bool_decide (service = bstr "directory") then Some (up_directory u)
  else if bool_decide (service = bstr "relay") then Some (up_relay u)
  else if bool_decide (service = bstr "accounts") then Some (up_accounts u)
  else if bool_decide (service = bstr "provisioning") then Some (up_provisioning u)
  else None.

Record Gateway := mkGateway {
  gw_store : Accounts; gw_limiter : Limiter; gw_directory_limiter : Limiter; gw_service : ServiceDocument; gw_upstream : Upstream
}.

Definition DIRECTORY_UPGRADES_PER_HOUR : Z := 120.

Definition with_upstream (a : Accounts) (doc : ServiceDocument) (host : option bytes) : option Gateway :=
  u ← upstream_from_document doc host; Some (mkGateway a ip_default (ip_with_limit DIRECTORY_UPGRADES_PER_HOUR) doc u).

Definition with_store (g : Gateway) (a : Accounts) : Gateway := mkGateway a (gw_limiter g) (gw_directory_limiter g) (gw_service g) (gw_upstream g).
Definition with_gw_limiter (g : Gateway) (l : Limiter) : Gateway := mkGateway (gw_store g) l (gw_directory_limiter g) (gw_service g) (gw_upstream g).
Definition with_directory_limiter (g : Gateway) (l : Limiter) : Gateway := mkGateway (gw_store g) (gw_limiter g) l (gw_service g) (gw_upstream g).

(** ** The handlers *)
(** One call: its address, the clock, what the store draws, the request. *)
Record Call := mkCall { cl_forwarded : option bytes; cl_now : Z; cl_signup : SignupRandom; cl_key : bytes; cl_request : ControlRequest }.

Definition throttled (g : Gateway) (forwarded : option bytes) (now : Z) : Gateway * bool :=
  let '(l, over) := check_and_record_at (gw_limiter g) (client_ip forwarded) now in (with_gw_limiter g l, over).

(** The tenant, or the reply to send; [None] is a panic. *)
Definition authenticate (g : Gateway) (email password : bytes) : option (result Reply bytes) :=
  r ← authenticate_tenant (gw_store g) email password;
  Some (match r with Ok t => Ok t | Err _ => Err (RError 401 (bstr "invalid_credentials")) end).

Definition create_tenant (g : Gateway) (c : Call) (username email password : bytes) : option (Gateway * Reply) :=
  let '(g, over) := throttled g (cl_forwarded c) (cl_now c) in
  if over : bool then Some (g, rate_limited) else
  let '(a, r) := sign_up_tenant (gw_store g) (cl_now c) (cl_signup c) username email password in
  Some (with_store g a, match r with Ok (id, _, _, api_key) => TenantCreated id api_key | Err e => signup_error e end).

Definition create_key (g : Gateway) (c : Call) (email password : bytes) (label : option bytes) : option (Gateway * Reply) :=
  let '(g, over) := throttled g (cl_forwarded c) (cl_now c) in
  if over : bool then Some (g, rate_limited) else
  t ← authenticate g email password;
  match t with
  | Err reply => Some (g, reply)
  | Ok t =>
      let label := l ← label; if bool_decide (trim l = []) then None else Some l in
      let '(a, r) := create_api_key (gw_store g) (cl_now c) (cl_key c) t label in
      Some (with_store g a, match r with Ok key => KeyCreated key (key_prefix key) | Err _ => RError 500 (bstr "server_error") end)
  end.

Definition list_keys (g : Gateway) (c : Call) (email password : bytes) : option (Gateway * Reply) :=
  let '(g, over) := throttled g (cl_forwarded c) (cl_now c) in
  if over : bool then Some (g, rate_limited) else
  t ← authenticate g email password;
  Some (g, match t with Err reply => reply | Ok t => KeyList (list_api_keys (gw_store g) t) end).

Definition revoke_key (g : Gateway) (c : Call) (email password prefix : bytes) : option (Gateway * Reply) :=
  let '(g, over) := throttled g (cl_forwarded c) (cl_now c) in
  if over : bool then Some (g, rate_limited) else
  t ← authenticate g email password;
  match t with
  | Err reply => Some (g, reply)
  | Ok t => let '(a, revoked) := revoke_api_key (gw_store g) t prefix in Some (with_store g a, KeyRevoked revoked)
  end.

Definition handle_control (g : Gateway) (c : Call) : option (Gateway * Reply) :=
  match cl_request c with
  | CreateTenant u e p => create_tenant g c u e p
  | CreateKey e p l => create_key g c e p l
  | ListKeys e p => list_keys g c e p
  | RevokeKey e p x => revoke_key g c e p x
  end.

(** The upgrade: refused, or carried to the service once it answers the dial. *)
Inductive Upgrade := Refused (status : Z) (reason : bytes) | Carried (addr : bytes) (trust : option (bytes * ClientTls)).

Definition ws_service (g : Gateway) (forwarded : option bytes) (now : Z) (service : bytes) (dialled : bool) : Gateway * Upgrade :=
  match up_address (gw_upstream g) service with
  | None => (g, Refused 404 (bstr "unknown_service"))
  | Some addr =>
      match ws (gw_service g) with
      | None => (g, Refused 404 (bstr "no_websocket_carriage"))
      | Some _ =>
          let '(g, over) :=
            if bool_decide (service = bstr "directory")
            then let '(l, over) := check_and_record_at (gw_directory_limiter g) (client_ip forwarded) now in (with_directory_limiter g l, over)
            else (g, false) in
          if over : bool then (g, Refused 429 (bstr "rate_limited")) else
          if dialled then (g, Carried addr (up_trust (gw_upstream g))) else (g, Refused 502 (bstr "service_unreachable"))
      end
  end.

(** ** Runs *)
Inductive Event := Control (c : Call) | Upgraded (forwarded : option bytes) (now : Z) (service : bytes) (dialled : bool).

Inductive Answer := Answered (r : Reply) | UpgradeAnswer (u : Upgrade).

Definition serve (g : Gateway) (e : Event) : option (Gateway * Answer) :=
  match e with
  | Control c => '(g, r) ← handle_control g c; Some (g, Answered r)
  | Upgraded f now s d => let '(g, u) := ws_service g f now s d in Some (g, UpgradeAnswer u)
  end.

Fixpoint serve_all (g : Gateway) (events : list Event) : option (Gateway * list Answer) :=
  match events with
  | [] => Some (g, [])
  | e :: events => '(g, a) ← serve g e; '(g, l) ← serve_all g events; Some (g, a :: l)
  end.
End Gateway.

(** ** What a run does *)
Section Runs.
Context {env : Environment} {laws : EnvironmentLaws} {E : Type} {core : InventoryCore E} {core_laws : InventoryCoreLaws E}.
Context {ClientTls : Type}.

Abbreviation G := (@Gateway ClientTls).

(** Whether the throttle refuses the call. *)
Definition over_limit (g : G) (c : Call) : bool := (throttled g (cl_forwarded c) (cl_now c)).2.

(** A key that a call makes, and a key that a call removes: the call passed
    the throttle, and signs a tenant up or has its credentials. *)
Definition minted (g : G) (c : Call) (h : bytes) (k : ApiKeyRecord) : Prop :=
  over_limit g c = false /\
  match cl_request c with
  | CreateTenant u e p =>
      exists key, h = sha256 key /\ (exists g', handle_control g c = Some (g', TenantCreated (ak_tenant k) key))
  | CreateKey e p _ =>
      authenticate_tenant (gw_store g) e p = Some (Ok (ak_tenant k)) /\
      exists key, h = sha256 key /\ (exists g', handle_control g c = Some (g', KeyCreated key (ak_prefix k)))
  | _ => False
  end.

Definition dropped (g : G) (c : Call) (k : ApiKeyRecord) : Prop :=
  over_limit g c = false /\
  exists e p, cl_request c = RevokeKey e p (ak_prefix k) /\ authenticate_tenant (gw_store g) e p = Some (Ok (ak_tenant k)).

(** What the request may hold and what is drawn for it: the ranges of their
    types, and an identifier that is new. *)
Definition call_ok (g : G) (c : Call) : bool :=
  (0 <=? cl_now c) && (cl_now c <=? u64_max) &&
  match cl_request c with
  | CreateTenant u e p =>
      bool_decide (tenants (gw_store g) !! prefixed (bstr "ten") (sr_ms (cl_signup c)) (sr_tail (cl_signup c)) = None) &&
      utf8_valid u && utf8_valid e && (len (sr_key (cl_signup c)) =? 32) && (len (sr_tail (cl_signup c)) =? 10)
  | CreateKey _ _ label =>
      (len (cl_key c) =? 32) && match label with Some l => utf8_valid l && (len l <=? u32_max) | None => true end
  | _ => true
  end.

Fixpoint events_ok (g : G) (events : list Event) : bool :=
  match events with
  | [] => true
  | e :: events =>
      match e with Control c => call_ok g c | Upgraded _ _ _ _ => true end &&
      match serve g e with Some (g', _) => events_ok g' events | None => true end
  end.

Record handled (g : G) (c : Call) (g' : G) (r : Reply) : Prop := {
  hd_ok : accounts_ok (gw_store g');
  hd_limiter : check_and_record_at (gw_limiter g) (client_ip (cl_forwarded c)) (cl_now c) = (gw_limiter g', status r =? 429);
  hd_directory : gw_directory_limiter g' = gw_directory_limiter g;
  hd_service : gw_service g' = gw_service g;
  hd_new h k : api_keys (gw_store g') !! h = Some k -> api_keys (gw_store g) !! h = Some k \/ minted g c h k;
  hd_gone h k : api_keys (gw_store g) !! h = Some k ->
    api_keys (gw_store g') !! h = Some k \/ dropped g c k \/ exists k', minted g c h k'
}.

Lemma throttled_eq (g : G) f now :
  exists l b, check_and_record_at (gw_limiter g) (client_ip f) now = (l, b) /\ throttled g f now = (with_gw_limiter g l, b).
Proof. unfold throttled. destruct (check_and_record_at _ _ _) as [l b]. eauto. Qed.

(** The throttled reply, and a reply that changes nothing. *)
Lemma handled_same (g : G) c l b r :
  check_and_record_at (gw_limiter g) (client_ip (cl_forwarded c)) (cl_now c) = (l, b) -> accounts_ok (gw_store g) ->
  (status r =? 429) = b -> handled g c (with_gw_limiter g l) r.
Proof. intros Hl Ha Hr. split; cbn; auto. by rewrite Hr. Qed.

Lemma authenticates (g : G) e p :
  accounts_ok (gw_store g) -> exists r, authenticate_tenant (gw_store g) e p = Some r /\
  authenticate g e p = Some match r with Ok t => Ok t | Err _ => Err (RError 401 (bstr "invalid_credentials")) end.
Proof.
  intros [[T1 T2 T3 T4] _ _]. unfold authenticate. assert (is_Some (authenticate_tenant (gw_store g) e p)) as [r ->]; [|eauto].
  unfold authenticate_tenant. destruct (_ ∪ _) as [id|] eqn:Ei; [|by eexists].
  assert (exists t, tenants (gw_store g) !! id = Some t) as [t ->]; [|by eexists].
  apply union_Some in Ei as [Hi|[_ Hi]]; [destruct (T2 _ _ Hi) as (t & ? & _)|destruct (T3 _ _ Hi) as (t & ? & _)]; by exists t.
Qed.

(** A sign-up is refused and changes nothing, or adds one key. *)
Lemma sign_up_tenant_cases a now rnd u e p :
  (exists er, sign_up_tenant a now rnd u e p = (a, Err er) /\ er <> UnknownTenant) \/
  exists a' id x y key, sign_up_tenant a now rnd u e p = (a', Ok (id, x, y, key)) /\
    api_keys a' = <[sha256 key := mkApiKey id (key_prefix key) None now]> (api_keys a).
Proof.
  unfold sign_up_tenant, normalize_username, normalize_email, validate_password. cbv zeta.
  destruct (_ && forallb _ _); cbn [mbind result_bind]; [|left; by eexists].
  match goal with |- context [if ?b then Ok (normalize e) else _] => destruct b end; cbn [mbind result_bind]; [|left; by eexists].
  destruct (_ && _); cbn [mbind result_bind]; [|left; by eexists].
  destruct (bool_decide _); [left; by eexists|]. destruct (bool_decide _); [left; by eexists|].
  right. unfold generate_api_key. by eexists _, _, _, _, _.
Qed.

(** What a handler changes in the keys. *)
Definition keys_step (g : G) (c : Call) (a' : Accounts) : Prop :=
  (forall h k, api_keys a' !! h = Some k -> api_keys (gw_store g) !! h = Some k \/ minted g c h k) /\
  (forall h k, api_keys (gw_store g) !! h = Some k ->
    api_keys a' !! h = Some k \/ dropped g c k \/ exists k', minted g c h k').

Lemma keys_inserted (g : G) c a' h k :
  api_keys a' = <[h := k]> (api_keys (gw_store g)) -> minted g c h k -> keys_step g c a'.
Proof.
  intros He Hm. split; intros h' k' Hk.
  - rewrite He in Hk. apply lookup_insert_Some in Hk as [[<- <-]|[_ Hk]]; auto.
  - rewrite He. destruct (decide (h = h')) as [<-|Hne]; [eauto|]. left. by rewrite lookup_insert_ne.
Qed.

Lemma handled_of (g : G) c l g' r :
  check_and_record_at (gw_limiter g) (client_ip (cl_forwarded c)) (cl_now c) = (l, false) -> g' = with_store (with_gw_limiter g l) (gw_store g') ->
  (status r =? 429) = false -> accounts_ok (gw_store g') -> keys_step g c (gw_store g') -> handled g c g' r.
Proof. intros Hl Hg Hr Ha [H1 H2]. rewrite Hg. split; cbn; auto. by rewrite Hr. Qed.

Lemma create_tenant_handled (g : G) c u e p :
  cl_request c = CreateTenant u e p -> accounts_ok (gw_store g) -> call_ok g c = true ->
  exists g' r, handle_control g c = Some (g', r) /\ handled g c g' r.
Proof.
  intros Hc Ha Hok. unfold call_ok in Hok. rewrite Hc in Hok. bool_prop.
  assert (op_ok (gw_store g) (OSignUpTenant (cl_now c) (cl_signup c) u e p)) as Hok by (cbn; unfold u64_wf; split_and!; done || lia).
  destruct (throttled_eq g (cl_forwarded c) (cl_now c)) as (l & b & Hl & Ht).
  assert (handle_control g c = create_tenant g c u e p) as Hh by (unfold handle_control; by rewrite Hc).
  rewrite Hh. unfold create_tenant in *. rewrite Ht in *. destruct b; [eexists _, _; split; [done|by apply (handled_same g c l true)]|].
  cbn [gw_store with_gw_limiter] in *. pose proof (sign_up_tenant_ok _ _ _ _ _ _ Hok Ha) as Ha'.
  destruct (sign_up_tenant_cases (gw_store g) (cl_now c) (cl_signup c) u e p) as [(er & Hs & Hne)|(a' & id & x & y & key & Hs & Hk)];
    rewrite Hs in *; eexists _, _; (split; [done|]).
  - apply (handled_of g c l); try done; [by destruct er|]. split; auto.
  - apply (handled_of g c l); try done. apply (keys_inserted g c _ _ _ Hk). split; [unfold over_limit; by rewrite Ht|].
    rewrite Hc. exists key. split; [done|]. eexists. exact Hh.
Qed.

(** The other three: throttled, unauthenticated, or the tenant's own. *)
Lemma with_credentials (g : G) c e p (k : G -> bytes -> option (G * Reply)) :
  accounts_ok (gw_store g) ->
  (forall l t, check_and_record_at (gw_limiter g) (client_ip (cl_forwarded c)) (cl_now c) = (l, false) -> over_limit g c = false ->
     authenticate_tenant (gw_store g) e p = Some (Ok t) -> exists g' r, k (with_gw_limiter g l) t = Some (g', r) /\ handled g c g' r) ->
  exists g' r,
    (let '(g, over) := throttled g (cl_forwarded c) (cl_now c) in
     if over : bool then Some (g, rate_limited) else
     t ← authenticate g e p; match t with Err reply => Some (g, reply) | Ok t => k g t end) = Some (g', r) /\ handled g c g' r.
Proof.
  intros Ha Hk. destruct (throttled_eq g (cl_forwarded c) (cl_now c)) as (l & b & Hl & Ht). rewrite Ht.
  destruct b; [eexists _, _; split; [done|by apply (handled_same g c l true)]|].
  destruct (authenticates (with_gw_limiter g l) e p Ha) as (r & Hr & ->). cbn [mbind option_bind].
  destruct r as [t|er]; [|eexists _, _; split; [done|by apply (handled_same g c l false)]].
  apply Hk; [done| |done]. unfold over_limit. by rewrite Ht.
Qed.

Lemma create_key_handled (g : G) c e p label :
  cl_request c = CreateKey e p label -> accounts_ok (gw_store g) -> call_ok g c = true ->
  exists g' r, handle_control g c = Some (g', r) /\ handled g c g' r.
Proof.
  intros Hc Ha Hok. unfold call_ok in Hok. rewrite Hc in Hok. bool_prop.
  assert (u64_wf (cl_now c)) as Hnow by (unfold u64_wf; lia).
  assert (match label with Some l => str_ok l | None => True end) as Hlabel by (destruct label; [bool_prop; by split|done]).
  assert (handle_control g c = create_key g c e p label) as Hh by (unfold handle_control; by rewrite Hc).
  rewrite Hh. unfold create_key in *. apply with_credentials; [done|]. intros l t Hl Hover Hauth.
  set (label' := l ← label; if bool_decide (trim l = []) then None else Some l).
  assert (match label' with Some x => x <> [] /\ str_ok x | None => True end) as Hl'.
  { unfold label'. destruct label as [x|]; cbn; [|done]. case_bool_decide as Hx; [done|]. split; [|done]. by intros ->. }
  pose proof (create_api_key_ok (gw_store g) (cl_now c) (cl_key c) t label' ltac:(by split_and!) Ha) as Ha'.
  destruct (create_api_key (gw_store g) (cl_now c) (cl_key c) t label') as [a' r] eqn:Er. cbn [fst] in Ha'.
  cbv beta zeta. cbn [gw_store with_gw_limiter]. rewrite Er. eexists _, _. split; [done|].
  unfold create_api_key in Er. destruct (negb _) eqn:Et.
  - injection Er as <- <-. apply (handled_of g c l); try done. split; auto.
  - cbn in Er. injection Er as <- <-. apply (handled_of g c l); try done.
    eapply keys_inserted; [done|]. split; [done|]. rewrite Hc. split; [done|]. eexists. split; [done|].
    eexists. rewrite Hh. unfold throttled. rewrite Hl. cbn [mbind option_bind]. unfold authenticate. cbn [gw_store with_gw_limiter].
    rewrite Hauth. cbn [mbind option_bind]. unfold create_api_key. rewrite Et. reflexivity.
Qed.

Lemma list_keys_handled (g : G) c e p :
  cl_request c = ListKeys e p -> accounts_ok (gw_store g) -> exists g' r, handle_control g c = Some (g', r) /\ handled g c g' r.
Proof.
  intros Hc Ha. unfold handle_control. rewrite Hc. unfold list_keys.
  destruct (with_credentials g c e p (fun g t => Some (g, KeyList (list_api_keys (gw_store g) t))) Ha) as (g' & r & H1 & H2).
  { intros l t Hl Hover Hauth. eexists _, _. split; [done|]. by apply (handled_same g c l false). }
  exists g', r. split; [|done]. rewrite <- H1. destruct (throttled _ _ _) as [g1 []]; [done|]. by destruct (authenticate _ _ _) as [[]|].
Qed.

Lemma revoke_key_handled (g : G) c e p x :
  cl_request c = RevokeKey e p x -> accounts_ok (gw_store g) -> exists g' r, handle_control g c = Some (g', r) /\ handled g c g' r.
Proof.
  intros Hc Ha. unfold handle_control. rewrite Hc. unfold revoke_key. apply with_credentials; [done|]. intros l t Hl Hover Hauth.
  cbn [gw_store with_gw_limiter]. pose proof (revoke_api_key_ok (gw_store g) t x Ha) as Ha'. destruct (revoke_api_key (gw_store g) t x) as [a' r] eqn:Er.
  eexists _, _. split; [done|]. apply (handled_of g c l); try done. unfold revoke_api_key in Er. injection Er as <- <-. split; cbn; intros h k.
  - intros [Hk _]%map_lookup_filter_Some. by left.
  - intros Hk. destruct (decide (ak_tenant k = t /\ ak_prefix k = x)) as [[<- <-]|Hne].
    + right. left. split; [done|]. eauto.
    + left. by apply map_lookup_filter_Some.
Qed.

Lemma control_handled (g : G) c : accounts_ok (gw_store g) -> call_ok g c = true -> exists g' r, handle_control g c = Some (g', r) /\ handled g c g' r.
Proof.
  destruct (cl_request c) eqn:Hc;
    eauto using create_tenant_handled, create_key_handled, list_keys_handled, revoke_key_handled.
Qed.

(** *** The throttles of a run *)
Definition ev_time (e : Event) : Z := match e with Control c => cl_now c | Upgraded _ now _ _ => now end.
Definition ev_address (e : Event) : bytes := client_ip match e with Control c => cl_forwarded c | Upgraded f _ _ _ => f end.

(** The events each throttle sees, and its verdict on one. *)
Definition control_attempt (e : Event) : option (bytes * Z) := match e with Control _ => Some (ev_address e, ev_time e) | _ => None end.
Definition directory_attempt (e : Event) : option (bytes * Z) :=
  match e with Upgraded _ _ s _ => if bool_decide (s = bstr "directory") then Some (ev_address e, ev_time e) else None | _ => None end.

Definition refused (a : @Answer ClientTls) : bool :=
  match a with Answered r => status r =? 429 | UpgradeAnswer (Refused s _) => s =? 429 | _ => false end.

Definition verdicts (attempt : Event -> option (bytes * Z)) (events : list Event) (answers : list (@Answer ClientTls)) : list bool :=
  omap (fun p => _ ← attempt p.1; Some (refused p.2)) (zip events answers).

(** What one event does to the throttles and the keys. *)
Record served (g : G) (e : Event) (g' : G) (a : @Answer ClientTls) : Prop := {
  sv_ok : accounts_ok (gw_store g');
  sv_service : gw_service g' = gw_service g;
  sv_control : match control_attempt e with
               | Some p => check_and_record_at (gw_limiter g) p.1 p.2 = (gw_limiter g', refused a)
               | None => gw_limiter g' = gw_limiter g
               end;
  sv_directory : is_Some (ws (gw_service g)) ->
               match directory_attempt e with
               | Some p => check_and_record_at (gw_directory_limiter g) p.1 p.2 = (gw_directory_limiter g', refused a)
               | None => gw_directory_limiter g' = gw_directory_limiter g
               end;
  sv_new h k : api_keys (gw_store g') !! h = Some k ->
    api_keys (gw_store g) !! h = Some k \/ exists c, e = Control c /\ minted g c h k;
  sv_gone h k : api_keys (gw_store g) !! h = Some k ->
    api_keys (gw_store g') !! h = Some k \/ exists c, e = Control c /\ (dropped g c k \/ exists k', minted g c h k')
}.

Lemma serves (g : G) e :
  accounts_ok (gw_store g) -> match e with Control c => call_ok g c | _ => true end = true ->
  exists g' a, serve g e = Some (g', a) /\ served g e g' a.
Proof.
  intros Ha He. destruct e as [c|f now s d]; cbn [serve].
  - destruct (control_handled g c Ha He) as (g' & r & -> & [H1 H2 H3 H4 H5 H6]). eexists _, _. split; [done|]. split; cbn; auto.
    + intros h k Hk. destruct (H5 h k Hk); eauto.
    + intros h k Hk. destruct (H6 h k Hk) as [?|[?|?]]; eauto.
  - destruct (ws_service g f now s d) as [g' u] eqn:Eu. eexists _, _. split; [done|]. unfold ws_service in Eu.
    destruct (up_address (gw_upstream g) s) as [addr|] eqn:Eup.
    2:{ injection Eu as <- <-. split; cbn; auto. intros _. case_bool_decide as Hs; [|done]. rewrite Hs in Eup. unfold up_address in Eup.
      by rewrite bool_decide_eq_true_2 in Eup. }
    destruct (ws (gw_service g)) as [w|] eqn:Ew.
    2:{ injection Eu as <- <-. split; cbn; auto. rewrite Ew. by intros [? ?]. }
    destruct (bool_decide (s = bstr "directory")) eqn:Es.
    + destruct (check_and_record_at (gw_directory_limiter g) (client_ip f) now) as [l over] eqn:El.
      destruct over; [|destruct d]; injection Eu as <- <-; (split; [done|done|done| |by auto|by auto]);
        intros _; unfold directory_attempt; rewrite Es; exact El.
    + destruct d; injection Eu as <- <-; (split; [done|done|done| |by auto|by auto]); intros _; unfold directory_attempt; by rewrite Es.
Qed.

Lemma serve_all_cons (g g1 : G) e a events :
  serve g e = Some (g1, a) -> serve_all g (e :: events) = '(g', l) ← serve_all g1 events; Some (g', a :: l).
Proof. intros H. cbn [serve_all]. by rewrite H. Qed.

Lemma serve_all_runs events : forall g : G,
  accounts_ok (gw_store g) -> events_ok g events = true ->
  exists g' answers, serve_all g events = Some (g', answers) /\ accounts_ok (gw_store g') /\
    verdicts control_attempt events answers = (limiter_run (gw_limiter g) (omap control_attempt events)).2 /\
    (is_Some (ws (gw_service g)) ->
     verdicts directory_attempt events answers = (limiter_run (gw_directory_limiter g) (omap directory_attempt events)).2).
Proof.
  induction events as [|e events IH]; intros g Ha He; [by eexists _, _|]. apply andb_prop in He as [Hc He].
  destruct (serves g e Ha Hc) as (g1 & a & Hs & [S1 S2 S3 S4 _ _]). rewrite Hs in He. destruct (IH g1 S1 He) as (g' & answers & H1 & H2 & H3 & H4).
  rewrite (serve_all_cons _ _ _ _ _ Hs), H1. cbn [mbind option_bind]. eexists _, _. split; [done|]. split; [done|].
  unfold check_and_record_at in *. unfold verdicts in *. cbn [zip zip_with omap list_omap fst snd].
  split.
  - destruct (control_attempt e) as [[ip now]|]; cbn [mbind option_bind] in *; [|by rewrite H3, S3].
    cbn [limiter_run fst snd] in *. rewrite S3, H3. by destruct (limiter_run _ _).
  - intros Hw. specialize (S4 Hw). rewrite S2 in H4. specialize (H4 Hw).
    destruct (directory_attempt e) as [[ip now]|]; cbn [mbind option_bind] in *; [|by rewrite H4, S4].
    cbn [limiter_run fst snd] in *. rewrite S4, H4. by destruct (limiter_run (gw_directory_limiter g1) (omap directory_attempt events)).
Qed.

(** A call of a run, and the state it meets. *)
Definition meets (g : G) (events : list Event) (P : G -> Call -> Prop) : Prop :=
  exists i c gi l, events !! i = Some (Control c) /\ serve_all g (take i events) = Some (gi, l) /\ P gi c.

Lemma meets_later (g g1 : G) e a events P : serve g e = Some (g1, a) -> meets g1 events P -> meets g (e :: events) P.
Proof.
  intros Hs (i & c & gi & l & H1 & H2 & H3). exists (S i), c, gi, (a :: l). split; [done|]. split; [|done].
  cbn [take]. by rewrite (serve_all_cons _ _ _ _ _ Hs), H2.
Qed.

Lemma meets_now (g : G) c events (P : G -> Call -> Prop) : P g c -> meets g (Control c :: events) P.
Proof. intros H. by exists 0%nat, c, g, []. Qed.

Lemma keys_of_run events : forall g g' : G, forall answers,
  accounts_ok (gw_store g) -> events_ok g events = true -> serve_all g events = Some (g', answers) -> forall h k,
  (api_keys (gw_store g') !! h = Some k -> api_keys (gw_store g) !! h = Some k \/ meets g events (fun gi c => minted gi c h k)) /\
  (api_keys (gw_store g) !! h = Some k ->
   api_keys (gw_store g') !! h = Some k \/ meets g events (fun gi c => dropped gi c k \/ exists k', minted gi c h k')).
Proof.
  induction events as [|e events IH]; intros g g' answers Ha He Hrun h k.
  - injection Hrun as <- <-. auto.
  - apply andb_prop in He as [Hc He]. destruct (serves g e Ha Hc) as (g1 & a & Hs & [S1 S2 _ _ S5 S6]).
    rewrite Hs in He. rewrite (serve_all_cons _ _ _ _ _ Hs) in Hrun. destruct (serve_all g1 events) as [[g2 l]|] eqn:E1; [|done]. injection Hrun as <- <-.
    destruct (IH g1 g2 l S1 He E1 h k) as [IH1 IH2]. split.
    + intros Hk. destruct (IH1 Hk) as [Hk1|Hm]; [|right; by eapply meets_later].
      destruct (S5 h k Hk1) as [?|(c & -> & Hm)]; [by left|right]. by apply meets_now.
    + intros Hk. destruct (S6 h k Hk) as [Hk1|(c & -> & Hm)]; [|right; by apply meets_now].
      destruct (IH2 Hk1) as [?|Hm]; [by left|right; by eapply meets_later].
Qed.

Lemma clock_sub (attempt : Event -> option (bytes * Z)) events : forall last,
  (forall e p, attempt e = Some p -> p.2 = ev_time e) ->
  clock_from last (ev_time <$> events) -> clock_from last (omap attempt events).*2.
Proof.
  assert (forall ts a b, a <= b -> clock_from b ts -> clock_from a ts) as Hle by (intros [|t ts] a b; cbn; [done|]; intros ? [? ?]; split; [lia|done]).
  induction events as [|e events IH]; intros last Hf H; cbn in *; [done|]. destruct H as [H1 H2].
  destruct (attempt e) as [p|] eqn:Ep; cbn; [|by eapply Hle, IH]. rewrite (Hf e p Ep). split; [done|by apply IH].
Qed.

Lemma attempts_sub (attempt : Event -> option (bytes * Z)) events :
  (forall e p, attempt e = Some p -> p.1 = ev_address e) ->
  (list_to_set (omap attempt events).*1 : gset bytes) ⊆ list_to_set (ev_address <$> events).
Proof.
  intros Hf. induction events as [|e events IH]; cbn; [done|]. destruct (attempt e) as [p|] eqn:Ep; cbn; [|set_solver].
  rewrite (Hf e p Ep). set_solver.
Qed.

(** C12. The control plane: over any run of sign-ups, key requests and carriage
    upgrades, nothing panics and the store stays well typed; an address is
    refused exactly when the hour before holds five served requests of its (for
    the directory, 120 upgrades), as long as no more than 65,536 addresses call;
    and every key the store has gained was handed out by a request that passed
    the throttle and either signed its tenant up or carried that tenant's
    credentials, and every key it has lost was named by its prefix in such a
    request with its own tenant's credentials (a drawn key with the hash of one
    that exists would also replace it). *)
Theorem gateway_keys_are_earned (g : G) events :
  accounts_ok (gw_store g) -> events_ok g events = true ->
  gw_limiter g = ip_default -> gw_directory_limiter g = ip_with_limit DIRECTORY_UPGRADES_PER_HOUR ->
  clock_from 0 (ev_time <$> events) -> Z.of_nat (size (list_to_set (ev_address <$> events) : gset bytes)) <= MAX_KEYS ->
  exists g' answers, serve_all g events = Some (g', answers) /\ accounts_ok (gw_store g') /\
    verdicts control_attempt events answers = reference_verdicts MAX_PER_WINDOW WINDOW_SECS [] (omap control_attempt events) /\
    (is_Some (ws (gw_service g)) ->
     verdicts directory_attempt events answers =
       reference_verdicts DIRECTORY_UPGRADES_PER_HOUR WINDOW_SECS [] (omap directory_attempt events)) /\
    (forall h k, api_keys (gw_store g') !! h = Some k ->
       api_keys (gw_store g) !! h = Some k \/ meets g events (fun gi c => minted gi c h k)) /\
    (forall h k, api_keys (gw_store g) !! h = Some k ->
       api_keys (gw_store g') !! h = Some k \/ meets g events (fun gi c => dropped gi c k \/ exists k', minted gi c h k')).
Proof.
  intros Ha He Hl Hd Hc Hs. destruct (serve_all_runs events g Ha He) as (g' & answers & H1 & H2 & H3 & H4).
  exists g', answers. split; [done|]. split; [done|]. split; [|split; [|split]].
  - rewrite H3, Hl. apply (limiter_run_agrees _ ip_default [] 0 (list_to_set (ev_address <$> events))); [done| |done| |done].
    + apply clock_sub; [|done]. by intros [] p [= <-].
    + apply attempts_sub. by intros [] p [= <-].
  - intros Hw. rewrite (H4 Hw), Hd. apply (limiter_run_agrees _ (ip_with_limit _) [] 0 (list_to_set (ev_address <$> events))); [done| |done| |done].
    + apply clock_sub; [|done]. intros [] p; cbn; [done|]. case_bool_decide; [by intros [= <-]|done].
    + apply attempts_sub. intros [] p; cbn; [done|]. case_bool_decide; [by intros [= <-]|done].
  - intros h k. by apply (keys_of_run events g g' answers).
  - intros h k. by apply (keys_of_run events g g' answers).
Qed.
End Runs.

(** ** A run for the witness *)
Definition sample_gateway : @Gateway nat :=
  mkGateway accounts_new ip_default (ip_with_limit DIRECTORY_UPGRADES_PER_HOUR) (hosted (bstr "tacenta.example"))
    (mkUpstream (bstr "d") (bstr "r") (bstr "a") (bstr "p") None).

Definition sample_call (now : Z) (key : byte) (r : ControlRequest) : Event :=
  Control (mkCall (Some (bstr "10.0.0.1, 203.0.113.7")) now
    (mkSignupRandom 5 (replicate 10 x01) (replicate 32 x02) (replicate 16 x03)) (replicate 32 key) r).

Definition sample_events : list Event := [
  sample_call 100 x00 (CreateTenant (bstr "Acme") (bstr "a@acme.example") (bstr "correct horse"));
  sample_call 101 x08 (CreateKey (bstr "a@acme.example") (bstr "correct horse") (Some (bstr " ")));
  sample_call 102 x09 (CreateKey (bstr "acme") (bstr "wrong") None);
  sample_call 103 x00 (RevokeKey (bstr "acme") (bstr "correct horse") (bstr "tct_08080808"));
  sample_call 104 x00 (ListKeys (bstr "acme") (bstr "correct horse"));
  sample_call 105 x00 (ListKeys (bstr "acme") (bstr "correct horse"))].

Lemma gateway_keys_are_earned_witness :
  exists g' answers, serve_all sample_gateway sample_events = Some (g', answers) /\ accounts_ok (gw_store g') /\
    verdicts control_attempt sample_events answers = [false; false; false; false; false; true] /\
    forall h k, api_keys (gw_store g') !! h = Some k -> meets sample_gateway sample_events (fun gi c => minted gi c h k).
Proof.
  destruct (gateway_keys_are_earned sample_gateway sample_events accounts_new_ok) as (g' & answers & H1 & H2 & H3 & _ & H5 & _).
  - by vm_compute.
  - done.
  - done.
  - cbn. lia.
  - by vm_compute.
  - exists g', answers. split; [done|]. split; [done|]. split; [rewrite H3; by vm_compute|].
    intros h k Hk. destruct (H5 h k Hk) as [He|Hm]; [|done]. change ((∅ : gmap bytes ApiKeyRecord) !! h = Some k) in He. by rewrite lookup_empty in He.
Defined.
